(* ===== verification/_CoqProject ===== *)
-Q . S2P
Prelude.v
Int.v
IntBits.v
Utf8.v
WideText.v
CommandLine.v
Environment.v
Process.v
Str.v
Cursor.v
OrdMap.v
Fmt.v
FmtInteger.v
FmtSpec.v
FmtSink.v
StringBuf.v
Duration.v
SocketAddr.v
SocketAddrSpec.v
Threads.v
FutexMutex.v
FutexOnce.v
FutexParker.v
FutexCondvar.v
Task.v
TaskSpec.v
DebugStore.v
DebugRecorder.v
DebugCollector.v
DebugInvariant.v
DebugRefresh.v
DebugSpec.v
FloatSpec.v
Rounding.v
Bignum.v
Dec2Flt.v
Dec2FltSpec.v
Flt2Dec.v
Flt2DecSpec.v
Flt2DecFloat.v
FloatParse.v
FmtFloat.v
FmtFloatSpec.v
Json.v
JsonReader.v
JsonParser.v
JsonGrammar.v
JsonRun.v
JsonTokens.v
JsonComplete.v
JsonCorrect.v
JsonSpec.v
JsonEmit.v
JsonRoundtrip.v
Toml.v
TomlScalar.v
TomlParser.v
TomlTokens.v
TomlCorrect.v
TomlSpec.v
Serde.v
SerdeTraits.v
SerdeRoundtrip.v
JsonTyped.v
JsonDirect.v
JsonTypedSpec.v
DebugProtocol.v
DebugRequest.v
DebugMessages.v
DebugEncode.v
DebugProtocolSpec.v
DebugSession.v
DebugServer.v
Time.v
Clock.v
UnixClock.v
WindowsClock.v
ClockSpec.v
Calendar.v
DateTime.v
