(* ===== verification/Prelude.v ===== *)
(** * rstd: a verification library

    rstd (under [src/src/]) rebuilds the layers of the Rust standard library in
    C++20 modules: [core] (integers, text, formatting), [alloc] (strings,
    containers), [std] (threads, files, sockets, an asynchronous runtime) and,
    on top of them, libraries for parsing, JSON, TOML and serialization.  This
    development models the parts that carry logic of their own and proves what
    makes them correct.  Every definition is a translation of the lines that
    the manifest names for it; definitions keep the names of the source, with a
    prefix where two files use the same one.

    ** Conventions

    - A [w]-bit integer is a [Z] with its wrap-around written out ([Int]), a
      byte a [Z] between 0 and 255, a text the list of its bytes, a float its
      bit pattern, an ordered map the sorted association list of its entries.
    - A computation ends in one of four ways ([outcome], below): a value, an
      error, a panic, or [OutOfFuel], which stands for no behaviour of the
      program.  A mutable object is the state of the monad [M]; its state
      survives an error, as it does in the source.
    - A loop is structural where the source's is; otherwise it carries fuel,
      started from what bounds its rounds (bytes left, tokens left, digits of
      the type), and the "settles" theorems show that it never runs out.
    - Concurrent code is a step relation: a step is one atomic operation of one
      thread, or one critical section, and steps interleave freely.  Memory is
      sequentially consistent; the memory orders of the source are not modelled.
    - Type classes are the interfaces between components: [FloatSpec] states
      what the parsers need of decimal conversion, [OrdMap] what they need of
      key order, [Fmt.Write] what a formatter needs of its sink,
      [FmtSink.Roomy] a sink that never refuses text, [Clock.TimePointLaws] and
      the other classes of [Clock] what the times of either platform promise,
      and [SerdeRoundtrip.TokenRoundtrip] what a container needs of its elements.
      [DebugStore.Sizes] holds the object sizes the compiler chooses.

    ** Core

    - [Int], [IntBits] ([core/src/num/types.cppm], [integer_methods.cppm]): the
      arithmetic of the ten integer types, overflow, saturation and bit
      operations included, against exact arithmetic.
    - [Utf8] ([core/src/char/utf8.cppm], [ascii.cppm], [str/traits.cppm]):
      encoding, decoding and validating.  Decoding inverts encoding and accepts
      only canonical encodings; the two validators agree with the grammar.
    - [Str] ([core/src/str/str.cppm]): searching, splitting and trimming.
    - [Fmt], [FmtInteger], [FmtSpec] ([core/src/lib.cpp], [fmt/mod.cppm],
      [fmt/integer.cppm]): placeholders, padding, format strings and integers.
      The compile-time check of a format string and the run-time interpreter
      agree, and the text written is exact.
    - [Bignum], [FloatSpec], [Rounding], [Dec2Flt], [Dec2FltSpec]
      ([core/src/num/bignum.cppm], [dec2flt.cppm]): big integers
      in fixed arrays refine the integers, and converting a decimal to a double
      rounds to nearest even, whatever its length.
    - [Flt2Dec], [Flt2DecSpec], [Flt2DecFloat]
      ([core/src/num/flt2dec.cppm]): the digits of a float.  The digits of the
      shortest mode, read back, give the same float, and no others that are
      fewer do.  The digits of a fixed precision are modelled, not proved.
    - [FmtFloat], [FmtFloatSpec] ([core/src/fmt/floating.cppm]): the texts of
      floats; what is written without a precision is read back as the float.
    - [FloatParse] ([core/src/num/floating_parse.cppm]): the
      [from_str] of floats, exact on decimals whose exponent is not cut short
      ([FloatParse.exponent_cut_misread] shows one that is); the one of [f32]
      rounds twice ([FloatParse.f32_rounds_twice]).
    - [Time] ([core/src/time.cppm]): durations, exact on every branch.

    ** Alloc and std

    - [StringBuf], [Duration] ([alloc/src/string.cpp]): an owned string refines
      the sequence of its characters; the debug text of a duration is exact.
    - [SocketAddr], [SocketAddrSpec] ([std/src/net/socket_addr.cpp]): parsing
      inverts formatting, and never panics.
    - [Clock] is the interface of [Instant] and [SystemTime], [UnixClock] and
      [WindowsClock] ([std/src/sys/pal/*/time.cpp]) the two implementations,
      [ClockSpec] their theorems: times are points on a line of nanoseconds (of
      intervals of a hundred of them) and arithmetic on them is exact.
    - [Calendar], [DateTime] ([std/src/time/calendar.cppm]): the civil calendar
      against its leap-year rule, dates, times and offsets against Unix time.
    - [WideText] ([std/src/sys/os_str/encoding.cppm]): the texts of Windows kept
      as bytes, without loss, lone surrogates included.
    - [CommandLine] ([std/src/process/mod.cpp], [sys/args/windows.cppm]): the
      command line of a child, which it takes apart into the same arguments;
      the name of the program may gain backslashes
      ([CommandLine.program_backslashes]).
    - [Environment] ([std/src/process/command.cppm], [process/mod.cpp],
      [env.cpp]): the environment of a child.  The classes [KeyLaws] and
      [EntryLaws] are what the record of a [Command] and the loops over entries
      need of a platform; views of an environment that agree on valid keys are
      a setoid.  On both platforms the child reads what the calls describe.
    - [Process] ([std/src/process/mod.cpp], [os/linux/process.cpp]): spawning a
      child on Unix, over any system whose calls change the table of descriptors
      as POSIX says ([KernelLaws], [ActionLaws]): no descriptor is lost, and the
      child inherits exactly what was asked for; the handle of a child
      ([Process.Handle]): it ends once, and its pid is not used after that.
      [Process.closed_stdin_lost] shows what happens when the parent has no
      standard input.
    - [Threads] is the setting of the futex files: a word, its wait queue and
      the control points of the threads.  [FutexMutex], [FutexOnce],
      [FutexParker] and [FutexCondvar] ([std/src/sys/sync/*/futex.cpp] over the
      wait loop of [sys/pal/unix/futex.cpp]) refine a lock, a call that happens
      once, a binary token, and a wait that gives the lock back; nobody is left
      asleep, except by [FutexCondvar.condvar_notification_lost].
    - [Task], [TaskSpec] ([std/src/async/runtime_core.cpp], [TaskStateBase]):
      the life of an asynchronous task between workers, wakers and facilities.
      A task is polled by one thread at a time, completes once, and a wake is
      not lost; a completion may be ([TaskSpec.task_completion_lost]).

    ** Diagnostics of the asynchronous runtime

    Recorders write the life of tasks, workers and waits into slots; a
    collector drains their events into a bounded history and keeps copies of
    the records; handles query both; a server hands the answers out over
    loopback connections, one JSON line for each request line
    ([std/src/async/debug/mod.cpp], [protocol.cpp], [server.cpp]).

    - [DebugStore], [DebugRecorder], [DebugCollector] are the data, the
      recorders and wait guards, and the collector with the handles.  A step is
      one critical section.  A query runs many: what other threads do before
      each of them, and whether they then hold the mutex a [try_lock] asks for,
      is an input ([DebugStore.Pause], [DebugCollector.pause]), as are the clock
      and the sizes of objects.  The channel between recorders and collector is
      a bounded queue; a counter that a section touches without a lock is
      touched in that step.
    - [DebugInvariant] holds the invariant of the store and what recorders do to
      it, [DebugRefresh] the specification of each critical section, the steps
      in any order, and [refresh] with other threads between its sections;
      [DebugSpec] the theorems: the accounted memory is exact and bounded, event
      queries answer exactly what the history holds, every event drained enters
      it under the next number, and a snapshot has every record registered when
      it began, not older than it was then, and is exact when nobody disturbs.
    - [DebugProtocol] is the protocol, [DebugRequest] the grammar of requests,
      [DebugMessages] the values that messages print, with the proof that the
      JSON reader of [JsonSpec] reads them back, [DebugEncode] what the bounded
      buffer writes.  [DebugProtocolSpec] shows that pages hand out a
      snapshot up to the first record that no page can carry, and that a reader
      of events loses none, [DebugSession] that every
      request is answered within the agreed size.
    - [DebugServer] is the loop of a connection: one answer for each line,
      however the bytes are cut into reads, until a line is too long or an
      answer is not delivered, and bounded buffers.

    ** Parsing and serialization

    - [Cursor] ([parse/src/core/source.cppm], [consume.cppm]): the cursor under
      the parsers and the line and column it tracks.
    - [OrdMap]: the ordered maps ([BTreeMap]) as their clients see them.
    - JSON ([json/src/reader.cpp], [parser.cpp]): [Json] is the data,
      [JsonReader] and [JsonParser] the program, [JsonGrammar] the grammar,
      [JsonRun] and [JsonTokens] the logic of runs and tokens,
      [JsonComplete] and [JsonCorrect] the two directions, and [JsonSpec] the theorems: the parser accepts exactly the grammar and
      returns its value, always ends, and its values are well formed.
    - Writing JSON ([json/src/serialize.cppm], [string.cppm]): [JsonEmit] is
      the emitter and the quoting of strings, [JsonRoundtrip] the texts of
      numbers and the theorem:
      what is written of a value, compact or indented, parses to that value.
    - TOML ([toml/src/parser.cpp]): [Toml] is the data, [TomlScalar] and
      [TomlParser] the program, [TomlTokens] the logic of runs, [TomlCorrect] the tree
      of definitions and its relation to the document, [TomlScalar] and
      [TomlSpec] the theorems: parsing
      always ends, documents are well typed and within the limits, statements
      only add, integers are exact, key paths round-trip.
    - serde ([serde/src/error.cpp], [token.cpp], [token.cppm],
      [containers.cppm], [primitives.cppm]): [Serde] is the token format,
      [SerdeTraits] the traits, [SerdeRoundtrip] the theorems:
      every type built from the supported shapes round-trips, and reading any
      tokens ends.
    - serde over JSON ([json/src/serialize.cppm], [typed.cppm]): [JsonTyped] is
      the serializer that builds a value, [JsonDirect] the one that writes
      text.  [JsonTypedSpec] shows that the second writes the entries in
      the order of the calls, the first in the order of keys, and that both
      texts read back as one value, where the data can be written at all
      ([JsonTypedSpec.direct_unchecked] shows what happens elsewhere);
      computations are compared up to their results, a setoid.

    ** Fuel

    Parsers start their loops with the bytes left and one more (values: twice
    the bytes left and two more, as a value and its container alternate); the
    token format does the same with tokens; digit loops have the bits or the
    decimal digits of the widest type.  Padding writes at least one byte a
    round.  The shortest digits of a double are at most seventeen, which is the
    fuel of their loop; the exponent of a float has at most three digits and a
    sign.  Writing a value is structural.  The collector's loops have the length of the channel, of the index
    and of the history.  Each bound is part of the theorem that uses it; the
    waits for a child need more fuel than the system interrupts calls in a row.

    ** Not modelled

    The layers that only call the operating system (files, spawning on Windows,
    sockets, the reactor, signals, reading clocks and the local offset), the
    run-time workers around the task state machine, the accept loop and the shutdown of
    the diagnostics server, the vendored allocator and compiler support,
    lock-free channels and the pointer queue of the fallback [Once] (they
    depend on the memory under them), allocation and capacity, the hash table
    and the nodes of the B-tree, template metaprogramming (regular
    expressions, derive macros), the TOML serializer, the deserializers over
    JSON values, the texts of errors, the conversions between durations and
    doubles, and the benchmark and test tools.  That the digits of a float at a
    fixed precision are the exact ones is not proved. *)

From Stdlib Require Import ZArith Lia ZifyBool.
From stdpp Require Export base list numbers option tactics.

(** ** Results and effects

    The source reports recoverable failures through [Result<T, E>], absence
    through [Option<T>], and stops the program through [rstd::panic],
    [rstd_assert] and [rstd::intrinsics::abort].  A computation of the model
    therefore ends in one of four ways; [OutOfFuel] never corresponds to a
    behaviour of the program and every component proves that it cannot occur. *)

Inductive result (A E : Type) : Type :=
| Ok (a : A)
| Err (e : E).

Arguments Ok {A E} a.
Arguments Err {A E} e.

Inductive outcome (E A : Type) : Type :=
| Ret (a : A)
| Fail (e : E)
| Panic
| OutOfFuel.

Arguments Ret {E A} a.
Arguments Fail {E A} e.
Arguments Panic {E A}.
Arguments OutOfFuel {E A}.

(** A computation over a mutable object of type [S]: the state survives
    failure, as it does in the source, where the caller of a failed member
    function still holds the object. *)
Definition M (S E A : Type) : Type := S -> outcome E A * S.

Definition ret {S E A} (a : A) : M S E A := fun s => (Ret a, s).
Definition throw {S E A} (e : E) : M S E A := fun s => (Fail e, s).
Definition panic {S E A} : M S E A := fun s => (Panic, s).
Definition out_of_fuel {S E A} : M S E A := fun s => (OutOfFuel, s).
Definition gets {S E A} (f : S -> A) : M S E A := fun s => (Ret (f s), s).
Definition modify {S E} (f : S -> S) : M S E unit := fun s => (Ret tt, f s).

Definition of_option {S E A} (o : option A) : M S E A :=
  match o with Some a => ret a | None => panic end.

Definition bind {S E A B} (m : M S E A) (k : A -> M S E B) : M S E B :=
  fun s =>
    match m s with
    | (Ret a, s') => k a s'
    | (Fail e, s') => (Fail e, s')
    | (Panic, s') => (Panic, s')
    | (OutOfFuel, s') => (OutOfFuel, s')
    end.

Declare Scope rstd_scope.
Delimit Scope rstd_scope with rstd.

Notation "'let*' x ':=' m 'in' k" := (bind m (fun x => k))
  (at level 200, x name, m at level 99, k at level 200,
   format "'[v' 'let*'  x  ':='  m  'in' '//' k ']'") : rstd_scope.
Notation "'do*' m ';;' k" := (bind m (fun _ => k))
  (at level 200, m at level 99, k at level 200,
   format "'[v' 'do*'  m  ';;' '//' k ']'") : rstd_scope.

(** Computations without state. *)
Definition obind {E A B} (m : outcome E A) (k : A -> outcome E B) : outcome E B :=
  match m with
  | Ret a => k a
  | Fail e => Fail e
  | Panic => Panic
  | OutOfFuel => OutOfFuel
  end.

Notation "'let!' x ':=' m 'in' k" := (obind m (fun x => k))
  (at level 200, x name, m at level 99, k at level 200,
   format "'[v' 'let!'  x  ':='  m  'in' '//' k ']'") : rstd_scope.

(** Indexing a slice panics out of range. *)
Definition index {E A} (s : list A) (i : nat) : outcome E A :=
  match s !! i with Some v => Ret v | None => Panic end.

(** What a result promises: a value with [Q], or an error with [F]. *)
Definition ends {E A} (m : outcome E A) (Q : A -> Prop) (F : E -> Prop) : Prop :=
  match m with Ret a => Q a | Fail e => F e | Panic | OutOfFuel => False end.

Lemma ends_bind {E A B} (m : outcome E A) (k : A -> outcome E B) Q F :
  ends m (fun a => ends (k a) Q F) F -> ends (obind m k) Q F.
Proof. by destruct m. Qed.

Lemma ends_mono {E A} (m : outcome E A) (Q Q' : A -> Prop) (F F' : E -> Prop) :
  ends m Q F -> (forall a, Q a -> Q' a) -> (forall e, F e -> F' e) -> ends m Q' F'.
Proof. destruct m; cbn; auto. Qed.

Lemma ends_index {E A} (s : list A) i (Q : A -> Prop) (F : E -> Prop) :
  (i < length s)%nat -> (forall v, s !! i = Some v -> Q v) -> ends (index s i) Q F.
Proof. intros Hi HQ. unfold index. destruct (lookup_lt_is_Some_2 s i Hi) as [v Hv]. rewrite Hv. by apply HQ. Qed.

(** ** Shared automation

    [rstd] holds the lemmas that close routine side conditions; the files
    extend it with their own. *)

Create HintDb rstd discriminated.

(** Splits every boolean test that decides the goal or a hypothesis. *)
Ltac case_if :=
  match goal with
  | |- context [if ?b then _ else _] => destruct b eqn:?
  | H : context [if ?b then _ else _] |- _ => destruct b eqn:?
  end.

Ltac split_and_all := repeat match goal with |- _ /\ _ => split end.


(** ** Bits of bounded integers *)

Local Open Scope Z_scope.

Lemma testbit_high n b i : 0 <= n -> 0 <= b < 2 ^ n -> n <= i -> Z.testbit b i = false.
Proof.
  intros Hn Hb Hi. rewrite <- (Z.mod_small b (2 ^ n)) by done. by apply Z.mod_pow2_bits_high.
Qed.

(** Joining a multiple of [2 ^ n] with a number below [2 ^ n] is addition. *)
Lemma lor_add n k x : 0 <= n -> 0 <= x < 2 ^ n -> Z.lor (k * 2 ^ n) x = k * 2 ^ n + x.
Proof.
  intros Hn Hx. symmetry.
  assert (Z.land (k * 2 ^ n) x = 0) as Hd.
  { apply Z.bits_inj'. intros i Hi. rewrite Z.land_spec, Z.bits_0.
    destruct (Z.lt_ge_cases i n).
    - by rewrite Z.mul_pow2_bits_low by lia.
    - rewrite (testbit_high n x i) by lia. apply andb_false_r. }
  by rewrite Z.add_nocarry_lxor, Z.lxor_lor by done.
Qed.

Lemma lor_shiftl_add n k x : 0 <= n -> 0 <= x < 2 ^ n -> Z.lor (Z.shiftl k n) x = k * 2 ^ n + x.
Proof. intros. rewrite Z.shiftl_mul_pow2 by lia. by apply lor_add. Qed.

Lemma land_mask n x : 0 <= n -> Z.land x (2 ^ n - 1) = x mod 2 ^ n.
Proof. intros. rewrite <- Z.land_ones by lia. by rewrite Z.ones_equiv, Z.sub_1_r. Qed.

(** ** Checking a property of all bytes by evaluation *)

Definition all_bytes (P : Z -> bool) : bool := forallb P (seqZ 0 256).

Lemma all_bytes_spec P b : all_bytes P = true -> 0 <= b < 256 -> P b = true.
Proof.
  unfold all_bytes. rewrite forallb_forall. intros H Hb. apply H, list_elem_of_In, elem_of_seqZ. lia.
Qed.

Ltac by_bytes b :=
  match goal with
  | H : 0 <= b < 256 |- ?G =>
    match eval pattern b in G with
    | ?P b =>
      match P with
      | (fun x => @?l x = @?r x) =>
        apply Bool.eqb_prop;
        apply (all_bytes_spec (fun x => Bool.eqb (l x) (r x)) b); [by vm_compute | exact H]
      end
    end
  end.
