(* ===== verification/Int.v ===== *)
(** * Machine integers: [Integer<Derived, Primitive, Tag>]

    Models [src/core/src/num/types.cppm] and
    [src/core/src/num/integer_methods.cppm].  A value of an integer type is the
    mathematical integer it denotes; an [int_type] carries the signedness and
    the width, so every operation is defined once for [u8] .. [i128], as the
    class template is.  [None] stands for a panic. *)

From Stdlib Require Import ZArith Lia ZifyBool.
From S2P Require Import Prelude.
Local Open Scope Z_scope.

(** ** The types *)

Record int_type := IntType { is_signed : bool; bit_width : Z }.

Definition u8 := IntType false 8.
Definition u16 := IntType false 16.
Definition u32 := IntType false 32.
Definition u64 := IntType false 64.
Definition u128 := IntType false 128.
Definition usize := u64.
Definition i8 := IntType true 8.
Definition i16 := IntType true 16.
Definition i32 := IntType true 32.
Definition i64 := IntType true 64.
Definition i128 := IntType true 128.

(** The widths the source instantiates the template at. *)
Definition wf_type (t : int_type) : bool :=
  let w := bit_width t in
  (w =? 8) || (w =? 16) || (w =? 32) || (w =? 64) || (w =? 128).

Definition unsigned_of (t : int_type) : int_type := IntType false (bit_width t).
Definition signed_of (t : int_type) : int_type := IntType true (bit_width t).

Definition MAX (t : int_type) : Z :=
  if is_signed t then 2 ^ (bit_width t - 1) - 1 else 2 ^ bit_width t - 1.
Definition MIN (t : int_type) : Z :=
  if is_signed t then - 2 ^ (bit_width t - 1) else 0.

Definition in_range (t : int_type) (z : Z) : bool := (MIN t <=? z) && (z <=? MAX t).

(** The value of type [t] congruent to [z]: what a conversion to the
    primitive keeps. *)
Definition wrap (t : int_type) (z : Z) : Z :=
  let m := z mod 2 ^ bit_width t in
  if is_signed t && (2 ^ (bit_width t - 1) <=? m) then m - 2 ^ bit_width t else m.

Definition to_unsigned_bits (t : int_type) (v : Z) : Z := v mod 2 ^ bit_width t.
Definition from_unsigned_bits (t : int_type) (b : Z) : Z := wrap t b.

(** The nearest value of [t]: what saturation means. *)
Definition clamp (t : int_type) (z : Z) : Z := Z.max (MIN t) (Z.min (MAX t) z).

(** ** Overflowing operations *)

Definition add_with_overflow (t : int_type) (lhs rhs : Z) : Z * bool :=
  (wrap t (lhs + rhs), negb (in_range t (lhs + rhs))).
Definition sub_with_overflow (t : int_type) (lhs rhs : Z) : Z * bool :=
  (wrap t (lhs - rhs), negb (in_range t (lhs - rhs))).
Definition mul_with_overflow (t : int_type) (lhs rhs : Z) : Z * bool :=
  (wrap t (lhs * rhs), negb (in_range t (lhs * rhs))).

Definition overflowing_add (t : int_type) (a b : Z) : Z * bool := add_with_overflow t a b.
Definition overflowing_sub (t : int_type) (a b : Z) : Z * bool := sub_with_overflow t a b.
Definition overflowing_mul (t : int_type) (a b : Z) : Z * bool := mul_with_overflow t a b.

Definition overflowing_div (t : int_type) (a b : Z) : option (Z * bool) :=
  if b =? 0 then None
  else if is_signed t && (a =? MIN t) && (b =? -1) then Some (MIN t, true)
  else Some (Z.quot a b, false).

Definition overflowing_rem (t : int_type) (a b : Z) : option (Z * bool) :=
  if b =? 0 then None
  else if is_signed t && (a =? MIN t) && (b =? -1) then Some (0, true)
  else Some (Z.rem a b, false).

Definition overflowing_neg (t : int_type) (a : Z) : Z * bool := sub_with_overflow t 0 a.

(** [rhs] is a [u64]. *)
Definition overflowing_shl (t : int_type) (a rhs : Z) : Z * bool :=
  let overflow := bit_width t <=? rhs in
  let amount := rhs mod bit_width t in
  let bits := Z.shiftl (to_unsigned_bits t a) amount mod 2 ^ bit_width t in
  (from_unsigned_bits t bits, overflow).

Definition overflowing_shr (t : int_type) (a rhs : Z) : Z * bool :=
  let overflow := bit_width t <=? rhs in
  let amount := rhs mod bit_width t in
  (Z.shiftr a amount, overflow).

(** The square-and-multiply loop; [remaining] is a [u32], so 32 rounds
    empty it. *)
Fixpoint pow_loop (fuel : nat) (t : int_type) (remaining value base : Z) (overflow : bool)
    : Z * bool :=
  match fuel with
  | O => (value, overflow)
  | S fuel =>
    if remaining =? 0 then (value, overflow)
    else
      let '(value, overflow) :=
        if Z.land remaining 1 =? 0 then (value, overflow)
        else
          let '(next, next_overflow) := overflowing_mul t value base in
          (next, overflow || next_overflow) in
      let remaining := Z.shiftr remaining 1 in
      let '(base, overflow) :=
        if remaining =? 0 then (base, overflow)
        else
          let '(next, next_overflow) := overflowing_mul t base base in
          (next, overflow || next_overflow) in
      pow_loop fuel t remaining value base overflow
  end.

Definition overflowing_pow (t : int_type) (a rhs : Z) : Z * bool :=
  pow_loop 32 t rhs 1 a false.

(** Signed left operand, unsigned right operand. *)
Definition overflowing_add_unsigned (t : int_type) (a rhs : Z) : Z * bool :=
  let ut := unsigned_of t in
  let lhs_bits := to_unsigned_bits t a in
  let sign_bit := 2 ^ (bit_width t - 1) in
  let maximum := sign_bit - 1 in
  let capacity :=
    if a <? 0 then wrap ut (0 - lhs_bits + maximum) else wrap ut (maximum - lhs_bits) in
  (from_unsigned_bits t (wrap ut (lhs_bits + rhs)), capacity <? rhs).

Definition overflowing_sub_unsigned (t : int_type) (a rhs : Z) : Z * bool :=
  let ut := unsigned_of t in
  let lhs_bits := to_unsigned_bits t a in
  let sign_bit := 2 ^ (bit_width t - 1) in
  let capacity := Z.lxor lhs_bits sign_bit in
  (from_unsigned_bits t (wrap ut (lhs_bits - rhs)), capacity <? rhs).

(** Unsigned left operand, signed right operand. *)
Definition overflowing_add_signed (t : int_type) (a rhs : Z) : Z * bool :=
  let rhs_bits := wrap t (to_unsigned_bits (signed_of t) rhs) in
  if rhs <? 0 then
    let magnitude := wrap t (0 - rhs_bits) in
    (wrap t (a - magnitude), a <? magnitude)
  else (wrap t (a + rhs_bits), MAX t - a <? rhs_bits).

Definition overflowing_sub_signed (t : int_type) (a rhs : Z) : Z * bool :=
  let rhs_bits := wrap t (to_unsigned_bits (signed_of t) rhs) in
  if rhs <? 0 then
    let magnitude := wrap t (0 - rhs_bits) in
    (wrap t (a + magnitude), MAX t - a <? magnitude)
  else (wrap t (a - rhs_bits), a <? rhs_bits).

(** ** Wrapping, checked and saturating families *)

Definition wrapping_add (t : int_type) (a b : Z) : Z := fst (overflowing_add t a b).
Definition wrapping_sub (t : int_type) (a b : Z) : Z := fst (overflowing_sub t a b).
Definition wrapping_mul (t : int_type) (a b : Z) : Z := fst (overflowing_mul t a b).
Definition wrapping_neg (t : int_type) (a : Z) : Z := fst (overflowing_neg t a).
Definition wrapping_shl (t : int_type) (a rhs : Z) : Z := fst (overflowing_shl t a rhs).
Definition wrapping_shr (t : int_type) (a rhs : Z) : Z := fst (overflowing_shr t a rhs).
Definition wrapping_pow (t : int_type) (a rhs : Z) : Z := fst (overflowing_pow t a rhs).

Definition checked (r : Z * bool) : option Z :=
  let '(value, overflow) := r in if overflow then None else Some value.

Definition checked_add (t : int_type) (a b : Z) : option Z := checked (overflowing_add t a b).
Definition checked_sub (t : int_type) (a b : Z) : option Z := checked (overflowing_sub t a b).
Definition checked_mul (t : int_type) (a b : Z) : option Z := checked (overflowing_mul t a b).
Definition checked_neg (t : int_type) (a : Z) : option Z := checked (overflowing_neg t a).
Definition checked_pow (t : int_type) (a rhs : Z) : option Z := checked (overflowing_pow t a rhs).

Definition checked_div (t : int_type) (a b : Z) : option Z :=
  if b =? 0 then None
  else if is_signed t && (a =? MIN t) && (b =? -1) then None
  else Some (Z.quot a b).

Definition checked_rem (t : int_type) (a b : Z) : option Z :=
  if b =? 0 then None
  else if is_signed t && (a =? MIN t) && (b =? -1) then None
  else Some (Z.rem a b).

Definition checked_shl (t : int_type) (a rhs : Z) : option Z :=
  if bit_width t <=? rhs then None else Some (wrapping_shl t a rhs).
Definition checked_shr (t : int_type) (a rhs : Z) : option Z :=
  if bit_width t <=? rhs then None else Some (wrapping_shr t a rhs).

Definition saturating_add (t : int_type) (a b : Z) : Z :=
  let '(value, overflow) := overflowing_add t a b in
  if negb overflow then value
  else if is_signed t then (if b <? 0 then MIN t else MAX t)
  else MAX t.

Definition saturating_sub (t : int_type) (a b : Z) : Z :=
  let '(value, overflow) := overflowing_sub t a b in
  if negb overflow then value
  else if is_signed t then (if b <? 0 then MAX t else MIN t)
  else MIN t.

Definition saturating_mul (t : int_type) (a b : Z) : Z :=
  let '(value, overflow) := overflowing_mul t a b in
  if negb overflow then value
  else if is_signed t then (if xorb (a <? 0) (b <? 0) then MIN t else MAX t)
  else MAX t.

Definition saturating_div (t : int_type) (a b : Z) : option Z :=
  if b =? 0 then None
  else if is_signed t && (a =? MIN t) && (b =? -1) then Some (MAX t)
  else Some (Z.quot a b).

Definition saturating_neg (t : int_type) (a : Z) : Z :=
  let '(value, overflow) := overflowing_neg t a in
  if negb overflow then value
  else if is_signed t then MAX t else MIN t.

Definition saturating_pow (t : int_type) (a rhs : Z) : Z :=
  let '(value, overflow) := overflowing_pow t a rhs in
  if negb overflow then value
  else if is_signed t then
    (if (a <? 0) && negb (Z.land rhs 1 =? 0) then MIN t else MAX t)
  else MAX t.

Definition saturating_add_unsigned (t : int_type) (a rhs : Z) : Z :=
  let '(value, overflow) := overflowing_add_unsigned t a rhs in
  if overflow then MAX t else value.
Definition saturating_sub_unsigned (t : int_type) (a rhs : Z) : Z :=
  let '(value, overflow) := overflowing_sub_unsigned t a rhs in
  if overflow then MIN t else value.
Definition saturating_add_signed (t : int_type) (a rhs : Z) : Z :=
  let '(value, overflow) := overflowing_add_signed t a rhs in
  if overflow then (if rhs <? 0 then MIN t else MAX t) else value.
Definition saturating_sub_signed (t : int_type) (a rhs : Z) : Z :=
  let '(value, overflow) := overflowing_sub_signed t a rhs in
  if overflow then (if rhs <? 0 then MAX t else MIN t) else value.

(** ** Magnitudes and bit manipulation *)

Definition unsigned_abs (t : int_type) (a : Z) : Z :=
  if negb (is_signed t) then a
  else
    let bits := to_unsigned_bits t a in
    wrap (unsigned_of t) (if a <? 0 then 0 - bits else bits).

Definition abs_diff (t : int_type) (a b : Z) : Z :=
  let ut := unsigned_of t in
  if b <=? a then wrap ut (to_unsigned_bits t a - to_unsigned_bits t b)
  else wrap ut (to_unsigned_bits t b - to_unsigned_bits t a).

Definition rotate_left (t : int_type) (a rhs : Z) : Z :=
  let amount := rhs mod bit_width t in
  if amount =? 0 then a
  else
    let bits := to_unsigned_bits t a in
    from_unsigned_bits t
      (Z.lor (Z.shiftl bits amount) (Z.shiftr bits (bit_width t - amount))
         mod 2 ^ bit_width t).

Definition rotate_right (t : int_type) (a rhs : Z) : Z :=
  let amount := rhs mod bit_width t in
  if amount =? 0 then a
  else
    let bits := to_unsigned_bits t a in
    from_unsigned_bits t
      (Z.lor (Z.shiftr bits amount) (Z.shiftl bits (bit_width t - amount))
         mod 2 ^ bit_width t).

Definition is_power_of_two (t : int_type) (a : Z) : bool :=
  let bits := to_unsigned_bits t a in
  (0 <? a) && (Z.land bits (wrap (unsigned_of t) (bits - 1)) =? 0).

(** [for (shift = 1; shift < BIT_WIDTH; shift <<= 1) bits |= bits >> shift] *)
Fixpoint smear_loop (fuel : nat) (w shift bits : Z) : Z :=
  match fuel with
  | O => bits
  | S fuel =>
    if shift <? w then smear_loop fuel w (Z.shiftl shift 1) (Z.lor bits (Z.shiftr bits shift))
    else bits
  end.

Definition checked_next_power_of_two (t : int_type) (a : Z) : option Z :=
  let ut := unsigned_of t in
  if a <=? 1 then Some 1
  else
    let bits := wrap ut (to_unsigned_bits t a - 1) in
    let bits := smear_loop 8 (bit_width t) 1 bits in
    let '(res, overflow) := add_with_overflow ut bits 1 in
    let overflow := if is_signed t then overflow || (MAX t <? res) else overflow in
    if overflow then None else Some (from_unsigned_bits t res).

(** ** Byte arrays *)

Fixpoint le_bytes_loop (n : nat) (bits : Z) : list Z :=
  match n with
  | O => []
  | S n => bits mod 256 :: le_bytes_loop n (Z.shiftr bits 8)
  end.

Definition to_le_bytes (t : int_type) (a : Z) : list Z :=
  le_bytes_loop (Z.to_nat (bit_width t / 8)) (to_unsigned_bits t a).

(** The big-endian loop fills the array from its last byte. *)
Fixpoint be_bytes_loop (n : nat) (bits : Z) (filled : list Z) : list Z :=
  match n with
  | O => filled
  | S n => be_bytes_loop n (Z.shiftr bits 8) (bits mod 256 :: filled)
  end.

Definition to_be_bytes (t : int_type) (a : Z) : list Z :=
  be_bytes_loop (Z.to_nat (bit_width t / 8)) (to_unsigned_bits t a) [].

(** [bits = (bits << 8) | byte], truncated to the width at every round. *)
Definition shift_in (t : int_type) (bits byte : Z) : Z :=
  Z.lor (Z.shiftl bits 8) byte mod 2 ^ bit_width t.

Definition from_be_bytes (t : int_type) (bytes : list Z) : Z :=
  from_unsigned_bits t (foldl (shift_in t) 0 bytes).

Definition from_le_bytes (t : int_type) (bytes : list Z) : Z :=
  from_unsigned_bits t (foldl (shift_in t) 0 (reverse bytes)).

(** ** Operators

    [check] is the build's [should_check_integer_overflow()]; an operator
    returns [None] where the source panics. *)

Definition guarded (check : bool) (r : Z * bool) : option Z :=
  let '(value, overflow) := r in if overflow && check then None else Some value.

Definition op_add (check : bool) (t : int_type) (a b : Z) : option Z :=
  guarded check (overflowing_add t a b).
Definition op_sub (check : bool) (t : int_type) (a b : Z) : option Z :=
  guarded check (overflowing_sub t a b).
Definition op_mul (check : bool) (t : int_type) (a b : Z) : option Z :=
  guarded check (overflowing_mul t a b).
Definition op_div (t : int_type) (a b : Z) : option Z :=
  match overflowing_div t a b with
  | None => None
  | Some (value, overflow) => if overflow then None else Some value
  end.
Definition op_rem (t : int_type) (a b : Z) : option Z :=
  match overflowing_rem t a b with
  | None => None
  | Some (value, overflow) => if overflow then None else Some value
  end.
Definition op_neg (check : bool) (t : int_type) (a : Z) : option Z :=
  guarded check (overflowing_neg t a).
Definition op_shl (check : bool) (t : int_type) (a rhs : Z) : option Z :=
  guarded check (overflowing_shl t a rhs).
Definition op_shr (check : bool) (t : int_type) (a rhs : Z) : option Z :=
  guarded check (overflowing_shr t a rhs).

(** ** Ranges and wrap-around *)

Lemma wf_type_width t : wf_type t = true -> 8 <= bit_width t <= 128.
Proof. unfold wf_type. lia. Qed.

Lemma wf_type_unsigned_of t : wf_type (unsigned_of t) = wf_type t.
Proof. reflexivity. Qed.

Lemma wf_type_signed_of t : wf_type (signed_of t) = wf_type t.
Proof. reflexivity. Qed.

Section Ranges.
Context (t : int_type) (Hw : 0 < bit_width t).

Lemma half_modulus : 2 ^ bit_width t = 2 * 2 ^ (bit_width t - 1) /\ 0 < 2 ^ (bit_width t - 1).
Proof.
  split.
  - rewrite <- Z.pow_succ_r by lia. f_equal; lia.
  - apply Z.pow_pos_nonneg; lia.
Qed.

Lemma wrap_range z : in_range t (wrap t z) = true.
Proof.
  unfold in_range, wrap, MIN, MAX. destruct half_modulus as [-> Hh].
  set (h := 2 ^ (bit_width t - 1)) in *.
  pose proof (Z.mod_pos_bound z (2 * h) ltac:(lia)).
  destruct (is_signed t); cbn [andb]; [destruct (h <=? z mod (2 * h)) eqn:?|]; lia.
Qed.

Lemma wrap_congr z : exists k, wrap t z = z + k * 2 ^ bit_width t.
Proof.
  unfold wrap. destruct half_modulus as [Hm Hh].
  pose proof (Z.div_mod z (2 ^ bit_width t) ltac:(lia)).
  destruct (is_signed t && _).
  - exists (- (z / 2 ^ bit_width t) - 1). lia.
  - exists (- (z / 2 ^ bit_width t)). lia.
Qed.

(** A value in range is determined by its residue. *)
Lemma range_congr_unique x y k :
  in_range t x = true -> in_range t y = true -> x = y + k * 2 ^ bit_width t -> x = y.
Proof.
  unfold in_range, MIN, MAX. destruct half_modulus as [-> Hh].
  set (h := 2 ^ (bit_width t - 1)) in *. intros Hx Hy He.
  assert (k = 0) as ->; [|lia].
  assert (-1 < k < 1); [|lia].
  destruct (is_signed t); split; nia.
Qed.

Lemma wrap_id z : in_range t z = true -> wrap t z = z.
Proof.
  intros Hz. destruct (wrap_congr z) as [k Hk].
  eapply range_congr_unique; eauto using wrap_range.
Qed.

Lemma wrap_of_congr x y k : x = y + k * 2 ^ bit_width t -> wrap t x = wrap t y.
Proof.
  intros ->. unfold wrap. rewrite Z.mod_add by (destruct half_modulus; lia). reflexivity.
Qed.

Lemma wrap_wrap_add_l x y : wrap t (wrap t x + y) = wrap t (x + y).
Proof. destruct (wrap_congr x) as [k ->]. apply (wrap_of_congr _ _ k). lia. Qed.

Lemma wrap_wrap_mul x y : wrap t (wrap t x * wrap t y) = wrap t (x * y).
Proof.
  destruct (wrap_congr x) as [k ->], (wrap_congr y) as [l ->].
  apply (wrap_of_congr _ _ (k * y + l * x + k * l * 2 ^ bit_width t)). lia.
Qed.

Lemma range_zero : in_range t 0 = true.
Proof. unfold in_range, MIN, MAX. destruct half_modulus as [-> ?]. destruct (is_signed t); lia. Qed.

(** Growing the magnitude of an out-of-range value keeps it out of range. *)
Lemma out_of_range_mul x k : in_range t x = false -> 1 <= k -> in_range t (x * k) = false.
Proof.
  pose proof range_zero as Hz. unfold in_range in *. intros Hx Hk.
  destruct (Z.le_gt_cases 0 x); nia.
Qed.

Lemma to_unsigned_bits_range a : 0 <= to_unsigned_bits t a < 2 ^ bit_width t.
Proof. apply Z.mod_pos_bound. destruct half_modulus; lia. Qed.

Lemma from_to_unsigned_bits a : in_range t a = true -> from_unsigned_bits t (to_unsigned_bits t a) = a.
Proof.
  intros Ha. unfold from_unsigned_bits, to_unsigned_bits.
  rewrite <- (wrap_id a Ha) at 2.
  apply (wrap_of_congr _ _ (- (a / 2 ^ bit_width t))).
  pose proof (Z.div_mod a (2 ^ bit_width t)). destruct half_modulus. lia.
Qed.

Lemma to_from_unsigned_bits b :
  0 <= b < 2 ^ bit_width t -> to_unsigned_bits t (from_unsigned_bits t b) = b.
Proof.
  intros Hb. unfold from_unsigned_bits, to_unsigned_bits.
  destruct (wrap_congr b) as [k ->]. rewrite Z.mod_add by lia. by apply Z.mod_small.
Qed.

Lemma wrap_unsigned z : is_signed t = false -> wrap t z = z mod 2 ^ bit_width t.
Proof. intros Hs. unfold wrap. by rewrite Hs. Qed.
End Ranges.

#[export] Hint Resolve wrap_range range_zero : rstd.

(** ** Exactness of the overflow flag of [pow] *)

(** No power of two with an odd exponent is a square, so the square of the
    base never hits [-MIN] exactly. *)
Lemma square_ne_half_modulus t b : wf_type t = true -> b * b <> 2 ^ (bit_width t - 1).
Proof.
  unfold wf_type. intros Ht.
  assert (bit_width t = 8 \/ bit_width t = 16 \/ bit_width t = 32 \/
          bit_width t = 64 \/ bit_width t = 128) as Hw by lia.
  assert (forall s m, s * s < m < (s + 1) * (s + 1) -> 0 <= s -> b * b <> m) as Hsq.
  { intros s m [Hl Hu] Hs E. subst m. rewrite <- (Z.abs_square b) in Hl, Hu.
    apply Z.square_lt_simpl_nonneg in Hl, Hu; lia. }
  destruct Hw as [-> | [-> | [-> | [-> | ->]]]];
    [apply (Hsq 11) | apply (Hsq 181) | apply (Hsq 46340) | apply (Hsq 3037000499)
    | apply (Hsq 13043817825332782212)]; by vm_compute.
Qed.

Lemma land_one_odd r : Z.land r 1 = r mod 2.
Proof. change 1 with (Z.ones 1). rewrite Z.land_ones by lia. reflexivity. Qed.

Lemma pow_odd_split b r :
  0 <= r -> b ^ r = (if Z.land r 1 =? 0 then 1 else b) * (b * b) ^ (Z.shiftr r 1).
Proof.
  intros Hr. rewrite land_one_odd, Z.shiftr_div_pow2 by lia. change (2 ^ 1) with 2.
  rewrite <- Z.pow_2_r, <- Z.pow_mul_r by (try apply Z.div_pos; lia).
  rewrite (Z.div_mod r 2) at 1 by lia.
  pose proof (Z.mod_pos_bound r 2). pose proof (Z.div_pos r 2).
  rewrite Z.pow_add_r by lia.
  assert (r mod 2 = 0 \/ r mod 2 = 1) as [-> | ->] by lia; cbn [Z.eqb]; lia.
Qed.

Lemma shiftr_one_bound r n :
  0 <= r < 2 ^ Z.of_nat (S n) -> 0 <= Z.shiftr r 1 < 2 ^ Z.of_nat n.
Proof.
  rewrite Nat2Z.inj_succ, Z.pow_succ_r, Z.shiftr_div_pow2 by lia. change (2 ^ 1) with 2.
  intros Hr. split; [apply Z.div_pos; lia | apply Z.div_lt_upper_bound; lia].
Qed.

Section Pow.
Context (t : int_type) (Ht : wf_type t = true).

Local Lemma Hwidth : 0 < bit_width t.
Proof. pose proof (wf_type_width t Ht). lia. Qed.

(** Squaring out of range: any non-zero multiple of a positive power of the
    square is out of range too. *)
Lemma out_of_range_square v b r :
  in_range t (b * b) = false -> v <> 0 -> 1 <= r -> in_range t (v * (b * b) ^ r) = false.
Proof.
  intros Hb Hv Hr. pose proof (square_ne_half_modulus t b Ht) as Hne.
  destruct (half_modulus t Hwidth) as [Hm Hh].
  replace r with (Z.succ (r - 1)) by lia. rewrite Z.pow_succ_r by lia.
  assert (1 <= (b * b) ^ (r - 1)) as Hp.
  { assert (b <> 0) by (intros ->; by rewrite range_zero in Hb by apply Hwidth).
    assert (0 < b * b) by nia.
    pose proof (Z.pow_pos_nonneg (b * b) (r - 1)). lia. }
  rewrite Z.mul_assoc. apply out_of_range_mul; [apply Hwidth | | exact Hp].
  unfold in_range, MIN, MAX in *. rewrite Hm in *.
  destruct (is_signed t); destruct (Z.lt_total 0 v) as [? | [? | ?]]; nia.
Qed.

(** Once the flag is set it stays set. *)
Lemma pow_loop_flag_true fuel r v b : snd (pow_loop fuel t r v b true) = true.
Proof.
  revert r v b. induction fuel as [|fuel IH]; intros r v b; [done|].
  cbn -[Z.land Z.shiftr]. repeat case_if; apply IH || done.
Qed.

(** *** Congruence modulo the width: the relation under which wrapped and
    exact arithmetic agree *)
Inductive cong (x y : Z) : Prop :=
| Cong (_ : x mod 2 ^ bit_width t = y mod 2 ^ bit_width t).

#[local] Instance cong_equiv : Equivalence cong.
Proof.
  split; [done | intros x y [H]; done | intros x y z [H] [H']]. split. by rewrite H.
Qed.

#[local] Instance mul_cong : Proper (cong ==> cong ==> cong) Z.mul.
Proof.
  intros x x' [Hx] y y' [Hy]. split.
  rewrite Z.mul_mod, Hx, Hy, <- Z.mul_mod; try done; apply Z.pow_nonzero; pose proof Hwidth; lia.
Qed.

#[local] Instance pow_cong : Proper (cong ==> eq ==> cong) Z.pow.
Proof.
  intros x x' Hx r ? <-. destruct (Z.le_gt_cases 0 r) as [Hr|Hr].
  - pattern r. apply natlike_ind; [done| |exact Hr].
    intros q Hq IH. rewrite !Z.pow_succ_r by lia. by apply mul_cong.
  - by rewrite !Z.pow_neg_r.
Qed.

Lemma wrap_cong x : cong (wrap t x) x.
Proof.
  destruct (wrap_congr t Hwidth x) as [k ->]. split.
  apply Z.mod_add, Z.pow_nonzero; pose proof Hwidth; lia.
Qed.

Lemma cong_wrap x y : cong x y -> wrap t x = wrap t y.
Proof. unfold wrap. by intros [->]. Qed.

Lemma cong_range_eq x y : cong x y -> in_range t x = true -> x = wrap t y.
Proof. intros Hc Hx. rewrite <- (cong_wrap _ _ Hc). symmetry. by apply wrap_id; [apply Hwidth|]. Qed.

Lemma pow_loop_value fuel r v b o :
  0 <= r < 2 ^ Z.of_nat fuel -> in_range t v = true ->
  fst (pow_loop fuel t r v b o) = wrap t (v * b ^ r).
Proof.
  intros Hr Hv. apply cong_range_eq.
  - clear Hv. revert r v b o Hr. induction fuel as [|fuel IH]; intros r v b o Hr.
    { assert (r = 0) as -> by (cbn in Hr; lia). cbn. by rewrite Z.mul_1_r. }
    cbn -[Z.land Z.shiftr Z.of_nat]. destruct (r =? 0) eqn:Hr0.
    { assert (r = 0) as -> by lia. cbn. by rewrite Z.mul_1_r. }
    rewrite (pow_odd_split b r) by lia. apply shiftr_one_bound in Hr.
    destruct (Z.land r 1 =? 0); destruct (Z.shiftr r 1 =? 0) eqn:Hs;
      cbn -[Z.land Z.shiftr]; rewrite IH, ?wrap_cong by exact Hr;
      try (replace (Z.shiftr r 1) with 0 by lia); rewrite ?Z.pow_0_r;
      split; f_equal; lia.
  - revert r v b o Hr Hv. induction fuel as [|fuel IH]; intros r v b o Hr Hv; [done|].
    cbn -[Z.land Z.shiftr Z.of_nat]. apply shiftr_one_bound in Hr.
    repeat case_if; cbn -[Z.land Z.shiftr]; simplify_eq;
      try apply IH; auto using wrap_range, Hwidth.
Qed.

Lemma pow_loop_flag fuel r v b :
  0 <= r < 2 ^ Z.of_nat fuel -> in_range t v = true -> in_range t b = true ->
  v <> 0 \/ b = 0 ->
  snd (pow_loop fuel t r v b false) = negb (in_range t (v * b ^ r)).
Proof.
  pose proof Hwidth as Hw. revert r v b.
  induction fuel as [|fuel IH]; intros r v b Hr Hv Hb Hnz.
  { assert (r = 0) as -> by (cbn in Hr; lia). cbn. by rewrite Z.mul_1_r, Hv. }
  cbn -[Z.land Z.shiftr Z.of_nat]. destruct (r =? 0) eqn:Hr0.
  { assert (r = 0) as -> by lia. cbn. by rewrite Z.mul_1_r, Hv. }
  rewrite (pow_odd_split b r) by lia. apply shiftr_one_bound in Hr.
  (* the multiplication of this round *)
  set (v' := v * (if Z.land r 1 =? 0 then 1 else b)).
  rewrite Z.mul_assoc. fold v'.
  destruct (in_range t v') eqn:Hv'.
  2:{ (* it overflows, and so does the power *)
    destruct (Z.land r 1 =? 0) eqn:Ho; [subst v'; rewrite Z.mul_1_r in *; congruence|].
    assert (b <> 0) by (intros ->; subst v'; rewrite Z.mul_0_r, range_zero in Hv'; done).
    rewrite (out_of_range_mul t Hw v' _ Hv').
    2:{ pose proof (Z.pow_pos_nonneg (b * b) (Z.shiftr r 1)). nia. }
    cbn -[Z.land Z.shiftr]. fold v'. rewrite Hv'. cbn -[Z.land Z.shiftr].
    case_if; apply pow_loop_flag_true. }
  transitivity (snd (let '(base, overflow) :=
      if Z.shiftr r 1 =? 0 then (b, false)
      else (wrap t (b * b), negb (in_range t (b * b))) in
    pow_loop fuel t (Z.shiftr r 1) v' base overflow)).
  { destruct (Z.land r 1 =? 0); cbn -[Z.land Z.shiftr]; subst v'; rewrite ?Z.mul_1_r; [done|].
    rewrite Hv'. by rewrite (wrap_id t Hw _ Hv'). }
  assert (b <> 0 -> v' <> 0) as Hv'nz by (subst v'; destruct (Z.land r 1 =? 0); nia).
  destruct (Z.shiftr r 1 =? 0) eqn:Hs.
  { replace (Z.shiftr r 1) with 0 by lia. rewrite Z.pow_0_r, Z.mul_1_r, Hv'.
    destruct fuel; reflexivity. }
  destruct (in_range t (b * b)) eqn:Hbb; cbn -[Z.land Z.shiftr].
  - rewrite (wrap_id t Hw _ Hbb). apply IH; try done. nia.
  - rewrite pow_loop_flag_true. rewrite out_of_range_square; try done; try lia.
    apply Hv'nz. intros ->. rewrite range_zero in Hbb; done.
Qed.
End Pow.

Lemma overflowing_pow_eq t a n :
  wf_type t = true -> in_range t a = true -> in_range u32 n = true ->
  overflowing_pow t a n = (wrap t (a ^ n), negb (in_range t (a ^ n))).
Proof.
  intros Ht Ha Hn.
  assert (0 <= n < 2 ^ Z.of_nat 32) by (unfold in_range in Hn; cbn in *; lia).
  assert (in_range t 1 = true) as H1.
  { pose proof (wf_type_width t Ht). destruct (half_modulus t ltac:(lia)) as [E ?].
    assert (2 ^ 1 <= 2 ^ (bit_width t - 1)) by (apply Z.pow_le_mono_r; lia).
    unfold in_range, MIN, MAX. rewrite E. destruct (is_signed t); lia. }
  unfold overflowing_pow.
  rewrite (surjective_pairing (pow_loop _ _ _ _ _ _)).
  rewrite pow_loop_value, pow_loop_flag by (done || lia). by rewrite Z.mul_1_l.
Qed.

(** for every integer type, every base of the type and every [u32]
    exponent, [overflowing_pow] terminates with the power wrapped to the
    type, and its flag is set exactly when the mathematical power does not
    fit: no intermediate square overflows spuriously. *)
Theorem overflowing_pow_exact t a n :
  wf_type t = true -> in_range t a = true -> in_range u32 n = true ->
  overflowing_pow t a n = (wrap t (a ^ n), negb (in_range t (a ^ n))).
Proof.
  apply overflowing_pow_eq.
Qed.

Lemma overflowing_pow_exact_witness :
  overflowing_pow i8 (-2) 7 = (-128, false) /\ overflowing_pow i8 2 7 = (-128, true).
Proof.
  split.
  - exact (overflowing_pow_exact i8 (-2) 7 eq_refl eq_refl eq_refl).
  - exact (overflowing_pow_exact i8 2 7 eq_refl eq_refl eq_refl).
Defined.

(** ** Saturation *)

Lemma wf_range_bounds t : wf_type t = true -> MIN t <= 0 <= MAX t /\ 1 <= MAX t.
Proof.
  intros Ht. pose proof (wf_type_width t Ht). destruct (half_modulus t ltac:(lia)) as [E ?].
  assert (2 ^ 1 <= 2 ^ (bit_width t - 1)) by (apply Z.pow_le_mono_r; lia).
  unfold MIN, MAX. rewrite E. destruct (is_signed t); lia.
Qed.

Lemma saturate_clamp t z hi :
  wf_type t = true ->
  (in_range t z = false -> hi = if 0 <=? z then MAX t else MIN t) ->
  (if negb (negb (in_range t z)) then wrap t z else hi) = clamp t z.
Proof.
  intros Ht Hhi. pose proof (wf_type_width t Ht). pose proof (wf_range_bounds t Ht).
  rewrite negb_involutive. unfold clamp. destruct (in_range t z) eqn:Hz.
  - rewrite wrap_id by (done || lia). unfold in_range in Hz. lia.
  - rewrite (Hhi eq_refl). unfold in_range in Hz. destruct (0 <=? z) eqn:?; lia.
Qed.

Lemma quot_range t a b :
  wf_type t = true -> in_range t a = true -> in_range t b = true -> b <> 0 ->
  is_signed t && (a =? MIN t) && (b =? -1) = false -> in_range t (Z.quot a b) = true.
Proof.
  intros Ht Ha Hb Hb0 Hne. pose proof (wf_range_bounds t Ht).
  pose proof (wf_type_width t Ht). destruct (half_modulus t ltac:(lia)) as [E Hh].
  pose proof (Z.quot_rem' a b). pose proof (Z.rem_bound_abs a b Hb0).
  pose proof (Z.rem_sign_mul a b Hb0).
  set (q := Z.quot a b) in *. set (r := Z.rem a b) in *. clearbody q r.
  unfold in_range, MIN, MAX in *. rewrite E in *. clear E.
  set (h := 2 ^ (bit_width t - 1)) in *. clearbody h.
  destruct (is_signed t); cbn [andb] in *.
  - assert (b = 1 \/ b = -1 \/ 2 <= b \/ b <= -2) as [-> | [-> | [? | ?]]] by lia; try lia.
    + assert (- h <= q <= h - 1); [|lia]. split; nia.
    + assert (- h <= q <= h - 1); [|lia]. split; nia.
  - assert (0 <= q <= a); [|lia]. split; nia.
Qed.

Lemma pow_sign a n :
  0 <= n -> (if (a <? 0) && negb (Z.land n 1 =? 0) then a ^ n < 0 else 0 <= a ^ n).
Proof.
  intros Hn. destruct (a <? 0) eqn:Ha; cbn [andb].
  - rewrite (pow_odd_split a n) by lia.
    assert (0 < (a * a) ^ Z.shiftr n 1).
    { apply Z.pow_pos_nonneg; [nia|]. by apply Z.shiftr_nonneg. }
    destruct (Z.land n 1 =? 0); cbn [negb]; nia.
  - apply Z.pow_nonneg. lia.
Qed.

(** Every saturating operation returns the value of the type nearest to
    the exact result; division panics only on a zero divisor. *)
Theorem saturating_ops_clamp t a b :
  wf_type t = true -> in_range t a = true -> in_range t b = true ->
  saturating_add t a b = clamp t (a + b) /\
  saturating_sub t a b = clamp t (a - b) /\
  saturating_mul t a b = clamp t (a * b) /\
  saturating_neg t a = clamp t (- a) /\
  saturating_div t a b = (if b =? 0 then None else Some (clamp t (Z.quot a b))) /\
  (in_range u32 b = true -> saturating_pow t a b = clamp t (a ^ b)).
Proof.
  intros Ht Ha Hb. pose proof (wf_range_bounds t Ht) as HB.
  assert (is_signed t = false -> MIN t = 0) as Hu by (unfold MIN; by intros ->).
  split_and!.
  - unfold saturating_add. cbn [overflowing_add add_with_overflow]. apply saturate_clamp; [done|].
    unfold in_range in *. intros Ho. destruct (is_signed t); repeat case_if; lia.
  - unfold saturating_sub. cbn [overflowing_sub sub_with_overflow]. apply saturate_clamp; [done|].
    unfold in_range in *. intros Ho. destruct (is_signed t); repeat case_if; lia.
  - unfold saturating_mul. cbn [overflowing_mul mul_with_overflow]. apply saturate_clamp; [done|].
    unfold in_range in *. intros Ho.
    destruct (is_signed t); [|specialize (Hu eq_refl); assert (0 <= a * b) by nia; case_if; lia].
    destruct (a <? 0) eqn:?, (b <? 0) eqn:?; cbn [xorb]; case_if; nia.
  - unfold saturating_neg, overflowing_neg, sub_with_overflow. rewrite Z.sub_0_l.
    apply saturate_clamp; [done|].
    unfold in_range, MIN, MAX in *. intros Ho. destruct (is_signed t); repeat case_if; lia.
  - unfold saturating_div. destruct (b =? 0) eqn:?; [done|]. f_equal.
    case_if; f_equal.
    + unfold clamp. assert (a = MIN t) as -> by lia. assert (b = -1) as -> by lia.
      change (-1) with (- (1)). rewrite Z.quot_opp_r, Z.quot_1_r by lia.
      unfold MIN, MAX in *. destruct (is_signed t); cbn in *; lia.
    + pose proof (quot_range t a b Ht Ha Hb ltac:(lia) ltac:(done)) as Hq.
      unfold clamp, in_range in *. lia.
  - intros Hn. unfold saturating_pow. rewrite overflowing_pow_eq by done.
    apply saturate_clamp; [done|]. intros Ho.
    pose proof (pow_sign a b ltac:(unfold in_range in Hn; cbn in Hn; lia)) as Hs.
    unfold in_range in *. destruct (is_signed t).
    + destruct ((a <? 0) && _); case_if; lia.
    + assert (0 <= a ^ b) by (apply Z.pow_nonneg; specialize (Hu eq_refl); lia). case_if; lia.
Qed.

Lemma saturating_ops_clamp_witness :
  saturating_add i8 100 100 = 127 /\ saturating_sub i8 (-100) 100 = -128.
Proof.
  split.
  - exact (proj1 (saturating_ops_clamp i8 100 100 eq_refl eq_refl eq_refl)).
  - exact (proj1 (proj2 (saturating_ops_clamp i8 (-100) 100 eq_refl eq_refl eq_refl))).
Defined.

(** ** Operands of mixed signedness *)

Lemma lxor_sign_bit n x :
  0 <= n -> 0 <= x < 2 * 2 ^ n -> Z.lxor x (2 ^ n) = if x <? 2 ^ n then x + 2 ^ n else x - 2 ^ n.
Proof.
  intros Hn Hx.
  assert (forall y, 0 <= y < 2 ^ n -> Z.lxor y (2 ^ n) = y + 2 ^ n) as Hlow.
  { intros y Hy. symmetry. apply Z.add_nocarry_lxor. apply Z.bits_inj'. intros i Hi.
    rewrite Z.land_spec, Z.bits_0. destruct (Z.eq_dec i n) as [->|].
    - rewrite <- (Z.mod_small y (2 ^ n)) by done. by rewrite Z.mod_pow2_bits_high.
    - rewrite Z.pow2_bits_eqb by lia. replace (n =? i) with false by lia. apply andb_false_r. }
  destruct (x <? 2 ^ n) eqn:Hc; [apply Hlow; lia|].
  replace x with ((x - 2 ^ n) + 2 ^ n) at 1 by lia.
  rewrite <- Hlow by lia. rewrite Z.lxor_assoc, Z.lxor_nilpotent. apply Z.lxor_0_r.
Qed.

Lemma to_unsigned_bits_signed t a :
  0 < bit_width t -> is_signed t = true -> in_range t a = true ->
  to_unsigned_bits t a = if a <? 0 then a + 2 ^ bit_width t else a.
Proof.
  intros Hw Hs. destruct (half_modulus t Hw) as [E ?].
  unfold in_range, MIN, MAX, to_unsigned_bits. rewrite Hs, E. intros Ha.
  destruct (a <? 0) eqn:?.
  - symmetry. apply (Z.mod_unique_pos a _ (-1)); lia.
  - apply Z.mod_small. lia.
Qed.

Lemma wrap_in_unsigned t z :
  0 < bit_width t -> 0 <= z < 2 ^ bit_width t -> wrap (unsigned_of t) z = z.
Proof. intros Hw Hz. unfold wrap. cbn. by apply Z.mod_small. Qed.

Lemma from_bits_wrap t z :
  0 < bit_width t -> from_unsigned_bits t (wrap (unsigned_of t) z) = wrap t z.
Proof.
  intros Hw. unfold from_unsigned_bits. cbn.
  apply (wrap_of_congr t Hw _ _ (- (z / 2 ^ bit_width t))).
  unfold wrap; cbn. pose proof (Z.div_mod z (2 ^ bit_width t)). destruct (half_modulus t Hw). lia.
Qed.

Section MixedSign.
Context (t : int_type) (Ht : wf_type t = true).

Lemma overflowing_add_unsigned_eq a rhs :
  is_signed t = true -> in_range t a = true -> in_range (unsigned_of t) rhs = true ->
  overflowing_add_unsigned t a rhs = (wrap t (a + rhs), negb (in_range t (a + rhs))).
Proof.
  intros Hs Ha Hr. pose proof (wf_type_width t Ht) as Hw.
  destruct (half_modulus t ltac:(lia)) as [E Hh].
  unfold overflowing_add_unsigned.
  rewrite from_bits_wrap, (to_unsigned_bits_signed t a) by (done || lia).
  unfold in_range in *. unfold MIN, MAX in *. cbn [unsigned_of is_signed bit_width] in *.
  rewrite Hs in *. f_equal.
  - destruct (a <? 0); [|done]. apply (wrap_of_congr t ltac:(lia) _ _ 1). lia.
  - destruct (a <? 0) eqn:?; rewrite E in *.
    + rewrite (wrap_of_congr (unsigned_of t) ltac:(cbn; lia) _ (- a + 2 ^ (bit_width t - 1) - 1) (-1))
        by (cbn; lia).
      rewrite wrap_in_unsigned by lia. lia.
    + rewrite wrap_in_unsigned by lia. lia.
Qed.

Lemma overflowing_sub_unsigned_eq a rhs :
  is_signed t = true -> in_range t a = true -> in_range (unsigned_of t) rhs = true ->
  overflowing_sub_unsigned t a rhs = (wrap t (a - rhs), negb (in_range t (a - rhs))).
Proof.
  intros Hs Ha Hr. pose proof (wf_type_width t Ht) as Hw.
  destruct (half_modulus t ltac:(lia)) as [E Hh].
  pose proof (to_unsigned_bits_range t ltac:(lia) a) as Hb.
  unfold overflowing_sub_unsigned. rewrite from_bits_wrap by lia.
  rewrite lxor_sign_bit by lia. rewrite (to_unsigned_bits_signed t a) by (done || lia).
  unfold in_range in *. unfold MIN, MAX in *. cbn [unsigned_of is_signed bit_width] in *.
  rewrite Hs in *. f_equal.
  - destruct (a <? 0); [|done]. apply (wrap_of_congr t ltac:(lia) _ _ 1). lia.
  - rewrite E in *. destruct (a <? 0) eqn:?; case_if; lia.
Qed.

Lemma signed_bits_in_unsigned rhs :
  is_signed t = false -> in_range (signed_of t) rhs = true ->
  wrap t (to_unsigned_bits (signed_of t) rhs) = (if rhs <? 0 then rhs + 2 ^ bit_width t else rhs) /\
  (rhs < 0 -> wrap t (0 - (rhs + 2 ^ bit_width t)) = - rhs).
Proof.
  intros Hs Hr. pose proof (wf_type_width t Ht) as Hw.
  destruct (half_modulus t ltac:(lia)) as [E Hh].
  rewrite (to_unsigned_bits_signed (signed_of t) rhs) by (done || cbn; lia).
  cbn [signed_of bit_width]. unfold in_range, MIN, MAX in Hr. cbn in Hr. split.
  - apply wrap_id; [lia|]. unfold in_range, MIN, MAX. rewrite Hs, E. case_if; lia.
  - intros. rewrite (wrap_of_congr t ltac:(lia) _ (- rhs) (-1)) by lia.
    apply wrap_id; [lia|]. unfold in_range, MIN, MAX. rewrite Hs, E. lia.
Qed.

Lemma overflowing_add_signed_eq a rhs :
  is_signed t = false -> in_range t a = true -> in_range (signed_of t) rhs = true ->
  overflowing_add_signed t a rhs = (wrap t (a + rhs), negb (in_range t (a + rhs))).
Proof.
  intros Hs Ha Hr. destruct (signed_bits_in_unsigned rhs Hs Hr) as [Hb Hm].
  pose proof (wf_type_width t Ht) as Hw. destruct (half_modulus t ltac:(lia)) as [E Hh].
  unfold overflowing_add_signed. rewrite Hb.
  unfold in_range, MIN, MAX in *. cbn [signed_of is_signed bit_width] in *. rewrite Hs in *.
  destruct (rhs <? 0) eqn:?; [rewrite Hm by lia|]; f_equal; try f_equal; lia.
Qed.

Lemma overflowing_sub_signed_eq a rhs :
  is_signed t = false -> in_range t a = true -> in_range (signed_of t) rhs = true ->
  overflowing_sub_signed t a rhs = (wrap t (a - rhs), negb (in_range t (a - rhs))).
Proof.
  intros Hs Ha Hr. destruct (signed_bits_in_unsigned rhs Hs Hr) as [Hb Hm].
  pose proof (wf_type_width t Ht) as Hw. destruct (half_modulus t ltac:(lia)) as [E Hh].
  unfold overflowing_sub_signed. rewrite Hb.
  unfold in_range, MIN, MAX in *. cbn [signed_of is_signed bit_width] in *. rewrite Hs in *.
  destruct (rhs <? 0) eqn:?; [rewrite Hm by lia|]; f_equal; try f_equal; lia.
Qed.
End MixedSign.

(** Adding or subtracting an operand of the other signedness yields the
    exact result wrapped to the left type, and the flag, which the code
    derives from bit patterns and capacities, is set exactly when the exact
    result does not fit. *)
Theorem mixed_sign_ops_exact t a rhs :
  wf_type t = true -> in_range t a = true ->
  (is_signed t = true -> in_range (unsigned_of t) rhs = true ->
   overflowing_add_unsigned t a rhs = (wrap t (a + rhs), negb (in_range t (a + rhs))) /\
   overflowing_sub_unsigned t a rhs = (wrap t (a - rhs), negb (in_range t (a - rhs)))) /\
  (is_signed t = false -> in_range (signed_of t) rhs = true ->
   overflowing_add_signed t a rhs = (wrap t (a + rhs), negb (in_range t (a + rhs))) /\
   overflowing_sub_signed t a rhs = (wrap t (a - rhs), negb (in_range t (a - rhs)))).
Proof.
  intros Ht Ha. split; intros Hs Hr; split;
    auto using overflowing_add_unsigned_eq, overflowing_sub_unsigned_eq,
      overflowing_add_signed_eq, overflowing_sub_signed_eq.
Qed.

Lemma mixed_sign_ops_exact_witness :
  overflowing_add_unsigned i8 (-128) 255 = (127, false) /\
  overflowing_sub_signed u8 3 (-128) = (131, false).
Proof.
  split.
  - exact (proj1 (proj1 (mixed_sign_ops_exact i8 (-128) 255 eq_refl eq_refl) eq_refl eq_refl)).
  - exact (proj2 (proj2 (mixed_sign_ops_exact u8 3 (-128) eq_refl eq_refl) eq_refl eq_refl)).
Defined.

(** ** Operators without overflow *)

Lemma op_add_exact t a b :
  wf_type t = true -> in_range t (a + b) = true -> op_add true t a b = Some (a + b).
Proof.
  intros Ht H. unfold op_add, guarded, overflowing_add, add_with_overflow. rewrite H. cbn [negb andb].
  f_equal. apply wrap_id; [apply wf_type_width in Ht; lia | done].
Qed.

Lemma op_sub_exact t a b :
  wf_type t = true -> in_range t (a - b) = true -> op_sub true t a b = Some (a - b).
Proof.
  intros Ht H. unfold op_sub, guarded, overflowing_sub, sub_with_overflow. rewrite H. cbn [negb andb].
  f_equal. apply wrap_id; [apply wf_type_width in Ht; lia | done].
Qed.

Lemma op_mul_exact t a b :
  wf_type t = true -> in_range t (a * b) = true -> op_mul true t a b = Some (a * b).
Proof.
  intros Ht H. unfold op_mul, guarded, overflowing_mul, mul_with_overflow. rewrite H. cbn [negb andb].
  f_equal. apply wrap_id; [apply wf_type_width in Ht; lia | done].
Qed.

Lemma op_neg_exact t a :
  wf_type t = true -> in_range t (- a) = true -> op_neg true t a = Some (- a).
Proof.
  intros Ht H. unfold op_neg, guarded, overflowing_neg, sub_with_overflow.
  change (0 - a) with (- a). rewrite H. cbn [negb andb]. f_equal. apply wrap_id; [apply wf_type_width in Ht; lia | done].
Qed.

Lemma op_div_exact t a b : 0 <= a -> 0 < b -> op_div t a b = Some (a / b).
Proof.
  intros Ha Hb. unfold op_div, overflowing_div. replace (b =? 0) with false by lia.
  replace (b =? -1) with false by lia. rewrite andb_false_r. by rewrite Z.quot_div_nonneg by lia.
Qed.
