(* ===== verification/IntBits.v ===== *)
(** * Bit and byte manipulation of machine integers

    Theorems about the rotations, [checked_next_power_of_two],
    [is_power_of_two] and the byte-array conversions defined in [Int]. *)

From Stdlib Require Import ZArith Lia ZifyBool.
From S2P Require Import Prelude Int.
Local Open Scope Z_scope.

(** ** Bits of bounded numbers *)

Lemma bits_ext_below n x y :
  0 <= n -> 0 <= x < 2 ^ n -> 0 <= y < 2 ^ n ->
  (forall i, 0 <= i < n -> Z.testbit x i = Z.testbit y i) -> x = y.
Proof.
  intros Hn Hx Hy H. apply Z.bits_inj'. intros i Hi.
  destruct (Z.lt_ge_cases i n); [by apply H|]. by rewrite !(testbit_high n) by done.
Qed.

Lemma mod_pow2_bits n x i :
  0 <= n -> 0 <= i -> Z.testbit (x mod 2 ^ n) i = (i <? n) && Z.testbit x i.
Proof.
  intros Hn Hi. destruct (i <? n) eqn:?; cbn [andb].
  - by rewrite Z.mod_pow2_bits_low by lia.
  - by rewrite Z.mod_pow2_bits_high by lia.
Qed.

(** The rotation of a [w]-bit pattern, the shape both operators share. *)
Definition rot (w k b : Z) : Z := Z.lor (Z.shiftl b k) (Z.shiftr b (w - k)) mod 2 ^ w.

Lemma rot_range w k b : 0 < w -> 0 <= rot w k b < 2 ^ w.
Proof. intros. apply Z.mod_pos_bound, Z.pow_pos_nonneg; lia. Qed.

Lemma rot_bits w k b i :
  0 < k < w -> 0 <= b < 2 ^ w -> 0 <= i < w ->
  Z.testbit (rot w k b) i = Z.testbit b (if i <? k then i + w - k else i - k).
Proof.
  intros Hk Hb Hi. unfold rot.
  rewrite mod_pow2_bits, Z.lor_spec, Z.shiftl_spec, Z.shiftr_spec by lia.
  replace (i <? w) with true by lia. cbn [andb]. destruct (i <? k) eqn:?.
  - rewrite (Z.testbit_neg_r b (i - k)) by lia. cbn [orb]. f_equal. lia.
  - rewrite (testbit_high w b (i + (w - k))) by lia. apply orb_false_r.
Qed.

Lemma rot_inverse w k b :
  0 < k < w -> 0 <= b < 2 ^ w -> rot w (w - k) (rot w k b) = b.
Proof.
  intros Hk Hb. apply (bits_ext_below w); try apply rot_range; try lia.
  intros i Hi. pose proof (rot_range w k b). rewrite !rot_bits by (try case_if; lia).
  f_equal. repeat case_if; lia.
Qed.

Lemma rotate_left_rot t a rhs :
  let k := rhs mod bit_width t in
  rotate_left t a rhs =
    if k =? 0 then a else from_unsigned_bits t (rot (bit_width t) k (to_unsigned_bits t a)).
Proof. reflexivity. Qed.

Lemma rotate_right_rot t a rhs :
  let k := rhs mod bit_width t in
  rotate_right t a rhs =
    if k =? 0 then a
    else from_unsigned_bits t (rot (bit_width t) (bit_width t - k) (to_unsigned_bits t a)).
Proof.
  cbn. unfold rotate_right, rot. case_if; [done|]. rewrite Z.lor_comm. do 5 f_equal. lia.
Qed.

(** The rotations are inverse to each other on every value of every
    type, for every shift amount. *)
Theorem rotate_inverse t a rhs :
  wf_type t = true -> in_range t a = true ->
  rotate_right t (rotate_left t a rhs) rhs = a /\ rotate_left t (rotate_right t a rhs) rhs = a.
Proof.
  intros Ht Ha. pose proof (wf_type_width t Ht).
  rewrite !rotate_left_rot, !rotate_right_rot. cbv zeta.
  pose proof (Z.mod_pos_bound rhs (bit_width t)). set (k := rhs mod bit_width t) in *.
  destruct (k =? 0) eqn:?; [done|].
  pose proof (to_unsigned_bits_range t ltac:(lia) a).
  rewrite !to_from_unsigned_bits by (try apply rot_range; lia). split.
  - rewrite rot_inverse by lia. apply from_to_unsigned_bits; [lia | done].
  - replace k with (bit_width t - (bit_width t - k)) at 1 by lia.
    rewrite rot_inverse by lia. apply from_to_unsigned_bits; [lia | done].
Qed.

Lemma rotate_inverse_witness :
  rotate_left i8 (-127) 1 = 3 /\ rotate_right i8 (rotate_left i8 (-127) 9) 9 = -127.
Proof.
  split; [reflexivity|]. exact (proj1 (rotate_inverse i8 (-127) 9 eq_refl eq_refl)).
Defined.

(** ** The smearing loop of [next_power_of_two] *)

(** After rounds with shifts 1, 2, .., [s/2], bit [i] is set when one of the
    [s] bits from [i] upwards was. *)
Definition smeared (x s y : Z) : Prop :=
  forall i, 0 <= i ->
    Z.testbit y i = true <-> exists j, i <= j < i + s /\ Z.testbit x j = true.

Lemma smeared_step x s y :
  0 < s -> smeared x s y -> smeared x (2 * s) (Z.lor y (Z.shiftr y s)).
Proof.
  intros Hs H i Hi. rewrite Z.lor_spec, Z.shiftr_spec, orb_true_iff by lia.
  rewrite (H i), (H (i + s)) by lia. split.
  - intros [(j & ? & ?)|(j & ? & ?)]; exists j; split; (done || lia).
  - intros (j & ? & ?). destruct (Z.lt_ge_cases j (i + s)); [left | right]; exists j; split; (done || lia).
Qed.

Lemma smear_loop_spec fuel w s x y :
  0 < s -> w <= s * 2 ^ Z.of_nat fuel -> smeared x s y ->
  exists s', w <= s' /\ smeared x s' (smear_loop fuel w s y).
Proof.
  revert s y. induction fuel as [|fuel IH]; intros s y Hs Hw H.
  { exists s. split; [cbn in Hw; lia | done]. }
  cbn [smear_loop]. destruct (s <? w) eqn:?; [|exists s; split; [lia | done]].
  rewrite Z.shiftl_mul_pow2 by lia. change (2 ^ 1) with 2. rewrite (Z.mul_comm s 2).
  apply IH; [lia | | by apply smeared_step].
  rewrite Nat2Z.inj_succ, Z.pow_succ_r in Hw by lia. lia.
Qed.

Lemma smear_loop_ones w x :
  0 < w <= 128 -> 0 < x < 2 ^ w -> smear_loop 8 w 1 x = 2 ^ (Z.log2 x + 1) - 1.
Proof.
  intros Hw Hx.
  destruct (smear_loop_spec 8 w 1 x x) as (s & Hs & Hsm); [lia | cbn; lia | |].
  { intros i Hi. split.
    - intros. exists i. split; [lia | done].
    - intros (j & ? & ?). assert (j = i) as -> by lia. done. }
  assert (Z.log2 x < w) by (apply Z.log2_lt_pow2; lia).
  pose proof (Z.log2_nonneg x).
  replace (2 ^ (Z.log2 x + 1) - 1) with (Z.ones (Z.log2 x + 1)) by (rewrite Z.ones_equiv; lia).
  apply Z.bits_inj'. intros i Hi. rewrite Z.testbit_ones by lia.
  apply eq_true_iff_eq. rewrite (Hsm i Hi). split.
  - intros (j & Hj & Hb). assert (j <= Z.log2 x); [|lia].
    destruct (Z.le_gt_cases j (Z.log2 x)); [done|]. by rewrite Z.bits_above_log2 in Hb by lia.
  - intros Hi2. exists (Z.log2 x). split; [lia|]. apply Z.bit_log2. lia.
Qed.

(** [checked_next_power_of_two] returns the least power of two not below
    the value ([2 ^ log2_up]), and [None] exactly when it does not fit. *)
Theorem checked_next_power_of_two_spec t a :
  wf_type t = true -> in_range t a = true ->
  checked_next_power_of_two t a =
    (let p := 2 ^ Z.log2_up a in if in_range t p then Some p else None).
Proof.
  intros Ht Ha. pose proof (wf_type_width t Ht) as Hw. pose proof (wf_range_bounds t Ht) as HB.
  destruct (half_modulus t ltac:(lia)) as [E Hh].
  unfold checked_next_power_of_two. destruct (a <=? 1) eqn:H1.
  { rewrite Z.log2_up_eqn0 by lia. cbv zeta. change (2 ^ 0) with 1.
    replace (in_range t 1) with true; [done|]. unfold in_range. lia. }
  assert (to_unsigned_bits t a = a) as ->.
  { unfold to_unsigned_bits. apply Z.mod_small. unfold in_range, MIN, MAX in Ha.
    destruct (is_signed t); lia. }
  assert (a < 2 ^ bit_width t) by (unfold in_range, MAX in Ha; destruct (is_signed t); lia).
  rewrite wrap_in_unsigned by lia. rewrite smear_loop_ones by lia.
  rewrite Z.log2_up_eqn by lia. rewrite <- Z.sub_1_r, <- Z.add_1_r.
  set (p := 2 ^ (Z.log2 (a - 1) + 1)).
  assert (0 < p <= 2 ^ bit_width t) as Hp.
  { split; [apply Z.pow_pos_nonneg; pose proof (Z.log2_nonneg (a - 1)); lia|].
    apply Z.pow_le_mono_r; [lia|]. pose proof (Z.log2_lt_pow2 (a - 1) (bit_width t)). lia. }
  unfold add_with_overflow. cbv beta iota zeta. replace (p - 1 + 1) with p by lia.
  rewrite (wrap_unsigned (unsigned_of t) p eq_refl). cbn [unsigned_of bit_width].
  assert (in_range (unsigned_of t) p = (p <? 2 ^ bit_width t)) as ->
    by (unfold in_range, MIN, MAX; cbn; lia).
  destruct (p <? 2 ^ bit_width t) eqn:Hlt; cbn [negb].
  - rewrite Z.mod_small by lia.
    assert (in_range t p = negb (MAX t <? p)) as Hin by (unfold in_range; lia).
    assert (is_signed t = false -> (MAX t <? p) = false) as Hu by (unfold MAX; intros ->; lia).
    destruct (MAX t <? p) eqn:Hmax; cbn [negb] in Hin; rewrite Hin; cbn [orb].
    + destruct (is_signed t) eqn:Hs; [done | by specialize (Hu eq_refl)].
    + unfold from_unsigned_bits. rewrite (wrap_id t ltac:(lia) p Hin). by destruct (is_signed t).
  - assert (in_range t p = false) as ->.
    { unfold in_range, MAX. destruct (is_signed t); lia. }
    destruct (is_signed t); reflexivity.
Qed.

Lemma checked_next_power_of_two_spec_witness :
  checked_next_power_of_two u8 100 = Some 128 /\ checked_next_power_of_two i8 100 = None.
Proof.
  split.
  - exact (checked_next_power_of_two_spec u8 100 eq_refl eq_refl).
  - exact (checked_next_power_of_two_spec i8 100 eq_refl eq_refl).
Defined.

(** ** Byte arrays *)

Lemma be_bytes_loop_reverse n bits acc :
  be_bytes_loop n bits acc = reverse (le_bytes_loop n bits) ++ acc.
Proof.
  revert bits acc. induction n as [|n IH]; intros bits acc; [done|].
  cbn [be_bytes_loop le_bytes_loop]. rewrite IH, reverse_cons. by rewrite <- app_assoc.
Qed.

Lemma shift_in_combine t bits byte :
  0 <= bits -> 0 <= byte < 256 -> bits * 256 + byte < 2 ^ bit_width t ->
  shift_in t bits byte = bits * 256 + byte.
Proof.
  intros Hb Hy Hlt. unfold shift_in.
  rewrite lor_shiftl_add by lia. apply Z.mod_small. lia.
Qed.

Lemma foldl_shift_in_le t n bits :
  0 < bit_width t -> 0 <= bits < 2 ^ (8 * Z.of_nat n) -> 8 * Z.of_nat n <= bit_width t ->
  foldl (shift_in t) 0 (reverse (le_bytes_loop n bits)) = bits.
Proof.
  intros Hw. revert bits. induction n as [|n IH]; intros bits Hb Hn.
  { cbn in *. lia. }
  cbn [le_bytes_loop]. rewrite reverse_cons, foldl_app.
  rewrite Nat2Z.inj_succ, <- Z.add_1_r, Z.mul_add_distr_l, Z.pow_add_r in Hb by lia.
  change (2 ^ (8 * 1)) with 256 in Hb.
  assert (Z.shiftr bits 8 = bits / 256) as Hs by (by rewrite Z.shiftr_div_pow2 by lia).
  pose proof (Z.div_mod bits 256 ltac:(lia)). pose proof (Z.mod_pos_bound bits 256 ltac:(lia)).
  rewrite IH; [| rewrite Hs; split; [apply Z.div_pos | apply Z.div_lt_upper_bound]; lia | lia].
  cbn [foldl]. rewrite Hs, shift_in_combine; [lia | apply Z.div_pos; lia | lia |].
  assert (2 ^ (8 * Z.of_nat n) * 256 <= 2 ^ bit_width t); [|lia].
  change 256 with (2 ^ 8). rewrite <- Z.pow_add_r by lia. apply Z.pow_le_mono_r; lia.
Qed.

(** Decoding the little- or big-endian byte array of a value gives the
    value back. *)
Theorem byte_array_roundtrip t a :
  wf_type t = true -> in_range t a = true ->
  from_le_bytes t (to_le_bytes t a) = a /\ from_be_bytes t (to_be_bytes t a) = a.
Proof.
  intros Ht Ha. pose proof (wf_type_width t Ht) as Hw.
  pose proof (to_unsigned_bits_range t ltac:(lia) a) as Hb.
  assert (8 * Z.of_nat (Z.to_nat (bit_width t / 8)) = bit_width t) as H8.
  { rewrite Z2Nat.id by (apply Z.div_pos; lia). unfold wf_type in Ht.
    pose proof (Z.div_mod (bit_width t) 8). 
    assert (bit_width t = 8 \/ bit_width t = 16 \/ bit_width t = 32 \/
          bit_width t = 64 \/ bit_width t = 128) as [-> | [-> | [-> | [-> | ->]]]] by lia; reflexivity. }
  unfold from_le_bytes, to_le_bytes, from_be_bytes, to_be_bytes.
  rewrite be_bytes_loop_reverse, app_nil_r, foldl_shift_in_le by (rewrite ?H8; lia).
  split; apply from_to_unsigned_bits; (done || lia).
Qed.

Lemma byte_array_roundtrip_witness :
  to_be_bytes i16 (-2) = [255; 254] /\ from_be_bytes i16 [255; 254] = -2.
Proof. split; [reflexivity|]. exact (proj2 (byte_array_roundtrip i16 (-2) eq_refl eq_refl)). Defined.
