(* ===== verification/Utf8.v ===== *)
(** * Characters, ASCII classes and UTF-8

    Models [src/core/src/ascii.cppm], [src/core/src/char/utf8.cppm] and the
    validation loop of [src/core/src/str/traits.cppm].  A byte is an integer
    in [0 .. 255], a buffer a list of bytes, a [char32_t] an integer. *)

From Stdlib Require Import ZArith Lia ZifyBool.
From S2P Require Import Prelude.
Local Open Scope Z_scope.

Definition is_byte (b : Z) : bool := (0 <=? b) && (b <? 256).
Definition bytes_ok (bs : list Z) : Prop := Forall (fun b => 0 <= b < 256) bs.

(** ** ASCII classes *)

Definition is_digit (value : Z) : bool := (48 <=? value) && (value <=? 57).
Definition is_hex_digit (value : Z) : bool :=
  is_digit value || ((97 <=? value) && (value <=? 102)) || ((65 <=? value) && (value <=? 70)).
Definition is_alpha (value : Z) : bool :=
  ((97 <=? value) && (value <=? 122)) || ((65 <=? value) && (value <=? 90)).
Definition is_alnum (value : Z) : bool := is_alpha value || is_digit value.
Definition is_lower (value : Z) : bool := (97 <=? value) && (value <=? 122).
Definition is_upper (value : Z) : bool := (65 <=? value) && (value <=? 90).
Definition is_blank (value : Z) : bool := (value =? 32) || (value =? 9).
Definition is_space (value : Z) : bool :=
  is_blank value || (value =? 10) || (value =? 13) || (value =? 11) || (value =? 12).

Definition digit_value (value radix : Z) : option Z :=
  if (radix <? 2) || (36 <? radix) then None
  else
    let checked_digit (result : Z) := if radix <=? result then None else Some result in
    if is_digit value then checked_digit (value - 48)
    else if (97 <=? value) && (value <=? 122) then checked_digit (value - 97 + 10)
    else if (65 <=? value) && (value <=? 90) then checked_digit (value - 65 + 10)
    else None.

(** ** Code points *)

Definition CHAR_MAX : Z := 0x10FFFF.
Definition REPLACEMENT : Z := 0xFFFD.

Definition is_scalar (value : Z) : bool :=
  (value <=? 0x10FFFF) && ((value <? 0xD800) || (0xDFFF <? value)).

Definition len_utf8_scalar (c : Z) : nat :=
  if c <=? 0x7F then 1%nat else if c <=? 0x7FF then 2%nat
  else if c <=? 0xFFFF then 3%nat else 4%nat.

(** [byte(static_cast<uint8_t>(x))] *)
Definition byte_of (x : Z) : Z := x mod 256.

(** The bytes written to [buf]; the returned count is their number. *)
Definition encode_utf8_scalar (c : Z) : list Z :=
  if c <=? 0x7F then [byte_of c]
  else if c <=? 0x7FF then
    [byte_of (Z.lor 0xC0 (Z.shiftr c 6)); byte_of (Z.lor 0x80 (Z.land c 0x3F))]
  else if c <=? 0xFFFF then
    [byte_of (Z.lor 0xE0 (Z.shiftr c 12));
     byte_of (Z.lor 0x80 (Z.land (Z.shiftr c 6) 0x3F));
     byte_of (Z.lor 0x80 (Z.land c 0x3F))]
  else
    [byte_of (Z.lor 0xF0 (Z.shiftr c 18));
     byte_of (Z.lor 0x80 (Z.land (Z.shiftr c 12) 0x3F));
     byte_of (Z.lor 0x80 (Z.land (Z.shiftr c 6) 0x3F));
     byte_of (Z.lor 0x80 (Z.land c 0x3F))].

Definition len_utf8 (c : Z) : nat := if negb (is_scalar c) then 0%nat else len_utf8_scalar c.
Definition encode_utf8 (c : Z) : list Z := if negb (is_scalar c) then [] else encode_utf8_scalar c.

(** The continuation loop: [None] is the early return of [{REPLACEMENT, 1}]. *)
Fixpoint decode_continuation (n : nat) (ptr : list Z) (cp : Z) : option Z :=
  match n with
  | O => Some cp
  | S n =>
    match ptr with
    | [] => None
    | b :: ptr =>
      if negb (Z.land b 0xC0 =? 0x80) then None
      else decode_continuation n ptr (Z.lor (Z.shiftl cp 6) (Z.land b 0x3F))
    end
  end.

(** [decode_utf8(ptr, len)] on the [len] bytes available at [ptr]. *)
Definition decode_utf8 (ptr : list Z) : Z * nat :=
  match ptr with
  | [] => (REPLACEMENT, 0%nat)
  | b0 :: rest =>
    if b0 <=? 0x7F then (b0, 1%nat)
    else
      let lead :=
        if Z.land b0 0xE0 =? 0xC0 then Some (2%nat, Z.land b0 0x1F)
        else if Z.land b0 0xF0 =? 0xE0 then Some (3%nat, Z.land b0 0x0F)
        else if Z.land b0 0xF8 =? 0xF0 then Some (4%nat, Z.land b0 0x07)
        else None in
      match lead with
      | None => (REPLACEMENT, 1%nat)
      | Some (seq_len, cp) =>
        if (length ptr <? seq_len)%nat then (REPLACEMENT, 1%nat)
        else
          match decode_continuation (seq_len - 1) rest cp with
          | None => (REPLACEMENT, 1%nat)
          | Some cp =>
            if (seq_len =? 2)%nat && (cp <? 0x80) then (REPLACEMENT, 1%nat)
            else if (seq_len =? 3)%nat && (cp <? 0x800) then (REPLACEMENT, 1%nat)
            else if (seq_len =? 4)%nat && (cp <? 0x10000) then (REPLACEMENT, 1%nat)
            else if negb (is_scalar cp) then (REPLACEMENT, 1%nat)
            else (cp, seq_len)
          end
      end
  end.

Definition is_continuation (value : Z) : bool := Z.land value 0xC0 =? 0x80.

Definition is_char_boundary (bs : list Z) (pos : nat) : bool :=
  if (pos =? 0)%nat || (pos =? length bs)%nat then true
  else if (length bs <? pos)%nat then false
  else negb (is_continuation (default 0 (bs !! pos))).

(** The validation loop; every round consumes at least one byte, so the
    number of bytes is enough fuel. *)
Fixpoint is_valid_utf8_loop (fuel : nat) (ptr : list Z) : bool :=
  match fuel with
  | O => true
  | S fuel =>
    match ptr with
    | [] => true
    | b0 :: _ =>
      let '(cp, consumed) := decode_utf8 ptr in
      if (cp =? REPLACEMENT) && ((consumed <=? 1)%nat && (0x7F <? b0)) then false
      else is_valid_utf8_loop fuel (drop consumed ptr)
    end
  end.

Definition is_valid_utf8 (bs : list Z) : bool := is_valid_utf8_loop (length bs) bs.

(** ** [str_::validate_utf8] *)

Record Utf8Error := mkUtf8Error { valid_up_to : nat; error_len : option Z }.

Definition invalid (offset : nat) (len : Z) : result unit Utf8Error :=
  Err (mkUtf8Error offset (Some len)).
Definition incomplete (offset : nat) : result unit Utf8Error := Err (mkUtf8Error offset None).

(** [bs !! k] is [value(offset + k)]; [None] is [offset + k >= length]. *)
Fixpoint validate_utf8_loop (fuel : nat) (offset : nat) (bs : list Z) : result unit Utf8Error :=
  match fuel with
  | O => Ok tt
  | S fuel =>
    match bs !! 0%nat with
    | None => Ok tt
    | Some first =>
      if first <=? 0x7f then validate_utf8_loop fuel (offset + 1) (drop 1 bs)
      else if (0xc2 <=? first) && (first <=? 0xdf) then
        match bs !! 1%nat with
        | None => incomplete offset
        | Some second =>
          if negb (is_continuation second) then invalid offset 1
          else validate_utf8_loop fuel (offset + 2) (drop 2 bs)
        end
      else if (0xe0 <=? first) && (first <=? 0xef) then
        match bs !! 1%nat with
        | None => incomplete offset
        | Some second =>
          let valid_second :=
            if first =? 0xe0 then (0xa0 <=? second) && (second <=? 0xbf)
            else if first =? 0xed then (0x80 <=? second) && (second <=? 0x9f)
            else is_continuation second in
          if negb valid_second then invalid offset 1
          else
            match bs !! 2%nat with
            | None => incomplete offset
            | Some third =>
              if negb (is_continuation third) then invalid offset 2
              else validate_utf8_loop fuel (offset + 3) (drop 3 bs)
            end
        end
      else if (0xf0 <=? first) && (first <=? 0xf4) then
        match bs !! 1%nat with
        | None => incomplete offset
        | Some second =>
          let valid_second :=
            if first =? 0xf0 then (0x90 <=? second) && (second <=? 0xbf)
            else if first =? 0xf4 then (0x80 <=? second) && (second <=? 0x8f)
            else is_continuation second in
          if negb valid_second then invalid offset 1
          else
            match bs !! 2%nat with
            | None => incomplete offset
            | Some third =>
              if negb (is_continuation third) then invalid offset 2
              else
                match bs !! 3%nat with
                | None => incomplete offset
                | Some fourth =>
                  if negb (is_continuation fourth) then invalid offset 3
                  else validate_utf8_loop fuel (offset + 4) (drop 4 bs)
                end
            end
        end
      else invalid offset 1
    end
  end.

Definition validate_utf8 (bs : list Z) : result unit Utf8Error :=
  validate_utf8_loop (length bs) 0 bs.

(** [from_utf8] returns the same bytes, now known to be text. *)
Definition from_utf8 (bs : list Z) : result (list Z) Utf8Error :=
  match validate_utf8 bs with
  | Err e => Err e
  | Ok _ => Ok bs
  end.

(** ** [Chars]: decoding iterator *)

(** [Chars::next] on the remaining text. *)
Definition chars_next (remaining : list Z) : option (Z * list Z) :=
  match remaining with
  | [] => None
  | _ => let '(cp, len) := decode_utf8 remaining in Some (cp, drop len remaining)
  end.

(** All code points the iterator yields. *)
Fixpoint chars_loop (fuel : nat) (remaining : list Z) : list Z :=
  match fuel with
  | O => []
  | S fuel =>
    match chars_next remaining with
    | None => []
    | Some (cp, remaining) => cp :: chars_loop fuel remaining
    end
  end.

Definition chars (s : list Z) : list Z := chars_loop (length s) s.

(** ** The specification: a text is the encoding of some code points *)

Definition is_text (bs : list Z) : Prop :=
  exists cs, Forall (fun c => is_scalar c = true /\ 0 <= c) cs /\ bs = concat (map encode_utf8 cs).

(** ** Well-formed byte sequences, in arithmetic form *)

(** [utf8_seq c bs]: [bs] is the encoding of the scalar [c]; the payloads of
    the bytes are the base-64 digits of [c]. *)
Inductive utf8_seq : Z -> list Z -> Prop :=
| seq1 c : 0 <= c <= 0x7F -> utf8_seq c [c]
| seq2 x y : 2 <= x < 32 -> 0 <= y < 64 -> utf8_seq (x * 64 + y) [192 + x; 128 + y]
| seq3 x y z :
    0 <= x < 16 -> 0 <= y < 64 -> 0 <= z < 64 -> 32 <= x * 64 + y ->
    x * 64 + y < 864 \/ 896 <= x * 64 + y ->
    utf8_seq ((x * 64 + y) * 64 + z) [224 + x; 128 + y; 128 + z]
| seq4 w x y z :
    0 <= w < 8 -> 0 <= x < 64 -> 0 <= y < 64 -> 0 <= z < 64 ->
    16 <= w * 64 + x < 272 ->
    utf8_seq (((w * 64 + x) * 64 + y) * 64 + z) [240 + w; 128 + x; 128 + y; 128 + z].

#[export] Hint Constructors utf8_seq : rstd.

(** Surrogates included. *)
Lemma encode_scalar_arith c :
  0 <= c <= 0x10FFFF ->
  encode_utf8_scalar c =
    if c <=? 0x7F then [c]
    else if c <=? 0x7FF then [192 + c / 64; 128 + c mod 64]
    else if c <=? 0xFFFF then [224 + c / 64 / 64; 128 + c / 64 mod 64; 128 + c mod 64]
    else [240 + c / 64 / 64 / 64; 128 + c / 64 / 64 mod 64; 128 + c / 64 mod 64; 128 + c mod 64].
Proof.
  intros Hc.
  assert (forall x, Z.land x 0x3F = x mod 64) as Hland by (intros; by apply (land_mask 6)).
  assert (forall x, byte_of (Z.lor 0x80 (x mod 64)) = 128 + x mod 64) as Hcont.
  { intros x. pose proof (Z.mod_pos_bound x 64). change 0x80 with (2 * 2 ^ 6).
    rewrite lor_add by lia. unfold byte_of. apply Z.mod_small. lia. }
  unfold encode_utf8_scalar. rewrite !Hland, !Hcont, !Z.shiftr_div_pow2 by lia.
  change (2 ^ 6) with 64. change (2 ^ 12) with (64 * 64). change (2 ^ 18) with (64 * 64 * 64).
  rewrite <- !Z.div_div by lia.
  destruct (c <=? 0x7F) eqn:?; [unfold byte_of; rewrite Z.mod_small by lia; done|].
  destruct (c <=? 0x7FF) eqn:?.
  { change 0xC0 with (6 * 2 ^ 5). rewrite lor_add by (Z.div_mod_to_equations; lia).
    unfold byte_of. rewrite Z.mod_small by (Z.div_mod_to_equations; lia). done. }
  destruct (c <=? 0xFFFF) eqn:?.
  { change 0xE0 with (14 * 2 ^ 4). rewrite lor_add by (Z.div_mod_to_equations; lia).
    unfold byte_of. rewrite Z.mod_small by (Z.div_mod_to_equations; lia). done. }
  change 0xF0 with (30 * 2 ^ 3). rewrite lor_add by (Z.div_mod_to_equations; lia).
  unfold byte_of. rewrite Z.mod_small by (Z.div_mod_to_equations; lia). done.
Qed.

Lemma encode_arith c :
  0 <= c -> is_scalar c = true ->
  encode_utf8 c =
    if c <=? 0x7F then [c]
    else if c <=? 0x7FF then [192 + c / 64; 128 + c mod 64]
    else if c <=? 0xFFFF then [224 + c / 64 / 64; 128 + c / 64 mod 64; 128 + c mod 64]
    else [240 + c / 64 / 64 / 64; 128 + c / 64 / 64 mod 64; 128 + c / 64 mod 64; 128 + c mod 64].
Proof.
  intros Hc Hs. unfold encode_utf8. rewrite Hs. cbn [negb]. apply encode_scalar_arith.
  unfold is_scalar in Hs. lia.
Qed.

Lemma encode_seq c : 0 <= c -> is_scalar c = true -> utf8_seq c (encode_utf8 c).
Proof.
  intros Hc Hs. rewrite encode_arith by done. unfold is_scalar in Hs.
  destruct (c <=? 0x7F) eqn:?; [apply seq1; lia|].
  destruct (c <=? 0x7FF) eqn:?.
  { replace c with (c / 64 * 64 + c mod 64) at 1 by (Z.div_mod_to_equations; lia).
    apply seq2; Z.div_mod_to_equations; lia. }
  destruct (c <=? 0xFFFF) eqn:?.
  { replace c with ((c / 64 / 64 * 64 + c / 64 mod 64) * 64 + c mod 64) at 1
      by (Z.div_mod_to_equations; lia).
    apply seq3; Z.div_mod_to_equations; lia. }
  replace c with (((c / 64 / 64 / 64 * 64 + c / 64 / 64 mod 64) * 64 + c / 64 mod 64) * 64 + c mod 64)
    at 1 by (Z.div_mod_to_equations; lia).
  apply seq4; Z.div_mod_to_equations; lia.
Qed.

Lemma seq_scalar c bs : utf8_seq c bs -> 0 <= c /\ is_scalar c = true.
Proof. unfold is_scalar. inversion 1; subst; lia. Qed.

Lemma seq_encode c bs : utf8_seq c bs -> bs = encode_utf8 c.
Proof.
  intros Hq. destruct (seq_scalar c bs Hq). rewrite encode_arith by done.
  inversion Hq; subst; repeat (case_if; try lia); repeat (f_equal; try (Z.div_mod_to_equations; lia)).
Qed.

Lemma seq_length c bs : utf8_seq c bs -> length bs = len_utf8 c.
Proof.
  intros Hq. destruct (seq_scalar c bs Hq) as [? Hs]. unfold len_utf8, len_utf8_scalar.
  rewrite Hs. cbn [negb]. inversion Hq; subst; repeat (case_if; try lia); done.
Qed.

Lemma seq_bytes_ok c bs : utf8_seq c bs -> bytes_ok bs.
Proof. inversion 1; subst; repeat constructor; lia. Qed.

Lemma encode_utf8_length c : 0 <= c -> is_scalar c = true -> length (encode_utf8 c) = len_utf8 c.
Proof. eauto using seq_length, encode_seq. Qed.

(** ** The bit tests on bytes, as intervals *)

Lemma is_continuation_range b : 0 <= b < 256 -> is_continuation b = (128 <=? b) && (b <? 192).
Proof. intros Hb. unfold is_continuation. by_bytes b. Qed.

Lemma lead2_range b : 0 <= b < 256 -> (Z.land b 0xE0 =? 0xC0) = (192 <=? b) && (b <? 224).
Proof. intros Hb. by_bytes b. Qed.
Lemma lead3_range b : 0 <= b < 256 -> (Z.land b 0xF0 =? 0xE0) = (224 <=? b) && (b <? 240).
Proof. intros Hb. by_bytes b. Qed.
Lemma lead4_range b : 0 <= b < 256 -> (Z.land b 0xF8 =? 0xF0) = (240 <=? b) && (b <? 248).
Proof. intros Hb. by_bytes b. Qed.

(** The continuation loop accumulates base-64 digits. *)
Lemma decode_continuation_cons n y ptr cp :
  0 <= y < 64 ->
  decode_continuation (S n) (128 + y :: ptr) cp = decode_continuation n ptr (cp * 64 + y).
Proof.
  intros Hy. cbn [decode_continuation].
  change (Z.land (128 + y) 192 =? 128) with (is_continuation (128 + y)).
  rewrite is_continuation_range by lia. replace (_ && _) with true by lia. cbn [negb].
  f_equal. change 0x3F with (2 ^ 6 - 1). rewrite land_mask by lia.
  replace ((128 + y) mod 2 ^ 6) with y by (cbn; Z.div_mod_to_equations; lia).
  rewrite lor_shiftl_add by lia. done.
Qed.

Lemma decode_continuation_inv n ptr cp cp' :
  bytes_ok ptr -> decode_continuation (S n) ptr cp = Some cp' ->
  exists y ptr', 0 <= y < 64 /\ ptr = 128 + y :: ptr' /\ bytes_ok ptr' /\
    decode_continuation n ptr' (cp * 64 + y) = Some cp'.
Proof.
  intros Hok H. destruct ptr as [|b ptr]; [done|]. inversion Hok as [|?? Hb Hok']; subst.
  assert (is_continuation b = true) as Hc.
  { cbn [decode_continuation] in H. unfold is_continuation. by destruct (Z.land b 0xC0 =? 0x80). }
  rewrite is_continuation_range in Hc by done.
  replace b with (128 + (b - 128)) in H |- * by lia.
  rewrite decode_continuation_cons in H by lia.
  exists (b - 128), ptr. split_and!; (done || lia).
Qed.

(** ** Decoding *)

(** The payload of a lead byte. *)
Lemma lead_payload n m k b :
  0 <= n -> m = 2 ^ n - 1 -> k * 2 ^ n <= b < (k + 1) * 2 ^ n -> Z.land b m = b - k * 2 ^ n.
Proof.
  intros Hn -> Hb. rewrite land_mask by lia. symmetry.
  apply (Z.mod_unique_pos b (2 ^ n) k); lia.
Qed.

Lemma decode_seq c bs rest : utf8_seq c bs -> decode_utf8 (bs ++ rest) = (c, length bs).
Proof.
  intros Hq. destruct (seq_scalar _ _ Hq) as [Hc Hs].
  inversion Hq; subst; cbn [app decode_utf8 length].
  - by replace (c <=? 127) with true by lia.
  - rewrite lead2_range by lia. replace (_ <=? 127) with false by lia.
    replace (_ && _) with true by lia. rewrite (lead_payload 5 _ 6) by (done || lia).
    cbn [Nat.ltb Nat.leb length Nat.sub].
    rewrite decode_continuation_cons by lia. cbn [decode_continuation].
    replace ((192 + x - 6 * 2 ^ 5) * 64 + y) with (x * 64 + y) by lia. rewrite Hs.
    cbn [Nat.eqb andb negb]. by replace (_ <? 128) with false by lia.
  - rewrite lead2_range, lead3_range by lia. replace (_ <=? 127) with false by lia.
    replace ((192 <=? _) && _) with false by lia. replace ((224 <=? _) && _) with true by lia.
    rewrite (lead_payload 4 _ 14) by (done || lia).
    cbn [Nat.ltb Nat.leb length Nat.sub].
    rewrite !decode_continuation_cons by lia. cbn [decode_continuation].
    replace (((224 + x - 14 * 2 ^ 4) * 64 + y) * 64 + z) with ((x * 64 + y) * 64 + z) by lia.
    rewrite Hs. cbn [Nat.eqb andb negb]. by replace (_ <? 2048) with false by lia.
  - rewrite lead2_range, lead3_range, lead4_range by lia. replace (_ <=? 127) with false by lia.
    replace ((192 <=? _) && _) with false by lia. replace ((224 <=? _) && _) with false by lia.
    replace ((240 <=? _) && _) with true by lia.
    rewrite (lead_payload 3 _ 30) by (done || lia).
    cbn [Nat.ltb Nat.leb length Nat.sub].
    rewrite !decode_continuation_cons by lia. cbn [decode_continuation].
    replace ((((240 + w - 30 * 2 ^ 3) * 64 + x) * 64 + y) * 64 + z)
      with (((w * 64 + x) * 64 + y) * 64 + z) by lia.
    rewrite Hs. cbn [Nat.eqb andb negb]. by replace (_ <? 65536) with false by lia.
Qed.

(** What a call to [decode_utf8] on a non-empty buffer means: a whole encoded
    scalar, or the one-byte replacement of a byte no scalar starts with. *)
Inductive decode_view (ptr : list Z) : Z -> nat -> Prop :=
| decoded c bs rest : utf8_seq c bs -> ptr = bs ++ rest -> decode_view ptr c (length bs)
| replaced b0 rest :
    ptr = b0 :: rest -> 0x7F < b0 -> (forall c bs rest', utf8_seq c bs -> ptr <> bs ++ rest') ->
    decode_view ptr REPLACEMENT 1.

Lemma decode_replaced b0 rest :
  0x7F < b0 -> decode_utf8 (b0 :: rest) = (REPLACEMENT, 1%nat) ->
  decode_view (b0 :: rest) REPLACEMENT 1.
Proof.
  intros Hb Hd. apply (replaced _ b0 rest eq_refl Hb). intros c bs rest' Hq E.
  rewrite E, (decode_seq c bs rest' Hq) in Hd. injection Hd as -> Hlen.
  inversion Hq; subst; try done. simplify_eq/=. lia.
Qed.

Lemma decode_viewP ptr :
  bytes_ok ptr -> ptr <> [] -> decode_view ptr (fst (decode_utf8 ptr)) (snd (decode_utf8 ptr)).
Proof.
  intros Hok Hne. destruct ptr as [|b0 rest]; [done|]. clear Hne.
  inversion Hok as [|?? Hb Hok']; subst.
  destruct (decode_utf8 (b0 :: rest)) as [cp n] eqn:Hd. cbn [fst snd].
  destruct (b0 <=? 0x7F) eqn:H7.
  { cbn [decode_utf8] in Hd. rewrite H7 in Hd. injection Hd as <- <-.
    apply (decoded _ b0 [b0] rest); [apply seq1; lia | done]. }
  assert ((cp, n) = (REPLACEMENT, 1%nat) -> decode_view (b0 :: rest) cp n) as Hrep.
  { intros E. injection E as -> ->. apply decode_replaced; [lia | done]. }
  cbn [decode_utf8] in Hd. rewrite H7, lead2_range, lead3_range, lead4_range in Hd by done.
  destruct ((192 <=? b0) && (b0 <? 224)) eqn:?;
    [|destruct ((224 <=? b0) && (b0 <? 240)) eqn:?;
      [|destruct ((240 <=? b0) && (b0 <? 248)) eqn:?; [|by apply Hrep]]].
  - rewrite (lead_payload 5 _ 6) in Hd by (done || lia).
    destruct (_ <? 2)%nat; [by apply Hrep|]. cbn [Nat.sub] in Hd.
    destruct (decode_continuation _ _ _) as [cp'|] eqn:Hc; [|by apply Hrep].
    apply decode_continuation_inv in Hc as (y & r1 & Hy & -> & _ & Hc); [|done].
    cbn [decode_continuation] in Hc. injection Hc as <-. cbn [Nat.eqb andb] in Hd.
    destruct (_ <? 128) eqn:?; [by apply Hrep|].
    destruct (negb _) eqn:?; [by apply Hrep|]. injection Hd as <- <-.
    replace b0 with (192 + (b0 - 6 * 2 ^ 5)) at 1 by lia.
    eapply (decoded _ _ [_; _] r1); [apply seq2; lia | done].
  - rewrite (lead_payload 4 _ 14) in Hd by (done || lia).
    destruct (_ <? 3)%nat; [by apply Hrep|]. cbn [Nat.sub] in Hd.
    destruct (decode_continuation _ _ _) as [cp'|] eqn:Hc; [|by apply Hrep].
    apply decode_continuation_inv in Hc as (y & r1 & Hy & -> & Hok1 & Hc); [|done].
    apply decode_continuation_inv in Hc as (z & r2 & Hz & -> & _ & Hc); [|done].
    cbn [decode_continuation] in Hc. injection Hc as <-. cbn [Nat.eqb andb] in Hd.
    destruct (_ <? 2048) eqn:?; [by apply Hrep|].
    destruct (negb _) eqn:Hs; [by apply Hrep|]. injection Hd as <- <-. unfold is_scalar in Hs.
    replace b0 with (224 + (b0 - 14 * 2 ^ 4)) at 1 by lia.
    eapply (decoded _ _ [_; _; _] r2); [apply seq3; lia | done].
  - rewrite (lead_payload 3 _ 30) in Hd by (done || lia).
    destruct (_ <? 4)%nat; [by apply Hrep|]. cbn [Nat.sub] in Hd.
    destruct (decode_continuation _ _ _) as [cp'|] eqn:Hc; [|by apply Hrep].
    apply decode_continuation_inv in Hc as (x & r1 & Hx & -> & Hok1 & Hc); [|done].
    apply decode_continuation_inv in Hc as (y & r2 & Hy & -> & Hok2 & Hc); [|done].
    apply decode_continuation_inv in Hc as (z & r3 & Hz & -> & _ & Hc); [|done].
    cbn [decode_continuation] in Hc. injection Hc as <-. cbn [Nat.eqb andb] in Hd.
    destruct (_ <? 65536) eqn:?; [by apply Hrep|].
    destruct (negb _) eqn:Hs; [by apply Hrep|]. injection Hd as <- <-. unfold is_scalar in Hs.
    replace b0 with (240 + (b0 - 30 * 2 ^ 3)) at 1 by lia.
    eapply (decoded _ _ [_; _; _; _] r3); [apply seq4; lia | done].
Qed.

(** ** Texts *)

Lemma is_text_nil : is_text [].
Proof. exists []. split; [constructor | done]. Qed.

Lemma is_text_seq c bs rest : utf8_seq c bs -> is_text rest -> is_text (bs ++ rest).
Proof.
  intros Hq (cs & Hcs & ->). exists (c :: cs). destruct (seq_scalar _ _ Hq).
  split; [by constructor|]. cbn. by rewrite (seq_encode c bs Hq).
Qed.

Lemma is_text_inv bs :
  is_text bs -> bs = [] \/ exists c s rest, utf8_seq c s /\ bs = s ++ rest /\ is_text rest.
Proof.
  intros (cs & Hcs & ->). destruct cs as [|c cs]; [by left|]. right.
  inversion Hcs as [|?? [Hs Hc] Hcs']; subst. exists c, (encode_utf8 c), (concat (map encode_utf8 cs)).
  split_and!; [by apply encode_seq | done | by exists cs].
Qed.

Lemma is_text_app a b : is_text a -> is_text b -> is_text (a ++ b).
Proof.
  intros (cs & Hcs & ->) (ds & Hds & ->). exists (cs ++ ds).
  split; [by apply Forall_app|]. by rewrite map_app, concat_app.
Qed.

Lemma is_text_bytes_ok bs : is_text bs -> bytes_ok bs.
Proof.
  intros (cs & Hcs & ->). induction Hcs as [|c cs [Hs Hc] _ IH]; [constructor|].
  cbn. apply Forall_app. split; [|exact IH]. by apply (seq_bytes_ok c), encode_seq.
Qed.

Lemma seq_prefix_unique c bs rest c' bs' rest' :
  utf8_seq c bs -> utf8_seq c' bs' -> bs ++ rest = bs' ++ rest' ->
  c = c' /\ bs = bs' /\ rest = rest'.
Proof.
  intros Hq Hq' E. pose proof (decode_seq c bs rest Hq) as Hd.
  rewrite E, (decode_seq c' bs' rest' Hq') in Hd. injection Hd as -> Hl.
  apply app_inj_1 in E as [-> ->]; done.
Qed.

Lemma is_text_seq_inv c bs rest : utf8_seq c bs -> is_text (bs ++ rest) -> is_text rest.
Proof.
  intros Hq Ht. apply is_text_inv in Ht as [E|(c' & s & r & Hq' & E & Ht)].
  - destruct Hq; done.
  - by destruct (seq_prefix_unique _ _ _ _ _ _ Hq Hq' E) as (_ & _ & ->).
Qed.

Lemma seq_nonempty c bs : utf8_seq c bs -> (0 < length bs)%nat.
Proof. destruct 1; cbn; lia. Qed.

Lemma bytes_ok_app a b : bytes_ok (a ++ b) <-> bytes_ok a /\ bytes_ok b.
Proof. apply Forall_app. Qed.

Lemma is_valid_utf8_loop_text fuel bs :
  bytes_ok bs -> (length bs <= fuel)%nat -> is_valid_utf8_loop fuel bs = true <-> is_text bs.
Proof.
  revert bs. induction fuel as [|fuel IH]; intros bs Hok Hlen.
  { destruct bs; [|cbn in Hlen; lia]. split; [intros; apply is_text_nil | done]. }
  destruct bs as [|b0 rest] eqn:E; [split; [intros; apply is_text_nil | done]|].
  cbn [is_valid_utf8_loop]. rewrite <- E in *.
  pose proof (decode_viewP bs Hok ltac:(by subst)) as Hv.
  destruct (decode_utf8 bs) as [cp n]. cbn [fst snd] in Hv.
  destruct Hv as [c s r Hq Ebs | b0' r Ebs Hb0 Hno].
  - replace (_ && _) with false.
    2:{ destruct Hq; subst; simplify_eq/=; unfold REPLACEMENT; lia. }
    rewrite Ebs, drop_app_length. rewrite Ebs, bytes_ok_app in Hok. destruct Hok as [_ Hok].
    pose proof (seq_nonempty _ _ Hq). rewrite Ebs, length_app in Hlen.
    rewrite IH by (done || lia).
    split; [by apply (is_text_seq c) | by apply (is_text_seq_inv c)].
  - replace (_ && _) with true by (simplify_eq; cbn [Nat.leb andb]; unfold REPLACEMENT; lia).
    split; [done|]. intros Ht. apply is_text_inv in Ht as [->|(c & s & r' & Hq & -> & _)]; [done|].
    by destruct (Hno c s r').
Qed.

(** [decode_utf8] is a left inverse of [encode_utf8] on every Unicode
    scalar, whatever follows it, and consumes exactly [len_utf8] bytes. *)
Theorem decode_encode_utf8 c rest :
  0 <= c -> is_scalar c = true ->
  decode_utf8 (encode_utf8 c ++ rest) = (c, len_utf8 c).
Proof.
  intros Hc Hs. pose proof (encode_seq c Hc Hs) as Hq.
  rewrite (decode_seq _ _ rest Hq). by rewrite (seq_length _ _ Hq).
Qed.

Lemma decode_encode_utf8_witness :
  encode_utf8 0x20AC = [0xE2; 0x82; 0xAC] /\ decode_utf8 (encode_utf8 0x20AC ++ [0xFF]) = (0x20AC, 3%nat).
Proof.
  split; [reflexivity|]. exact (decode_encode_utf8 0x20AC [0xFF] ltac:(lia) eq_refl).
Defined.

(** decoding is canonical: a non-empty buffer of bytes either starts with
    the encoding of the returned scalar and the count is its length (so
    overlong forms, surrogates and truncated sequences never decode), or no
    scalar's encoding starts the buffer and the result is U+FFFD with one
    byte skipped. *)
Theorem decode_utf8_canonical b0 tl :
  bytes_ok (b0 :: tl) ->
  let '(cp, n) := decode_utf8 (b0 :: tl) in
  (0 <= cp /\ is_scalar cp = true /\ n = len_utf8 cp /\
     exists rest, b0 :: tl = encode_utf8 cp ++ rest) \/
  (cp = REPLACEMENT /\ n = 1%nat /\
     forall c rest, 0 <= c -> is_scalar c = true -> b0 :: tl <> encode_utf8 c ++ rest).
Proof.
  intros Hok. pose proof (decode_viewP (b0 :: tl) Hok ltac:(done)) as Hv.
  destruct (decode_utf8 (b0 :: tl)) as [cp n]. cbn [fst snd] in Hv.
  destruct Hv as [c s r Hq E | b0' r E Hb0 Hno].
  - left. destruct (seq_scalar _ _ Hq). split_and!; try done; [by apply seq_length|].
    exists r. by rewrite <- (seq_encode _ _ Hq).
  - right. split_and!; try done. intros c rest Hc Hs. apply (Hno c). by apply encode_seq.
Qed.

Lemma decode_utf8_canonical_witness :
  decode_utf8 [0xC0; 0x80] = (REPLACEMENT, 1%nat) /\
  let '(cp, n) := decode_utf8 [0xC0; 0x80] in
  (0 <= cp /\ is_scalar cp = true /\ n = len_utf8 cp /\
     exists rest, [0xC0; 0x80] = encode_utf8 cp ++ rest) \/
  (cp = REPLACEMENT /\ n = 1%nat /\
     forall c rest, 0 <= c -> is_scalar c = true -> [0xC0; 0x80] <> encode_utf8 c ++ rest).
Proof.
  split; [reflexivity|].
  exact (decode_utf8_canonical 0xC0 [0x80] ltac:(repeat constructor; lia)).
Defined.

(** ** [validate_utf8] *)

(** One round of the loop: a whole sequence is skipped, or the loop stops at
    this offset; the stop is "incomplete" exactly when more bytes could still
    complete a sequence. *)
Inductive validate_view (bs : list Z) : Prop :=
| step_ok c s rest :
    utf8_seq c s -> bs = s ++ rest ->
    (forall fuel off,
       validate_utf8_loop (S fuel) off bs = validate_utf8_loop fuel (off + length s) rest) ->
    validate_view bs
| step_err el :
    (forall fuel off, validate_utf8_loop (S fuel) off bs = Err (mkUtf8Error off el)) ->
    (forall c s rest, utf8_seq c s -> bs <> s ++ rest) ->
    (el = None <-> exists c ext, utf8_seq c (bs ++ ext)) ->
    validate_view bs.

Ltac no_seq :=
  intros ? ? ? Hq; destruct Hq; intros E; simplify_eq/=; lia.
Ltac no_extension :=
  split; [done | intros (? & ? & Hq); inversion Hq; simplify_eq/=; lia].

Ltac open_range :=
  repeat match goal with
  | H : bytes_ok (_ :: _) |- _ => inversion H; subst; clear H
  | H : Forall _ (_ :: _) |- _ => inversion H; subst; clear H
  end.

Lemma validate_two b0 b1 tl :
  0xC2 <= b0 <= 0xDF -> 0 <= b1 < 256 -> validate_view (b0 :: b1 :: tl).
Proof.
  intros H0 H1. destruct (is_continuation b1) eqn:Hc.
  - rewrite is_continuation_range in Hc by done.
    apply (step_ok _ ((b0 - 192) * 64 + (b1 - 128)) [b0; b1] tl); [|done|].
    + replace b0 with (192 + (b0 - 192)) at 2 by lia.
      replace b1 with (128 + (b1 - 128)) at 2 by lia. apply seq2; lia.
    + intros. cbn -[is_continuation]. replace (b0 <=? 127) with false by lia.
      replace (_ && _) with true by lia. by rewrite is_continuation_range, Hc by done.
  - apply (step_err _ (Some 1)).
    + intros. cbn -[is_continuation]. replace (b0 <=? 127) with false by lia.
      replace (_ && _) with true by lia. by rewrite Hc.
    + rewrite is_continuation_range in Hc by done. no_seq.
    + rewrite is_continuation_range in Hc by done. no_extension.
Qed.

(** The admissible second bytes, as the code computes them and as a range
    condition on the payload. *)
Definition valid_second3 (first second : Z) : bool :=
  if first =? 0xe0 then (0xa0 <=? second) && (second <=? 0xbf)
  else if first =? 0xed then (0x80 <=? second) && (second <=? 0x9f)
  else is_continuation second.

Definition valid_second4 (first second : Z) : bool :=
  if first =? 0xf0 then (0x90 <=? second) && (second <=? 0xbf)
  else if first =? 0xf4 then (0x80 <=? second) && (second <=? 0x8f)
  else is_continuation second.

Lemma valid_second3_iff b0 b1 :
  0xE0 <= b0 <= 0xEF -> 0 <= b1 < 256 ->
  valid_second3 b0 b1 =
    let p := (b0 - 224) * 64 + (b1 - 128) in
    (128 <=? b1) && (b1 <? 192) && (32 <=? p) && ((p <? 864) || (896 <=? p)).
Proof.
  intros. unfold valid_second3. rewrite is_continuation_range by done. cbv zeta.
  repeat case_if; lia.
Qed.

Lemma valid_second4_iff b0 b1 :
  0xF0 <= b0 <= 0xF4 -> 0 <= b1 < 256 ->
  valid_second4 b0 b1 =
    let p := (b0 - 240) * 64 + (b1 - 128) in
    (128 <=? b1) && (b1 <? 192) && (16 <=? p) && (p <? 272).
Proof.
  intros. unfold valid_second4. rewrite is_continuation_range by done. cbv zeta.
  repeat case_if; lia.
Qed.

(** The code of one round on a three- and a four-byte lead. *)
Lemma validate_loop_three fuel off b0 tl :
  0xE0 <= b0 <= 0xEF ->
  validate_utf8_loop (S fuel) off (b0 :: tl) =
    match tl with
    | [] => incomplete off
    | b1 :: tl1 =>
      if negb (valid_second3 b0 b1) then invalid off 1
      else
        match tl1 with
        | [] => incomplete off
        | b2 :: tl2 =>
          if negb (is_continuation b2) then invalid off 2
          else validate_utf8_loop fuel (off + 3) tl2
        end
    end.
Proof.
  intros. cbn [validate_utf8_loop lookup list_lookup]. replace (b0 <=? 127) with false by lia.
  replace ((194 <=? b0) && _) with false by lia. replace ((224 <=? b0) && _) with true by lia.
  destruct tl as [|b1 tl]; [done|]. cbn [lookup list_lookup].
  change (if b0 =? 224 then _ else _) with (valid_second3 b0 b1). case_if; [done|].
  destruct tl as [|b2 tl]; done.
Qed.

Lemma validate_loop_four fuel off b0 tl :
  0xF0 <= b0 <= 0xF4 ->
  validate_utf8_loop (S fuel) off (b0 :: tl) =
    match tl with
    | [] => incomplete off
    | b1 :: tl1 =>
      if negb (valid_second4 b0 b1) then invalid off 1
      else
        match tl1 with
        | [] => incomplete off
        | b2 :: tl2 =>
          if negb (is_continuation b2) then invalid off 2
          else
            match tl2 with
            | [] => incomplete off
            | b3 :: tl3 =>
              if negb (is_continuation b3) then invalid off 3
              else validate_utf8_loop fuel (off + 4) tl3
            end
        end
    end.
Proof.
  intros. cbn [validate_utf8_loop lookup list_lookup]. replace (b0 <=? 127) with false by lia.
  replace ((194 <=? b0) && _) with false by lia. replace ((224 <=? b0) && _) with false by lia.
  replace ((240 <=? b0) && _) with true by lia.
  destruct tl as [|b1 tl]; [done|]. cbn [lookup list_lookup].
  change (if b0 =? 240 then _ else _) with (valid_second4 b0 b1). case_if; [done|].
  destruct tl as [|b2 tl]; [done|]. cbn [lookup list_lookup]. case_if; [done|].
  destruct tl as [|b3 tl]; done.
Qed.

Lemma validate_three b0 tl :
  0xE0 <= b0 <= 0xEF -> bytes_ok tl -> validate_view (b0 :: tl).
Proof.
  intros H0 Hok. destruct tl as [|b1 tl]; open_range.
  { apply (step_err _ None); [intros; by rewrite validate_loop_three | no_seq |].
    split; [intros _ | done]. destruct (Z.eq_dec b0 0xE0) as [->|].
    - exists 0x800, [128 + 32; 128 + 0]. apply (seq3 0 32 0); lia.
    - exists (((b0 - 224) * 64 + 0) * 64 + 0), [128 + 0; 128 + 0]. cbn [app].
      replace b0 with (224 + (b0 - 224)) at 2 by lia. apply seq3; lia. }
  destruct (valid_second3 b0 b1) eqn:Hv; pose proof Hv as Hv';
    rewrite valid_second3_iff in Hv' by (done || lia); cbv zeta in Hv'.
  2:{ apply (step_err _ (Some 1)); [intros; by rewrite validate_loop_three, Hv | no_seq | no_extension]. }
  assert (exists x y, b0 = 224 + x /\ b1 = 128 + y) as (x & y & -> & ->).
  { exists (b0 - 224), (b1 - 128). lia. }
  destruct tl as [|b2 tl]; open_range.
  { apply (step_err _ None); [intros; by rewrite validate_loop_three, Hv | no_seq |].
    split; [intros _ | done]. eexists _, [128 + 0]. cbn [app]. apply seq3; lia. }
  destruct (is_continuation b2) eqn:Hc; pose proof Hc as Hc';
    rewrite is_continuation_range in Hc' by done.
  - assert (exists z, b2 = 128 + z) as [z ->] by (exists (b2 - 128); lia).
    apply (step_ok _ ((x * 64 + y) * 64 + z) [224 + x; 128 + y; 128 + z] tl);
      [apply seq3; lia | done |]. intros. by rewrite validate_loop_three, Hv, Hc by lia.
  - apply (step_err _ (Some 2));
      [intros; by rewrite validate_loop_three, Hv, Hc | no_seq | no_extension].
Qed.

Lemma validate_four b0 tl :
  0xF0 <= b0 <= 0xF4 -> bytes_ok tl -> validate_view (b0 :: tl).
Proof.
  intros H0 Hok. destruct tl as [|b1 tl]; open_range.
  { apply (step_err _ None); [intros; by rewrite validate_loop_four | no_seq |].
    split; [intros _ | done]. destruct (Z.eq_dec b0 0xF0) as [->|].
    - exists 0x10000, [128 + 16; 128 + 0; 128 + 0]. apply (seq4 0 16 0 0); lia.
    - exists ((((b0 - 240) * 64 + 0) * 64 + 0) * 64 + 0), [128 + 0; 128 + 0; 128 + 0]. cbn [app].
      replace b0 with (240 + (b0 - 240)) at 2 by lia. apply seq4; lia. }
  destruct (valid_second4 b0 b1) eqn:Hv; pose proof Hv as Hv';
    rewrite valid_second4_iff in Hv' by (done || lia); cbv zeta in Hv'.
  2:{ apply (step_err _ (Some 1)); [intros; by rewrite validate_loop_four, Hv | no_seq | no_extension]. }
  assert (exists w x, b0 = 240 + w /\ b1 = 128 + x) as (w & x & -> & ->).
  { exists (b0 - 240), (b1 - 128). lia. }
  destruct tl as [|b2 tl]; open_range.
  { apply (step_err _ None); [intros; by rewrite validate_loop_four, Hv | no_seq |].
    split; [intros _ | done]. eexists _, [128 + 0; 128 + 0]. cbn [app]. apply seq4; lia. }
  destruct (is_continuation b2) eqn:Hc; pose proof Hc as Hc';
    rewrite is_continuation_range in Hc' by done.
  2:{ apply (step_err _ (Some 2)); [intros; by rewrite validate_loop_four, Hv, Hc | no_seq | no_extension]. }
  assert (exists y, b2 = 128 + y) as [y ->] by (exists (b2 - 128); lia).
  destruct tl as [|b3 tl]; open_range.
  { apply (step_err _ None); [intros; by rewrite validate_loop_four, Hv, Hc | no_seq |].
    split; [intros _ | done]. eexists _, [128 + 0]. cbn [app]. apply seq4; lia. }
  destruct (is_continuation b3) eqn:Hd; pose proof Hd as Hd';
    rewrite is_continuation_range in Hd' by done.
  - assert (exists z, b3 = 128 + z) as [z ->] by (exists (b3 - 128); lia).
    apply (step_ok _ (((w * 64 + x) * 64 + y) * 64 + z)
             [240 + w; 128 + x; 128 + y; 128 + z] tl); [apply seq4; lia | done |].
    intros. by rewrite validate_loop_four, Hv, Hc, Hd by lia.
  - apply (step_err _ (Some 3));
      [intros; by rewrite validate_loop_four, Hv, Hc, Hd | no_seq | no_extension].
Qed.

Lemma validate_viewP bs : bytes_ok bs -> bs <> [] -> validate_view bs.
Proof.
  intros Hok Hne. destruct bs as [|b0 tl]; [done|]. inversion Hok as [|?? Hb Hok']; subst.
  destruct (b0 <=? 0x7f) eqn:?.
  { apply (step_ok _ b0 [b0] tl); [apply seq1; lia | done |].
    intros. cbn. by replace (b0 <=? 127) with true by lia. }
  destruct ((0xc2 <=? b0) && (b0 <=? 0xdf)) eqn:?.
  { destruct tl as [|b1 tl]; [|open_range; apply validate_two; lia].
    apply (step_err _ None); [| no_seq |].
    - intros. cbn. replace (b0 <=? 127) with false by lia. by replace (_ && _) with true by lia.
    - split; [intros _ | done]. exists ((b0 - 192) * 64 + 0), [128 + 0]. cbn [app].
      replace b0 with (192 + (b0 - 192)) at 2 by lia. apply seq2; lia. }
  destruct ((0xe0 <=? b0) && (b0 <=? 0xef)) eqn:?; [apply validate_three; (done || lia)|].
  destruct ((0xf0 <=? b0) && (b0 <=? 0xf4)) eqn:?; [apply validate_four; (done || lia)|].
  apply (step_err _ (Some 1)); [| no_seq | no_extension].
  intros. cbn [validate_utf8_loop lookup list_lookup]. replace (b0 <=? 127) with false by lia.
  do 3 (replace (_ && _) with false by lia). done.
Qed.

(** What a result of validation promises about the bytes. *)
Definition validation_spec (bs : list Z) (r : result unit Utf8Error) : Prop :=
  match r with
  | Ok _ => is_text bs
  | Err e =>
    let bad := drop (valid_up_to e) bs in
    (valid_up_to e < length bs)%nat /\
    is_text (take (valid_up_to e) bs) /\
    (forall c rest, 0 <= c -> is_scalar c = true -> bad <> encode_utf8 c ++ rest) /\
    (error_len e = None <->
       exists c ext, 0 <= c /\ is_scalar c = true /\ bad ++ ext = encode_utf8 c)
  end.

Lemma validate_loop_spec fuel pre bs :
  is_text pre -> bytes_ok bs -> (length bs <= fuel)%nat ->
  validation_spec (pre ++ bs) (validate_utf8_loop fuel (length pre) bs).
Proof.
  revert pre bs. induction fuel as [|fuel IH]; intros pre bs Hp Hok Hlen.
  { destruct bs; [|cbn in Hlen; lia]. cbn. by rewrite app_nil_r. }
  destruct (decide (bs = [])) as [->|Hne]; [cbn; by rewrite app_nil_r|].
  destruct (validate_viewP bs Hok Hne) as [c s rest Hq E Hstep | el Hstep Hno Hel].
  - rewrite Hstep, E, app_assoc, <- length_app. subst bs.
    rewrite bytes_ok_app in Hok. rewrite length_app in Hlen. destruct Hok as [_ Hok].
    pose proof (seq_nonempty _ _ Hq). apply IH; [| done | lia].
    apply is_text_app; [done|]. rewrite <- (app_nil_r s). apply (is_text_seq c); [done | apply is_text_nil].
  - rewrite Hstep. unfold validation_spec. cbn [valid_up_to error_len]. cbv zeta.
    rewrite take_app_length, drop_app_length, length_app. split_and!.
    + destruct bs; [done | cbn; lia].
    + done.
    + intros c rest Hc Hs. apply (Hno c). by apply encode_seq.
    + rewrite Hel. split; intros (c & ext & H).
      * exists c, ext. destruct (seq_scalar _ _ H). split_and!; [done..|]. exact (seq_encode _ _ H).
      * destruct H as (Hc & Hs & E). exists c, ext. rewrite E. by apply encode_seq.
Qed.

Lemma validate_utf8_correct bs : bytes_ok bs -> validation_spec bs (validate_utf8 bs).
Proof. intros Hok. apply (validate_loop_spec _ [] bs); [apply is_text_nil | done | lia]. Qed.

Lemma validate_ok_text bs : bytes_ok bs -> validate_utf8 bs = Ok tt <-> is_text bs.
Proof.
  intros Hok. pose proof (validate_utf8_correct bs Hok) as H. split.
  - intros E. by rewrite E in H.
  - intros Ht. destruct (validate_utf8 bs) as [[]|e]; [done|]. exfalso.
    destruct H as (Hlen & Hpre & Hno & _).
    destruct Hpre as (cs & Hcs & Htake).
    rewrite <- (take_drop (valid_up_to e) bs), Htake in Ht.
    assert (is_text (drop (valid_up_to e) bs)) as Hd.
    { clear -Ht Hcs. induction Hcs as [|c cs [Hs Hc] _ IH]; [done|].
      cbn in Ht. rewrite <- app_assoc in Ht. apply IH.
      by apply (is_text_seq_inv c (encode_utf8 c)); [apply encode_seq|]. }
    apply is_text_inv in Hd as [E|(c & s & r & Hq & E & _)].
    + apply (f_equal length) in E. rewrite length_drop in E. cbn in E. lia.
    + destruct (seq_scalar _ _ Hq). apply (Hno c r); [done..|]. by rewrite E, (seq_encode _ _ Hq).
Qed.

(** for every byte buffer, [validate_utf8] succeeds exactly on the
    encodings of scalar sequences; on failure [valid_up_to] is the length of
    a valid prefix, no scalar starts at that offset, and [error_len] is
    absent exactly when the remaining bytes are the beginning of some
    scalar's encoding. *)
Theorem validate_utf8_spec bs :
  bytes_ok bs -> validation_spec bs (validate_utf8 bs) /\ (validate_utf8 bs = Ok tt <-> is_text bs).
Proof. intros Hok. split; [by apply validate_utf8_correct | by apply validate_ok_text]. Qed.

Lemma validate_utf8_spec_witness :
  bytes_ok [0x61; 0xE2; 0x82] /\
  validate_utf8 [0x61; 0xE2; 0x82] = Err (mkUtf8Error 1 None) /\
  ~ is_text [0x61; 0xE2; 0x82].
Proof.
  assert (bytes_ok [0x61; 0xE2; 0x82]) as H by (repeat constructor; lia).
  split; [exact H|]. split; [reflexivity|]. intros Ht.
  apply (proj2 (proj2 (validate_utf8_spec _ H))) in Ht. discriminate Ht.
Defined.

(** The constexpr validator used for string literals, built on
    [decode_utf8], accepts exactly the buffers the table-driven
    [validate_utf8] accepts. *)
Theorem utf8_validators_agree bs :
  bytes_ok bs -> is_valid_utf8 bs = true <-> validate_utf8 bs = Ok tt.
Proof.
  intros Hok. rewrite validate_ok_text by done. by apply is_valid_utf8_loop_text.
Qed.

Lemma utf8_validators_agree_witness :
  is_valid_utf8 [0xED; 0xA0; 0x80] = false /\ validate_utf8 [0xED; 0xA0; 0x80] <> Ok tt.
Proof.
  split; [reflexivity|]. intros E.
  apply (utf8_validators_agree [0xED; 0xA0; 0x80] ltac:(repeat constructor; lia)) in E. discriminate E.
Defined.

(** ** Character boundaries *)

Lemma seq_tail_continuation c bs i :
  utf8_seq c bs -> (0 < i < length bs)%nat -> is_continuation (default 0 (bs !! i)) = true.
Proof.
  intros Hq Hi. destruct Hq; cbn in Hi; [lia| | |];
    (destruct i as [|[|[|[|i]]]]; cbn -[is_continuation Z.add]; try lia;
     rewrite is_continuation_range by lia; lia).
Qed.

Lemma seq_head_not_continuation c bs rest :
  utf8_seq c bs -> is_continuation (default 0 ((bs ++ rest) !! 0%nat)) = false.
Proof.
  destruct 1; cbn -[is_continuation Z.add]; rewrite is_continuation_range by lia; lia.
Qed.

Lemma text_head_not_continuation bs :
  is_text bs -> bs <> [] -> is_continuation (default 0 (bs !! 0%nat)) = false.
Proof.
  intros Ht Hne. apply is_text_inv in Ht as [->|(c & s & r & Hq & -> & _)]; [done|].
  by apply (seq_head_not_continuation c).
Qed.

Lemma seq_proper_prefix_not_text c bs i :
  utf8_seq c bs -> (0 < i < length bs)%nat -> ~ is_text (take i bs).
Proof.
  intros Hq Hi Ht. apply is_text_inv in Ht as [E|(c' & s & r & Hq' & E & _)].
  - apply (f_equal length) in E. rewrite length_take in E. cbn in E. lia.
  - assert (bs ++ [] = s ++ (r ++ drop i bs)) as E'.
    { rewrite app_nil_r, app_assoc, <- E. by rewrite take_drop. }
    destruct (seq_prefix_unique _ _ _ _ _ _ Hq Hq' E') as (_ & -> & _).
    apply (f_equal length) in E. rewrite length_take, length_app in E. lia.
Qed.

Lemma is_char_boundary_app_seq c s rest pos :
  utf8_seq c s -> is_text rest -> (length s <= pos)%nat ->
  is_char_boundary (s ++ rest) pos = is_char_boundary rest (pos - length s).
Proof.
  intros Hq Ht Hpos. unfold is_char_boundary. rewrite length_app.
  pose proof (seq_nonempty _ _ Hq).
  replace (pos =? 0)%nat with false by (symmetry; apply Nat.eqb_neq; lia). cbn [orb].
  destruct (decide (pos = length s + length rest)%nat) as [->|Hne].
  { rewrite Nat.eqb_refl. replace (_ - _)%nat with (length rest) by lia.
    rewrite Nat.eqb_refl. by rewrite orb_true_r. }
  replace (pos =? _)%nat with false by (symmetry; by apply Nat.eqb_neq).
  destruct (decide (length s + length rest < pos)%nat).
  { replace (_ <? pos)%nat with true by (symmetry; apply Nat.ltb_lt; lia).
    replace (_ =? 0)%nat with false by (symmetry; apply Nat.eqb_neq; lia).
    replace (_ =? _)%nat with false by (symmetry; apply Nat.eqb_neq; lia).
    by replace (_ <? _)%nat with true by (symmetry; apply Nat.ltb_lt; lia). }
  replace (_ <? pos)%nat with false by (symmetry; apply Nat.ltb_ge; lia).
  rewrite lookup_app_r by lia.
  destruct (decide (pos = length s)) as [->|].
  { rewrite Nat.sub_diag. cbn [Nat.eqb orb].
    rewrite text_head_not_continuation; [done | done | intros ->; cbn in *; lia]. }
  replace (_ =? 0)%nat with false by (symmetry; apply Nat.eqb_neq; lia).
  replace (_ =? _)%nat with false by (symmetry; apply Nat.eqb_neq; lia).
  by replace (_ <? _)%nat with false by (symmetry; apply Nat.ltb_ge; lia).
Qed.

Lemma char_boundary_text bs pos :
  is_text bs ->
  is_char_boundary bs pos = true <->
  (pos <= length bs)%nat /\ is_text (take pos bs) /\ is_text (drop pos bs).
Proof.
  intros (cs & Hcs & ->). revert pos.
  induction Hcs as [|c cs [Hs Hc] Hcs IH]; intros pos.
  { unfold is_char_boundary. cbn. destruct pos; cbn.
    - split; [intros; split_and!; (done || apply is_text_nil) | done].
    - split; [done | lia]. }
  cbn [map concat]. pose proof (encode_seq c Hc Hs) as Hq. set (s := encode_utf8 c) in *. clearbody s.
  assert (is_text (concat (map encode_utf8 cs))) as Hrest by (by exists cs).
  set (rest := concat (map encode_utf8 cs)) in *. clearbody rest.
  destruct (decide (length s <= pos)%nat) as [Hge|Hlt].
  - rewrite (is_char_boundary_app_seq c) by done. rewrite IH.
    rewrite length_app, take_app_ge, drop_app_ge by lia. split.
    + intros (? & ? & ?). split_and!; [lia | by apply (is_text_seq c) | done].
    + intros (? & Ht & ?). split_and!; [lia | by apply (is_text_seq_inv c) in Ht | done].
  - destruct pos as [|pos'].
    { split; [intros _|done]. rewrite take_0, drop_0.
      split_and!; [lia | apply is_text_nil | by apply (is_text_seq c)]. }
    set (pos := S pos') in *. split.
    + unfold is_char_boundary. cbn [Nat.eqb orb]. rewrite length_app.
      replace (pos =? 0)%nat with false by done.
      replace (pos =? _)%nat with false by (symmetry; apply Nat.eqb_neq; lia). cbn [orb].
      replace (_ <? pos)%nat with false by (symmetry; apply Nat.ltb_ge; lia).
      rewrite lookup_app_l by lia. rewrite (seq_tail_continuation c s) by (done || lia). done.
    + rewrite take_app_le by lia. intros (_ & Ht & _).
      exfalso. eapply seq_proper_prefix_not_text; [done| |done]. lia.
Qed.

(** On well-formed text, [is_char_boundary] (a test of one byte) holds
    exactly at the positions where the text splits into two texts. *)
Theorem is_char_boundary_splits bs pos :
  is_text bs ->
  is_char_boundary bs pos = true <->
  (pos <= length bs)%nat /\ is_text (take pos bs) /\ is_text (drop pos bs).
Proof. apply char_boundary_text. Qed.

Lemma is_char_boundary_splits_witness : is_text [0xC3; 0xA9] /\ ~ is_text (take 1 [0xC3; 0xA9]).
Proof.
  assert (is_text [0xC3; 0xA9]) as H.
  { apply (is_text_seq 0xE9 [0xC3; 0xA9] []); [apply (seq2 3 41); lia | apply is_text_nil]. }
  split; [exact H|]. intros H1.
  assert (is_char_boundary [0xC3; 0xA9] 1 = true) as E; [|discriminate E].
  apply (is_char_boundary_splits _ 1 H). split_and!; [cbn; lia | exact H1 |].
  exfalso. apply is_text_inv in H1 as [E|(c & s & r & Hq & E & _)]; [discriminate E|].
  destruct Hq; simplify_eq/=; lia.
Defined.

(** Texts split next to an ASCII byte. *)
Lemma text_ascii_split a b bs :
  is_text (a ++ b :: bs) -> 0 <= b < 128 -> is_text a /\ is_text (b :: bs) /\ is_text bs.
Proof.
  intros Ht Hb.
  assert (is_char_boundary (a ++ b :: bs) (length a) = true) as Hbd.
  { unfold is_char_boundary. rewrite length_app. cbn [length].
    destruct (length a =? 0)%nat eqn:?; [done|].
    replace (_ =? _)%nat with false by (symmetry; apply Nat.eqb_neq; lia). cbn [orb].
    replace (_ <? _)%nat with false by (symmetry; apply Nat.ltb_ge; lia).
    rewrite lookup_app_r, Nat.sub_diag by lia. cbn -[is_continuation].
    rewrite is_continuation_range by lia. lia. }
  apply char_boundary_text in Hbd as (_ & H1 & H2); [|done].
  rewrite take_app_length in H1. rewrite drop_app_length in H2. split_and!; try done.
  apply (is_text_seq_inv b [b]); [apply seq1; lia | done].
Qed.

Lemma text_ascii_cons b bs : 0 <= b < 128 -> is_text bs -> is_text (b :: bs).
Proof. intros Hb Ht. apply (is_text_seq b [b]); [apply seq1; lia | done]. Qed.

Lemma text_ascii bs : Forall (fun b => 0 <= b < 128) bs -> is_text bs.
Proof. induction 1; [apply is_text_nil | by apply text_ascii_cons]. Qed.

(** ** The decoding iterator *)

Lemma chars_encode cs :
  Forall (fun c => is_scalar c = true /\ 0 <= c) cs ->
  forall fuel, (length (concat (map encode_utf8 cs)) <= fuel)%nat ->
  chars_loop fuel (concat (map encode_utf8 cs)) = cs.
Proof.
  induction 1 as [|c cs [Hs Hc] _ IH]; intros fuel Hf.
  { by destruct fuel. }
  cbn [map concat] in *. pose proof (encode_seq c Hc Hs) as Hq. pose proof (seq_nonempty _ _ Hq).
  rewrite length_app in Hf. destruct fuel as [|fuel]; [lia|]. cbn [chars_loop].
  unfold chars_next. destruct (_ ++ _) eqn:E;
    [apply (f_equal length) in E; rewrite length_app in E; cbn in E; lia|].
  rewrite <- E, (decode_seq _ _ _ Hq), drop_app_length. f_equal. apply IH. lia.
Qed.

(** ** Texts as sequences of characters *)

Definition scalars (cs : list Z) : Prop := Forall (fun c => is_scalar c = true /\ 0 <= c) cs.
Definition text_of (cs : list Z) : list Z := concat (map encode_utf8 cs).

Lemma text_of_text cs : scalars cs -> is_text (text_of cs).
Proof. intros. by exists cs. Qed.

Lemma text_of_app a b : text_of (a ++ b) = text_of a ++ text_of b.
Proof. unfold text_of. by rewrite map_app, concat_app. Qed.

Lemma scalars_take n cs : scalars cs -> scalars (take n cs).
Proof. apply Forall_take. Qed.

Lemma scalars_drop n cs : scalars cs -> scalars (drop n cs).
Proof. apply Forall_drop. Qed.

(** The iterator takes the first character off. *)
Lemma chars_next_text c cs :
  is_scalar c = true -> 0 <= c -> chars_next (text_of (c :: cs)) = Some (c, text_of cs).
Proof.
  intros Hs Hc. pose proof (encode_seq c Hc Hs) as Hq. pose proof (seq_nonempty _ _ Hq).
  unfold text_of. cbn [map concat]. unfold chars_next. destruct (_ ++ _) eqn:E;
    [apply (f_equal length) in E; rewrite length_app in E; cbn in E; lia|].
  by rewrite <- E, (decode_seq _ _ _ Hq), drop_app_length.
Qed.

#[export] Hint Resolve text_of_text scalars_take scalars_drop : rstd.
