(* ===== verification/WideText.v ===== *)
(** * Wide text in eight-bit units

    Models [src/std/src/sys/os_str/encoding.cppm], the [EncodeWide] of
    [src/std/src/os/windows/ffi.cppm] and [to_wide] of
    [src/std/src/sys/os_str/windows.cppm].  Windows hands out sequences of
    16-bit units that need not be UTF-16; the library keeps them as bytes, in
    the generalisation of UTF-8 that has an encoding for a lone surrogate.
    Units and code points are integers. *)

From Stdlib Require Import ZArith Lia ZifyBool.
From S2P Require Import Prelude Utf8.
Local Open Scope Z_scope.
Local Open Scope rstd_scope.

(** ** The program *)

(** The errors: a text that is not allowed, and one of the system. *)
Inductive WideError := InvalidInput | OsError.

(** [while (count-- != 0)] of [decode]. *)
Fixpoint decode_rest (count : nat) (bytes : list Z) (i : nat) (value : Z) : outcome WideError (Z * nat) :=
  match count with
  | O => Ret (value, i)
  | S count =>
    let! next := index bytes i in
    decode_rest count bytes (S i) (Z.lor (Z.shiftl value 6) (Z.land next 0x3f))
  end.

(** The code point at [i], and the index after it. *)
Definition decode (bytes : list Z) (i : nat) : outcome WideError (Z * nat) :=
  let! first := index bytes i in
  let i := S i in
  if first <? 0x80 then Ret (first, i)
  else
    let count := if first <? 0xe0 then 1%nat else if first <? 0xf0 then 2%nat else 3%nat in
    let value := Z.land first (if (count =? 1)%nat then 0x1f else if (count =? 2)%nat then 0x0f else 0x07) in
    decode_rest count bytes i value.

Definition encode (bytes : list Z) (value : Z) : list Z :=
  if value <? 0x80 then bytes ++ [byte_of value]
  else
    let bytes :=
      if value <? 0x800 then bytes ++ [byte_of (Z.lor 0xc0 (Z.shiftr value 6))]
      else
        let bytes :=
          if value <? 0x10000 then bytes ++ [byte_of (Z.lor 0xe0 (Z.shiftr value 12))]
          else
            let bytes := bytes ++ [byte_of (Z.lor 0xf0 (Z.shiftr value 18))] in
            bytes ++ [byte_of (Z.lor 0x80 (Z.land (Z.shiftr value 12) 0x3f))] in
        bytes ++ [byte_of (Z.lor 0x80 (Z.land (Z.shiftr value 6) 0x3f))] in
    bytes ++ [byte_of (Z.lor 0x80 (Z.land value 0x3f))].

Definition is_lead (value : Z) : bool := (0xd800 <=? value) && (value <=? 0xdbff).
Definition is_trail (value : Z) : bool := (0xdc00 <=? value) && (value <=? 0xdfff).

(** The code point of a pair of surrogates. *)
Definition joined (lead trail : Z) : Z := 0x10000 + Z.shiftl (lead - 0xd800) 10 + trail - 0xdc00.

Fixpoint from_wide_loop (wide result : list Z) : list Z :=
  match wide with
  | [] => result
  | value :: rest =>
    match rest with
    | next :: rest' =>
      if is_lead value && is_trail next then from_wide_loop rest' (encode result (joined value next))
      else from_wide_loop rest (encode result value)
    | [] => encode result value
    end
  end.

Definition from_wide (wide : list Z) : list Z := from_wide_loop wide [].

(** Whether the three bytes at [i] are those of a lead surrogate. *)
Definition ends_lead (left : list Z) : outcome WideError bool :=
  let start := (length left - 3)%nat in
  let! a := index left start in
  if negb (a =? 0xed) then Ret false
  else
    let! b := index left (start + 1) in
    Ret ((0xa0 <=? b) && (b <=? 0xaf)).

Definition begins_trail (input : list Z) : outcome WideError bool :=
  let! a := index input 0 in
  if negb (a =? 0xed) then Ret false
  else
    let! b := index input 1 in
    Ret ((0xb0 <=? b) && (b <=? 0xbf)).

(** A lead surrogate at the end of [output] and a trail surrogate at the
    beginning of [input] become one code point. *)
Definition append_wtf8 (output input : list Z) : outcome WideError (list Z) :=
  let! joint :=
    (if (3 <=? length output)%nat && (3 <=? length input)%nat then
       let! lead := ends_lead output in
       let! meets := (if (lead : bool) then begins_trail input else Ret false) in
       if (meets : bool) then
         let! lead := decode output (length output - 3) in
         let! trail := decode input 0 in
         Ret (encode (take (length output - 3) output) (joined (fst lead) (fst trail)), snd trail)
       else Ret (output, 0%nat)
     else Ret (output, 0%nat)) in
  Ret (fst joint ++ drop (snd joint) input).

Record EncodeWide := mkEncodeWide { bytes_ : list Z; index_ : nat; pending_ : Z }.

Definition encode_wide (value : list Z) : EncodeWide := mkEncodeWide value 0 0.

Definition next (units : EncodeWide) : outcome WideError (option Z * EncodeWide) :=
  if negb (pending_ units =? 0) then
    Ret (Some (pending_ units), mkEncodeWide (bytes_ units) (index_ units) 0)
  else if (index_ units =? length (bytes_ units))%nat then Ret (None, units)
  else
    let! decoded := decode (bytes_ units) (index_ units) in
    let '(value, i) := decoded in
    if value <=? 0xffff then Ret (Some value, mkEncodeWide (bytes_ units) i (pending_ units))
    else
      let value := value - 0x10000 in
      Ret (Some (Z.lor 0xd800 (Z.shiftr value 10)),
           mkEncodeWide (bytes_ units) i (Z.lor 0xdc00 (Z.land value 0x3ff))).

(** The loop of [to_wide]: a unit of zero is an error. *)
Fixpoint to_wide_loop (fuel : nat) (units : EncodeWide) (output : list Z) : outcome WideError (list Z) :=
  match fuel with
  | O => OutOfFuel
  | S fuel =>
    let! unit_ := next units in
    let '(unit_, units) := unit_ in
    match unit_ with
    | None => Ret output
    | Some value => if value =? 0 then Fail InvalidInput else to_wide_loop fuel units (output ++ [value])
    end
  end.

(** A unit is at least a byte, so that the bytes are enough fuel. *)
Definition to_wide (value : list Z) (terminate : bool) : outcome WideError (list Z) :=
  let! output := to_wide_loop (S (length value)) (encode_wide value) [] in
  Ret (if terminate then output ++ [0] else output).

(** ** The specification *)

Definition wide_ok (w : list Z) : Prop := Forall (fun v => 0 <= v < 65536) w.
Definition has_zero (w : list Z) : bool := existsb (Z.eqb 0) w.
Definition code_point (c : Z) : Prop := 0 <= c <= 0x10FFFF.

(** The encoding of one code point, surrogates included. *)
Definition encoded (c : Z) : list Z := encode [] c.
Definition encoded_all (cs : list Z) : list Z := concat (map encoded cs).

(** The code points of wide text: surrogates stay where they are not paired. *)
Fixpoint points (w : list Z) : list Z :=
  match w with
  | [] => []
  | v :: w' =>
    match w' with
    | v' :: w'' => if is_lead v && is_trail v' then joined v v' :: points w'' else v :: points w'
    | [] => [v]
    end
  end.

Definition units (c : Z) : list Z :=
  if c <=? 0xffff then [c]
  else [0xd800 + (c - 0x10000) / 1024; 0xdc00 + (c - 0x10000) mod 1024].

(** Bytes that stand for wide text. *)
Definition wtf8 (bs : list Z) : Prop := exists w, wide_ok w /\ bs = from_wide w.

(** ** One code point *)

Lemma encode_app bytes c : encode bytes c = bytes ++ encoded c.
Proof. unfold encoded, encode. repeat case_if; by rewrite <- ?app_assoc. Qed.

Lemma encoded_scalar c : encoded c = encode_utf8_scalar c.
Proof.
  unfold encoded, encode, encode_utf8_scalar.
  replace (c <? 0x80) with (c <=? 0x7f) by lia. replace (c <? 0x800) with (c <=? 0x7ff) by lia.
  replace (c <? 0x10000) with (c <=? 0xffff) by lia. by repeat case_if.
Qed.

(** The payloads of the bytes of a code point are its digits to the base 64. *)
Inductive encoding : Z -> list Z -> Prop :=
| encoding1 c : 0 <= c < 128 -> encoding c [c]
| encoding2 x y : 2 <= x < 32 -> 0 <= y < 64 -> encoding (x * 64 + y) [192 + x; 128 + y]
| encoding3 x y z :
    0 <= x < 16 -> 0 <= y < 64 -> 0 <= z < 64 -> 32 <= x * 64 + y ->
    encoding ((x * 64 + y) * 64 + z) [224 + x; 128 + y; 128 + z]
| encoding4 w x y z :
    0 <= w < 5 -> 0 <= x < 64 -> 0 <= y < 64 -> 0 <= z < 64 -> 16 <= w * 64 + x < 272 ->
    encoding (((w * 64 + x) * 64 + y) * 64 + z) [240 + w; 128 + x; 128 + y; 128 + z].

Lemma encoded_encoding c : code_point c -> encoding c (encoded c).
Proof.
  unfold code_point. intros Hc. rewrite encoded_scalar, encode_scalar_arith by done.
  destruct (c <=? 0x7F) eqn:?; [apply encoding1; lia|].
  destruct (c <=? 0x7FF) eqn:?.
  { replace c with (c / 64 * 64 + c mod 64) at 1 by (Z.div_mod_to_equations; lia).
    apply encoding2; Z.div_mod_to_equations; lia. }
  destruct (c <=? 0xFFFF) eqn:?.
  { replace c with ((c / 64 / 64 * 64 + c / 64 mod 64) * 64 + c mod 64) at 1 by (Z.div_mod_to_equations; lia).
    apply encoding3; Z.div_mod_to_equations; lia. }
  replace c with (((c / 64 / 64 / 64 * 64 + c / 64 / 64 mod 64) * 64 + c / 64 mod 64) * 64 + c mod 64)
    at 1 by (Z.div_mod_to_equations; lia).
  apply encoding4; Z.div_mod_to_equations; lia.
Qed.

Lemma encoding_length c bs : encoding c bs -> (length (units c) <= length bs)%nat /\ (1 <= length bs)%nat.
Proof. intros []; unfold units; case_if; cbn; lia. Qed.

Lemma index_app {E} (pre : list Z) b tl : index (E := E) (pre ++ b :: tl) (length pre) = Ret b.
Proof. unfold index. by rewrite list_lookup_middle. Qed.

Lemma decode_rest_step count pre y tl value :
  0 <= y < 64 ->
  decode_rest (S count) (pre ++ 128 + y :: tl) (length pre) value =
  decode_rest count ((pre ++ [128 + y]) ++ tl) (length (pre ++ [128 + y])) (value * 64 + y).
Proof.
  intros Hy. cbn [decode_rest]. rewrite index_app. cbn [obind]. rewrite <- app_assoc, length_app, Nat.add_1_r. f_equal.
  change 0x3f with (2 ^ 6 - 1). rewrite land_mask by lia.
  replace ((128 + y) mod 2 ^ 6) with y by (cbn; Z.div_mod_to_equations; lia).
  by rewrite lor_shiftl_add by lia.
Qed.

Lemma decode_encoding pre c bs tl :
  encoding c bs -> decode (pre ++ bs ++ tl) (length pre) = Ret (c, (length pre + length bs)%nat).
Proof.
  intros [c' Hc|x y Hx Hy|x y z Hx Hy Hz Hb|w x y z Hw Hx Hy Hz Hb]; unfold decode; cbn [app]; rewrite index_app; cbn [obind].
  - by replace (c' <? 128) with true by lia; rewrite Nat.add_1_r.
  - replace (192 + x <? 128) with false by lia. replace (192 + x <? 224) with true by lia.
    cbn [Nat.eqb]. rewrite (lead_payload 5 _ 6) by (done || lia).
    replace (pre ++ 192 + x :: 128 + y :: tl) with ((pre ++ [192 + x]) ++ 128 + y :: tl) by (by rewrite <- app_assoc).
    replace (S (length pre)) with (length (pre ++ [192 + x])) by (rewrite length_app; cbn; lia).
    rewrite decode_rest_step by done. cbn [decode_rest]. f_equal. f_equal; [lia|rewrite !length_app; cbn; lia].
  - replace (224 + x <? 128) with false by lia. replace (224 + x <? 224) with false by lia. replace (224 + x <? 240) with true by lia.
    cbn [Nat.eqb]. rewrite (lead_payload 4 _ 14) by (done || lia).
    replace (pre ++ 224 + x :: _) with ((pre ++ [224 + x]) ++ 128 + y :: 128 + z :: tl) by (by rewrite <- app_assoc).
    replace (S (length pre)) with (length (pre ++ [224 + x])) by (rewrite length_app; cbn; lia).
    rewrite !decode_rest_step by done. cbn [decode_rest]. f_equal. f_equal; [lia|rewrite !length_app; cbn; lia].
  - replace (240 + w <? 128) with false by lia. replace (240 + w <? 224) with false by lia. replace (240 + w <? 240) with false by lia.
    cbn [Nat.eqb]. rewrite (lead_payload 3 _ 30) by (done || lia).
    replace (pre ++ 240 + w :: _) with ((pre ++ [240 + w]) ++ 128 + x :: 128 + y :: 128 + z :: tl) by (by rewrite <- app_assoc).
    replace (S (length pre)) with (length (pre ++ [240 + w])) by (rewrite length_app; cbn; lia).
    rewrite !decode_rest_step by done. cbn [decode_rest]. f_equal. f_equal; [lia|rewrite !length_app; cbn; lia].
Qed.

(** ** Wide text *)

Lemma wide_ind (P : list Z -> Prop) :
  P [] -> (forall v, P [v]) -> (forall v v' w, P w -> P (v' :: w) -> P (v :: v' :: w)) -> forall w, P w.
Proof.
  intros H0 H1 H2 w. enough (P w /\ forall v, P (v :: w)) as [? _] by done.
  induction w as [|v' w [IH IHc]]; [split; auto|]. split; [auto|]. intros v. auto.
Qed.

Lemma joined_value l t : joined l t = 0x10000 + (l - 0xd800) * 1024 + t - 0xdc00.
Proof. unfold joined. rewrite Z.shiftl_mul_pow2 by lia. lia. Qed.

Lemma pair_range l t : is_lead l = true -> is_trail t = true -> 0x10000 <= joined l t <= 0x10FFFF.
Proof. rewrite joined_value. unfold is_lead, is_trail. lia. Qed.

Lemma units_joined l t : is_lead l = true -> is_trail t = true -> units (joined l t) = [l; t].
Proof.
  intros Hl Ht. pose proof (pair_range l t Hl Ht). unfold units. replace (joined l t <=? 0xffff) with false by lia.
  rewrite joined_value. unfold is_lead, is_trail in *. f_equal; [|f_equal]; Z.div_mod_to_equations; lia.
Qed.

Lemma units_small c : c <= 0xffff -> units c = [c].
Proof. intros. unfold units. by replace (c <=? 0xffff) with true by lia. Qed.

Lemma points_pair v v' w :
  points (v :: v' :: w) = if is_lead v && is_trail v' then joined v v' :: points w else v :: points (v' :: w).
Proof. done. Qed.

Lemma points_code w : wide_ok w -> Forall code_point (points w).
Proof.
  induction w as [|v|v v' w IH IH'] using wide_ind; intros Hw; [constructor| |].
  - inversion Hw; subst. repeat constructor; lia.
  - inversion Hw as [|? ? Hv Hw']; subst. inversion Hw' as [|? ? Hv' Hw'']; subst. rewrite points_pair.
    destruct (is_lead v) eqn:El, (is_trail v') eqn:Et; cbn [andb]; constructor; try (unfold code_point; lia); auto.
    pose proof (pair_range v v' El Et). unfold code_point. lia.
Qed.

(** The code points stand for the units. *)
Lemma units_points w : wide_ok w -> concat (map units (points w)) = w.
Proof.
  induction w as [|v|v v' w IH IH'] using wide_ind; intros Hw; [done| |].
  - inversion Hw; subst. cbn. by rewrite units_small by lia.
  - inversion Hw as [|? ? Hv Hw']; subst. inversion Hw' as [|? ? Hv' Hw'']; subst. rewrite points_pair.
    destruct (is_lead v && is_trail v') eqn:E; cbn [map concat].
    + apply andb_true_iff in E as [El Et]. rewrite units_joined, IH by done. done.
    + rewrite units_small, IH' by (done || lia). done.
Qed.

Lemma encoded_all_app a b : encoded_all (a ++ b) = encoded_all a ++ encoded_all b.
Proof. unfold encoded_all. by rewrite map_app, concat_app. Qed.

Lemma from_wide_loop_points w result : from_wide_loop w result = result ++ encoded_all (points w).
Proof.
  revert result. induction w as [|v|v v' w IH IH'] using wide_ind; intros result.
  - cbn. by rewrite app_nil_r.
  - unfold encoded_all. cbn. by rewrite encode_app, app_nil_r.
  - rewrite points_pair. cbn [from_wide_loop]. destruct (is_lead v && is_trail v').
    + rewrite IH, encode_app, <- app_assoc. done.
    + change (match w with [] => _ | _ => _ end) with (from_wide_loop (v' :: w) (encode result v)).
      rewrite IH', encode_app, <- app_assoc. done.
Qed.

Lemma from_wide_points w : from_wide w = encoded_all (points w).
Proof. apply (from_wide_loop_points w []). Qed.

(** What [to_wide] collects from the encodings of code points. *)
Definition collected (cs : list Z) (output : list Z) : outcome WideError (list Z) :=
  if existsb (Z.eqb 0) cs then Fail InvalidInput else Ret (output ++ concat (map units cs)).

Lemma to_wide_loop_code_point fuel pre c bs rest output :
  encoding c bs -> code_point c ->
  to_wide_loop (length (units c) + fuel) (mkEncodeWide (pre ++ bs ++ rest) (length pre) 0) output =
  if c =? 0 then Fail InvalidInput
  else to_wide_loop fuel (mkEncodeWide (pre ++ bs ++ rest) (length pre + length bs) 0) (output ++ units c).
Proof.
  unfold code_point. intros He Hc. pose proof (encoding_length c bs He) as [_ Hl].
  unfold units. destruct (c <=? 0xffff) eqn:E; cbn [length Nat.add to_wide_loop]; unfold next; cbn [pending_ bytes_ index_ Z.eqb negb].
  - replace (_ =? _)%nat with false by (rewrite !length_app; lia). rewrite (decode_encoding pre c bs rest He). cbn [obind]. rewrite E. done.
  - replace (_ =? _)%nat with false by (rewrite !length_app; lia). rewrite (decode_encoding pre c bs rest He). cbn [obind]. rewrite E. cbn [obind].
    assert (Z.lor 0xd800 (Z.shiftr (c - 0x10000) 10) = 0xd800 + (c - 0x10000) / 1024) as ->.
    { rewrite Z.shiftr_div_pow2 by lia. change 0xd800 with (54 * 2 ^ 10) at 1. rewrite lor_add by (Z.div_mod_to_equations; lia). done. }
    assert (Z.lor 0xdc00 (Z.land (c - 0x10000) 0x3ff) = 0xdc00 + (c - 0x10000) mod 1024) as ->.
    { change 0x3ff with (2 ^ 10 - 1). rewrite land_mask by lia. change 0xdc00 with (55 * 2 ^ 10) at 1.
      rewrite lor_add by (try apply Z.mod_pos_bound; lia). done. }
    pose proof (Z.mod_pos_bound (c - 0x10000) 1024 ltac:(lia)) as Hm. cbn [pending_].
    replace (0xd800 + _ =? 0) with false by (Z.div_mod_to_equations; lia). replace (0xdc00 + _ =? 0) with false by lia.
    cbn [negb obind bytes_ index_]. replace (0xdc00 + _ =? 0) with false by lia. replace (c =? 0) with false by lia.
    by rewrite <- app_assoc.
Qed.

Lemma to_wide_loop_collects cs pre fuel output :
  Forall code_point cs ->
  to_wide_loop (S (length (concat (map units cs)) + fuel)) (mkEncodeWide (pre ++ encoded_all cs) (length pre) 0) output =
  collected cs output.
Proof.
  intros Hcs. revert pre output. induction Hcs as [|c cs Hc Hcs IH]; intros pre output.
  - unfold encoded_all. cbn [map concat length Nat.add to_wide_loop]. unfold next. cbn [pending_ bytes_ index_ Z.eqb negb].
    rewrite app_nil_r, Nat.eqb_refl. cbn. unfold collected. cbn. by rewrite app_nil_r.
  - pose proof (encoded_encoding c Hc) as He. unfold encoded_all. cbn [map concat]. fold (encoded_all cs).
    rewrite length_app. replace (S _) with (length (units c) + S (length (concat (map units cs)) + fuel))%nat by lia.
    rewrite (to_wide_loop_code_point _ pre c _ _ _ He Hc). unfold collected. cbn [existsb map concat].
    rewrite (Z.eqb_sym 0 c). destruct (c =? 0); [done|]. cbn [orb].
    specialize (IH (pre ++ encoded c) (output ++ units c)). rewrite length_app, <- app_assoc in IH. rewrite IH.
    unfold collected. by rewrite <- app_assoc.
Qed.

Lemma units_length cs : Forall code_point cs -> (length (concat (map units cs)) <= length (encoded_all cs))%nat.
Proof.
  induction 1 as [|c cs Hc _ IH]; [done|]. unfold encoded_all. cbn [map concat]. fold (encoded_all cs). rewrite !length_app.
  destruct (encoding_length c _ (encoded_encoding c Hc)). lia.
Qed.

Lemma no_zero_points w : wide_ok w -> existsb (Z.eqb 0) (points w) = existsb (Z.eqb 0) w.
Proof.
  induction w as [|v|v v' w IH IH'] using wide_ind; intros Hw; [done..|].
  inversion Hw as [|? ? Hv Hw']; subst. inversion Hw' as [|? ? Hv' Hw'']; subst. rewrite points_pair.
  destruct (is_lead v && is_trail v') eqn:E; cbn [existsb].
  - apply andb_true_iff in E as [El Et]. pose proof (pair_range v v' El Et). unfold is_lead, is_trail in *.
    rewrite IH by done. by replace (0 =? joined v v') with false by lia; replace (0 =? v) with false by lia; replace (0 =? v') with false by lia.
  - by rewrite IH'.
Qed.

(** Wide text, kept as bytes and made wide again, is the same text; only text
    with a zero is refused. *)
Lemma to_wide_from_wide w terminate :
  wide_ok w ->
  to_wide (from_wide w) terminate =
  if has_zero w then Fail InvalidInput else Ret (w ++ (if terminate then [0] else [])).
Proof.
  intros Hw. pose proof (points_code w Hw) as Hp. pose proof (units_length _ Hp) as Hl. rewrite from_wide_points.
  unfold to_wide, encode_wide.
  replace (S (length (encoded_all (points w)))) with
    (S (length (concat (map units (points w))) + (length (encoded_all (points w)) - length (concat (map units (points w)))))) by lia.
  rewrite (to_wide_loop_collects _ [] _ [] Hp). unfold collected. rewrite no_zero_points, units_points by done. fold (has_zero w). cbn [app].
  destruct (has_zero w); [done|]. cbn [obind]. destruct terminate; [done|]. by rewrite app_nil_r.
Qed.

(** ** Joining texts *)

(** The code points of two texts joined: a lead surrogate at the end of the
    first and a trail surrogate at the start of the second meet. *)
Fixpoint meet (a b : list Z) : list Z :=
  match a with
  | [] => b
  | l :: a' =>
    match a', b with
    | [], t :: b' => if is_lead l && is_trail t then joined l t :: b' else l :: b
    | _, _ => l :: meet a' b
    end
  end.

Lemma meet_cons c a b : is_lead c = false -> meet (c :: a) b = c :: meet a b.
Proof. intros Hc. cbn. destruct a, b; try done. by rewrite Hc. Qed.

Lemma joined_not_lead l t : is_lead l = true -> is_trail t = true -> is_lead (joined l t) = false /\ is_trail (joined l t) = false.
Proof. intros Hl Ht. pose proof (pair_range l t Hl Ht). unfold is_lead, is_trail. lia. Qed.

Lemma points_cons v w : exists c cs, points (v :: w) = c :: cs /\ (c = v \/ (is_lead v = true /\ is_trail c = false)).
Proof.
  destruct w as [|v' w]; [by exists v, []; auto|]. rewrite points_pair. destruct (is_lead v && is_trail v') eqn:E; [|by eauto].
  apply andb_true_iff in E as [El Et]. destruct (joined_not_lead v v' El Et). by eauto 6.
Qed.

Lemma points_app a b : points (a ++ b) = meet (points a) (points b).
Proof.
  induction a as [|v|v v' w IH IH'] using wide_ind; [done| |].
  - destruct b as [|v' w]; [done|]. cbn [app]. rewrite points_pair.
    destruct (points_cons v' w) as (c & cs & E & Hc). change (points [v]) with [v]. rewrite E. cbn [meet].
    destruct (is_lead v) eqn:El; [|done]. cbn [andb]. destruct (is_trail v') eqn:Et.
    + assert (is_lead v' = false) as Hl by (unfold is_lead, is_trail in *; lia).
      destruct w as [|v'' w]; [injection E as <- <-; by rewrite Et|]. rewrite points_pair, Hl in E. cbn [andb] in E.
      injection E as <- <-. by rewrite Et.
    + destruct Hc as [->|[_ ->]]; [by rewrite Et|done].
  - cbn [app] in *. rewrite !points_pair. destruct (is_lead v && is_trail v') eqn:E.
    + apply andb_true_iff in E as [El Et]. rewrite meet_cons by (by apply joined_not_lead). by rewrite IH.
    + rewrite IH'. destruct (points_cons v' w) as (c & cs & -> & _). done.
Qed.

(** The byte that begins surrogates has two more of its encoding after it. *)
Lemma surrogate_byte cs i :
  Forall code_point cs -> encoded_all cs !! i = Some 0xed ->
  exists c cs1 cs2, cs = cs1 ++ c :: cs2 /\ i = length (encoded_all cs1) /\ 0xd000 <= c < 0xe000.
Proof.
  intros Hcs. revert i. induction Hcs as [|c cs Hc Hcs IH]; intros i Hi; [done|].
  unfold encoded_all in Hi. cbn [map concat] in Hi. fold (encoded_all cs) in Hi.
  apply lookup_app_Some in Hi as [Hi|[Hge Hi]].
  - exists c, [], cs. pose proof (encoded_encoding c Hc) as He. split; [done|]. cbn.
    remember (encoded c) as bs eqn:Eb. clear Eb.
    destruct He; repeat (destruct i as [|i]; [cbn in Hi; injection Hi as Hi; first [lia|split; lia]|cbn in Hi]); done.
  - destruct (IH _ Hi) as (c' & cs1 & cs2 & -> & Ei & Hr). exists c', (c :: cs1), cs2. split_and!; [done| |lia|lia].
    unfold encoded_all. cbn [map concat]. fold (encoded_all cs1). rewrite length_app. lia.
Qed.

(** Where a surrogate is encoded. *)
Lemma encoding_surrogate c bs : encoding c bs -> 0xd000 <= c < 0xe000 ->
  exists y z, bs = [0xed; 128 + y; 128 + z] /\ 0 <= y < 64 /\ 0 <= z < 64 /\ c = 0xd000 + y * 64 + z.
Proof.
  intros [c' H|x y Hx Hy|x y z Hx Hy Hz Hb|w x y z Hw Hx Hy Hz Hb] Hc; try lia.
  exists y, z. split_and!; [|lia..]. f_equal. lia.
Qed.

Lemma encoding_first c b bs : encoding c (b :: bs) -> b = 0xed -> 0xd000 <= c < 0xe000.
Proof. intros He. inversion He; subst; lia. Qed.

Lemma encoded_all_cons c cs : encoded_all (c :: cs) = encoded c ++ encoded_all cs.
Proof. done. Qed.

Lemma encoded_all_nil cs : Forall code_point cs -> length (encoded_all cs) = 0%nat -> cs = [].
Proof.
  intros Hcs Hl. destruct Hcs as [|c cs Hc _]; [done|]. rewrite encoded_all_cons, length_app in Hl.
  destruct (encoding_length c _ (encoded_encoding c Hc)). lia.
Qed.

(** What [append_wtf8] reads of its two arguments. *)
Lemma ends_lead_encoded cs l :
  Forall code_point (cs ++ [l]) -> (3 <= length (encoded_all (cs ++ [l])))%nat ->
  ends_lead (encoded_all (cs ++ [l])) = Ret (is_lead l).
Proof.
  intros Hcs Hl. unfold ends_lead. set (all := encoded_all (cs ++ [l])) in *. set (i := (length all - 3)%nat).
  destruct (lookup_lt_is_Some_2 all i ltac:(lia)) as [a Ha]. unfold index at 1. rewrite Ha. cbn [obind].
  pose proof Hcs as [_ Hlc]%Forall_app. inversion Hlc as [|? ? Hc _]; subst. pose proof (encoded_encoding l Hc) as He.
  assert (all = encoded_all cs ++ encoded l) as E by (unfold all; rewrite encoded_all_app, encoded_all_cons; by rewrite app_nil_r).
  assert (0xd000 <= l < 0xe000 -> i = length (encoded_all cs) /\ length (encoded l) = 3%nat) as Hsur.
  { intros Hr. destruct (encoding_surrogate _ _ He Hr) as (y & z & Eb & _). unfold i. rewrite E, length_app, Eb. cbn. lia. }
  destruct (a =? 0xed) eqn:Ea; cbn [negb].
  - apply Z.eqb_eq in Ea. subst a. destruct (surrogate_byte _ i Hcs Ha) as (c & cs1 & cs2 & Ec & Ei & Hr).
    assert (cs2 = [] /\ c = l) as [-> ->].
    { pose proof Hcs as Hcs'. rewrite Ec in Hcs'. apply Forall_app in Hcs' as [_ Hcs']. inversion Hcs' as [|? ? Hc' Hcs2]; subst.
      destruct (encoding_surrogate _ _ (encoded_encoding c Hc') Hr) as (y & z & Eb & _).
      assert (length all = length (encoded_all cs1) + (3 + length (encoded_all cs2)))%nat as El.
      { unfold all. rewrite Ec, encoded_all_app, encoded_all_cons, !length_app, Eb. done. }
      assert (cs2 = []) as -> by (apply encoded_all_nil; [done|lia]). split; [done|]. by apply app_inj_tail in Ec as [_ ->]. }
    destruct (Hsur Hr) as [Hi _]. destruct (encoding_surrogate _ _ He Hr) as (y & z & Eb & Hy & Hz & El).
    unfold index. rewrite Hi, E, Eb, lookup_app_r by lia. replace (_ + 1 - _)%nat with 1%nat by lia. cbn [lookup list_lookup obind].
    f_equal. unfold is_lead. lia.
  - f_equal. symmetry. apply not_true_iff_false. intros Hlead. apply Z.eqb_neq in Ea. apply Ea.
    destruct Hsur as [Hi _]; [unfold is_lead in Hlead; lia|].
    destruct (encoding_surrogate _ _ He) as (y & z & Eb & _); [unfold is_lead in Hlead; lia|].
    rewrite Hi, E, Eb, list_lookup_middle in Ha by done. by injection Ha.
Qed.

Lemma begins_trail_encoded t cs :
  code_point t -> (3 <= length (encoded_all (t :: cs)))%nat ->
  begins_trail (encoded_all (t :: cs)) = Ret (is_trail t).
Proof.
  intros Hc Hl. unfold begins_trail. rewrite encoded_all_cons in *. pose proof (encoded_encoding t Hc) as He.
  destruct (encoded t) as [|b bs] eqn:Eb; [by inversion He|]. cbn [app index lookup list_lookup obind] in *. unfold index at 1. cbn [lookup list_lookup obind].
  destruct (b =? 0xed) eqn:Ea; cbn [negb].
  - apply Z.eqb_eq in Ea. destruct (encoding_surrogate _ _ He (encoding_first _ _ _ He Ea)) as (y & z & E & Hy & Hz & Et).
    injection E as -> ->. unfold index. cbn. f_equal. unfold is_trail. lia.
  - f_equal. symmetry. apply not_true_iff_false. intros Ht. apply Z.eqb_neq in Ea. apply Ea.
    destruct (encoding_surrogate _ _ He) as (y & z & E & _); [unfold is_trail in Ht; lia|]. by injection E.
Qed.

Lemma encoded_surrogate_length c : code_point c -> is_lead c || is_trail c = true -> length (encoded c) = 3%nat.
Proof.
  intros Hc Hs. destruct (encoding_surrogate _ _ (encoded_encoding c Hc)) as (y & z & -> & _); [|done].
  unfold is_lead, is_trail in Hs. lia.
Qed.

Lemma meet_nil a : meet a [] = a.
Proof. induction a as [|c a IH]; [done|]. cbn. destruct a; [done|]. by rewrite IH. Qed.

Lemma meet_snoc a l t b :
  meet (a ++ [l]) (t :: b) = if is_lead l && is_trail t then a ++ joined l t :: b else a ++ l :: t :: b.
Proof.
  induction a as [|c a IH]; [cbn; by case_if|]. cbn [app]. transitivity (c :: meet (a ++ [l]) (t :: b)); [|rewrite IH; by case_if].
  destruct a; done.
Qed.

(** Joining encodings joins the code points. *)
Lemma append_wtf8_meet a b :
  Forall code_point a -> Forall code_point b ->
  append_wtf8 (encoded_all a) (encoded_all b) = Ret (encoded_all (meet a b)).
Proof.
  intros Ha Hb. unfold append_wtf8.
  destruct (decide (a = [])) as [->|Hna]; [done|]. destruct (exists_last Hna) as (a' & l & ->). clear Hna.
  destruct b as [|t b]; [rewrite meet_nil; rewrite andb_false_r; cbn; by rewrite app_nil_r|].
  pose proof Ha as [Ha' Hl]%Forall_app. inversion Hl as [|? ? Hlc _]; subst. inversion Hb as [|? ? Htc Hb']; subst.
  rewrite meet_snoc.
  assert (encoded_all (a' ++ l :: t :: b) = encoded_all (a' ++ [l]) ++ encoded_all (t :: b)) as Eplain
    by (rewrite !encoded_all_app, !encoded_all_cons, <- !app_assoc; done).
  destruct (is_lead l && is_trail t) eqn:E.
  - pose proof E as [El Et]%andb_true_iff.
    pose proof (encoded_surrogate_length l Hlc ltac:(by rewrite El)) as Ll.
    pose proof (encoded_surrogate_length t Htc ltac:(by rewrite Et, orb_true_r)) as Lt.
    assert (length (encoded_all (a' ++ [l])) = length (encoded_all a') + 3)%nat as La
      by (rewrite encoded_all_app, encoded_all_cons, !length_app, Ll; cbn; lia).
    assert (3 <= length (encoded_all (t :: b)))%nat as Lb by (rewrite encoded_all_cons, length_app; lia).
    replace (_ && _) with true by lia. rewrite ends_lead_encoded, El by (done || lia). cbn [obind].
    rewrite begins_trail_encoded, Et by done. cbn [obind]. rewrite La, Nat.add_sub.
    rewrite encoded_all_app at 1. rewrite encoded_all_cons at 1. rewrite (decode_encoding _ l) by (by apply encoded_encoding). cbn [obind].
    replace (decode (encoded_all (t :: b)) 0) with (Ret (E := WideError) (t, length (encoded t)))
      by exact (eq_sym (decode_encoding [] t _ _ (encoded_encoding t Htc))).
    cbn [obind fst snd]. rewrite Lt. rewrite (encoded_all_app a' [l]), take_app_length, encode_app, encoded_all_cons, drop_app_length' by done.
    by rewrite encoded_all_app, encoded_all_cons, <- app_assoc.
  - rewrite Eplain. destruct ((3 <=? length (encoded_all (a' ++ [l])))%nat && _) eqn:EL; [|done]. apply andb_true_iff in EL as [L1 L2]. apply Nat.leb_le in L1, L2.
    rewrite ends_lead_encoded by done. cbn [obind]. destruct (is_lead l); [|done]. cbn [andb] in E.
    by rewrite begins_trail_encoded, E by done.
Qed.

(** ** The theorems *)

Lemma points_scalar c w :
  0 <= c -> is_scalar c = true -> points (units c ++ w) = c :: points w /\ wide_ok (units c).
Proof.
  intros Hc Hs. unfold is_scalar in Hs. unfold units. destruct (c <=? 0xffff) eqn:E.
  - split; [|apply List.Forall_cons; [lia|apply List.Forall_nil]]. cbn [app]. destruct w as [|v w]; [done|]. rewrite points_pair.
    by replace (is_lead c) with false by (unfold is_lead; lia).
  - assert (is_lead (0xd800 + (c - 0x10000) / 1024) = true) as El by (unfold is_lead; Z.div_mod_to_equations; lia).
    assert (is_trail (0xdc00 + (c - 0x10000) mod 1024) = true) as Et by (unfold is_trail; Z.div_mod_to_equations; lia).
    split; [|unfold is_lead, is_trail in *; repeat (apply List.Forall_cons; [lia|]); apply List.Forall_nil]. cbn [app]. rewrite points_pair, El, Et. cbn [andb]. f_equal.
    rewrite joined_value. Z.div_mod_to_equations; lia.
Qed.

(** The bytes of UTF-8 are wide text. *)
Lemma text_wtf8 bs : is_text bs -> wtf8 bs.
Proof.
  intros (cs & Hcs & ->). exists (concat (map units cs)). rewrite from_wide_points. unfold encoded_all.
  induction Hcs as [|c cs [Hs Hc] _ [IH1 IH2]]; [split; [constructor|done]|]. cbn [map concat].
  destruct (points_scalar c (concat (map units cs)) Hc Hs) as [-> Hw]. split; [by apply Forall_app|].
  cbn [map concat]. rewrite IH2, encoded_scalar. unfold encode_utf8. by rewrite Hs.
Qed.

(** C29: Any 16-bit units, paired surrogates or not, are kept as bytes without
    loss: made wide again they are the units they were, and only text with a
    zero is refused; and joining two such texts byte for byte with
    [append_wtf8] is joining their units, also where the two halves of a pair
    meet. *)
Theorem wide_text_exact a b terminate :
  wide_ok a -> wide_ok b ->
  to_wide (from_wide a) terminate = (if has_zero a then Fail InvalidInput else Ret (a ++ (if terminate then [0] else []))) /\
  append_wtf8 (from_wide a) (from_wide b) = Ret (from_wide (a ++ b)).
Proof.
  intros Ha Hb. split; [by apply to_wide_from_wide|].
  rewrite !from_wide_points, points_app. by apply append_wtf8_meet; apply points_code.
Qed.

Lemma wide_text_exact_witness :
  let a := [0x61; 0xd83d] in let b := [0xde00; 0xdc00] in
  wide_ok a /\ wide_ok b /\ append_wtf8 (from_wide a) (from_wide b) = Ret (from_wide (a ++ b)).
Proof.
  assert (wide_ok [0x61; 0xd83d]) as Ha by (repeat (apply List.Forall_cons; [lia|]); apply List.Forall_nil).
  assert (wide_ok [0xde00; 0xdc00]) as Hb by (repeat (apply List.Forall_cons; [lia|]); apply List.Forall_nil).
  split; [exact Ha|]. split; [exact Hb|]. exact (proj2 (wide_text_exact _ _ false Ha Hb)).
Defined.

Example wide_emoji : from_wide [0xd83d; 0xde00] = [0xf0; 0x9f; 0x98; 0x80].
Proof. reflexivity. Qed.
Example wide_lone : from_wide [0xd83d; 0x61] = [0xed; 0xa0; 0xbd; 0x61].
Proof. reflexivity. Qed.
