(* ===== verification/CommandLine.v ===== *)
(** * Command lines of Windows

    Models the command line that [src/std/src/process/mod.cpp] builds for a
    child ([append_wide_argument], [command_line]) and the parser of
    [src/std/src/sys/args/windows.cppm] by which a program of the library takes
    it apart again.  A list of arguments is one text; quotes and backslashes
    mark where an argument ends, by the rules of the C run time, which differ
    for the name of the program. *)

From Stdlib Require Import ZArith Lia ZifyBool.
From S2P Require Import Prelude Utf8 WideText.
Local Open Scope Z_scope.
Local Open Scope rstd_scope.

(** ** Building *)

Definition needs_quotes (argument : list Z) : bool :=
  (length argument =? 0)%nat || existsb (fun value => (value =? 32) || (value =? 9) || (value =? 34)) argument.

(** The loop over a quoted argument, [slashes] backslashes behind. *)
Fixpoint quoted_units (argument : list Z) (slashes : nat) (command : list Z) : list Z :=
  match argument with
  | [] => command ++ replicate (slashes * 2) 92
  | value :: argument =>
    if value =? 92 then quoted_units argument (S slashes) command
    else if value =? 34 then quoted_units argument 0 (command ++ replicate (slashes * 2 + 1) 92 ++ [34])
    else quoted_units argument 0 (command ++ replicate slashes 92 ++ [value])
  end.

Definition append_wide_argument (command argument : list Z) : list Z :=
  if negb (needs_quotes argument) then command ++ argument
  else quoted_units argument 0 (command ++ [34]) ++ [34].

(** [for (const auto& argument : arguments)] *)
Fixpoint append_arguments (result : list Z) (arguments : list (list Z)) : outcome WideError (list Z) :=
  match arguments with
  | [] => Ret result
  | argument :: arguments =>
    let! converted := to_wide argument false in
    append_arguments (append_wide_argument (result ++ [32]) converted) arguments
  end.

Definition command_line (program : list Z) (arguments : list (list Z)) : outcome WideError (list Z) :=
  let! program_wide := to_wide program false in
  let! result := append_arguments (append_wide_argument [] program_wide) arguments in
  Ret (result ++ [0]).

(** ** Parsing

    [rest] is the line from [index] on. *)

Definition space (value : Z) : bool := (value =? 32) || (value =? 9).

(** The name of the program, up to a space outside of quotes. *)
Fixpoint program_name (rest word : list Z) (quoted : bool) : list Z * list Z :=
  match rest with
  | [] => (word, [])
  | value :: tail =>
    if value =? 0 then (word, rest)
    else if value =? 34 then program_name tail word (negb quoted)
    else if space value && negb quoted then (word, rest)
    else program_name tail (word ++ [value]) quoted
  end.

Fixpoint skip_spaces (rest : list Z) : list Z :=
  match rest with
  | value :: tail => if space value then skip_spaces tail else rest
  | [] => []
  end.

(** [while (... line[index] == u16('\\'))] *)
Fixpoint pass_slashes (rest : list Z) (slashes : nat) : nat * list Z :=
  match rest with
  | value :: tail => if value =? 92 then pass_slashes tail (S slashes) else (slashes, rest)
  | [] => (slashes, [])
  end.

Definition ends_word (quoted : bool) (rest : list Z) : bool :=
  match rest with [] => true | value :: _ => (value =? 0) || (negb quoted && space value) end.

Definition at_quote (rest : list Z) : bool := match rest with value :: _ => value =? 34 | [] => false end.

(** One argument.  A round reads at least one unit. *)
Fixpoint argument_loop (fuel : nat) (rest word : list Z) (quoted : bool) : outcome WideError (list Z * list Z) :=
  match fuel with
  | O => OutOfFuel
  | S fuel =>
    if ends_word quoted rest then Ret (word, rest)
    else
      let '(slashes, rest) := pass_slashes rest 0 in
      if at_quote rest then
        let word := word ++ replicate (slashes / 2) 92 in
        if negb (slashes mod 2 =? 0)%nat then argument_loop fuel (tail rest) (word ++ [34]) quoted
        else if quoted && at_quote (tail rest) then argument_loop fuel (tail (tail rest)) (word ++ [34]) quoted
        else argument_loop fuel (tail rest) word (negb quoted)
      else
        let word := word ++ replicate slashes 92 in
        if ends_word quoted rest then Ret (word, rest)
        else
          let! value := index rest 0 in
          argument_loop fuel (tail rest) (word ++ [value]) quoted
  end.

(** The arguments; a round reads at least one unit, or is the last. *)
Fixpoint arguments_loop (fuel : nat) (rest : list Z) (output : list (list Z)) : outcome WideError (list (list Z)) :=
  match fuel with
  | O => OutOfFuel
  | S fuel =>
    match rest with
    | [] => Ret output
    | _ :: _ =>
      let rest := skip_spaces rest in
      match rest with
      | [] => Ret output
      | value :: _ =>
        if value =? 0 then Ret output
        else
          let! parsed := argument_loop (S (length rest)) rest [] false in
          arguments_loop fuel (snd parsed) (output ++ [from_wide (fst parsed)])
      end
    end
  end.

Definition parse (line : list Z) : outcome WideError (list (list Z)) :=
  if (length line =? 0)%nat then Ret []
  else
    let '(word, rest) := program_name line [] false in
    arguments_loop (S (length rest)) rest [from_wide word].

(** [args_os] takes the line up to its zero. *)
Fixpoint until_zero (raw : list Z) : list Z :=
  match raw with
  | [] => []
  | unit_ :: raw => if unit_ =? 0 then [] else unit_ :: until_zero raw
  end.

Example parse_crt : parse [34; 97; 32; 98; 34; 32; 92; 34; 99] = Ret [[97; 32; 98]; [34; 99]].
Proof. reflexivity. Qed.

(** ** Arguments *)

(** Where an argument ends outside of quotes. *)
Definition closes (rest : list Z) : Prop := ends_word false rest = true.

Lemma closes_not_special rest : closes rest -> at_quote rest = false /\ (forall k, pass_slashes rest k = (k, rest)).
Proof. unfold closes. destruct rest as [|v rest]; [done|]. cbn. unfold space. intros H. split; [lia|]. intros k. by replace (v =? 92) with false by lia. Qed.

Lemma pass_slashes_run k rest j : pass_slashes (replicate k 92 ++ rest) j = pass_slashes rest (j + k).
Proof. revert j. induction k as [|k IH]; intros j; cbn; [by rewrite Nat.add_0_r|]. by rewrite IH, Nat.add_succ_r. Qed.

Lemma replicate_snoc {A} k (x : A) rest : replicate k x ++ x :: rest = replicate (S k) x ++ rest.
Proof. induction k as [|k IH]; [done|]. cbn. by rewrite IH. Qed.

Lemma ends_word_slash k rest quoted : ends_word quoted (replicate (S k) 92 ++ rest) = false.
Proof. cbn. apply andb_false_r. Qed.

Definition plain (v : Z) : bool := negb (v =? 0) && negb (v =? 34) && negb (space v).

(** An argument that is written as it is. *)
Lemma argument_plain argument k tail_ word fuel :
  forallb plain argument = true -> closes tail_ -> (k + length argument < fuel)%nat ->
  argument_loop fuel (replicate k 92 ++ argument ++ tail_) word false = Ret (word ++ replicate k 92 ++ argument, tail_).
Proof.
  revert k word fuel. induction argument as [|v argument IH]; intros k word fuel Hp Ht Hf.
  - destruct fuel as [|fuel]; [lia|]. destruct (closes_not_special _ Ht) as [Hq Hs]. rewrite app_nil_r. cbn [app argument_loop].
    destruct k as [|k]; [cbn [replicate app]; rewrite Ht; by rewrite app_nil_r|].
    rewrite ends_word_slash, pass_slashes_run, Hs, Hq, Ht. done.
  - cbn [forallb] in Hp. apply andb_true_iff in Hp as [Hv Hp]. cbn [length] in Hf.
    destruct (decide (v = 92)) as [->|Hn].
    { cbn [app]. rewrite replicate_snoc, IH by (done || lia). by rewrite <- replicate_snoc. }
    destruct fuel as [|fuel]; [lia|]. unfold plain in Hv. cbn [argument_loop].
    assert (ends_word false (v :: argument ++ tail_) = false) as He by (cbn; lia).
    assert (ends_word false (replicate k 92 ++ (v :: argument) ++ tail_) = false) as -> by (destruct k; [done|apply ends_word_slash]).
    rewrite pass_slashes_run. cbn [app pass_slashes Nat.add]. replace (v =? 92) with false by lia.
    cbn [at_quote]. replace (v =? 34) with false by lia. rewrite He. cbn [index lookup list_lookup obind tail].
    rewrite <- (app_assoc _ _ [v]) at 1.
    rewrite (IH 0%nat) by (done || lia). cbn [replicate app]. by rewrite <- !app_assoc.
Qed.

Lemma quoted_units_app argument k command :
  quoted_units argument k command = command ++ quoted_units argument k [].
Proof.
  revert k command. induction argument as [|v argument IH]; intros k command; [done|]. cbn [quoted_units].
  destruct (v =? 92); [apply IH|]. destruct (v =? 34); rewrite IH, (IH 0%nat ([] ++ _)); cbn [app]; by rewrite <- !app_assoc.
Qed.

(** One round within quotes. *)
Lemma argument_round_escaped fuel k rest word :
  argument_loop (S fuel) (replicate (k * 2 + 1) 92 ++ 34 :: rest) word true =
  argument_loop fuel rest (word ++ replicate k 92 ++ [34]) true.
Proof.
  cbn [argument_loop]. rewrite Nat.add_1_r at 1. rewrite ends_word_slash, pass_slashes_run. cbn [pass_slashes Z.eqb Pos.eqb Nat.add at_quote tail].
  replace ((k * 2 + 1) / 2)%nat with k by (rewrite Nat.div_add_l, Nat.div_small by lia; lia).
  replace ((k * 2 + 1) mod 2)%nat with 1%nat by (rewrite Nat.add_comm, Nat.Div0.mod_add; done). cbn [Nat.eqb negb].
  by rewrite <- app_assoc.
Qed.

Lemma argument_round_closing fuel k rest word :
  closes rest -> (0 < fuel)%nat ->
  argument_loop (S fuel) (replicate (k * 2) 92 ++ 34 :: rest) word true = Ret (word ++ replicate k 92, rest).
Proof.
  intros Hr Hf. destruct (closes_not_special _ Hr) as [Hq _]. cbn [argument_loop].
  assert (ends_word true (replicate (k * 2) 92 ++ 34 :: rest) = false) as -> by (destruct k; [done|apply ends_word_slash]).
  rewrite pass_slashes_run. cbn [pass_slashes Z.eqb Pos.eqb Nat.add at_quote tail].
  rewrite Nat.div_mul, Nat.Div0.mod_mul by lia. cbn [Nat.eqb negb]. rewrite Hq. cbn [andb negb].
  destruct fuel as [|fuel]; [lia|]. cbn [argument_loop]. by rewrite Hr.
Qed.

Lemma argument_round_unit fuel k v rest word :
  v <> 0 -> v <> 92 -> v <> 34 ->
  argument_loop (S fuel) (replicate k 92 ++ v :: rest) word true =
  argument_loop fuel rest (word ++ replicate k 92 ++ [v]) true.
Proof.
  intros H0 H92 H34. cbn [argument_loop].
  assert (ends_word true (v :: rest) = false) as He by (cbn; lia).
  assert (ends_word true (replicate k 92 ++ v :: rest) = false) as -> by (destruct k; [done|apply ends_word_slash]).
  rewrite pass_slashes_run. cbn [pass_slashes Nat.add]. replace (v =? 92) with false by lia. cbn [at_quote].
  replace (v =? 34) with false by lia. rewrite He. cbn [index lookup list_lookup obind tail]. by rewrite <- app_assoc.
Qed.

(** An argument between quotes. *)
Lemma argument_quoted argument k rest word fuel :
  has_zero argument = false -> closes rest -> (length (quoted_units argument k []) + 1 < fuel)%nat ->
  argument_loop fuel (quoted_units argument k [] ++ 34 :: rest) word true = Ret (word ++ replicate k 92 ++ argument, rest).
Proof.
  revert k word fuel. induction argument as [|v argument IH]; intros k word fuel Hz Hr Hf.
  - cbn [quoted_units app] in *. destruct fuel as [|fuel]; [lia|]. rewrite argument_round_closing by (done || lia). by rewrite app_nil_r.
  - unfold has_zero in Hz. cbn [existsb] in Hz. apply orb_false_iff in Hz as [Hv Hz]. cbn [quoted_units app] in *.
    destruct (decide (v = 92)) as [->|H92]; [cbn [Z.eqb Pos.eqb] in *; rewrite IH by done; by rewrite <- replicate_snoc|].
    replace (v =? 92) with false in * by lia. destruct (decide (v = 34)) as [->|H34].
    + cbn [Z.eqb Pos.eqb] in *. rewrite quoted_units_app in Hf |- *. rewrite length_app, length_app, length_replicate in Hf. cbn [length] in Hf.
      rewrite <- !app_assoc. cbn [app]. destruct fuel as [|fuel]; [lia|]. rewrite argument_round_escaped.
      rewrite IH by (done || lia). cbn [replicate app]. by rewrite <- !app_assoc.
    + replace (v =? 34) with false in * by lia. rewrite quoted_units_app in Hf |- *. rewrite length_app, length_app, length_replicate in Hf. cbn [length] in Hf.
      rewrite <- !app_assoc. cbn [app]. destruct fuel as [|fuel]; [lia|]. rewrite argument_round_unit by (done || lia).
      rewrite IH by (done || lia). cbn [replicate app]. by rewrite <- !app_assoc.
Qed.

(** The text of an argument, read back. *)
Lemma append_wide_argument_app command argument :
  append_wide_argument command argument = command ++ append_wide_argument [] argument.
Proof.
  unfold append_wide_argument. destruct (negb _); [done|]. rewrite quoted_units_app, (quoted_units_app _ _ ([] ++ _)). by rewrite <- !app_assoc.
Qed.

Definition argument_text (argument : list Z) : list Z := append_wide_argument [] argument.

Lemma argument_text_unquoted argument :
  needs_quotes argument = false -> has_zero argument = false ->
  argument_text argument = argument /\ forallb plain argument = true /\ argument <> [].
Proof.
  intros Hn Hz. unfold argument_text, append_wide_argument. rewrite Hn. split; [done|]. unfold needs_quotes in Hn.
  apply orb_false_iff in Hn as [Hl Hs]. split; [|by intros ->].
  apply forallb_forall. intros v Hv. unfold has_zero in Hz.
  assert (forall f, existsb f argument = false -> f v = false) as H.
  { intros f Hf. apply not_true_iff_false. intros Ht. apply not_true_iff_false in Hf. apply Hf. apply existsb_exists. by exists v. }
  apply H in Hs, Hz. unfold plain, space. lia.
Qed.

Lemma argument_text_quoted argument :
  needs_quotes argument = true -> argument_text argument = 34 :: quoted_units argument 0 [] ++ [34].
Proof. intros Hn. unfold argument_text, append_wide_argument. rewrite Hn. cbn [negb]. by rewrite quoted_units_app. Qed.

Lemma argument_text_read argument rest fuel :
  has_zero argument = false -> closes rest -> (length (argument_text argument ++ rest) < fuel)%nat ->
  argument_loop fuel (argument_text argument ++ rest) [] false = Ret (argument, rest) /\
  exists v tl, argument_text argument = v :: tl /\ v <> 0 /\ space v = false.
Proof.
  intros Hz Hr Hf. rewrite length_app in Hf. destruct (needs_quotes argument) eqn:Hn.
  - rewrite argument_text_quoted in * by done. split; [|by eexists _, _]. cbn [app length] in *. rewrite length_app in Hf. cbn [length] in Hf.
    destruct fuel as [|fuel]; [lia|]. rewrite <- app_assoc. cbn [app argument_loop ends_word space Z.eqb Pos.eqb orb negb andb pass_slashes at_quote tail].
    rewrite argument_quoted by (done || lia). done.
  - destruct (argument_text_unquoted argument Hn Hz) as (E & Hp & Hne). rewrite E in *. split.
    + apply (argument_plain argument 0 rest []); [done|done|lia].
    + destruct argument as [|v tl]; [done|]. exists v, tl. split; [done|]. cbn [forallb] in Hp. unfold plain in Hp. lia.
Qed.

(** ** The arguments after the program *)

(** The arguments as [command_line] writes them. *)
Definition arguments_text (arguments : list (list Z)) : list Z := concat (map (fun a => 32 :: argument_text a) arguments).

Lemma append_arguments_text arguments result :
  Forall wide_ok arguments ->
  append_arguments result (map from_wide arguments) =
  if existsb has_zero arguments then Fail InvalidInput else Ret (result ++ arguments_text arguments).
Proof.
  intros Ha. revert result. induction Ha as [|a arguments Ha Has IH]; intros result; cbn [map append_arguments existsb].
  - unfold arguments_text. cbn. by rewrite app_nil_r.
  - rewrite to_wide_from_wide by done. destruct (has_zero a); [done|]. cbn [obind orb]. rewrite IH, app_nil_r.
    destruct (existsb _ _); [done|]. rewrite append_wide_argument_app. unfold arguments_text. cbn [map concat]. by rewrite <- !app_assoc.
Qed.

Lemma closes_arguments arguments : closes (arguments_text arguments).
Proof. by destruct arguments. Qed.

Lemma argument_text_nonempty a : has_zero a = false -> (0 < length (argument_text a))%nat.
Proof.
  intros Hz. destruct (argument_text_read a [] (S (length (argument_text a ++ [])))) as [_ (v & tl & -> & _)]; [done|done|lia|]. cbn. lia.
Qed.

Lemma arguments_loop_text arguments output fuel :
  existsb has_zero arguments = false -> (length (arguments_text arguments) < fuel)%nat ->
  arguments_loop fuel (arguments_text arguments) output = Ret (output ++ map from_wide arguments).
Proof.
  revert output fuel. induction arguments as [|a arguments IH]; intros output fuel Hz Hf.
  - destruct fuel as [|fuel]; [lia|]. cbn. by rewrite app_nil_r.
  - cbn [existsb] in Hz. apply orb_false_iff in Hz as [Hz Hzs]. unfold arguments_text in *. cbn [map concat] in *. fold (arguments_text arguments) in *.
    cbn [app length] in Hf. rewrite length_app in Hf. destruct fuel as [|fuel]; [lia|].
    destruct (argument_text_read a (arguments_text arguments) (S (length (argument_text a ++ arguments_text arguments))))
      as [Hread (v & tl & E & Hv & Hsp)]; [done|apply closes_arguments|lia|].
    cbn [app arguments_loop skip_spaces space Z.eqb Pos.eqb orb]. rewrite E in *. cbn [app skip_spaces] in *. rewrite Hsp.
    replace (v =? 0) with false by lia. rewrite Hread. cbn [obind fst snd]. rewrite IH by (done || (cbn [length] in Hf; lia)).
    by rewrite <- app_assoc.
Qed.

(** ** The program *)

(** A name the parser gives back: no quotes in it, and, when it is quoted, no
    backslash at its end. *)
Definition program_ok (program : list Z) : Prop :=
  ~ In 34 program /\ (needs_quotes program = true -> list.last program <> Some 92).

Lemma program_name_quoted program rest word :
  ~ In 34 program -> has_zero program = false ->
  program_name (program ++ rest) word true = program_name rest (word ++ program) true.
Proof.
  revert word. induction program as [|v program IH]; intros word Hq Hz; [by rewrite app_nil_r|].
  unfold has_zero in Hz. cbn [existsb] in Hz. apply orb_false_iff in Hz as [Hv Hz]. cbn [app program_name].
  replace (v =? 0) with false by lia. assert (v <> 34) by (intros ->; apply Hq; by left).
  assert (~ In 34 program) by (intros ?; apply Hq; by right).
  replace (v =? 34) with false by lia. cbn [negb]. rewrite andb_false_r, IH by done. by rewrite <- app_assoc.
Qed.

Lemma program_name_plain program rest word :
  forallb plain program = true -> closes rest -> program_name (program ++ rest) word false = (word ++ program, rest).
Proof.
  intros Hp Hr. revert word Hp. induction program as [|v program IH]; intros word Hp.
  - rewrite app_nil_r. unfold closes in Hr. destruct rest as [|v rest]; [done|]. cbn in *. destruct (v =? 0) eqn:E0; [done|].
    cbn in Hr. rewrite Hr. unfold space in Hr. by replace (v =? 34) with false by lia.
  - cbn [forallb] in Hp. apply andb_true_iff in Hp as [Hv Hp]. unfold plain in Hv. cbn [app program_name].
    replace (v =? 0) with false by lia. replace (v =? 34) with false by lia. replace (space v) with false by lia. cbn [andb].
    rewrite IH by done. by rewrite <- app_assoc.
Qed.

(** The backslashes [units] ends in, [behind] of them before it. *)
Fixpoint slashes_at_end (units : list Z) (behind : nat) : nat :=
  match units with
  | [] => behind
  | unit_ :: units => slashes_at_end units (if unit_ =? 92 then S behind else 0)
  end.

(** The backslashes a name gains on the way: those at the end of a quoted one,
    which are doubled, and which the parser takes as they are. *)
Definition gained (program : list Z) : nat := if needs_quotes program then slashes_at_end program 0 else 0%nat.

Lemma slashes_at_end_0 program k : program <> [] -> slashes_at_end program k = 0%nat <-> list.last program <> Some 92.
Proof.
  revert k. induction program as [|v program IH]; intros k Hne; [done|]. cbn [slashes_at_end].
  destruct program as [|v' program]; [|by apply IH]. cbn.
  destruct (Z.eqb_spec v 92) as [->|Hn]; [split; [lia|done]|]. split; [by intros _ [=]|done].
Qed.

Lemma program_ok_gained program : program_ok program <-> ~ In 34 program /\ gained program = 0%nat.
Proof.
  unfold program_ok, gained. destruct (needs_quotes program); [|by intuition].
  destruct (decide (program = [])) as [->|Hne]; [by cbn; intuition|]. rewrite slashes_at_end_0 by done. intuition.
Qed.

(** Without quotes in it, only backslashes at the end are doubled. *)
Lemma quoted_units_program program k :
  ~ In 34 program -> quoted_units program k [] = replicate k 92 ++ program ++ replicate (slashes_at_end program k) 92.
Proof.
  revert k. induction program as [|v program IH]; intros k Hq.
  - cbn [quoted_units slashes_at_end app]. rewrite <- replicate_add. f_equal. lia.
  - cbn [quoted_units slashes_at_end]. assert (v <> 34) by (intros ->; apply Hq; by left).
    assert (~ In 34 program) as Hq' by (intros ?; apply Hq; by right).
    destruct (decide (v = 92)) as [->|H92].
    + cbn [Z.eqb Pos.eqb]. rewrite IH by done. cbn [app]. by rewrite <- replicate_snoc.
    + replace (v =? 92) with false by lia. replace (v =? 34) with false by lia. rewrite quoted_units_app, IH by done.
      cbn [app replicate]. by rewrite <- app_assoc.
Qed.

Lemma program_text_read program rest :
  ~ In 34 program -> has_zero program = false -> closes rest ->
  program_name (argument_text program ++ rest) [] false = (program ++ replicate (gained program) 92, rest).
Proof.
  intros Hq Hz Hr. unfold gained. destruct (needs_quotes program) eqn:Hn.
  - rewrite argument_text_quoted, quoted_units_program by done. cbn [replicate app program_name Z.eqb Pos.eqb negb].
    rewrite <- app_assoc, program_name_quoted.
    + cbn [app program_name Z.eqb Pos.eqb negb].
      pose proof (program_name_plain [] rest (program ++ replicate (slashes_at_end program 0) 92) eq_refl Hr) as Hx. by rewrite app_nil_r in Hx.
    + rewrite in_app_iff. intros [H|H]; [done|]. apply list_elem_of_In, elem_of_replicate in H as [H _]. done.
    + unfold has_zero in *. rewrite existsb_app, Hz. induction (slashes_at_end program 0); done.
  - destruct (argument_text_unquoted program Hn Hz) as (E & Hp & _). rewrite E. by rewrite (program_name_plain _ _ []), app_nil_r.
Qed.

(** The parser drops the quotes of a name. *)
Lemma program_name_no_quote rest word quoted : ~ In 34 word -> ~ In 34 (fst (program_name rest word quoted)).
Proof.
  revert word quoted. induction rest as [|v rest IH]; intros word quoted Hw; [done|]. cbn [program_name].
  destruct (v =? 0); [done|]. destruct (Z.eqb_spec v 34) as [_|Hn]; [by apply IH|]. destruct (_ && _); [done|].
  apply IH. rewrite in_app_iff. intros [H|[H|[]]]; [done|]. by apply Hn.
Qed.

Lemma program_name_wide rest word quoted : wide_ok rest -> wide_ok word -> wide_ok (fst (program_name rest word quoted)).
Proof.
  revert word quoted. induction rest as [|v rest IH]; intros word quoted Hr Hw; [done|]. inversion_clear Hr as [|? ? Hv Hr']. cbn [program_name].
  assert (wide_ok (word ++ [v])) as Hwv by (apply Forall_app; split; [done|apply List.Forall_cons; [done|apply List.Forall_nil]]).
  destruct (v =? 0); [done|]. destruct (v =? 34); [by apply IH|]. destruct (_ && _); [done|by apply IH].
Qed.

Lemma from_wide_inj a b : wide_ok a -> wide_ok b -> from_wide a = from_wide b -> has_zero a = false -> a = b.
Proof.
  intros Ha Hb E Hz. pose proof (to_wide_from_wide a false Ha) as Ea. rewrite E, (to_wide_from_wide b false Hb), Hz in Ea.
  destruct (has_zero b); [discriminate|]. rewrite !app_nil_r in Ea. by injection Ea.
Qed.

(** ** The theorems *)

Lemma until_zero_text text rest : has_zero text = false -> until_zero (text ++ 0 :: rest) = text.
Proof.
  intros Hz. induction text as [|v text IH]; [done|]. unfold has_zero in *. cbn [existsb] in Hz.
  apply orb_false_iff in Hz as [Hv Hz]. cbn. replace (v =? 0) with false by lia. by rewrite IH.
Qed.

Lemma has_zero_app a b : has_zero (a ++ b) = has_zero a || has_zero b.
Proof. apply existsb_app. Qed.

Lemma has_zero_replicate k v : v <> 0 -> has_zero (replicate k v) = false.
Proof. intros Hv. induction k as [|k IH]; [done|]. unfold has_zero in *. cbn [replicate existsb]. rewrite IH. by replace (0 =? v) with false by lia. Qed.

Lemma has_zero_quoted a k : has_zero a = false -> has_zero (quoted_units a k []) = false.
Proof.
  revert k. induction a as [|v a IH]; intros k Hz; [by apply has_zero_replicate|].
  pose proof Hz as Hz'. unfold has_zero in Hz'. cbn [existsb] in Hz'. apply orb_false_iff in Hz' as [Hv Ha]. cbn [quoted_units].
  destruct (v =? 92); [by apply IH|].
  destruct (v =? 34); rewrite quoted_units_app, !has_zero_app, IH, has_zero_replicate by done; [done|]. unfold has_zero. cbn [existsb]. by rewrite Hv.
Qed.

Lemma has_zero_argument a : has_zero a = false -> has_zero (argument_text a) = false.
Proof.
  intros Hz. destruct (needs_quotes a) eqn:Hn; [|by destruct (argument_text_unquoted a Hn Hz) as (-> & _)].
  rewrite argument_text_quoted by done. change (34 :: ?x) with ([34] ++ x). rewrite !has_zero_app, has_zero_quoted by done. done.
Qed.

Lemma has_zero_arguments arguments : existsb has_zero arguments = false -> has_zero (arguments_text arguments) = false.
Proof.
  induction arguments as [|a arguments IH]; [done|]. cbn [existsb]. intros [Ha Hs]%orb_false_iff. unfold arguments_text. cbn [map concat].
  change (32 :: ?x) with ([32] ++ x). rewrite !has_zero_app, has_zero_argument by done. by apply IH.
Qed.

Lemma wide_replicate k : wide_ok (replicate k 92).
Proof. apply Forall_replicate. lia. Qed.

Lemma wide_quoted a k : wide_ok a -> wide_ok (quoted_units a k []).
Proof.
  intros Ha. revert k. induction Ha as [|v a Hv Ha IH]; intros k; [apply wide_replicate|]. cbn [quoted_units].
  destruct (v =? 92); [apply IH|]. destruct (v =? 34); rewrite quoted_units_app; cbn [app]; unfold wide_ok.
  all: repeat (apply Forall_app; split); first [apply wide_replicate|apply IH|by apply List.Forall_cons].
Qed.

Lemma wide_argument a : wide_ok a -> wide_ok (argument_text a).
Proof.
  intros Ha. unfold argument_text, append_wide_argument. destruct (negb _); [done|]. rewrite quoted_units_app. cbn [app]. unfold wide_ok.
  apply List.Forall_cons; [lia|]. apply Forall_app; split; [by apply wide_quoted|by apply List.Forall_cons].
Qed.

Lemma wide_arguments arguments : Forall wide_ok arguments -> wide_ok (arguments_text arguments).
Proof.
  induction 1 as [|a arguments Ha _ IH]; [apply List.Forall_nil|]. unfold arguments_text. cbn [map concat].
  apply List.Forall_cons; [lia|]. by apply Forall_app; split; [apply wide_argument|].
Qed.

Lemma arguments_loop_prefix fuel rest output result :
  arguments_loop fuel rest output = Ret result -> exists more, result = output ++ more.
Proof.
  revert rest output. induction fuel as [|fuel IH]; intros rest output H; [done|]. cbn [arguments_loop] in H.
  destruct rest as [|v rest]; [injection H as <-; by exists []; rewrite app_nil_r|].
  destruct (skip_spaces (v :: rest)) as [|v' rest']; [injection H as <-; by exists []; rewrite app_nil_r|].
  destruct (v' =? 0); [injection H as <-; by exists []; rewrite app_nil_r|].
  destruct (argument_loop _ _ _ _) as [parsed| | |]; try done. cbn [obind] in H. apply IH in H as [more ->].
  rewrite <- app_assoc. by eexists.
Qed.

(** The first of the texts a line is taken apart into is its name. *)
Lemma parse_name line name rest :
  parse line = Ret (name :: rest) -> name = from_wide (fst (program_name line [] false)).
Proof.
  unfold parse. destruct (_ =? 0)%nat; [done|]. destruct (program_name line [] false) as [word tail_].
  intros [more H]%arguments_loop_prefix. by injection H as ->.
Qed.

Lemma parse_text program arguments :
  ~ In 34 program -> has_zero program = false -> existsb has_zero arguments = false ->
  parse (argument_text program ++ arguments_text arguments) =
  Ret (from_wide (program ++ replicate (gained program) 92) :: map from_wide arguments).
Proof.
  intros Hq Hz Hzs. pose proof (argument_text_nonempty program Hz) as Hl. unfold parse. rewrite length_app.
  replace (_ =? 0)%nat with false by lia. rewrite program_text_read by (done || apply closes_arguments).
  by rewrite arguments_loop_text by (done || lia).
Qed.

(** A name comes back as it is exactly when the parser can give it back. *)
Lemma parse_text_iff program arguments :
  wide_ok program -> Forall wide_ok arguments -> has_zero program = false -> existsb has_zero arguments = false ->
  parse (argument_text program ++ arguments_text arguments) = Ret (from_wide program :: map from_wide arguments) <->
  program_ok program.
Proof.
  intros Hp Ha Hz Hzs. rewrite program_ok_gained. split.
  - intros H. assert (~ In 34 program) as Hq.
    + apply parse_name, from_wide_inj in H; [|done| |done].
      { rewrite H. apply program_name_no_quote. cbn. tauto. }
      apply program_name_wide; [|apply List.Forall_nil]. by apply Forall_app; split; [apply wide_argument|apply wide_arguments].
    + split; [done|]. rewrite parse_text in H by done. injection H as H. symmetry in H. apply from_wide_inj in H; [|done| |done].
      * apply (f_equal length) in H. rewrite length_app, length_replicate in H. lia.
      * by apply Forall_app; split; [|apply wide_replicate].
  - intros [Hq Hg]. by rewrite parse_text, Hg, app_nil_r.
Qed.

(** C26: A child gets the arguments its parent gave it.  A line is built of a
    program and its arguments unless one of them contains a zero.  Taken apart
    by [args_os] of the child, it is the program and those arguments, whatever
    spaces, quotes, backslashes or lone surrogates the arguments contain,
    exactly when the name of the program has no quote in it and, where it has
    to be quoted, no backslash at its end.  Without a quote in it the name
    comes back with the backslashes it ends in doubled, and the arguments are
    the same. *)
Theorem command_line_parses program arguments :
  wide_ok program -> Forall wide_ok arguments ->
  let line := command_line (from_wide program) (map from_wide arguments) in
  if has_zero program || existsb has_zero arguments then line = Fail InvalidInput
  else exists raw, line = Ret raw /\
    (parse (until_zero raw) = Ret (from_wide program :: map from_wide arguments) <-> program_ok program) /\
    (~ In 34 program ->
     parse (until_zero raw) = Ret (from_wide (program ++ replicate (gained program) 92) :: map from_wide arguments)).
Proof.
  intros Hp Ha line. unfold line, command_line. rewrite to_wide_from_wide by done.
  destruct (has_zero program) eqn:Hz; [done|]. cbn [orb obind]. rewrite append_arguments_text by done.
  destruct (existsb has_zero arguments) eqn:Hzs; [done|]. cbn [obind]. eexists. split; [done|].
  rewrite app_nil_r. fold (argument_text program).
  rewrite until_zero_text by (by rewrite has_zero_app, has_zero_argument, has_zero_arguments).
  split; [by apply parse_text_iff|]. intros Hq. by apply parse_text.
Qed.

(** ["C:\a b"], with an empty argument, one of a quote and one that ends in a
    backslash. *)
Lemma command_line_parses_witness :
  let program := [67; 58; 92; 97; 32; 98] in
  let arguments := [[]; [97; 92; 34; 98]; [99; 32; 92]; [0xd800]] in
  wide_ok program /\ program_ok program /\
  exists raw, command_line (from_wide program) (map from_wide arguments) = Ret raw /\
    parse (until_zero raw) = Ret (from_wide program :: map from_wide arguments).
Proof.
  assert (wide_ok [67; 58; 92; 97; 32; 98]) as Hp by (repeat (apply List.Forall_cons; [lia|]); apply List.Forall_nil).
  assert (Forall wide_ok [[]; [97; 92; 34; 98]; [99; 32; 92]; [0xd800]]) as Ha
    by (repeat (first [apply List.Forall_nil | apply List.Forall_cons; [first [lia | idtac]|]])).
  assert (program_ok [67; 58; 92; 97; 32; 98]) as Hok by (split; [cbn; lia|intros _; cbn; congruence]).
  split; [exact Hp|]. split; [exact Hok|]. destruct (command_line_parses _ _ Hp Ha) as (raw & Hraw & Hiff & _).
  exists raw. split; [exact Hraw|]. by apply Hiff.
Defined.

(** The parser takes the backslashes at the end of a program's name as they
    are, and [append_wide_argument] doubles them. *)
Example program_backslashes :
  obind (command_line [97; 32; 92] []) (fun raw => parse (until_zero raw)) = Ret [[97; 32; 92; 92]].
Proof. reflexivity. Qed.
