(* ===== verification/Environment.v ===== *)
(** * The environment of a child

    Models what [Command] records of the environment
    ([src/std/src/process/command.cppm]: [env], [env_remove], [env_clear]), how
    [src/std/src/process/mod.cpp] makes the environment of a child of it on
    Unix and on Windows (the two [child_environment]), and how a program reads
    its environment ([vars_os] of [src/std/src/env.cpp]).  What a key is, and
    when two keys are the same, differs: the record and the loops over entries
    are proved against an interface of keys and entries that both platforms
    implement. *)

From Stdlib Require Import ZArith Lia ZifyBool.
From S2P Require Import Prelude Utf8 WideText.
Local Open Scope Z_scope.
Local Open Scope rstd_scope.

(** ** The record of a [Command] *)

Record EnvAction := mkEnvAction { key : list Z; value : option (list Z) }.

(** The fields of [Command] that concern the environment. *)
Record Command := mkCommand { env_clear_ : bool; env_actions_ : list EnvAction }.

(** [Command::make] *)
Definition make : Command := mkCommand false [].

(** The platform's comparison of keys; it may panic. *)
Class KeyComparison := environment_keys_equal : list Z -> list Z -> outcome WideError bool.

Section Record.
Context `{KeyComparison}.

(** The loop of [env]: [None] when no action has the key. *)
Fixpoint set_action (key_ value_ : list Z) (actions : list EnvAction) : outcome WideError (option (list EnvAction)) :=
  match actions with
  | [] => Ret None
  | action :: actions =>
    let! equal := environment_keys_equal (key action) key_ in
    if (equal : bool) then Ret (Some (mkEnvAction (key action) (Some value_) :: actions))
    else
      let! set := set_action key_ value_ actions in
      Ret (option_map (cons action) set)
  end.

Definition env (command : Command) (key_ value_ : list Z) : outcome WideError Command :=
  let! set := set_action key_ value_ (env_actions_ command) in
  Ret (mkCommand (env_clear_ command)
         (match set with
          | Some actions => actions
          | None => env_actions_ command ++ [mkEnvAction key_ (Some value_)]
          end)).

Fixpoint remove_action (clear : bool) (key_ : list Z) (actions : list EnvAction) : outcome WideError (option (list EnvAction)) :=
  match actions with
  | [] => Ret None
  | action :: actions =>
    let! equal := environment_keys_equal (key action) key_ in
    if (equal : bool) then Ret (Some (if clear then actions else mkEnvAction (key action) None :: actions))
    else
      let! removed := remove_action clear key_ actions in
      Ret (option_map (cons action) removed)
  end.

Definition env_remove (command : Command) (key_ : list Z) : outcome WideError Command :=
  let! removed := remove_action (env_clear_ command) key_ (env_actions_ command) in
  Ret (mkCommand (env_clear_ command)
         (match removed with
          | Some actions => actions
          | None =>
            if negb (env_clear_ command) then env_actions_ command ++ [mkEnvAction key_ None] else env_actions_ command
          end)).

Definition env_clear (command : Command) : Command := mkCommand true [].

(** [envs] *)
Fixpoint envs (command : Command) (values : list (list Z * list Z)) : outcome WideError Command :=
  match values with
  | [] => Ret command
  | (key_, value_) :: values => let! command := env command key_ value_ in envs command values
  end.
End Record.

(** ** Removing entries *)

(** [for (auto index = result.len(); index != usize();)] *)
Fixpoint remove_loop {E} (matches : E -> bool) (i : nat) (result : list E) : list E :=
  match i with
  | O => result
  | S i =>
    let found := match result !! i with Some entry => matches entry | None => false end in
    remove_loop matches i (if found then delete i result else result)
  end.

(** ** Unix *)

#[export] Instance unix_environment_keys_equal : KeyComparison := fun left right => Ret (bool_decide (left = right)).

Fixpoint key_loop (key_ : list Z) : bool :=
  match key_ with
  | [] => true
  | value_ :: key_ => if (value_ =? 0) || (value_ =? 61) then false else key_loop key_
  end.

Definition valid_environment_key (key_ : list Z) : bool := if (length key_ =? 0)%nat then false else key_loop key_.

Fixpoint valid_environment_value (value_ : list Z) : bool :=
  match value_ with
  | [] => true
  | b :: value_ => if b =? 0 then false else valid_environment_value value_
  end.

(** [for (auto index = usize(); index < key.len(); ++index)] *)
Fixpoint same_bytes (entry key_ : list Z) {struct key_} : bool :=
  match key_ with
  | [] => true
  | k :: key_ =>
    match entry with
    | [] => false
    | e :: entry => if negb (e =? k) then false else same_bytes entry key_
    end
  end.

Definition environment_key_matches (entry key_ : list Z) : bool :=
  if (length entry <=? length key_)%nat || negb (default 0 (entry !! length key_) =? 61) then false
  else same_bytes entry key_.

(** [CString::make] refuses a byte of zero. *)
Fixpoint c_string (bytes : list Z) : bool :=
  match bytes with
  | [] => true
  | b :: bytes => if b =? 0 then false else c_string bytes
  end.

Definition environment_entry (key_ value_ : list Z) : outcome WideError (list Z) :=
  let bytes := key_ ++ [61] ++ value_ in
  if c_string bytes then Ret bytes else Fail InvalidInput.

Fixpoint unix_actions_loop (actions : list EnvAction) (result : list (list Z)) : outcome WideError (list (list Z)) :=
  match actions with
  | [] => Ret result
  | action :: actions =>
    if negb (valid_environment_key (key action)) ||
       match value action with Some v => negb (valid_environment_value v) | None => false end
    then Fail InvalidInput
    else
      let result := remove_loop (fun entry => environment_key_matches entry (key action)) (length result) result in
      match value action with
      | Some v => let! entry := environment_entry (key action) v in unix_actions_loop actions (result ++ [entry])
      | None => unix_actions_loop actions result
      end
  end.

(** [environ] is the environment of the parent. *)
Definition unix_child_environment (clear : bool) (actions : list EnvAction) (environ : list (list Z))
    : outcome WideError (list (list Z)) :=
  unix_actions_loop actions (if clear then [] else environ).

(** [OsStr::split_once] *)
Fixpoint split_once (s : list Z) (delimiter : Z) : option (list Z * list Z) :=
  match s with
  | [] => None
  | b :: s =>
    if b =? delimiter then Some ([], s)
    else '(before, after) ← split_once s delimiter; Some (b :: before, after)
  end.

Definition unix_vars_os (environ : list (list Z)) : list (list Z * list Z) :=
  omap (fun item =>
    split ← split_once item 61;
    if (length (fst split) =? 0)%nat then None else Some split) environ.


(** ** Windows *)

Section Windows.

(** [CompareStringOrdinal], ignoring case: zero is a failure. *)
Context (CompareStringOrdinal : list Z -> list Z -> Z).

Definition M_CSTR_EQUAL : Z := 2.

(** The units of [encode_wide], collected; a unit is at least a byte. *)
Fixpoint wide_loop (fuel : nat) (units : EncodeWide) (result : list Z) : outcome WideError (list Z) :=
  match fuel with
  | O => OutOfFuel
  | S fuel =>
    let! unit_ := next units in
    let '(unit_, units) := unit_ in
    match unit_ with
    | None => Ret result
    | Some v => wide_loop fuel units (result ++ [v])
    end
  end.

Definition wide (value_ : list Z) : outcome WideError (list Z) := wide_loop (S (length value_)) (encode_wide value_) [].

Definition windows_environment_keys_equal : KeyComparison := fun left right =>
  let! a := wide left in
  let! b := wide right in
  if (length a =? 0)%nat || (length b =? 0)%nat then Ret ((length a =? 0)%nat && (length b =? 0)%nat)
  else
    let compared := CompareStringOrdinal a b in
    if compared =? 0 then Panic else Ret (compared =? M_CSTR_EQUAL).

Record WideEnvironmentEntry := mkEntry { entry_value : list Z; key_length : nat }.

(** The index of the first separator from an index on, or the length. *)
Fixpoint separator_loop (i : nat) (rest : list Z) : nat :=
  match rest with
  | [] => i
  | v :: rest => if v =? 61 then i else separator_loop (S i) rest
  end.

Definition environment_key_length (entry : list Z) : nat :=
  let start := match entry with v :: _ => if v =? 61 then 1%nat else 0%nat | [] => 0%nat end in
  separator_loop start (drop start entry).

Definition same_environment_key (entry : WideEnvironmentEntry) (key_ : list Z) : bool :=
  if negb (key_length entry =? length key_)%nat then false
  else CompareStringOrdinal (take (key_length entry) (entry_value entry)) key_ =? M_CSTR_EQUAL.

(** The units up to the next zero, and the memory after it. *)
Fixpoint entry_at (current : list Z) : outcome WideError (list Z * list Z) :=
  match current with
  | [] => Panic
  | v :: current =>
    if v =? 0 then Ret ([], current)
    else let! rest := entry_at current in Ret (v :: fst rest, snd rest)
  end.

(** The entries of a block; each takes at least a unit of it. *)
Fixpoint block_loop (fuel : nat) (current : list Z) : outcome WideError (list (list Z)) :=
  match fuel with
  | O => OutOfFuel
  | S fuel =>
    let! first := index current 0 in
    if first =? 0 then Ret []
    else
      let! entry := entry_at current in
      let! rest := block_loop fuel (snd entry) in
      Ret (fst entry :: rest)
  end.

Definition block_entries (block : list Z) : outcome WideError (list (list Z)) := block_loop (S (length block)) block.

Definition key_bytes_ok (bytes : list Z) : bool := forallb (fun b => negb ((b =? 0) || (b =? 61))) bytes.

Fixpoint windows_actions_loop (actions : list EnvAction) (entries : list WideEnvironmentEntry)
    : outcome WideError (list WideEnvironmentEntry) :=
  match actions with
  | [] => Ret entries
  | action :: actions =>
    if (length (key action) =? 0)%nat then Fail InvalidInput
    else if negb (key_bytes_ok (key action)) then Fail InvalidInput
    else
      let! key_ := to_wide (key action) false in
      let entries := remove_loop (fun entry => same_environment_key entry key_) (length entries) entries in
      match value action with
      | None => windows_actions_loop actions entries
      | Some v =>
        let! value_ := to_wide v false in
        windows_actions_loop actions (entries ++ [mkEntry (key_ ++ [61] ++ value_) (length key_)])
      end
  end.

Definition block_of (entries : list WideEnvironmentEntry) : list Z :=
  concat (map (fun entry => entry_value entry ++ [0]) entries) ++ [0] ++
  (if (length entries =? 0)%nat then [0] else []).

(** [block] is the environment of the parent, what [GetEnvironmentStringsW]
    returns. *)
Definition windows_child_environment (clear : bool) (actions : list EnvAction) (block : option (list Z))
    : outcome WideError (list Z) :=
  let! entries := (if clear then Ret []
                   else
                     let! values := match block with Some block => block_entries block | None => Fail OsError end in
                     Ret (map (fun v => mkEntry v (environment_key_length v)) values)) in
  let! entries := windows_actions_loop actions entries in
  Ret (block_of entries).

(** [windows_vars_os]: the separator is searched from the second unit on. *)
Definition windows_vars_os (block : option (list Z)) : outcome WideError (list (list Z * list Z)) :=
  let! values := match block with Some block => block_entries block | None => Panic end in
  Ret (omap (fun v =>
         let separator := separator_loop 1 (drop 1 v) in
         if (separator <? length v)%nat
         then Some (from_wide (take separator v), from_wide (drop (separator + 1) v)) else None) values).

End Windows.

(** ** What the changes mean *)

(** The calls on a [Command] that change its environment. *)
Inductive change := SetVar (k v : list Z) | RemoveVar (k : list Z) | ClearAll.

(** The value of each key. *)
Definition view := list Z -> option (list Z).

(** Keys that the platform accepts, and when two of them are the same. *)
Class KeyLaws `{KeyComparison} (key_ok : list Z -> Prop) (same : list Z -> list Z -> bool) := {
  keys_compared a b : key_ok a -> key_ok b -> environment_keys_equal a b = Ret (same a b);
  same_refl a : key_ok a -> same a a = true;
  same_sym a b : key_ok a -> key_ok b -> same a b = same b a;
  same_trans a b c : key_ok a -> key_ok b -> key_ok c -> same a b = true -> same b c = true -> same a c = true
}.

(** Entries, as the loops over them see them. *)
Class EntryLaws {E} (key_ok : list Z -> Prop) (same : list Z -> list Z -> bool)
    (matches : E -> list Z -> bool) (entry : list Z -> list Z -> E) := {
  matches_entry k v k' : key_ok k -> key_ok k' -> matches (entry k v) k' = same k k';
  matches_same e k k' : key_ok k -> key_ok k' -> same k k' = true -> matches e k = matches e k';
  matches_unique e k k' : key_ok k -> key_ok k' -> matches e k = true -> matches e k' = true -> same k k' = true
}.

Section Meaning.
Context `{KeyComparison}.

Definition apply_change (ch : change) (c : Command) : outcome WideError Command :=
  match ch with
  | SetVar k v => env c k v
  | RemoveVar k => env_remove c k
  | ClearAll => Ret (env_clear c)
  end.

Fixpoint apply_changes (chs : list change) (c : Command) : outcome WideError Command :=
  match chs with
  | [] => Ret c
  | ch :: chs => let! c := apply_change ch c in apply_changes chs c
  end.

Context {key_ok : list Z -> Prop} {same : list Z -> list Z -> bool} `{!KeyLaws key_ok same}.

Definition changed (ch : change) (w : view) : view := fun k =>
  match ch with
  | SetVar k' v => if same k' k then Some v else w k
  | RemoveVar k' => if same k' k then None else w k
  | ClearAll => None
  end.

Fixpoint view_after (chs : list change) (w : view) : view :=
  match chs with [] => w | ch :: chs => view_after chs (changed ch w) end.

Definition change_key_ok (ch : change) : Prop :=
  match ch with SetVar k _ | RemoveVar k => key_ok k | ClearAll => True end.

Lemma same_cong a b c : key_ok a -> key_ok b -> key_ok c -> same a b = true -> same a c = same b c.
Proof.
  intros Ha Hb Hc Hab. destruct (same b c) eqn:E.
  - by apply (same_trans a b c).
  - apply not_true_iff_false. intros Hac. apply not_true_iff_false in E. apply E.
    apply (same_trans b a c); [done..| |done]. by rewrite same_sym.
Qed.

(** What the actions say of a key: the first that has it. *)
Fixpoint look (k : list Z) (actions : list EnvAction) : option (option (list Z)) :=
  match actions with
  | [] => None
  | a :: actions => if same (key a) k then Some (value a) else look k actions
  end.

(** No two keys are the same. *)
Fixpoint distinct (ks : list (list Z)) : Prop :=
  match ks with
  | [] => True
  | k :: ks => Forall (fun k' => same k k' = false) ks /\ distinct ks
  end.

Lemma sublist_Forall {A} (P : A -> Prop) l l' : sublist l l' -> Forall P l' -> Forall P l.
Proof. rewrite !Forall_forall. intros Hs HP x Hx. apply HP.
  apply list_elem_of_In. apply list_elem_of_In in Hx. by eapply elem_of_sublist.
Qed.

Lemma distinct_sublist ks ks' : sublist ks ks' -> distinct ks' -> distinct ks.
Proof.
  induction 1 as [|k ks ks' Hs IH|k ks ks' Hs IH]; [done| |].
  - intros [Hf Hd]. split; [by eapply sublist_Forall|auto].
  - intros [_ Hd]. auto.
Qed.

Lemma distinct_snoc ks k : Forall (fun k' => same k' k = false) ks -> distinct ks -> distinct (ks ++ [k]).
Proof.
  induction ks as [|k' ks IH]; intros Hf Hd; [by split|]. inversion Hf; subst. destruct Hd as [Hk Hd].
  split; [apply Forall_app; by repeat constructor|auto].
Qed.

Definition names (actions : list EnvAction) : list (list Z) := map key actions.

Lemma look_none k actions : Forall (fun k' => same k' k = false) (names actions) -> look k actions = None.
Proof. induction actions as [|a actions IH]; [done|]. intros Hf. inversion Hf as [|? ? E Hf']; subst. cbn [look]. rewrite E. auto. Qed.

Lemma look_app k actions actions' :
  look k (actions ++ actions') = match look k actions with Some v => Some v | None => look k actions' end.
Proof. induction actions as [|a actions IH]; [done|]. cbn. by destruct (same (key a) k). Qed.

(** An action with the key takes the place of the one that has it. *)
Lemma set_action_spec k v actions : Forall key_ok (names actions) -> key_ok k ->
  exists r, set_action k v actions = Ret r /\
  match r with
  | None => Forall (fun k' => same k' k = false) (names actions)
  | Some actions' =>
    names actions' = names actions /\
    (forall k', key_ok k' -> look k' actions' = if same k k' then Some (Some v) else look k' actions)
  end.
Proof.
  intros Ha Hk. induction actions as [|a actions IH]; [by exists None|]. inversion Ha as [|? ? Hka Ha']; subst.
  destruct (IH Ha') as (r & E & Hr). cbn [set_action]. rewrite keys_compared by done. cbn [obind]. destruct (same (key a) k) eqn:Es.
  - eexists. split; [done|]. split; [done|]. intros k' Hk'. cbn [look key value].
    rewrite <- (same_cong (key a) k k') by done. by destruct (same (key a) k').
  - rewrite E. cbn [obind]. eexists. split; [done|]. destruct r as [actions'|]; cbn [option_map]; [|by constructor].
    destruct Hr as [Hm Hl]. split; [unfold names in *; cbn [map]; by rewrite Hm|]. intros k' Hk'. cbn [look]. rewrite Hl by done.
    destruct (same (key a) k') eqn:Ea; [|done]. destruct (same k k') eqn:Ek; [|done]. exfalso.
    apply not_true_iff_false in Es. apply Es. apply (same_trans _ k' _); [done..|]. by rewrite same_sym.
Qed.

Lemma remove_action_spec clear k actions : Forall key_ok (names actions) -> key_ok k -> distinct (names actions) ->
  exists r, remove_action clear k actions = Ret r /\
  match r with
  | None => Forall (fun k' => same k' k = false) (names actions)
  | Some actions' =>
    sublist (names actions') (names actions) /\
    (forall k', key_ok k' ->
      look k' actions' = if same k k' then (if clear then None else Some None) else look k' actions)
  end.
Proof.
  intros Ha Hk. induction actions as [|a actions IH]; intros Hd; [by exists None|]. inversion Ha as [|? ? Hka Ha']; subst.
  destruct Hd as [Hd1 Hd2]. destruct (IH Ha' Hd2) as (r & E & Hr). cbn [remove_action]. rewrite keys_compared by done. cbn [obind].
  destruct (same (key a) k) eqn:Es.
  - eexists. split; [done|]. split; [destruct clear; [by apply sublist_cons|done]|]. intros k' Hk'.
    rewrite <- (same_cong (key a) k k') by done. destruct clear; cbn [look key value]; destruct (same (key a) k') eqn:Ea; try done.
    apply look_none. rewrite Forall_forall in Hd1, Ha' |- *. intros b Hb. specialize (Hd1 b Hb). specialize (Ha' b Hb).
    apply not_true_iff_false in Hd1. apply not_true_iff_false. intros Hbk. apply Hd1.
    apply (same_trans _ k' _); [done..|]. by rewrite same_sym.
  - rewrite E. cbn [obind]. eexists. split; [done|]. destruct r as [actions'|]; cbn [option_map]; [|by constructor].
    destruct Hr as [Hm Hl]. split; [unfold names in *; cbn [map]; by apply sublist_skip|]. intros k' Hk'. cbn [look]. rewrite Hl by done.
    destruct (same (key a) k') eqn:Ea; [|done]. destruct (same k k') eqn:Ek; [|done]. exfalso.
    apply not_true_iff_false in Es. apply Es. apply (same_trans _ k' _); [done..|]. by rewrite same_sym.
Qed.

(** What a [Command] will make of an environment. *)
Definition recorded (c : Command) (w : view) : view := fun k =>
  match look k (env_actions_ c) with Some v => v | None => if env_clear_ c then None else w k end.

Record record_ok (c : Command) : Prop := {
  record_keys : Forall key_ok (names (env_actions_ c));
  record_distinct : distinct (names (env_actions_ c))
}.

Lemma apply_change_spec ch c : record_ok c -> change_key_ok ch ->
  exists c', apply_change ch c = Ret c' /\ record_ok c' /\
    forall w k, key_ok k -> recorded c' w k = changed ch (recorded c w) k.
Proof.
  intros [Hks Hd] Hch. destruct ch as [k v|k|]; cbn [apply_change changed].
  - destruct (set_action_spec k v _ Hks Hch) as (r & E & Hr). unfold env. rewrite E. cbn [obind]. eexists. split; [done|].
    destruct r as [actions'|].
    + destruct Hr as [Hm Hl]. split; [split; cbn [env_actions_]; by rewrite Hm|]. intros w k' Hk'. unfold recorded. cbn [env_actions_ env_clear_].
      rewrite Hl by done. by destruct (same k k').
    + split; [split; cbn [env_actions_]; unfold names; rewrite map_app|].
      * apply Forall_app. by repeat constructor.
      * by apply distinct_snoc.
      * intros w k' Hk'. unfold recorded. cbn [env_actions_ env_clear_]. rewrite look_app. cbn [look key value].
        destruct (look k' (env_actions_ c)) as [v'|] eqn:El; destruct (same k k') eqn:Ek; try done. exfalso.
        rewrite look_none in El; [done|]. rewrite Forall_forall in Hr, Hks |- *. intros b Hb. rewrite <- (Hr b Hb).
        rewrite (same_sym b k'), (same_sym b k) by auto. symmetry. apply same_cong; auto.
  - destruct (remove_action_spec (env_clear_ c) k _ Hks Hch Hd) as (r & E & Hr). unfold env_remove. rewrite E. cbn [obind].
    eexists. split; [done|]. destruct r as [actions'|].
    + destruct Hr as [Hm Hl]. split; [split; cbn [env_actions_]; [by eapply sublist_Forall|by eapply distinct_sublist]|].
      intros w k' Hk'. unfold recorded. cbn [env_actions_ env_clear_]. rewrite Hl by done.
      by destruct (same k k'), (env_clear_ c).
    + assert (forall k', key_ok k' -> same k k' = true -> look k' (env_actions_ c) = None) as Hn.
      { intros k' Hk' Ek. apply look_none. rewrite Forall_forall in Hr, Hks |- *. intros b Hb. rewrite <- (Hr b Hb).
        rewrite (same_sym b k'), (same_sym b k) by auto. symmetry. apply same_cong; auto. }
      destruct (env_clear_ c) eqn:Ec; cbn [negb].
      * split; [by split|]. intros w k' Hk'. unfold recorded. cbn [env_actions_ env_clear_]. rewrite Ec.
        destruct (same k k') eqn:Ek; [|done]. by rewrite (Hn k' Hk' Ek).
      * split; [split; cbn [env_actions_]; unfold names; rewrite map_app|].
        -- apply Forall_app. by repeat constructor.
        -- by apply distinct_snoc.
        -- intros w k' Hk'. unfold recorded. cbn [env_actions_ env_clear_]. rewrite look_app, Ec. cbn [look key value].
           destruct (same k k') eqn:Ek; [by rewrite (Hn k' Hk' Ek)|]. by destruct (look k' _).
  - eexists. split; [done|]. split; [split; cbn; [constructor|done]|]. done.
Qed.

(** Views that agree on every key the platform accepts. *)
Definition same_view (w w' : view) : Prop := forall k, key_ok k -> w k = w' k.

#[export] Instance same_view_equivalence : Equivalence same_view.
Proof.
  split; [done|intros w w' Hw k Hk; symmetry; auto|].
  intros w w' w'' H1 H2 k Hk. etransitivity; [by apply H1|by apply H2].
Qed.

#[export] Instance changed_proper ch : Proper (same_view ==> same_view) (changed ch).
Proof. intros w w' Hw k Hk. destruct ch; cbn; [by case_if; auto..|done]. Qed.

#[export] Instance view_after_proper chs : Proper (same_view ==> same_view) (view_after chs).
Proof. induction chs as [|ch chs IH]; intros w w' Hw; [done|]. cbn. by rewrite Hw. Qed.

Lemma apply_changes_spec chs c : record_ok c -> Forall change_key_ok chs ->
  exists c', apply_changes chs c = Ret c' /\ record_ok c' /\
    forall w, same_view (recorded c' w) (view_after chs (recorded c w)).
Proof.
  intros Hc Hchs. revert c Hc. induction Hchs as [|ch chs Hch _ IH]; intros c Hc; [by exists c|].
  destruct (apply_change_spec ch c Hc Hch) as (c1 & E1 & H1 & V1). destruct (IH c1 H1) as (c2 & E2 & H2 & V2).
  exists c2. cbn [apply_changes]. rewrite E1. split; [done|]. split; [done|]. intros w. rewrite V2. cbn [view_after].
  assert (same_view (recorded c1 w) (changed ch (recorded c w))) as -> by (intros k Hk; by apply V1). done.
Qed.

Lemma record_ok_make : record_ok make.
Proof. split; [constructor|done]. Qed.

(** ** Entries *)

Section Entries.
Context {E : Type} {matches : E -> list Z -> bool} {entry : list Z -> list Z -> E} `{!EntryLaws key_ok same matches entry}.

(** No action concerns the entry. *)
Definition untouched (actions : list EnvAction) (e : E) : bool := forallb (fun a => negb (matches e (key a))) actions.

Definition set_entries (actions : list EnvAction) : list E := omap (fun a => option_map (entry (key a)) (value a)) actions.

(** The environment after the actions: first what none of them concerns. *)
Definition applied (actions : list EnvAction) (es : list E) : list E := List.filter (untouched actions) es ++ set_entries actions.

(** One round of the loop over the actions. *)
Definition apply_action (a : EnvAction) (es : list E) : list E :=
  List.filter (fun e => negb (matches e (key a))) es ++ match value a with Some v => [entry (key a) v] | None => [] end.

Fixpoint apply_actions (actions : list EnvAction) (es : list E) : list E :=
  match actions with [] => es | a :: actions => apply_actions actions (apply_action a es) end.

Lemma filter_filter {A} (f g : A -> bool) l : List.filter f (List.filter g l) = List.filter (fun x => g x && f x) l.
Proof. induction l as [|x l IH]; [done|]. cbn. destruct (g x); cbn; [destruct (f x); by rewrite IH|done]. Qed.

Lemma filter_all {A} (f : A -> bool) l : (forall x, In x l -> f x = true) -> List.filter f l = l.
Proof. induction l as [|x l IH]; intros Hf; [done|]. cbn. rewrite Hf by (by left). f_equal. apply IH. intros. apply Hf. by right. Qed.

Lemma apply_actions_applied actions es :
  Forall key_ok (names actions) -> distinct (names actions) -> apply_actions actions es = applied actions es.
Proof.
  revert es. induction actions as [|a actions IH]; intros es Hk Hd.
  - unfold applied. cbn. rewrite app_nil_r. symmetry. by apply filter_all.
  - inversion Hk as [|? ? Hka Hk']; subst. destruct Hd as [Ha Hd]. cbn [apply_actions]. rewrite IH by done.
    unfold applied, apply_action. rewrite List.filter_app, filter_filter, <- app_assoc. f_equal. cbn [set_entries omap list_omap].
    destruct (value a) as [v|]; [|done]. cbn [List.filter option_map app].
    assert (untouched actions (entry (key a) v) = true) as ->; [|done]. apply forallb_forall. intros b Hb.
    apply negb_true_iff. apply (in_map key) in Hb. rewrite Forall_forall in Ha, Hk'. rewrite matches_entry by auto. by apply Ha.
Qed.

(** The first entry with a key. *)
Definition entry_of (es : list E) (k : list Z) : option E := List.find (fun e => matches e k) es.

Lemma find_app {A} (f : A -> bool) l l' :
  List.find f (l ++ l') = match List.find f l with Some x => Some x | None => List.find f l' end.
Proof. induction l as [|x l IH]; [done|]. cbn. by destruct (f x). Qed.

Lemma find_none {A} (f : A -> bool) l : (forall x, In x l -> f x = false) -> List.find f l = None.
Proof. induction l as [|x l IH]; intros Hf; [done|]. cbn. rewrite Hf by (by left). apply IH. intros. apply Hf. by right. Qed.

Lemma entry_of_set actions k : Forall key_ok (names actions) -> distinct (names actions) -> key_ok k ->
  entry_of (set_entries actions) k =
  match look k actions with
  | Some (Some v) => match List.find (fun a => same (key a) k) actions with Some a => Some (entry (key a) v) | None => None end
  | _ => None
  end.
Proof.
  intros Hks Hd Hk. induction actions as [|a actions IH]; [done|]. inversion Hks as [|? ? Hka Hks']; subst. destruct Hd as [Ha Hd].
  specialize (IH Hks' Hd). unfold set_entries, entry_of in *. cbn [omap list_omap look List.find].
  destruct (same (key a) k) eqn:Es.
  - assert (look k actions = None) as Hn.
    { apply look_none. rewrite Forall_forall in Ha, Hks' |- *. intros b Hb. rewrite <- (Ha b Hb).
      rewrite (same_sym b k) by auto. symmetry. apply same_cong; auto. }
    destruct (value a) as [v|]; cbn [option_map List.find]; [by rewrite matches_entry, Es by done|]. by rewrite IH, Hn.
  - destruct (value a) as [v|]; cbn [option_map List.find]; [rewrite matches_entry, Es by done|]; exact IH.
Qed.

Lemma find_filter {A} (f g : A -> bool) l : (forall x, In x l -> f x = true -> g x = true) -> List.find f (List.filter g l) = List.find f l.
Proof.
  induction l as [|x l IH]; intros Hf; [done|]. cbn. assert (List.find f (List.filter g l) = List.find f l) as Hl by (apply IH; intros; apply Hf; [by right|done]).
  destruct (f x) eqn:Ef; [rewrite Hf by (by left || done); cbn; by rewrite Ef|]. destruct (g x); cbn; [by rewrite Ef|done].
Qed.

Lemma look_some k actions : look k actions <> None -> exists k', In k' (names actions) /\ same k' k = true.
Proof.
  induction actions as [|a actions IH]; [done|]. cbn. destruct (same (key a) k) eqn:Es; [by eauto|].
  intros (k' & Hk & Hs)%IH. eauto.
Qed.

Context (text : E -> list Z) (value_ok : list Z -> Prop).
Hypothesis text_entry : forall k v, key_ok k -> value_ok v -> text (entry k v) = v.

(** The value that entries give a key. *)
Definition variable (es : list E) : view := fun k => option_map text (entry_of es k).

Definition values_ok (actions : list EnvAction) : Prop :=
  Forall (fun a => match value a with Some v => value_ok v | None => True end) actions.

Lemma variable_applied actions es k :
  Forall key_ok (names actions) -> distinct (names actions) -> values_ok actions -> key_ok k ->
  variable (applied actions es) k = match look k actions with Some v => v | None => variable es k end.
Proof.
  intros Hks Hd Hv Hk. unfold variable, applied, entry_of. rewrite find_app. fold (entry_of (set_entries actions) k).
  rewrite entry_of_set by done. rewrite Forall_forall in Hks. destruct (look k actions) as [v|] eqn:El.
  - destruct (look_some k actions ltac:(congruence)) as (k' & Hin & Hs). rewrite find_none.
    + clear -El Hv text_entry Hks. destruct v as [v|]; [|done]. revert El. induction actions as [|a actions IH]; [done|].
      inversion Hv as [|? ? Hva Hv']; subst. cbn [look List.find]. destruct (same (key a) k) eqn:Es; [|apply IH; first [done | by intros ? ?; apply Hks; right]].
      intros [= Ea]. rewrite Ea in Hva. cbn [option_map]. rewrite text_entry; [done|apply Hks; by left|done].
    + intros e [_ Hu]%List.filter_In. apply not_true_iff_false. intros Hm. unfold untouched in Hu. rewrite forallb_forall in Hu.
      apply in_map_iff in Hin as (a & <- & Ha). specialize (Hu a Ha). apply negb_true_iff in Hu. apply not_true_iff_false in Hu. apply Hu.
      rewrite (matches_same e (key a) k); auto using in_map. apply Hks. by apply in_map.
  - rewrite find_filter; [by destruct (List.find _ es)|]. intros e _ Hm. apply forallb_forall. intros a Ha. apply negb_true_iff, not_true_iff_false.
    intros Hma. apply (in_map key) in Ha. assert (same (key a) k = true) as Hs by (eapply matches_unique; eauto).
    clear -El Ha Hs. induction actions as [|b actions IH]; [done|]. cbn [look] in El. destruct (same (key b) k) eqn:Eb; [done|].
    cbn in Ha. destruct Ha as [Ha|Ha]; [congruence|auto].
Qed.

(** What the builder records is what the entries become. *)
Lemma recorded_applied c es k : record_ok c -> values_ok (env_actions_ c) -> key_ok k ->
  variable (apply_actions (env_actions_ c) (if env_clear_ c then [] else es)) k = recorded c (variable es) k.
Proof.
  intros [Hks Hd] Hv Hk. rewrite apply_actions_applied, variable_applied by done. unfold recorded.
  destruct (look k _); [done|]. by destruct (env_clear_ c).
Qed.
End Entries.

(** Values only come from changes. *)
Section Values.
Context (value_ok : list Z -> Prop).

Definition change_value_ok (ch : change) : Prop := match ch with SetVar _ v => value_ok v | _ => True end.

Lemma set_action_values k v actions r :
  values_ok value_ok actions -> value_ok v -> set_action k v actions = Ret (Some r) -> values_ok value_ok r.
Proof.
  intros Ha Hv. revert r. induction Ha as [|a actions Hva Ha IH]; intros r; [done|]. cbn [set_action].
  destruct (environment_keys_equal (key a) k) as [[]| | |]; try done; cbn [obind].
  - intros [= <-]. by constructor.
  - destruct (set_action k v actions) as [[r'|]| | |]; try done. intros [= <-]. constructor; [done|]. by apply IH.
Qed.

Lemma remove_action_values clear k actions r :
  values_ok value_ok actions -> remove_action clear k actions = Ret (Some r) -> values_ok value_ok r.
Proof.
  intros Ha. revert r. induction Ha as [|a actions Hva Ha IH]; intros r; [done|]. cbn [remove_action].
  destruct (environment_keys_equal (key a) k) as [[]| | |]; try done; cbn [obind].
  - intros [= <-]. destruct clear; [done|by constructor].
  - destruct (remove_action clear k actions) as [[r'|]| | |]; try done. intros [= <-]. constructor; [done|]. by apply IH.
Qed.

Lemma apply_changes_values chs c c' :
  Forall change_value_ok chs -> values_ok value_ok (env_actions_ c) -> apply_changes chs c = Ret c' ->
  values_ok value_ok (env_actions_ c').
Proof.
  intros Hchs. revert c. induction Hchs as [|ch chs Hch _ IH]; intros c Hc; [by intros [= <-]|]. cbn [apply_changes].
  destruct (apply_change ch c) as [c1| | |] eqn:E1; try done. apply IH.
  assert (forall a, values_ok value_ok [a] -> values_ok value_ok (env_actions_ c ++ [a])) as Hsnoc by (intros a Ha; by apply Forall_app).
  destruct ch as [k v|k|]; cbn [apply_change] in E1.
  - unfold env in E1. destruct (set_action k v _) as [[r|]| | |] eqn:E; try done; injection E1 as <-; [by eapply set_action_values|].
    apply Hsnoc. by repeat constructor.
  - unfold env_remove in E1. destruct (remove_action _ k _) as [[r|]| | |] eqn:E; try done; injection E1 as <-; [by eapply remove_action_values|].
    destruct (env_clear_ c); [done|]. apply Hsnoc. by repeat constructor.
  - injection E1 as <-. constructor.
Qed.
End Values.
End Meaning.

(** ** Unix, exactly *)

Section UnixExact.

Definition unix_same (a b : list Z) : bool := bool_decide (a = b).
Definition unix_key_ok (k : list Z) : Prop := valid_environment_key k = true.
Definition unix_value_ok (v : list Z) : Prop := valid_environment_value v = true.
Definition unix_entry (k v : list Z) : list Z := k ++ 61 :: v.

#[local] Instance unix_keys : KeyLaws unix_key_ok unix_same.
Proof.
  unfold unix_same. split.
  - done.
  - intros a _. by apply bool_decide_eq_true.
  - intros a b _ _. apply bool_decide_ext. split; congruence.
  - intros a b c _ _ _ ->%bool_decide_eq_true ->%bool_decide_eq_true. by apply bool_decide_eq_true.
Qed.

Lemma key_loop_all k : key_loop k = true <-> Forall (fun b => b <> 0 /\ b <> 61) k.
Proof.
  induction k as [|b k IH]; cbn; [by split|]. destruct ((b =? 0) || (b =? 61)) eqn:E.
  - split; [done|]. intros Hf. inversion Hf; subst. lia.
  - rewrite IH. split; [intros; constructor; [lia|done]|by inversion 1].
Qed.

Lemma unix_key_all k : unix_key_ok k <-> k <> [] /\ Forall (fun b => b <> 0 /\ b <> 61) k.
Proof.
  unfold unix_key_ok, valid_environment_key. rewrite <- key_loop_all. destruct k; cbn [length Nat.eqb]; [|split; [intros ?; by split|by intros [_ ?]]].
  split; [done|]. by intros [? _].
Qed.

Lemma same_bytes_app entry k : same_bytes entry k = true <-> exists rest, entry = k ++ rest.
Proof.
  revert entry. induction k as [|b k IH]; intros entry; cbn; [split; [intros _; by exists entry|done]|].
  destruct entry as [|e entry]; [split; [done|by intros [? ?]]|]. destruct (Z.eqb_spec e b) as [->|Hne]; cbn [negb].
  - rewrite IH. split; intros [rest Hr]; exists rest; congruence.
  - split; [done|]. intros [rest Hr]. congruence.
Qed.

(** An entry has a key when it is the key, a separator and the value. *)
Lemma matches_form entry k : environment_key_matches entry k = true <-> exists v, entry = unix_entry k v.
Proof.
  unfold environment_key_matches, unix_entry. split.
  - case_if; [done|]. apply orb_false_iff in Heqb as [Hl Hs]. apply Nat.leb_gt in Hl. intros [rest ->]%same_bytes_app.
    rewrite length_app in Hl. rewrite lookup_app_r, Nat.sub_diag in Hs by lia. destruct rest as [|b rest]; [cbn in Hl; lia|].
    cbn in Hs. exists rest. by replace b with 61 by lia.
  - intros [v ->]. rewrite length_app. cbn [length]. replace (_ <=? _)%nat with false by (symmetry; apply Nat.leb_gt; lia).
    rewrite list_lookup_middle by done. cbn. apply same_bytes_app. by eexists.
Qed.

Lemma split_once_entry k v : Forall (fun b => b <> 0 /\ b <> 61) k -> split_once (unix_entry k v) 61 = Some (k, v).
Proof.
  unfold unix_entry. induction 1 as [|b k [_ Hb] _ IH]; [done|]. cbn. replace (b =? 61) with false by lia. by rewrite IH.
Qed.

Lemma split_once_form e k v : split_once e 61 = Some (k, v) -> e = unix_entry k v.
Proof.
  revert k. induction e as [|b e IH]; intros k; [done|]. cbn. destruct (Z.eqb_spec b 61) as [->|Hb]; [by intros [= <- <-]|].
  destruct (split_once e 61) as [[before after]|]; [|done]. cbn. intros [= <- <-]. unfold unix_entry. cbn. f_equal. by apply IH.
Qed.

Lemma matches_split e k : unix_key_ok k ->
  environment_key_matches e k = match split_once e 61 with Some (k', _) => bool_decide (k' = k) | None => false end.
Proof.
  intros [_ Hk]%unix_key_all. apply eq_true_iff_eq. rewrite matches_form. split.
  - intros [v ->]. rewrite split_once_entry by done. by apply bool_decide_eq_true.
  - destruct (split_once e 61) as [[k' v]|] eqn:Es; [|done]. intros ->%bool_decide_eq_true. exists v. by apply split_once_form.
Qed.

#[local] Instance unix_entries : EntryLaws unix_key_ok unix_same environment_key_matches unix_entry.
Proof.
  split.
  - intros k v k' [_ Hk]%unix_key_all Hk'. rewrite matches_split by done. by rewrite split_once_entry.
  - by intros e k k' _ _ ->%bool_decide_eq_true.
  - intros e k k' Hk Hk'. rewrite !matches_split by done. destruct (split_once e 61) as [[k0 v]|]; [|done].
    intros ->%bool_decide_eq_true ->%bool_decide_eq_true. by apply bool_decide_eq_true.
Qed.

Lemma remove_loop_filter {A} (f : A -> bool) i l : (i <= length l)%nat ->
  remove_loop f i l = List.filter (fun e => negb (f e)) (take i l) ++ drop i l.
Proof.
  revert l. induction i as [|i IH]; intros l Hi; [by rewrite drop_0|]. cbn [remove_loop].
  destruct (lookup_lt_is_Some_2 l i Hi) as [e He]. rewrite He. rewrite (take_S_r _ _ _ He), List.filter_app. cbn [List.filter].
  destruct (f e); cbn [negb].
  - rewrite IH by (rewrite length_delete by (by eexists); lia). rewrite app_nil_r, delete_take_drop.
    by rewrite take_app_length', drop_app_length' by (rewrite length_take; lia).
  - rewrite IH by lia. rewrite <- app_assoc. by rewrite (drop_S _ _ _ He).
Qed.

Lemma remove_loop_all {A} (f : A -> bool) l : remove_loop f (length l) l = List.filter (fun e => negb (f e)) l.
Proof. rewrite remove_loop_filter by done. by rewrite take_ge, drop_ge, app_nil_r by lia. Qed.

Definition action_ok (a : EnvAction) : bool :=
  valid_environment_key (key a) && match value a with Some v => valid_environment_value v | None => true end.

Lemma c_string_app a b : c_string (a ++ b) = c_string a && c_string b.
Proof. induction a as [|x a IH]; [done|]. cbn. by destruct (x =? 0). Qed.

Lemma c_string_valid v : c_string v = valid_environment_value v.
Proof. induction v as [|x v IH]; [done|]. cbn. by rewrite IH. Qed.

Lemma c_string_key k : unix_key_ok k -> c_string k = true.
Proof.
  intros [_ Hk]%unix_key_all. induction Hk as [|b k [Hb _] _ IH]; [done|]. cbn. by replace (b =? 0) with false by lia.
Qed.

(** The loop is the specification, as long as the actions are valid. *)
Lemma unix_actions_exact actions es :
  unix_actions_loop actions es =
  if forallb action_ok actions then Ret (apply_actions (matches := environment_key_matches) (entry := unix_entry) actions es)
  else Fail InvalidInput.
Proof.
  revert es. induction actions as [|a actions IH]; intros es; [done|]. cbn [unix_actions_loop forallb apply_actions]. unfold action_ok at 1.
  destruct (valid_environment_key (key a)) eqn:Hk; [|done]. cbn [negb orb andb]. rewrite remove_loop_all. unfold apply_action.
  destruct (value a) as [v|]; [|rewrite IH, app_nil_r; done]. destruct (valid_environment_value v) eqn:Hv; [|done]. cbn [negb].
  unfold environment_entry. rewrite !c_string_app, (c_string_key (key a)), (c_string_valid v), Hv by done. cbn [c_string Z.eqb andb obind]. by rewrite IH.
Qed.

(** What a program reads of its environment. *)
Definition view_of (same : list Z -> list Z -> bool) (vars : list (list Z * list Z)) : view :=
  fun k => option_map snd (List.find (fun p => same (fst p) k) vars).

Definition unix_text (e : list Z) : list Z := match split_once e 61 with Some (_, v) => v | None => [] end.

Lemma vars_os_variable es k : unix_key_ok k ->
  view_of unix_same (unix_vars_os es) k = variable (matches := environment_key_matches) unix_text es k.
Proof.
  intros Hk. unfold view_of, variable, entry_of, unix_vars_os. pose proof Hk as [Hne _]%unix_key_all.
  induction es as [|e es IH]; [done|]. cbn [omap list_omap List.find]. rewrite matches_split by done. unfold unix_text.
  destruct (split_once e 61) as [[k' v]|] eqn:Es; cbn [mbind option_bind fst]; [|exact IH].
  destruct (length k' =? 0)%nat eqn:El.
  - destruct k'; [|done]. rewrite bool_decide_eq_false_2 by congruence. exact IH.
  - cbn [List.find fst]. unfold unix_same at 1. case_bool_decide; [|exact IH]. cbn. by rewrite Es.
Qed.

Definition unix_change_ok (ch : change) : Prop :=
  match ch with
  | SetVar k v => unix_key_ok k /\ unix_value_ok v
  | RemoveVar k => unix_key_ok k
  | ClearAll => True
  end.

Lemma unix_text_entry k v : unix_key_ok k -> unix_value_ok v -> unix_text (unix_entry k v) = v.
Proof. intros [_ Hk]%unix_key_all _. unfold unix_text. by rewrite split_once_entry. Qed.

Lemma sublist_filter {A} (f : A -> bool) l : sublist (List.filter f l) l.
Proof. induction l as [|x l IH]; [constructor|]. cbn. destruct (f x); by constructor. Qed.

Lemma set_keys_nodup actions : distinct (same := unix_same) (names actions) ->
  NoDup (map fst (omap (fun a => option_map (pair (key a)) (value a)) actions)).
Proof.
  intros Hd. induction actions as [|a actions IH]; [constructor|]. destruct Hd as [Ha Hd]. cbn.
  destruct (value a); cbn; [|by apply IH]. constructor; [|by apply IH]. intros Hin. rewrite list_elem_of_In in Hin.
  apply in_map_iff in Hin as ([k' v'] & Hk & Hin). cbn in Hk. subst k'. rewrite <- list_elem_of_In, list_elem_of_omap in Hin.
  destruct Hin as (b & Hb & E). destruct (value b); [|done]. injection E as E _. rewrite list_elem_of_In in Hb.
  rewrite Forall_forall in Ha. specialize (Ha _ (in_map key _ _ Hb)). unfold unix_same in Ha. rewrite E in Ha.
  by apply bool_decide_eq_false in Ha.
Qed.

(** C27: On Unix a child gets the environment its [Command] describes.  Whatever
    sequence of [env], [env_remove] and [env_clear] with valid keys and values
    is called, the child is given an environment in which every variable has
    the value that the calls, made one after the other on the variables of the
    parent, leave it; entries of the parent that are kept stay in their order,
    and no variable is set twice. *)
Theorem unix_environment_exact changes environ :
  Forall unix_change_ok changes ->
  exists c child, apply_changes changes make = Ret c /\
    unix_child_environment (env_clear_ c) (env_actions_ c) environ = Ret child /\
    (forall k, unix_key_ok k ->
       view_of unix_same (unix_vars_os child) k = view_after (same := unix_same) changes (view_of unix_same (unix_vars_os environ)) k) /\
    exists kept set, child = kept ++ map (fun '(k, v) => k ++ [61] ++ v) set /\ sublist kept environ /\ NoDup (map fst set).
Proof.
  intros Hchs.
  destruct (apply_changes_spec changes make record_ok_make) as (c & Ec & Hc & Hv).
  { eapply List.Forall_impl; [|exact Hchs]. by intros [] ?; cbn in *; intuition. }
  assert (values_ok unix_value_ok (env_actions_ c)) as Hvalues.
  { apply (apply_changes_values unix_value_ok changes make c); [|constructor|done].
    eapply List.Forall_impl; [|exact Hchs]. by intros [] ?; cbn in *; intuition. }
  pose proof Hc as [Hks Hd]. exists c. unfold unix_child_environment. rewrite unix_actions_exact.
  assert (forallb action_ok (env_actions_ c) = true) as ->.
  { apply forallb_forall. intros a Ha. unfold names in Hks. rewrite Forall_forall in Hks. specialize (Hks (key a) (in_map key _ _ Ha)).
    unfold values_ok in Hvalues. rewrite Forall_forall in Hvalues. specialize (Hvalues a Ha). unfold action_ok.
    unfold unix_key_ok, unix_value_ok in *. rewrite Hks. by destruct (value a). }
  eexists. split; [done|]. split; [done|]. split.
  - intros k Hk. rewrite vars_os_variable by done.
    rewrite (recorded_applied unix_text unix_value_ok unix_text_entry) by done. rewrite (Hv _ k Hk).
    assert (same_view (key_ok := unix_key_ok) (recorded (same := unix_same) make (variable (matches := environment_key_matches) unix_text environ))
      (view_of unix_same (unix_vars_os environ))) as Hsame by (intros k' Hk'; symmetry; by apply vars_os_variable).
    exact (view_after_proper changes _ _ Hsame k Hk).
  - rewrite apply_actions_applied by done. unfold applied. eexists (List.filter _ _), (omap (fun a => option_map (pair (key a)) (value a)) (env_actions_ c)).
    split; [f_equal|split; [|by apply set_keys_nodup]].
    + clear. unfold set_entries. induction (env_actions_ c) as [|a actions IH]; [done|]. cbn. destruct (value a); cbn; [f_equal; exact IH|exact IH].
    + etransitivity; [apply sublist_filter|]. destruct (env_clear_ c); [apply sublist_nil_l|done].
Qed.

(** [A=1] is set twice and removed, [B] is set over the parent's. *)
Lemma unix_environment_exact_witness :
  let changes := [SetVar [65] [49]; SetVar [66] [50]; RemoveVar [65]] in
  let environ := [[66; 61; 48]; [65; 61]; [67; 61; 61]] in
  Forall unix_change_ok changes /\
  exists c child, apply_changes (H := unix_environment_keys_equal) changes make = Ret c /\
    unix_child_environment (env_clear_ c) (env_actions_ c) environ = Ret child /\
    view_of unix_same (unix_vars_os child) [65] = None.
Proof.
  assert (Forall unix_change_ok [SetVar [65] [49]; SetVar [66] [50]; RemoveVar [65]]) as H
    by (repeat constructor).
  split; [exact H|].
  destruct (unix_environment_exact _ [[66; 61; 48]; [65; 61]; [67; 61; 61]] H) as (c & child & E1 & E2 & Hv & _).
  exists c, child. split; [exact E1|]. split; [exact E2|]. rewrite Hv by reflexivity. reflexivity.
Defined.

Example unix_environment_example :
  unix_child_environment false [mkEnvAction [65] None; mkEnvAction [66] (Some [50])] [[66; 61; 48]; [65; 61]; [67; 61; 61]] =
  Ret [[67; 61; 61]; [66; 61; 50]].
Proof. reflexivity. Qed.

End UnixExact.

(** ** Windows, exactly *)

(** What the documentation of [CompareStringOrdinal] says of it, with the case
    ignored: it fails on an empty text only; to be equal is an equivalence, of
    texts of the same length, as each unit is compared with one unit. *)
Class OrdinalLaws (compare : list Z -> list Z -> Z) := {
  ordinal_succeeds a b : a <> [] -> b <> [] -> compare a b <> 0;
  ordinal_refl a : a <> [] -> compare a a = 2;
  ordinal_sym a b : compare a b = 2 -> compare b a = 2;
  ordinal_trans a b c : compare a b = 2 -> compare b c = 2 -> compare a c = 2;
  ordinal_length a b : compare a b = 2 -> length a = length b
}.

Section WindowsExact.
Context (compare : list Z -> list Z -> Z) `{!OrdinalLaws compare}.

#[local] Instance windows_comparison : KeyComparison := windows_environment_keys_equal compare.

(** The units of a text without a zero. *)
Definition wide_of (b : list Z) : list Z := match to_wide b false with Ret w => w | _ => [] end.

Definition windows_key_ok (k : list Z) : Prop :=
  exists w, k = from_wide w /\ wide_ok w /\ w <> [] /\ Forall (fun v => v <> 0 /\ v <> 61) w.
Definition windows_value_ok (v : list Z) : Prop := exists w, v = from_wide w /\ wide_ok w /\ has_zero w = false.
Definition windows_same (a b : list Z) : bool := compare (wide_of a) (wide_of b) =? M_CSTR_EQUAL.
Definition windows_entry (k v : list Z) : WideEnvironmentEntry :=
  mkEntry (wide_of k ++ [61] ++ wide_of v) (length (wide_of k)).
Definition windows_matches (e : WideEnvironmentEntry) (k : list Z) : bool := same_environment_key compare e (wide_of k).

Lemma wide_of_from_wide w : wide_ok w -> has_zero w = false -> to_wide (from_wide w) false = Ret w.
Proof. intros Hw Hz. by rewrite to_wide_from_wide, Hz, app_nil_r. Qed.

Lemma no_zero w : Forall (fun v => v <> 0 /\ v <> 61) w -> has_zero w = false.
Proof. unfold has_zero. induction 1 as [|v w [Hv _] _ IH]; [done|]. cbn [existsb]. rewrite IH. by replace (0 =? v) with false by lia. Qed.

(** A key, its units and its bytes. *)
Lemma windows_key_wide k : windows_key_ok k ->
  exists w, k = from_wide w /\ wide_ok w /\ w <> [] /\ Forall (fun v => v <> 0 /\ v <> 61) w /\
    to_wide k false = Ret w /\ wide_of k = w.
Proof.
  intros (w & -> & Hw & Hne & Hf). pose proof (wide_of_from_wide w Hw (no_zero w Hf)) as E.
  exists w. split_and!; try done. unfold wide_of. by rewrite E.
Qed.

Lemma windows_value_wide v : windows_value_ok v -> to_wide v false = Ret (wide_of v) /\ from_wide (wide_of v) = v.
Proof. intros (w & -> & Hw & Hz). pose proof (wide_of_from_wide w Hw Hz) as E. unfold wide_of. by rewrite E. Qed.

(** [wide] is [to_wide], which looks for zeros besides. *)
Lemma wide_loop_to_wide fuel u out r : to_wide_loop fuel u out = Ret r -> wide_loop fuel u out = Ret r.
Proof.
  revert u out. induction fuel as [|fuel IH]; intros u out; [done|]. cbn. destruct (next u) as [[[v|] u']| | |]; try done. cbn.
  destruct (v =? 0); [done|]. apply IH.
Qed.

Lemma wide_to_wide b w : to_wide b false = Ret w -> wide b = Ret w.
Proof.
  unfold to_wide, wide. destruct (to_wide_loop _ _ _) as [r| | |] eqn:E; try done. intros [= <-]. by apply wide_loop_to_wide.
Qed.

#[local] Instance windows_keys : KeyLaws windows_key_ok windows_same.
Proof.
  unfold windows_same, M_CSTR_EQUAL. split.
  - intros a b (u & _ & _ & Hu & _ & Ea & Wa)%windows_key_wide (w & _ & _ & Hw & _ & Eb & Wb)%windows_key_wide.
    change (windows_environment_keys_equal compare a b = Ret (compare (wide_of a) (wide_of b) =? 2)).
    unfold windows_environment_keys_equal, M_CSTR_EQUAL.
    rewrite (wide_to_wide a u Ea), (wide_to_wide b w Eb), Wa, Wb. cbn [obind].
    pose proof (ordinal_succeeds u w Hu Hw). destruct u; [done|]. destruct w; [done|]. cbn [length Nat.eqb orb].
    by replace (_ =? 0) with false by lia.
  - intros a (u & _ & _ & Hu & _ & _ & ->)%windows_key_wide. by rewrite ordinal_refl.
  - intros a b _ _. apply eq_true_iff_eq. rewrite !Z.eqb_eq. split; apply ordinal_sym.
  - intros a b c _ _ _. rewrite !Z.eqb_eq. apply ordinal_trans.
Qed.

Lemma matches_compare e k : windows_key_ok k ->
  windows_matches e k = (compare (take (key_length e) (entry_value e)) (wide_of k) =? 2) && (key_length e =? length (wide_of k))%nat.
Proof. intros _. unfold windows_matches, same_environment_key. destruct (_ =? _)%nat; cbn; by rewrite ?andb_true_r, ?andb_false_r. Qed.

#[local] Instance windows_entries : EntryLaws windows_key_ok windows_same windows_matches windows_entry.
Proof.
  unfold windows_same, M_CSTR_EQUAL. split.
  - intros k v k' Hk Hk'. rewrite matches_compare by done. cbn [key_length entry_value windows_entry].
    rewrite take_app_length. destruct (compare _ _ =? 2) eqn:E; [|done]. cbn. apply Nat.eqb_eq, ordinal_length. by apply Z.eqb_eq.
  - intros e k k' Hk Hk' E%Z.eqb_eq. rewrite !matches_compare by done. rewrite (ordinal_length _ _ E). f_equal.
    apply eq_true_iff_eq. rewrite !Z.eqb_eq. split; intros ?; (eapply ordinal_trans; [eassumption|]); [done|by apply ordinal_sym].
  - intros e k k' Hk Hk'. rewrite !matches_compare by done. intros [E _]%andb_true_iff [E' _]%andb_true_iff.
    apply Z.eqb_eq in E, E'. apply Z.eqb_eq. eapply ordinal_trans; [apply ordinal_sym|]; eassumption.
Qed.

(** *** Blocks *)

(** An entry of a block: a name, which may begin with a separator and contains
    no other, a separator and the value. *)
Definition entry_form (p name v : list Z) : Prop :=
  p = name ++ 61 :: v /\ name <> [] /\ Forall (fun x => x <> 61) (drop 1 name) /\ wide_ok p /\ has_zero p = false.
Definition value_good (p : list Z) : Prop := exists name v, entry_form p name v.

Lemma separator_loop_app i a v : Forall (fun x => x <> 61) a -> separator_loop i (a ++ 61 :: v) = (i + length a)%nat.
Proof.
  intros Ha. revert i. induction Ha as [|x a Hx _ IH]; intros i; [by rewrite Nat.add_0_r|]. cbn.
  replace (x =? 61) with false by lia. rewrite IH. lia.
Qed.

(** Both searches for the separator find it behind the name. *)
Lemma separator_found p name v : entry_form p name v ->
  separator_loop 1 (drop 1 p) = length name /\ environment_key_length p = length name.
Proof.
  intros (-> & Hne & Hf & _). destruct name as [|x name]; [done|]. cbn [drop] in Hf.
  assert (separator_loop 1 (name ++ 61 :: v) = S (length name)) as E by (by rewrite separator_loop_app).
  split; [exact E|]. unfold environment_key_length. cbn [app]. destruct (x =? 61) eqn:Ex; [exact E|].
  cbn [drop separator_loop]. by rewrite Ex.
Qed.

Definition block_text (ps : list (list Z)) : list Z := concat (map (fun p => p ++ [0]) ps).

Lemma entry_at_text p rest : has_zero p = false -> entry_at (p ++ 0 :: rest) = Ret (p, rest).
Proof.
  induction p as [|x p IH]; [done|]. intros Hz. unfold has_zero in Hz. cbn [existsb] in Hz. apply orb_false_iff in Hz as [Hx Hz].
  cbn [app entry_at]. replace (x =? 0) with false by lia. by rewrite IH.
Qed.

Lemma block_text_cons p ps rest : block_text (p :: ps) ++ rest = p ++ 0 :: (block_text ps ++ rest).
Proof. unfold block_text. cbn [map concat]. by rewrite <- !app_assoc. Qed.

Lemma block_loop_text ps rest fuel :
  Forall value_good ps -> (length (block_text ps) < fuel)%nat -> block_loop fuel (block_text ps ++ 0 :: rest) = Ret ps.
Proof.
  intros Hps. revert fuel. induction Hps as [|p ps (name & v & Hf) _ IH]; intros fuel Hl; (destruct fuel as [|fuel]; [lia|]); [done|].
  rewrite <- (app_nil_r (block_text (p :: ps))), block_text_cons, app_nil_r, length_app in Hl. cbn [length] in Hl.
  destruct Hf as (Ep & Hne & _ & _ & Hz). rewrite block_text_cons. cbn [block_loop].
  destruct p as [|x p]; [by destruct name|]. rewrite entry_at_text by done. cbn [app index lookup list_lookup obind fst snd].
  unfold has_zero in Hz. cbn [existsb] in Hz. replace (x =? 0) with false by lia. by rewrite IH by lia.
Qed.

Lemma block_entries_text ps rest : Forall value_good ps -> block_entries (block_text ps ++ 0 :: rest) = Ret ps.
Proof. intros Hps. apply block_loop_text; [done|]. rewrite length_app. lia. Qed.

(** The variables of a block. *)
Definition variables (ps : list (list Z)) : list (list Z * list Z) :=
  map (fun p => (from_wide (take (environment_key_length p) p), from_wide (drop (environment_key_length p + 1) p))) ps.

Lemma vars_os_text ps rest : Forall value_good ps -> windows_vars_os (Some (block_text ps ++ 0 :: rest)) = Ret (variables ps).
Proof.
  intros Hps. unfold windows_vars_os. rewrite block_entries_text by done. cbn [obind]. f_equal. unfold variables.
  induction Hps as [|p ps (name & v & Hf) _ IH]; [done|]. cbn [omap list_omap map]. destruct (separator_found p name v Hf) as [-> ->].
  destruct Hf as (-> & _). replace (_ <? _)%nat with true by (symmetry; apply Nat.ltb_lt; rewrite length_app; cbn; lia). by rewrite IH.
Qed.

(** Entries as [child_environment] keeps them. *)
Definition entry_good (e : WideEnvironmentEntry) : Prop :=
  value_good (entry_value e) /\ key_length e = environment_key_length (entry_value e).
Definition windows_text (e : WideEnvironmentEntry) : list Z := from_wide (drop (key_length e + 1) (entry_value e)).

Lemma windows_entry_good k v : windows_key_ok k -> windows_value_ok v -> entry_good (windows_entry k v).
Proof.
  intros (w & -> & Hw & Hne & Hf & E & Ew)%windows_key_wide (u & -> & Hu & Hz).
  assert (entry_form (w ++ 61 :: u) w u) as Hform.
  { split_and!; [done|done| | |].
    - apply List.Forall_forall. intros x Hx. rewrite List.Forall_forall in Hf. destruct w as [|y w]; [done|]. by apply Hf; right.
    - apply Forall_app. split; [done|]. by constructor.
    - unfold has_zero. rewrite existsb_app. cbn [existsb]. rewrite (no_zero w Hf : existsb _ _ = _). exact Hz. }
  unfold windows_entry, entry_good. cbn [entry_value key_length]. rewrite Ew. unfold wide_of. rewrite wide_of_from_wide by done.
  split; [by exists w, u|]. symmetry. by apply (separator_found _ w u).
Qed.

Lemma windows_text_entry k v : windows_key_ok k -> windows_value_ok v -> windows_text (windows_entry k v) = v.
Proof.
  intros _ (_ & Hv)%windows_value_wide. unfold windows_text. cbn [key_length entry_value windows_entry].
  rewrite app_assoc, drop_app_length' by (rewrite length_app; cbn; lia). exact Hv.
Qed.

Lemma variables_variable es k : Forall entry_good es -> windows_key_ok k ->
  view_of windows_same (variables (map entry_value es)) k = variable (matches := windows_matches) windows_text es k.
Proof.
  intros Hes Hk. unfold view_of, variable, entry_of, variables. induction Hes as [|e es [Hv Hl] _ IH]; [done|].
  cbn [map List.find fst]. rewrite matches_compare by done. rewrite Hl. destruct Hv as (name & v & Hf).
  destruct (separator_found _ name v Hf) as [_ El]. rewrite El. destruct Hf as (Ep & _ & _ & Hw & Hz). rewrite Ep, take_app_length in *.
  assert (wide_of (from_wide name) = name) as Ewide.
  { unfold wide_of. unfold has_zero in Hz. rewrite existsb_app in Hz. apply orb_false_iff in Hz as [Hz _]. apply Forall_app in Hw as [Hw _].
    by rewrite wide_of_from_wide. }
  unfold windows_same at 1. rewrite Ewide. unfold M_CSTR_EQUAL.
  destruct (compare name (wide_of k) =? 2) eqn:Ec.
  - replace (length name =? length (wide_of k))%nat with true by (symmetry; by apply Nat.eqb_eq, ordinal_length, Z.eqb_eq).
    cbn [andb option_map snd]. unfold windows_text. by rewrite Hl, El, Ep.
  - exact IH.
Qed.

Lemma from_wide_nonempty w : wide_ok w -> w <> [] -> (length (from_wide w) =? 0)%nat = false.
Proof.
  intros Hw Hne. apply Nat.eqb_neq. intros Hl. rewrite from_wide_points in Hl. apply encoded_all_nil in Hl; [|by apply points_code].
  destruct w as [|x w]; [done|]. destruct (points_cons x w) as (c & cs & E & _). congruence.
Qed.

(** No byte of a key is a zero or a separator. *)
Lemma encoding_bytes c bs : encoding c bs -> c <> 0 -> c <> 61 -> Forall (fun b => b <> 0 /\ b <> 61) bs.
Proof. intros []; intros; repeat constructor; lia. Qed.

Lemma key_bytes_wide w : wide_ok w -> Forall (fun v => v <> 0 /\ v <> 61) w -> key_bytes_ok (from_wide w) = true.
Proof.
  intros Hw Hf. rewrite from_wide_points. unfold key_bytes_ok. apply forallb_forall.
  assert (Forall (fun c => c <> 0 /\ c <> 61) (points w)) as Hp.
  { clear Hw. induction w as [|v|v v' w IH IH'] using wide_ind; [constructor|by constructor; inversion Hf|].
    inversion Hf as [|? ? Hv Hf']; subst. inversion Hf'; subst. rewrite points_pair. destruct (is_lead v && is_trail v') eqn:E; constructor; auto.
    apply andb_true_iff in E as [El Et]. pose proof (pair_range v v' El Et). lia. }
  pose proof (points_code w Hw) as Hc. induction Hp as [|c cs [H0 H61] _ IH]; [done|]. inversion Hc; subst.
  intros b. rewrite encoded_all_cons. intros [Hb|Hb]%in_app_or; [|by apply IH].
  pose proof (encoding_bytes c _ (encoded_encoding c ltac:(done)) H0 H61) as Hbs. rewrite List.Forall_forall in Hbs.
  specialize (Hbs b Hb). lia.
Qed.

(** The loop is the specification. *)
Lemma windows_actions_exact actions es :
  Forall windows_key_ok (names actions) -> values_ok windows_value_ok actions ->
  windows_actions_loop compare actions es =
  Ret (apply_actions (matches := windows_matches) (entry := windows_entry) actions es).
Proof.
  intros Hk Hv. revert es. induction actions as [|a actions IH]; intros es; [done|].
  inversion Hk as [|? ? Hka Hk']; subst. inversion Hv as [|? ? Hva Hv']; subst. cbn [windows_actions_loop apply_actions].
  destruct (windows_key_wide _ Hka) as (w & Ek & Hw & Hne & Hf & E & Ew). 
  assert ((length (key a) =? 0)%nat = false) as -> by (rewrite Ek; by apply from_wide_nonempty).
  assert (key_bytes_ok (key a) = true) as -> by (rewrite Ek; by apply key_bytes_wide).
  cbn [negb]. rewrite E. cbn [obind]. rewrite remove_loop_all. unfold apply_action.
  replace (List.filter (fun e => negb (same_environment_key compare e w)) es) with
    (List.filter (fun e => negb (windows_matches e (key a))) es) by (unfold windows_matches; by rewrite Ew).
  destruct (value a) as [v|]; [|rewrite app_nil_r; by apply IH].
  destruct (windows_value_wide v Hva) as [-> _]. cbn [obind]. rewrite IH by done. unfold windows_entry. by rewrite Ew.
Qed.

Lemma apply_actions_good actions es :
  Forall windows_key_ok (names actions) -> values_ok windows_value_ok actions -> Forall entry_good es ->
  Forall entry_good (apply_actions (matches := windows_matches) (entry := windows_entry) actions es).
Proof.
  intros Hk Hv. revert es. induction actions as [|a actions IH]; intros es Hes; [done|].
  inversion Hk as [|? ? Hka Hk']; subst. inversion Hv as [|? ? Hva Hv']; subst. cbn [apply_actions]. apply IH; [done..|].
  unfold apply_action. apply Forall_app. split; [eapply sublist_Forall; [apply sublist_filter|done]|].
  destruct (value a) as [v|]; [|constructor]. constructor; [by apply windows_entry_good|constructor].
Qed.

Definition windows_change_ok (ch : change) : Prop :=
  match ch with
  | SetVar k v => windows_key_ok k /\ windows_value_ok v
  | RemoveVar k => windows_key_ok k
  | ClearAll => True
  end.

(** C28: On Windows a child gets the environment its [Command] describes.  The
    block of units made for it, read by the child with [vars_os], gives every
    variable the value that the calls leave it, keys being compared without
    regard to case; this holds for every comparison with the properties that
    the documentation of [CompareStringOrdinal] states. *)
Theorem windows_environment_exact changes ps rest :
  Forall windows_change_ok changes -> Forall value_good ps ->
  exists c block vars, apply_changes changes make = Ret c /\
    windows_child_environment compare (env_clear_ c) (env_actions_ c) (Some (block_text ps ++ 0 :: rest)) = Ret block /\
    windows_vars_os (Some block) = Ret vars /\
    forall k, windows_key_ok k ->
      view_of windows_same vars k = view_after (same := windows_same) changes (view_of windows_same (variables ps)) k.
Proof.
  intros Hchs Hps.
  destruct (apply_changes_spec changes make record_ok_make) as (c & Ec & Hc & Hv).
  { eapply List.Forall_impl; [|exact Hchs]. by intros [] ?; cbn in *; intuition. }
  assert (values_ok windows_value_ok (env_actions_ c)) as Hvalues.
  { apply (apply_changes_values windows_value_ok changes make c); [|constructor|done].
    eapply List.Forall_impl; [|exact Hchs]. by intros [] ?; cbn in *; intuition. }
  pose proof Hc as [Hks Hd].
  set (parent := map (fun v => mkEntry v (environment_key_length v)) ps).
  assert (Forall entry_good parent) as Hparent.
  { unfold parent. induction Hps; cbn; constructor; done. }
  set (es := apply_actions (matches := windows_matches) (entry := windows_entry) (env_actions_ c) (if env_clear_ c then [] else parent)).
  assert (Forall entry_good es) as Hes by (apply apply_actions_good; [done..|by destruct (env_clear_ c)]).
  exists c, (block_of es), (variables (map entry_value es)). split; [done|]. split; [|split].
  - unfold windows_child_environment. destruct (env_clear_ c); cbn [obind]; [|rewrite block_entries_text by done; cbn [obind]];
      by rewrite windows_actions_exact by done.
  - assert (Forall value_good (map entry_value es)) as Hvs by (clear -Hes; induction Hes as [|e es [? _]]; constructor; done).
    unfold block_of. rewrite <- (vars_os_text (map entry_value es) (if (length es =? 0)%nat then [0] else []) Hvs).
    unfold block_text. by rewrite map_map.
  - intros k Hk. rewrite variables_variable by done. unfold es.
    rewrite (recorded_applied windows_text windows_value_ok windows_text_entry) by done. rewrite (Hv _ k Hk).
    assert (same_view (key_ok := windows_key_ok)
      (recorded (same := windows_same) make (variable (matches := windows_matches) windows_text parent))
      (view_of windows_same (variables ps))) as Hsame.
    { intros k' Hk'. rewrite <- (map_id ps) at 1. unfold recorded. cbn [look make env_actions_ env_clear_].
      rewrite <- variables_variable by done. unfold parent. rewrite map_map. cbn. by rewrite map_id. }
    exact (view_after_proper changes _ _ Hsame k Hk).
Qed.

End WindowsExact.

(** A comparison for which the laws hold: the case of letters is ignored. *)
Definition fold_case (v : Z) : Z := if (97 <=? v) && (v <=? 122) then v - 32 else v.

Definition ascii_compare (a b : list Z) : Z :=
  if (length a =? 0)%nat || (length b =? 0)%nat then 0
  else if bool_decide (map fold_case a = map fold_case b) then 2 else 1.

Lemma ascii_compare_equal a b : ascii_compare a b = 2 <-> a <> [] /\ b <> [] /\ map fold_case a = map fold_case b.
Proof.
  unfold ascii_compare. destruct a as [|x a]; [split; [done|by intros [? _]]|]. destruct b as [|y b]; [split; [done|by intros (_ & ? & _)]|].
  cbn [length Nat.eqb orb]. case_bool_decide; [|split; [done|by intros (_ & _ & ?)]]. split; [intros _; by split_and!|done].
Qed.

#[export] Instance ascii_ordinal : OrdinalLaws ascii_compare.
Proof.
  split.
  - intros [|x a] [|y b] Ha Hb; try done. unfold ascii_compare. cbn [length Nat.eqb orb]. by case_bool_decide.
  - intros a Ha. by apply ascii_compare_equal.
  - intros a b (Ha & Hb & E)%ascii_compare_equal. by apply ascii_compare_equal.
  - intros a b c (Ha & Hb & E)%ascii_compare_equal (_ & Hc & E')%ascii_compare_equal. apply ascii_compare_equal. split_and!; congruence.
  - intros a b (_ & _ & E)%ascii_compare_equal. apply (f_equal length) in E. by rewrite !length_map in E.
Qed.

(** [PATH] of the parent is set as [Path]; the entry of a drive is kept. *)
Lemma windows_environment_exact_witness :
  let changes := [SetVar [80; 97; 116; 104] [49]; SetVar [65] [50]; RemoveVar [97]] in
  let ps := [[61; 67; 58; 61; 48]; [80; 65; 84; 72; 61; 48]] in
  Forall windows_change_ok changes /\ Forall value_good ps /\
  exists c block vars, apply_changes (H := windows_environment_keys_equal ascii_compare) changes make = Ret c /\
    windows_child_environment ascii_compare (env_clear_ c) (env_actions_ c) (Some (block_text ps ++ [0; 7])) = Ret block /\
    windows_vars_os (Some block) = Ret vars /\
    view_of (windows_same ascii_compare) vars [80; 65; 116; 72] = Some [49] /\
    view_of (windows_same ascii_compare) vars [65] = None.
Proof.
  assert (forall w, wide_ok w -> w <> [] -> Forall (fun v => v <> 0 /\ v <> 61) w -> from_wide w = w -> windows_key_ok w) as Hkey
    by (intros w H1 H2 H3 E; exists w; split; [symmetry; exact E|split; [exact H1|split; [exact H2|exact H3]]]).
  assert (forall w, wide_ok w -> has_zero w = false -> from_wide w = w -> windows_value_ok w) as Hvalue
    by (intros w H1 H2 E; exists w; split; [symmetry; exact E|split; [exact H1|exact H2]]).
  assert (windows_key_ok [80; 97; 116; 104] /\ windows_key_ok [65] /\ windows_key_ok [97] /\ windows_key_ok [80; 65; 116; 72]) as (K1 & K2 & K3 & K4)
    by (repeat split; apply Hkey; try discriminate; try reflexivity; repeat (apply List.Forall_cons; [lia|]); apply List.Forall_nil).
  assert (windows_value_ok [49] /\ windows_value_ok [50]) as (V1 & V2)
    by (repeat split; apply Hvalue; try reflexivity; repeat (apply List.Forall_cons; [lia|]); apply List.Forall_nil).
  assert (Forall windows_change_ok [SetVar [80; 97; 116; 104] [49]; SetVar [65] [50]; RemoveVar [97]]) as H
    by (repeat (apply List.Forall_cons; [cbn; auto|]); apply List.Forall_nil).
  assert (Forall value_good [[61; 67; 58; 61; 48]; [80; 65; 84; 72; 61; 48]]) as Hp.
  { apply List.Forall_cons; [exists [61; 67; 58], [48]|apply List.Forall_cons; [exists [80; 65; 84; 72], [48]|apply List.Forall_nil]];
      (split; [reflexivity|split; [discriminate|split; [|split; [|reflexivity]]]]);
      repeat (apply List.Forall_cons; [lia|]); apply List.Forall_nil. }
  split; [exact H|]. split; [exact Hp|].
  destruct (windows_environment_exact ascii_compare _ _ [7] H Hp) as (c & block & vars & E1 & E2 & E3 & Hv).
  exists c, block, vars. split; [exact E1|]. split; [exact E2|]. split; [exact E3|].
  split; rewrite Hv by assumption; reflexivity.
Defined.
