(* ===== verification/Process.v ===== *)
(** * Child processes on Unix

    [Spawn] part: what [src/std/src/process/mod.cpp] does with descriptors when
    it spawns a child: the pipes of [Spawn::spawn], the two ways to start the
    child ([try_posix_spawn], [fork_exec]), the redirections of the child and
    the clean-up on every error.  The system is an interface ([Kernel]): its
    calls may return what they like, as long as the table of descriptors changes
    as POSIX says ([KernelLaws], [ActionLaws]).  What a program inherits is what
    is left of the table of descriptors when those to be closed by [exec] are
    gone.

    [Handle]: [Child::wait], [try_wait] and the kills, by pid or through a
    [PidFd] ([src/std/src/os/linux/process.cpp],
    [src/std/src/sys/process/linux.cpp]). *)

From Stdlib Require Import ZArith Lia ZifyBool.
From stdpp Require Import gmap.
From S2P Require Import Prelude WideText Environment.
Local Open Scope Z_scope.
Local Open Scope rstd_scope.

(** ** The system *)

(** What a descriptor stands for, and whether [exec] closes it. *)
Record open_file := mkFile { file : Z; close_on_exec : bool }.

#[local] Abbreviation table := (gmap Z open_file).

Inductive file_action :=
| AddDup2 (from to : Z)
| AddClose (descriptor : Z)
| AddOpen (target : Z) (input : bool)      (** ["/dev/null"] *)
| AddChdir (directory : list Z).

(** What the read of the error pipe returns. *)
Inductive received :=
| EndOfFile
| ReadFailed (errno : Z)
| Message (complete : bool) (error footer : Z).

Class Kernel (S : Type) := {
  descriptors : S -> table;
  k_close : Z -> S -> S;
  k_pipe2 : S -> result (Z * Z) Z * S;
  k_socketpair : S -> result (Z * Z) Z * S;
  k_dup2 : Z -> Z -> S -> bool * S;
  k_open_null : bool -> S -> option Z * S;
  k_fork : S -> result Z Z * S;                        (** in the parent *)
  k_receive_pidfd : Z -> S -> option Z * S;
  k_read_error : S -> received * S;
  k_kill_wait : bool -> Z -> S -> S;                   (** killed first, then reaped *)
  k_posix_spawn_reports : bool;
  k_addchdir : bool;                                   (** the function exists *)
  k_actions_init : S -> Z * S;
  k_add : file_action -> S -> Z * S;
  k_attributes : Z -> S -> Z * S;                      (** the process group *)
  k_posix_spawnp : list Z -> list file_action -> option Z -> list (list Z) -> list (list Z) -> S -> result Z Z * S;
  k_send_pidfd : Z -> S -> Z * S;
  k_setpgid : Z -> S -> bool * S;
  k_chdir : list Z -> S -> bool * S;
  k_null : bool -> Z                                   (** ["/dev/null"], opened to read or to write *)
}.

(** ** The command *)

Inductive Stdio := Inherit | Piped | Null.

Inductive SpawnError := InvalidArgument | Os (errno : Z).

Record SpawnCommand := mkSpawn {
  program_ : list Z;
  args_ : list (list Z);
  cwd_ : option (list Z);
  cfg_stdin_ : Stdio; cfg_stdout_ : Stdio; cfg_stderr_ : Stdio;
  environment_ : Environment.Command;
  process_group_ : option Z;
  create_pidfd_ : bool
}.

Record SpawnContext := mkContext {
  program : list Z;
  arguments : list (list Z);
  environment : list (list Z);
  directory : option (list Z);
  stdin_config : Stdio; stdout_config : Stdio; stderr_config : Stdio;
  stdin_pipe : Z * Z; stdout_pipe : Z * Z; stderr_pipe : Z * Z;
  requires_fork : bool;
  process_group : option Z;
  pidfd_wanted : bool
}.

Record Child := mkChild { pid : Z; child_stdin : option Z; child_stdout : option Z; child_stderr : option Z; pidfd_ : option Z }.

Definition NO_PIPE : Z * Z := (-1, -1).
Definition EIO : Z := 5.
Definition CHILD_SPAWN_ERROR_FOOTER : Z := 0x4e4f4558.

Definition is_piped (s : Stdio) : bool := match s with Piped => true | _ => false end.

Section Spawn.
Context {S : Type} `{Kernel S}.

Definition SM := M S SpawnError.
Definition call {A} (f : S -> A * S) : SM A := fun s => let '(a, s) := f s in (Ret a, s).
Definition act (f : S -> S) : SM unit := fun s => (Ret tt, f s).
Definition close_ (fd : Z) : SM unit := act (k_close fd).
Definition close_if (fd : Z) : SM unit := if 0 <=? fd then close_ fd else ret tt.

Definition close_pipe (pipe : Z * Z) : SM unit := do* close_if (fst pipe);; close_if (snd pipe).

Definition close_spawn_pipes (context : SpawnContext) : SM unit :=
  do* close_pipe (stdin_pipe context);;
  do* close_pipe (stdout_pipe context);;
  close_pipe (stderr_pipe context).

(** ** [posix_spawn] *)

(** [error] and the actions added so far. *)
Definition Building := (Z * list file_action)%type.

Definition add_action (a : file_action) (b : Building) : SM Building :=
  let* error := call (k_add a) in
  ret (error, if error =? 0 then snd b ++ [a] else snd b).

Definition add_pipe_actions (b : Building) (source unused target : Z) : SM Building :=
  let* b := (if negb (source =? target) then
               let* b := add_action (AddDup2 source target) b in
               if negb (fst b =? 0) then ret b else add_action (AddClose source) b
             else ret (0, snd b)) in
  if negb (fst b =? 0) then ret b
  else if negb (unused =? source) && negb (unused =? target) then add_action (AddClose unused) b
  else ret (0, snd b).

Definition add_null_action (b : Building) (target : Z) (input : bool) : SM Building := add_action (AddOpen target input) b.

(** [if (error == 0 && ...)] *)
Definition add_stdio (config : Stdio) (source unused target : Z) (b : Building) : SM Building :=
  if negb (fst b =? 0) then ret b
  else
    match config with
    | Piped => add_pipe_actions b source unused target
    | Null => add_null_action b target (target =? 0)
    | Inherit => ret b
    end.

Definition try_posix_spawn (context : SpawnContext) : SM (option Z) :=
  if requires_fork context || negb k_posix_spawn_reports then ret None
  else if pidfd_wanted context then ret None
  else if match directory context with Some _ => negb k_addchdir | None => false end then ret None
  else
    let* error := call k_actions_init in
    if negb (error =? 0) then throw (Os error)
    else
      let* b := add_stdio (stdin_config context) (fst (stdin_pipe context)) (snd (stdin_pipe context)) 0 (0, []) in
      let* b := add_stdio (stdout_config context) (snd (stdout_pipe context)) (fst (stdout_pipe context)) 1 b in
      let* b := add_stdio (stderr_config context) (snd (stderr_pipe context)) (fst (stderr_pipe context)) 2 b in
      let* b := match directory context with
                | Some d => if fst b =? 0 then add_action (AddChdir d) b else ret b
                | None => ret b
                end in
      let* error := match process_group context with
                    | Some g => if fst b =? 0 then call (k_attributes g) else ret (fst b)
                    | None => ret (fst b)
                    end in
      if negb (error =? 0) then throw (Os error)
      else
        let* spawned := call (k_posix_spawnp (program context) (snd b) (process_group context) (arguments context) (environment context)) in
        match spawned with
        | Ok child_pid => ret (Some child_pid)
        | Err error => throw (Os error)
        end.

(** ** [fork] and [exec], in the parent *)

Definition of_result {A} (r : result A Z) : SM A :=
  match r with Ok a => ret a | Err errno => throw (Os errno) end.

(** The child's pid and its [PidFd]; [pidfd] survives an error, to be dropped
    by the caller. *)
Definition fork_exec (context : SpawnContext) : SM (option Z * result Z SpawnError) :=
  let* error_pipe := call k_pipe2 in
  match error_pipe with
  | Err errno => ret (None, Err (Os errno))
  | Ok error_pipe =>
    let* channel := (if pidfd_wanted context then call k_socketpair else ret (Ok NO_PIPE)) in
    match channel with
    | Err errno => do* close_pipe error_pipe;; ret (None, Err (Os errno))
    | Ok channel =>
      let* forked := call k_fork in
      match forked with
      | Err errno =>
        do* close_pipe channel;;
        do* close_ (fst error_pipe);;
        do* close_ (snd error_pipe);;
        ret (None, Err (Os errno))
      | Ok child_pid =>
        do* close_ (snd error_pipe);;
        let* pidfd := (if pidfd_wanted context then
                         do* close_ (snd channel);;
                         let* fd := call (k_receive_pidfd (fst channel)) in
                         do* close_ (fst channel);;
                         ret fd
                       else ret None) in
        let* message := call k_read_error in
        do* close_ (fst error_pipe);;
        match message with
        | EndOfFile => ret (pidfd, Ok child_pid)
        | ReadFailed errno => do* act (k_kill_wait true child_pid);; ret (pidfd, Err (Os errno))
        | Message complete error footer =>
          do* act (k_kill_wait false child_pid);;
          ret (pidfd, Err (Os (if negb complete || negb (footer =? CHILD_SPAWN_ERROR_FOOTER) then EIO else error)))
        end
      end
    end
  end.

(** ** [fork] and [exec], in the child

    An error is [child_spawn_failure], which ends the child; a value is the
    call of [execvp]. *)

Definition CM := M S unit.
Definition child_close (fd : Z) : CM unit := fun s => (Ret tt, k_close fd s).
Definition child_call {A} (f : S -> A * S) : CM A := fun s => let '(a, s) := f s in (Ret a, s).
Definition must (ok : bool) : CM unit := if ok then ret tt else throw tt.

Definition redirect_child_pipe (source unused target : Z) : CM unit :=
  do* (if negb (source =? target) then let* ok := child_call (k_dup2 source target) in must ok else ret tt);;
  do* (if negb (source =? target) then child_close source else ret tt);;
  if negb (unused =? source) && negb (unused =? target) then child_close unused else ret tt.

Definition redirect_child_null (target : Z) (input : bool) : CM unit :=
  let* opened := child_call (k_open_null input) in
  match opened with
  | None => throw tt
  | Some descriptor =>
    do* (if negb (descriptor =? target) then let* ok := child_call (k_dup2 descriptor target) in must ok else ret tt);;
    if negb (descriptor =? target) then child_close descriptor else ret tt
  end.

Definition redirect_child (config : Stdio) (source unused target : Z) : CM unit :=
  match config with
  | Piped => redirect_child_pipe source unused target
  | Null => redirect_child_null target (target =? 0)
  | Inherit => ret tt
  end.

Definition child_setup (context : SpawnContext) (error_pipe channel : Z * Z) : CM unit :=
  do* child_close (fst error_pipe);;
  do* (if pidfd_wanted context then
         do* child_close (fst channel);;
         let* error := child_call (k_send_pidfd (snd channel)) in
         do* child_close (snd channel);;
         must (error =? 0)
       else ret tt);;
  do* match process_group context with Some g => let* ok := child_call (k_setpgid g) in must ok | None => ret tt end;;
  do* match directory context with Some d => let* ok := child_call (k_chdir d) in must ok | None => ret tt end;;
  do* redirect_child (stdin_config context) (fst (stdin_pipe context)) (snd (stdin_pipe context)) 0;;
  do* redirect_child (stdout_config context) (snd (stdout_pipe context)) (fst (stdout_pipe context)) 1;;
  redirect_child (stderr_config context) (snd (stderr_pipe context)) (fst (stderr_pipe context)) 2.

(** ** [Spawn::spawn] *)

(** [make_pipe], and what is closed when it fails. *)
Definition make_pipe (config : Stdio) (earlier : list (Z * Z)) : SM (Z * Z) :=
  if is_piped config then
    let* made := call k_pipe2 in
    match made with
    | Ok pipe => ret pipe
    | Err errno => do* fold_right (fun pipe rest => do* close_pipe pipe;; rest) (ret tt) earlier;; throw (Os errno)
    end
  else ret NO_PIPE.

Definition is_path_key (k : list Z) : bool := bool_decide (k = [80; 65; 84; 72]).

Definition close_pidfd (pidfd : option Z) : SM unit := match pidfd with Some fd => close_ fd | None => ret tt end.

(** The [SpawnContext], with [path_changed] and [program_is_path]. *)
Definition context_of (cmd : SpawnCommand) (environ : list (list Z)) (stdin stdout stderr : Z * Z) : SpawnContext :=
  let path_changed := env_clear_ (environment_ cmd) || existsb (fun a => is_path_key (key a)) (env_actions_ (environment_ cmd)) in
  let program_is_path := existsb (Z.eqb 47) (program_ cmd) in
  mkContext (program_ cmd) (program_ cmd :: args_ cmd) environ (cwd_ cmd) (cfg_stdin_ cmd) (cfg_stdout_ cmd) (cfg_stderr_ cmd) stdin stdout stderr
    (path_changed && negb program_is_path) (process_group_ cmd) (create_pidfd_ cmd).

(** [environ] is the environment of the parent. *)
Definition spawn (environ : list (list Z)) (cmd : SpawnCommand) : SM Child :=
  if negb (c_string (program_ cmd) && forallb c_string (args_ cmd) && match cwd_ cmd with Some d => c_string d | None => true end)
  then throw InvalidArgument
  else
    let* stdin := make_pipe (cfg_stdin_ cmd) [] in
    let* stdout := make_pipe (cfg_stdout_ cmd) [stdin] in
    let* stderr := make_pipe (cfg_stderr_ cmd) [stdin; stdout] in
    match unix_child_environment (env_clear_ (environment_ cmd)) (env_actions_ (environment_ cmd)) environ with
    | Ret environment_values =>
      let context := context_of cmd environment_values stdin stdout stderr in
      let* spawned := (fun s => match try_posix_spawn context s with
                                | (Fail e, s) => (do* close_spawn_pipes context;; throw e) s
                                | r => r
                                end) in
      let* started := match spawned with
                      | Some child_pid => ret (None, child_pid)
                      | None =>
                        let* forked := fork_exec context in
                        match snd forked with
                        | Ok child_pid => ret (fst forked, child_pid)
                        | Err e => do* close_spawn_pipes context;; do* close_pidfd (fst forked);; throw e
                        end
                      end in
      do* close_if (fst stdin);;
      do* close_if (snd stdout);;
      do* close_if (snd stderr);;
      let end_ (fd : Z) := if 0 <=? fd then Some fd else None in
      ret (mkChild (snd started) (end_ (snd stdin)) (end_ (fst stdout)) (end_ (fst stderr)) (fst started))
    | Fail _ => do* close_spawn_pipes (context_of cmd [] stdin stdout stderr);; throw InvalidArgument
    | Panic => panic
    | OutOfFuel => out_of_fuel
    end.

(** The destructors of a [Child] that is dropped. *)
Definition drop_child (child : Child) : SM unit :=
  do* close_pidfd (child_stderr child);;
  do* close_pidfd (child_stdout child);;
  do* close_pidfd (child_stdin child);;
  close_pidfd (pidfd_ child).
End Spawn.

(** ** What the system promises *)

(** The calls that create descriptors choose free ones; the others leave the
    table as it is. *)
Class KernelLaws (S : Type) `{Kernel S} := {
  close_law fd s : descriptors (k_close fd s) = delete fd (descriptors s);
  pipe2_law s : match k_pipe2 s with
    | (Ok (r, w), s') => 0 <= r /\ 0 <= w /\ r <> w /\ descriptors s !! r = None /\ descriptors s !! w = None /\
        exists f g, descriptors s' = <[w := mkFile g true]> (<[r := mkFile f true]> (descriptors s))
    | (Err _, s') => descriptors s' = descriptors s
    end;
  socketpair_law s : match k_socketpair s with
    | (Ok (r, w), s') => 0 <= r /\ 0 <= w /\ r <> w /\ descriptors s !! r = None /\ descriptors s !! w = None /\
        exists f g, descriptors s' = <[w := mkFile g true]> (<[r := mkFile f true]> (descriptors s))
    | (Err _, s') => descriptors s' = descriptors s
    end;
  receive_law fd s : match k_receive_pidfd fd s with
    | (Some d, s') => 0 <= d /\ descriptors s !! d = None /\ exists f, descriptors s' = <[d := mkFile f true]> (descriptors s)
    | (None, s') => descriptors s' = descriptors s
    end;
  dup2_law from to s s' : from <> to -> k_dup2 from to s = (true, s') ->
    exists f, descriptors s !! from = Some f /\ descriptors s' = <[to := mkFile (file f) false]> (descriptors s);
  open_null_law input s d s' : k_open_null input s = (Some d, s') ->
    0 <= d /\ descriptors s !! d = None /\ descriptors s' = <[d := mkFile (k_null input) false]> (descriptors s);
  fork_law s : descriptors (snd (k_fork s)) = descriptors s;
  read_law s : descriptors (snd (k_read_error s)) = descriptors s;
  kill_wait_law b p s : descriptors (k_kill_wait b p s) = descriptors s;
  init_law s : descriptors (snd (k_actions_init s)) = descriptors s;
  add_law a s : descriptors (snd (k_add a s)) = descriptors s;
  attributes_law g s : descriptors (snd (k_attributes g s)) = descriptors s;
  posix_spawnp_law p l g a e s : descriptors (snd (k_posix_spawnp p l g a e s)) = descriptors s;
  send_law fd s : descriptors (snd (k_send_pidfd fd s)) = descriptors s;
  setpgid_law g s : descriptors (snd (k_setpgid g s)) = descriptors s;
  chdir_law d s : descriptors (snd (k_chdir d s)) = descriptors s
}.

Section Owned.
Context {S : Type} `{KernelLaws S} (t0 : table).

(** The table is [t0] and, besides, the descriptors [X]. *)
Definition owns (X : gset Z) (s : S) : Prop :=
  exists m : table, dom m = X /\ m ##ₘ t0 /\ descriptors s = m ∪ t0.

(** A computation that begins with the descriptors [X]: [Q] tells what it owns
    with its value, [F] what it owns with its error. *)
Definition keeps {A} (X : gset Z) (m : SM A) (Q : A -> gset Z -> Prop) (F : gset Z -> Prop) : Prop :=
  forall s, owns X s ->
    match m s with
    | (Ret a, s') => exists Y, owns Y s' /\ Q a Y
    | (Fail _, s') => exists Y, owns Y s' /\ F Y
    | _ => False
    end.

Lemma keeps_ret {A} X (a : A) (Q : A -> gset Z -> Prop) F : Q a X -> keeps X (ret a) Q F.
Proof. intros HQ s Hs. by exists X. Qed.

Lemma keeps_throw {A} X e (Q : A -> gset Z -> Prop) (F : gset Z -> Prop) : F X -> keeps X (throw e) Q F.
Proof. intros HF s Hs. by exists X. Qed.

Lemma keeps_bind {A B} X (m : SM A) (k : A -> SM B) Q F :
  keeps X m (fun a Y => keeps Y (k a) Q F) F -> keeps X (bind m k) Q F.
Proof.
  intros Hm s Hs. specialize (Hm s Hs). unfold bind. destruct (m s) as [[a|e| |] s']; [|done..].
  destruct Hm as (Y & HY & Hk). exact (Hk s' HY).
Qed.

Lemma keeps_mono {A} X (m : SM A) (Q Q' : A -> gset Z -> Prop) (F F' : gset Z -> Prop) :
  keeps X m Q F -> (forall a Y, Q a Y -> Q' a Y) -> (forall Y, F Y -> F' Y) -> keeps X m Q' F'.
Proof.
  intros Hm HQ HF s Hs. specialize (Hm s Hs). destruct (m s) as [[a|e| |] s']; try done; destruct Hm as (Y & HY & Hk); eauto.
Qed.

(** A call that leaves the table alone. *)
Lemma keeps_call {A} X (f : S -> A * S) (Q : A -> gset Z -> Prop) F :
  (forall s, descriptors (snd (f s)) = descriptors s) -> (forall a, Q a X) -> keeps X (call f) Q F.
Proof.
  intros Hf HQ s (m & Hm). unfold call. specialize (Hf s). destruct (f s) as [a s']. cbn in Hf. exists X. split; [|done].
  exists m. by rewrite Hf.
Qed.

Lemma keeps_act X (f : S -> S) (Q : unit -> gset Z -> Prop) F :
  (forall s, descriptors (f s) = descriptors s) -> Q tt X -> keeps X (act f) Q F.
Proof. intros Hf HQ s (m & Hm). exists X. split; [|done]. exists m. by rewrite Hf. Qed.

Lemma keeps_close X fd (Q : unit -> gset Z -> Prop) F : fd ∈ X -> Q tt (X ∖ {[fd]}) -> keeps X (close_ fd) Q F.
Proof.
  intros Hfd HQ s (m & Hm & Hd & Hs). exists (X ∖ {[fd]}). split; [|done]. exists (delete fd m). split_and!.
  - rewrite dom_delete_L. by rewrite Hm.
  - by apply map_disjoint_delete_l.
  - rewrite close_law, Hs, delete_union. f_equal. apply delete_id. assert (fd ∈ dom m) as [f Hf]%elem_of_dom by (by rewrite Hm).
    by eapply map_disjoint_Some_l.
Qed.

(** A call that may create two descriptors. *)
Lemma owns_two X s s' r w :
  owns X s -> r <> w -> descriptors s !! r = None -> descriptors s !! w = None ->
  (exists f g, descriptors s' = <[w := mkFile g true]> (<[r := mkFile f true]> (descriptors s))) ->
  owns ({[r; w]} ∪ X) s' /\ r ∉ X /\ w ∉ X.
Proof.
  intros (m & Hm & Hd & Hs) Hrw Hr Hw (f & g & E). rewrite Hs in Hr, Hw.
  apply lookup_union_None in Hr as [Hr Hr0], Hw as [Hw Hw0]. rewrite <- Hm. split; [|split; by apply not_elem_of_dom].
  exists (<[w := mkFile g true]> (<[r := mkFile f true]> m)). split_and!.
  - rewrite !dom_insert_L. set_solver.
  - apply map_disjoint_insert_l_2; [done|]. by apply map_disjoint_insert_l_2.
  - by rewrite E, Hs, !insert_union_l.
Qed.

Definition pair_law (f : S -> result (Z * Z) Z * S) : Prop := forall s,
  match f s with
  | (Ok (r, w), s') => 0 <= r /\ 0 <= w /\ r <> w /\ descriptors s !! r = None /\ descriptors s !! w = None /\
      exists f g, descriptors s' = <[w := mkFile g true]> (<[r := mkFile f true]> (descriptors s))
  | (Err _, s') => descriptors s' = descriptors s
  end.

Definition fresh_pair (X : gset Z) (p : Z * Z) : Prop :=
  0 <= fst p /\ 0 <= snd p /\ fst p <> snd p /\ fst p ∉ X /\ snd p ∉ X.

Lemma keeps_pair X f (Q : result (Z * Z) Z -> gset Z -> Prop) F :
  pair_law f -> (forall p, fresh_pair X p -> Q (Ok p) ({[fst p; snd p]} ∪ X)) -> (forall e, Q (Err e) X) -> keeps X (call f) Q F.
Proof.
  intros Hf HQ HE s Hs. unfold call. specialize (Hf s). destruct (f s) as [[[r w]|e] s'].
  - destruct Hf as (H1 & H2 & H3 & H4 & H5 & H6). destruct (owns_two X s s' r w Hs H3 H4 H5 H6) as (Ho & Hr & Hw).
    exists ({[r; w]} ∪ X). split; [done|]. by apply (HQ (r, w)).
  - exists X. split; [|done]. destruct Hs as (m & Hm). exists m. by rewrite Hf.
Qed.

(** The descriptors of a pipe, if there is one. *)
Definition ends_of (p : Z * Z) : gset Z := if 0 <=? fst p then {[fst p; snd p]} else ∅.
Definition pipe_ok (p : Z * Z) : Prop := p = NO_PIPE \/ (0 <= fst p /\ 0 <= snd p /\ fst p <> snd p).

Lemma keeps_close_pipe X p (Q : unit -> gset Z -> Prop) F :
  pipe_ok p -> ends_of p ⊆ X -> Q tt (X ∖ ends_of p) -> keeps X (close_pipe p) Q F.
Proof.
  unfold ends_of, close_pipe, close_if. intros Hp HX HQ. destruct Hp as [->|(H1 & H2 & H3)].
  - cbn in *. apply keeps_bind, keeps_ret, keeps_ret. by rewrite difference_empty_L in HQ.
  - destruct (0 <=? fst p) eqn:E1; [|lia]. destruct (0 <=? snd p) eqn:E2; [|lia].
    apply keeps_bind, keeps_close; [set_solver|]. apply keeps_close; [set_solver|].
    by replace (X ∖ {[fst p]} ∖ {[snd p]}) with (X ∖ {[fst p; snd p]}) by set_solver.
Qed.

(** Computations that leave the table as it was. *)
Definition neutral {A} (m : SM A) : Prop := forall X, keeps X m (fun _ Y => Y = X) (fun Y => Y = X).

Lemma neutral_bind {A B} (m : SM A) (k : A -> SM B) : neutral m -> (forall a, neutral (k a)) -> neutral (bind m k).
Proof.
  intros Hm Hk X. apply keeps_bind. eapply keeps_mono; [apply Hm| |done]. intros a Y ->. apply Hk.
Qed.

Lemma neutral_ret {A} (a : A) : neutral (ret a).
Proof. intros X. by apply keeps_ret. Qed.

Lemma neutral_throw {A} e : neutral (A := A) (throw e).
Proof. intros X. by apply keeps_throw. Qed.

Lemma neutral_call {A} (f : S -> A * S) : (forall s, descriptors (snd (f s)) = descriptors s) -> neutral (call f).
Proof. intros Hf X. by apply keeps_call. Qed.

Hint Resolve neutral_ret neutral_throw : neutral.
Hint Extern 1 (neutral (call _)) => apply neutral_call; first [apply init_law | apply add_law | apply attributes_law | apply posix_spawnp_law] : neutral.

Ltac neutral :=
  repeat first
    [ solve [auto with neutral]
    | apply neutral_bind; [|intros]
    | progress cbv beta
    | match goal with |- neutral (if ?b then _ else _) => destruct b end
    | match goal with |- neutral (match ?x with _ => _ end) => destruct x end ].

Lemma add_action_neutral a b : neutral (add_action a b).
Proof. unfold add_action. neutral. Qed.
Hint Resolve add_action_neutral : neutral.

Lemma add_stdio_neutral config source unused target b : neutral (add_stdio config source unused target b).
Proof. unfold add_stdio, add_pipe_actions, add_null_action. neutral. Qed.
Hint Resolve add_stdio_neutral : neutral.

(** [posix_spawn] is given the table and leaves it. *)
Lemma try_posix_spawn_neutral context : neutral (try_posix_spawn context).
Proof. unfold try_posix_spawn. neutral. Qed.

Definition set_of (fd : option Z) : gset Z := match fd with Some fd => {[fd]} | None => ∅ end.

Lemma keeps_close_option X fd (Q : unit -> gset Z -> Prop) F :
  set_of fd ⊆ X -> Q tt (X ∖ set_of fd) -> keeps X (close_pidfd fd) Q F.
Proof.
  intros HX HQ. destruct fd as [fd|]; cbn in *; [apply keeps_close; [set_solver|done]|].
  apply keeps_ret. by rewrite difference_empty_L in HQ.
Qed.

Lemma pipe2_pair : pair_law k_pipe2.
Proof. exact pipe2_law. Qed.
Lemma socketpair_pair : pair_law k_socketpair.
Proof. exact socketpair_law. Qed.

Lemma keeps_receive X fd (Q : option Z -> gset Z -> Prop) F :
  (forall d, set_of d ## X -> Q d (set_of d ∪ X)) -> keeps X (call (k_receive_pidfd fd)) Q F.
Proof.
  intros HQ s (m & Hm & Hd & Hs). unfold call. pose proof (receive_law fd s) as Hf. destruct (k_receive_pidfd fd s) as [[d|] s'].
  - destruct Hf as (_ & Hn & f & E). rewrite Hs in Hn. apply lookup_union_None in Hn as [Hn Hn0].
    assert (d ∉ X) by (rewrite <- Hm; by apply not_elem_of_dom).
    exists (set_of (Some d) ∪ X). split; [|apply HQ; set_solver]. exists (<[d := mkFile f true]> m). split_and!.
    + rewrite dom_insert_L. set_solver.
    + by apply map_disjoint_insert_l_2.
    + by rewrite E, Hs, insert_union_l.
  - exists X. split; [by exists m; rewrite Hf|]. specialize (HQ None). cbn in HQ. rewrite union_empty_l_L in HQ. apply HQ. set_solver.
Qed.

(** What the parent keeps of starting a child by [fork]. *)
Lemma fork_exec_keeps X context :
  keeps X (fork_exec context) (fun r Y => Y = set_of (fst r) ∪ X /\ set_of (fst r) ## X) (fun _ => False).
Proof.
  unfold fork_exec. apply keeps_bind, keeps_pair; [exact pipe2_pair| |intros e; apply keeps_ret; cbn; set_solver].
  intros [r w] (Hr & Hw & Hrw & HrX & HwX). cbn [fst snd] in *. apply keeps_bind.
  set (X1 := {[r; w]} ∪ X).
  apply keeps_mono with (Q := fun c Y => match c with
    | Ok ch => (if pidfd_wanted context then fresh_pair X1 ch else ch = NO_PIPE) /\ Y = ends_of ch ∪ X1
    | Err _ => Y = X1 end) (F := fun _ => False); [|intros [ch|e] Y|done].
  - destruct (pidfd_wanted context).
    + apply keeps_pair; [exact socketpair_pair| |done]. intros ch Hch. split; [done|]. unfold ends_of.
      destruct Hch as (Hc & _). by destruct (0 <=? fst ch) eqn:E; [|lia].
    + apply keeps_ret. split; [done|]. cbn. by rewrite union_empty_l_L.
  - intros [Hch ->].
    assert (pipe_ok ch /\ ends_of ch ## X1) as [Hok Hdis].
    { destruct (pidfd_wanted context); [|subst ch; split; [by left|cbn; set_solver]]. destruct Hch as (H1' & H2' & H3' & H4' & H5').
      split; [right; done|]. unfold ends_of. case_match; set_solver. }
    apply keeps_bind, keeps_call; [apply fork_law|]. intros [child_pid|e].
    + apply keeps_bind, keeps_close; [set_solver|]. apply keeps_bind.
      apply keeps_mono with (Q := fun fd Y => Y = set_of fd ∪ {[r]} ∪ X /\ set_of fd ## {[r]} ∪ X) (F := fun _ => False); [|intros fd Y [-> Hfd]|done].
      * destruct (pidfd_wanted context).
        -- destruct Hch as (H1' & H2' & H3' & H4' & H5'). assert (ends_of ch = {[fst ch; snd ch]}) as Ee by (unfold ends_of; by case_match; [|lia]).
           rewrite Ee in *. apply keeps_bind, keeps_close; [set_solver|]. apply keeps_bind, keeps_receive. intros d Hd.
           apply keeps_bind, keeps_close; [set_solver|]. apply keeps_ret. split; set_solver.
        -- subst ch. apply keeps_ret. cbn in *. split; set_solver.
      * apply keeps_bind, keeps_call; [apply read_law|]. intros message. apply keeps_bind, keeps_close; [set_solver|].
        assert (set_of fd ∪ {[r]} ∪ X ∖ {[r]} = set_of fd ∪ {[r]} ∪ X ∖ {[r]}) as _ by done.
        assert ((set_of fd ∪ {[r]} ∪ X) ∖ {[r]} = set_of fd ∪ X /\ set_of fd ## X) as [E1 E2] by set_solver.
        rewrite E1. destruct message; [by apply keeps_ret|apply keeps_bind, keeps_act; [apply kill_wait_law|]; by apply keeps_ret..].
    + apply keeps_bind, keeps_close_pipe; [done|set_solver|]. apply keeps_bind, keeps_close; [set_solver|].
      apply keeps_bind, keeps_close; [set_solver|]. apply keeps_ret. cbn. split; set_solver.
  - intros ->. apply keeps_bind, keeps_close_pipe; [right; done| |].
    + unfold ends_of. cbn. case_match; [set_solver|lia].
    + apply keeps_ret. unfold ends_of. cbn. case_match; [split; set_solver|lia].
Qed.

(** *** The pipes of the child *)

Fixpoint ends_all (ps : list (Z * Z)) : gset Z := match ps with [] => ∅ | p :: ps => ends_of p ∪ ends_all ps end.
Fixpoint held (ps : list (Z * Z)) : Prop :=
  match ps with [] => True | p :: ps => pipe_ok p /\ ends_of p ## ends_all ps /\ held ps end.

Lemma keeps_close_pipes ps {A} (k : SM A) (Q : A -> gset Z -> Prop) F :
  held ps -> keeps ∅ k Q F ->
  keeps (ends_all ps) (bind (fold_right (fun p rest => bind (close_pipe p) (fun _ => rest)) (ret tt) ps) (fun _ => k)) Q F.
Proof.
  intros Hps Hk. apply keeps_bind. revert Hps. induction ps as [|p ps IH]; [intros _; by apply keeps_ret|].
  intros (Hp & Hd & Hps). cbn [fold_right ends_all]. apply keeps_bind, keeps_close_pipe; [done|set_solver|].
  replace ((ends_of p ∪ ends_all ps) ∖ ends_of p) with (ends_all ps) by set_solver. by apply IH.
Qed.

Lemma ends_of_pair p : 0 <= fst p -> ends_of p = {[fst p; snd p]}.
Proof. intros. unfold ends_of. by case_match; [|lia]. Qed.

Lemma make_pipe_keeps config earlier : held earlier ->
  keeps (ends_all earlier) (make_pipe config earlier)
    (fun p Y => pipe_ok p /\ ends_of p ## ends_all earlier /\ Y = ends_of p ∪ ends_all earlier /\ (0 <=? fst p) = is_piped config)
    (fun Y => Y = ∅).
Proof.
  intros He. unfold make_pipe. destruct (is_piped config).
  - apply keeps_bind, keeps_pair; [exact pipe2_pair| |].
    + intros p (H1' & H2' & H3' & H4' & H5'). apply keeps_ret. rewrite ends_of_pair by done.
      split_and!; [by right|set_solver|done|lia].
    + intros e. apply keeps_close_pipes; [done|]. by apply keeps_throw.
  - apply keeps_ret. split_and!; [by left|cbn; set_solver| |done]. cbn. by rewrite union_empty_l_L.
Qed.

(** What a [Child] owns. *)
Definition child_set (c : Child) : gset Z :=
  set_of (child_stderr c) ∪ (set_of (child_stdout c) ∪ (set_of (child_stdin c) ∪ set_of (pidfd_ c))).

Definition child_distinct (c : Child) : Prop :=
  set_of (child_stderr c) ## set_of (child_stdout c) ∪ (set_of (child_stdin c) ∪ set_of (pidfd_ c)) /\
  set_of (child_stdout c) ## set_of (child_stdin c) ∪ set_of (pidfd_ c) /\
  set_of (child_stdin c) ## set_of (pidfd_ c).

Lemma drop_child_keeps c : child_distinct c -> keeps (child_set c) (drop_child c) (fun _ Y => Y = ∅) (fun _ => False).
Proof.
  intros (H1' & H2' & H3'). unfold drop_child, child_set.
  apply keeps_bind, keeps_close_option; [set_solver|]. apply keeps_bind, keeps_close_option; [set_solver|].
  apply keeps_bind, keeps_close_option; [set_solver|]. apply keeps_close_option; [set_solver|]. set_solver.
Qed.

(** What the parent keeps of a pipe: one of its ends. *)
Definition kept (fd : Z) : gset Z := if 0 <=? fd then {[fd]} else ∅.

Lemma keeps_close_if X p (first : bool) {A} (k : SM A) (Q : A -> gset Z -> Prop) F :
  let near := if first then fst p else snd p in let far := if first then snd p else fst p in
  pipe_ok p -> ends_of p ## X -> keeps (kept far ∪ X) k Q F ->
  keeps (ends_of p ∪ X) (bind (close_if near) (fun _ => k)) Q F.
Proof.
  intros near far Hp Hd Hk. subst near far. unfold close_if, kept in *. destruct Hp as [->|(H1' & H2' & H3')].
  - apply keeps_bind. destruct first; cbn in *; by apply keeps_ret.
  - rewrite ends_of_pair in * by done. apply keeps_bind.
    assert ((0 <=? fst p) = true) as E1 by lia. assert ((0 <=? snd p) = true) as E2 by lia.
    destruct first; cbv beta iota in Hk |- *.
    + rewrite E2 in Hk. rewrite E1. apply keeps_close; [set_solver|].
      by replace (({[fst p; snd p]} ∪ X) ∖ {[fst p]}) with ({[snd p]} ∪ X) by set_solver.
    + rewrite E1 in Hk. rewrite E2. apply keeps_close; [set_solver|].
      by replace (({[fst p; snd p]} ∪ X) ∖ {[snd p]}) with ({[fst p]} ∪ X) by set_solver.
Qed.

Definition end_of (fd : Z) : option Z := if 0 <=? fd then Some fd else None.

Lemma set_of_end fd : set_of (end_of fd) = kept fd.
Proof. unfold end_of, kept. by destruct (0 <=? fd). Qed.

Lemma kept_ends p : pipe_ok p -> kept (fst p) ⊆ ends_of p /\ kept (snd p) ⊆ ends_of p.
Proof.
  intros [->|(H1' & H2' & H3')]; [by split|]. rewrite ends_of_pair by done. unfold kept. split; case_match; set_solver.
Qed.

Lemma end_of_piped p : pipe_ok p -> (0 <=? fst p) = true ->
  end_of (fst p) = Some (fst p) /\ end_of (snd p) = Some (snd p).
Proof. intros [->|(H1' & H2' & H3')] E; [done|]. unfold end_of. rewrite E. split; [done|]. by case_match; [|lia]. Qed.

Lemma end_of_none p : pipe_ok p -> (0 <=? fst p) = false -> end_of (fst p) = None /\ end_of (snd p) = None.
Proof. intros [->|(H1' & H2' & H3')] E; [done|lia]. Qed.

(** The child has an end of each pipe that was asked for, and no other. *)
Definition ends_match (cmd : SpawnCommand) (c : Child) : Prop :=
  (is_Some (child_stdin c) <-> cfg_stdin_ cmd = Piped) /\
  (is_Some (child_stdout c) <-> cfg_stdout_ cmd = Piped) /\
  (is_Some (child_stderr c) <-> cfg_stderr_ cmd = Piped).

Lemma end_matches config p : pipe_ok p -> (0 <=? fst p) = is_piped config ->
  (is_Some (end_of (fst p)) <-> config = Piped) /\ (is_Some (end_of (snd p)) <-> config = Piped).
Proof.
  intros Hp E. destruct config; cbn in E.
  1,3: destruct (end_of_none p Hp E) as [-> ->]; split; (split; [by intros [? ?]|done]).
  destruct (end_of_piped p Hp E) as [-> ->]. split; (split; [done|by eexists]).
Qed.

(** Closing what [close_spawn_pipes] closes. *)
Lemma keeps_close_spawn_pipes context {A} (k : SM A) (Q : A -> gset Z -> Prop) F X :
  held [stdin_pipe context; stdout_pipe context; stderr_pipe context] ->
  X ## ends_all [stdin_pipe context; stdout_pipe context; stderr_pipe context] ->
  keeps X k Q F ->
  keeps (X ∪ ends_all [stdin_pipe context; stdout_pipe context; stderr_pipe context])
    (bind (close_spawn_pipes context) (fun _ => k)) Q F.
Proof.
  intros (P1 & D1 & P2 & D2 & P3 & _ & _) HX Hk. cbn [ends_all] in *. unfold close_spawn_pipes.
  apply keeps_bind, keeps_bind, keeps_close_pipe; [done|set_solver|].
  apply keeps_bind, keeps_close_pipe; [done|set_solver|]. apply keeps_close_pipe; [done|set_solver|].
  eapply (eq_rect _ (fun Y => keeps Y k Q F) Hk). set_solver.
Qed.

(** The sets of descriptors on the way to the end of [spawn]. *)
Section Finish.
Context (a b c k1 k2 k3 p : gset Z).

Lemma finish_first : p ∪ (a ∪ (b ∪ (c ∪ ∅))) = a ∪ (p ∪ (b ∪ c)).
Proof. set_solver. Qed.

Lemma finish_first_apart : a ## b ∪ (c ∪ ∅) -> p ## a ∪ (b ∪ (c ∪ ∅)) -> a ## p ∪ (b ∪ c).
Proof. set_solver. Qed.

Lemma finish_second : k1 ∪ (p ∪ (b ∪ c)) = b ∪ (k1 ∪ p ∪ c).
Proof. set_solver. Qed.

Lemma finish_second_apart : k1 ⊆ a -> a ## b ∪ (c ∪ ∅) -> b ## c ∪ ∅ -> p ## a ∪ (b ∪ (c ∪ ∅)) -> b ## k1 ∪ p ∪ c.
Proof. set_solver. Qed.

Lemma finish_third : k2 ∪ (k1 ∪ p ∪ c) = c ∪ (k1 ∪ p ∪ k2).
Proof. set_solver. Qed.

Lemma finish_third_apart :
  k1 ⊆ a -> k2 ⊆ b -> a ## b ∪ (c ∪ ∅) -> b ## c ∪ ∅ -> p ## a ∪ (b ∪ (c ∪ ∅)) -> c ## k1 ∪ p ∪ k2.
Proof. set_solver. Qed.

Lemma finish_set : k3 ∪ (k1 ∪ p ∪ k2) = k3 ∪ (k2 ∪ (k1 ∪ p)).
Proof. set_solver. Qed.

Lemma finish_distinct :
  k1 ⊆ a -> k2 ⊆ b -> k3 ⊆ c -> a ## b ∪ (c ∪ ∅) -> b ## c ∪ ∅ -> p ## a ∪ (b ∪ (c ∪ ∅)) ->
  k3 ## k2 ∪ (k1 ∪ p) /\ k2 ## k1 ∪ p /\ k1 ## p.
Proof. set_solver. Qed.
End Finish.

(** The end of [spawn]: the parent keeps its ends. *)
Lemma spawn_finish_keeps cmd stdin stdout stderr pidfd child_pid :
  held [stdin; stdout; stderr] -> set_of pidfd ## ends_all [stdin; stdout; stderr] ->
  (0 <=? fst stdin) = is_piped (cfg_stdin_ cmd) -> (0 <=? fst stdout) = is_piped (cfg_stdout_ cmd) ->
  (0 <=? fst stderr) = is_piped (cfg_stderr_ cmd) ->
  keeps (set_of pidfd ∪ ends_all [stdin; stdout; stderr])
    (do* close_if (fst stdin);;
     do* close_if (snd stdout);;
     do* close_if (snd stderr);;
     ret (mkChild child_pid (end_of (snd stdin)) (end_of (fst stdout)) (end_of (fst stderr)) pidfd))
    (fun c Y => Y = child_set c /\ child_distinct c /\ ends_match cmd c) (fun Y => Y = ∅).
Proof.
  intros (P1 & D1 & P2 & D2 & P3 & _ & _) Hp E1 E2 E3. cbn [ends_all] in *.
  destruct (kept_ends stdin P1) as [_ K1], (kept_ends stdout P2) as [K2 _], (kept_ends stderr P3) as [K3 _].
  rewrite (finish_first _ _ _ (set_of pidfd)).
  apply (keeps_close_if _ stdin true); [done|by apply finish_first_apart|]. cbv zeta.
  rewrite (finish_second _ _ (kept (snd stdin)) (set_of pidfd)).
  apply (keeps_close_if _ stdout false); [done|by apply (finish_second_apart (ends_of stdin))|]. cbv zeta.
  rewrite (finish_third _ _ (kept (fst stdout))).
  apply (keeps_close_if _ stderr false); [done|by apply (finish_third_apart (ends_of stdin) (ends_of stdout))|]. cbv zeta.
  apply keeps_ret. unfold child_set, child_distinct, ends_match. cbn. rewrite !set_of_end. split; [apply finish_set|]. split.
  - by apply (finish_distinct (ends_of stdin) (ends_of stdout) (ends_of stderr)).
  - split_and!; [apply (end_matches _ _ P1 E1)|apply (end_matches _ _ P2 E2)|apply (end_matches _ _ P3 E3)].
Qed.

Lemma keeps_catch {A} X (m : SM A) (h : SpawnError -> SM A) Q (F F' : gset Z -> Prop) :
  keeps X m Q F -> (forall e Y, F Y -> keeps Y (h e) Q F') ->
  keeps X (fun s => match m s with (Fail e, s) => h e s | r => r end) Q F'.
Proof.
  intros Hm Hh s Hs. specialize (Hm s Hs). destruct (m s) as [[a|e| |] s']; try done.
  destruct Hm as (Y & HY & HF). by apply (Hh e Y HF).
Qed.

Lemma held_one p : pipe_ok p -> held [p].
Proof. intros. split_and!; [done|apply disjoint_empty_r|done]. Qed.

Lemma held_two p q : pipe_ok p -> pipe_ok q -> ends_of q ## ends_all [p] -> held [p; q].
Proof. intros Hp Hq Hd. split; [done|]. split; [|by apply held_one]. cbn in *. set_solver. Qed.

Lemma held_three p q r : held [p; q] -> pipe_ok r -> ends_of r ## ends_all [p; q] -> held [p; q; r].
Proof.
  intros (Hp & Hpq & Hq & _) Hr Hd. cbn [ends_all] in *. split; [done|]. split; [set_solver|]. apply held_two; [done..|]. cbn [ends_all]. set_solver.
Qed.

Lemma ends_all_two p q : ends_of q ∪ ends_all [p] = ends_all [p; q].
Proof. cbn. set_solver. Qed.

Lemma ends_all_three p q r : ends_of r ∪ ends_all [p; q] = ∅ ∪ ends_all [p; q; r].
Proof. cbn. set_solver. Qed.

Lemma spawn_keeps environ cmd :
  keeps ∅ (spawn environ cmd) (fun c Y => Y = child_set c /\ child_distinct c /\ ends_match cmd c) (fun Y => Y = ∅).
Proof.
  unfold spawn. case_match; [by apply keeps_throw|].
  apply keeps_bind. eapply keeps_mono; [apply (make_pipe_keeps (cfg_stdin_ cmd) []); done| |done].
  intros stdin Y (P1 & _ & -> & E1). apply keeps_bind.
  eapply keeps_mono; [apply (make_pipe_keeps (cfg_stdout_ cmd) [stdin]); by apply held_one| |done].
  intros stdout Y (P2 & D2 & -> & E2). apply keeps_bind. rewrite ends_all_two.
  pose proof (held_two _ _ P1 P2 D2) as Hh2.
  eapply keeps_mono; [apply (make_pipe_keeps (cfg_stderr_ cmd) [stdin; stdout]); done| |done].
  intros stderr Y (P3 & D3 & -> & E3). rewrite ends_all_three. pose proof (held_three _ _ _ Hh2 P3 D3) as Hh.
  unfold unix_child_environment. rewrite unix_actions_exact. destruct (forallb action_ok _).
  2: apply (keeps_close_spawn_pipes (context_of cmd [] stdin stdout stderr)); [done|apply disjoint_empty_l|by apply keeps_throw].
  set (context := context_of cmd _ stdin stdout stderr).
  apply keeps_bind, keeps_catch with (F := fun Y => Y = ∅ ∪ ends_all [stdin; stdout; stderr]).
  2: { intros e Y ->. apply (keeps_close_spawn_pipes context); [done|apply disjoint_empty_l|by apply keeps_throw]. }
  eapply keeps_mono; [apply try_posix_spawn_neutral| |done]. intros spawned Y ->. cbv beta. apply keeps_bind.
  apply keeps_mono with
    (Q := fun started Y => Y = set_of (fst started) ∪ ends_all [stdin; stdout; stderr] /\ set_of (fst started) ## ends_all [stdin; stdout; stderr])
    (F := fun Y => Y = ∅); [|intros started Y [-> Hs]; by apply spawn_finish_keeps|done].
  destruct spawned as [child_pid|]; [apply keeps_ret; split; [done|apply disjoint_empty_l]|].
  apply keeps_bind. rewrite union_empty_l_L. eapply keeps_mono; [apply fork_exec_keeps| |done]. intros [pidfd [child_pid|e]] Y [-> Hd]; cbn [fst snd] in *.
  - by apply keeps_ret.
  - apply (keeps_close_spawn_pipes context); [done|done|].
    apply keeps_bind, keeps_close_option; [done|]. apply keeps_throw. apply difference_diag_L.
Qed.
End Owned.

(** ** What the child inherits *)

(** The table after [exec]. *)
Definition after_exec (t : table) : table := filter (fun p => close_on_exec (snd p) = false) t.

(** The table when a redirection is done. *)
Definition redirect_table {S} `{Kernel S} (config : Stdio) (source unused target : Z) (t : table) : table :=
  match config with
  | Inherit => t
  | Piped => match t !! source with
             | Some f => delete unused (delete source (<[target := mkFile (file f) false]> t))
             | None => t
             end
  | Null => <[target := mkFile (k_null (target =? 0)) false]> t
  end.

(** What is asked for: the descriptors [m] of the parent, with [target] standing
    for the child's end of the pipe or for ["/dev/null"]. *)
Definition redirected {S} `{Kernel S} (config : Stdio) (source target : Z) (t m : table) : table :=
  match config with
  | Inherit => m
  | Piped => match t !! source with Some f => <[target := mkFile (file f) false]> m | None => m end
  | Null => <[target := mkFile (k_null (target =? 0)) false]> m
  end.

Definition child_table {S} `{Kernel S} (context : SpawnContext) (t m : table) : table :=
  redirected (stderr_config context) (snd (stderr_pipe context)) 2 t
    (redirected (stdout_config context) (snd (stdout_pipe context)) 1 t
       (redirected (stdin_config context) (fst (stdin_pipe context)) 0 t m)).

(** The actions of [posix_spawn] when none of the calls that add them fails. *)
Definition stdio_actions (config : Stdio) (source unused target : Z) : list file_action :=
  match config with
  | Inherit => []
  | Piped => [AddDup2 source target; AddClose source; AddClose unused]
  | Null => [AddOpen target (target =? 0)]
  end.

Definition spawn_actions (context : SpawnContext) : list file_action :=
  stdio_actions (stdin_config context) (fst (stdin_pipe context)) (snd (stdin_pipe context)) 0 ++
  stdio_actions (stdout_config context) (snd (stdout_pipe context)) (fst (stdout_pipe context)) 1 ++
  stdio_actions (stderr_config context) (snd (stderr_pipe context)) (fst (stderr_pipe context)) 2 ++
  match directory context with Some d => [AddChdir d] | None => [] end.

(** What POSIX says of the actions, in the child of [posix_spawn]. *)
Class ActionLaws {S} `{Kernel S} (perform : file_action -> table -> option table) : Prop := {
  perform_dup2 from to f t : from <> to -> t !! from = Some f ->
    perform (AddDup2 from to) t = Some (<[to := mkFile (file f) false]> t);
  perform_close fd t : is_Some (t !! fd) -> perform (AddClose fd) t = Some (delete fd t);
  perform_open target input t : perform (AddOpen target input) t = Some (<[target := mkFile (k_null input) false]> t);
  perform_chdir d t : perform (AddChdir d) t = Some t
}.

Fixpoint perform_all (perform : file_action -> table -> option table) (l : list file_action) (t : table) : option table :=
  match l with
  | [] => Some t
  | a :: l => match perform a t with Some t => perform_all perform l t | None => None end
  end.

Definition std_open (t : table) : Prop := forall fd, 0 <= fd <= 2 -> is_Some (t !! fd).

(** The two ends of a pipe that was asked for, above the standard descriptors. *)
Definition end_in (config : Stdio) (source unused : Z) (t : table) : Prop :=
  config = Piped ->
  (exists f g, t !! source = Some (mkFile f true) /\ t !! unused = Some (mkFile g true)) /\
  2 < source /\ 2 < unused /\ source <> unused.

Definition apart (c : Stdio) (p : Z * Z) (d : Stdio) (q : Z * Z) : Prop :=
  c = Piped -> d = Piped -> fst p <> fst q /\ fst p <> snd q /\ snd p <> fst q /\ snd p <> snd q.

Lemma end_in_swap config a b t : end_in config a b t -> end_in config b a t.
Proof. intros H E. destruct (H E) as ((f & g & Ha & Hb) & ? & ? & ?). split_and!; [by exists g, f|done..|congruence]. Qed.

Lemma after_exec_insert k x (t : table) : after_exec (<[k := mkFile x false]> t) = <[k := mkFile x false]> (after_exec t).
Proof. by apply map_filter_insert_True. Qed.

Lemma after_exec_delete fd (t : table) :
  (forall f, t !! fd = Some f -> close_on_exec f = true) -> after_exec (delete fd t) = after_exec t.
Proof.
  intros Hc. unfold after_exec. rewrite map_filter_delete. apply delete_id, map_lookup_filter_None.
  destruct (t !! fd) as [f|] eqn:E; [right|by left]. intros g [= <-]. cbn. by rewrite (Hc f).
Qed.

Lemma after_exec_fresh fd x (t : table) : t !! fd = None -> after_exec (<[fd := mkFile x true]> t) = after_exec t.
Proof.
  intros Hn. unfold after_exec. rewrite map_filter_insert_False; [|done]. by rewrite delete_id.
Qed.

Section Child.
Context {S : Type} `{KernelLaws S}.

(** A redirection leaves the child what was asked for. *)
Lemma redirect_table_exec config source unused target t : end_in config source unused t -> 0 <= target <= 2 ->
  after_exec (redirect_table config source unused target t) = redirected config source target t (after_exec t).
Proof.
  intros He Ht. destruct config; cbn; [done| |by apply after_exec_insert].
  destruct He as ((f & g & Hs & Hu) & H1' & H2' & H3'); [done|]. rewrite Hs.
  rewrite !after_exec_delete; [apply after_exec_insert| |].
  - intros h. rewrite lookup_insert_ne by lia. rewrite Hs. by intros [= <-].
  - intros h. rewrite lookup_delete_ne by done. rewrite lookup_insert_ne by lia. rewrite Hu. by intros [= <-].
Qed.

Lemma redirect_table_other config source unused target t fd : 0 <= target <= 2 -> 2 < fd ->
  (config = Piped -> fd <> source /\ fd <> unused) -> redirect_table config source unused target t !! fd = t !! fd.
Proof.
  intros Ht Hfd Ho. destruct config; cbn; [done| |by rewrite lookup_insert_ne by lia].
  destruct Ho as [Ho1 Ho2]; [done|]. destruct (t !! source) eqn:E; [|done].
  rewrite !lookup_delete_ne by done. by rewrite lookup_insert_ne by lia.
Qed.

Lemma end_in_other config source unused d p target t :
  0 <= target <= 2 -> end_in d (fst p) (snd p) t -> apart config (source, unused) d p ->
  end_in d (fst p) (snd p) (redirect_table config source unused target t).
Proof.
  intros Ht He Ha E. destruct (He E) as ((f & g & H1' & H2') & H3' & H4' & H5'). split; [|done].
  exists f, g. split; (etrans; [apply redirect_table_other|]; [done|done| |done]);
    intros Ec; destruct (Ha Ec E) as (? & ? & ? & ?); cbn in *; split; congruence.
Qed.

(** The redirected end is the one of the table that [exec] found. *)
Lemma redirected_same config source target t t' m :
  (config = Piped -> t' !! source = t !! source) -> redirected config source target t' m = redirected config source target t m.
Proof. intros Hs. destruct config; cbn; [done| |done]. by rewrite Hs. Qed.

(** *** The actions of [posix_spawn] *)

Section Actions.
Context (perform : file_action -> table -> option table) `{!ActionLaws perform}.

Lemma perform_all_app l1 l2 t : perform_all perform (l1 ++ l2) t =
  match perform_all perform l1 t with Some t => perform_all perform l2 t | None => None end.
Proof. revert t. induction l1 as [|a l1 IH]; intros t; cbn; [done|]. by destruct (perform a t). Qed.

Lemma perform_stdio config source unused target t : end_in config source unused t -> 0 <= target <= 2 ->
  perform_all perform (stdio_actions config source unused target) t = Some (redirect_table config source unused target t).
Proof.
  intros He Ht. destruct config; cbn; [done| |by rewrite perform_open].
  destruct He as ((f & g & Hs & Hu) & H1' & H2' & H3'); [done|].
  rewrite (perform_dup2 _ _ (mkFile f true)) by (done || lia). rewrite Hs, !perform_close; [done| |].
  - rewrite lookup_delete_ne by done. rewrite lookup_insert_ne by lia. by rewrite Hu.
  - rewrite lookup_insert_ne by lia. by rewrite Hs.
Qed.
End Actions.

(** *** The three redirections *)

Definition redirect_three (context : SpawnContext) (t : table) : table :=
  redirect_table (stderr_config context) (snd (stderr_pipe context)) (fst (stderr_pipe context)) 2
    (redirect_table (stdout_config context) (snd (stdout_pipe context)) (fst (stdout_pipe context)) 1
       (redirect_table (stdin_config context) (fst (stdin_pipe context)) (snd (stdin_pipe context)) 0 t)).

(** The pipes of the parent, as [spawn] makes them. *)
Definition pipes_in (context : SpawnContext) (t : table) : Prop :=
  end_in (stdin_config context) (fst (stdin_pipe context)) (snd (stdin_pipe context)) t /\
  end_in (stdout_config context) (fst (stdout_pipe context)) (snd (stdout_pipe context)) t /\
  end_in (stderr_config context) (fst (stderr_pipe context)) (snd (stderr_pipe context)) t /\
  apart (stdin_config context) (stdin_pipe context) (stdout_config context) (stdout_pipe context) /\
  apart (stdin_config context) (stdin_pipe context) (stderr_config context) (stderr_pipe context) /\
  apart (stdout_config context) (stdout_pipe context) (stderr_config context) (stderr_pipe context).

Lemma apart_swap c p d q : apart c p d q -> apart c (snd p, fst p) d q.
Proof. intros Ha E1 E2. destruct (Ha E1 E2) as (? & ? & ? & ?). by split_and!. Qed.

Lemma apart_pair c p d q : apart c p d q -> apart c (fst p, snd p) d q.
Proof. intros Ha E1 E2. by destruct (Ha E1 E2) as (? & ? & ? & ?). Qed.

(** What each redirection finds. *)
Lemma pipes_in_steps context t : pipes_in context t ->
  let t1 := redirect_table (stdin_config context) (fst (stdin_pipe context)) (snd (stdin_pipe context)) 0 t in
  let t2 := redirect_table (stdout_config context) (snd (stdout_pipe context)) (fst (stdout_pipe context)) 1 t1 in
  end_in (stdin_config context) (fst (stdin_pipe context)) (snd (stdin_pipe context)) t /\
  end_in (stdout_config context) (snd (stdout_pipe context)) (fst (stdout_pipe context)) t1 /\
  end_in (stderr_config context) (snd (stderr_pipe context)) (fst (stderr_pipe context)) t2.
Proof.
  intros (I1 & I2 & I3 & A12 & A13 & A23) t1 t2. split; [done|]. split; apply end_in_swap.
  - apply end_in_other; [lia|done|by apply apart_pair].
  - apply end_in_other; [lia| |by apply apart_swap]. apply end_in_other; [lia|done|by apply apart_pair].
Qed.

Lemma redirect_three_exec context t : pipes_in context t ->
  after_exec (redirect_three context t) = child_table context t (after_exec t).
Proof.
  intros Hp. pose proof (pipes_in_steps context t Hp) as (I1 & I2 & I3). cbv zeta in *.
  unfold redirect_three, child_table. rewrite !redirect_table_exec by (done || lia).
  destruct Hp as (J1 & J2 & J3 & A12 & A13 & A23).
  rewrite (redirected_same (stdout_config context) _ _ t).
  - apply redirected_same. intros E3. destruct (J3 E3) as (_ & ? & ? & _).
    rewrite !redirect_table_other; [done|lia|lia| |lia|lia|]; intros E; [destruct (A13 E E3)|destruct (A23 E E3)];
      split; intuition congruence.
  - intros E2. destruct (J2 E2) as (_ & ? & ? & _). apply redirect_table_other; [lia|lia|]. intros E.
    destruct (A12 E E2). split; intuition congruence.
Qed.

Lemma perform_spawn_actions perform `{!ActionLaws perform} context t : pipes_in context t ->
  perform_all perform (spawn_actions context) t = Some (redirect_three context t).
Proof.
  intros Hp. pose proof (pipes_in_steps context t Hp) as (I1 & I2 & I3). cbv zeta in *. unfold spawn_actions.
  rewrite perform_all_app, perform_stdio by (done || lia). rewrite perform_all_app, perform_stdio by (done || lia).
  rewrite perform_all_app, perform_stdio by (done || lia). destruct (directory context); cbn; [by rewrite perform_chdir|done].
Qed.

(** *** The child of [fork] *)

(** [m] turns the table [t] into [t'], unless it fails. *)
Definition child_does {A} (t : table) (m : M S unit A) (t' : A -> table -> Prop) : Prop :=
  forall s, descriptors s = t ->
    match m s with (Ret a, s') => t' a (descriptors s') | (Fail _, _) => True | _ => False end.

Lemma does_ret {A} t (a : A) (Q : A -> table -> Prop) : Q a t -> child_does t (ret a) Q.
Proof. intros HQ s Hs. cbn. by rewrite Hs. Qed.

Lemma does_bind {A B} t (m : M S unit A) (k : A -> M S unit B) Q :
  child_does t m (fun a t' => child_does t' (k a) Q) -> child_does t (bind m k) Q.
Proof.
  intros Hm s Hs. specialize (Hm s Hs). unfold bind. destruct (m s) as [[a|e| |] s']; [|done..]. by apply (Hm s').
Qed.

Lemma does_call {A} t (f : S -> A * S) (Q : A -> table -> Prop) :
  (forall s, descriptors s = t -> Q (fst (f s)) (descriptors (snd (f s)))) -> child_does t (child_call f) Q.
Proof. intros HQ s Hs. unfold child_call. specialize (HQ s Hs). by destruct (f s). Qed.

Lemma does_must t ok (Q : unit -> table -> Prop) : (ok = true -> Q tt t) -> child_does t (must ok) Q.
Proof. intros HQ. destruct ok; [by apply does_ret, HQ|done]. Qed.

Lemma does_close t fd (Q : unit -> table -> Prop) : Q tt (delete fd t) -> child_does t (child_close fd) Q.
Proof. intros HQ s Hs. cbn. by rewrite close_law, Hs. Qed.

Lemma does_dup2 t from to f (Q : unit -> table -> Prop) : from <> to -> t !! from = Some f ->
  Q tt (<[to := mkFile (file f) false]> t) ->
  child_does t (bind (child_call (k_dup2 from to)) must) Q.
Proof.
  intros Hne Hf HQ s Hs. unfold bind, child_call. destruct (k_dup2 from to s) as [[|] s'] eqn:E; [|done].
  destruct (dup2_law from to s s' Hne E) as (g & Hg & Hd). cbn. rewrite Hs in Hg. rewrite Hf in Hg. injection Hg as <-. by rewrite Hd, Hs.
Qed.

Lemma redirect_child_does config source unused target t (Q : unit -> table -> Prop) :
  end_in config source unused t -> 0 <= target <= 2 -> Q tt (redirect_table config source unused target t) ->
  child_does t (redirect_child config source unused target) Q.
Proof.
  intros He Ht HQ. destruct config; cbn in *; [by apply does_ret| |].
  - destruct He as ((f & g & Hs & Hu) & H1' & H2' & H3'); [done|]. rewrite Hs in HQ. unfold redirect_child_pipe.
    assert (negb (source =? target) = true) as -> by lia.
    assert (negb (unused =? source) && negb (unused =? target) = true) as -> by lia.
    apply does_bind, (does_dup2 _ source target (mkFile f true)); [lia|done|]. by apply does_bind, does_close, does_close.
  - unfold redirect_child_null. apply does_bind, does_call. intros s Hs.
    destruct (k_open_null (target =? 0) s) as [[d|] s'] eqn:E; [|by intros s1 _].
    destruct (open_null_law _ _ _ _ E) as (Hd & Hn & Ed). rewrite Hs in Hn, Ed. cbn. rewrite Ed.
    apply does_bind. destruct (negb (d =? target)) eqn:Ene.
    + apply (does_dup2 _ d target (mkFile (k_null (target =? 0)) false)); [lia|by rewrite lookup_insert_eq|].
      apply does_close. cbn. rewrite delete_insert_ne by lia. rewrite delete_insert_id by done. done.
    + apply does_ret, does_ret. by assert (d = target) as -> by lia.
Qed.

(** A call in the child that leaves the table alone. *)
Lemma does_neutral {A} t (f : S -> A * S) (Q : A -> table -> Prop) :
  (forall s, descriptors (snd (f s)) = descriptors s) -> (forall a, Q a t) -> child_does t (child_call f) Q.
Proof. intros Hf HQ. apply does_call. intros s <-. rewrite Hf. apply HQ. Qed.

(** Closing what [exec] would close. *)
Lemma pipes_in_delete context fd t :
  pipes_in context t ->
  ((stdin_config context = Piped -> fd <> fst (stdin_pipe context) /\ fd <> snd (stdin_pipe context)) /\
   (stdout_config context = Piped -> fd <> fst (stdout_pipe context) /\ fd <> snd (stdout_pipe context)) /\
   (stderr_config context = Piped -> fd <> fst (stderr_pipe context) /\ fd <> snd (stderr_pipe context))) ->
  pipes_in context (delete fd t).
Proof.
  intros (I1 & I2 & I3 & A) (N1 & N2 & N3).
  assert (forall c p, end_in c (fst p) (snd p) t -> (c = Piped -> fd <> fst p /\ fd <> snd p) -> end_in c (fst p) (snd p) (delete fd t)) as Hend.
  { intros c p He Hn E. destruct (He E) as ((f & g & H1' & H2') & ?). destruct (Hn E). split; [|done].
    exists f, g. by rewrite !lookup_delete_ne. }
  split_and!; [by apply Hend..|apply A|apply A|apply A].
Qed.

(** The ends of a pipe of the parent, as the child finds them: closed by
    [exec], and none of the standard descriptors or of the child's pipes. *)
Definition extra_end (context : SpawnContext) (t : table) (fd : Z) : Prop :=
  (forall f, t !! fd = Some f -> close_on_exec f = true) /\
  (stdin_config context = Piped -> fd <> fst (stdin_pipe context) /\ fd <> snd (stdin_pipe context)) /\
  (stdout_config context = Piped -> fd <> fst (stdout_pipe context) /\ fd <> snd (stdout_pipe context)) /\
  (stderr_config context = Piped -> fd <> fst (stderr_pipe context) /\ fd <> snd (stderr_pipe context)).

Definition ready (context : SpawnContext) (t t' : table) : Prop :=
  pipes_in context t' /\ after_exec t' = after_exec t /\
  child_table context t' (after_exec t') = child_table context t (after_exec t).

Lemma child_table_delete context t fd m : extra_end context t fd -> pipes_in context t ->
  child_table context (delete fd t) m = child_table context t m.
Proof.
  intros (_ & N1 & N2 & N3) _. unfold child_table.
  rewrite (redirected_same (stdin_config context) _ _ t), (redirected_same (stdout_config context) _ _ t), (redirected_same (stderr_config context) _ _ t);
    [done|intros E; apply lookup_delete_ne..]; [by apply N3|by apply N2|by apply N1].
Qed.

Lemma ready_delete context t t' fd : ready context t t' -> extra_end context t' fd -> ready context t (delete fd t').
Proof.
  intros (Hp & Ha & Hc) He. split_and!.
  - apply pipes_in_delete; [done|apply He].
  - rewrite after_exec_delete; [done|apply He].
  - rewrite after_exec_delete by apply He. by rewrite child_table_delete.
Qed.

Lemma extra_end_delete context t fd fd' : extra_end context t fd -> extra_end context (delete fd' t) fd.
Proof.
  intros (He & Hr). split; [|done]. intros f Hf. apply (He f). by apply lookup_delete_Some in Hf as [_ Hf].
Qed.

Section Setup.
Context (context : SpawnContext) (t : table).

Let wanted {A} (_ : A) (t' : table) : Prop := after_exec t' = child_table context t (after_exec t).

Lemma redirections_do t' : ready context t t' -> child_does t'
  (do* redirect_child (stdin_config context) (fst (stdin_pipe context)) (snd (stdin_pipe context)) 0;;
   do* redirect_child (stdout_config context) (snd (stdout_pipe context)) (fst (stdout_pipe context)) 1;;
   redirect_child (stderr_config context) (snd (stderr_pipe context)) (fst (stderr_pipe context)) 2) wanted.
Proof.
  intros (Hp & Ha & Hc). pose proof (pipes_in_steps context t' Hp) as (I1 & I2 & I3). cbv zeta in *.
  apply does_bind, redirect_child_does; [done|lia|]. apply does_bind, redirect_child_does; [done|lia|].
  apply redirect_child_does; [done|lia|]. unfold wanted. rewrite <- Hc. by apply redirect_three_exec.
Qed.

(** The calls between, each of which may end the child. *)
Lemma optional_does {B A} (o : option B) (f : B -> S -> bool * S) (k : CM A) t' (Q : A -> table -> Prop) :
  (forall b s, descriptors (snd (f b s)) = descriptors s) -> child_does t' k Q ->
  child_does t' (do* match o with Some b => let* ok := child_call (f b) in must ok | None => ret tt end;; k) Q.
Proof.
  intros Hf Hk. apply does_bind. destruct o as [b|]; [|by apply does_ret].
  apply does_bind, does_neutral; [apply Hf|]. intros ok. by apply does_must.
Qed.

(** The child has the descriptors that were asked for. *)
Lemma child_setup_does error_pipe channel :
  pipes_in context t -> extra_end context t (fst error_pipe) ->
  (pidfd_wanted context = true -> extra_end context t (fst channel) /\ extra_end context t (snd channel)) ->
  child_does t (child_setup context error_pipe channel) wanted.
Proof.
  intros Hp He Hc. unfold child_setup. apply does_bind, does_close.
  assert (ready context t (delete (fst error_pipe) t)) as R1 by (by apply ready_delete).
  apply does_bind. destruct (pidfd_wanted context).
  - destruct Hc as [Hc1 Hc2]; [done|]. apply does_bind, does_close. apply does_bind, does_neutral; [apply send_law|].
    intros error. apply does_bind, does_close, does_must. intros _.
    apply optional_does; [apply setpgid_law|]. apply optional_does; [apply chdir_law|]. apply redirections_do.
    apply ready_delete; [apply ready_delete; [done|]|]; repeat apply extra_end_delete; done.
  - apply does_ret. apply optional_does; [apply setpgid_law|]. apply optional_does; [apply chdir_law|]. by apply redirections_do.
Qed.
End Setup.

(** *** The actions given to [posix_spawn] *)

(** Without an error, the actions so far are [l]. *)
Definition added (l : list file_action) (b : Building) : Prop := fst b = 0 -> snd b = l.

(** [m] leaves the table, and with no error it ends with the actions [l]. *)
Definition adds (m : SM Building) (l : list file_action) : Prop :=
  forall s, match m s with (Ret b, s') => descriptors s' = descriptors s /\ added l b | _ => False end.

Lemma adds_ret b l : added l b -> adds (ret b) l.
Proof. intros Hb s. by split. Qed.

Lemma adds_then m (k : Building -> SM Building) l l' :
  adds m l -> (forall b, added l b -> adds (k b) l') -> adds (bind m k) l'.
Proof.
  intros Hm Hk s. specialize (Hm s). unfold bind. destruct (m s) as [[b|e| |] s1]; [|done..]. destruct Hm as [Hd Hb].
  specialize (Hk b Hb s1). destruct (k b s1) as [[b'|e| |] s2]; [|done..]. by rewrite <- Hd.
Qed.

Lemma adds_action a b l : added l b -> fst b = 0 -> adds (add_action a b) (l ++ [a]).
Proof.
  intros Hb E s. unfold add_action, bind, call. pose proof (add_law a s) as Ha. destruct (k_add a s) as [error s'].
  cbn in *. split; [done|]. intros E'. cbn in *. rewrite E', (Hb E). done.
Qed.

(** An action that is added unless there was an error. *)
Lemma adds_guarded a b l : added l b -> adds (if negb (fst b =? 0) then ret b else add_action a b) (l ++ [a]).
Proof.
  intros Hb. destruct (Z.eqb_spec (fst b) 0) as [E|E]; cbn; [by apply adds_action|]. apply adds_ret. by intros ?.
Qed.

Lemma adds_stdio config source unused target b t l : end_in config source unused t -> 0 <= target <= 2 ->
  added l b -> adds (add_stdio config source unused target b) (l ++ stdio_actions config source unused target).
Proof.
  intros He Ht Hb. unfold add_stdio. destruct (Z.eqb_spec (fst b) 0) as [E|E]; cbn; [|apply adds_ret; by intros ?].
  destruct config; cbn.
  - rewrite app_nil_r. by apply adds_ret.
  - destruct He as (_ & H1' & H2' & H3'); [done|]. unfold add_pipe_actions.
    assert (negb (source =? target) = true) as -> by lia.
    assert (negb (unused =? source) && negb (unused =? target) = true) as -> by lia.
    replace (l ++ _) with (((l ++ [AddDup2 source target]) ++ [AddClose source]) ++ [AddClose unused]) by (by rewrite <- !app_assoc).
    eapply adds_then; [|intros b' Hb'; by apply adds_guarded].
    eapply adds_then; [by apply adds_action|intros b' Hb'; by apply adds_guarded].
  - by apply adds_action.
Qed.

(** A run goes on after the actions are added. *)
Lemma adds_run {A} m l (k : Building -> SM A) x s s' :
  adds m l -> bind m k s = (Ret x, s') -> exists b s1, added l b /\ descriptors s1 = descriptors s /\ k b s1 = (Ret x, s').
Proof.
  intros Hm Hrun. specialize (Hm s). unfold bind in Hrun. destruct (m s) as [[b|e| |] s1]; [|done..].
  exists b, s1. by destruct Hm.
Qed.

Lemma adds_chdir context b l : added l b ->
  adds (match directory context with Some d => if fst b =? 0 then add_action (AddChdir d) b else ret b | None => ret b end)
    (l ++ match directory context with Some d => [AddChdir d] | None => [] end).
Proof.
  intros Hb. destruct (directory context) as [d|]; [|rewrite app_nil_r; by apply adds_ret].
  destruct (Z.eqb_spec (fst b) 0) as [E|E]; [by apply adds_action|]. apply adds_ret. by intros ?.
Qed.

(** What [posix_spawnp] is called with. *)
Lemma try_posix_spawn_actions context t s pid s' : pipes_in context t ->
  try_posix_spawn context s = (Ret (Some pid), s') ->
  exists s1, k_posix_spawnp (program context) (spawn_actions context) (process_group context) (arguments context) (environment context) s1 = (Ok pid, s') /\ descriptors s1 = descriptors s.
Proof.
  intros (I1 & I2 & I3 & _) Hrun. apply end_in_swap in I2, I3. unfold try_posix_spawn in Hrun.
  destruct (requires_fork context || _); [done|]. destruct (pidfd_wanted context); [done|].
  destruct (match directory context with Some _ => _ | None => _ end); [done|].
  unfold bind at 1, call at 1 in Hrun. pose proof (init_law s) as Hi. destruct (k_actions_init s) as [error s0]. cbn in Hi.
  destruct (negb (error =? 0)); [done|]. clear error.
  destruct (adds_run _ _ _ _ _ _ (adds_stdio _ _ _ 0 (0, []) t [] I1 ltac:(lia) ltac:(by intros ?)) Hrun) as (b1 & s1 & Hb1 & E1 & Hrun1). clear Hrun. rename Hrun1 into Hrun.
  destruct (adds_run _ _ _ _ _ _ (adds_stdio _ _ _ 1 b1 t _ I2 ltac:(lia) Hb1) Hrun) as (b2 & s2 & Hb2 & E2 & Hrun2). clear Hrun. rename Hrun2 into Hrun.
  destruct (adds_run _ _ _ _ _ _ (adds_stdio _ _ _ 2 b2 t _ I3 ltac:(lia) Hb2) Hrun) as (b3 & s3 & Hb3 & E3 & Hrun3). clear Hrun. rename Hrun3 into Hrun.
  destruct (adds_run _ _ _ _ _ _ (adds_chdir context b3 _ Hb3) Hrun) as (b4 & s4 & Hb4 & E4 & Hrun4). clear Hrun. rename Hrun4 into Hrun.
  assert (exists error s5, descriptors s5 = descriptors s4 /\ (error = 0 -> fst b4 = 0) /\
    (if negb (error =? 0) then throw (Os error)
     else let* spawned := call (k_posix_spawnp (program context) (snd b4) (process_group context) (arguments context) (environment context)) in
          match spawned with Ok child_pid => ret (Some child_pid) | Err error => throw (Os error) end) s5 = (Ret (Some pid), s'))
    as (error & s5 & E5 & He & Hlast).
  { destruct (process_group context) as [g|]; [|by exists (fst b4), s4]. destruct (Z.eqb_spec (fst b4) 0) as [E|E]; [|by exists (fst b4), s4].
    unfold bind at 1, call at 1 in Hrun. pose proof (attributes_law g s4) as Hg. destruct (k_attributes g s4) as [error s5].
    by exists error, s5. }
  destruct (Z.eqb_spec error 0) as [Ez|]; [|done]. cbn [negb] in Hlast. unfold bind, call in Hlast.
  assert (snd b4 = spawn_actions context) as Eb by (unfold spawn_actions; rewrite Hb4 by auto; by rewrite <- !app_assoc).
  rewrite Eb in Hlast. destruct (k_posix_spawnp _ _ _ _ _ s5) as [[p|e] s6] eqn:Ek; [|done]. injection Hlast as <- <-.
  exists s5. split; [done|]. congruence.
Qed.

(** *** The pipes, as the parent makes them *)

Lemma pair_run f s p s' : pair_law f -> f s = (Ok p, s') ->
  fresh_pair (dom (descriptors s)) p /\
  exists x y, descriptors s' = <[snd p := mkFile y true]> (<[fst p := mkFile x true]> (descriptors s)).
Proof.
  intros Hf E. specialize (Hf s). rewrite E in Hf. destruct p as [r w]. destruct Hf as (H1' & H2' & H3' & H4' & H5' & x & y & Hd).
  split; [|by exists x, y]. split_and!; [done..|by apply not_elem_of_dom|by apply not_elem_of_dom].
Qed.

(** [t'] is [t] with descriptors that [exec] closes. *)
Definition grown (t t' : table) : Prop := t ⊆ t' /\ after_exec t' = after_exec t.

Lemma grown_trans t1 t2 t3 : grown t1 t2 -> grown t2 t3 -> grown t1 t3.
Proof. intros [S1 E1] [S2 E2]. split; [by etrans|by rewrite E2]. Qed.

Lemma grown_pair t p x y : fresh_pair (dom t) p ->
  grown t (<[snd p := mkFile y true]> (<[fst p := mkFile x true]> t)).
Proof.
  intros (H1' & H2' & H3' & H4'%not_elem_of_dom & H5'%not_elem_of_dom).
  assert (<[fst p := mkFile x true]> t !! snd p = None) as Hn by (by rewrite lookup_insert_ne).
  split; [etrans; by apply insert_subseteq|]. by rewrite !after_exec_fresh.
Qed.

Lemma make_pipe_run config earlier s p s' : make_pipe config earlier s = (Ret p, s') ->
  grown (descriptors s) (descriptors s') /\
  (config = Piped -> fresh_pair (dom (descriptors s)) p /\
     exists x y, descriptors s' = <[snd p := mkFile y true]> (<[fst p := mkFile x true]> (descriptors s))).
Proof.
  unfold make_pipe. destruct config; cbn; [by intros [= <- <-]| |by intros [= <- <-]].
  unfold bind at 1, call at 1. destruct (k_pipe2 s) as [[q|e] s1] eqn:E; cbn.
  - intros [= -> ->]. pose proof (pair_run _ _ _ _ pipe2_pair E) as (Hf & x & y & Hd). split; [|by eauto].
    rewrite Hd. by apply grown_pair.
  - intros Hrun. exfalso. revert Hrun. unfold bind at 1. repeat case_match; by intros [=].
Qed.

(** An open descriptor keeps what it stands for. *)
Lemma end_in_grown config a b t t' : end_in config a b t -> grown t t' -> end_in config a b t'.
Proof.
  intros He [Hs _] E. destruct (He E) as ((f & g & H1' & H2') & ?). split; [|done]. exists f, g.
  split; by eapply lookup_weaken.
Qed.

Lemma std_open_grown t t' : std_open t -> grown t t' -> std_open t'.
Proof. intros Ho [Hs _] fd Hfd. destruct (Ho fd Hfd) as [f Hf]. exists f. by eapply lookup_weaken. Qed.

Lemma fresh_above t p : std_open t -> fresh_pair (dom t) p -> 2 < fst p /\ 2 < snd p.
Proof.
  intros Ho (H1' & H2' & _ & H4' & H5').
  assert (forall fd, 0 <= fd -> fd ∉ dom t -> 2 < fd) as Hfd.
  { intros fd H0' Hn. destruct (Z.lt_ge_cases 2 fd); [done|]. destruct Hn. apply elem_of_dom. apply Ho. lia. }
  split; by apply Hfd.
Qed.

Lemma make_pipe_end config earlier s p s' : std_open (descriptors s) -> make_pipe config earlier s = (Ret p, s') ->
  end_in config (fst p) (snd p) (descriptors s').
Proof.
  intros Ho Hrun E. destruct (make_pipe_run _ _ _ _ _ Hrun) as [_ Hp]. destruct (Hp E) as (Hf & x & y & Hd).
  destruct (fresh_above _ _ Ho Hf) as [H1' H2']. destruct Hf as (_ & _ & H3' & _). split; [|by split_and!].
  exists x, y. rewrite Hd. by rewrite lookup_insert_ne, !lookup_insert_eq by congruence.
Qed.

(** A pipe that was open is apart from one that is made. *)
Lemma fresh_apart c p d q t : end_in c (fst p) (snd p) t -> (d = Piped -> fresh_pair (dom t) q) -> apart c p d q.
Proof.
  intros He Hf Ec Ed. destruct (He Ec) as ((f & g & H1' & H2') & _). destruct (Hf Ed) as (_ & _ & _ & N1 & N2).
  apply elem_of_dom_2 in H1', H2'. split_and!; intros E; rewrite E in *; contradiction.
Qed.

Lemma fresh_extra c p t q : end_in c (fst p) (snd p) t -> fresh_pair (dom t) q ->
  (c = Piped -> fst q <> fst p /\ fst q <> snd p) /\ (c = Piped -> snd q <> fst p /\ snd q <> snd p).
Proof.
  intros He Hf. pose proof (fresh_apart c p Piped q t He (fun _ => Hf)) as Ha.
  split; intros Ec; destruct (Ha Ec eq_refl) as (? & ? & ? & ?); split; congruence.
Qed.

(** The pipes of a command. *)
Record spawn_pipes (cmd : SpawnCommand) (s0 : S) (stdin stdout stderr : Z * Z) (s3 : S) : Prop := {
  pipes_std : std_open (descriptors s0);
  pipes_made : exists s1 s2,
    make_pipe (cfg_stdin_ cmd) [] s0 = (Ret stdin, s1) /\
    make_pipe (cfg_stdout_ cmd) [stdin] s1 = (Ret stdout, s2) /\
    make_pipe (cfg_stderr_ cmd) [stdin; stdout] s2 = (Ret stderr, s3)
}.

Lemma spawn_pipes_in cmd environ s0 stdin stdout stderr s3 : spawn_pipes cmd s0 stdin stdout stderr s3 ->
  pipes_in (context_of cmd environ stdin stdout stderr) (descriptors s3) /\ grown (descriptors s0) (descriptors s3).
Proof.
  intros [Ho (s1 & s2 & R1 & R2 & R3)].
  destruct (make_pipe_run _ _ _ _ _ R1) as [G1 F1], (make_pipe_run _ _ _ _ _ R2) as [G2 F2], (make_pipe_run _ _ _ _ _ R3) as [G3 F3].
  pose proof (std_open_grown _ _ Ho G1) as Ho1. pose proof (std_open_grown _ _ Ho1 G2) as Ho2.
  pose proof (make_pipe_end _ _ _ _ _ Ho R1) as I1. pose proof (make_pipe_end _ _ _ _ _ Ho1 R2) as I2.
  pose proof (make_pipe_end _ _ _ _ _ Ho2 R3) as I3. pose proof (end_in_grown _ _ _ _ _ I1 G2) as I12.
  split; [|by eauto using grown_trans]. split_and!; cbn.
  - by eapply end_in_grown.
  - by eapply end_in_grown.
  - done.
  - eapply fresh_apart; [exact I1|]. intros E. by destruct (F2 E).
  - eapply fresh_apart; [exact I12|]. intros E. by destruct (F3 E).
  - eapply fresh_apart; [exact I2|]. intros E. by destruct (F3 E).
Qed.

(** What [fork_exec] opens besides is no part of the child. *)
Lemma fresh_extra_ends context t t' p x y : pipes_in context t -> fresh_pair (dom t) p ->
  t' = <[snd p := mkFile y true]> (<[fst p := mkFile x true]> t) ->
  extra_end context t' (fst p) /\ extra_end context t' (snd p).
Proof.
  intros (I1 & I2 & I3 & _) Hf ->. destruct (fresh_extra _ _ _ _ I1 Hf) as [X1 Y1], (fresh_extra _ _ _ _ I2 Hf) as [X2 Y2], (fresh_extra _ _ _ _ I3 Hf) as [X3 Y3].
  destruct Hf as (_ & _ & Hne & _). split; split_and!; try done; intros f.
  - rewrite lookup_insert_ne, lookup_insert_eq by congruence. by intros [= <-].
  - rewrite lookup_insert_eq. by intros [= <-].
Qed.

Lemma pipes_in_grown context t t' : pipes_in context t -> grown t t' -> pipes_in context t'.
Proof. intros (I1 & I2 & I3 & A) G. split_and!; [by eapply end_in_grown..|apply A|apply A|apply A]. Qed.

Lemma child_table_grown context t t' m : pipes_in context t -> grown t t' -> child_table context t' m = child_table context t m.
Proof.
  intros (I1 & I2 & I3 & _) [G _].
  assert (forall c p, end_in c (fst p) (snd p) t -> c = Piped -> t' !! fst p = t !! fst p /\ t' !! snd p = t !! snd p) as Hsame.
  { intros c p He E. destruct (He E) as ((f & g & H1' & H2') & _). rewrite H1', H2'. split; by eapply lookup_weaken. }
  unfold child_table.
  rewrite (redirected_same (stdin_config context) _ _ t), (redirected_same (stdout_config context) _ _ t), (redirected_same (stderr_config context) _ _ t);
    [done|intros E..]; [by apply (Hsame _ _ I3 E)|by apply (Hsame _ _ I2 E)|by apply (Hsame _ _ I1 E)].
Qed.

(** The channel of the [PidFd], opened after the error pipe. *)
Lemma channel_extra context (wanted : bool) s4 s5 (channel error_pipe : Z * Z) : pipes_in context (descriptors s4) ->
  (if wanted then k_socketpair s4 = (Ok channel, s5) else s5 = s4) -> is_Some (descriptors s4 !! fst error_pipe) ->
  extra_end context (descriptors s4) (fst error_pipe) ->
  grown (descriptors s4) (descriptors s5) /\
  (wanted = true -> extra_end context (descriptors s5) (fst channel) /\ extra_end context (descriptors s5) (snd channel)) /\
  extra_end context (descriptors s5) (fst error_pipe).
Proof.
  intros Hin Hc [f Hf] He. destruct wanted.
  - destruct (pair_run _ _ _ _ socketpair_pair Hc) as (F & x & y & D). pose proof (grown_pair _ _ x y F) as G. rewrite <- D in G.
    split; [done|]. split; [intros _; by eapply fresh_extra_ends|]. destruct He as [Hx Hr]. split; [|done].
    intros g Hg. rewrite (lookup_weaken _ _ _ _ Hf (proj1 G)) in Hg. injection Hg as <-. by apply Hx.
  - subst s5. split; [done|]. by split.
Qed.
End Child.

(** ** A concrete system

    A table of descriptors and the numbers that will be given out, in order. *)

Record host := mkHost { open_ : table; free_ : list Z }.

Definition EMFILE : Z := 24.

Definition new_pair (h : host) : result (Z * Z) Z * host :=
  match free_ h with
  | r :: w :: rest =>
    if decide (0 <= r /\ 0 <= w /\ r <> w /\ open_ h !! r = None /\ open_ h !! w = None)
    then (Ok (r, w), mkHost (<[w := mkFile (100 + w) true]> (<[r := mkFile (100 + r) true]> (open_ h))) rest)
    else (Err EMFILE, h)
  | _ => (Err EMFILE, h)
  end.

Definition new_one (f : open_file) (h : host) : option Z * host :=
  match free_ h with
  | d :: rest => if decide (0 <= d /\ open_ h !! d = None) then (Some d, mkHost (<[d := f]> (open_ h)) rest) else (None, h)
  | [] => (None, h)
  end.

Definition null_file (input : bool) : Z := if input then 50 else 51.

#[export] Instance host_kernel : Kernel host := {
  descriptors := open_;
  k_close fd h := mkHost (delete fd (open_ h)) (free_ h);
  k_pipe2 := new_pair;
  k_socketpair := new_pair;
  k_dup2 from to h := match open_ h !! from with
                      | Some f => (true, mkHost (<[to := mkFile (file f) false]> (open_ h)) (free_ h))
                      | None => (false, h)
                      end;
  k_open_null input := new_one (mkFile (null_file input) false);
  k_fork h := (Ok 1000, h);
  k_receive_pidfd _ := new_one (mkFile 60 true);
  k_read_error h := (EndOfFile, h);
  k_kill_wait _ _ h := h;
  k_posix_spawn_reports := true;
  k_addchdir := true;
  k_actions_init h := (0, h);
  k_add _ h := (0, h);
  k_attributes _ h := (0, h);
  k_posix_spawnp _ _ _ _ _ h := (Ok 1000, h);
  k_send_pidfd _ h := (0, h);
  k_setpgid _ h := (true, h);
  k_chdir _ h := (true, h);
  k_null := null_file
}.

Lemma new_pair_law : pair_law new_pair.
Proof.
  intros [t l]. unfold new_pair. cbn. destruct l as [|r [|w rest]]; [done..|]. case_decide as Hd; [|done].
  destruct Hd as (? & ? & ? & ? & ?). cbn. split_and!; try done. by eexists _, _.
Qed.

#[export] Instance host_laws : KernelLaws host.
Proof.
  split; try done.
  - exact new_pair_law.
  - exact new_pair_law.
  - intros fd [t l]. cbn. unfold new_one. cbn. destruct l as [|d rest]; [done|]. case_decide as Hd; [|done].
    cbn. split_and!; [apply Hd..|]. by eexists.
  - intros from to [t l] s' _. cbn. destruct (t !! from) as [f|] eqn:E; [|done]. intros [= <-]. by exists f.
  - intros input [t l] d s'. cbn. unfold new_one. cbn. destruct l as [|d' rest]; [done|]. case_decide as Hd; [|done].
    intros [= -> <-]. by split_and!; try apply Hd.
Qed.

Definition host_perform (a : file_action) (t : table) : option table :=
  match a with
  | AddDup2 from to => match t !! from with Some f => Some (<[to := mkFile (file f) false]> t) | None => None end
  | AddClose fd => match t !! fd with Some _ => Some (delete fd t) | None => None end
  | AddOpen target input => Some (<[target := mkFile (null_file input) false]> t)
  | AddChdir _ => Some t
  end.

#[export] Instance host_actions : ActionLaws host_perform.
Proof.
  split; try done.
  - intros from to f t _ E. cbn. by rewrite E.
  - intros fd t [f E]. cbn. by rewrite E.
Qed.

(** A program with its three standard descriptors. *)
Definition std_host (free : list Z) : host :=
  mkHost (<[2 := mkFile 3 false]> (<[1 := mkFile 2 false]> {[0 := mkFile 1 false]})) free.

Definition cat_command (input output error : Stdio) (pidfd : bool) : SpawnCommand :=
  mkSpawn [99; 97; 116] [] None input output error (Environment.mkCommand false []) None pidfd.

(** With descriptor 0 closed in the parent, the read end of a pipe is 0.  A
    child whose input is that pipe is left with an end that [exec] closes; a
    child whose input is ["/dev/null"] and whose output is the pipe has 0
    closed again as the unused end.  Either way the program starts with no
    standard input. *)
Lemma closed_stdin_lost :
  let closed := mkHost (delete 0 (open_ (std_host []))) [0; 3; 4; 5; 6; 7] in
  let child (cmd : SpawnCommand) :=
    match (let* stdin := make_pipe (cfg_stdin_ cmd) [] in
           let* stdout := make_pipe (cfg_stdout_ cmd) [stdin] in
           let* error_pipe := call k_pipe2 in
           ret (stdin, stdout, error_pipe)) closed with
    | (Ret (stdin, stdout, Ok error_pipe), s) =>
      match child_setup (context_of cmd [] stdin stdout NO_PIPE) error_pipe NO_PIPE s with
      | (Ret _, s) => Some (after_exec (descriptors s) !! 0)
      | _ => None
      end
    | _ => None
    end in
  child (cat_command Piped Inherit Inherit false) = Some None /\ child (cat_command Null Piped Inherit false) = Some None.
Proof. split; vm_compute; reflexivity. Qed.

(** C23: Spawning loses no descriptor and touches none of the parent's.  Whatever
    the calls of the system return, [spawn] ends; on every error the table of
    descriptors is what it was before; and on success it has, besides what it
    had, exactly the ends that the [Child] owns, one for each pipe that was
    asked for, and dropping the [Child] leaves the table as it was. *)
Theorem spawn_keeps_descriptors {S : Type} `{KernelLaws S} environ cmd (s : S) :
  match spawn environ cmd s with
  | (Fail _, s') => descriptors s' = descriptors s
  | (Ret child, s') =>
    (exists m : gmap Z open_file, dom m = child_set child /\ m ##ₘ descriptors s /\ descriptors s' = m ∪ descriptors s) /\
    ends_match cmd child /\
    exists s'', drop_child child s' = (Ret tt, s'') /\ descriptors s'' = descriptors s
  | _ => False
  end.
Proof.
  assert (owns (descriptors s) ∅ s) as Hs.
  { exists ∅. split_and!; [apply dom_empty_L|apply map_disjoint_empty_l|by rewrite map_empty_union]. }
  assert (forall s', owns (descriptors s) ∅ s' -> descriptors s' = descriptors s) as Hnone.
  { intros s' (m & Hm & _ & ->). apply dom_empty_inv_L in Hm as ->. by rewrite map_empty_union. }
  pose proof (spawn_keeps (descriptors s) environ cmd s Hs) as Hk. destruct (spawn environ cmd s) as [[child|e| |] s']; [| |done..].
  - destruct Hk as (Y & Ho & -> & Hd & He). split; [exact Ho|]. split; [done|].
    pose proof (drop_child_keeps (descriptors s) child Hd s' Ho) as Hdrop. destruct (drop_child child s') as [[[]|e| |] s'']; [| |done..].
    + destruct Hdrop as (Y & Ho' & ->). exists s''. split; [done|]. by apply Hnone.
    + by destruct Hdrop as (? & ? & []).
  - destruct Hk as (Y & Ho & ->). by apply Hnone.
Qed.

(** Spawning [cat] with three pipes and a [PidFd], and dropping the [Child]. *)
Lemma spawn_keeps_descriptors_witness :
  exists child s' s'', spawn [] (cat_command Piped Piped Piped true) (std_host [3; 4; 5; 6; 7; 8; 9; 10; 11; 12; 13]) = (Ret child, s') /\
    drop_child child s' = (Ret tt, s'') /\ open_ s'' = open_ (std_host []).
Proof.
  pose proof (spawn_keeps_descriptors (S := host) [] (cat_command Piped Piped Piped true) (std_host [3; 4; 5; 6; 7; 8; 9; 10; 11; 12; 13])) as Hk.
  destruct (spawn [] _ _) as [[child|e| |] s'] eqn:E; [|vm_compute in E; discriminate E..].
  destruct Hk as (_ & _ & s'' & Hd & Hs). exists child, s', s''. split; [reflexivity|]. split; [exact Hd|exact Hs].
Defined.

(** C24: A spawned program inherits exactly the descriptors that were asked for.
    When the parent has its three standard descriptors, and the pipes of the
    command are made as [spawn] makes them, then the table that the program
    finds after [exec] is the parent's inheritable descriptors with the ends of
    the pipes and ["/dev/null"] in their places, and nothing else: no end of
    any pipe, nor the error pipe or the [PidFd] channel, leaks into it.  This
    holds for a child of [fork], if its setup does not fail, and for the
    actions that [posix_spawnp] is given, and so the two ways to start a child
    agree. *)
Theorem child_inherits_exactly {S : Type} `{KernelLaws S} perform `{!ActionLaws perform} cmd environ (s0 s3 : S) stdin stdout stderr :
  spawn_pipes cmd s0 stdin stdout stderr s3 ->
  let context := context_of cmd environ stdin stdout stderr in
  let expected := child_table context (descriptors s3) (after_exec (descriptors s0)) in
  (forall error_pipe channel s4 s5 child,
     k_pipe2 s3 = (Ok error_pipe, s4) ->
     (if create_pidfd_ cmd then k_socketpair s4 = (Ok channel, s5) else s5 = s4) ->
     descriptors child = descriptors s5 ->
     match child_setup context error_pipe channel child with
     | (Ret _, s') => after_exec (descriptors s') = expected
     | (Fail _, _) => True
     | _ => False
     end) /\
  (forall pid s', try_posix_spawn context s3 = (Ret (Some pid), s') ->
     exists s4 t', k_posix_spawnp (program context) (spawn_actions context) (process_group context) (arguments context) (environment context) s4 = (Ok pid, s') /\
       descriptors s4 = descriptors s3 /\
       perform_all perform (spawn_actions context) (descriptors s4) = Some t' /\ after_exec t' = expected).
Proof.
  intros Hp context expected. destruct (spawn_pipes_in _ environ _ _ _ _ _ Hp) as [Hin Hg]. fold context in Hin.
  assert (expected = child_table context (descriptors s3) (after_exec (descriptors s3))) as -> by (unfold expected; by rewrite (proj2 Hg)).
  split.
  - intros error_pipe channel s4 s5 child E4 E5 Ec.
    destruct (pair_run _ _ _ _ pipe2_pair E4) as (F4 & x4 & y4 & D4). pose proof (grown_pair _ _ x4 y4 F4) as G4. rewrite <- D4 in G4.
    pose proof (pipes_in_grown _ _ _ Hin G4) as Hin4.
    destruct (fresh_extra_ends _ _ _ _ _ _ Hin F4 D4) as [X4 _].
    assert (grown (descriptors s4) (descriptors s5) /\
      (create_pidfd_ cmd = true -> extra_end context (descriptors s5) (fst channel) /\ extra_end context (descriptors s5) (snd channel)) /\
      extra_end context (descriptors s5) (fst error_pipe)) as (G5 & X5 & X45)
      by (apply (channel_extra context (create_pidfd_ cmd) _ _ _ _ Hin4 E5); [rewrite D4, lookup_insert_ne, lookup_insert_eq by (apply not_eq_sym, F4); by eexists|done]).
    pose proof (grown_trans _ _ _ G4 G5) as G. rewrite <- (child_table_grown context _ _ _ Hin G), <- (proj2 G).
    apply (child_setup_does context (descriptors s5) error_pipe channel); [by eapply pipes_in_grown|done..].
  - intros pid s' Hrun. destruct (try_posix_spawn_actions _ _ _ _ _ Hin Hrun) as (s4 & Ek & Ed).
    exists s4, (redirect_three context (descriptors s3)). rewrite Ed. split_and!; [done..|by apply perform_spawn_actions|by apply redirect_three_exec].
Qed.

(** A child with its input and output piped and its errors thrown away, started
    both ways: it finds 0, 1 and 2, and nothing else. *)
Lemma child_inherits_exactly_witness :
  let cmd := cat_command Piped Piped Null false in
  let s0 := std_host [3; 4; 5; 6; 7; 8; 9] in
  let made : SM ((Z * Z) * (Z * Z) * (Z * Z)) :=
    let* a := make_pipe Piped [] in let* b := make_pipe Piped [a] in let* c := make_pipe Null [a; b] in ret (a, b, c) in
  let s3 := snd (made s0) in
  let context := context_of cmd [] (3, 4) (5, 6) NO_PIPE in
  let expected := child_table context (open_ s3) (after_exec (open_ s0)) in
  after_exec (open_ (snd (child_setup context (7, 8) NO_PIPE (snd (k_pipe2 s3))))) = expected /\
  (exists t', perform_all host_perform (spawn_actions context) (open_ s3) = Some t' /\ after_exec t' = expected) /\
  expected = <[2 := mkFile 51 false]> (<[1 := mkFile 106 false]> {[0 := mkFile 103 false]}).
Proof.
  intros cmd s0 made s3 context expected.
  assert (spawn_pipes cmd s0 (3, 4) (5, 6) NO_PIPE s3) as Hp.
  { split.
    - intros fd Hfd. assert (fd = 0 \/ fd = 1 \/ fd = 2) as [->|[->| ->]] by lia; by eexists.
    - exists (snd (make_pipe Piped [] s0)), (snd (make_pipe Piped [(3, 4)] (snd (make_pipe Piped [] s0)))). by split_and!. }
  destruct (child_inherits_exactly host_perform cmd [] s0 s3 _ _ _ Hp) as [Hfork Hspawn]. split_and!.
  - assert (k_pipe2 s3 = (Ok (7, 8), snd (k_pipe2 s3))) as E by reflexivity.
    specialize (Hfork (7, 8) NO_PIPE _ (snd (k_pipe2 s3)) (snd (k_pipe2 s3)) E eq_refl eq_refl). fold context in Hfork.
    destruct (child_setup context (7, 8) NO_PIPE (snd (k_pipe2 s3))) as [r s'] eqn:Er. vm_compute in Er. injection Er as <- <-. exact Hfork.
  - destruct (Hspawn 1000 s3 eq_refl) as (s4 & t' & _ & Ed & Hall & He). exists t'. split; [|exact He]. fold context in Hall.
    cbn in Ed. rewrite <- Ed. exact Hall.
  - vm_compute. reflexivity.
Defined.

(** ** The handle of a child

    [Child::wait], [try_wait], [kill] and [kill_process_group], by pid or
    through a [PidFd].  The calls that name the process are recorded, to state
    that none is made once the process may be gone and its pid another's. *)

Module Handle.

Record ExitStatus := mkStatus { code_ : Z; exited_ : bool }.

Definition from_code (code : Z) : ExitStatus := mkStatus code true.
Definition from_signal (sig : Z) : ExitStatus := mkStatus sig false.
Definition success (s : ExitStatus) : bool := exited_ s && (code_ s =? 0).
Definition code (s : ExitStatus) : option Z := if exited_ s then Some (code_ s) else None.
Definition signal (s : ExitStatus) : option Z := if negb (exited_ s) then Some (code_ s) else None.

Record PidFdWait := mkWait { available : bool; signaled : bool; wait_status : Z; error : Z }.

(** What [waitpid] returns: -1, 0 or the pid with the raw status. *)
Inductive wait_answer := WaitError (errno : Z) | NothingYet | Reaped (raw : Z).

Record siginfo := mkInfo { si_pid : Z; si_code : Z; si_status : Z }.

Inductive WaitFailure := InvalidInput | OsError (errno : Z).

(** The system: the answers are its own, and so is the encoding of a raw status. *)
Class Waiting (S : Type) := {
  k_waitpid : Z -> bool -> S -> wait_answer * S;
  k_waitid : Z -> bool -> S -> result siginfo Z * S;
  k_pidfd_info : Z -> S -> option Z * S;                (** the status that the kernel saved *)
  k_kill : bool -> Z -> Z -> S -> option Z * S;         (** [killpg] or [kill] *)
  k_pidfd_send_signal : Z -> Z -> bool -> S -> Z * S;
  k_close_stdin : Z -> S -> S;
  wait_exited : Z -> bool; wait_exitstatus : Z -> Z;
  wait_signaled : Z -> bool; wait_termsig : Z -> Z
}.

Definition EINTR : Z := 4.
Definition ECHILD : Z := 10.
Definition SIGKILL : Z := 9.
Definition CLD_EXITED : Z := 1.

(** The calls that name the process, with their answers. *)
Inductive event :=
| Waited (nohang : bool) (a : wait_answer)
| WaitedFd (answer : result siginfo Z)
| Asked (saved : option Z)
| Signalled (group : bool).

Section Handle.
Context {S : Type} `{Waiting S}.

(** A [Child] with the system it lives in, and the calls so far, the last first. *)
Record Process := mkProcess {
  pid : Z; pidfd_ : option Z; stdin_pipe : option Z; status : option ExitStatus;
  kernel : S; log : list event
}.

Definition HM := M Process WaitFailure.

Definition ask {A} (f : S -> A * S) : HM A := fun p =>
  let '(a, k) := f (kernel p) in (Ret a, mkProcess (pid p) (pidfd_ p) (stdin_pipe p) (status p) k (log p)).
Definition record (e : event) : HM unit := modify (fun p => mkProcess (pid p) (pidfd_ p) (stdin_pipe p) (status p) (kernel p) (e :: log p)).
Definition set_status (s : ExitStatus) : HM unit := modify (fun p => mkProcess (pid p) (pidfd_ p) (stdin_pipe p) (Some s) (kernel p) (log p)).
Definition drop_stdin : HM unit := modify (fun p =>
  mkProcess (pid p) (pidfd_ p) None (status p) match stdin_pipe p with Some fd => k_close_stdin fd (kernel p) | None => kernel p end (log p)).

Definition from_raw (raw : Z) : ExitStatus :=
  if wait_exited raw then from_code (wait_exitstatus raw)
  else if wait_signaled raw then from_signal (wait_termsig raw)
  else from_code (-1).

(** *** [waitpid] and [waitid], again after a signal *)

Fixpoint waitpid_loop (fuel : nat) (child : Z) (nohang : bool) : HM wait_answer :=
  match fuel with
  | O => out_of_fuel
  | Datatypes.S fuel =>
    let* answer := ask (k_waitpid child nohang) in
    do* record (Waited nohang answer);;
    match answer with
    | WaitError errno => if errno =? EINTR then waitpid_loop fuel child nohang else ret answer
    | _ => ret answer
    end
  end.

Fixpoint waitid_loop (fuel : nat) (fd : Z) (nonblocking : bool) : HM (result siginfo Z) :=
  match fuel with
  | O => out_of_fuel
  | Datatypes.S fuel =>
    let* answer := ask (k_waitid fd nonblocking) in
    do* record (WaitedFd answer);;
    match answer with
    | Err errno => if errno =? EINTR then waitid_loop fuel fd nonblocking else ret answer
    | Ok _ => ret answer
    end
  end.

Definition pidfd_wait (fuel : nat) (fd : Z) (nonblocking : bool) : HM PidFdWait :=
  let* answer := waitid_loop fuel fd nonblocking in
  match answer with
  | Err error =>
    let* saved := (if error =? ECHILD then
                     let* saved := ask (k_pidfd_info fd) in
                     do* record (Asked saved);; ret saved
                   else ret None) in
    match saved with
    | Some raw => ret (mkWait true (negb (wait_exited raw)) (if wait_exited raw then wait_exitstatus raw else wait_termsig raw) 0)
    | None => ret (mkWait false false 0 error)
    end
  | Ok info => ret (mkWait (negb (si_pid info =? 0)) (negb (si_code info =? CLD_EXITED)) (si_status info) 0)
  end.

Definition status_of (result : PidFdWait) : ExitStatus :=
  if signaled result then from_signal (wait_status result) else from_code (wait_status result).

Definition pidfd_status (fuel : nat) (fd : Z) (nonblocking : bool) : HM (option ExitStatus) :=
  let* result := pidfd_wait fuel fd nonblocking in
  if negb (error result =? 0) then throw (OsError (error result))
  else if negb (available result) then ret None
  else ret (Some (status_of result)).

(** [PidFd::wait] *)
Definition PidFd_wait (fuel : nat) (fd : Z) : HM ExitStatus :=
  let* result := pidfd_status fuel fd false in
  of_option result.

(** [PidFd::try_wait] *)
Definition PidFd_try_wait (fuel : nat) (fd : Z) : HM (option ExitStatus) := pidfd_status fuel fd true.

(** *** [Child] *)

Definition wait (fuel : nat) : HM ExitStatus :=
  let* known := gets status in
  match known with
  | Some s => ret s
  | None =>
    let* child := gets pid in
    if child <=? 0 then throw InvalidInput
    else
      do* drop_stdin;;
      let* pidfd := gets pidfd_ in
      match pidfd with
      | Some fd =>
        let* result := PidFd_wait fuel fd in
        do* set_status result;; ret result
      | None =>
        let* answer := waitpid_loop fuel child false in
        match answer with
        | WaitError errno => throw (OsError errno)
        | NothingYet => do* set_status (from_raw 0);; ret (from_raw 0)     (** [status_value] as it was *)
        | Reaped raw => do* set_status (from_raw raw);; ret (from_raw raw)
        end
      end
  end.

Definition try_wait (fuel : nat) : HM (option ExitStatus) :=
  let* known := gets status in
  match known with
  | Some s => ret (Some s)
  | None =>
    let* pidfd := gets pidfd_ in
    match pidfd with
    | Some fd =>
      let* result := PidFd_try_wait fuel fd in
      match result with
      | Some s => do* set_status s;; ret result
      | None => ret result
      end
    | None =>
      let* child := gets pid in
      if child <=? 0 then throw InvalidInput
      else
        let* answer := waitpid_loop fuel child true in
        match answer with
        | NothingYet => ret None
        | WaitError errno => throw (OsError errno)
        | Reaped raw => do* set_status (from_raw raw);; ret (Some (from_raw raw))
        end
    end
  end.

Definition send_signal (sig : Z) (group : bool) : HM unit :=
  let* known := gets status in
  match known with
  | Some _ => ret tt
  | None =>
    let* child := gets pid in
    if child <=? 0 then throw InvalidInput
    else
      let* pidfd := gets pidfd_ in
      match pidfd with
      | Some fd =>
        let* error := ask (k_pidfd_send_signal fd sig group) in
        do* record (Signalled group);;
        if negb (error =? 0) then throw (OsError error) else ret tt
      | None =>
        let* failed := ask (k_kill group child sig) in
        do* record (Signalled group);;
        match failed with Some errno => throw (OsError errno) | None => ret tt end
      end
  end.

Definition kill : HM unit := send_signal SIGKILL false.
Definition kill_process_group : HM unit := send_signal SIGKILL true.

(** *** A sequence of calls *)

Inductive operation := Wait | TryWait | Kill | KillGroup.

Inductive reply := Exited (s : ExitStatus) | NotYet | Done.

Definition maybe (s : option ExitStatus) : reply := match s with Some s => Exited s | None => NotYet end.

Definition operate (fuel : nat) (op : operation) : HM reply :=
  match op with
  | Wait => let* s := wait fuel in ret (Exited s)
  | TryWait => let* s := try_wait fuel in ret (maybe s)
  | Kill => do* kill;; ret Done
  | KillGroup => do* kill_process_group;; ret Done
  end.

Fixpoint run (fuel : nat) (ops : list operation) (p : Process) : list (outcome WaitFailure reply) * Process :=
  match ops with
  | [] => ([], p)
  | op :: ops =>
    let '(r, p) := operate fuel op p in
    let '(rs, p) := run fuel ops p in (r :: rs, p)
  end.

(** *** What the handle knows *)

(** What a call tells of the end of the process. *)
Definition saved_status (raw : Z) : ExitStatus :=
  if wait_exited raw then from_code (wait_exitstatus raw) else from_signal (wait_termsig raw).

Definition info_status (info : siginfo) : ExitStatus :=
  if si_code info =? CLD_EXITED then from_code (si_status info) else from_signal (si_status info).

Definition learned (e : event) : option ExitStatus :=
  match e with
  | Waited nohang answer =>
    match answer with
    | Reaped raw => Some (from_raw raw)
    | NothingYet => if nohang then None else Some (from_raw 0)
    | WaitError _ => None
    end
  | WaitedFd (Ok info) => if si_pid info =? 0 then None else Some (info_status info)
  | Asked (Some raw) => Some (saved_status raw)
  | _ => None
  end.

Definition quiet (l : list event) : Prop := Forall (fun e => learned e = None) l.

(** The process may be running. *)
Definition alive (p : Process) : Prop := status p = None /\ quiet (log p).

(** The last call told how it ended. *)
Definition told (st : ExitStatus) (p : Process) : Prop :=
  exists e l, log p = e :: l /\ learned e = Some st /\ quiet l.

Definition ended (st : ExitStatus) (p : Process) : Prop := status p = Some st /\ told st p.

(** The status is told and not yet kept. *)
Definition ending (st : ExitStatus) (p : Process) : Prop := status p = None /\ told st p.

Definition known (o : option ExitStatus) (p : Process) : Prop :=
  match o with Some st => ending st p | None => alive p end.

Lemma record_known e p : alive p -> known (learned e) (snd (record e p)).
Proof.
  intros [Hs Hq]. unfold known. cbn. destruct (learned e) as [st|] eqn:El.
  - split; [done|]. by exists e, (log p).
  - split; [done|]. by constructor.
Qed.

(** From [P], a value with [Q]; on an error, a panic or the end of the fuel the
    process may still be running. *)
Definition leads {A} (P : Process -> Prop) (m : HM A) (Q : A -> Process -> Prop) : Prop :=
  forall p, P p -> match m p with (Ret a, p') => Q a p' | (_, p') => alive p' end.

Lemma leads_bind {A B} P (m : HM A) (k : A -> HM B) Q R :
  leads P m Q -> (forall a, leads (Q a) (k a) R) -> leads P (bind m k) R.
Proof.
  intros Hm Hk p Hp. specialize (Hm p Hp). unfold bind. destruct (m p) as [[a|e| |] p']; [|done..]. by apply Hk.
Qed.

Lemma leads_ret {A} (P : Process -> Prop) (a : A) (Q : A -> Process -> Prop) : (forall p, P p -> Q a p) -> leads P (ret a) Q.
Proof. intros HQ p Hp. by apply HQ. Qed.

Lemma leads_throw {A} e (Q : A -> Process -> Prop) : leads alive (throw e) Q.
Proof. by intros p Hp. Qed.

(** Asking leaves what is known; [ask_record] is a call with its record. *)
Lemma leads_ask {A} (f : S -> A * S) : leads alive (ask f) (fun _ => alive).
Proof. intros p Hp. unfold ask. by destruct (f (kernel p)). Qed.

Lemma leads_record e : leads alive (record e) (fun _ => known (learned e)).
Proof. intros p Hp. by apply record_known. Qed.

Lemma leads_ask_record {A B} (f : S -> A * S) (e : A -> event) (k : A -> HM B) R :
  (forall a, leads (known (learned (e a))) (k a) R) -> leads alive (let* a := ask f in do* record (e a);; k a) R.
Proof. intros Hk. eapply leads_bind; [apply leads_ask|]. intros a. eapply leads_bind; [apply leads_record|]. by intros []. Qed.

Lemma waitpid_loop_leads fuel child nohang :
  leads alive (waitpid_loop fuel child nohang) (fun a => known (learned (Waited nohang a))).
Proof.
  induction fuel as [|fuel IH]; [by intros p Hp|]. cbn [waitpid_loop]. apply leads_ask_record. intros [errno| |raw].
  - destruct (errno =? EINTR); [exact IH|by apply leads_ret].
  - by apply leads_ret.
  - by apply leads_ret.
Qed.

Lemma waitid_loop_leads fuel fd nonblocking :
  leads alive (waitid_loop fuel fd nonblocking) (fun a => known (learned (WaitedFd a))).
Proof.
  induction fuel as [|fuel IH]; [by intros p Hp|]. cbn [waitid_loop]. apply leads_ask_record. intros [info|errno].
  - by apply leads_ret.
  - destruct (errno =? EINTR); [exact IH|by apply leads_ret].
Qed.

Definition tells (w : PidFdWait) : option ExitStatus := if available w then Some (status_of w) else None.

Lemma pidfd_wait_leads fuel fd nonblocking :
  leads alive (pidfd_wait fuel fd nonblocking) (fun w p => known (tells w) p /\ (available w = true -> error w = 0)).
Proof.
  unfold pidfd_wait. eapply leads_bind; [apply waitid_loop_leads|]. intros [info|errno].
  - apply leads_ret. intros p Hp. split; [|done]. unfold known, tells, status_of, learned, info_status in *. cbn in *.
    destruct (si_pid info =? 0); [done|]. by destruct (si_code info =? CLD_EXITED).
  - eapply leads_bind with (Q := fun saved => known (option_map saved_status saved)).
    + cbn. destruct (errno =? ECHILD); [|by apply leads_ret]. apply leads_ask_record. intros [raw|]; by apply leads_ret.
    + intros [raw|]; apply leads_ret; intros p Hp; (split; [|done]); [|done].
      unfold known, tells, status_of, saved_status in *. cbn in *. by destruct (wait_exited raw).
Qed.

Lemma pidfd_status_leads fuel fd nonblocking : leads alive (pidfd_status fuel fd nonblocking) known.
Proof.
  unfold pidfd_status. eapply leads_bind; [apply pidfd_wait_leads|]. intros w p [Hk He]. unfold tells in Hk.
  destruct (available w) eqn:Ea; cbn in *.
  - rewrite He by done. cbn. exact Hk.
  - by destruct (negb (error w =? 0)).
Qed.

Lemma leads_set_status st : leads (ending st) (set_status st) (fun _ => ended st).
Proof. intros p [_ Ht]. by split. Qed.

(** A value that is kept. *)
Lemma leads_keep {A} st (a : A) : leads (ending st) (do* set_status st;; ret a) (fun b p => b = a /\ ended st p).
Proof. eapply leads_bind; [apply leads_set_status|]. intros []. by apply leads_ret. Qed.

Lemma leads_gets {A B} P (f : Process -> A) (k : A -> HM B) Q :
  (forall a, leads (fun p => P p /\ f p = a) (k a) Q) -> leads P (bind (gets f) k) Q.
Proof. intros Hk p Hp. by apply (Hk (f p) p). Qed.

Lemma leads_weaken {A} (P P' : Process -> Prop) (m : HM A) Q Q' :
  leads P' m Q' -> (forall p, P p -> P' p) -> (forall a p, Q' a p -> Q a p) -> leads P m Q.
Proof. intros Hm HP HQ p Hp. specialize (Hm p (HP p Hp)). destruct (m p) as [[a|e| |] p']; eauto. Qed.

(** [known] when the status is kept. *)
Definition settled_as (o : option ExitStatus) (p : Process) : Prop :=
  match o with Some st => ended st p | None => alive p end.

Lemma PidFd_wait_leads fuel fd : leads alive (PidFd_wait fuel fd) (fun st => ending st).
Proof. unfold PidFd_wait. eapply leads_bind; [apply pidfd_status_leads|]. intros [st|]; [by apply leads_ret|by intros p Hp]. Qed.

Lemma wait_leads fuel : leads alive (wait fuel) (fun st => ended st).
Proof.
  unfold wait. apply leads_gets. intros [st|]; [intros p [[Hn _] Hs]; congruence|].
  apply leads_gets. intros child. eapply leads_weaken with (P' := alive); [|by intros p [[? _] _]|by intros a p Hq].
  destruct (child <=? 0); [apply leads_throw|]. eapply leads_bind with (Q := fun _ => alive); [by intros p Hp|]. intros [].
  apply leads_gets. intros pidfd. eapply leads_weaken with (P' := alive); [|by intros p [? _]|by intros a p Hq].
  destruct pidfd as [fd|].
  - eapply leads_bind; [apply PidFd_wait_leads|]. intros st. eapply leads_weaken; [apply (leads_keep st st)|done|]. by intros a p [-> ?].
  - eapply leads_bind; [apply waitpid_loop_leads|]. intros [errno| |raw]; cbn [learned known].
    + apply leads_throw.
    + eapply leads_weaken; [apply leads_keep|done|]. by intros a p [-> ?].
    + eapply leads_weaken; [apply leads_keep|done|]. by intros a p [-> ?].
Qed.

Lemma try_wait_leads fuel : leads alive (try_wait fuel) settled_as.
Proof.
  unfold try_wait. apply leads_gets. intros [st|]; [intros p [[Hn _] Hs]; congruence|].
  apply leads_gets. intros pidfd. eapply leads_weaken with (P' := alive); [|by intros p [[? _] _]|by intros a p Hq].
  destruct pidfd as [fd|].
  - eapply leads_bind; [apply pidfd_status_leads|]. intros [st|]; [|by apply leads_ret].
    eapply leads_weaken; [apply (leads_keep st (Some st))|done|]. by intros a p [-> ?].
  - apply leads_gets. intros child. eapply leads_weaken with (P' := alive); [|by intros p [? _]|by intros a p Hq].
    destruct (child <=? 0); [apply leads_throw|].
    eapply leads_bind; [apply waitpid_loop_leads|]. intros [errno| |raw]; cbn [learned known].
    + apply leads_throw.
    + by apply leads_ret.
    + eapply leads_weaken; [apply leads_keep|done|]. by intros a p [-> ?].
Qed.

Lemma send_signal_leads sig group : leads alive (send_signal sig group) (fun _ => alive).
Proof.
  unfold send_signal. apply leads_gets. intros [st|]; [intros p [[Hn _] Hs]; congruence|].
  apply leads_gets. intros child. eapply leads_weaken with (P' := alive) (Q' := fun _ => alive); [|by intros p [[? _] _]|done].
  destruct (child <=? 0); [apply leads_throw|]. apply leads_gets. intros pidfd.
  eapply leads_weaken with (P' := alive) (Q' := fun _ => alive); [|by intros p [? _]|done]. destruct pidfd as [fd|].
  - apply (leads_ask_record (k_pidfd_send_signal fd sig group) (fun _ => Signalled group)). intros e.
    destruct (negb (e =? 0)); [apply leads_throw|by apply leads_ret].
  - apply (leads_ask_record (k_kill group child sig) (fun _ => Signalled group)). intros [e|]; [apply leads_throw|by apply leads_ret].
Qed.

(** What a reply says of the process. *)
Definition says (r : reply) : option ExitStatus := match r with Exited st => Some st | _ => None end.

Lemma operate_leads fuel op : leads alive (operate fuel op) (fun r => settled_as (says r)).
Proof.
  destruct op; cbn [operate].
  - eapply leads_bind; [apply wait_leads|]. intros st. by apply leads_ret.
  - eapply leads_bind; [apply try_wait_leads|]. intros [st|]; by apply leads_ret.
  - eapply leads_bind; [apply send_signal_leads|]. intros []. by apply leads_ret.
  - eapply leads_bind; [apply send_signal_leads|]. intros []. by apply leads_ret.
Qed.

(** The answer of a handle that knows the status. *)
Definition settled (st : ExitStatus) (op : operation) : reply :=
  match op with Wait | TryWait => Exited st | Kill | KillGroup => Done end.

Lemma operate_ended st fuel op p : status p = Some st -> operate fuel op p = (Ret (settled st op), p).
Proof.
  intros Hs. destruct op; cbn; unfold wait, try_wait, kill, kill_process_group, send_signal, bind, gets; cbn; by rewrite Hs.
Qed.

Lemma run_ended st fuel ops p : status p = Some st -> run fuel ops p = (map (fun op => Ret (settled st op)) ops, p).
Proof.
  intros Hs. induction ops as [|op ops IH]; [done|]. cbn. by rewrite (operate_ended st), IH.
Qed.

Definition exits (r : outcome WaitFailure reply) : option ExitStatus := match r with Ret r => says r | _ => None end.

(** The calls before the end, the one that tells it, and those after. *)
Lemma run_alive fuel ops p : alive p ->
  let '(rs, p') := run fuel ops p in
  (alive p' /\ Forall (fun r => exits r = None) rs) \/
  (exists st ops1 op ops2 rs1, ops = ops1 ++ op :: ops2 /\ length rs1 = length ops1 /\ Forall (fun r => exits r = None) rs1 /\
     rs = rs1 ++ Ret (Exited st) :: map (fun op => Ret (settled st op)) ops2 /\ ended st p').
Proof.
  revert p. induction ops as [|op ops IH]; intros p Hp; cbn [run]; [by left; split|].
  pose proof (operate_leads fuel op p Hp) as Hop. destruct (operate fuel op p) as [r p1].
  assert (ended_or : (exists st, r = Ret (Exited st) /\ ended st p1) \/ (exits r = None /\ alive p1)).
  { destruct r as [a|e| |]; [|by right..]. destruct a as [st| |]; cbn in *; [left; by exists st|by right..]. }
  destruct ended_or as [(st & -> & Hst)|[Hr Hp1]].
  - rewrite (run_ended st) by apply Hst. right. by exists st, [], op, ops, [].
  - specialize (IH p1 Hp1). destruct (run fuel ops p1) as [rs p']. destruct IH as [[Hp' Hrs]|(st & ops1 & op' & ops2 & rs1 & -> & Hl & Hf & -> & Hst)].
    + left. split; [done|by constructor].
    + right. exists st, (op :: ops1), op', ops2, (r :: rs1). split_and!; [done|by cbn; rewrite Hl|by constructor|done|done].
Qed.

(** *** Enough fuel *)

(** A call is interrupted at most [n] times in a row. *)
Fixpoint patient {A} (f : S -> A * S) (interrupted : A -> bool) (n : nat) (k : S) : bool :=
  let '(a, k) := f k in
  if interrupted a then match n with O => false | Datatypes.S n => patient f interrupted n k end else true.

Definition wait_interrupted (a : wait_answer) : bool := match a with WaitError errno => errno =? EINTR | _ => false end.
Definition info_interrupted (a : result siginfo Z) : bool := match a with Err errno => errno =? EINTR | Ok _ => false end.

Lemma waitpid_loop_returns fuel n child nohang p : (n < fuel)%nat ->
  patient (k_waitpid child nohang) wait_interrupted n (kernel p) = true -> exists a p', waitpid_loop fuel child nohang p = (Ret a, p').
Proof.
  revert fuel p. induction n as [|n IH]; intros [|fuel] p Hf Hn; [lia| |lia|]; cbn [patient waitpid_loop] in *; unfold bind, ask, record, modify;
    destruct (k_waitpid child nohang (kernel p)) as [[errno| |raw] k]; cbn in *; eauto; destruct (errno =? EINTR); eauto; [done|].
  apply IH; [lia|done].
Qed.

Lemma waitid_loop_returns fuel n fd nonblocking p : (n < fuel)%nat ->
  patient (k_waitid fd nonblocking) info_interrupted n (kernel p) = true -> exists a p', waitid_loop fuel fd nonblocking p = (Ret a, p').
Proof.
  revert fuel p. induction n as [|n IH]; intros [|fuel] p Hf Hn; [lia| |lia|]; cbn [patient waitid_loop] in *; unfold bind, ask, record, modify;
    destruct (k_waitid fd nonblocking (kernel p)) as [[info|errno] k]; cbn in *; eauto; destruct (errno =? EINTR); eauto; [done|].
  apply IH; [lia|done].
Qed.

(** The system interrupts no call for ever. *)
Definition patient_system (n : nat) : Prop :=
  (forall child nohang k, patient (k_waitpid child nohang) wait_interrupted n k = true) /\
  (forall fd nonblocking k, patient (k_waitid fd nonblocking) info_interrupted n k = true).

Section Returns.
Context (fuel n : nat) (enough : (n < fuel)%nat) (Hpatient : patient_system n).

Definition stops {A} (m : HM A) : Prop := forall p, fst (m p) <> OutOfFuel.

Lemma stops_bind {A B} (m : HM A) (k : A -> HM B) : stops m -> (forall a, stops (k a)) -> stops (bind m k).
Proof. intros Hm Hk p. unfold bind. specialize (Hm p). destruct (m p) as [[a|e| |] p']; try done. apply Hk. Qed.

Lemma stops_waitpid child nohang : stops (waitpid_loop fuel child nohang).
Proof. intros p. by destruct (waitpid_loop_returns fuel n child nohang p enough) as (a & p' & ->); [apply Hpatient|]. Qed.

Lemma stops_waitid fd nonblocking : stops (waitid_loop fuel fd nonblocking).
Proof. intros p. by destruct (waitid_loop_returns fuel n fd nonblocking p enough) as (a & p' & ->); [apply Hpatient|]. Qed.

Lemma stops_ask {A} (f : S -> A * S) : stops (ask f).
Proof. intros p. unfold ask. by destruct (f (kernel p)). Qed.

Lemma stops_ret {A} (a : A) : stops (ret a).
Proof. by intros p. Qed.

Lemma stops_throw {A} e : stops (A := A) (throw e).
Proof. by intros p. Qed.

Lemma stops_of_option {A} (o : option A) : stops (of_option o).
Proof. by destruct o. Qed.

Lemma stops_gets {A} (f : Process -> A) : stops (gets f).
Proof. by intros p. Qed.

Lemma stops_modify f : stops (modify f).
Proof. by intros p. Qed.

Ltac stops :=
  repeat match goal with
    | |- stops (waitpid_loop _ _ _) => apply stops_waitpid
    | |- stops (waitid_loop _ _ _) => apply stops_waitid
    | |- stops (ask _) => apply stops_ask
    | |- stops (ret _) => apply stops_ret
    | |- stops (throw _) => apply stops_throw
    | |- stops (of_option _) => apply stops_of_option
    | |- stops (gets _) => apply stops_gets
    | |- stops (record _) => apply stops_modify
    | |- stops (set_status _) => apply stops_modify
    | |- stops drop_stdin => apply stops_modify
    | |- stops (bind _ _) => apply stops_bind; [|intros]
    | |- stops (match ?x with _ => _ end) => destruct x
    end.

Lemma operate_stops op : stops (operate fuel op).
Proof.
  destruct op; cbn [operate]; unfold wait, try_wait, kill, kill_process_group, send_signal, PidFd_wait, PidFd_try_wait, pidfd_status, pidfd_wait; stops.
Qed.

Lemma run_stops ops p : Forall (fun r => r <> OutOfFuel) (fst (run fuel ops p)).
Proof.
  revert p. induction ops as [|op ops IH]; intros p; cbn; [constructor|].
  pose proof (operate_stops op p) as Hop. destruct (operate fuel op p) as [r p1]. specialize (IH p1).
  destruct (run fuel ops p1) as [rs p']. by constructor.
Qed.
End Returns.

End Handle.

Arguments mkProcess {S}.
Arguments kernel {S}.
Arguments status {S}.
Arguments log {S}.

(** C25: A child ends once.  In any sequence of calls of a new handle ([wait],
    [try_wait], [kill], [kill_process_group], with a pid or a [PidFd]), whatever
    the system answers, either no reply reports an exit and no answer told of
    one, or there is one call that learns the status: it is the reply of every
    [wait] and [try_wait] from then on, kills succeed with nothing to do, and the
    answer that told it is the last of all the calls of the system that name the
    process, so that no signal ever reaches a process that got its pid later.
    With more fuel than the system interrupts calls in a row, every call
    returns. *)
Theorem child_ends_once {S : Type} `{Waiting S} fuel ops (p : Process (S := S)) :
  status p = None -> log p = [] ->
  (let '(rs, p') := run fuel ops p in
   (alive p' /\ Forall (fun r => exits r = None) rs) \/
   (exists st ops1 op ops2 rs1, ops = ops1 ++ op :: ops2 /\ length rs1 = length ops1 /\ Forall (fun r => exits r = None) rs1 /\
      rs = rs1 ++ Ret (Exited st) :: map (fun op => Ret (settled st op)) ops2 /\ ended st p')) /\
  (forall n, (n < fuel)%nat -> patient_system (S := S) n -> Forall (fun r => r <> OutOfFuel) (fst (run fuel ops p))).
Proof.
  intros Hs Hl. split; [|intros n Hn Hp; exact (run_stops fuel n Hn Hp ops p)].
  apply run_alive. split; [done|]. rewrite Hl. constructor.
Qed.

(** A system that gives the answers of a list, and encodes a status as Linux does. *)
#[export] Instance scripted : Waiting (list wait_answer) := {
  k_waitpid _ _ k := match k with a :: k => (a, k) | [] => (WaitError ECHILD, []) end;
  k_waitid _ _ k := (Err ECHILD, k);
  k_pidfd_info _ k := (None, k);
  k_kill _ _ _ k := (None, k);
  k_pidfd_send_signal _ _ _ k := (0, k);
  k_close_stdin _ k := k;
  wait_exited raw := Z.land raw 127 =? 0;
  wait_exitstatus raw := Z.land (Z.shiftr raw 8) 255;
  wait_signaled raw := negb (Z.land raw 127 =? 0) && negb (Z.land raw 127 =? 127);
  wait_termsig raw := Z.land raw 127
}.

(** A child that is polled, killed, and waited for twice: [waitpid] is
    interrupted, says that it runs still, and then that signal 9 ended it. *)
Lemma child_ends_once_witness :
  let p := mkProcess 7 None None None [WaitError EINTR; NothingYet; Reaped 9] [] in
  let ops := [TryWait; Kill; Wait; Wait; Kill] in
  fst (run 3 ops p) = [Ret NotYet; Ret Done; Ret (Exited (from_signal 9)); Ret (Exited (from_signal 9)); Ret Done] /\
  ended (from_signal 9) (snd (run 3 ops p)).
Proof.
  intros p ops. split; [vm_compute; reflexivity|].
  destruct (child_ends_once 3 ops p eq_refl eq_refl) as [Hrun _]. destruct (run 3 ops p) as [rs p'] eqn:E.
  destruct Hrun as [[_ Hno]|(st & ops1 & op & ops2 & rs1 & _ & _ & _ & _ & Hst)]; vm_compute in E; injection E as <- <-.
  - exfalso. apply Forall_inv_tail, Forall_inv_tail, Forall_inv in Hno. discriminate Hno.
  - assert (st = from_signal 9) as <- by (destruct Hst as [Hst _]; by injection Hst). exact Hst.
Defined.
End Handle.
