(* ===== verification/Str.v ===== *)
(** * String slices: [ref<str>]

    Models the searching and slicing members of [src/core/src/str/str.cppm]
    and [src/core/src/str/traits.cppm].  A string slice is the list of its
    bytes; [usize] offsets are natural numbers, as no slice is longer than the
    address space. *)

From Stdlib Require Import ZArith Lia ZifyBool.
From S2P Require Import Prelude Utf8.
Local Open Scope Z_scope.

(** Byte-wise equality loop. *)
Fixpoint bytes_eq (a b : list Z) : bool :=
  match a, b with
  | [], [] => true
  | x :: a, y :: b => if negb (x =? y) then false else bytes_eq a b
  | _, _ => false
  end.

Definition str_eq (a b : list Z) : bool :=
  if negb (length a =? length b)%nat then false else bytes_eq a b.

Definition is_ascii (s : list Z) : bool := forallb (fun b => b <=? 0x7f) s.

(** [for (index = 0; index < pattern.len(); ++index)
       if (p[index] != pattern[index]) return false] *)
Fixpoint prefix_loop (p pattern : list Z) : bool :=
  match pattern, p with
  | [], _ => true
  | q :: pattern, b :: p => if negb (b =? q) then false else prefix_loop p pattern
  | _ :: _, [] => false
  end.

Definition starts_with (s pattern : list Z) : bool :=
  if (length pattern =? 0)%nat then true
  else if (length s <? length pattern)%nat then false
  else prefix_loop s pattern.

Definition ends_with (s pattern : list Z) : bool :=
  if (length pattern =? 0)%nat then true
  else if (length s <? length pattern)%nat then false
  else prefix_loop (drop (length s - length pattern) s) pattern.

(** Forward search over [index .. limit]. *)
Fixpoint find_loop (n index : nat) (s pattern : list Z) : option nat :=
  match n with
  | O => None
  | S n =>
    if starts_with (drop index s) pattern then Some index
    else find_loop n (S index) s pattern
  end.

Definition find (s pattern : list Z) : option nat :=
  if (length pattern =? 0)%nat then Some 0%nat
  else if (length s <? length pattern)%nat then None
  else find_loop (S (length s - length pattern)) 0 s pattern.

(** [contains] runs the same double loop and keeps only whether it stops. *)
Fixpoint contains_loop (n index : nat) (s pattern : list Z) : bool :=
  match n with
  | O => false
  | S n =>
    if prefix_loop (drop index s) pattern then true
    else contains_loop n (S index) s pattern
  end.

Definition contains (s pattern : list Z) : bool :=
  if (length pattern =? 0)%nat then true
  else if (length s <? length pattern)%nat then false
  else contains_loop (S (length s - length pattern)) 0 s pattern.

(** Backward search from [offset]. *)
Fixpoint rfind_loop (offset : nat) (s pattern : list Z) : option nat :=
  if starts_with (drop offset s) pattern then Some offset
  else match offset with
       | O => None
       | S offset => rfind_loop offset s pattern
       end.

Definition rfind (s pattern : list Z) : option nat :=
  if (length pattern =? 0)%nat then Some (length s)
  else if (length s <? length pattern)%nat then None
  else rfind_loop (length s - length pattern) s pattern.

(** The bytes between two offsets. *)
Definition slice (s : list Z) (start stop : nat) : list Z := take (stop - start) (drop start s).

Definition str_get (s : list Z) (start stop : nat) : option (list Z) :=
  if (stop <? start)%nat || (length s <? stop)%nat then None
  else if negb (is_char_boundary s start) || negb (is_char_boundary s stop) then None
  else Some (slice s start stop).

Definition strip_prefix (s pattern : list Z) : option (list Z) :=
  if negb (starts_with s pattern) then None else str_get s (length pattern) (length s).

Definition strip_suffix (s pattern : list Z) : option (list Z) :=
  if negb (ends_with s pattern) then None else str_get s 0 (length s - length pattern).

(** The two [unwrap]s of [split_once]: [Panic] when a part is not a slice. *)
Definition split_at_match (s pattern : list Z) (offset : option nat)
    : outcome unit (option (list Z * list Z)) :=
  match offset with
  | None => Ret None
  | Some offset =>
    match str_get s 0 offset, str_get s (offset + length pattern) (length s) with
    | Some l, Some r => Ret (Some (l, r))
    | _, _ => Panic
    end
  end.

Definition split_once (s pattern : list Z) := split_at_match s pattern (find s pattern).
Definition rsplit_once (s pattern : list Z) := split_at_match s pattern (rfind s pattern).

(** [split_at] aborts off a boundary. *)
Definition split_at (s : list Z) (index : nat) : option (list Z * list Z) :=
  if negb (is_char_boundary s index) then None else Some (take index s, drop index s).

Definition is_trim_whitespace (raw : Z) : bool :=
  (raw =? 0x09) || (raw =? 0x0a) || (raw =? 0x0c) || (raw =? 0x0d) || (raw =? 0x20).

(** [while (begin_index < end_index && is_whitespace(p[begin_index])) ++begin_index];
    the fuel is [end_index - begin_index]. *)
Fixpoint trim_begin_loop (fuel : nat) (p : list Z) (begin_index end_index : nat) : nat :=
  match fuel with
  | O => begin_index
  | S fuel =>
    if (begin_index <? end_index)%nat && is_trim_whitespace (default 0 (p !! begin_index))
    then trim_begin_loop fuel p (S begin_index) end_index
    else begin_index
  end.

(** [while (end_index > begin_index && is_whitespace(p[end_index - 1])) --end_index] *)
Fixpoint trim_end_loop (p : list Z) (begin_index end_index : nat) : nat :=
  match end_index with
  | O => O
  | S end_index' =>
    if (begin_index <? end_index)%nat && is_trim_whitespace (default 0 (p !! end_index'))
    then trim_end_loop p begin_index end_index'
    else end_index
  end.

Definition trim_ascii (s : list Z) : list Z :=
  let begin_index := trim_begin_loop (length s) s 0 (length s) in
  let end_index := trim_end_loop s begin_index (length s) in
  slice s begin_index end_index.

Definition lower_byte (value : Z) : Z :=
  if (65 <=? value) && (value <=? 90) then value + (97 - 65) else value.

Definition make_ascii_lowercase (s : list Z) : list Z := map lower_byte s.

(** ** Prefix search *)

Lemma bytes_eq_spec a b : bytes_eq a b = true <-> a = b.
Proof.
  revert b. induction a as [|x a IH]; intros [|y b]; cbn; try done.
  destruct (x =? y) eqn:E; cbn; [|split; [done|intros; simplify_eq; lia]].
  rewrite IH. assert (x = y) as -> by lia. split; [by intros -> | by intros [=]].
Qed.

Lemma str_eq_spec a b : str_eq a b = true <-> a = b.
Proof.
  unfold str_eq. destruct (length a =? length b)%nat eqn:E; cbn [negb].
  - apply bytes_eq_spec.
  - split; [done|]. intros ->. by rewrite Nat.eqb_refl in E.
Qed.

Lemma prefix_loop_spec s pattern : prefix_loop s pattern = true <-> pattern `prefix_of` s.
Proof.
  revert s. induction pattern as [|q pattern IH]; intros s.
  { split; [intros; apply prefix_nil | by destruct s]. }
  destruct s as [|b s]; cbn [prefix_loop].
  { split; [done | intros H; by apply prefix_nil_not in H]. }
  destruct (b =? q) eqn:E; cbn [negb].
  - assert (b = q) as -> by lia. rewrite IH. split; [apply prefix_cons | apply prefix_cons_inv_2].
  - split; [done|]. intros H. apply prefix_cons_inv_1 in H. lia.
Qed.

Lemma starts_with_spec s pattern : starts_with s pattern = true <-> pattern `prefix_of` s.
Proof.
  unfold starts_with. destruct (length pattern =? 0)%nat eqn:E0.
  { apply Nat.eqb_eq, nil_length_inv in E0 as ->. split; [intros; apply prefix_nil | done]. }
  destruct (length s <? length pattern)%nat eqn:El; [|apply prefix_loop_spec].
  split; [done|]. intros H%prefix_length. apply Nat.ltb_lt in El. lia.
Qed.

Lemma ends_with_spec s pattern : ends_with s pattern = true <-> pattern `suffix_of` s.
Proof.
  unfold ends_with. destruct (length pattern =? 0)%nat eqn:E0.
  { apply Nat.eqb_eq, nil_length_inv in E0 as ->. split; [intros; apply suffix_nil | done]. }
  destruct (length s <? length pattern)%nat eqn:El.
  { split; [done|]. intros H%suffix_length. apply Nat.ltb_lt in El. lia. }
  apply Nat.ltb_ge in El. rewrite prefix_loop_spec. split.
  - intros [k Hk]. exists (take (length s - length pattern) s).
    assert (k = []) as ->.
    { apply (f_equal length) in Hk. rewrite length_drop, length_app in Hk.
      apply nil_length_inv. lia. }
    rewrite app_nil_r in Hk. etrans; [symmetry; apply (take_drop (length s - length pattern))|].
    by rewrite Hk.
  - intros [k ->]. rewrite length_app, drop_app_length' by lia. done.
Qed.

(** An occurrence of the pattern at an offset. *)
Definition occurs_at (s pattern : list Z) (i : nat) : Prop := pattern `prefix_of` drop i s.

Lemma occurs_at_split s pattern i :
  (i <= length s)%nat -> occurs_at s pattern i ->
  exists b, s = take i s ++ pattern ++ b /\ drop (i + length pattern) s = b.
Proof.
  intros Hi [b Hb]. exists b. split; [by rewrite <- Hb; symmetry; apply take_drop|].
  rewrite <- drop_drop, Hb. apply drop_app_length.
Qed.

Lemma occurs_at_bound s pattern i :
  occurs_at s pattern i -> pattern <> [] -> (i + length pattern <= length s)%nat.
Proof.
  intros H%prefix_length Hne. rewrite length_drop in H. destruct pattern; [done|]. cbn in *. lia.
Qed.

Lemma find_loop_spec n index s pattern :
  match find_loop n index s pattern with
  | Some i => (index <= i < index + n)%nat /\ occurs_at s pattern i /\
      forall j, (index <= j < i)%nat -> ~ occurs_at s pattern j
  | None => forall j, (index <= j < index + n)%nat -> ~ occurs_at s pattern j
  end.
Proof.
  revert index. induction n as [|n IH]; intros index; cbn [find_loop]; [intros; lia|].
  destruct (starts_with (drop index s) pattern) eqn:E.
  { split; [lia | split; [by apply starts_with_spec | intros; lia]]. }
  assert (~ occurs_at s pattern index) as Hno.
  { intros H. apply starts_with_spec in H. congruence. }
  specialize (IH (S index)). destruct (find_loop n (S index) s pattern) as [i|].
  - destruct IH as (? & ? & Hj). split; [lia | split; [done|]]. intros j Hjr.
    destruct (decide (j = index)) as [->|]; [done|]. apply Hj. lia.
  - intros j Hjr. destruct (decide (j = index)) as [->|]; [done|]. apply IH. lia.
Qed.

Lemma rfind_loop_spec offset s pattern :
  match rfind_loop offset s pattern with
  | Some i => (i <= offset)%nat /\ occurs_at s pattern i /\
      forall j, (i < j <= offset)%nat -> ~ occurs_at s pattern j
  | None => forall j, (j <= offset)%nat -> ~ occurs_at s pattern j
  end.
Proof.
  induction offset as [|offset IH]; cbn [rfind_loop];
    destruct (starts_with (drop _ s) pattern) eqn:E;
    try (split; [lia | split; [by apply starts_with_spec | intros; lia]]).
  - intros j Hj H. assert (j = 0)%nat as -> by lia. apply starts_with_spec in H. congruence.
  - assert (~ occurs_at s pattern (S offset)) as Hno
      by (intros H; apply starts_with_spec in H; congruence).
    destruct (rfind_loop offset s pattern) as [i|].
    + destruct IH as (? & ? & Hj). split; [lia | split; [done|]]. intros j Hjr.
      destruct (decide (j = S offset)) as [->|]; [done|]. apply Hj. lia.
    + intros j Hjr. destruct (decide (j = S offset)) as [->|]; [done|]. apply IH. lia.
Qed.

Lemma find_spec s pattern :
  match find s pattern with
  | Some i => (i + length pattern <= length s)%nat /\ occurs_at s pattern i /\
      forall j, (j < i)%nat -> ~ occurs_at s pattern j
  | None => forall j, (j <= length s)%nat -> ~ occurs_at s pattern j
  end.
Proof.
  unfold find. destruct (length pattern =? 0)%nat eqn:E0.
  { apply Nat.eqb_eq, nil_length_inv in E0 as ->. split_and!; [cbn; lia | apply prefix_nil | lia]. }
  apply Nat.eqb_neq in E0.
  assert (pattern <> []) as Hne by (intros ->; done).
  destruct (length s <? length pattern)%nat eqn:El.
  { apply Nat.ltb_lt in El. intros j _ Ho. apply occurs_at_bound in Ho; [lia | done]. }
  apply Nat.ltb_ge in El.
  pose proof (find_loop_spec (S (length s - length pattern)) 0 s pattern) as H.
  destruct (find_loop _ 0 s pattern) as [i|].
  - destruct H as (? & ? & Hj). split_and!; [lia | done |]. intros j Hj'. apply Hj. lia.
  - intros j Hj Ho. pose proof (occurs_at_bound _ _ _ Ho Hne). apply (H j); [lia | done].
Qed.

Lemma rfind_spec s pattern :
  match rfind s pattern with
  | Some i => (i + length pattern <= length s)%nat /\ occurs_at s pattern i /\
      forall j, (i < j <= length s)%nat -> ~ occurs_at s pattern j
  | None => forall j, (j <= length s)%nat -> ~ occurs_at s pattern j
  end.
Proof.
  unfold rfind. destruct (length pattern =? 0)%nat eqn:E0.
  { apply Nat.eqb_eq, nil_length_inv in E0 as ->. split_and!; [cbn; lia | apply prefix_nil | lia]. }
  apply Nat.eqb_neq in E0.
  assert (pattern <> []) as Hne by (intros ->; done).
  destruct (length s <? length pattern)%nat eqn:El.
  { apply Nat.ltb_lt in El. intros j _ Ho. apply occurs_at_bound in Ho; [lia | done]. }
  apply Nat.ltb_ge in El.
  pose proof (rfind_loop_spec (length s - length pattern) s pattern) as H.
  destruct (rfind_loop _ s pattern) as [i|].
  - destruct H as (? & ? & Hj). split_and!; [lia | done |]. intros j Hj' Ho.
    pose proof (occurs_at_bound _ _ _ Ho Hne). apply (Hj j); [lia | done].
  - intros j Hj Ho. pose proof (occurs_at_bound _ _ _ Ho Hne). apply (H j); [lia | done].
Qed.

Lemma contains_loop_find n index s pattern :
  (index + n <= S (length s - length pattern))%nat -> (length pattern <= length s)%nat ->
  contains_loop n index s pattern = bool_decide (is_Some (find_loop n index s pattern)).
Proof.
  revert index. induction n as [|n IH]; intros index Hn Hl; cbn; [done|].
  destruct (prefix_loop (drop index s) pattern) eqn:E.
  - apply prefix_loop_spec, starts_with_spec in E. by rewrite E.
  - assert (starts_with (drop index s) pattern = false) as ->.
    { apply not_true_iff_false. intros H%starts_with_spec%prefix_loop_spec. congruence. }
    apply IH; lia.
Qed.

(** [find] returns the first offset at which the pattern occurs and
    [rfind] the last one; both return nothing exactly when the pattern does
    not occur, and [contains] answers whether it does. *)
Theorem find_rfind_contains s pattern :
  (forall i, find s pattern = Some i <->
     (i <= length s)%nat /\ occurs_at s pattern i /\ forall j, (j < i)%nat -> ~ occurs_at s pattern j) /\
  (forall i, rfind s pattern = Some i <->
     (i <= length s)%nat /\ occurs_at s pattern i /\
     forall j, (i < j <= length s)%nat -> ~ occurs_at s pattern j) /\
  (contains s pattern = true <-> exists j, (j <= length s)%nat /\ occurs_at s pattern j).
Proof.
  pose proof (find_spec s pattern) as Hf. pose proof (rfind_spec s pattern) as Hr. split_and!.
  - intros i. destruct (find s pattern) as [k|].
    + destruct Hf as (? & ? & Hk). split; [intros [= <-]; split_and!; (lia || done)|].
      intros (? & Ho & Hi). f_equal. destruct (lt_eq_lt_dec k i) as [[?|?]|?]; [|done|].
      * by destruct (Hi k).
      * by destruct (Hk i).
    + split; [done|]. intros (? & Ho & _). by destruct (Hf i).
  - intros i. destruct (rfind s pattern) as [k|].
    + destruct Hr as (? & ? & Hk). split; [intros [= <-]; split_and!; (lia || done)|].
      intros (? & Ho & Hi). f_equal. destruct (lt_eq_lt_dec k i) as [[?|?]|?]; [|done|].
      * destruct (Hk i); (lia || done).
      * destruct (Hi k); (lia || done).
    + split; [done|]. intros (? & Ho & _). by destruct (Hr i).
  - assert (contains s pattern = bool_decide (is_Some (find s pattern))) as ->.
    { unfold contains, find. case_if; [done|]. case_if; [done|].
      apply contains_loop_find; [lia|]. apply Nat.ltb_ge. done. }
    rewrite bool_decide_eq_true. destruct (find s pattern) as [k|].
    + split; [|done]. intros _. exists k. destruct Hf as (? & ? & _). split; [lia | done].
    + split; [intros [? [=]]|]. intros (j & Hj & Ho). by destruct (Hf j).
Qed.

(** ** Splitting keeps slices valid *)

Lemma is_text_app_inv a b : is_text a -> is_text (a ++ b) -> is_text b.
Proof.
  intros (cs & Hcs & ->). induction Hcs as [|c cs [Hs Hc] Hcs IH]; [done|].
  cbn [map concat]. rewrite <- app_assoc. intros Ht.
  apply (is_text_seq_inv c) in Ht; [by apply IH | by apply encode_seq].
Qed.

(** An occurrence of a text inside a text starts and ends between characters:
    the first byte of a text is never a continuation byte. *)
Lemma occurs_at_text s pattern i :
  is_text s -> is_text pattern -> pattern <> [] -> occurs_at s pattern i ->
  exists b, s = take i s ++ pattern ++ b /\ is_text (take i s) /\ is_text b.
Proof.
  intros Hs Hp Hne Ho. pose proof (occurs_at_bound _ _ _ Ho Hne) as Hi.
  destruct (occurs_at_split s pattern i ltac:(lia) Ho) as (b & E & _).
  exists b. split; [done|].
  assert (is_char_boundary s i = true) as Hb.
  { unfold is_char_boundary. case_if; [done|]. case_if; [lia|].
    rewrite E at 1. rewrite lookup_app_r by (rewrite length_take; lia).
    rewrite length_take_le, Nat.sub_diag by lia.
    pose proof (text_head_not_continuation pattern Hp Hne) as Hc.
    destruct pattern as [|x pattern]; [done|]. cbn in Hc |- *. by rewrite Hc. }
  apply char_boundary_text in Hb as (_ & H1 & H2); [|done]. split; [done|].
  apply (is_text_app_inv pattern); [done|].
  replace (pattern ++ b) with (drop i s); [done|].
  rewrite E at 1. by rewrite drop_app_length' by (rewrite length_take; lia).
Qed.

Lemma str_get_parts s l m r :
  is_text s -> s = l ++ m ++ r -> is_text l -> is_text m ->
  str_get s (length l) (length l + length m) = Some m.
Proof.
  intros Hs E Hl Hm.
  assert (is_text r) as Hr.
  { apply (is_text_app_inv m); [done|]. apply (is_text_app_inv l); [done|]. by rewrite <- E. }
  unfold str_get, slice. rewrite E, !length_app.
  replace (_ <? _)%nat with false by (symmetry; apply Nat.ltb_ge; lia).
  replace (_ <? _)%nat with false by (symmetry; apply Nat.ltb_ge; lia). cbn [orb].
  rewrite drop_app_length. replace (length l + length m - length l)%nat with (length m) by lia.
  rewrite take_app_length.
  rewrite (proj2 (char_boundary_text (l ++ m ++ r) (length l) ltac:(by rewrite <- E))).
  2:{ rewrite take_app_length, drop_app_length, length_app.
      split_and!; [lia | done | by apply is_text_app]. }
  rewrite (proj2 (char_boundary_text (l ++ m ++ r) _ ltac:(by rewrite <- E))); [done|].
  rewrite app_assoc, take_app_length', drop_app_length', !length_app by (rewrite length_app; lia).
  split_and!; [lia | by apply is_text_app | done].
Qed.

Lemma split_at_match_text s pattern i :
  is_text s -> is_text pattern -> (i + length pattern <= length s)%nat ->
  (pattern = [] -> i = 0%nat \/ i = length s) -> occurs_at s pattern i ->
  exists l r, split_at_match s pattern (Some i) = Ret (Some (l, r)) /\ length l = i /\
    s = l ++ pattern ++ r /\ is_text l /\ is_text r.
Proof.
  intros Hs Hp Hi Hnil Ho.
  assert (exists r, s = take i s ++ pattern ++ r /\ is_text (take i s) /\ is_text r) as (r & E & Hl & Hr).
  { destruct pattern as [|x pattern]; [|by apply occurs_at_text].
    exists (drop i s). cbn. rewrite take_drop. split; [done|].
    destruct (Hnil eq_refl) as [-> | ->].
    - split; [apply is_text_nil | by rewrite drop_0].
    - rewrite firstn_all, drop_all. split; [done | apply is_text_nil]. }
  exists (take i s), r. assert (length (take i s) = i) as Hlen by (rewrite length_take; lia).
  split; [|by split_and!].
  unfold split_at_match.
  pose proof (str_get_parts s [] (take i s) (pattern ++ r) Hs E is_text_nil Hl) as E1.
  cbn [length Nat.add] in E1. rewrite Hlen in E1. rewrite E1.
  pose proof (str_get_parts s (take i s ++ pattern) r [] Hs) as E2.
  rewrite length_app, Hlen in E2.
  replace (i + length pattern + length r)%nat with (length s) in E2.
  2:{ rewrite E at 1. rewrite !length_app, Hlen. lia. }
  rewrite E2; [done | | by apply is_text_app | done].
  by rewrite app_nil_r, <- app_assoc.
Qed.

(** Splitting a string slice at a pattern never reaches the [unwrap]s
    that would abort: the two parts are string slices again, they and the
    pattern make up the input, and [split_once] cuts at the first occurrence,
    [rsplit_once] at the last.  Without an occurrence nothing is returned. *)
Theorem split_once_text s pattern :
  is_text s -> is_text pattern ->
  match split_once s pattern, rsplit_once s pattern with
  | Ret None, Ret None => forall j, (j <= length s)%nat -> ~ occurs_at s pattern j
  | Ret (Some (l, r)), Ret (Some (l', r')) =>
    s = l ++ pattern ++ r /\ is_text l /\ is_text r /\
    s = l' ++ pattern ++ r' /\ is_text l' /\ is_text r' /\
    (forall j, (j <= length s)%nat -> occurs_at s pattern j -> (length l <= j <= length l')%nat)
  | _, _ => False
  end.
Proof.
  intros Hs Hp. unfold split_once, rsplit_once.
  pose proof (find_spec s pattern) as Hf. pose proof (rfind_spec s pattern) as Hr.
  destruct (find s pattern) as [i|] eqn:Ef, (rfind s pattern) as [k|] eqn:Er; [| | |done].
  - destruct Hf as (Hi & Hoi & Hmin), Hr as (Hk & Hok & Hmax).
    destruct (split_at_match_text s pattern i) as (l & r & -> & <- & ? & ? & ?); try done.
    { intros ->. left. by injection Ef. }
    destruct (split_at_match_text s pattern k) as (l' & r' & -> & <- & ? & ? & ?); try done.
    { intros ->. right. by injection Er. }
    do 6 (split; [done|]). intros j Hj Ho. split.
    + apply Nat.nlt_ge. intros ?. by apply (Hmin j).
    + apply Nat.nlt_ge. intros ?. by apply (Hmax j).
  - destruct Hf as (? & ? & _). by destruct (Hr i ltac:(lia)).
  - destruct Hr as (? & ? & _). by destruct (Hf k ltac:(lia)).
Qed.

Lemma split_once_text_witness :
  split_once [97; 0xC3; 0xA9; 98] [0xC3; 0xA9] = Ret (Some ([97], [98])) /\
  is_text [97] /\ is_text [98].
Proof.
  assert (is_text [0xC3; 0xA9]) as He.
  { apply (is_text_seq 0xE9 [0xC3; 0xA9] []); [apply (seq2 3 41); lia | apply is_text_nil]. }
  assert (is_text [97; 0xC3; 0xA9; 98]) as Hs.
  { apply text_ascii_cons; [lia|]. apply (is_text_app [0xC3; 0xA9] [98] He).
    apply text_ascii. repeat constructor; lia. }
  pose proof (split_once_text _ _ Hs He) as H.
  split; [reflexivity|]. exact (conj (proj1 (proj2 H)) (proj1 (proj2 (proj2 H)))).
Defined.

(** ** Trimming *)

Definition all_whitespace (s : list Z) : Prop := Forall (fun b => is_trim_whitespace b = true) s.

Lemma slice_app_l s i j k :
  (i <= j <= k)%nat -> (k <= length s)%nat -> slice s i j ++ slice s j k = slice s i k.
Proof.
  intros ? ?. unfold slice.
  replace (drop j s) with (drop (j - i) (drop i s)) by (rewrite drop_drop; f_equal; lia).
  replace (k - i)%nat with ((j - i) + (k - j))%nat by lia.
  set (t := drop i s). rewrite <- (take_drop (j - i) (take (j - i + (k - j)) t)).
  rewrite take_take, <- take_drop_commute. do 2 f_equal. lia.
Qed.

Lemma slice_single s i b : s !! i = Some b -> slice s i (S i) = [b].
Proof.
  intros H. unfold slice. replace (S i - i)%nat with 1%nat by lia.
  rewrite (drop_S s b i H). done.
Qed.

Lemma trim_begin_loop_spec fuel p i k :
  (i <= k)%nat -> (k <= length p)%nat -> (k - i <= fuel)%nat ->
  let i' := trim_begin_loop fuel p i k in
  (i <= i' <= k)%nat /\ all_whitespace (slice p i i') /\
  ((i' < k)%nat -> is_trim_whitespace (default 0 (p !! i')) = false).
Proof.
  revert i. induction fuel as [|fuel IH]; intros i Hi Hk Hf; cbn [trim_begin_loop].
  { split; [lia|]. split; [|lia]. unfold slice. rewrite Nat.sub_diag. constructor. }
  destruct (i <? k)%nat eqn:E; cbn [andb].
  - apply Nat.ltb_lt in E. destruct (is_trim_whitespace _) eqn:Ew.
    + destruct (IH (S i)) as (? & ? & ?); [lia..|]. split; [lia|]. split; [|done].
      destruct (lookup_lt_is_Some_2 p i) as [b Hb]; [lia|]. rewrite Hb in Ew.
      rewrite <- (slice_app_l _ i (S i)) by lia. apply Forall_app. split; [|done].
      rewrite (slice_single p i b Hb). by constructor.
    + split; [lia|]. split; [|done]. unfold slice. rewrite Nat.sub_diag. constructor.
  - apply Nat.ltb_ge in E. split; [lia|]. split; [|lia]. unfold slice. rewrite Nat.sub_diag. constructor.
Qed.

Lemma trim_end_loop_spec p i k :
  (i <= k)%nat -> (k <= length p)%nat ->
  let k' := trim_end_loop p i k in
  (i <= k' <= k)%nat /\ all_whitespace (slice p k' k) /\
  ((i < k')%nat -> is_trim_whitespace (default 0 (p !! (k' - 1)%nat)) = false).
Proof.
  induction k as [|k IH]; intros Hi Hk; cbn [trim_end_loop].
  { split; [lia|]. split; [constructor | lia]. }
  destruct (i <? S k)%nat eqn:E; cbn [andb].
  - apply Nat.ltb_lt in E. destruct (is_trim_whitespace _) eqn:Ew.
    + destruct IH as (? & ? & ?); [lia..|]. split; [lia|]. split; [|done].
      destruct (lookup_lt_is_Some_2 p k) as [b Hb]; [lia|]. rewrite Hb in Ew.
      rewrite <- (slice_app_l _ _ k) by lia. apply Forall_app. split; [done|].
      rewrite (slice_single p k b Hb). by constructor.
    + split; [lia|]. split; [unfold slice; rewrite Nat.sub_diag; constructor|].
      by replace (S k - 1)%nat with k by lia.
  - apply Nat.ltb_ge in E. split; [lia|]. split; [|lia]. unfold slice. rewrite Nat.sub_diag. constructor.
Qed.

Lemma whitespace_text s : all_whitespace s -> is_text s.
Proof.
  intros H. apply text_ascii. revert H. apply Forall_impl. intros b Hb.
  unfold is_trim_whitespace in Hb. lia.
Qed.

(** [trim_ascii] removes whitespace from both ends and nothing else: what
    it drops is whitespace, what it keeps begins and ends with something else,
    and trimming a string slice gives a string slice. *)
Theorem trim_ascii_spec s :
  exists a b, s = a ++ trim_ascii s ++ b /\ all_whitespace a /\ all_whitespace b /\
    (forall x, head (trim_ascii s) = Some x -> is_trim_whitespace x = false) /\
    (forall x, list.last (trim_ascii s) = Some x -> is_trim_whitespace x = false) /\
    (is_text s -> is_text (trim_ascii s)).
Proof.
  unfold trim_ascii. set (n := length s).
  destruct (trim_begin_loop_spec n s 0 n) as (Hi & Ha & Hib); [lia..|].
  set (i := trim_begin_loop n s 0 n) in *.
  destruct (trim_end_loop_spec s i n) as (Hk & Hb & Hkb); [lia..|].
  set (k := trim_end_loop s i n) in *.
  assert (s = slice s 0 i ++ slice s i k ++ slice s k n) as E.
  { rewrite app_assoc, !slice_app_l by lia. unfold slice. cbn. rewrite Nat.sub_0_r. symmetry. apply firstn_all. }
  exists (slice s 0 i), (slice s k n). do 3 (split; [done|]). split_and!.
  - intros x Hx. destruct (decide (i = k)) as [Eik|].
    { rewrite Eik in Hx. unfold slice in Hx. by rewrite Nat.sub_diag in Hx. }
    rewrite head_lookup in Hx. unfold slice in Hx. rewrite lookup_take_lt, lookup_drop in Hx by lia.
    rewrite Nat.add_0_r in Hx. rewrite Hx in Hib. apply Hib. lia.
  - intros x Hx. destruct (decide (i = k)) as [Eik|].
    { rewrite Eik in Hx. unfold slice in Hx. by rewrite Nat.sub_diag in Hx. }
    rewrite list.last_lookup in Hx. unfold slice in Hx. rewrite length_take, length_drop in Hx.
    rewrite lookup_take_lt, lookup_drop in Hx by lia.
    replace (i + Init.Nat.pred ((k - i) `min` (length s - i)))%nat with (k - 1)%nat in Hx by lia.
    rewrite Hx in Hkb. apply Hkb. lia.
  - intros Hs. rewrite E in Hs.
    apply is_text_app_inv in Hs; [|by apply whitespace_text].
    destruct (slice s k n) as [|x b] eqn:Eb; [by rewrite app_nil_r in Hs|].
    apply text_ascii_split in Hs as (? & _ & _); [done|].
    inversion Hb as [|? ? Hx]. unfold is_trim_whitespace in Hx. lia.
Qed.

(** *** Where a split happens *)

Lemma occurs_at_app l pattern r : occurs_at (l ++ pattern ++ r) pattern (length l).
Proof. unfold occurs_at. rewrite drop_app_length. by exists r. Qed.

Lemma split_once_spec s pattern :
  is_text s -> is_text pattern ->
  match split_once s pattern with
  | Ret None => forall j, (j <= length s)%nat -> ~ occurs_at s pattern j
  | Ret (Some (l, r)) =>
    s = l ++ pattern ++ r /\ is_text l /\ is_text r /\ forall j, (j < length l)%nat -> ~ occurs_at s pattern j
  | _ => False
  end.
Proof.
  intros Hs Hp. unfold split_once. pose proof (find_spec s pattern) as Hf.
  destruct (find s pattern) as [i|] eqn:Ef; [|done]. destruct Hf as (Hi & Ho & Hmin).
  destruct (split_at_match_text s pattern i) as (l & r & -> & <- & ? & ? & ?); try done.
  intros ->. left. by injection Ef.
Qed.

Lemma rsplit_once_spec s pattern :
  is_text s -> is_text pattern ->
  match rsplit_once s pattern with
  | Ret None => forall j, (j <= length s)%nat -> ~ occurs_at s pattern j
  | Ret (Some (l, r)) =>
    s = l ++ pattern ++ r /\ is_text l /\ is_text r /\
    forall j, (length l < j <= length s)%nat -> ~ occurs_at s pattern j
  | _ => False
  end.
Proof.
  intros Hs Hp. unfold rsplit_once. pose proof (rfind_spec s pattern) as Hf.
  destruct (rfind s pattern) as [i|] eqn:Ef; [|done]. destruct Hf as (Hi & Ho & Hmax).
  destruct (split_at_match_text s pattern i) as (l & r & -> & <- & ? & ? & ?); try done.
  intros ->. right. by injection Ef.
Qed.

Lemma split_once_at l pattern r :
  is_text (l ++ pattern ++ r) -> is_text pattern ->
  (forall j, (j < length l)%nat -> ~ occurs_at (l ++ pattern ++ r) pattern j) ->
  split_once (l ++ pattern ++ r) pattern = Ret (Some (l, r)).
Proof.
  intros Hs Hp Hl. pose proof (split_once_spec _ _ Hs Hp) as H.
  destruct (split_once _ pattern) as [[[l' r']|]|[]| |]; [| |done..].
  - destruct H as (E & _ & _ & Hl'). rewrite E in Hl.
    assert (length l = length l') as Hlen.
    { destruct (Nat.lt_trichotomy (length l) (length l')) as [Hc|[Hc|Hc]]; [|done|].
      - by destruct (Hl' _ Hc (occurs_at_app l pattern r)).
      - by destruct (Hl _ Hc (occurs_at_app l' pattern r')). }
    apply app_inj_1 in E as [-> E]; [|done]. by apply app_inv_head in E as ->.
  - destruct (H (length l)); [rewrite length_app; lia|apply occurs_at_app].
Qed.

Lemma rsplit_once_at l pattern r :
  is_text (l ++ pattern ++ r) -> is_text pattern ->
  (forall j, (length l < j <= length (l ++ pattern ++ r))%nat -> ~ occurs_at (l ++ pattern ++ r) pattern j) ->
  rsplit_once (l ++ pattern ++ r) pattern = Ret (Some (l, r)).
Proof.
  intros Hs Hp Hl. pose proof (rsplit_once_spec _ _ Hs Hp) as H.
  destruct (rsplit_once _ pattern) as [[[l' r']|]|[]| |]; [| |done..].
  - destruct H as (E & _ & _ & Hl').
    assert (length l = length l') as Hlen.
    { destruct (Nat.lt_trichotomy (length l) (length l')) as [Hc|[Hc|Hc]]; [|done|].
      - destruct (Hl (length l')); [split; [done|rewrite E, length_app; lia]|]. rewrite E. apply occurs_at_app.
      - destruct (Hl' (length l)); [split; [done|rewrite length_app; lia]|]. apply occurs_at_app. }
    apply app_inj_1 in E as [-> E]; [|done]. by apply app_inv_head in E as ->.
  - destruct (H (length l)); [rewrite length_app; lia|apply occurs_at_app].
Qed.

(** Splitting at a single byte. *)
Lemma occurs_at_byte s c j : occurs_at s [c] j -> s !! j = Some c.
Proof.
  intros [b Hb]. rewrite <- (Nat.add_0_r j), <- lookup_drop, Hb. done.
Qed.

Lemma split_once_byte l c r :
  is_text (l ++ [c] ++ r) -> 0 <= c < 128 -> ~ (c ∈ l) -> split_once (l ++ [c] ++ r) [c] = Ret (Some (l, r)).
Proof.
  intros Hs Hc Hn. apply split_once_at; [done|by apply text_ascii; repeat constructor; lia|].
  intros j Hj Ho%occurs_at_byte. rewrite lookup_app_l in Ho by done. by apply list_elem_of_lookup_2 in Ho.
Qed.

Lemma split_once_byte_none s c : is_text s -> 0 <= c < 128 -> ~ (c ∈ s) -> split_once s [c] = Ret None.
Proof.
  intros Hs Hc Hn. pose proof (split_once_spec s [c] Hs ltac:(apply text_ascii; repeat constructor; lia)) as H.
  destruct (split_once s [c]) as [[[l r]|]|[]| |]; try done.
  destruct H as (-> & _). destruct Hn. rewrite !elem_of_app. right. left. constructor.
Qed.

Lemma rsplit_once_byte l c r :
  is_text (l ++ [c] ++ r) -> 0 <= c < 128 -> ~ (c ∈ r) -> rsplit_once (l ++ [c] ++ r) [c] = Ret (Some (l, r)).
Proof.
  intros Hs Hc Hn. apply rsplit_once_at; [done|by apply text_ascii; repeat constructor; lia|].
  intros j Hj Ho%occurs_at_byte. rewrite lookup_app_r in Ho by lia. apply Hn.
  destruct (j - length l)%nat as [|k] eqn:E; [lia|]. cbn in Ho. by apply list_elem_of_lookup_2 in Ho.
Qed.

Lemma contains_byte_false s c : ~ (c ∈ s) -> contains s [c] = false.
Proof.
  intros Hn. unfold contains. cbn [length Nat.eqb]. destruct (Nat.ltb_spec (length s) 1); [done|].
  rewrite contains_loop_find by (cbn [length]; lia). apply bool_decide_eq_false.
  pose proof (find_loop_spec (S (length s - 1)) 0 s [c]) as Hf. intros [i Hi]. rewrite Hi in Hf.
  destruct Hf as (_ & Ho%occurs_at_byte & _). by apply Hn, list_elem_of_lookup_2 with i.
Qed.

(** Stripping a pattern known to be there. *)
Lemma strip_prefix_app p s : is_text p -> is_text s -> strip_prefix (p ++ s) p = Some s.
Proof.
  intros Hp Hs. unfold strip_prefix. rewrite (proj2 (starts_with_spec _ _)) by (by exists s). cbn [negb].
  rewrite length_app. apply (str_get_parts (p ++ s) p s []); [by apply is_text_app| |done..]. by rewrite app_nil_r.
Qed.

Lemma strip_suffix_app s p : is_text p -> is_text s -> strip_suffix (s ++ p) p = Some s.
Proof.
  intros Hp Hs. unfold strip_suffix. rewrite (proj2 (ends_with_spec _ _)) by (by exists s). cbn [negb].
  rewrite length_app, Nat.add_sub.
  apply (str_get_parts (s ++ p) [] s p); [by apply is_text_app|done|apply is_text_nil|done].
Qed.
