(* ===== verification/Cursor.v ===== *)
(** * Parser input: [Input], [Cursor] and the [consume_*] functions

    Models [src/parse/src/core/source.cppm] and
    [src/parse/src/core/consume.cppm].  A [Cursor<T, Position>] is a record;
    the code units ([u8] or [u16]) are integers.  The position policy is an
    option: [None] is [UntrackedPosition], [Some] carries the state of
    [LinePosition].  Cursors are neither copied nor moved, so the address that
    a checkpoint remembers is the number [self_]. *)

From Stdlib Require Import ZArith Lia ZifyBool.
From stdpp Require Import relations.
From S2P Require Import Prelude Utf8 Str.
Local Open Scope Z_scope.

(** ** Spans and positions *)

Record Span := MkSpan { span_begin : nat; span_end : nat }.

Definition span_is_empty (s : Span) : bool := (span_begin s =? span_end s)%nat.
Definition span_len (s : Span) : nat := (span_end s - span_begin s)%nat.

Record SourcePosition := MkPosition { line : nat; column : nat }.

Record LinePosition := MkLine { line_ : nat; line_start_ : nat; carriage_return_ : bool }.

Definition line_start : LinePosition := MkLine 1 0 false.

Definition line_position (p : LinePosition) (offset : nat) : SourcePosition :=
  MkPosition (line_ p) (offset - line_start_ p + 1).

(** One round of [LinePosition::advance]. *)
Definition line_advance_unit (p : LinePosition) (value : Z) (offset : nat) : LinePosition :=
  if value =? 0x0d then MkLine (line_ p + 1) (offset + 1) true
  else if value =? 0x0a then
    MkLine (if negb (carriage_return_ p) || negb (line_start_ p =? offset)%nat
            then line_ p + 1 else line_ p)
           (offset + 1) false
  else p.

Fixpoint line_advance (p : LinePosition) (bytes : list Z) (start : nat) : LinePosition :=
  match bytes with
  | [] => p
  | value :: bytes => line_advance (line_advance_unit p value start) bytes (S start)
  end.

(** ** [Input] *)

Record Input := MkInput { values_ : list Z; validated : bool }.

Definition text_input (s : list Z) : Input := MkInput s true.

(** [Input::text]; the failure is the [Utf8Error] of the [Result]. *)
Definition input_text (i : Input) (span : Span) : outcome Utf8Error (list Z) :=
  let '(MkSpan b e) := span in
  if (e <? b)%nat || (length (values_ i) <? e)%nat then Panic
  else
    let bytes := slice (values_ i) b e in
    let checked := match from_utf8 bytes with Ok s => Ret s | Err err => Fail err end in
    if validated i then
      match str_get (values_ i) b e with
      | Some selected => Ret selected
      | None => if span_is_empty span then Fail (mkUtf8Error 0 None) else checked
      end
    else checked.

(** ** [Cursor] *)

Record Checkpoint := MkCheckpoint
  { owner_ : nat; cp_position_ : nat; cp_tracking_ : option LinePosition }.

Record Cursor := MkCursor
  { self_ : nat;
    input_ : Input;
    position_ : nat;
    furthest_ : nat;
    tracking_ : option LinePosition }.

(** The two constructors: [Cursor<T>] and [Cursor<T, LinePosition>]. *)
Definition cursor_new (self : nat) (i : Input) (tracked : bool) : Cursor :=
  MkCursor self i 0 0 (if tracked then Some line_start else None).

Definition input (c : Cursor) : list Z := values_ (input_ c).
Definition len (c : Cursor) : nat := length (input c).
Definition remaining (c : Cursor) : nat := (len c - position_ c)%nat.
Definition is_eof (c : Cursor) : bool := (position_ c =? len c)%nat.
Definition furthest_position (c : Cursor) : nat :=
  if (furthest_ c <? position_ c)%nat then position_ c else furthest_ c.
Definition remaining_input (c : Cursor) : list Z := drop (position_ c) (input c).

Definition checkpoint (c : Cursor) : Checkpoint := MkCheckpoint (self_ c) (position_ c) (tracking_ c).

Definition rewind (cp : Checkpoint) : M Cursor unit unit := fun c =>
  if negb (owner_ cp =? self_ c)%nat || (len c <? cp_position_ cp)%nat then (Panic, c)
  else (Ret tt, MkCursor (self_ c) (input_ c) (cp_position_ cp) (furthest_position c) (cp_tracking_ cp)).

Definition span_from (cp : Checkpoint) : M Cursor unit Span := fun c =>
  if negb (owner_ cp =? self_ c)%nat || (position_ c <? cp_position_ cp)%nat then (Panic, c)
  else (Ret (MkSpan (cp_position_ cp) (position_ c)), c).

Definition view (c : Cursor) (span : Span) : outcome unit (list Z) :=
  let '(MkSpan b e) := span in
  if (e <? b)%nat || (len c <? e)%nat then Panic
  else if span_is_empty span then Ret [] else Ret (slice (input c) b e).

Definition peek (c : Cursor) (ahead : nat) : option Z :=
  if (remaining c <=? ahead)%nat then None else input c !! (position_ c + ahead)%nat.

Definition advance (count : nat) : M Cursor unit bool := fun c =>
  if (remaining c <? count)%nat then (Ret false, c)
  else if (count =? 0)%nat then (Ret true, c)
  else
    let t := match tracking_ c with
             | Some p => Some (line_advance p (slice (input c) (position_ c) (position_ c + count)) (position_ c))
             | None => None
             end in
    (Ret true, MkCursor (self_ c) (input_ c) (position_ c + count) (furthest_ c) t).

Definition take_unit : M Cursor unit (option Z) := fun c =>
  match peek c 0 with
  | Some value => (Ret (Some value), snd (advance 1 c))
  | None => (Ret None, c)
  end.

Definition advance_single_line_unchecked (count : nat) : M Cursor unit bool := fun c =>
  if (remaining c <? count)%nat then (Ret false, c)
  else (Ret true, MkCursor (self_ c) (input_ c) (position_ c + count) (furthest_ c) (tracking_ c)).

(** The LF-only loop of untracked cursors. *)
Definition untracked_unit (p : SourcePosition) (value : Z) : SourcePosition :=
  if value =? 0x0a then MkPosition (line p + 1) 1 else MkPosition (line p) (column p + 1).

Definition untracked_position (s : list Z) (offset : nat) : SourcePosition :=
  foldl untracked_unit (MkPosition 1 1) (take offset s).

Definition source_position_at (c : Cursor) (offset : nat) : outcome unit SourcePosition :=
  if (len c <? offset)%nat then Panic
  else match tracking_ c with
       | Some _ => Ret (line_position (line_advance line_start (take offset (input c)) 0) offset)
       | None => Ret (untracked_position (input c) offset)
       end.

Definition source_position (c : Cursor) : outcome unit SourcePosition :=
  match tracking_ c with
  | Some p => Ret (line_position p (position_ c))
  | None => source_position_at c (position_ c)
  end.

Definition cursor_text (c : Cursor) (span : Span) : outcome Utf8Error (list Z) :=
  input_text (input_ c) span.

(** ** [consume_*] *)

Section Consume.
Context (predicate : Z -> bool).
Local Open Scope rstd_scope.

Definition consume_if : M Cursor unit (option Span) :=
  let* start := gets checkpoint in
  let* value := gets (fun c => peek c 0) in
  match value with
  | None => ret None
  | Some v =>
    if negb (predicate v) then ret None
    else
      do* take_unit ;;
      let* span := span_from start in
      ret (Some span)
  end.

(** [while (true)]; every round but the last takes one unit, so the number
    of remaining units plus one is enough fuel. *)
Fixpoint consume_while_loop (fuel : nat) : M Cursor unit unit :=
  match fuel with
  | O => out_of_fuel
  | S fuel =>
    let* value := gets (fun c => peek c 0) in
    match value with
    | None => ret tt
    | Some v =>
      if negb (predicate v) then ret tt
      else do* take_unit ;; consume_while_loop fuel
    end
  end.

Definition consume_while : M Cursor unit Span :=
  let* start := gets checkpoint in
  let* fuel := gets (fun c => S (remaining c)) in
  do* consume_while_loop fuel ;;
  span_from start.

Definition consume_while_one : M Cursor unit (option Span) :=
  let* span := consume_while in
  ret (if span_is_empty span then None else Some span).

(** The counted loop of [consume_n]; [true] when no unit was refused. *)
Fixpoint consume_n_loop (count : nat) : M Cursor unit bool :=
  match count with
  | O => ret true
  | S count =>
    let* value := take_unit in
    match value with
    | None => ret false
    | Some v => if negb (predicate v) then ret false else consume_n_loop count
    end
  end.

Definition consume_n (count : nat) : M Cursor unit (option Span) :=
  let* start := gets checkpoint in
  let* matched := consume_n_loop count in
  if matched then let* span := span_from start in ret (Some span)
  else do* rewind start ;; ret None.

Definition skip_while : M Cursor unit nat :=
  let* span := consume_while in ret (span_len span).
End Consume.

Definition consume_until (predicate : Z -> bool) : M Cursor unit Span :=
  consume_while (fun v => negb (predicate v)).

Section Literal.
Local Open Scope rstd_scope.

Fixpoint consume_literal_loop (text : list Z) : M Cursor unit bool :=
  match text with
  | [] => ret true
  | expected :: text =>
    let* actual := take_unit in
    match actual with
    | None => ret false
    | Some v => if negb (v =? expected) then ret false else consume_literal_loop text
    end
  end.

Definition consume_literal (text : list Z) : M Cursor unit (option Span) :=
  let* start := gets checkpoint in
  let* matched := consume_literal_loop text in
  if matched then let* span := span_from start in ret (Some span)
  else do* rewind start ;; ret None.
End Literal.

(** ** Line positions *)

(** What the positions mean.  A line ends with CR, LF or CR LF; the column of
    an offset counts the units since the last line end. *)
Fixpoint line_breaks (after_cr : bool) (s : list Z) : nat :=
  match s with
  | [] => 0
  | v :: s =>
    if v =? 0x0d then S (line_breaks true s)
    else if v =? 0x0a then ((if after_cr then 0 else 1) + line_breaks false s)%nat
    else line_breaks false s
  end.

Definition is_newline (v : Z) : bool := (v =? 0x0d) || (v =? 0x0a).

Fixpoint current_line (s : list Z) : list Z :=
  match s with
  | [] => []
  | v :: s' => if existsb is_newline s then current_line s' else s
  end.

Definition position_spec (s : list Z) : SourcePosition :=
  MkPosition (1 + line_breaks false s) (1 + length (current_line s)).

Lemma line_advance_app p a b start :
  line_advance p (a ++ b) start = line_advance (line_advance p a start) b (start + length a).
Proof.
  revert p start. induction a as [|v a IH]; intros p start; cbn; [by rewrite Nat.add_0_r|].
  rewrite IH. f_equal. lia.
Qed.

Lemma line_advance_plain p a start :
  existsb is_newline a = false -> line_advance p a start = p.
Proof.
  revert p start. induction a as [|v a IH]; intros p start; cbn [line_advance existsb]; [done|].
  intros [Hv Ha]%orb_false_iff. rewrite IH by done. unfold is_newline in Hv. unfold line_advance_unit.
  by destruct (v =? 0x0d), (v =? 0x0a).
Qed.

Lemma line_advance_line p a start after_cr :
  carriage_return_ p && (line_start_ p =? start)%nat = after_cr -> (line_start_ p <= start)%nat ->
  line_ (line_advance p a start) = (line_ p + line_breaks after_cr a)%nat.
Proof.
  revert p start after_cr. induction a as [|v a IH]; intros p start after_cr Hcr Hs; cbn.
  { lia. }
  unfold line_advance_unit. destruct (v =? 0x0d) eqn:E1; [|destruct (v =? 0x0a) eqn:E2].
  - rewrite (IH _ _ true); cbn; [lia| |lia]. apply Nat.eqb_eq. lia.
  - rewrite (IH _ _ false); cbn; [|done|lia]. rewrite <- Hcr.
    destruct (carriage_return_ p), (line_start_ p =? start)%nat; cbn; lia.
  - apply (IH p (S start) false); [|lia]. replace (line_start_ p =? S start)%nat with false.
    + apply andb_false_r.
    + symmetry. apply Nat.eqb_neq. lia.
Qed.

Lemma line_advance_start p a start :
  line_start_ (line_advance p a start) =
  if existsb is_newline a then (start + length a - length (current_line a))%nat else line_start_ p.
Proof.
  revert p start. induction a as [|v a IH]; intros p start; [done|].
  cbn [line_advance]. rewrite IH. cbn [existsb length current_line].
  destruct (existsb is_newline a) eqn:Ea; [rewrite orb_true_r; f_equal; lia|]. rewrite orb_false_r.
  unfold line_advance_unit, is_newline.
  destruct (v =? 0x0d) eqn:E1; [|destruct (v =? 0x0a) eqn:E2]; cbn; try done.
  - destruct a as [|w a]; cbn [existsb current_line length] in *; [lia|]. rewrite Ea. cbn. lia.
  - destruct a as [|w a]; cbn [existsb current_line length] in *; [lia|]. rewrite Ea. cbn. lia.
Qed.

Lemma current_line_plain s : existsb is_newline s = false -> current_line s = s.
Proof. destruct s as [|v s]; [done|]. intros H. cbn [current_line]. by rewrite H. Qed.

Lemma current_line_length s : (length (current_line s) <= length s)%nat.
Proof. induction s as [|v s IH]; [done|]. cbn [current_line]. case_if; cbn; lia. Qed.

Lemma line_position_spec s n :
  length s = n -> line_position (line_advance line_start s 0) n = position_spec s.
Proof.
  intros <-. unfold line_position, position_spec.
  rewrite (line_advance_line _ s 0 false) by done. rewrite line_advance_start. cbn [line_start line_ line_start_].
  f_equal. pose proof (current_line_length s). destruct (existsb is_newline s) eqn:E; [lia|].
  rewrite current_line_plain by done. lia.
Qed.

(** ** The cursor as a state machine *)

(** What a parser does with a cursor: save checkpoints, rewind to one of them,
    and advance.  [advance_single_line_unchecked] is only called on units
    without line ends, as its comment asks. *)
Inductive cursor_step : Cursor * list Checkpoint -> Cursor * list Checkpoint -> Prop :=
| step_checkpoint c cps : cursor_step (c, cps) (c, checkpoint c :: cps)
| step_rewind c cps cp c' : In cp cps -> rewind cp c = (Ret tt, c') -> cursor_step (c, cps) (c', cps)
| step_take c cps v c' : take_unit c = (Ret v, c') -> cursor_step (c, cps) (c', cps)
| step_advance c cps n ok c' : advance n c = (Ret ok, c') -> cursor_step (c, cps) (c', cps)
| step_single_line c cps n ok c' :
    existsb is_newline (slice (input c) (position_ c) (position_ c + n)) = false ->
    advance_single_line_unchecked n c = (Ret ok, c') -> cursor_step (c, cps) (c', cps).

Definition cursor_steps := rtc cursor_step.

(** The tracked line state is the one computed from the start of the input. *)
Definition tracks (s : list Z) (tracked : bool) (pos : nat) (t : option LinePosition) : Prop :=
  t = if tracked then Some (line_advance line_start (take pos s) 0) else None.

Definition cursor_ok (self : nat) (i : Input) (tracked : bool) (c : Cursor) : Prop :=
  self_ c = self /\ input_ c = i /\ (position_ c <= len c)%nat /\ (furthest_ c <= len c)%nat /\
  tracks (values_ i) tracked (position_ c) (tracking_ c).

Definition checkpoint_ok (self : nat) (i : Input) (tracked : bool) (cp : Checkpoint) : Prop :=
  owner_ cp = self /\ (cp_position_ cp <= length (values_ i))%nat /\
  tracks (values_ i) tracked (cp_position_ cp) (cp_tracking_ cp).

Lemma tracks_advance s tracked pos n t :
  (pos + n <= length s)%nat -> tracks s tracked pos t ->
  tracks s tracked (pos + n)
    match t with Some p => Some (line_advance p (slice s pos (pos + n)) pos) | None => None end.
Proof.
  unfold tracks. intros Hn ->. destruct tracked; [|done]. f_equal.
  replace (take (pos + n) s) with (take pos s ++ slice s pos (pos + n)).
  - rewrite line_advance_app, length_take_le by lia. done.
  - unfold slice. replace (pos + n - pos)%nat with n by lia.
    by rewrite take_take_drop.
Qed.

Lemma advance_ok self i tracked c n :
  cursor_ok self i tracked c -> cursor_ok self i tracked (snd (advance n c)).
Proof.
  intros (Hs & Hi & Hp & Hf & Ht). unfold advance, remaining, len, input in *.
  case_if; [by split_and!|]. case_if; [by split_and!|]. cbn [snd].
  unfold cursor_ok, len, input. cbn. rewrite Hi in *.
  split_and!; try done; [lia|]. apply (tracks_advance _ _ _ _ (tracking_ c)); [lia | done].
Qed.

Lemma take_unit_ok self i tracked c :
  cursor_ok self i tracked c -> cursor_ok self i tracked (snd (take_unit c)).
Proof. intros H. unfold take_unit. destruct (peek c 0); [by apply advance_ok | done]. Qed.

Lemma rewind_ok self i tracked c cp :
  cursor_ok self i tracked c -> checkpoint_ok self i tracked cp ->
  rewind cp c = (Ret tt, MkCursor self i (cp_position_ cp) (furthest_position c) (cp_tracking_ cp)) /\
  cursor_ok self i tracked (snd (rewind cp c)).
Proof.
  intros (Hs & Hi & Hp & Hf & Ht) (Ho & Hcp & Hct). unfold rewind, len, input in *.
  rewrite Ho, Hs, Hi, Nat.eqb_refl in *. cbn [negb orb].
  replace (length (values_ i) <? cp_position_ cp)%nat with false by (symmetry; apply Nat.ltb_ge; lia).
  split; [done|]. unfold cursor_ok, len, input. cbn.
  split_and!; try done. unfold furthest_position. case_if; lia.
Qed.

Lemma cursor_steps_ok self i tracked st :
  cursor_steps (cursor_new self i tracked, []) st ->
  cursor_ok self i tracked (fst st) /\ Forall (checkpoint_ok self i tracked) (snd st).
Proof.
  intros H. remember (cursor_new self i tracked, []) as st0 eqn:E0.
  assert (cursor_ok self i tracked (fst st0) /\ Forall (checkpoint_ok self i tracked) (snd st0)) as H0.
  { subst. split; [|constructor]. unfold cursor_ok, tracks. cbn. split_and!; try done; try lia. }
  clear E0. induction H as [|st0 st1 st2 Hstep _ IH]; [done|]. apply IH. clear IH.
  destruct H0 as [Hc Hcps]. destruct Hstep as [c cps|c cps cp c' Hin Hr|c cps v c' Hr|c cps n ok c' Hr
    |c cps n ok c' Hnl Hr]; cbn [fst snd] in *.
  - split; [done|]. constructor; [|done]. destruct Hc as (? & Hi & ? & ? & ?).
    unfold checkpoint_ok. cbn. unfold len, input in *. rewrite Hi in *. by split_and!.
  - pose proof (proj1 (List.Forall_forall _ _) Hcps cp Hin) as Hcp.
    destruct (rewind_ok _ _ _ c cp Hc Hcp) as [_ Hok]. rewrite Hr in Hok.
    by split.
  - split; [|done]. apply take_unit_ok in Hc. by rewrite Hr in Hc.
  - split; [|done]. apply (advance_ok _ _ _ _ n) in Hc. by rewrite Hr in Hc.
  - split; [|done]. unfold advance_single_line_unchecked in Hr. case_if; simplify_eq; [done|].
    destruct Hc as (Hs & Hi & Hp & Hf & Ht). unfold cursor_ok, remaining, len, input in *. cbn.
    rewrite Hi in *. split_and!; try done; [lia|].
    apply (tracks_advance _ _ _ n) in Ht; [|lia].
    destruct (tracking_ c); [|done]. by rewrite line_advance_plain in Ht.
Qed.

(** wherever a tracked cursor goes, through checkpoints, rewinds, takes
    and both ways of advancing, its position stays inside the input, the line
    and column it maintains incrementally are those recomputed from the start
    of the input (lines end with CR, LF or CR LF), and every checkpoint it
    handed out can be returned to: [rewind] does not panic and restores that
    source position. *)
Theorem tracked_cursor_positions self i c cps :
  cursor_steps (cursor_new self i true, []) (c, cps) ->
  (position_ c <= len c)%nat /\ (furthest_position c <= len c)%nat /\
  source_position c = Ret (position_spec (take (position_ c) (values_ i))) /\
  source_position_at c (position_ c) = source_position c /\
  Forall (fun cp => exists c', rewind cp c = (Ret tt, c') /\ position_ c' = cp_position_ cp /\
    input_ c' = i /\ (furthest_position c <= furthest_position c')%nat /\
    source_position c' = Ret (position_spec (take (cp_position_ cp) (values_ i)))) cps.
Proof.
  intros H. apply cursor_steps_ok in H as [Hc Hcps]. cbn [fst snd] in *.
  pose proof Hc as (Hs & Hi & Hp & Hf & Ht). unfold tracks in Ht.
  assert (len c = length (values_ i)) as Hlen by (unfold len, input; by rewrite Hi).
  split_and!; try done.
  - unfold furthest_position. case_if; lia.
  - unfold source_position. rewrite Ht. by rewrite line_position_spec by (rewrite length_take; lia).
  - unfold source_position, source_position_at. rewrite Ht.
    replace (len c <? position_ c)%nat with false by (symmetry; apply Nat.ltb_ge; lia).
    unfold input. by rewrite Hi.
  - revert Hcps. apply Forall_impl. intros cp Hcp.
    destruct (rewind_ok _ _ _ c cp Hc Hcp) as [Hr _]. destruct Hcp as (_ & Hcp & Hct).
    eexists. split; [exact Hr|]. cbn. split_and!; try done.
    + unfold furthest_position. cbn [position_ furthest_]. repeat case_if; lia.
    + unfold source_position. cbn. rewrite Hct. by rewrite line_position_spec by (rewrite length_take; lia).
Qed.

Lemma tracked_cursor_positions_witness :
  let i := text_input [97; 13; 10; 98] in
  exists c, cursor_steps (cursor_new 7 i true, []) (c, []) /\ position_ c = 4%nat /\
    source_position c = Ret (MkPosition 2 2).
Proof.
  cbv zeta. set (i := text_input [97; 13; 10; 98]).
  exists (snd (advance 4 (cursor_new 7 i true))).
  assert (cursor_steps (cursor_new 7 i true, []) (snd (advance 4 (cursor_new 7 i true)), [])) as H.
  { apply rtc_once, (step_advance _ _ 4 true). reflexivity. }
  split; [exact H|]. split; [reflexivity|].
  exact (proj1 (proj2 (proj2 (tracked_cursor_positions 7 i _ _ H)))).
Defined.

(** ** Consuming *)

(** The cursor [n] units further on. *)
Definition adv (n : nat) (c : Cursor) : Cursor :=
  MkCursor (self_ c) (input_ c) (position_ c + n) (furthest_ c)
    match tracking_ c with
    | Some p => Some (line_advance p (slice (input c) (position_ c) (position_ c + n)) (position_ c))
    | None => None
    end.

Definition in_bounds (c : Cursor) : Prop := (position_ c <= len c)%nat.

Lemma adv_0 c : adv 0 c = c.
Proof.
  destruct c as [s i p f [t|]]; unfold adv; cbn; rewrite Nat.add_0_r; [|done].
  unfold slice. by rewrite Nat.sub_diag.
Qed.

Lemma adv_adv m n c :
  (position_ c + n + m <= len c)%nat -> adv m (adv n c) = adv (n + m) c.
Proof.
  intros H. unfold adv, len, input in *. cbn. rewrite <- Nat.add_assoc.
  destruct (tracking_ c) as [p|]; [|done]. do 2 f_equal.
  rewrite <- (slice_app_l _ (position_ c) (position_ c + n) (position_ c + (n + m))) by lia.
  rewrite line_advance_app. f_equal.
  unfold slice. rewrite length_take, length_drop. lia.
Qed.

Lemma remaining_input_adv n c : remaining_input (adv n c) = drop n (remaining_input c).
Proof. unfold remaining_input, input. cbn. by rewrite drop_drop. Qed.

Lemma remaining_length c : length (remaining_input c) = remaining c.
Proof. unfold remaining_input, remaining, len. by rewrite length_drop. Qed.

Lemma peek_head c : peek c 0 = head (remaining_input c).
Proof.
  unfold peek. rewrite <- remaining_length. rewrite Nat.add_0_r.
  destruct (remaining_input c) as [|v l] eqn:E; [done|]. cbn.
  unfold remaining_input in E. by rewrite <- (Nat.add_0_r (position_ c)), <- lookup_drop, E.
Qed.

Lemma take_unit_nil c : remaining_input c = [] -> take_unit c = (Ret None, c).
Proof. intros E. unfold take_unit. by rewrite peek_head, E. Qed.

Lemma take_unit_cons c v l :
  remaining_input c = v :: l ->
  take_unit c = (Ret (Some v), adv 1 c) /\ remaining_input (adv 1 c) = l /\
  (position_ c + 1 <= len c)%nat.
Proof.
  intros E. pose proof (remaining_length c) as Hr. rewrite E in Hr. cbn in Hr.
  unfold remaining in Hr. split_and!; [|by rewrite remaining_input_adv, E | lia].
  unfold take_unit. rewrite peek_head, E. cbn [head]. unfold advance, remaining.
  replace (_ <? 1)%nat with false by (symmetry; apply Nat.ltb_ge; lia). done.
Qed.

Lemma span_from_adv n c :
  span_from (checkpoint c) (adv n c) = (Ret (MkSpan (position_ c) (position_ c + n)), adv n c).
Proof.
  unfold span_from. cbn [checkpoint owner_ adv self_ position_ cp_position_].
  rewrite Nat.eqb_refl. cbn [negb orb].
  by replace (_ <? _)%nat with false by (symmetry; apply Nat.ltb_ge; lia).
Qed.

(** Back where a failed attempt started; only the high-water mark moves. *)
Definition restored (c c' : Cursor) : Prop :=
  self_ c' = self_ c /\ input_ c' = input_ c /\ position_ c' = position_ c /\
  tracking_ c' = tracking_ c /\ (furthest_position c <= furthest_position c')%nat.

Lemma rewind_adv n c :
  in_bounds c -> exists c', rewind (checkpoint c) (adv n c) = (Ret tt, c') /\ restored c c'.
Proof.
  intros H. unfold rewind. cbn [checkpoint owner_ adv self_ cp_position_].
  rewrite Nat.eqb_refl. cbn [negb orb]. unfold in_bounds in H.
  replace (len _ <? _)%nat with false by (symmetry; apply Nat.ltb_ge; exact H).
  eexists. split; [done|]. unfold restored. split_and!; try done.
  unfold furthest_position. cbn [adv position_ furthest_]. repeat case_if; lia.
Qed.

Lemma consume_while_loop_spec predicate fuel c :
  (remaining c < fuel)%nat ->
  exists n, consume_while_loop predicate fuel c = (Ret tt, adv n c) /\
    (n <= remaining c)%nat /\
    Forall (fun v => predicate v = true) (take n (remaining_input c)) /\
    (forall v, head (drop n (remaining_input c)) = Some v -> predicate v = false).
Proof.
  revert c. induction fuel as [|fuel IH]; intros c Hf; [lia|].
  cbn [consume_while_loop]. unfold bind, gets, ret. rewrite peek_head.
  destruct (remaining_input c) as [|v l] eqn:E; cbn [head].
  { exists 0%nat. rewrite adv_0. split_and!; [done | lia | constructor | done]. }
  destruct (predicate v) eqn:Ev; cbn [negb].
  2:{ exists 0%nat. rewrite adv_0. split_and!; [done | lia | constructor |]. cbn. by intros ? [= <-]. }
  destruct (take_unit_cons c v l E) as (-> & El & Hb).
  pose proof (remaining_length c) as Hr. rewrite E in Hr. cbn in Hr.
  pose proof (remaining_length (adv 1 c)) as Hr'. rewrite El in Hr'.
  destruct (IH (adv 1 c)) as (n & Hn & Hle & Hall & Hstop); [lia|].
  exists (S n). rewrite El in Hall, Hstop. unfold remaining in *.
  rewrite adv_adv in Hn by lia. split_and!; [exact Hn | lia | by constructor | done].
Qed.

Lemma consume_while_adv predicate c :
  exists n, (n <= remaining c)%nat /\
    Forall (fun v => predicate v = true) (take n (remaining_input c)) /\
    (forall v, head (drop n (remaining_input c)) = Some v -> predicate v = false) /\
    consume_while predicate c = (Ret (MkSpan (position_ c) (position_ c + n)), adv n c) /\
    skip_while predicate c = (Ret n, adv n c).
Proof.
  destruct (consume_while_loop_spec predicate (S (remaining c)) c) as (n & Hn & Hle & Hall & Hstop); [lia|].
  assert (consume_while predicate c = (Ret (MkSpan (position_ c) (position_ c + n)), adv n c)) as E.
  { unfold consume_while, bind, gets. rewrite Hn. apply span_from_adv. }
  exists n. split_and!; try done. unfold skip_while, bind. rewrite E. unfold ret, span_len. cbn. do 2 f_equal. lia.
Qed.

(** [consume_while] terminates within the remaining input, takes exactly
    the longest run of units that satisfy the predicate and returns its span;
    [skip_while] returns its length and [consume_while_one] fails, consuming
    nothing, when the run is empty. *)
Theorem consume_while_longest predicate c :
  in_bounds c ->
  exists n, (position_ c + n <= len c)%nat /\
    Forall (fun v => predicate v = true) (take n (remaining_input c)) /\
    (forall v, head (drop n (remaining_input c)) = Some v -> predicate v = false) /\
    consume_while predicate c = (Ret (MkSpan (position_ c) (position_ c + n)), adv n c) /\
    skip_while predicate c = (Ret n, adv n c) /\
    consume_while_one predicate c =
      (Ret (if (n =? 0)%nat then None else Some (MkSpan (position_ c) (position_ c + n))), adv n c).
Proof.
  intros Hc. destruct (consume_while_adv predicate c) as (n & Hle & Hall & Hstop & E & Es).
  exists n. unfold in_bounds, remaining in *. split_and!; try done; [lia|].
  unfold consume_while_one, bind. rewrite E. unfold ret, span_is_empty. cbn [span_begin span_end].
  destruct (n =? 0)%nat eqn:En.
  - apply Nat.eqb_eq in En. subst. by rewrite Nat.add_0_r, Nat.eqb_refl.
  - replace (_ =? _)%nat with false; [done|]. apply Nat.eqb_neq in En. symmetry. apply Nat.eqb_neq. lia.
Qed.

Lemma consume_while_longest_witness :
  let c := cursor_new 0 (text_input [49; 50; 97]) false in
  in_bounds c /\ exists n, consume_while is_digit c = (Ret (MkSpan 0 n), adv n c).
Proof.
  cbv zeta. set (c := cursor_new 0 (text_input [49; 50; 97]) false).
  assert (in_bounds c) as H by (unfold in_bounds; cbn; lia). split; [exact H|].
  destruct (consume_while_longest is_digit c H) as (n & _ & _ & _ & E & _). exists n. exact E.
Defined.

Lemma consume_n_loop_spec predicate count c :
  exists k, (k <= count)%nat /\ (position_ c + k <= len c \/ k = 0)%nat /\
    if decide (count <= length (remaining_input c) /\
               Forall (fun v => predicate v = true) (take count (remaining_input c)))%nat
    then consume_n_loop predicate count c = (Ret true, adv count c)
    else consume_n_loop predicate count c = (Ret false, adv k c).
Proof.
  revert c. induction count as [|count IH]; intros c.
  { exists 0%nat. split_and!; [lia | by right |]. rewrite decide_True; [by rewrite adv_0|].
    split; [lia | constructor]. }
  cbn [consume_n_loop]. unfold bind. destruct (remaining_input c) as [|v l] eqn:E.
  { exists 0%nat. split_and!; [lia | by right |]. rewrite decide_False by (cbn; lia).
    rewrite take_unit_nil by done. by rewrite adv_0. }
  destruct (take_unit_cons c v l E) as (-> & El & Hb). cbn [length take].
  destruct (predicate v) eqn:Ev; cbn [negb].
  2:{ exists 1%nat. split_and!; [lia | by left |]. rewrite decide_False; [done|].
      intros [_ H]. inversion H. congruence. }
  destruct (IH (adv 1 c)) as (k & Hk & Hpos & Hres). rewrite El in Hres.
  pose proof (remaining_length (adv 1 c)) as Hr. rewrite El in Hr. unfold remaining in Hr.
  change (len (adv 1 c)) with (len c) in *. cbn [adv position_] in Hr, Hpos.
  exists (S k). split_and!; [lia | left; lia |].
  destruct (decide (count <= length l /\ Forall (fun v => predicate v = true) (take count l))%nat) as [[Hc Hl]|Hno].
  - rewrite decide_True by (split; [lia | by constructor]).
    rewrite adv_adv in Hres by lia. exact Hres.
  - rewrite decide_False by (intros [? H]; apply Hno; split; [lia | by inversion H]).
    rewrite adv_adv in Hres by lia. exact Hres.
Qed.

Lemma consume_literal_loop_spec text c :
  exists k, (k <= length text)%nat /\ (position_ c + k <= len c \/ k = 0)%nat /\
    if decide (text `prefix_of` remaining_input c)
    then consume_literal_loop text c = (Ret true, adv (length text) c)
    else consume_literal_loop text c = (Ret false, adv k c).
Proof.
  revert c. induction text as [|x text IH]; intros c.
  { exists 0%nat. split_and!; [cbn; lia | by right |]. rewrite decide_True by apply prefix_nil.
    by rewrite adv_0. }
  cbn [consume_literal_loop length]. unfold bind. destruct (remaining_input c) as [|v l] eqn:E.
  { exists 0%nat. split_and!; [lia | by right |]. rewrite decide_False by apply prefix_nil_not.
    rewrite take_unit_nil by done. by rewrite adv_0. }
  destruct (take_unit_cons c v l E) as (-> & El & Hb).
  destruct (v =? x) eqn:Ev; cbn [negb].
  2:{ exists 1%nat. split_and!; [lia | by left |]. rewrite decide_False; [done|].
      intros H%prefix_cons_inv_1. lia. }
  assert (v = x) as -> by lia.
  destruct (IH (adv 1 c)) as (k & Hk & Hpos & Hres). rewrite El in Hres.
  pose proof (remaining_length (adv 1 c)) as Hr. rewrite El in Hr. unfold remaining in Hr.
  change (len (adv 1 c)) with (len c) in *. cbn [adv position_] in Hr, Hpos.
  exists (S k). split_and!; [lia | left; lia |].
  destruct (decide (text `prefix_of` l)) as [Hp|Hno].
  - rewrite decide_True by (by apply prefix_cons). apply prefix_length in Hp.
    rewrite adv_adv in Hres by lia. exact Hres.
  - rewrite decide_False by (intros H; by apply prefix_cons_inv_2 in H).
    rewrite adv_adv in Hres by lia. exact Hres.
Qed.

(** [consume_n] and [consume_literal] are transactional: they succeed
    exactly when the next units match, consuming those units and nothing
    more, and otherwise leave position and line state untouched. *)
Theorem consume_transactional predicate count text c :
  in_bounds c ->
  (if decide (count <= length (remaining_input c) /\
              Forall (fun v => predicate v = true) (take count (remaining_input c)))%nat
   then consume_n predicate count c =
        (Ret (Some (MkSpan (position_ c) (position_ c + count))), adv count c)
   else exists c', consume_n predicate count c = (Ret None, c') /\ restored c c') /\
  (if decide (text `prefix_of` remaining_input c)
   then consume_literal text c =
        (Ret (Some (MkSpan (position_ c) (position_ c + length text))), adv (length text) c)
   else exists c', consume_literal text c = (Ret None, c') /\ restored c c').
Proof.
  intros Hc. split.
  - destruct (consume_n_loop_spec predicate count c) as (k & _ & _ & Hres).
    unfold consume_n, bind, gets. destruct (decide _); rewrite Hres.
    + by rewrite span_from_adv.
    + destruct (rewind_adv k c Hc) as (c' & -> & Hr). by exists c'.
  - destruct (consume_literal_loop_spec text c) as (k & _ & _ & Hres).
    unfold consume_literal, bind, gets. destruct (decide _); rewrite Hres.
    + by rewrite span_from_adv.
    + destruct (rewind_adv k c Hc) as (c' & -> & Hr). by exists c'.
Qed.

Lemma consume_transactional_witness :
  let c := cursor_new 0 (text_input [116; 114; 117; 110]) false in
  exists c', consume_literal [116; 114; 117; 101] c = (Ret None, c') /\ restored c c'.
Proof.
  cbv zeta. set (c := cursor_new 0 (text_input [116; 114; 117; 110]) false).
  assert (in_bounds c) as H by (unfold in_bounds; cbn; lia).
  exact (proj2 (consume_transactional is_digit 0 [116; 114; 117; 101] c H)).
Defined.

(** ** Text of a span *)

Lemma from_utf8_text bs : is_text bs -> from_utf8 bs = Ok bs.
Proof.
  intros H. unfold from_utf8. pose proof (validate_ok_text bs (is_text_bytes_ok _ H)) as Hv.
  by rewrite (proj2 Hv H).
Qed.

Lemma from_utf8_not_text bs : bytes_ok bs -> ~ is_text bs -> exists e, from_utf8 bs = Err e.
Proof.
  intros Hb H. unfold from_utf8. pose proof (validate_ok_text bs Hb) as Hv.
  destruct (validate_utf8 bs) as [[]|e]; [by destruct H; apply Hv | by exists e].
Qed.

Lemma slice_rest s b e : (b <= e)%nat -> drop b s = slice s b e ++ drop e s.
Proof.
  intros H. unfold slice. rewrite <- (take_drop (e - b) (drop b s)) at 1. f_equal.
  rewrite drop_drop. f_equal. lia.
Qed.

Lemma slice_length s b e : (b <= e)%nat -> (e <= length s)%nat -> length (slice s b e) = (e - b)%nat.
Proof. intros. unfold slice. rewrite length_take, length_drop. lia. Qed.

Lemma slice_text_boundaries s b e :
  is_text s -> (b < e)%nat -> (e <= length s)%nat -> is_text (slice s b e) ->
  is_char_boundary s b = true /\ is_char_boundary s e = true.
Proof.
  intros Hs Hb He Ht.
  assert (slice s b e <> []) as Hne.
  { intros E. apply (f_equal length) in E. rewrite slice_length in E by lia. cbn in E. lia. }
  assert (is_char_boundary s b = true) as Hbb.
  { unfold is_char_boundary. case_if; [done|]. case_if; [lia|].
    pose proof (text_head_not_continuation _ Ht Hne) as Hc.
    unfold slice in Hc. rewrite lookup_take_lt, lookup_drop, Nat.add_0_r in Hc by lia. by rewrite Hc. }
  split; [done|].
  apply char_boundary_text in Hbb as (_ & H1 & H2); [|done].
  apply char_boundary_text; [done|]. split; [done|].
  rewrite (slice_rest s b e) in H2 by lia. apply is_text_app_inv in H2; [|done]. split; [|done].
  replace (take e s) with (take b s ++ slice s b e); [by apply is_text_app|].
  unfold slice. rewrite take_take_drop. f_equal. lia.
Qed.

Lemma slice_boundaries_text s b e :
  is_text s -> (b <= e)%nat -> (e <= length s)%nat ->
  is_char_boundary s b = true -> is_char_boundary s e = true -> is_text (slice s b e).
Proof.
  intros Hs Hb He Hbb Hbe.
  apply char_boundary_text in Hbb as (_ & H1 & H2); [|done].
  apply char_boundary_text in Hbe as (_ & H3 & H4); [|done].
  apply (is_text_app_inv (take b s)); [done|].
  unfold slice. rewrite take_take_drop. by replace (b + (e - b))%nat with e by lia.
Qed.

Lemma input_text_spec s b e :
  is_text s -> (b <= e <= length s)%nat ->
  if is_char_boundary s b && is_char_boundary s e
  then input_text (text_input s) (MkSpan b e) = Ret (slice s b e) /\ is_text (slice s b e)
  else exists err, input_text (text_input s) (MkSpan b e) = Fail err.
Proof.
  intros Hs [Hb He]. unfold input_text, str_get. cbn [text_input values_ validated].
  replace (e <? b)%nat with false by (symmetry; apply Nat.ltb_ge; lia).
  replace (length s <? e)%nat with false by (symmetry; apply Nat.ltb_ge; lia). cbn [orb].
  destruct (is_char_boundary s b) eqn:Ebb, (is_char_boundary s e) eqn:Ebe; cbn [andb negb orb];
    [split; [done | by apply slice_boundaries_text] |..];
    unfold span_is_empty; cbn [span_begin span_end];
    (destruct (b =? e)%nat eqn:E; [by eexists|]); apply Nat.eqb_neq in E;
    (destruct (from_utf8_not_text (slice s b e)) as [err ->]; [| | by exists err]).
  all: try (intros Ht; apply slice_text_boundaries in Ht as [??]; try done; lia || congruence).
  all: apply is_text_bytes_ok in Hs; unfold slice, bytes_ok; by apply Forall_take, Forall_drop.
Qed.

(** The text of a span of a validated input is decided by the two ends
    alone: the span is returned as text exactly when it begins and ends
    between characters, and otherwise an error is returned, also for an empty
    span inside a character. *)
Theorem input_text_boundaries s b e :
  is_text s -> (b <= e <= length s)%nat ->
  if is_char_boundary s b && is_char_boundary s e
  then input_text (text_input s) (MkSpan b e) = Ret (slice s b e) /\ is_text (slice s b e)
  else exists err, input_text (text_input s) (MkSpan b e) = Fail err.
Proof. apply input_text_spec. Qed.

Lemma input_text_boundaries_witness :
  input_text (text_input [97; 0xC3; 0xA9]) (MkSpan 0 1) = Ret [97] /\
  exists err, input_text (text_input [97; 0xC3; 0xA9]) (MkSpan 2 2) = Fail err.
Proof.
  assert (is_text [97; 0xC3; 0xA9]) as Hs.
  { apply text_ascii_cons; [lia|].
    apply (is_text_seq 0xE9 [0xC3; 0xA9] []); [apply (seq2 3 41); lia | apply is_text_nil]. }
  split.
  - exact (proj1 (input_text_boundaries [97; 0xC3; 0xA9] 0 1 Hs ltac:(cbn; lia))).
  - exact (input_text_boundaries [97; 0xC3; 0xA9] 2 2 Hs ltac:(cbn; lia)).
Defined.
