(* ===== verification/OrdMap.v ===== *)
(** * Ordered maps: the interface of [BTreeMap]

    [Ordering] is what a key type promises through [operator<=>]; its instance
    for byte strings is [String]'s comparison ([src/alloc/src/string.cppm]).
    An ordered map is specified by its sorted association list: [map_get],
    [map_insert] and [map_remove] are the abstract operations, and clients
    (JSON objects, TOML tables) are stated over them. *)

From Stdlib Require Import ZArith Lia ZifyBool Sorting.Sorted.
From S2P Require Import Prelude.
Local Open Scope Z_scope.

(** ** Total orders *)

Class Ordering (K : Type) := cmp : K -> K -> comparison.

Class OrderingLaws (K : Type) `{Ordering K} := {
  cmp_eq a b : cmp a b = Eq <-> a = b;
  cmp_antisym a b : cmp b a = CompOpp (cmp a b);
  cmp_trans a b c : cmp a b = Lt -> cmp b c = Lt -> cmp a c = Lt;
}.

#[export] Instance Z_ordering : Ordering Z := Z.compare.

#[export] Instance Z_ordering_laws : OrderingLaws Z.
Proof.
  split; unfold cmp, Z_ordering.
  - apply Z.compare_eq_iff.
  - intros. apply Z.compare_antisym.
  - intros a b c. rewrite !Z.compare_lt_iff. lia.
Qed.

(** [lexicographical_compare_three_way] on the bytes. *)
Fixpoint bytes_cmp (a b : list Z) : comparison :=
  match a, b with
  | [], [] => Eq
  | [], _ :: _ => Lt
  | _ :: _, [] => Gt
  | x :: a, y :: b => match x ?= y with Eq => bytes_cmp a b | c => c end
  end.

#[export] Instance bytes_ordering : Ordering (list Z) := bytes_cmp.

#[export] Instance bytes_ordering_laws : OrderingLaws (list Z).
Proof.
  split; unfold cmp, bytes_ordering.
  - intros a. induction a as [|x a IH]; intros [|y b]; cbn; try done.
    destruct (Z.compare_spec x y) as [->|?|?]; [|split; [done | intros [=]; lia]..].
    rewrite IH. split; [by intros -> | by intros [=]].
  - intros a. induction a as [|x a IH]; intros [|y b]; cbn; try done.
    rewrite (Z.compare_antisym x y). destruct (x ?= y); cbn; auto.
  - intros a. induction a as [|x a IH]; intros [|y b] [|z c]; cbn; try done.
    destruct (Z.compare_spec x y), (Z.compare_spec y z), (Z.compare_spec x z);
      subst; try done; try lia. apply IH.
Qed.

Section Laws.
Context {K : Type} `{OrderingLaws K}.

Definition key_lt (a b : K) : Prop := cmp a b = Lt.

Lemma cmp_refl a : cmp a a = Eq.
Proof. by apply cmp_eq. Qed.

Lemma cmp_gt a b : cmp a b = Gt <-> cmp b a = Lt.
Proof. rewrite (cmp_antisym a b). by destruct (cmp a b). Qed.

Lemma key_lt_irrefl a : ~ key_lt a a.
Proof. unfold key_lt. by rewrite cmp_refl. Qed.

Lemma key_lt_trans a b c : key_lt a b -> key_lt b c -> key_lt a c.
Proof. apply cmp_trans. Qed.
End Laws.

(** ** Sorted association lists *)

Section OrdMap.
Context {K V : Type} `{OrderingLaws K}.

Definition omap := list (K * V).

Fixpoint map_get (k : K) (m : omap) : option V :=
  match m with
  | [] => None
  | (k', v) :: m =>
    match cmp k k' with
    | Lt => None
    | Eq => Some v
    | Gt => map_get k m
    end
  end.

(** The value an insertion replaces, and the new map. *)
Fixpoint map_insert (k : K) (v : V) (m : omap) : option V * omap :=
  match m with
  | [] => (None, [(k, v)])
  | (k', v') :: m =>
    match cmp k k' with
    | Lt => (None, (k, v) :: (k', v') :: m)
    | Eq => (Some v', (k', v) :: m)
    | Gt => let '(old, m) := map_insert k v m in (old, (k', v') :: m)
    end
  end.

Fixpoint map_remove (k : K) (m : omap) : option (K * V) * omap :=
  match m with
  | [] => (None, [])
  | (k', v') :: m =>
    match cmp k k' with
    | Lt => (None, (k', v') :: m)
    | Eq => (Some (k', v'), m)
    | Gt => let '(old, m) := map_remove k m in (old, (k', v') :: m)
    end
  end.

Definition sorted_keys (m : omap) : Prop := StronglySorted key_lt (map fst m).

Definition below (k : K) (m : omap) : Prop := Forall (fun e => key_lt k (fst e)) m.

Lemma sorted_cons k v m : sorted_keys ((k, v) :: m) <-> below k m /\ sorted_keys m.
Proof.
  unfold sorted_keys, below. cbn. split.
  - intros Hs. apply StronglySorted_inv in Hs as [? Hf]. split; [|done].
    rewrite List.Forall_map in Hf. exact Hf.
  - intros [Hf ?]. constructor; [done|]. rewrite List.Forall_map. exact Hf.
Qed.

Lemma below_weaken k k' m : key_lt k k' -> below k' m -> below k m.
Proof. intros Hk. apply Forall_impl. intros e. by apply key_lt_trans. Qed.

Lemma map_insert_below k v m k0 : key_lt k0 k -> below k0 m -> below k0 (snd (map_insert k v m)).
Proof.
  intros Hk. induction m as [|[k' v'] m IH]; cbn; intros Hm; [by constructor|].
  inversion Hm as [|? ? Hk' Hm']; subst. cbn in Hk'.
  destruct (cmp k k') eqn:E; cbn.
  - by constructor.
  - constructor; [done|]. by constructor.
  - destruct (map_insert k v m) as [old m'] eqn:Ei. cbn in *. constructor; [done | by apply IH].
Qed.

Lemma map_insert_sorted k v m : sorted_keys m -> sorted_keys (snd (map_insert k v m)).
Proof.
  induction m as [|[k' v'] m IH]; cbn; intros Hm.
  { apply sorted_cons. split; [constructor | done]. }
  apply sorted_cons in Hm as [Hb Hm]. destruct (cmp k k') eqn:E; cbn.
  - by apply sorted_cons.
  - apply sorted_cons. split; [|by apply sorted_cons]. constructor; [done | by apply (below_weaken k k')].
  - destruct (map_insert k v m) as [old m'] eqn:Ei. cbn in *. apply sorted_cons. split; [|auto].
    pose proof (map_insert_below k v m k') as Hb'. rewrite Ei in Hb'. apply Hb'; [|done].
    by apply cmp_gt.
Qed.

Lemma map_get_below k m : below k m -> map_get k m = None.
Proof. destruct m as [|[k' v'] m]; [done|]. intros Hb. inversion Hb as [|? ? Hk]. cbn in *. by rewrite Hk. Qed.

(** Inserting answers with the previous binding and changes that binding
    only. *)
Lemma map_insert_get k v m k0 :
  sorted_keys m ->
  fst (map_insert k v m) = map_get k m /\
  map_get k0 (snd (map_insert k v m)) =
    match cmp k0 k with Eq => Some v | _ => map_get k0 m end.
Proof.
  induction m as [|[k' v'] m IH]; cbn; intros Hm; [by destruct (cmp k0 k)|].
  apply sorted_cons in Hm as [Hb Hm]. destruct (cmp k k') eqn:E; cbn.
  - apply cmp_eq in E as ->. split; [done|]. by destruct (cmp k0 k').
  - split; [done|]. destruct (cmp k0 k) eqn:E0; [done| |done].
    by rewrite (cmp_trans _ _ _ E0 E).
  - destruct (map_insert k v m) as [old m'] eqn:Ei. specialize (IH Hm). cbn in IH |- *. destruct IH as [-> IH2].
    split; [done|]. rewrite IH2. destruct (cmp k0 k) eqn:E0; [|done|done].
    apply cmp_eq in E0 as ->. by rewrite E.
Qed.

Lemma map_get_insert_eq k v m : map_get k (snd (map_insert k v m)) = Some v.
Proof.
  induction m as [|[k' v'] m IH]; cbn; [by rewrite cmp_refl|]. destruct (cmp k k') eqn:E; cbn.
  - by rewrite E.
  - by rewrite cmp_refl.
  - destruct (map_insert k v m) as [old m']. cbn in IH |- *. by rewrite E.
Qed.

Lemma map_insert_twice k v v' m : snd (map_insert k v (snd (map_insert k v' m))) = snd (map_insert k v m).
Proof.
  induction m as [|[k' w] m IH]; cbn; [by rewrite cmp_refl|]. destruct (cmp k k') eqn:E; cbn.
  - by rewrite E.
  - by rewrite cmp_refl.
  - destruct (map_insert k v' m) as [old' m'], (map_insert k v m) as [old m'']. cbn in *. rewrite E.
    destruct (map_insert k v m'). cbn in *. by subst.
Qed.

Lemma map_insert_same k v m : map_get k m = Some v -> snd (map_insert k v m) = m.
Proof.
  induction m as [|[k' w] m IH]; cbn; [done|]. destruct (cmp k k') eqn:E; cbn; [|done|].
  - by intros [= ->].
  - intros Hg. specialize (IH Hg). destruct (map_insert k v m). cbn in *. by subst.
Qed.

Lemma map_get_elem k v m : map_get k m = Some v -> (k, v) ∈ m.
Proof.
  induction m as [|[k' v'] m IH]; cbn; [done|]. destruct (cmp k k') eqn:E; [|done|].
  - apply cmp_eq in E as ->. intros [= ->]. apply elem_of_cons. by left.
  - intros Hg. apply elem_of_cons. right. auto.
Qed.

Lemma sorted_before m k v es : sorted_keys (m ++ (k, v) :: es) -> Forall (fun e => key_lt (fst e) k) m.
Proof.
  induction m as [|[k' v'] m IH]; [constructor|]. cbn [app]. intros [Hb Hs]%sorted_cons.
  constructor; [|by apply IH]. apply Forall_app in Hb as [_ Hb]. by apply Forall_cons_1 in Hb as [? _].
Qed.

(** A key above all others goes to the end. *)
Lemma map_insert_last k v m :
  Forall (fun e => key_lt (fst e) k) m -> map_insert k v m = (None, m ++ [(k, v)]).
Proof.
  induction 1 as [|[k' v'] m Hk _ IH]; [done|]. cbn. cbn in Hk.
  assert (cmp k k' = Gt) as -> by (by apply cmp_gt). by rewrite IH.
Qed.

Lemma map_insert_Forall (P : K * V -> Prop) k v m :
  Forall P m -> P (k, v) -> Forall P (snd (map_insert k v m)).
Proof.
  intros Hm Hp. induction Hm as [|[k' v'] m He Hm IH]; cbn; [by constructor|]. destruct (cmp k k') eqn:E; cbn.
  - apply cmp_eq in E as ->. by constructor.
  - by repeat constructor.
  - destruct (map_insert k v m) as [old m']. by constructor.
Qed.
End OrdMap.

(** Two maps with the same keys and related values. *)
Section Related.
Context {K V W : Type} `{OrderingLaws K} (R : V -> W -> Prop).

Definition related (m : list (K * V)) (w : list (K * W)) : Prop :=
  Forall2 (fun e f => fst e = fst f /\ R (snd e) (snd f)) m w.

Lemma related_get k m w :
  related m w ->
  match map_get k m, map_get k w with Some a, Some b => R a b | None, None => True | _, _ => False end.
Proof.
  induction 1 as [|[k1 a] [k2 b] m w [Hk HR] _ IH]; cbn in *; [done|]. subst. by destruct (cmp k k2).
Qed.

Lemma related_insert k a b m w :
  related m w -> R a b -> related (snd (map_insert k a m)) (snd (map_insert k b w)).
Proof.
  intros Hm HR. induction Hm as [|[k1 x] [k2 y] m w [Hk HR'] Hm IH]; cbn in *; [by repeat constructor|].
  subst. destruct (cmp k k2); cbn.
  - by constructor.
  - by repeat constructor.
  - destruct (map_insert k a m), (map_insert k b w). by constructor.
Qed.
End Related.

Arguments omap K V : clear implicits.
