(* ===== verification/Fmt.v ===== *)
(** * Formatting: options, formatter, format strings

    Models [src/core/src/lib.cpp] ([parse_spec], [Formatter::write_str],
    [write_raw], [pad], [pad_numeric], [write_fmt]) with the option word of
    [src/core/src/fmt/mod.cppm] and its compile-time [check_format_string].

    A formatter holds a sink, an instance of [fmt::Write], and the options of
    the placeholder being formatted.  Its member functions return [false] to
    report a failure and their callers hand the [false] on: such a function is
    a computation over the formatter that fails with no further information. *)

From Stdlib Require Import ZArith Lia ZifyBool Ascii.
From stdpp Require Import strings.
From S2P Require Import Prelude Utf8.
Local Open Scope Z_scope.
Local Open Scope rstd_scope.

(** The bytes of a string literal of the source. *)
Definition lit (s : string) : list Z := map (fun c => Z.of_N (N_of_ascii c)) (String.list_ascii_of_string s).

(** ** Options *)

Inductive Align := AlignNone | AlignLeft | AlignRight | AlignCenter.

Inductive Presentation := Display | Debug | LowerExp | UpperExp | LowerHex | UpperHex | Octal.

Record FormattingOptions := mkOptions { flags : Z; width : Z; precision : Z }.

Definition FILL_MASK : Z := 0x1FFFFF.
Definition ALIGN_SHIFT : Z := 21.
Definition ALIGN_MASK : Z := Z.shiftl 3 21.
Definition SIGN_PLUS : Z := Z.shiftl 1 23.
Definition SIGN_MINUS : Z := Z.shiftl 1 24.
Definition ALTERNATE : Z := Z.shiftl 1 25.
Definition ZERO_PAD : Z := Z.shiftl 1 26.
Definition DEBUG : Z := Z.shiftl 1 27.
Definition HAS_WIDTH : Z := Z.shiftl 1 28.
Definition HAS_PREC : Z := Z.shiftl 1 29.
Definition LOWER_EXP : Z := Z.shiftl 1 30.
Definition UPPER_EXP : Z := Z.shiftl 1 31.
Definition LOWER_HEX : Z := Z.lor DEBUG LOWER_EXP.
Definition UPPER_HEX : Z := Z.lor DEBUG UPPER_EXP.
Definition OCTAL : Z := Z.lor LOWER_EXP UPPER_EXP.
Definition PRESENTATION_MASK : Z := Z.lor DEBUG (Z.lor LOWER_EXP UPPER_EXP).

Definition default_options : FormattingOptions := mkOptions 32 0 0.

Definition flag (o : FormattingOptions) (f : Z) : bool := negb (Z.land (flags o) f =? 0).
Definition opt_fill (o : FormattingOptions) : Z := byte_of (Z.land (flags o) FILL_MASK).
Definition opt_align (o : FormattingOptions) : Align :=
  let a := Z.land (Z.shiftr (flags o) ALIGN_SHIFT) 3 in
  if a =? 1 then AlignLeft else if a =? 2 then AlignRight else if a =? 3 then AlignCenter else AlignNone.
Definition opt_presentation (o : FormattingOptions) : Presentation :=
  let p := Z.land (flags o) PRESENTATION_MASK in
  if p =? DEBUG then Debug
  else if p =? LOWER_EXP then LowerExp
  else if p =? UPPER_EXP then UpperExp
  else if p =? LOWER_HEX then LowerHex
  else if p =? UPPER_HEX then UpperHex
  else if p =? OCTAL then Octal
  else Display.

Definition align_code (a : Align) : Z :=
  match a with AlignNone => 0 | AlignLeft => 1 | AlignRight => 2 | AlignCenter => 3 end.

Definition set_fill (o : FormattingOptions) (c : Z) : FormattingOptions :=
  mkOptions (Z.lor (Z.land (flags o) (Z.lnot FILL_MASK)) (byte_of c)) (width o) (precision o).
Definition set_align (o : FormattingOptions) (a : Align) : FormattingOptions :=
  mkOptions (Z.lor (Z.land (flags o) (Z.lnot ALIGN_MASK)) (Z.shiftl (align_code a) ALIGN_SHIFT))
    (width o) (precision o).
Definition set_width (o : FormattingOptions) (w : Z) : FormattingOptions :=
  mkOptions (Z.lor (flags o) HAS_WIDTH) w (precision o).
Definition set_precision (o : FormattingOptions) (p : Z) : FormattingOptions :=
  mkOptions (Z.lor (flags o) HAS_PREC) (width o) p.
Definition set_flag (o : FormattingOptions) (f : Z) : FormattingOptions :=
  mkOptions (Z.lor (flags o) f) (width o) (precision o).
Definition presentation_bits (p : Presentation) : Z :=
  match p with
  | Display => 0 | Debug => DEBUG | LowerExp => LOWER_EXP | UpperExp => UPPER_EXP
  | LowerHex => LOWER_HEX | UpperHex => UPPER_HEX | Octal => OCTAL
  end.
Definition set_presentation (o : FormattingOptions) (p : Presentation) : FormattingOptions :=
  mkOptions (Z.lor (Z.land (flags o) (Z.lnot PRESENTATION_MASK)) (presentation_bits p))
    (width o) (precision o).

(** ** The specification of a placeholder *)

Definition align_of (c : Z) : Align :=
  if c =? 60 then AlignLeft else if c =? 62 then AlignRight
  else if c =? 94 then AlignCenter else AlignNone.

Definition is_align (c : Z) : bool := match align_of c with AlignNone => false | _ => true end.

(** [\[\[fill\]align\]] *)
Definition spec_align (o : FormattingOptions) (b : list Z) : FormattingOptions * list Z :=
  match b with
  | c :: a :: rest =>
    if is_align a then (set_align (set_fill o c) (align_of a), rest)
    else if is_align c then (set_align o (align_of c), a :: rest)
    else (o, b)
  | [c] => if is_align c then (set_align o (align_of c), []) else (o, b)
  | [] => (o, b)
  end.

Definition spec_sign (o : FormattingOptions) (b : list Z) : FormattingOptions * list Z :=
  match b with
  | c :: rest =>
    if c =? 43 then (set_flag o SIGN_PLUS, rest)
    else if c =? 45 then (set_flag o SIGN_MINUS, rest)
    else (o, b)
  | [] => (o, b)
  end.

Definition spec_flag (c f : Z) (o : FormattingOptions) (b : list Z) : FormattingOptions * list Z :=
  match b with
  | c' :: rest => if c' =? c then (set_flag o f, rest) else (o, b)
  | [] => (o, b)
  end.

(** A run of digits into a [uint16_t], which wraps. *)
Fixpoint spec_number (n : Z) (b : list Z) : Z * list Z :=
  match b with
  | c :: rest => if is_digit c then spec_number ((n * 10 + (c - 48)) mod 65536) rest else (n, b)
  | [] => (n, b)
  end.

Definition spec_width (o : FormattingOptions) (b : list Z) : FormattingOptions * list Z :=
  match b with
  | c :: _ =>
    if (49 <=? c) && (c <=? 57) then let '(w, b) := spec_number 0 b in (set_width o w, b)
    else (o, b)
  | [] => (o, b)
  end.

Definition spec_precision (o : FormattingOptions) (b : list Z) : FormattingOptions * list Z :=
  match b with
  | c :: rest => if c =? 46 then let '(p, b) := spec_number 0 rest in (set_precision o p, b) else (o, b)
  | [] => (o, b)
  end.

Definition spec_type (o : FormattingOptions) (b : list Z) : FormattingOptions :=
  match b with
  | c :: _ =>
    if c =? 63 then set_presentation o Debug
    else if c =? 101 then set_presentation o LowerExp
    else if c =? 69 then set_presentation o UpperExp
    else if c =? 120 then set_presentation o LowerHex
    else if c =? 88 then set_presentation o UpperHex
    else if c =? 111 then set_presentation o Octal
    else o
  | [] => o
  end.

Definition parse_spec (b : list Z) : FormattingOptions :=
  let '(o, b) := spec_align default_options b in
  let '(o, b) := spec_sign o b in
  let '(o, b) := spec_flag 35 ALTERNATE o b in
  let '(o, b) := spec_flag 48 ZERO_PAD o b in
  let '(o, b) := spec_width o b in
  let '(o, b) := spec_precision o b in
  spec_type o b.

(** ** The formatter *)

(** [fmt::Write]: a sink accepts a piece of text, or refuses it. *)
Class Write (W : Type) := write_sink : W -> list Z -> W * bool.

Record Formatter (W : Type) := mkFormatter { writer : W; options : FormattingOptions }.
Arguments mkFormatter {W}.
Arguments writer {W}.
Arguments options {W}.

Abbreviation FmtM W := (M (Formatter W) unit unit).

Section Formatter.
Context {W : Type} `{Write W}.

Definition write_str (value : list Z) : FmtM W := fun f =>
  let '(w, ok) := write_sink (writer f) value in
  (if ok then Ret tt else Fail tt, mkFormatter w (options f)).

Definition write_raw (data : list Z) : FmtM W :=
  if negb (is_valid_utf8 data) then throw tt else write_str data.

(** [if (! data.is_empty() && ! write_raw(data)) return false] *)
Definition write_some (data : list Z) : FmtM W :=
  if (length data =? 0)%nat then ret tt else write_raw data.

(** The chunked writers [write_repeat] and [write_fill]; a round writes at
    least one byte. *)
Fixpoint write_repeat_loop (fuel : nat) (value : Z) (count : nat) : FmtM W :=
  match fuel with
  | O => out_of_fuel
  | S fuel =>
    if (count =? 0)%nat then ret tt
    else
      let chunk := if (count <? 64)%nat then count else 64%nat in
      do* write_raw (replicate chunk value);;
      write_repeat_loop fuel value (count - chunk)
  end.

Definition write_repeat (value : Z) (count : nat) : FmtM W :=
  write_repeat_loop (S count) value count.

Definition target_width (o : FormattingOptions) : nat :=
  if flag o HAS_WIDTH then Z.to_nat (width o) else 0%nat.

Definition write_number (sign significand : list Z) (zero_count : nat) (exponent : list Z) : FmtM W :=
  do* write_some sign;;
  do* write_some significand;;
  do* write_repeat 48 zero_count;;
  write_some exponent.

Definition pad_numeric (sign significand : list Z) (zero_count : nat) (exponent : list Z) : FmtM W :=
  let* o := gets options in
  let len := (length sign + length significand + zero_count + length exponent)%nat in
  let width := target_width o in
  if (width <=? len)%nat then write_number sign significand zero_count exponent
  else
    let padding := (width - len)%nat in
    if flag o ZERO_PAD then
      do* write_some sign;;
      do* write_repeat 48 padding;;
      do* write_some significand;;
      do* write_repeat 48 zero_count;;
      write_some exponent
    else
      let alignment := match opt_align o with AlignNone => AlignRight | a => a end in
      let left :=
        match alignment with AlignLeft => 0%nat | AlignCenter => (padding / 2)%nat | _ => padding end in
      let right := (padding - left)%nat in
      do* write_repeat (opt_fill o) left;;
      do* write_number sign significand zero_count exponent;;
      write_repeat (opt_fill o) right.

(** [while (chars < maximum && iterator.next().is_some()) ++chars]: the number
    of characters taken and what the iterator has left. *)
Fixpoint take_chars_loop (fuel : nat) (chars maximum : nat) (rest : list Z) : nat * list Z :=
  match fuel with
  | O => (chars, rest)
  | S fuel =>
    if (chars <? maximum)%nat then
      match chars_next rest with
      | Some (_, rest) => take_chars_loop fuel (S chars) maximum rest
      | None => (chars, rest)
      end
    else (chars, rest)
  end.

Definition pad (value : list Z) : FmtM W :=
  let* o := gets options in
  if negb (flag o HAS_WIDTH) && negb (flag o HAS_PREC) then write_raw value
  else
    let maximum := if flag o HAS_PREC then Z.to_nat (precision o) else length value in
    let '(chars, rest) := take_chars_loop (length value) 0 maximum value in
    let bytes := (length value - length rest)%nat in
    let width := target_width o in
    if (width <=? chars)%nat then write_raw (take bytes value)
    else
      let padding := (width - chars)%nat in
      let alignment := match opt_align o with AlignNone => AlignLeft | a => a end in
      let left :=
        match alignment with AlignRight => padding | AlignCenter => (padding / 2)%nat | _ => 0%nat end in
      let right := (padding - left)%nat in
      do* write_repeat (opt_fill o) left;;
      do* write_raw (take bytes value);;
      write_repeat (opt_fill o) right.

(** ** Format strings *)

(** [fmt::Argument]: a value with the formatting function its type selects by
    the presentation of the placeholder. *)
Definition Argument : Type := FmtM W.

(** [Formatter_set_options], the argument's [fmt], [Formatter_restore_options]. *)
Definition with_options (o : FormattingOptions) (a : Argument) : FmtM W := fun f =>
  let saved := options f in
  let '(ok, f) := a (mkFormatter (writer f) o) in
  (ok, mkFormatter (writer f) saved).

(** [while (p < end && *p != '}') p++]: what lies before the brace and after it. *)
Fixpoint scan_brace (p : list Z) : option (list Z * list Z) :=
  match p with
  | [] => None
  | c :: rest =>
    if c =? 125 then Some ([], rest)
    else match scan_brace rest with
         | Some (inner, after) => Some (c :: inner, after)
         | None => None
         end
  end.

(** Skips the argument id and the colon. *)
Fixpoint skip_digits (b : list Z) : list Z :=
  match b with
  | c :: rest => if is_digit c then skip_digits rest else b
  | [] => []
  end.

Definition skip_arg_id (inner : list Z) : list Z :=
  match skip_digits inner with
  | c :: rest => if c =? 58 then rest else c :: rest
  | [] => []
  end.

(** The loop of [write_fmt]; [text] is what lies between [last] and [p]. *)
Fixpoint write_fmt_loop (fuel : nat) (text p : list Z) (args : list Argument) : FmtM W :=
  match fuel with
  | O => out_of_fuel
  | S fuel =>
    match p with
    | [] => write_some text
    | c :: rest =>
      if c =? 123 then
        if match rest with c' :: _ => c' =? 123 | [] => false end then
          do* write_some text;;
          do* write_raw [123];;
          write_fmt_loop fuel [] (drop 1 rest) args
        else
          do* write_some text;;
          match scan_brace rest with
          | None => throw tt
          | Some (inner, after) =>
            match args with
            | [] => throw tt
            | arg :: args =>
              do* with_options (parse_spec (skip_arg_id inner)) arg;;
              write_fmt_loop fuel [] after args
            end
          end
      else if c =? 125 then
        if match rest with c' :: _ => c' =? 125 | [] => false end then
          do* write_some text;;
          do* write_raw [125];;
          write_fmt_loop fuel [] (drop 1 rest) args
        else throw tt
      else write_fmt_loop fuel (text ++ [c]) rest args
    end
  end.

Definition write_fmt (fmt : list Z) (args : list Argument) : FmtM W :=
  write_fmt_loop (S (length fmt)) [] fmt args.

End Formatter.

Arguments Argument W : clear implicits.

(** ** [check_format_string]

    The compile-time check: [None] where it calls one of the functions that
    make the program ill-formed. *)
Fixpoint count_placeholders (fuel : nat) (s : list Z) (count : nat) : option nat :=
  match fuel with
  | O => None
  | S fuel =>
    match s with
    | [] => Some count
    | c :: rest =>
      if c =? 123 then
        if match rest with c' :: _ => c' =? 123 | [] => false end
        then count_placeholders fuel (drop 1 rest) count
        else match scan_brace rest with
             | None => None
             | Some (_, after) => count_placeholders fuel after (S count)
             end
      else if c =? 125 then
        if match rest with c' :: _ => c' =? 125 | [] => false end
        then count_placeholders fuel (drop 1 rest) count
        else None
      else count_placeholders fuel rest count
    end
  end.

Definition check_format_string (s : list Z) (n_args : nat) : bool :=
  match count_placeholders (S (length s)) s 0 with
  | Some count => (count <=? n_args)%nat
  | None => false
  end.

(** ** The string sink: [Impl<fmt::Write, String>] *)

Definition String : Type := list Z.

#[export] Instance write_string : Write String := fun w value => (w ++ value, true).

(** [fmt::format]: the result of [write_fmt] is not looked at. *)
Definition format (fmt : list Z) (args : list (Argument String)) : String :=
  writer (snd (write_fmt fmt args (mkFormatter [] default_options))).
