(* ===== verification/FmtInteger.v ===== *)
(** * Formatting integers

    Models [src/core/src/fmt/integer.cppm]: the two-digits-at-a-time decimal
    writer and the shifting writer for hexadecimal and octal, and the
    [Display], [Debug], [LowerHex], [UpperHex] and [Octal] implementations of
    the integers.  The writers fill a buffer from its end; the buffer is the
    list of the bytes from the cursor on, and its capacity is a bound proved
    below. *)

From Stdlib Require Import ZArith Lia ZifyBool Ascii.
From stdpp Require Import strings.
From S2P Require Import Prelude Int Utf8 Fmt.
Local Open Scope Z_scope.
Local Open Scope rstd_scope.

(** [FormatUnsigned<T>] *)
Definition format_unsigned (t : int_type) : int_type :=
  if bit_width t <=? 32 then u32 else if bit_width t <=? 64 then u64 else u128.

Definition pairs : list Z :=
  lit ("0001020304050607080910111213141516171819" ++
       "2021222324252627282930313233343536373839" ++
       "4041424344454647484950515253545556575859" ++
       "6061626364656667686970717273747576777879" ++
       "8081828384858687888990919293949596979899")%string.

Definition pair (digits : Z) (cursor : list Z) : list Z :=
  default 0 (pairs !! Z.to_nat (digits * 2)) ::
  default 0 (pairs !! Z.to_nat (digits * 2 + 1)) :: cursor.

Definition quad (digits : Z) (cursor : list Z) : list Z :=
  pair (digits / 100) (pair (digits mod 100) cursor).

(** [for (group = 0; group < 4; ++group)] *)
Fixpoint block_groups (n : nat) (tail : Z) (cursor : list Z) : list Z :=
  match n with
  | O => cursor
  | S n => block_groups n (tail / 10000) (quad (tail mod 10000) cursor)
  end.

Definition DECIMAL_BLOCK : Z := 10000000000000000.

(** [while (value > static_cast<Unsigned>(~uint64_t(0)))]; two rounds take any
    128-bit value below [2 ^ 64]. *)
Fixpoint block_loop (fuel : nat) (value : Z) (cursor : list Z) : Z * list Z :=
  match fuel with
  | O => (value, cursor)
  | S fuel =>
    if MAX u64 <? value then
      block_loop fuel (value / DECIMAL_BLOCK) (block_groups 4 (value mod DECIMAL_BLOCK) cursor)
    else (value, cursor)
  end.

(** [while (remaining >= 10000)]; a 64-bit value has at most five groups. *)
Fixpoint quad_loop (fuel : nat) (remaining : Z) (cursor : list Z) : Z * list Z :=
  match fuel with
  | O => (remaining, cursor)
  | S fuel =>
    if 10000 <=? remaining then quad_loop fuel (remaining / 10000) (quad (remaining mod 10000) cursor)
    else (remaining, cursor)
  end.

Definition decimal_tail (remaining : Z) (cursor : list Z) : list Z :=
  let '(remaining, cursor) :=
    if 100 <=? remaining then (remaining / 100, pair (remaining mod 100) cursor)
    else (remaining, cursor) in
  if 10 <=? remaining then pair remaining cursor else (48 + remaining) :: cursor.

(** The digits [write_integer_decimal] leaves in its buffer. *)
Definition decimal_digits (u : int_type) (value : Z) : list Z :=
  let '(value, cursor) := if 64 <? bit_width u then block_loop 2 value [] else (value, []) in
  let '(remaining, cursor) := quad_loop 5 value cursor in
  decimal_tail remaining cursor.

(** [sizeof(buffer)] *)
Definition decimal_capacity (u : int_type) : nat :=
  if bit_width u <=? 32 then 10%nat else if bit_width u <=? 64 then 20%nat else 39%nat.

(** [do { buffer[--offset] = digits[value & mask]; value >>= shift; } while (value != 0)] *)
Fixpoint radix_loop (fuel : nat) (digits : list Z) (shift value : Z) (buffer : list Z) : list Z :=
  match fuel with
  | O => buffer
  | S fuel =>
    let mask := Z.shiftl 1 shift - 1 in
    let buffer := default 0 (digits !! Z.to_nat (Z.land value mask)) :: buffer in
    let value := Z.shiftr value shift in
    if value =? 0 then buffer else radix_loop fuel digits shift value buffer
  end.

Definition radix_capacity (u : int_type) : nat := Z.to_nat ((bit_width u + 2) / 3).

Definition radix_digits (u : int_type) (value : Z) (p : Presentation) : list Z :=
  let shift := match p with Octal => 3 | _ => 4 end in
  let digits :=
    match p with UpperHex => lit "0123456789ABCDEF" | _ => lit "0123456789abcdef" end in
  radix_loop (Z.to_nat (bit_width u)) digits shift value [].

Definition integer_bits (t : int_type) (v : Z) : Z :=
  let u := format_unsigned t in
  let mask := Z.shiftr (MAX u) (bit_width u - bit_width t) in
  Z.land (wrap u v) mask.

Section Writers.
Context {W : Type} `{Write W}.

Definition write_integer_decimal (u : int_type) (value : Z) (negative : bool) : FmtM W :=
  let* o := gets options in
  let sign := if negative then [45] else if flag o SIGN_PLUS then [43] else [] in
  pad_numeric sign (decimal_digits u value) 0 [].

Definition write_integer_radix (u : int_type) (value : Z) (p : Presentation) : FmtM W :=
  let* o := gets options in
  let prefix :=
    (if flag o SIGN_PLUS then [43] else []) ++
    (if flag o ALTERNATE then [48; match p with Octal => 111 | _ => 120 end] else []) in
  pad_numeric prefix (radix_digits u value p) 0 [].

Definition integer_display (t : int_type) (raw : Z) : FmtM W :=
  let u := format_unsigned t in
  let magnitude := wrap u raw in
  let negative := is_signed t && (raw <? 0) in
  let magnitude := if negative then wrap u (0 - magnitude) else magnitude in
  write_integer_decimal u magnitude negative.

(** [Argument::make] on an integer: the presentation selects the trait; the
    integers have no exponent notation. *)
Definition integer_argument (t : int_type) (raw : Z) : Argument W :=
  let* o := gets options in
  match opt_presentation o with
  | Display | Debug => integer_display t raw
  | LowerHex => write_integer_radix (format_unsigned t) (integer_bits t raw) LowerHex
  | UpperHex => write_integer_radix (format_unsigned t) (integer_bits t raw) UpperHex
  | Octal => write_integer_radix (format_unsigned t) (integer_bits t raw) Octal
  | LowerExp | UpperExp => throw tt
  end.

(** [Impl<fmt::Display, ref<str>>] and [Impl<fmt::Debug, ref<str>>]. *)
Definition str_argument (s : list Z) : Argument W :=
  let* o := gets options in
  match opt_presentation o with
  | Display => pad s
  | Debug => do* write_raw [34];; do* write_raw s;; write_raw [34]
  | _ => throw tt
  end.

End Writers.

(** ** What the digits are *)

(** The value of a digit character, and of a text of digits. *)
Definition hex_value (c : Z) : Z :=
  if c <=? 57 then c - 48 else if c <=? 70 then c - 55 else c - 87.

Definition numeral (base : Z) (ds : list Z) : Z :=
  foldl (fun acc d => acc * base + hex_value d) 0 ds.

Definition is_numeral (base : Z) (ds : list Z) : Prop :=
  Forall (fun c => is_hex_digit c = true /\ 0 <= hex_value c < base) ds.

(** No leading zero, except in the numeral of zero. *)
Definition no_leading_zero (ds : list Z) : Prop :=
  ds = [48] \/ exists d ds', ds = d :: ds' /\ d <> 48.

(** The numeral of [v] in [base]. *)
Definition denotes (base v : Z) (ds : list Z) : Prop :=
  is_numeral base ds /\ numeral base ds = v /\ no_leading_zero ds.

Lemma numeral_cons base d ds :
  numeral base (d :: ds) = hex_value d * base ^ Z.of_nat (length ds) + numeral base ds.
Proof.
  unfold numeral. cbn [foldl].
  enough (forall acc, foldl (fun acc d => acc * base + hex_value d) acc ds =
    acc * base ^ Z.of_nat (length ds) + foldl (fun acc d => acc * base + hex_value d) 0 ds) as ->
    by (rewrite Z.mul_0_l, Z.add_0_l; reflexivity).
  induction ds as [|c ds IH]; intros acc; [cbn; lia|]. cbn [foldl length].
  rewrite IH, (IH (0 * base + hex_value c)), Nat2Z.inj_succ, Z.pow_succ_r by lia. ring.
Qed.

Lemma numeral_range base ds : 2 <= base -> is_numeral base ds -> 0 <= numeral base ds < base ^ Z.of_nat (length ds).
Proof.
  intros Hb. induction 1 as [|d ds [_ Hd] Hds IH]; [cbn; lia|].
  rewrite numeral_cons. cbn [length]. rewrite Nat2Z.inj_succ, Z.pow_succ_r by lia.
  pose proof (Z.mul_le_mono_nonneg_r (hex_value d) (base - 1) (base ^ Z.of_nat (length ds)) ltac:(lia) ltac:(lia)).
  pose proof (Z.mul_nonneg_nonneg (hex_value d) (base ^ Z.of_nat (length ds)) ltac:(lia) ltac:(lia)). lia.
Qed.

Lemma hex_value_zero c : is_hex_digit c = true -> hex_value c = 0 -> c = 48.
Proof. unfold is_hex_digit, is_digit, hex_value. repeat case_if; lia. Qed.

(** A numeral is no longer than its value asks for. *)
Lemma denotes_length base v ds k :
  2 <= base -> denotes base v ds -> v < base ^ Z.of_nat k -> (0 < k)%nat -> (length ds <= k)%nat.
Proof.
  intros Hb (Hn & Hv & Hl) Hk Hk0. destruct Hl as [->|(d & ds' & -> & Hd)]; [cbn; lia|].
  apply Forall_cons_1 in Hn as [[Hx Hd'] Hn]. rewrite numeral_cons in Hv.
  pose proof (numeral_range base ds' Hb Hn).
  assert (hex_value d <> 0) by (intros E; by apply Hd, hex_value_zero).
  assert (base ^ Z.of_nat (length ds') < base ^ Z.of_nat k) by nia.
  apply Z.pow_lt_mono_r_iff in H1; [|lia..]. cbn. lia.
Qed.

Lemma numeral_inj base a b :
  2 <= base -> is_numeral base a -> is_numeral base b -> length a = length b ->
  numeral base a = numeral base b -> map hex_value a = map hex_value b.
Proof.
  intros Hb Ha. revert b. induction Ha as [|x a [_ Hx] Ha IH]; intros [|y b] Hn L E; try done.
  apply Forall_cons_1 in Hn as [[_ Hy] Hn]. cbn [length] in L. injection L as L.
  rewrite !numeral_cons, L in E. pose proof (numeral_range base a Hb Ha). pose proof (numeral_range base b Hb Hn).
  rewrite L in H. assert (hex_value x = hex_value y) by nia. cbn. f_equal; [done|]. apply IH; [done..|nia].
Qed.

(** *** The buffer while it fills *)

(** The digits after the cursor and the number still to be written make up
    the value; something is left once a digit has been written. *)
Definition filling (base v remaining : Z) (cursor : list Z) : Prop :=
  is_numeral base cursor /\ 0 <= remaining /\
  v = remaining * base ^ Z.of_nat (length cursor) + numeral base cursor /\
  (cursor = [] \/ 0 < remaining).

Lemma filling_start base v : 0 <= v -> filling base v v [].
Proof. intros. split; [constructor|]. cbn. split_and_all; [lia|lia|by left]. Qed.

(** One digit moves from the remaining number to the buffer. *)
Lemma filling_step base v r cursor c :
  2 <= base -> is_hex_digit c = true -> hex_value c = r mod base -> base <= r ->
  filling base v r cursor -> filling base v (r / base) (c :: cursor).
Proof.
  intros Hb Hc Hm Hr (Hn & H0 & Hv & _). pose proof (Z.mod_pos_bound r base ltac:(lia)).
  split; [constructor; [split; [done|lia]|done]|].
  assert (0 < r / base) by (apply Z.div_str_pos; lia). split_and_all; [lia| |by right].
  rewrite numeral_cons, Hm. cbn [length]. rewrite Nat2Z.inj_succ, Z.pow_succ_r by lia.
  rewrite Hv. rewrite (Z.div_mod r base) at 1 by lia. ring.
Qed.

(** The last digit. *)
Lemma filling_last base v r cursor c :
  2 <= base -> is_hex_digit c = true -> hex_value c = r -> r < base ->
  filling base v r cursor -> denotes base v (c :: cursor).
Proof.
  intros Hb Hc Hx Hr (Hn & H0 & Hv & Hs). unfold denotes. split_and_all.
  - constructor; [split; [done|lia]|done].
  - rewrite numeral_cons. lia.
  - destruct (decide (r = 0)) as [Hz|Hz].
    + destruct Hs as [->|]; [|lia]. left. f_equal. apply hex_value_zero; [done|lia].
    + right. exists c, cursor. split; [done|]. intros ->. by apply Hz.
Qed.

(** *** Decimal *)

Lemma pair_digits d cursor :
  0 <= d < 100 -> pair d cursor = (48 + d / 10) :: (48 + d mod 10) :: cursor.
Proof.
  intros Hd. unfold pair.
  assert (forallb (fun d => (default 0 (pairs !! Z.to_nat (d * 2)) =? 48 + d / 10) &&
    (default 0 (pairs !! Z.to_nat (d * 2 + 1)) =? 48 + d mod 10)) (seqZ 0 100) = true) as Ht by (by vm_compute).
  rewrite forallb_forall in Ht. specialize (Ht d).
  rewrite <- list_elem_of_In, elem_of_seqZ in Ht. specialize (Ht ltac:(lia)).
  apply andb_true_iff in Ht as [H1%Z.eqb_eq H2%Z.eqb_eq]. by rewrite H1, H2.
Qed.

Lemma decimal_char d : 0 <= d < 10 -> is_hex_digit (48 + d) = true /\ hex_value (48 + d) = d.
Proof. intros. unfold is_hex_digit, is_digit, hex_value. split; [|case_if]; lia. Qed.

(** A digit, a pair and a group of four leave the buffer. *)
Lemma filling_digit v r cursor :
  10 <= r -> filling 10 v r cursor -> filling 10 v (r / 10) ((48 + r mod 10) :: cursor).
Proof.
  intros. pose proof (Z.mod_pos_bound r 10 ltac:(lia)). destruct (decimal_char (r mod 10)); [lia|].
  apply filling_step; [lia|done|done|lia|done].
Qed.

Lemma filling_pair v r cursor :
  100 <= r -> filling 10 v r cursor -> filling 10 v (r / 100) (pair (r mod 100) cursor).
Proof.
  intros Hr Hf. rewrite pair_digits by (apply Z.mod_pos_bound; lia).
  replace (r mod 100 / 10) with ((r / 10) mod 10) by (change 100 with (10 * 10); rewrite Z.rem_mul_r by lia;
    rewrite Z.mul_comm, Z.div_add, (Z.div_small (r mod 10)) by (try apply Z.mod_pos_bound; lia); lia).
  replace (r mod 100 mod 10) with (r mod 10) by (symmetry; apply Z.mod_mod_divide; by exists 10).
  replace (r / 100) with (r / 10 / 10) by (rewrite Z.div_div by lia; done).
  apply filling_digit; [apply Z.div_le_lower_bound; lia|]. apply filling_digit; [lia|done].
Qed.

Lemma filling_quad v r cursor :
  10000 <= r -> filling 10 v r cursor -> filling 10 v (r / 10000) (quad (r mod 10000) cursor).
Proof.
  intros Hr Hf. unfold quad.
  replace (r mod 10000 / 100) with ((r / 100) mod 100) by (change 10000 with (100 * 100);
    rewrite Z.rem_mul_r by lia; rewrite Z.mul_comm, Z.div_add, (Z.div_small (r mod 100)) by
      (try apply Z.mod_pos_bound; lia); lia).
  replace (r mod 10000 mod 100) with (r mod 100) by (symmetry; apply Z.mod_mod_divide; by exists 100).
  replace (r / 10000) with (r / 100 / 100) by (rewrite Z.div_div by lia; done).
  apply filling_pair; [apply Z.div_le_lower_bound; lia|]. apply filling_pair; [lia|done].
Qed.

Lemma quad_loop_filling fuel v r cursor r' cursor' :
  quad_loop fuel r cursor = (r', cursor') -> r < 10000 ^ Z.of_nat (S fuel) ->
  filling 10 v r cursor -> filling 10 v r' cursor' /\ r' < 10000.
Proof.
  revert r cursor. induction fuel as [|fuel IH]; intros r cursor E Hr Hf; cbn [quad_loop] in E.
  { injection E as <- <-. split; [done|]. cbn in Hr. lia. }
  case_if; [|injection E as <- <-; split; [done|lia]].
  apply (IH _ _ E); [|apply filling_quad; [lia|done]].
  apply Z.div_lt_upper_bound; [lia|]. rewrite <- Z.pow_succ_r by lia. by rewrite <- Nat2Z.inj_succ.
Qed.

(** The sixteen digits of a block: four groups, leading zeros included. *)
Lemma filling_groups n v r cursor :
  10000 ^ Z.of_nat n <= r -> filling 10 v r cursor ->
  filling 10 v (r / 10000 ^ Z.of_nat n) (block_groups n (r mod 10000 ^ Z.of_nat n) cursor).
Proof.
  revert r cursor. induction n as [|n IH]; intros r cursor Hr Hf; cbn [block_groups].
  { by rewrite Z.pow_0_r, Z.div_1_r. }
  rewrite Nat2Z.inj_succ, Z.pow_succ_r in Hr |- * by lia.
  assert (0 < 10000 ^ Z.of_nat n) by lia. set (B := 10000 ^ Z.of_nat n) in *.
  replace (r mod (10000 * B) / 10000) with ((r / 10000) mod B) by (
    rewrite Z.rem_mul_r by lia; rewrite Z.mul_comm, Z.div_add, (Z.div_small (r mod 10000)) by
      (try apply Z.mod_pos_bound; lia); lia).
  replace (r mod (10000 * B) mod 10000) with (r mod 10000) by
    (symmetry; apply Z.mod_mod_divide; exists B; lia).
  rewrite <- Z.div_div by lia. apply IH; [apply Z.div_le_lower_bound; lia|].
  apply filling_quad; [nia|done].
Qed.

Lemma block_loop_filling fuel v r cursor r' cursor' :
  block_loop fuel r cursor = (r', cursor') -> r <= MAX u64 * DECIMAL_BLOCK ^ Z.of_nat fuel ->
  filling 10 v r cursor -> filling 10 v r' cursor' /\ r' <= MAX u64.
Proof.
  assert (DECIMAL_BLOCK = 10000 ^ Z.of_nat 4) as HB by done.
  assert (DECIMAL_BLOCK <= MAX u64 /\ 0 < DECIMAL_BLOCK) as [HM H0] by done.
  revert r cursor. induction fuel as [|fuel IH]; intros r cursor E Hr Hf; cbn [block_loop] in E.
  { injection E as <- <-. split; [done|]. by rewrite Z.pow_0_r, Z.mul_1_r in Hr. }
  rewrite Nat2Z.inj_succ, Z.pow_succ_r in Hr by lia.
  set (M := MAX u64) in *. clearbody M. destruct (Z.ltb_spec M r); [|injection E as <- <-; split; [done|lia]].
  apply (IH _ _ E).
  - apply Z.div_le_upper_bound; [done|]. lia.
  - rewrite HB. apply filling_groups; [rewrite <- HB; lia|done].
Qed.

Lemma decimal_tail_denotes v r cursor :
  r < 10000 -> filling 10 v r cursor -> denotes 10 v (decimal_tail r cursor).
Proof.
  intros Hr Hf. unfold decimal_tail.
  enough (forall r cursor, r < 100 -> filling 10 v r cursor ->
    denotes 10 v (if 10 <=? r then pair r cursor else (48 + r) :: cursor)) as Hend.
  { destruct (Z.leb_spec 100 r); [|by apply Hend].
    apply Hend; [apply Z.div_lt_upper_bound; lia|]. by apply filling_pair. }
  clear r cursor Hr Hf. intros r cursor Hr Hf. pose proof Hf as (_ & Hr0 & _).
  destruct (Z.leb_spec 10 r).
  - rewrite pair_digits by lia. pose proof (Z.div_pos r 10). pose proof (Z.div_lt_upper_bound r 10 10).
    destruct (decimal_char (r / 10)); [lia|].
    apply (filling_last 10 v (r / 10)); [lia|done|done|lia|]. by apply filling_digit.
  - destruct (decimal_char r); [lia|]. by apply (filling_last 10 v r).
Qed.

Lemma decimal_digits_denotes u value :
  u = u32 \/ u = u64 \/ u = u128 -> in_range u value = true ->
  denotes 10 value (decimal_digits u value).
Proof.
  intros Hu Hr. assert (0 <= value <= MAX u) as Hv.
  { unfold in_range in Hr. destruct Hu as [->|[->| ->]]; unfold MIN in Hr; cbn [is_signed u32 u64 u128] in Hr; lia. }
  assert (exists r cursor, (if 64 <? bit_width u then block_loop 2 value [] else (value, [])) = (r, cursor) /\
    filling 10 value r cursor /\ r <= MAX u64) as (r & cursor & E & Hf & Hle).
  { destruct (Z.ltb_spec 64 (bit_width u)) as [Hw|Hw].
    - destruct (block_loop 2 value []) as [r cursor] eqn:E. exists r, cursor. split; [done|].
      apply (block_loop_filling 2 _ _ _ _ _ E); [|apply filling_start, Hv].
      destruct Hu as [->|[->| ->]]; [done|done|]. etransitivity; [apply Hv|]. by vm_compute.
    - exists value, []. split_and_all; [done|apply filling_start, Hv|].
      destruct Hu as [->|[->| ->]]; [|apply Hv|by destruct Hw]. etransitivity; [apply Hv|]. by vm_compute. }
  unfold decimal_digits. rewrite E. destruct (quad_loop 5 r cursor) as [r' cursor'] eqn:E'.
  destruct (quad_loop_filling 5 value _ _ _ _ E') as [Hf' Hr'].
  - apply (Z.le_lt_trans _ _ _ Hle). by vm_compute.
  - done.
  - by apply decimal_tail_denotes.
Qed.

Lemma decimal_digits_fit u value :
  u = u32 \/ u = u64 \/ u = u128 -> in_range u value = true ->
  (length (decimal_digits u value) <= decimal_capacity u)%nat.
Proof.
  intros Hu Hr. apply (denotes_length 10 value); [lia|by apply decimal_digits_denotes| |].
  - unfold in_range in Hr. apply andb_true_iff in Hr as [_ Hr%Z.leb_le].
    apply (Z.le_lt_trans _ _ _ Hr). by destruct Hu as [->|[->| ->]].
  - by destruct Hu as [->|[->| ->]]; vm_compute; lia.
Qed.

(** *** Hexadecimal and octal *)

Lemma radix_digit_char upper d :
  0 <= d < 16 ->
  let c := default 0 ((if upper : bool then lit "0123456789ABCDEF" else lit "0123456789abcdef") !! Z.to_nat d) in
  is_hex_digit c = true /\ hex_value c = d.
Proof.
  intros Hd. cbn zeta.
  assert (forallb (fun d => let c := default 0 ((if upper : bool then lit "0123456789ABCDEF" else lit "0123456789abcdef") !! Z.to_nat d) in
    is_hex_digit c && (hex_value c =? d)) (seqZ 0 16) = true) as Ht by (by destruct upper; vm_compute).
  rewrite forallb_forall in Ht. specialize (Ht d). rewrite <- list_elem_of_In, elem_of_seqZ in Ht.
  specialize (Ht ltac:(lia)). apply andb_true_iff in Ht as [H1 H2%Z.eqb_eq]. done.
Qed.

Lemma radix_loop_denotes fuel upper s v r buffer :
  s = 3 \/ s = 4 -> r < 2 ^ Z.of_nat fuel -> (0 < fuel)%nat -> filling (2 ^ s) v r buffer ->
  denotes (2 ^ s) v (radix_loop fuel (if upper : bool then lit "0123456789ABCDEF" else lit "0123456789abcdef") s r buffer).
Proof.
  intros Hs. assert (8 <= 2 ^ s <= 16) as Hb by (destruct Hs as [-> | ->]; lia).
  assert (0 <= s) as Hs0 by lia.
  revert r buffer. induction fuel as [|fuel IH]; intros r buffer Hr Hfu Hf; [lia|]. cbn [radix_loop].
  pose proof Hf as (_ & Hr0 & _). rewrite Z.shiftl_mul_pow2, Z.mul_1_l, land_mask, Z.shiftr_div_pow2 by lia.
  pose proof (Z.mod_pos_bound r (2 ^ s) ltac:(lia)).
  destruct (radix_digit_char upper (r mod 2 ^ s)) as [Hc Hx]; [lia|].
  destruct (Z.eqb_spec (r / 2 ^ s) 0) as [Hz|Hz].
  - apply Z.div_small_iff in Hz; [|lia]. apply (filling_last (2 ^ s) v r); [lia|done| |lia|done].
    rewrite Hx. apply Z.mod_small. lia.
  - assert (2 ^ s <= r) by (destruct (Z.lt_ge_cases r (2 ^ s)); [rewrite Z.div_small in Hz; lia|lia]).
    destruct fuel as [|fuel]; [cbn in Hr; lia|].
    apply IH; [|lia|by apply filling_step; [lia|..]].
    apply Z.div_lt_upper_bound; [lia|]. rewrite Nat2Z.inj_succ, Z.pow_succ_r in Hr by lia. nia.
Qed.

Lemma radix_digits_denotes u value p :
  0 < bit_width u -> 0 <= value < 2 ^ bit_width u ->
  denotes (match p with Octal => 8 | _ => 16 end) value (radix_digits u value p).
Proof.
  intros Hw Hv. unfold radix_digits.
  destruct p;
    ((apply (radix_loop_denotes _ true 4) || apply (radix_loop_denotes _ false 4) ||
      apply (radix_loop_denotes _ false 3));
     [auto|rewrite Z2Nat.id by lia; lia|lia|apply filling_start, Hv]).
Qed.

Lemma radix_digits_fit u value p :
  0 < bit_width u -> 0 <= value < 2 ^ bit_width u ->
  (length (radix_digits u value p) <= radix_capacity u)%nat.
Proof.
  intros Hw Hv. pose proof (Z.div_pos (bit_width u + 2) 3 ltac:(lia) ltac:(lia)) as Hp.
  assert (1 <= (bit_width u + 2) / 3) by (apply Z.div_le_lower_bound; lia).
  pose proof (Z.mod_pos_bound (bit_width u + 2) 3 ltac:(lia)).
  pose proof (Z.div_mod (bit_width u + 2) 3 ltac:(lia)).
  eapply denotes_length; [|by apply radix_digits_denotes| |unfold radix_capacity; lia]; [by destruct p|].
  apply (Z.lt_le_trans _ _ _ (proj2 Hv)). unfold radix_capacity. rewrite Z2Nat.id by lia.
  transitivity (2 ^ (3 * ((bit_width u + 2) / 3))); [apply Z.pow_le_mono_r; lia|].
  rewrite Z.pow_mul_r by lia. change (2 ^ 3) with 8. apply Z.pow_le_mono_l. by destruct p.
Qed.
