(* ===== verification/FmtSpec.v ===== *)
(** * What formatting writes

    The grammar of format strings and the agreement of the compile-time check
    with the run-time interpreter; the text [Formatter::pad] and
    [Formatter::pad_numeric] produce; the text of a formatted integer. *)

From Stdlib Require Import ZArith Lia ZifyBool Ascii.
From stdpp Require Import strings.
From S2P Require Import Prelude Int Utf8 Fmt FmtInteger.
Local Open Scope Z_scope.
Local Open Scope rstd_scope.

(** ** Computations that write a known text *)

(** On any string, with options [o], the computation succeeds, appends [out]
    and leaves the options alone. *)
Definition emits (m : FmtM String) (o : FormattingOptions) (out : list Z) : Prop :=
  forall w, m (mkFormatter w o) = (Ret tt, mkFormatter (w ++ out) o).

Lemma emits_ret o : emits (ret tt) o [].
Proof. intros w. by rewrite app_nil_r. Qed.

Lemma emits_seq (m k : FmtM String) o a b : emits m o a -> emits k o b -> emits (do* m;; k) o (a ++ b).
Proof. intros Hm Hk w. unfold bind. by rewrite Hm, Hk, app_assoc. Qed.

Lemma emits_gets (k : FormattingOptions -> FmtM String) o out :
  emits (k o) o out -> emits (let* o := gets options in k o) o out.
Proof. intros Hk w. apply Hk. Qed.

Lemma is_valid_utf8_text s : is_text s -> is_valid_utf8 s = true.
Proof. intros Ht. unfold is_valid_utf8. apply is_valid_utf8_loop_text; [by apply is_text_bytes_ok|lia|done]. Qed.

Lemma emits_raw s o : is_text s -> emits (write_raw s) o s.
Proof. intros Ht w. unfold write_raw. by rewrite is_valid_utf8_text. Qed.

Lemma emits_some s o : is_text s -> emits (write_some s) o s.
Proof.
  intros Ht. unfold write_some. destruct s as [|c s]; [apply emits_ret|]. by apply emits_raw.
Qed.

Lemma text_replicate n v : 0 <= v < 128 -> is_text (replicate n v).
Proof. intros. apply text_ascii, Forall_replicate. lia. Qed.

Lemma emits_repeat v n o : 0 <= v < 128 -> emits (write_repeat v n) o (replicate n v).
Proof.
  intros Hv. unfold write_repeat. enough (forall fuel n, (n < fuel)%nat ->
    emits (write_repeat_loop fuel v n) o (replicate n v)) as He by (apply He; lia).
  induction fuel as [|fuel IH]; intros k Hk; [lia|]. cbn [write_repeat_loop].
  destruct (Nat.eqb_spec k 0) as [->|]; [apply emits_ret|].
  set (chunk := if (k <? 64)%nat then k else 64%nat).
  assert (0 < chunk <= k)%nat by (subst chunk; case_if; [lia|apply Nat.ltb_ge in Heqb; lia]).
  replace (replicate k v) with (replicate chunk v ++ replicate (k - chunk) v)
    by (rewrite <- replicate_add; f_equal; lia).
  apply emits_seq; [by apply emits_raw, text_replicate|]. apply IH. lia.
Qed.

Lemma emits_options o o' a out : emits a o' out -> emits (with_options o' a) o out.
Proof. intros Ha w. unfold with_options. cbn. by rewrite Ha. Qed.

#[export] Hint Resolve emits_ret emits_seq emits_raw emits_some emits_repeat emits_options text_replicate : rstd.

(** ** Format strings *)

Inductive piece := Literal (c : Z) | Placeholder (o : FormattingOptions).

Fixpoint placeholders (ps : list piece) : nat :=
  match ps with
  | [] => 0
  | Literal _ :: ps => placeholders ps
  | Placeholder _ :: ps => S (placeholders ps)
  end.

(** The grammar: ordinary characters, doubled braces, placeholders. *)
Inductive template : list Z -> list piece -> Prop :=
| template_nil : template [] []
| template_char c fmt ps :
    c <> 123 -> c <> 125 -> template fmt ps -> template (c :: fmt) (Literal c :: ps)
| template_left fmt ps : template fmt ps -> template (123 :: 123 :: fmt) (Literal 123 :: ps)
| template_right fmt ps : template fmt ps -> template (125 :: 125 :: fmt) (Literal 125 :: ps)
| template_hole inner fmt ps :
    ~ (125 ∈ inner) -> head inner <> Some 123 -> template fmt ps ->
    template (123 :: inner ++ 125 :: fmt) (Placeholder (parse_spec (skip_arg_id inner)) :: ps).

(** What a template becomes when its placeholders are filled in order. *)
Inductive filled : list piece -> list (Argument String) -> list Z -> Prop :=
| filled_nil args : filled [] args []
| filled_literal c ps args out : filled ps args out -> filled (Literal c :: ps) args (c :: out)
| filled_argument o a ps args s out :
    emits a o s -> filled ps args out -> filled (Placeholder o :: ps) (a :: args) (s ++ out).

#[export] Hint Constructors template filled : rstd.

Lemma scan_brace_spec p :
  match scan_brace p with
  | Some (inner, after) => p = inner ++ 125 :: after /\ ~ (125 ∈ inner)
  | None => ~ (125 ∈ p)
  end.
Proof.
  induction p as [|c p IH]; cbn [scan_brace]; [apply not_elem_of_nil|].
  destruct (Z.eqb_spec c 125) as [->|Hc]; [split; [done|apply not_elem_of_nil]|].
  destruct (scan_brace p) as [[inner after]|].
  - destruct IH as [-> Hn]. split; [done|]. by apply not_elem_of_cons.
  - by apply not_elem_of_cons.
Qed.

Lemma scan_brace_app inner after :
  ~ (125 ∈ inner) -> scan_brace (inner ++ 125 :: after) = Some (inner, after).
Proof.
  induction inner as [|c inner IH]; intros Hn; [done|]. apply not_elem_of_cons in Hn as [Hc Hn].
  cbn [app scan_brace]. rewrite IH by done. by destruct (Z.eqb_spec c 125).
Qed.

(** How the loops see an opening brace. *)
Lemma second_brace rest d :
  match rest with c' :: _ => c' =? d | [] => false end = true -> rest = d :: drop 1 rest.
Proof. destruct rest; [done|]. intros ->%Z.eqb_eq. by rewrite skipn_cons, skipn_O. Qed.

Lemma template_count fuel s n :
  (length s < fuel)%nat ->
  match count_placeholders fuel s n with
  | Some m => exists ps, template s ps /\ m = (n + placeholders ps)%nat
  | None => forall ps, ~ template s ps
  end.
Proof.
  revert s n. induction fuel as [|fuel IH]; intros s n Hl; [lia|]. cbn [count_placeholders].
  destruct s as [|c rest]; [exists []; split; [constructor|cbn; lia]|]. cbn in Hl.
  destruct (Z.eqb_spec c 123) as [->|Hc].
  - destruct (match rest with c' :: _ => c' =? 123 | [] => false end) eqn:Hd.
    + apply second_brace in Hd. set (rest' := drop 1 rest) in *. clearbody rest'. subst rest. cbn in Hl.
      specialize (IH rest' n ltac:(lia)). destruct (count_placeholders fuel rest' n).
      * destruct IH as (ps & Hp & ->). exists (Literal 123 :: ps). split; [by constructor|done].
      * intros ps Ht. inversion Ht; subst; [done|by eapply IH|].
        destruct inner; cbn in *; simplify_eq/=.
    + pose proof (scan_brace_spec rest) as Hs. destruct (scan_brace rest) as [[inner after]|].
      * destruct Hs as [-> Hn]. rewrite length_app in Hl. cbn in Hl.
        assert (head inner <> Some 123) as Hh by (by destruct inner; cbn in Hd |- *; [|intros [= ->]]).
        specialize (IH after (S n) ltac:(lia)). destruct (count_placeholders fuel after (S n)).
        -- destruct IH as (ps & Hp & ->). eexists (_ :: ps). split; [by constructor|cbn; lia].
        -- intros ps Ht. inversion Ht as [|?????? E|?? Ht' E|?? Ht' E|inner' fmt' ps' Hn' Hh' Ht' E]; subst;
             [done|by destruct inner; simplify_eq/=|].
           apply (f_equal scan_brace) in E. rewrite !scan_brace_app in E by done. simplify_eq. by eapply IH.
      * intros ps Ht. inversion Ht as [|?????? E|?? Ht' E|?? Ht' E|inner' fmt' ps' Hn' Hh' Ht' E]; subst;
          [done|by cbn in Hd|]. apply Hs, elem_of_app. right. constructor.
  - destruct (Z.eqb_spec c 125) as [->|Hc'].
    + destruct (match rest with c' :: _ => c' =? 125 | [] => false end) eqn:Hd.
      * apply second_brace in Hd. set (rest' := drop 1 rest) in *. clearbody rest'. subst rest. cbn in Hl.
        specialize (IH rest' n ltac:(lia)). destruct (count_placeholders fuel rest' n).
        -- destruct IH as (ps & Hp & ->). exists (Literal 125 :: ps). split; [by constructor|done].
        -- intros ps Ht. inversion Ht; subst; [done|by eapply IH].
      * intros ps Ht. inversion Ht; subst; done.
    + specialize (IH rest n ltac:(lia)). destruct (count_placeholders fuel rest n).
      * destruct IH as (ps & Hp & ->). exists (Literal c :: ps). split; [by constructor|done].
      * intros ps Ht. inversion Ht; subst; [by eapply IH|done..].
Qed.

(** A run that returns [true] has met a template with enough arguments,
    whatever the sink and the arguments. *)
Lemma write_fmt_loop_template {W} `{Write W} fuel text p (args : list (Argument W)) f f' :
  write_fmt_loop fuel text p args f = (Ret tt, f') ->
  exists ps, template p ps /\ (placeholders ps <= length args)%nat.
Proof.
  revert text p args f. induction fuel as [|fuel IH]; intros text p args f E; [done|].
  cbn [write_fmt_loop] in E. destruct p as [|c rest]; [by exists []; split; [constructor|cbn; lia]|].
  destruct (Z.eqb_spec c 123) as [->|Hc].
  - destruct (match rest with c' :: _ => c' =? 123 | [] => false end) eqn:Hd.
    + unfold bind in E. destruct (write_some text f) as [[[]| | |] f1]; try done.
      destruct (write_raw [123] f1) as [[[]| | |] f2]; try done.
      destruct (IH _ _ _ _ E) as (ps & Hp & Hn). apply second_brace in Hd. rewrite Hd.
      by exists (Literal 123 :: ps); split; [constructor|].
    + unfold bind in E. destruct (write_some text f) as [[[]| | |] f1]; try done.
      pose proof (scan_brace_spec rest) as Hs. destruct (scan_brace rest) as [[inner after]|]; [|done].
      destruct Hs as [-> Hn]. destruct args as [|arg args]; [done|].
      destruct (with_options _ arg f1) as [[[]| | |] f2]; try done.
      destruct (IH _ _ _ _ E) as (ps & Hp & Hl). exists (Placeholder (parse_spec (skip_arg_id inner)) :: ps).
      split; [|cbn; lia].
      constructor; [done| |done]. destruct inner; cbn in Hd |- *; [done|intros [= ->]; done].
  - destruct (Z.eqb_spec c 125) as [->|Hc'].
    + destruct (match rest with c' :: _ => c' =? 125 | [] => false end) eqn:Hd; [|done].
      unfold bind in E. destruct (write_some text f) as [[[]| | |] f1]; try done.
      destruct (write_raw [125] f1) as [[[]| | |] f2]; try done.
      destruct (IH _ _ _ _ E) as (ps & Hp & Hn). apply second_brace in Hd. rewrite Hd.
      by exists (Literal 125 :: ps); split; [constructor|].
    + destruct (IH _ _ _ _ E) as (ps & Hp & Hn). by exists (Literal c :: ps); split; [constructor|].
Qed.

(** The loop of [write_fmt] writes what the template becomes. *)
Lemma emits_fmt_loop fmt ps : template fmt ps -> forall fuel text args out o,
  is_text (text ++ fmt) -> (length fmt < fuel)%nat -> filled ps args out ->
  emits (write_fmt_loop fuel text fmt args) o (text ++ out).
Proof.
  induction 1 as [|c fmt ps Hc Hc' Ht IH|fmt ps Ht IH|fmt ps Ht IH|inner fmt ps Hn Hh Ht IH];
    intros fuel text args out o Htx Hf Hfill; (destruct fuel as [|fuel]; [cbn in Hf; lia|]);
    cbn [write_fmt_loop]; inversion Hfill; subst; cbn in Hf.
  - rewrite app_nil_r in Htx |- *. auto with rstd.
  - rewrite (proj2 (Z.eqb_neq c 123)), (proj2 (Z.eqb_neq c 125)) by done.
    change (text ++ c :: out0) with (text ++ [c] ++ out0). rewrite app_assoc.
    apply IH; [by rewrite <- app_assoc|lia|done].
  - rewrite !Z.eqb_refl. apply text_ascii_split in Htx as (Ha & _ & Hb); [|lia].
    apply (text_ascii_split []) in Hb as (_ & _ & Hb); [|lia].
    apply emits_seq; [by apply emits_some|]. change (123 :: out0) with ([123] ++ out0).
    apply emits_seq; [by apply emits_raw, text_ascii; repeat constructor|].
    apply (IH _ [] args); [done|cbn; lia|done].
  - rewrite !Z.eqb_refl. replace (125 =? 123) with false by done.
    apply text_ascii_split in Htx as (Ha & _ & Hb); [|lia].
    apply (text_ascii_split []) in Hb as (_ & _ & Hb); [|lia].
    apply emits_seq; [by apply emits_some|]. change (125 :: out0) with ([125] ++ out0).
    apply emits_seq; [by apply emits_raw, text_ascii; repeat constructor|].
    apply (IH _ [] args); [done|cbn; lia|done].
  - rewrite Z.eqb_refl, scan_brace_app by done.
    replace (match inner ++ 125 :: fmt with c' :: _ => c' =? 123 | [] => false end) with false.
    2:{ destruct inner as [|c inner]; [done|]. cbn in Hh |- *. symmetry. apply Z.eqb_neq. congruence. }
    apply text_ascii_split in Htx as (Ha & _ & Hb); [|lia].
    apply text_ascii_split in Hb as (_ & _ & Hb); [|lia]. rewrite length_app in Hf. cbn in Hf.
    apply emits_seq; [by apply emits_some|]. apply emits_seq; [by apply emits_options|].
    apply (IH _ [] args0); [done|lia|done].
Qed.

Lemma template_unique fmt ps ps' : template fmt ps -> template fmt ps' -> ps = ps'.
Proof.
  intros Ht. revert ps'. induction Ht as [|c fmt ps Hc Hc' Ht IH|fmt ps Ht IH|fmt ps Ht IH|inner fmt ps Hn Hh Ht IH];
    intros ps' Ht'; inversion Ht' as [|??????|?? Ht2 E|?? Ht2 E|inner2 fmt2 ps2 Hn2 Hh2 Ht2 E]; subst;
    try done; try (f_equal; by apply IH).
  - by destruct inner2; simplify_eq/=.
  - by destruct inner; simplify_eq/=.
  - apply (f_equal scan_brace) in E. rewrite !scan_brace_app in E by done. simplify_eq. f_equal. by apply IH.
Qed.

(** C38: the compile-time check and the run-time interpreter of format strings
    agree.  A format string, valid UTF-8, that [check_format_string] accepts for
    the number of arguments given is a template, and whenever its arguments write their
    texts, [write_fmt] succeeds and writes the template with its placeholders
    filled in order, each argument seeing the options of its own placeholder
    and the options outside being restored; a format string the check rejects
    (an unmatched brace, too few arguments) is never formatted successfully,
    whatever the arguments do. *)
Theorem format_strings_checked fmt (args : list (Argument String)) :
  is_text fmt ->
  (check_format_string fmt (length args) = true ->
   exists ps, template fmt ps /\ (placeholders ps <= length args)%nat /\
     forall out o, filled ps args out -> emits (write_fmt fmt args) o out) /\
  (check_format_string fmt (length args) = false ->
   forall f, fst (write_fmt fmt args f) <> Ret tt).
Proof.
  intros Ht. unfold check_format_string. pose proof (template_count (S (length fmt)) fmt 0 ltac:(lia)) as Hc.
  destruct (count_placeholders (S (length fmt)) fmt 0) as [m|].
  - destruct Hc as (ps & Hp & ->). split; intros Hn.
    + exists ps. apply Nat.leb_le in Hn. split_and_all; [done|done|]. intros out o Hfill.
      apply (emits_fmt_loop fmt ps Hp _ [] args out); [done|lia|done].
    + intros f Hw. destruct (write_fmt fmt args f) as [x f'] eqn:E. cbn in Hw. subst x.
      apply write_fmt_loop_template in E as (ps' & Hp' & Hl).
      rewrite (template_unique _ _ _ Hp Hp') in Hn. apply Nat.leb_gt in Hn. cbn in Hn. lia.
  - split; [done|]. intros _ f Hw. destruct (write_fmt fmt args f) as [x f'] eqn:E. cbn in Hw. subst x.
    apply write_fmt_loop_template in E as (ps' & Hp' & _). by eapply Hc.
Qed.

Lemma format_strings_checked_witness :
  exists ps, template (lit "<{}>") ps /\
    emits (write_fmt (lit "<{}>") [str_argument (lit "x")]) default_options (lit "<x>").
Proof.
  destruct (format_strings_checked (lit "<{}>") [str_argument (lit "x")]) as [H _].
  { apply text_ascii. repeat constructor; vm_compute; congruence. }
  destruct (H ltac:(vm_compute; reflexivity)) as (ps & Ht & _ & He). exists ps. split; [exact Ht|].
  apply He. rewrite (template_unique _ _ _ Ht
    (template_char 60 _ _ ltac:(lia) ltac:(lia) (template_hole [] _ _ (not_elem_of_nil _) ltac:(done)
      (template_char 62 _ _ ltac:(lia) ltac:(lia) template_nil)))).
  apply filled_literal, (filled_argument _ _ _ _ [120]); [|apply filled_literal, filled_nil].
  intros w. vm_compute. reflexivity.
Defined.

(** ** Padding *)

Lemma take_chars_loop_text cs : scalars cs -> forall fuel k maximum,
  (length (text_of cs) <= fuel)%nat -> (k <= maximum)%nat ->
  take_chars_loop fuel k maximum (text_of cs) =
    ((k + (maximum - k) `min` length cs)%nat, text_of (drop (maximum - k) cs)).
Proof.
  induction 1 as [|c cs [Hs Hc] Hcs IH]; intros fuel k maximum Hf Hk.
  { rewrite drop_nil, Nat.min_0_r, Nat.add_0_r. destruct fuel; cbn [take_chars_loop]; [done|]. by case_if. }
  pose proof (encode_seq c Hc Hs) as Hq. pose proof (seq_nonempty _ _ Hq).
  change (text_of (c :: cs)) with (encode_utf8 c ++ text_of cs) in Hf. rewrite length_app in Hf.
  destruct fuel as [|fuel]; [lia|]. cbn [take_chars_loop]. rewrite chars_next_text by done.
  destruct (Nat.ltb_spec k maximum).
  - rewrite IH by lia. replace (maximum - k)%nat with (S (maximum - S k)) by lia. cbn [drop length].
    f_equal. lia.
  - replace (maximum - k)%nat with 0%nat by lia. cbn [drop Nat.min]. by rewrite Nat.add_0_r.
Qed.

(** How much of the padding an alignment puts in front. *)
Definition left_share (a : Align) (padding : nat) : nat :=
  match a with AlignLeft | AlignNone => 0%nat | AlignRight => padding | AlignCenter => (padding / 2)%nat end.

Lemma left_share_le a padding : (left_share a padding <= padding)%nat.
Proof. destruct a; unfold left_share; [lia..|]. apply Nat.Div0.div_le_upper_bound. lia. Qed.

(** [Formatter::pad], which displays a string, cuts the text to the
    precision, counted in characters and never inside one, and pads it with
    the fill character to the width, counted in characters too: on the left,
    on the right or on both sides (the odd one on the right) as the alignment
    asks, on the right by default. *)
Theorem pad_text cs o :
  scalars cs -> opt_fill o < 128 ->
  let n := if flag o HAS_PREC then (Z.to_nat (precision o) `min` length cs)%nat else length cs in
  let padding := (target_width o - n)%nat in
  let left := left_share (opt_align o) padding in
  emits (pad (text_of cs)) o
    (replicate left (opt_fill o) ++ text_of (take n cs) ++ replicate (padding - left) (opt_fill o)).
Proof.
  intros Hcs Hfill. cbn zeta. assert (0 <= opt_fill o < 128) as Hf by (split; [|done]; apply Z.mod_pos_bound; lia).
  set (n := if flag o HAS_PREC then _ else _). set (padding := (target_width o - n)%nat).
  unfold pad. apply emits_gets. destruct (negb (flag o HAS_WIDTH) && negb (flag o HAS_PREC)) eqn:E.
  { assert (n = length cs) as -> by (subst n; by destruct (flag o HAS_PREC), (flag o HAS_WIDTH)).
    assert (padding = 0%nat) as -> by (subst padding; unfold target_width; by destruct (flag o HAS_PREC), (flag o HAS_WIDTH)).
    rewrite firstn_all. replace (left_share _ 0) with 0%nat by (by destruct (opt_align o)).
    cbn [replicate app Nat.sub]. rewrite app_nil_r. auto with rstd. }
  set (maximum := if flag o HAS_PREC then Z.to_nat (precision o) else length (text_of cs)).
  assert (maximum `min` length cs = n)%nat as Hn.
  { subst n maximum. case_if; [done|]. apply Nat.min_r. clear -Hcs. induction Hcs as [|c cs [Hs Hc] _ IH]; [done|].
    pose proof (seq_nonempty _ _ (encode_seq c Hc Hs)). unfold text_of in *. cbn [map concat length].
    rewrite length_app. lia. }
  rewrite (take_chars_loop_text cs) by (done || lia). rewrite Nat.sub_0_r, Nat.add_0_l, Hn.
  replace (take (length (text_of cs) - length (text_of (drop maximum cs))) (text_of cs)) with (text_of (take n cs)).
  2:{ rewrite <- Hn, <- firstn_all2 with (n := maximum) (l := take (maximum `min` length cs) cs)
        by (rewrite length_take; lia).
      replace (take maximum (take _ cs)) with (take maximum cs)
        by (rewrite take_take; destruct (Nat.min_spec maximum (length cs)) as [[? ->]|[? ->]];
            [by rewrite Nat.min_id|rewrite Nat.min_r by lia; by rewrite !take_ge by lia]).
      rewrite <- (take_drop maximum cs) at 2 4. rewrite text_of_app, length_app.
      replace (_ + _ - _)%nat with (length (text_of (take maximum cs))) by lia. by rewrite take_app_length. }
  destruct (Nat.leb_spec (target_width o) n) as [Hw|Hw].
  { assert (padding = 0%nat) as -> by lia. replace (left_share _ 0) with 0%nat by (by destruct (opt_align o)).
    cbn [replicate app Nat.sub]. rewrite app_nil_r. auto with rstd. }
  destruct (opt_align o); auto 6 with rstd.
Qed.

Lemma pad_text_witness :
  emits (pad (text_of [0xE9; 97; 98])) (parse_spec (lit "*^5.2")) (lit "*" ++ text_of [0xE9; 97] ++ lit "**").
Proof.
  apply (pad_text [0xE9; 97; 98] (parse_spec (lit "*^5.2"))).
  - repeat constructor; vm_compute; congruence.
  - vm_compute. reflexivity.
Defined.

(** ** Integers *)

Lemma hex_digit_ascii c : is_hex_digit c = true -> 0 <= c < 128.
Proof. unfold is_hex_digit, is_digit. lia. Qed.

Lemma denotes_text base v ds : denotes base v ds -> is_text ds.
Proof. intros [Hn _]. apply text_ascii. eapply Forall_impl; [|exact Hn]. intros c [Hc _]. by apply hex_digit_ascii. Qed.

(** Numbers are padded on the left by default; the zero flag puts the padding
    between the sign and the digits, and then the alignment is ignored. *)
Definition numeric_padding (o : FormattingOptions) (padding l z r : nat) : Prop :=
  (l + z + r = padding)%nat /\
  if flag o ZERO_PAD then l = 0%nat /\ r = 0%nat
  else z = 0%nat /\ l = left_share (match opt_align o with AlignNone => AlignRight | a => a end) padding.

Lemma emits_pad_numeric sign ds o :
  is_text sign -> is_text ds -> opt_fill o < 128 ->
  exists l z r, numeric_padding o (target_width o - (length sign + length ds)) l z r /\
    emits (pad_numeric sign ds 0 []) o
      (replicate l (opt_fill o) ++ sign ++ replicate z 48 ++ ds ++ replicate r (opt_fill o)).
Proof.
  intros Hs Hd Hfill. assert (0 <= opt_fill o < 128) as Hf by (split; [|done]; apply Z.mod_pos_bound; lia).
  set (padding := (target_width o - (length sign + length ds))%nat).
  assert (forall o', emits (write_number sign ds 0 []) o' (sign ++ ds)) as Hw.
  { intros o'. replace (sign ++ ds) with (sign ++ ds ++ [] ++ []) by (by rewrite !app_nil_r).
    repeat apply emits_seq; [by apply emits_some..|apply (emits_repeat 48 0); lia|apply emits_ret]. }
  unfold pad_numeric. destruct (decide (target_width o <= length sign + length ds)%nat) as [Hle|Hlt].
  { exists 0%nat, 0%nat, 0%nat. split.
    - split; [lia|]. replace padding with 0%nat by lia. case_if; [done|]. split; [done|].
      by destruct (opt_align o).
    - cbn [replicate app]. rewrite app_nil_r. apply emits_gets. cbn zeta. cbn [length].
      rewrite (proj2 (Nat.leb_le _ _)) by lia. apply Hw. }
  destruct (flag o ZERO_PAD) eqn:Hz.
  - exists 0%nat, padding, 0%nat. split; [split; [lia|by rewrite Hz]|].
    cbn [replicate app]. apply emits_gets. cbn zeta. cbn [length]. rewrite Hz.
    rewrite (proj2 (Nat.leb_gt _ _)) by lia.
    replace (target_width o - (length sign + length ds + 0 + 0))%nat with padding by lia.
    apply emits_seq; [by apply emits_some|]. apply emits_seq; [apply emits_repeat; lia|].
    apply emits_seq; [by apply emits_some|].
    apply (emits_seq _ _ o [] []); [apply (emits_repeat 48 0); lia|apply emits_ret].
  - pose (l := left_share (match opt_align o with AlignNone => AlignRight | a => a end) padding).
    pose proof (left_share_le (match opt_align o with AlignNone => AlignRight | a => a end) padding).
    exists l, 0%nat, (padding - l)%nat. split; [split; [lia|by rewrite Hz]|].
    cbn [replicate app]. rewrite app_assoc with (l := sign). apply emits_gets. cbn zeta. cbn [length]. rewrite Hz.
    rewrite (proj2 (Nat.leb_gt _ _)) by lia.
    replace (target_width o - (length sign + length ds + 0 + 0))%nat with padding by lia.
    replace (match match opt_align o with AlignNone => AlignRight | a => a end with
      | AlignLeft => 0%nat | AlignCenter => (padding / 2)%nat | _ => padding end) with l
      by (subst l; by destruct (opt_align o)).
    apply emits_seq; [by apply emits_repeat|]. apply emits_seq; [apply Hw|by apply emits_repeat].
Qed.

Lemma format_unsigned_cases t :
  wf_type t = true ->
  (format_unsigned t = u32 \/ format_unsigned t = u64 \/ format_unsigned t = u128) /\
  bit_width t <= bit_width (format_unsigned t) /\ is_signed (format_unsigned t) = false.
Proof.
  intros Hw. apply wf_type_width in Hw. unfold format_unsigned.
  destruct (Z.leb_spec (bit_width t) 32); [|destruct (Z.leb_spec (bit_width t) 64)]; cbn; split_and_all; auto; lia.
Qed.

(** The sign and magnitude of the decimal notation. *)
Lemma magnitude_exact t v :
  wf_type t = true -> in_range t v = true ->
  let u := format_unsigned t in
  let negative := is_signed t && (v <? 0) in
  negative = (v <? 0) /\
  in_range u (if negative then wrap u (0 - wrap u v) else wrap u v) = true /\
  (if negative then wrap u (0 - wrap u v) else wrap u v) = Z.abs v.
Proof.
  intros Hw Hr. cbn zeta. destruct (format_unsigned_cases t Hw) as (Hu & Hle & Hs).
  set (u := format_unsigned t) in *. pose proof (wf_type_width t Hw).
  assert (0 < bit_width u) as Hwu by lia.
  pose proof (half_modulus t ltac:(lia)) as [H2 H2p].
  assert (2 ^ bit_width t <= 2 ^ bit_width u) as Hp by (apply Z.pow_le_mono_r; lia).
  assert (- 2 ^ (bit_width t - 1) <= v <= 2 ^ bit_width t - 1 /\
    (is_signed t = true -> v <= 2 ^ (bit_width t - 1) - 1) /\ (is_signed t = false -> 0 <= v)) as (Hb & Hbs & Hbu).
  { unfold in_range, MIN, MAX in Hr. destruct (is_signed t); split_and_all; try lia; try done; intros; lia. }
  assert (is_signed t && (v <? 0) = (v <? 0)) as En.
  { destruct (is_signed t); [done|]. specialize (Hbu eq_refl). symmetry. cbn. apply Z.ltb_ge. lia. }
  split; [done|]. split; [destruct (_ && _); apply wrap_range; done|]. rewrite En.
  rewrite !(wrap_unsigned u) by done. destruct (Z.ltb_spec v 0) as [Hn|Hn].
  - assert (v mod 2 ^ bit_width u = v + 2 ^ bit_width u) as ->.
    { symmetry. apply (Z.mod_unique_pos _ _ (-1)); lia. }
    symmetry. apply (Z.mod_unique_pos _ _ (-1)); lia.
  - rewrite Z.mod_small by lia. lia.
Qed.

Lemma integer_bits_exact t v : wf_type t = true -> integer_bits t v = v mod 2 ^ bit_width t.
Proof.
  intros Hw. destruct (format_unsigned_cases t Hw) as (_ & Hle & Hs). pose proof (wf_type_width t Hw).
  unfold integer_bits. set (u := format_unsigned t) in *. unfold MAX. rewrite Hs, wrap_unsigned by done.
  replace (Z.shiftr (2 ^ bit_width u - 1) (bit_width u - bit_width t)) with (2 ^ bit_width t - 1).
  - rewrite land_mask by lia. apply Z.mod_mod_divide. exists (2 ^ (bit_width u - bit_width t)).
    rewrite <- Z.pow_add_r by lia. f_equal. lia.
  - rewrite Z.shiftr_div_pow2 by lia. pose proof (Z.pow_pos_nonneg 2 (bit_width u - bit_width t) ltac:(lia) ltac:(lia)).
    apply (Z.div_unique_pos _ _ _ (2 ^ (bit_width u - bit_width t) - 1)); [lia|].
    replace (bit_width u) with (bit_width u - bit_width t + bit_width t) at 1 by lia. rewrite Z.pow_add_r by lia. ring.
Qed.

(** What the notation of an integer consists of: the base, what stands before
    the digits, the number the digits denote, and the size of the buffer they
    are written to. *)
Definition integer_notation (t : int_type) (v : Z) (o : FormattingOptions) : option (Z * list Z * Z * nat) :=
  let plus := if flag o SIGN_PLUS then [43] else [] in
  let prefix c := if flag o ALTERNATE then [48; c] else [] in
  let bits := v mod 2 ^ bit_width t in
  let u := format_unsigned t in
  match opt_presentation o with
  | Display | Debug => Some (10, if v <? 0 then [45] else plus, Z.abs v, decimal_capacity u)
  | LowerHex | UpperHex => Some (16, plus ++ prefix 120, bits, radix_capacity u)
  | Octal => Some (8, plus ++ prefix 111, bits, radix_capacity u)
  | LowerExp | UpperExp => None
  end.

(** Closes [Forall] goals about the literal bytes of the source. *)
Ltac ascii :=
  repeat match goal with |- context [if ?b then _ else _] => destruct b end;
  cbn [app]; repeat (apply List.Forall_cons; [lia|]); apply List.Forall_nil.

(** A notation whose digits are written by [pad_numeric]. *)
Lemma emits_notation (m : FmtM String) o base magnitude capacity prefix ds :
  opt_fill o < 128 -> Forall (fun c => 0 <= c < 128) prefix ->
  denotes base magnitude ds -> (length ds <= capacity)%nat ->
  (forall w, m (mkFormatter w o) = pad_numeric prefix ds 0 [] (mkFormatter w o)) ->
  exists ds l z r,
    denotes base magnitude ds /\ (length ds <= capacity)%nat /\
    numeric_padding o (target_width o - (length prefix + length ds)) l z r /\
    emits m o (replicate l (opt_fill o) ++ prefix ++ replicate z 48 ++ ds ++ replicate r (opt_fill o)).
Proof.
  intros Hf Hp Hd Hc Hm. destruct (emits_pad_numeric prefix ds o) as (l & z & r & Hn & He);
    [by apply text_ascii|by eapply denotes_text|done|].
  exists ds, l, z, r. split_and_all; [done..|]. intros w. by rewrite Hm, He.
Qed.

Lemma radix_notation t v p :
  wf_type t = true ->
  let ds := radix_digits (format_unsigned t) (integer_bits t v) p in
  denotes (match p with Octal => 8 | _ => 16 end) (v mod 2 ^ bit_width t) ds /\
  (length ds <= radix_capacity (format_unsigned t))%nat.
Proof.
  intros Hw. cbn zeta. destruct (format_unsigned_cases t Hw) as (Hu & Hle & Hs). pose proof (wf_type_width t Hw).
  rewrite integer_bits_exact by done. pose proof (Z.mod_pos_bound v (2 ^ bit_width t) ltac:(lia)).
  assert (2 ^ bit_width t <= 2 ^ bit_width (format_unsigned t)) by (apply Z.pow_le_mono_r; lia).
  split; [apply radix_digits_denotes|apply radix_digits_fit]; lia.
Qed.

(** An integer of any of the ten types formats to its notation: an
    optional sign and base prefix, the digits of its magnitude (in decimal)
    or of its two's-complement bits (in hexadecimal and octal) without leading
    zeros, padded to the width the way the options ask; the digits fit the
    buffer the writer fills.  Only the exponent presentations, which integers
    do not have, are refused. *)
Theorem integer_format_exact t v o :
  wf_type t = true -> in_range t v = true -> opt_fill o < 128 ->
  match integer_notation t v o with
  | Some (base, prefix, magnitude, capacity) =>
    exists ds l z r,
      denotes base magnitude ds /\ (length ds <= capacity)%nat /\
      numeric_padding o (target_width o - (length prefix + length ds)) l z r /\
      emits (integer_argument t v) o
        (replicate l (opt_fill o) ++ prefix ++ replicate z 48 ++ ds ++ replicate r (opt_fill o))
  | None => forall w : String, fst (integer_argument t v (mkFormatter w o)) = Fail tt
  end.
Proof.
  intros Hw Hr Hf. destruct (format_unsigned_cases t Hw) as (Hu & _).
  destruct (magnitude_exact t v Hw Hr) as (Hn & Hm & Ha).
  pose proof (decimal_digits_denotes _ _ Hu Hm) as Hd. pose proof (decimal_digits_fit _ _ Hu Hm) as Hc.
  unfold integer_notation. destruct (opt_presentation o) eqn:Ep;
    try (intros w; unfold integer_argument, bind, gets; cbn [options]; by rewrite Ep).
  1,2: rewrite Ha in Hd, Hc; eapply emits_notation; [done|ascii|exact Hd|exact Hc|intros w];
    unfold integer_argument, integer_display, write_integer_decimal, bind, gets; cbn [options];
    rewrite Ep; cbn zeta; by rewrite Ha, Hn.
  - destruct (radix_notation t v LowerHex Hw) as [Hx Hl].
    eapply emits_notation; [done|ascii|exact Hx|exact Hl|intros w].
    unfold integer_argument, write_integer_radix, bind, gets; cbn [options]. by rewrite Ep.
  - destruct (radix_notation t v UpperHex Hw) as [Hx Hl].
    eapply emits_notation; [done|ascii|exact Hx|exact Hl|intros w].
    unfold integer_argument, write_integer_radix, bind, gets; cbn [options]. by rewrite Ep.
  - destruct (radix_notation t v Octal Hw) as [Hx Hl].
    eapply emits_notation; [done|ascii|exact Hx|exact Hl|intros w].
    unfold integer_argument, write_integer_radix, bind, gets; cbn [options]. by rewrite Ep.
Qed.

Lemma integer_format_exact_witness :
  exists ds l z r, denotes 10 128 ds /\ (l + z + r)%nat = 4%nat /\
    emits (integer_argument i8 (-128)) (parse_spec (lit "*^8"))
      (replicate l 42 ++ [45] ++ replicate z 48 ++ ds ++ replicate r 42).
Proof.
  destruct (integer_format_exact i8 (-128) (parse_spec (lit "*^8"))
    eq_refl eq_refl ltac:(vm_compute; reflexivity)) as (ds & l & z & r & Hd & _ & [Hp _] & He).
  exists ds, l, z, r. split; [exact Hd|]. split; [|exact He]. rewrite Hp.
  enough (length ds = 3%nat) as Hl by (cbn [length]; rewrite Hl; vm_compute; reflexivity).
  pose proof (denotes_length 10 128 ds 3 ltac:(lia) Hd ltac:(vm_compute; reflexivity) ltac:(lia)) as H3.
  destruct Hd as (Hn & Hv & _). pose proof (numeral_range 10 ds ltac:(lia) Hn) as Hrg.
  change (Z.abs (-128)) with 128 in Hv. rewrite Hv in Hrg.
  destruct ds as [|a [|b [|c [|]]]]; [cbn in Hrg; lia|cbn in Hrg; lia|cbn in Hrg; lia|reflexivity|cbn in H3; lia].
Defined.

(** A fill character outside ASCII is not recognised: the specification
    parser looks for the alignment in the second byte.  The placeholder
    [{:é>5}] keeps no alignment, no fill and no width. *)
Theorem multibyte_fill_ignored :
  parse_spec (text_of [0xE9; 62; 53]) = default_options /\
  format (lit "{:" ++ text_of [0xE9; 62; 53] ++ lit "}") [str_argument (lit "x")] = lit "x".
Proof. split; vm_compute; reflexivity. Qed.

(** *** A placeholder without a specification *)

Lemma default_fill : opt_fill default_options < 128.
Proof. by vm_compute. Qed.

Lemma emits_unpadded m prefix ds l z r o :
  target_width o = 0%nat ->
  numeric_padding o (target_width o - (length prefix + length ds)) l z r ->
  emits m o (replicate l (opt_fill o) ++ prefix ++ replicate z 48 ++ ds ++ replicate r (opt_fill o)) ->
  emits m o (prefix ++ ds).
Proof.
  intros Hw [Hp _] He. rewrite Hw in Hp.
  assert (l = 0 /\ z = 0 /\ r = 0)%nat as (-> & -> & ->) by lia. cbn [replicate app] in He.
  by rewrite app_nil_r in He.
Qed.

Lemma emits_display t v :
  wf_type t = true -> in_range t v = true -> 0 <= v ->
  exists ds, denotes 10 v ds /\ emits (integer_argument t v) default_options ds.
Proof.
  intros Hw Hr Hv. destruct (format_unsigned_cases t Hw) as (Hu & _).
  destruct (magnitude_exact t v Hw Hr) as (Hn & Hm & Ha). rewrite Ha in Hm.
  pose proof (decimal_digits_denotes _ _ Hu Hm) as Hd. rewrite Z.abs_eq in Hd, Hm, Ha by done.
  destruct (emits_notation (integer_argument t v) default_options 10 v _ [] _ default_fill (List.Forall_nil _) Hd
    (le_n _)) as (ds & l & z & r & Hds & _ & Hp & He).
  { intros w. unfold integer_argument, integer_display, write_integer_decimal, bind, gets. cbn [options].
    change (opt_presentation default_options) with Display. cbn zeta. rewrite Ha, Hn.
    by rewrite (proj2 (Z.ltb_ge v 0)) by done. }
  exists ds. split; [done|]. by apply (emits_unpadded _ [] ds l z r).
Qed.

(** [fmt::format("{}", v)] *)
Lemma format_display t v :
  wf_type t = true -> in_range t v = true -> 0 <= v ->
  exists ds, denotes 10 v ds /\ format (lit "{}") [integer_argument t v] = ds.
Proof.
  intros Hw Hr Hv. destruct (emits_display t v Hw Hr Hv) as (ds & Hd & He). exists ds. split; [done|].
  unfold format, write_fmt. erewrite (emits_fmt_loop (lit "{}") _ (template_hole [] [] [] (not_elem_of_nil _) _ template_nil)
    _ [] _ (ds ++ [])).
  - cbn. apply app_nil_r.
  - apply text_ascii. repeat (apply List.Forall_cons; [cbn; lia|]). apply List.Forall_nil.
  - cbn. lia.
  - apply filled_argument; [exact He|constructor].
Unshelve. done.
Qed.

(** *** Digits as functions of the value *)

Definition decimal_text (v : Z) : list Z := decimal_digits u32 v.
Definition hex_text (v : Z) : list Z := radix_digits u32 v LowerHex.

Lemma narrow_unsigned t : wf_type t = true -> bit_width t <= 32 -> format_unsigned t = u32.
Proof. intros _ Hw. unfold format_unsigned. by rewrite (proj2 (Z.leb_le _ _)) by done. Qed.

Lemma decimal_text_denotes v : in_range u32 v = true -> denotes 10 v (decimal_text v).
Proof. apply decimal_digits_denotes. by left. Qed.

Lemma hex_text_denotes v : 0 <= v < 2 ^ 32 -> denotes 16 v (hex_text v).
Proof. intros Hv. by apply (radix_digits_denotes u32 v LowerHex). Qed.

(** A narrow unsigned integer in [{}] and in [{:x}]. *)
Lemma emits_decimal t v :
  wf_type t = true -> bit_width t <= 32 -> in_range t v = true -> 0 <= v ->
  in_range u32 v = true /\ emits (integer_argument t v) default_options (decimal_text v).
Proof.
  intros Hw Hb Hr Hv. pose proof (narrow_unsigned t Hw Hb) as Hu.
  destruct (magnitude_exact t v Hw Hr) as (Hn & Hm & Ha). rewrite Hu in Hm, Ha.
  rewrite Ha in Hm. rewrite Z.abs_eq in Ha, Hm by done. split; [done|].
  destruct (emits_pad_numeric [] (decimal_text v) default_options) as (l & z & r & Hp & He).
  - apply is_text_nil.
  - by eapply denotes_text, decimal_text_denotes.
  - apply default_fill.
  - apply (emits_unpadded _ [] _ l z r); [done..|]. intros w. rewrite <- He.
    unfold integer_argument, integer_display, write_integer_decimal, bind, gets. cbn [options].
    change (opt_presentation default_options) with Display. cbn zeta. rewrite Hu, Ha, Hn.
    by rewrite (proj2 (Z.ltb_ge v 0)) by done.
Qed.

Definition hex_options : FormattingOptions := parse_spec (skip_arg_id (lit ":x")).

Lemma emits_hex t v :
  wf_type t = true -> bit_width t <= 32 -> is_signed t = false -> in_range t v = true ->
  0 <= v < 2 ^ bit_width t /\ emits (integer_argument t v) hex_options (hex_text v).
Proof.
  intros Hw Hb Hs Hr. pose proof (narrow_unsigned t Hw Hb) as Hu. pose proof (wf_type_width t Hw).
  assert (0 <= v < 2 ^ bit_width t) as Hv by (unfold in_range, MIN, MAX in Hr; rewrite Hs in Hr; lia).
  split; [done|].
  assert (integer_bits t v = v) as Hbits by (rewrite integer_bits_exact by done; by apply Z.mod_small).
  destruct (emits_pad_numeric [] (hex_text v) hex_options) as (l & z & r & Hp & He).
  - apply is_text_nil.
  - eapply denotes_text, hex_text_denotes. split; [lia|]. apply (Z.lt_le_trans _ _ _ (proj2 Hv)), Z.pow_le_mono_r; lia.
  - by vm_compute.
  - apply (emits_unpadded _ [] _ l z r); [done..|]. intros w. rewrite <- He.
    unfold integer_argument, write_integer_radix, bind, gets. cbn [options].
    change (opt_presentation hex_options) with LowerHex. cbn zeta. by rewrite Hu, Hbits.
Qed.

Lemma emits_write_fmt fmt ps args out o :
  template fmt ps -> Forall (fun c => 0 <= c < 128) fmt -> filled ps args out -> emits (write_fmt fmt args) o out.
Proof.
  intros Ht Ha Hf. apply (emits_fmt_loop fmt ps Ht _ [] args out o); [by apply text_ascii|lia|done].
Qed.

Lemma emits_str s o : emits (write_str s) o s.
Proof. intros w. done. Qed.

(** Recognises the template of a literal format string with the placeholders
    [{}] and [{:x}]. *)
Ltac template :=
  repeat first
    [ apply template_nil
    | refine (template_hole [] _ _ (not_elem_of_nil _) _ _); [done|]
    | refine (template_hole [58; 120] _ _ _ _ _); [rewrite !not_elem_of_cons; split_and_all; [lia|lia|apply not_elem_of_nil]|done|]
    | apply template_char; [lia|lia|] ].
