(* ===== verification/FmtSink.v ===== *)
(** * Sinks with limited room

    [FmtSpec.emits] is about strings, which take any text.  A [Roomy] sink
    takes texts as long as there is room; what a computation [delivers] it
    writes to every such sink, strings among them. *)

From Stdlib Require Import ZArith Lia ZifyBool.
From S2P Require Import Prelude Int Utf8 Fmt FmtSpec.
Local Open Scope Z_scope.
Local Open Scope rstd_scope.

(** [room w n]: [n] more bytes fit. *)
Class Roomy (W : Type) `{Write W} := {
  after : W -> list Z -> W;
  room : W -> nat -> Prop;
  after_nil w : after w [] = w;
  after_app w a b : after (after w a) b = after w (a ++ b);
  room_write w s : room w (length s) -> write_sink w s = (after w s, true);
  room_split w s n : room w (length s + n) -> room w (length s) /\ room (after w s) n;
}.

#[export] Instance string_roomy : Roomy String.
Proof.
  refine {| after := fun w s => w ++ s; room := fun _ _ => True |}; intros; [apply app_nil_r|symmetry; apply app_assoc|done|done].
Defined.

Section Delivers.
Context {W : Type} `{Roomy W}.

Definition delivers (m : FmtM W) (o : FormattingOptions) (out : list Z) : Prop :=
  forall w, room w (length out) -> m (mkFormatter w o) = (Ret tt, mkFormatter (after w out) o).

Lemma delivers_ret o : delivers (ret tt) o [].
Proof. intros w _. by rewrite after_nil. Qed.

Lemma delivers_seq (m k : FmtM W) o a b : delivers m o a -> delivers k o b -> delivers (do* m;; k) o (a ++ b).
Proof.
  intros Hm Hk w Hr. rewrite length_app in Hr. apply room_split in Hr as [Hr1 Hr2].
  unfold bind. rewrite Hm, Hk by done. by rewrite after_app.
Qed.

Lemma delivers_gets (k : FormattingOptions -> FmtM W) o out :
  delivers (k o) o out -> delivers (let* o := gets options in k o) o out.
Proof. intros Hk w. apply Hk. Qed.

Lemma delivers_str s o : delivers (write_str s) o s.
Proof. intros w Hr. unfold write_str. cbn. by rewrite room_write. Qed.

Lemma delivers_raw s o : is_text s -> delivers (write_raw s) o s.
Proof. intros Hs. unfold write_raw. rewrite is_valid_utf8_text by done. apply delivers_str. Qed.

Lemma delivers_some s o : is_text s -> delivers (write_some s) o s.
Proof. intros Hs. unfold write_some. destruct s; [apply delivers_ret|]. by apply delivers_raw. Qed.

Lemma delivers_repeat v n o : 0 <= v < 128 -> delivers (write_repeat v n) o (replicate n v).
Proof.
  intros Hv. unfold write_repeat. enough (forall fuel n, (n < fuel)%nat ->
    delivers (write_repeat_loop fuel v n) o (replicate n v)) as He by (apply He; lia).
  induction fuel as [|fuel IH]; intros k Hk; [lia|]. cbn [write_repeat_loop].
  destruct (Nat.eqb_spec k 0) as [->|]; [apply delivers_ret|].
  set (chunk := if (k <? 64)%nat then k else 64%nat).
  assert (0 < chunk <= k)%nat by (subst chunk; case_if; [lia|apply Nat.ltb_ge in Heqb; lia]).
  replace (replicate k v) with (replicate chunk v ++ replicate (k - chunk) v)
    by (rewrite <- replicate_add; f_equal; lia).
  apply delivers_seq; [by apply delivers_raw, text_replicate|]. apply IH. lia.
Qed.

Lemma delivers_options o o' a out : delivers a o' out -> delivers (with_options o' a) o out.
Proof. intros Ha w Hr. unfold with_options. cbn. by rewrite Ha. Qed.

Lemma delivers_number sign ds n e o : is_text sign -> is_text ds -> is_text e -> target_width o = 0%nat ->
  delivers (pad_numeric sign ds n e) o (sign ++ ds ++ replicate n 48 ++ e).
Proof.
  intros Hs Hd He Hw. unfold pad_numeric. apply delivers_gets. rewrite Hw. cbn [Nat.leb].
  unfold write_number. repeat apply delivers_seq; try by apply delivers_some. apply delivers_repeat. lia.
Qed.

(** A format string that is one placeholder. *)
Lemma delivers_hole inner a o out : ~ 125 ∈ inner -> head inner <> Some 123 ->
  delivers a (parse_spec (skip_arg_id inner)) out -> delivers (write_fmt (123 :: inner ++ [125]) [a]) o out.
Proof.
  intros H125 H123 Ha. unfold write_fmt. cbn [write_fmt_loop length]. change (123 =? 123) with true. cbn iota.
  replace (match inner ++ [125] with c' :: _ => c' =? 123 | [] => false end) with false.
  2:{ destruct inner as [|c inner]; [done|]. cbn in H123 |- *. symmetry. apply Z.eqb_neq. congruence. }
  rewrite scan_brace_app by done. apply (delivers_seq _ _ _ []); [apply delivers_ret|].
  rewrite <- (app_nil_r out). apply delivers_seq; [by apply delivers_options|].
  apply delivers_ret.
Qed.
End Delivers.

Lemma delivers_string (m : FmtM String) o out : delivers m o out <-> emits m o out.
Proof. split; [intros Hm w; exact (Hm w I)|intros Hm w _; apply Hm]. Qed.
