(* ===== verification/StringBuf.v ===== *)
(** * Owned strings: [alloc::string::String]

    Models [src/alloc/src/string.cpp]: a [String] owns a vector of bytes, the
    list of them; its capacity has no effect on its contents and is left out.
    The operations are computations over the string; an assertion that fails
    and [rstd::panic] are [Panic].  The specification reads a string as the
    sequence of its characters, and every operation on bytes implements the
    operation on characters. *)

From Stdlib Require Import ZArith Lia ZifyBool Ascii.
From stdpp Require Import strings.
From S2P Require Import Prelude Utf8 Str Fmt.
Local Open Scope Z_scope.
Local Open Scope rstd_scope.

(** ** Operations *)

Record FromUtf8Error := mkFromUtf8Error { error_bytes : list Z; utf8_error : Utf8Error }.

Abbreviation StringM A := (M String unit A).

Definition make (value : list Z) : String := value.
Definition as_str (s : String) : list Z := s.
Definition clone (s : String) : String := make (as_str s).
Definition from_utf8_unchecked (bytes : list Z) : String := bytes.

Definition string_from_utf8 (bytes : list Z) : result String FromUtf8Error :=
  match validate_utf8 bytes with
  | Err e => Err (mkFromUtf8Error bytes e)
  | Ok _ => Ok bytes
  end.

Definition into_bytes (s : String) : list Z := s.

Definition clone_from (source : String) : StringM unit := modify (fun _ => clone source).

(** [Vec::extend_from_slice], [Vec::push], [Vec::pop]. *)
Definition extend_from_slice (bytes : list Z) : StringM unit := modify (fun vec => vec ++ bytes).

Definition push_str (value : list Z) : StringM unit :=
  if (length value =? 0)%nat then ret tt else extend_from_slice value.

Definition push_ascii (value : Z) : StringM unit :=
  if negb (value <=? 0x7F) then panic else modify (fun vec => vec ++ [value]).

Definition push_char (value : Z) : StringM unit := extend_from_slice (encode_utf8 value).

(** [Char::from_char32] *)
Definition from_char32 (code_point : Z) : option Z :=
  if is_scalar code_point then Some code_point else None.

Definition push_char32 (code_point : Z) : StringM unit :=
  let* value := of_option (from_char32 code_point) in
  push_char value.

(** [rstd_assert] *)
Definition assert (b : bool) : StringM unit := if b then ret tt else panic.

(** [while (vec.len() > new_len) vec.pop()] *)
Fixpoint pop_loop (fuel : nat) (new_len : nat) (vec : list Z) : list Z :=
  match fuel with
  | O => vec
  | S fuel => if (new_len <? length vec)%nat then pop_loop fuel new_len (removelast vec) else vec
  end.

Definition truncate (new_len : nat) : StringM unit :=
  let* vec := gets as_str in
  if (length vec <=? new_len)%nat then ret tt
  else
    do* assert (is_char_boundary vec new_len);;
    modify (fun vec => pop_loop (length vec) new_len vec).

Definition replace_range (start stop : nat) (replacement : list Z) : StringM unit :=
  let* current := gets as_str in
  do* assert ((start <=? stop)%nat && (stop <=? length current)%nat);;
  do* assert (is_char_boundary current start);;
  do* assert (is_char_boundary current stop);;
  let result := [] in
  let result := if negb (start =? 0)%nat then result ++ take start current else result in
  let result := result ++ replacement in
  let result := if negb (stop =? length current)%nat
                then result ++ take (length current - stop) (drop stop current) else result in
  modify (fun _ => result).

Definition insert_str (index : nat) (value : list Z) : StringM unit := replace_range index index value.

Definition insert_char (index : nat) (value : Z) : StringM unit := insert_str index (encode_utf8 value).

Definition insert_char32 (index : nat) (code_point : Z) : StringM unit :=
  let* value := of_option (from_char32 code_point) in
  insert_char index value.

(** ** Formatting *)

Section Display.
Context {W : Type} `{Write W}.

Definition string_display (s : String) : FmtM W := pad (as_str s).

(** [Impl<fmt::Debug, ref<str>>] *)
Definition str_debug (value : list Z) : FmtM W :=
  do* write_raw [34];; do* write_raw value;; write_raw [34].

Definition string_debug (s : String) : FmtM W := str_debug (as_str s).

(** [str_error_detail::write_usize]: the digits in reverse, then reversed in
    place; twenty digits are enough for a [usize]. *)
Fixpoint usize_digits (fuel : nat) (raw : Z) : list Z :=
  match fuel with
  | O => []
  | S fuel => (48 + raw mod 10) :: if raw / 10 =? 0 then [] else usize_digits fuel (raw / 10)
  end.

Definition write_usize (value : Z) : FmtM W := write_raw (reverse (usize_digits 20 value)).

Definition utf8_error_display (e : Utf8Error) : FmtM W :=
  match error_len e with
  | Some len =>
    do* write_raw (lit "invalid utf-8 sequence of ");;
    do* write_usize len;;
    do* write_raw (lit " bytes from index ");;
    write_usize (Z.of_nat (valid_up_to e))
  | None =>
    do* write_raw (lit "incomplete utf-8 byte sequence from index ");;
    write_usize (Z.of_nat (valid_up_to e))
  end.

Definition utf8_error_debug (e : Utf8Error) : FmtM W :=
  do* write_raw (lit "Utf8Error { valid_up_to: ");;
  do* write_usize (Z.of_nat (valid_up_to e));;
  do* write_raw (lit ", error_len: ");;
  do* match error_len e with
      | Some len =>
        do* write_raw (lit "Some(");; do* write_usize len;; write_raw (lit ")")
      | None => write_raw (lit "None")
      end;;
  write_raw (lit " }").

Definition from_utf8_error_display (e : FromUtf8Error) : FmtM W := utf8_error_display (utf8_error e).

Definition from_utf8_error_debug (e : FromUtf8Error) : FmtM W :=
  do* write_raw (lit "FromUtf8Error { error: ");;
  do* utf8_error_debug (utf8_error e);;
  write_raw (lit " }").

(** A call whose result is not looked at. *)
Definition ignore (m : FmtM W) : FmtM W := fun f => (Ret tt, snd (m f)).

(** [Impl<fmt::Display, char const*>] on the bytes before the terminator. *)
Definition c_string_display (value : list Z) : FmtM W := write_raw value.

Definition c_string_debug (value : list Z) : FmtM W :=
  do* ignore (write_raw [34]);;
  do* ignore (c_string_display value);;
  write_raw [34].

End Display.

(** [Impl<fmt::Write, String>] *)
Definition string_write_str (value : list Z) : StringM bool := do* push_str value;; ret true.

(** ** A string as a sequence of characters *)

(** The operations with their arguments. *)
Inductive string_op :=
| PushStr (value : list Z)
| PushAscii (value : Z)
| PushChar32 (code_point : Z)
| Truncate (new_len : nat)
| ReplaceRange (start stop : nat) (replacement : list Z)
| InsertStr (index : nat) (value : list Z)
| InsertChar32 (index : nat) (code_point : Z).

Definition exec (op : string_op) : StringM unit :=
  match op with
  | PushStr value => push_str value
  | PushAscii value => push_ascii value
  | PushChar32 code_point => push_char32 code_point
  | Truncate new_len => truncate new_len
  | ReplaceRange start stop replacement => replace_range start stop replacement
  | InsertStr index value => insert_str index value
  | InsertChar32 index code_point => insert_char32 index code_point
  end.

(** The types of the arguments: a [ref<str>] is well-formed text, a [u8] a
    byte, a [char32_t] is not negative. *)
Definition op_typed (op : string_op) : Prop :=
  match op with
  | PushStr value | ReplaceRange _ _ value | InsertStr _ value => is_text value
  | PushAscii value => 0 <= value < 256
  | PushChar32 c | InsertChar32 _ c => 0 <= c
  | Truncate _ => True
  end.

(** The number of characters before byte offset [i], when it lies between
    two characters. *)
Fixpoint char_index (cs : list Z) (i : nat) : option nat :=
  if (i =? 0)%nat then Some 0%nat
  else
    match cs with
    | [] => None
    | c :: cs => if (i <? len_utf8 c)%nat then None else S <$> char_index cs (i - len_utf8 c)
    end.

Definition replace_chars (cs : list Z) (start stop : nat) (replacement : list Z) : option (list Z) :=
  match char_index cs start, char_index cs stop with
  | Some a, Some b => if (a <=? b)%nat then Some (take a cs ++ replacement ++ drop b cs) else None
  | _, _ => None
  end.

(** What an operation does to the characters; [None] when it panics. *)
Definition exec_chars (op : string_op) (cs : list Z) : option (list Z) :=
  match op with
  | PushStr value => Some (cs ++ chars value)
  | PushAscii value => if value <? 128 then Some (cs ++ [value]) else None
  | PushChar32 c => if is_scalar c then Some (cs ++ [c]) else None
  | Truncate new_len =>
    if (length (text_of cs) <=? new_len)%nat then Some cs
    else match char_index cs new_len with Some n => Some (take n cs) | None => None end
  | ReplaceRange start stop replacement => replace_chars cs start stop (chars replacement)
  | InsertStr index value => replace_chars cs index index (chars value)
  | InsertChar32 index c => if is_scalar c then replace_chars cs index index [c] else None
  end.

(** Sequences of operations. *)
Fixpoint exec_all (ops : list string_op) : StringM unit :=
  match ops with
  | [] => ret tt
  | op :: ops => do* exec op;; exec_all ops
  end.

Fixpoint exec_chars_all (ops : list string_op) (cs : list Z) : option (list Z) :=
  match ops with
  | [] => Some cs
  | op :: ops => match exec_chars op cs with Some cs => exec_chars_all ops cs | None => None end
  end.

(** ** Offsets between characters *)

Lemma chars_text cs : scalars cs -> chars (text_of cs) = cs.
Proof. intros H. unfold chars. by apply chars_encode. Qed.

Lemma text_of_cons c cs : text_of (c :: cs) = encode_utf8 c ++ text_of cs.
Proof. done. Qed.

Lemma text_chars s : is_text s -> exists cs, scalars cs /\ s = text_of cs.
Proof. done. Qed.

Lemma char_index_spec cs i n :
  scalars cs -> char_index cs i = Some n ->
  (n <= length cs)%nat /\ i = length (text_of (take n cs)).
Proof.
  intros Hcs. revert i n. induction Hcs as [|c cs [Hs Hc] Hcs IH]; intros i n; cbn [char_index];
    destruct (Nat.eqb_spec i 0) as [->|Hi]; try (by intros [= <-]; split; [lia|]).
  { done. }
  destruct (Nat.ltb_spec i (len_utf8 c)); [done|].
  destruct (char_index cs (i - len_utf8 c)) as [m|] eqn:E; [|done]. intros [= <-].
  destruct (IH _ _ E) as [Hm Hl]. cbn [length take]. split; [lia|].
  rewrite text_of_cons, length_app, encode_utf8_length by done. lia.
Qed.

Lemma char_index_boundary cs i :
  scalars cs -> is_char_boundary (text_of cs) i = bool_decide (is_Some (char_index cs i)).
Proof.
  intros Hcs. revert i. induction Hcs as [|c cs [Hs Hc] Hcs IH]; intros i; cbn [char_index].
  { unfold is_char_boundary. cbn. by destruct i. }
  destruct (Nat.eqb_spec i 0) as [->|Hi]; [by destruct (text_of (c :: cs))|].
  pose proof (encode_seq c Hc Hs) as Hq. rewrite text_of_cons, <- (encode_utf8_length c) by done.
  destruct (Nat.ltb_spec i (length (encode_utf8 c))) as [Hlt|Hge].
  - unfold is_char_boundary. rewrite length_app, lookup_app_l by done.
    rewrite (seq_tail_continuation c) by (done || lia).
    rewrite (proj2 (Nat.eqb_neq i 0)), (proj2 (Nat.eqb_neq i _)), (proj2 (Nat.ltb_ge _ i)) by lia. done.
  - rewrite (is_char_boundary_app_seq c) by (done || by apply text_of_text). rewrite IH.
    apply bool_decide_ext. by destruct (char_index cs _).
Qed.

Lemma char_index_split cs i n :
  scalars cs -> char_index cs i = Some n ->
  take i (text_of cs) = text_of (take n cs) /\ drop i (text_of cs) = text_of (drop n cs) /\
  (i <= length (text_of cs))%nat.
Proof.
  intros Hcs E. destruct (char_index_spec cs i n Hcs E) as [Hn ->].
  assert (text_of cs = text_of (take n cs) ++ text_of (drop n cs)) as ->
    by (by rewrite <- text_of_app, take_drop).
  rewrite take_app_length, drop_app_length, length_app. split_and_all; [done..|lia].
Qed.

(** The order of offsets is the order of the characters they lie before. *)
Lemma char_index_le cs i j a b :
  scalars cs -> char_index cs i = Some a -> char_index cs j = Some b -> (i <= j)%nat <-> (a <= b)%nat.
Proof.
  intros Hcs Ha Hb. destruct (char_index_spec _ _ _ Hcs Ha) as [Hla ->].
  destruct (char_index_spec _ _ _ Hcs Hb) as [Hlb ->].
  assert (forall a b, (a <= b)%nat -> exists s, text_of (take b cs) = text_of (take a cs) ++ s) as Hmono.
  { intros x y Hxy. exists (text_of (drop x (take y cs))).
    rewrite <- text_of_app. f_equal. rewrite <- (take_drop x (take y cs)) at 1. f_equal.
    rewrite take_take. f_equal. lia. }
  split; intros H.
  - destruct (decide (a <= b)%nat); [done|]. exfalso.
    destruct (Hmono (S b) a ltac:(lia)) as [s Hs]. rewrite Hs, length_app in H.
    destruct (lookup_lt_is_Some_2 cs b ltac:(lia)) as [c Hc].
    rewrite (take_S_r _ _ _ Hc), text_of_app, length_app in H.
    pose proof (proj1 (Forall_lookup _ cs) Hcs b c Hc) as [Hsc H0].
    pose proof (seq_nonempty _ _ (encode_seq c H0 Hsc)). rewrite text_of_cons, length_app in H. lia.
  - destruct (Hmono a b H) as [s ->]. rewrite length_app. lia.
Qed.

Lemma pop_loop_take fuel n vec : (length vec <= n + fuel)%nat -> pop_loop fuel n vec = take n vec.
Proof.
  revert vec. induction fuel as [|fuel IH]; intros vec Hf; cbn [pop_loop]; [by rewrite take_ge by lia|].
  destruct (Nat.ltb_spec n (length vec)); [|by rewrite take_ge by lia].
  destruct vec as [|c vec _] using rev_ind; [cbn in *; lia|]. rewrite length_app in *. cbn in *.
  rewrite removelast_last, IH by lia. by rewrite take_app_le by lia.
Qed.

(** ** Every operation implements the operation on characters *)

(** The byte-level computation [m] does to the text of [cs] what [r] says. *)
Definition implements (m : StringM unit) (cs : list Z) (r : option (list Z)) : Prop :=
  match r with
  | Some cs' => scalars cs' /\ m (text_of cs) = (Ret tt, text_of cs')
  | None => fst (m (text_of cs)) = Panic
  end.

Lemma implements_replace cs start stop replacement :
  scalars cs -> scalars replacement ->
  implements (replace_range start stop (text_of replacement)) cs (replace_chars cs start stop replacement).
Proof.
  intros Hcs Hr. unfold replace_range, replace_chars, bind, gets, as_str, assert, implements.
  destruct ((start <=? stop)%nat && (stop <=? length (text_of cs))%nat) eqn:Hb; cycle 1.
  { cbn. destruct (char_index cs start) as [a|] eqn:Ea; [|done]. destruct (char_index cs stop) as [b|] eqn:Eb; [|done].
    pose proof (char_index_le cs _ _ _ _ Hcs Ea Eb) as Hle. destruct (char_index_split _ _ _ Hcs Eb) as (_ & _ & Hl).
    destruct (Nat.leb_spec a b); [|done]. apply Hle in H. apply andb_false_iff in Hb as [?%Nat.leb_gt|?%Nat.leb_gt]; lia. }
  cbn. rewrite !char_index_boundary by done. apply andb_true_iff in Hb as [Hle%Nat.leb_le Hl%Nat.leb_le].
  destruct (char_index cs start) as [a|] eqn:Ea; [|done]. cbn.
  destruct (char_index cs stop) as [b|] eqn:Eb; [|done]. cbn.
  pose proof (char_index_le cs _ _ _ _ Hcs Ea Eb) as Hab. rewrite (proj2 (Nat.leb_le a b)) by tauto.
  destruct (char_index_split _ _ _ Hcs Ea) as (Hta & _ & _). destruct (char_index_split _ _ _ Hcs Eb) as (_ & Hdb & _).
  split. { apply Forall_app. split; [by apply scalars_take|]. apply Forall_app. split; [done|by apply scalars_drop]. }
  unfold modify. f_equal. rewrite !text_of_app, <- Hta, <- Hdb.
  rewrite (take_ge (drop stop _)) by (rewrite length_drop; lia).
  destruct (Nat.eqb_spec start 0) as [->|]; cbn [negb app]; (destruct (Nat.eqb_spec stop (length (text_of cs))) as [->|];
    cbn [negb]; rewrite ?drop_all, ?app_nil_r, ?take_0, ?app_assoc; done).
Qed.

Lemma implements_exec op cs : scalars cs -> op_typed op -> implements (exec op) cs (exec_chars op cs).
Proof.
  intros Hcs. destruct op; cbn [op_typed exec exec_chars]; intros Ht.
  - destruct (text_chars _ Ht) as (vs & Hvs & ->). rewrite chars_text by done.
    split; [by apply Forall_app|]. rewrite text_of_app. unfold push_str.
    destruct (Nat.eqb_spec (length (text_of vs)) 0) as [E|]; [|done].
    apply nil_length_inv in E. rewrite E, app_nil_r. done.
  - unfold push_ascii. destruct (Z.ltb_spec value 128); cycle 1.
    { by rewrite (proj2 (Z.leb_gt value 127)) by lia. }
    rewrite (proj2 (Z.leb_le value 127)) by lia. assert (is_scalar value = true) by (unfold is_scalar; lia).
    split; [apply Forall_app; split; [done|apply Forall_singleton; split; [done|lia]]|]. rewrite text_of_app. unfold modify.
    change (text_of [value]) with (encode_utf8 value ++ []).
    by rewrite app_nil_r, <- (seq_encode value [value]) by (apply seq1; lia).
  - unfold push_char32, from_char32, of_option, bind, push_char. destruct (is_scalar code_point) eqn:Es; [|done].
    split; [apply Forall_app; split; [done|apply Forall_singleton; split; [done|lia]]|]. rewrite text_of_app. cbn. by rewrite app_nil_r.
  - unfold truncate, bind, gets, as_str, assert, implements.
    destruct (Nat.leb_spec (length (text_of cs)) new_len); [done|]. rewrite char_index_boundary by done.
    destruct (char_index cs new_len) as [n|] eqn:E; [|done]. cbn.
    split; [by apply scalars_take|]. unfold modify. rewrite pop_loop_take by lia.
    by destruct (char_index_split _ _ _ Hcs E) as (-> & _).
  - destruct (text_chars _ Ht) as (vs & Hvs & ->). rewrite chars_text by done. by apply implements_replace.
  - destruct (text_chars _ Ht) as (vs & Hvs & ->). rewrite chars_text by done. by apply implements_replace.
  - unfold insert_char32, from_char32, of_option, bind, insert_char, insert_str.
    destruct (is_scalar code_point) eqn:Es; [|done]. cbn.
    replace (encode_utf8 code_point) with (text_of [code_point]) by (cbn; by rewrite app_nil_r).
    apply implements_replace; [done|apply Forall_singleton; split; [done|lia]].
Qed.

(** C37: a [String] is a sequence of characters.  Any sequence of operations
    on the bytes of a string does what the operations on its characters do:
    appending, truncating, replacing a range and inserting act on whole
    characters, the string stays well-formed UTF-8, and the operations panic
    exactly when a byte offset does not lie between two characters of the
    string, a range is reversed or out of bounds, or an argument is not a
    character (for [push_ascii], not an ASCII one). *)
Theorem string_refines_characters ops cs :
  scalars cs -> Forall op_typed ops ->
  match exec_chars_all ops cs with
  | Some cs' => scalars cs' /\ exec_all ops (text_of cs) = (Ret tt, text_of cs')
  | None => fst (exec_all ops (text_of cs)) = Panic
  end.
Proof.
  intros Hcs Hops. revert cs Hcs. induction Hops as [|op ops Hop Hops IH]; intros cs Hcs; [done|].
  cbn [exec_chars_all exec_all]. pose proof (implements_exec op cs Hcs Hop) as Hi. unfold implements in Hi. unfold bind.
  destruct (exec_chars op cs) as [cs'|].
  - destruct Hi as [Hcs' ->]. by apply IH.
  - destruct (exec op (text_of cs)) as [x s]. cbn in Hi. by subst x.
Qed.

Lemma string_refines_characters_witness :
  exec_all [PushChar32 0xE9; InsertStr 0 (lit "ab"); ReplaceRange 1 4 (lit "-"); Truncate 1] (text_of []) = (Ret tt, lit "a") /\
  fst (exec_all [PushChar32 0xE9; Truncate 1] (text_of [])) = Panic.
Proof.
  assert (Forall op_typed [PushChar32 0xE9; InsertStr 0 (lit "ab"); ReplaceRange 1 4 (lit "-"); Truncate 1]) as H1.
  { repeat (apply List.Forall_cons; [cbn [op_typed]; (exact I || lia ||
      (apply text_ascii; repeat (apply List.Forall_cons; [cbn; lia|]); apply List.Forall_nil))|]). apply List.Forall_nil. }
  assert (Forall op_typed [PushChar32 0xE9; Truncate 1]) as H2.
  { repeat (apply List.Forall_cons; [cbn [op_typed]; (exact I || lia)|]). apply List.Forall_nil. }
  pose proof (string_refines_characters _ [] (List.Forall_nil _) H1) as R1.
  pose proof (string_refines_characters _ [] (List.Forall_nil _) H2) as R2.
  assert (exec_chars_all [PushChar32 0xE9; InsertStr 0 (lit "ab"); ReplaceRange 1 4 (lit "-"); Truncate 1] [] = Some [97])
    as E1 by (vm_compute; reflexivity).
  assert (exec_chars_all [PushChar32 0xE9; Truncate 1] [] = None) as E2 by (vm_compute; reflexivity).
  rewrite E1 in R1. rewrite E2 in R2. split; [exact (proj2 R1)|exact R2].
Defined.
