(* ===== verification/Duration.v ===== *)
(** * The text of a duration

    Models [Impl<fmt::Debug, time::Duration>] of [src/alloc/src/string.cpp]:
    a duration prints in the largest unit it reaches, with the fraction of
    that unit cut after its last non-zero digit. *)

From Stdlib Require Import ZArith Lia ZifyBool Ascii.
From stdpp Require Import strings.
From S2P Require Import Prelude Int Utf8 Fmt FmtInteger FmtSpec StringBuf.
Local Open Scope Z_scope.
Local Open Scope rstd_scope.

Definition NANOS_PER_SEC : Z := 1000000000.
Definition NANOS_PER_MILLI : Z := 1000000.
Definition NANOS_PER_MICRO : Z := 1000.

(** [_secs] is a [u64]; the type keeps [_nanos < NANOS_PER_SEC]. *)
Record Duration := mkDuration { as_secs : Z; subsec_nanos : Z }.

Definition duration_ok (d : Duration) : Prop :=
  in_range u64 (as_secs d) = true /\ 0 <= subsec_nanos d < NANOS_PER_SEC.

(** [for (index = n - 1; index >= 0; --index)
       { fraction[index] = '0' + remaining % 10; remaining /= 10; }] *)
Fixpoint fraction_loop (n : nat) (remaining : Z) (fraction : list Z) : list Z :=
  match n with
  | O => fraction
  | S n => fraction_loop n (remaining / 10) ((48 + remaining mod 10) :: fraction)
  end.

(** [while (length > 1 && fraction[length - 1] == '0') --length] *)
Fixpoint trim_loop (fraction : list Z) (len : nat) : nat :=
  match len with
  | S (S len' as len1) =>
    if default 0 (fraction !! len1) =? 48 then trim_loop fraction len1 else len
  | _ => len
  end.

Section Debug.
Context {W : Type} `{Write W}.

(** The whole part and, unless it is zero, the fraction of [n] digits; the
    results of these writes are not looked at. *)
Definition write_whole (t : int_type) (value : Z) : FmtM W :=
  ignore (write_raw (format (lit "{}") [integer_argument t value])).

Definition write_fraction (n : nat) (remaining : Z) : FmtM W :=
  if negb (remaining =? 0) then
    let fraction := fraction_loop n remaining [] in
    let length := trim_loop fraction n in
    do* ignore (write_raw (lit "."));;
    ignore (write_raw (take length fraction))
  else ret tt.

Definition duration_debug (d : Duration) : FmtM W :=
  let secs := as_secs d in
  let nanos := subsec_nanos d in
  if 0 <? secs then
    do* write_whole u64 secs;;
    do* write_fraction 9 nanos;;
    write_raw (lit "s")
  else if NANOS_PER_MILLI <=? nanos then
    do* write_whole u32 (nanos / NANOS_PER_MILLI);;
    do* write_fraction 6 (nanos mod NANOS_PER_MILLI);;
    write_raw (lit "ms")
  else if NANOS_PER_MICRO <=? nanos then
    do* write_whole u32 (nanos / NANOS_PER_MICRO);;
    do* write_fraction 3 (nanos mod NANOS_PER_MICRO);;
    write_raw (lit "us")
  else
    do* write_whole u32 nanos;;
    write_raw (lit "ns").

End Debug.

(** ** The fraction *)

Lemma fraction_loop_app n r acc : fraction_loop n r acc = fraction_loop n r [] ++ acc.
Proof.
  revert r acc. induction n as [|n IH]; intros r acc; [done|]. cbn [fraction_loop].
  rewrite IH, (IH _ [_]). by rewrite <- app_assoc.
Qed.

Lemma duration_fraction_loop_spec n r :
  0 <= r < 10 ^ Z.of_nat n ->
  is_numeral 10 (fraction_loop n r []) /\ numeral 10 (fraction_loop n r []) = r /\
  length (fraction_loop n r []) = n.
Proof.
  enough (forall cursor, is_numeral 10 cursor -> 0 <= r < 10 ^ Z.of_nat n ->
    is_numeral 10 (fraction_loop n r cursor) /\
    numeral 10 (fraction_loop n r cursor) = r * 10 ^ Z.of_nat (length cursor) + numeral 10 cursor /\
    length (fraction_loop n r cursor) = (n + length cursor)%nat) as He.
  { intros Hr. destruct (He [] ltac:(constructor) Hr) as (Hn & Hv & Hl). cbn [length] in *.
    split_and_all; [done| |lia]. rewrite Hv. unfold numeral. cbn. lia. }
  revert r. induction n as [|n IH]; intros r cursor Hc Hr; cbn [fraction_loop].
  { cbn in Hr. replace r with 0 by lia. split_and_all; [done|lia|done]. }
  rewrite Nat2Z.inj_succ, Z.pow_succ_r in Hr by lia. pose proof (Z.mod_pos_bound r 10 ltac:(lia)).
  destruct (decimal_char (r mod 10)) as [Hx Hv]; [done|].
  destruct (IH (r / 10) ((48 + r mod 10) :: cursor)) as (Hn & Hval & Hl).
  - constructor; [split; [done|lia]|done].
  - split; [apply Z.div_pos; lia|apply Z.div_lt_upper_bound; lia].
  - split_and_all; [done| |rewrite Hl; cbn [length]; lia].
    rewrite Hval, numeral_cons, Hv. cbn [length]. rewrite Nat2Z.inj_succ, Z.pow_succ_r by lia.
    rewrite (Z.div_mod r 10) at 3 by lia. ring.
Qed.

Lemma numeral_app_zero base ds : numeral base (ds ++ [48]) = numeral base ds * base.
Proof. unfold numeral. rewrite foldl_app. cbn. lia. Qed.

(** What a cut keeps: digits not ending in zero, with the same value once the
    zeros are put back. *)
Definition cut_of (ds fs : list Z) : Prop :=
  is_numeral 10 fs /\ list.last fs <> Some 48 /\ fs <> [] /\ (length fs <= length ds)%nat /\
  numeral 10 ds = numeral 10 fs * 10 ^ Z.of_nat (length ds - length fs).

Lemma cut_of_self ds c :
  is_numeral 10 (ds ++ [c]) -> c <> 48 -> cut_of (ds ++ [c]) (ds ++ [c]).
Proof.
  intros Hn Hc. unfold cut_of. rewrite Nat.sub_diag, Z.pow_0_r, last_snoc. split_and_all; [done|congruence| |lia|lia].
  by destruct ds.
Qed.

Lemma cut_of_zero ds fs : cut_of ds fs -> cut_of (ds ++ [48]) fs.
Proof.
  intros (Hn & Hl & Hne & Hle & Hv). unfold cut_of. rewrite length_app. cbn [length].
  split_and_all; [done..|lia|]. rewrite numeral_app_zero, Hv.
  replace (Z.of_nat (length ds + 1 - length fs)) with (Z.of_nat (length ds - length fs) + 1) by lia.
  rewrite Z.pow_add_r by lia. ring.
Qed.

Lemma trim_loop_step fraction n :
  trim_loop fraction (S n) =
  if (n =? 0)%nat then 1%nat
  else if default 0 (fraction !! n) =? 48 then trim_loop fraction n else S n.
Proof. by destruct n. Qed.

Lemma trim_loop_spec ds rest :
  is_numeral 10 ds -> 0 < numeral 10 ds ->
  cut_of ds (take (trim_loop (ds ++ rest) (length ds)) (ds ++ rest)).
Proof.
  revert rest. induction ds as [|c ds IH] using rev_ind; intros rest Hn Hp; [done|].
  rewrite length_app, Nat.add_comm. cbn [length Nat.add]. rewrite trim_loop_step.
  rewrite <- app_assoc, lookup_app_r, Nat.sub_diag by done. change (default 0 (([c] ++ rest) !! 0%nat)) with c.
  change ([c] ++ rest) with (c :: rest).
  pose proof Hn as Hn'. apply Forall_app in Hn' as [Hds Hc]. apply Forall_singleton in Hc as [Hc _].
  assert (forall k, k = S (length ds) -> take k (ds ++ c :: rest) = ds ++ [c]) as Htake.
  { intros k ->. rewrite cons_middle, app_assoc.
    replace (S (length ds)) with (length (ds ++ [c])) by (rewrite length_app; cbn; lia). apply take_app_length. }
  destruct (Nat.eqb_spec (length ds) 0) as [Hz|Hz].
  - apply nil_length_inv in Hz as ->. rewrite Htake by done. apply cut_of_self; [done|].
    intros ->. by unfold numeral in Hp.
  - destruct (Z.eqb_spec c 48) as [->|Hne]; [|rewrite Htake by done; by apply cut_of_self].
    apply cut_of_zero, IH; [done|]. rewrite numeral_app_zero in Hp. lia.
Qed.

(** ** The writes *)

Lemma emits_ignore m o out : emits m o out -> emits (ignore m) o out.
Proof. intros Hm w. unfold ignore. by rewrite Hm. Qed.

Lemma numeral_text ds : is_numeral 10 ds -> is_text ds.
Proof. intros Hn. apply text_ascii. eapply Forall_impl; [|exact Hn]. intros c [Hc _]. by apply hex_digit_ascii. Qed.

Lemma emits_whole t value o :
  wf_type t = true -> in_range t value = true -> 0 <= value ->
  exists ds, denotes 10 value ds /\ emits (write_whole t value) o ds.
Proof.
  intros Hw Hr Hv. destruct (format_display t value Hw Hr Hv) as (ds & Hd & He). exists ds. split; [done|].
  unfold write_whole. rewrite He. apply emits_ignore, emits_raw. by eapply denotes_text.
Qed.

(** The text of a fraction of [n] digits worth [remaining]. *)
Definition fraction_text (n : nat) (remaining : Z) (text : list Z) : Prop :=
  (remaining = 0 /\ text = []) \/
  exists fs, text = 46 :: fs /\ is_numeral 10 fs /\ list.last fs <> Some 48 /\ fs <> [] /\ (length fs <= n)%nat /\
    remaining = numeral 10 fs * 10 ^ Z.of_nat (n - length fs).

Lemma emits_fraction n remaining o :
  0 <= remaining < 10 ^ Z.of_nat n ->
  exists text, fraction_text n remaining text /\ emits (write_fraction n remaining) o text.
Proof.
  intros Hr. unfold write_fraction. destruct (Z.eqb_spec remaining 0) as [Hz|Hz].
  { exists []. split; [by left|apply emits_ret]. }
  destruct (duration_fraction_loop_spec n remaining Hr) as (Hn & Hv & Hl). cbn [negb].
  set (ds := fraction_loop n remaining []) in *. clearbody ds.
  pose proof (trim_loop_spec ds [] Hn ltac:(lia)) as Hc. rewrite app_nil_r, Hl in Hc.
  set (fs := take _ ds) in *. exists (46 :: fs). destruct Hc as (Hf & Hlast & Hne & Hle & Hval). split.
  - right. exists fs. rewrite Hl in Hle, Hval. split_and_all; [done..|lia].
  - apply (emits_seq _ _ o [46]); [|by apply emits_ignore, emits_raw, numeral_text].
    apply emits_ignore, emits_raw, text_ascii. repeat constructor; lia.
Qed.

(** The units, largest first, with their length in nanoseconds and the number
    of digits their fraction can have. *)
Definition unit_of (d : Duration) : list Z * Z * nat :=
  if 0 <? as_secs d then (lit "s", NANOS_PER_SEC, 9%nat)
  else if NANOS_PER_MILLI <=? subsec_nanos d then (lit "ms", NANOS_PER_MILLI, 6%nat)
  else if NANOS_PER_MICRO <=? subsec_nanos d then (lit "us", NANOS_PER_MICRO, 3%nat)
  else (lit "ns", 1, 0%nat).

Definition total_nanos (d : Duration) : Z := as_secs d * NANOS_PER_SEC + subsec_nanos d.

Lemma emits_pieces (whole frac suffix : FmtM String) o a b c :
  emits whole o a -> emits frac o b -> emits suffix o c ->
  emits (do* whole;; do* frac;; suffix) o (a ++ b ++ c).
Proof. intros. by repeat apply emits_seq. Qed.

(** The debug text of a duration is exact.  It names the largest unit the
    duration reaches ([s], [ms], [us], or [ns]); its digits before the point
    are the whole number of units, without leading zeros, its digits after
    the point, absent when the duration is a whole number of units, are the
    rest to the nanosecond, without trailing zeros; width, fill and the other
    options have no effect. *)
Theorem duration_debug_exact d o :
  duration_ok d ->
  let '(suffix, size, n) := unit_of d in
  exists ds fraction,
    emits (duration_debug d) o (ds ++ fraction ++ suffix) /\
    denotes 10 (total_nanos d / size) ds /\ fraction_text n (total_nanos d mod size) fraction.
Proof.
  intros [Hs Hn]. unfold unit_of, duration_debug, total_nanos. cbv zeta.
  assert (0 <= as_secs d) as Hs0 by (unfold in_range in Hs; cbn [MIN is_signed u64] in Hs; lia).
  assert (forall s, s = lit "s" \/ s = lit "ms" \/ s = lit "us" \/ s = lit "ns" -> is_text s) as Hsuf.
  { intros s Hcase. apply text_ascii. destruct Hcase as [->|[->|[->| ->]]];
      repeat (apply List.Forall_cons; [cbn; lia|]); apply List.Forall_nil. }
  assert (forall v, 0 <= v < NANOS_PER_SEC -> in_range u32 v = true) as Hu32.
  { intros v Hv. unfold in_range, MIN, MAX. cbn. unfold NANOS_PER_SEC in Hv. lia. }
  destruct (Z.ltb_spec 0 (as_secs d)) as [H|H].
  - destruct (emits_whole u64 (as_secs d) o eq_refl Hs Hs0) as (ds & Hd & He).
    destruct (emits_fraction 9 (subsec_nanos d) o Hn) as (fs & Hf & Hfe). exists ds, fs.
    rewrite Z.add_comm, Z.div_add, Z.mod_add, Z.div_small, Z.mod_small by done.
    split_and_all; [|done..]. apply emits_pieces; [done|done|apply emits_raw, Hsuf; tauto].
  - replace (as_secs d) with 0 by lia. rewrite Z.mul_0_l, Z.add_0_l.
    destruct (Z.leb_spec NANOS_PER_MILLI (subsec_nanos d)) as [Hm|Hm];
      [|destruct (Z.leb_spec NANOS_PER_MICRO (subsec_nanos d)) as [Hu|Hu]].
    + destruct (emits_whole u32 (subsec_nanos d / NANOS_PER_MILLI) o eq_refl) as (ds & Hd & He).
      { apply Hu32. split; [apply Z.div_pos; [lia|done]|]. apply Z.div_lt_upper_bound; [done|]. unfold NANOS_PER_MILLI, NANOS_PER_SEC in *. lia. }
      { apply Z.div_pos; [lia|done]. }
      destruct (emits_fraction 6 (subsec_nanos d mod NANOS_PER_MILLI) o) as (fs & Hf & Hfe);
        [by apply Z.mod_pos_bound|]. exists ds, fs. split_and_all; [|done..]. apply emits_pieces; [done|done|apply emits_raw, Hsuf; tauto].
    + destruct (emits_whole u32 (subsec_nanos d / NANOS_PER_MICRO) o eq_refl) as (ds & Hd & He).
      { apply Hu32. split; [apply Z.div_pos; [lia|done]|]. apply Z.div_lt_upper_bound; [done|]. unfold NANOS_PER_MICRO, NANOS_PER_SEC in *. lia. }
      { apply Z.div_pos; [lia|done]. }
      destruct (emits_fraction 3 (subsec_nanos d mod NANOS_PER_MICRO) o) as (fs & Hf & Hfe);
        [by apply Z.mod_pos_bound|]. exists ds, fs. split_and_all; [|done..]. apply emits_pieces; [done|done|apply emits_raw, Hsuf; tauto].
    + destruct (emits_whole u32 (subsec_nanos d) o eq_refl (Hu32 _ Hn) (proj1 Hn)) as (ds & Hd & He).
      exists ds, []. rewrite Z.div_1_r, Z.mod_1_r. split_and_all; [|done|by left].
      apply emits_seq; [done|apply emits_raw, Hsuf; tauto].
Qed.

Lemma duration_debug_exact_witness :
  writer (snd (duration_debug (mkDuration 0 1020300) (mkFormatter [] default_options))) = lit "1.0203ms" /\
  exists ds fraction,
    emits (duration_debug (mkDuration 0 1020300)) default_options (ds ++ fraction ++ lit "ms") /\ denotes 10 1 ds.
Proof.
  split; [vm_compute; reflexivity|].
  destruct (duration_debug_exact (mkDuration 0 1020300) default_options) as (ds & fs & He & Hd & _).
  { split; [reflexivity|]. vm_compute. split; congruence. }
  exists ds, fs. split; [exact He|exact Hd].
Defined.
