(* ===== verification/SocketAddr.v ===== *)
(** * Socket addresses

    Models [src/std/src/net/socket_addr.cpp], the parsers and the formatter
    of IPv4, IPv6 and socket addresses, with the data of
    [src/std/src/net/socket_addr.cppm].  The parsers split string slices,
    whose [unwrap]s are [Panic] when they fail; an array accessed out of its
    bounds is [Panic] too. *)

From Stdlib Require Import ZArith Lia ZifyBool Ascii.
From stdpp Require Import strings.
From S2P Require Import Prelude Int Utf8 Str Fmt FmtInteger.
Local Open Scope Z_scope.
Local Open Scope rstd_scope.

Inductive AddrParseError := InvalidSocket | InvalidIp.

Inductive AddrKind := V4 | V6.

(** [m_octets] of an [Ipv4Addr] and of an [Ipv6Addr] have four and sixteen
    elements; those of a [SocketAddr] sixteen, the last twelve unused by an
    IPv4 address. *)
Record SocketAddr := mkSocketAddr
  { kind : AddrKind; octets : list Z; port : Z; flowinfo : Z; scope_id : Z }.

Abbreviation Parse A := (outcome unit A).

(** ** Parsing *)

Definition digit_of (c : Z) : Z :=
  if (48 <=? c) && (c <=? 57) then c - 48
  else if (97 <=? c) && (c <=? 102) then c - 97 + 10
  else if (65 <=? c) && (c <=? 70) then c - 65 + 10
  else 99.

(** The guard keeps [u32] arithmetic in range: see [number_loop_bound]. *)
Fixpoint number_loop (bytes : list Z) (radix maximum number : Z) : option Z :=
  match bytes with
  | [] => Some number
  | c :: bytes =>
    let digit := digit_of c in
    if (radix <=? digit) || ((maximum - digit) / radix <? number) then None
    else number_loop bytes radix maximum (number * radix + digit)
  end.

Definition address_number (text : list Z) (radix maximum : Z) : option Z :=
  if (length text =? 0)%nat then None else number_loop text radix maximum 0.

(** [for (i = 0; i < 4; ++i)], with [n] rounds left. *)
Fixpoint ipv4_loop (n : nat) (text bytes : list Z) : Parse (option (list Z)) :=
  match n with
  | O => Ret (Some bytes)
  | S n =>
    let! split := split_once text [46] in
    if negb (Bool.eqb (0 <? n)%nat (match split with Some _ => true | None => false end)) then Ret None
    else
      let part := match split with Some (l, _) => l | None => text end in
      if (1 <? length part)%nat && starts_with part [48] then Ret None
      else match address_number part 10 255 with
           | None => Ret None
           | Some number =>
             ipv4_loop n (match split with Some (_, r) => r | None => text end) (bytes ++ [number])
           end
  end.

Definition address_ipv4 (text : list Z) : Parse (option (list Z)) := ipv4_loop 4 text [].

(** [groups\[count\] = value] on an array of eight. *)
Definition array_set (groups : list Z) (i : nat) (value : Z) : Parse (list Z) :=
  if (i <? length groups)%nat then Ret (<[i := value]> groups) else Panic.

Definition word (hi lo : Z) : Z := hi * 256 + lo.

(** The loop of [address_ipv6_part]: [None] is the result [false]; a round
    that goes on has removed a separator from the text. *)
Fixpoint ipv6_part_loop (fuel : nat) (text groups : list Z) (count : nat) (ipv4 : bool)
    : Parse (option (list Z * nat)) :=
  match fuel with
  | O => OutOfFuel
  | S fuel =>
    let! split := split_once text [58] in
    let part := match split with Some (l, _) => l | None => text end in
    let! stored :=
      (if contains part [46] then
         if negb ipv4 || match split with Some _ => true | None => false end || (6 <? count)%nat
         then Ret None
         else
           let! bytes := address_ipv4 part in
           match bytes with
           | None => Ret None
           | Some bytes =>
             let! b0 := index bytes 0 in
             let! b1 := index bytes 1 in
             let! groups := array_set groups count (word b0 b1) in
             let! b2 := index bytes 2 in
             let! b3 := index bytes 3 in
             let! groups := array_set groups (S count) (word b2 b3) in
             Ret (Some (groups, S (S count)))
           end
       else if (4 <? length part)%nat || (8 <=? count)%nat then Ret None
       else match address_number part 16 65535 with
            | None => Ret None
            | Some number =>
              let! groups := array_set groups count number in
              Ret (Some (groups, S count))
            end) in
    match stored with
    | None => Ret None
    | Some (groups, count) =>
      match split with
      | None => Ret (Some (groups, count))
      | Some (_, rest) =>
        if (length rest =? 0)%nat then Ret None else ipv6_part_loop fuel rest groups count ipv4
      end
    end
  end.

Definition address_ipv6_part (text groups : list Z) (count : nat) (ipv4 : bool)
    : Parse (option (list Z * nat)) :=
  if (length text =? 0)%nat then Ret (Some (groups, count))
  else ipv6_part_loop (S (length text)) text groups count ipv4.

Definition ipv4_parse (text : list Z) : Parse (result (list Z) AddrParseError) :=
  let! bytes := address_ipv4 text in
  match bytes with
  | None => Ret (Err InvalidIp)
  | Some bytes => Ret (Ok bytes)
  end.

(** [Ipv6Addr::make]: [u8(part >> 8)] and [u8(part)] of every group. *)
Definition ipv6_make (parts : list Z) : list Z :=
  concat (map (fun part => [byte_of (Z.shiftr part 8); byte_of part]) parts).

(** [for (i = 0; i < tail_count; ++i) groups\[8 - tail_count + i\] = tail\[i\]] *)
Fixpoint place_tail (n i tail_count : nat) (groups tail : list Z) : Parse (list Z) :=
  match n with
  | O => Ret groups
  | S n =>
    let! value := index tail i in
    let! groups := array_set groups (8 - tail_count + i) value in
    place_tail n (S i) tail_count groups tail
  end.

Definition ipv6_parse (text : list Z) : Parse (result (list Z) AddrParseError) :=
  let zeros := replicate 8 0 in
  let! compressed := split_once text [58; 58] in
  match compressed with
  | Some (l, r) =>
    let! head := address_ipv6_part l zeros 0 false in
    match head with
    | None => Ret (Err InvalidIp)
    | Some (groups, count) =>
      let! tail := address_ipv6_part r zeros 0 true in
      match tail with
      | None => Ret (Err InvalidIp)
      | Some (tail, tail_count) =>
        if (8 <=? count + tail_count)%nat then Ret (Err InvalidIp)
        else
          let! groups := place_tail tail_count 0 tail_count groups tail in
          Ret (Ok (ipv6_make groups))
      end
    end
  | None =>
    let! head := address_ipv6_part text zeros 0 true in
    match head with
    | None => Ret (Err InvalidIp)
    | Some (groups, count) =>
      if negb (count =? 8)%nat then Ret (Err InvalidIp) else Ret (Ok (ipv6_make groups))
    end
  end.

(** [SocketAddr::ipv4] and [SocketAddr::ipv6]. *)
Definition socket_ipv4 (ip : list Z) (port : Z) : SocketAddr :=
  mkSocketAddr V4 (ip ++ replicate 12 0) port 0 0.
Definition socket_ipv6 (ip : list Z) (port flowinfo scope_id : Z) : SocketAddr :=
  mkSocketAddr V6 ip port flowinfo scope_id.

Definition unwrap {A} (o : option A) : Parse A := match o with Some a => Ret a | None => Panic end.

(** The part after [\[...\]] has been recognised. *)
Definition scoped_ipv6_parse (host : list Z) (port : Z) : Parse (result SocketAddr AddrParseError) :=
  let! split := split_once host [37] in
  let! scoped :=
    match split with
    | Some (l, r) =>
      match address_number r 10 (MAX u32) with
      | None => Ret None
      | Some value => Ret (Some (value, l))
      end
    | None => Ret (Some (0, host))
    end in
  match scoped with
  | None => Ret (Err InvalidSocket)
  | Some (scope, host) =>
    let! address := ipv6_parse host in
    match address with
    | Err _ => Ret (Err InvalidSocket)
    | Ok address => Ret (Ok (socket_ipv6 address port 0 scope))
    end
  end.

Definition socket_parse (text : list Z) : Parse (result SocketAddr AddrParseError) :=
  let! separator := rsplit_once text [58] in
  match separator with
  | None => Ret (Err InvalidSocket)
  | Some (host, after) =>
    match address_number after 10 65535 with
    | None => Ret (Err InvalidSocket)
    | Some port =>
      if negb (starts_with host [91]) then
        let! address := ipv4_parse host in
        match address with
        | Err _ => Ret (Err InvalidSocket)
        | Ok address => Ret (Ok (socket_ipv4 address port))
        end
      else if negb (ends_with host [93]) then Ret (Err InvalidSocket)
      else
        let! host := unwrap (strip_prefix host [91]) in
        let! host := unwrap (strip_suffix host [93]) in
        scoped_ipv6_parse host port
    end
  end.

(** ** Formatting *)

Definition octet (a : SocketAddr) (i : nat) : Z := default 0 (octets a !! i).

Definition is_ipv6 (a : SocketAddr) : bool := match kind a with V6 => true | V4 => false end.

(** [groups\[i\] = octet(2i) * 256 + octet(2i + 1)] *)
Definition groups_of (a : SocketAddr) : list Z :=
  map (fun i => word (octet a (i * 2)) (octet a (i * 2 + 1))) (seq 0 8).

(** [while (i < 8 && groups\[i\] == 0) ++i]: the number of zeros from [i]. *)
Fixpoint zero_run (groups : list Z) : nat :=
  match groups with
  | g :: groups => if g =? 0 then S (zero_run groups) else 0%nat
  | [] => 0%nat
  end.

(** The search for the longest run of two zero groups or more. *)
Fixpoint best_run (fuel i : nat) (groups : list Z) (best len : nat) : nat * nat :=
  match fuel with
  | O => (best, len)
  | S fuel =>
    if (i <? 8)%nat then
      if negb (default 0 (groups !! i) =? 0) then best_run fuel (S i) groups best len
      else
        let start := i in
        let i := (i + zero_run (drop i groups))%nat in
        if (len <? i - start)%nat && (2 <=? i - start)%nat
        then best_run fuel i groups start (i - start)
        else best_run fuel i groups best len
    else (best, len)
  end.

Section Format.
Context {W : Type} `{Write W}.

(** The loop that writes the groups; the run at [best] becomes two colons. *)
Fixpoint write_groups (fuel i : nat) (groups : list Z) (best len : nat) : FmtM W :=
  match fuel with
  | O => out_of_fuel
  | S fuel =>
    if (i <? 8)%nat then
      if (i =? best)%nat then
        do* write_str [58; 58];;
        write_groups fuel (i + len) groups best len
      else
        do* (if negb (i =? 0)%nat && negb (i =? best + len)%nat then write_str [58] else ret tt);;
        do* write_fmt (lit "{:x}") [integer_argument u16 (default 0 (groups !! i))];;
        write_groups fuel (S i) groups best len
    else ret tt
  end.

Definition format_ip (a : SocketAddr) : FmtM W :=
  if negb (is_ipv6 a) then
    write_fmt (lit "{}.{}.{}.{}")
      [integer_argument u8 (octet a 0); integer_argument u8 (octet a 1);
       integer_argument u8 (octet a 2); integer_argument u8 (octet a 3)]
  else
    let groups := groups_of a in
    let '(best, len) := best_run 9 0 groups 8 0 in
    do* write_groups 9 0 groups best len;;
    if negb (scope_id a =? 0) then write_fmt (lit "%{}") [integer_argument u32 (scope_id a)]
    else ret tt.

Definition format_address (a : SocketAddr) : FmtM W :=
  do* (if is_ipv6 a then write_str [91] else ret tt);;
  do* format_ip a;;
  if is_ipv6 a then write_fmt (lit "]:{}") [integer_argument u16 (port a)]
  else write_fmt (lit ":{}") [integer_argument u16 (port a)].

End Format.
