(* ===== verification/SocketAddrSpec.v ===== *)
(** * Socket addresses: what is formatted parses back

    The text [format_address] writes, and that [SocketAddr::parse] reads it
    back; the parsers always return. *)

From Stdlib Require Import ZArith Lia ZifyBool Ascii.
From stdpp Require Import strings.
From S2P Require Import Prelude Int Utf8 Str Fmt FmtInteger FmtSpec SocketAddr.
Local Open Scope Z_scope.
Local Open Scope rstd_scope.

Definition ascii_text (s : list Z) : Prop := Forall (fun c => 0 <= c < 128) s.

Lemma ascii_app a b : ascii_text a -> ascii_text b -> ascii_text (a ++ b).
Proof. intros. by apply Forall_app. Qed.

Lemma ascii_cons c s : 0 <= c < 128 -> ascii_text s -> ascii_text (c :: s).
Proof. intros. by constructor. Qed.

Lemma ascii_nil : ascii_text [].
Proof. constructor. Qed.

Lemma numeral_ascii base v ds : denotes base v ds -> ascii_text ds.
Proof. intros [Hn _]. eapply Forall_impl; [|exact Hn]. intros c [Hc _]. by apply hex_digit_ascii. Qed.

Lemma ascii_is_text s : ascii_text s -> is_text s.
Proof. apply text_ascii. Qed.

#[local] Hint Resolve ascii_app ascii_cons ascii_nil numeral_ascii ascii_is_text : rstd.
#[local] Hint Extern 1 (0 <= _ < 128) => lia : rstd.

(** A character that is no digit does not occur in a numeral. *)
Lemma numeral_no base v ds c : denotes base v ds -> is_hex_digit c = false -> ~ (c ∈ ds).
Proof.
  intros [Hn _] Hc Hin. destruct (proj1 (Forall_forall _ _) Hn c) as [Hx _]; [by apply list_elem_of_In in Hin|].
  congruence.
Qed.

(** ** Numbers *)

Lemma digit_of_hex c : is_hex_digit c = true -> digit_of c = hex_value c.
Proof.
  unfold is_hex_digit, is_digit, digit_of, hex_value. intros H. repeat case_if; lia.
Qed.

Lemma number_loop_numeral radix maximum ds n :
  2 <= radix -> is_numeral radix ds -> 0 <= n ->
  n * radix ^ Z.of_nat (length ds) + numeral radix ds <= maximum ->
  number_loop ds radix maximum n = Some (n * radix ^ Z.of_nat (length ds) + numeral radix ds).
Proof.
  intros Hr Hn. revert n. induction Hn as [|c ds [Hc Hx] Hn IH]; intros n H0 Hm; cbn [number_loop].
  { cbn. by rewrite Z.mul_1_r, Z.add_0_r. }
  rewrite digit_of_hex by done. rewrite numeral_cons in Hm |- *. cbn [length] in Hm |- *.
  rewrite Nat2Z.inj_succ, Z.pow_succ_r in Hm |- * by lia.
  pose proof (numeral_range radix ds Hr Hn) as Hnr. set (B := radix ^ Z.of_nat (length ds)) in *.
  replace (n * (radix * B) + (hex_value c * B + numeral radix ds)) with
    ((n * radix + hex_value c) * B + numeral radix ds) in * by ring.
  assert (n * radix + hex_value c <= maximum) by nia.
  rewrite (proj2 (Z.leb_gt radix _)) by lia. cbn [orb].
  rewrite (proj2 (Z.ltb_ge _ _)) by (apply Z.div_le_lower_bound; lia).
  apply IH; [nia|done].
Qed.

Lemma address_number_denotes radix maximum v ds :
  2 <= radix -> denotes radix v ds -> v <= maximum -> address_number ds radix maximum = Some v.
Proof.
  intros Hr (Hn & Hv & Hl) Hm. unfold address_number.
  destruct ds as [|c ds]; [by destruct Hl as [?|(?&?&?&?)]|]. cbn [length Nat.eqb].
  rewrite number_loop_numeral by (done || lia). f_equal. lia.
Qed.

(** The guard keeps the accumulator within [maximum]. *)
Lemma number_loop_bound bytes radix maximum n v :
  0 < radix -> 0 <= n <= maximum -> number_loop bytes radix maximum n = Some v -> 0 <= v <= maximum.
Proof.
  intros Hr. revert n. induction bytes as [|c bytes IH]; intros n Hn; cbn [number_loop]; [by intros [= <-]|].
  destruct (Z.leb_spec radix (digit_of c)); [done|]. cbn [orb].
  destruct (Z.ltb_spec ((maximum - digit_of c) / radix) n); [done|]. apply IH.
  assert (0 <= digit_of c \/ digit_of c < 0) as [Hd|Hd] by lia.
  - pose proof (Z.mul_div_le (maximum - digit_of c) radix Hr). nia.
  - unfold digit_of in Hd. repeat case_if; lia.
Qed.

Lemma address_number_bound text radix maximum v :
  0 < radix -> 0 <= maximum -> address_number text radix maximum = Some v -> 0 <= v <= maximum.
Proof. intros Hr Hm. unfold address_number. case_if; [done|]. apply number_loop_bound; lia. Qed.

(** ** IPv4 *)

Definition dotted (bytes : list Z) : list Z :=
  match bytes with
  | [a; b; c; d] =>
    decimal_text a ++ [46] ++ decimal_text b ++ [46] ++ decimal_text c ++ [46] ++ decimal_text d
  | _ => []
  end.

Definition octet_ok (v : Z) : Prop := 0 <= v < 256.

Lemma octet_u8 v : octet_ok v -> in_range u8 v = true.
Proof. intros [? ?]. unfold in_range, MIN, MAX. cbn. lia. Qed.

Lemma octet_denotes v : octet_ok v -> denotes 10 v (decimal_text v).
Proof. intros [? ?]. apply decimal_text_denotes. unfold in_range, MIN, MAX. cbn. lia. Qed.

Lemma emits_octet v : octet_ok v -> emits (integer_argument u8 v) default_options (decimal_text v).
Proof. intros Hv. apply (emits_decimal u8); [done..|by apply octet_u8|apply Hv]. Qed.

Lemma emits_dotted a b c d o :
  octet_ok a -> octet_ok b -> octet_ok c -> octet_ok d ->
  emits (write_fmt (lit "{}.{}.{}.{}")
    [integer_argument u8 a; integer_argument u8 b; integer_argument u8 c; integer_argument u8 d]) o (dotted [a; b; c; d]).
Proof.
  intros Ha Hb Hc Hd. eapply emits_write_fmt.
  - cbn. template.
  - repeat (apply List.Forall_cons; [cbn; lia|]). apply List.Forall_nil.
  - cbn [dotted]. rewrite <- (app_nil_r (decimal_text d)).
    repeat (apply filled_argument; [by apply emits_octet|]; try apply filled_literal). apply filled_nil.
Qed.

Lemma leading_zero_part ds v : denotes 10 v ds -> ((1 <? length ds)%nat && starts_with ds [48]) = false.
Proof.
  intros (_ & _ & [->|(d & ds' & -> & Hd)]); [done|]. apply andb_false_iff. right.
  apply not_true_iff_false. intros [k Hk]%starts_with_spec. by injection Hk as ->.
Qed.

Lemma ipv4_loop_step n v rest bytes :
  octet_ok v -> ascii_text rest ->
  ipv4_loop (S (S n)) (decimal_text v ++ [46] ++ rest) bytes = ipv4_loop (S n) rest (bytes ++ [v]).
Proof.
  intros Hv Hr. pose proof (octet_denotes v Hv) as Hd.
  pose proof (numeral_ascii _ _ _ Hd) as Has. remember (S n) as m. cbn [ipv4_loop].
  rewrite split_once_byte; [|auto with rstd|lia|by apply (numeral_no 10 v)].
  cbn [obind]. subst m. replace (negb (Bool.eqb (0 <? S n)%nat true)) with false by done. rewrite (leading_zero_part _ v Hd).
  rewrite (address_number_denotes 10 255 v) by (done || unfold octet_ok in Hv; lia). done.
Qed.

Lemma ipv4_loop_last v bytes :
  octet_ok v -> ipv4_loop 1 (decimal_text v) bytes = Ret (Some (bytes ++ [v])).
Proof.
  intros Hv. pose proof (octet_denotes v Hv) as Hd. cbn [ipv4_loop].
  rewrite split_once_byte_none; [|by apply (denotes_text 10 v)|lia|by apply (numeral_no 10 v)].
  cbn [obind]. replace (negb (Bool.eqb (0 <? 0)%nat false)) with false by done. rewrite (leading_zero_part _ v Hd).
  by rewrite (address_number_denotes 10 255 v) by (done || unfold octet_ok in Hv; lia).
Qed.

Lemma ipv4_parse_dotted a b c d :
  octet_ok a -> octet_ok b -> octet_ok c -> octet_ok d ->
  ipv4_parse (dotted [a; b; c; d]) = Ret (Ok [a; b; c; d]).
Proof.
  intros Ha Hb Hc Hd. unfold ipv4_parse, address_ipv4, dotted.
  assert (forall v, octet_ok v -> ascii_text (decimal_text v)) as Has by (intros; by eapply numeral_ascii, octet_denotes).
  rewrite ipv4_loop_step, ipv4_loop_step, ipv4_loop_step, ipv4_loop_last by auto 8 with rstd. done.
Qed.

(** ** IPv6 groups *)

Definition group_ok (g : Z) : Prop := 0 <= g < 65536.

(** Groups in hexadecimal, each but the first after a colon. *)
Fixpoint colon_text (first : bool) (gs : list Z) : list Z :=
  match gs with
  | [] => []
  | g :: gs => (if first then [] else [58]) ++ hex_text g ++ colon_text false gs
  end.

Lemma group_denotes g : group_ok g -> denotes 16 g (hex_text g).
Proof. intros [? ?]. apply hex_text_denotes. lia. Qed.

Lemma group_text_length g : group_ok g -> (0 < length (hex_text g) <= 4)%nat.
Proof.
  intros Hg. pose proof (group_denotes g Hg) as Hd. split.
  - destruct Hd as (_ & _ & [->|(d & ds & -> & _)]); cbn; lia.
  - apply (denotes_length 16 g); [lia|done| |lia]. destruct Hg. cbn. lia.
Qed.

Lemma emits_group g : group_ok g -> emits (integer_argument u16 g) hex_options (hex_text g).
Proof. intros [? ?]. apply (emits_hex u16); [done..|]. unfold in_range, MIN, MAX. cbn. lia. Qed.

Lemma colon_text_ascii first gs : Forall group_ok gs -> ascii_text (colon_text first gs).
Proof.
  intros Hgs. revert first. induction Hgs as [|g gs Hg Hgs IH]; intros first; cbn [colon_text]; [constructor|].
  pose proof (numeral_ascii _ _ _ (group_denotes g Hg)). destruct first; auto 6 with rstd.
Qed.

#[local] Hint Resolve colon_text_ascii : rstd.

(** *** Writing *)

Lemma emits_hex_group g o : group_ok g -> emits (write_fmt (lit "{:x}") [integer_argument u16 g]) o (hex_text g).
Proof.
  intros Hg. eapply emits_write_fmt.
  - cbn. template.
  - repeat (apply List.Forall_cons; [cbn; lia|]). apply List.Forall_nil.
  - rewrite <- (app_nil_r (hex_text g)). apply filled_argument; [by apply emits_group|apply filled_nil].
Qed.

(** The groups from [i] on, when no run is left to abbreviate. *)
Lemma emits_groups_after fuel i gs best len o :
  length gs = 8%nat -> Forall group_ok gs ->
  ((best + len <= i)%nat /\ (0 < len)%nat) \/ best = 8%nat /\ len = 0%nat -> (i <= 8)%nat -> (8 < fuel + i)%nat ->
  emits (write_groups fuel i gs best len) o
    (colon_text ((i =? 0)%nat || (i =? best + len)%nat) (drop i gs)).
Proof.
  intros Hl Hgs. revert i. induction fuel as [|fuel IH]; intros i Hbest Hi Hf; [lia|].
  cbn [write_groups]. destruct (Nat.ltb_spec i 8) as [Hlt|Hge]; cycle 1.
  { rewrite drop_ge by lia. apply emits_ret. }
  rewrite (proj2 (Nat.eqb_neq i best)) by lia.
  destruct (lookup_lt_is_Some_2 gs i ltac:(lia)) as [g Hg]. rewrite (drop_S _ _ _ Hg), Hg. cbn [default colon_text].
  pose proof (proj1 (Forall_lookup _ gs) Hgs i g Hg) as Hok.
  apply emits_seq; [|apply emits_seq; [by apply emits_hex_group|]].
  { destruct (i =? 0)%nat, (i =? best + len)%nat; cbn [negb andb orb]; (apply emits_ret || apply emits_str). }
  specialize (IH (S i) ltac:(lia) ltac:(lia) ltac:(lia)). destruct (decide (S i = 8)%nat) as [E|Hne].
  { rewrite E, drop_ge in IH |- * by lia. exact IH. }
  replace ((S i =? 0)%nat || (S i =? best + len)%nat) with false in IH; [done|].
  symmetry. apply orb_false_iff. split; [done|]. apply Nat.eqb_neq. lia.
Qed.

(** The groups from [i] on, up to the run and after it. *)
Lemma emits_groups_before fuel i gs best len o :
  length gs = 8%nat -> Forall group_ok gs ->
  (i <= best)%nat -> (0 < len)%nat -> (best + len <= 8)%nat -> (8 < fuel + i)%nat ->
  emits (write_groups fuel i gs best len) o
    (colon_text (i =? 0)%nat (take (best - i) (drop i gs)) ++ [58; 58] ++ colon_text true (drop (best + len) gs)).
Proof.
  intros Hl Hgs. revert i. induction fuel as [|fuel IH]; intros i Hib Hlen Hbl Hf; [lia|].
  cbn [write_groups]. rewrite (proj2 (Nat.ltb_lt i 8)) by lia. destruct (Nat.eqb_spec i best) as [->|Hne].
  - rewrite Nat.sub_diag, take_0. cbn [colon_text app]. change (58 :: 58 :: ?s) with ([58; 58] ++ s).
    apply emits_seq; [apply emits_str|].
    pose proof (emits_groups_after fuel (best + len) gs best len o Hl Hgs ltac:(lia) ltac:(lia) ltac:(lia)) as H.
    by rewrite Nat.eqb_refl, orb_true_r in H.
  - destruct (lookup_lt_is_Some_2 gs i ltac:(lia)) as [g Hg]. rewrite (drop_S _ _ _ Hg), Hg. cbn [default].
    replace (best - i)%nat with (S (best - S i)) by lia. cbn [firstn colon_text]. rewrite <- !app_assoc.
    rewrite (proj2 (Nat.eqb_neq i (best + len))) by lia.
    pose proof (proj1 (Forall_lookup _ gs) Hgs i g Hg) as Hok.
    apply emits_seq; [|apply emits_seq; [by apply emits_hex_group|]].
    { destruct (i =? 0)%nat; cbn [negb andb]; (apply emits_ret || apply emits_str). }
    apply (IH (S i)); lia.
Qed.

(** The run chosen is a run of at least two zeros, if there is one at all. *)
Lemma zero_run_spec gs : Forall (fun g => g = 0) (take (zero_run gs) gs) /\ (zero_run gs <= length gs)%nat.
Proof.
  induction gs as [|g gs [IH1 IH2]]; cbn [zero_run]; [by split; [constructor|cbn; lia]|].
  destruct (Z.eqb_spec g 0); cbn [firstn length]; (split; [by constructor|lia]).
Qed.

Definition run_ok (gs : list Z) (best len : nat) : Prop :=
  (best = 8%nat /\ len = 0%nat) \/
  ((2 <= len)%nat /\ (best + len <= 8)%nat /\ Forall (fun g => g = 0) (take len (drop best gs))).

Lemma best_run_ok fuel i gs best len :
  length gs = 8%nat -> run_ok gs best len ->
  let '(best, len) := best_run fuel i gs best len in run_ok gs best len.
Proof.
  intros Hl. revert i best len. induction fuel as [|fuel IH]; intros i best len Hok; cbn [best_run]; [done|].
  destruct (Nat.ltb_spec i 8); [|done]. destruct (negb _); [by apply IH|].
  destruct (zero_run_spec (drop i gs)) as [Hz Hzl]. rewrite length_drop in Hzl.
  replace (i + zero_run (drop i gs) - i)%nat with (zero_run (drop i gs)) by lia.
  destruct (_ && _) eqn:E; [|by apply IH]. apply IH. right.
  apply andb_true_iff in E as [_ ?%Nat.leb_le]. split_and_all; [done|lia|done].
Qed.

(** *** Reading *)

(** Eight groups with the first ones stored. *)
Definition stored (gs : list Z) : list Z := gs ++ replicate (8 - length gs) 0.

Lemma stored_set gs g :
  (length gs < 8)%nat -> array_set (stored gs) (length gs) g = Ret (stored (gs ++ [g])).
Proof.
  intros Hl. unfold array_set, stored. rewrite !length_app, length_replicate.
  rewrite (proj2 (Nat.ltb_lt _ _)) by lia. cbn [length].
  replace (8 - length gs)%nat with (S (8 - (length gs + 1))) by lia. cbn [replicate].
  f_equal. rewrite <- (Nat.add_0_r (length gs)) at 1. rewrite insert_app_r. cbn. by rewrite <- app_assoc.
Qed.

Lemma colon_text_tail gs : colon_text false gs = match gs with [] => [] | _ => 58 :: colon_text true gs end.
Proof. by destruct gs. Qed.

Lemma ipv6_part_loop_groups fuel g gs pre ipv4 :
  Forall group_ok (g :: gs) -> (length pre + S (length gs) <= 8)%nat -> (length gs < fuel)%nat ->
  ipv6_part_loop fuel (colon_text true (g :: gs)) (stored pre) (length pre) ipv4 =
  Ret (Some (stored (pre ++ g :: gs), (length pre + S (length gs))%nat)).
Proof.
  revert g gs pre. induction fuel as [|fuel IH]; intros g gs pre Hgs Hl Hf; [lia|].
  apply Forall_cons_1 in Hgs as [Hg Hgs]. pose proof (group_denotes g Hg) as Hd.
  pose proof (group_text_length g Hg) as Hgl. pose proof (numeral_ascii _ _ _ Hd) as Has.
  assert (contains (hex_text g) [46] = false) as Hdot by (apply contains_byte_false; by eapply numeral_no).
  assert (address_number (hex_text g) 16 65535 = Some g) as Hnum
    by (apply address_number_denotes; [lia|done|unfold group_ok in Hg; lia]).
  cbn [colon_text app ipv6_part_loop]. rewrite colon_text_tail. destruct gs as [|g' gs].
  - rewrite app_nil_r. rewrite split_once_byte_none; [|auto with rstd|lia|by apply (numeral_no 16 g)].
    cbn [obind]. rewrite Hdot, (proj2 (Nat.ltb_ge _ _)), (proj2 (Nat.leb_gt _ _)) by lia. cbn [orb].
    rewrite Hnum, stored_set by lia. cbn [obind length]. do 3 f_equal. lia.
  - change (58 :: colon_text true (g' :: gs)) with ([58] ++ colon_text true (g' :: gs)).
    rewrite split_once_byte; [|auto 6 with rstd|lia|by apply (numeral_no 16 g)].
    cbn [obind]. rewrite Hdot, (proj2 (Nat.ltb_ge _ _)), (proj2 (Nat.leb_gt _ _)) by (cbn in Hl |- *; lia). cbn [orb].
    rewrite Hnum, stored_set by (cbn in Hl; lia). cbn [obind].
    pose proof Hgs as Hgs'. apply Forall_cons_1 in Hgs' as [Hg' _]. pose proof (group_text_length g' Hg').
    destruct (Nat.eqb_spec (length (colon_text true (g' :: gs))) 0) as [E|_].
    { cbn [colon_text app] in E. rewrite length_app in E. lia. }
    specialize (IH g' gs (pre ++ [g]) Hgs). rewrite length_app in IH. cbn [length] in IH, Hl, Hf.
    rewrite <- app_assoc in IH. replace (S (length pre)) with (length pre + 1)%nat by lia.
    rewrite IH by lia. cbn [app length]. do 3 f_equal. lia.
Qed.

Lemma ipv6_part_groups gs ipv4 :
  Forall group_ok gs -> (length gs <= 8)%nat ->
  address_ipv6_part (colon_text true gs) (replicate 8 0) 0 ipv4 = Ret (Some (stored gs, length gs)).
Proof.
  intros Hgs Hl. unfold address_ipv6_part. destruct gs as [|g gs]; [done|].
  pose proof Hgs as Hgs'. apply Forall_cons_1 in Hgs' as [Hg Hgs']. pose proof (group_text_length g Hg).
  assert (length gs <= length (colon_text false gs))%nat as Hlen.
  { clear -Hgs'. induction Hgs' as [|x xs Hx Hxs IH]; [done|]. cbn [colon_text].
    rewrite !length_app. cbn [length]. lia. }
  assert (length gs < length (colon_text true (g :: gs)))%nat as Hlt.
  { cbn [colon_text app]. rewrite length_app. lia. }
  rewrite (proj2 (Nat.eqb_neq _ _)) by lia.
  apply (ipv6_part_loop_groups _ g gs [] ipv4); [done|cbn in *; lia|lia].
Qed.

(** *** The two colons *)

Lemma occurs_at_two s c d j : occurs_at s [c; d] j -> s !! j = Some c /\ s !! S j = Some d.
Proof.
  intros [b Hb]. rewrite <- (Nat.add_0_r j) at 1. rewrite <- lookup_drop, Hb. split; [done|].
  replace (S j) with (j + 1)%nat by lia. by rewrite <- lookup_drop, Hb.
Qed.

(** A colon between groups is followed by a digit. *)
Lemma colon_text_single first gs j :
  Forall group_ok gs -> colon_text first gs !! j = Some 58 ->
  exists c, colon_text first gs !! S j = Some c /\ c <> 58.
Proof.
  intros Hgs. revert first j. induction Hgs as [|g gs Hg Hgs IH]; intros first j; cbn [colon_text]; [done|].
  pose proof (group_denotes g Hg) as Hd. pose proof (group_text_length g Hg) as Hl.
  assert (forall k c, hex_text g !! k = Some c -> c <> 58) as Hhex.
  { intros k c Hk ->. apply list_elem_of_lookup_2 in Hk. by apply (numeral_no 16 g _ 58) in Hd. }
  assert (forall k, (hex_text g ++ colon_text false gs) !! k = Some 58 ->
    exists c, (hex_text g ++ colon_text false gs) !! S k = Some c /\ c <> 58) as Hin.
  { intros k Hk. destruct (decide (k < length (hex_text g))%nat).
    - rewrite lookup_app_l in Hk by done. by destruct (Hhex _ _ Hk).
    - rewrite lookup_app_r in Hk by lia. apply IH in Hk as (c & Hc & Hne).
      exists c. split; [|done]. rewrite lookup_app_r by lia. by rewrite Nat.sub_succ_l by lia. }
  destruct first; [by apply Hin|]. destruct j as [|j]; [|by apply Hin].
  intros _. destruct (lookup_lt_is_Some_2 (hex_text g) 0) as [c Hc]; [lia|].
  exists c. split; [|by eapply Hhex]. change ((hex_text g ++ colon_text false gs) !! 0%nat = Some c). by rewrite lookup_app_l by lia.
Qed.

Lemma split_compressed hs ts :
  Forall group_ok hs -> Forall group_ok ts ->
  split_once (colon_text true hs ++ [58; 58] ++ colon_text true ts) [58; 58] =
  Ret (Some (colon_text true hs, colon_text true ts)).
Proof.
  intros Hhs Hts. apply split_once_at; [auto 6 with rstd|auto with rstd|].
  intros j Hj [H1 H2]%occurs_at_two. rewrite lookup_app_l in H1 by done.
  destruct (colon_text_single _ _ _ Hhs H1) as (c & Hc & Hne).
  rewrite (lookup_app_l_Some _ _ _ _ Hc) in H2. congruence.
Qed.

Lemma split_uncompressed gs : Forall group_ok gs -> split_once (colon_text true gs) [58; 58] = Ret None.
Proof.
  intros Hgs. pose proof (split_once_spec (colon_text true gs) [58; 58] ltac:(auto with rstd) ltac:(auto with rstd)) as H.
  destruct (split_once _ _) as [[[l r]|]|[]| |]; try done. destruct H as (E & _).
  destruct (colon_text_single true gs (length l) Hgs) as (c & Hc & Hne).
  - rewrite E. rewrite lookup_app_r, Nat.sub_diag by done. done.
  - rewrite E, lookup_app_r in Hc by lia. replace (S (length l) - length l)%nat with 1%nat in Hc by lia.
    cbn in Hc. congruence.
Qed.

(** *** The array behind the two colons *)

Lemma place_tail_stored n i base ts :
  (n + i = length ts)%nat -> (length base + length ts = 8)%nat ->
  place_tail n i (length ts) (base ++ take i ts ++ replicate n 0) (stored ts) = Ret (base ++ ts).
Proof.
  revert i. induction n as [|n IH]; intros i Hn Hl; cbn [place_tail].
  { rewrite take_ge by lia. by rewrite app_nil_r. }
  destruct (lookup_lt_is_Some_2 ts i ltac:(lia)) as [g Hg].
  unfold index. unfold stored at 1. rewrite (lookup_app_l_Some _ _ _ _ Hg). cbn [obind].
  unfold array_set. rewrite !length_app, length_take, length_replicate.
  rewrite (proj2 (Nat.ltb_lt _ _)) by lia. cbn [obind]. rewrite <- (IH (S i)) by lia. f_equal.
  replace (8 - length ts + i)%nat with (length base + (length (take i ts) + 0))%nat by (rewrite length_take; lia).
  rewrite !insert_app_r. f_equal. rewrite (take_S_r _ _ _ Hg), <- app_assoc. done.
Qed.

Lemma ipv6_parse_compressed hs ts :
  Forall group_ok hs -> Forall group_ok ts -> (length hs + length ts < 8)%nat ->
  ipv6_parse (colon_text true hs ++ [58; 58] ++ colon_text true ts) =
  Ret (Ok (ipv6_make (hs ++ replicate (8 - length hs - length ts) 0 ++ ts))).
Proof.
  intros Hhs Hts Hl. unfold ipv6_parse. rewrite split_compressed by done. cbn [obind].
  rewrite !ipv6_part_groups by (done || lia). cbn [obind].
  rewrite (proj2 (Nat.leb_gt _ _)) by lia.
  pose proof (place_tail_stored (length ts) 0 (hs ++ replicate (8 - length hs - length ts) 0) ts) as Hp.
  rewrite length_app, length_replicate in Hp. specialize (Hp ltac:(lia) ltac:(lia)).
  rewrite take_0, <- app_assoc in Hp. cbn [app] in Hp. rewrite <- replicate_add in Hp. unfold stored at 1.
  replace (8 - length hs - length ts + length ts)%nat with (8 - length hs)%nat in Hp by lia.
  rewrite Hp. cbn [obind]. by rewrite <- app_assoc.
Qed.

Lemma ipv6_parse_uncompressed gs :
  Forall group_ok gs -> length gs = 8%nat -> ipv6_parse (colon_text true gs) = Ret (Ok (ipv6_make gs)).
Proof.
  intros Hgs Hl. unfold ipv6_parse. rewrite split_uncompressed by done. cbn [obind].
  rewrite ipv6_part_groups by (done || lia). cbn [obind]. rewrite Hl. cbn [Nat.eqb negb]. unfold stored.
  rewrite Hl. cbn [Nat.sub replicate]. by rewrite app_nil_r.
Qed.

(** *** Octets and groups *)

Lemma word_bytes hi lo : octet_ok hi -> octet_ok lo ->
  group_ok (word hi lo) /\ byte_of (Z.shiftr (word hi lo) 8) = hi /\ byte_of (word hi lo) = lo.
Proof.
  unfold octet_ok, group_ok, word, byte_of. intros Hh Hl. rewrite Z.shiftr_div_pow2 by lia.
  change (2 ^ 8) with 256. rewrite Z.add_comm, Z.div_add, (Z.div_small lo), Z.mod_add by lia.
  cbn [Z.add]. rewrite !Z.mod_small by lia. lia.
Qed.

Fixpoint words (os : list Z) : list Z :=
  match os with
  | hi :: lo :: os => word hi lo :: words os
  | _ => []
  end.

Lemma words_make os n :
  length os = (2 * n)%nat -> Forall octet_ok os ->
  length (words os) = n /\ Forall group_ok (words os) /\ ipv6_make (words os) = os.
Proof.
  revert os. induction n as [|n IH]; intros os Hl Hos.
  { apply nil_length_inv in Hl as ->. split_and_all; [done|constructor|done]. }
  destruct os as [|hi [|lo os]]; cbn in Hl; [lia..|].
  apply Forall_cons_1 in Hos as [Hh Hos]. apply Forall_cons_1 in Hos as [Hlo Hos].
  destruct (IH os ltac:(lia) Hos) as (Hw & Hg & Hm). destruct (word_bytes hi lo Hh Hlo) as (Hk & H1 & H2).
  cbn [words length]. split_and_all; [lia|by constructor|].
  unfold ipv6_make in *. cbn [map concat]. by rewrite H1, H2, Hm.
Qed.

Lemma groups_of_words a : length (octets a) = 16%nat -> groups_of a = words (octets a).
Proof.
  unfold groups_of, octet. destruct a as [k os p f s]. cbn [octets]. intros Hl.
  do 16 (destruct os as [|? os]; [done|]). by destruct os.
Qed.

(** ** The whole address *)

(** The values the program can build: [u8] octets, a [u16] port, [u32] flow
    label and scope; an IPv4 address uses four octets and has neither. *)
Definition addr_ok (a : SocketAddr) : Prop :=
  Forall octet_ok (octets a) /\ group_ok (port a) /\ in_range u32 (scope_id a) = true /\
  length (octets a) = 16%nat /\
  match kind a with
  | V4 => drop 4 (octets a) = replicate 12 0 /\ scope_id a = 0 /\ flowinfo a = 0
  | V6 => True
  end.

(** The text of an IPv6 address: some zeros may stand as two colons. *)
Lemma emits_ipv6 gs o :
  length gs = 8%nat -> Forall group_ok gs ->
  exists text, ascii_text text /\ ~ (37 ∈ text) /\ text <> [] /\
    ipv6_parse text = Ret (Ok (ipv6_make gs)) /\
    emits (let '(best, len) := best_run 9 0 gs 8 0 in write_groups 9 0 gs best len) o text.
Proof.
  intros Hl Hgs.
  assert (forall first gs, Forall group_ok gs -> ~ (37 ∈ colon_text first gs)) as Hno.
  { clear. intros first gs Hgs. revert first. induction Hgs as [|g gs Hg Hgs IH]; intros first; cbn [colon_text];
      [apply not_elem_of_nil|]. rewrite !not_elem_of_app. split_and_all; [|by apply (numeral_no 16 g); [apply group_denotes|]|apply IH].
    destruct first; rewrite ?not_elem_of_cons; [apply not_elem_of_nil|split; [lia|apply not_elem_of_nil]]. }
  pose proof (best_run_ok 9 0 gs 8 0 Hl (or_introl (conj eq_refl eq_refl))) as Hrun.
  destruct (best_run 9 0 gs 8 0) as [best len]. destruct Hrun as [[-> ->]|(H2 & Hle & Hz)].
  - exists (colon_text true gs). split_and_all; [auto with rstd|by apply Hno| |by apply ipv6_parse_uncompressed|].
    + destruct gs as [|g gs]; [done|]. apply Forall_cons_1 in Hgs as [Hg _]. pose proof (group_text_length g Hg).
      cbn [colon_text app]. destruct (hex_text g); [cbn in *; lia|done].
    + apply (emits_groups_after 9 0 gs 8 0 o); [done|done|by right|lia|lia].
  - exists (colon_text true (take best gs) ++ [58; 58] ++ colon_text true (drop (best + len) gs)).
    pose proof (Forall_take _ best _ Hgs) as Ht. pose proof (Forall_drop _ (best + len) _ Hgs) as Hd.
    split_and_all.
    + auto 8 with rstd.
    + rewrite !not_elem_of_app, !not_elem_of_cons. split_and_all; [by apply Hno|lia|lia|apply not_elem_of_nil|by apply Hno].
    + by destruct (colon_text true (take best gs)).
    + rewrite ipv6_parse_compressed; [|done|done|rewrite length_take, length_drop; lia].
      do 3 f_equal. rewrite length_take, length_drop.
      replace (8 - best `min` length gs - (length gs - (best + len)))%nat with len by lia.
      rewrite <- (take_drop best gs) at 3. f_equal. rewrite <- (take_drop len (drop best gs)), drop_drop. f_equal.
      apply replicate_as_Forall_2; [rewrite length_take, length_drop; lia|].
      eapply Forall_impl; [|exact Hz]. done.
    + pose proof (emits_groups_before 9 0 gs best len o Hl Hgs ltac:(lia) ltac:(lia) ltac:(lia) ltac:(lia)) as He.
      by rewrite Nat.sub_0_r, drop_0 in He.
Qed.

Lemma emits_scope scope o :
  in_range u32 scope = true ->
  exists text, ascii_text text /\
    emits (if negb (scope =? 0) then write_fmt (lit "%{}") [integer_argument u32 scope] else ret tt) o text /\
    ((scope = 0 /\ text = []) \/ (text = 37 :: decimal_text scope /\ denotes 10 scope (decimal_text scope))).
Proof.
  intros Hr. destruct (Z.eqb_spec scope 0) as [Hz|Hz].
  { exists []. split_and_all; [constructor|apply emits_ret|by left]. }
  pose proof (decimal_text_denotes scope Hr) as Hd. pose proof (numeral_ascii _ _ _ Hd) as Has.
  assert (0 <= scope) as H0 by (unfold in_range, MIN in Hr; cbn [is_signed u32] in Hr; lia).
  exists (37 :: decimal_text scope). split_and_all; [auto with rstd| |by right]. cbn [negb].
  eapply emits_write_fmt.
  - cbn. template.
  - repeat (apply List.Forall_cons; [cbn; lia|]). apply List.Forall_nil.
  - apply filled_literal. rewrite <- (app_nil_r (decimal_text scope)).
    apply filled_argument; [by apply (emits_decimal u32)|apply filled_nil].
Qed.

Lemma scoped_parse_text host ip scope text port :
  ascii_text host -> ~ (37 ∈ host) -> ipv6_parse host = Ret (Ok ip) -> in_range u32 scope = true ->
  ((scope = 0 /\ text = []) \/ (text = 37 :: decimal_text scope /\ denotes 10 scope (decimal_text scope))) ->
  scoped_ipv6_parse (host ++ text) port = Ret (Ok (socket_ipv6 ip port 0 scope)).
Proof.
  intros Ha Hn Hp Hr [[-> ->]|[-> Hd]]; unfold scoped_ipv6_parse.
  - rewrite app_nil_r, split_once_byte_none by (auto with rstd || lia || done). cbn [obind]. by rewrite Hp.
  - pose proof (numeral_ascii _ _ _ Hd). change (37 :: decimal_text scope) with ([37] ++ decimal_text scope).
    rewrite split_once_byte by (auto 6 with rstd || lia || done). cbn [obind].
    rewrite (address_number_denotes 10 (MAX u32) scope); [|lia|done|unfold in_range in Hr; lia].
    cbn [obind]. by rewrite Hp.
Qed.

Lemma emits_port fmt c p o :
  fmt = lit "{}" -> 0 <= c < 128 -> c <> 123 -> c <> 125 -> group_ok p ->
  emits (write_fmt (c :: fmt) [integer_argument u16 p]) o ([c] ++ decimal_text p).
Proof.
  intros -> Hc H1 H2 [? ?]. eapply emits_write_fmt.
  - apply template_char; [done|done|]. cbn. template.
  - apply List.Forall_cons; [done|]. repeat (apply List.Forall_cons; [cbn; lia|]). apply List.Forall_nil.
  - apply filled_literal. rewrite <- (app_nil_r (decimal_text p)).
    apply filled_argument; [|apply filled_nil]. apply (emits_decimal u16); [done..| |done].
    unfold in_range, MIN, MAX. cbn. lia.
Qed.

Lemma emits_port6 p o :
  group_ok p -> emits (write_fmt (lit "]:{}") [integer_argument u16 p]) o ([93; 58] ++ decimal_text p).
Proof.
  intros [? ?]. eapply emits_write_fmt.
  - cbn. template.
  - repeat (apply List.Forall_cons; [cbn; lia|]). apply List.Forall_nil.
  - do 2 apply filled_literal. rewrite <- (app_nil_r (decimal_text p)).
    apply filled_argument; [|apply filled_nil]. apply (emits_decimal u16); [done..| |done].
    unfold in_range, MIN, MAX. cbn. lia.
Qed.

Lemma port_denotes p : group_ok p -> denotes 10 p (decimal_text p).
Proof. intros [? ?]. apply decimal_text_denotes. unfold in_range, MIN, MAX. cbn. lia. Qed.

(** The port is what follows the last colon. *)
Lemma socket_parse_port host p :
  ascii_text host -> group_ok p ->
  rsplit_once (host ++ [58] ++ decimal_text p) [58] = Ret (Some (host, decimal_text p)) /\
  address_number (decimal_text p) 10 65535 = Some p.
Proof.
  intros Hh Hp. pose proof (port_denotes p Hp) as Hd. pose proof (numeral_ascii _ _ _ Hd). split.
  - apply rsplit_once_byte; [auto 6 with rstd|lia|by apply (numeral_no 10 p)].
  - apply address_number_denotes; [lia|done|unfold group_ok in Hp; lia].
Qed.

Lemma socket_parse_ipv4 a b c d p :
  octet_ok a -> octet_ok b -> octet_ok c -> octet_ok d -> group_ok p ->
  socket_parse (dotted [a; b; c; d] ++ [58] ++ decimal_text p) = Ret (Ok (socket_ipv4 [a; b; c; d] p)).
Proof.
  intros Ha Hb Hc Hd Hp. pose proof (octet_denotes a Ha) as Hda.
  assert (forall v, octet_ok v -> ascii_text (decimal_text v)) as Has by (intros; by eapply numeral_ascii, octet_denotes).
  destruct (socket_parse_port (dotted [a; b; c; d]) p) as [E1 E2]; [cbn [dotted]; auto 12 with rstd|done|].
  unfold socket_parse. rewrite E1. cbn [obind]. rewrite E2.
  replace (starts_with (dotted [a; b; c; d]) [91]) with false.
  - cbn [negb]. by rewrite ipv4_parse_dotted.
  - symmetry. apply not_true_iff_false. intros [k Hk]%starts_with_spec. cbn [dotted] in Hk.
    apply (numeral_no 10 a _ 91 Hda); [done|].
    destruct (decimal_text a) as [|x ds]; [by destruct Hda as (_ & _ & [?|(?&?&?&?)])|].
    injection Hk as -> _. constructor.
Qed.

Lemma socket_parse_ipv6 host ip scope text p :
  ascii_text host -> ~ (37 ∈ host) -> ipv6_parse host = Ret (Ok ip) -> in_range u32 scope = true ->
  ascii_text text ->
  ((scope = 0 /\ text = []) \/ (text = 37 :: decimal_text scope /\ denotes 10 scope (decimal_text scope))) ->
  group_ok p ->
  socket_parse ([91] ++ (host ++ text) ++ [93] ++ [58] ++ decimal_text p) = Ret (Ok (socket_ipv6 ip p 0 scope)).
Proof.
  intros Hh Hn Hip Hr Ht Hs Hp.
  assert (is_text [91] /\ is_text [93]) as [H91 H93] by (split; auto with rstd).
  destruct (socket_parse_port ([91] ++ (host ++ text) ++ [93]) p) as [E1 E2]; [auto 8 with rstd|done|].
  rewrite <- !app_assoc in E1. unfold socket_parse. rewrite <- (app_assoc host text). rewrite E1. cbn [obind]. rewrite E2.
  rewrite (proj2 (starts_with_spec _ _)) by (by eexists). cbn [negb].
  rewrite (app_assoc host text), (app_assoc [91] (host ++ text) [93]).
  rewrite (proj2 (ends_with_spec _ _)) by (by eexists). cbn [negb].
  rewrite <- app_assoc, strip_prefix_app by auto 6 with rstd. cbn [unwrap obind].
  rewrite strip_suffix_app by auto with rstd. cbn [unwrap obind]. by apply scoped_parse_text.
Qed.

(** C14: formatting a socket address and parsing the text gives the address
    back: every IPv4 address and port, and every IPv6 address, port and scope
    (the flow label, which the notation has no place for, is lost and reads
    as zero).  The text does not depend on the formatting options. *)
Theorem socket_addr_roundtrip a o :
  addr_ok a ->
  exists text,
    emits (format_address a) o text /\
    socket_parse text = Ret (Ok (mkSocketAddr (kind a) (octets a) (port a) 0 (scope_id a))).
Proof.
  destruct a as [k os p f s]. unfold addr_ok. cbn [kind octets port flowinfo scope_id].
  intros (Hos & Hp & Hs & Hl & Hk). unfold format_address, format_ip, is_ipv6, octet. cbn [kind octets port scope_id].
  destruct k; cbn [negb].
  - destruct Hk as (Hz & -> & ->). do 4 (destruct os as [|? os]; [done|]).
    change (os = replicate 12 0) in Hz. subst os. repeat apply Forall_cons_1 in Hos as [? Hos].
    rename z into a, z0 into b, z1 into c, z2 into d. exists (dotted [a; b; c; d] ++ [58] ++ decimal_text p). split.
    + apply (emits_seq (ret tt) _ o []); [apply emits_ret|]. apply emits_seq; [by apply emits_dotted|].
      by apply (emits_port (lit "{}") 58).
    + by apply socket_parse_ipv4.
  - rewrite groups_of_words by done. destruct (words_make os 8 Hl Hos) as (Hwl & Hwg & Hwm). cbn [octets].
    destruct (emits_ipv6 (words os) o Hwl Hwg) as (host & Hha & Hhn & _ & Hhp & Hhe). rewrite Hwm in Hhp.
    destruct (emits_scope s o Hs) as (text & Hta & Hte & Htc).
    exists ([91] ++ (host ++ text) ++ [93] ++ [58] ++ decimal_text p). split.
    + apply emits_seq; [apply emits_str|]. apply emits_seq.
      * destruct (best_run 9 0 (words os) 8 0) as [best len]. by apply emits_seq.
      * by apply emits_port6.
    + by apply socket_parse_ipv6.
Qed.

Lemma socket_addr_roundtrip_witness :
  exists text, emits (format_address (mkSocketAddr V6 (replicate 14 0 ++ [1; 2]) 443 7 5)) default_options text /\
    socket_parse text = Ret (Ok (mkSocketAddr V6 (replicate 14 0 ++ [1; 2]) 443 0 5)).
Proof.
  apply (socket_addr_roundtrip (mkSocketAddr V6 (replicate 14 0 ++ [1; 2]) 443 7 5) default_options).
  unfold addr_ok. cbn [octets kind port scope_id]. split_and_all.
  - cbn. repeat (apply List.Forall_cons; [unfold octet_ok; lia|]). apply List.Forall_nil.
  - unfold group_ok. lia.
  - reflexivity.
  - reflexivity.
  - exact I.
Defined.

(** ** Every text is accepted or refused *)

(** The computation returns, with a value that satisfies [Q]. *)
Definition returns {A} (m : Parse A) (Q : A -> Prop) : Prop := ends m Q (fun _ => False).

Lemma returns_bind {A B} (m : Parse A) (k : A -> Parse B) (P : A -> Prop) (Q : B -> Prop) :
  returns m P -> (forall a, P a -> returns (k a) Q) -> returns (obind m k) Q.
Proof. unfold returns. intros Hm Hk. apply ends_bind. by apply (ends_mono _ _ _ _ _ Hm). Qed.

Lemma returns_split s p :
  is_text s -> is_text p ->
  returns (split_once s p) (fun o =>
    match o with Some (l, r) => is_text l /\ is_text r /\ (length r < length s \/ p = [])%nat | None => True end).
Proof.
  intros Hs Hp. pose proof (split_once_spec s p Hs Hp) as H. unfold returns.
  destruct (split_once s p) as [[[l r]|]|[]| |]; cbn; try done. destruct H as (-> & Hl & Hr & _).
  split_and_all; [done..|]. rewrite !length_app. destruct p; cbn; [by right|left; lia].
Qed.

Lemma returns_index (s : list Z) i (P : Z -> Prop) :
  (i < length s)%nat -> Forall P s -> returns (index s i) P.
Proof. intros Hi Hs. apply ends_index; [done|]. intros v Hv. by apply (proj1 (Forall_lookup _ _) Hs i). Qed.

Lemma is_text_ascii c : 0 <= c < 128 -> is_text [c].
Proof. intros. auto with rstd. Qed.

Lemma ipv4_loop_returns n text bytes :
  is_text text -> Forall octet_ok bytes ->
  returns (ipv4_loop n text bytes) (fun o =>
    match o with Some bs => Forall octet_ok bs /\ length bs = (n + length bytes)%nat | None => True end).
Proof.
  revert text bytes. induction n as [|n IH]; intros text bytes Ht Hb; cbn [ipv4_loop]; [done|].
  eapply returns_bind; [by apply returns_split, is_text_ascii|]. intros split Hsp.
  case_if; [done|]. case_if; [done|].
  destruct (address_number _ 10 255) as [v|] eqn:Ev; [|done].
  apply address_number_bound in Ev; [|lia..].
  eapply ends_mono; [apply IH| |done].
  - destruct split as [[l r]|]; tauto.
  - apply Forall_app. split; [done|]. apply Forall_singleton. unfold octet_ok. lia.
  - intros [bs|]; [|done]. rewrite length_app. cbn. intros [? ?]. split; [done|lia].
Qed.

(** The array of eight groups while a part is being read. *)
Definition slots_ok (groups : list Z) (count : nat) : Prop :=
  length groups = 8%nat /\ Forall group_ok groups /\ (count <= 8)%nat.

Ltac slots := unfold slots_ok; split_and_all; (done || lia).

Lemma returns_array_set groups count v :
  slots_ok groups count -> group_ok v -> (count < 8)%nat ->
  returns (array_set groups count v) (fun groups => slots_ok groups (S count)).
Proof.
  intros (Hl & Hg & _) Hv Hc. unfold array_set. rewrite (proj2 (Nat.ltb_lt _ _)) by lia. cbn.
  unfold slots_ok. rewrite length_insert. split_and_all; [done|by apply Forall_insert|lia].
Qed.

Lemma word_ok hi lo : octet_ok hi -> octet_ok lo -> group_ok (word hi lo).
Proof. intros. by apply word_bytes. Qed.

Definition part_ok (o : option (list Z * nat)) : Prop :=
  match o with Some (groups, count) => slots_ok groups count | None => True end.

Lemma ipv6_part_loop_returns fuel text groups count ipv4 :
  is_text text -> slots_ok groups count -> (length text < fuel)%nat ->
  returns (ipv6_part_loop fuel text groups count ipv4) part_ok.
Proof.
  revert text groups count. induction fuel as [|fuel IH]; intros text groups count Ht Hs Hf; [lia|].
  cbn [ipv6_part_loop]. eapply returns_bind; [by apply returns_split, is_text_ascii|]. intros split Hsp.
  set (part := match split with Some (l, _) => l | None => text end).
  assert (is_text part) as Hpart by (subst part; destruct split as [[]|]; tauto).
  apply (returns_bind _ _ part_ok).
  - case_if.
    + case_if; [done|]. apply orb_false_iff in Heqb0 as [_ Hc%Nat.ltb_ge].
      eapply returns_bind; [by apply ipv4_loop_returns; [|constructor]|].
      intros [bs|] Hbs; [|done]. destruct Hbs as [Hbs Hl]. cbn in Hl.
      eapply returns_bind; [by apply (returns_index bs 0 octet_ok); [lia|]|]. intros b0 H0.
      eapply returns_bind; [by apply (returns_index bs 1 octet_ok); [lia|]|]. intros b1 H1.
      eapply returns_bind; [apply returns_array_set; [done|by apply word_ok|lia]|]. intros groups1 Hs1.
      eapply returns_bind; [by apply (returns_index bs 2 octet_ok); [lia|]|]. intros b2 H2.
      eapply returns_bind; [by apply (returns_index bs 3 octet_ok); [lia|]|]. intros b3 H3.
      eapply returns_bind; [apply returns_array_set; [done|by apply word_ok|lia]|]. done.
    + case_if; [done|]. apply orb_false_iff in Heqb0 as [_ Hc%Nat.leb_gt].
      destruct (address_number part 16 65535) as [v|] eqn:Ev; [|done].
      apply address_number_bound in Ev; [|lia..].
      eapply returns_bind; [apply returns_array_set; [done|unfold group_ok; lia|lia]|]. done.
  - intros [[groups' count']|] Hok; [|done]. destruct split as [[l r]|]; [|done].
    case_if; [done|]. destruct Hsp as (_ & Hr & [Hlt|?]); [|done]. apply IH; [done|done|lia].
Qed.

Lemma zeros_ok : slots_ok (replicate 8 0) 0.
Proof. unfold slots_ok. split_and_all; [done|apply Forall_replicate; unfold group_ok; lia|lia]. Qed.

Lemma ipv6_part_returns text ipv4 : is_text text -> returns (address_ipv6_part text (replicate 8 0) 0 ipv4) part_ok.
Proof.
  intros Ht. unfold address_ipv6_part. case_if; [apply zeros_ok|].
  apply ipv6_part_loop_returns; [done|apply zeros_ok|lia].
Qed.

Lemma place_tail_returns n i tc groups tail :
  (n + i = tc)%nat -> (tc <= 8)%nat -> slots_ok groups 8 -> slots_ok tail 8 ->
  returns (place_tail n i tc groups tail) (fun groups => slots_ok groups 8).
Proof.
  revert i groups. induction n as [|n IH]; intros i groups Hn Hc Hg Ht; cbn [place_tail]; [done|].
  eapply returns_bind; [apply (returns_index tail i group_ok); [destruct Ht; lia|apply Ht]|]. intros v Hv.
  eapply returns_bind; [apply returns_array_set; [destruct Hg as (?&?&?); slots|done|lia]|].
  intros groups' (? & ? & _). apply IH; [lia|done|slots|done].
Qed.

Lemma ipv6_make_ok groups :
  length groups = 8%nat -> Forall group_ok groups -> length (ipv6_make groups) = 16%nat /\ Forall octet_ok (ipv6_make groups).
Proof.
  intros Hl Hg. split.
  - unfold ipv6_make. do 8 (destruct groups as [|? groups]; [done|]). by destruct groups.
  - clear Hl. unfold ipv6_make. induction groups as [|g gs IH]; cbn [map concat]; [constructor|].
    apply Forall_cons_1 in Hg as [_ Hg]. repeat constructor; try (apply Z.mod_pos_bound; lia). by apply IH.
Qed.

Definition ip_ok (n : nat) (r : result (list Z) AddrParseError) : Prop :=
  match r with Ok ip => length ip = n /\ Forall octet_ok ip | Err e => e = InvalidIp end.

Lemma ipv4_parse_returns text : is_text text -> returns (ipv4_parse text) (ip_ok 4).
Proof.
  intros Ht. eapply returns_bind; [by apply ipv4_loop_returns; [|constructor]|].
  intros [bs|]; cbn; [|done]. by intros [? ?].
Qed.

Lemma ipv6_parse_returns text : is_text text -> returns (ipv6_parse text) (ip_ok 16).
Proof.
  intros Ht. unfold ipv6_parse.
  eapply returns_bind; [by apply returns_split; auto with rstd|]. intros [[l r]|] Hsp.
  - destruct Hsp as (Hl & Hr & _). eapply returns_bind; [by apply ipv6_part_returns|].
    intros [[groups count]|] Hg; [|done]. eapply returns_bind; [by apply ipv6_part_returns|].
    intros [[tail tc]|] Hta; [|done]. case_if; [done|]. apply Nat.leb_gt in Heqb.
    destruct Hg as (? & ? & _), Hta as (? & ? & ?).
    eapply returns_bind; [apply place_tail_returns; [lia|lia|slots|slots]|].
    intros gs (Hgl & Hgo & _). by apply ipv6_make_ok.
  - eapply returns_bind; [by apply ipv6_part_returns|].
    intros [[groups count]|] Hg; [|done]. case_if; [done|]. destruct Hg as (? & ? & _). by apply ipv6_make_ok.
Qed.

Lemma unwrap_strips host :
  is_text host -> starts_with host [91] = true -> ends_with host [93] = true ->
  exists inner, is_text inner /\ strip_prefix host [91] = Some (inner ++ [93]) /\
    strip_suffix (inner ++ [93]) [93] = Some inner.
Proof.
  intros Ht [s ->]%starts_with_spec [r Hr]%ends_with_spec.
  assert (is_text s) as Hs by (apply (is_text_app_inv [91]); [auto with rstd|done]).
  destruct s as [|x s _] using rev_ind.
  { apply (f_equal list.last) in Hr. rewrite last_snoc in Hr. by cbn in Hr. }
  rewrite app_assoc in Hr. apply app_inj_tail in Hr as [_ ->].
  apply text_ascii_split in Hs as (Hs & _); [|lia]. exists s. split_and_all; [done| |].
  - apply strip_prefix_app; [auto with rstd|]. apply is_text_app; auto with rstd.
  - apply strip_suffix_app; auto with rstd.
Qed.

Lemma scoped_parse_returns host p :
  is_text host -> group_ok p ->
  returns (scoped_ipv6_parse host p) (fun r => match r with Ok a => addr_ok a | Err e => e = InvalidSocket end).
Proof.
  intros Ht Hp. unfold scoped_ipv6_parse. eapply returns_bind; [by apply returns_split; auto with rstd|].
  intros split Hsp.
  apply (returns_bind _ _ (fun o => match o with Some (s, h) => in_range u32 s = true /\ is_text h | None => True end)).
  { destruct split as [[l r]|]; [|done]. destruct (address_number r 10 (MAX u32)) as [v|] eqn:Ev; [|done].
    apply address_number_bound in Ev; [|done..]. cbn. split; [|tauto]. unfold in_range, MIN. cbn [is_signed u32]. lia. }
  intros [[s h]|]; [|done]. intros [Hs Hh]. eapply returns_bind; [by apply ipv6_parse_returns|].
  intros [ip|e]; [|done]. intros [Hl Ho]. unfold addr_ok. cbn. by split_and_all.
Qed.

(** parsing an address never fails otherwise than by refusing the text.
    On every text [SocketAddr::parse] returns: no slice is cut inside a
    character, none of its [unwrap]s panics, no group is stored outside the
    array of eight, and the loops end; what it accepts is an address the
    program can build, whose numbers fit the octets, the port and the scope. *)
Theorem socket_parse_settles text :
  is_text text ->
  exists r, socket_parse text = Ret r /\
    match r with Ok a => addr_ok a | Err e => e = InvalidSocket end.
Proof.
  intros Ht. enough (returns (socket_parse text)
    (fun r => match r with Ok a => addr_ok a | Err e => e = InvalidSocket end)) as H.
  { unfold returns in H. destruct (socket_parse text) as [r|[]| |]; [|done..]. by exists r. }
  unfold socket_parse. pose proof (rsplit_once_spec text [58] Ht ltac:(auto with rstd)) as Hsp.
  destruct (rsplit_once text [58]) as [[[host after]|]|[]| |]; try done. cbn [obind].
  destruct Hsp as (_ & Hh & _). destruct (address_number after 10 65535) as [p|] eqn:Ep; [|done].
  apply address_number_bound in Ep; [|lia..]. assert (group_ok p) by (unfold group_ok; lia).
  destruct (starts_with host [91]) eqn:Es; cbn [negb].
  - destruct (ends_with host [93]) eqn:Ee; cbn [negb]; [|done].
    destruct (unwrap_strips host Hh Es Ee) as (inner & Hi & -> & E2). cbn [unwrap obind]. rewrite E2. cbn [unwrap obind].
    by apply scoped_parse_returns.
  - eapply returns_bind; [by apply ipv4_parse_returns|]. intros [ip|e]; [|done]. intros [Hl Ho].
    do 4 (destruct ip as [|? ip]; [done|]). destruct ip; [|done]. unfold addr_ok. cbn. split_and_all; try done.
    apply (proj2 (Forall_app octet_ok [_; _; _; _] (replicate 12 0))). split; [done|].
    apply Forall_replicate. unfold octet_ok. lia.
Qed.

Lemma socket_parse_settles_witness :
  exists r, socket_parse (lit "[1::2%9]:80") = Ret r /\ match r with Ok a => addr_ok a | Err e => e = InvalidSocket end.
Proof.
  apply socket_parse_settles, text_ascii. repeat (apply List.Forall_cons; [cbn; lia|]). apply List.Forall_nil.
Defined.
