(* ===== verification/Threads.v ===== *)
(** * Threads that share a word

    The setting of the synchronisation primitives of [src/std/src/sys/sync]:
    a 32-bit word, the futex, that the threads access by atomic operations,
    and the wait queue the kernel keeps for it.  A configuration is the word
    and the control point of every thread; a step is one atomic operation of
    one thread, so that the steps of several threads interleave freely.  The
    memory is sequentially consistent: the orderings the source passes to its
    atomic operations are not modelled.

    The futex itself is the operating system's.  Its documented behaviour is
    part of the step relations: a thread blocks only if the word still has the
    expected value when the system call looks at it, a wake makes one sleeping
    thread runnable (any of them) or all of them, and a sleeping thread may
    also be interrupted. *)

From Stdlib Require Import ZArith Lia.
From stdpp Require Import relations.
From S2P Require Import Prelude.
Local Open Scope Z_scope.

Section Count.
Context {P : Type} (f : P -> bool).

(** The number of threads at a control point that satisfies [f]. *)
Fixpoint count (ts : list P) : nat :=
  match ts with
  | [] => 0
  | p :: ts => ((if f p then 1 else 0) + count ts)%nat
  end.

Lemma count_insert ts i p q :
  ts !! i = Some p ->
  (count (<[i := q]> ts) + (if f p then 1 else 0) = count ts + (if f q then 1 else 0))%nat.
Proof.
  revert i. induction ts as [|t ts IH]; intros [|i] Hi; [done..| |].
  - injection Hi as ->. change (<[0%nat := q]> (p :: ts)) with (q :: ts). cbn [count]. lia.
  - change (<[S i := q]> (t :: ts)) with (t :: <[i := q]> ts). cbn [count]. specialize (IH i Hi). lia.
Qed.

Lemma count_zero ts : count ts = 0%nat <-> forall i p, ts !! i = Some p -> f p = false.
Proof.
  split.
  - intros Hc i p. revert i. induction ts as [|t ts IH]; intros [|i] Hi; [done..| |]; cbn in Hc.
    + injection Hi as ->. destruct (f p); [lia|done].
    + apply (IH ltac:(lia) i Hi).
  - induction ts as [|t ts IH]; intros H; [done|]. cbn.
    rewrite (H 0%nat t eq_refl), IH; [done|]. intros i p Hi. by apply (H (S i)).
Qed.

Lemma count_pos ts : (0 < count ts)%nat <-> exists i p, ts !! i = Some p /\ f p = true.
Proof.
  split.
  - intros Hc. induction ts as [|t ts IH]; [cbn in Hc; lia|]. cbn in Hc. destruct (f t) eqn:E.
    + by exists 0%nat, t.
    + destruct (IH ltac:(lia)) as (i & p & Hi & Hp). by exists (S i), p.
  - intros (i & p & Hi & Hp). destruct (count ts) eqn:E; [|lia].
    pose proof (proj1 (count_zero ts) E i p Hi). congruence.
Qed.

(** At most one: two such threads are the same. *)
Lemma count_one ts i j p q :
  (count ts <= 1)%nat -> ts !! i = Some p -> ts !! j = Some q -> f p = true -> f q = true -> i = j.
Proof.
  revert i j. induction ts as [|t ts IH]; intros [|i] [|j] Hc Hi Hj Hp Hq; try done; cbn in Hc.
  - injection Hi as ->. rewrite Hp in Hc. assert (0 < count ts)%nat by (apply count_pos; by exists j, q). lia.
  - injection Hj as ->. rewrite Hq in Hc. assert (0 < count ts)%nat by (apply count_pos; by exists i, p). lia.
  - f_equal. apply IH; [destruct (f t); lia|done..].
Qed.

Lemma count_map (g : P -> P) ts : (forall p, f (g p) = f p) -> count (map g ts) = count ts.
Proof. intros H. induction ts as [|t ts IH]; [done|]. cbn. by rewrite H, IH. Qed.

Lemma count_replicate n p : f p = false -> count (replicate n p) = 0%nat.
Proof. intros Hp. induction n as [|n IH]; [done|]. cbn. by rewrite Hp. Qed.

End Count.

(** The thread at [i] after the threads [<\[i := q\]> ts]. *)
Lemma lookup_insert_cases {P} (ts : list P) i j q r :
  <[i := q]> ts !! j = Some r -> (i = j /\ r = q) \/ (i <> j /\ ts !! j = Some r).
Proof.
  destruct (decide (i = j)) as [->|Hij].
  - intros H. left. split; [done|]. pose proof (lookup_lt_Some _ _ _ H) as Hl. rewrite length_insert in Hl.
    rewrite list_lookup_insert_eq in H by done. congruence.
  - rewrite list_lookup_insert_ne by done. by right.
Qed.

(** An invariant holds in every configuration that can be reached. *)
Lemma reachable_invariant {C} (step : C -> C -> Prop) (I : C -> Prop) a b :
  I a -> (forall x y, I x -> step x y -> I y) -> rtc step a b -> I b.
Proof. intros Ha Hs Hr. induction Hr as [|x y z Hxy Hyz IH]; [done|]. apply IH. by apply (Hs x). Qed.
