(* ===== verification/FutexMutex.v ===== *)
(** * The futex mutex

    Models [src/std/src/sys/sync/mutex/futex.cpp] with the wait loop of
    [src/std/src/sys/pal/unix/futex.cpp].  A control point is the place
    between two atomic operations, with the local variables that matter. *)

From Stdlib Require Import ZArith Lia.
From stdpp Require Import relations.
From S2P Require Import Prelude Threads.
Local Open Scope Z_scope.

Definition UNLOCKED : Z := 0.
Definition LOCKED : Z := 1.
Definition CONTENDED : Z := 2.

Definition SPIN_COUNT : nat := 100.

Inductive point :=
| Outside                (** neither in a call nor holding the lock *)
| TryLock                (** in [try_lock], before its exchange *)
| Lock                   (** in [lock], before its exchange *)
| FirstSpin (n : nat)    (** the [spin] that [lock_contended] starts with *)
| Retry                  (** the exchange after a spin that saw [UNLOCKED] *)
| Reload                 (** the load after that exchange failed *)
| Loop (state : Z)       (** the head of the loop *)
| WaitLoad               (** [futex_wait]: the load of its loop *)
| WaitCall               (** [futex_wait]: the system call *)
| Asleep                 (** blocked in the kernel *)
| LoopSpin (n : nat)     (** the [spin] at the end of the loop's body *)
| Holding                (** a call has returned with the lock taken *)
| Waking.                (** in [unlock], before [wake] *)

#[export] Instance point_eq_dec : EqDecision point.
Proof. solve_decision. Defined.

(** One atomic operation of a thread at [p] on the word [w]; [None] where the
    thread does not move by itself.  [compare_exchange_strong] and [exchange]
    return the word they saw. *)
Definition compare_exchange (w expected desired : Z) : Z * bool :=
  if w =? expected then (desired, true) else (w, false).

Definition try_lock (w : Z) : Z * point :=
  let '(w, ok) := compare_exchange w UNLOCKED LOCKED in (w, if ok then Holding else Outside).

Definition lock (w : Z) : Z * point :=
  let '(w, ok) := compare_exchange w UNLOCKED LOCKED in (w, if ok then Holding else FirstSpin SPIN_COUNT).

(** A round of [spin]: the result, or one round less. *)
Definition spin (w : Z) (n : nat) : Z + nat :=
  if negb (w =? LOCKED) then inl w else match n with O => inl w | S n => inr n end.

Definition first_spin (w : Z) (n : nat) : point :=
  match spin w n with
  | inr n => FirstSpin n
  | inl state => if state =? UNLOCKED then Retry else Loop state
  end.

Definition retry (w : Z) : Z * point :=
  let '(w, ok) := compare_exchange w UNLOCKED LOCKED in (w, if ok then Holding else Reload).

Definition loop (w state : Z) : Z * point :=
  if negb (state =? CONTENDED) then (CONTENDED, if w =? UNLOCKED then Holding else WaitLoad)
  else (w, WaitLoad).

Definition loop_spin (w : Z) (n : nat) : point :=
  match spin w n with inr n => LoopSpin n | inl state => Loop state end.

(** [futex_wait(&m_futex, CONTENDED, {})] *)
Definition wait_load (w : Z) : point := if negb (w =? CONTENDED) then LoopSpin SPIN_COUNT else WaitCall.
Definition wait_call (w : Z) : point := if negb (w =? CONTENDED) then LoopSpin SPIN_COUNT else Asleep.

Definition unlock (w : Z) : Z * point := (UNLOCKED, if w =? CONTENDED then Waking else Outside).

Definition advance (w : Z) (p : point) : option (Z * point) :=
  match p with
  | TryLock => Some (try_lock w)
  | Lock => Some (lock w)
  | FirstSpin n => Some (w, first_spin w n)
  | Retry => Some (retry w)
  | Reload => Some (w, Loop w)
  | Loop state => Some (loop w state)
  | WaitLoad => Some (w, wait_load w)
  | WaitCall => Some (w, wait_call w)
  | LoopSpin n => Some (w, loop_spin w n)
  | Holding => Some (unlock w)
  | Outside | Asleep | Waking => None
  end.

Record config := mkConfig { word : Z; threads : list point }.

(** The steps of the calls under way and of the kernel, and the release of
    the lock by its holder. *)
Inductive step : config -> config -> Prop :=
| step_advance w ts i p w' p' :
    ts !! i = Some p -> advance w p = Some (w', p') -> step (mkConfig w ts) (mkConfig w' (<[i := p']> ts))
| step_wake_one w ts i j :
    ts !! i = Some Waking -> ts !! j = Some Asleep ->
    step (mkConfig w ts) (mkConfig w (<[j := WaitLoad]> (<[i := Outside]> ts)))
| step_wake_none w ts i :
    ts !! i = Some Waking -> (forall j, ts !! j <> Some Asleep) ->
    step (mkConfig w ts) (mkConfig w (<[i := Outside]> ts)).

(** Also, a thread may start a call, and a sleeping thread that a signal
    interrupts goes round the wait loop. *)
Inductive step_any : config -> config -> Prop :=
| step_program c c' : step c c' -> step_any c c'
| step_call w ts i p :
    ts !! i = Some Outside -> p = Lock \/ p = TryLock -> step_any (mkConfig w ts) (mkConfig w (<[i := p]> ts))
| step_interrupt w ts i :
    ts !! i = Some Asleep -> step_any (mkConfig w ts) (mkConfig w (<[i := WaitLoad]> ts)).

(** [Mutex::make] and [n] threads. *)
Definition start (n : nat) : config := mkConfig UNLOCKED (replicate n Outside).

Definition reachable (c : config) : Prop := exists n, rtc step_any (start n) c.

(** ** The invariant *)

Definition holds (p : point) : bool := match p with Holding => true | _ => false end.

(** Points from which a thread either takes the lock with the word at
    [CONTENDED], sleeps while it is, or is about to wake a sleeper. *)
Definition minds (p : point) : bool :=
  match p with
  | Loop _ | WaitLoad | WaitCall | LoopSpin _ | Waking => true
  | _ => false
  end.

Definition sleeps (p : point) : bool := match p with Asleep => true | _ => false end.

Definition locals_ok (p : point) : bool :=
  match p with Loop state => (0 <=? state) && (state <=? 2) | _ => true end.

Record inv (c : config) : Prop := {
  inv_word : word c = UNLOCKED \/ word c = LOCKED \/ word c = CONTENDED;
  inv_held : count holds (threads c) = if word c =? UNLOCKED then 0%nat else 1%nat;
  inv_sleep : (0 < count sleeps (threads c))%nat -> word c = CONTENDED \/ (0 < count minds (threads c))%nat
}.

Lemma mutex_inv_start n : inv (start n).
Proof.
  split; cbn; [by left|by apply count_replicate|].
  rewrite count_replicate by done. lia.
Qed.

(** A thread that moves by itself keeps the invariant. *)
Lemma mutex_advance_inv w ts i p w' p' :
  ts !! i = Some p -> advance w p = Some (w', p') -> inv (mkConfig w ts) -> inv (mkConfig w' (<[i := p']> ts)).
Proof.
  intros Hi Ha [Hw Hh Hs]. cbn [word threads] in *.
  pose proof (count_insert holds ts i p p' Hi) as Ch. pose proof (count_insert sleeps ts i p p' Hi) as Cs.
  pose proof (count_insert minds ts i p p' Hi) as Cm.
  assert (holds p = true -> (0 < count holds ts)%nat) as Hp by (intros; apply count_pos; by exists i, p).
  unfold advance, try_lock, lock, retry, loop, unlock, compare_exchange, first_spin, loop_spin, wait_load, wait_call,
    spin, UNLOCKED, LOCKED, CONTENDED in *.
  destruct p; simplify_eq/=;
    repeat match goal with
      | H : context [if ?b then _ else _] |- _ => destruct b eqn:?
      | H : context [match ?n with O => _ | S _ => _ end] |- _ => destruct n
      end; simplify_eq/=; (split; cbn [word threads]; unfold UNLOCKED, LOCKED, CONTENDED in *; repeat case_if; lia).
Qed.

Lemma sleeping_not_waking (ts : list point) i j : ts !! i = Some Waking -> ts !! j = Some Asleep -> i <> j.
Proof. congruence. Qed.

Lemma mutex_step_inv c c' : inv c -> step c c' -> inv c'.
Proof.
  intros Hinv Hs. destruct Hs as [w ts i p w' p' Hi Ha|w ts i j Hi Hj|w ts i Hi Hno].
  - by apply (mutex_advance_inv w ts i p).
  - destruct Hinv as [Hw Hh Hs]. cbn in *.
    assert (<[i := Outside]> ts !! j = Some Asleep) as Hj' by (by rewrite list_lookup_insert_ne by congruence).
    pose proof (count_insert holds ts i _ Outside Hi). pose proof (count_insert holds _ j _ WaitLoad Hj').
    pose proof (count_insert minds ts i _ Outside Hi). pose proof (count_insert minds _ j _ WaitLoad Hj').
    split; cbn in *; [done|lia|intros; right; lia].
  - destruct Hinv as [Hw Hh Hs]. cbn in *. pose proof (count_insert holds ts i _ Outside Hi).
    pose proof (count_insert sleeps ts i _ Outside Hi).
    assert (count sleeps ts = 0%nat) as Hz.
    { apply count_zero. intros j q Hj. destruct q; try done. exfalso; exact (Hno j Hj). }
    split; cbn in *; [done|lia|lia].
Qed.

Lemma mutex_step_any_inv c c' : inv c -> step_any c c' -> inv c'.
Proof.
  intros Hinv Hst. destruct Hst as [c1 c2 Hs|w ts i p Hi Hp|w ts i Hi]; [by apply (mutex_step_inv c1)| |];
    destruct Hinv as [Hw Hh Hs]; cbn in *.
  { pose proof (count_insert holds ts i _ p Hi). pose proof (count_insert sleeps ts i _ p Hi).
    pose proof (count_insert minds ts i _ p Hi). split; cbn; [done|..]; destruct Hp as [->| ->]; cbn in *; lia. }
  pose proof (count_insert holds ts i _ WaitLoad Hi). pose proof (count_insert minds ts i _ WaitLoad Hi).
  split; cbn in *; [done|lia|intros; right; lia].
Qed.

Lemma mutex_reachable_inv c : reachable c -> inv c.
Proof. intros [n Hr]. apply (reachable_invariant step_any inv (start n)); [apply mutex_inv_start|apply mutex_step_any_inv|done]. Qed.

(** ** The abstract lock *)

(** Who holds the lock. *)
Definition holder (c : config) (o : option nat) : Prop :=
  forall i, threads c !! i = Some Holding <-> o = Some i.

(** An abstract lock is free or held by one thread; it is acquired when free
    and released by its holder. *)
Inductive lock_step : option nat -> option nat -> Prop :=
| lock_acquire i : lock_step None (Some i)
| lock_release i : lock_step (Some i) None.

Lemma holder_exists c : inv c -> exists o, holder c o /\ (o = None <-> word c = UNLOCKED).
Proof.
  intros [_ Hh _]. destruct (Z.eqb_spec (word c) UNLOCKED) as [Hu|Hu].
  - exists None. split; [|done]. intros i. split; [|done]. intros Hi.
    pose proof (proj1 (count_zero holds _) Hh i Holding Hi). done.
  - destruct (proj1 (count_pos holds (threads c))) as (i & p & Hi & Hp); [lia|]. destruct p; try done.
    exists (Some i). split; [|done]. intros j. split; [|intros [= <-]; done].
    intros Hj. f_equal. apply (count_one holds (threads c) i j Holding Holding); (done || lia).
Qed.

(** Replacing the point of one thread changes the holder only if that point
    starts or stops holding. *)
Lemma holder_insert w w' ts i p p' o :
  ts !! i = Some p -> holder (mkConfig w ts) o ->
  (p' <> Holding -> p <> Holding -> holder (mkConfig w' (<[i := p']> ts)) o) /\
  (p = Holding -> p' <> Holding -> o = Some i /\ holder (mkConfig w' (<[i := p']> ts)) None) /\
  (p' = Holding -> o = None -> holder (mkConfig w' (<[i := p']> ts)) (Some i)).
Proof.
  intros Hi Ho. unfold holder in *. cbn [threads] in *. split_and_all.
  - intros Hp' Hp j. rewrite <- Ho. destruct (decide (i = j)) as [<-|Hij].
    + rewrite list_lookup_insert_eq by (by apply lookup_lt_Some in Hi). split; congruence.
    + by rewrite list_lookup_insert_ne by done.
  - intros -> Hp'. apply Ho in Hi as Hoi. split; [done|]. intros j. split; [|done].
    intros [[-> ?]|[Hij Hj]]%lookup_insert_cases; [by subst|]. apply Ho in Hj. congruence.
  - intros -> ->. intros j. split.
    + intros [[-> _]|[_ Hj]]%lookup_insert_cases; [done|]. by apply Ho in Hj.
    + intros [= <-]. by rewrite list_lookup_insert_eq by (by apply lookup_lt_Some in Hi).
Qed.

Lemma advance_holder w p w' p' :
  advance w p = Some (w', p') -> p' = Holding -> p <> Holding /\ w = UNLOCKED.
Proof.
  unfold advance, try_lock, lock, retry, loop, unlock, compare_exchange, first_spin, loop_spin, wait_load, wait_call, spin.
  intros Ha ->. destruct p; simplify_eq/=;
    repeat match goal with
      | H : context [if ?b then _ else _] |- _ => destruct b eqn:?
      | H : context [match ?n with O => _ | S _ => _ end] |- _ => destruct n
      end; simplify_eq/=; (split; [done|lia]).
Qed.

(** C9: the futex mutex implements a lock.  In every state any number of
    threads can reach by calling [lock], [try_lock] and [unlock], with their
    atomic operations interleaved in any order and sleepers interrupted at
    any time, at most one thread holds the lock, and nobody holds it exactly
    when the word is [UNLOCKED]; and every step either leaves the holder
    alone, or acquires a free lock, or releases the lock of its holder. *)
Theorem mutex_refines_lock c :
  reachable c ->
  exists o, holder c o /\ (o = None <-> word c = UNLOCKED) /\
    forall c', step_any c c' -> exists o', holder c' o' /\ (o' = o \/ lock_step o o').
Proof.
  intros Hr%mutex_reachable_inv. destruct (holder_exists c Hr) as (o & Ho & Hw). exists o. split_and_all; [done..|].
  intros c' Hs. pose proof (mutex_step_any_inv c c' Hr Hs) as Hinv'.
  destruct Hs as [c c' [w ts i p w' p' Hi Ha|w ts i j Hi Hj|w ts i Hi Hno]|w ts i p Hi Hp|w ts i Hi].
  - destruct (holder_insert w w' ts i p p' o Hi Ho) as (H1 & H2 & H3).
    destruct (decide (p' = Holding)) as [Hp'|Hp'].
    + destruct (advance_holder _ _ _ _ Ha Hp') as [_ Hu]. apply Hw in Hu as ->.
      exists (Some i). split; [by apply H3|right; constructor].
    + destruct (decide (p = Holding)) as [Hp|Hp].
      * destruct (H2 Hp Hp') as [-> ?]. exists None. split; [done|right; constructor].
      * exists o. split; [by apply H1|by left].
  - exists o. split; [|by left]. apply (holder_insert w w _ j Asleep); [|by apply (holder_insert w w ts i Waking)|done..].
    by rewrite list_lookup_insert_ne by congruence.
  - exists o. split; [|by left]. by apply (holder_insert w w ts i Waking).
  - exists o. split; [|by left]. apply (holder_insert w w ts i _ p o Hi Ho); [|done]. by destruct Hp as [->| ->].
  - exists o. split; [|by left]. by apply (holder_insert w w ts i Asleep).
Qed.

(** ** Nobody is forgotten *)

(** A thread inside [lock]. *)
Definition contends (p : point) : bool :=
  match p with
  | Outside | TryLock | Holding | Waking => false
  | _ => true
  end.

(** What one thread does while the others stand still. *)
Definition solo (a b : Z * point) : Prop := advance (fst a) (snd a) = Some b.

Lemma mutex_solo_steps a b ts i :
  rtc solo a b -> ts !! i = Some (snd a) ->
  rtc step (mkConfig (fst a) ts) (mkConfig (fst b) (<[i := snd b]> ts)).
Proof.
  intros Hr. revert ts. induction Hr as [[w p]|[w p] [w' p'] [w'' p''] Ha Hr IH]; intros ts Hi; cbn in *.
  - by rewrite list_insert_id.
  - eapply rtc_l; [by eapply step_advance|]. rewrite <- (list_insert_insert_eq ts i p'' p').
    apply IH. by rewrite list_lookup_insert_eq by (by apply lookup_lt_Some in Hi).
Qed.

Ltac solo := repeat first [apply rtc_refl | eapply rtc_l; [cbv; reflexivity|]].

(** With the word free a contender that is awake takes the lock, and those
    that [minds] singles out leave the word at [CONTENDED]. *)
Lemma solo_acquire p :
  contends p = true -> p <> Asleep ->
  exists w, rtc solo (UNLOCKED, p) (w, Holding) /\ (minds p = true -> w = CONTENDED).
Proof.
  intros Hc Ha. destruct p as [| | |n| | |state| | | |n| |]; try done.
  1-3: exists LOCKED; (split; [solo|done]).
  - exists CONTENDED. split; [solo|done].
  - exists CONTENDED. split; [|done]. destruct (Z.eqb_spec state CONTENDED) as [->|Hs]; [solo|].
    eapply rtc_l; [|apply rtc_refl]. unfold solo. cbn. unfold loop. by rewrite (proj2 (Z.eqb_neq _ _)) by done.
  - exists CONTENDED. split; [solo|done].
  - exists CONTENDED. split; [solo|done].
  - exists CONTENDED. split; [solo|done].
Qed.

(** The holder, if any, releases the lock. *)
Lemma release c i p :
  inv c -> threads c !! i = Some p -> contends p = true ->
  exists c', rtc step c c' /\ inv c' /\ word c' = UNLOCKED /\ threads c' !! i = Some p.
Proof.
  intros Hinv Hi Hp. destruct (Z.eqb_spec (word c) UNLOCKED) as [Hu|Hu].
  { exists c. by split_and_all. }
  pose proof (inv_held c Hinv) as Hh. rewrite (proj2 (Z.eqb_neq _ _)) in Hh by done.
  destruct (proj1 (count_pos holds (threads c))) as (h & q & Hhi & Hq); [lia|]. destruct q; try done.
  destruct c as [w ts]. cbn in *.
  assert (step (mkConfig w ts) (mkConfig UNLOCKED (<[h := snd (unlock w)]> ts))) as Hs by (by eapply step_advance).
  eexists. split; [by apply rtc_once|]. split; [by eapply mutex_step_inv|]. split; [done|]. cbn [threads].
  rewrite list_lookup_insert_ne; [done|]. intros ->. rewrite Hi in Hhi. by injection Hhi as ->.
Qed.

(** A sleeper is woken, with the lock free again. *)
Lemma wake_sleeper c i :
  inv c -> word c = UNLOCKED -> threads c !! i = Some Asleep ->
  exists ts, rtc step c (mkConfig UNLOCKED ts) /\ ts !! i = Some WaitLoad.
Proof.
  intros Hinv Hu Hi. destruct c as [w ts]. cbn in *. subst w.
  assert (forall ts k, ts !! k = Some Waking -> ts !! i = Some Asleep ->
    exists ts', rtc step (mkConfig UNLOCKED ts) (mkConfig UNLOCKED ts') /\ ts' !! i = Some WaitLoad) as Hwake.
  { clear. intros ts k Hk Hi. eexists. split; [by apply rtc_once, step_wake_one|].
    rewrite list_lookup_insert_eq; [done|]. rewrite length_insert. by apply lookup_lt_Some in Hi. }
  destruct (inv_sleep _ Hinv) as [Hc|Hm]; [apply count_pos; by exists i, Asleep|done|].
  apply count_pos in Hm as (k & q & Hk & Hq). cbn in Hk.
  destruct (decide (q = Waking)) as [->|Hne]; [by apply (Hwake ts k)|].
  destruct (solo_acquire q) as (w & Hs & Hw); [by destruct q|by destruct q|]. specialize (Hw Hq) as ->.
  assert (i <> k) as Hik by (intros ->; rewrite Hi in Hk; by injection Hk as <-).
  pose proof (lookup_lt_Some _ _ _ Hk) as Hlt. set (ts1 := <[k := Holding]> ts).
  assert (ts1 !! k = Some Holding) as Hk1 by (by apply list_lookup_insert_eq).
  destruct (Hwake (<[k := Waking]> ts1) k) as (ts' & Hr & Hi').
  - apply list_lookup_insert_eq. subst ts1. by rewrite length_insert.
  - subst ts1. by rewrite !list_lookup_insert_ne.
  - exists ts'. split; [|done]. transitivity (mkConfig CONTENDED ts1); [by apply (mutex_solo_steps (UNLOCKED, q) (CONTENDED, Holding))|].
    eapply rtc_l; [|exact Hr]. by apply (step_advance _ _ k Holding).
Qed.

Lemma mutex_refines_lock_witness :
  exists o, holder (mkConfig LOCKED [Holding; Lock]) o /\ o <> None.
Proof.
  assert (reachable (mkConfig LOCKED [Holding; Lock])) as Hr.
  { exists 2%nat.
    eapply rtc_l; [apply (step_call 0 [Outside; Outside] 0 Lock); [reflexivity|left; reflexivity]|].
    eapply rtc_l; [apply (step_call 0 [Lock; Outside] 1 Lock); [reflexivity|left; reflexivity]|].
    eapply rtc_l; [apply step_program, (step_advance 0 [Lock; Lock] 0 Lock LOCKED Holding); reflexivity|].
    apply rtc_refl. }
  destruct (mutex_refines_lock _ Hr) as (o & Ho & Hw & _). exists o. split; [exact Ho|].
  intros E. apply Hw in E. discriminate E.
Defined.

(** No wakeup is lost.  From every reachable state, every thread that has
    called [lock] and not returned, asleep in the kernel or not, can still
    acquire the lock by steps of the program and the kernel in which no sleeper
    is interrupted and no thread starts a new call: a thread that sleeps is
    always sure to be woken by the holder's [unlock], by a wake under way, or by
    a thread that will itself pass through the contended lock. *)
Theorem mutex_lock_reachable c i p :
  reachable c -> threads c !! i = Some p -> contends p = true ->
  exists c', rtc step c c' /\ threads c' !! i = Some Holding.
Proof.
  intros Hr%mutex_reachable_inv Hi Hp. destruct (release c i p Hr Hi Hp) as (c1 & H1 & Hinv1 & Hu1 & Hi1).
  assert (exists ts q, rtc step c1 (mkConfig UNLOCKED ts) /\ ts !! i = Some q /\ contends q = true /\ q <> Asleep)
    as (ts & q & H2 & Hq & Hc & Hne).
  { destruct (decide (p = Asleep)) as [->|Hne].
    - destruct (wake_sleeper c1 i Hinv1 Hu1 Hi1) as (ts & H2 & Hq). by exists ts, WaitLoad.
    - destruct c1 as [w ts]. cbn in *. subst w. by exists ts, p. }
  destruct (solo_acquire q Hc Hne) as (w & Hs & _).
  exists (mkConfig w (<[i := Holding]> ts)). split.
  - etransitivity; [exact H1|]. etransitivity; [exact H2|]. by apply (mutex_solo_steps (UNLOCKED, q) (w, Holding)).
  - apply list_lookup_insert_eq. by apply lookup_lt_Some in Hq.
Qed.

Lemma mutex_lock_reachable_witness :
  exists c', rtc step (mkConfig UNLOCKED [Lock]) c' /\ threads c' !! 0%nat = Some Holding.
Proof.
  assert (reachable (mkConfig UNLOCKED [Lock])) as Hr.
  { exists 1%nat. apply rtc_once, (step_call 0 [Outside] 0 Lock); [reflexivity|left; reflexivity]. }
  exact (mutex_lock_reachable _ 0 Lock Hr eq_refl eq_refl).
Defined.
