(* ===== verification/FutexOnce.v ===== *)
(** * One-time initialisation

    Models [src/std/src/sys/sync/once/futex.cpp]: [Once::call] runs a callback
    exactly once, however many threads call it, and returns in none of them
    before it has run; [Once::wait] blocks until then.  The futex holds the
    state in its two low bits and, next to them, whether anybody waits. *)

From Stdlib Require Import ZArith Lia ZifyBool.
From stdpp Require Import relations.
From S2P Require Import Prelude Threads.
Local Open Scope Z_scope.

Definition COMPLETE : Z := 0.
Definition RUNNING : Z := 1.
Definition INCOMPLETE : Z := 3.
Definition QUEUED : Z := 4.
Definition STATE_MASK : Z := 3.

(** The function a thread is in. *)
Inductive entry := Call | Wait.

Inductive point :=
| Outside
| Start (e : entry)                    (** before the first load *)
| Loop (e : entry) (v : Z)             (** the head of the loop, with [state_and_queued] *)
| Callback                             (** the callback runs *)
| Finish                               (** it has returned, before the exchange *)
| WakingAll                            (** before [futex_wake_all] *)
| WaitLoad (e : entry) (v : Z)         (** [futex_wait]: the load of its loop *)
| WaitCall (e : entry) (v : Z)         (** [futex_wait]: the system call *)
| Asleep (e : entry) (v : Z)
| Reload (e : entry)                   (** the load after [futex_wait] *)
| Done.                                (** the call has returned *)

#[export] Instance entry_eq_dec : EqDecision entry.
Proof. solve_decision. Defined.
#[export] Instance point_eq_dec : EqDecision point.
Proof. solve_decision. Defined.

(** [compare_exchange_weak] may fail without a reason. *)
Definition compare_exchange_weak (spurious : bool) (w expected desired : Z) : Z * bool :=
  if (w =? expected) && negb spurious then (desired, true) else (w, false).

Definition is_queued (v : Z) : bool := negb (Z.land v QUEUED =? 0).

(** Both loops queue the thread the same way. *)
Definition enqueue (spurious : bool) (w : Z) (e : entry) (v : Z) : Z * point :=
  if negb (is_queued v) then
    let desired := Z.lor v QUEUED in
    let '(w, ok) := compare_exchange_weak spurious w v desired in
    (w, if ok then WaitLoad e desired else Loop e w)
  else (w, WaitLoad e v).

Definition wait_loop (spurious : bool) (w v : Z) : Z * point :=
  let state := Z.land v STATE_MASK in
  if state =? COMPLETE then (w, Done) else enqueue spurious w Wait v.

Definition call_loop (spurious : bool) (w v : Z) : Z * point :=
  let state := Z.land v STATE_MASK in
  if state =? COMPLETE then (w, Done)
  else if state =? INCOMPLETE then
    let next := Z.lor RUNNING (if is_queued v then QUEUED else 0) in
    let '(w, ok) := compare_exchange_weak spurious w v next in
    (w, if ok then Callback else Loop Call w)
  else enqueue spurious w Call v.

(** [exchange(COMPLETE)] *)
Definition finish (w : Z) : Z * point := (COMPLETE, if is_queued w then WakingAll else Done).

Definition advance (spurious : bool) (w : Z) (p : point) : option (Z * point) :=
  match p with
  | Start e => Some (w, Loop e w)
  | Loop Call v => Some (call_loop spurious w v)
  | Loop Wait v => Some (wait_loop spurious w v)
  | Callback => Some (w, Finish)
  | Finish => Some (finish w)
  | WaitLoad e v => Some (w, if negb (w =? v) then Reload e else WaitCall e v)
  | WaitCall e v => Some (w, if negb (w =? v) then Reload e else Asleep e v)
  | Reload e => Some (w, Loop e w)
  | Outside | WakingAll | Asleep _ _ | Done => None
  end.

(** [Once::is_completed] *)
Definition is_completed (w : Z) : bool := w =? COMPLETE.

(** The operations of an exclusive owner. *)
Inductive ExclusiveState := Incomplete | Complete.

Definition state (w : Z) : ExclusiveState := if w =? COMPLETE then Complete else Incomplete.

Definition set_state (s : ExclusiveState) : Z :=
  match s with Complete => COMPLETE | Incomplete => INCOMPLETE end.

(** [futex_wake_all] *)
Definition awaken (p : point) : point := match p with Asleep e v => WaitLoad e v | _ => p end.

(** The word, the threads, and how often the callback was started and has
    returned. *)
Record config := mkConfig { word : Z; threads : list point; started : nat; returned : nat }.

Definition starts (p p' : point) : nat := match p' with Callback => 1%nat | _ => 0%nat end.
Definition returns (p p' : point) : nat := match p with Callback => 1%nat | _ => 0%nat end.

Inductive step : config -> config -> Prop :=
| step_advance w ts s r i p spurious w' p' :
    ts !! i = Some p -> advance spurious w p = Some (w', p') ->
    step (mkConfig w ts s r) (mkConfig w' (<[i := p']> ts) (s + starts p p') (r + returns p p'))
| step_wake_all w ts s r i :
    ts !! i = Some WakingAll ->
    step (mkConfig w ts s r) (mkConfig w (map awaken (<[i := Done]> ts)) s r).

Inductive step_any : config -> config -> Prop :=
| step_program c c' : step c c' -> step_any c c'
| step_call w ts s r i p e :
    ts !! i = Some p -> p = Outside \/ p = Done ->
    step_any (mkConfig w ts s r) (mkConfig w (<[i := Start e]> ts) s r)
| step_interrupt w ts s r i e v :
    ts !! i = Some (Asleep e v) ->
    step_any (mkConfig w ts s r) (mkConfig w (<[i := WaitLoad e v]> ts) s r).

Definition start (n : nat) : config := mkConfig INCOMPLETE (replicate n Outside) 0 0.

Definition reachable (c : config) : Prop := exists n, rtc step_any (start n) c.

(** ** The invariant *)

Definition in_callback (p : point) : bool := match p with Callback => true | _ => false end.
Definition in_finish (p : point) : bool := match p with Finish => true | _ => false end.
Definition sleeps (p : point) : bool := match p with Asleep _ _ => true | _ => false end.
Definition wakes (p : point) : bool := match p with WakingAll => true | _ => false end.

(** The five values of the word, and how far each has got. *)
Definition stage (w : Z) : option nat :=
  if (w =? 3) || (w =? 7) then Some 0%nat
  else if (w =? 1) || (w =? 5) then Some 1%nat
  else if w =? 0 then Some 2%nat
  else None.

(** The stage never goes back, so what a thread has read is a lower bound. *)
Definition behind (v w : Z) : bool :=
  match stage v, stage w with Some a, Some b => (a <=? b)%nat | _, _ => false end.

(** What is known of the word [w] at a control point. *)
Definition point_ok (w : Z) (p : point) : bool :=
  match p with
  | Loop _ v => behind v w
  | WaitLoad e v | WaitCall e v | Asleep e v =>
    behind v w && is_queued v && match e with Call => v =? 5 | Wait => true end
  | WakingAll | Done => w =? 0
  | _ => true
  end.

Record inv (c : config) : Prop := {
  inv_word : is_Some (stage (word c));
  inv_points : forall i p, threads c !! i = Some p -> point_ok (word c) p = true;
  inv_running : (count in_callback (threads c) + count in_finish (threads c))%nat =
    (if decide (stage (word c) = Some 1%nat) then 1 else 0)%nat;
  inv_started : started c = (if decide (stage (word c) = Some 0%nat) then 0 else 1)%nat;
  inv_returned : (returned c + count in_callback (threads c))%nat = started c;
  inv_sleep : (0 < count sleeps (threads c))%nat ->
    is_queued (word c) = true \/ (0 < count wakes (threads c))%nat
}.

Lemma once_inv_start n : inv (start n).
Proof.
  split; cbn; rewrite ?count_replicate by done; cbn; try done; [|lia].
  intros i p Hi. by apply lookup_replicate in Hi as [-> _].
Qed.

Lemma stage_cases w a : stage w = Some a ->
  (w = 3 \/ w = 7) /\ a = 0%nat \/ (w = 1 \/ w = 5) /\ a = 1%nat \/ w = 0 /\ a = 2%nat.
Proof. unfold stage. repeat case_if; intros [= <-]; lia. Qed.

(** Points stay right while the word moves on. *)
Lemma point_ok_mono w w' p : behind w w' = true -> point_ok w p = true -> point_ok w' p = true.
Proof.
  unfold behind. intros Hb.
  destruct (stage w) as [a|] eqn:Ea; [|done]. destruct (stage w') as [b|] eqn:Eb; [|done].
  apply Nat.leb_le in Hb.
  assert (forall v, behind v w = true -> behind v w' = true) as Hv.
  { intros v. unfold behind. rewrite Ea, Eb. destruct (stage v); [|done]. intros ?%Nat.leb_le. apply Nat.leb_le. lia. }
  assert (w = 0 -> w' = 0) as H0.
  { intros ->. apply stage_cases in Ea, Eb. lia. }
  destruct p; cbn [point_ok]; try done; rewrite ?andb_true_iff, ?Z.eqb_eq; intuition auto.
Qed.

(** The numbers the invariant counts, as functions of the word. *)
Definition running (w : Z) : nat := if decide (stage w = Some 1%nat) then 1 else 0.
Definition begun (w : Z) : nat := if decide (stage w = Some 0%nat) then 0 else 1.
Definition b2n (b : bool) : nat := if b then 1 else 0.

(** Splits a word by its value. *)
Ltac words H :=
  let a := fresh in let E := fresh in
  destruct H as [a E]; apply stage_cases in E; destruct E as [[[-> | ->] _]|[[[-> | ->] _]|[-> _]]].

Lemma behind_stage v w : behind v w = true -> is_Some (stage v).
Proof. unfold behind. destruct (stage v); [by eexists|done]. Qed.

Lemma point_ok_word w p v :
  p = Loop Call v \/ p = Loop Wait v \/ (exists e, p = WaitLoad e v \/ p = WaitCall e v) ->
  point_ok w p = true -> is_Some (stage v).
Proof.
  intros Hp Ho. apply (behind_stage v w).
  destruct Hp as [->|[->|(e & [->| ->])]]; cbn [point_ok] in Ho; rewrite ?andb_true_iff in Ho; tauto.
Qed.

Lemma advance_effect spurious w p w' p' :
  is_Some (stage w) -> point_ok w p = true -> ((in_callback p || in_finish p) = true -> stage w = Some 1%nat) ->
  advance spurious w p = Some (w', p') ->
  behind w w' = true /\ point_ok w' p' = true /\
  (b2n (in_callback p') + b2n (in_finish p') + running w = b2n (in_callback p) + b2n (in_finish p) + running w')%nat /\
  (starts p p' + begun w = begun w')%nat /\
  (returns p p' + b2n (in_callback p') = b2n (in_callback p) + starts p p')%nat /\
  (sleeps p' = true -> is_queued w' = true) /\
  (is_queued w = true -> is_queued w' = true \/ wakes p' = true) /\
  wakes p = false /\ sleeps p = false.
Proof.
  intros Hw Ho Hr Ha.
  destruct p as [|e|[|] v| | | |e v|e v|e v|e|]; try done;
    try (assert (is_Some (stage v)) as Hv by (eapply (point_ok_word w _ v); [|exact Ho]; eauto 6); words Hv);
    words Hw; try done; destruct spurious; vm_compute in Ha; simplify_eq;
    try destruct e; try done; vm_compute in Ho; try done; vm_compute in Hr; try (specialize (Hr eq_refl); done);
    split_and_all; vm_compute; (done || auto).
Qed.

Lemma count_in (f : point -> bool) ts i p q :
  ts !! i = Some p -> (count f (<[i := q]> ts) + b2n (f p) = count f ts + b2n (f q))%nat.
Proof. apply count_insert. Qed.

Lemma points_insert w w' (ts : list point) i p' :
  behind w w' = true -> point_ok w' p' = true ->
  (forall j q, ts !! j = Some q -> point_ok w q = true) ->
  forall j q, <[i := p']> ts !! j = Some q -> point_ok w' q = true.
Proof.
  intros Hb Hp' Hts j q [[_ ->]|[_ Hj]]%lookup_insert_cases; [done|]. eapply point_ok_mono; [done|by eapply Hts].
Qed.

Lemma behind_refl w : is_Some (stage w) -> behind w w = true.
Proof. intros [a E]. unfold behind. rewrite E. apply Nat.leb_refl. Qed.

(** A change of one thread that is none of those counted, the word unchanged. *)
Lemma quiet_inv w ts s r i p p' :
  inv (mkConfig w ts s r) -> ts !! i = Some p -> point_ok w p' = true ->
  in_callback p = in_callback p' -> in_finish p = in_finish p' -> wakes p = wakes p' ->
  (sleeps p' = true -> sleeps p = true) ->
  inv (mkConfig w (<[i := p']> ts) s r).
Proof.
  intros [Hw Hp Hr Hs Hret Hsl] Hi Ho E1 E2 E3 E4. cbn in *.
  pose proof (count_in in_callback ts i p p' Hi) as C1. pose proof (count_in in_finish ts i p p' Hi) as C2.
  pose proof (count_in wakes ts i p p' Hi) as C3. pose proof (count_in sleeps ts i p p' Hi) as C4.
  rewrite E1 in C1. rewrite E2 in C2. rewrite E3 in C3.
  split; cbn; [done| |clear -Hr C1 C2; lia|done|clear -Hret C1; lia|].
  - apply (points_insert w w); [by apply behind_refl|done|done].
  - intros Hc. destruct Hsl as [?|?]; [|by left|right; clear -H C3; lia].
    clear -Hc C4 E4. destruct (sleeps p'), (sleeps p); cbn in C4; lia.
Qed.

Lemma count_awaken (f : point -> bool) ts :
  (forall p, f (awaken p) = f p) -> count f (map awaken ts) = count f ts.
Proof. intros H. by apply count_map. Qed.

Lemma once_step_inv c c' : inv c -> step c c' -> inv c'.
Proof.
  intros Hinv Hst. destruct Hst as [w ts s r i p spurious w' p' Hi Ha|w ts s r i Hi].
  - destruct Hinv as [Hw Hp Hr Hs Hret Hsl]. cbn in *.
    assert ((in_callback p || in_finish p) = true -> stage w = Some 1%nat) as Hrun.
    { intros Hc. destruct (decide (stage w = Some 1%nat)); [done|]. exfalso.
      apply orb_true_iff in Hc as [Hc|Hc];
        assert (0 < count _ ts)%nat by (apply count_pos; exists i, p; split; [done|exact Hc]); lia. }
    destruct (advance_effect spurious w p w' p' Hw (Hp _ _ Hi) Hrun Ha) as (Hb & Ho & E1 & E2 & E3 & E4 & E5 & E6 & E7).
    pose proof (count_in in_callback ts i p p' Hi) as C1. pose proof (count_in in_finish ts i p p' Hi) as C2.
    pose proof (count_in wakes ts i p p' Hi) as C3. pose proof (count_in sleeps ts i p p' Hi) as C4.
    rewrite E6 in C3. rewrite E7 in C4. unfold running, begun in *. split; cbn.
    + unfold behind in Hb. destruct (stage w), (stage w'); try done.
    + by apply (points_insert w).
    + clear -C1 C2 E1 Hr. lia.
    + clear -E2 Hs. lia.
    + clear -E3 C1 Hret. lia.
    + intros Hc. destruct (sleeps p') eqn:Esp; [left; by apply E4|]. cbn in C3, C4. clear -Hsl E5 C3 C4 Hc.
      destruct Hsl as [Hq|Hk]; [clear -Hc C4; lia| |right; clear -Hk C3; lia].
      destruct (E5 Hq) as [?|Hk]; [by left|]. rewrite Hk in C3. cbn in C3. right. clear -C3. lia.
  - destruct Hinv as [Hw Hp Hr Hs Hret Hsl]. cbn in *. pose proof (Hp _ _ Hi) as Hz. cbn in Hz. apply Z.eqb_eq in Hz as ->.
    pose proof (count_in in_callback ts i _ Done Hi) as C1. pose proof (count_in in_finish ts i _ Done Hi) as C2.
    cbn in C1, C2. split; cbn; rewrite ?count_awaken by (by intros []);
      [done| |etransitivity; [|exact Hr]; lia|done|lia|].
    + intros j q. rewrite list_lookup_fmap. destruct (<[i := Done]> ts !! j) as [q'|] eqn:Ej; [|done].
      intros [= <-]. enough (point_ok 0 q' = true) by (by destruct q').
      destruct (lookup_insert_cases _ _ _ _ _ Ej) as [[_ ->]|[_ ?]]; [done|by eapply Hp].
    + intros Hc. exfalso. apply count_pos in Hc as (j & q & Hj & Hq). rewrite list_lookup_fmap in Hj.
      destruct (<[i := Done]> ts !! j) as [q'|]; [|done]. injection Hj as <-. by destruct q'.
Qed.

Lemma once_step_any_inv c c' : inv c -> step_any c c' -> inv c'.
Proof.
  intros Hinv Hst. destruct Hst as [c c' Hs|w ts s r i p e Hi Hp|w ts s r i e v Hi]; [by apply (once_step_inv c)| |].
  - apply (quiet_inv w ts s r i p); [done|done|done|by destruct Hp as [->| ->]..|done].
  - apply (quiet_inv w ts s r i _ (WaitLoad e v) Hinv Hi); try done. exact (inv_points _ Hinv _ _ Hi).
Qed.

Lemma once_reachable_inv c : reachable c -> inv c.
Proof. intros [n Hr]. apply (reachable_invariant step_any inv (start n)); [apply once_inv_start|apply once_step_any_inv|done]. Qed.

(** Nobody is in one of the functions: the owner has exclusive access. *)
Definition exclusive (c : config) : Prop :=
  forall i p, threads c !! i = Some p -> p = Outside \/ p = Done.

(** What an exclusive owner reads is whether the callback has run, and it can
    put the cell back into the state it begins in. *)
Lemma state_exact c :
  reachable c -> exclusive c ->
  (state (word c) = Complete <-> started c = 1%nat) /\ returned c = started c.
Proof.
  intros [Hw Hp Hr Hs Hret _]%once_reachable_inv He. destruct c as [w ts s r]. cbn [word threads started returned] in *.
  assert (forall f : point -> bool, f Outside = false -> f Done = false -> count f ts = 0%nat) as H0.
  { intros f HO HD. destruct (decide (count f ts = 0%nat)) as [|Hn]; [done|]. exfalso.
    destruct (proj1 (count_pos f ts)) as (i & p & Hi & Hf); [lia|]. destruct (He i p Hi) as [->| ->]; congruence. }
  rewrite !H0 in Hr by done. rewrite H0 in Hret by done.
  split; [|lia]. rewrite Hs. words Hw; cbn; try done; split; done.
Qed.

Lemma set_state_state s : state (set_state s) = s.
Proof. by destruct s. Qed.

Lemma set_state_start n : word (start n) = set_state Incomplete.
Proof. done. Qed.

(** C39: the callback runs exactly once.  In every state that threads calling
    [call] and [wait] in any interleaving can reach, the callback has been
    started at most once; it has not been started as long as the state is
    [INCOMPLETE]; and as soon as one of those functions has returned, in
    whatever thread, it has been started once and has returned. *)
Theorem once_runs_once c :
  reachable c ->
  (started c <= 1)%nat /\ (returned c <= started c)%nat /\
  (Z.land (word c) STATE_MASK = INCOMPLETE -> started c = 0%nat) /\
  forall i, threads c !! i = Some Done -> started c = 1%nat /\ returned c = 1%nat.
Proof.
  intros [Hw Hp Hr Hs Hret _]%once_reachable_inv. destruct c as [w ts s r]. cbn [word threads started returned] in *.
  split_and_all.
  - rewrite Hs. case_decide; lia.
  - lia.
  - intros Hi. rewrite Hs. case_decide as Hd; [done|]. words Hw; by destruct Hd.
  - intros i Hi. specialize (Hp _ _ Hi). cbn in Hp. apply Z.eqb_eq in Hp. subst w.
    rewrite decide_False in Hr by done. rewrite decide_False in Hs by done. lia.
Qed.

Lemma once_runs_once_witness :
  let c := mkConfig COMPLETE [Done; Outside] 1 1 in reachable c /\ (started c <= 1)%nat.
Proof.
  assert (reachable (mkConfig COMPLETE [Done; Outside] 1 1)) as Hr.
  { exists 2%nat.
    eapply rtc_l; [apply (step_call 3 [Outside; Outside] 0 0 0 Outside Call); [reflexivity|left; reflexivity]|].
    eapply rtc_l; [apply step_program, (step_advance 3 [Start Call; Outside] 0 0 0 (Start Call) false 3 (Loop Call 3)); reflexivity|].
    eapply rtc_l; [apply step_program, (step_advance 3 [Loop Call 3; Outside] 0 0 0 (Loop Call 3) false 1 Callback); reflexivity|].
    eapply rtc_l; [apply step_program, (step_advance 1 [Callback; Outside] 1 0 0 Callback false 1 Finish); reflexivity|].
    eapply rtc_l; [apply step_program, (step_advance 1 [Finish; Outside] 1 1 0 Finish false 0 Done); reflexivity|].
    apply rtc_refl. }
  split; [exact Hr|]. exact (proj1 (once_runs_once _ Hr)).
Defined.

(** ** Everybody gets through *)

(** A step never takes a thread out of its function except by returning. *)
Lemma step_engaged c c' i p :
  step c c' -> threads c !! i = Some p -> p <> Outside ->
  exists p', threads c' !! i = Some p' /\ p' <> Outside.
Proof.
  intros Hs Hi Hp. destruct Hs as [w ts s r j q spurious w' q' Hj Ha|w ts s r j Hj]; cbn [threads] in *.
  - destruct (decide (j = i)) as [->|Hji]; [|exists p; by rewrite list_lookup_insert_ne].
    exists q'. rewrite list_lookup_insert_eq by (by apply lookup_lt_Some in Hj). split; [done|].
    intros ->. unfold advance, call_loop, wait_loop, enqueue, finish, compare_exchange_weak in Ha.
    destruct q as [|e|[|] v| | | |e v|e v|e v|e|]; try done;
      repeat match goal with H : context [if ?b then _ else _] |- _ => destruct b end; simplify_eq.
  - rewrite list_lookup_fmap. destruct (decide (j = i)) as [->|Hji].
    + rewrite list_lookup_insert_eq by (by apply lookup_lt_Some in Hj). by exists Done.
    + rewrite list_lookup_insert_ne, Hi by done. exists (awaken p). split; [done|]. by destruct p.
Qed.

Lemma steps_engaged c c' i p :
  rtc step c c' -> threads c !! i = Some p -> p <> Outside ->
  exists p', threads c' !! i = Some p' /\ p' <> Outside.
Proof.
  intros Hr. revert p. induction Hr as [c|c c1 c2 H1 Hr IH]; intros p Hi Hp; [by exists p|].
  destruct (step_engaged _ _ _ _ H1 Hi Hp) as (p' & Hi' & Hp'). by apply (IH p').
Qed.

Lemma steps_inv c c' : inv c -> rtc step c c' -> inv c'.
Proof. intros Hi Hr. by apply (reachable_invariant step inv c); [|apply once_step_inv|]. Qed.

(** What one thread does while the others stand still and no exchange fails
    without a reason. *)
Definition solo (a b : Z * point) : Prop := advance false (fst a) (snd a) = Some b.

Lemma once_solo_steps a b c i :
  rtc solo a b -> word c = fst a -> threads c !! i = Some (snd a) ->
  exists c', rtc step c c' /\ word c' = fst b /\ threads c' !! i = Some (snd b).
Proof.
  intros Hr. revert c. induction Hr as [a|a b d Ha Hr IH]; intros c Hw Hi; [by exists c|].
  destruct c as [w ts s r], a as [w0 p], b as [w1 p1]. cbn in Hw, Hi. subst w0.
  destruct (IH (mkConfig w1 (<[i := p1]> ts) (s + starts p p1) (r + returns p p1)) eq_refl) as (c' & H1 & H2 & H3).
  { cbn. by rewrite list_lookup_insert_eq by (by apply lookup_lt_Some in Hi). }
  exists c'. split; [|done]. eapply rtc_l; [|exact H1]. by apply step_advance with (spurious := false).
Qed.

Ltac solo := repeat first [apply rtc_refl | eapply rtc_l; [cbv; reflexivity|]].

(** A thread awake in one of the functions, with the callback done. *)
Lemma solo_done p :
  p <> Outside -> p <> WakingAll -> sleeps p = false -> in_callback p = false -> in_finish p = false ->
  point_ok 0 p = true -> rtc solo (0, p) (0, Done).
Proof.
  intros H1 H2 H3 H4 H5 Ho.
  assert (forall e v, v <> 0 -> is_Some (stage v) -> rtc solo (0, Loop e v) (0, Done)) as Hloop.
  { intros e v Hv Hs. words Hs; try done; destruct e; solo. }
  destruct p as [|e|[|] v| | | |e v|e v|e v|e|]; try done; try (destruct e; solo; fail).
  - assert (is_Some (stage v)) as Hs by (by apply (behind_stage v 0)).
    destruct (decide (v = 0)) as [->|]; [solo|by apply Hloop].
  - assert (is_Some (stage v)) as Hs by (by apply (behind_stage v 0)).
    destruct (decide (v = 0)) as [->|]; [solo|by apply Hloop].
  - assert (is_Some (stage v)) as Hs by (apply (point_ok_word 0 _ v ltac:(eauto 6) Ho)). words Hs; try done; destruct e; try done; solo.
  - assert (is_Some (stage v)) as Hs by (apply (point_ok_word 0 _ v ltac:(eauto 6) Ho)). words Hs; try done; destruct e; try done; solo.
Qed.

(** A thread in [call], which will run the callback if nobody has. *)
Definition in_call (p : point) : bool :=
  match p with
  | Start Call | Loop Call _ | WaitLoad Call _ | WaitCall Call _ | Asleep Call _ | Reload Call => true
  | _ => false
  end.

Lemma begin_callback c j q :
  inv c -> stage (word c) = Some 0%nat -> threads c !! j = Some q -> in_call q = true ->
  exists c', rtc step c c' /\ stage (word c') = Some 1%nat.
Proof.
  intros Hinv Hw Hj Hq. pose proof (inv_points c Hinv j q Hj) as Ho.
  assert (exists w', rtc solo (word c, q) (w', Callback) /\ stage w' = Some 1%nat) as (w' & Hs & Hw').
  { destruct (stage_cases _ _ Hw) as [[[E|E] _]|[[_ ?]|[_ ?]]]; [| |done..]; rewrite E in *;
      [exists 1|exists 5]; (split; [|done]);
      (destruct q as [|[|]|[|] v| | | |[|] v|[|] v|[|] v|[|]|]; try done; try (solo; fail);
       try (pose proof (behind_stage _ _ Ho) as Hv; words Hv; first [solo; fail | by vm_compute in Ho]; fail);
       exfalso; cbn [point_ok] in Ho; apply andb_true_iff in Ho as [Ho Hv]; apply Z.eqb_eq in Hv as ->; done). }
  destruct (once_solo_steps _ _ c j Hs eq_refl Hj) as (c' & Hr & Hc & _). exists c'. split; [done|]. by rewrite Hc.
Qed.

Lemma finish_callback c :
  inv c -> stage (word c) = Some 1%nat -> exists c', rtc step c c' /\ word c' = 0.
Proof.
  intros Hinv Hw. pose proof (inv_running c Hinv) as Hr. rewrite decide_True in Hr by done.
  assert (exists k q, threads c !! k = Some q /\ (q = Callback \/ q = Finish)) as (k & q & Hk & Hq).
  { destruct (decide (0 < count in_callback (threads c))%nat) as [Hp|Hp].
    - apply count_pos in Hp as (k & q & Hk & Hq). exists k, q. split; [done|]. left. by destruct q.
    - destruct (proj1 (count_pos in_finish (threads c))) as (k & q & Hk & Hq); [lia|].
      exists k, q. split; [done|]. right. by destruct q. }
  assert (exists q', rtc solo (word c, q) (0, q')) as (q' & Hs).
  { eexists. destruct Hq as [->| ->]; [eapply rtc_l; [reflexivity|]|]; apply rtc_once; reflexivity. }
  destruct (once_solo_steps _ _ c k Hs eq_refl Hk) as (c' & ? & ? & _). by exists c'.
Qed.

Lemma return_when_done c i p :
  inv c -> word c = 0 -> threads c !! i = Some p -> p <> Outside ->
  exists c', rtc step c c' /\ threads c' !! i = Some Done.
Proof.
  intros Hinv Hw Hi Hp.
  assert (forall c p, inv c -> word c = 0 -> threads c !! i = Some p -> p <> Outside -> p <> WakingAll -> sleeps p = false ->
    exists c', rtc step c c' /\ threads c' !! i = Some Done) as Hawake.
  { clear. intros c p Hinv Hw Hi Hp H1 H2. pose proof (inv_points c Hinv i p Hi) as Ho.
    pose proof (inv_running c Hinv) as Hr. rewrite Hw in Ho, Hr. rewrite decide_False in Hr by done.
    assert (in_callback p = false /\ in_finish p = false) as [Hc Hf].
    { split; [apply (proj1 (count_zero in_callback (threads c)) ltac:(lia) i p Hi)|
        apply (proj1 (count_zero in_finish (threads c)) ltac:(lia) i p Hi)]. }
    destruct (once_solo_steps (0, p) (0, Done) c i) as (c' & ? & _ & ?); [by apply solo_done|done|done|]. by exists c'. }
  destruct c as [w ts s r]. cbn in Hw, Hi. subst w.
  assert (forall k, ts !! k = Some WakingAll ->
    step (mkConfig 0 ts s r) (mkConfig 0 (map awaken (<[k := Done]> ts)) s r)) as Hwake by (intros; by constructor).
  destruct (decide (p = WakingAll)) as [->|Hpw].
  { eexists. split; [by apply rtc_once, (Hwake i)|]. cbn [threads].
    by rewrite list_lookup_fmap, list_lookup_insert_eq by (by apply lookup_lt_Some in Hi). }
  destruct (sleeps p) eqn:Hsl; [|by apply (Hawake _ p)].
  destruct (inv_sleep _ Hinv) as [?|Hk]; [apply count_pos; by exists i, p|done|]. cbn [threads] in Hk.
  apply count_pos in Hk as (k & q & Hk & Hq). destruct q; try done.
  destruct p as [| | | | | | | |e v| |]; try done.
  destruct (Hawake (mkConfig 0 (map awaken (<[k := Done]> ts)) s r) (WaitLoad e v)) as (c' & Hr & Hc); try done.
  - by eapply once_step_inv, Hwake.
  - cbn [threads]. rewrite list_lookup_fmap, list_lookup_insert_ne by congruence. by rewrite Hi.
  - exists c'. split; [|done]. eapply rtc_l; [by apply Hwake|done].
Qed.

(** Nobody waits in vain.  From every reachable state in which the callback
    has been started, or some thread is in [call], every thread in [call] or
    [wait], asleep or not, can still return, by steps of the calls under way and
    the kernel in which no sleeper is interrupted: the thread that runs the
    callback wakes all that queued up before it was done, and nobody goes to
    sleep after that. *)
Theorem once_waiters_return c i p :
  reachable c -> threads c !! i = Some p -> p <> Outside ->
  (started c = 1%nat \/ exists j q, threads c !! j = Some q /\ in_call q = true) ->
  exists c', rtc step c c' /\ threads c' !! i = Some Done.
Proof.
  intros Hinv%once_reachable_inv Hi Hp Hcause.
  assert (exists c1, rtc step c c1 /\ word c1 = 0) as (c1 & H1 & Hw1).
  { assert (exists c2, rtc step c c2 /\ (stage (word c2) = Some 1%nat \/ word c2 = 0)) as (c2 & H2 & Hc2).
    { pose proof (inv_word c Hinv) as [a Ha]. destruct (stage_cases _ _ Ha) as [[_ ->]|[[_ ->]|[? _]]].
      - destruct Hcause as [Hs|(j & q & Hj & Hq)].
        + rewrite (inv_started c Hinv), decide_True in Hs by done. lia.
        + destruct (begin_callback c j q Hinv Ha Hj Hq) as (c2 & ? & ?). exists c2. tauto.
      - exists c. split; [done|]. by left.
      - exists c. split; [done|]. by right. }
    destruct Hc2 as [Hc2|Hc2]; [|by exists c2].
    destruct (finish_callback c2) as (c1 & ? & ?); [by apply (steps_inv c)|done|].
    exists c1. split; [by etransitivity|done]. }
  destruct (steps_engaged c c1 i p H1 Hi Hp) as (p' & Hi' & Hp').
  destruct (return_when_done c1 i p') as (c' & ? & ?); [by apply (steps_inv c)|done..|].
  exists c'. split; [by etransitivity|done].
Qed.

Lemma once_waiters_return_witness :
  let c := mkConfig INCOMPLETE [Start Wait; Start Call] 0 0 in
  exists c', rtc step c c' /\ threads c' !! 0%nat = Some Done.
Proof.
  assert (reachable (mkConfig INCOMPLETE [Start Wait; Start Call] 0 0)) as Hr.
  { exists 2%nat.
    eapply rtc_l; [apply (step_call 3 [Outside; Outside] 0 0 0 Outside Wait); [reflexivity|left; reflexivity]|].
    eapply rtc_l; [apply (step_call 3 [Start Wait; Outside] 0 0 1 Outside Call); [reflexivity|left; reflexivity]|].
    apply rtc_refl. }
  apply (once_waiters_return _ 0 (Start Wait) Hr eq_refl); [discriminate|].
  right. exists 1%nat, (Start Call). split; reflexivity.
Defined.
