(* ===== verification/FutexParker.v ===== *)
(** * Parking a thread

    Models [src/std/src/sys/sync/thread_parking/futex.cpp]: one thread, the
    owner, parks itself; any thread may unpark it, before, during or after.
    The parker implements a token: [unpark] makes it available, [park] returns
    when it has taken it. *)

From Stdlib Require Import ZArith Lia.
From stdpp Require Import relations.
From S2P Require Import Prelude Threads.
Local Open Scope Z_scope.

(** [State::MAX] on a 32-bit futex. *)
Definition PARKED : Z := 2 ^ 32 - 1.
Definition EMPTY : Z := 0.
Definition NOTIFIED : Z := 1.

(** [fetch_sub] wraps around. *)
Definition fetch_sub (w n : Z) : Z := (w - n) mod 2 ^ 32.

(** Where the owner is; [timed] tells [park_timeout] from [park]. *)
Inductive point :=
| Outside
| Parking (timed : bool)             (** before [fetch_sub] *)
| WaitLoad (timed : bool)            (** [futex_wait]: the load of its loop *)
| WaitCall (timed : bool)            (** [futex_wait]: the system call *)
| Asleep (timed : bool)
| Awake (timed : bool)               (** after [futex_wait] *)
| Returned (token : bool).           (** the call has returned, with the token or without *)

Definition park_entry (timed : bool) (w : Z) : Z * point :=
  (fetch_sub w NOTIFIED, if w =? NOTIFIED then Returned true else WaitLoad timed).

(** [compare_exchange_strong(NOTIFIED, EMPTY)], or round the loop. *)
Definition park_awake (w : Z) : Z * point :=
  if w =? NOTIFIED then (EMPTY, Returned true) else (w, WaitLoad false).

(** [exchange(EMPTY)] *)
Definition park_timeout_awake (w : Z) : Z * point := (EMPTY, Returned (w =? NOTIFIED)).

Definition advance (w : Z) (p : point) : option (Z * point) :=
  match p with
  | Parking timed => Some (park_entry timed w)
  | WaitLoad timed => Some (w, if negb (w =? PARKED) then Awake timed else WaitCall timed)
  | WaitCall timed => Some (w, if negb (w =? PARKED) then Awake timed else Asleep timed)
  | Awake false => Some (park_awake w)
  | Awake true => Some (park_timeout_awake w)
  | Outside | Asleep _ | Returned _ => None
  end.

(** [unpark]: the exchange, and whether a wake follows. *)
Definition unpark (w : Z) : Z * bool := (NOTIFIED, w =? PARKED).

(** The word, the owner, and the number of threads about to wake it. *)
Record config := mkConfig { word : Z; owner : point; waking : nat }.

(** The steps of the calls under way and the kernel. *)
Inductive step : config -> config -> Prop :=
| step_advance w p n w' p' : advance w p = Some (w', p') -> step (mkConfig w p n) (mkConfig w' p' n)
| step_wake w p n :
    step (mkConfig w p (S n)) (mkConfig w (match p with Asleep timed => WaitLoad timed | _ => p end) n).

(** Also: a new call of the owner, an unpark by any thread, an interrupt, and
    the end of a timed wait, asleep or about to be. *)
Inductive step_any : config -> config -> Prop :=
| step_program c c' : step c c' -> step_any c c'
| step_park w p n timed : (p = Outside \/ exists b, p = Returned b) -> step_any (mkConfig w p n) (mkConfig w (Parking timed) n)
| step_unpark w p n w' wake :
    unpark w = (w', wake) -> step_any (mkConfig w p n) (mkConfig w' p (if wake then S n else n))
| step_interrupt w timed n : step_any (mkConfig w (Asleep timed) n) (mkConfig w (WaitLoad timed) n)
| step_timeout w n p : p = Asleep true \/ p = WaitCall true -> step_any (mkConfig w p n) (mkConfig w (Awake true) n).

Definition start : config := mkConfig EMPTY Outside 0.

Definition reachable (c : config) : Prop := rtc step_any start c.

(** ** The invariant *)

(** The owner has announced itself and not left yet. *)
Definition parked (p : point) : bool :=
  match p with WaitLoad _ | WaitCall _ | Asleep _ | Awake _ => true | _ => false end.

Record inv (c : config) : Prop := {
  inv_word : word c = NOTIFIED \/ word c = if parked (owner c) then PARKED else EMPTY;
  inv_sleep : (exists timed, owner c = Asleep timed) -> word c = PARKED \/ (0 < waking c)%nat
}.

Lemma parker_inv_start : inv start.
Proof. split; [by right|]. intros [timed E]. done. Qed.

Lemma parker_advance_inv w p n w' p' :
  advance w p = Some (w', p') -> inv (mkConfig w p n) -> inv (mkConfig w' p' n).
Proof.
  intros Ha [Hw Hs]. cbn [word owner waking] in *.
  assert (w = NOTIFIED \/ w = PARKED \/ w = EMPTY) as Hc by (destruct (parked p); tauto).
  destruct p as [|timed|timed|timed|timed|timed|b]; try done; destruct timed;
    destruct Hc as [->|[->| ->]]; vm_compute in Hw; (try (destruct Hw; done)); vm_compute in Ha; simplify_eq;
    (split; cbn; [(by left) || (by right)|intros [t E]; (done || by left)]).
Qed.

Lemma parker_step_any_inv c c' : inv c -> step_any c c' -> inv c'.
Proof.
  intros Hinv Hst. destruct Hst as [c c' Hs|w p n timed Hp|w p n w' wake Hu|w timed n|w n p Hp].
  - destruct Hs as [w p n w' p' Ha|w p n]; [by apply (parker_advance_inv w p)|].
    destruct Hinv as [Hw Hs]. split; cbn in *; [by destruct p|]. intros [t E]. by destruct p.
  - destruct Hinv as [Hw Hs]. split; cbn in *; [by destruct Hp as [->|[b ->]]|]. intros [t E]. done.
  - destruct Hinv as [Hw Hs]. unfold unpark in Hu. injection Hu as <- <-. split; cbn in *; [by left|].
    intros Ha. right. destruct (Z.eqb_spec w PARKED); [lia|]. destruct (Hs Ha); [done|lia].
  - destruct Hinv as [Hw Hs]. split; cbn in *; [done|]. intros [t E]. done.
  - destruct Hinv as [Hw Hs]. split; cbn in *; [by destruct Hp as [->| ->]|]. intros [t E]. done.
Qed.

Lemma parker_reachable_inv c : reachable c -> inv c.
Proof. apply (reachable_invariant step_any inv start); [apply parker_inv_start|apply parker_step_any_inv]. Qed.

(** ** The token *)

(** The token is there exactly when the word says [NOTIFIED]. *)
Definition token (c : config) : bool := word c =? NOTIFIED.

(** C40: a parker is a token.  In every reachable state, a step makes the token
    available only in [unpark], which always does, however often it was
    available before; a step takes it away only by making the call of the owner
    return with it; [park] never returns without having taken it, and
    [park_timeout] returns without it only if it was not there.  So a call of
    [unpark] before [park] makes that [park] return, and one [unpark] frees at
    most one [park]. *)
Theorem parker_is_token c :
  reachable c ->
  (forall p n w' wake, c = mkConfig (word c) p n -> unpark (word c) = (w', wake) ->
     token (mkConfig w' p (if wake then S n else n)) = true) /\
  (forall w p n w' p', c = mkConfig w p n -> advance w p = Some (w', p') ->
     match p' with
     | Returned true => token c = true /\ (w' =? NOTIFIED) = false
     | Returned false => token c = false /\ (w' =? NOTIFIED) = false /\ p = Awake true
     | _ => (w' =? NOTIFIED) = token c
     end).
Proof.
  intros [Hw Hs]%parker_reachable_inv. split.
  - intros p n w' wake _ Hu. by injection Hu as <- _.
  - intros w p n w' p' -> Ha. cbn [word owner waking] in *. unfold token. cbn [word].
    assert (w = NOTIFIED \/ w = PARKED \/ w = EMPTY) as Hc by (destruct (parked p); tauto).
    destruct p as [|timed|timed|timed|timed|timed|b]; try done; destruct timed;
      destruct Hc as [->|[->| ->]]; vm_compute in Hw; (try (destruct Hw; done)); vm_compute in Ha; simplify_eq; done.
Qed.

Lemma parker_is_token_witness :
  token (mkConfig NOTIFIED Outside 0) = true /\ reachable (mkConfig EMPTY (Returned true) 0).
Proof.
  assert (reachable start) as H0 by apply rtc_refl.
  pose proof (proj1 (parker_is_token start H0) Outside 0%nat NOTIFIED false eq_refl eq_refl) as Ht.
  split; [exact Ht|].
  eapply rtc_l; [apply (step_unpark EMPTY Outside 0 NOTIFIED false); reflexivity|].
  eapply rtc_l; [apply (step_park NOTIFIED Outside 0 false); left; reflexivity|].
  eapply rtc_l; [apply step_program, (step_advance NOTIFIED (Parking false) 0 EMPTY (Returned true)); reflexivity|].
  apply rtc_refl.
Defined.

(** ** No wakeup is lost *)

Definition in_park (p : point) : bool :=
  match p with Outside | Returned _ => false | _ => true end.

(** An available token reaches the owner.  From every reachable state in
    which the token is available and the owner is in [park] or [park_timeout],
    asleep or not, the call can return with the token by steps of the calls
    under way and the kernel, without an interrupt and without waiting for a
    timeout: a thread that has made the token available while the owner slept
    is about to wake it. *)
Theorem parker_token_arrives c :
  reachable c -> token c = true -> in_park (owner c) = true ->
  exists c', rtc step c c' /\ owner c' = Returned true.
Proof.
  intros Hinv%parker_reachable_inv Ht Hp. destruct c as [w p n]. unfold token in Ht. cbn in Ht, Hp.
  apply Z.eqb_eq in Ht as ->.
  assert (forall n p, in_park p = true -> (forall timed, p <> Asleep timed) ->
    exists c', rtc step (mkConfig NOTIFIED p n) c' /\ owner c' = Returned true) as Hawake.
  { clear. intros n p Hp Ha. destruct p as [|timed|timed|timed|timed|timed|b]; try done; try (by destruct (Ha timed));
      exists (mkConfig EMPTY (Returned true) n); (split; [|done]); destruct timed;
      repeat first [apply rtc_refl | eapply rtc_l; [apply step_advance; cbv; reflexivity|]]. }
  destruct p as [|timed|timed|timed|timed|timed|b]; try done; try (by apply Hawake).
  destruct (inv_sleep _ Hinv) as [?|Hn]; [by exists timed|done|]. cbn in Hn. destruct n as [|n]; [lia|].
  destruct (Hawake n (WaitLoad timed)) as (c' & Hr & Hc); [done|done|].
  exists c'. split; [|done]. eapply rtc_l; [apply step_wake|done].
Qed.

Lemma parker_token_arrives_witness :
  exists c', rtc step (mkConfig NOTIFIED (Parking false) 0) c' /\ owner c' = Returned true.
Proof.
  apply parker_token_arrives; [|reflexivity|reflexivity].
  eapply rtc_l; [apply (step_park EMPTY Outside 0 false); left; reflexivity|].
  eapply rtc_l; [apply (step_unpark EMPTY (Parking false) 0 NOTIFIED false); reflexivity|].
  apply rtc_refl.
Defined.
