(* ===== verification/FutexCondvar.v ===== *)
(** * The futex condition variable

    Models [src/std/src/sys/sync/condvar/futex.cpp] with the wait loop of
    [src/std/src/sys/pal/unix/futex.cpp].  The mutex a thread waits with is an
    abstract lock, which is what [FutexMutex] shows the futex mutex to be. *)

From Stdlib Require Import ZArith Lia.
From stdpp Require Import relations.
From S2P Require Import Prelude Threads.
Local Open Scope Z_scope.

(** The counter of notifications wraps around. *)
Definition fetch_add (seq n : Z) : Z := (seq + n) mod 2 ^ 32.

(** The kind of a notification: [notify_one] or [notify_all]. *)
Inductive extent := One | All.

(** The values [v] are what [wait_optional_timeout] has loaded. *)
Inductive point :=
| Outside
| Held                                 (** holding the lock, in no call *)
| WaitEntry                            (** before the load *)
| WaitUnlock (v : Z)                   (** before [mutex.unlock()] *)
| WaitLoad (v : Z)                     (** [futex_wait]: the load of its loop *)
| WaitCall (v : Z)                     (** [futex_wait]: the system call *)
| Asleep (v : Z)
| Relock (notified : bool)             (** before [mutex.lock()] *)
| NotifyAdd (e : extent) (held : bool) (** before [fetch_add]; holding the lock or not *)
| NotifyWake (e : extent) (held : bool).

Definition holds_lock (p : point) : bool :=
  match p with
  | Held | WaitEntry | WaitUnlock _ => true
  | NotifyAdd _ held | NotifyWake _ held => held
  | _ => false
  end.

Definition back (held : bool) : point := if held then Held else Outside.

(** [futex_wake] and [futex_wake_all] make sleepers go round the wait loop. *)
Definition awaken (p : point) : point := match p with Asleep v => WaitLoad v | _ => p end.

Record config := mkConfig { seq : Z; locked : option nat; threads : list point }.

(** The steps of the calls under way and the kernel. *)
Inductive step : config -> config -> Prop :=
| step_load s l ts i :
    ts !! i = Some WaitEntry -> step (mkConfig s l ts) (mkConfig s l (<[i := WaitUnlock s]> ts))
| step_wait_unlock s l ts i v :
    ts !! i = Some (WaitUnlock v) -> step (mkConfig s l ts) (mkConfig s None (<[i := WaitLoad v]> ts))
| step_wait_load s l ts i v :
    ts !! i = Some (WaitLoad v) ->
    step (mkConfig s l ts) (mkConfig s l (<[i := if negb (s =? v) then Relock true else WaitCall v]> ts))
| step_wait_call s l ts i v :
    ts !! i = Some (WaitCall v) ->
    step (mkConfig s l ts) (mkConfig s l (<[i := if negb (s =? v) then Relock true else Asleep v]> ts))
| step_relock s ts i b :
    ts !! i = Some (Relock b) -> step (mkConfig s None ts) (mkConfig s (Some i) (<[i := Held]> ts))
| step_notify_add s l ts i e held :
    ts !! i = Some (NotifyAdd e held) ->
    step (mkConfig s l ts) (mkConfig (fetch_add s 1) l (<[i := NotifyWake e held]> ts))
| step_wake_one s l ts i j held v :
    ts !! i = Some (NotifyWake One held) -> ts !! j = Some (Asleep v) ->
    step (mkConfig s l ts) (mkConfig s l (<[j := WaitLoad v]> (<[i := back held]> ts)))
| step_wake_none s l ts i held :
    ts !! i = Some (NotifyWake One held) -> (forall j v, ts !! j <> Some (Asleep v)) ->
    step (mkConfig s l ts) (mkConfig s l (<[i := back held]> ts))
| step_wake_all s l ts i held :
    ts !! i = Some (NotifyWake All held) ->
    step (mkConfig s l ts) (mkConfig s l (map awaken (<[i := back held]> ts))).

(** Also: the uses of the lock, new calls, interrupts, and the end of a timed
    wait. *)
Inductive step_any : config -> config -> Prop :=
| step_program c c' : step c c' -> step_any c c'
| step_lock s ts i :
    ts !! i = Some Outside -> step_any (mkConfig s None ts) (mkConfig s (Some i) (<[i := Held]> ts))
| step_unlock s l ts i :
    ts !! i = Some Held -> step_any (mkConfig s l ts) (mkConfig s None (<[i := Outside]> ts))
| step_wait s l ts i :
    ts !! i = Some Held -> step_any (mkConfig s l ts) (mkConfig s l (<[i := WaitEntry]> ts))
| step_notify s l ts i e held :
    ts !! i = Some (back held) -> step_any (mkConfig s l ts) (mkConfig s l (<[i := NotifyAdd e held]> ts))
| step_interrupt s l ts i v :
    ts !! i = Some (Asleep v) -> step_any (mkConfig s l ts) (mkConfig s l (<[i := WaitLoad v]> ts))
| step_timeout s l ts i v :
    ts !! i = Some (Asleep v) -> step_any (mkConfig s l ts) (mkConfig s l (<[i := Relock false]> ts)).

Definition start (n : nat) : config := mkConfig 0 None (replicate n Outside).

Definition reachable (c : config) : Prop := exists n, rtc step_any (start n) c.

(** ** The lock *)

(** The threads that the program believes to hold the lock are its holder. *)
Definition inv (c : config) : Prop :=
  forall i, (exists p, threads c !! i = Some p /\ holds_lock p = true) <-> locked c = Some i.

Lemma inv_same s s' l ts i p p' :
  ts !! i = Some p -> holds_lock p' = holds_lock p -> inv (mkConfig s l ts) -> inv (mkConfig s' l (<[i := p']> ts)).
Proof.
  intros Hi Hp Hinv j. rewrite <- (Hinv j). cbn [threads]. split.
  - intros (q & [[<- ->]|[_ Hj]]%lookup_insert_cases & Hq); [exists p; split; [done|congruence]|by exists q].
  - intros (q & Hj & Hq). destruct (decide (i = j)) as [->|Hij].
    + exists p'. rewrite list_lookup_insert_eq by (by apply lookup_lt_Some in Hj). split; [done|congruence].
    + exists q. by rewrite list_lookup_insert_ne.
Qed.

Lemma inv_take s ts i p p' :
  ts !! i = Some p -> holds_lock p' = true -> inv (mkConfig s None ts) -> inv (mkConfig s (Some i) (<[i := p']> ts)).
Proof.
  intros Hi Hp Hinv j. cbn [threads locked]. split.
  - intros (q & [[<- _]|[_ Hj]]%lookup_insert_cases & Hq); [done|].
    assert (@None nat = Some j) by (apply (Hinv j); by exists q). done.
  - intros [= <-]. exists p'. by rewrite list_lookup_insert_eq by (by apply lookup_lt_Some in Hi).
Qed.

Lemma inv_drop s l ts i p p' :
  ts !! i = Some p -> holds_lock p = true -> holds_lock p' = false ->
  inv (mkConfig s l ts) -> inv (mkConfig s None (<[i := p']> ts)).
Proof.
  intros Hi Hp Hp' Hinv j. cbn [threads locked]. split; [|done].
  intros (q & [[_ ->]|[Hij Hj]]%lookup_insert_cases & Hq); [congruence|].
  assert (l = Some i) as E1 by (apply (Hinv i); by exists p).
  assert (l = Some j) as E2 by (apply (Hinv j); by exists q). congruence.
Qed.

Lemma inv_awaken s l ts : inv (mkConfig s l ts) -> inv (mkConfig s l (map awaken ts)).
Proof.
  intros Hinv j. rewrite <- (Hinv j). cbn [threads]. rewrite list_lookup_fmap. split.
  - intros (q & Hj & Hq). destruct (ts !! j) as [r|]; [|done]. injection Hj as <-. exists r. by destruct r.
  - intros (q & -> & Hq). exists (awaken q). by destruct q.
Qed.

Lemma condvar_step_any_inv c c' : inv c -> step_any c c' -> inv c'.
Proof.
  intros Hinv Hst. destruct Hst as [c c' Hs|s ts i Hi|s l ts i Hi|s l ts i Hi|s l ts i e held Hi|s l ts i v Hi|s l ts i v Hi].
  - destruct Hs as [s l ts i Hi|s l ts i v Hi|s l ts i v Hi|s l ts i v Hi|s ts i b Hi|s l ts i e held Hi
      |s l ts i j held v Hi Hj|s l ts i held Hi Hn|s l ts i held Hi].
    + by apply (inv_same s s l ts i WaitEntry).
    + by apply (inv_drop s l ts i (WaitUnlock v)).
    + apply (inv_same s s l ts i (WaitLoad v)); [done|by destruct (negb _)|done].
    + apply (inv_same s s l ts i (WaitCall v)); [done|by destruct (negb _)|done].
    + by apply (inv_take s ts i (Relock b)).
    + by apply (inv_same s (fetch_add s 1) l ts i (NotifyAdd e held)).
    + apply (inv_same s s l _ j (Asleep v)); [by rewrite list_lookup_insert_ne by congruence|done|].
      apply (inv_same s s l ts i (NotifyWake One held)); [done|by destruct held|done].
    + apply (inv_same s s l ts i (NotifyWake One held)); [done|by destruct held|done].
    + apply inv_awaken, (inv_same s s l ts i (NotifyWake All held)); [done|by destruct held|done].
  - by apply (inv_take s ts i Outside).
  - by apply (inv_drop s l ts i Held).
  - by apply (inv_same s s l ts i Held).
  - apply (inv_same s s l ts i (back held)); [done|by destruct held|done].
  - by apply (inv_same s s l ts i (Asleep v)).
  - by apply (inv_same s s l ts i (Asleep v)).
Qed.

(** Waiting gives the lock back and takes it again.  In every reachable
    state the lock is held exactly by the one thread, if any, that the program
    believes to hold it: from a call of [wait] until it unlocks the mutex, and
    again once it has returned, the waiting thread is that thread, and while
    it sleeps or is being woken it is not. *)
Theorem condvar_keeps_lock c :
  reachable c ->
  forall i, (exists p, threads c !! i = Some p /\ holds_lock p = true) <-> locked c = Some i.
Proof.
  intros [n Hr]. apply (reachable_invariant step_any inv (start n)); [|apply condvar_step_any_inv|done].
  intros i. cbn. split; [|done]. intros (p & Hi & Hp). by apply lookup_replicate in Hi as [-> _].
Qed.

Lemma condvar_keeps_lock_witness :
  locked (mkConfig 0 (Some 1%nat) [Outside; Held]) = Some 1%nat.
Proof.
  apply (condvar_keeps_lock (mkConfig 0 (Some 1%nat) [Outside; Held])).
  - exists 2%nat. apply rtc_once, (step_lock 0 [Outside; Outside] 1). reflexivity.
  - exists Held. split; reflexivity.
Defined.

(** ** A notification can be lost

    [futex_wait] goes round its loop after a wake, too, and sleeps again if the
    counter has not changed since the waiter loaded it.  The kernel promises
    nothing about which sleeper a wake reaches.  A waiter that came after the
    [fetch_add] of a [notify_one] can absorb its wake and go back to sleep. *)

(** Nothing can happen by itself: every thread is outside or asleep. *)
Definition quiescent (c : config) : Prop :=
  forall i p, threads c !! i = Some p -> p = Outside \/ exists v, p = Asleep v.

(** Thread 0 is waiting when thread 2 calls [notify_one]; the call returns,
    nobody holds the lock, and thread 0 still sleeps, as does thread 1, which
    has waited since the notification was counted. *)
Theorem condvar_notification_lost :
  exists c1 c2 c3,
    rtc step_any (start 3) c1 /\ threads c1 = [Asleep 0; Outside; NotifyAdd One false] /\ locked c1 = None /\
    step c1 c2 /\ threads c2 = [Asleep 0; Outside; NotifyWake One false] /\
    rtc step_any c2 c3 /\ threads c3 = [Asleep 0; Asleep 1; Outside] /\ locked c3 = None /\ quiescent c3.
Proof.
  exists (mkConfig 0 None [Asleep 0; Outside; NotifyAdd One false]),
    (mkConfig 1 None [Asleep 0; Outside; NotifyWake One false]), (mkConfig 1 None [Asleep 0; Asleep 1; Outside]).
  split_and_all; try done.
  - eapply rtc_l; [by apply (step_lock 0 [Outside; Outside; Outside] 0)|].
    eapply rtc_l; [by apply (step_wait 0 (Some 0%nat) [Held; Outside; Outside] 0)|].
    eapply rtc_l; [by apply step_program, (step_load 0 (Some 0%nat) [WaitEntry; Outside; Outside] 0)|].
    eapply rtc_l; [by apply step_program, (step_wait_unlock 0 (Some 0%nat) [WaitUnlock 0; Outside; Outside] 0 0)|].
    eapply rtc_l; [by apply step_program, (step_wait_load 0 None [WaitLoad 0; Outside; Outside] 0 0)|].
    eapply rtc_l; [by apply step_program, (step_wait_call 0 None [WaitCall 0; Outside; Outside] 0 0)|].
    apply rtc_once. by apply (step_notify 0 None [Asleep 0; Outside; Outside] 2 One false).
  - by apply (step_notify_add 0 None [Asleep 0; Outside; NotifyAdd One false] 2 One false).
  - eapply rtc_l; [by apply (step_lock 1 [Asleep 0; Outside; NotifyWake One false] 1)|].
    eapply rtc_l; [by apply (step_wait 1 (Some 1%nat) [Asleep 0; Held; NotifyWake One false] 1)|].
    eapply rtc_l; [by apply step_program, (step_load 1 (Some 1%nat) [Asleep 0; WaitEntry; NotifyWake One false] 1)|].
    eapply rtc_l; [by apply step_program, (step_wait_unlock 1 (Some 1%nat) [Asleep 0; WaitUnlock 1; NotifyWake One false] 1 1)|].
    eapply rtc_l; [by apply step_program, (step_wait_load 1 None [Asleep 0; WaitLoad 1; NotifyWake One false] 1 1)|].
    eapply rtc_l; [by apply step_program, (step_wait_call 1 None [Asleep 0; WaitCall 1; NotifyWake One false] 1 1)|].
    eapply rtc_l; [by apply step_program, (step_wake_one 1 None [Asleep 0; Asleep 1; NotifyWake One false] 2 1 false 1)|].
    eapply rtc_l; [by apply step_program, (step_wait_load 1 None [Asleep 0; WaitLoad 1; Outside] 1 1)|].
    apply rtc_once. by apply step_program, (step_wait_call 1 None [Asleep 0; WaitCall 1; Outside] 1 1).
  - intros [|[|[|i]]] p Hp; simplify_eq/=; eauto.
Qed.
