(* ===== verification/Task.v ===== *)
(** * The life of an asynchronous task

    Models the task state machine of [src/std/src/async/runtime_core.cpp]
    ([TaskStateBase]) with the data of [runtime_core.cppm].  The control block
    of a task is protected by a mutex: each operation below is what happens
    between taking it and releasing it, and gives the action that is applied
    afterwards, without the lock.  What other threads hold meanwhile, tickets
    of the run queues, leases of an execution, tokens of a facility, actions
    about to be applied, is the environment of the task in [system]; the steps
    of the threads interleave freely.

    The generations are [u64] counters in the source; they are not bounded
    here, as they grow by one for each time the task is scheduled. *)

From Stdlib Require Import ZArith Lia.
From stdpp Require Import relations.
From S2P Require Import Prelude.

Inductive TaskLifecycle :=
| Created | Queued | RunningRuntime | Waiting | FacilityQueued | FacilityRunning | Completed.

Inductive FacilityEffect := CompletionOnly | ExecuteTaskSegment.

#[export] Instance lifecycle_eq_dec : EqDecision TaskLifecycle.
Proof. solve_decision. Defined.
#[export] Instance effect_eq_dec : EqDecision FacilityEffect.
Proof. solve_decision. Defined.

Record TaskControl := mkControl {
  owner_worker : nat;
  lifecycle : TaskLifecycle;
  schedule_generation : nat;
  facility_id : nat;
  facility_generation : nat;
  wake_requested : bool;
  cancel_requested : bool
}.

Record FacilityToken := mkToken {
  token_facility : nat; token_owner : nat; token_generation : nat; token_effect : FacilityEffect
}.

#[export] Instance token_eq_dec : EqDecision FacilityToken.
Proof. solve_decision. Defined.

(** What [TaskStateBase] keeps: the control block, [completion_cancellation]
    and [completion_event]. *)
Record Task := mkTask {
  control : TaskControl;
  completion_cancellation : option FacilityToken;
  completion_event : option FacilityToken
}.

(** [ScheduleTicket] without its reference to the task. *)
Record ScheduleTicket := mkTicket { ticket_owner : nat; ticket_generation : nat }.

Inductive TaskAction :=
| ActNone
| ActSchedule (t : ScheduleTicket)
| ActSubmitCompletion (t : FacilityToken)
| ActSubmitFacility (t : FacilityToken)
| ActCompleteValue
| ActCompleteAbort (cancellation : option FacilityToken).

(** What the poll of a task asks for. *)
Inductive TaskPollAction :=
| PollPending
| PollComplete
| PollSubmitCompletion (id : nat)
| PollSubmitFacility (id : nat) (effect : FacilityEffect).

Definition new_task : Task := mkTask (mkControl 0 Created 0 0 0 false false) None None.

(** ** Operations under the lock *)

Definition set_control (t : Task) (c : TaskControl) : Task :=
  mkTask c (completion_cancellation t) (completion_event t).

Definition with_cancel (c : TaskControl) : TaskControl :=
  mkControl (owner_worker c) (lifecycle c) (schedule_generation c) (facility_id c) (facility_generation c)
    (wake_requested c) true.
Definition with_wake (c : TaskControl) (wake : bool) : TaskControl :=
  mkControl (owner_worker c) (lifecycle c) (schedule_generation c) (facility_id c) (facility_generation c)
    wake (cancel_requested c).
Definition with_lifecycle (c : TaskControl) (l : TaskLifecycle) : TaskControl :=
  mkControl (owner_worker c) l (schedule_generation c) (facility_id c) (facility_generation c)
    (wake_requested c) (cancel_requested c).
Definition with_owner (c : TaskControl) (owner : nat) : TaskControl :=
  mkControl owner (lifecycle c) (schedule_generation c) (facility_id c) (facility_generation c)
    (wake_requested c) (cancel_requested c).
(** [++facility_generation; facility_id = id] *)
Definition with_facility (c : TaskControl) (id : nat) : TaskControl :=
  mkControl (owner_worker c) (lifecycle c) (schedule_generation c) id (S (facility_generation c))
    (wake_requested c) (cancel_requested c).

Definition complete_locked (c : TaskControl) : TaskControl :=
  mkControl (owner_worker c) Completed (S (schedule_generation c)) (facility_id c) (S (facility_generation c))
    false (cancel_requested c).

Definition make_schedule_action (c : TaskControl) : TaskControl * TaskAction :=
  let c := mkControl (owner_worker c) Queued (S (schedule_generation c)) (facility_id c) (facility_generation c)
    (wake_requested c) (cancel_requested c) in
  (c, ActSchedule (mkTicket (owner_worker c) (schedule_generation c))).

(** [take_completion_cancellation] and [take_completion_event]. *)
Definition take_completion_cancellation (t : Task) : Task * option FacilityToken :=
  (mkTask (control t) None (completion_event t), completion_cancellation t).
Definition take_completion_event (t : Task) : Task * option FacilityToken :=
  (mkTask (control t) (completion_cancellation t) None, completion_event t).

(** The branch every operation takes for a task that is to be cancelled:
    [cancel_requested = true; complete_locked; complete_abort(take...)]. *)
Definition cancel_locked (t : Task) : Task * TaskAction :=
  let '(t, cancellation) := take_completion_cancellation t in
  (set_control t (complete_locked (with_cancel (control t))), ActCompleteAbort cancellation).

Definition scheduled (t : Task) : Task * TaskAction :=
  let '(c, action) := make_schedule_action (control t) in (set_control t c, action).

Definition activate (owner : nat) (t : Task) : Task * TaskAction :=
  let c := control t in
  if negb (bool_decide (lifecycle c = Created)) || cancel_requested c then (t, ActNone)
  else scheduled (set_control t (with_owner c owner)).

(** The lease is the generation the execution began with. *)
Definition try_begin_runtime (ticket : ScheduleTicket) (t : Task) : Task * option nat :=
  let c := control t in
  if negb (bool_decide (lifecycle c = Queued)) || cancel_requested c
     || negb (owner_worker c =? ticket_owner ticket)%nat
     || negb (schedule_generation c =? ticket_generation ticket)%nat
  then (t, None)
  else (set_control t (with_lifecycle c RunningRuntime), Some (ticket_generation ticket)).

Definition schedule (stopping : bool) (t : Task) : Task * TaskAction :=
  let c := control t in
  match lifecycle c with
  | Completed | Queued => (t, ActNone)
  | Created => if stopping then cancel_locked t else (set_control t (with_wake c true), ActNone)
  | RunningRuntime | FacilityQueued | FacilityRunning =>
    (set_control t (if stopping then with_cancel c else with_wake c true), ActNone)
  | Waiting => if stopping then cancel_locked t else scheduled t
  end.

Definition abort (t : Task) : Task * TaskAction :=
  let c := control t in
  match lifecycle c with
  | Completed => (t, ActNone)
  | Created | Queued | Waiting | FacilityQueued => cancel_locked t
  | RunningRuntime | FacilityRunning => (set_control t (with_cancel c), ActNone)
  end.

(** The checks of a facility's token against the control block. *)
Definition token_matches (c : TaskControl) (token : FacilityToken) : bool :=
  (owner_worker c =? token_owner token)%nat && (facility_id c =? token_facility token)%nat
  && (facility_generation c =? token_generation token)%nat.

Definition is_effect (token : FacilityToken) (e : FacilityEffect) : bool := bool_decide (token_effect token = e).

(** Whether the cancellation was kept; otherwise it is run at once. *)
Definition install_completion_cancellation (token : FacilityToken) (t : Task) : Task * bool :=
  let c := control t in
  if is_effect token CompletionOnly && bool_decide (lifecycle c = Waiting) && token_matches c token then
    match completion_cancellation t with
    | None => (mkTask c (Some token) (completion_event t), true)
    | Some _ => (t, false)
    end
  else (t, false).

(** Hands the task to a facility that will run a segment of it. *)
Definition submit_segment (t : Task) (c : TaskControl) (id : nat) : Task * TaskAction :=
  let c := with_wake (with_lifecycle (with_facility c id) FacilityQueued) false in
  (set_control t c, ActSubmitFacility (mkToken id (owner_worker c) (facility_generation c) ExecuteTaskSegment)).

(** [Panic] where the source panics. *)
Definition end_runtime_execution (stopping : bool) (generation : nat) (out : TaskPollAction) (t : Task)
    : outcome unit (Task * TaskAction) :=
  let c := control t in
  if negb (schedule_generation c =? generation)%nat || negb (bool_decide (lifecycle c = RunningRuntime))
  then Ret (t, ActNone)
  else if cancel_requested c || stopping then Ret (cancel_locked t)
  else match out with
       | PollComplete => Ret (set_control t (complete_locked c), ActCompleteValue)
       | PollSubmitCompletion id =>
         let c := with_wake (with_lifecycle (with_facility c id) Waiting) false in
         Ret (set_control t c,
              ActSubmitCompletion (mkToken id (owner_worker c) (facility_generation c) CompletionOnly))
       | PollSubmitFacility id effect =>
         if negb (bool_decide (effect = ExecuteTaskSegment)) then Panic else Ret (submit_segment t c id)
       | PollPending =>
         if wake_requested c then Ret (scheduled (set_control t (with_wake c false)))
         else Ret (set_control t (with_lifecycle c Waiting), ActNone)
       end.

(** The event is stored after the lock is released and before the action is
    applied; only an execution that this action schedules takes it, so both
    are one operation here. *)
Definition complete_facility (stopping : bool) (token : FacilityToken) (t : Task) : outcome unit (Task * TaskAction) :=
  let c := control t in
  if negb (is_effect token CompletionOnly) || negb (bool_decide (lifecycle c = Waiting)) || negb (token_matches c token)
  then Ret (t, ActNone)
  else if cancel_requested c || stopping then Ret (cancel_locked t)
  else
    let '(t, _) := take_completion_cancellation t in
    let '(t, action) := scheduled t in
    match completion_event t with
    | Some _ => Panic
    | None => Ret (mkTask (control t) (completion_cancellation t) (Some token), action)
    end.

Definition begin_facility_execution (stopping : bool) (token : FacilityToken) (t : Task)
    : Task * TaskAction * option FacilityToken :=
  let c := control t in
  if negb (bool_decide (lifecycle c = FacilityQueued)) || negb (token_matches c token)
     || negb (is_effect token ExecuteTaskSegment)
  then (t, ActNone, None)
  else if cancel_requested c || stopping then (cancel_locked t, None)
  else (set_control t (with_lifecycle c FacilityRunning), ActNone, Some token).

Definition cancel_facility_handoff (stopping : bool) (token : FacilityToken) (t : Task) : Task * TaskAction :=
  let c := control t in
  if negb (bool_decide (lifecycle c = FacilityQueued)) || negb (token_matches c token) then (t, ActNone)
  else if cancel_requested c || stopping then cancel_locked t
  else scheduled (set_control t (with_wake c false)).

Definition end_facility_execution (stopping : bool) (token : FacilityToken) (out : TaskPollAction) (t : Task)
    : outcome unit (Task * TaskAction) :=
  let c := control t in
  if negb (bool_decide (lifecycle c = FacilityRunning)) || negb (token_matches c token) then Ret (t, ActNone)
  else if cancel_requested c || stopping then Ret (cancel_locked t)
  else match out with
       | PollComplete | PollSubmitCompletion _ => Panic
       | PollSubmitFacility id effect =>
         if negb (bool_decide (effect = ExecuteTaskSegment)) then Panic else Ret (submit_segment t c id)
       | PollPending => Ret (scheduled (set_control t (with_wake c false)))
       end.

(** ** The task and what the other threads hold of it *)

Record system := mkSystem {
  task : Task;
  stopping : bool;                     (** the runtime is gone, stopping or stopped *)
  actions : list TaskAction;           (** decided under the lock, not applied yet *)
  tickets : list ScheduleTicket;       (** in the run queue of a worker *)
  leases : list nat;                   (** executions on a worker *)
  executions : list FacilityToken;     (** handed to a facility, not begun *)
  segments : list FacilityToken;       (** executions on a facility *)
  completions : list FacilityToken;    (** to be reported by a facility *)
  finished : list TaskAction           (** the completions applied *)
}.

Definition start : system := mkSystem new_task false [] [] [] [] [] [] [].

Definition is_completion (act : TaskAction) : bool :=
  match act with ActCompleteValue | ActCompleteAbort _ => true | _ => false end.

(** Takes one element out of a bag. *)
Definition taken {A} (l : list A) (x : A) (l' : list A) : Prop := exists a b, l = a ++ x :: b /\ l' = a ++ b.

(** The operations read the state of the runtime before they take the lock: a
    thread that decides that the runtime is not stopping may act on it after
    the runtime has begun to stop. *)
Definition seen (stopping b : bool) : Prop := b = true -> stopping = true.

(** A step of one thread. *)
Inductive step : system -> system -> Prop :=
| step_activate t s acts tks ls xs sg cs fin owner t' act :
    activate owner t = (t', act) ->
    step (mkSystem t s acts tks ls xs sg cs fin) (mkSystem t' s (act :: acts) tks ls xs sg cs fin)
| step_schedule t s b acts tks ls xs sg cs fin t' act :
    seen s b -> schedule b t = (t', act) ->
    step (mkSystem t s acts tks ls xs sg cs fin) (mkSystem t' s (act :: acts) tks ls xs sg cs fin)
| step_abort t s acts tks ls xs sg cs fin t' act :
    abort t = (t', act) ->
    step (mkSystem t s acts tks ls xs sg cs fin) (mkSystem t' s (act :: acts) tks ls xs sg cs fin)
| step_begin t s acts tks tks' ls xs sg cs fin ticket t' lease :
    taken tks ticket tks' -> try_begin_runtime ticket t = (t', lease) ->
    step (mkSystem t s acts tks ls xs sg cs fin)
      (mkSystem t' s acts tks' (match lease with Some g => g :: ls | None => ls end) xs sg cs fin)
| step_end t s b acts tks ls ls' xs sg cs fin g out t' act :
    seen s b -> taken ls g ls' -> end_runtime_execution b g out t = Ret (t', act) ->
    step (mkSystem t s acts tks ls xs sg cs fin) (mkSystem t' s (act :: acts) tks ls' xs sg cs fin)
| step_begin_segment t s b acts tks ls xs xs' sg cs fin token t' act lease :
    seen s b -> taken xs token xs' -> begin_facility_execution b token t = (t', act, lease) ->
    step (mkSystem t s acts tks ls xs sg cs fin)
      (mkSystem t' s (act :: acts) tks ls xs' (match lease with Some k => k :: sg | None => sg end) cs fin)
| step_cancel_handoff t s b acts tks ls xs xs' sg cs fin token t' act :
    seen s b -> taken xs token xs' -> cancel_facility_handoff b token t = (t', act) ->
    step (mkSystem t s acts tks ls xs sg cs fin) (mkSystem t' s (act :: acts) tks ls xs' sg cs fin)
| step_end_segment t s b acts tks ls xs sg sg' cs fin token out t' act :
    seen s b -> taken sg token sg' -> end_facility_execution b token out t = Ret (t', act) ->
    step (mkSystem t s acts tks ls xs sg cs fin) (mkSystem t' s (act :: acts) tks ls xs sg' cs fin)
| step_complete_facility t s b acts tks ls xs sg cs cs' fin token t' act :
    seen s b -> taken cs token cs' -> complete_facility b token t = Ret (t', act) ->
    step (mkSystem t s acts tks ls xs sg cs fin) (mkSystem t' s (act :: acts) tks ls xs sg cs' fin)
| step_install t s acts tks ls xs sg cs fin token t' ok :
    install_completion_cancellation token t = (t', ok) ->
    step (mkSystem t s acts tks ls xs sg cs fin) (mkSystem t' s acts tks ls xs sg cs fin)
| step_take_event t s acts tks ls xs sg cs fin t' e :
    take_completion_event t = (t', e) ->
    step (mkSystem t s acts tks ls xs sg cs fin) (mkSystem t' s acts tks ls xs sg cs fin)
| step_apply_none t s acts acts' tks ls xs sg cs fin :
    taken acts ActNone acts' ->
    step (mkSystem t s acts tks ls xs sg cs fin) (mkSystem t s acts' tks ls xs sg cs fin)
| step_apply_schedule t s acts acts' tks ls xs sg cs fin ticket :
    taken acts (ActSchedule ticket) acts' ->
    step (mkSystem t s acts tks ls xs sg cs fin) (mkSystem t s acts' (ticket :: tks) ls xs sg cs fin)
| step_reject_schedule t s acts acts' tks ls xs sg cs fin ticket t' act :
    taken acts (ActSchedule ticket) acts' -> abort t = (t', act) ->
    step (mkSystem t s acts tks ls xs sg cs fin) (mkSystem t' s (act :: acts') tks ls xs sg cs fin)
| step_apply_completion t s acts acts' tks ls xs sg cs fin token :
    taken acts (ActSubmitCompletion token) acts' ->
    step (mkSystem t s acts tks ls xs sg cs fin) (mkSystem t s acts' tks ls xs sg (token :: cs) fin)
| step_apply_facility t s acts acts' tks ls xs sg cs fin token :
    taken acts (ActSubmitFacility token) acts' ->
    step (mkSystem t s acts tks ls xs sg cs fin) (mkSystem t s acts' tks ls (token :: xs) sg cs fin)
| step_apply_complete t s acts acts' tks ls xs sg cs fin act :
    taken acts act acts' -> is_completion act = true ->
    step (mkSystem t s acts tks ls xs sg cs fin) (mkSystem t s acts' tks ls xs sg cs (act :: fin))
| step_stop t s acts tks ls xs sg cs fin :
    step (mkSystem t s acts tks ls xs sg cs fin) (mkSystem t true acts tks ls xs sg cs fin)
| step_discard t acts tks tks' ls xs sg cs fin ticket :
    taken tks ticket tks' ->
    step (mkSystem t true acts tks ls xs sg cs fin) (mkSystem t true acts tks' ls xs sg cs fin).

Definition reachable (s : system) : Prop := rtc step start s.
