(* ===== verification/TaskSpec.v ===== *)
(** * What the task state machine guarantees

    The invariant of [Task.system] and what follows from it: a task is polled
    by one thread at a time, completes once, and a wake is not lost while the
    task is polled. *)

From Stdlib Require Import ZArith Lia.
From stdpp Require Import relations.
From S2P Require Import Prelude Task.

(** ** Elements of a bag *)

Lemma taken_elem {A} (l : list A) x l' y : taken l x l' -> y ∈ l -> y = x \/ y ∈ l'.
Proof. intros (a & b & -> & ->). rewrite !elem_of_app, elem_of_cons. tauto. Qed.

Lemma elem_taken {A} (l : list A) x : x ∈ l -> exists l', taken l x l'.
Proof. intros (a & b & ->)%list_elem_of_split. by exists (a ++ b), a, b. Qed.

Lemma taken_singleton {A} (x y : A) l' : taken [x] y l' -> y = x /\ l' = [].
Proof. intros ([|z a] & b & H & ->); [by simplify_eq/=|]. destruct a; simplify_eq/=. Qed.

Lemma taken_nil {A} (y : A) l' : taken [] y l' -> False.
Proof. intros ([|] & b & H & _); done. Qed.

(** How many times a task was completed: decided, and applied. *)
Definition completions_in (l : list TaskAction) : nat := length (List.filter is_completion l).

Lemma completions_cons a l : completions_in (a :: l) = ((if is_completion a then 1 else 0) + completions_in l)%nat.
Proof. unfold completions_in. cbn. by destruct (is_completion a). Qed.

Lemma completions_taken l x l' :
  taken l x l' -> completions_in l = ((if is_completion x then 1 else 0) + completions_in l')%nat.
Proof.
  intros (a & b & -> & ->). unfold completions_in. rewrite !List.filter_app, !length_app. cbn.
  destruct (is_completion x); cbn; lia.
Qed.

(** ** The invariant *)

Definition current_ticket (c : TaskControl) : ScheduleTicket := mkTicket (owner_worker c) (schedule_generation c).

Definition is_running (l : TaskLifecycle) : bool :=
  match l with RunningRuntime | FacilityRunning => true | _ => false end.

(** The states a request to cancel is kept in. *)
Definition keeps_cancel (l : TaskLifecycle) : bool :=
  match l with RunningRuntime | FacilityRunning | FacilityQueued | Completed => true | _ => false end.

Definition task_leases (c : TaskControl) (ls : list nat) : Prop :=
  ls = match lifecycle c with RunningRuntime => [schedule_generation c] | _ => [] end.

Definition task_segments (c : TaskControl) (sg : list FacilityToken) : Prop :=
  match lifecycle c with
  | FacilityRunning => exists k, sg = [k] /\ token_matches c k = true
  | _ => sg = []
  end.

Definition task_queued (c : TaskControl) (stop : bool) (acts : list TaskAction) (tks : list ScheduleTicket) : Prop :=
  lifecycle c = Queued -> stop = true \/ ActSchedule (current_ticket c) ∈ acts \/ current_ticket c ∈ tks.

Definition task_handed (c : TaskControl) (acts : list TaskAction) (xs : list FacilityToken) : Prop :=
  lifecycle c = FacilityQueued ->
  exists k, token_matches c k = true /\ token_effect k = ExecuteTaskSegment /\ (ActSubmitFacility k ∈ acts \/ k ∈ xs).

Definition task_cancelled (c : TaskControl) : Prop :=
  cancel_requested c = true -> keeps_cancel (lifecycle c) = true.

Definition task_completions (c : TaskControl) (acts fin : list TaskAction) : Prop :=
  (completions_in acts + completions_in fin)%nat = if bool_decide (lifecycle c = Completed) then 1%nat else 0%nat.

Record inv (s : system) : Prop := {
  inv_leases : task_leases (control (task s)) (leases s);
  inv_segments : task_segments (control (task s)) (segments s);
  inv_queued : task_queued (control (task s)) (stopping s) (actions s) (tickets s);
  inv_handed : task_handed (control (task s)) (actions s) (executions s);
  inv_cancelled : task_cancelled (control (task s));
  inv_completions : task_completions (control (task s)) (actions s) (finished s)
}.

Lemma task_inv_start : inv start.
Proof. split; cbn; try done. Qed.

(** ** What an operation can do

    A classification of the operations under the lock: the control block
    before, the control block after and the action. *)

Definition same_place (c c' : TaskControl) : Prop :=
  owner_worker c' = owner_worker c /\ lifecycle c' = lifecycle c /\
  schedule_generation c' = schedule_generation c /\ facility_id c' = facility_id c /\
  facility_generation c' = facility_generation c.

Inductive move (c : TaskControl) : TaskControl -> TaskAction -> Prop :=
| move_keep c' :
    same_place c c' ->
    (cancel_requested c' = true -> cancel_requested c = true \/ keeps_cancel (lifecycle c) = true) ->
    move c c' ActNone
| move_finish c' act :
    lifecycle c <> Completed -> lifecycle c' = Completed -> is_completion act = true -> move c c' act
| move_queue c' :
    lifecycle c <> Completed -> lifecycle c' = Queued -> (lifecycle c = Waiting \/ cancel_requested c = false) ->
    cancel_requested c' = cancel_requested c -> move c c' (ActSchedule (current_ticket c'))
| move_wait c' act :
    lifecycle c <> Completed -> lifecycle c' = Waiting -> cancel_requested c = false ->
    cancel_requested c' = false -> is_completion act = false -> move c c' act
| move_hand c' k :
    lifecycle c <> Completed -> lifecycle c' = FacilityQueued -> token_matches c' k = true ->
    token_effect k = ExecuteTaskSegment -> move c c' (ActSubmitFacility k)
| move_begin c' :
    lifecycle c <> Completed -> is_running (lifecycle c') = true -> move c c' ActNone.

Lemma move_queued c c' act stop acts tks :
  move c c' act -> task_queued c stop acts tks -> task_queued c' stop (act :: acts) tks.
Proof.
  intros Hm Hq Hc. destruct Hm as [c' (Ho & Hl & Hg & _)| | | | |]; try congruence.
  - unfold current_ticket. rewrite Ho, Hg. destruct Hq as [|[|]]; [congruence|..]; unfold current_ticket in *;
      rewrite ?elem_of_cons; tauto.
  - right; left. by left.
  - by rewrite Hc in *.
Qed.

Lemma move_handed c c' act acts xs :
  move c c' act -> task_handed c acts xs -> task_handed c' (act :: acts) xs.
Proof.
  intros Hm Hq Hc. destruct Hm as [c' (Ho & Hl & Hg & Hi & Hf)| | | |c' k|]; try congruence.
  - destruct Hq as (k & Hk & He & Hin); [congruence|]. exists k. unfold token_matches in *.
    rewrite Ho, Hi, Hf, elem_of_cons. tauto.
  - exists k. rewrite elem_of_cons. tauto.
  - by rewrite Hc in *.
Qed.

Lemma move_cancelled c c' act : move c c' act -> task_cancelled c -> task_cancelled c'.
Proof.
  unfold task_cancelled. intros Hm Hq Hc.
  destruct Hm as [c' (Ho & Hl & _) Hk|c' act _ ->|c' _ Hl Hw Hx| |c' k _ ->|c' _ Hr]; try done.
  - rewrite Hl. destruct (Hk Hc) as [H|H]; [by apply Hq|done].
  - rewrite Hc in Hx. destruct Hw as [Hw|Hw]; [|congruence]. specialize (Hq (eq_sym Hx)). by rewrite Hw in Hq.
  - congruence.
  - by destruct (lifecycle c').
Qed.

Lemma move_completions c c' act acts fin :
  move c c' act -> task_completions c acts fin -> task_completions c' (act :: acts) fin.
Proof.
  unfold task_completions. rewrite completions_cons. intros Hm Hn.
  assert (Hnc : lifecycle c <> Completed -> (completions_in acts + completions_in fin = 0)%nat).
  { intros H. rewrite Hn. by case_bool_decide. }
  destruct Hm as [c' (Ho & -> & _) Hk|c' act Hc -> ->|c' Hc -> _ _|c' act Hc -> _ _ ->|c' k Hc -> _ _|c' Hc Hr];
    cbn; rewrite ?Hn; try (specialize (Hnc Hc)); case_bool_decide as Hc0; try done; try lia.
  by destruct (lifecycle c').
Qed.

(** An operation of a thread that does not poll the task. *)
Definition kept (c c' : TaskControl) : Prop :=
  if is_running (lifecycle c) then same_place c c' else is_running (lifecycle c') = false.

Lemma kept_refl c : kept c c.
Proof. unfold kept. by destruct (is_running (lifecycle c)). Qed.

Lemma kept_leases c c' ls : kept c c' -> task_leases c ls -> task_leases c' ls.
Proof.
  unfold kept, task_leases. destruct (is_running (lifecycle c)) eqn:E.
  - intros (_ & -> & -> & _). done.
  - intros H ->. destruct (lifecycle c), (lifecycle c'); done.
Qed.

Lemma kept_segments c c' sg : kept c c' -> task_segments c sg -> task_segments c' sg.
Proof.
  unfold kept, task_segments, token_matches. destruct (is_running (lifecycle c)) eqn:E.
  - intros (-> & -> & _ & -> & ->). done.
  - intros H. destruct (lifecycle c), (lifecycle c'); done.
Qed.

(** ** The operations *)

Ltac task_ops :=
  unfold activate, schedule, abort, try_begin_runtime, end_runtime_execution, begin_facility_execution,
    cancel_facility_handoff, end_facility_execution, complete_facility, install_completion_cancellation,
    take_completion_event, cancel_locked, submit_segment, scheduled, make_schedule_action,
    take_completion_cancellation, complete_locked, set_control, with_cancel, with_wake, with_lifecycle,
    with_owner, with_facility in *.

(** The case analysis of an operation. *)
Ltac task_cases :=
  task_ops; cbn in *;
  repeat match goal with
  | H : negb _ = false |- _ => apply negb_false_iff in H
  | H : negb _ = true |- _ => apply negb_true_iff in H
  | H : bool_decide _ = true |- _ => apply bool_decide_eq_true in H
  | H : bool_decide _ = false |- _ => apply bool_decide_eq_false in H
  | H : (_ || _) = false |- _ => apply orb_false_iff in H as [? ?]
  | H : (_ && _) = true |- _ => apply andb_true_iff in H as [? ?]
  | H : context [match ?x with _ => _ end] |- _ => destruct x eqn:?; cbn in H
  | H : (_, _, _) = (_, _, _) |- _ => injection H as <- <- <-
  | H : (_, _) = (_, _) |- _ => injection H as <- <-
  | H : Ret _ = Ret _ |- _ => injection H as <- <-
  | H : Ret _ = Ret _ |- _ => injection H as H
  end; try done.

(** Finds the kind of a move. *)
Ltac task_move :=
  cbn in *;
  first
  [ done
  | apply move_keep; [unfold same_place; cbn; repeat split; congruence | cbn; first [tauto | right; by repeat match goal with H : lifecycle _ = _ |- _ => rewrite H end]]
  | apply move_finish; cbn; congruence
  | apply move_wait; cbn; congruence
  | apply move_begin; cbn; congruence
  | apply move_queue; cbn; first [congruence | tauto | by left | by right]
  | apply move_hand; cbn; unfold token_matches; cbn; rewrite ?Nat.eqb_refl; first [done | congruence] ].

Ltac task_op := split; [task_move | first [apply kept_refl | unfold kept; cbn]; repeat match goal with H : lifecycle _ = _ |- _ => rewrite H end; done].

Lemma activate_move owner t t' act :
  activate owner t = (t', act) -> move (control t) (control t') act /\ kept (control t) (control t').
Proof. intros H. task_cases; task_op. Qed.

Lemma schedule_move b t t' act :
  schedule b t = (t', act) -> move (control t) (control t') act /\ kept (control t) (control t').
Proof. intros H. task_cases; task_op. Qed.

Lemma abort_move t t' act : abort t = (t', act) -> move (control t) (control t') act /\ kept (control t) (control t').
Proof. intros H. task_cases; task_op. Qed.

Lemma complete_facility_move b token t t' act :
  complete_facility b token t = Ret (t', act) -> move (control t) (control t') act /\ kept (control t) (control t').
Proof. intros H. task_cases; task_op. Qed.

Lemma cancel_facility_handoff_move b token t t' act :
  cancel_facility_handoff b token t = (t', act) -> move (control t) (control t') act /\ kept (control t) (control t').
Proof. intros H. task_cases; task_op. Qed.

Lemma begin_facility_execution_move b token t t' act lease :
  begin_facility_execution b token t = (t', act, lease) ->
  move (control t) (control t') act /\
  match lease with
  | Some k => is_running (lifecycle (control t)) = false /\ lifecycle (control t') = FacilityRunning /\
              token_matches (control t') k = true
  | None => kept (control t) (control t')
  end.
Proof.
  intros H. task_cases; task_op.
Qed.

Lemma end_runtime_execution_move b g out t t' act :
  lifecycle (control t) = RunningRuntime -> schedule_generation (control t) = g ->
  end_runtime_execution b g out t = Ret (t', act) ->
  move (control t) (control t') act /\ is_running (lifecycle (control t')) = false.
Proof.
  intros Hl <- H. unfold end_runtime_execution in H. rewrite Nat.eqb_refl, bool_decide_eq_true_2 in H by done.
  task_cases; split; task_move.
Qed.

Lemma end_facility_execution_move b token out t t' act :
  lifecycle (control t) = FacilityRunning -> token_matches (control t) token = true ->
  end_facility_execution b token out t = Ret (t', act) ->
  move (control t) (control t') act /\ is_running (lifecycle (control t')) = false.
Proof.
  intros Hl Hg H. unfold end_facility_execution in H. rewrite Hg, bool_decide_eq_true_2 in H by done.
  task_cases; split; task_move.
Qed.

(** A ticket that is refused was not the current one, and so for a token. *)
Lemma try_begin_runtime_spec ticket t t' lease :
  try_begin_runtime ticket t = (t', lease) ->
  match lease with
  | Some g => lifecycle (control t) = Queued /\ lifecycle (control t') = RunningRuntime /\
              g = schedule_generation (control t') /\ move (control t) (control t') ActNone
  | None => t' = t /\ (lifecycle (control t) = Queued -> cancel_requested (control t) = false ->
                       ticket <> current_ticket (control t))
  end.
Proof.
  unfold try_begin_runtime. intros H. destruct (_ || _) eqn:E; injection H as <- <-.
  - split; [done|]. intros Hl Hc ->. cbn in E. by rewrite bool_decide_eq_true_2, Hc, !Nat.eqb_refl in E.
  - task_cases. repeat split; try done; [symmetry; by apply Nat.eqb_eq|].
    apply move_begin; cbn; congruence.
Qed.

Lemma begin_facility_execution_taken b token t t' act lease :
  begin_facility_execution b token t = (t', act, lease) -> lifecycle (control t') = FacilityQueued ->
  control t' = control t /\ (token_matches (control t) token = true -> token_effect token <> ExecuteTaskSegment).
Proof.
  unfold begin_facility_execution. intros H Hl. destruct (_ || _) eqn:E.
  - injection H as <- <- <-. split; [done|]. intros Hm He. revert E.
    unfold is_effect. by rewrite !bool_decide_eq_true_2, Hm.
  - destruct (_ || _) in H; injection H as <- <- <-; task_cases.
Qed.

Lemma cancel_facility_handoff_taken b token t t' act :
  cancel_facility_handoff b token t = (t', act) -> lifecycle (control t') = FacilityQueued ->
  control t' = control t /\ token_matches (control t) token = false.
Proof.
  unfold cancel_facility_handoff. intros H Hl. destruct (_ || _) eqn:E.
  - injection H as <- <-. split; [done|]. rewrite bool_decide_eq_true_2 in E by done. by apply negb_true_iff.
  - destruct (_ || _) in H; injection H as <- <-; task_cases.
Qed.

(** ** The steps *)

Lemma queued_tickets c stop acts tks tks' :
  (current_ticket c ∈ tks -> current_ticket c ∈ tks') -> task_queued c stop acts tks -> task_queued c stop acts tks'.
Proof. unfold task_queued. tauto. Qed.

Lemma handed_executions c acts xs token xs' :
  taken xs token xs' -> (lifecycle c = FacilityQueued -> token_matches c token = true -> token_effect token <> ExecuteTaskSegment) ->
  task_handed c acts xs -> task_handed c acts xs'.
Proof.
  intros Ht Hx Hh Hl. destruct (Hh Hl) as (k & Hk & He & Hin). exists k. split_and!; [done..|].
  destruct Hin as [?|Hin]; [by left|]. destruct (taken_elem _ _ _ _ Ht Hin) as [->|?]; [|by right].
  by destruct (Hx Hl Hk).
Qed.

(** An operation of a thread that does not poll the task. *)
Lemma inv_kept t t' s act acts tks ls xs sg cs fin :
  move (control t) (control t') act -> kept (control t) (control t') ->
  inv (mkSystem t s acts tks ls xs sg cs fin) -> inv (mkSystem t' s (act :: acts) tks ls xs sg cs fin).
Proof.
  intros Hm Hk [Hl Hg Hq Hh Hc Hn]. split; cbn in *;
    eauto using kept_leases, kept_segments, move_queued, move_handed, move_cancelled, move_completions.
Qed.

(** The end of an execution: nothing polls the task any more. *)
Lemma inv_ended t t' s act acts tks ls xs sg cs fin :
  move (control t) (control t') act -> is_running (lifecycle (control t')) = false ->
  inv (mkSystem t s acts tks ls xs sg cs fin) -> inv (mkSystem t' s (act :: acts) tks [] xs [] cs fin).
Proof.
  intros Hm Hk [Hl Hg Hq Hh Hc Hn]. split; cbn in *;
    eauto using move_queued, move_handed, move_cancelled, move_completions.
  - unfold task_leases. by destruct (lifecycle _).
  - unfold task_segments. by destruct (lifecycle _).
Qed.

(** An action is applied: it leaves the bag, for the tickets or the tokens. *)
Lemma inv_applied t s act acts acts' tks tks' ls xs xs' sg cs cs' fin fin' :
  taken acts act acts' ->
  (forall k, act = ActSchedule k -> k ∈ tks') -> (forall k, act = ActSubmitFacility k -> k ∈ xs') ->
  (forall k, k ∈ tks -> k ∈ tks') -> (forall k, k ∈ xs -> k ∈ xs') ->
  completions_in fin' = ((if is_completion act then 1 else 0) + completions_in fin)%nat ->
  inv (mkSystem t s acts tks ls xs sg cs fin) -> inv (mkSystem t s acts' tks' ls xs' sg cs' fin').
Proof.
  intros Ht Hs Hx Hts Hxs Hf [Hl Hg Hq Hh Hc Hn]. split; cbn in *; try done.
  - intros Hlc. destruct (Hq Hlc) as [?|[Hin|?]]; [by left| |by eauto].
    destruct (taken_elem _ _ _ _ Ht Hin) as [<-|?]; eauto.
  - intros Hlc. destruct (Hh Hlc) as (k & Hk & He & Hin). exists k. split_and!; [done..|].
    destruct Hin as [Hin|?]; [|by eauto]. destruct (taken_elem _ _ _ _ Ht Hin) as [<-|?]; eauto.
  - unfold task_completions in *. rewrite <-Hn, (completions_taken _ _ _ Ht), Hf. lia.
Qed.

(** An action for a ticket that the run queue refuses. *)
Lemma inv_rejected t t' s ticket act acts acts' tks ls xs sg cs fin :
  taken acts (ActSchedule ticket) acts' -> abort t = (t', act) ->
  inv (mkSystem t s acts tks ls xs sg cs fin) -> inv (mkSystem t' s (act :: acts') tks ls xs sg cs fin).
Proof.
  intros Ht Ha [Hl Hg Hq Hh Hc Hn]. destruct (abort_move _ _ _ Ha) as [Hm Hk].
  split; cbn in *; eauto using kept_leases, kept_segments, move_cancelled.
  - intros H. exfalso. clear -Ha H. task_cases; congruence.
  - apply (move_handed _ _ _ _ _ Hm). intros Hlc. destruct (Hh Hlc) as (k & Hk' & He & Hin). exists k.
    split_and!; [done..|]. destruct Hin as [Hin|?]; [|by right]. left. by destruct (taken_elem _ _ _ _ Ht Hin).
  - apply (move_completions _ _ _ _ _ Hm). unfold task_completions in *.
    by rewrite <-Hn, (completions_taken _ _ _ Ht).
Qed.

Lemma inv_begin t t' s acts tks tks' ls xs sg cs fin ticket lease :
  taken tks ticket tks' -> try_begin_runtime ticket t = (t', lease) ->
  inv (mkSystem t s acts tks ls xs sg cs fin) ->
  inv (mkSystem t' s acts tks' (match lease with Some g => g :: ls | None => ls end) xs sg cs fin).
Proof.
  intros Ht Hb [Hl Hg Hq Hh Hc Hn]. pose proof (try_begin_runtime_spec _ _ _ _ Hb) as Hs. cbn in *.
  destruct lease as [g|].
  - destruct Hs as (Hlq & Hlr & -> & Hm). unfold task_leases, task_segments in *. rewrite Hlq in *. subst.
    split; cbn; [unfold task_leases; by rewrite Hlr|unfold task_segments; by rewrite Hlr| | |by eauto using move_cancelled|].
    + intros H. congruence.
    + intros H. congruence.
    + pose proof (move_completions _ _ _ _ _ Hm Hn) as Hn'. done.
  - destruct Hs as [-> Hs]. split; cbn; try done. intros Hlc. destruct (Hq Hlc) as [?|[?|Hin]]; [tauto..|].
    destruct (taken_elem _ _ _ _ Ht Hin) as [He|?]; [|tauto]. destruct Hs; [done| |done].
    destruct (cancel_requested (control t)) eqn:E; [|done]. specialize (Hc E). by rewrite Hlc in Hc.
Qed.

Lemma inv_begin_segment t t' s b act acts tks ls xs xs' sg cs fin token lease :
  taken xs token xs' -> begin_facility_execution b token t = (t', act, lease) ->
  inv (mkSystem t s acts tks ls xs sg cs fin) ->
  inv (mkSystem t' s (act :: acts) tks ls xs' (match lease with Some k => k :: sg | None => sg end) cs fin).
Proof.
  intros Ht Hb [Hl Hg Hq Hh Hc Hn]. cbn in *. destruct (begin_facility_execution_move _ _ _ _ _ _ Hb) as [Hm Hk].
  assert (Hh' : task_handed (control t') (act :: acts) xs').
  { intros Hlc. destruct (begin_facility_execution_taken _ _ _ _ _ _ Hb Hlc) as [He Hx].
    revert Hlc. eapply handed_executions; [done| |by eapply move_handed]. by rewrite He. }
  split; cbn; eauto using move_queued, move_cancelled, move_completions; destruct lease as [k|];
    eauto using kept_leases, kept_segments; destruct Hk as (Hi & Hr & Hx).
  - unfold task_leases in *. rewrite Hr. by destruct (lifecycle (control t)).
  - unfold task_segments in *. rewrite Hr. exists k. split; [|done]. by destruct (lifecycle (control t)); subst.
Qed.

Lemma inv_cancel_handoff t t' s b act acts tks ls xs xs' sg cs fin token :
  taken xs token xs' -> cancel_facility_handoff b token t = (t', act) ->
  inv (mkSystem t s acts tks ls xs sg cs fin) -> inv (mkSystem t' s (act :: acts) tks ls xs' sg cs fin).
Proof.
  intros Ht Hb Hi. destruct (cancel_facility_handoff_move _ _ _ _ _ Hb) as [Hm Hk].
  destruct (inv_kept _ _ _ _ _ _ _ _ _ _ _ Hm Hk Hi) as [Hl Hg Hq Hh Hc Hn]. split; cbn in *; try done.
  intros Hlc. destruct (cancel_facility_handoff_taken _ _ _ _ _ Hb Hlc) as [He Hx].
  revert Hlc. eapply handed_executions; [done| |done]. rewrite He, Hx. done.
Qed.

Lemma task_step_inv s s' : step s s' -> inv s -> inv s'.
Proof.
  intros Hs Hi. destruct Hs.
  - eapply inv_kept; [eapply activate_move|eapply activate_move|]; done.
  - eapply inv_kept; [eapply schedule_move|eapply schedule_move|]; done.
  - eapply inv_kept; [eapply abort_move|eapply abort_move|]; done.
  - by eapply inv_begin.
  - pose proof (inv_leases _ Hi) as Hl. pose proof (inv_segments _ Hi) as Hg. cbn in Hl, Hg.
    unfold task_leases, task_segments in Hl, Hg.
    destruct (lifecycle (control t)) eqn:E; subst;
      match goal with H : taken _ _ _ |- _ => first [by destruct (taken_nil _ _ H)|apply taken_singleton in H as [-> ->]] end.
    destruct (end_runtime_execution_move _ _ _ _ _ _ E eq_refl ltac:(eassumption)). by eapply inv_ended.
  - by eapply inv_begin_segment.
  - by eapply inv_cancel_handoff.
  - pose proof (inv_leases _ Hi) as Hl. pose proof (inv_segments _ Hi) as Hg. cbn in Hl, Hg.
    unfold task_leases, task_segments in Hl, Hg.
    destruct (lifecycle (control t)) eqn:E; subst;
      match goal with H : taken _ _ _ |- _ => try by destruct (taken_nil _ _ H) end.
    destruct Hg as (k & -> & Hk). match goal with H : taken _ _ _ |- _ => apply taken_singleton in H as [-> ->] end.
    destruct (end_facility_execution_move _ _ _ _ _ _ E Hk ltac:(eassumption)). by eapply inv_ended.
  - eapply inv_kept; [by eapply complete_facility_move..|]. by destruct Hi; split.
  - assert (control t' = control t) as Hc by task_cases. destruct Hi; split; cbn in *; by rewrite ?Hc.
  - assert (control t' = control t) as Hc by task_cases. destruct Hi; split; cbn in *; by rewrite ?Hc.
  - eapply inv_applied; [done|..|exact Hi]; naive_solver.
  - eapply inv_applied; [done|..|exact Hi]; cbn; try done; intros; simplify_eq; rewrite ?elem_of_cons; tauto.
  - by eapply inv_rejected.
  - eapply inv_applied; [done|..|exact Hi]; naive_solver.
  - eapply inv_applied; [done|..|exact Hi]; cbn; try done; intros; simplify_eq; rewrite ?elem_of_cons; tauto.
  - eapply inv_applied; [done|..|exact Hi]; try done; try (intros k ->; done). by rewrite completions_cons.
  - destruct Hi; split; cbn in *; try done. by left.
  - destruct Hi; split; cbn in *; try done. by left.
Qed.

Lemma task_reachable_inv s : reachable s -> inv s.
Proof.
  unfold reachable. intros Hr. assert (Hi := task_inv_start). induction Hr; eauto using task_step_inv.
Qed.

Lemma reachable_step s s' : reachable s -> step s s' -> reachable s'.
Proof. unfold reachable. eauto using rtc_r. Qed.

Lemma completed_step s s' :
  step s s' -> lifecycle (control (task s)) = Completed -> lifecycle (control (task s')) = Completed.
Proof.
  intros Hs Hl. destruct Hs; cbn in *; try done; task_cases; try congruence; by rewrite ?bool_decide_eq_true_2 in *.
Qed.

(** ** A task that is owed a poll gets it *)

(** Queued, or woken while it is polled. *)
Definition poll_owed (c : TaskControl) : bool :=
  match lifecycle c with
  | Queued => true
  | RunningRuntime => wake_requested c && negb (cancel_requested c)
  | _ => false
  end.

Definition next_execution (c : TaskControl) : nat :=
  match lifecycle c with Queued => schedule_generation c | _ => S (schedule_generation c) end.

Lemma try_begin_current t :
  lifecycle (control t) = Queued -> cancel_requested (control t) = false ->
  try_begin_runtime (current_ticket (control t)) t =
    (set_control t (with_lifecycle (control t) RunningRuntime), Some (schedule_generation (control t))).
Proof. intros Hl Hc. unfold try_begin_runtime. cbn. by rewrite bool_decide_eq_true_2, Hc, !Nat.eqb_refl. Qed.

(** The execution of generation [n] has begun. *)
Definition polled (n : nat) (s : system) : Prop :=
  lifecycle (control (task s)) = RunningRuntime /\ leases s = [n].

(** A poll by the execution [n] is owed; [k] tells the hand-overs apart. *)
Definition owed (n k : nat) (s : system) : Prop :=
  poll_owed (control (task s)) = true /\ next_execution (control (task s)) = n /\
  facility_generation (control (task s)) = k.

(** The debt is settled otherwise: the task is cancelled or completed, or the
    poll that was under way handed it to a facility, which will wake it. *)
Definition released (k : nat) (s : system) : Prop :=
  cancel_requested (control (task s)) = true \/ (k < facility_generation (control (task s)))%nat.

(** What the workers do by themselves, without another wake: apply the
    scheduling that was decided, take a ticket from the queue, and end a poll
    that returned [Pending]. *)
Inductive work : system -> system -> Prop :=
| work_schedule t s acts acts' tks ls xs sg cs fin ticket :
    taken acts (ActSchedule ticket) acts' ->
    work (mkSystem t s acts tks ls xs sg cs fin) (mkSystem t s acts' (ticket :: tks) ls xs sg cs fin)
| work_begin t s acts tks tks' ls xs sg cs fin ticket t' g :
    taken tks ticket tks' -> try_begin_runtime ticket t = (t', Some g) ->
    work (mkSystem t s acts tks ls xs sg cs fin) (mkSystem t' s acts tks' (g :: ls) xs sg cs fin)
| work_pending t s acts tks ls ls' xs sg cs fin g t' act :
    taken ls g ls' -> end_runtime_execution false g PollPending t = Ret (t', act) ->
    work (mkSystem t s acts tks ls xs sg cs fin) (mkSystem t' s (act :: acts) tks ls' xs sg cs fin).

Lemma work_step s s' : work s s' -> step s s'.
Proof.
  destruct 1; [by eapply step_apply_schedule| |by eapply (step_end _ _ false)].
  match goal with Ht : taken _ _ _, Hb : try_begin_runtime _ _ = (_, Some ?g) |- _ => exact (step_begin _ _ _ _ _ _ _ _ _ _ _ _ (Some g) Ht Hb) end.
Qed.

Lemma ticket_begins s :
  inv s -> lifecycle (control (task s)) = Queued -> current_ticket (control (task s)) ∈ tickets s ->
  exists s', work s s' /\ polled (schedule_generation (control (task s))) s'.
Proof.
  destruct s as [t st acts tks ls xs sg cs fin]. intros [Hl Hg Hq Hh Hc Hn] Hlq Hin. cbn in *.
  destruct (elem_taken _ _ Hin) as [tks' Ht].
  assert (cancel_requested (control t) = false) as Hcf.
  { destruct (cancel_requested (control t)) eqn:E; [|done]. specialize (Hc E). by rewrite Hlq in Hc. }
  eexists. split; [by eapply work_begin, try_begin_current|]. split; [done|]. cbn.
  unfold task_leases in Hl. by rewrite Hlq in Hl; subst.
Qed.

Lemma queued_polled s :
  reachable s -> stopping s = false -> lifecycle (control (task s)) = Queued ->
  exists s', rtc work s s' /\ polled (schedule_generation (control (task s))) s'.
Proof.
  intros Hr Hs Hl. pose proof (task_reachable_inv _ Hr) as Hi. destruct (inv_queued _ Hi Hl) as [?|[Hin|Hin]]; [congruence| |].
  - destruct s as [t st acts tks ls xs sg cs fin]. cbn in *. destruct (elem_taken _ _ Hin) as [acts' Ht].
    pose proof (work_schedule t st acts acts' tks ls xs sg cs fin _ Ht) as Hstep.
    destruct (ticket_begins _ (task_reachable_inv _ (reachable_step _ _ Hr (work_step _ _ Hstep))) Hl) as (s' & Hs' & Hp); [by left|].
    exists s'. split; [|done]. by eapply rtc_l, rtc_once.
  - destruct (ticket_begins _ Hi Hl Hin) as (s' & Hs' & Hp). exists s'. split; [by apply rtc_once|done].
Qed.

Lemma owed_polled s :
  reachable s -> stopping s = false -> poll_owed (control (task s)) = true ->
  exists s', rtc work s s' /\ polled (next_execution (control (task s))) s'.
Proof.
  intros Hr Hs Ho. unfold poll_owed, next_execution in *. destruct (lifecycle (control (task s))) eqn:Hl; try done.
  - by apply queued_polled.
  - apply andb_true_iff in Ho as [Hw Hc%negb_true_iff]. destruct s as [t st acts tks ls xs sg cs fin].
    pose proof (inv_leases _ (task_reachable_inv _ Hr)) as Hls. cbn in *. unfold task_leases in Hls. rewrite Hl in Hls. subst.
    assert (work (mkSystem t false acts tks [schedule_generation (control t)] xs sg cs fin)
              (mkSystem (scheduled (set_control t (with_wake (control t) false))).1 false
                 ((scheduled (set_control t (with_wake (control t) false))).2 :: acts) tks [] xs sg cs fin)) as Hstep.
    { eapply work_pending; [by exists [], []|].
      unfold end_runtime_execution. by rewrite Nat.eqb_refl, bool_decide_eq_true_2, Hc, Hw by done. }
    destruct (queued_polled _ (reachable_step _ _ Hr (work_step _ _ Hstep))) as (s' & Hs' & Hp); [done..|].
    exists s'. split; [by eapply rtc_l|done].
Qed.

Lemma stopping_step s s' : step s s' -> stopping s' = false -> stopping s = false.
Proof. by destruct 1. Qed.

(** A settled debt stays settled. *)
Lemma released_step k s s' : step s s' -> released k s -> released k s'.
Proof.
  unfold released. intros Hs Hr. destruct Hs; cbn in *; try done; task_cases; cbn in *; try tauto; try (right; lia);
    destruct Hr as [Hr|Hr]; try congruence; try tauto; right; lia.
Qed.

(** The poll [n] is owed, or the debt is settled otherwise. *)
Definition owing (n k : nat) (c : TaskControl) : Prop :=
  (poll_owed c = true /\ next_execution c = n /\ facility_generation c = k) \/
  cancel_requested c = true \/ (k < facility_generation c)%nat.

(** Operations of the threads that do not poll the task. *)
Lemma kept_owing t t' act n k : move (control t) (control t') act -> kept (control t) (control t') ->
  (lifecycle (control t) = RunningRuntime -> wake_requested (control t) = true -> wake_requested (control t') = true) ->
  (lifecycle (control t) = Queued -> control t' = control t \/ (k < facility_generation (control t'))%nat) ->
  poll_owed (control t) = true -> next_execution (control t) = n -> facility_generation (control t) = k ->
  owing n k (control t').
Proof.
  intros Hm Hk Hw Hq Ho Hn Hf. unfold owing, poll_owed, next_execution, kept in *. destruct (lifecycle (control t)) eqn:E; try done.
  - destruct Hq as [->|Hlt]; [done|left; by rewrite E|by right; right].
  - cbn in Hk. destruct Hk as (_ & El & Eg & _ & Ef). rewrite El, E, Eg. apply andb_true_iff in Ho as [Ho _].
    destruct (cancel_requested (control t')) eqn:Ec; [by right; left|]. left. rewrite Hw by done. by rewrite Ef.
Qed.

Ltac owing_op :=
  intros; eapply kept_owing; [| | | |eassumption..];
  [first [by eapply activate_move|by eapply schedule_move|by eapply abort_move|by eapply complete_facility_move|by eapply cancel_facility_handoff_move]
  |first [by eapply activate_move|by eapply schedule_move|by eapply abort_move|by eapply complete_facility_move|by eapply cancel_facility_handoff_move]
  |intros; task_cases; cbn in *; congruence
  |intros; task_cases; cbn in *; first [by left|right; lia|congruence]].

Section Owing.
Context (t : Task) (n k : nat) (Ho : poll_owed (control t) = true) (Hn : next_execution (control t) = n)
  (Hf : facility_generation (control t) = k).

Lemma activate_owing owner t' act : activate owner t = (t', act) -> owing n k (control t').
Proof. owing_op. Qed.

Lemma schedule_owing t' act : schedule false t = (t', act) -> owing n k (control t').
Proof. owing_op. Qed.

Lemma abort_owing t' act : abort t = (t', act) -> owing n k (control t').
Proof. owing_op. Qed.

Lemma complete_facility_owing token t' act : complete_facility false token t = Ret (t', act) -> owing n k (control t').
Proof. owing_op. Qed.

Lemma cancel_facility_handoff_owing token t' act : cancel_facility_handoff false token t = (t', act) -> owing n k (control t').
Proof. owing_op. Qed.
End Owing.

(** A step of any thread: the poll is still owed, or it has begun. *)
Lemma owed_step n k s s' : inv s -> step s s' -> stopping s' = false -> owed n k s ->
  polled n s' \/ owing n k (control (task s')).
Proof.
  intros [Hl Hg _ _ Hc _] Hs Hstop (Ho & Hn & Hk). destruct Hs; cbn in *;
    try (match goal with H : seen _ ?b |- _ => destruct b; [specialize (H eq_refl); congruence|] end).
  - right. by eapply activate_owing.
  - right. by eapply schedule_owing.
  - right. by eapply abort_owing.
  - pose proof (try_begin_runtime_spec _ _ _ _ ltac:(eassumption)) as Hb. destruct lease as [g|].
    + destruct Hb as (Hq & Hr & -> & Hm). left. split; [done|]. cbn. unfold task_leases in Hl. rewrite Hq in Hl. subst ls.
      f_equal. unfold next_execution in Hn. rewrite Hq in Hn. subst n. unfold try_begin_runtime in *. case_match; by simplify_eq/=.
    + destruct Hb as [-> _]. right. by left.
  - unfold task_leases in Hl. destruct (lifecycle (control t)) eqn:E; subst ls;
      try (match goal with H : taken [] _ _ |- _ => by destruct (taken_nil _ _ H) end).
    match goal with H : taken [_] _ _ |- _ => apply taken_singleton in H as [-> ->] end.
    right. unfold owing, poll_owed, next_execution in *. rewrite E in *. apply andb_true_iff in Ho as [Hw Hcf%negb_true_iff].
    unfold end_runtime_execution in *. rewrite Nat.eqb_refl, (bool_decide_eq_true_2 _ E) in *. task_cases; cbn in *; subst; first [left; done|right; right; lia|congruence].
  - right. left. by assert (control t' = control t) as -> by (unfold poll_owed in Ho; task_cases; congruence).
  - right. by eapply cancel_facility_handoff_owing.
  - right. left. by assert (control t' = control t) as -> by (unfold poll_owed in Ho; task_cases; congruence).
  - right. by eapply complete_facility_owing.
  - right. left. by assert (control t' = control t) as -> by task_cases.
  - right. left. by assert (control t' = control t) as -> by task_cases.
  - right. by left.
  - right. by left.
  - right. by eapply abort_owing.
  - right. by left.
  - right. by left.
  - right. by left.
  - done.
  - done.
Qed.

(** A run: the poll has begun at some point of it, or it is still owed, or the
    debt is settled otherwise. *)
Lemma owed_run n k s s' : reachable s -> rtc step s s' -> stopping s' = false -> owed n k s ->
  (exists m, rtc step s m /\ rtc step m s' /\ polled n m) \/ owing n k (control (task s')).
Proof.
  intros Hr Hs. revert s' Hs. apply (rtc_ind_r (fun s' => stopping s' = false -> owed n k s ->
    (exists m, rtc step s m /\ rtc step m s' /\ polled n m) \/ owing n k (control (task s')))); [by right; left|].
  intros m s' Hs1 Hs2 IH Hstop Ho. destruct (IH (stopping_step _ _ Hs2 Hstop) Ho) as [(m' & H1 & H2 & Hp)|[Hm|Hm]].
  - left. exists m'. split_and!; [done|by eapply rtc_r|done].
  - assert (reachable m) as Hrm by (unfold reachable; by etrans).
    destruct (owed_step n k m s' (task_reachable_inv _ Hrm) Hs2 Hstop Hm) as [Hp|Hn]; [|by right].
    left. exists s'. split_and!; [by eapply rtc_r|done|done].
  - right. right. by apply (released_step k m s').
Qed.

(** ** The theorems *)

(** C6: However the threads interleave, a task is polled by at most one of
    them: an execution, on a worker or in a facility, is under way exactly
    when the state machine says so, and it is the one of the current
    generation. *)
Theorem task_polled_exclusively s :
  reachable s ->
  (length (leases s) + length (segments s))%nat = (if is_running (lifecycle (control (task s))) then 1 else 0)%nat /\
  (forall g, g ∈ leases s -> g = schedule_generation (control (task s))) /\
  (forall k, k ∈ segments s -> token_matches (control (task s)) k = true).
Proof.
  intros Hr. destruct (task_reachable_inv _ Hr) as [Hl Hg _ _ _ _]. unfold task_leases, task_segments in *.
  rewrite Hl. clear Hl. split_and!.
  - destruct (lifecycle _); try (by rewrite Hg). by destruct Hg as (k & -> & _).
  - intros g. destruct (lifecycle _); first [by intros ->%list_elem_of_singleton|by intros ?%elem_of_nil].
  - intros k. destruct (lifecycle _); try (rewrite Hg; set_solver). destruct Hg as (k' & -> & Hk).
    by intros ->%list_elem_of_singleton.
Qed.

Definition begun : system :=
  mkSystem (mkTask (mkControl 3 RunningRuntime 1 0 0 false false) None None) false [] [] [1%nat] [] [] [] [].

Lemma begun_reachable : reachable begun.
Proof.
  unfold reachable, start.
  eapply rtc_l; [by apply (step_activate _ _ _ _ _ _ _ _ _ 3)|].
  eapply rtc_l; [apply step_apply_schedule; by exists [], []|].
  eapply rtc_l; [eapply step_begin; [by exists [], []|reflexivity]|]. apply rtc_refl.
Qed.

Lemma task_polled_exclusively_witness :
  reachable begun /\ (length (leases begun) + length (segments begun) = 1)%nat.
Proof. split; [exact begun_reachable|]. exact (proj1 (task_polled_exclusively begun begun_reachable)). Defined.

(** C8: A task completes once: the completions decided and applied, by a value
    or by an abort, are one if the task is completed and none otherwise, and
    a completed task stays completed and is not polled any more. *)
Theorem task_completes_once s s' :
  reachable s -> rtc step s s' ->
  (completions_in (actions s) + completions_in (finished s))%nat
    = (if bool_decide (lifecycle (control (task s)) = Completed) then 1 else 0)%nat /\
  (lifecycle (control (task s)) = Completed ->
   lifecycle (control (task s')) = Completed /\ leases s' = [] /\ segments s' = []).
Proof.
  intros Hr Hs. split; [exact (inv_completions _ (task_reachable_inv _ Hr))|]. intros Hc.
  assert (reachable s' /\ lifecycle (control (task s')) = Completed) as [Hr' Hc'].
  { induction Hs; eauto using reachable_step, completed_step. }
  split; [done|]. destruct (task_reachable_inv _ Hr') as [Hl Hg _ _ _ _]. unfold task_leases, task_segments in *.
  by rewrite Hc' in *.
Qed.

Definition ended : system :=
  mkSystem (mkTask (mkControl 3 Completed 2 0 1 false false) None None) false [ActCompleteValue] [] [] [] [] [] [].

Definition settled : system :=
  mkSystem (mkTask (mkControl 3 Completed 2 0 1 false false) None None) false [] [] [] [] [] [] [ActCompleteValue].

Lemma begun_ended : step begun ended.
Proof. apply (step_end _ _ false _ _ _ _ _ _ _ _ 1%nat PollComplete); [done|by exists [], []|done]. Qed.

Lemma ended_settled : step ended settled.
Proof. apply step_apply_complete; [by exists [], []|done]. Qed.

Lemma task_completes_once_witness :
  reachable ended /\ rtc step ended settled /\
  (completions_in (actions ended) + completions_in (finished ended) = 1)%nat.
Proof.
  assert (reachable ended) as Hr by exact (reachable_step _ _ begun_reachable begun_ended).
  assert (rtc step ended settled) as Hs by exact (rtc_once _ _ ended_settled).
  split_and!; [exact Hr|exact Hs|]. exact (proj1 (task_completes_once ended settled Hr Hs)).
Defined.

(** C7: A wake is not lost.  While the runtime is not stopping, a task that
    waits, is queued or is polled on a worker without being cancelled is owed
    a poll once it is woken.  A poll that is owed stays owed, whatever the
    threads do: along every run, either the next execution has begun at some
    point (of the next generation if the task was being polled), or it is still
    owed and the workers get to it by themselves, without another wake, when
    the poll under way returns; unless the task was cancelled or completed, or
    that poll handed it to a facility. *)
Theorem task_wake_not_lost s :
  reachable s -> stopping s = false ->
  (forall t' act, schedule false (task s) = (t', act) ->
     lifecycle (control (task s)) ∈ [Queued; Waiting; RunningRuntime] -> cancel_requested (control (task s)) = false ->
     poll_owed (control t') = true) /\
  (poll_owed (control (task s)) = true ->
   forall s', rtc step s s' -> stopping s' = false ->
   let n := next_execution (control (task s)) in
   (exists m, rtc step s m /\ rtc step m s' /\ polled n m) \/
   (poll_owed (control (task s')) = true /\ exists s'', rtc work s' s'' /\ polled n s'') \/
   cancel_requested (control (task s')) = true \/
   (facility_generation (control (task s)) < facility_generation (control (task s')))%nat).
Proof.
  intros Hr Hs. split.
  - intros t' act H Hin Hc. rewrite !elem_of_cons in Hin. unfold schedule in H.
    destruct Hin as [Hl|[Hl|[Hl|Hl]]]; [..|by apply elem_of_nil in Hl]; rewrite Hl in H; injection H as <- _;
      unfold poll_owed; cbn; rewrite ?Hl; [done..|by rewrite Hc].
  - intros Ho s' Hrun Hs' n. destruct (owed_run _ _ _ _ Hr Hrun Hs' (conj Ho (conj eq_refl eq_refl))) as [?|[(Ho' & Hn & Hf)|?]];
      [by left| |by right; right].
    right; left. split; [done|]. unfold n. rewrite <- Hn. apply owed_polled; [|done..]. unfold reachable. by etrans.
Qed.

Definition woken : system :=
  mkSystem (mkTask (mkControl 3 RunningRuntime 1 0 0 true false) None None) false [ActNone] [] [1%nat] [] [] [] [].

Lemma begun_woken : step begun woken.
Proof. by apply (step_schedule _ _ false). Qed.

(** The poll under way returned [Pending]. *)
Definition requeued : system :=
  mkSystem (mkTask (mkControl 3 Queued 2 0 0 false false) None None) false
    [ActSchedule (mkTicket 3 2); ActNone] [] [] [] [] [] [].

Lemma woken_requeued : step woken requeued.
Proof. by apply (step_end _ _ false _ _ _ _ _ _ _ _ 1%nat PollPending); [|exists [], []|]. Qed.

Lemma task_wake_not_lost_witness :
  reachable woken /\
  ((exists m, rtc step woken m /\ rtc step m requeued /\ polled 2 m) \/
   (poll_owed (control (task requeued)) = true /\ exists s'', rtc work requeued s'' /\ polled 2 s'')).
Proof.
  assert (reachable woken) as Hr by exact (reachable_step _ _ begun_reachable begun_woken).
  split; [exact Hr|].
  destruct (proj2 (task_wake_not_lost woken Hr eq_refl) eq_refl requeued (rtc_once _ _ woken_requeued) eq_refl) as [H|[H|[H|H]]];
    [left; exact H|right; exact H|discriminate H|cbn in H; lia].
Defined.

(** A completion can be lost.  [complete_facility] ignores the event of a
    facility, current token and all, unless the task is [Waiting]: if a stray
    wake has the task polled at that moment, the event is dropped and the poll
    is not asked to run again, so the task goes back to [Waiting] with nothing
    left that would wake it. *)
Theorem task_completion_lost :
  exists s s' token,
    reachable s /\ rtc step s s' /\
    completions s = [token] /\ token_matches (control (task s)) token = true /\
    lifecycle (control (task s')) = Waiting /\ facility_generation (control (task s')) = token_generation token /\
    completion_event (task s') = None /\ stopping s' = false /\
    Forall (eq ActNone) (actions s') /\ tickets s' = [] /\ leases s' = [] /\ completions s' = [].
Proof.
  pose (k := mkToken 7 3 1 CompletionOnly).
  exists (mkSystem (mkTask (mkControl 3 RunningRuntime 2 7 1 false false) None None) false [] [] [2%nat] [] [] [k] []).
  exists (mkSystem (mkTask (mkControl 3 Waiting 2 7 1 false false) None None) false [ActNone; ActNone] [] [] [] [] [] []).
  exists k. split_and!; try done; [| |by repeat constructor].
  - unfold reachable. etransitivity; [exact begun_reachable|].
    eapply rtc_l; [eapply (step_end _ _ false _ _ _ _ _ _ _ _ 1%nat (PollSubmitCompletion 7)); [done|by exists [], []|done]|].
    eapply rtc_l; [apply step_apply_completion; by exists [], []|].
    eapply rtc_l; [by apply (step_schedule _ _ false)|].
    eapply rtc_l; [apply step_apply_schedule; by exists [], []|].
    eapply rtc_l; [eapply step_begin; [by exists [], []|reflexivity]|]. apply rtc_refl.
  - eapply rtc_l; [eapply (step_complete_facility _ _ false _ _ _ _ _ _ _ _ k); [done|by exists [], []|done]|].
    eapply rtc_l; [eapply (step_end _ _ false _ _ _ _ _ _ _ _ 2%nat PollPending); [done|by exists [], []|done]|].
    apply rtc_refl.
Qed.
