(* ===== verification/DebugStore.v ===== *)
(** The diagnostic store of the asynchronous runtime
    ([std/src/async/debug/mod.cpp], [mod.cppm]).

    Recorders write the life of tasks, workers and waits into numbered slots
    and queue an event for each change; the collector drains the queue into a
    bounded history, keeps a copy of every record in an index sorted by id, and
    gives the slots of closed records back.  Handles query copies, snapshots
    and events.

    A slot, the registration and the query fields are each behind a mutex of
    the source; a definition below that takes one of them is the critical
    section.  What other threads do while one thread goes from section to
    section is the list [others] of the store: before each section they run
    some operations of recorders, and [try_lock] may find the mutex taken.  The
    clock is an argument.  The channel between
    recorders and collector is the bounded first-in first-out queue that
    [sync_channel] promises.  The capacity of a text is its length: texts are
    built by [with_capacity] of that length and by cloning. *)

From Stdlib Require Import ZArith Lia.
From stdpp Require Import base list.
From S2P Require Import Prelude.
From S2P Require Import Int.

Local Open Scope Z_scope.
Local Open Scope rstd_scope.

(** ** Data *)

Inductive Kind := Runtime | Task | BlockingJob | Worker | Operation | Resource | Wait.

Inductive State :=
| Created | Queued | Running | Waiting | FacilityQueued | FacilityRunning
| Terminal | Cleaned | Published | Submitted | Ready | Consumed
| ReleaseRequested | Released | Cancelled | Removed | Parked | Stopping | Closed.

Inductive Error := EBusy | ENotFound | EEvicted | EHistoryGap | EInvalidCursor | ECapacity | EClosed.

Inductive Outcome := OUnknown | OSuccess | OAborted | OError.

#[export] Instance Kind_eq_dec : EqDecision Kind.
Proof. solve_decision. Defined.
#[export] Instance State_eq_dec : EqDecision State.
Proof. solve_decision. Defined.
#[export] Instance Outcome_eq_dec : EqDecision Outcome.
Proof. solve_decision. Defined.

Record RuntimeInfo := mkRuntimeInfo
  { multi_thread : bool; io_enabled : bool; time_enabled : bool; workers : Z; max_blocking_threads : Z }.

(** [aggregation_interval] is in nanoseconds. *)
Record Options := mkOptions
  { max_active : Z; max_closed : Z; max_events : Z; max_text_bytes : Z; max_bytes : Z;
    max_pending_events : Z; aggregation_interval : Z }.

Record TaskInfo := mkTaskInfo { info_name : list Z; info_file : list Z; info_line : Z }.

Record DRecord := mkRecord
  { r_id : Z; r_parent : Z; r_target : Z; r_kind : Kind; r_state : State;
    r_version : Z; r_changed_ns : Z; r_worker : Z; r_external : bool;
    r_cancel_requested : bool; r_cancel_rejected : bool; r_terminal : bool; r_truncated : bool;
    r_scheduler_terminal : bool; r_frame_cleaned : bool; r_result_published : bool;
    r_backend_terminal : bool; r_outcome : Outcome; r_name : list Z; r_file : list Z; r_line : Z }.

Definition empty_record : DRecord :=
  mkRecord 0 0 0 Task Created 0 0 0 false false false false false false false false false OUnknown [] [] 0.

Record CapturedState := mkCaptured
  { s_id : Z; s_version : Z; s_changed_ns : Z; s_state : State; s_worker : Z; s_external : bool;
    s_cancel_requested : bool; s_cancel_rejected : bool; s_terminal : bool;
    s_scheduler_terminal : bool; s_frame_cleaned : bool; s_result_published : bool;
    s_backend_terminal : bool; s_outcome : Outcome }.

Definition captured_state (r : DRecord) : CapturedState :=
  mkCaptured (r_id r) (r_version r) (r_changed_ns r) (r_state r) (r_worker r) (r_external r)
    (r_cancel_requested r) (r_cancel_rejected r) (r_terminal r) (r_scheduler_terminal r)
    (r_frame_cleaned r) (r_result_published r) (r_backend_terminal r) (r_outcome r).

(** [CapturedState::apply]: everything but the identity of the record. *)
Definition apply_state (s : CapturedState) (r : DRecord) : DRecord :=
  mkRecord (r_id r) (r_parent r) (r_target r) (r_kind r) (s_state s) (s_version s) (s_changed_ns s)
    (s_worker s) (s_external s) (s_cancel_requested s) (s_cancel_rejected s) (s_terminal s)
    (r_truncated r) (s_scheduler_terminal s) (s_frame_cleaned s) (s_result_published s)
    (s_backend_terminal s) (s_outcome s) (r_name r) (r_file r) (r_line r).

Record CaptureEvent := mkCaptureEvent { ev_slot : nat; ev_generation : Z; ev_state : CapturedState }.

Record SlotFields := mkSlot
  { occupied : bool; generation : Z; last_queued : Z; last_drained : Z; text_bytes : Z; record : DRecord }.

Definition empty_slot : SlotFields := mkSlot false 0 0 0 0 empty_record.

Record Registration := mkRegistration { free : list nat; occupied_slots : list nat; next_id : Z }.

Record WakeState := mkWake { stopped : bool; notified : bool }.

(** [CaptureShared]: [pending_queue] is the channel. *)
Record Capture := mkCapture
  { options : Options; runtime : RuntimeInfo; session : Z; slots : list SlotFields;
    registration : Registration; pending_queue : list CaptureEvent; wake : WakeState;
    used_bytes : Z; active : Z; omitted : Z; dropped_events : Z;
    closed : bool; exhausted : bool; flush_requested : bool }.

Record Event := mkEvent { sequence : Z; event_record : DRecord }.
Record IndexEntry := mkIndex { ix_id : Z; ix_slot : nat }.

Record QueryFields := mkQuery
  { q_records : list (option DRecord); q_index : list IndexEntry; q_scan : list nat;
    q_pending : option CaptureEvent; q_history : list (option Event); history_head : nat;
    history_len : nat; q_cursor : Z; seen_dropped : Z; q_next_id : Z }.

(** A recorder is a token: whether it has a store, and the slot, generation
    and id it speaks for. *)
Record Recorder := mkRecorder { has_capture : bool; rec_id : Z; rec_slot : nat; rec_generation : Z }.

Definition no_recorder : Recorder := mkRecorder false 0 0 0.

(** What another thread does to the shared part in one critical section: the
    operations of a recorder, the end of the recording, and the flags of the
    collector's thread. *)
Inductive Action :=
| act_child (now1 now2 : Z) (self : Recorder) (kind : Kind) (info : TaskInfo) (target : Z) (waiting : bool)
| act_state (now : Z) (self : Recorder) (s : State) (terminal : bool) (worker : Z) (external : bool)
| act_cancel (now : Z) (self : Recorder)
| act_cancel_rejected (now : Z) (self : Recorder)
| act_outcome (now : Z) (self : Recorder) (value : Outcome)
| act_closed
| act_wake (w : WakeState) (flush : bool).

(** What happens before a critical section: the actions of other threads, and
    whether one of them then holds the mutex. *)
Record Pause := mkPause { actions : list Action; taken : bool }.

Record Store := mkStore { capture : Capture; query : QueryFields; others : list Pause }.

(** ** Updates of one field *)

Definition set_registration (c : Capture) (v : Registration) : Capture :=
  mkCapture (options c) (runtime c) (session c) (slots c) v (pending_queue c) (wake c)
    (used_bytes c) (active c) (omitted c) (dropped_events c) (closed c) (exhausted c) (flush_requested c).
Definition set_slot (c : Capture) (i : nat) (v : SlotFields) : Capture :=
  mkCapture (options c) (runtime c) (session c) (<[i := v]> (slots c)) (registration c) (pending_queue c) (wake c)
    (used_bytes c) (active c) (omitted c) (dropped_events c) (closed c) (exhausted c) (flush_requested c).
Definition set_queue (c : Capture) (v : list CaptureEvent) : Capture :=
  mkCapture (options c) (runtime c) (session c) (slots c) (registration c) v (wake c)
    (used_bytes c) (active c) (omitted c) (dropped_events c) (closed c) (exhausted c) (flush_requested c).
Definition set_wake (c : Capture) (v : WakeState) : Capture :=
  mkCapture (options c) (runtime c) (session c) (slots c) (registration c) (pending_queue c) v
    (used_bytes c) (active c) (omitted c) (dropped_events c) (closed c) (exhausted c) (flush_requested c).
Definition set_used_bytes (c : Capture) (v : Z) : Capture :=
  mkCapture (options c) (runtime c) (session c) (slots c) (registration c) (pending_queue c) (wake c)
    v (active c) (omitted c) (dropped_events c) (closed c) (exhausted c) (flush_requested c).
Definition set_active (c : Capture) (v : Z) : Capture :=
  mkCapture (options c) (runtime c) (session c) (slots c) (registration c) (pending_queue c) (wake c)
    (used_bytes c) v (omitted c) (dropped_events c) (closed c) (exhausted c) (flush_requested c).
Definition set_omitted (c : Capture) (v : Z) : Capture :=
  mkCapture (options c) (runtime c) (session c) (slots c) (registration c) (pending_queue c) (wake c)
    (used_bytes c) (active c) v (dropped_events c) (closed c) (exhausted c) (flush_requested c).
Definition set_dropped_events (c : Capture) (v : Z) : Capture :=
  mkCapture (options c) (runtime c) (session c) (slots c) (registration c) (pending_queue c) (wake c)
    (used_bytes c) (active c) (omitted c) v (closed c) (exhausted c) (flush_requested c).
Definition set_closed (c : Capture) : Capture :=
  mkCapture (options c) (runtime c) (session c) (slots c) (registration c) (pending_queue c) (wake c)
    (used_bytes c) (active c) (omitted c) (dropped_events c) true (exhausted c) (flush_requested c).
Definition set_exhausted (c : Capture) : Capture :=
  mkCapture (options c) (runtime c) (session c) (slots c) (registration c) (pending_queue c) (wake c)
    (used_bytes c) (active c) (omitted c) (dropped_events c) (closed c) true (flush_requested c).
Definition set_flush_requested (c : Capture) (v : bool) : Capture :=
  mkCapture (options c) (runtime c) (session c) (slots c) (registration c) (pending_queue c) (wake c)
    (used_bytes c) (active c) (omitted c) (dropped_events c) (closed c) (exhausted c) v.

Definition set_index (f : QueryFields) (v : list IndexEntry) : QueryFields :=
  mkQuery (q_records f) v (q_scan f) (q_pending f) (q_history f) (history_head f) (history_len f)
    (q_cursor f) (seen_dropped f) (q_next_id f).
Definition set_query_record (f : QueryFields) (i : nat) (v : option DRecord) : QueryFields :=
  mkQuery (<[i := v]> (q_records f)) (q_index f) (q_scan f) (q_pending f) (q_history f) (history_head f)
    (history_len f) (q_cursor f) (seen_dropped f) (q_next_id f).
Definition set_pending (f : QueryFields) (v : option CaptureEvent) : QueryFields :=
  mkQuery (q_records f) (q_index f) (q_scan f) v (q_history f) (history_head f) (history_len f)
    (q_cursor f) (seen_dropped f) (q_next_id f).
Definition set_history (f : QueryFields) (v : list (option Event)) (head len : nat) : QueryFields :=
  mkQuery (q_records f) (q_index f) (q_scan f) (q_pending f) v head len
    (q_cursor f) (seen_dropped f) (q_next_id f).
Definition set_cursor (f : QueryFields) (v : Z) : QueryFields :=
  mkQuery (q_records f) (q_index f) (q_scan f) (q_pending f) (q_history f) (history_head f) (history_len f)
    v (seen_dropped f) (q_next_id f).
Definition set_seen_dropped (f : QueryFields) (v : Z) : QueryFields :=
  mkQuery (q_records f) (q_index f) (q_scan f) (q_pending f) (q_history f) (history_head f) (history_len f)
    (q_cursor f) v (q_next_id f).
Definition set_next_id (f : QueryFields) (v : Z) : QueryFields :=
  mkQuery (q_records f) (q_index f) (q_scan f) (q_pending f) (q_history f) (history_head f) (history_len f)
    (q_cursor f) (seen_dropped f) v.
Definition set_scan (f : QueryFields) (v : list nat) : QueryFields :=
  mkQuery (q_records f) (q_index f) v (q_pending f) (q_history f) (history_head f) (history_len f)
    (q_cursor f) (seen_dropped f) (q_next_id f).

Definition with_record (s : SlotFields) (r : DRecord) : SlotFields :=
  mkSlot (occupied s) (generation s) (last_queued s) (last_drained s) (text_bytes s) r.
Definition with_last_queued (s : SlotFields) (v : Z) : SlotFields :=
  mkSlot (occupied s) (generation s) v (last_drained s) (text_bytes s) (record s).
Definition with_last_drained (s : SlotFields) (v : Z) : SlotFields :=
  mkSlot (occupied s) (generation s) (last_queued s) v (text_bytes s) (record s).

Definition with_version (r : DRecord) (version changed_ns : Z) : DRecord :=
  mkRecord (r_id r) (r_parent r) (r_target r) (r_kind r) (r_state r) version changed_ns
    (r_worker r) (r_external r) (r_cancel_requested r) (r_cancel_rejected r) (r_terminal r)
    (r_truncated r) (r_scheduler_terminal r) (r_frame_cleaned r) (r_result_published r)
    (r_backend_terminal r) (r_outcome r) (r_name r) (r_file r) (r_line r).

(** ** Accounting *)

(** [increment]: [None] is the refusal at the top of the range. *)
Definition increment (value : Z) : option Z := if value =? MAX u64 then None else Some (value + 1).

(** [allocate_session] on the counter [next_session]: the session and the
    counter after; 0 when the sessions are used up. *)
Definition allocate_session (next_session : Z) : Z * Z :=
  if next_session =? MAX u64 then (0, next_session) else (next_session, next_session + 1).

(** The compare-and-exchange loop of [reserve] is one atomic update. *)
Definition reserve (c : Capture) (bytes : Z) : option Capture :=
  if bytes <=? wrapping_sub usize (max_bytes (options c)) (used_bytes c)
  then Some (set_used_bytes c (wrapping_add usize (used_bytes c) bytes)) else None.

Definition release (c : Capture) (bytes : Z) : Capture :=
  set_used_bytes c (wrapping_sub usize (used_bytes c) bytes).

Definition lose_event (c : Capture) : Capture :=
  match increment (dropped_events c) with Some v => set_dropped_events c v | None => set_exhausted c end.

Definition omit (c : Capture) : Capture :=
  match increment (omitted c) with Some v => set_omitted c v | None => set_exhausted c end.

(** [notify]: the condition variable is signalled with the flag. *)
Definition notify (c : Capture) : Capture :=
  if flush_requested c then c
  else set_wake (set_flush_requested c true) (mkWake (stopped (wake c)) true).

(** The channel: [Sender::try_send] refuses when it is full, [len] is the
    number of events waiting. *)
Definition try_send (c : Capture) (e : CaptureEvent) : option Capture :=
  if Z.of_nat (length (pending_queue c)) <? max_pending_events (options c)
  then Some (set_queue c (pending_queue c ++ [e])) else None.

Definition try_recv (c : Capture) : option (CaptureEvent * Capture) :=
  match pending_queue c with [] => None | e :: rest => Some (e, set_queue c rest) end.

Definition publish (now : Z) (slot : nat) (fields : SlotFields) (c : Capture) : SlotFields * Capture :=
  let r := record fields in
  if r_version r =? MAX u64 then (fields, set_exhausted c)
  else
    let r := with_version r (r_version r + 1) now in
    let fields := with_record fields r in
    let '(fields, c) :=
      match try_send c (mkCaptureEvent slot (generation fields) (captured_state r)) with
      | Some c => (with_last_queued fields (r_version r), c)
      | None => (fields, lose_event c)
      end in
    let pending := max_pending_events (options c) in
    (fields, if pending - pending / 4 <=? Z.of_nat (length (pending_queue c)) then notify c else c).

(** ** Options *)

(** The sizes of the objects, which the compiler chooses. *)
Class Sizes := {
  sizeof_CaptureShared : Z; sizeof_QueryState : Z; sizeof_QueryFields : Z;
  sizeof_CollectionSession : Z; sizeof_CaptureSlot : Z; sizeof_Box : Z; sizeof_OptionRecord : Z;
  sizeof_IndexEntry : Z; sizeof_usize : Z; sizeof_OptionEvent : Z; sizeof_CaptureEvent : Z;
  sizeof_Record : Z }.

Definition checked_add (value amount count : Z) : option Z :=
  if negb (count =? 0) && ((MAX usize - value) / count <? amount) then None
  else Some (value + amount * count).

Section sizes.
Context `{Sizes}.

Definition fixed_cost (o : Options) : option Z :=
  match checked_add (max_active o) (max_closed o) 1 with
  | None => None
  | Some count =>
    let bytes := sizeof_CaptureShared + sizeof_QueryState + sizeof_QueryFields
                 + sizeof_CollectionSession + 4096 in
    match checked_add bytes
            (sizeof_CaptureSlot + sizeof_Box + sizeof_OptionRecord + sizeof_IndexEntry
             + 3 * sizeof_usize + 64) count with
    | None => None
    | Some bytes =>
      match checked_add bytes sizeof_OptionEvent (max_events o) with
      | None => None
      | Some bytes => checked_add bytes (sizeof_CaptureEvent + 64) (max_pending_events o)
      end
    end
  end.

Definition options_valid (o : Options) : bool :=
  if (max_active o =? 0) || (max_closed o =? 0) || (max_events o =? 0) || (max_pending_events o =? 0)
     || (max_text_bytes o =? 0) || (65536 <? max_text_bytes o) || (aggregation_interval o =? 0)
  then false
  else match fixed_cost o with
       | None => false
       | Some fixed => (fixed <=? max_bytes o) && (max_text_bytes o <=? (max_bytes o - fixed) / 4)
       end.

(** The constructor of [CaptureShared]; [None] is the unchecked unwrap. *)
Definition make_capture (o : Options) (info : RuntimeInfo) (session : Z) : option Capture :=
  let count := Z.to_nat (max_active o + max_closed o) in
  match fixed_cost o with
  | None => None
  | Some fixed =>
    Some (mkCapture o info session (replicate count empty_slot)
            (mkRegistration (map (fun i => (count - i - 1)%nat) (seq 0 count)) [] 1)
            [] (mkWake false false) fixed 0 0 0 false (session =? 0) false)
  end.
End sizes.

(** The constructor of [QueryFields]. *)
Definition make_query (slots events : nat) : QueryFields :=
  mkQuery (replicate slots None) [] [] None (replicate events None) 0 0 0 0 1.

(** ** Texts *)

Definition text_cost (r : DRecord) : Z := Z.of_nat (length (r_name r)) + Z.of_nat (length (r_file r)).

Fixpoint boundary_loop (s : list Z) (n : nat) : nat :=
  match n with
  | O => O
  | S k => if Z.land (default 0 (s !! n)) 0xc0 =? 0x80 then boundary_loop s k else n
  end.

(** [bounded_text]: the text and whether it was cut. *)
Definition bounded_text (s : list Z) (maximum : Z) (truncated : bool) : list Z * bool :=
  let n := length s in
  if maximum <? Z.of_nat n then (take (boundary_loop s (Z.to_nat maximum)) s, true)
  else (take n s, truncated).

Fixpoint c_text (p : list Z) : list Z :=
  match p with [] => [] | b :: rest => if b =? 0 then [] else b :: c_text rest end.
