(* ===== verification/DebugRecorder.v ===== *)
(** The recorders of the diagnostic store: registering a record, reporting its
    state, cancelling, closing ([Recorder], [WaitGuard] and [update_token] of
    [std/src/async/debug/mod.cpp]).  Each definition is one critical section
    of the slot, and of the registration where a record is registered. *)

From Stdlib Require Import ZArith Lia.
From stdpp Require Import base list.
From S2P Require Import Prelude.
From S2P Require Import Int.
From S2P Require Import DebugStore.

Local Open Scope Z_scope.
Local Open Scope rstd_scope.

Definition CaptureM := M Capture Error.

Definition get_capture : CaptureM Capture := gets id.
Definition put_capture (c : Capture) : CaptureM unit := modify (fun _ => c).

(** [slots[slot]]: panics out of range. *)
Definition lock_slot (slot : nat) : CaptureM SlotFields := fun c =>
  match slots c !! slot with Some s => (Ret s, c) | None => (Panic, c) end.

Definition store_slot (slot : nat) (s : SlotFields) : CaptureM unit := modify (fun c => set_slot c slot s).

(** Publishes the slot and stores what publishing changed. *)
Definition publish_slot (now : Z) (slot : nat) (s : SlotFields) : CaptureM SlotFields := fun c =>
  let '(s, c) := publish now slot s c in (Ret s, set_slot c slot s).

(** [free.pop()] and [occupied.push]: vectors grow and shrink at the end. *)
Definition pop_last {A} (l : list A) : option (A * list A) :=
  match list.last l with Some x => Some (x, removelast l) | None => None end.

(** The record of a registration: [r = Record {}] and its identity. *)
Definition new_record (o : Options) (self_id : Z) (kind : Kind) (info : TaskInfo) (target new_id : Z) : DRecord :=
  let '(name, truncated) := bounded_text (info_name info) (max_text_bytes o) false in
  let '(file, truncated) := bounded_text (c_text (info_file info)) (max_text_bytes o) truncated in
  mkRecord new_id self_id target kind Created 0 0 0 false false false false truncated
    false false false false OUnknown name file (info_line info).

Definition with_state (r : DRecord) (s : State) : DRecord :=
  mkRecord (r_id r) (r_parent r) (r_target r) (r_kind r) s (r_version r) (r_changed_ns r)
    (r_worker r) (r_external r) (r_cancel_requested r) (r_cancel_rejected r) (r_terminal r)
    (r_truncated r) (r_scheduler_terminal r) (r_frame_cleaned r) (r_result_published r)
    (r_backend_terminal r) (r_outcome r) (r_name r) (r_file r) (r_line r).

(** The bytes [child_initial] reserves before it copies the texts. *)
Definition reserved_bytes (o : Options) (info : TaskInfo) : Z :=
  (Z.min (Z.of_nat (length (info_name info))) (max_text_bytes o)
   + Z.min (Z.of_nat (length (c_text (info_file info)))) (max_text_bytes o)) * 2.

(** The part of [child_initial] that holds the slot. *)
Definition register (now1 now2 : Z) (self : Recorder) (kind : Kind) (info : TaskInfo) (target : Z)
    (waiting : bool) (reserved : Z) : CaptureM Recorder :=
  let* c := get_capture in
  match pop_last (free (registration c)) with
  | None => panic
  | Some (slot, free') =>
    let* _ := put_capture (set_registration c (mkRegistration free' (occupied_slots (registration c))
                             (next_id (registration c)))) in
    let* entry := lock_slot slot in
    if generation entry =? MAX u64 then
      let* _ := modify (fun c => set_exhausted (release c reserved)) in ret no_recorder
    else
      let r := new_record (options c) (rec_id self) kind info target (next_id (registration c)) in
      let entry := mkSlot true (generation entry + 1) 0 0 (text_cost r) r in
      let* _ := modify (fun c =>
        let c := release c (wrapping_sub usize reserved (text_bytes entry * 2)) in
        let c := set_registration c (mkRegistration (free (registration c))
                   (occupied_slots (registration c) ++ [slot]) (next_id (registration c) + 1)) in
        set_active c (wrapping_add usize (active c) 1)) in
      let* entry := publish_slot now1 slot entry in
      let* _ := (if waiting
                 then let* _ := publish_slot now2 slot (with_record entry (with_state (record entry) Waiting)) in
                      ret tt
                 else ret tt) in
      ret (mkRecorder true (r_id r) slot (generation entry))
  end.

Definition child_initial (now1 now2 : Z) (self : Recorder) (kind : Kind) (info : TaskInfo) (target : Z)
    (waiting : bool) : CaptureM Recorder :=
  if negb (has_capture self) then ret no_recorder
  else
    let* c := get_capture in
    if closed c || exhausted c then ret no_recorder
    else if next_id (registration c) =? MAX u64 then
      let* _ := modify set_exhausted in ret no_recorder
    else if (max_active (options c) <=? active c) || (match free (registration c) with [] => true | _ => false end) then
      let* _ := modify omit in ret no_recorder
    else
      let reserved := reserved_bytes (options c) info in
      match reserve c reserved with
      | None => let* _ := modify omit in ret no_recorder
      | Some c => let* _ := put_capture c in register now1 now2 self kind info target waiting reserved
      end.

Definition child (now : Z) (self : Recorder) (kind : Kind) (info : TaskInfo) (target : Z) : CaptureM Recorder :=
  child_initial now now self kind info target false.

(** The states that the scheduler no longer reports once a task has ended. *)
Definition scheduling_state (s : State) : bool :=
  match s with
  | Created | Queued | Running | Waiting | FacilityQueued | FacilityRunning | Terminal => true
  | _ => false
  end.

(** The record [Recorder::state] writes. *)
Definition changed_state (r : DRecord) (s : State) (terminal : bool) (worker : Z) (external : bool) : DRecord :=
  mkRecord (r_id r) (r_parent r) (r_target r) (r_kind r) s (r_version r) (r_changed_ns r)
    worker external (r_cancel_requested r) (r_cancel_rejected r) terminal (r_truncated r)
    (r_scheduler_terminal r || bool_decide (s = Terminal))
    (r_frame_cleaned r || bool_decide (s = Cleaned))
    (r_result_published r || bool_decide (s = Published))
    (r_backend_terminal r || bool_decide (s = Ready))
    (r_outcome r) (r_name r) (r_file r) (r_line r).

(** Whether the token still speaks for the slot. *)
Definition current_token (self : Recorder) (entry : SlotFields) : bool :=
  occupied entry && (generation entry =? rec_generation self) && (r_id (record entry) =? rec_id self).

Definition state (now : Z) (self : Recorder) (s : State) (terminal : bool) (worker : Z) (external : bool)
    : CaptureM unit :=
  if negb (has_capture self) || (rec_id self =? 0) then ret tt
  else
    let* entry := lock_slot (rec_slot self) in
    if negb (current_token self entry) then ret tt
    else
      let r := record entry in
      let* c := get_capture in
      if r_terminal r || exhausted c then ret tt
      else
        let worker := if worker =? MAX usize then r_worker r else worker in
        if bool_decide (r_state r = s) && (r_worker r =? worker) && Bool.eqb (r_external r) external
           && negb terminal then ret tt
        else if (r_frame_cleaned r || r_scheduler_terminal r) && scheduling_state s then ret tt
        else
          let r := changed_state r s terminal worker external in
          let* _ := modify (fun c =>
            let c := if terminal then set_active c (wrapping_sub usize (active c) 1) else c in
            if bool_decide (r_kind r = Runtime) && bool_decide (s = Closed) then set_closed c else c) in
          let* _ := publish_slot now (rec_slot self) (with_record entry r) in
          ret tt.

(** [update_token]: [update] returns the record and whether it changed. *)
Definition update_token (now : Z) (self : Recorder) (update : DRecord -> DRecord * bool) : CaptureM unit :=
  if negb (has_capture self) || (rec_id self =? 0) then ret tt
  else
    let* entry := lock_slot (rec_slot self) in
    let* c := get_capture in
    if negb (current_token self entry) || r_terminal (record entry) || exhausted c then ret tt
    else
      let '(r, changed) := update (record entry) in
      let* _ := store_slot (rec_slot self) (with_record entry r) in
      if changed then let* _ := publish_slot now (rec_slot self) (with_record entry r) in ret tt else ret tt.

Definition with_flags (r : DRecord) (cancel rejected : bool) (o : Outcome) : DRecord :=
  mkRecord (r_id r) (r_parent r) (r_target r) (r_kind r) (r_state r) (r_version r) (r_changed_ns r)
    (r_worker r) (r_external r) cancel rejected (r_terminal r)
    (r_truncated r) (r_scheduler_terminal r) (r_frame_cleaned r) (r_result_published r)
    (r_backend_terminal r) o (r_name r) (r_file r) (r_line r).

Definition request_cancel (r : DRecord) : DRecord * bool :=
  (with_flags r true (r_cancel_rejected r) (r_outcome r), negb (r_cancel_requested r)).
Definition reject_cancel (r : DRecord) : DRecord * bool :=
  (with_flags r (r_cancel_requested r) true (r_outcome r), negb (r_cancel_rejected r)).
Definition set_outcome (value : Outcome) (r : DRecord) : DRecord * bool :=
  (with_flags r (r_cancel_requested r) (r_cancel_rejected r) value, negb (bool_decide (r_outcome r = value))).

Definition cancel (now : Z) (self : Recorder) : CaptureM unit := update_token now self request_cancel.
Definition cancel_rejected (now : Z) (self : Recorder) : CaptureM unit := update_token now self reject_cancel.
Definition outcome_of (now : Z) (self : Recorder) (value : Outcome) : CaptureM unit :=
  update_token now self (set_outcome value).

(** [Recorder::close]. *)
Definition close (now : Z) (self : Recorder) : CaptureM unit :=
  let* _ := state now self Closed true (MAX usize) false in
  if has_capture self then modify set_closed else ret tt.

Definition without_parent (self : Recorder) : Recorder :=
  mkRecorder (has_capture self) 0 (rec_slot self) (rec_generation self).

(** [WaitGuard::begin] on the recorder of the running task, and [reset]. *)
Definition wait_begin (now1 now2 : Z) (guard : Recorder) (current : option Recorder) (name file : list Z)
    (line target : Z) : CaptureM Recorder :=
  match current with
  | None => ret guard
  | Some cur =>
    if negb (rec_id guard =? 0) || negb (has_capture cur) then ret guard
    else child_initial now1 now2 cur Wait (mkTaskInfo name file line) target true
  end.

Definition wait_reset (now : Z) (guard : Recorder) : CaptureM Recorder :=
  let* _ := state now guard Removed true (MAX usize) false in ret no_recorder.

(** [Recorder::make], from the state [make_capture] gives: registers the
    runtime and reports it running. *)
Definition make_root (now1 now2 : Z) : CaptureM Recorder :=
  let r := mkRecorder true 0 0 0 in
  let* root := child now1 r Runtime (mkTaskInfo [114; 117; 110; 116; 105; 109; 101] [] 0) 0 in
  if negb (has_capture root) then ret r
  else let* _ := state now2 root Running false (MAX usize) false in ret root.

(** ** The other threads *)

Definition act (a : Action) (c : Capture) : Capture :=
  match a with
  | act_child now1 now2 self kind info target waiting =>
    snd (child_initial now1 now2 self kind info target waiting c)
  | act_state now self s terminal worker external => snd (state now self s terminal worker external c)
  | act_cancel now self => snd (cancel now self c)
  | act_cancel_rejected now self => snd (cancel_rejected now self c)
  | act_outcome now self value => snd (outcome_of now self value c)
  | act_closed => set_closed c
  | act_wake w flush => set_flush_requested (set_wake c w) flush
  end.

Definition run_actions (l : list Action) (c : Capture) : Capture := foldl (fun c a => act a c) c l.
