(* ===== verification/DebugCollector.v ===== *)
(** The collector of the diagnostic store and the queries of its handles:
    [QueryState::refresh], [publish_event], [make_snapshot], [Handle] and
    [CollectionSession] of [std/src/async/debug/mod.cpp].

    [refresh] takes the mutexes of slots and registration one at a time, so
    recorders run between its critical sections: each section is a definition
    of its own, and [refresh] composes them with a [pause] before each, in
    which other threads run the operations that the store's [others] say. *)

From Stdlib Require Import ZArith Lia.
From stdpp Require Import base list.
From S2P Require Import Prelude.
From S2P Require Import Int.
From S2P Require Import DebugStore.
From S2P Require Import DebugRecorder.

Local Open Scope Z_scope.
Local Open Scope rstd_scope.

Definition StoreM := M Store Error.

Definition get_store : StoreM Store := gets id.
Definition modify_capture (h : Capture -> Capture) : StoreM unit :=
  modify (fun s => mkStore (h (capture s)) (query s) (others s)).
Definition modify_query (h : QueryFields -> QueryFields) : StoreM unit :=
  modify (fun s => mkStore (capture s) (h (query s)) (others s)).

(** A recorder's operation acts on the shared part alone. *)
Definition on_capture {A} (m : CaptureM A) : StoreM A := fun s =>
  let '(r, c) := m (capture s) in (r, mkStore c (query s) (others s)).

(** What the other threads do before the next critical section; [true] when
    one of them holds its mutex. *)
Definition pause : StoreM bool := fun s =>
  match others s with
  | [] => (Ret false, s)
  | p :: rest => (Ret (taken p), mkStore (run_actions (actions p) (capture s)) (query s) rest)
  end.

(** [acquire]: blocking always succeeds, [try_lock] fails when the mutex is
    taken. *)
Definition acquire (nonblocking : bool) : StoreM bool :=
  let* busy := pause in ret (negb (nonblocking && busy)).

(** ** Index and history *)

Fixpoint find_index_loop (fuel : nat) (index : list IndexEntry) (id : Z) (first last : nat) : nat :=
  match fuel with
  | O => first
  | S fuel =>
    if (first <? last)%nat then
      let middle := (first + (last - first) / 2)%nat in
      if (match index !! middle with Some e => ix_id e <? id | None => false end)
      then find_index_loop fuel index id (middle + 1) last
      else find_index_loop fuel index id first middle
    else first
  end.

Definition find_index (f : QueryFields) (id : Z) : nat :=
  find_index_loop (length (q_index f)) (q_index f) id 0 (length (q_index f)).

(** The text at the head of the history, which must hold an event. *)
Definition evict_event : StoreM unit :=
  let* s := get_store in
  let f := query s in
  match q_history f !! history_head f with
  | Some (Some event) =>
    do* modify_query (fun f => set_history f (<[history_head f := None]> (q_history f))
          ((history_head f + 1) mod Z.to_nat (max_events (options (capture s)))) (history_len f - 1));;
    modify_capture (fun c => release c (text_cost (event_record event)))
  | _ => panic
  end.

Definition next_cursor : StoreM Z :=
  let* s := get_store in
  if q_cursor (query s) =? MAX u64 then do* modify_capture set_exhausted;; ret 0
  else do* modify_query (fun f => set_cursor f (q_cursor f + 1));; ret (q_cursor (query s) + 1).

(** Evicts until the bytes can be reserved; [false] when nothing is left to
    evict. *)
Fixpoint reserve_loop (fuel : nat) (bytes : Z) : StoreM bool :=
  let* s := get_store in
  match reserve (capture s) bytes with
  | Some c => do* modify_capture (fun _ => c);; ret true
  | None =>
    if (history_len (query s) =? 0)%nat then ret false
    else match fuel with
         | O => out_of_fuel
         | S fuel => do* evict_event;; reserve_loop fuel bytes
         end
  end.

Definition publish_event (metadata : DRecord) (st : CapturedState) : StoreM unit :=
  let* sequence := next_cursor in
  if sequence =? 0 then ret tt
  else
    let bytes := text_cost metadata in
    let* s := get_store in
    do* (if Z.of_nat (history_len (query s)) =? max_events (options (capture s)) then evict_event else ret tt);;
    let* s := get_store in
    let* reserved := reserve_loop (history_len (query s)) bytes in
    if negb reserved then ret tt
    else
      let r := apply_state st metadata in
      let* s := get_store in
      let f := query s in
      let index := ((history_head f + history_len f) mod Z.to_nat (max_events (options (capture s))))%nat in
      if (length (q_history f) <=? index)%nat then panic
      else modify_query (fun f => set_history f (<[index := Some (mkEvent sequence r)]> (q_history f))
                                    (history_head f) (history_len f + 1)).

Definition insert_at {A} (i : nat) (x : A) (l : list A) : list A := take i l ++ x :: drop i l.
Definition remove_at {A} (i : nat) (l : list A) : list A := take i l ++ drop (i + 1) l.

Definition update_record (slot : nat) (r : DRecord) : StoreM unit :=
  let* s := get_store in
  let f := query s in
  match q_records f !! slot with
  | None => panic
  | Some None =>
    modify_query (fun f =>
      let f := set_query_record f slot (Some r) in
      set_index f (insert_at (find_index f (r_id r)) (mkIndex (r_id r) slot) (q_index f)))
  | Some (Some value) =>
    if (r_id value =? r_id r) && (r_version value <? r_version r)
    then modify_query (fun f => set_query_record f slot (Some (apply_state (captured_state r) value)))
    else ret tt
  end.

(** ** The critical sections of [refresh] *)

(** The registration: ids given out and slots in use. *)
Definition scan_registration : StoreM unit :=
  let* s := get_store in
  modify_query (fun f => set_scan (set_next_id f (next_id (registration (capture s))))
                                  (occupied_slots (registration (capture s)))).

(** The event to drain: the pending one, or the next of the channel; [false]
    when there is none. *)
Definition receive : StoreM bool :=
  let* s := get_store in
  match q_pending (query s) with
  | Some _ => ret true
  | None =>
    match try_recv (capture s) with
    | None => ret false
    | Some (e, c) => do* modify_capture (fun _ => c);; do* modify_query (fun f => set_pending f (Some e));; ret true
    end
  end.

(** The pending event under the mutex of its slot. *)
Definition drain_pending : StoreM unit :=
  let* s := get_store in
  match q_pending (query s) with
  | None => panic
  | Some event =>
    let* entry := on_capture (lock_slot (ev_slot event)) in
    do* (if negb (occupied entry) || negb (generation entry =? ev_generation event)
            || negb (r_id (record entry) =? s_id (ev_state event))
         then do* next_cursor;; ret tt
         else
           do* publish_event (record entry) (ev_state event);;
           do* update_record (ev_slot event) (record entry);;
           do* (if last_drained entry <? s_version (ev_state event)
                then on_capture (store_slot (ev_slot event) (with_last_drained entry (s_version (ev_state event))))
                else ret tt);;
           modify_query (fun f => if q_next_id f <=? r_id (record entry) then set_next_id f (r_id (record entry) + 1) else f));;
    modify_query (fun f => set_pending f None)
  end.

Definition note_dropped : StoreM unit :=
  let* s := get_store in
  let dropped := dropped_events (capture s) in
  if dropped =? seen_dropped (query s) then ret tt
  else do* next_cursor;; modify_query (fun f => set_seen_dropped f dropped).

Definition scan_slot (slot : nat) : StoreM unit :=
  let* entry := on_capture (lock_slot slot) in
  if occupied entry then update_record slot (record entry) else ret tt.

(** [records[slot]->terminal]. *)
Definition copy_terminal (f : QueryFields) (slot : nat) : option bool :=
  match q_records f !! slot with Some (Some r) => Some (r_terminal r) | _ => None end.

Fixpoint count_terminal (f : QueryFields) (index : list IndexEntry) : option Z :=
  match index with
  | [] => Some 0
  | e :: rest =>
    match copy_terminal f (ix_slot e), count_terminal f rest with
    | Some b, Some n => Some ((if b then 1 else 0) + n)
    | _, _ => None
    end
  end.

(** The first closed record with nothing left in the channel; [Some None] when
    there is none, [None] when the mutex of a slot is taken. *)
Fixpoint select_closed (nonblocking : bool) (index : list IndexEntry) : StoreM (option (option nat)) :=
  match index with
  | [] => ret (Some None)
  | e :: rest =>
    let* s := get_store in
    let* terminal := of_option (copy_terminal (query s) (ix_slot e)) in
    if negb terminal then select_closed nonblocking rest
    else
      let* locked := acquire nonblocking in
      if negb locked then ret None
      else
        let* entry := on_capture (lock_slot (ix_slot e)) in
        if last_queued entry <=? last_drained entry then ret (Some (Some (ix_slot e)))
        else select_closed nonblocking rest
  end.

Definition swap_remove (selected : nat) (l : list nat) : list nat :=
  match list_find (eq selected) l, pop_last l with
  | Some (i, _), Some (last, rest) => if (i <? length rest)%nat then <[i := last]> rest else rest
  | _, _ => l
  end.

(** Giving a slot back, under the registration and the slot. *)
Definition reclaim (selected : nat) : StoreM unit :=
  let* entry := on_capture (lock_slot selected) in
  do* modify_query (fun f =>
    let f := set_index f (remove_at (find_index f (r_id (record entry))) (q_index f)) in
    set_query_record f selected None);;
  let bytes := wrapping_mul usize (text_bytes entry) 2 in
  do* on_capture (store_slot selected (mkSlot false (generation entry) (last_queued entry) (last_drained entry) 0 empty_record));;
  modify_capture (fun c =>
    let c := release c bytes in
    set_registration c (mkRegistration (free (registration c) ++ [selected])
                          (swap_remove selected (occupied_slots (registration c))) (next_id (registration c)))).

(** ** [refresh]: [false] when a mutex was taken. *)

Fixpoint drain_loop (n : nat) (nonblocking : bool) : StoreM bool :=
  match n with
  | O => ret true
  | S n =>
    do* pause;;
    let* more := receive in
    if negb more then ret true
    else
      let* locked := acquire nonblocking in
      if negb locked then ret false
      else do* drain_pending;; drain_loop n nonblocking
  end.

Fixpoint scan_loop (scan : list nat) (nonblocking : bool) : StoreM bool :=
  match scan with
  | [] => ret true
  | slot :: rest =>
    let* locked := acquire nonblocking in
    if negb locked then ret false
    else do* scan_slot slot;; scan_loop rest nonblocking
  end.

Fixpoint reclaim_loop (fuel : nat) (closed : Z) (nonblocking : bool) : StoreM bool :=
  let* s := get_store in
  if closed <=? max_closed (options (capture s)) then ret true
  else match fuel with
  | O => out_of_fuel
  | S fuel =>
    let* selected := select_closed nonblocking (q_index (query s)) in
    match selected with
    | None => ret false
    | Some None => ret true
    | Some (Some slot) =>
      let* registration := acquire nonblocking in
      if negb registration then ret false
      else
        let* locked := acquire nonblocking in
        if negb locked then ret false
        else do* reclaim slot;; reclaim_loop fuel (closed - 1) nonblocking
    end
  end.

Definition refresh (nonblocking : bool) : StoreM bool :=
  let* registration := acquire nonblocking in
  if negb registration then ret false
  else
    do* scan_registration;;
    let* s := get_store in
    let batch := (Z.to_nat (max_pending_events (options (capture s)))
                  + match q_pending (query s) with Some _ => 1 | None => 0 end)%nat in
    let* drained := drain_loop batch nonblocking in
    if negb drained then ret false
    else
      do* pause;;
      do* note_dropped;;
      let* s := get_store in
      let* scanned := scan_loop (q_scan (query s)) nonblocking in
      if negb scanned then ret false
      else
        let* s := get_store in
        let* closed := of_option (count_terminal (query s) (q_index (query s))) in
        reclaim_loop (length (q_index (query s))) closed nonblocking.

(** ** Queries *)

Record Status := mkStatus
  { st_session : Z; st_cursor : Z; st_closed : bool; st_incomplete : bool; st_exhausted : bool;
    st_omitted : Z; st_dropped_events : Z; st_runtime : RuntimeInfo; st_limits : Options }.

Record Snapshot := mkSnapshot { sn_status : Status; observed_ns : Z; sn_records : list DRecord }.
Record Events := mkEvents { evs_status : Status; next_cursor_of : Z; evs_events : list Event }.

Definition status_from (c : Capture) (f : QueryFields) : Status :=
  mkStatus (session c) (q_cursor f) (closed c)
    (negb (omitted c =? 0) || negb (dropped_events c =? 0)) (exhausted c)
    (omitted c) (dropped_events c) (runtime c) (options c).

(** [query_lock]: [try_lock], then a refresh that does not block.  Recorders
    still run before the query reads the counters of the shared part. *)
Definition query_lock : StoreM unit :=
  let* locked := acquire true in
  if negb locked then throw EBusy
  else let* refreshed := refresh true in
       if negb refreshed then throw EBusy else do* pause;; ret tt.

Definition handle_status : StoreM Status :=
  do* query_lock;; let* s := get_store in ret (status_from (capture s) (query s)).

Section queries.
Context `{Sizes}.

Definition cost (r : DRecord) : Z := sizeof_Record + text_cost r.

(** The copies of the index, in its order; [None] is an unwrapped empty
    copy. *)
Fixpoint indexed_records (f : QueryFields) (index : list IndexEntry) : option (list DRecord) :=
  match index with
  | [] => Some []
  | e :: rest =>
    match q_records f !! ix_slot e, indexed_records f rest with
    | Some (Some r), Some rs => Some (r :: rs)
    | _, _ => None
    end
  end.

Fixpoint snapshot_budget (max_bytes bytes : Z) (rs : list DRecord) : bool :=
  match rs with
  | [] => true
  | r :: rest =>
    if wrapping_sub usize max_bytes bytes <? cost r then false
    else snapshot_budget max_bytes (wrapping_add usize bytes (cost r)) rest
  end.

Definition make_snapshot (now max_bytes : Z) (matches : DRecord -> bool) : StoreM Snapshot :=
  let* s := get_store in
  let* rs := of_option (indexed_records (query s) (q_index (query s))) in
  let rs := filter matches rs in
  if snapshot_budget max_bytes 0 rs
  then ret (mkSnapshot (status_from (capture s) (query s)) now rs)
  else throw ECapacity.

Definition handle_snapshot (now max_bytes : Z) : StoreM Snapshot :=
  do* query_lock;; make_snapshot now max_bytes (fun _ => true).

(** [get_task]: [None] is the null pointer. *)
Definition get_task (f : QueryFields) (id : Z) : StoreM (option DRecord) :=
  match q_index f !! find_index f id with
  | None => ret None
  | Some e =>
    if negb (ix_id e =? id) then ret None
    else match q_records f !! ix_slot e with Some (Some r) => ret (Some r) | _ => panic end
  end.

Definition task_kind (k : Kind) : bool :=
  match k with Task | BlockingJob => true | _ => false end.

(** The record of a task, or why there is none. *)
Definition find_task (id : Z) : StoreM DRecord :=
  let* s := get_store in
  let* found := get_task (query s) id in
  match found with
  | None => throw (if negb (id =? 0) && (id <? q_next_id (query s)) then EEvicted else ENotFound)
  | Some r => if task_kind (r_kind r) then ret r else throw ENotFound
  end.

Definition handle_task (id : Z) : StoreM DRecord := do* query_lock;; find_task id.

Definition task_matches (id : Z) (r : DRecord) : bool :=
  (r_id r =? id) || (r_parent r =? id) || (bool_decide (r_kind r = Wait) && (r_target r =? id)).

Definition handle_task_snapshot (now id max_bytes : Z) : StoreM Snapshot :=
  do* query_lock;;
  do* find_task id;;
  make_snapshot now max_bytes (task_matches id).
End queries.

(** The loop of [Handle::events] from position [i] of the history: the events
    and the next cursor; [Err] is a gap, [None] an unwrapped empty entry. *)
Fixpoint events_loop (n : nat) (f : QueryFields) (max_events : nat) (i : nat) (after limit : Z)
    (out : list Event) (next : Z) : option (result (list Event * Z) Error) :=
  match n with
  | O => Some (Ok (out, next))
  | S n =>
    match q_history f !! ((history_head f + i) mod max_events)%nat with
    | Some (Some e) =>
      if sequence e <=? after then events_loop n f max_events (i + 1) after limit out next
      else if negb (sequence e =? next + 1) then Some (Err EHistoryGap)
      else
        let out := out ++ [e] in
        if limit <=? Z.of_nat (length out) then Some (Ok (out, sequence e))
        else events_loop n f max_events (i + 1) after limit out (sequence e)
    | _ => None
    end
  end.

Definition read_events (after limit : Z) : StoreM Events :=
  let* s := get_store in
  let f := query s in
  if (q_cursor f <? after) || (limit =? 0) then throw EInvalidCursor
  else
    let* r := of_option (events_loop (history_len f) f (Z.to_nat (max_events (options (capture s)))) 0
                           after limit [] after) in
    match r with
    | Err e => throw e
    | Ok (out, next) =>
      if (Z.of_nat (length out) <? limit) && (next <? q_cursor f) then throw EHistoryGap
      else ret (mkEvents (status_from (capture s) f) next out)
    end.

Definition handle_events (after limit : Z) : StoreM Events := do* query_lock;; read_events after limit.

(** ** The collection session *)

(** One round of the collector's thread: the flags under the wake mutex, then
    a refresh that blocks; the result says whether the thread goes on. *)
Definition collector_round : StoreM bool :=
  let* s := get_store in
  let was_stopped := stopped (wake (capture s)) in
  do* modify_capture (fun c => set_flush_requested (set_wake c (mkWake was_stopped false)) false);;
  do* refresh false;;
  ret (negb was_stopped).

(** [CollectionSession::close] before and after the thread is joined. *)
Definition session_stop (now : Z) (root : Recorder) : StoreM unit :=
  do* on_capture (close now root);;
  modify_capture (fun c => set_wake c (mkWake true true)).

Definition session_close (now : Z) (root : Recorder) : StoreM unit :=
  do* session_stop now root;;
  do* collector_round;;
  do* refresh false;;
  ret tt.

(** [QueryState::~QueryState]. *)
Fixpoint evict_all (n : nat) : StoreM unit :=
  match n with O => ret tt | S n => do* evict_event;; evict_all n end.

Fixpoint release_copies (occupied : list nat) : StoreM unit :=
  match occupied with
  | [] => ret tt
  | slot :: rest =>
    let* entry := on_capture (lock_slot slot) in
    do* modify_query (fun f => set_query_record f slot None);;
    do* modify_capture (fun c => release c (text_bytes entry));;
    release_copies rest
  end.

Definition drop_query : StoreM unit :=
  let* s := get_store in
  do* evict_all (history_len (query s));;
  let* s := get_store in
  release_copies (occupied_slots (registration (capture s))).
