(* ===== verification/DebugInvariant.v ===== *)
(** The invariant of the diagnostic store, that recorders preserve it, and what
    they do to the slots ([stirred]).

    The invariant is stated on the fields it is about, one record per concern:
    slots and registration, the memory budget, the channel, the copies and the
    index of the query side, and the ring of the history. *)

From Stdlib Require Import ZArith Lia ZifyBool.
From stdpp Require Import base list sorting.
From S2P Require Import Prelude.
From S2P Require Import Int.
From S2P Require Import DebugStore.
From S2P Require Import DebugRecorder.
From S2P Require Import DebugCollector.

Local Open Scope Z_scope.
Local Open Scope rstd_scope.

#[local] Arguments MAX : simpl never.
#[local] Arguments wrapping_add : simpl never.
#[local] Arguments wrapping_sub : simpl never.
#[local] Arguments wrapping_mul : simpl never.

(** ** Sums over a list *)

Fixpoint total {A} (g : A -> Z) (l : list A) : Z :=
  match l with [] => 0 | x :: l => g x + total g l end.

Lemma total_app {A} (g : A -> Z) l k : total g (l ++ k) = total g l + total g k.
Proof. induction l as [|x l IH]; cbn; [done | lia]. Qed.

Lemma total_insert {A} (g : A -> Z) l i x y :
  l !! i = Some x -> total g (<[i := y]> l) = total g l - g x + g y.
Proof.
  revert i. induction l as [|z l IH]; intros [|i] Hi; simpl in *; try done.
  - injection Hi as ->. lia.
  - rewrite (IH i Hi). lia.
Qed.

Lemma total_nonneg {A} (g : A -> Z) l : Forall (fun x => 0 <= g x) l -> 0 <= total g l.
Proof. intros Hg. induction Hg; cbn; lia. Qed.

Lemma total_lookup {A} (g : A -> Z) l i x : Forall (fun x => 0 <= g x) l -> l !! i = Some x -> g x <= total g l.
Proof.
  intros Hg. revert i. induction Hg as [|y l Hy Hg IH]; intros [|i] Hi; cbn in *; try done.
  - injection Hi as ->. pose proof (total_nonneg g l Hg). lia.
  - pose proof (IH i Hi). lia.
Qed.

Lemma total_replicate {A} (g : A -> Z) n x : g x = 0 -> total g (replicate n x) = 0.
Proof. intros Hx. induction n as [|n IH]; cbn; [done | lia]. Qed.

(** ** What an operation yields *)

(** The operation returns a value and a state with [Q]; it does not fail. *)
Definition yields {S E A} (m : M S E A) (Q : A -> S -> Prop) (s : S) : Prop :=
  match m s with (Ret a, s') => Q a s' | _ => False end.

Lemma yields_bind {S E A B} (m : M S E A) (k : A -> M S E B) Q s :
  yields m (fun a => yields (k a) Q) s -> yields (bind m k) Q s.
Proof. unfold yields, bind. by destruct (m s) as [[] s']. Qed.

Lemma yields_mono {S E A} (m : M S E A) (Q Q' : A -> S -> Prop) s :
  yields m Q s -> (forall a s', Q a s' -> Q' a s') -> yields m Q' s.
Proof. unfold yields. destruct (m s) as [[] s']; auto. Qed.

(** ** The invariant *)

Definition capacity (o : Options) : nat := Z.to_nat (max_active o + max_closed o).

Definition slot_ok (o : Options) (next : Z) (s : SlotFields) : Prop :=
  0 <= generation s <= MAX u64 /\
  if occupied s
  then text_bytes s = text_cost (record s) /\ 1 <= r_id (record s) < next /\
       Z.of_nat (length (r_name (record s))) <= max_text_bytes o /\
       Z.of_nat (length (r_file (record s))) <= max_text_bytes o /\
       0 <= last_drained s <= last_queued s /\ last_queued s <= r_version (record s) <= MAX u64
  else text_bytes s = 0 /\ record s = empty_record.

(** A record that is registered and not closed counts as active. *)
Definition live (s : SlotFields) : Z := if occupied s && negb (r_terminal (record s)) then 1 else 0.

Record slots_ok (o : Options) (sl : list SlotFields) (reg : Registration) (act : Z) (ex : bool) : Prop := {
  so_length : length sl = capacity o;
  so_nodup : NoDup (free reg ++ occupied_slots reg);
  so_inside : forall i, i ∈ free reg ++ occupied_slots reg -> (i < capacity o)%nat;
  so_kept : ex = false -> free reg ++ occupied_slots reg ≡ₚ seq 0 (capacity o);
  so_occupied : forall i s, sl !! i = Some s -> occupied s = true <-> i ∈ occupied_slots reg;
  so_slot : forall i s, sl !! i = Some s -> slot_ok o (next_id reg) s;
  so_ids : forall i j s s', sl !! i = Some s -> sl !! j = Some s' -> occupied s = true -> occupied s' = true ->
           r_id (record s) = r_id (record s') -> i = j;
  so_active : act = total live sl;
  so_bound : act <= max_active o;
  so_next : 1 <= next_id reg <= MAX u64 }.

(** Metadata is counted twice, once for the copy of the query side. *)
Definition metadata_bytes (s : SlotFields) : Z := 2 * text_bytes s.
Definition event_bytes (e : Event) : Z := text_cost (event_record e).

Record budget_ok (fixed : Z) (o : Options) (sl : list SlotFields) (es : list Event) (used : Z) : Prop := {
  bu_exact : used = fixed + total metadata_bytes sl + total event_bytes es;
  bu_bound : used <= max_bytes o }.

(** The channel and the pending event, oldest first. *)
Definition waiting_events (s : Store) : list CaptureEvent :=
  (match q_pending (query s) with Some e => [e] | None => [] end) ++ pending_queue (capture s).

Definition fresh_for (s : SlotFields) (e : CaptureEvent) : Prop :=
  occupied s = true /\ generation s = ev_generation e /\ r_id (record s) = s_id (ev_state e) /\
  last_drained s < s_version (ev_state e) <= last_queued s.

Definition later (e e' : CaptureEvent) : Prop :=
  ev_slot e = ev_slot e' -> s_version (ev_state e) < s_version (ev_state e').

Record channel_ok (sl : list SlotFields) (evs : list CaptureEvent) : Prop := {
  ch_fresh : forall e, e ∈ evs -> exists s, sl !! ev_slot e = Some s /\ fresh_for s e;
  ch_order : StronglySorted later evs;
  ch_complete : forall i s, sl !! i = Some s -> occupied s = true -> last_drained s < last_queued s ->
                exists e, e ∈ evs /\ ev_slot e = i /\ s_version (ev_state e) = last_queued s }.

(** A copy is the record of its slot at an earlier version. *)
Record copy_of (ex : bool) (v : DRecord) (s : SlotFields) : Prop := {
  co_occupied : occupied s = true;
  co_identity : apply_state (captured_state v) (record s) = v;
  co_id : r_id v = r_id (record s);
  co_version : r_version v <= r_version (record s);
  co_current : r_version v = r_version (record s) -> ex = true \/ v = record s;
  co_terminal : r_terminal v = true -> r_terminal (record s) = true }.

Definition index_lt (a b : IndexEntry) : Prop := ix_id a < ix_id b.

Record copies_ok (sl : list SlotFields) (ex : bool) (recs : list (option DRecord)) (idx : list IndexEntry) : Prop := {
  cp_length : length recs = length sl;
  cp_copy : forall i v, recs !! i = Some (Some v) -> exists s, sl !! i = Some s /\ copy_of ex v s;
  cp_index : forall e, e ∈ idx <-> exists v, recs !! ix_slot e = Some (Some v) /\ ix_id e = r_id v;
  cp_sorted : StronglySorted index_lt idx }.

(** The ring holds the events [es], oldest at the head. *)
Record ring_ok (m head len : nat) (h : list (option Event)) (es : list Event) : Prop := {
  ri_length : length h = m;
  ri_len : length es = len;
  ri_fits : (len <= m)%nat;
  ri_head : (head < m)%nat;
  ri_lookup : forall k, (k < m)%nat -> h !! ((head + k) mod m)%nat = Some (es !! k) }.

Record history_ok (o : Options) (f : QueryFields) (es : list Event) : Prop := {
  hi_ring : ring_ok (Z.to_nat (max_events o)) (history_head f) (history_len f) (q_history f) es;
  hi_sorted : StronglySorted (fun a b => sequence a < sequence b) es;
  hi_range : Forall (fun e => 1 <= sequence e <= q_cursor f) es;
  hi_cursor : 0 <= q_cursor f <= MAX u64 }.

Record options_ok (fixed : Z) (o : Options) : Prop := {
  op_fixed : 0 <= fixed <= max_bytes o;
  op_bytes : max_bytes o <= MAX u64;
  op_active : 1 <= max_active o <= MAX u64;
  op_closed : 1 <= max_closed o;
  op_events : 1 <= max_events o;
  op_pending : 1 <= max_pending_events o;
  op_text : 1 <= max_text_bytes o <= 65536 }.

Definition Inv (fixed : Z) (s : Store) : Prop :=
  let c := capture s in
  let f := query s in
  options_ok fixed (options c) /\
  slots_ok (options c) (slots c) (registration c) (active c) (exhausted c) /\
  Z.of_nat (length (pending_queue c)) <= max_pending_events (options c) /\
  channel_ok (slots c) (waiting_events s) /\
  copies_ok (slots c) (exhausted c) (q_records f) (q_index f) /\
  Forall (fun i => (i < capacity (options c))%nat) (q_scan f) /\
  1 <= q_next_id f <= next_id (registration c) /\
  exists es, history_ok (options c) f es /\ budget_ok fixed (options c) (slots c) es (used_bytes c).

(** ** Changing one slot *)

(** A recorder's change of an occupied slot: the same record at a later
    version, or at the same version when the versions are used up. *)
Record advances (ex : bool) (s s' : SlotFields) : Prop := {
  ad_occupied : occupied s' = occupied s;
  ad_generation : generation s' = generation s;
  ad_identity : apply_state (captured_state (record s)) (record s') = record s;
  ad_id : r_id (record s') = r_id (record s);
  ad_text : text_bytes s' = text_bytes s;
  ad_version : r_version (record s) <= r_version (record s');
  ad_current : r_version (record s') = r_version (record s) -> ex = true \/ record s' = record s;
  ad_terminal : r_terminal (record s) = true -> r_terminal (record s') = true;
  ad_drained : last_drained s' = last_drained s;
  ad_queued : last_queued s <= last_queued s' }.

Lemma apply_identity v r r' :
  apply_state (captured_state v) r = v -> apply_state (captured_state r) r' = r ->
  apply_state (captured_state v) r' = v.
Proof.
  destruct v, r, r'. unfold apply_state, captured_state. cbn. intros [=] [=]. by subst.
Qed.

Lemma slots_insert o sl reg act ex ex' i s s' :
  slots_ok o sl reg act ex -> (ex = true -> ex' = true) -> sl !! i = Some s -> occupied s' = occupied s ->
  slot_ok o (next_id reg) s' -> (occupied s = true -> r_id (record s') = r_id (record s)) ->
  act - live s + live s' <= max_active o ->
  slots_ok o (<[i := s']> sl) reg (act - live s + live s') ex'.
Proof.
  intros [Hl Hp1 Hp2 Hp3 Ho Hs Hi Ha Hb Hn] Hex Hlk Hocc Hok Hid Hbound. split; try done.
  - by rewrite length_insert.
  - intros ->. destruct ex; [by discriminate Hex | auto].
  - intros j t Hj. destruct (decide (i = j)) as [<-|Hne].
    + rewrite list_lookup_insert_eq in Hj by (by eapply lookup_lt_Some). injection Hj as <-. rewrite Hocc. by apply Ho.
    + rewrite list_lookup_insert_ne in Hj by done. by apply Ho.
  - intros j t Hj. apply list_lookup_insert_Some in Hj as [(<- & <- & _)|[_ Hj]]; [done | by eapply Hs].
  - assert (forall j t, <[i := s']> sl !! j = Some t -> occupied t = true ->
              exists t0, sl !! j = Some t0 /\ occupied t0 = true /\ r_id (record t0) = r_id (record t)) as Hold.
    { intros j t Hj Ht. apply list_lookup_insert_Some in Hj as [(<- & <- & _)|[_ Hj]]; [|by exists t].
      exists s. rewrite Hocc in Ht. split; [done|]. split; [done|]. by rewrite Hid. }
    intros j k t t' Hj Hk Ht Ht' He.
    destruct (Hold j t Hj Ht) as (t0 & ? & ? & ?), (Hold k t' Hk Ht') as (t1 & ? & ? & ?).
    eapply (Hi j k t0 t1); congruence.
  - rewrite Ha. symmetry. by apply total_insert.
Qed.

Lemma copies_insert sl ex ex' recs idx i s s' :
  copies_ok sl ex recs idx -> sl !! i = Some s -> occupied s = true -> advances ex' s s' -> (ex = true -> ex' = true) ->
  copies_ok (<[i := s']> sl) ex' recs idx.
Proof.
  intros [Hl Hc Hx Hs] Hlk Hocc Ha Hex. split; try done.
  - by rewrite length_insert.
  - intros j v Hj. destruct (Hc j v Hj) as (t & Ht & [Co Cid Ci Cv Cc Ct]).
    destruct (decide (i = j)) as [<-|Hne].
    + exists s'. rewrite list_lookup_insert_eq by (by eapply lookup_lt_Some). split; [done|].
      assert (t = s) as -> by congruence. destruct Ha as [A1 A2 A3 A4 A5 A6 A7 A8 A9 A10].
      split; [congruence | by eapply apply_identity | congruence | lia | | auto].
      intros Heq. assert (r_version v = r_version (record s)) as Hvs by lia.
      destruct (Cc Hvs) as [?| ->]; [auto|].
      destruct A7 as [?|?]; [lia|auto|auto].
    + exists t. rewrite list_lookup_insert_ne by done. split; [done|]. split; try done.
      intros Hv. destruct (Cc Hv); auto.
Qed.

Lemma channel_insert sl evs i s s' :
  channel_ok sl evs -> sl !! i = Some s -> occupied s' = occupied s -> generation s' = generation s ->
  r_id (record s') = r_id (record s) -> last_drained s' = last_drained s -> last_queued s' = last_queued s ->
  channel_ok (<[i := s']> sl) evs.
Proof.
  intros [Hf Ho Hc] Hlk H1 H2 H3 H4 H5. pose proof (lookup_lt_Some _ _ _ Hlk) as Hlt. split; [|done|].
  - intros e He. destruct (Hf e He) as (t & Ht & F1 & F2 & F3 & F4).
    destruct (decide (i = ev_slot e)) as [->|Hne].
    + exists s'. rewrite list_lookup_insert_eq by done. assert (t = s) as -> by congruence.
      split; [done|]. unfold fresh_for. rewrite H1, H2, H3, H4, H5. done.
    + exists t. by rewrite list_lookup_insert_ne by done.
  - intros j t Hj Hot Hd. apply list_lookup_insert_Some in Hj as [(<- & <- & _)|[_ Hj]].
    + rewrite H5. apply (Hc i s Hlk); [congruence | lia].
    + by apply (Hc j t Hj).
Qed.

(** Queueing an event of the slot. *)
Lemma channel_push sl evs i s s' e :
  channel_ok sl evs -> sl !! i = Some s -> occupied s = true -> occupied s' = true -> generation s' = generation s ->
  r_id (record s') = r_id (record s) -> last_drained s' = last_drained s ->
  ev_slot e = i -> fresh_for s' e -> s_version (ev_state e) = last_queued s' ->
  last_drained s <= last_queued s -> last_queued s < last_queued s' ->
  channel_ok (<[i := s']> sl) (evs ++ [e]).
Proof.
  intros [Hf Ho Hc] Hlk H0 H1 H2 H3 H4 Hi He Hv Hle Hlt. pose proof (lookup_lt_Some _ _ _ Hlk) as Hlen. split.
  - intros e' He'. apply elem_of_app in He' as [He'| ->%list_elem_of_singleton].
    + destruct (Hf e' He') as (t & Ht & F1 & F2 & F3 & F4).
      destruct (decide (i = ev_slot e')) as [->|Hne].
      * exists s'. rewrite list_lookup_insert_eq by done. assert (t = s) as -> by congruence.
        split; [done|]. repeat split; try congruence; lia.
      * exists t. by rewrite list_lookup_insert_ne by done.
    + exists s'. rewrite Hi, list_lookup_insert_eq by done. done.
  - apply StronglySorted_app_2; [|done|by apply SSorted_cons; [constructor|constructor]].
    intros x x' Hx ->%list_elem_of_singleton Hsl.
    destruct (Hf x Hx) as (t & Ht & F1 & F2 & F3 & F4). assert (t = s) as -> by congruence. lia.
  - intros j t Hj Hot Hd. apply list_lookup_insert_Some in Hj as [(<- & <- & _)|[Hne Hj]].
    + exists e. split; [apply elem_of_app; right; by apply list_elem_of_singleton|]. done.
    + destruct (Hc j t Hj Hot Hd) as (x & Hx & ? & ?). exists x. split; [apply elem_of_app; by left|]. done.
Qed.

Lemma budget_insert fixed o sl es used i s s' :
  budget_ok fixed o sl es used -> sl !! i = Some s -> text_bytes s' = text_bytes s ->
  budget_ok fixed o (<[i := s']> sl) es used.
Proof.
  intros [He Hb] Hlk Ht. split; [|done]. rewrite (total_insert _ _ _ _ s' Hlk).
  unfold metadata_bytes at 2 3. lia.
Qed.

(** ** Publishing *)

(** The fields the invariant reads, queue excepted, are the same. *)
Record same_core (c c' : Capture) : Prop := {
  sc_options : options c' = options c;
  sc_slots : slots c' = slots c;
  sc_registration : registration c' = registration c;
  sc_queue : pending_queue c' = pending_queue c;
  sc_used : used_bytes c' = used_bytes c;
  sc_active : active c' = active c;
  sc_exhausted : exhausted c = true -> exhausted c' = true }.

#[export] Instance same_core_refl : Reflexive same_core.
Proof. by split. Qed.

#[export] Instance same_core_trans : Transitive same_core.
Proof. intros c1 c2 c3 [] []. split; [congruence ..|]. auto. Qed.

Lemma notify_core c : same_core c (notify c).
Proof. unfold notify. by destruct (flush_requested c). Qed.

Lemma lose_event_core c : same_core c (lose_event c).
Proof. unfold lose_event. by destruct (increment (dropped_events c)). Qed.

Lemma omit_core c : same_core c (omit c).
Proof. unfold omit. by destruct (increment (omitted c)). Qed.

(** A store may change in these fields at any time. *)
Lemma inv_core fixed c c' f l l' : Inv fixed (mkStore c f l) -> same_core c c' -> Inv fixed (mkStore c' f l').
Proof.
  intros (I1 & I2 & I3 & I4 & I5 & I6 & I7 & I8) [S1 S2 S3 S4 S5 S6 S7].
  unfold Inv, waiting_events in *. cbn in *. rewrite S1, S2, S3, S4, S5, S6.
  split; [done|]. split.
  { destruct I2. split; try done. intros He. destruct (exhausted c); [by rewrite S7 in He | auto]. }
  repeat (split; [done|]). split; [|done].
  destruct I5 as [Hl Hc Hx Hs]. split; try done. intros i v Hi.
  destruct (Hc i v Hi) as (s & Hlk & [C1 C2 C3 C4 C5 C6]). exists s. split; [done|]. split; try done.
  intros Hv. destruct (C5 Hv); auto.
Qed.

(** What publishing a slot does: the record at its next version with an event
    in the channel or lost, or nothing when the versions are used up. *)
Inductive published (now : Z) (i : nat) (s : SlotFields) (c : Capture) : SlotFields -> Capture -> Prop :=
| pub_full : r_version (record s) = MAX u64 -> published now i s c s (set_exhausted c)
| pub_queued r c' :
    r = with_version (record s) (r_version (record s) + 1) now -> r_version (record s) <> MAX u64 ->
    Z.of_nat (length (pending_queue c)) < max_pending_events (options c) ->
    same_core (set_queue c (pending_queue c ++ [mkCaptureEvent i (generation s) (captured_state r)])) c' ->
    published now i s c (with_last_queued (with_record s r) (r_version r)) c'
| pub_lost r c' :
    r = with_version (record s) (r_version (record s) + 1) now -> r_version (record s) <> MAX u64 ->
    same_core c c' -> published now i s c (with_record s r) c'.

Lemma publish_spec now i s c : published now i s c (fst (publish now i s c)) (snd (publish now i s c)).
Proof.
  unfold publish. destruct (r_version (record s) =? MAX u64) eqn:Hv; [by apply pub_full, Z.eqb_eq|].
  apply Z.eqb_neq in Hv.
  assert (forall c', same_core c' (if max_pending_events (options c') - max_pending_events (options c') / 4
            <=? Z.of_nat (length (pending_queue c')) then notify c' else c')) as Hn.
  { intros c'. case_if; [apply notify_core | done]. }
  unfold try_send.
  destruct (Z.of_nat (length (pending_queue c)) <? max_pending_events (options c)) eqn:Hq.
  - eapply pub_queued; [done | done | by apply Z.ltb_lt | apply Hn].
  - eapply pub_lost; [done | done |].
    etransitivity; [apply lose_event_core | apply Hn].
Qed.

(** Publishing does not read the slots: what is stored before is overwritten. *)
Lemma publish_slot_stored now i s s0 c :
  publish_slot now i s (set_slot c i s0) = publish_slot now i s c.
Proof.
  assert (forall s' c', set_slot c' i s' = set_slot (set_slot c' i s0) i s') as Hs.
  { intros s' c'. unfold set_slot. simpl. by rewrite list_insert_insert_eq. }
  unfold publish_slot, publish, try_send, lose_event, notify. simpl.
  destruct (increment (dropped_events c)); simpl;
  repeat (case_if; simpl); symmetry; f_equal; apply Hs.
Qed.

Lemma live_with_record s r : r_terminal r = r_terminal (record s) -> live (with_record s r) = live s.
Proof. intros H. unfold live. cbn. by rewrite H. Qed.

Lemma identity_fields r r' : apply_state (captured_state r) r' = r ->
  r_id r' = r_id r /\ r_name r' = r_name r /\ r_file r' = r_file r /\ r_kind r' = r_kind r.
Proof. destruct r, r'. unfold apply_state. cbn. by intros [=]. Qed.

Lemma identity_version r r' v n :
  apply_state (captured_state r) r' = r -> apply_state (captured_state r) (with_version r' v n) = r.
Proof. by destruct r, r'. Qed.

Lemma apply_state_fields v r : apply_state (captured_state v) r = v ->
  r_id v = r_id r /\ r_name v = r_name r /\ r_file v = r_file r /\ r_kind v = r_kind r.
Proof. destruct v, r. unfold apply_state. cbn. by intros [=]. Qed.

Lemma text_cost_nonneg r : 0 <= text_cost r.
Proof. unfold text_cost. lia. Qed.

(** A slot that changes its record under the rules of a recorder. *)
Record changes (s : SlotFields) (r : DRecord) : Prop := {
  cg_occupied : occupied s = true;
  cg_identity : apply_state (captured_state (record s)) r = record s;
  cg_version : r_version r = r_version (record s);
  cg_terminal : r_terminal (record s) = true -> r_terminal r = true }.

Lemma published_advances now i s r c s' c' :
  changes s r -> last_queued s <= r_version (record s) -> published now i (with_record s r) c s' c' ->
  advances (exhausted c') s s' /\ live s' = live (with_record s r) /\ (exhausted c = true -> exhausted c' = true).
Proof.
  intros [Ho Hi Hv Ht] Hq Hp.
  destruct (apply_state_fields _ _ Hi) as (Hid & Hn & Hf & Hk).
  assert (forall v n, apply_state (captured_state (record s)) (with_version r v n) = record s) as Hi'
    by (intros; by apply identity_version).
  destruct Hp as [Hm|r' c' -> Hm Hl [S1 S2 S3 S4 S5 S6 S7]|r' c' -> Hm [S1 S2 S3 S4 S5 S6 S7]]; cbn in *.
  - repeat split; cbn; auto; lia.
  - repeat split; cbn; auto; lia.
  - repeat split; cbn; auto; lia.
Qed.

Lemma live_mono s r : changes s r -> live (with_record s r) <= live s.
Proof.
  intros [Ho _ _ Ht]. unfold live. cbn. rewrite Ho. cbn.
  destruct (r_terminal (record s)); [by rewrite Ht | by destruct (r_terminal r)].
Qed.

Lemma published_slot_ok o n now i s r c s' c' :
  changes s r -> slot_ok o n s -> published now i (with_record s r) c s' c' -> slot_ok o n s'.
Proof.
  intros [Ho Hi Hv Ht] Hok Hp. destruct (apply_state_fields _ _ Hi) as (Hid & Hn & Hf & Hk).
  unfold slot_ok in *. rewrite Ho in Hok. destruct Hok as (Hg & Htb & Hb & Hln & Hlf & Hd & Hq).
  unfold text_cost in *. rewrite Hid, Hn, Hf in *. rewrite <- Hv in *.
  destruct Hp as [Hm|r' c' -> Hm Hl _|r' c' -> Hm _]; cbn in *; rewrite Ho; cbn; repeat split; lia.
Qed.

Lemma channel_published sl evs o c now i s r s' c' :
  channel_ok sl evs -> sl !! i = Some s -> changes s r -> slot_ok o (r_id (record s) + 1) s ->
  published now i (with_record s r) c s' c' ->
  exists evs', pending_queue c' = pending_queue c ++ evs' /\ channel_ok (<[i := s']> sl) (evs ++ evs') /\
    (Z.of_nat (length (pending_queue c)) <= max_pending_events (options c) ->
     Z.of_nat (length (pending_queue c')) <= max_pending_events (options c)).
Proof.
  intros Hc Hlk [Ho Hi Hv Ht] Hok Hp. destruct (apply_state_fields _ _ Hi) as (Hid & _ & _ & _).
  unfold slot_ok in Hok. rewrite Ho in Hok. destruct Hok as (_ & _ & _ & _ & _ & Hd & Hq).
  destruct Hp as [Hm|r' c' -> Hm Hl [S1 S2 S3 S4 S5 S6 S7]|r' c' -> Hm [S1 S2 S3 S4 S5 S6 S7]]; cbn in *.
  - exists []. rewrite !app_nil_r. split; [done|]. split; [|done]. by eapply channel_insert.
  - eexists [_]. split; [exact S4|]. split; [|rewrite S4, length_app; cbn; lia].
    eapply channel_push; try done; cbn; [| lia | lia].
    split; [done|]. split; [done|]. split; [done|]. cbn. lia.
  - exists []. rewrite !app_nil_r. split; [done|]. split; [|by rewrite S4]. by eapply channel_insert.
Qed.

Lemma published_core now i s r c s' c' :
  published now i (with_record s r) c s' c' ->
  options c' = options c /\ slots c' = slots c /\ registration c' = registration c /\
  used_bytes c' = used_bytes c /\ active c' = active c.
Proof. by destruct 1 as [|? ? ? ? ? []|? ? ? ? []]. Qed.

Lemma inv_publish fixed c f l l' i s r now act :
  Inv fixed (mkStore (set_active c act) f l) -> slots c !! i = Some s -> changes s r ->
  active c = act - live s + live (with_record s r) ->
  Inv fixed (mkStore (snd (publish_slot now i (with_record s r) c)) f l').
Proof.
  intros (I1 & I2 & I3 & I4 & I5 & I6 & I7 & es & I8 & I9) Hlk Hcg Hact. cbn in *.
  pose proof (publish_spec now i (with_record s r) c) as Hp. unfold publish_slot.
  destruct (publish now i (with_record s r) c) as [s' c']. cbn in Hp |- *.
  pose proof (so_slot _ _ _ _ _ I2 i s Hlk) as Hok.
  assert (slot_ok (options c) (r_id (record s) + 1) s /\ last_queued s <= r_version (record s)) as [Hok' Hq].
  { unfold slot_ok in *. rewrite (cg_occupied _ _ Hcg) in *. lia. }
  pose proof (published_slot_ok _ _ _ _ _ _ _ _ _ Hcg Hok Hp) as Hok''.
  destruct (published_advances _ _ _ _ _ _ _ Hcg Hq Hp) as (Had & Hlive & Hex).
  destruct (channel_published _ _ _ _ _ _ _ _ _ _ I4 Hlk Hcg Hok' Hp) as (evs' & E1 & E2 & E3).
  destruct (published_core _ _ _ _ _ _ _ Hp) as (P1 & P2 & P3 & P4 & P5).
  pose proof (live_mono _ _ Hcg) as Hle. destruct Had as [A1 A2 A3 A4 A5 A6 A7 A8 A9 A10] eqn:Ead.
  unfold Inv, waiting_events in *. cbn in *. rewrite P1, P2, P3, P4, P5, E1.
  split; [done|]. split.
  { rewrite Hact, <- Hlive. eapply slots_insert; try done. pose proof (so_bound _ _ _ _ _ I2). lia. }
  rewrite E1 in E3. split; [auto|]. split; [by rewrite app_assoc|].
  split; [eapply copies_insert; try done; apply (cg_occupied _ _ Hcg)|].
  split; [done|]. split; [done|].
  exists es. split; [done|]. by eapply budget_insert.
Qed.

(** ** Recorders preserve the invariant *)

Lemma current_token_occupied self s : current_token self s = true -> occupied s = true.
Proof. unfold current_token. rewrite !andb_true_iff. tauto. Qed.

(** The operations of [CaptureM] that follow are read off their results. *)
Lemma wrap_small z : 0 <= z <= MAX u64 -> wrap usize z = z.
Proof. intros Hz. change (wrap usize z) with (z mod 2 ^ 64). apply Z.mod_small. change (MAX u64) with (2 ^ 64 - 1) in Hz. lia. Qed.

Lemma wrapping_add_small a b : 0 <= a + b <= MAX u64 -> wrapping_add usize a b = a + b.
Proof. apply wrap_small. Qed.

Lemma wrapping_sub_small a b : 0 <= a - b <= MAX u64 -> wrapping_sub usize a b = a - b.
Proof. apply wrap_small. Qed.

Lemma wrapping_mul_small a b : 0 <= a * b <= MAX u64 -> wrapping_mul usize a b = a * b.
Proof. apply wrap_small. Qed.

Lemma live_bounds o sl reg act ex fixed i s :
  options_ok fixed o -> slots_ok o sl reg act ex -> sl !! i = Some s ->
  0 <= live s <= act /\ act <= MAX u64.
Proof.
  intros Ho Hs Hlk. assert (Forall (fun s => 0 <= live s) sl) as Hn.
  { apply Forall_forall. intros x _. unfold live. case_if; lia. }
  pose proof (total_lookup live sl i s Hn Hlk). pose proof (so_active _ _ _ _ _ Hs). pose proof (so_bound _ _ _ _ _ Hs).
  pose proof (op_active _ _ Ho). unfold live in *. case_if; lia.
Qed.

Lemma changed_state_changes s st terminal worker external :
  occupied s = true -> r_terminal (record s) = false ->
  changes s (changed_state (record s) st terminal worker external).
Proof.
  intros Ho Ht. split; [done | | done | congruence].
  destruct (record s). done.
Qed.

Lemma inv_state fixed c f l now self st terminal worker external :
  Inv fixed (mkStore c f l) -> Inv fixed (mkStore (snd (state now self st terminal worker external c)) f l).
Proof.
  intros HI. unfold state. destruct (negb (has_capture self) || (rec_id self =? 0)); [done|].
  unfold bind at 1, lock_slot. destruct (slots c !! rec_slot self) as [s|] eqn:Hlk; [|done].
  destruct (current_token self s) eqn:Htok; [|done]. cbn [negb].
  unfold bind at 1. cbn [get_capture gets id].
  destruct (r_terminal (record s) || exhausted c) eqn:Hx; [done|].
  apply orb_false_iff in Hx as [Ht _].
  match goal with |- context [if ?b then ret tt else _] => destruct b end; [done|].
  match goal with |- context [if ?b then ret tt else _] => destruct b end; [done|].
  pose proof (current_token_occupied _ _ Htok) as Ho. clear Htok.
  set (w := if worker =? MAX usize then r_worker (record s) else worker).
  pose proof (changed_state_changes s st terminal w external Ho Ht) as Hcg.
  unfold bind at 1, modify. unfold bind.
  match goal with |- context [publish_slot _ _ _ ?c1] => set (c1' := c1) end.
  assert (Inv fixed (mkStore (snd (publish_slot now (rec_slot self)
            (with_record s (changed_state (record s) st terminal w external)) c1')) f l)) as HI'.
  { destruct HI as (I1 & I2 & I). pose proof (live_bounds _ _ _ _ _ _ _ _ I1 I2 Hlk) as Hlive.
    assert (live s = 1) as Hl1 by (unfold live; by rewrite Ho, Ht).
    apply inv_publish with (s := s) (act := active c) (l := l); [| | done |]; unfold c1'.
    - destruct terminal; case_if; exact (conj I1 (conj I2 I)).
    - destruct terminal; case_if; exact Hlk.
    - assert (live (with_record s (changed_state (record s) st terminal w external))
              = if terminal then 0 else 1) as -> by (unfold live; cbn; rewrite Ho; by destruct terminal).
      rewrite Hl1. destruct terminal; case_if; cbn [active set_closed set_active];
        rewrite ?wrapping_sub_small by (cbn in *; lia); cbn in *; lia. }
  destruct (publish_slot now (rec_slot self) _ c1') as [[] ?]; exact HI'.
Qed.

Lemma with_flags_changes s a b o : occupied s = true -> changes s (with_flags (record s) a b o).
Proof. intros Ho. split; [done | | done | done]. by destruct (record s). Qed.

(** The three updates: only the flags of a record change. *)
Definition flag_update (update : DRecord -> DRecord * bool) : Prop :=
  forall r, (exists a b o, fst (update r) = with_flags r a b o) /\ (snd (update r) = false -> fst (update r) = r).

Lemma request_cancel_flags : flag_update request_cancel.
Proof. intros r. split; [by eexists _, _, _|]. destruct r; cbn. intros H. by rewrite (proj1 (negb_false_iff _) H). Qed.
Lemma reject_cancel_flags : flag_update reject_cancel.
Proof. intros r. split; [by eexists _, _, _|]. destruct r; cbn. intros H. by rewrite (proj1 (negb_false_iff _) H). Qed.
Lemma set_outcome_flags v : flag_update (set_outcome v).
Proof.
  intros r. split; [by eexists _, _, _|]. destruct r; cbn. intros H.
  apply negb_false_iff, bool_decide_eq_true in H. by rewrite H.
Qed.

Lemma set_slot_same c i s : slots c !! i = Some s -> set_slot c i s = c.
Proof. intros Hi. destruct c. unfold set_slot. cbn in *. by rewrite list_insert_id. Qed.

Lemma inv_update_token fixed c f l now self update :
  flag_update update -> Inv fixed (mkStore c f l) ->
  Inv fixed (mkStore (snd (update_token now self update c)) f l).
Proof.
  intros Hu HI. unfold update_token. destruct (negb (has_capture self) || (rec_id self =? 0)); [done|].
  unfold bind at 1, lock_slot. destruct (slots c !! rec_slot self) as [s|] eqn:Hlk; [|done].
  unfold bind at 1. cbn [get_capture gets id].
  destruct (negb (current_token self s) || r_terminal (record s) || exhausted c) eqn:Hx; [done|].
  destruct (current_token self s) eqn:Htok; [|done].
  pose proof (current_token_occupied _ _ Htok) as Ho.
  destruct (Hu (record s)) as [(a & b & o & Hr) Hsame]. destruct (update (record s)) as [r changed]. cbn in Hr, Hsame.
  unfold bind at 1, store_slot, modify. destruct changed.
  - unfold bind. rewrite publish_slot_stored. subst r.
    pose proof (with_flags_changes s a b o Ho) as Hcg.
    assert (Inv fixed (mkStore (snd (publish_slot now (rec_slot self) (with_record s (with_flags (record s) a b o)) c)) f l)) as HI'.
    { apply inv_publish with (s := s) (act := active c) (l := l); [by destruct c | done | done |].
      rewrite (live_with_record s (with_flags _ _ _ _)) by done. lia. }
    destruct (publish_slot now (rec_slot self) _ c) as [[] ?]; exact HI'.
  - rewrite Hsame by done. cbn. rewrite set_slot_same; [done|]. destruct s. done.
Qed.

Lemma inv_close fixed c f l now self :
  Inv fixed (mkStore c f l) -> Inv fixed (mkStore (snd (close now self c)) f l).
Proof.
  intros HI. unfold close, bind. pose proof (inv_state fixed c f l now self Closed true (MAX usize) false HI) as HI'.
  destruct (state now self Closed true (MAX usize) false c) as [[] c']; try exact HI'.
  destruct (has_capture self); exact HI'.
Qed.

(** ** Registration *)

Lemma pop_last_Some {A} (l : list A) x l' : pop_last l = Some (x, l') -> l = l' ++ [x].
Proof.
  unfold pop_last. destruct (list.last l) eqn:Hl; [|done]. intros [= <- <-].
  apply last_Some in Hl as [k ->]. by rewrite removelast_last.
Qed.

Lemma boundary_loop_le s n : (boundary_loop s n <= n)%nat.
Proof. induction n as [|n IH]; cbn -[Z.land]; [done|]. case_if; lia. Qed.

Lemma bounded_text_length s m t : 0 <= m ->
  Z.of_nat (length (fst (bounded_text s m t))) <= Z.min (Z.of_nat (length s)) m.
Proof.
  intros Hm. unfold bounded_text. destruct (m <? Z.of_nat (length s)) eqn:Hc; cbn [fst]; rewrite length_take.
  - pose proof (boundary_loop_le s (Z.to_nat m)). lia.
  - lia.
Qed.

(** A new record takes no more text than was reserved for it. *)
Lemma new_record_fields o self kind info target id : 1 <= max_text_bytes o ->
  let r := new_record o self kind info target id in
  r_id r = id /\ r_version r = 0 /\ r_terminal r = false /\
  Z.of_nat (length (r_name r)) <= max_text_bytes o /\ Z.of_nat (length (r_file r)) <= max_text_bytes o /\
  2 * text_cost r <= reserved_bytes o info.
Proof.
  intros Hm. unfold new_record, text_cost, reserved_bytes.
  pose proof (bounded_text_length (info_name info) (max_text_bytes o) false ltac:(lia)) as H1.
  destruct (bounded_text (info_name info) (max_text_bytes o) false) as [name t]. cbn [fst] in H1.
  pose proof (bounded_text_length (c_text (info_file info)) (max_text_bytes o) t ltac:(lia)) as H2.
  destruct (bounded_text (c_text (info_file info)) (max_text_bytes o) t) as [file t']. cbn [fst] in H2.
  cbn. repeat split; lia.
Qed.

Lemma slots_free o sl reg act ex i s :
  slots_ok o sl reg act ex -> i ∈ free reg -> sl !! i = Some s -> occupied s = false.
Proof.
  intros Hs Hi Hlk. destruct (occupied s) eqn:Ho; [|done].
  apply (so_occupied _ _ _ _ _ Hs i s Hlk) in Ho. pose proof (so_nodup _ _ _ _ _ Hs) as Hn.
  apply list.NoDup_app in Hn as (_ & Hd & _). by destruct (Hd i Hi).
Qed.

Lemma slots_register o sl reg act ex i s s' free' :
  slots_ok o sl reg act ex -> free reg = free' ++ [i] -> sl !! i = Some s -> occupied s' = true ->
  r_terminal (record s') = false -> r_id (record s') = next_id reg -> slot_ok o (next_id reg + 1) s' ->
  act < max_active o -> next_id reg < MAX u64 ->
  slots_ok o (<[i := s']> sl) (mkRegistration free' (occupied_slots reg ++ [i]) (next_id reg + 1)) (act + 1) ex.
Proof.
  intros Hs Hfree Hlk Hocc Ht Hid Hok Hact Hnext.
  assert (occupied s = false) as Hfr.
  { eapply slots_free; try done. rewrite Hfree. apply elem_of_app. right. by apply list_elem_of_singleton. }
  destruct Hs as [Hl Hp1 Hp2 Hp3 Ho Hs Hi Ha Hb Hn]. pose proof (lookup_lt_Some _ _ _ Hlk) as Hlt.
  assert (free' ++ occupied_slots reg ++ [i] ≡ₚ free reg ++ occupied_slots reg) as Hperm.
  { rewrite Hfree, <- app_assoc. f_equiv. apply Permutation_app_comm. }
  split; cbn [free occupied_slots next_id].
  - by rewrite length_insert.
  - by rewrite Hperm.
  - intros j. rewrite Hperm. apply Hp2.
  - intros He. rewrite Hperm. auto.
  - intros j t Hj. rewrite elem_of_app, list_elem_of_singleton.
    apply list_lookup_insert_Some in Hj as [(<- & <- & _)|[Hne Hj]]; [tauto|].
    rewrite (Ho j t Hj). split; [tauto | intros [?|?]; [done | congruence]].
  - intros j t Hj. apply list_lookup_insert_Some in Hj as [(<- & <- & _)|[Hne Hj]]; [done|].
    pose proof (Hs j t Hj) as Hst. unfold slot_ok in *. destruct (occupied t); [lia | done].
  - assert (forall j t, sl !! j = Some t -> occupied t = true -> r_id (record t) < next_id reg) as Hold.
    { intros j t Hj Hot. pose proof (Hs j t Hj) as Hst. unfold slot_ok in Hst. rewrite Hot in Hst. lia. }
    intros j k t t' Hj Hk Hot Hot' He.
    apply list_lookup_insert_Some in Hj as [(<- & <- & _)|[Hne Hj]];
      apply list_lookup_insert_Some in Hk as [(<- & <- & _)|[Hne' Hk]]; [done | | |by eapply Hi].
    + pose proof (Hold k t' Hk Hot'). lia.
    + pose proof (Hold j t Hj Hot). lia.
  - rewrite (total_insert live _ _ _ s' Hlk), Ha. unfold live at 3 4. rewrite Hfr, Hocc, Ht. cbn. lia.
  - lia.
  - lia.
Qed.

Lemma copies_fresh sl ex recs idx i s s' :
  copies_ok sl ex recs idx -> sl !! i = Some s -> occupied s = false -> copies_ok (<[i := s']> sl) ex recs idx.
Proof.
  intros [Hl Hc Hx Hs] Hlk Hocc. split; try done; [by rewrite length_insert|].
  intros j v Hj. destruct (Hc j v Hj) as (t & Ht & Hco). exists t. split; [|done].
  rewrite list_lookup_insert_ne; [done|]. intros <-. pose proof (co_occupied _ _ _ Hco). congruence.
Qed.

Lemma channel_fresh sl evs i s s' :
  channel_ok sl evs -> sl !! i = Some s -> occupied s = false -> last_queued s' <= last_drained s' ->
  channel_ok (<[i := s']> sl) evs.
Proof.
  intros [Hf Ho Hc] Hlk Hocc Hle. split; [|done|].
  - intros e He. destruct (Hf e He) as (t & Ht & Hfr). exists t. split; [|done].
    rewrite list_lookup_insert_ne; [done|]. intros Heq. rewrite <- Heq in Ht. destruct Hfr. congruence.
  - intros j t Hj Hot Hd. apply list_lookup_insert_Some in Hj as [(<- & <- & _)|[_ Hj]]; [lia | by apply (Hc j t)].
Qed.

(** The state after registering, before anything is published. *)
Definition registered (c : Capture) (i : nat) (free' : list nat) (s : SlotFields) (used : Z) : Capture :=
  set_slot (set_active (set_registration (set_used_bytes c used)
    (mkRegistration free' (occupied_slots (registration c) ++ [i]) (next_id (registration c) + 1)))
    (active c + 1)) i s.

Lemma inv_registered fixed c f l i free' s s' used :
  Inv fixed (mkStore c f l) -> free (registration c) = free' ++ [i] -> slots c !! i = Some s ->
  occupied s' = true -> r_terminal (record s') = false -> r_id (record s') = next_id (registration c) ->
  slot_ok (options c) (next_id (registration c) + 1) s' -> active c < max_active (options c) ->
  next_id (registration c) < MAX u64 -> last_queued s' <= last_drained s' ->
  used = used_bytes c + 2 * text_cost (record s') -> used <= max_bytes (options c) ->
  Inv fixed (mkStore (registered c i free' s' used) f l).
Proof.
  intros (I1 & I2 & I3 & I4 & I5 & I6 & I7 & es & I8 & I9) Hfree Hlk Ho Ht Hid Hok Ha Hn Hd Hu Hb. cbn in *.
  assert (occupied s = false) as Hfr.
  { eapply slots_free; try done. rewrite Hfree. apply elem_of_app. right. by apply list_elem_of_singleton. }
  unfold Inv, waiting_events in *. cbn in *.
  split; [done|]. split; [by eapply slots_register|]. split; [done|]. split; [by eapply channel_fresh|].
  split; [by eapply copies_fresh|]. split; [done|]. split; [lia|].
  exists es. split; [done|]. destruct I9 as [B1 B2]. split; [|done].
  rewrite (total_insert metadata_bytes _ _ _ s' Hlk). unfold metadata_bytes at 2 3.
  pose proof (so_slot _ _ _ _ _ I2 i s Hlk) as Hs. unfold slot_ok in *. rewrite Hfr in Hs. rewrite Ho in Hok. lia.
Qed.

Lemma slots_text_nonneg o sl reg act ex : slots_ok o sl reg act ex -> Forall (fun s => 0 <= metadata_bytes s) sl.
Proof.
  intros Hs. apply Forall_lookup. intros i s Hi. pose proof (so_slot _ _ _ _ _ Hs i s Hi) as Hok.
  unfold slot_ok, metadata_bytes in *. pose proof (text_cost_nonneg (record s)). destruct (occupied s); lia.
Qed.

Lemma events_nonneg es : Forall (fun e => 0 <= event_bytes e) es.
Proof. apply Forall_forall. intros e _. apply text_cost_nonneg. Qed.

Lemma inv_used fixed s : Inv fixed s ->
  0 <= used_bytes (capture s) <= max_bytes (options (capture s)) /\ max_bytes (options (capture s)) <= MAX u64.
Proof.
  intros (I1 & I2 & I3 & I4 & I5 & I6 & I7 & es & I8 & [B1 B2]).
  pose proof (total_nonneg _ _ (slots_text_nonneg _ _ _ _ _ I2)). pose proof (total_nonneg _ _ (events_nonneg es)).
  pose proof (op_fixed _ _ I1). pose proof (op_bytes _ _ I1). lia.
Qed.

Lemma reserve_spec c bytes c' :
  0 <= used_bytes c <= max_bytes (options c) -> max_bytes (options c) <= MAX u64 -> 0 <= bytes ->
  reserve c bytes = Some c' ->
  used_bytes c + bytes <= max_bytes (options c) /\ c' = set_used_bytes c (used_bytes c + bytes).
Proof.
  intros Hu Hm Hb. unfold reserve. rewrite wrapping_sub_small by lia.
  destruct (bytes <=? max_bytes (options c) - used_bytes c) eqn:Hc; [|done]. intros [= <-].
  rewrite wrapping_add_small by lia. split; [lia | done].
Qed.

Lemma reserve_refused c bytes :
  0 <= used_bytes c <= max_bytes (options c) -> max_bytes (options c) <= MAX u64 ->
  reserve c bytes = None -> max_bytes (options c) < used_bytes c + bytes.
Proof.
  intros Hu Hm. unfold reserve. rewrite wrapping_sub_small by lia. case_if; [done | lia].
Qed.

(** Publishing a fresh registration, and the wait state of a guard after it. *)
Lemma inv_publish_twice fixed c f l i s now1 now2 (waiting : bool) (token : SlotFields -> Recorder) :
  Inv fixed (mkStore (set_slot c i s) f l) -> (i < length (slots c))%nat -> occupied s = true ->
  r_terminal (record s) = false ->
  yields (let* entry := publish_slot now1 i s in
          let* _ := (if waiting
                     then let* _ := publish_slot now2 i (with_record entry (with_state (record entry) Waiting)) in ret tt
                     else ret tt) in
          ret (token entry)) (fun _ c' => Inv fixed (mkStore c' f l)) c.
Proof.
  intros HI Hi Ho Ht. unfold yields, bind at 1. rewrite <- (publish_slot_stored now1 i s s c).
  assert (slots (set_slot c i s) !! i = Some s) as Hlk by (cbn; by rewrite list_lookup_insert_eq).
  assert (with_record s (record s) = s) as Hws by (by destruct s).
  assert (changes s (record s)) as Hcg by (split; [done | by destruct (record s) | done | done]).
  pose proof (inv_publish fixed (set_slot c i s) f l l i s (record s) now1 (active c)) as HP.
  rewrite Hws in HP.
  specialize (HP HI Hlk Hcg ltac:(cbn; lia)).
  pose proof (publish_spec now1 i s (set_slot c i s)) as Hp.
  unfold publish_slot in *. destruct (publish now1 i s (set_slot c i s)) as [s' c']. cbn in Hp, HP |- *.
  assert (occupied s' = true /\ r_terminal (record s') = false) as (Ho' & Ht').
  { destruct Hp as [|r ? ->|r ? ->]; done. }
  destruct waiting; [|done].
  assert (slots (set_slot c' i s') !! i = Some s') as Hlk'.
  { cbn. rewrite list_lookup_insert_eq; [done|].
    assert (length (slots c') = length (slots c)) as ->; [|done].
    pose proof (published_core now1 i s (record s) (set_slot c i s) s' c') as Hc. rewrite Hws in Hc.
    destruct (Hc Hp) as (_ & -> & _). cbn. by rewrite length_insert. }
  unfold bind. set (s2 := with_record s' (with_state (record s') Waiting)).
  assert (Inv fixed (mkStore (snd (publish_slot now2 i s2 (set_slot c' i s'))) f l)) as HP'.
  { apply inv_publish with (s := s') (act := active c') (l := l); [exact HP | exact Hlk' | |].
    - split; [done | | done | by rewrite Ht']. by destruct (record s').
    - rewrite (live_with_record s' (with_state (record s') Waiting)) by done. cbn. lia. }
  unfold publish_slot in HP'. destruct (publish now2 i s2 (set_slot c' i s')); exact HP'.
Qed.

(** A slot whose generations are used up is not given out again; the store is
    then exhausted. *)
Lemma inv_leak fixed c f l i free' :
  Inv fixed (mkStore c f l) -> free (registration c) = free' ++ [i] ->
  Inv fixed (mkStore (set_exhausted (set_registration c
    (mkRegistration free' (occupied_slots (registration c)) (next_id (registration c))))) f l).
Proof.
  intros HI Hf. assert (same_core c (set_exhausted c)) as Hc by done.
  destruct (inv_core _ _ _ _ _ l HI Hc) as (I1 & I2 & I). split; [exact I1|]. split; [|exact I]. cbn in *.
  destruct I2 as [Hl Hp1 Hp2 Hp3 Ho Hs Hi Ha Hb Hn]. split; try done; cbn.
  - rewrite Hf, <- app_assoc in Hp1. apply list.NoDup_app in Hp1 as (N1 & N2 & N3).
    apply list.NoDup_app in N3 as (_ & _ & N3). apply list.NoDup_app. split; [done|]. split; [|done].
    intros x Hx Hx'. apply (N2 x Hx). apply elem_of_app. by right.
  - intros j Hj. apply Hp2. rewrite Hf, !elem_of_app in *. tauto.
Qed.

Lemma inv_register fixed c f l now1 now2 self kind info target waiting reserved :
  Inv fixed (mkStore c f l) -> free (registration c) <> [] -> active c < max_active (options c) ->
  next_id (registration c) <> MAX u64 -> reserved = reserved_bytes (options c) info ->
  used_bytes c + reserved <= max_bytes (options c) ->
  yields (register now1 now2 self kind info target waiting reserved) (fun _ c' => Inv fixed (mkStore c' f l))
    (set_used_bytes c (used_bytes c + reserved)).
Proof.
  intros HI Hfree Hact Hnext Hres Hfit. unfold register. apply yields_bind. cbn [yields get_capture gets id].
  assert (exists i free', pop_last (free (registration c)) = Some (i, free')) as (i & free' & Hpop).
  { unfold pop_last. destruct (list.last (free (registration c))) eqn:Hl; [by eexists _, _|]. by apply last_None in Hl. }
  unfold yields at 1. cbn [get_capture gets id].
  cbn [registration options set_used_bytes]. rewrite Hpop. apply pop_last_Some in Hpop as Hf.
  pose proof HI as (I1 & I2 & I3 & I4 & I5 & I6 & I7 & _). cbn in * |-.
  assert (i < length (slots c))%nat as Hi.
  { rewrite (so_length _ _ _ _ _ I2). apply (so_inside _ _ _ _ _ I2). rewrite Hf, !elem_of_app. left. right.
    by apply list_elem_of_singleton. }
  apply lookup_lt_is_Some_2 in Hi as Hlk. destruct Hlk as [s Hlk].
  pose proof (inv_used _ _ HI) as [Hu Hm]. cbn in Hu, Hm.
  pose proof (new_record_fields (options c) (rec_id self) kind info target (next_id (registration c))
                ltac:(pose proof (op_text _ _ I1); lia)) as (R1 & R2 & R3 & R4 & R5 & R6).
  set (r := new_record (options c) (rec_id self) kind info target (next_id (registration c))) in *.
  pose proof (text_cost_nonneg r) as Htc.
  pose proof (so_next _ _ _ _ _ I2) as Hn. pose proof (so_slot _ _ _ _ _ I2 i s Hlk) as Hok.
  apply yields_bind. unfold yields at 1, put_capture, modify.
  apply yields_bind. unfold yields at 1, lock_slot. cbn [slots set_registration set_used_bytes].
  rewrite Hlk. destruct (generation s =? MAX u64) eqn:Hgen.
  - unfold yields. cbn. unfold release. cbn. rewrite wrapping_sub_small by lia.
    replace (used_bytes c + reserved - reserved) with (used_bytes c) by lia.
    exact (inv_leak fixed c f l i free' HI Hf).
  - apply Z.eqb_neq in Hgen. cbv zeta. cbn [record].
    set (entry := mkSlot true (generation s + 1) 0 0 (text_cost r) r).
    apply yields_bind. unfold yields at 1, modify.
    match goal with |- yields _ _ ?c1 => set (c1' := c1) end.
    assert (set_slot c1' i entry = registered c i free' entry (used_bytes c + 2 * text_cost r)) as Hreg.
    { unfold c1', entry, registered, set_slot, set_active, set_registration, release, set_used_bytes. cbn.
      pose proof (live_bounds _ _ _ _ _ _ _ _ I1 I2 Hlk).
      rewrite !wrapping_sub_small by (rewrite ?wrapping_sub_small by lia; lia).
      rewrite wrapping_add_small by (pose proof (op_active _ _ I1); lia). f_equal. lia. }
    apply (inv_publish_twice fixed c1' f l i entry now1 now2 waiting
             (fun e => mkRecorder true (r_id r) i (generation e))); try done.
    + rewrite Hreg. eapply inv_registered; try done; cbn; try lia.
      unfold slot_ok in *; cbn; destruct (occupied s); lia.
Qed.

Lemma inv_child fixed c f l now1 now2 self kind info target waiting :
  Inv fixed (mkStore c f l) ->
  yields (child_initial now1 now2 self kind info target waiting) (fun _ c' => Inv fixed (mkStore c' f l)) c.
Proof.
  intros HI. unfold child_initial. destruct (negb (has_capture self)); [done|].
  apply yields_bind. cbn [yields get_capture gets id]. unfold yields at 1. cbn [get_capture gets id].
  destruct (closed c || exhausted c); [done|].
  destruct (next_id (registration c) =? MAX u64) eqn:Hn.
  { by apply (inv_core _ _ _ _ _ _ HI). }
  apply Z.eqb_neq in Hn.
  destruct ((max_active (options c) <=? active c) || _) eqn:Hfull.
  { apply (inv_core _ _ _ _ _ _ HI), omit_core. }
  apply orb_false_iff in Hfull as [Ha Hfree].
  pose proof (inv_used _ _ HI) as [Hu Hm]. cbn in Hu, Hm.
  assert (0 <= reserved_bytes (options c) info) as Hpos.
  { unfold reserved_bytes. destruct HI as (I1 & _). pose proof (op_text _ _ I1). cbn in *. lia. }
  cbv zeta. destruct (reserve c (reserved_bytes (options c) info)) as [c'|] eqn:Hr.
  - apply reserve_spec in Hr as [Hfit ->]; [|done..]. apply yields_bind. unfold yields at 1. cbn [put_capture modify].
    apply inv_register; try done; [by destruct (free (registration c)) | lia].
  - apply (inv_core _ _ _ _ _ _ HI), omit_core.
Qed.

(** ** The other threads

    What a recorder does to slots: it changes the record of one slot, moving it
    on, and leaves closed records alone. *)

(** A later state of the same record. *)
Record continued (ex : bool) (r r' : DRecord) : Prop := {
  cn_identity : apply_state (captured_state r) r' = r;
  cn_version : r_version r <= r_version r';
  cn_current : r_version r' = r_version r -> ex = true \/ r' = r;
  cn_closed : r_terminal r = true -> r' = r }.

#[export] Instance continued_refl ex : Reflexive (continued ex).
Proof. intros r. split; [by destruct r | done | by right | done]. Qed.

Lemma continued_trans ex ex' r1 r2 r3 :
  continued ex r1 r2 -> (ex = true -> ex' = true) -> continued ex' r2 r3 -> continued ex' r1 r3.
Proof.
  intros [A1 A2 A3 A4] Hex [B1 B2 B3 B4]. split.
  - by eapply apply_identity.
  - lia.
  - intros Hv. destruct (A3 ltac:(lia)) as [?| ->]; [by left; apply Hex|].
    destruct (B3 ltac:(lia)); auto.
  - intros Ht. pose proof (A4 Ht) as ->. by apply B4.
Qed.

(** A slot that stays in use for the same record. *)
Record held (ex : bool) (t t' : SlotFields) : Prop := {
  hd_occupied : occupied t' = true;
  hd_generation : generation t' = generation t;
  hd_record : continued ex (record t) (record t') }.

Lemma held_self ex t : occupied t = true -> held ex t t.
Proof. by split. Qed.

(** A free slot stays free, or has a record of a new generation. *)
Definition reused (t t' : SlotFields) : Prop :=
  if occupied t' then generation t < generation t' else generation t' = generation t.

Lemma reused_self t : occupied t = false -> reused t t.
Proof. unfold reused. by intros ->. Qed.

(** What recorders do to the shared part. *)
Record stirred (c c' : Capture) : Prop := {
  st_options : options c' = options c;
  st_exhausted : exhausted c = true -> exhausted c' = true;
  st_slots : forall i t, slots c !! i = Some t -> occupied t = true ->
    exists t', slots c' !! i = Some t' /\ held (exhausted c') t t' /\ (r_terminal (record t) = true -> t' = t);
  st_free : forall i t, slots c !! i = Some t -> occupied t = false ->
    exists t', slots c' !! i = Some t' /\ reused t t' }.

Lemma stirred_same c c' : options c' = options c -> exhausted c' = exhausted c -> slots c' = slots c -> stirred c c'.
Proof.
  intros E1 E2 E3. split; [done | congruence | |]; rewrite E3; intros i t Hi Ho; exists t; (split; [done|]).
  - split; [by apply held_self | done].
  - by apply reused_self.
Qed.

#[export] Instance stirred_refl : Reflexive stirred.
Proof. intros c. by apply stirred_same. Qed.

#[export] Instance stirred_trans : Transitive stirred.
Proof.
  intros c1 c2 c3 [A1 A2 A3 A4] [B1 B2 B3 B4]. split; [congruence | auto | |]; intros i t Hi Ho.
  2: { destruct (A4 i t Hi Ho) as (t2 & Hi2 & R2). unfold reused in *. destruct (occupied t2) eqn:Ho2.
       - destruct (B3 i t2 Hi2 Ho2) as (t3 & Hi3 & [Q1 Q2 Q3] & _). exists t3. rewrite Q1. split; [done | lia].
       - destruct (B4 i t2 Hi2 Ho2) as (t3 & Hi3 & R3). exists t3. split; [done|]. by rewrite R2 in R3. }
  destruct (A3 i t Hi Ho) as (t2 & Hi2 & [P1 P2 P3] & T2). destruct (B3 i t2 Hi2 P1) as (t3 & Hi3 & [Q1 Q2 Q3] & T3).
  exists t3. split; [done|]. split.
  - split; [done | congruence | by eapply continued_trans].
  - intros Ht. pose proof (T2 Ht) as ->. by apply T3.
Qed.

(** Everything but slot [j]'s own fields may change. *)
Record beside (j : nat) (c c' : Capture) : Prop := {
  bs_options : options c' = options c;
  bs_exhausted : exhausted c = true -> exhausted c' = true;
  bs_slot : slots c' !! j = slots c !! j }.

#[export] Instance beside_refl j : Reflexive (beside j).
Proof. by split. Qed.

#[export] Instance beside_trans j : Transitive (beside j).
Proof. intros c1 c2 c3 [] []. split; [congruence | auto | congruence]. Qed.

Lemma core_beside j c c' : same_core c c' -> beside j c c'.
Proof. intros []. split; [done | done | congruence]. Qed.

Lemma publish_slot_beside now i s c j : j <> i -> beside j c (snd (publish_slot now i s c)).
Proof.
  intros Hj. unfold publish_slot. pose proof (publish_spec now i s c) as Hp.
  destruct (publish now i s c) as [s' c']. cbn in Hp. cbn [snd].
  destruct Hp as [Hm|r c' Hr Hv Hl [S1 S2 S3 S4 S5 S6 S7]|r c' Hr Hv [S1 S2 S3 S4 S5 S6 S7]];
    (split; [done | done |]); simpl; rewrite list_lookup_insert_ne by done; by rewrite ?S2.
Qed.

Lemma register_beside now1 now2 self kind info target waiting reserved c j i free' :
  pop_last (free (registration c)) = Some (i, free') -> j <> i ->
  beside j c (snd (register now1 now2 self kind info target waiting reserved c)).
Proof.
  intros Hpop Hj. unfold register, bind. cbn [get_capture gets id]. rewrite Hpop.
  unfold put_capture, modify, lock_slot. cbn [slots set_registration].
  destruct (slots c !! i) as [t|] eqn:Hlk; [|done]. destruct (generation t =? MAX u64); [done|].
  match goal with |- context [publish_slot now1 i ?e ?c1] =>
    assert (beside j c c1) as H0 by (by split);
    pose proof (beside_trans j _ _ _ H0 (publish_slot_beside now1 i e c1 j Hj)) as H1; clear H0;
    destruct (publish_slot now1 i e c1) as [[] c2] end; try exact H1.
  destruct waiting; [|exact H1].
  match goal with |- context [publish_slot now2 i ?e ?c1] =>
    pose proof (publish_slot_beside now2 i e c1 j Hj) as H2; destruct (publish_slot now2 i e c1) as [[] c3] end;
    (etransitivity; [exact H1 | exact H2]).
Qed.

(** Registering takes a slot that is free. *)
Lemma child_beside now1 now2 self kind info target waiting c j :
  (forall i free', pop_last (free (registration c)) = Some (i, free') -> j <> i) ->
  beside j c (snd (child_initial now1 now2 self kind info target waiting c)).
Proof.
  intros Hj. unfold child_initial. destruct (negb (has_capture self)); [done|]. unfold bind. cbn [get_capture gets id].
  destruct (closed c || exhausted c); [done|]. destruct (next_id (registration c) =? MAX u64); [done|].
  destruct ((max_active (options c) <=? active c) || _) eqn:Hfull.
  { apply core_beside, omit_core. }
  unfold reserve. cbv zeta. destruct (reserved_bytes (options c) info <=? _).
  - unfold put_capture, modify. apply orb_false_iff in Hfull as [_ Hfree].
    destruct (pop_last (free (registration c))) as [[i free']|] eqn:Hpop.
    + match goal with |- context [register _ _ _ _ _ _ _ _ ?c1] =>
        pose proof (register_beside now1 now2 self kind info target waiting
          (reserved_bytes (options c) info) c1 j i free' Hpop) as Hr;
        assert (beside j c c1) as H0 by (by split) end.
      etransitivity; [exact H0|]. apply Hr. by eapply Hj.
    + unfold pop_last in Hpop. destruct (list.last (free (registration c))) eqn:Hl; [done|].
      apply last_None in Hl. by rewrite Hl in Hfree.
  - apply core_beside, omit_core.
Qed.

(** A change of one record that is not closed. *)
Lemma stirred_publish c c0 i s r now :
  slots c !! i = Some s -> slots c0 = slots c -> options c0 = options c -> exhausted c0 = exhausted c ->
  changes s r -> last_queued s <= r_version (record s) -> r_terminal (record s) = false ->
  stirred c (snd (publish_slot now i (with_record s r) c0)).
Proof.
  intros Hi Es Eo Ex Hcg Hq Ht. pose proof (publish_spec now i (with_record s r) c0) as Hp. unfold publish_slot.
  destruct (publish now i (with_record s r) c0) as [s' c']. cbn [fst snd] in *.
  destruct (published_advances _ _ _ _ _ _ _ Hcg Hq Hp) as ([A1 A2 A3 A4 A5 A6 A7 A8 A9 A10] & _ & Hex).
  destruct (published_core _ _ _ _ _ _ _ Hp) as (P1 & P2 & _).
  split; cbn; [congruence | by rewrite <- Ex | |]; rewrite P2, Es; intros j t Hj Ho.
  2: { exists t. split; [|by apply reused_self]. rewrite list_lookup_insert_ne; [done|]. intros ->.
       pose proof (cg_occupied _ _ Hcg). congruence. }
  destruct (decide (i = j)) as [<-|Hne].
  - rewrite list_lookup_insert_eq by (by eapply lookup_lt_Some). exists s'. assert (t = s) as -> by congruence.
    split; [done|]. split; [|congruence]. split; [congruence | done |]. split; [done | lia | auto | congruence].
  - rewrite list_lookup_insert_ne by done. exists t. split; [done|]. split; [by apply held_self | done].
Qed.

Lemma inv_lag fixed c f l i s : Inv fixed (mkStore c f l) -> slots c !! i = Some s -> occupied s = true ->
  last_queued s <= r_version (record s).
Proof.
  intros (_ & I2 & _) Hi Ho. pose proof (so_slot _ _ _ _ _ I2 i s Hi) as Hok. unfold slot_ok in Hok.
  rewrite Ho in Hok. lia.
Qed.

Lemma state_stirred fixed c f l now self st terminal worker external :
  Inv fixed (mkStore c f l) -> stirred c (snd (state now self st terminal worker external c)).
Proof.
  intros HI. unfold state. destruct (negb (has_capture self) || (rec_id self =? 0)); [done|].
  unfold bind at 1, lock_slot. destruct (slots c !! rec_slot self) as [s|] eqn:Hlk; [|done].
  destruct (current_token self s) eqn:Htok; [|done]. cbn [negb].
  unfold bind at 1. cbn [get_capture gets id].
  destruct (r_terminal (record s) || exhausted c) eqn:Hx; [done|]. apply orb_false_iff in Hx as [Ht _].
  match goal with |- context [if ?b then ret tt else _] => destruct b end; [done|].
  match goal with |- context [if ?b then ret tt else _] => destruct b end; [done|].
  pose proof (current_token_occupied _ _ Htok) as Ho.
  unfold bind at 1, modify. unfold bind.
  match goal with |- context [publish_slot _ _ (with_record s ?r) ?c1] =>
    pose proof (stirred_publish c c1 (rec_slot self) s r now Hlk) as Hst;
    destruct (publish_slot now (rec_slot self) (with_record s r) c1) as [[] c2] end;
    (apply Hst; [by destruct terminal; case_if .. | by apply changed_state_changes | by eapply inv_lag | done]).
Qed.

Lemma update_token_stirred fixed c f l now self update :
  flag_update update -> Inv fixed (mkStore c f l) -> stirred c (snd (update_token now self update c)).
Proof.
  intros Hu HI. unfold update_token. destruct (negb (has_capture self) || (rec_id self =? 0)); [done|].
  unfold bind at 1, lock_slot. destruct (slots c !! rec_slot self) as [s|] eqn:Hlk; [|done].
  unfold bind at 1. cbn [get_capture gets id].
  destruct (negb (current_token self s) || r_terminal (record s) || exhausted c) eqn:Hx; [done|].
  destruct (current_token self s) eqn:Htok; [|done]. cbn [negb orb] in Hx. apply orb_false_iff in Hx as [Ht _].
  pose proof (current_token_occupied _ _ Htok) as Ho.
  destruct (Hu (record s)) as [(a & b & o & Hr) Hsame]. destruct (update (record s)) as [r changed]. cbn in Hr, Hsame.
  unfold bind at 1, store_slot, modify. destruct changed.
  - unfold bind. rewrite publish_slot_stored. subst r.
    pose proof (stirred_publish c c (rec_slot self) s (with_flags (record s) a b o) now Hlk eq_refl eq_refl eq_refl
      (with_flags_changes s a b o Ho) (inv_lag _ _ _ _ _ _ HI Hlk Ho) Ht) as Hst.
    destruct (publish_slot now (rec_slot self) _ c) as [[] ?]; exact Hst.
  - rewrite Hsame by done. cbn. rewrite set_slot_same; [done|]. by destruct s.
Qed.

(** The generation a slot has once a record is published in it. *)
Lemma publish_slot_generation now i s c : (i < length (slots c))%nat ->
  yields (publish_slot now i s) (fun s' c' => slots c' !! i = Some s' /\ generation s' = generation s /\
    occupied s' = occupied s /\ length (slots c') = length (slots c)) c.
Proof.
  intros Hi. unfold yields, publish_slot. pose proof (publish_spec now i s c) as Hp.
  destruct (publish now i s c) as [s' c']. cbn in Hp.
  assert (slots c' = slots c) as Hs by (destruct Hp as [|r c' _ _ _ []|r c' _ _ []]; done).
  cbn. rewrite Hs, length_insert, list_lookup_insert_eq by done.
  destruct Hp; by repeat split.
Qed.

Lemma register_reused now1 now2 self kind info target waiting reserved c i free' t :
  pop_last (free (registration c)) = Some (i, free') -> slots c !! i = Some t -> occupied t = false ->
  exists t', slots (snd (register now1 now2 self kind info target waiting reserved c)) !! i = Some t' /\ reused t t'.
Proof.
  intros Hpop Hlk Hf. unfold register, bind at 1. cbn [get_capture gets id]. rewrite Hpop.
  unfold bind at 1, put_capture, modify. unfold bind at 1, lock_slot. cbn [slots set_registration]. rewrite Hlk.
  destruct (generation t =? MAX u64); [exists t; by split; [|apply reused_self]|]. cbv zeta.
  set (entry := mkSlot true (generation t + 1) 0 0 _ _). unfold bind at 1.
  match goal with |- context [bind (publish_slot now1 i entry) _ ?c1] => set (c1' := c1) end.
  assert (slots c1' = slots c) as Hs1 by done.
  pose proof (publish_slot_generation now1 i entry c1' ltac:(rewrite Hs1; by eapply lookup_lt_Some)) as H1.
  unfold bind at 1. unfold yields in H1. destruct (publish_slot now1 i entry c1') as [[a| | |] c2]; try done.
  destruct H1 as (L1 & G1 & O1 & N1). destruct waiting.
  2: { exists a. split; [exact L1|]. unfold reused. rewrite O1. cbn in *. lia. }
  unfold bind at 1 2.
  match goal with |- context [publish_slot now2 i ?e c2] =>
    pose proof (publish_slot_generation now2 i e c2 ltac:(rewrite N1, Hs1; by eapply lookup_lt_Some)) as H2;
    unfold yields in H2; destruct (publish_slot now2 i e c2) as [[b| | |] c3] end; try done.
  destruct H2 as (L2 & G2 & O2 & _). exists b. split; [exact L2|]. unfold reused.
  rewrite O2. cbn in *. rewrite O1. lia.
Qed.

Lemma child_reused now1 now2 self kind info target waiting c i t :
  slots c !! i = Some t -> occupied t = false ->
  exists t', slots (snd (child_initial now1 now2 self kind info target waiting c)) !! i = Some t' /\ reused t t'.
Proof.
  intros Hlk Hf. destruct (pop_last (free (registration c))) as [[j free']|] eqn:Hpop.
  2: { exists t. split; [|by apply reused_self]. rewrite <- Hlk. apply (bs_slot i), child_beside. intros. congruence. }
  destruct (decide (j = i)) as [->|Hne].
  - unfold child_initial. destruct (negb (has_capture self)); [exists t; by split; [|apply reused_self]|].
    unfold bind. cbn [get_capture gets id].
    destruct (closed c || exhausted c); [exists t; by split; [|apply reused_self]|].
    destruct (next_id (registration c) =? MAX u64); [exists t; by split; [|apply reused_self]|].
    destruct ((max_active (options c) <=? active c) || _).
    { exists t. split; [|by apply reused_self]. cbn. by rewrite (sc_slots _ _ (omit_core c)). }
    cbv zeta. unfold reserve. destruct (reserved_bytes (options c) info <=? _).
    + by apply (register_reused _ _ _ _ _ _ _ _ _ _ free').
    + exists t. split; [|by apply reused_self]. cbn. by rewrite (sc_slots _ _ (omit_core c)).
  - exists t. split; [|by apply reused_self]. rewrite <- Hlk. apply (bs_slot i), child_beside. intros. congruence.
Qed.

(** Registering changes the slots it finds free alone. *)
Lemma child_stirred fixed c f l now1 now2 self kind info target waiting :
  Inv fixed (mkStore c f l) -> stirred c (snd (child_initial now1 now2 self kind info target waiting c)).
Proof.
  intros (_ & I2 & _). cbn in I2.
  assert (forall i free' t, pop_last (free (registration c)) = Some (i, free') -> slots c !! i = Some t ->
    occupied t = false) as Hfree.
  { intros i free' t Hpop Hi. eapply slots_free; [exact I2 | | exact Hi].
    apply pop_last_Some in Hpop as ->. apply elem_of_app. right. by apply list_elem_of_singleton. }
  destruct (child_beside now1 now2 self kind info target waiting c (capacity (options c))) as [B1 B2 _].
  { intros i free' Hpop <-. pose proof (so_inside _ _ _ _ _ I2 (capacity (options c))) as Hlt.
    apply pop_last_Some in Hpop as Hf. rewrite Hf, !elem_of_app, list_elem_of_singleton in Hlt.
    specialize (Hlt (or_introl (or_intror eq_refl))). lia. }
  split; [done | done | |]; intros i t Hi Ho; [|by apply child_reused].
  exists t. split; [|split; [by apply held_self | done]].
  rewrite <- Hi. apply (bs_slot i), child_beside. intros k free' Hpop ->.
  rewrite (Hfree k free' t Hpop Hi) in Ho. done.
Qed.

Lemma act_spec fixed a c f l l' :
  Inv fixed (mkStore c f l) -> Inv fixed (mkStore (act a c) f l') /\ stirred c (act a c).
Proof.
  intros HI. assert (Inv fixed (mkStore c f l')) as HI' by exact HI.
  destruct a; cbn [act].
  - split; [|by eapply child_stirred]. pose proof (inv_child fixed c f l' now1 now2 self kind info target waiting HI') as HC.
    unfold yields in HC. by destruct (child_initial now1 now2 self kind info target waiting c) as [[] c'].
  - split; [by apply (inv_state fixed c f l') | by eapply state_stirred].
  - split; [apply (inv_update_token fixed c f l') | eapply update_token_stirred]; eauto using request_cancel_flags.
  - split; [apply (inv_update_token fixed c f l') | eapply update_token_stirred]; eauto using reject_cancel_flags.
  - split; [apply (inv_update_token fixed c f l') | eapply update_token_stirred]; eauto using set_outcome_flags.
  - split; [exact HI | by apply stirred_same].
  - split; [exact HI | by apply stirred_same].
Qed.
