(* ===== verification/DebugRefresh.v ===== *)
(** The collector preserves the invariant of the diagnostic store: each
    critical section of [refresh] on its own, the steps of recorders and
    collector in any order ([step]), and [refresh] as a whole, while other
    threads run between its sections.  None of them panics or runs out of
    fuel. *)

From Stdlib Require Import ZArith Lia ZifyBool.
From stdpp Require Import base list sorting relations.
From S2P Require Import Prelude.
From S2P Require Import Int.
From S2P Require Import DebugStore.
From S2P Require Import DebugRecorder.
From S2P Require Import DebugCollector.
From S2P Require Import DebugInvariant.

Local Open Scope Z_scope.
Local Open Scope rstd_scope.

#[local] Arguments MAX : simpl never.
#[local] Arguments wrapping_add : simpl never.
#[local] Arguments wrapping_sub : simpl never.
#[local] Arguments wrapping_mul : simpl never.

(** ** The ring *)

Section ring.
Local Open Scope nat_scope.

Lemma ring_index head k m : head < m -> k < m ->
  (head + k) mod m = if decide (head + k < m) then head + k else head + k - m.
Proof.
  intros Hh Hk. case_decide; [by apply Nat.mod_small|].
  replace (head + k) with ((head + k - m) + 1 * m) at 1 by lia.
  rewrite Nat.Div0.mod_add. apply Nat.mod_small. lia.
Qed.

Lemma ring_index_inj head k k' m : head < m -> k < m -> k' < m -> (head + k) mod m = (head + k') mod m -> k = k'.
Proof. intros Hh Hk Hk'. rewrite !ring_index by done. repeat case_decide; lia. Qed.

Lemma ring_index_lt head k m : head < m -> (head + k) mod m < m.
Proof. intros. apply Nat.mod_upper_bound. lia. Qed.

Lemma ring_head m head len h e es : ring_ok m head len h (e :: es) -> h !! head = Some (Some e).
Proof.
  intros [Hl Hn Hf Hh Hk]. specialize (Hk 0 ltac:(lia)).
  by rewrite Nat.add_0_r, Nat.mod_small in Hk by done.
Qed.

Lemma ring_evict m head len h e es :
  ring_ok m head len h (e :: es) -> ring_ok m ((head + 1) mod m) (len - 1) (<[head := None]> h) es.
Proof.
  intros [Hl Hn Hf Hh Hk]. cbn in Hn. split.
  - by rewrite length_insert.
  - lia.
  - lia.
  - apply Nat.mod_upper_bound. lia.
  - intros k Hlt. rewrite Nat.Div0.add_mod_idemp_l.
    replace (head + 1 + k) with (head + S k) by lia. destruct (decide (S k < m)) as [Hs|Hs].
    + rewrite list_lookup_insert_ne; [by rewrite Hk|]. rewrite ring_index by done. case_decide; lia.
    + replace (head + S k) with (head + 1 * m) by lia. rewrite Nat.Div0.mod_add, Nat.mod_small by done.
      rewrite list_lookup_insert_eq by lia. symmetry. f_equal. apply lookup_ge_None. lia.
Qed.

Lemma ring_push m head len h e es :
  ring_ok m head len h es -> len < m -> ring_ok m head (len + 1) (<[(head + len) mod m := Some e]> h) (es ++ [e]).
Proof.
  intros [Hl Hn Hf Hh Hk] Hlt. split.
  - by rewrite length_insert.
  - rewrite length_app. cbn. lia.
  - lia.
  - done.
  - intros k Hkm. destruct (decide (k = len)) as [->|Hne].
    + rewrite list_lookup_insert_eq by (rewrite Hl; by apply ring_index_lt). by rewrite <- Hn, list_lookup_middle.
    + rewrite list_lookup_insert_ne by (intros ?%ring_index_inj; lia). rewrite Hk by done. f_equal.
      destruct (decide (k < len)); [by rewrite lookup_app_l by lia|].
      rewrite !lookup_ge_None_2 by (rewrite ?length_app; cbn; lia). done.
Qed.

Lemma ring_empty m : 0 < m -> ring_ok m 0 0 (replicate m None) [].
Proof.
  intros Hm. split; [by rewrite length_replicate | done | lia | done |].
  intros k Hk. rewrite Nat.mod_small by done. by rewrite lookup_replicate_2.
Qed.
End ring.

(** ** The history *)

(** What the history functions leave alone. *)
Record history_frame (s s' : Store) : Prop := {
  hf_options : options (capture s') = options (capture s);
  hf_slots : slots (capture s') = slots (capture s);
  hf_registration : registration (capture s') = registration (capture s);
  hf_queue : pending_queue (capture s') = pending_queue (capture s);
  hf_active : active (capture s') = active (capture s);
  hf_dropped : dropped_events (capture s') = dropped_events (capture s);
  hf_exhausted : exhausted (capture s) = true -> exhausted (capture s') = true;
  hf_records : q_records (query s') = q_records (query s);
  hf_index : q_index (query s') = q_index (query s);
  hf_scan : q_scan (query s') = q_scan (query s);
  hf_pending : q_pending (query s') = q_pending (query s);
  hf_next_id : q_next_id (query s') = q_next_id (query s);
  hf_others : others s' = others s }.

#[export] Instance history_frame_refl : Reflexive history_frame.
Proof. by split. Qed.

#[export] Instance history_frame_trans : Transitive history_frame.
Proof. intros s1 s2 s3 [] []. split; try congruence; auto. Qed.

(** The history of a store is [es]. *)
Definition holds_history (fixed : Z) (s : Store) (es : list Event) : Prop :=
  history_ok (options (capture s)) (query s) es /\
  budget_ok fixed (options (capture s)) (slots (capture s)) es (used_bytes (capture s)).

Lemma inv_frame fixed s s' es :
  Inv fixed s -> history_frame s s' -> holds_history fixed s' es -> Inv fixed s'.
Proof.
  intros (I1 & I2 & I3 & I4 & I5 & I6 & I7 & _) [F1 F2 F3 F4 F5 F6 F7 F8 F9 F10 F11 F12 F13] [H1 H2].
  unfold Inv, waiting_events in *. rewrite F1, F2, F3, F4, F5, F8, F9, F10, F11, F12 in *.
  split; [done|]. split.
  { destruct I2. split; try done. intros He. destruct (exhausted (capture s)); [by rewrite F7 in He | auto]. }
  repeat (split; [done|]). split.
  { destruct I5 as [Hl Hc Hx Hs]. split; try done. intros i v Hi.
    destruct (Hc i v Hi) as (t & Hlk & [C1 C2 C3 C4 C5 C6]). exists t. split; [done|]. split; try done.
    intros Hv. destruct (C5 Hv); auto. }
  repeat (split; [done|]). by exists es.
Qed.

(** The part of the invariant the history functions rely on. *)
Definition history_base (fixed : Z) (s : Store) : Prop :=
  options_ok fixed (options (capture s)) /\ Forall (fun t => 0 <= metadata_bytes t) (slots (capture s)).

Lemma inv_base fixed s : Inv fixed s -> history_base fixed s.
Proof. intros (I1 & I2 & _). split; [done | by eapply slots_text_nonneg]. Qed.

Lemma base_frame fixed s s' : history_base fixed s -> history_frame s s' -> history_base fixed s'.
Proof. intros [H1 H2] [F1 F2]. unfold history_base. by rewrite F1, F2. Qed.

Lemma base_used fixed s es : history_base fixed s -> holds_history fixed s es ->
  fixed + total event_bytes es <= used_bytes (capture s) <= max_bytes (options (capture s)) /\
  0 <= fixed /\ max_bytes (options (capture s)) <= MAX u64.
Proof.
  intros [I1 I2] [_ [B1 B2]]. pose proof (total_nonneg _ _ I2).
  pose proof (op_fixed _ _ I1). pose proof (op_bytes _ _ I1). lia.
Qed.

Lemma evict_event_spec fixed s e es :
  history_base fixed s -> holds_history fixed s (e :: es) ->
  yields evict_event (fun _ s' => history_frame s s' /\ holds_history fixed s' es /\
                                  history_len (query s') = (history_len (query s) - 1)%nat /\
                                  q_cursor (query s') = q_cursor (query s)) s.
Proof.
  intros HB HH. pose proof (base_used _ _ _ HB HH) as Hu. destruct HH as [[Hr Hs Hg Hc] [B1 B2]].
  unfold evict_event. apply yields_bind. unfold yields at 1. cbn [get_store gets id].
  rewrite (ring_head _ _ _ _ _ _ Hr). unfold yields. cbn.
  cbn in B1, Hu. pose proof (text_cost_nonneg (event_record e)). unfold event_bytes at 1 in B1. unfold event_bytes at 1 in Hu.
  pose proof (total_nonneg _ _ (events_nonneg es)).
  split; [by split|]. split; [|done]. split.
  - apply StronglySorted_inv in Hs as [Hs _]. apply Forall_cons_1 in Hg as [_ Hg].
    split; cbn; try done. by apply ring_evict with (e := e).
  - split; cbn; rewrite wrapping_sub_small by lia; lia.
Qed.

Lemma next_cursor_spec fixed s es :
  holds_history fixed s es ->
  yields next_cursor (fun n s' => history_frame s s' /\ holds_history fixed s' es /\
    history_len (query s') = history_len (query s) /\
    (n = 0 /\ q_cursor (query s) = MAX u64 /\ q_cursor (query s') = MAX u64 /\ exhausted (capture s') = true \/
     n = q_cursor (query s) + 1 /\ 1 <= n <= MAX u64 /\ q_cursor (query s') = n)) s.
Proof.
  intros [[Hr Hs Hg Hc] HB]. unfold next_cursor. apply yields_bind. unfold yields at 1. cbn [get_store gets id].
  destruct (q_cursor (query s) =? MAX u64) eqn:He.
  - apply Z.eqb_eq in He. unfold yields. cbn. split; [by split|]. split; [split; [by split | exact HB]|]. split; [done|]. by left.
  - apply Z.eqb_neq in He. unfold yields. cbn. split; [by split|]. split; [|split; [done|right; lia]].
    split; [|done]. split; cbn; try done; [|lia].
    eapply Forall_impl; [|exact Hg]. cbn. lia.
Qed.

Lemma reserve_loop_spec fixed bytes fuel s es :
  history_base fixed s -> holds_history fixed s es -> 0 <= bytes -> (history_len (query s) <= fuel)%nat ->
  yields (reserve_loop fuel bytes) (fun ok s' => history_frame s s' /\ q_cursor (query s') = q_cursor (query s) /\
    exists n, history_len (query s') = (history_len (query s) - n)%nat /\
    history_ok (options (capture s')) (query s') (drop n es) /\
    used_bytes (capture s') <= max_bytes (options (capture s')) /\
    used_bytes (capture s') = fixed + total metadata_bytes (slots (capture s')) + total event_bytes (drop n es)
                              + (if ok then bytes else 0) /\
    (ok = false -> history_len (query s') = 0%nat /\ max_bytes (options (capture s')) < used_bytes (capture s') + bytes)) s.
Proof.
  intros HB HH Hb. revert s es HB HH. induction fuel as [|fuel IH]; intros s es HB HH Hlen;
    cbn [reserve_loop]; apply yields_bind; unfold yields at 1; cbn [get_store gets id];
    pose proof (base_used _ _ _ HB HH) as Hu; pose proof (total_nonneg _ _ (events_nonneg es)) as Htn;
    pose proof HH as [HO [B1 B2]];
    destruct (reserve (capture s) bytes) as [c'|] eqn:Hres.
  1,3: apply reserve_spec in Hres as [Hfit ->]; [|lia..]; unfold yields; cbn; (split; [by split|]);
       (split; [done|]); exists 0%nat; cbn; rewrite drop_0; (split; [lia|]); (split; [done|]); lia.
  all: apply reserve_refused in Hres; [|lia..].
  - destruct (history_len (query s) =? 0)%nat eqn:H0; [|lia]. unfold yields. cbn.
    split; [done|]. split; [done|]. exists 0%nat. rewrite drop_0. split; [lia|]. split; [done|]. lia.
  - destruct (history_len (query s) =? 0)%nat eqn:H0.
    + unfold yields. cbn. split; [done|]. split; [done|]. exists 0%nat. rewrite drop_0.
      split; [lia|]. split; [done|]. lia.
    + destruct es as [|e es].
      { destruct HO as [[_ Hn] _ _ _]. cbn in Hn. lia. }
      apply yields_bind. eapply yields_mono; [by apply evict_event_spec with (e := e) (es := es)|].
      intros _ s' (F & HH' & Hl' & Hc'). cbn beta.
      eapply yields_mono; [apply IH with (es := es)|].
      * by eapply base_frame.
      * done.
      * lia.
      * intros ok s'' (F' & Hc'' & n & Hn & Ho & Hu' & He'). split; [by etransitivity|]. split; [congruence|].
        exists (S n). cbn. split; [lia|]. done.
Qed.

(** An event of the channel enters the history under the next number, after the
    oldest events have made room for it.  It does not enter when the numbers are
    used up, or when its text does not fit beside the metadata even in an empty
    history. *)
Definition event_entered (s s' : Store) (metadata : DRecord) (st : CapturedState) (es es' : list Event) : Prop :=
  (q_cursor (query s) = MAX u64 /\ q_cursor (query s') = MAX u64 /\ exhausted (capture s') = true /\ es' = es) \/
  (q_cursor (query s') = q_cursor (query s) + 1 /\
   ((exists n, es' = drop n es ++ [mkEvent (q_cursor (query s) + 1) (apply_state st metadata)]) \/
    es' = [] /\ max_bytes (options (capture s')) < used_bytes (capture s') + text_cost metadata)).

Lemma history_push o f es e m cursor :
  history_ok o f es -> q_cursor f = cursor -> sequence e = cursor -> Forall (fun e => sequence e < cursor) es ->
  1 <= cursor -> m = Z.to_nat (max_events o) -> (history_len f < m)%nat ->
  history_ok o (set_history f (<[((history_head f + history_len f) mod m)%nat := Some e]> (q_history f))
                  (history_head f) (history_len f + 1)) (es ++ [e]).
Proof.
  intros [Hr Hs Hg Hc] Hcur Hseq Hlt H1 -> Hlen. split; cbn; try done.
  - by apply ring_push.
  - apply StronglySorted_app_2; [|done|by repeat constructor].
    intros x y Hx ->%list_elem_of_singleton. rewrite Hseq. rewrite list.Forall_forall in Hlt. by apply Hlt.
  - apply Forall_app. split; [done|]. apply Forall_singleton. lia.
Qed.

(** Room in the ring: one event leaves a full one. *)
Lemma make_room_spec fixed s es :
  history_base fixed s -> holds_history fixed s es ->
  yields (if Z.of_nat (history_len (query s)) =? max_events (options (capture s)) then evict_event else ret ())
    (fun _ s' => history_frame s s' /\ q_cursor (query s') = q_cursor (query s) /\
       (exists n, holds_history fixed s' (drop n es)) /\
       (history_len (query s') < Z.to_nat (max_events (options (capture s))))%nat) s.
Proof.
  intros HB HH. pose proof HH as [[Hring _ _ _] _].
  pose proof (ri_fits _ _ _ _ _ Hring). pose proof (ri_len _ _ _ _ _ Hring).
  assert (1 <= max_events (options (capture s))) as Hm by (destruct HB as [I1 _]; apply (op_events _ _ I1)).
  destruct (Z.of_nat (history_len (query s)) =? max_events (options (capture s))) eqn:Hfull.
  - destruct es as [|e es]; [cbn in *; lia|].
    eapply yields_mono; [by apply evict_event_spec with (e := e)|].
    intros _ s' (F & H2 & Hl & Hc). split; [done|]. split; [done|]. split; [by exists 1%nat | lia].
  - unfold yields. cbn. split; [done|]. split; [done|]. split; [by exists 0%nat; rewrite drop_0 | lia].
Qed.

Lemma publish_event_spec fixed s es metadata st :
  history_base fixed s -> holds_history fixed s es ->
  yields (publish_event metadata st) (fun _ s' => history_frame s s' /\
    exists es', holds_history fixed s' es' /\ event_entered s s' metadata st es es') s.
Proof.
  intros HB HH. unfold publish_event. apply yields_bind.
  eapply yields_mono; [by apply next_cursor_spec|]. intros sequence s1 (F1 & H1 & L1 & Hcase). cbn beta.
  destruct Hcase as [(-> & Hm & Hm' & Hx)|(-> & Hr & Hcur)].
  { cbn. split; [done|]. exists es. split; [done|]. by left. }
  destruct (q_cursor (query s) + 1 =? 0) eqn:Hz; [lia|]. clear Hz.
  apply yields_bind. unfold yields at 1. cbn [get_store gets id].
  pose proof (base_frame _ _ _ HB F1) as HB1.
  apply yields_bind. eapply yields_mono; [by apply make_room_spec|].
  intros _ s2 (F2 & Hc2 & (n1 & H2) & Hl2). cbn beta.
  apply yields_bind. unfold yields at 1. cbn [get_store gets id].
  pose proof (base_frame _ _ _ HB1 F2) as HB2.
  apply yields_bind. eapply yields_mono; [apply reserve_loop_spec; [exact HB2 | exact H2 | apply text_cost_nonneg | done]|].
  intros ok s3 (F3 & Hc3 & n & Hl3 & HO & Hu & Hex & Hno). cbn beta. rewrite drop_drop in HO, Hex.
  assert (history_frame s s3) as F by (etransitivity; [exact F1|]; etransitivity; [exact F2 | exact F3]).
  destruct ok; cbn [negb].
  - apply yields_bind. unfold yields at 1. cbn [get_store gets id].
    assert (max_events (options (capture s3)) = max_events (options (capture s1))) as Hme
      by (by rewrite (hf_options _ _ F3), (hf_options _ _ F2)).
    rewrite Hme. pose proof (ri_length _ _ _ _ _ (hi_ring _ _ _ HO)) as Hlen. rewrite Hme in Hlen.
    case_if; [pose proof (ring_index_lt (history_head (query s3)) (history_len (query s3))
                            (Z.to_nat (max_events (options (capture s1))))
                            ltac:(pose proof (ri_head _ _ _ _ _ (hi_ring _ _ _ HO)); lia)); lia|].
    unfold yields. cbn. split; [etransitivity; [exact F | by split]|].
    eexists. split; [split|right; split; [cbn; congruence | left; eexists; reflexivity]]; cbn.
    + apply history_push with (cursor := q_cursor (query s) + 1); try done; try (cbn; lia); try congruence.
      destruct HH as [[_ _ Hg _] _].
      apply Forall_drop. eapply Forall_impl; [|exact Hg]. cbn. lia.
    + split; [|lia]. rewrite total_app. cbn. unfold event_bytes at 2. unfold text_cost in *. cbn in *. lia.
  - unfold yields. cbn. split; [done|]. destruct (Hno eq_refl) as [H0 Hmax].
    assert (drop (n1 + n) es = []) as Hnil.
    { apply length_zero_iff_nil. rewrite (ri_len _ _ _ _ _ (hi_ring _ _ _ HO)). exact H0. }
    rewrite Hnil in HO, Hex. exists []. split; [split; [done | split; lia]|].
    right. split; [congruence|]. right. split; [done | lia].
Qed.

(** ** The index *)

(** Where an id belongs in a sorted index. *)
Definition position (idx : list IndexEntry) (id : Z) (k : nat) : Prop :=
  (k <= length idx)%nat /\
  (forall j e, idx !! j = Some e -> (j < k)%nat -> ix_id e < id) /\
  (forall j e, idx !! j = Some e -> (k <= j)%nat -> id <= ix_id e).

Lemma sorted_lookup idx i j a b :
  StronglySorted index_lt idx -> idx !! i = Some a -> idx !! j = Some b -> (i < j)%nat -> ix_id a < ix_id b.
Proof.
  intros Hs Hi Hj Hlt. rewrite <- (take_drop (S i) idx) in Hs, Hj.
  assert (a ∈ take (S i) idx) as Ha.
  { apply list_elem_of_lookup. exists i. by rewrite lookup_take_lt by lia. }
  assert (b ∈ drop (S i) idx) as Hb.
  { apply list_elem_of_lookup. exists (j - S i)%nat. rewrite lookup_drop.
    rewrite take_drop in Hj. by replace (S i + (j - S i))%nat with j by lia. }
  exact (StronglySorted_app_1_elem_of _ _ _ _ _ Hs Ha Hb).
Qed.

Lemma find_index_loop_spec idx id fuel first last :
  StronglySorted index_lt idx -> (first <= last <= length idx)%nat -> (last - first <= fuel)%nat ->
  (forall j e, idx !! j = Some e -> (j < first)%nat -> ix_id e < id) ->
  (forall j e, idx !! j = Some e -> (last <= j)%nat -> id <= ix_id e) ->
  position idx id (find_index_loop fuel idx id first last).
Proof.
  intros Hs. revert first last. induction fuel as [|fuel IH]; intros first last Hr Hf Hlo Hhi; cbn [find_index_loop].
  - assert (first = last) as -> by lia. split; [lia|]. done.
  - destruct (first <? last)%nat eqn:Hc; [|assert (first = last) as -> by lia; split; [lia|]; done].
    set (middle := (first + (last - first) / 2)%nat).
    assert ((last - first) / 2 < last - first)%nat by (apply Nat.div_lt; lia).
    assert (first <= middle < last)%nat as Hm by (unfold middle; lia).
    destruct (lookup_lt_is_Some_2 idx middle ltac:(lia)) as [e He]. rewrite He.
    destruct (ix_id e <? id) eqn:Hid; apply IH; try lia; try done.
    + intros j a Ha Hj. destruct (decide (j = middle)) as [->|]; [by assert (a = e) as -> by congruence; lia|].
      pose proof (sorted_lookup _ _ _ _ _ Hs Ha He ltac:(lia)). lia.
    + intros j a Ha Hj. destruct (decide (j = middle)) as [->|]; [assert (a = e) as -> by congruence; lia|].
      pose proof (sorted_lookup _ _ _ _ _ Hs He Ha ltac:(lia)). lia.
Qed.

Lemma find_index_spec f id : StronglySorted index_lt (q_index f) -> position (q_index f) id (find_index f id).
Proof.
  intros Hs. apply find_index_loop_spec; try done; [lia | lia | lia |].
  intros j e He Hj. apply lookup_lt_Some in He. lia.
Qed.

Lemma position_found idx id k e : StronglySorted index_lt idx -> position idx id k -> e ∈ idx -> ix_id e = id ->
  idx !! k = Some e.
Proof.
  intros Hs (Hk & Hlo & Hhi) He Hid. apply list_elem_of_lookup in He as [j Hj].
  destruct (decide (j = k)) as [->|Hne]; [done|].
  destruct (decide (j < k)%nat) as [Hlt|Hge]; [pose proof (Hlo j e Hj Hlt); lia|].
  pose proof (lookup_lt_Some _ _ _ Hj). destruct (lookup_lt_is_Some_2 idx k ltac:(lia)) as [a Ha].
  pose proof (sorted_lookup _ _ _ _ _ Hs Ha Hj ltac:(lia)). pose proof (Hhi k a Ha ltac:(lia)). lia.
Qed.

Lemma insert_at_elem {A} i (x y : A) l : y ∈ insert_at i x l <-> y = x \/ y ∈ l.
Proof.
  unfold insert_at. rewrite <- (take_drop i l) at 3. rewrite !elem_of_app, elem_of_cons. tauto.
Qed.

Lemma insert_at_sorted idx k x :
  StronglySorted index_lt idx -> position idx (ix_id x) k -> (forall e, e ∈ idx -> ix_id e <> ix_id x) ->
  StronglySorted index_lt (insert_at k x idx).
Proof.
  intros Hs (Hk & Hlo & Hhi) Hne. unfold insert_at. rewrite <- (take_drop k idx) in Hs.
  apply StronglySorted_app in Hs as (Hc & Hs1 & Hs2).
  assert (forall a, a ∈ take k idx -> index_lt a x) as Ht.
  { intros a Ha. apply list_elem_of_lookup in Ha as [j Hj]. apply lookup_take_Some in Hj as [Hj Hlt].
    by apply (Hlo j). }
  assert (forall b, b ∈ drop k idx -> index_lt x b) as Hd.
  { intros b Hb. pose proof (Hne b ltac:((rewrite <- (take_drop k idx); apply elem_of_app; by right))).
    apply list_elem_of_lookup in Hb as [j Hj]. rewrite lookup_drop in Hj.
    pose proof (Hhi _ _ Hj ltac:(lia)). unfold index_lt. lia. }
  apply StronglySorted_app_2; [|done|].
  - intros a b Ha Hb. apply elem_of_cons in Hb as [->|Hb]; auto.
  - constructor; [done|]. apply list.Forall_forall. auto.
Qed.

Lemma remove_at_elem idx k x : StronglySorted index_lt idx -> idx !! k = Some x ->
  forall e, e ∈ remove_at k idx <-> e ∈ idx /\ ix_id e <> ix_id x.
Proof.
  intros Hs Hx e. unfold remove_at. rewrite Nat.add_1_r.
  assert (e ∈ idx <-> e ∈ take k idx \/ e = x \/ e ∈ drop (S k) idx) as Hm.
  { rewrite <- (take_drop_middle idx k x Hx) at 1. by rewrite elem_of_app, elem_of_cons. }
  rewrite Hm, elem_of_app. pose proof Hs as Hs'. rewrite <- (take_drop_middle idx k x Hx) in Hs'.
  apply StronglySorted_app in Hs' as (Hc & _ & Hd). apply StronglySorted_inv in Hd as [_ Hd].
  rewrite list.Forall_forall in Hd.
  split; [|intros [[?|[->|?]] ?]; [by left | done | by right]].
  intros [He|He].
  - split; [by left|]. pose proof (Hc e x He ltac:(apply elem_of_cons; by left)). unfold index_lt in *. lia.
  - split; [by right; right|]. pose proof (Hd e He). unfold index_lt in *. lia.
Qed.

Lemma remove_at_sorted idx k : StronglySorted index_lt idx -> StronglySorted index_lt (remove_at k idx).
Proof.
  intros Hs. unfold remove_at. rewrite <- (take_drop k idx) in Hs.
  apply StronglySorted_app in Hs as (Hc & Hs1 & Hs2).
  assert (forall x, x ∈ drop (k + 1) idx -> x ∈ drop k idx) as Hsub.
  { intros x. rewrite <- drop_drop. intros Hx. rewrite <- (take_drop 1 (drop k idx)). apply elem_of_app. by right. }
  apply StronglySorted_app_2; [auto | done |].
  rewrite <- drop_drop. rewrite <- (take_drop 1 (drop k idx)) in Hs2.
  by apply StronglySorted_app in Hs2 as (_ & _ & ?).
Qed.

(** ** Copies *)

Lemma recapture v r : apply_state (captured_state v) r = v -> apply_state (captured_state r) v = r.
Proof. destruct v, r. unfold apply_state, captured_state. cbn. intros [=]. by subst. Qed.

Lemma copy_self ex s : occupied s = true -> copy_of ex (record s) s.
Proof. intros Ho. split; try done; [by destruct (record s) | by right]. Qed.

Lemma copies_update sl ex recs idx i s v :
  copies_ok sl ex recs idx -> sl !! i = Some s -> occupied s = true -> recs !! i = Some (Some v) ->
  copies_ok sl ex (<[i := Some (record s)]> recs) idx.
Proof.
  intros [Hl Hc Hx Hs] Hlk Ho Hv. pose proof (lookup_lt_Some _ _ _ Hv) as Hlt.
  destruct (Hc i v Hv) as (t & Ht & Hco). assert (t = s) as -> by congruence.
  split; [by rewrite length_insert | | | done].
  - intros j w Hj. apply list_lookup_insert_Some in Hj as [(<- & [= <-] & _)|[_ Hj]]; [|by apply Hc].
    exists s. split; [done | by apply copy_self].
  - intros e. rewrite Hx. split; intros (w & Hw & He).
    + destruct (decide (i = ix_slot e)) as [->|Hne].
      * rewrite list_lookup_insert_eq by done. exists (record s). split; [done|].
        assert (w = v) as -> by congruence. by rewrite He, (co_id _ _ _ Hco).
      * exists w. by rewrite list_lookup_insert_ne by done.
    + apply list_lookup_insert_Some in Hw as [(Hi & [= <-] & _)|[_ Hw]]; [|by exists w].
      exists v. rewrite <- Hi. split; [done|]. by rewrite He, (co_id _ _ _ Hco).
Qed.

Lemma copies_add o sl reg act ex recs idx i s k :
  copies_ok sl ex recs idx -> slots_ok o sl reg act ex -> sl !! i = Some s -> occupied s = true ->
  recs !! i = Some None -> position idx (r_id (record s)) k ->
  copies_ok sl ex (<[i := Some (record s)]> recs) (insert_at k (mkIndex (r_id (record s)) i) idx).
Proof.
  intros [Hl Hc Hx Hs] Hsl Hlk Ho Hv Hpos. pose proof (lookup_lt_Some _ _ _ Hv) as Hlt.
  split; [by rewrite length_insert | | |].
  - intros j w Hj. apply list_lookup_insert_Some in Hj as [(<- & [= <-] & _)|[_ Hj]]; [|by apply Hc].
    exists s. split; [done | by apply copy_self].
  - intros e. rewrite insert_at_elem, Hx. split.
    + intros [->|(w & Hw & He)].
      * exists (record s). cbn. by rewrite list_lookup_insert_eq.
      * exists w. rewrite list_lookup_insert_ne; [done|]. intros Hi. rewrite <- Hi in Hw. congruence.
    + intros (w & Hw & He). apply list_lookup_insert_Some in Hw as [(Hi & [= <-] & _)|[_ Hw]]; [left | right; by exists w].
      destruct e as [x y]. cbn in *. by subst.
  - apply insert_at_sorted; [done | done |]. intros e He. cbn. apply Hx in He as (w & Hw & ->).
    destruct (Hc _ _ Hw) as (t & Ht & Hco). rewrite (co_id _ _ _ Hco). intros Heq.
    assert (ix_slot e = i) as Hi by (eapply (so_ids _ _ _ _ _ Hsl); try done; apply (co_occupied _ _ _ Hco)).
    rewrite Hi in Hw. congruence.
Qed.

(** What updating copies leaves alone. *)
Definition copies_frame (s s' : Store) : Prop :=
  capture s' = capture s /\ others s' = others s /\
  exists recs idx, query s' = mkQuery recs idx (q_scan (query s)) (q_pending (query s)) (q_history (query s))
    (history_head (query s)) (history_len (query s)) (q_cursor (query s)) (seen_dropped (query s)) (q_next_id (query s)).

Lemma history_same o f f' es :
  q_history f' = q_history f -> history_head f' = history_head f -> history_len f' = history_len f ->
  q_cursor f' = q_cursor f -> history_ok o f es -> history_ok o f' es.
Proof. intros H1 H2 H3 H4 [Hr Hs Hg Hc]. split; rewrite ?H1, ?H2, ?H3, ?H4; done. Qed.

Lemma update_record_spec fixed s i t :
  Inv fixed s -> slots (capture s) !! i = Some t -> occupied t = true ->
  yields (update_record i (record t)) (fun _ s' => Inv fixed s' /\ copies_frame s s' /\
    (exists v, q_records (query s') !! i = Some (Some v) /\ r_version v = r_version (record t)) /\
    (forall j, j <> i -> q_records (query s') !! j = q_records (query s) !! j)) s.
Proof.
  intros HI Hlk Ho. pose proof HI as (I1 & I2 & I3 & I4 & I5 & I6 & I7 & es & I8 & I9).
  pose proof (lookup_lt_Some _ _ _ Hlk) as Hlt. rewrite <- (cp_length _ _ _ _ I5) in Hlt.
  unfold update_record. apply yields_bind. unfold yields at 1. cbn [get_store gets id].
  destruct (lookup_lt_is_Some_2 _ _ Hlt) as [[v|] Hv]; rewrite Hv.
  - destruct (cp_copy _ _ _ _ I5 i v Hv) as (t' & Ht' & Hco). assert (t' = t) as -> by congruence.
    rewrite (co_id _ _ _ Hco), Z.eqb_refl. cbn [andb].
    destruct (r_version v <? r_version (record t)) eqn:Hver; unfold yields; cbn.
    + rewrite (recapture _ _ (co_identity _ _ _ Hco)).
      split; [|split; [split; [done|]; split; [done|]; eexists _, _; reflexivity |]].
      * refine (conj I1 (conj I2 (conj I3 (conj I4 (conj _ (conj I6 (conj I7 _)))))));
          [|exists es; split; [by eapply history_same; [..|exact I8] | exact I9]].
        by eapply copies_update.
      * split; [|intros j Hj; by rewrite list_lookup_insert_ne by done].
        exists (record t). by rewrite list_lookup_insert_eq.
    + split; [done|]. split; [split; [done|]; split; [done|]; destruct s as [c []]; eexists _, _; reflexivity|].
      split; [|done]. exists v. split; [done|]. pose proof (co_version _ _ _ Hco). lia.
  - unfold yields; cbn. split; [|split; [split; [done|]; split; [done|]; eexists _, _; reflexivity |]].
    + refine (conj I1 (conj I2 (conj I3 (conj I4 (conj _ (conj I6 (conj I7 _)))))));
          [|exists es; split; [by eapply history_same; [..|exact I8] | exact I9]].
      cbn. eapply copies_add; try done. apply find_index_spec. cbn. apply (cp_sorted _ _ _ _ I5).
    + split; [|intros j Hj; by rewrite list_lookup_insert_ne by done].
      exists (record t). by rewrite list_lookup_insert_eq.
Qed.

(** ** Draining *)

Lemma copies_same_record sl ex recs idx i s s' :
  copies_ok sl ex recs idx -> sl !! i = Some s -> occupied s' = occupied s -> record s' = record s ->
  copies_ok (<[i := s']> sl) ex recs idx.
Proof.
  intros [Hl Hc Hx Hs] Hlk Ho Hr. split; try done; [by rewrite length_insert|].
  intros j v Hj. destruct (Hc j v Hj) as (t & Ht & Hco). destruct (decide (i = j)) as [<-|Hne].
  - exists s'. rewrite list_lookup_insert_eq by (by eapply lookup_lt_Some). split; [done|].
    assert (t = s) as -> by congruence. destruct Hco. split; rewrite ?Hr; try done. congruence.
  - exists t. by rewrite list_lookup_insert_ne by done.
Qed.

(** The oldest event is drained: what is left of its slot is later. *)
Lemma channel_drain sl e evs i s s' :
  channel_ok sl (e :: evs) -> ev_slot e = i -> sl !! i = Some s -> occupied s' = occupied s -> generation s' = generation s ->
  record s' = record s -> last_queued s' = last_queued s -> last_drained s' = s_version (ev_state e) ->
  channel_ok (<[i := s']> sl) evs.
Proof.
  intros [Hf Ho Hc] <- Hlk H1 H2 H3 H4 H5. pose proof (lookup_lt_Some _ _ _ Hlk) as Hlt.
  apply StronglySorted_inv in Ho as [Ho Hlater]. rewrite list.Forall_forall in Hlater.
  destruct (Hf e ltac:(apply elem_of_cons; by left)) as (t & Ht & F1 & F2 & F3 & F4).
  assert (t = s) as -> by congruence.
  split; [|done|].
  - intros e' He'. destruct (Hf e' ltac:(apply elem_of_cons; by right)) as (t & Ht' & G1 & G2 & G3 & G4).
    destruct (decide (ev_slot e = ev_slot e')) as [Heq|Hne].
    + exists s'. rewrite Heq in *. rewrite list_lookup_insert_eq by done. assert (t = s) as -> by congruence.
      split; [done|]. unfold fresh_for. rewrite H1, H2, H3, H4, H5. pose proof (Hlater e' He' Heq).
      repeat split; try done; lia.
    + exists t. by rewrite list_lookup_insert_ne by done.
  - intros j t Hj Hot Hd. apply list_lookup_insert_Some in Hj as [(<- & <- & _)|[Hne Hj]].
    + destruct (Hc (ev_slot e) s Hlk ltac:(congruence) ltac:(lia)) as (e' & He' & Hs' & Hv').
      apply elem_of_cons in He' as [->|He']; [lia|]. exists e'. split; [done|]. by rewrite H4.
    + destruct (Hc j t Hj Hot Hd) as (e' & He' & Hs' & Hv').
      apply elem_of_cons in He' as [->|He']; [done|]. by exists e'.
Qed.

Lemma inv_pending fixed s e : Inv fixed s -> q_pending (query s) = Some e ->
  exists t, slots (capture s) !! ev_slot e = Some t /\ fresh_for t e.
Proof.
  intros (_ & _ & _ & [Hf _ _] & _) Hp. apply Hf. unfold waiting_events. rewrite Hp.
  apply elem_of_app. left. by apply list_elem_of_singleton.
Qed.

(** Finishing the pending event. *)
Definition drained (s : Store) (i : nat) (t : SlotFields) (next : Z) : Store :=
  mkStore (set_slot (capture s) i t) (set_pending (set_next_id (query s) next) None) (others s).

Lemma inv_drained fixed s e t next :
  Inv fixed s -> q_pending (query s) = Some e -> slots (capture s) !! ev_slot e = Some t -> fresh_for t e ->
  q_next_id (query s) <= next <= next_id (registration (capture s)) ->
  Inv fixed (drained s (ev_slot e) (with_last_drained t (s_version (ev_state e))) next).
Proof.
  intros (I1 & I2 & I3 & I4 & I5 & I6 & I7 & es & I8 & I9) Hp Hlk (F1 & F2 & F3 & F4) Hn.
  set (t' := with_last_drained t (s_version (ev_state e))).
  pose proof (so_slot _ _ _ _ _ I2 _ t Hlk) as Hok.
  assert (slot_ok (options (capture s)) (next_id (registration (capture s))) t') as Hok'
    by (unfold slot_ok in *; cbn; rewrite F1 in *; lia).
  unfold Inv, waiting_events in *. rewrite Hp in I4. cbn in *.
  split; [done|]. split.
  { pose proof (slots_insert _ _ _ _ _ (exhausted (capture s)) _ t t' I2 (fun H => H) Hlk eq_refl Hok' (fun _ => eq_refl)) as H.
    assert (live t' = live t) as Hl by done. rewrite Hl in H.
    replace (active (capture s) - live t + live t) with (active (capture s)) in H by lia.
    apply H. apply (so_bound _ _ _ _ _ I2). }
  split; [done|]. split; [by eapply channel_drain|]. split; [by eapply copies_same_record|].
  split; [done|]. split; [lia|]. exists es. split; [by eapply history_same; [..|exact I8]|].
  by eapply budget_insert.
Qed.

(** The collector changes no record: it gives back slots of closed records. *)
Definition collected (s s' : Store) : Prop :=
  forall i t, slots (capture s) !! i = Some t -> exists t', slots (capture s') !! i = Some t' /\
    generation t' = generation t /\
    (occupied t' = occupied t /\ record t' = record t \/
     occupied t = true /\ r_terminal (record t) = true /\ occupied t' = false).

Lemma collected_same s s' : slots (capture s') = slots (capture s) -> collected s s'.
Proof. intros H i t Hi. exists t. rewrite H. auto. Qed.

#[export] Instance collected_trans : Transitive collected.
Proof.
  intros s1 s2 s3 H12 H23 i t Hi. destruct (H12 i t Hi) as (t2 & H2 & Hg & Hc). destruct (H23 i t2 H2) as (t3 & H3 & Hg' & Hc').
  exists t3. split; [done|]. split; [congruence|]. destruct Hc as [[]|(?&?&?)], Hc' as [[]|(?&?&?)]; [left | right | right |];
    repeat split; congruence.
Qed.

(** Draining: the event enters the history, the copy of its record is current,
    and the rest of the store is as it was.  The event is never stale. *)
Lemma drain_pending_spec fixed s e t es :
  Inv fixed s -> q_pending (query s) = Some e -> slots (capture s) !! ev_slot e = Some t -> holds_history fixed s es ->
  yields drain_pending (fun _ s' => Inv fixed s' /\ q_pending (query s') = None /\
    pending_queue (capture s') = pending_queue (capture s) /\ others s' = others s /\
    registration (capture s') = registration (capture s) /\ options (capture s') = options (capture s) /\
    q_scan (query s') = q_scan (query s) /\
    collected s s' /\ (exhausted (capture s) = true -> exhausted (capture s') = true) /\
    exists es', holds_history fixed s' es' /\ event_entered s s' (record t) (ev_state e) es es') s.
Proof.
  intros HI Hp Hlk HH. assert (fresh_for t e) as Hfr
    by (destruct (inv_pending _ _ _ HI Hp) as (t' & Hlk' & ?); by assert (t' = t) as -> by congruence).
  pose proof Hfr as (F1 & F2 & F3 & F4).
  unfold drain_pending. apply yields_bind. unfold yields at 1. cbn [get_store gets id]. rewrite Hp.
  apply yields_bind. unfold yields at 1, on_capture, lock_slot. rewrite Hlk.
  rewrite F1, F2, Z.eqb_refl, (proj2 (Z.eqb_eq _ _) F3). cbn [negb orb].
  replace {| capture := capture s; query := query s; others := others s |} with s by (by destruct s).
  apply yields_bind. apply yields_bind.
  eapply yields_mono; [apply publish_event_spec; [by apply inv_base | exact HH]|].
  intros _ s1 (HF & es' & HH' & Hent). cbn beta. pose proof (inv_frame _ _ _ _ HI HF HH') as HI1.
  rewrite <- (hf_slots _ _ HF) in Hlk.
  apply yields_bind. eapply yields_mono; [by apply (update_record_spec fixed s1)|].
  intros _ s2 (HI2 & (Hc & Hct & recs & idx & Hq) & _). cbn beta. rewrite <- Hc in Hlk.
  destruct (last_drained t <? s_version (ev_state e)) eqn:Hd; [|lia].
  apply yields_bind. unfold yields at 1, on_capture, store_slot, modify.
  pose proof HI2 as (_ & J2 & _ & _ & _ & _ & J7 & _).
  pose proof (so_slot _ _ _ _ _ J2 _ t Hlk) as Hok. unfold slot_ok in Hok. rewrite F1 in Hok.
  assert (q_pending (query s2) = Some e) as Hp2 by (by rewrite Hq; cbn; rewrite (hf_pending _ _ HF)).
  assert (capture s2 = capture s1) as Hcc by done.
  pose proof (inv_drained fixed s2 e t
    (if q_next_id (query s2) <=? r_id (record t) then r_id (record t) + 1 else q_next_id (query s2))
    HI2 Hp2 Hlk Hfr ltac:(case_if; lia)) as HI3.
  unfold yields, modify_query, modify. cbn.
  match goal with |- Inv fixed ?s3 /\ _ => assert (s3 = drained s2 (ev_slot e) (with_last_drained t (s_version (ev_state e)))
    (if q_next_id (query s2) <=? r_id (record t) then r_id (record t) + 1 else q_next_id (query s2))) as -> end.
  { unfold drained. f_equal. case_if; destruct (query s2); done. }
  split; [exact HI3|].
  assert (forall n, holds_history fixed (drained s2 (ev_slot e) (with_last_drained t (s_version (ev_state e))) n) es') as HH3.
  { intros n. destruct HH' as [O B]. rewrite <- Hcc in O, B. split.
    - eapply history_same; [..|exact O]; cbn; by rewrite Hq.
    - by eapply budget_insert. }
  assert (forall n, collected s (drained s2 (ev_slot e) (with_last_drained t (s_version (ev_state e))) n)) as HCd.
  { intros n i u Hu. assert (slots (capture s2) = slots (capture s)) as Hsl by (rewrite Hcc; apply (hf_slots _ _ HF)).
    rewrite <- Hsl in Hu. unfold drained, set_slot. simpl. destruct (decide (ev_slot e = i)) as [<-|Hne].
    - exists (with_last_drained t (s_version (ev_state e))). split; [|assert (u = t) as -> by congruence; auto].
      apply list_lookup_insert_eq. by eapply lookup_lt_Some.
    - exists u. rewrite list_lookup_insert_ne by done. auto. }
  case_if; cbn; (split; [done|]); (split; [by rewrite Hcc, (hf_queue _ _ HF)|]);
    (split; [by rewrite Hct, (hf_others _ _ HF)|]); (split; [by rewrite Hcc, (hf_registration _ _ HF)|]);
    (split; [by rewrite Hcc, (hf_options _ _ HF)|]); (split; [by rewrite Hq; cbn; rewrite (hf_scan _ _ HF)|]);
    (split; [apply HCd|]); (split; [intros Hx; rewrite Hcc; by apply (hf_exhausted _ _ HF)|]);
    exists es'; (split; [apply HH3|]); unfold event_entered in *; cbn; rewrite Hcc, Hq; exact Hent.
Qed.

(** ** The other critical sections *)

Lemma scan_registration_spec fixed s :
  Inv fixed s ->
  yields scan_registration (fun _ s' => Inv fixed s' /\ capture s' = capture s /\
    q_scan (query s') = occupied_slots (registration (capture s)) /\ q_pending (query s') = q_pending (query s) /\
    others s' = others s) s.
Proof.
  intros (I1 & I2 & I3 & I4 & I5 & I6 & I7 & es & I8 & I9). unfold yields. cbn.
  split; [|done]. refine (conj I1 (conj I2 (conj I3 (conj I4 (conj I5 (conj _ (conj _ _))))))); cbn.
  - apply list.Forall_forall. intros i Hi. apply (so_inside _ _ _ _ _ I2). apply elem_of_app. by right.
  - pose proof (so_next _ _ _ _ _ I2). lia.
  - exists es. split; [by eapply history_same; [..|exact I8] | done].
Qed.

(** The channel moves into the pending event. *)
Lemma receive_spec fixed s :
  Inv fixed s ->
  yields receive (fun more s' => Inv fixed s' /\ others s' = others s /\
    registration (capture s') = registration (capture s) /\ options (capture s') = options (capture s) /\
    slots (capture s') = slots (capture s) /\ exhausted (capture s') = exhausted (capture s) /\
    q_scan (query s') = q_scan (query s) /\ waiting_events s' = waiting_events s /\
    if more then is_Some (q_pending (query s')) else s' = s /\ waiting_events s = []) s.
Proof.
  intros HI. unfold receive. apply yields_bind. unfold yields at 1. cbn [get_store gets id].
  destruct (q_pending (query s)) as [e|] eqn:Hp.
  { unfold yields. cbn. rewrite Hp. repeat (split; [done|]). by eexists. }
  unfold try_recv. destruct (pending_queue (capture s)) as [|e rest] eqn:Hq.
  { unfold yields. cbn. assert (waiting_events s = []) as Hw by (unfold waiting_events; by rewrite Hp, Hq).
    repeat (split; [done|]). done. }
  unfold yields. cbn. destruct HI as (I1 & I2 & I3 & I4 & I5 & I6 & I7 & es & I8 & I9).
  unfold waiting_events in *. cbn. rewrite Hp, Hq in *. cbn in *.
  split; [|repeat (split; [done|]); by eexists].
  refine (conj I1 (conj I2 (conj _ (conj I4 (conj I5 (conj I6 (conj I7 _))))))); [cbn; lia|].
  exists es. split; [by eapply history_same; [..|exact I8] | done].
Qed.

Lemma note_dropped_spec fixed s :
  Inv fixed s ->
  yields note_dropped (fun _ s' => Inv fixed s' /\ slots (capture s') = slots (capture s) /\
    (exhausted (capture s) = true -> exhausted (capture s') = true) /\
    registration (capture s') = registration (capture s) /\ options (capture s') = options (capture s) /\
    q_scan (query s') = q_scan (query s) /\ waiting_events s' = waiting_events s /\
    others s' = others s) s.
Proof.
  intros HI. unfold note_dropped. apply yields_bind. unfold yields at 1. cbn [get_store gets id].
  destruct (dropped_events (capture s) =? seen_dropped (query s)); [unfold yields; cbn; by repeat (split; [done|])|].
  pose proof HI as (_ & _ & _ & _ & _ & _ & _ & es & HH).
  apply yields_bind. eapply yields_mono; [by apply next_cursor_spec|].
  intros n s' (HF & HH' & _ & _). cbn beta. pose proof (inv_frame _ _ _ _ HI HF HH') as HI'.
  unfold yields. cbn. split.
  - destruct HI' as (I1 & I2 & I3 & I4 & I5 & I6 & I7 & es' & I8 & I9).
    refine (conj I1 (conj I2 (conj I3 (conj I4 (conj I5 (conj I6 (conj I7 _))))))).
    exists es'. split; [by eapply history_same; [..|exact I8] | done].
  - rewrite (hf_slots _ _ HF), (hf_registration _ _ HF), (hf_options _ _ HF), (hf_scan _ _ HF).
    split; [done|]. split; [apply (hf_exhausted _ _ HF)|]. repeat (split; [done|]). split; [|apply (hf_others _ _ HF)].
    unfold waiting_events. cbn. by rewrite (hf_pending _ _ HF), (hf_queue _ _ HF).
Qed.

Lemma copies_frame_waiting s s' : copies_frame s s' -> waiting_events s' = waiting_events s.
Proof. intros (Hc & _ & r & i & Hq). unfold waiting_events. by rewrite Hc, Hq. Qed.

Lemma scan_slot_spec fixed s i :
  Inv fixed s -> (i < capacity (options (capture s)))%nat ->
  yields (scan_slot i) (fun _ s' => Inv fixed s' /\ copies_frame s s' /\
    (forall t, slots (capture s) !! i = Some t -> occupied t = true ->
       exists v, q_records (query s') !! i = Some (Some v) /\ r_version v = r_version (record t)) /\
    (forall j, j <> i -> q_records (query s') !! j = q_records (query s) !! j)) s.
Proof.
  intros HI Hi. pose proof HI as (_ & I2 & _). rewrite <- (so_length _ _ _ _ _ I2) in Hi.
  destruct (lookup_lt_is_Some_2 _ _ Hi) as [t Hlk].
  unfold scan_slot. apply yields_bind. unfold yields at 1, on_capture, lock_slot. rewrite Hlk.
  replace {| capture := capture s; query := query s; others := others s |} with s by (by destruct s).
  destruct (occupied t) eqn:Ho.
  - eapply yields_mono; [by apply (update_record_spec fixed s)|].
    intros _ s' (HI' & HF & Hv & Hj). cbn beta. repeat (split; [done|]). split; [|done].
    intros t' Ht' _. assert (t' = t) as -> by congruence. done.
  - unfold yields. cbn. split; [done|]. split; [|split; [|done]].
    + split; [done|]. split; [done|]. destruct s as [c []]. eexists _, _. reflexivity.
    + intros t' Ht' Ho'. congruence.
Qed.

(** ** Giving slots back *)

Lemma swap_remove_perm i l : i ∈ l -> l ≡ₚ i :: swap_remove i l.
Proof.
  intros Hi. unfold swap_remove.
  destruct (list_find_elem_of (eq i) l i Hi eq_refl) as [[j x] Hf]. rewrite Hf.
  apply list_find_Some in Hf as (Hj & <- & _).
  assert (exists y rest, pop_last l = Some (y, rest)) as (y & rest & Hp).
  { unfold pop_last. destruct (list.last l) eqn:Hl; [by eexists _, _|]. apply last_None in Hl. by subst. }
  rewrite Hp. apply pop_last_Some in Hp as ->.
  destruct (j <? length rest)%nat eqn:Hlt.
  - rewrite lookup_app_l in Hj by lia. pose proof (take_drop_middle rest j i Hj) as Hr.
    rewrite insert_take_drop by lia. rewrite <- Hr at 1. solve_Permutation.
  - pose proof (lookup_lt_Some _ _ _ Hj) as Hb. rewrite length_app in Hb. cbn in Hb.
    replace j with (length rest) in Hj by lia. rewrite list_lookup_middle in Hj by done. injection Hj as ->.
    solve_Permutation.
Qed.

(** The slot that is left behind. *)
Definition freed (t : SlotFields) : SlotFields :=
  mkSlot false (generation t) (last_queued t) (last_drained t) 0 empty_record.

Lemma slots_reclaim o sl reg act ex i t :
  slots_ok o sl reg act ex -> sl !! i = Some t -> occupied t = true -> r_terminal (record t) = true ->
  slots_ok o (<[i := freed t]> sl)
    (mkRegistration (free reg ++ [i]) (swap_remove i (occupied_slots reg)) (next_id reg)) act ex.
Proof.
  intros [Hl Hp1 Hp2 Hp3 Ho Hs Hi Ha Hb Hn] Hlk Hocc Ht.
  pose proof (proj1 (Ho i t Hlk) Hocc) as Hin. pose proof (swap_remove_perm _ _ Hin) as Hsw.
  assert ((free reg ++ [i]) ++ swap_remove i (occupied_slots reg) ≡ₚ free reg ++ occupied_slots reg) as Hperm.
  { rewrite <- app_assoc. cbn. by rewrite <- Hsw. }
  assert (i ∉ swap_remove i (occupied_slots reg)) as Hni.
  { apply list.NoDup_app in Hp1 as (_ & _ & Hnd). rewrite Hsw in Hnd. by apply list.NoDup_cons in Hnd as []. }
  assert (forall j u, <[i := freed t]> sl !! j = Some u -> occupied u = true -> j <> i /\ sl !! j = Some u) as Hold.
  { intros j u Hj Hu. apply list_lookup_insert_Some in Hj as [(<- & <- & _)|[Hne Hj]]; done. }
  split; cbn [free occupied_slots next_id].
  - by rewrite length_insert.
  - by rewrite Hperm.
  - intros j. rewrite Hperm. apply Hp2.
  - intros He. rewrite Hperm. auto.
  - intros j u Hj. apply list_lookup_insert_Some in Hj as [(<- & <- & _)|[Hne Hj]]; [by split|].
    assert (j ∈ occupied_slots reg <-> j = i \/ j ∈ swap_remove i (occupied_slots reg)) as Hj'
      by (rewrite Hsw at 1; apply elem_of_cons).
    rewrite (Ho j u Hj), Hj'. split; [intros [->|?]; done | tauto].
  - intros j u Hj. apply list_lookup_insert_Some in Hj as [(<- & <- & _)|[Hne Hj]]; [|by apply (Hs j)].
    pose proof (Hs i t Hlk) as Hok. unfold slot_ok in *. cbn. split; [lia | done].
  - intros j k u u' Hj Hk Hu Hu'. destruct (Hold _ _ Hj Hu), (Hold _ _ Hk Hu'). by eapply Hi.
  - rewrite (total_insert live _ _ _ (freed t) Hlk), Ha. unfold live at 3 4. rewrite Hocc, Ht. cbn. lia.
  - done.
  - done.
Qed.

Lemma channel_reclaim sl evs i t :
  channel_ok sl evs -> sl !! i = Some t -> last_queued t <= last_drained t -> channel_ok (<[i := freed t]> sl) evs.
Proof.
  intros [Hf Ho Hc] Hlk Hd. split; [|done|].
  - intros e He. destruct (Hf e He) as (u & Hu & Hfr). exists u. split; [|done].
    rewrite list_lookup_insert_ne; [done|]. intros Heq. rewrite <- Heq in Hu.
    assert (u = t) as -> by congruence. destruct Hfr as (_ & _ & _ & ?). lia.
  - intros j u Hj Hou Hl. apply list_lookup_insert_Some in Hj as [(<- & <- & _)|[_ Hj]]; [done | by apply (Hc j u)].
Qed.

Lemma copies_reclaim o sl reg act ex recs idx i t v k :
  copies_ok sl ex recs idx -> slots_ok o sl reg act ex -> sl !! i = Some t -> recs !! i = Some (Some v) ->
  position idx (r_id (record t)) k ->
  copies_ok (<[i := freed t]> sl) ex (<[i := None]> recs) (remove_at k idx).
Proof.
  intros [Hl Hc Hx Hs] Hsl Hlk Hv Hpos. pose proof (lookup_lt_Some _ _ _ Hv) as Hlt.
  destruct (Hc i v Hv) as (t' & Ht' & Hco). assert (t' = t) as -> by congruence.
  assert (mkIndex (r_id v) i ∈ idx) as Hin by (apply Hx; by exists v).
  pose proof (position_found _ _ _ _ Hs Hpos Hin ltac:(cbn; by rewrite (co_id _ _ _ Hco))) as Hk.
  split; [by rewrite !length_insert | | | by apply remove_at_sorted].
  - intros j w Hj. apply list_lookup_insert_Some in Hj as [(_ & ? & _)|[Hne Hj]]; [done|].
    destruct (Hc j w Hj) as (u & Hu & ?). exists u. by rewrite list_lookup_insert_ne by done.
  - intros e. rewrite (remove_at_elem _ _ _ Hs Hk), Hx. cbn. split.
    + intros [(w & Hw & He) Hne]. exists w. split; [|done]. rewrite list_lookup_insert_ne; [done|].
      intros Heq. rewrite <- Heq in Hw. congruence.
    + intros (w & Hw & He). apply list_lookup_insert_Some in Hw as [(_ & ? & _)|[Hne Hw]]; [done|].
      split; [by exists w|]. intros Heq. destruct (Hc _ _ Hw) as (u & Hu & Hcu).
      apply Hne. eapply (so_ids _ _ _ _ _ Hsl i (ix_slot e)); try done;
        [apply (co_occupied _ _ _ Hco) | apply (co_occupied _ _ _ Hcu) |].
      rewrite <- (co_id _ _ _ Hco), <- (co_id _ _ _ Hcu). congruence.
Qed.

(** The store after a slot has been given back. *)
Record reclaimed (i : nat) (t : SlotFields) (s s' : Store) : Prop := {
  rc_options : options (capture s') = options (capture s);
  rc_exhausted : exhausted (capture s') = exhausted (capture s);
  rc_waiting : waiting_events s' = waiting_events s;
  rc_slots : slots (capture s') = <[i := freed t]> (slots (capture s));
  rc_records : q_records (query s') = <[i := None]> (q_records (query s));
  rc_index : q_index (query s') = remove_at (find_index (query s) (r_id (record t))) (q_index (query s));
  rc_others : others s' = others s }.

Lemma reclaim_spec fixed s i t v :
  Inv fixed s -> slots (capture s) !! i = Some t -> q_records (query s) !! i = Some (Some v) ->
  r_terminal v = true -> last_queued t <= last_drained t ->
  yields (reclaim i) (fun _ s' => Inv fixed s' /\ reclaimed i t s s') s.
Proof.
  intros HI Hlk Hv Hterm Hd. pose proof (inv_used _ _ HI) as [Hu Hm].
  destruct HI as (I1 & I2 & I3 & I4 & I5 & I6 & I7 & es & I8 & I9).
  destruct (cp_copy _ _ _ _ I5 i v Hv) as (t' & Ht' & Hco). assert (t' = t) as -> by congruence.
  pose proof (co_occupied _ _ _ Hco) as Hocc. pose proof (co_terminal _ _ _ Hco Hterm) as Ht.
  pose proof (total_lookup _ _ _ _ (slots_text_nonneg _ _ _ _ _ I2) Hlk) as Htl.
  pose proof (total_nonneg _ _ (events_nonneg es)) as Hen.
  pose proof (so_slot _ _ _ _ _ I2 i t Hlk) as Hok. unfold slot_ok in Hok. rewrite Hocc in Hok.
  pose proof (text_cost_nonneg (record t)). unfold metadata_bytes at 1 in Htl.
  destruct I9 as [B1 B2]. pose proof (op_fixed _ _ I1).
  unfold reclaim. apply yields_bind. unfold yields at 1, on_capture, lock_slot. rewrite Hlk.
  unfold yields. simpl. unfold release. simpl. rewrite wrapping_mul_small, wrapping_sub_small by lia.
  split; [|by split].
  refine (conj I1 (conj _ (conj I3 (conj _ (conj _ (conj I6 (conj I7 _))))))).
  - by apply slots_reclaim.
  - by apply channel_reclaim.
  - eapply copies_reclaim; try done. apply find_index_spec, (cp_sorted _ _ _ _ I5).
  - exists es. split; [by eapply history_same; [..|exact I8]|].
    split; [|cbn; lia]. refine (_ : _ = fixed + total metadata_bytes (<[i := freed t]> (slots (capture s))) + total event_bytes es). 
    rewrite (total_insert metadata_bytes _ _ _ (freed t) Hlk).
    unfold metadata_bytes at 2 3. cbn. lia.
Qed.

(** ** Counting and selecting closed records *)

Definition closed_flag (f : QueryFields) (e : IndexEntry) : Z :=
  match copy_terminal f (ix_slot e) with Some true => 1 | _ => 0 end.

Definition closed_copies (f : QueryFields) : Z := total (closed_flag f) (q_index f).

Lemma inv_copy fixed s e : Inv fixed s -> e ∈ q_index (query s) ->
  exists v t, q_records (query s) !! ix_slot e = Some (Some v) /\ ix_id e = r_id v /\
              slots (capture s) !! ix_slot e = Some t /\ copy_of (exhausted (capture s)) v t.
Proof.
  intros (_ & _ & _ & _ & [Hl Hc Hx Hs] & _) He. apply Hx in He as (v & Hv & Hid).
  destruct (Hc _ _ Hv) as (t & Ht & Hco). by exists v, t.
Qed.

Lemma count_terminal_spec f idx :
  (forall e, e ∈ idx -> exists v, q_records f !! ix_slot e = Some (Some v)) ->
  count_terminal f idx = Some (total (closed_flag f) idx).
Proof.
  induction idx as [|e idx IH]; intros Hc; [done|]. cbn [count_terminal].
  rewrite IH by (intros; apply Hc, elem_of_cons; by right).
  destruct (Hc e ltac:(apply elem_of_cons; by left)) as [v Hv].
  cbn [total]. unfold closed_flag at 2, copy_terminal. rewrite Hv. by destruct (r_terminal v).
Qed.

Lemma closed_copies_bound f : 0 <= closed_copies f <= Z.of_nat (length (q_index f)).
Proof.
  unfold closed_copies. generalize (q_index f). intros idx. induction idx as [|e idx IH]; cbn [total length]; [lia|].
  unfold closed_flag at 1 3. destruct (copy_terminal f (ix_slot e)) as [[]|]; lia.
Qed.

(** What [select_closed] finds. *)
Definition drained_closed (s : Store) (i : nat) : Prop :=
  exists t v, slots (capture s) !! i = Some t /\ q_records (query s) !! i = Some (Some v) /\
              r_terminal v = true /\ last_queued t <= last_drained t.

Lemma total_ext {A} (g h : A -> Z) l : (forall x, x ∈ l -> g x = h x) -> total g l = total h l.
Proof.
  induction l as [|x l IH]; intros Hx; cbn [total]; [done|].
  rewrite (Hx x), IH; [done | intros; apply Hx | ]; apply elem_of_cons; auto.
Qed.

Lemma total_positive {A} (g : A -> Z) l : 0 < total g l -> exists x, x ∈ l /\ 0 < g x.
Proof.
  induction l as [|x l IH]; cbn [total]; [lia|]. intros Hp.
  destruct (decide (0 < g x)); [exists x; split; [apply elem_of_cons; by left | done]|].
  destruct IH as (y & Hy & ?); [lia|]. exists y. split; [apply elem_of_cons; by right | done].
Qed.

Lemma closed_reclaimed fixed s s' i t v :
  Inv fixed s -> reclaimed i t s s' -> slots (capture s) !! i = Some t ->
  q_records (query s) !! i = Some (Some v) -> r_terminal v = true ->
  closed_copies (query s') = closed_copies (query s) - 1.
Proof.
  intros HI HR Hlk Hv Hterm. pose proof HI as (_ & _ & _ & _ & I5 & _).
  destruct (cp_copy _ _ _ _ I5 i v Hv) as (t' & Ht' & Hco). assert (t' = t) as -> by congruence.
  assert (mkIndex (r_id v) i ∈ q_index (query s)) as Hin by (apply (cp_index _ _ _ _ I5); by exists v).
  pose proof (cp_sorted _ _ _ _ I5) as Hs.
  pose proof (position_found _ _ _ _ Hs (find_index_spec _ (r_id (record t)) Hs) Hin
                ltac:(cbn; by rewrite (co_id _ _ _ Hco))) as Hk.
  unfold closed_copies. rewrite (rc_index _ _ _ _ HR).
  rewrite (total_ext (closed_flag (query s')) (closed_flag (query s))).
  - rewrite <- (take_drop_middle _ _ _ Hk) at 2. unfold remove_at. rewrite !total_app, Nat.add_1_r. cbn [total].
    unfold closed_flag at 4, copy_terminal. cbn [ix_slot]. rewrite Hv, Hterm. lia.
  - intros e He. apply (remove_at_elem _ _ _ Hs Hk) in He as [He Hne]. cbn in Hne.
    unfold closed_flag, copy_terminal. rewrite (rc_records _ _ _ _ HR).
    rewrite list_lookup_insert_ne; [done|]. intros Heq.
    destruct (inv_copy _ _ _ HI He) as (w & _ & Hw & Hid & _). rewrite <- Heq in Hw. congruence.
Qed.

Lemma collected_reclaimed fixed s s' i t v :
  Inv fixed s -> reclaimed i t s s' -> slots (capture s) !! i = Some t ->
  q_records (query s) !! i = Some (Some v) -> r_terminal v = true -> collected s s'.
Proof.
  intros (_ & _ & _ & _ & I5 & _) HR Hlk Hv Hterm j u Hu.
  destruct (cp_copy _ _ _ _ I5 i v Hv) as (t' & Ht' & Hco). assert (t' = t) as -> by congruence.
  rewrite (rc_slots _ _ _ _ HR). destruct (decide (i = j)) as [<-|Hne].
  - assert (u = t) as -> by congruence. exists (freed t).
    rewrite list_lookup_insert_eq by (by eapply lookup_lt_Some). split; [done|]. split; [done|]. right.
    split; [apply (co_occupied _ _ _ Hco)|]. split; [by apply (co_terminal _ _ _ Hco) | done].
  - exists u. rewrite list_lookup_insert_ne by done. auto.
Qed.


(** ** Steps

    One critical section of a recorder or of the collector.  [refresh] may stop
    between two of its sections, and any number of recorders may run there. *)

Definition after {A} (m : StoreM A) (s : Store) : Store := snd (m s).

Inductive step (s : Store) : Store -> Prop :=
| step_act a : step s (after (modify_capture (act a)) s)
| step_others l : step s (mkStore (capture s) (query s) l)
| step_scan_registration : step s (after scan_registration s)
| step_receive : step s (after receive s)
| step_drain : is_Some (q_pending (query s)) -> step s (after drain_pending s)
| step_note_dropped : step s (after note_dropped s)
| step_scan_slot i : i ∈ q_scan (query s) -> step s (after (scan_slot i) s)
| step_reclaim i : drained_closed s i -> max_closed (options (capture s)) < closed_copies (query s) ->
    step s (after (reclaim i) s).

Definition reachable : Store -> Store -> Prop := rtc step.

Lemma yields_after {A} (m : StoreM A) Q s : yields m Q s -> exists a, m s = (Ret a, after m s) /\ Q a (after m s).
Proof. unfold yields, after. destruct (m s) as [[a| | |] s']; try done. intros H. by exists a. Qed.

Lemma yields_post {A} (m : StoreM A) Q s : yields m Q s -> exists a, Q a (after m s).
Proof. intros (a & _ & H)%yields_after. by exists a. Qed.

(** The result of a section is the state after it. *)
Lemma yields_with {A} (m : StoreM A) Q s : yields m Q s -> yields m (fun a s' => Q a s' /\ s' = after m s) s.
Proof. unfold yields, after. by destruct (m s) as [[a| | |] s']. Qed.

(** What every step leaves alone. *)
Record lasting (s s' : Store) : Prop := {
  la_options : options (capture s') = options (capture s);
  la_exhausted : exhausted (capture s) = true -> exhausted (capture s') = true }.

#[export] Instance lasting_refl : Reflexive lasting.
Proof. by split. Qed.

#[export] Instance lasting_trans : Transitive lasting.
Proof. intros s1 s2 s3 [] []. split; [congruence | auto]. Qed.

(** A slot in use stays in use for the same record, or is given back. *)
Definition step_keeps (fixed : Z) (s s' : Store) : Prop :=
  Inv fixed s' /\ lasting s s' /\
  (forall i t, slots (capture s) !! i = Some t -> occupied t = true ->
    (exists t', slots (capture s') !! i = Some t' /\ held (exhausted (capture s')) t t') \/
    (drained_closed s i /\ last_queued t <= last_drained t /\ slots (capture s') !! i = Some (freed t) /\
     s' = after (reclaim i) s)) /\
  (forall i t, slots (capture s) !! i = Some t -> occupied t = false ->
    exists t', slots (capture s') !! i = Some t' /\ reused t t').

Lemma keeps_slots fixed s s' :
  Inv fixed s' -> lasting s s' -> slots (capture s') = slots (capture s) -> step_keeps fixed s s'.
Proof.
  intros HI HL Hs. split; [done|]. split; [done|]. rewrite Hs. split; intros i t Hi Ho.
  - left. exists t. split; [done | by apply held_self].
  - exists t. by split; [|apply reused_self].
Qed.

(** Draining gives no slot back. *)
Lemma keeps_drain fixed s : Inv fixed s -> is_Some (q_pending (query s)) -> step_keeps fixed s (after drain_pending s).
Proof.
  intros HI [e He]. destruct (inv_pending _ _ _ HI He) as (u & Hu & _).
  pose proof HI as (_ & I2 & _ & _ & _ & _ & _ & es & HH).
  destruct (yields_post _ _ _ (drain_pending_spec fixed s e u es HI He Hu HH))
    as (a & HI' & _ & _ & _ & Hreg & Ho & _ & Hcol & Hx & _).
  split; [done|]. split; [by split|]. destruct HI' as (_ & I2' & _). split; intros i t Hi Ht;
    destruct (Hcol i t Hi) as (t' & Ht' & Hg & [[Ho' Hr]|(Ho1 & _ & Ho')]).
  - left. exists t'. split; [done|]. split; [congruence | done | by rewrite Hr].
  - exfalso. apply (so_occupied _ _ _ _ _ I2 i t Hi) in Ht. rewrite <- Hreg in Ht.
    apply (so_occupied _ _ _ _ _ I2' i t' Ht') in Ht. congruence.
  - exists t'. split; [done|]. unfold reused. by rewrite Ho', Ht.
  - congruence.
Qed.

Lemma keeps_reclaim fixed s j : Inv fixed s -> drained_closed s j -> step_keeps fixed s (after (reclaim j) s).
Proof.
  intros HI Hd. pose proof Hd as (u & v & Hu & Hv & Hterm & Hle).
  destruct (yields_post _ _ _ (reclaim_spec fixed s j u v HI Hu Hv Hterm Hle)) as (a & HI' & HR).
  split; [done|]. split; [split; [apply (rc_options _ _ _ _ HR) | by rewrite (rc_exhausted _ _ _ _ HR)]|].
  rewrite (rc_slots _ _ _ _ HR). split; intros i t Hi Ht; destruct (decide (j = i)) as [->|Hne].
  - right. assert (u = t) as -> by congruence. rewrite list_lookup_insert_eq by (by eapply lookup_lt_Some). done.
  - left. exists t. rewrite list_lookup_insert_ne by done. split; [done | by apply held_self].
  - assert (u = t) as -> by congruence. destruct HI as (_ & _ & _ & _ & I5 & _).
    destruct (cp_copy _ _ _ _ I5 i v Hv) as (x & Hx & Hco). assert (x = t) as -> by congruence.
    pose proof (co_occupied _ _ _ Hco). congruence.
  - exists t. rewrite list_lookup_insert_ne by done. by split; [|apply reused_self].
Qed.

Lemma step_spec fixed s s' : Inv fixed s -> step s s' -> step_keeps fixed s s'.
Proof.
  intros HI Hs. destruct Hs.
  - destruct s as [c f l]. destruct (act_spec fixed a c f l l HI) as [HI' [S1 S2 S3 S4]].
    split; [done|]. split; [done|]. split; [|exact S4]. intros i t Hi Ho. left.
    destruct (S3 i t Hi Ho) as (t' & Hi' & Hh & Ht). by exists t'.
  - by apply keeps_slots.
  - destruct (yields_post _ _ _ (scan_registration_spec fixed s HI)) as (a & HI' & Hc & _).
    apply keeps_slots; [done | by split; rewrite Hc | by rewrite Hc].
  - destruct (yields_post _ _ _ (receive_spec fixed s HI)) as (a & HI' & _ & _ & Ho & Hs & Hx & _).
    apply keeps_slots; [done | split; congruence | done].
  - by apply keeps_drain.
  - destruct (yields_post _ _ _ (note_dropped_spec fixed s HI)) as (a & HI' & Hs & Hx & _ & Ho & _).
    by apply keeps_slots.
  - assert (i < capacity (options (capture s)))%nat as Hcap.
    { destruct HI as (_ & _ & _ & _ & _ & I6 & _). rewrite list.Forall_forall in I6. by apply I6. }
    destruct (yields_post _ _ _ (scan_slot_spec fixed s i HI Hcap)) as (a & HI' & (Hc & _) & _).
    apply keeps_slots; [done | by split; rewrite Hc | by rewrite Hc].
  - by apply keeps_reclaim.
Qed.

(** Every step preserves the invariant. *)
Lemma step_inv fixed s s' : Inv fixed s -> step s s' -> Inv fixed s'.
Proof. intros HI Hs. apply (step_spec fixed s s' HI Hs). Qed.

Lemma reachable_inv fixed s s' : Inv fixed s -> reachable s s' -> Inv fixed s'.
Proof. intros HI Hr. induction Hr; eauto using step_inv. Qed.

Lemma reachable_lasting fixed s s' : Inv fixed s -> reachable s s' -> lasting s s'.
Proof.
  intros HI Hr. induction Hr as [s|s s1 s2 Hs Hr IH]; [done|].
  destruct (step_spec _ _ _ HI Hs) as (HI' & HL & _). etransitivity; [exact HL | by apply IH].
Qed.

Lemma held_trans ex ex' t1 t2 t3 :
  held ex t1 t2 -> (ex = true -> ex' = true) -> held ex' t2 t3 -> held ex' t1 t3.
Proof. intros [A1 A2 A3] Hx [B1 B2 B3]. split; [done | congruence | by eapply continued_trans]. Qed.

(** Somewhere between [s] and [s'] the collector gave slot [i] back, when the
    record of [t] was closed and no event of it was left. *)
Definition given_back (s : Store) (t : SlotFields) (i : nat) (s' : Store) : Prop :=
  exists mid u, reachable s mid /\ slots (capture mid) !! i = Some u /\ held (exhausted (capture mid)) t u /\
    r_terminal (record u) = true /\ drained_closed mid i /\ reachable (after (reclaim i) mid) s'.

Lemma given_back_later s t i s1 s2 : given_back s t i s1 -> reachable s1 s2 -> given_back s t i s2.
Proof. intros (mid & u & R & Hu & Hh & Ht & Hd & R') Hr. exists mid, u. repeat (split; [done|]). by etransitivity. Qed.

Lemma reachable_holds fixed s s' i t :
  Inv fixed s -> reachable s s' -> slots (capture s) !! i = Some t -> occupied t = true ->
  (exists t', slots (capture s') !! i = Some t' /\ held (exhausted (capture s')) t t') \/ given_back s t i s'.
Proof.
  intros HI Hr Hi Ho. revert s' Hr. apply rtc_ind_r.
  { left. exists t. split; [done | by apply held_self]. }
  intros mid s' Hr Hs IH. destruct IH as [(u & Hu & Hh)|Hg]; [|right; eapply given_back_later; [done | by apply rtc_once]].
  pose proof (reachable_inv _ _ _ HI Hr) as HIm. destruct (step_spec _ _ _ HIm Hs) as (HI' & HL & Hk & _).
  destruct (Hk i u Hu (hd_occupied _ _ _ Hh)) as [(t' & Ht' & Hh')|(Hd & Hle & _ & ->)].
  - left. exists t'. split; [done|]. eapply held_trans; [done | apply (la_exhausted _ _ HL) | done].
  - right. exists mid, u. do 3 (split; [done|]). split; [|split; [done | apply rtc_refl]].
    destruct Hd as (u' & v & Hu' & Hv & Hterm & _). destruct HIm as (_ & _ & _ & _ & I5 & _).
    destruct (cp_copy _ _ _ _ I5 i v Hv) as (x & Hx & Hco). assert (x = u) as -> by congruence.
    by apply (co_terminal _ _ _ Hco).
Qed.

(** Generations tell the records of a slot apart: one that was given back is
    not the one in use later. *)
Definition spent (g : Z) (i : nat) (s : Store) : Prop :=
  exists t, slots (capture s) !! i = Some t /\ if occupied t then g < generation t else g <= generation t.

Lemma spent_later fixed g i s s' : Inv fixed s -> reachable s s' -> spent g i s -> spent g i s'.
Proof.
  intros HI Hr. induction Hr as [s|s s1 s' Hs Hr IH]; [done|]. intros (t & Ht & Hg).
  destruct (step_spec _ _ _ HI Hs) as (HI1 & _ & K1 & K2). apply IH; [done|]. clear IH Hr.
  destruct (occupied t) eqn:Ho.
  - destruct (K1 i t Ht Ho) as [(t1 & Ht1 & [H1 H2 _])|(_ & _ & Ht1 & _)].
    + exists t1. rewrite H1. split; [done | lia].
    + exists (freed t). split; [done|]. cbn. lia.
  - destruct (K2 i t Ht Ho) as (t1 & Ht1 & Hr). exists t1. unfold reused in Hr.
    split; [done|]. destruct (occupied t1); lia.
Qed.

Lemma given_back_gone fixed s t i s' t' : Inv fixed s -> given_back s t i s' -> slots (capture s') !! i = Some t' ->
  occupied t' = true -> generation t < generation t'.
Proof.
  intros HI (mid & u & R & Hu & [_ Hg _] & _ & Hd & R') Ht' Ho.
  destruct (keeps_reclaim fixed mid i (reachable_inv _ _ _ HI R) Hd) as (HI1 & _).
  destruct (spent_later fixed (generation t) i _ _ HI1 R') as (x & Hx & Hlt).
  - destruct Hd as (u' & v & Hu' & Hv & Hterm & Hle). assert (u' = u) as -> by congruence.
    destruct (yields_post _ _ _ (reclaim_spec fixed mid i u v (reachable_inv _ _ _ HI R) Hu Hv Hterm Hle)) as (a & _ & HR).
    exists (freed u). rewrite (rc_slots _ _ _ _ HR), list_lookup_insert_eq by (by eapply lookup_lt_Some).
    split; [done|]. cbn. lia.
  - assert (x = t') as -> by congruence. by rewrite Ho in Hlt.
Qed.

(** ** Between the sections *)

(** No other thread does anything; no other thread holds a mutex. *)
Definition quiet (s : Store) : Prop := Forall (fun p => actions p = []) (others s).
Definition calm (s : Store) : Prop := Forall (fun p => taken p = false) (others s).
Definition unhindered (nonblocking : bool) (s : Store) : Prop := nonblocking = false \/ calm s.

(** From [s] to [s'] in steps; undisturbed, the collector only gives slots of
    closed records back. *)
Record went (s s' : Store) : Prop := {
  wt_reach : reachable s s';
  wt_quiet : quiet s -> quiet s' /\ collected s s';
  wt_calm : calm s -> calm s' }.

#[export] Instance went_refl : Reflexive went.
Proof. intros s. split; [apply rtc_refl | | done]. intros Hq. split; [done | by apply collected_same]. Qed.

#[export] Instance went_trans : Transitive went.
Proof.
  intros s1 s2 s3 [A1 A2 A3] [B1 B2 B3]. split; [by etransitivity | | auto].
  intros Hq. destruct (A2 Hq) as [Hq2 Hc]. destruct (B2 Hq2) as [Hq3 Hc']. split; [done | by etransitivity].
Qed.

Lemma went_section s s' : step s s' -> others s' = others s -> collected s s' -> went s s'.
Proof.
  intros Hs Ho Hc. split; [by apply rtc_once | |]; unfold quiet, calm; rewrite Ho; [by intros ? | done].
Qed.

Lemma went_unhindered nonblocking s s' : went s s' -> unhindered nonblocking s -> unhindered nonblocking s'.
Proof. intros Hw [?|?]; [by left | right; by apply (wt_calm _ _ Hw)]. Qed.

(** Other threads ran; the query side is as it was. *)
Record paused (fixed : Z) (s s' : Store) : Prop := {
  ps_inv : Inv fixed s';
  ps_went : went s s';
  ps_query : query s' = query s;
  ps_stirred : stirred (capture s) (capture s');
  ps_quiet : quiet s -> capture s' = capture s }.

Lemma paused_waiting fixed s s' : paused fixed s s' -> quiet s -> waiting_events s' = waiting_events s.
Proof. intros HP Hq. unfold waiting_events. by rewrite (ps_query _ _ _ HP), (ps_quiet _ _ _ HP Hq). Qed.

Lemma paused_refl fixed s : Inv fixed s -> paused fixed s s.
Proof. by split. Qed.

Lemma paused_trans fixed s1 s2 s3 : paused fixed s1 s2 -> paused fixed s2 s3 -> paused fixed s1 s3.
Proof.
  intros [A1 A2 A3 A4 A5] [B1 B2 B3 B4 B5]. split; [done | by etransitivity | congruence | by etransitivity |].
  intros Hq. rewrite B5, A5; [done | done | by apply (wt_quiet _ _ A2)].
Qed.

Lemma run_actions_spec fixed acts c f l :
  Inv fixed (mkStore c f l) -> Inv fixed (mkStore (run_actions acts c) f l) /\ stirred c (run_actions acts c) /\
  reachable (mkStore c f l) (mkStore (run_actions acts c) f l).
Proof.
  revert c. induction acts as [|a acts IH]; intros c HI; [split; [done|]; split; [done | apply rtc_refl]|].
  destruct (act_spec fixed a c f l l HI) as [HI1 S1]. destruct (IH _ HI1) as (HI2 & S2 & R2).
  split; [exact HI2|]. split; [by etransitivity|].
  eapply rtc_l; [apply (step_act (mkStore c f l) a) | exact R2].
Qed.

Lemma pause_spec fixed s :
  Inv fixed s -> yields pause (fun busy s' => paused fixed s s' /\ (calm s -> busy = false)) s.
Proof.
  intros HI. unfold pause, yields. destruct s as [c f l]. cbn. destruct l as [|p l].
  { split; [by apply paused_refl | done]. }
  destruct (run_actions_spec fixed (actions p) c f (p :: l) HI) as (HI1 & S1 & R1).
  split; [|intros Hc; by apply Forall_cons_1 in Hc as [? _]].
  split; [exact HI1 | split | done | done |].
  - eapply rtc_r; [exact R1 | apply (step_others (mkStore _ f (p :: l)) l)].
  - intros Hq. apply Forall_cons_1 in Hq as [Hp Hq]. split; [done|]. rewrite Hp. by apply collected_same.
  - intros Hc. by apply Forall_cons_1 in Hc as [_ ?].
  - intros Hq. apply Forall_cons_1 in Hq as [Hp Hq]. cbn. by rewrite Hp.
Qed.

Lemma acquire_spec fixed nonblocking s :
  Inv fixed s -> yields (acquire nonblocking) (fun ok s' => paused fixed s s' /\ (unhindered nonblocking s -> ok = true)) s.
Proof.
  intros HI. unfold acquire. apply yields_bind. eapply yields_mono; [by apply pause_spec|].
  intros busy s' [HP Hb]. unfold yields. cbn. split; [done|]. intros [->|Hc]; [done|].
  rewrite (Hb Hc). by rewrite andb_false_r.
Qed.

(** ** The loops of [refresh] *)

(** A number of steps that covers the channel empties it, when nothing is
    added meanwhile. *)
Lemma drain_loop_spec fixed n nonblocking s :
  Inv fixed s ->
  yields (drain_loop n nonblocking) (fun ok s' => Inv fixed s' /\ went s s' /\ q_scan (query s') = q_scan (query s) /\
    (unhindered nonblocking s -> ok = true) /\
    (ok = true -> quiet s -> (length (waiting_events s) <= n)%nat -> waiting_events s' = [])) s.
Proof.
  revert s. induction n as [|n IH]; intros s HI; cbn [drain_loop].
  { unfold yields. cbn. split; [done|]. split; [done|]. do 2 (split; [done|]).
    intros _ _ Hl. apply length_zero_iff_nil. lia. }
  apply yields_bind. eapply yields_mono; [by apply (pause_spec fixed)|]. intros _ s1 (P1 & _). cbn beta.
  pose proof (ps_inv _ _ _ P1) as HI1.
  apply yields_bind. eapply yields_mono; [apply yields_with; by apply (receive_spec fixed)|].
  intros more s2 ((HI2 & K2 & R2 & O2 & L2 & X2 & S2 & W2 & Hmore) & E2). cbn beta.
  assert (went s s2) as G2.
  { etransitivity; [apply (ps_went _ _ _ P1)|]. subst s2.
    apply went_section; [apply step_receive | done | by apply collected_same]. }
  assert (q_scan (query s2) = q_scan (query s)) as S2' by (by rewrite S2, (ps_query _ _ _ P1)).
  destruct more; cbn [negb].
  2: { unfold yields. cbn. destruct Hmore as [-> Hw]. repeat (split; [done|]). done. }
  destruct Hmore as [e He].
  apply yields_bind. eapply yields_mono; [by apply (acquire_spec fixed)|]. intros ok s3 (P3 & Hok). cbn beta.
  assert (went s s3) as G3 by (etransitivity; [exact G2 | apply (ps_went _ _ _ P3)]).
  pose proof (ps_inv _ _ _ P3) as HI3. rewrite <- (ps_query _ _ _ P3) in He, S2'.
  destruct ok; cbn [negb].
  2: { unfold yields. cbn. do 3 (split; [done|]).
       split; [intros Hc; by discriminate (Hok (went_unhindered _ _ _ G2 Hc)) | done]. }
  destruct (inv_pending _ _ _ HI3 He) as (t & Hlk & _). pose proof HI3 as (_ & _ & _ & _ & _ & _ & _ & es & HH).
  apply yields_bind. eapply yields_mono; [apply yields_with; by apply (drain_pending_spec fixed _ e t es)|].
  intros _ s4 ((HI4 & P4 & Q4 & K4 & R4 & O4 & S4 & D4 & _) & E4). cbn beta.
  assert (went s s4) as G4.
  { etransitivity; [exact G3|]. subst s4. apply went_section; [by apply step_drain; eexists | done | done]. }
  eapply yields_mono; [by apply IH|]. intros ok' s5 (HI5 & G5 & S5 & N5 & W5). cbn beta.
  split; [done|]. split; [by etransitivity|]. split; [congruence|].
  split; [intros Hc; apply N5; by apply (went_unhindered _ _ _ G4)|].
  intros Hok' Hq Hl. apply W5; [done | by apply (wt_quiet _ _ G4) |].
  assert (waiting_events s3 = e :: waiting_events s4) as Hw.
  { unfold waiting_events. rewrite P4, Q4. by rewrite He. }
  rewrite <- (paused_waiting _ _ _ P1 Hq), <- W2 in Hl.
  assert (quiet s2) as Hq2 by (by apply (wt_quiet _ _ G2)).
  rewrite <- (paused_waiting _ _ _ P3 Hq2), Hw in Hl. cbn in Hl. lia.
Qed.

(** *** Following a record

    What becomes, from [s0] on, of the record that was in slot [i] then: its
    copy is not older than it was, or the slot was given back. *)

Section traced.
Context (fixed : Z) (s0 : Store) (HI0 : Inv fixed s0).

Definition listed_since (t0 : SlotFields) (i : nat) (s : Store) : Prop :=
  exists v, q_records (query s) !! i = Some (Some v) /\ apply_state (captured_state (record t0)) v = record t0 /\
            r_version (record t0) <= r_version v.

Definition traced (i : nat) (s : Store) : Prop :=
  forall t0, slots (capture s0) !! i = Some t0 -> occupied t0 = true -> listed_since t0 i s \/ given_back s0 t0 i s.

Lemma traced_kept i s s' :
  reachable s s' -> q_records (query s') !! i = q_records (query s) !! i -> traced i s -> traced i s'.
Proof.
  intros Hr Hq Ht t0 Hi Ho. destruct (Ht t0 Hi Ho) as [(v & Hv & ?)|Hg].
  - left. exists v. by rewrite Hq.
  - right. by eapply given_back_later.
Qed.

Lemma traced_paused i s s' : paused fixed s s' -> traced i s -> traced i s'.
Proof. intros [P1 P2 P3 P4 P5]. apply traced_kept; [apply (wt_reach _ _ P2) | by rewrite P3]. Qed.

(** A scanned slot has a copy of the record as it is. *)
Lemma traced_scanned i s s' :
  reachable s0 s -> Inv fixed s' -> reachable s s' -> copies_frame s s' ->
  (forall t, slots (capture s) !! i = Some t -> occupied t = true ->
     exists v, q_records (query s') !! i = Some (Some v) /\ r_version v = r_version (record t)) -> traced i s'.
Proof.
  intros Hr HI' Hr' (Hc & _) Hv t0 Hi Ho.
  destruct (reachable_holds fixed s0 s i t0 HI0 Hr Hi Ho) as [(t & Ht & [H1 H2 [C1 C2 C3 C4]])|Hg].
  - left. destruct (Hv t Ht H1) as (v & Hv' & Hver). exists v. split; [done|]. split; [|lia].
    destruct HI' as (_ & _ & _ & _ & I5 & _). destruct (cp_copy _ _ _ _ I5 i v Hv') as (x & Hx & Hco).
    rewrite Hc in Hx. assert (x = t) as -> by congruence.
    eapply apply_identity; [exact C1 | exact (recapture _ _ (co_identity _ _ _ Hco))].
  - right. by eapply given_back_later.
Qed.

(** A slot that is given back had held the record until then. *)
Lemma traced_reclaimed i s t :
  reachable s0 s -> slots (capture s) !! i = Some t -> r_terminal (record t) = true ->
  drained_closed s i -> reachable s (after (reclaim i) s) -> traced i (after (reclaim i) s).
Proof.
  intros Hr Ht Hterm Hd Hr' t0 Hi Ho. right.
  destruct (reachable_holds fixed s0 s i t0 HI0 Hr Hi Ho) as [(u & Hu & Hh)|Hg]; [|by eapply given_back_later].
  assert (u = t) as -> by congruence. exists s, t. repeat (split; [done|]). apply rtc_refl.
Qed.

Lemma scan_loop_spec scan nonblocking s :
  Inv fixed s -> reachable s0 s -> (forall i, i ∈ scan -> i ∈ q_scan (query s)) ->
  yields (scan_loop scan nonblocking) (fun ok s' => Inv fixed s' /\ went s s' /\
    (unhindered nonblocking s -> ok = true) /\ (quiet s -> waiting_events s' = waiting_events s) /\
    (forall i, traced i s -> traced i s') /\ (ok = true -> forall i, i ∈ scan -> traced i s')) s.
Proof.
  revert s. induction scan as [|i scan IH]; intros s HI Hr Hin; cbn [scan_loop].
  { unfold yields. cbn. split; [done|]. split; [done|]. repeat (split; [done|]). intros _ i Hi. by apply not_elem_of_nil in Hi. }
  apply yields_bind. eapply yields_mono; [by apply (acquire_spec fixed)|]. intros ok s1 (P1 & Hok). cbn beta.
  pose proof (ps_inv _ _ _ P1) as HI1. pose proof (ps_went _ _ _ P1) as G1.
  destruct ok; cbn [negb].
  2: { unfold yields. cbn. do 2 (split; [done|]). split; [intros Hc; by discriminate (Hok Hc)|].
       split; [by apply (paused_waiting fixed)|]. split; [intros j; by apply traced_paused | done]. }
  assert (forall j, j ∈ i :: scan -> j ∈ q_scan (query s1)) as Hin1 by (intros j Hj; rewrite (ps_query _ _ _ P1); auto).
  assert (i ∈ q_scan (query s1)) as Hi by (apply Hin1, elem_of_cons; by left).
  assert (i < capacity (options (capture s1)))%nat as Hcap.
  { destruct HI1 as (_ & _ & _ & _ & _ & I6 & _). rewrite list.Forall_forall in I6. by apply I6. }
  apply yields_bind. eapply yields_mono; [apply yields_with; by apply (scan_slot_spec fixed)|].
  intros _ s2 ((HI2 & HF2 & Hc2 & Hj2) & E2). cbn beta. pose proof HF2 as (C2 & K2 & recs & idx & Q2).
  assert (went s1 s2) as G2.
  { subst s2. apply went_section; [by apply step_scan_slot | done | by apply collected_same; rewrite C2]. }
  assert (reachable s0 s1) as Hr1 by (etransitivity; [exact Hr | apply (wt_reach _ _ G1)]).
  assert (reachable s0 s2) as Hr2 by (etransitivity; [exact Hr1 | apply (wt_reach _ _ G2)]).
  eapply yields_mono; [apply IH; [done | done |]|].
  { intros j Hj. rewrite Q2. apply Hin1, elem_of_cons. by right. }
  intros ok' s3 (HI3 & G3 & N3 & W3 & K3 & D3). cbn beta.
  assert (traced i s2) as Ti.
  { apply (traced_scanned i s1 s2); try done. apply (wt_reach _ _ G2). }
  assert (forall j, traced j s -> traced j s2) as Hkeep.
  { intros j Hj. destruct (decide (j = i)) as [->|Hne]; [done|].
    apply (traced_kept j s1 s2); [apply (wt_reach _ _ G2) | by apply Hj2 | by apply (traced_paused j s)]. }
  split; [done|]. split; [etransitivity; [exact G1|]; by etransitivity|].
  split; [intros Hc; apply N3; apply (went_unhindered _ s1 _ G2); by apply (went_unhindered _ s _ G1)|].
  split.
  { intros Hq. destruct (wt_quiet _ _ G1 Hq) as [Hq1 _]. destruct (wt_quiet _ _ G2 Hq1) as [Hq2 _].
    rewrite (W3 Hq2), (copies_frame_waiting _ _ HF2). by apply (paused_waiting fixed). }
  split; [auto|]. intros Hok' j Hj. apply elem_of_cons in Hj as [->|Hj]; auto.
Qed.

(** *** Giving back *)

(** The closed copy of slot [i], if it is one, still waits for an event. *)
Definition undrained (i : nat) (s : Store) : Prop :=
  forall v, q_records (query s) !! i = Some (Some v) -> r_terminal v = true ->
  exists t, slots (capture s) !! i = Some t /\ occupied t = true /\ r_terminal (record t) = true /\
            r_id (record t) = r_id v /\ last_drained t < last_queued t.

Lemma undrained_paused i s s' : paused fixed s s' -> undrained i s -> undrained i s'.
Proof.
  intros [P1 P2 P3 P4 P5] Hu v Hv Hterm. rewrite P3 in Hv. destruct (Hu v Hv Hterm) as (t & Ht & Ho & Hr & Hid & Hd).
  destruct (st_slots _ _ P4 i t Ht Ho) as (t' & Ht' & _ & Hsame). pose proof (Hsame Hr) as ->. by exists t.
Qed.

Lemma drained_closed_paused i s s' : Inv fixed s -> paused fixed s s' -> drained_closed s i -> drained_closed s' i.
Proof.
  intros (_ & _ & _ & _ & I5 & _) [P1 P2 P3 P4 P5] (t & v & Ht & Hv & Hterm & Hd).
  destruct (cp_copy _ _ _ _ I5 i v Hv) as (x & Hx & Hco). assert (x = t) as -> by congruence.
  destruct (st_slots _ _ P4 i t Ht (co_occupied _ _ _ Hco)) as (t' & Ht' & _ & Hsame).
  pose proof (Hsame (co_terminal _ _ _ Hco Hterm)) as ->. exists t, v. by rewrite P3.
Qed.

Lemma select_closed_spec nonblocking idx s :
  Inv fixed s -> (forall e, e ∈ idx -> e ∈ q_index (query s)) ->
  yields (select_closed nonblocking idx) (fun r s' => paused fixed s s' /\ (unhindered nonblocking s -> r <> None) /\
    match r with
    | None => True
    | Some None => forall e, e ∈ idx -> undrained (ix_slot e) s'
    | Some (Some i) => drained_closed s' i
    end) s.
Proof.
  revert s. induction idx as [|e idx IH]; intros s HI Hsub; cbn [select_closed].
  { unfold yields. cbn. split; [by apply paused_refl|]. split; [done|]. intros e He. by apply not_elem_of_nil in He. }
  destruct (inv_copy _ _ e HI ltac:(apply Hsub, elem_of_cons; by left)) as (v & t & Hv & _ & Ht & Hco).
  apply yields_bind. unfold yields at 1. cbn [get_store gets id].
  apply yields_bind. unfold copy_terminal. rewrite Hv. unfold yields at 1. cbn [of_option ret].
  assert (forall s1, paused fixed s s1 -> undrained (ix_slot e) s1 ->
    yields (select_closed nonblocking idx) (fun r s' => paused fixed s s' /\ (unhindered nonblocking s -> r <> None) /\
    match r with
    | None => True
    | Some None => forall e', e' ∈ e :: idx -> undrained (ix_slot e') s'
    | Some (Some i) => drained_closed s' i
    end) s1) as Hnext.
  { intros s1 P1 Hu. eapply yields_mono; [apply IH; [apply (ps_inv _ _ _ P1)|]|].
    - intros x Hx. rewrite (ps_query _ _ _ P1). apply Hsub, elem_of_cons. by right.
    - intros r s2 (P2 & N2 & Hr). split; [by eapply paused_trans|].
      split; [intros Hc; by apply N2, (went_unhindered _ s), Hc; apply (ps_went _ _ _ P1)|].
      destruct r as [[i|]|]; [done | | done].
      intros e' [->|He']%elem_of_cons; [by apply (undrained_paused _ s1) | by apply Hr]. }
  destruct (r_terminal v) eqn:Hterm; cbn [negb].
  2: { apply Hnext; [by apply paused_refl|]. intros v' Hv' Ht'. congruence. }
  apply yields_bind. eapply yields_mono; [by apply (acquire_spec fixed)|]. intros ok s1 (P1 & Hok). cbn beta.
  destruct ok; cbn [negb].
  2: { unfold yields. cbn. split; [done|]. split; [|done]. intros Hc. by discriminate (Hok Hc). }
  pose proof (co_terminal _ _ _ Hco Hterm) as Hterm'. pose proof (co_occupied _ _ _ Hco) as Ho.
  destruct (st_slots _ _ (ps_stirred _ _ _ P1) _ t Ht Ho) as (t' & Ht' & _ & Hsame). pose proof (Hsame Hterm') as ->.
  apply yields_bind. unfold yields at 1, on_capture, lock_slot. rewrite Ht'.
  replace {| capture := capture s1; query := query s1; others := others s1 |} with s1 by (by destruct s1).
  destruct (last_queued t <=? last_drained t) eqn:Hd.
  - unfold yields. cbn. split; [done|]. split; [done|]. exists t, v. rewrite (ps_query _ _ _ P1).
    repeat (split; [done|]). lia.
  - apply Hnext; [done|]. intros v' Hv' _. rewrite (ps_query _ _ _ P1) in Hv'. assert (v' = v) as -> by congruence.
    exists t. repeat (split; [done|]). split; [symmetry; apply (co_id _ _ _ Hco) | lia].
Qed.

(** What stays true between two sections of the last loop. *)
Lemma undrained_all s s' : Inv fixed s -> paused fixed s s' ->
  (forall e, e ∈ q_index (query s) -> undrained (ix_slot e) s') -> forall i, undrained i s'.
Proof.
  intros (_ & _ & _ & _ & I5 & _) P Hu i v Hv Hterm. rewrite (ps_query _ _ _ P) in Hv.
  apply (Hu (mkIndex (r_id v) i)); [apply (cp_index _ _ _ _ I5); by exists v | by rewrite (ps_query _ _ _ P) | done].
Qed.

(** One slot given back. *)
Lemma reclaim_traced s i : Inv fixed s -> reachable s0 s -> drained_closed s i ->
  max_closed (options (capture s)) < closed_copies (query s) ->
  yields (reclaim i) (fun _ s' => Inv fixed s' /\ went s s' /\ waiting_events s' = waiting_events s /\
    closed_copies (query s') = closed_copies (query s) - 1 /\ (forall j, traced j s -> traced j s')) s.
Proof.
  intros HI Hr Hd Hmax. pose proof Hd as (t & v & Ht & Hv & Hterm & Hle).
  eapply yields_mono; [apply yields_with; by apply (reclaim_spec fixed s i t v)|].
  intros _ s' ((HI' & HR) & E). cbn beta.
  pose proof (collected_reclaimed _ _ _ _ _ _ HI HR Ht Hv Hterm) as Hcol.
  assert (went s s') as G by (subst s'; apply went_section; [by apply step_reclaim | apply (rc_others _ _ _ _ HR) | done]).
  split; [done|]. split; [done|]. split; [apply (rc_waiting _ _ _ _ HR)|].
  split; [by eapply closed_reclaimed|]. intros j Hj. destruct (decide (j = i)) as [->|Hne].
  - destruct HI as (_ & _ & _ & _ & I5 & _). destruct (cp_copy _ _ _ _ I5 i v Hv) as (x & Hx & Hco).
    assert (x = t) as -> by congruence. rewrite E.
    apply (traced_reclaimed i s t); try done; [by apply (co_terminal _ _ _ Hco) | rewrite <- E; apply (wt_reach _ _ G)].
  - apply (traced_kept j s); [apply (wt_reach _ _ G) | | done].
    by rewrite (rc_records _ _ _ _ HR), list_lookup_insert_ne by done.
Qed.

Lemma reclaim_loop_spec fuel nonblocking s :
  Inv fixed s -> reachable s0 s -> closed_copies (query s) <= Z.of_nat fuel ->
  yields (reclaim_loop fuel (closed_copies (query s)) nonblocking) (fun ok s' => Inv fixed s' /\ went s s' /\
    (unhindered nonblocking s -> ok = true) /\ (quiet s -> waiting_events s' = waiting_events s) /\
    (forall i, traced i s -> traced i s') /\
    (ok = true -> closed_copies (query s') <= max_closed (options (capture s')) \/ forall i, undrained i s')) s.
Proof.
  revert s. induction fuel as [|fuel IH]; intros s HI Hr Hfuel; cbn [reclaim_loop];
    pose proof HI as (I1 & I2 & _); pose proof (op_closed _ _ I1) as Hmc;
    apply yields_bind; unfold yields at 1; cbn [get_store gets id];
    destruct (closed_copies (query s) <=? max_closed (options (capture s))) eqn:Hc.
  1,3: unfold yields; cbn; repeat (split; [done|]); left; lia.
  { lia. }
  apply yields_bind. eapply yields_mono; [by apply (select_closed_spec nonblocking (q_index (query s)))|].
  intros r s1 (P1 & Hsel & Hfound). cbn beta. pose proof (ps_went _ _ _ P1) as G1.
  (* stopping between two sections *)
  assert (forall s', paused fixed s s' -> forall ok, (unhindered nonblocking s -> ok = true) ->
    (ok = true -> forall i, undrained i s') ->
    yields (ret ok : StoreM bool) (fun ok s' => Inv fixed s' /\ went s s' /\
      (unhindered nonblocking s -> ok = true) /\ (quiet s -> waiting_events s' = waiting_events s) /\
      (forall i, traced i s -> traced i s') /\
      (ok = true -> closed_copies (query s') <= max_closed (options (capture s')) \/ forall i, undrained i s')) s') as Hstop.
  { intros s' P ok Hok Hu. unfold yields. cbn. split; [apply (ps_inv _ _ _ P)|]. split; [apply (ps_went _ _ _ P)|].
    split; [done|]. split; [by apply (paused_waiting fixed)|]. split; [intros i; by apply traced_paused | auto]. }
  destruct r as [[i|]|].
  2: { apply (Hstop s1 P1 true); [done|]. intros _. by apply (undrained_all s). }
  2: { apply (Hstop s1 P1 false); [|done]. intros Hu. by destruct (Hsel Hu). }
  apply yields_bind. eapply yields_mono; [apply (acquire_spec fixed), (ps_inv _ _ _ P1)|].
  intros ok2 s2 (P2 & Hok2). cbn beta. pose proof (paused_trans _ _ _ _ P1 P2) as P12.
  destruct ok2; cbn [negb].
  2: { apply (Hstop s2 P12 false); [|done]. intros Hu. by apply Hok2, (went_unhindered _ s). }
  apply yields_bind. eapply yields_mono; [apply (acquire_spec fixed), (ps_inv _ _ _ P12)|].
  intros ok3 s3 (P3 & Hok3). cbn beta. pose proof (paused_trans _ _ _ _ P12 P3) as P.
  destruct ok3; cbn [negb].
  2: { apply (Hstop s3 P false); [|done]. intros Hu. apply Hok3, (went_unhindered _ s), Hu. apply (ps_went _ _ _ P12). }
  pose proof (drained_closed_paused _ _ _ (ps_inv _ _ _ P1) (paused_trans _ _ _ _ P2 P3) Hfound) as Hd.
  pose proof (ps_inv _ _ _ P) as HI3. pose proof (ps_went _ _ _ P) as G3.
  assert (reachable s0 s3) as Hr3 by (etransitivity; [exact Hr | apply (wt_reach _ _ G3)]).
  apply yields_bind. eapply yields_mono; [apply (reclaim_traced s3 i); [done..|]|].
  { rewrite (st_options _ _ (ps_stirred _ _ _ P)), (ps_query _ _ _ P). lia. }
  intros _ s4 (HI4 & G4 & W4 & C4 & T4). cbn beta. rewrite (ps_query _ _ _ P) in C4. rewrite <- C4.
  eapply yields_mono; [apply IH; [done | | lia]|].
  { etransitivity; [exact Hr3 | apply (wt_reach _ _ G4)]. }
  intros ok s5 (HI5 & G5 & N5 & W5 & T5 & D5). cbn beta.
  split; [done|]. split; [etransitivity; [exact G3|]; by etransitivity|].
  split; [intros Hu; apply N5, (went_unhindered _ s3 _ G4); by apply (went_unhindered _ s)|].
  split.
  { intros Hq. destruct (wt_quiet _ _ G3 Hq) as [Hq3 _]. destruct (wt_quiet _ _ G4 Hq3) as [Hq4 _].
    rewrite (W5 Hq4), W4. by apply (paused_waiting fixed). }
  split; [|done]. intros j Hj. by apply T5, T4, (traced_paused j s).
Qed.
End traced.

(** Following a record from an earlier state. *)
Lemma traced_from fixed s0 s1 s i : Inv fixed s0 -> reachable s0 s1 -> reachable s1 s -> traced s1 i s -> traced s0 i s.
Proof.
  intros HI0 Hr1 Hr Ht t0 Hi Ho.
  destruct (reachable_holds fixed s0 s1 i t0 HI0 Hr1 Hi Ho) as [(t1 & Ht1 & Hh)|Hg];
    [|right; by eapply given_back_later].
  destruct (Ht t1 Ht1 (hd_occupied _ _ _ Hh)) as [(v & Hv & Hid & Hver)|Hg].
  - left. exists v. destruct Hh as [_ _ [C1 C2 _ _]]. split; [done|]. split; [by eapply apply_identity | lia].
  - right. destruct Hg as (mid & u & R & Hu & Hh' & Hterm & Hd & R'). exists mid, u.
    assert (reachable s1 mid -> lasting s1 mid) as HL by (apply (reachable_lasting fixed); by eapply reachable_inv).
    split; [by etransitivity|]. split; [done|]. split; [|done].
    eapply held_trans; [exact Hh | apply (la_exhausted _ _ (HL R)) | exact Hh'].
Qed.

(** ** [refresh] *)

(** Refreshing keeps the invariant and always ends, whatever other threads do
    meanwhile; it fails only when one of them holds a mutex.  If it succeeds,
    every record that was registered has a copy that is not older than the
    record was, unless its slot has been given back; and at most the allowed
    number of closed records is kept, unless an event of each still waits. *)
Lemma refresh_spec fixed nonblocking s :
  Inv fixed s ->
  yields (refresh nonblocking) (fun ok s' => Inv fixed s' /\ went s s' /\ (unhindered nonblocking s -> ok = true) /\
    (ok = true -> (forall i, traced s i s') /\ (quiet s -> waiting_events s' = []) /\
       (closed_copies (query s') <= max_closed (options (capture s')) \/ forall i, undrained i s'))) s.
Proof.
  intros HI. unfold refresh.
  apply yields_bind. eapply yields_mono; [by apply (acquire_spec fixed)|]. intros ok1 s1 (P1 & Hok1). cbn beta.
  pose proof (ps_inv _ _ _ P1) as HI1. pose proof (ps_went _ _ _ P1) as G1.
  destruct ok1; cbn [negb]; [|unfold yields; cbn; by repeat (split; [done|])].
  apply yields_bind. eapply yields_mono; [apply yields_with; by apply (scan_registration_spec fixed)|].
  intros _ s2 ((HI2 & C2 & S2 & Q2 & K2) & E2). cbn beta.
  assert (went s s2) as G2.
  { etransitivity; [exact G1|]. subst s2. apply went_section; [apply step_scan_registration | done | by apply collected_same]. }
  apply yields_bind. unfold yields at 1. cbn [get_store gets id].
  apply yields_bind. eapply yields_mono; [by apply (drain_loop_spec fixed)|].
  intros ok3 s3 (HI3 & G23 & S3 & N3 & W3). cbn beta. assert (went s s3) as G3 by (by etransitivity).
  assert (unhindered nonblocking s -> ok3 = true) as Hok3 by (intros Hu; by apply N3, (went_unhindered _ s)).
  destruct ok3; cbn [negb]; [|unfold yields; cbn; by repeat (split; [done|])].
  assert (quiet s -> waiting_events s3 = []) as Hw3.
  { intros Hq. apply W3; [done | by apply (wt_quiet _ _ G2) |].
    destruct HI2 as (J1 & _ & J3 & _). unfold waiting_events. rewrite length_app.
    destruct (q_pending (query s2)); cbn [length]; lia. }
  apply yields_bind. eapply yields_mono; [by apply (pause_spec fixed)|]. intros _ s4 (P4 & _). cbn beta.
  pose proof (ps_inv _ _ _ P4) as HI4. assert (went s s4) as G4 by (etransitivity; [exact G3 | apply (ps_went _ _ _ P4)]).
  apply yields_bind. eapply yields_mono; [apply yields_with; by apply (note_dropped_spec fixed)|].
  intros _ s5 ((HI5 & L5 & X5 & R5 & O5 & S5 & W5 & K5) & E5). cbn beta.
  assert (went s s5) as G5.
  { etransitivity; [exact G4|]. subst s5. apply went_section; [apply step_note_dropped | done | by apply collected_same]. }
  apply yields_bind. unfold yields at 1. cbn [get_store gets id].
  apply yields_bind. eapply yields_mono; [apply (scan_loop_spec fixed s HI); [done | apply (wt_reach _ _ G5) | done]|].
  intros ok6 s6 (HI6 & G56 & N6 & W6 & _ & D6). cbn beta. assert (went s s6) as G6 by (by etransitivity).
  assert (unhindered nonblocking s -> ok6 = true) as Hok6 by (intros Hu; by apply N6, (went_unhindered _ s)).
  destruct ok6; cbn [negb]; [|unfold yields; cbn; by repeat (split; [done|])].
  assert (forall i, traced s i s6) as T6.
  { intros i t0 Hi Ho.
    destruct (reachable_holds fixed s s2 i t0 HI (wt_reach _ _ G2) Hi Ho) as [(t & Ht & [H1 H2 H3])|Hg].
    - apply D6; [done | | done | done]. rewrite S5, (ps_query _ _ _ P4), S3, S2, <- C2.
      destruct HI2 as (_ & I2 & _). by apply (so_occupied _ _ _ _ _ I2 i t).
    - right. eapply given_back_later; [exact Hg|].
      etransitivity; [apply (wt_reach _ _ G23)|]. etransitivity; [apply (wt_reach _ _ (ps_went _ _ _ P4))|].
      etransitivity; [|apply (wt_reach _ _ G56)]. subst s5. apply rtc_once, step_note_dropped. }
  apply yields_bind. unfold yields at 1. cbn [get_store gets id].
  apply yields_bind. rewrite count_terminal_spec
    by (intros e He; destruct (inv_copy _ _ _ HI6 He) as (v & _ & Hv & _); by exists v).
  unfold yields at 1. cbn [of_option ret].
  eapply yields_mono; [apply (reclaim_loop_spec fixed s HI); [done | apply (wt_reach _ _ G6) | apply closed_copies_bound]|].
  intros ok7 s7 (HI7 & G67 & N7 & W7 & T7 & D7). cbn beta.
  split; [done|]. split; [by etransitivity|]. split; [intros Hu; by apply N7, (went_unhindered _ s)|].
  intros Hok. split; [auto|]. split; [|auto]. intros Hq.
  destruct (wt_quiet _ _ G3 Hq) as [Hq3 _], (wt_quiet _ _ G5 Hq) as [Hq5 _], (wt_quiet _ _ G6 Hq) as [Hq6 _].
  by rewrite (W7 Hq6), (W6 Hq5), W5, (paused_waiting _ _ _ P4 Hq3), (Hw3 Hq).
Qed.
