(* ===== verification/DebugSpec.v ===== *)
(** What the diagnostic store promises, in every state that recorders and the
    collector can bring about in any order: memory within the budget, no event
    that outlives its record, snapshots that miss no record whatever recorders
    do meanwhile and are exact when they do nothing, and event numbers without
    gaps. *)

From Stdlib Require Import ZArith Lia ZifyBool.
From stdpp Require Import base list sorting relations.
From S2P Require Import Prelude.
From S2P Require Import Int.
From S2P Require Import DebugStore.
From S2P Require Import DebugRecorder.
From S2P Require Import DebugCollector.
From S2P Require Import DebugInvariant.
From S2P Require Import DebugRefresh.

Local Open Scope Z_scope.
Local Open Scope rstd_scope.

#[local] Arguments MAX : simpl never.
#[local] Arguments wrapping_add : simpl never.
#[local] Arguments wrapping_sub : simpl never.
#[local] Arguments wrapping_mul : simpl never.

(** ** The first state *)

(** Sizes of objects are what the compiler chose; they are not negative. *)
Class SizesOk `{Sizes} := {
  sizes_base : 0 <= sizeof_CaptureShared + sizeof_QueryState + sizeof_QueryFields + sizeof_CollectionSession + 4096;
  sizes_slot : 0 <= sizeof_CaptureSlot + sizeof_Box + sizeof_OptionRecord + sizeof_IndexEntry + 3 * sizeof_usize + 64;
  sizes_event : 0 <= sizeof_OptionEvent;
  sizes_capture : 0 <= sizeof_CaptureEvent + 64;
  sizes_record : 0 <= sizeof_Record }.

Definition options_typed (o : Options) : Prop :=
  0 <= max_active o <= MAX u64 /\ 0 <= max_closed o <= MAX u64 /\ 0 <= max_events o <= MAX u64 /\
  0 <= max_text_bytes o <= MAX u64 /\ 0 <= max_bytes o <= MAX u64 /\ 0 <= max_pending_events o <= MAX u64.

Section initial.
Context {Sz : Sizes} {SzOk : SizesOk}.

(** The store that [Recorder::make] and [CollectionSession::start] create. *)
Definition initial_store (o : Options) (info : RuntimeInfo) (session : Z) : option Store :=
  match make_capture o info session with
  | Some c => Some (mkStore c (make_query (capacity o) (Z.to_nat (max_events o))) [])
  | None => None
  end.

Lemma checked_add_nonneg value amount count v :
  0 <= value -> 0 <= amount -> 0 <= count -> checked_add value amount count = Some v -> 0 <= v.
Proof. intros. unfold checked_add in *. case_if; [done|]. simplify_eq. nia. Qed.

Lemma options_valid_ok o fixed :
  options_typed o -> options_valid o = true -> fixed_cost o = Some fixed -> options_ok fixed o.
Proof.
  intros (T1 & T2 & T3 & T4 & T5 & T6) Hv Hf. unfold options_valid in Hv. case_if; [done|]. rewrite Hf in Hv.
  assert (0 <= fixed) as H0.
  { unfold fixed_cost in Hf. destruct SzOk as [S1 S2 S3 S4 S5].
    destruct (checked_add (max_active o) (max_closed o) 1) as [count|] eqn:E1; [|done].
    apply checked_add_nonneg in E1 as Hc; [|lia..].
    destruct (checked_add _ _ count) as [b1|] eqn:E2 in Hf; [|done]. apply checked_add_nonneg in E2; [|done..].
    destruct (checked_add b1 _ (max_events o)) as [b2|] eqn:E3 in Hf; [|done]. apply checked_add_nonneg in E3; [|lia..].
    apply checked_add_nonneg in Hf; [done | lia..]. }
  split; lia.
Qed.

Lemma free_slots n : map (fun i => (n - i - 1)%nat) (seq 0 n) ≡ₚ seq 0 n.
Proof.
  assert (map (fun i => (n - i - 1)%nat) (seq 0 n) = reverse (seq 0 n)) as ->; [|apply reverse_Permutation].
  apply list_eq. intros i. rewrite list_lookup_fmap.
  destruct (decide (i < n)%nat) as [Hi|Hi].
  - rewrite reverse_lookup by (rewrite length_seq; done). rewrite length_seq.
    rewrite !lookup_seq_lt by lia. cbn. f_equal. lia.
  - rewrite !lookup_ge_None_2; [done | rewrite length_reverse, length_seq; lia | rewrite length_seq; lia].
Qed.

Lemma initial_inv o info session fixed s :
  options_typed o -> options_valid o = true -> fixed_cost o = Some fixed ->
  initial_store o info session = Some s -> Inv fixed s.
Proof.
  intros Ht Hv Hf. unfold initial_store, make_capture. rewrite Hf. intros [= <-].
  pose proof (options_valid_ok o fixed Ht Hv Hf) as Ho.
  assert (forall i t, replicate (capacity o) empty_slot !! i = Some t -> t = empty_slot) as Hrep
    by (intros i t Hi; by apply lookup_replicate in Hi as [-> _]).
  split; [done|]. cbn [capture query others options slots registration active exhausted pending_queue].
  split; [|split; [cbn; pose proof (op_pending _ _ Ho); lia|split; [|split; [|split; [constructor|split; [done|]]]]]].
  - split; cbn [free occupied_slots next_id]; fold (capacity o).
    + by rewrite length_replicate.
    + rewrite app_nil_r, free_slots. apply NoDup_seq.
    + intros i. rewrite app_nil_r, free_slots, elem_of_seq. lia.
    + intros _. by rewrite app_nil_r, free_slots.
    + intros i t ->%Hrep. split; [done | by intros ?%not_elem_of_nil].
    + by intros i t ->%Hrep.
    + by intros i j t t' ->%Hrep.
    + by rewrite total_replicate.
    + pose proof (op_active _ _ Ho). lia.
    + done.
  - split; [by intros e ?%not_elem_of_nil | constructor | by intros i t ->%Hrep].
  - split; cbn; fold (capacity o).
    + by rewrite !length_replicate.
    + intros i v Hi. by apply lookup_replicate in Hi as [? _].
    + intros e. split; [by intros ?%not_elem_of_nil|]. intros (v & Hi & _). by apply lookup_replicate in Hi as [? _].
    + constructor.
  - exists []. split; [|split; cbn; [rewrite total_replicate; [lia | done] | pose proof (op_fixed _ _ Ho); lia]].
    split; cbn; [|constructor|constructor|done]. apply ring_empty. pose proof (op_events _ _ Ho). lia.
Qed.
End initial.

(** ** The history as a list *)

(** The events retained, oldest first. *)
Definition history_list (o : Options) (f : QueryFields) : list Event :=
  omap (fun k => match q_history f !! ((history_head f + k) mod Z.to_nat (max_events o))%nat with
                 | Some e => e | None => None end) (seq 0 (history_len f)).

Lemma omap_lookup_seq {A} (l : list A) : omap (fun k => l !! k) (seq 0 (length l)) = l.
Proof.
  induction l as [|x l IH]; [done|]. cbn [length seq]. cbn. f_equal.
  rewrite <- IH at 2. rewrite <- fmap_S_seq. generalize (seq 0 (length l)) as k. intros k.
  induction k as [|n k IHk]; cbn; [done|]. by rewrite IHk.
Qed.

Lemma history_list_ok o f es : history_ok o f es -> history_list o f = es.
Proof.
  intros [[Hl Hn Hf Hh Hk] _ _ _]. unfold history_list. rewrite <- Hn in *.
  etransitivity; [|apply omap_lookup_seq]. apply list_omap_ext. apply Forall2_same_length_lookup. split; [done|].
  intros j x y Hx Hy. assert (y = x) as -> by congruence. apply lookup_seq in Hx as [-> Hj].
  cbn. by rewrite Hk by lia.
Qed.

Lemma inv_history fixed s : Inv fixed s ->
  holds_history fixed s (history_list (options (capture s)) (query s)).
Proof. intros (_ & _ & _ & _ & _ & _ & _ & es & HO & HB). by rewrite (history_list_ok _ _ _ HO). Qed.

(** The bytes of text the ring retains. *)
Definition retained_bytes (h : list (option Event)) : Z :=
  total (fun e => match e with Some e => event_bytes e | None => 0 end) h.

Lemma ring_rotation m head len h es : ring_ok m head len h es ->
  drop head h ++ take head h = map Some es ++ replicate (m - len) None.
Proof.
  intros [Hl Hn Hf Hh Hk]. apply list_eq. intros k.
  destruct (decide (k < m)%nat) as [Hkm|Hkm].
  2: { rewrite !lookup_ge_None_2; [done | |]; rewrite length_app, ?length_map, ?length_replicate, ?length_drop, ?length_take; lia. }
  transitivity (Some (es !! k)).
  - rewrite <- (Hk k Hkm), (ring_index head k m Hh Hkm). case_decide.
    + rewrite lookup_app_l by (rewrite length_drop; lia). by rewrite lookup_drop.
    + rewrite lookup_app_r by (rewrite length_drop; lia). rewrite length_drop, lookup_take_lt by lia. f_equal. lia.
  - destruct (decide (k < len)%nat).
    + rewrite lookup_app_l by (rewrite length_map; lia).
      destruct (lookup_lt_is_Some_2 es k ltac:(lia)) as [e He].
      change (map Some es) with (Some <$> es). by rewrite list_lookup_fmap, He.
    + rewrite lookup_app_r by (rewrite length_map; lia).
      rewrite lookup_replicate_2 by (rewrite length_map; lia). f_equal. apply lookup_ge_None. lia.
Qed.

Lemma retained_ok o f es : history_ok o f es -> retained_bytes (q_history f) = total event_bytes es.
Proof.
  intros [Hr _ _ _]. pose proof (ring_rotation _ _ _ _ _ Hr) as Hrot. unfold retained_bytes.
  rewrite <- (take_drop (history_head f) (q_history f)), total_app, Z.add_comm, <- total_app, Hrot, total_app.
  rewrite (total_replicate _ _ None) by done. rewrite Z.add_0_r.
  induction es as [|e es IH]; cbn [map total]; [done|]. f_equal.
  clear. induction es as [|e es IH]; cbn [map total]; [done | by f_equal].
Qed.

(** The text bytes registered records pin: each record and its copy. *)
Definition registered_bytes (t : SlotFields) : Z := if occupied t then 2 * text_cost (record t) else 0.

Lemma registered_bytes_ok o sl reg act ex : slots_ok o sl reg act ex ->
  total metadata_bytes sl = total registered_bytes sl.
Proof.
  intros Hs. apply total_ext. intros t [i Hi]%list_elem_of_lookup.
  pose proof (so_slot _ _ _ _ _ Hs i t Hi) as Hok. unfold slot_ok, metadata_bytes, registered_bytes in *.
  destruct (occupied t); lia.
Qed.

(** ** Reading events *)

(** [events_loop] on the history as a list. *)
Fixpoint collect (es : list Event) (after limit : Z) (out : list Event) (next : Z)
    : result (list Event * Z) Error :=
  match es with
  | [] => Ok (out, next)
  | e :: es =>
    if sequence e <=? after then collect es after limit out next
    else if negb (sequence e =? next + 1) then Err EHistoryGap
    else if limit <=? Z.of_nat (length (out ++ [e])) then Ok (out ++ [e], sequence e)
         else collect es after limit (out ++ [e]) (sequence e)
  end.

Lemma events_loop_collect f m len es n i after limit out next :
  ring_ok m (history_head f) len (q_history f) es -> (i + n = len)%nat ->
  events_loop n f m i after limit out next = Some (collect (drop i es) after limit out next).
Proof.
  intros Hr. revert i out next. induction n as [|n IH]; intros i out next Hi; cbn [events_loop].
  - rewrite drop_ge; [done|]. rewrite (ri_len _ _ _ _ _ Hr). lia.
  - pose proof (ri_fits _ _ _ _ _ Hr). rewrite (ri_lookup _ _ _ _ _ Hr i ltac:(lia)).
    destruct (lookup_lt_is_Some_2 es i) as [e He]; [rewrite (ri_len _ _ _ _ _ Hr); lia|].
    rewrite He, (drop_S _ _ _ He). cbn [collect].
    replace (S i) with (i + 1)%nat by lia. repeat case_if; try done; apply IH; lia.
Qed.

Definition numbered (from : Z) (es : list Event) : Prop :=
  map sequence es = seqZ (from + 1) (Z.of_nat (length es)).

Lemma numbered_snoc from es e :
  numbered from es -> sequence e = from + Z.of_nat (length es) + 1 -> numbered from (es ++ [e]).
Proof.
  unfold numbered. intros Hn He. rewrite map_app, Hn, length_app. cbn [map length].
  rewrite Nat2Z.inj_add, seqZ_app by lia. f_equal.
  rewrite seqZ_cons, seqZ_nil by lia. f_equal. lia.
Qed.

(** The numbers after [after] that a reader has asked for and the history does
    not hold. *)
Definition missing (history : list Event) (after limit cursor q : Z) : Prop :=
  after < q <= cursor /\ q <= after + limit /\ forall e, e ∈ history -> sequence e <> q.

Lemma collect_spec pre es after limit cursor out next :
  StronglySorted (fun a b => sequence a < sequence b) es ->
  Forall (fun e => sequence e <= next) pre -> Forall (fun e => sequence e <= after \/ next < sequence e) es ->
  Forall (fun e => sequence e <= cursor) es ->
  numbered after out -> next = after + Z.of_nat (length out) -> Z.of_nat (length out) < limit ->
  (forall e, e ∈ out -> e ∈ pre) ->
  match collect es after limit out next with
  | Ok (out', next') => numbered after out' /\ next' = after + Z.of_nat (length out') /\
      Z.of_nat (length out') <= limit /\ (forall e, e ∈ out' -> e ∈ pre ++ es) /\
      (Z.of_nat (length out') < limit -> Forall (fun e => sequence e <= next') (pre ++ es))
  | Err e => e = EHistoryGap /\ exists q, missing (pre ++ es) after limit cursor q
  end.
Proof.
  intros Hs. revert pre out next. induction Hs as [|e es Hs IH Hlt];
    intros pre out next Hpre Hes Hcur Hnum Hnext Hlen Hout; cbn [collect].
  { rewrite app_nil_r. repeat split; try done. lia. }
  apply Forall_cons_1 in Hes as [He Hes]. apply Forall_cons_1 in Hcur as [Hec Hcur].
  assert (forall n, next <= n -> sequence e <= n -> Forall (fun e => sequence e <= n) (pre ++ [e])) as Hpre'.
  { intros n Hn1 Hn2. apply Forall_app. split; [|by apply Forall_singleton].
    eapply Forall_impl; [|exact Hpre]. cbn. lia. }
  destruct (sequence e <=? after) eqn:Ha.
  { specialize (IH (pre ++ [e]) out next). rewrite <- app_assoc in IH. apply IH; try done.
    - apply Hpre'; lia.
    - intros x Hx. apply elem_of_app. left. by apply Hout. }
  destruct (sequence e =? next + 1) eqn:Hq; cbn [negb].
  2: { split; [done|]. exists (next + 1). split; [lia|]. split; [lia|].
       intros x [Hx|[->|Hx]%elem_of_cons]%elem_of_app.
       - rewrite list.Forall_forall in Hpre. specialize (Hpre x Hx). lia.
       - lia.
       - rewrite list.Forall_forall in Hlt. specialize (Hlt x Hx). lia. }
  assert (numbered after (out ++ [e])) as Hnum' by (apply numbered_snoc; [done | lia]).
  assert (forall x, x ∈ out ++ [e] -> x ∈ pre ++ [e]) as Hout'
    by (intros x; rewrite !elem_of_app; intros [?|?]; [left; auto | by right]).
  destruct (limit <=? Z.of_nat (length (out ++ [e]))) eqn:Hl; rewrite length_app in Hl; cbn [length] in Hl.
  - rewrite length_app. cbn [length]. split; [done|]. split; [lia|]. split; [lia|]. split; [|lia].
    intros x Hx. specialize (Hout' x Hx).
    apply elem_of_app in Hout' as [?| ->%list_elem_of_singleton]; rewrite elem_of_app, elem_of_cons; auto.
  - specialize (IH (pre ++ [e]) (out ++ [e]) (sequence e)). rewrite <- app_assoc in IH. apply IH; try done.
    + apply Hpre'; lia.
    + rewrite list.Forall_forall in *. intros x Hx. right. by apply Hlt.
    + rewrite length_app. cbn [length]. lia.
    + rewrite length_app. cbn [length]. lia.
Qed.

(** ** Snapshots *)

Section snapshots.
Context {Sz : Sizes} {SzOk : SizesOk}.

Lemma cost_nonneg r : 0 <= cost r.
Proof. unfold cost. pose proof sizes_record. pose proof (text_cost_nonneg r). lia. Qed.

Lemma snapshot_budget_spec budget bytes rs :
  0 <= bytes <= budget -> budget <= MAX u64 ->
  snapshot_budget budget bytes rs = (bytes + total cost rs <=? budget).
Proof.
  intros Hb Hm. revert bytes Hb. induction rs as [|r rs IH]; intros bytes Hb; cbn [snapshot_budget total]; [lia|].
  rewrite wrapping_sub_small by lia. pose proof (cost_nonneg r).
  pose proof (total_nonneg cost rs ltac:(apply list.Forall_forall; intros; apply cost_nonneg)).
  case_if; [lia|]. rewrite wrapping_add_small, IH by lia. f_equal. lia.
Qed.

Lemma filter_true {A} (l : list A) : filter (fun _ => true) l = l.
Proof. induction l as [|x l IH]; [done|]. rewrite filter_cons_True by done. by rewrite IH. Qed.

Definition copied_entry (f : QueryFields) (e : IndexEntry) (r : DRecord) : Prop :=
  q_records f !! ix_slot e = Some (Some r) /\ ix_id e = r_id r.

Lemma indexed_records_spec fixed s : Inv fixed s ->
  exists rs, indexed_records (query s) (q_index (query s)) = Some rs /\
             Forall2 (copied_entry (query s)) (q_index (query s)) rs.
Proof.
  intros HI. assert (forall e, e ∈ q_index (query s) -> exists r, copied_entry (query s) e r) as Hc.
  { intros e He. destruct (inv_copy _ _ _ HI He) as (v & t & Hv & Hid & _). by exists v. }
  clear HI. induction (q_index (query s)) as [|e idx IH]; [by exists []|].
  destruct IH as (rs & Hrs & HF); [intros; apply Hc, elem_of_cons; by right|].
  destruct (Hc e ltac:(apply elem_of_cons; by left)) as [r [Hr Hid]].
  exists (r :: rs). cbn [indexed_records]. rewrite Hr, Hrs. split; [done|]. by constructor.
Qed.

(** The records in use, each once, in the order of their ids. *)
Definition lists_records (s : Store) (rs : list DRecord) : Prop :=
  StronglySorted (fun a b => r_id a < r_id b) rs /\
  forall r, r ∈ rs <-> exists i t, slots (capture s) !! i = Some t /\ occupied t = true /\ record t = r.

Definition closed_record (r : DRecord) : Z := if r_terminal r then 1 else 0.

(** A snapshot that was begun in [s] and ended in [s'], while other threads
    went on.  Each record listed is a registered one, as it is or was: its
    version is at most the one of now, and nothing changes without a new
    version (as long as versions are left).  Each record registered at the
    start is listed, at no older version than it had then, unless it was closed
    and its slot was given back meanwhile.  More closed records than allowed
    are only listed when an event of each still waits.  When nothing happened
    in between, the records listed are those in use, as they are. *)
Record snapshot_of (s s' : Store) (rs : list DRecord) : Prop := {
  sp_sorted : StronglySorted (fun a b => r_id a < r_id b) rs;
  sp_registered : forall r, r ∈ rs -> exists i t, slots (capture s') !! i = Some t /\ copy_of (exhausted (capture s')) r t;
  sp_complete : forall i t, slots (capture s) !! i = Some t -> occupied t = true ->
    (exists r, r ∈ rs /\ apply_state (captured_state (record t)) r = record t /\ r_version (record t) <= r_version r) \/
    given_back s t i s';
  sp_closed : total closed_record rs <= max_closed (options (capture s')) \/
    forall r, r ∈ rs -> r_terminal r = true -> exists e, e ∈ waiting_events s' /\ s_id (ev_state e) = r_id r;
  sp_quiet : quiet s -> total closed_record rs <= max_closed (options (capture s')) /\
    (exhausted (capture s') = false -> lists_records s' rs) }.

Lemma copied_sorted f idx rs :
  StronglySorted index_lt idx -> Forall2 (copied_entry f) idx rs -> StronglySorted (fun a b => r_id a < r_id b) rs.
Proof.
  intros Hs HF. induction HF as [|e r idx rs [He Hid] HF IH]; [constructor|].
  apply StronglySorted_inv in Hs as [Hs Hlt]. constructor; [auto|]. clear -Hlt HF Hid.
  induction HF as [|e' r' idx rs [He' Hid'] HF IH]; [constructor|].
  apply Forall_cons_1 in Hlt as [Hlt Hrest]. unfold index_lt in Hlt. constructor; [lia | auto].
Qed.

Lemma copied_closed f idx rs : Forall2 (copied_entry f) idx rs -> total (closed_flag f) idx = total closed_record rs.
Proof.
  intros HF. induction HF as [|e r idx rs [He _] HF IH]; [done|]. cbn [total]. rewrite IH. f_equal.
  unfold closed_flag, copy_terminal, closed_record. rewrite He. by destruct (r_terminal r).
Qed.

(** The list holds the copies, and nothing else. *)
Lemma copied_elem fixed s rs : Inv fixed s -> Forall2 (copied_entry (query s)) (q_index (query s)) rs ->
  forall r, r ∈ rs <-> exists i, q_records (query s) !! i = Some (Some r).
Proof.
  intros (_ & _ & _ & _ & I5 & _) HF r. split.
  - intros Hr. apply list_elem_of_lookup in Hr as [k Hk].
    destruct (Forall2_lookup_r _ _ _ _ _ HF Hk) as (e & He & Hv & _). by exists (ix_slot e).
  - intros [i Hi]. assert (mkIndex (r_id r) i ∈ q_index (query s)) as He by (apply (cp_index _ _ _ _ I5); by exists r).
    apply list_elem_of_lookup in He as [k Hk]. destruct (Forall2_lookup_l _ _ _ _ _ HF Hk) as (r' & Hr' & Hv & _).
    cbn in Hv. assert (r' = r) as -> by congruence. by eapply list_elem_of_lookup_2.
Qed.

Lemma undrained_waits fixed s i v : Inv fixed s -> undrained i s -> q_records (query s) !! i = Some (Some v) ->
  r_terminal v = true -> exists e, e ∈ waiting_events s /\ s_id (ev_state e) = r_id v.
Proof.
  intros (_ & _ & _ & [Hf _ Hc] & _) Hu Hv Hterm. destruct (Hu v Hv Hterm) as (t & Ht & Ho & _ & Hid & Hd).
  destruct (Hc i t Ht Ho Hd) as (e & He & Hs & _). exists e. split; [done|].
  destruct (Hf e He) as (x & Hx & _ & _ & Hxid & _). rewrite Hs in Hx. assert (x = t) as -> by congruence. congruence.
Qed.

(** Undisturbed, a registered record whose copy is not older than it was has a
    current copy. *)
Lemma quiet_current fixed s s' i t v :
  Inv fixed s' -> collected s s' -> slots (capture s) !! i = Some t -> exhausted (capture s') = false ->
  q_records (query s') !! i = Some (Some v) -> r_version (record t) <= r_version v -> v = record t.
Proof.
  intros (_ & _ & _ & _ & I5 & _) Hcol Hi Hex Hv Hver. destruct (cp_copy _ _ _ _ I5 i v Hv) as (x & Hx & Hco).
  destruct (Hcol i t Hi) as (t' & Ht' & _ & Hc). assert (x = t') as -> by congruence.
  pose proof (co_occupied _ _ _ Hco) as Ho. destruct Hc as [[_ Hr]|(_ & _ & Hn)]; [|congruence].
  pose proof (co_version _ _ _ Hco). rewrite Hr in *.
  destruct (co_current _ _ _ Hco) as [?|E]; [rewrite Hr; lia | congruence | by rewrite E].
Qed.

Lemma quiet_copied fixed s s' i t :
  Inv fixed s -> Inv fixed s' -> went s s' -> quiet s -> (forall i, traced s i s') ->
  slots (capture s') !! i = Some t -> occupied t = true -> exhausted (capture s') = false ->
  q_records (query s') !! i = Some (Some (record t)).
Proof.
  intros HI0 HI HG Hq Htr Ht Ho Hex. destruct (wt_quiet _ _ HG Hq) as [_ Hcol].
  destruct (slots (capture s) !! i) as [t0|] eqn:Hi.
  2: { exfalso. pose proof HI0 as (_ & I2 & _). pose proof HI as (_ & I2' & _). apply lookup_ge_None in Hi.
       apply lookup_lt_Some in Ht. rewrite (so_length _ _ _ _ _ I2') in Ht. rewrite (so_length _ _ _ _ _ I2) in Hi.
       rewrite (la_options _ _ (reachable_lasting _ _ _ HI0 (wt_reach _ _ HG))) in Ht. lia. }
  destruct (Hcol i t0 Hi) as (t' & Ht' & Hg & [[Ho' Hr]|(_ & _ & Ho')]); assert (t' = t) as -> by congruence; [|congruence].
  destruct (Htr i t0 Hi ltac:(congruence)) as [(v & Hv & _ & Hver)|Hback].
  - rewrite Hv, Hr. do 2 f_equal. by eapply quiet_current.
  - pose proof (given_back_gone _ _ _ _ _ _ HI0 Hback Ht Ho). lia.
Qed.

Lemma snapshot_copied fixed s s' rs :
  Inv fixed s -> Inv fixed s' -> went s s' -> (forall i, traced s i s') -> (quiet s -> waiting_events s' = []) ->
  (closed_copies (query s') <= max_closed (options (capture s')) \/ forall i, undrained i s') ->
  Forall2 (copied_entry (query s')) (q_index (query s')) rs -> snapshot_of s s' rs.
Proof.
  intros HI0 HI HG Htr Hw Hcl HF. pose proof HI as (I1 & I2 & _ & _ & I5 & _).
  pose proof (copied_elem _ _ _ HI HF) as Hin. pose proof (copied_closed _ _ _ HF) as Hcnt.
  assert (StronglySorted (fun a b => r_id a < r_id b) rs) as Hsorted
    by (eapply copied_sorted; [apply (cp_sorted _ _ _ _ I5) | done]).
  assert (forall r, r ∈ rs -> exists i t, slots (capture s') !! i = Some t /\ copy_of (exhausted (capture s')) r t) as Hreg.
  { intros r [i Hi]%Hin. destruct (cp_copy _ _ _ _ I5 i r Hi) as (t & Ht & Hco). by exists i, t. }
  assert (total closed_record rs <= max_closed (options (capture s')) \/
    forall r, r ∈ rs -> r_terminal r = true -> exists e, e ∈ waiting_events s' /\ s_id (ev_state e) = r_id r) as Hclosed.
  { rewrite <- Hcnt. destruct Hcl as [?|Hu]; [by left | right]. intros r [i Hi]%Hin Hterm.
    by apply (undrained_waits fixed s' i). }
  split; [done | done | | done |].
  - intros i t Hi Ho. destruct (Htr i t Hi Ho) as [(v & Hv & Hid & Hver)|?]; [left | by right].
    exists v. split; [apply Hin; by exists i | done].
  - intros Hq. specialize (Hw Hq). destruct (wt_quiet _ _ HG Hq) as [_ Hcol]. split.
    + destruct Hclosed as [?|Hwait]; [done|].
      destruct (decide (total closed_record rs <= max_closed (options (capture s')))) as [|Hn]; [done|].
      pose proof (op_closed _ _ I1). destruct (total_positive closed_record rs ltac:(lia)) as (r & Hr & Hpos).
      unfold closed_record in Hpos. destruct (r_terminal r) eqn:Hterm; [|lia].
      destruct (Hwait r Hr Hterm) as (e & He & _). rewrite Hw in He. by apply not_elem_of_nil in He.
    + intros Hex. split; [done|]. intros r. split.
      * intros [i Hi]%Hin. destruct (cp_copy _ _ _ _ I5 i r Hi) as (t & Ht & Hco). exists i, t.
        pose proof (co_occupied _ _ _ Hco) as Ho. split; [done|]. split; [done|].
        pose proof (quiet_copied fixed s s' i t HI0 HI HG Hq Htr Ht Ho Hex) as Hcur. congruence.
      * intros (i & t & Ht & Ho & <-). apply Hin. exists i. by apply (quiet_copied fixed s s').
Qed.
End snapshots.

(** The lock that every query takes. *)
Lemma query_lock_spec fixed s : Inv fixed s ->
  (exists s', query_lock s = (Ret tt, s') /\ Inv fixed s' /\ went s s' /\ (forall i, traced s i s') /\
     (quiet s -> waiting_events s' = []) /\
     (closed_copies (query s') <= max_closed (options (capture s')) \/ forall i, undrained i s')) \/
  (exists s', query_lock s = (Fail EBusy, s') /\ Inv fixed s' /\ went s s' /\ ~ calm s).
Proof.
  intros HI. unfold query_lock, bind.
  destruct (yields_after _ _ _ (acquire_spec fixed true s HI)) as (ok & -> & P1 & Hok1).
  set (s1 := after (acquire true) s) in *. pose proof (ps_inv _ _ _ P1) as HI1. pose proof (ps_went _ _ _ P1) as G1.
  destruct ok; cbn [negb].
  2: { right. exists s1. do 3 (split; [done|]). intros Hc. by discriminate (Hok1 (or_intror Hc)). }
  destruct (yields_after _ _ _ (refresh_spec fixed true s1 HI1)) as (ok & -> & HI2 & G2 & Hok2 & Hdone).
  set (s2 := after (refresh true) s1) in *. assert (went s s2) as G by (by etransitivity).
  destruct ok; cbn [negb].
  2: { right. exists s2. do 3 (split; [done|]). intros Hc. by discriminate (Hok2 (or_intror (wt_calm _ _ G1 Hc))). }
  destruct (Hdone eq_refl) as (Htr & Hw & Hcl).
  destruct (yields_after _ _ _ (pause_spec fixed s2 HI2)) as (busy & -> & P3 & _).
  left. exists (after pause s2). split; [done|]. split; [apply (ps_inv _ _ _ P3)|].
  split; [etransitivity; [exact G | apply (ps_went _ _ _ P3)]|]. split; [|split].
  - intros i. apply (traced_paused fixed _ _ s2); [done|]. eapply (traced_from fixed s s1); [done | apply (wt_reach _ _ G1) | apply (wt_reach _ _ G2) | done].
  - intros Hq. rewrite (paused_waiting _ _ _ P3) by (by apply (wt_quiet _ _ G)). apply Hw. by apply (wt_quiet _ _ G1).
  - rewrite (ps_query _ _ _ P3), (st_options _ _ (ps_stirred _ _ _ P3)).
    destruct Hcl as [?|Hu]; [by left | right]. intros i. by apply (undrained_paused fixed _ s2).
Qed.


(** ** What holds in every state *)

Section promises.
Context {Sz : Sizes} {SzOk : SizesOk} (o : Options) (info : RuntimeInfo) (session fixed : Z) (s0 s : Store).
Hypothesis Htyped : options_typed o.
Hypothesis Hvalid : options_valid o = true.
Hypothesis Hfixed : fixed_cost o = Some fixed.
Hypothesis Hinit : initial_store o info session = Some s0.
Hypothesis Hreach : reachable s0 s.

Lemma promised_inv : Inv fixed s.
Proof. eapply reachable_inv; [by eapply initial_inv | done]. Qed.

(** C21: the memory the diagnostics account for is exact and bounded, whatever
    recorders and collector do: [used_bytes] is the fixed cost of the store,
    twice the text of every registered record (for its copy) and the text of
    the history, and never exceeds [max_bytes]; the number of active records
    is the number of registered records that are not closed, and history,
    channel and active records stay within their limits. *)
Theorem debug_budget_exact :
  let c := capture s in
  used_bytes c = fixed + total registered_bytes (slots c) + retained_bytes (q_history (query s)) /\
  used_bytes c <= max_bytes (options c) /\
  active c = total live (slots c) /\ active c <= max_active (options c) /\
  Z.of_nat (history_len (query s)) <= max_events (options c) /\
  Z.of_nat (length (pending_queue c)) <= max_pending_events (options c).
Proof.
  destruct promised_inv as (I1 & I2 & I3 & _ & _ & _ & _ & es & HO & [B1 B2]). cbn.
  rewrite (retained_ok _ _ _ HO), <- (registered_bytes_ok _ _ _ _ _ I2).
  pose proof (ri_fits _ _ _ _ _ (hi_ring _ _ _ HO)). pose proof (op_events _ _ I1).
  repeat split; try done; [apply (so_active _ _ _ _ _ I2) | apply (so_bound _ _ _ _ _ I2) | lia].
Qed.

(** Draining an event, in any state that can occur, succeeds: the record
    the event describes is still registered, the record's state as it was
    when the event was queued becomes the newest entry of the history under
    the next number, and entries only leave from the old end.  The event does
    not enter only when the numbers are used up or its text does not fit the
    budget even beside an empty history. *)
Theorem debug_event_enters e : q_pending (query s) = Some e ->
  exists t s', slots (capture s) !! ev_slot e = Some t /\ occupied t = true /\
    generation t = ev_generation e /\ r_id (record t) = s_id (ev_state e) /\
    s_version (ev_state e) <= r_version (record t) /\
    drain_pending s = (Ret tt, s') /\ q_pending (query s') = None /\
    let before := history_list (options (capture s)) (query s) in
    let after := history_list (options (capture s')) (query s') in
    let new := mkEvent (q_cursor (query s) + 1) (apply_state (ev_state e) (record t)) in
    (q_cursor (query s') = q_cursor (query s) + 1 /\
     ((exists n, after = drop n before ++ [new]) \/
      after = [] /\ max_bytes (options (capture s')) < used_bytes (capture s') + text_cost (record t))) \/
    (after = before /\ q_cursor (query s') = MAX u64 /\ exhausted (capture s') = true).
Proof.
  intros Hp. pose proof promised_inv as HI.
  destruct (inv_pending _ _ _ HI Hp) as (t & Hlk & (F1 & F2 & F3 & F4)).
  destruct (yields_after _ _ _ (drain_pending_spec fixed s e t _ HI Hp Hlk (inv_history _ _ HI)))
    as ([] & Hrun & HI' & P' & _ & _ & _ & O' & _ & _ & _ & es' & [HO' _] & Hent).
  exists t, (after drain_pending s). pose proof HI as (_ & I2 & _).
  pose proof (so_slot _ _ _ _ _ I2 _ t Hlk) as Hok. unfold slot_ok in Hok. rewrite F1 in Hok.
  do 4 (split; [done|]). split; [lia|]. do 2 (split; [done|]). cbn.
  rewrite (history_list_ok _ _ _ HO'). destruct Hent as [(_ & ? & ? & ->)|(? & Hcase)]; [by right|].
  left. split; [done|]. exact Hcase.
Qed.

(** C20: reading events from a cursor answers exactly what the history holds:
    the entries numbered one after the other from the cursor on, as many as
    asked for or all up to the newest; [HistoryGap] when, and only when, a
    number that was asked for is not in the history; [InvalidCursor] when the
    cursor lies in the future or nothing is asked for.  Reading changes
    nothing and does not panic. *)
Theorem debug_events_exact after limit : 0 <= after -> 0 <= limit ->
  let history := history_list (options (capture s)) (query s) in
  let cursor := q_cursor (query s) in
  snd (read_events after limit s) = s /\
  match fst (read_events after limit s) with
  | Ret r =>
    after <= cursor /\ limit <> 0 /\ numbered after (evs_events r) /\
    next_cursor_of r = after + Z.of_nat (length (evs_events r)) /\ next_cursor_of r <= cursor /\
    Z.of_nat (length (evs_events r)) <= limit /\
    (Z.of_nat (length (evs_events r)) < limit -> next_cursor_of r = cursor) /\
    (forall e, e ∈ evs_events r -> e ∈ history)
  | Fail EInvalidCursor => cursor < after \/ limit = 0
  | Fail EHistoryGap => after <= cursor /\ limit <> 0 /\ exists q, missing history after limit cursor q
  | _ => False
  end.
Proof.
  intros Ha Hl. pose proof (inv_history _ _ promised_inv) as [HO _]. cbn.
  set (es := history_list (options (capture s)) (query s)) in *. set (cursor := q_cursor (query s)) in *.
  unfold read_events. cbn.
  destruct ((cursor <? after) || (limit =? 0)) eqn:Hbad; [cbn; split; [done | lia]|].
  apply orb_false_iff in Hbad as [Hc Hl0]. pose proof HO as [Hring Hs Hg Hcur].
  rewrite (events_loop_collect _ _ _ es _ _ _ _ _ _ Hring) by lia. rewrite drop_0. cbn.
  pose proof (collect_spec [] es after limit cursor [] after Hs) as HC.
  specialize (HC ltac:(done) ltac:(apply list.Forall_forall; intros; lia)
    ltac:(eapply Forall_impl; [|exact Hg]; cbn; intros; tauto)
    ltac:(done) ltac:(cbn; lia) ltac:(cbn; lia) ltac:(by intros e ?%not_elem_of_nil)).
  destruct (collect es after limit [] after) as [[out next]|e]; cbn.
  - destruct HC as (C1 & C2 & C3 & C4 & C5).
    destruct ((Z.of_nat (length out) <? limit) && (next <? cursor)) eqn:Hgap; cbn.
    + split; [done|]. split; [lia|]. split; [lia|]. exists (next + 1). split; [lia|]. split; [lia|].
      intros e He. specialize (C5 ltac:(lia)). rewrite list.Forall_forall in C5. specialize (C5 e He). lia.
    + split; [done|]. assert (next <= cursor) as Hnc.
      { destruct out as [|x out _] using rev_ind; [cbn in *; lia|].
        specialize (C4 x ltac:(apply elem_of_app; right; by apply list_elem_of_singleton)).
        rewrite list.Forall_forall in Hg. specialize (Hg x C4).
        unfold numbered in C1. rewrite map_app, length_app in C1. cbn [map length] in C1.
        rewrite Nat2Z.inj_add, seqZ_app, (seqZ_cons (_ + _) (Z.of_nat 1)), (seqZ_nil (Z.succ _)) in C1 by lia.
        apply app_inj_tail in C1 as [_ C1].
        rewrite length_app in C2. cbn [length] in C2. lia. }
      repeat split; try done; lia.
  - destruct HC as (-> & q & Hq). split; [done|]. split; [lia|]. split; [lia|]. by exists q.
Qed.

(** C16: a snapshot, while recorders go on between the sections that take it.
    The records listed are registered ones, each once, in the order of their
    ids and within the byte budget; each is as it was at its version, which is
    not newer than the record is now.  Every record registered at the start is
    listed, not older than it was, unless it was closed and given back
    meanwhile; and more than [max_closed] closed records are listed only when
    an event of each closed one still waits to be drained.  When no recorder
    runs in between, taking the snapshot only gives back slots of closed
    records, and the snapshot lists exactly the records in use, as they are,
    with at most [max_closed] closed ones (an exhausted store, whose counters
    have run out, may hold older copies).  It fails only when the records do
    not fit the budget, or when another thread holds one of the mutexes. *)
Theorem debug_snapshot_exact now budget : 0 <= budget <= MAX u64 ->
  match handle_snapshot now budget s with
  | (r, s') =>
    reachable s0 s' /\ (calm s -> r <> Fail EBusy) /\ (quiet s -> collected s s') /\
    match r with
    | Ret sn => snapshot_of s s' (sn_records sn) /\ total cost (sn_records sn) <= budget
    | Fail ECapacity => exists rs, snapshot_of s s' rs /\ budget < total cost rs
    | Fail EBusy => True
    | _ => False
    end
  end.
Proof.
  intros Hb. pose proof promised_inv as HI. unfold handle_snapshot. unfold bind at 1.
  destruct (query_lock_spec fixed s HI) as [(s' & -> & HI' & HG & Htr & Hw & Hcl)|(s' & -> & _ & HG & Hn)].
  2: { split; [etransitivity; [exact Hreach | apply (wt_reach _ _ HG)]|]. split; [by intros Hc%Hn|].
       split; [intros Hq; apply (wt_quiet _ _ HG Hq) | done]. }
  destruct (indexed_records_spec fixed s' HI') as (rs & Hrs & HF).
  pose proof (snapshot_copied fixed s s' rs HI HI' HG Htr Hw Hcl HF) as Hsp.
  unfold make_snapshot. cbn. rewrite Hrs. cbn. rewrite filter_true, snapshot_budget_spec by lia.
  assert (reachable s0 s' /\ (quiet s -> collected s s')) as [H1 H2].
  { split; [etransitivity; [exact Hreach | apply (wt_reach _ _ HG)] | intros Hq; apply (wt_quiet _ _ HG Hq)]. }
  destruct (0 + total cost rs <=? budget) eqn:Hfit; cbn; repeat (split; [done|]).
  - lia.
  - exists rs. split; [done | lia].
Qed.
End promises.

(** ** A store at work *)

Module Example.
#[global] Instance sizes : Sizes := Build_Sizes 512 64 160 48 240 8 208 16 8 216 96 200.
#[global] Instance sizes_ok : SizesOk.
Proof. by split. Qed.

Definition some_options : Options := mkOptions 2 1 4 16 16384 4 100.
Definition info : RuntimeInfo := mkRuntimeInfo true false true 2 4.
Definition fixed : Z := default 0 (fixed_cost some_options).

(** A task is registered, runs and closes; its first event is received and
    then drained. *)
Definition start : Store :=
  default (mkStore (mkCapture some_options info 1 [] (mkRegistration [] [] 1) [] (mkWake false false)
                      0 0 0 0 false false false) (make_query 0 0) []) (initial_store some_options info 1).
Definition token : Recorder := mkRecorder true 1 0 1.
Definition create : Action := act_child 5 5 (mkRecorder true 0 0 0) Task (mkTaskInfo [97; 98] [99; 0] 7) 0 false.
Definition finish : Action := act_state 6 token Closed true (MAX usize) false.
Definition created : Store := after (modify_capture (act create)) start.
Definition closed : Store := after (modify_capture (act finish)) created.
Definition received : Store := after receive closed.
Definition drained : Store := after drain_pending received.

Lemma options_accepted : options_valid some_options = true.
Proof. by vm_compute. Qed.

Lemma fixed_exact : fixed_cost some_options = Some fixed.
Proof. by vm_compute. Qed.

Lemma start_initial : initial_store some_options info 1 = Some start.
Proof. by vm_compute. Qed.

Lemma closed_reachable : reachable start closed.
Proof.
  apply (rtc_l _ _ created); [apply (step_act start create)|].
  apply (rtc_l _ _ closed); [apply (step_act created finish) | apply rtc_refl].
Qed.

Lemma received_reachable : reachable start received.
Proof. eapply rtc_r; [apply closed_reachable | apply step_receive]. Qed.

(** A query that others disturb: a second task is registered before the first
    event is drained, and closed after the scan. *)
Definition nothing : Pause := mkPause [] false.
Definition finish_second : Action := act_state 7 (mkRecorder true 2 1 1) Closed true (MAX usize) false.
Definition disturbed : Store :=
  mkStore (capture closed) (query closed)
    ([nothing; nothing; mkPause [create] false] ++ replicate 6 nothing ++ [mkPause [finish_second] false]).

Lemma drained_reachable : reachable start drained.
Proof. eapply rtc_r; [apply received_reachable | apply step_drain]. vm_compute. by eexists. Qed.

Lemma disturbed_reachable : reachable start disturbed.
Proof. eapply rtc_r; [apply closed_reachable | apply step_others]. Qed.

Lemma options_typed : options_typed some_options.
Proof. unfold DebugSpec.options_typed, some_options, MAX. cbn. lia. Qed.
End Example.

Theorem debug_budget_exact_witness :
  used_bytes (capture Example.drained) = Example.fixed + 2 * 3 + 3 /\ active (capture Example.drained) = 0.
Proof.
  destruct (debug_budget_exact Example.some_options Example.info 1 Example.fixed Example.start Example.drained
    Example.options_typed Example.options_accepted Example.fixed_exact Example.start_initial Example.drained_reachable)
    as (Hu & _ & Ha & _).
  split; [rewrite Hu | rewrite Ha]; by vm_compute.
Defined.

Theorem debug_event_enters_witness :
  exists e s', q_pending (query Example.received) = Some e /\ drain_pending Example.received = (Ret tt, s') /\
    map sequence (history_list Example.some_options (query s')) = [1].
Proof.
  destruct (q_pending (query Example.received)) as [e|] eqn:He; [|by vm_compute in He].
  destruct (debug_event_enters Example.some_options Example.info 1 Example.fixed Example.start Example.received
    Example.options_typed Example.options_accepted Example.fixed_exact Example.start_initial Example.received_reachable
    e He) as (t & s' & _ & _ & _ & _ & _ & Hrun & _).
  exists e, s'. split; [done|]. split; [done|].
  assert (s' = after drain_pending Example.received) as -> by (unfold after; by rewrite Hrun).
  by vm_compute.
Defined.

Theorem debug_events_exact_witness :
  exists r, fst (read_events 0 10 Example.drained) = Ret r /\ numbered 0 (evs_events r) /\ next_cursor_of r = 1.
Proof.
  pose proof (debug_events_exact Example.some_options Example.info 1 Example.fixed Example.start Example.drained
    Example.options_typed Example.options_accepted Example.fixed_exact Example.start_initial Example.drained_reachable
    0 10 ltac:(lia) ltac:(lia)) as [_ H].
  destruct (fst (read_events 0 10 Example.drained)) as [r|e| |] eqn:Hr; [|by vm_compute in Hr ..].
  exists r. destruct H as (_ & _ & H & _). split; [done|]. split; [exact H|].
  vm_compute in Hr. injection Hr as <-. reflexivity.
Defined.

(** A snapshot during which a second task is registered and closed, and one
    that nobody disturbs. *)
Theorem debug_snapshot_exact_witness :
  (exists sn, fst (handle_snapshot 9 1024 Example.disturbed) = Ret sn /\ total cost (sn_records sn) <= 1024 /\
     map (fun r => (r_id r, r_state r)) (sn_records sn) = [(1, Closed); (2, Created)]) /\
  (exists sn s', handle_snapshot 9 1024 Example.closed = (Ret sn, s') /\ lists_records s' (sn_records sn)).
Proof.
  split.
  - pose proof (debug_snapshot_exact Example.some_options Example.info 1 Example.fixed Example.start Example.disturbed
      Example.options_typed Example.options_accepted Example.fixed_exact Example.start_initial Example.disturbed_reachable
      9 1024 ltac:(split; vm_compute; discriminate)) as H.
    destruct (handle_snapshot 9 1024 Example.disturbed) as [[sn|e| |] s'] eqn:Hsn;
      [|apply (f_equal fst) in Hsn; by vm_compute in Hsn ..].
    exists sn. destruct H as (_ & _ & _ & _ & H). split; [done|]. split; [exact H|].
    apply (f_equal fst) in Hsn. vm_compute in Hsn. injection Hsn as <-. reflexivity.
  - pose proof (debug_snapshot_exact Example.some_options Example.info 1 Example.fixed Example.start Example.closed
      Example.options_typed Example.options_accepted Example.fixed_exact Example.start_initial Example.closed_reachable
      9 1024 ltac:(split; vm_compute; discriminate)) as H.
    assert (exhausted (capture (snd (handle_snapshot 9 1024 Example.closed))) = false) as Hx by (by vm_compute).
    assert (quiet Example.closed) as Hq by (vm_compute; constructor).
    destruct (handle_snapshot 9 1024 Example.closed) as [[sn|e| |] s'] eqn:Hsn;
      [|apply (f_equal fst) in Hsn; by vm_compute in Hsn ..].
    exists sn, s'. destruct H as (_ & _ & _ & Hsp & _). split; [done|].
    by apply (sp_quiet _ _ _ Hsp Hq).
Defined.
