(* ===== verification/FloatSpec.v ===== *)
(** * Binary64 values and the decimal-conversion interface

    An [f64] is its bit pattern ([f64::from_bits]).  [DecimalConversion] is
    what [rstd::num::dec2flt] offers the number parsers: the operation and the
    laws its clients rely on. *)

From Stdlib Require Import ZArith Lia ZifyBool.
From S2P Require Import Prelude Utf8.
Local Open Scope Z_scope.

Definition exponent_bits (bits : Z) : Z := Z.land (Z.shiftr bits 52) 0x7ff.

(** [f64::is_finite] *)
Definition is_finite (bits : Z) : bool := negb (exponent_bits bits =? 0x7ff).

(** [f64::INFINITY_] and [f64::NEG_INFINITY] *)
Definition INFINITY : Z := 0x7ff0000000000000.
Definition NEG_INFINITY : Z := 0xfff0000000000000.

Definition signed_zero (negative : bool) : Z := if negative then Z.shiftl 1 63 else 0.

Inductive dec_error := DecInvalid | DecOverflow.

Record Decimal := MkDecimal
  { integer : list Z; fraction : list Z; dec_exponent : Z; negative : bool }.

Definition digits_ok (s : list Z) : Prop := Forall (fun b => is_digit b = true) s.

Definition decimal_ok (d : Decimal) : Prop :=
  integer d <> [] /\ digits_ok (integer d) /\ digits_ok (fraction d).

(** The number a string of digits denotes, after [acc]. *)
Fixpoint digits_value (acc : Z) (s : list Z) : Z :=
  match s with
  | [] => acc
  | c :: s => digits_value (acc * 10 + (c - 48)) s
  end.

Class DecimalConversion := to_f64 : Decimal -> outcome dec_error Z.

(** A well-formed decimal always converts: to a finite value, or to the
    overflow error; zeros keep their sign. *)
Class DecimalConversionLaws `{DecimalConversion} := {
  to_f64_total d : decimal_ok d ->
    (exists bits, to_f64 d = Ret bits /\ is_finite bits = true /\ 0 <= bits < 2 ^ 64) \/
    to_f64 d = Fail DecOverflow;
  to_f64_zero d : decimal_ok d -> Forall (fun b => b = 48) (integer d ++ fraction d) ->
    to_f64 d = Ret (signed_zero (negative d));
}.
