(* ===== verification/Rounding.v ===== *)
(** * Rounding to the nearest binary64 value

    What a correctly rounded conversion promises, stated on the bit patterns
    themselves, and the arithmetic that establishes it from an integer
    quotient.  Non-negative finite floats are multiples of [2 ^ -1074];
    [scaled_value] is that multiple, so distances are compared exactly. *)

From Stdlib Require Import ZArith Lia ZifyBool.
From S2P Require Import Prelude FloatSpec.
Local Open Scope Z_scope.

Definition fraction_bits (bits : Z) : Z := Z.land bits (2 ^ 52 - 1).

(** [2 ^ 1074]: the reciprocal of the smallest positive float. *)
Definition SCALE : Z := 2 ^ 1074.

(** The unit of the last binade, in units of [2 ^ -1074]. *)
Definition TOP_UNIT : Z := 2 ^ 2045.

(** The value of a non-negative finite float, in units of [2 ^ -1074]. *)
Definition scaled_value (bits : Z) : Z :=
  if exponent_bits bits =? 0 then fraction_bits bits
  else (2 ^ 52 + fraction_bits bits) * 2 ^ (exponent_bits bits - 1).

(** [bits] is the non-negative finite float nearest to [n / d]; on a tie, the
    one with the even significand. *)
Definition nearest_even (n d bits : Z) : Prop :=
  0 <= bits < INFINITY /\
  forall other, 0 <= other < INFINITY ->
    let distance x := Z.abs (scaled_value x * d - n * SCALE) in
    distance bits < distance other \/
    distance bits = distance other /\ (other = bits \/ Z.even bits = true).

(** Half-way between the largest float and [2 ^ 1024]: from there on,
    rounding leaves the finite floats. *)
Definition overflow_bound : Z := (2 ^ 54 - 1) * 2 ^ 970.

Lemma SCALE_pos : 0 < SCALE.
Proof. reflexivity. Qed.

Lemma TOP_UNIT_pos : 0 < TOP_UNIT.
Proof. reflexivity. Qed.

Lemma overflow_bound_scaled : overflow_bound * (2 * SCALE) = (2 ^ 54 - 1) * TOP_UNIT.
Proof. vm_compute. reflexivity. Qed.

Lemma TOP_UNIT_max e : 0 <= e <= 2045 -> 2 ^ e <= TOP_UNIT.
Proof. intros. apply Z.pow_le_mono_r; lia. Qed.

(** ** Bit patterns *)

Lemma fields b :
  0 <= b < INFINITY ->
  exponent_bits b = b / 2 ^ 52 /\ fraction_bits b = b mod 2 ^ 52 /\ 0 <= b / 2 ^ 52 < 2047.
Proof.
  intros Hb. assert (0 <= b / 2 ^ 52 < 2047) as He.
  { split; [apply Z.div_pos; lia|]. apply Z.div_lt_upper_bound; [lia|]. unfold INFINITY in Hb. lia. }
  split_and!; try lia.
  - unfold exponent_bits. rewrite Z.shiftr_div_pow2 by lia. change 0x7ff with (2 ^ 11 - 1).
    rewrite land_mask by lia. apply Z.mod_small. lia.
  - apply land_mask. lia.
Qed.

Lemma encode_fields e f :
  0 <= e < 2047 -> 0 <= f < 2 ^ 52 ->
  0 <= e * 2 ^ 52 + f < INFINITY /\ exponent_bits (e * 2 ^ 52 + f) = e /\ fraction_bits (e * 2 ^ 52 + f) = f.
Proof.
  intros He Hf. assert (0 <= e * 2 ^ 52 + f < INFINITY) as Hb by (unfold INFINITY; lia).
  destruct (fields _ Hb) as (-> & -> & _). split; [done|].
  rewrite Z.div_add_l, Z.div_small by lia. rewrite (Z.add_comm (e * 2 ^ 52) f), Z.mod_add, Z.mod_small by lia. lia.
Qed.

Lemma scaled_range b :
  0 <= b < INFINITY ->
  exponent_bits b = 0 /\ 0 <= scaled_value b < 2 ^ 52 \/
  0 < exponent_bits b /\ 2 ^ (51 + exponent_bits b) <= scaled_value b < 2 ^ (52 + exponent_bits b).
Proof.
  intros Hb. destruct (fields b Hb) as (He & Hf & Hr). pose proof (Z.mod_pos_bound b (2 ^ 52) ltac:(lia)).
  unfold scaled_value. destruct (Z.eqb_spec (exponent_bits b) 0) as [H0|H0]; [left; lia|]. right. split; [lia|].
  replace (51 + exponent_bits b) with (52 + (exponent_bits b - 1)) by lia.
  replace (52 + exponent_bits b) with (53 + (exponent_bits b - 1)) by lia.
  rewrite !(Z.pow_add_r 2) by lia. pose proof (Z.pow_pos_nonneg 2 (exponent_bits b - 1)). nia.
Qed.

Lemma scaled_mono a b : 0 <= a -> a < b -> b < INFINITY -> scaled_value a < scaled_value b.
Proof.
  intros Ha Hab Hb. destruct (fields a ltac:(lia)) as (Ea & Fa & Ra). destruct (fields b ltac:(lia)) as (Eb & Fb & Rb).
  pose proof (Z.div_mod a (2 ^ 52) ltac:(lia)) as Da. pose proof (Z.div_mod b (2 ^ 52) ltac:(lia)) as Db.
  pose proof (Z.mod_pos_bound a (2 ^ 52) ltac:(lia)). pose proof (Z.mod_pos_bound b (2 ^ 52) ltac:(lia)).
  destruct (Z.eq_dec (exponent_bits a) (exponent_bits b)) as [He|He].
  - unfold scaled_value. rewrite <- He. destruct (exponent_bits a =? 0) eqn:E0; [lia|].
    apply Z.mul_lt_mono_pos_r; [apply Z.pow_pos_nonneg; lia | lia].
  - assert (exponent_bits a < exponent_bits b) as Hlt by lia.
    destruct (scaled_range a ltac:(lia)) as [[Ha0 Ha1]|[Ha0 Ha1]],
      (scaled_range b ltac:(lia)) as [[Hb0 Hb1]|[Hb0 Hb1]]; try lia.
    + assert (2 ^ 52 <= 2 ^ (51 + exponent_bits b)) by (apply Z.pow_le_mono_r; lia). lia.
    + assert (2 ^ (52 + exponent_bits a) <= 2 ^ (51 + exponent_bits b)) by (apply Z.pow_le_mono_r; lia). lia.
Qed.

Lemma scaled_inj a b : 0 <= a < INFINITY -> 0 <= b < INFINITY -> scaled_value a = scaled_value b -> a = b.
Proof.
  intros Ha Hb E. destruct (Z.lt_total a b) as [H|[H|H]]; [|done|].
  - pose proof (scaled_mono a b). lia.
  - pose proof (scaled_mono b a). lia.
Qed.

(** From [2 ^ e] on, the floats are multiples of the unit of that binade. *)
Lemma scaled_multiple b e :
  0 <= b < INFINITY -> -1022 <= e -> 2 ^ (e + 1074) <= scaled_value b ->
  exists k, scaled_value b = k * 2 ^ (e + 1022).
Proof.
  intros Hb He Hge. destruct (scaled_range b Hb) as [[H0 H1]|[H0 H1]].
  { assert (2 ^ 52 <= 2 ^ (e + 1074)) by (apply Z.pow_le_mono_r; lia). lia. }
  assert (e + 1074 < 52 + exponent_bits b) by (apply (Z.pow_lt_mono_r_iff 2); lia).
  unfold scaled_value. destruct (Z.eqb_spec (exponent_bits b) 0); [lia|].
  exists ((2 ^ 52 + fraction_bits b) * 2 ^ (exponent_bits b - 1 - (e + 1022))).
  rewrite <- Z.mul_assoc, <- Z.pow_add_r by lia. do 2 f_equal. lia.
Qed.

(** A significand of 53 bits and an exponent, put together. *)
Lemma scaled_encode e m :
  -1022 <= e <= 1023 -> 2 ^ 52 <= m < 2 ^ 53 ->
  let b := (e + 1023) * 2 ^ 52 + (m - 2 ^ 52) in
  0 <= b < INFINITY /\ scaled_value b = m * 2 ^ (e + 1022) /\ Z.even b = Z.even m.
Proof.
  intros He Hm b. destruct (encode_fields (e + 1023) (m - 2 ^ 52)) as (Hb & Eb & Fb); [lia | lia |]. fold b in Hb, Eb, Fb.
  split_and!; try lia.
  - unfold scaled_value. rewrite Eb, Fb. destruct (Z.eqb_spec (e + 1023) 0); [lia|]. f_equal; [lia | f_equal; lia].
  - unfold b. rewrite Z.even_add, Z.even_sub, Z.even_mul. change (Z.even (2 ^ 52)) with true.
    rewrite orb_true_r. by destruct (Z.even m).
Qed.

Lemma scaled_subnormal m : 0 <= m <= 2 ^ 52 -> 0 <= m < INFINITY /\ scaled_value m = m.
Proof.
  intros Hm. destruct (Z.eq_dec m (2 ^ 52)) as [->|Hne]; [split; [unfold INFINITY; lia | done]|].
  destruct (encode_fields 0 m) as (Hb & Eb & Fb); [lia | lia |]. rewrite Z.mul_0_l, Z.add_0_l in *.
  split; [done|]. unfold scaled_value. by rewrite Eb, Fb.
Qed.

(** ** Closest integers *)

(** [q] is the integer nearest to [x / y], even on a tie. *)
Definition closest (q x y : Z) : Prop :=
  forall k, Z.abs (q * y - x) < Z.abs (k * y - x) \/
            Z.abs (q * y - x) = Z.abs (k * y - x) /\ (k = q \/ Z.even q = true).

Lemma closest_scale q x y c : 0 < c -> closest q x y -> closest q (x * c) (y * c).
Proof.
  intros Hc H k. assert (forall j, Z.abs (j * (y * c) - x * c) = Z.abs (j * y - x) * c) as Hd.
  { intros j. rewrite <- (Z.abs_eq c) at 3 by lia. rewrite <- Z.abs_mul. f_equal. ring. }
  rewrite !Hd. destruct (H k) as [Hlt|[Heq Hk]]; [left; nia | right; split; [congruence | done]].
Qed.

Lemma closest_unscale q x y c : 0 < c -> closest q (x * c) (y * c) -> closest q x y.
Proof.
  intros Hc H k. assert (forall j, Z.abs (j * (y * c) - x * c) = Z.abs (j * y - x) * c) as Hd.
  { intros j. rewrite <- (Z.abs_eq c) at 3 by lia. rewrite <- Z.abs_mul. f_equal. ring. }
  specialize (H k). rewrite !Hd in H. destruct H as [Hlt|[Heq Hk]]; [left; nia | right; split; [nia | done]].
Qed.

(** Half a unit either way, and less on the side of an odd neighbour. *)
Lemma closest_bounds q x y :
  0 < y -> closest q x y ->
  (2 * q - 1) * y <= 2 * x <= (2 * q + 1) * y /\
  (Z.even q = false -> (2 * q - 1) * y < 2 * x < (2 * q + 1) * y).
Proof.
  intros Hy H. pose proof (H (q + 1)) as Hup. pose proof (H (q - 1)) as Hdown.
  rewrite Z.mul_add_distr_r in Hup. rewrite Z.mul_sub_distr_r in Hdown.
  split.
  - destruct Hup as [Hup|[Hup _]], Hdown as [Hdown|[Hdown _]]; lia.
  - intros Hodd. destruct Hup as [Hup|[Hup [?|?]]], Hdown as [Hdown|[Hdown [?|?]]]; lia || congruence.
Qed.

(** The quotient [rounded_quotient] computes: [sticky] says that digits
    were cut off. *)
Definition rounded (n d : Z) (sticky : bool) : Z :=
  let q := n / d in
  let r := n mod d in
  if (d <? 2 * r) || ((2 * r =? d) && (sticky || negb (Z.even q))) then q + 1 else q.

(** Rounding [n / d] also rounds the value with the digits that were cut off,
    as long as these do not reach the next half. *)
Lemma rounded_closest n d sticky t rest :
  0 < d -> 0 < t -> 0 <= rest ->
  (sticky = false -> rest = 0) ->
  (sticky = true -> 0 < rest /\ n mod d * t + rest <= d * t /\
                    (2 * (n mod d) < d -> 2 * (n mod d * t + rest) < d * t)) ->
  closest (rounded n d sticky) (n * t + rest) (d * t).
Proof.
  intros Hd Ht Hrest Hexact Hsticky. pose proof (Z.div_mod n d ltac:(lia)) as Hdm.
  pose proof (Z.mod_pos_bound n d Hd) as Hm. unfold rounded.
  set (q := n / d) in *. set (r := n mod d) in *. set (y := d * t). set (R := r * t + rest).
  assert (0 < y) as Hy by (unfold y; nia).
  assert (n * t + rest = q * y + R) as Ex by (unfold y, R; rewrite Hdm; ring). rewrite Ex.
  assert (0 <= R <= y) as HR.
  { unfold R, y. destruct sticky; [destruct (Hsticky eq_refl); nia | rewrite (Hexact eq_refl); nia]. }
  assert (forall k, k * y - (q * y + R) = (k - q) * y - R) as Ek by (intros; ring).
  assert (forall j, j < 0 -> j * y <= - y) as Hneg by (intros; nia).
  assert (forall j, 1 < j -> 2 * y <= j * y) as Hbig by (intros; nia).
  destruct ((d <? 2 * r) || ((2 * r =? d) && (sticky || negb (Z.even q)))) eqn:Eup; intros k; rewrite !Ek.
  - assert (y <= 2 * R /\ (y = 2 * R -> Z.even (q + 1) = true)) as [Hhalf Heven].
    { unfold y, R. destruct (Z.ltb_spec d (2 * r)); cbn [orb] in Eup; [split; nia|].
      destruct (Z.eqb_spec (2 * r) d) as [E2|]; cbn [andb] in Eup; [|done]. split; [nia|]. intros Htie.
      destruct sticky; [destruct (Hsticky eq_refl); nia|]. cbn [orb] in Eup.
      rewrite Z.even_add. destruct (Z.even q); [done | done]. }
    replace (q + 1 - q) with 1 by lia. rewrite Z.mul_1_l.
    destruct (Z.lt_total (k - q) 1) as [Hk|[Hk|Hk]].
    + destruct (Z.eq_dec (k - q) 0) as [->|]; [|specialize (Hneg (k - q)); lia].
      destruct (Z.eq_dec y (2 * R)) as [Htie|]; [right; split; [lia | right; by apply Heven] | left; lia].
    + right. rewrite Hk, Z.mul_1_l. split; [done | left; lia].
    + specialize (Hbig (k - q) Hk). left. lia.
  - assert (2 * R <= y /\ (y = 2 * R -> Z.even q = true)) as [Hhalf Heven].
    { unfold y, R. destruct (Z.ltb_spec d (2 * r)); cbn [orb] in Eup; [done|].
      destruct (Z.eqb_spec (2 * r) d) as [E2|Hne]; cbn [andb] in Eup.
      - destruct sticky; [done|]. cbn [orb] in Eup. rewrite (Hexact eq_refl). split; [nia|].
        intros _. destruct (Z.even q); done.
      - destruct sticky; [destruct (Hsticky eq_refl) as (_ & _ & Hs); specialize (Hs ltac:(lia)); split; lia|].
        rewrite (Hexact eq_refl). split; nia. }
    replace (q - q) with 0 by lia. rewrite Z.mul_0_l.
    destruct (Z.lt_total (k - q) 0) as [Hk|[Hk|Hk]].
    + specialize (Hneg (k - q) Hk). left. lia.
    + right. rewrite Hk. split; [done | left; lia].
    + destruct (Z.eq_dec (k - q) 1) as [->|]; [|specialize (Hbig (k - q)); left; lia]. rewrite Z.mul_1_l.
      destruct (Z.eq_dec y (2 * R)) as [Htie|]; [right; split; [lia | right; by apply Heven] | left; lia].
Qed.

(** ** From quotients to floats *)

(** Rounding to a multiple of the unit of the binade of [n / d] picks the
    nearest float: smaller floats are farther than [2 ^ e], which is such a
    multiple. *)
Lemma nearest_normal n d e q b :
  0 < d -> -1022 <= e -> closest q (n * SCALE) (d * 2 ^ (e + 1022)) ->
  d * 2 ^ (e + 1074) <= n * SCALE ->
  0 <= b < INFINITY -> scaled_value b = q * 2 ^ (e + 1022) -> Z.even b = Z.even q ->
  nearest_even n d b.
Proof.
  intros Hd He Hq Hge Hb Hs Hev. split; [done|]. intros other Ho. cbn beta zeta. rewrite Hs, Hev.
  replace (q * 2 ^ (e + 1022) * d) with (q * (d * 2 ^ (e + 1022))) by ring.
  destruct (Z.lt_ge_cases (scaled_value other) (2 ^ (e + 1074))) as [Hlt|Hle].
  - left. assert (2 ^ 52 * (d * 2 ^ (e + 1022)) = d * 2 ^ (e + 1074)) as E52.
    { replace (e + 1074) with (52 + (e + 1022)) by lia. rewrite (Z.pow_add_r 2 52) by lia. ring. }
    specialize (Hq (2 ^ 52)). rewrite E52 in Hq. assert (scaled_value other * d < d * 2 ^ (e + 1074)) by nia.
    destruct Hq as [Hq|[Hq _]]; lia.
  - destruct (scaled_multiple other e Ho He Hle) as [k Ek]. rewrite Ek.
    replace (k * 2 ^ (e + 1022) * d) with (k * (d * 2 ^ (e + 1022))) by ring.
    destruct (Hq k) as [Hlt|[Heq Hk]]; [by left|]. right. split; [done|]. destruct Hk as [->|Hk]; [|by right].
    left. apply scaled_inj; [done | done | congruence].
Qed.

Lemma nearest_subnormal n d q :
  closest q (n * SCALE) d -> 0 <= q <= 2 ^ 52 -> nearest_even n d q.
Proof.
  intros Hq Hr. destruct (scaled_subnormal q Hr) as [Hb Hs]. split; [done|]. intros other Ho. cbn beta zeta.
  rewrite Hs. destruct (Hq (scaled_value other)) as [Hlt|[Heq Hk]]; [by left|]. right. split; [done|].
  destruct Hk as [Hk|Hk]; [|by right]. left. apply scaled_inj; [done | done | congruence].
Qed.

(** A significand that stays below [2 ^ 53] in the last binade, or any in a
    lower one, means that [n / d] is below the bound; reaching [2 ^ 53] in the
    last binade means that it is not. *)
Lemma closest_below n d e q :
  0 < d -> -1022 <= e <= 1023 -> closest q (n * SCALE) (d * 2 ^ (e + 1022)) ->
  q < 2 ^ 53 \/ e < 1023 /\ q = 2 ^ 53 -> n < overflow_bound * d.
Proof.
  intros Hd He Hq Hlt. set (y := d * 2 ^ (e + 1022)) in *.
  assert (0 < 2 ^ (e + 1022)) as Hp0 by (apply Z.pow_pos_nonneg; lia).
  assert (0 < y) as Hy by (unfold y; nia).
  destruct (closest_bounds _ _ _ Hy Hq) as [[_ Hle] Hodd].
  pose proof SCALE_pos as HS. pose proof overflow_bound_scaled as HB.
  pose proof (TOP_UNIT_max (e + 1022) ltac:(lia)) as Hp.
  assert (forall c, 2 * (n * SCALE) < c -> c <= (2 ^ 54 - 1) * (d * TOP_UNIT) -> n < overflow_bound * d) as Hfin.
  { intros c H1 H2. apply (Z.mul_lt_mono_pos_r (2 * SCALE)); [lia|].
    replace (overflow_bound * d * (2 * SCALE)) with (overflow_bound * (2 * SCALE) * d) by ring. rewrite HB. lia. }
  assert (y <= d * TOP_UNIT) as Hyt by (unfold y; nia).
  destruct Hlt as [Hlt|[He2 ->]].
  - destruct (Z.eq_dec q (2 ^ 53 - 1)) as [->|Hne].
    + destruct (Hodd eq_refl) as [_ Hs]. eapply Hfin; [exact Hs|]. lia.
    + apply (Hfin ((2 * q + 2) * y)); [lia|].
      assert ((2 * q + 2) * y <= (2 ^ 54 - 2) * y) by (apply Z.mul_le_mono_nonneg_r; lia). lia.
  - assert (y * 2 <= d * TOP_UNIT) as Hp2.
    { unfold y. pose proof (TOP_UNIT_max (Z.succ (e + 1022)) ltac:(lia)) as H. rewrite Z.pow_succ_r in H by lia. nia. }
    apply (Hfin ((2 ^ 54 + 2) * y)); lia.
Qed.

Lemma closest_overflow n d q :
  0 < d -> closest q (n * SCALE) (d * TOP_UNIT) -> 2 ^ 53 <= q -> overflow_bound * d <= n.
Proof.
  intros Hd Hq Hge. pose proof TOP_UNIT_pos as HT. pose proof SCALE_pos as HS.
  assert (0 < d * TOP_UNIT) as Hy by nia.
  destruct (closest_bounds _ _ _ Hy Hq) as [[Hle _] _]. apply (Z.mul_le_mono_pos_r _ _ (2 * SCALE)); [lia|].
  replace (overflow_bound * d * (2 * SCALE)) with (overflow_bound * (2 * SCALE) * d) by ring.
  rewrite overflow_bound_scaled.
  assert ((2 ^ 54 - 1) * (d * TOP_UNIT) <= (2 * q - 1) * (d * TOP_UNIT)) by (apply Z.mul_le_mono_nonneg_r; lia).
  lia.
Qed.

(** Cancelling a common factor. *)
Lemma nearest_even_scale n d c b : 0 < c -> nearest_even (n * c) (d * c) b -> nearest_even n d b.
Proof.
  intros Hc [Hb H]. split; [done|]. intros other Ho. specialize (H other Ho). cbn beta zeta in *.
  assert (forall x, Z.abs (scaled_value x * (d * c) - n * c * SCALE) = Z.abs (scaled_value x * d - n * SCALE) * c) as E.
  { intros x. rewrite <- (Z.abs_eq c) at 3 by lia. rewrite <- Z.abs_mul. f_equal. ring. }
  rewrite !E in H. destruct H as [H|[H Hk]]; [left; nia | right; split; [nia | done]].
Qed.

Lemma nearest_even_zero d : 0 < d -> nearest_even 0 d 0.
Proof.
  intros Hd. apply (nearest_subnormal 0 d 0); [|lia]. intros k. rewrite Z.mul_0_l, Z.sub_0_r.
  destruct (Z.eq_dec k 0) as [->|]; [right; split; [done | by left] | left; nia].
Qed.
