(* ===== verification/Bignum.v ===== *)
(** * Fixed-capacity big integers: [FixedBig<Capacity>]

    Models [src/core/src/num/bignum.cppm].  A number is its little-endian
    32-bit words and the count of words in use; a method returns [None] where
    the source aborts ([capacity_error]) and on an access outside the array.
    Every method is shown to compute the integer operation it stands for. *)

From Stdlib Require Import ZArith Lia ZifyBool.
From S2P Require Import Prelude.
Local Open Scope Z_scope.

(** A word is reduced to 32 bits when it is stored. *)
Definition lo32 (x : Z) : Z := x mod 2 ^ 32.

Record FixedBig := MkBig { size_ : nat; base_ : list Z }.

Definition load (base : list Z) (i : nat) : option Z := base !! i.
Definition store (base : list Z) (i : nat) (v : Z) : option (list Z) :=
  if (i <? length base)%nat then Some (<[i := v]> base) else None.

Definition clz32 (w : Z) : nat := Z.to_nat (31 - Z.log2 w).

Section Ops.
Context (Capacity : nat).

Definition big_zero : FixedBig := MkBig 0 (replicate Capacity 0).

Definition from_small (value : Z) : option FixedBig :=
  base ← store (base_ big_zero) 0 value; Some (MkBig 1 base).

(** At most two rounds: [value] has 64 bits. *)
Fixpoint from_u64_loop (fuel : nat) (value : Z) (result : FixedBig) : option FixedBig :=
  if value =? 0 then Some result
  else match fuel with
       | O => None
       | S fuel =>
         base ← store (base_ result) (size_ result) (lo32 value);
         from_u64_loop fuel (Z.shiftr value 32) (MkBig (S (size_ result)) base)
       end.

Definition from_u64 (value : Z) : option FixedBig := from_u64_loop 2 value big_zero.

(** [compare_loop n] examines the words [n - 1], .., [0]. *)
Fixpoint compare_loop (n : nat) (lhs rhs : list Z) : option Z :=
  match n with
  | O => Some 0
  | S n =>
    l ← load lhs n; r ← load rhs n;
    if l <? r then Some (-1) else if r <? l then Some 1 else compare_loop n lhs rhs
  end.

Definition compare (a b : FixedBig) : option Z :=
  compare_loop (Nat.max (size_ a) (size_ b)) (base_ a) (base_ b).

Fixpoint is_zero_loop (n i : nat) (base : list Z) : option bool :=
  match n with
  | O => Some true
  | S n => w ← load base i; if negb (w =? 0) then Some false else is_zero_loop n (S i) base
  end.

Definition is_zero (a : FixedBig) : option bool := is_zero_loop (size_ a) 0 (base_ a).

Fixpoint bit_length_loop (n : nat) (base : list Z) : option nat :=
  match n with
  | O => Some 0%nat
  | S n =>
    w ← load base n;
    if negb (w =? 0) then Some (n * 32 + 32 - clz32 w)%nat else bit_length_loop n base
  end.

Definition bit_length (a : FixedBig) : option nat := bit_length_loop (size_ a) (base_ a).

Fixpoint add_loop (n i : nat) (base other : list Z) (carry : Z) : option (list Z * Z) :=
  match n with
  | O => Some (base, carry)
  | S n =>
    l ← load base i; r ← load other i;
    let value := l + r + carry in
    base ← store base i (lo32 value);
    add_loop n (S i) base other (Z.shiftr value 32)
  end.

Definition add (a b : FixedBig) : option FixedBig :=
  let size := Nat.max (size_ a) (size_ b) in
  '(base, carry) ← add_loop size 0 (base_ a) (base_ b) 0;
  if negb (carry =? 0) then
    if (size =? Capacity)%nat then None
    else base ← store base size 1; Some (MkBig (S size) base)
  else Some (MkBig size base).

(** The carry leaves the array after [Capacity] rounds at the latest. *)
Fixpoint add_small_loop (fuel index : nat) (base : list Z) (carry : Z) : option (list Z * nat) :=
  if carry =? 0 then Some (base, index)
  else if (index =? Capacity)%nat then None
  else match fuel with
       | O => None
       | S fuel =>
         w ← load base index;
         let value := w + carry in
         base ← store base index (lo32 value);
         add_small_loop fuel (S index) base (Z.shiftr value 32)
       end.

Definition add_small (a : FixedBig) (other : Z) : option FixedBig :=
  '(base, index) ← add_small_loop Capacity 0 (base_ a) other;
  Some (MkBig (if (size_ a <? index)%nat then index else size_ a) base).

(** [lhs - rhs] wraps in 64 bits before its low word is stored. *)
Fixpoint sub_loop (n i : nat) (base other : list Z) (borrow : Z) : option (list Z * Z) :=
  match n with
  | O => Some (base, borrow)
  | S n =>
    lhs ← load base i; r ← load other i;
    let rhs := r + borrow in
    base ← store base i (lo32 ((lhs - rhs) mod 2 ^ 64));
    sub_loop n (S i) base other (if lhs <? rhs then 1 else 0)
  end.

Definition sub (a b : FixedBig) : option FixedBig :=
  let size := Nat.max (size_ a) (size_ b) in
  '(base, borrow) ← sub_loop size 0 (base_ a) (base_ b) 0;
  if negb (borrow =? 0) then None else Some (MkBig size base).

Fixpoint mul_small_loop (n i : nat) (base : list Z) (other carry : Z) : option (list Z * Z) :=
  match n with
  | O => Some (base, carry)
  | S n =>
    w ← load base i;
    let value := w * other + carry in
    base ← store base i (lo32 value);
    mul_small_loop n (S i) base other (Z.shiftr value 32)
  end.

Definition mul_small (a : FixedBig) (other : Z) : option FixedBig :=
  let size := size_ a in
  '(base, carry) ← mul_small_loop size 0 (base_ a) other 0;
  if negb (carry =? 0) then
    if (size =? Capacity)%nat then None
    else base ← store base size (lo32 carry); Some (MkBig (S size) base)
  else Some (MkBig size base).

(** The words move up from the top, then the vacated ones are cleared. *)
Fixpoint move_loop (n digits : nat) (base : list Z) : option (list Z) :=
  match n with
  | O => Some base
  | S n => w ← load base n; base ← store base (n + digits) w; move_loop n digits base
  end.

Fixpoint clear_loop (n i : nat) (base : list Z) : option (list Z) :=
  match n with
  | O => Some base
  | S n => base ← store base i 0; clear_loop n (S i) base
  end.

(** [shift_loop n]: the words [low + n], .., [low + 1], each joined with the
    high bits of the word below it. *)
Fixpoint shift_loop (n low : nat) (shift : Z) (base : list Z) : option (list Z) :=
  match n with
  | O => Some base
  | S n =>
    let index := (low + S n)%nat in
    w ← load base index; below ← load base (index - 1);
    base ← store base index (Z.lor (lo32 (Z.shiftl w shift)) (Z.shiftr below (32 - shift)));
    shift_loop n low shift base
  end.

Definition mul_pow2 (a : FixedBig) (bits : nat) : option FixedBig :=
  let digits := (bits / 32)%nat in
  let shift := Z.of_nat (bits mod 32) in
  let old_size := size_ a in
  let next_size := (old_size + digits)%nat in
  if (Capacity <? next_size)%nat then None
  else
    base ← move_loop old_size digits (base_ a);
    base ← clear_loop digits 0 base;
    if negb (shift =? 0) && negb (next_size =? 0)%nat then
      top ← load base (next_size - 1);
      let overflow := Z.shiftr top (32 - shift) in
      '(base, final_size) ←
        (if negb (overflow =? 0) then
           if (next_size =? Capacity)%nat then None
           else base ← store base next_size overflow; Some (base, S next_size)
         else Some (base, next_size));
      base ← shift_loop (next_size - (digits + 1)) digits shift base;
      w ← load base digits;
      base ← store base digits (lo32 (Z.shiftl w shift));
      Some (MkBig final_size base)
    else Some (MkBig next_size base).

(** [5 ^ 13] fits a word, so larger exponents go in steps of 13. *)
Fixpoint mul_pow5_loop (fuel : nat) (a : FixedBig) (exponent : nat) : option (FixedBig * nat) :=
  if (13 <=? exponent)%nat then
    match fuel with
    | O => None
    | S fuel => a ← mul_small a 1220703125; mul_pow5_loop fuel a (exponent - 13)
    end
  else Some (a, exponent).

Fixpoint pow5_rest (exponent : nat) (rest : Z) : Z :=
  match exponent with O => rest | S e => pow5_rest e (lo32 (rest * 5)) end.

Definition mul_pow5 (a : FixedBig) (exponent : nat) : option FixedBig :=
  '(a, exponent) ← mul_pow5_loop exponent a exponent;
  mul_small a (pow5_rest exponent 1).

(** One row of the schoolbook product. *)
Fixpoint mul_row (n i j : nat) (w : Z) (other result : list Z) (carry : Z) : option (list Z * Z) :=
  match n with
  | O => Some (result, carry)
  | S n =>
    if (Capacity <=? i + j)%nat then None
    else
      d ← load other j; r ← load result (i + j);
      let value := w * d + r + carry in
      result ← store result (i + j) (lo32 value);
      mul_row n i (S j) w other result (Z.shiftr value 32)
  end.

Fixpoint mul_digits_loop (n i : nat) (base other result : list Z) (result_size : nat)
    : option (list Z * nat) :=
  match n with
  | O => Some (result, result_size)
  | S n =>
    w ← load base i;
    if w =? 0 then mul_digits_loop n (S i) base other result result_size
    else
      '(result, carry) ← mul_row (length other) i 0 w other result 0;
      let size := length other in
      '(result, size) ←
        (if negb (carry =? 0) then
           if (Capacity <=? i + size)%nat then None
           else result ← store result (i + size) (lo32 carry); Some (result, S size)
         else Some (result, size));
      mul_digits_loop n (S i) base other result
        (if (result_size <? i + size)%nat then i + size else result_size)%nat
  end.

Definition mul_digits (a : FixedBig) (other : list Z) : option FixedBig :=
  '(result, result_size) ←
    mul_digits_loop (size_ a) 0 (base_ a) other (replicate Capacity 0) 0;
  Some (MkBig result_size result).

Fixpoint div_rem_loop (n : nat) (base : list Z) (other remainder : Z) : option (list Z * Z) :=
  match n with
  | O => Some (base, remainder)
  | S n =>
    w ← load base n;
    let value := Z.lor (Z.shiftl remainder 32) w in
    base ← store base n (lo32 (value / other));
    div_rem_loop n base other (value mod other)
  end.

(** Division by zero is undefined in the source. *)
Definition div_rem_small (a : FixedBig) (other : Z) : option (FixedBig * Z) :=
  if (other =? 0) && negb (size_ a =? 0)%nat then None
  else '(base, remainder) ← div_rem_loop (size_ a) (base_ a) other 0;
       Some (MkBig (size_ a) base, lo32 remainder).
End Ops.

(** ** The integer a number stands for *)

Definition words_ok (l : list Z) : Prop := Forall (fun w => 0 <= w < 2 ^ 32) l.

Definition words_value (l : list Z) : Z := foldr (fun w acc => w + 2 ^ 32 * acc) 0 l.

Definition big_value (a : FixedBig) : Z := words_value (base_ a).

(** The words past the size are clear: [compare], [add] and [sub] read them. *)
Definition big_ok (Capacity : nat) (a : FixedBig) : Prop :=
  length (base_ a) = Capacity /\ words_ok (base_ a) /\ (size_ a <= Capacity)%nat /\
  forall i w, (size_ a <= i)%nat -> base_ a !! i = Some w -> w = 0.

(** [2 ^ (32 i)], the weight of word [i]. *)
Definition weight (i : nat) : Z := 2 ^ (32 * Z.of_nat i).

Lemma weight_pos i : 0 < weight i.
Proof. unfold weight. apply Z.pow_pos_nonneg; lia. Qed.

Lemma weight_0 : weight 0 = 1.
Proof. done. Qed.

Lemma weight_S i : weight (S i) = 2 ^ 32 * weight i.
Proof. unfold weight. rewrite <- Z.pow_add_r by lia. f_equal. lia. Qed.

Lemma weight_add i j : weight (i + j) = weight i * weight j.
Proof. unfold weight. rewrite <- Z.pow_add_r by lia. f_equal. lia. Qed.

Lemma words_value_cons w l : words_value (w :: l) = w + 2 ^ 32 * words_value l.
Proof. done. Qed.

Lemma words_value_app l k : words_value (l ++ k) = words_value l + weight (length l) * words_value k.
Proof.
  induction l as [|w l IH]; [cbn [app length]; rewrite weight_0; unfold words_value at 2; cbn [foldr]; lia|].
  cbn [app length]. rewrite !words_value_cons, IH, weight_S. lia.
Qed.

Lemma words_value_zeros n : words_value (replicate n 0) = 0.
Proof. induction n as [|n IH]; [done|]. cbn [replicate]. by rewrite words_value_cons, IH. Qed.

Lemma words_value_range l : words_ok l -> 0 <= words_value l < weight (length l).
Proof.
  induction 1 as [|w l Hw Hl IH]; [cbn [length]; rewrite weight_0; unfold words_value; cbn [foldr]; lia|].
  cbn [length]. rewrite words_value_cons, weight_S. nia.
Qed.

Lemma words_value_take_S l i w :
  l !! i = Some w -> words_value (take (S i) l) = words_value (take i l) + w * weight i.
Proof.
  intros Hw. rewrite (take_S_r _ _ _ Hw), words_value_app, length_take_le.
  - rewrite words_value_cons. unfold words_value at 2. cbn [foldr]. lia.
  - apply lookup_lt_Some in Hw. lia.
Qed.

Lemma words_value_split l i w :
  l !! i = Some w ->
  words_value l = words_value (take i l) + w * weight i + weight (S i) * words_value (drop (S i) l).
Proof.
  intros Hw. rewrite <- (words_value_take_S _ _ _ Hw).
  pose proof (lookup_lt_Some _ _ _ Hw) as Hlt.
  rewrite <- (take_drop (S i) l) at 1. rewrite words_value_app, length_take_le by lia. done.
Qed.

Lemma words_value_insert l i w v :
  l !! i = Some w -> words_value (<[i := v]> l) = words_value l + (v - w) * weight i.
Proof.
  intros Hw. pose proof (lookup_lt_Some _ _ _ Hw) as Hlt.
  rewrite (words_value_split (<[i := v]> l) i v) by (by apply list_lookup_insert_eq).
  rewrite (words_value_split l i w Hw), take_insert_ge, drop_insert_lt by lia. lia.
Qed.

Lemma words_value_take l i :
  (forall j w, (i <= j)%nat -> l !! j = Some w -> w = 0) -> words_value (take i l) = words_value l.
Proof.
  intros H. rewrite <- (take_drop i l) at 2. rewrite words_value_app.
  assert (replicate (length (drop i l)) 0 = drop i l) as <-.
  { apply replicate_as_elem_of. split; [done|]. intros x Hx. apply list_elem_of_lookup in Hx as [j Hj].
    rewrite lookup_drop in Hj. eapply H; [|exact Hj]. lia. }
  rewrite words_value_zeros. lia.
Qed.

Lemma words_ok_lookup l i w : words_ok l -> l !! i = Some w -> 0 <= w < 2 ^ 32.
Proof. intros Hl Hi. by eapply Forall_lookup_1 in Hl. Qed.

Lemma words_ok_insert l i v : words_ok l -> 0 <= v < 2 ^ 32 -> words_ok (<[i := v]> l).
Proof. intros. by apply Forall_insert. Qed.

Lemma words_ok_take l i : words_ok l -> words_ok (take i l).
Proof. intros. by apply Forall_take. Qed.

Lemma load_Some base i : (i < length base)%nat -> exists w, load base i = Some w.
Proof. intros H. by apply lookup_lt_is_Some in H as [w Hw]; exists w. Qed.

Lemma store_Some base i v : (i < length base)%nat -> store base i v = Some (<[i := v]> base).
Proof. intros H. unfold store. by rewrite (proj2 (Nat.ltb_lt _ _) H). Qed.

Lemma lo32_range x : 0 <= lo32 x < 2 ^ 32.
Proof. apply Z.mod_pos_bound. lia. Qed.

Lemma lo32_hi32 x : lo32 x + 2 ^ 32 * Z.shiftr x 32 = x.
Proof. unfold lo32. rewrite Z.shiftr_div_pow2 by lia. pose proof (Z.div_mod x (2 ^ 32)). lia. Qed.

#[export] Hint Resolve lo32_range words_ok_insert : rstd.

(** Reads a word in range. *)
Ltac read_word i H :=
  match goal with
  | |- context [load ?base i] =>
    destruct (load_Some base i) as [? H]; [rewrite ?length_insert in *; lia | rewrite H; cbn [mbind option_bind]]
  end.

(** Bounds of a word read. *)
Ltac word_bounds H :=
  let B := fresh "Hb" in
  pose proof (words_ok_lookup _ _ _ ltac:(eassumption) H) as B.

(** ** The operations compute on integers *)

Section Refine.
Context (Capacity : nat).

Lemma big_ok_intro size base :
  length base = Capacity -> words_ok base -> (size <= Capacity)%nat ->
  (forall i w, (size <= i)%nat -> base !! i = Some w -> w = 0) -> big_ok Capacity (MkBig size base).
Proof. by unfold big_ok. Qed.

Lemma big_value_range a : big_ok Capacity a -> 0 <= big_value a < weight (size_ a).
Proof.
  intros (Hl & Hw & Hs & Hz). unfold big_value. rewrite <- (words_value_take _ (size_ a)) by done.
  pose proof (words_value_range _ (words_ok_take _ (size_ a) Hw)) as H.
  by rewrite length_take_le in H by lia.
Qed.

Lemma from_small_correct v :
  (0 < Capacity)%nat -> 0 <= v < 2 ^ 32 ->
  exists a, from_small Capacity v = Some a /\ big_ok Capacity a /\ big_value a = v /\ size_ a = 1%nat.
Proof.
  intros Hc Hv. unfold from_small. cbn [base_ big_zero]. rewrite store_Some by (by rewrite length_replicate).
  eexists. split; [done|]. split_and!; [apply big_ok_intro; try lia | | done].
  - by rewrite length_insert, length_replicate.
  - apply words_ok_insert; [|done]. apply Forall_replicate. lia.
  - intros i w Hi. rewrite list_lookup_insert_ne by lia. rewrite lookup_replicate. tauto.
  - unfold big_value. cbn [base_]. erewrite words_value_insert by (apply lookup_replicate; split; [done | exact Hc]).
    rewrite words_value_zeros, weight_0. lia.
Qed.

Lemma compare_loop_correct n l r :
  length l = length r -> words_ok l -> words_ok r -> (n <= length l)%nat ->
  exists c, compare_loop n l r = Some c /\
    ((c = -1 /\ words_value (take n l) < words_value (take n r)) \/
     (c = 0 /\ words_value (take n l) = words_value (take n r)) \/
     (c = 1 /\ words_value (take n r) < words_value (take n l))).
Proof.
  intros Hlen Hl Hr. induction n as [|n IH]; intros Hn; cbn [compare_loop].
  { exists 0. auto. }
  destruct (load_Some l n) as [x Hx]; [lia|]. destruct (load_Some r n) as [y Hy]; [lia|].
  rewrite Hx, Hy. cbn [mbind option_bind].
  rewrite (words_value_take_S _ _ _ Hx), (words_value_take_S _ _ _ Hy).
  pose proof (words_value_range _ (words_ok_take l n Hl)) as Bl.
  pose proof (words_value_range _ (words_ok_take r n Hr)) as Br.
  rewrite length_take_le in Bl, Br by lia. pose proof (weight_pos n).
  destruct (Z.ltb_spec x y); [exists (-1); split; [done|]; left; split; [done | nia]|].
  destruct (Z.ltb_spec y x); [exists 1; split; [done|]; right; right; split; [done | nia]|].
  assert (x = y) as -> by lia. destruct IH as (c & E & Hc); [lia|]. exists c. split; [done|].
  destruct Hc as [[-> ?]|[[-> ?]|[-> ?]]]; [left | right; left | right; right]; split; (done || lia).
Qed.

Lemma compare_correct a b :
  big_ok Capacity a -> big_ok Capacity b ->
  exists c, compare a b = Some c /\
    ((c = -1 /\ big_value a < big_value b) \/ (c = 0 /\ big_value a = big_value b) \/
     (c = 1 /\ big_value b < big_value a)).
Proof.
  intros (Hl & Hw & Hs & Hz) (Hl' & Hw' & Hs' & Hz'). unfold compare, big_value.
  destruct (compare_loop_correct (Nat.max (size_ a) (size_ b)) (base_ a) (base_ b)) as (c & E & H);
    try done; [lia | lia |].
  exists c. split; [done|]. rewrite !words_value_take in H; [done | |].
  - intros j w Hj. apply Hz'. lia.
  - intros j w Hj. apply Hz. lia.
Qed.

Lemma add_loop_correct n i base other carry :
  length base = length other -> words_ok base -> words_ok other -> (i + n <= length base)%nat ->
  0 <= carry <= 1 ->
  exists base' carry', add_loop n i base other carry = Some (base', carry') /\
    length base' = length base /\ words_ok base' /\ 0 <= carry' <= 1 /\
    (forall j, (i + n <= j)%nat -> base' !! j = base !! j) /\
    words_value base' + carry' * weight (i + n) =
      words_value base + (words_value (take (i + n) other) - words_value (take i other)) + carry * weight i.
Proof.
  revert i base carry. induction n as [|n IH]; intros i base carry Hlen Hb Ho Hn Hc; cbn [add_loop].
  { exists base, carry. rewrite Nat.add_0_r. split_and!; try done; lia. }
  destruct (load_Some base i) as [x Hx]; [lia|]. destruct (load_Some other i) as [y Hy]; [lia|].
  rewrite Hx, Hy. cbn [mbind option_bind]. rewrite store_Some by lia. cbn [mbind option_bind].
  pose proof (words_ok_lookup _ _ _ Hb Hx). pose proof (words_ok_lookup _ _ _ Ho Hy).
  pose proof (lo32_hi32 (x + y + carry)) as Hsplit. pose proof (lo32_range (x + y + carry)).
  destruct (IH (S i) (<[i := lo32 (x + y + carry)]> base) (Z.shiftr (x + y + carry) 32))
    as (base' & carry' & E & Hl & Hok & Hc' & Hframe & Hv).
  { by rewrite length_insert. } { by apply words_ok_insert. } { done. } { rewrite length_insert. lia. } { lia. }
  exists base', carry'. rewrite E. rewrite length_insert in Hl. split_and!; try done; try lia.
  - intros j Hj. rewrite Hframe by lia. by rewrite list_lookup_insert_ne by lia.
  - rewrite (words_value_insert _ _ _ _ Hx), (words_value_take_S _ _ _ Hy), weight_S in Hv.
    replace (S i + n)%nat with (i + S n)%nat in Hv by lia. nia.
Qed.

(** Sums that fit are computed. *)
Lemma add_correct a b :
  big_ok Capacity a -> big_ok Capacity b -> big_value a + big_value b < weight Capacity ->
  exists c, add Capacity a b = Some c /\ big_ok Capacity c /\ big_value c = big_value a + big_value b.
Proof.
  intros (Hl & Hw & Hs & Hz) (Hl' & Hw' & Hs' & Hz') Hfit. unfold add, big_value in *.
  set (size := Nat.max (size_ a) (size_ b)).
  destruct (add_loop_correct size 0 (base_ a) (base_ b) 0) as (base' & carry & E & Hlen & Hok & Hc & Hf & Hv);
    try done; try lia.
  rewrite E. cbn [mbind option_bind]. rewrite weight_0 in Hv. cbn [Nat.add] in Hv.
  rewrite (words_value_take (base_ b) size) in Hv by (intros j w Hj; apply Hz'; lia).
  change (words_value (take 0 (base_ b))) with 0 in Hv.
  pose proof (words_value_range _ Hok) as Hr. pose proof (weight_pos size).
  destruct (Z.eqb_spec carry 0) as [->|Hne]; cbn [negb].
  { eexists. split; [done|]. split; [|cbn [base_]; lia]. apply big_ok_intro; try done; try lia.
    intros i w Hi. rewrite Hf by lia. apply Hz. lia. }
  destruct (Nat.eqb_spec size Capacity) as [Heq|Hneq].
  { exfalso. rewrite Heq in Hv. assert (carry = 1) as -> by lia. lia. }
  rewrite store_Some by lia. cbn [mbind option_bind]. eexists. split; [done|].
  assert (base' !! size = Some 0) as Hx.
  { destruct (load_Some (base_ a) size) as [w Hw0]; [lia|]. rewrite Hf by lia. unfold load in Hw0.
    rewrite Hw0. f_equal. eapply Hz; [|exact Hw0]. lia. }
  split; [|cbn [base_]; rewrite (words_value_insert _ _ _ _ Hx); assert (carry = 1) as -> by lia; lia].
  apply big_ok_intro; try lia.
  - rewrite length_insert. lia.
  - apply words_ok_insert; [done | lia].
  - intros i w Hi. rewrite list_lookup_insert_ne by lia. rewrite Hf by lia. apply Hz. lia.
Qed.

Lemma add_small_loop_index fuel index base carry base' index' :
  add_small_loop Capacity fuel index base carry = Some (base', index') -> (index <= index')%nat.
Proof.
  revert index base carry. induction fuel as [|fuel IH]; intros index base carry E; cbn [add_small_loop] in E;
    (destruct (carry =? 0); [by injection E as <- <-|]); (destruct (index =? Capacity)%nat; [done|]); [done|].
  destruct (load base index) as [w|]; [|done]. cbn [mbind option_bind] in E.
  destruct (store base index _) as [b|]; [|done]. cbn [mbind option_bind] in E. apply IH in E. lia.
Qed.

Lemma add_small_loop_correct fuel index base carry :
  length base = Capacity -> words_ok base -> (index + fuel = Capacity)%nat -> 0 <= carry < 2 ^ 32 ->
  words_value base + carry * weight index < weight Capacity ->
  exists base' index', add_small_loop Capacity fuel index base carry = Some (base', index') /\
    length base' = Capacity /\ words_ok base' /\ (index <= index' <= Capacity)%nat /\
    (forall j, (index' <= j)%nat -> base' !! j = base !! j) /\
    words_value base' = words_value base + carry * weight index /\
    (index' = index \/ exists x, (index < index')%nat /\ base' !! (index' - 1)%nat = Some x /\ 0 < x).
Proof.
  revert index base carry.
  induction fuel as [|fuel IH]; intros index base carry Hlen Hb Hf Hc Hfit; cbn [add_small_loop];
    (destruct (Z.eqb_spec carry 0) as [->|Hne];
     [exists base, index; split_and!; done || lia | destruct (Nat.eqb_spec index Capacity) as [Heq|Hneq]]).
  - pose proof (words_value_range _ Hb) as Hr. rewrite Hlen in Hr. rewrite Heq in Hfit. nia.
  - lia.
  - pose proof (words_value_range _ Hb) as Hr. rewrite Hlen in Hr. rewrite Heq in Hfit. nia.
  - destruct (load_Some base index) as [x Hx]; [lia|]. rewrite Hx. cbn [mbind option_bind].
    rewrite store_Some by lia. cbn [mbind option_bind]. pose proof (words_ok_lookup _ _ _ Hb Hx).
    pose proof (lo32_hi32 (x + carry)) as Hsplit. pose proof (lo32_range (x + carry)).
    pose proof (words_value_insert _ _ _ (lo32 (x + carry)) Hx) as Hv.
    destruct (IH (S index) (<[index := lo32 (x + carry)]> base) (Z.shiftr (x + carry) 32))
      as (base' & index' & E & Hl & Hok & Hi & Hframe & Hv' & Htop).
    { by rewrite length_insert. } { by apply words_ok_insert. } { lia. } { lia. }
    { rewrite Hv, weight_S. nia. }
    exists base', index'. split_and!; try done; try lia.
    + intros j Hj. rewrite Hframe by lia. by rewrite list_lookup_insert_ne by lia.
    + rewrite Hv', Hv, weight_S. nia.
    + right. destruct Htop as [->|(y & Hy & Hy1 & Hy2)]; [|exists y; split_and!; [lia | done | done]].
      (* the carry ended here *)
      assert (Z.shiftr (x + carry) 32 = 0) as Hz0.
      { destruct fuel; cbn [add_small_loop] in E; destruct (Z.eqb_spec (Z.shiftr (x + carry) 32) 0) as [|Hne0]; try done.
        - destruct (Nat.eqb_spec (S index) Capacity); done.
        - destruct (Nat.eqb_spec (S index) Capacity) as [|Hc1]; [done|].
          exfalso. clear -E. destruct (load _ _) as [z|]; [|done]. cbn [mbind option_bind] in E.
          destruct (store _ _ _) as [z'|]; [|done]. cbn [mbind option_bind] in E.
          by apply add_small_loop_index in E; lia. }
      exists (x + carry). rewrite Nat.sub_succ, Nat.sub_0_r. split_and!; [lia | | lia].
      rewrite Hz0 in E. destruct fuel; cbn [add_small_loop] in E; cbn in E; injection E as <-;
        rewrite list_lookup_insert_eq by lia; f_equal; lia.
Qed.

Lemma add_small_correct a v :
  big_ok Capacity a -> 0 <= v < 2 ^ 32 -> big_value a + v < weight Capacity ->
  exists c, add_small Capacity a v = Some c /\ big_ok Capacity c /\ big_value c = big_value a + v /\
    (size_ c = size_ a \/ (size_ a < size_ c)%nat /\ weight (size_ c - 1) <= big_value c).
Proof.
  intros (Hl & Hw & Hs & Hz) Hv Hfit. unfold add_small, big_value in *.
  destruct (add_small_loop_correct Capacity 0 (base_ a) v) as (base' & index & E & Hlen & Hok & Hi & Hf & Hval & Htop);
    try done; [rewrite weight_0; lia|].
  rewrite E. cbn [mbind option_bind]. eexists. split; [done|]. cbn [base_ size_]. rewrite weight_0 in Hval.
  destruct (Nat.ltb_spec (size_ a) index) as [Hlt|Hge]; (split_and!; [apply big_ok_intro; try done; try lia | lia |]).
  - intros j w Hj. rewrite Hf by lia. apply Hz. lia.
  - right. split; [done|]. destruct Htop as [->|(x & _ & Hx & Hpos)]; [lia|]. rewrite (words_value_split _ _ _ Hx).
    pose proof (words_value_range _ (words_ok_take base' (index - 1) Hok)). pose proof (weight_pos (index - 1)).
    pose proof (weight_pos (S (index - 1))).
    assert (0 <= words_value (drop (S (index - 1)) base')) by (apply words_value_range; by apply Forall_drop). nia.
  - intros j w Hj. rewrite Hf by lia. apply Hz. lia.
  - by left.
Qed.

Lemma sub_loop_correct n i base other borrow :
  length base = length other -> words_ok base -> words_ok other -> (i + n <= length base)%nat ->
  0 <= borrow <= 1 ->
  exists base' borrow', sub_loop n i base other borrow = Some (base', borrow') /\
    length base' = length base /\ words_ok base' /\ 0 <= borrow' <= 1 /\
    (forall j, (i + n <= j)%nat -> base' !! j = base !! j) /\
    words_value base' - borrow' * weight (i + n) =
      words_value base - (words_value (take (i + n) other) - words_value (take i other)) - borrow * weight i.
Proof.
  revert i base borrow. induction n as [|n IH]; intros i base borrow Hlen Hb Ho Hn Hc; cbn [sub_loop].
  { exists base, borrow. rewrite Nat.add_0_r. split_and!; try done; lia. }
  destruct (load_Some base i) as [x Hx]; [lia|]. destruct (load_Some other i) as [y Hy]; [lia|].
  rewrite Hx, Hy. cbn [mbind option_bind]. rewrite store_Some by lia. cbn [mbind option_bind].
  pose proof (words_ok_lookup _ _ _ Hb Hx). pose proof (words_ok_lookup _ _ _ Ho Hy).
  set (d := lo32 ((x - (y + borrow)) mod 2 ^ 64)). set (b1 := if x <? y + borrow then 1 else 0).
  assert (d = x - (y + borrow) + 2 ^ 32 * b1 /\ 0 <= b1 <= 1) as [Hd Hb1].
  { unfold d, b1, lo32. rewrite Z.mod_mod_divide by (by exists (2 ^ 32)). split; [|by case_if].
    symmetry. apply (Z.mod_unique_pos _ _ (if x <? y + borrow then -1 else 0)); destruct (Z.ltb_spec x (y + borrow)); lia. }
  pose proof (lo32_range ((x - (y + borrow)) mod 2 ^ 64)) as Hdr. fold d in Hdr.
  destruct (IH (S i) (<[i := d]> base) b1) as (base' & borrow' & E & Hl & Hok & Hc' & Hframe & Hv).
  { by rewrite length_insert. } { by apply words_ok_insert. } { done. } { rewrite length_insert. lia. } { lia. }
  exists base', borrow'. rewrite E. rewrite length_insert in Hl. split_and!; try done; try lia.
  - intros j Hj. rewrite Hframe by lia. by rewrite list_lookup_insert_ne by lia.
  - rewrite (words_value_insert _ _ _ _ Hx), (words_value_take_S _ _ _ Hy), weight_S in Hv.
    replace (S i + n)%nat with (i + S n)%nat in Hv by lia. nia.
Qed.

Lemma sub_correct a b :
  big_ok Capacity a -> big_ok Capacity b -> big_value b <= big_value a ->
  exists c, sub a b = Some c /\ big_ok Capacity c /\ big_value c = big_value a - big_value b.
Proof.
  intros (Hl & Hw & Hs & Hz) (Hl' & Hw' & Hs' & Hz') Hle. unfold sub, big_value in *.
  set (size := Nat.max (size_ a) (size_ b)).
  destruct (sub_loop_correct size 0 (base_ a) (base_ b) 0) as (base' & borrow & E & Hlen & Hok & Hc & Hf & Hv);
    try done; try lia.
  rewrite E. cbn [mbind option_bind]. rewrite weight_0 in Hv. cbn [Nat.add] in Hv.
  rewrite (words_value_take (base_ b) size) in Hv by (intros j w Hj; apply Hz'; lia).
  change (words_value (take 0 (base_ b))) with 0 in Hv.
  assert (forall i w, (size <= i)%nat -> base' !! i = Some w -> w = 0) as Hz0.
  { intros i w Hi. rewrite Hf by lia. apply Hz. lia. }
  pose proof (words_value_range _ (words_ok_take base' size Hok)) as Hr.
  rewrite (words_value_take _ _ Hz0), length_take_le in Hr by lia.
  assert (borrow = 0 \/ borrow = 1) as [->| ->] by lia; [|lia]. cbn [Z.eqb negb]. eexists. split; [done|]. split; [|cbn [base_]; lia].
  apply big_ok_intro; done || lia.
Qed.

Lemma mul_small_loop_correct n i base other carry :
  words_ok base -> (i + n <= length base)%nat -> 0 <= other < 2 ^ 32 -> 0 <= carry < 2 ^ 32 ->
  exists base' carry', mul_small_loop n i base other carry = Some (base', carry') /\
    length base' = length base /\ words_ok base' /\ 0 <= carry' < 2 ^ 32 /\
    (forall j, (i + n <= j)%nat -> base' !! j = base !! j) /\
    words_value base' + carry' * weight (i + n) =
      words_value base + (other - 1) * (words_value (take (i + n) base) - words_value (take i base))
      + carry * weight i.
Proof.
  revert i base carry. induction n as [|n IH]; intros i base carry Hb Hn Ho Hc; cbn [mul_small_loop].
  { exists base, carry. rewrite Nat.add_0_r. split_and!; try done; lia. }
  destruct (load_Some base i) as [x Hx]; [lia|]. rewrite Hx. cbn [mbind option_bind].
  rewrite store_Some by lia. cbn [mbind option_bind]. pose proof (words_ok_lookup _ _ _ Hb Hx).
  set (v := x * other + carry). pose proof (lo32_hi32 v) as Hsplit. pose proof (lo32_range v).
  assert (0 <= Z.shiftr v 32 < 2 ^ 32) as Hc'.
  { rewrite Z.shiftr_div_pow2 by lia. split; [apply Z.div_pos; nia | apply Z.div_lt_upper_bound; nia]. }
  destruct (IH (S i) (<[i := lo32 v]> base) (Z.shiftr v 32))
    as (base' & carry' & E & Hl & Hok & Hc'' & Hframe & Hv).
  { by apply words_ok_insert. } { rewrite length_insert. lia. } { done. } { done. }
  exists base', carry'. rewrite E. rewrite length_insert in Hl. split_and!; try done; try lia.
  - intros j Hj. rewrite Hframe by lia. by rewrite list_lookup_insert_ne by lia.
  - rewrite !take_insert_lt in Hv by lia.
    rewrite (words_value_insert _ _ _ _ Hx) in Hv.
    rewrite !(words_value_insert _ i x) in Hv by (by rewrite lookup_take_lt by lia).
    rewrite (words_value_take_S _ _ _ Hx), weight_S in Hv.
    replace (S i + n)%nat with (i + S n)%nat in Hv by lia. unfold v in *. nia.
Qed.

(** Products that fit are computed; the size grows by at most one word, and
    only when the product needs it. *)
Lemma mul_small_correct a v :
  big_ok Capacity a -> 0 <= v < 2 ^ 32 -> big_value a * v < weight Capacity ->
  exists c, mul_small Capacity a v = Some c /\ big_ok Capacity c /\ big_value c = big_value a * v /\
    (size_ c = size_ a \/ size_ c = S (size_ a) /\ weight (size_ a) <= big_value c).
Proof.
  intros (Hl & Hw & Hs & Hz) Hv Hfit. unfold mul_small, big_value in *.
  destruct (mul_small_loop_correct (size_ a) 0 (base_ a) v 0)
    as (base' & carry & E & Hlen & Hok & Hc & Hf & Hval); try done; try lia.
  rewrite E. cbn [mbind option_bind]. cbn [Nat.add] in Hval.
  rewrite words_value_take in Hval by done. change (words_value (take 0 (base_ a))) with 0 in Hval.
  pose proof (words_value_range _ Hok) as Hr.
  destruct (Z.eqb_spec carry 0) as [->|Hne]; cbn [negb].
  { eexists. split; [done|]. cbn [base_ size_]. split_and!; [|lia|by left]. apply big_ok_intro; try done; try lia.
    intros i w Hi. rewrite Hf by lia. by apply Hz. }
  destruct (Nat.eqb_spec (size_ a) Capacity) as [Heq|Hneq].
  { exfalso. rewrite Heq in Hval. pose proof (weight_pos Capacity). nia. }
  rewrite store_Some by lia. cbn [mbind option_bind]. eexists. split; [done|]. cbn [base_ size_].
  assert (base' !! size_ a = Some 0) as Hx.
  { destruct (load_Some (base_ a) (size_ a)) as [w Hw0]; [lia|]. rewrite Hf by lia. unfold load in Hw0.
    rewrite Hw0. f_equal. eapply Hz; [|exact Hw0]. lia. }
  assert (lo32 carry = carry) as Hlo by (apply Z.mod_small; lia).
  pose proof (words_value_insert _ _ _ (lo32 carry) Hx) as Hins. rewrite Hlo in *.
  pose proof (weight_pos (size_ a)).
  split_and!; [|lia|right; split; [done|]].
  - apply big_ok_intro; [rewrite length_insert; lia | by apply words_ok_insert | lia |].
    intros i w Hi. rewrite list_lookup_insert_ne by lia. rewrite Hf by lia. apply Hz. lia.
  - rewrite Hins. nia.
Qed.

(** ** Shifts *)

Lemma move_loop_correct n digits base :
  (n + digits <= length base)%nat ->
  exists base', move_loop n digits base = Some base' /\ length base' = length base /\
    forall k, base' !! k = if (digits <=? k)%nat && (k <? n + digits)%nat then base !! (k - digits)%nat else base !! k.
Proof.
  revert base. induction n as [|n IH]; intros base Hn; cbn [move_loop].
  { exists base. split_and!; [done | done |]. intros k. destruct (Nat.leb_spec digits k); cbn [andb]; [|done].
    by destruct (Nat.ltb_spec k (0 + digits)); [lia|]. }
  destruct (load_Some base n) as [w Hw]; [lia|]. rewrite Hw. cbn [mbind option_bind].
  rewrite store_Some by lia. cbn [mbind option_bind].
  destruct (IH (<[(n + digits)%nat := w]> base)) as (base' & E & Hl & H); [rewrite length_insert; lia|].
  exists base'. rewrite length_insert in Hl. split_and!; [done | done |]. intros k. rewrite H.
  destruct (Nat.leb_spec digits k); cbn [andb].
  - destruct (Nat.ltb_spec k (n + digits)), (Nat.ltb_spec k (S n + digits)); try lia.
    + by rewrite list_lookup_insert_ne by lia.
    + assert (k = n + digits)%nat as -> by lia. rewrite list_lookup_insert_eq by lia.
      rewrite Nat.add_sub. by symmetry.
    + by rewrite list_lookup_insert_ne by lia.
  - by rewrite list_lookup_insert_ne by lia.
Qed.

Lemma clear_loop_correct n i base :
  (i + n <= length base)%nat ->
  exists base', clear_loop n i base = Some base' /\ length base' = length base /\
    forall k, base' !! k = if (i <=? k)%nat && (k <? i + n)%nat then Some 0 else base !! k.
Proof.
  revert i base. induction n as [|n IH]; intros i base Hn; cbn [clear_loop].
  { exists base. split_and!; [done | done |]. intros k. destruct (Nat.leb_spec i k); cbn [andb]; [|done].
    by destruct (Nat.ltb_spec k (i + 0)); [lia|]. }
  rewrite store_Some by lia. cbn [mbind option_bind].
  destruct (IH (S i) (<[i := 0]> base)) as (base' & E & Hl & H); [rewrite length_insert; lia|].
  exists base'. rewrite length_insert in Hl. split_and!; [done | done |]. intros k. rewrite H.
  destruct (Nat.leb_spec (S i) k), (Nat.leb_spec i k); cbn [andb]; try lia.
  - destruct (Nat.ltb_spec k (S i + n)), (Nat.ltb_spec k (i + S n)); try lia; [done|].
    by rewrite list_lookup_insert_ne by lia.
  - destruct (Nat.ltb_spec k (i + S n)); [|lia]. assert (k = i) as -> by lia.
    by rewrite list_lookup_insert_eq by lia.
  - by rewrite list_lookup_insert_ne by lia.
Qed.

(** The words after the move: [digits] clear ones below the old words. *)
Lemma moved_words a digits base1 base2 :
  big_ok Capacity a -> (size_ a + digits <= Capacity)%nat ->
  move_loop (size_ a) digits (base_ a) = Some base1 -> clear_loop digits 0 base1 = Some base2 ->
  length base2 = Capacity /\ words_ok base2 /\ words_value base2 = big_value a * weight digits /\
  (forall k, (size_ a + digits <= k < Capacity)%nat -> base2 !! k = Some 0) /\
  (forall k, (k < digits)%nat -> base2 !! k = Some 0).
Proof.
  intros (Hl & Hw & Hs & Hz) Hcap E1 E2.
  destruct (move_loop_correct (size_ a) digits (base_ a)) as (b1 & E & Hl1 & H1); [lia|].
  rewrite E1 in E. injection E as <-.
  destruct (clear_loop_correct digits 0 base1) as (b2 & E & Hl2 & H2); [lia|].
  rewrite E2 in E. injection E as <-.
  assert (base2 = replicate digits 0 ++ take (size_ a) (base_ a) ++ replicate (Capacity - size_ a - digits) 0) as ->.
  { apply list_eq. intros k. rewrite H2. cbn [Nat.leb Nat.add andb]. destruct (Nat.ltb_spec k digits) as [Hk|Hk].
    { rewrite lookup_app_l by (by rewrite length_replicate). symmetry. by apply lookup_replicate. }
    rewrite lookup_app_r by (rewrite length_replicate; lia). rewrite length_replicate, H1.
    rewrite (proj2 (Nat.leb_le digits k)) by lia. cbn [andb].
    destruct (Nat.ltb_spec k (size_ a + digits)) as [Hk2|Hk2].
    { rewrite lookup_app_l by (rewrite length_take_le; lia). by rewrite lookup_take_lt by lia. }
    rewrite lookup_app_r by (rewrite length_take_le; lia). rewrite length_take_le by lia.
    destruct (decide (k < Capacity)%nat) as [Hc|Hc].
    - destruct (load_Some (base_ a) k) as [w Hw0]; [lia|]. unfold load in Hw0. rewrite Hw0.
      rewrite (Hz k w) by (done || lia). symmetry. apply lookup_replicate. split; [done | lia].
    - rewrite lookup_ge_None_2 by lia. rewrite lookup_ge_None_2; [done|]. rewrite length_replicate. lia. }
  split_and!.
  - rewrite !length_app, !length_replicate, length_take_le by lia. lia.
  - apply Forall_app. split; [apply Forall_replicate; lia|]. apply Forall_app.
    split; [by apply Forall_take | apply Forall_replicate; lia].
  - rewrite !words_value_app, !words_value_zeros, length_replicate, words_value_take by done.
    unfold big_value. lia.
  - intros k Hk. rewrite lookup_app_r by (rewrite length_replicate; lia).
    rewrite lookup_app_r by (rewrite length_replicate, length_take_le; lia).
    apply lookup_replicate. rewrite length_replicate, length_take_le by lia. split; [done | lia].
  - intros k Hk. rewrite lookup_app_l by (by rewrite length_replicate). by apply lookup_replicate.
Qed.

(** Word [w] shifted left by [s], joined with the high bits of [below]. *)
Definition joined (s w below : Z) : Z := lo32 (w * 2 ^ s) + below / 2 ^ (32 - s).

Lemma joined_lor s w below :
  0 < s < 32 -> 0 <= below < 2 ^ 32 ->
  Z.lor (lo32 (Z.shiftl w s)) (Z.shiftr below (32 - s)) = joined s w below.
Proof.
  intros Hs Hb. unfold joined. rewrite Z.shiftl_mul_pow2, Z.shiftr_div_pow2 by lia.
  assert (2 ^ 32 = 2 ^ (32 - s) * 2 ^ s) as Hpow by (rewrite <- Z.pow_add_r by lia; f_equal; lia).
  assert (lo32 (w * 2 ^ s) = w mod 2 ^ (32 - s) * 2 ^ s) as ->.
  { unfold lo32. rewrite Hpow. apply Z.mul_mod_distr_r; lia. }
  apply lor_add; [lia|]. split; [apply Z.div_pos; lia|]. apply Z.div_lt_upper_bound; lia.
Qed.

Lemma joined_range s w below : 0 < s < 32 -> 0 <= below < 2 ^ 32 -> 0 <= joined s w below < 2 ^ 32.
Proof.
  intros Hs Hb. unfold joined.
  assert (2 ^ 32 = 2 ^ (32 - s) * 2 ^ s) as Hpow by (rewrite <- Z.pow_add_r by lia; f_equal; lia).
  assert (lo32 (w * 2 ^ s) = w mod 2 ^ (32 - s) * 2 ^ s) as ->.
  { unfold lo32. rewrite Hpow. apply Z.mul_mod_distr_r; lia. }
  pose proof (Z.mod_pos_bound w (2 ^ (32 - s))). pose proof (Z.div_pos below (2 ^ (32 - s))).
  pose proof (Z.div_lt_upper_bound below (2 ^ (32 - s)) (2 ^ s)). nia.
Qed.

Lemma shift_loop_correct n low s base :
  words_ok base -> (low + n < length base)%nat -> 0 < s < 32 ->
  exists base', shift_loop n low s base = Some base' /\ length base' = length base /\
    forall k, base' !! k =
      if (low <? k)%nat && (k <=? low + n)%nat
      then w ← base !! k; below ← base !! (k - 1)%nat; Some (joined s w below) else base !! k.
Proof.
  revert base. induction n as [|n IH]; intros base Hb Hn Hs; cbn [shift_loop].
  { exists base. split_and!; [done | done |]. intros k. destruct (Nat.ltb_spec low k); cbn [andb]; [|done].
    by destruct (Nat.leb_spec k (low + 0)); [lia|]. }
  destruct (load_Some base (low + S n)) as [w Hw]; [lia|].
  destruct (load_Some base (low + S n - 1)) as [v Hv]; [lia|].
  rewrite Hw, Hv. cbn [mbind option_bind]. rewrite store_Some by lia. cbn [mbind option_bind].
  pose proof (words_ok_lookup _ _ _ Hb Hv) as Hvr. rewrite joined_lor by done.
  destruct (IH (<[(low + S n)%nat := joined s w v]> base)) as (base' & E & Hl & H); [| | done |].
  { apply words_ok_insert; [done | by apply joined_range]. } { rewrite length_insert. lia. }
  exists base'. rewrite length_insert in Hl. split_and!; [done | done |]. intros k. rewrite H.
  destruct (Nat.ltb_spec low k); cbn [andb].
  - destruct (Nat.leb_spec k (low + n)), (Nat.leb_spec k (low + S n)); try lia.
    + by rewrite !list_lookup_insert_ne by lia.
    + assert (k = low + S n)%nat as -> by lia. rewrite list_lookup_insert_eq by lia.
      unfold load in Hw, Hv. by rewrite Hw, Hv.
    + by rewrite list_lookup_insert_ne by lia.
  - by rewrite list_lookup_insert_ne by lia.
Qed.

(** What a list of words is worth after every word was joined with the one
    below: the shifted value, less what left at the top. *)
Lemma shifted_value s (l f : list Z) :
  0 < s < 32 -> words_ok l -> length f = length l ->
  (forall k w, l !! k = Some w ->
     f !! k = Some (joined s w (match k with O => 0 | S k' => l !!! k' end))) ->
  forall i, (i <= length l)%nat ->
  words_value (take i f) +
    match i with O => 0 | S i' => l !!! i' / 2 ^ (32 - s) end * weight i = words_value (take i l) * 2 ^ s.
Proof.
  intros Hs Hok Hlen Hf i. induction i as [|i IH]; intros Hi; [done|].
  destruct (load_Some l i) as [w Hw]; [lia|]. unfold load in Hw.
  rewrite (words_value_take_S _ _ _ Hw), (words_value_take_S _ _ _ (Hf _ _ Hw)).
  rewrite (list_lookup_total_correct _ _ _ Hw), Z.mul_add_distr_r, <- IH, weight_S by lia.
  unfold joined.
  assert (2 ^ 32 = 2 ^ (32 - s) * 2 ^ s) as Hpow by (rewrite <- Z.pow_add_r by lia; f_equal; lia).
  assert (lo32 (w * 2 ^ s) + 2 ^ 32 * (w / 2 ^ (32 - s)) = w * 2 ^ s) as Hw2.
  { unfold lo32. rewrite Hpow at 1. rewrite Z.mul_mod_distr_r by lia.
    rewrite Hpow. pose proof (Z.div_mod w (2 ^ (32 - s))). nia. }
  assert (match i with O => 0 | S k' => l !!! k' end / 2 ^ (32 - s) =
          match i with O => 0 | S i' => l !!! i' / 2 ^ (32 - s) end) as ->.
  { destruct i; [by rewrite Z.div_0_l by lia | done]. }
  set (c := match i with O => 0 | S i' => _ end). nia.
Qed.

Lemma joined_0 s w : joined s w 0 = lo32 (w * 2 ^ s).
Proof. unfold joined. rewrite Zdiv_0_l. lia. Qed.

Lemma joined_high s top : joined s 0 top = top / 2 ^ (32 - s).
Proof. done. Qed.

(** The words [mul_pow2] works on between its two phases: clear below
    [digits] and from [n] on. *)
Definition moved (base : list Z) (digits n : nat) : Prop :=
  length base = Capacity /\ words_ok base /\ (0 < n <= Capacity)%nat /\ (digits <= n)%nat /\ (digits < Capacity)%nat /\ (forall k, (k < digits)%nat -> base !! k = Some 0) /\ (forall k, (n <= k < Capacity)%nat -> base !! k = Some 0).

Lemma moved_below base digits n k w :
  moved base digits n -> base !! S k = Some w -> base !! k = Some (base !!! k).
Proof.
  intros (Hl & _) Hw. apply lookup_lt_Some in Hw. apply list_lookup_lookup_total_lt. lia.
Qed.

(** No bits leave the array when the shifted value fits. *)
Lemma moved_overflow base digits n s top :
  moved base digits n -> 0 < s < 32 -> words_value base * 2 ^ s < weight Capacity ->
  base !! (n - 1)%nat = Some top -> n = Capacity -> top / 2 ^ (32 - s) = 0.
Proof.
  intros (Hl & Hok & Hn & _) Hs Hfit Htop ->. pose proof (words_ok_lookup _ _ _ Hok Htop) as Htr.
  apply Z.div_small. split; [lia|]. destruct (Z.lt_ge_cases top (2 ^ (32 - s))) as [|Hge]; [done|]. exfalso.
  pose proof (words_value_split base (Capacity - 1) top Htop) as Hsp.
  rewrite drop_ge in Hsp by lia. change (words_value []) with 0 in Hsp.
  pose proof (words_value_range _ (words_ok_take base (Capacity - 1) Hok)).
  assert (weight Capacity = 2 ^ (32 - s) * 2 ^ s * weight (Capacity - 1)) as HW.
  { rewrite <- Z.pow_add_r by lia. replace (32 - s + s) with 32 by lia. rewrite <- weight_S. f_equal. lia. }
  pose proof (weight_pos (Capacity - 1)). assert (2 ^ (32 - s) * weight (Capacity - 1) <= words_value base) by nia.
  assert (0 < 2 ^ s) by (apply Z.pow_pos_nonneg; lia). rewrite HW in Hfit. nia.
Qed.

(** Storing the bits that leave the top word. *)
Lemma overflow_store base digits n s top :
  moved base digits n -> 0 < s < 32 -> words_value base * 2 ^ s < weight Capacity ->
  base !! (n - 1)%nat = Some top ->
  exists base1 size1,
    (if negb (Z.shiftr top (32 - s) =? 0) then
       if (n =? Capacity)%nat then None
       else b ← store base n (Z.shiftr top (32 - s)); Some (b, S n)
     else Some (base, n)) = Some (base1, size1) /\ length base1 = Capacity /\ words_ok base1 /\ (forall k, k <> n -> base1 !! k = base !! k) /\ ((n < Capacity)%nat -> base1 !! n = Some (top / 2 ^ (32 - s))) /\ (size1 = n /\ top / 2 ^ (32 - s) = 0 \/
     size1 = S n /\ (n < Capacity)%nat /\ 0 < top / 2 ^ (32 - s)).
Proof.
  intros Hm Hs Hfit Htop. pose proof (moved_overflow _ _ _ _ _ Hm Hs Hfit Htop) as Hcap.
  destruct Hm as (Hl & Hok & Hn & Hd & Hd2 & Hlow & Hhigh).
  pose proof (words_ok_lookup _ _ _ Hok Htop) as Htr. rewrite Z.shiftr_div_pow2 by lia.
  assert (0 <= top / 2 ^ (32 - s) < 2 ^ 32) as Hor.
  { split; [apply Z.div_pos; lia|]. apply Z.div_lt_upper_bound; nia. }
  destruct (Z.eqb_spec (top / 2 ^ (32 - s)) 0) as [H0|H0]; cbn [negb].
  { exists base, n. split_and!; try done; [|by left]. intros Hlt. rewrite H0. apply Hhigh. lia. }
  destruct (Nat.eqb_spec n Capacity) as [Heq|Hne]; [by apply Hcap in Heq|].
  rewrite store_Some by lia. cbn [mbind option_bind]. eexists _, _. split; [done|]. split_and!.
  - by rewrite length_insert.
  - by apply words_ok_insert.
  - intros k Hk. by rewrite list_lookup_insert_ne by done.
  - intros. by rewrite list_lookup_insert_eq by lia.
  - right. split_and!; [done | lia | lia].
Qed.

(** Every word ends up joined with the one below it. *)
Lemma shift_words base digits n s top base1 :
  moved base digits n -> 0 < s < 32 -> base !! (n - 1)%nat = Some top ->
  length base1 = Capacity -> words_ok base1 -> (forall k, k <> n -> base1 !! k = base !! k) ->
  ((n < Capacity)%nat -> base1 !! n = Some (top / 2 ^ (32 - s))) ->
  exists base2 w base3,
    shift_loop (n - (digits + 1)) digits s base1 = Some base2 /\ load base2 digits = Some w /\ store base2 digits (lo32 (Z.shiftl w s)) = Some base3 /\ length base3 = Capacity /\ forall k w, base !! k = Some w ->
      base3 !! k = Some (joined s w (match k with O => 0 | S k' => base !!! k' end)).
Proof.
  intros Hm Hs Htop Hl1 Hok1 Hne Hn1. pose proof (moved_below base digits n) as Hbelow.
  pose proof Hm as (Hl & Hok & Hn & Hd & Hd2 & Hlow & Hhigh).
  destruct (shift_loop_correct (n - (digits + 1)) digits s base1) as (base2 & E2 & Hl2 & H2); [done | lia | done |].
  assert (base2 !! digits = base !! digits) as Hdig.
  { rewrite H2, Nat.ltb_irrefl. cbn [andb]. destruct (decide (digits = n)) as [->|?]; [|by apply Hne].
    rewrite Hn1, Hhigh by lia. rewrite Hlow in Htop by lia. injection Htop as <-. by rewrite Zdiv_0_l. }
  destruct (load_Some base digits) as [w Hw]; [lia|]. unfold load in Hw. rewrite Hw in Hdig.
  exists base2, w, (<[digits := lo32 (Z.shiftl w s)]> base2). split_and!; try done.
  { apply store_Some. lia. } { rewrite length_insert. lia. }
  intros k v Hv. assert (k < Capacity)%nat as Hk by (apply lookup_lt_Some in Hv; lia).
  destruct (decide (k = digits)) as [->|Hkd].
  { rewrite list_lookup_insert_eq by lia. rewrite Hw in Hv. injection Hv as ->. f_equal.
    rewrite Z.shiftl_mul_pow2 by lia. destruct digits as [|d]; [by rewrite joined_0|].
    rewrite (list_lookup_total_correct base d 0) by (apply Hlow; lia). by rewrite joined_0. }
  rewrite list_lookup_insert_ne by done. rewrite H2.
  assert (match k with O => 0 | S k' => base !!! k' end = 0 -> v = 0 -> (k < digits \/ n < k)%nat ->
    base !! k = Some (joined s v (match k with O => 0 | S k' => base !!! k' end))) as Hout.
  { intros -> -> _. by rewrite Hv. }
  destruct (Nat.ltb_spec digits k) as [Hlt|Hge]; cbn [andb].
  - destruct (Nat.leb_spec k (digits + (n - (digits + 1)))) as [Hle|Hgt].
    + rewrite !Hne by lia. destruct k as [|k]; [lia|]. rewrite Hv. cbn [mbind option_bind].
      rewrite Nat.sub_succ, Nat.sub_0_r, (Hbelow k v) by done. done.
    + destruct (decide (k = n)) as [->|Hkn].
      * rewrite Hn1 by lia. rewrite Hhigh in Hv by lia. injection Hv as <-. destruct n as [|n]; [lia|].
        rewrite Nat.sub_succ, Nat.sub_0_r in Htop. by rewrite (list_lookup_total_correct _ _ _ Htop), joined_high.
      * rewrite Hne by done. apply Hout; [destruct k as [|k]; [done|] | | lia].
        -- apply list_lookup_total_correct, Hhigh. lia.
        -- rewrite Hhigh in Hv by lia. by injection Hv.
  - rewrite Hne by lia. apply Hout; [destruct k as [|k]; [done|] | | lia].
    + apply list_lookup_total_correct, Hlow. lia.
    + rewrite Hlow in Hv by lia. by injection Hv.
Qed.

Lemma shift_phase_correct base digits n s top size1 base3 :
  moved base digits n -> 0 < s < 32 -> words_value base * 2 ^ s < weight Capacity ->
  base !! (n - 1)%nat = Some top ->
  (size1 = n /\ top / 2 ^ (32 - s) = 0 \/ size1 = S n /\ (n < Capacity)%nat /\ 0 < top / 2 ^ (32 - s)) ->
  length base3 = Capacity ->
  (forall k w, base !! k = Some w ->
     base3 !! k = Some (joined s w (match k with O => 0 | S k' => base !!! k' end))) ->
  big_ok Capacity (MkBig size1 base3) /\ words_value base3 = words_value base * 2 ^ s /\
  (size1 = n \/ size1 = S n /\ weight n <= words_value base3).
Proof.
  intros Hm Hs Hfit Htop Hsize Hl3 Hf. pose proof (moved_overflow _ _ _ _ _ Hm Hs Hfit Htop) as Hcap.
  destruct Hm as (Hl & Hok & Hn & Hd & Hd2 & Hlow & Hhigh).
  assert (forall k, (k < Capacity)%nat -> exists v, base !! k = Some v) as Hin by (intros; apply load_Some; lia).
  assert (words_ok base3) as Hok3.
  { apply Forall_lookup_2. intros k x Hx. destruct (Hin k) as [v Hv]; [apply lookup_lt_Some in Hx; lia|].
    rewrite (Hf _ _ Hv) in Hx. injection Hx as <-. apply joined_range; [done|]. destruct k as [|k]; [lia|].
    destruct (Hin k) as [y Hy]; [apply lookup_lt_Some in Hv; lia|].
    rewrite (list_lookup_total_correct _ _ _ Hy). by eapply words_ok_lookup. }
  assert (forall k x, (n < k)%nat -> base3 !! k = Some x -> x = 0) as Habove.
  { intros k x Hk Hx. assert (k < Capacity)%nat by (apply lookup_lt_Some in Hx; lia).
    rewrite (Hf k 0 (Hhigh k ltac:(lia))) in Hx. injection Hx as <-. destruct k as [|k]; [lia|].
    rewrite (list_lookup_total_correct base k 0) by (apply Hhigh; lia). by rewrite joined_high, Zdiv_0_l. }
  assert ((n < Capacity)%nat -> base3 !! n = Some (top / 2 ^ (32 - s))) as Hat.
  { intros Hlt. rewrite (Hf n 0) by (apply Hhigh; lia). destruct n as [|n]; [lia|].
    rewrite Nat.sub_succ, Nat.sub_0_r in Htop. by rewrite (list_lookup_total_correct _ _ _ Htop), joined_high. }
  assert (words_value base3 = words_value base * 2 ^ s) as Hval.
  { pose proof (shifted_value s base base3 Hs Hok ltac:(lia) Hf Capacity ltac:(lia)) as Hsh.
    rewrite !firstn_all2 in Hsh by lia. rewrite <- Hsh. destruct Capacity as [|c] eqn:Ec; [lia|].
    replace (base !!! c / 2 ^ (32 - s)) with 0; [lia|]. destruct (decide (n = S c)) as [->|Hne].
    - rewrite Nat.sub_succ, Nat.sub_0_r in Htop. rewrite (list_lookup_total_correct _ _ _ Htop). by rewrite Hcap.
    - rewrite (list_lookup_total_correct base c 0) by (apply Hhigh; lia). by rewrite Zdiv_0_l. }
  split_and!; [|done|].
  - apply big_ok_intro; [done | done | lia |]. intros k x Hk Hx. destruct (decide (k = n)) as [->|]; [|eapply Habove; [|exact Hx]; lia].
    destruct Hsize as [[-> H0]|(-> & _)]; [|lia]. rewrite Hat in Hx by (apply lookup_lt_Some in Hx; lia).
    injection Hx as <-. done.
  - destruct Hsize as [[-> _]|(-> & Hlt & Hpos)]; [by left|]. right. split; [done|].
    rewrite (words_value_split _ _ _ (Hat Hlt)). pose proof (weight_pos n). pose proof (weight_pos (S n)).
    pose proof (words_value_range _ (words_ok_take base3 n Hok3)).
    assert (0 <= words_value (drop (S n) base3)) by (apply words_value_range; by apply Forall_drop). nia.
Qed.

(** A shifted value that fits is computed, given room for the moved words. *)
Lemma mul_pow2_room a bits :
  big_ok Capacity a -> (0 < size_ a)%nat -> (size_ a + bits / 32 <= Capacity)%nat ->
  big_value a * 2 ^ Z.of_nat bits < weight Capacity ->
  exists c, mul_pow2 Capacity a bits = Some c /\ big_ok Capacity c /\
    big_value c = big_value a * 2 ^ Z.of_nat bits /\
    (size_ c = (size_ a + bits / 32)%nat \/
     size_ c = S (size_ a + bits / 32) /\ weight (size_ a + bits / 32) <= big_value c).
Proof.
  intros Ha Hs Hroom Hfit. unfold mul_pow2.
  set (digits := (bits / 32)%nat) in *. set (s := Z.of_nat (bits mod 32)).
  assert (2 ^ Z.of_nat bits = weight digits * 2 ^ s) as Hpow.
  { unfold weight. rewrite <- Z.pow_add_r by lia. f_equal. pose proof (Nat.div_mod bits 32). lia. }
  rewrite (proj2 (Nat.ltb_ge _ _) Hroom).
  destruct (move_loop_correct (size_ a) digits (base_ a)) as (b1 & E1 & Hl1 & _); [destruct Ha; lia|].
  destruct (clear_loop_correct digits 0 b1) as (b2 & E2 & Hl2 & _); [destruct Ha; lia|].
  rewrite E1. cbn [mbind option_bind]. rewrite E2. cbn [mbind option_bind].
  destruct (moved_words a digits b1 b2 Ha Hroom E1 E2) as (Hlen & Hok & Hval & Hhigh & Hlow).
  rewrite Hpow, Z.mul_assoc, <- Hval in Hfit |- *.
  destruct (Z.eqb_spec s 0) as [Hs0|Hs0]; cbn [negb andb].
  { eexists. split; [done|]. unfold big_value. cbn [base_ size_]. rewrite Hs0 in *.
    split_and!; [|lia|by left]. apply big_ok_intro; [done | done | lia |].
    intros i w Hi Hw. rewrite Hhigh in Hw by (apply lookup_lt_Some in Hw; lia). by injection Hw. }
  destruct (Nat.eqb_spec (size_ a + digits) 0); [lia|]. cbn [negb].
  assert (0 < s < 32) as Hsr by (pose proof (Nat.mod_upper_bound bits 32); lia).
  assert (moved b2 digits (size_ a + digits)) as Hm by (unfold moved; split_and!; done || lia).
  destruct (load_Some b2 (size_ a + digits - 1)) as [top Htop]; [lia|].
  destruct (overflow_store _ _ _ _ _ Hm Hsr Hfit Htop) as (base1 & size1 & E3 & Hl3 & Hok1 & Hne & Hn1 & Hsize).
  destruct (shift_words _ _ _ _ _ base1 Hm Hsr Htop Hl3 Hok1 Hne Hn1) as (base2 & w & base3 & E4 & E5 & E6 & Hl6 & Hf).
  destruct (shift_phase_correct _ _ _ _ _ size1 base3 Hm Hsr Hfit Htop Hsize Hl6 Hf) as (Hfin & Hv & Hsz).
  rewrite Htop. cbn [mbind option_bind]. rewrite E3. cbn [mbind option_bind]. rewrite E4. cbn [mbind option_bind].
  rewrite E5. cbn [mbind option_bind]. rewrite E6. cbn [mbind option_bind]. eexists. split; [done|].
  by unfold big_value.
Qed.

(** ** Tight numbers: no leading zero words

    The abort of [mul_pow2] looks at the size, not at the value: a number
    with leading zero words could abort although its shift fits.  Fresh
    numbers and products are tight. *)
Definition tight (a : FixedBig) : Prop := (0 < size_ a)%nat /\ weight (size_ a - 1) <= big_value a.

Lemma weight_lt_inv i j : weight i < weight j -> (i < j)%nat.
Proof. unfold weight. intros H. apply Z.pow_lt_mono_r_iff in H; lia. Qed.

Lemma weight_mono i j : (i <= j)%nat -> weight i <= weight j.
Proof. unfold weight. intros. apply Z.pow_le_mono_r; lia. Qed.

Lemma mul_pow2_correct a bits :
  big_ok Capacity a -> tight a -> big_value a * 2 ^ Z.of_nat bits < weight Capacity ->
  exists c, mul_pow2 Capacity a bits = Some c /\ big_ok Capacity c /\ tight c /\
    big_value c = big_value a * 2 ^ Z.of_nat bits.
Proof.
  intros Ha [Hs Ht] Hfit. pose proof (weight_pos (size_ a - 1)).
  assert (weight (bits / 32) <= 2 ^ Z.of_nat bits) as Hp.
  { unfold weight. apply Z.pow_le_mono_r; [lia|]. pose proof (Nat.Div0.mul_div_le bits 32). lia. }
  pose proof (weight_pos (bits / 32)).
  assert (weight (size_ a - 1 + bits / 32) <= big_value a * 2 ^ Z.of_nat bits) as Hw by (rewrite weight_add; nia).
  assert (size_ a - 1 + bits / 32 < Capacity)%nat as Hroom by (apply weight_lt_inv; lia).
  destruct (mul_pow2_room a bits) as (c & E & Hc & Hv & Hsz); [done | done | lia | done |].
  exists c. split_and!; try done. destruct Hsz as [Hz|[Hz Hw']]; split; try lia.
  - rewrite Hz, Hv. etransitivity; [|exact Hw]. apply weight_mono. lia.
  - rewrite Hz. etransitivity; [|exact Hw']. apply weight_mono. lia.
Qed.

Lemma mul_small_tight a v :
  big_ok Capacity a -> tight a -> 0 < v < 2 ^ 32 -> big_value a * v < weight Capacity ->
  exists c, mul_small Capacity a v = Some c /\ big_ok Capacity c /\ tight c /\ big_value c = big_value a * v.
Proof.
  intros Ha [Hs Ht] Hv Hfit. destruct (mul_small_correct a v) as (c & E & Hc & Hval & Hsz); [done | lia | done |].
  pose proof (weight_pos (size_ a - 1)).
  exists c. split_and!; try done. destruct Hsz as [Hz|[Hz Hw]]; split; try lia; rewrite Hz.
  - rewrite Hval. nia.
  - by rewrite Nat.sub_succ, Nat.sub_0_r.
Qed.

Lemma from_small_tight v :
  (0 < Capacity)%nat -> 0 < v < 2 ^ 32 ->
  exists a, from_small Capacity v = Some a /\ big_ok Capacity a /\ tight a /\ big_value a = v.
Proof.
  intros Hc Hv. destruct (from_small_correct v) as (a & E & Ha & Hval & Hs); [done | lia |].
  exists a. split_and!; try done. split; [lia|]. rewrite Hs, Hval. cbn [Nat.sub]. rewrite weight_0. lia.
Qed.

Lemma pow5_rest_correct e rest : 0 < rest -> rest * 5 ^ Z.of_nat e < 2 ^ 32 -> pow5_rest e rest = rest * 5 ^ Z.of_nat e.
Proof.
  revert rest. induction e as [|e IH]; intros rest Hr Hfit; cbn [pow5_rest]; [lia|].
  rewrite Nat2Z.inj_succ, Z.pow_succ_r in Hfit |- * by lia. pose proof (Z.pow_pos_nonneg 5 (Z.of_nat e)).
  assert (lo32 (rest * 5) = rest * 5) as -> by (apply Z.mod_small; nia). rewrite IH; nia.
Qed.

Lemma mul_pow5_loop_correct fuel a e :
  (e <= fuel)%nat -> big_ok Capacity a -> tight a -> big_value a * 5 ^ Z.of_nat e < weight Capacity ->
  exists c e', mul_pow5_loop Capacity fuel a e = Some (c, e') /\ big_ok Capacity c /\ tight c /\ (e' < 13)%nat /\
    big_value c * 5 ^ Z.of_nat e' = big_value a * 5 ^ Z.of_nat e.
Proof.
  revert a e. induction fuel as [|fuel IH]; intros a e Hf Ha Ht Hfit; cbn [mul_pow5_loop];
    destruct (Nat.leb_spec 13 e) as [He|He]; try lia; try (by exists a, e).
  assert (5 ^ Z.of_nat e = 1220703125 * 5 ^ Z.of_nat (e - 13)) as Hpow.
  { change 1220703125 with (5 ^ 13). rewrite <- Z.pow_add_r by lia. f_equal. lia. }
  pose proof (Z.pow_pos_nonneg 5 (Z.of_nat (e - 13))).
  assert (0 < big_value a) by (destruct Ht; pose proof (weight_pos (size_ a - 1)); lia).
  destruct (mul_small_tight a 1220703125) as (c & E & Hc & Htc & Hv); [done | done | lia | nia |].
  rewrite E. cbn [mbind option_bind].
  destruct (IH c (e - 13)%nat) as (c' & e' & E' & Hc' & Ht' & He' & Hv'); [lia | done | done | nia |].
  exists c', e'. split_and!; try done. nia.
Qed.

Lemma mul_pow5_correct a e :
  big_ok Capacity a -> tight a -> big_value a * 5 ^ Z.of_nat e < weight Capacity ->
  exists c, mul_pow5 Capacity a e = Some c /\ big_ok Capacity c /\ tight c /\
    big_value c = big_value a * 5 ^ Z.of_nat e.
Proof.
  intros Ha Ht Hfit. unfold mul_pow5.
  destruct (mul_pow5_loop_correct e a e) as (b & e' & E & Hb & Htb & He & Hv); [done | done | done | done |].
  rewrite E. cbn [mbind option_bind]. assert (5 ^ Z.of_nat e' <= 5 ^ 12) by (apply Z.pow_le_mono_r; lia).
  change (5 ^ 12) with 244140625 in *. rewrite pow5_rest_correct by lia. rewrite Z.mul_1_l.
  rewrite <- Hv in Hfit |- *. pose proof (Z.pow_pos_nonneg 5 (Z.of_nat e')). apply mul_small_tight; [done | done | lia | done].
Qed.

(** ** Zero test, bit length *)

Lemma words_value_zero l : words_ok l -> words_value l = 0 -> forall i w, l !! i = Some w -> w = 0.
Proof.
  induction 1 as [|x l Hx Hl IH]; intros H0 i w Hw; [done|]. rewrite words_value_cons in H0.
  pose proof (words_value_range _ Hl). destruct i as [|i]; cbn in Hw; [injection Hw as <-; lia|].
  eapply IH; [lia | exact Hw].
Qed.

Lemma is_zero_loop_correct n i base :
  (i + n <= length base)%nat ->
  exists b, is_zero_loop n i base = Some b /\
    (b = true <-> forall k w, (i <= k < i + n)%nat -> base !! k = Some w -> w = 0).
Proof.
  revert i. induction n as [|n IH]; intros i Hn; cbn [is_zero_loop].
  { exists true. split; [done|]. split; [intros _ k w Hk; lia | done]. }
  destruct (load_Some base i) as [w Hw]; [lia|]. rewrite Hw. cbn [mbind option_bind].
  destruct (Z.eqb_spec w 0) as [->|Hne]; cbn [negb].
  - destruct (IH (S i)) as (b & E & Hb); [lia|]. exists b. split; [done|]. rewrite Hb. split; intros H k x Hk Hx.
    + destruct (decide (k = i)) as [->|]; [unfold load in Hw; congruence | eapply (H k); [lia | done]].
    + eapply H; [|done]. lia.
  - exists false. split; [done|]. split; [done|]. intros H. exfalso. apply Hne. apply (H i); [lia | done].
Qed.

Lemma is_zero_correct a : big_ok Capacity a -> is_zero a = Some (big_value a =? 0).
Proof.
  intros (Hl & Hw & Hs & Hz). unfold is_zero.
  destruct (is_zero_loop_correct (size_ a) 0 (base_ a)) as (b & -> & Hb); [lia|]. f_equal.
  destruct (Z.eqb_spec (big_value a) 0) as [H0|H0].
  - apply Hb. intros k w _. by apply (words_value_zero _ Hw H0).
  - destruct b; [|done]. exfalso. apply H0. unfold big_value. rewrite <- (words_value_take _ 0); [done|].
    intros j w _ Hj. destruct (decide (size_ a <= j)%nat); [by eapply Hz|].
    apply (proj1 Hb eq_refl j w); [lia | done].
Qed.

Lemma bit_length_loop_correct n base :
  words_ok base -> (n <= length base)%nat ->
  exists b, bit_length_loop n base = Some b /\
    (words_value (take n base) = 0 /\ b = 0%nat \/
     (0 < b)%nat /\ 2 ^ (Z.of_nat b - 1) <= words_value (take n base) < 2 ^ Z.of_nat b).
Proof.
  intros Hok. induction n as [|n IH]; intros Hn; cbn [bit_length_loop].
  { exists 0%nat. split; [done|]. by left. }
  destruct (load_Some base n) as [w Hw]; [lia|]. rewrite Hw. cbn [mbind option_bind].
  rewrite (words_value_take_S _ _ _ Hw). pose proof (words_ok_lookup _ _ _ Hok Hw) as Hr.
  destruct (Z.eqb_spec w 0) as [->|Hne]; cbn [negb].
  { rewrite Z.mul_0_l, Z.add_0_r. apply IH. lia. }
  eexists. split; [done|]. right. pose proof (Z.log2_spec w ltac:(lia)) as Hlog.
  pose proof (Z.log2_nonneg w) as Hnn. assert (Z.log2 w < 32) as Hlt by (apply Z.log2_lt_pow2; lia).
  pose proof (words_value_range _ (words_ok_take base n Hok)) as Hv. rewrite length_take_le in Hv by lia.
  assert (Z.of_nat (n * 32 + 32 - clz32 w) = 32 * Z.of_nat n + Z.log2 w + 1) as -> by (unfold clz32; lia).
  assert ((n * 32 + 32 - clz32 w)%nat = S (n * 32 + Z.to_nat (Z.log2 w))) as -> by (unfold clz32; lia).
  split; [lia|]. rewrite Z.add_simpl_r. pose proof (weight_pos n).
  rewrite !Z.pow_add_r by lia. change (2 ^ 1) with 2. rewrite Z.pow_succ_r in Hlog by lia.
  fold (weight n). nia.
Qed.

(** The position of the highest set bit, plus one. *)
Lemma bit_length_correct a :
  big_ok Capacity a -> 0 < big_value a ->
  exists b, bit_length a = Some b /\ (0 < b)%nat /\
    2 ^ (Z.of_nat b - 1) <= big_value a < 2 ^ Z.of_nat b.
Proof.
  intros (Hl & Hw & Hs & Hz) Hpos. unfold bit_length, big_value in *.
  destruct (bit_length_loop_correct (size_ a) (base_ a)) as (b & E & H); [done | lia |].
  rewrite words_value_take in H by done. exists b. destruct H as [[H0 _]|[H0 H]]; [lia|]. by split.
Qed.

(** ** Division by a word *)

Lemma div_rem_loop_correct n base other r :
  words_ok base -> (n <= length base)%nat -> 0 < other < 2 ^ 32 -> 0 <= r < other ->
  exists base' r', div_rem_loop n base other r = Some (base', r') /\
    length base' = length base /\ words_ok base' /\ 0 <= r' < other /\
    (forall j, (n <= j)%nat -> base' !! j = base !! j) /\
    r * weight n + words_value (take n base) = words_value (take n base') * other + r'.
Proof.
  revert base r. induction n as [|n IH]; intros base r Hok Hn Ho Hr; cbn [div_rem_loop].
  { exists base, r. split_and!; try done; try lia. rewrite weight_0, !take_0. unfold words_value. cbn [foldr]. lia. }
  destruct (load_Some base n) as [w Hw]; [lia|]. rewrite Hw. cbn [mbind option_bind].
  rewrite store_Some by lia. cbn [mbind option_bind]. pose proof (words_ok_lookup _ _ _ Hok Hw) as Hwr.
  rewrite lor_shiftl_add by lia. set (v := r * 2 ^ 32 + w).
  pose proof (Z.div_mod v other ltac:(lia)) as Hdm. pose proof (Z.mod_pos_bound v other ltac:(lia)) as Hm.
  assert (0 <= v / other < 2 ^ 32) as Hq.
  { split; [apply Z.div_pos; unfold v; lia | apply Z.div_lt_upper_bound; unfold v; nia]. }
  assert (lo32 (v / other) = v / other) as -> by (by apply Z.mod_small).
  destruct (IH (<[n := v / other]> base) (v mod other)) as (base' & r' & E & Hl & Hok' & Hr' & Hf & Hv); try done.
  { by apply words_ok_insert. } { rewrite length_insert. lia. }
  exists base', r'. rewrite length_insert in Hl. split_and!; try done; try lia.
  - intros j Hj. rewrite Hf by lia. by rewrite list_lookup_insert_ne by lia.
  - rewrite take_insert_ge in Hv by lia.
    assert (base' !! n = Some (v / other)) as Hn' by (rewrite Hf by lia; by rewrite list_lookup_insert_eq by lia).
    rewrite (words_value_take_S _ _ _ Hw), (words_value_take_S _ _ _ Hn'), weight_S. unfold v in *. nia.
Qed.

Lemma div_rem_small_correct a v :
  big_ok Capacity a -> 0 < v < 2 ^ 32 ->
  exists c, div_rem_small a v = Some (c, big_value a mod v) /\ big_ok Capacity c /\
    big_value c = big_value a / v.
Proof.
  intros (Hl & Hw & Hs & Hz) Hv. unfold div_rem_small. destruct (Z.eqb_spec v 0); [lia|]. cbn [andb].
  destruct (div_rem_loop_correct (size_ a) (base_ a) v 0) as (base' & r & E & Hlen & Hok & Hr & Hf & Hval);
    [done | lia | done | lia |].
  rewrite E. cbn [mbind option_bind]. assert (forall i w, (size_ a <= i)%nat -> base' !! i = Some w -> w = 0) as Hz'.
  { intros i w Hi. rewrite Hf by lia. by apply Hz. }
  rewrite !words_value_take in Hval by done. fold (big_value a) in Hval.
  assert (lo32 r = r) as -> by (apply Z.mod_small; lia).
  assert (words_value base' = big_value a / v /\ r = big_value a mod v) as [Hq ->].
  { split; [apply (Z.div_unique _ _ _ r) | apply (Z.mod_unique _ _ (words_value base'))]; lia. }
  eexists. split; [done|]. split; [|done]. apply big_ok_intro; done || lia.
Qed.

(** ** Products *)

Lemma words_value_small l k j w :
  words_ok l -> words_value l < weight k -> (k <= j)%nat -> l !! j = Some w -> w = 0.
Proof.
  intros Hok Hlt Hj Hw. pose proof (words_ok_lookup _ _ _ Hok Hw).
  pose proof (words_value_split _ _ _ Hw) as Hs. pose proof (weight_mono _ _ Hj).
  pose proof (words_value_range _ (words_ok_take l j Hok)). pose proof (weight_pos (S j)).
  assert (0 <= words_value (drop (S j) l)) by (apply words_value_range; by apply Forall_drop).
  assert (0 <= weight (S j) * words_value (drop (S j) l)) by (apply Z.mul_nonneg_nonneg; lia).
  destruct (decide (w = 0)) as [|Hne]; [done|]. assert (weight j <= w * weight j) by (pose proof (weight_pos j); nia). lia.
Qed.

Lemma mul_row_correct n i j w other result carry :
  length result = Capacity -> words_ok result -> words_ok other -> (j + n = length other)%nat ->
  (i + length other <= Capacity)%nat -> 0 <= w < 2 ^ 32 -> 0 <= carry < 2 ^ 32 ->
  exists result' carry', mul_row Capacity n i j w other result carry = Some (result', carry') /\
    length result' = Capacity /\ words_ok result' /\ 0 <= carry' < 2 ^ 32 /\
    (forall k, (i + length other <= k)%nat -> result' !! k = result !! k) /\
    words_value result' + carry' * weight (i + length other) =
      words_value result + w * (words_value other - words_value (take j other)) * weight i + carry * weight (i + j).
Proof.
  revert j result carry. induction n as [|n IH]; intros j result carry Hl Hr Ho Hj Hi Hw Hc; cbn [mul_row].
  { exists result, carry. rewrite firstn_all2 by lia. replace (i + j)%nat with (i + length other)%nat by lia.
    split_and!; try done; lia. }
  destruct (Nat.leb_spec Capacity (i + j)); [lia|].
  destruct (load_Some other j) as [d Hd]; [lia|]. destruct (load_Some result (i + j)) as [x Hx]; [lia|].
  rewrite Hd, Hx. cbn [mbind option_bind]. rewrite store_Some by lia. cbn [mbind option_bind].
  pose proof (words_ok_lookup _ _ _ Ho Hd). pose proof (words_ok_lookup _ _ _ Hr Hx).
  set (v := w * d + x + carry). pose proof (lo32_hi32 v) as Hsplit. pose proof (lo32_range v).
  assert (0 <= Z.shiftr v 32 < 2 ^ 32) as Hc'.
  { rewrite Z.shiftr_div_pow2 by lia. unfold v. split; [apply Z.div_pos; nia | apply Z.div_lt_upper_bound; nia]. }
  destruct (IH (S j) (<[(i + j)%nat := lo32 v]> result) (Z.shiftr v 32))
    as (result' & carry' & E & Hl' & Hok' & Hcr & Hf & Hv); try done; try lia.
  { by rewrite length_insert. } { by apply words_ok_insert. }
  exists result', carry'. split_and!; try done; try lia.
  - intros k Hk. rewrite Hf by lia. by rewrite list_lookup_insert_ne by lia.
  - rewrite Hv, (words_value_insert _ _ _ _ Hx), (words_value_take_S _ _ _ Hd).
    rewrite !weight_add, weight_S.
    assert (lo32 v * (weight i * weight j) + Z.shiftr v 32 * (2 ^ 32 * (weight i * weight j)) =
            v * (weight i * weight j)) as Hk.
    { transitivity ((lo32 v + 2 ^ 32 * Z.shiftr v 32) * (weight i * weight j)); [ring | by rewrite Hsplit]. }
    unfold v in *. nia.
Qed.

Lemma mul_digits_loop_correct n i base other result rsize :
  words_ok base -> words_ok other -> (i + n <= length base)%nat ->
  weight (length other - 1) <= words_value other ->
  words_value base * words_value other < weight Capacity ->
  length result = Capacity -> words_ok result -> (rsize <= Capacity)%nat ->
  (forall k x, (rsize <= k)%nat -> result !! k = Some x -> x = 0) ->
  words_value result = words_value (take i base) * words_value other ->
  (rsize = 0%nat \/ weight (rsize - 1) <= words_value result) ->
  exists result' rsize', mul_digits_loop Capacity n i base other result rsize = Some (result', rsize') /\
    big_ok Capacity (MkBig rsize' result') /\
    words_value result' = words_value (take (i + n) base) * words_value other /\
    (rsize' = 0%nat \/ weight (rsize' - 1) <= words_value result').
Proof.
  intros Hb Ho Hn Htop Hfit. revert i result rsize Hn.
  induction n as [|n IH]; intros i result rsize Hn Hl Hr Hs Hz Hv Ht; cbn [mul_digits_loop].
  { exists result, rsize. rewrite Nat.add_0_r. split_and!; [done | by apply big_ok_intro | done | done]. }
  destruct (load_Some base i) as [w Hw]; [lia|]. rewrite Hw. cbn [mbind option_bind].
  pose proof (words_ok_lookup _ _ _ Hb Hw) as Hwr. pose proof (words_value_take_S _ _ _ Hw) as HtS.
  replace (i + S n)%nat with (S i + n)%nat by lia.
  destruct (Z.eqb_spec w 0) as [->|Hw0].
  { apply IH; try done; [lia|]. rewrite HtS. lia. }
  pose proof (words_value_range _ Ho) as Hor. pose proof (weight_pos (length other - 1)) as Hwp.
  pose proof (weight_pos i) as Hwi.
  pose proof (words_value_split _ _ _ Hw) as Hsp. pose proof (words_value_range _ (words_ok_take base i Hb)) as Hti.
  assert (0 <= words_value (drop (S i) base)) as Hdr by (apply words_value_range; by apply Forall_drop).
  pose proof (weight_pos (S i)) as HwS.
  assert (words_value (take (S i) base) <= words_value base) as Hpre by (rewrite HtS; nia).
  assert (words_value (take (S i) base) * words_value other < weight Capacity) as Hfit' by nia.
  assert (i + length other <= Capacity)%nat as Hroom.
  { assert (i + (length other - 1) < Capacity)%nat; [|lia]. apply weight_lt_inv. rewrite weight_add. nia. }
  destruct (mul_row_correct (length other) i 0 w other result 0) as (r1 & carry & E & Hl1 & Hok1 & Hc & Hf & Hv1);
    try done; try lia.
  rewrite E. cbn [mbind option_bind]. rewrite take_0 in Hv1. change (words_value []) with 0 in Hv1.
  assert (words_value r1 + carry * weight (i + length other) = words_value (take (S i) base) * words_value other) as Hval
    by (rewrite HtS; nia).
  assert (forall k, (i + length other <= k)%nat -> result !! k = r1 !! k) as Hf' by (intros; by rewrite Hf).
  assert (0 < length other)%nat as Hne0 by (destruct other; [exfalso; by vm_compute in Htop|cbn; lia]).
  assert (words_value result <= words_value (take (S i) base) * words_value other) as Hgrow by (rewrite Hv, HtS; nia).
  assert (weight (i + (length other - 1)) <= words_value (take (S i) base) * words_value other) as Hlow
    by (rewrite HtS, weight_add; nia).
  destruct (Z.eqb_spec carry 0) as [->|Hc0]; cbn [negb mbind option_bind].
  { apply IH; try done; [lia | destruct (Nat.ltb_spec rsize (i + length other)); lia | | lia |].
    2: { destruct (Nat.ltb_spec rsize (i + length other)) as [Hlt|Hge].
         - right. replace (i + length other - 1)%nat with (i + (length other - 1))%nat by lia. lia.
         - destruct Ht as [Ht|Ht]; [by left|right; lia]. }
    intros k x Hk Hx. rewrite <- Hf' in Hx by (destruct (Nat.ltb_spec rsize (i + length other)); lia).
    eapply Hz; [|exact Hx]. destruct (Nat.ltb_spec rsize (i + length other)); lia. }
  pose proof (words_value_range _ Hok1) as Hr1. rewrite Hl1 in Hr1. pose proof (weight_pos (i + length other)).
  destruct (Nat.leb_spec Capacity (i + length other)) as [Hle|Hlt].
  { assert (i + length other = Capacity)%nat as Heq by lia. rewrite Heq in *. nia. }
  rewrite store_Some by lia. cbn [mbind option_bind].
  assert (lo32 carry = carry) as -> by (apply Z.mod_small; lia).
  assert (r1 !! (i + length other)%nat = Some 0) as H0.
  { destruct (load_Some result (i + length other)) as [x Hx]; [lia|]. rewrite Hf by lia. unfold load in Hx. rewrite Hx.
    f_equal. apply (words_value_small result (i + length other) (i + length other)); [done | | done | done].
    rewrite Hv, weight_add. rewrite length_take_le in Hti by lia. nia. }
  apply IH; try done; [lia | by rewrite length_insert | by apply words_ok_insert | | | |].
  - destruct (Nat.ltb_spec rsize (i + S (length other))); lia.
  - intros k x Hk Hx. rewrite list_lookup_insert_ne in Hx by (destruct (Nat.ltb_spec rsize (i + S (length other))); lia).
    rewrite <- Hf' in Hx by (destruct (Nat.ltb_spec rsize (i + S (length other))); lia).
    eapply Hz; [|exact Hx]. destruct (Nat.ltb_spec rsize (i + S (length other))); lia.
  - rewrite (words_value_insert _ _ _ _ H0). lia.
  - rewrite (words_value_insert _ _ _ _ H0). right.
    destruct (Nat.ltb_spec rsize (i + S (length other))).
    + replace (i + S (length other) - 1)%nat with (i + length other)%nat by lia. nia.
    + destruct Ht as [Ht|Ht]; [lia|]. nia.
Qed.

(** The schoolbook product, for a multiplier without leading zero words; the
    product of positive numbers has none either. *)
Lemma mul_digits_correct a other :
  big_ok Capacity a -> words_ok other -> weight (length other - 1) <= words_value other ->
  big_value a * words_value other < weight Capacity ->
  exists c, mul_digits Capacity a other = Some c /\ big_ok Capacity c /\
    big_value c = big_value a * words_value other /\ (0 < big_value c -> tight c).
Proof.
  intros (Hl & Hw & Hs & Hz) Ho Htop Hfit. unfold mul_digits.
  destruct (mul_digits_loop_correct (size_ a) 0 (base_ a) other (replicate Capacity 0) 0)
    as (result & rsize & E & Hok & Hv & Ht); try done; try lia.
  - by rewrite length_replicate.
  - apply Forall_replicate. lia.
  - intros k x _ Hx. by apply lookup_replicate in Hx as [-> _].
  - rewrite words_value_zeros, take_0. done.
  - rewrite E. cbn [mbind option_bind]. eexists. split; [done|]. split; [done|].
    unfold big_value in *. cbn [base_]. split; [rewrite Hv; cbn [Nat.add]; by rewrite words_value_take|].
    intros Hpos. destruct Ht as [->|Ht]; [|split; [|done]].
    + destruct Hok as (_ & _ & _ & Hzero). cbn [size_ base_] in Hzero.
      rewrite <- (words_value_take result 0) in Hpos by (intros j w _; apply Hzero; lia). by rewrite take_0 in Hpos.
    + cbn [size_]. destruct rsize; [|lia]. exfalso. destruct Hok as (_ & _ & _ & Hzero). cbn [size_ base_] in Hzero.
      rewrite <- (words_value_take result 0) in Hpos by (intros j w _; apply Hzero; lia). by rewrite take_0 in Hpos.
Qed.

Lemma from_u64_correct v :
  (2 <= Capacity)%nat -> 0 <= v < 2 ^ 64 ->
  exists a, from_u64 Capacity v = Some a /\ big_ok Capacity a /\ big_value a = v.
Proof.
  intros Hc Hv. unfold from_u64, from_u64_loop.
  assert (big_ok Capacity (big_zero Capacity)) as Hz0.
  { apply big_ok_intro; [by rewrite length_replicate | apply Forall_replicate; lia | lia |].
    intros i w _ Hw. by apply lookup_replicate in Hw as [-> _]. }
  destruct (Z.eqb_spec v 0) as [->|Hv0].
  { eexists. split; [done|]. split; [done|]. apply words_value_zeros. }
  cbn [base_ size_ big_zero]. pose proof (lo32_hi32 v) as Hsp. pose proof (lo32_range v).
  assert (0 <= Z.shiftr v 32 < 2 ^ 32) as Hhr.
  { rewrite Z.shiftr_div_pow2 by lia. split; [apply Z.div_pos; lia | apply Z.div_lt_upper_bound; lia]. }
  assert (forall i, (i < Capacity)%nat -> replicate Capacity 0 !! i = Some 0) as Hrep by (intros; by apply lookup_replicate).
  rewrite store_Some by (rewrite length_replicate; lia). cbn [mbind option_bind base_ size_].
  destruct (Z.eqb_spec (Z.shiftr v 32) 0) as [H0|H0].
  { eexists. split; [done|]. split.
    - apply big_ok_intro; [by rewrite length_insert, length_replicate | | lia |].
      + apply words_ok_insert; [apply Forall_replicate; lia | done].
      + intros i w Hi Hw. rewrite list_lookup_insert_ne in Hw by lia. by apply lookup_replicate in Hw as [-> _].
    - unfold big_value. cbn [base_]. rewrite (words_value_insert _ _ 0) by (apply Hrep; lia).
      rewrite words_value_zeros, weight_0. lia. }
  rewrite store_Some by (rewrite length_insert, length_replicate; lia). cbn [mbind option_bind].
  assert (Z.shiftr (Z.shiftr v 32) 32 = 0) as -> by (rewrite (Z.shiftr_div_pow2 (Z.shiftr v 32)) by lia; apply Z.div_small; lia).
  assert (lo32 (Z.shiftr v 32) = Z.shiftr v 32) as -> by (by apply Z.mod_small).
  eexists. split; [done|]. split.
  - apply big_ok_intro; [by rewrite !length_insert, length_replicate | | lia |].
    + apply words_ok_insert; [|done]. apply words_ok_insert; [apply Forall_replicate; lia | done].
    + intros i w Hi Hw. rewrite !list_lookup_insert_ne in Hw by lia. by apply lookup_replicate in Hw as [-> _].
  - unfold big_value. cbn [base_]. rewrite (words_value_insert _ 1 0).
    + rewrite (words_value_insert _ 0 0) by (apply Hrep; lia).
      rewrite words_value_zeros, weight_0, (weight_S 0), weight_0. lia.
    + rewrite list_lookup_insert_ne by lia. apply Hrep. lia.
Qed.
End Refine.

(** ** Claims *)

(** The methods of [FixedBig] compute on the integers the words stand for.
    For well-formed operands, whenever the exact result fits the capacity (or,
    for [sub], is not negative) the method does not abort, keeps the operand
    well formed and delivers the exact sum, difference, product, schoolbook
    product with a list of words, quotient and remainder; [compare],
    [is_zero] and [bit_length] decide on the integers. *)
Theorem bignum_arithmetic Capacity a b v ds :
  big_ok Capacity a -> big_ok Capacity b -> 0 < v < 2 ^ 32 ->
  words_ok ds -> weight (length ds - 1) <= words_value ds ->
  let ok z c := big_ok Capacity c /\ big_value c = z in
  (big_value a + big_value b < weight Capacity ->
     exists c, add Capacity a b = Some c /\ ok (big_value a + big_value b) c) /\
  (big_value a + v < weight Capacity ->
     exists c, add_small Capacity a v = Some c /\ ok (big_value a + v) c) /\
  (big_value b <= big_value a ->
     exists c, sub a b = Some c /\ ok (big_value a - big_value b) c) /\
  (big_value a * v < weight Capacity ->
     exists c, mul_small Capacity a v = Some c /\ ok (big_value a * v) c) /\
  (big_value a * words_value ds < weight Capacity ->
     exists c, mul_digits Capacity a ds = Some c /\ ok (big_value a * words_value ds) c) /\
  (exists c, div_rem_small a v = Some (c, big_value a mod v) /\ ok (big_value a / v) c) /\
  (exists c, compare a b = Some c /\ Z.sgn c = Z.sgn (big_value a - big_value b)) /\
  is_zero a = Some (big_value a =? 0) /\
  (0 < big_value a -> exists n, bit_length a = Some n /\ Z.of_nat n = Z.log2 (big_value a) + 1).
Proof.
  intros Ha Hb Hv Hds Htop ok. unfold ok. split_and!.
  - apply add_correct; done.
  - intros Hf. destruct (add_small_correct Capacity a v) as (c & ? & ? & ? & _); [done | lia | done | by exists c].
  - apply sub_correct; done.
  - intros Hf. destruct (mul_small_correct Capacity a v) as (c & ? & ? & ? & _); [done | lia | done | by exists c].
  - intros Hf. destruct (mul_digits_correct Capacity a ds) as (c & ? & ? & ? & _); [done..|by exists c].
  - by apply div_rem_small_correct.
  - destruct (compare_correct Capacity a b Ha Hb) as (c & E & Hc). exists c. split; [done | lia].
  - by eapply is_zero_correct.
  - intros Hp. destruct (bit_length_correct Capacity a Ha Hp) as (n & E & Hn & Hr). exists n. split; [done|].
    rewrite (Z.log2_unique (big_value a) (Z.of_nat n - 1)); [lia | lia |].
    by replace (Z.succ (Z.of_nat n - 1)) with (Z.of_nat n) by lia.
Qed.

(** Two words: [2 ^ 32 + 5] and [7]. *)
Lemma bignum_arithmetic_witness :
  exists c, sub (MkBig 2 [5; 1]) (MkBig 1 [7; 0]) = Some c /\ big_ok 2 c /\ big_value c = 2 ^ 32 - 2.
Proof.
  assert (forall n l, length l = 2%nat -> Forall (fun w => 0 <= w < 2 ^ 32) l -> (n <= 2)%nat ->
    Forall (fun w => w = 0) (skipn n l) -> big_ok 2 (MkBig n l)) as Hok.
  { intros n l Hl Hw Hn Hz. apply big_ok_intro; try done. intros i w Hi Hw'.
    apply (Forall_lookup_1 _ _ (i - n) w Hz). rewrite lookup_drop. by replace (n + (i - n))%nat with i by lia. }
  assert (big_ok 2 (MkBig 2 [5; 1])) as Ha by (apply Hok; [done | repeat constructor; lia | lia | repeat constructor]).
  assert (big_ok 2 (MkBig 1 [7; 0])) as Hb by (apply Hok; [done | repeat constructor; lia | lia | repeat constructor]).
  assert (words_ok [3]) as Hd by (repeat constructor; lia).
  assert (weight (length [3] - 1) <= words_value [3]) as Ht by (vm_compute; discriminate).
  exact (proj1 (proj2 (proj2 (bignum_arithmetic 2 _ _ 1 [3] Ha Hb ltac:(lia) Hd Ht))) ltac:(vm_compute; discriminate)).
Defined.

(** [mul_pow2] and [mul_pow5] multiply by the power of two and of five.
    The abort of [mul_pow2] looks at the number of words, so the operand must
    have no leading zero words; the result then has none either, and nothing
    aborts as long as the exact product fits the capacity. *)
Theorem power_products_exact Capacity a n :
  big_ok Capacity a -> tight a ->
  (big_value a * 2 ^ Z.of_nat n < weight Capacity ->
     exists c, mul_pow2 Capacity a n = Some c /\ big_ok Capacity c /\ tight c /\
       big_value c = big_value a * 2 ^ Z.of_nat n) /\
  (big_value a * 5 ^ Z.of_nat n < weight Capacity ->
     exists c, mul_pow5 Capacity a n = Some c /\ big_ok Capacity c /\ tight c /\
       big_value c = big_value a * 5 ^ Z.of_nat n).
Proof. intros Ha Ht. split; [by apply mul_pow2_correct | by apply mul_pow5_correct]. Qed.

Lemma power_products_exact_witness :
  exists c, mul_pow2 2 (MkBig 1 [5; 0]) 40 = Some c /\ big_ok 2 c /\ tight c /\ big_value c = 5 * 2 ^ 40.
Proof.
  assert (big_ok 2 (MkBig 1 [5; 0])) as Ha.
  { apply big_ok_intro; [done | repeat constructor; lia | lia |].
    intros [|[|i]] w Hi Hw; [lia | by injection Hw | done]. }
  assert (tight (MkBig 1 [5; 0])) as Ht by (split; [exact (Nat.lt_0_succ 0) | vm_compute; discriminate]).
  exact (proj1 (power_products_exact 2 (MkBig 1 [5; 0]) 40 Ha Ht) ltac:(vm_compute; reflexivity)).
Defined.
