(* ===== verification/Dec2FltSpec.v ===== *)
(** * [to_f64] against the exact decimal

    The significant digits, the scaling by powers of ten and the early exits,
    composed with [make_float]: every well-formed decimal converts to the
    nearest float of its exact value, or overflows. *)

From Stdlib Require Import ZArith Lia ZifyBool.
From S2P Require Import Prelude Utf8 FloatSpec Rounding Bignum Dec2Flt.
Local Open Scope Z_scope.

(** ** Correct rounding of [to_f64]

    The big-integer computations of [Dec2Flt] never exceed their capacity and
    deliver the nearest binary64 value of the exact decimal, ties to even,
    also when only the first 800 digits are kept. *)

#[local] Abbreviation big := (big_ok BIG_CAPACITY).
#[local] Abbreviation room := (weight BIG_CAPACITY).

(** ** Division *)

Lemma divide_loop_correct current num den q k :
  big num -> big den -> tight den -> q = k * 2 ^ Z.of_nat current ->
  big_value num < big_value den * 2 ^ Z.of_nat current ->
  big_value den * 2 ^ (Z.of_nat current - 1) < room ->
  exists rem, divide_loop current num den q = Some (MkDivision (q + big_value num / big_value den) rem) /\
    big rem /\ big_value rem = big_value num mod big_value den.
Proof.
  intros Hnum Hden Ht. revert num q k Hnum.
  assert (0 < big_value den) as Hpos by (destruct Ht; pose proof (weight_pos (size_ den - 1)); lia).
  induction current as [|bit IH]; intros num q k Hnum Hq Hlt Hroom; cbn [divide_loop].
  { pose proof (big_value_range _ _ Hnum). exists num. rewrite Z.div_small, Z.mod_small, Z.add_0_r by lia. done. }
  rewrite Nat2Z.inj_succ, Z.pow_succ_r in Hq, Hlt by lia. replace (Z.of_nat (S bit) - 1) with (Z.of_nat bit) in Hroom by lia.
  pose proof (Z.pow_pos_nonneg 2 (Z.of_nat bit)) as Hp.
  destruct (mul_pow2_correct BIG_CAPACITY den bit Hden Ht Hroom) as (scaled & E & Hs & _ & Hv).
  rewrite E. cbn [mbind option_bind].
  destruct (compare_correct BIG_CAPACITY num scaled Hnum Hs) as (c & Ec & Hc). rewrite Ec. cbn [mbind option_bind].
  assert (big_value den * 2 ^ (Z.of_nat bit - 1) < room) as Hroom'.
  { apply Z.le_lt_trans with (big_value den * 2 ^ Z.of_nat bit); [|done]. apply Z.mul_le_mono_nonneg_l; [lia|].
    destruct (Z.eq_dec (Z.of_nat bit) 0) as [->|]; [done|]. apply Z.pow_le_mono_r; lia. }
  destruct (Z.leb_spec 0 c) as [Hge|Hneg].
  - destruct (sub_correct BIG_CAPACITY num scaled) as (num' & Es & Hn' & Hv'); [done | done | lia |].
    rewrite Es. cbn [mbind option_bind]. rewrite Z.shiftl_1_l.
    assert (Z.lor q (2 ^ Z.of_nat bit) = (2 * k + 1) * 2 ^ Z.of_nat bit) as Hor.
    { rewrite Hq. replace (k * (2 * 2 ^ Z.of_nat bit)) with (k * 2 ^ (Z.of_nat bit + 1)).
      - rewrite lor_add; [|lia|].
        + rewrite Z.pow_add_r by lia. change (2 ^ 1) with 2. ring.
        + rewrite Z.pow_add_r by lia. change (2 ^ 1) with 2. lia.
      - rewrite Z.pow_add_r by lia. change (2 ^ 1) with 2. ring. }
    destruct (IH num' (Z.lor q (2 ^ Z.of_nat bit)) (2 * k + 1)) as (rem & E' & Hr & Hvr); [done | done | lia | done |].
    exists rem. assert (big_value num = big_value num' + 2 ^ Z.of_nat bit * big_value den) as Hsum by lia.
    split_and!; [|done|].
    + rewrite E'. do 2 f_equal. rewrite Hsum, Z.div_add by lia. rewrite Hor, Hq. ring.
    + by rewrite Hvr, Hsum, Z.mod_add by lia.
  - destruct (IH num q (2 * k)) as (rem & E' & Hr & Hvr); [done | lia | lia | done |]. by exists rem.
Qed.

(** The difference of the bit lengths brackets the quotient. *)
Lemma length_bracket num den n d :
  0 < num -> 0 < den -> (0 < n)%nat -> (0 < d)%nat ->
  2 ^ (Z.of_nat n - 1) <= num < 2 ^ Z.of_nat n -> 2 ^ (Z.of_nat d - 1) <= den < 2 ^ Z.of_nat d ->
  forall e, 0 <= e ->
    (e = Z.of_nat n - Z.of_nat d -> den * 2 ^ e < 2 * num /\ num < den * 2 ^ (e + 1)) /\
    (e = Z.of_nat d - Z.of_nat n -> num * 2 ^ e < 2 * den /\ den < num * 2 ^ (e + 1)).
Proof.
  intros Hn0 Hd0 Hn1 Hd1 Hn Hd e He. pose proof (Z.pow_pos_nonneg 2 e).
  assert (2 ^ Z.of_nat n = 2 * 2 ^ (Z.of_nat n - 1)) as En
    by (rewrite <- Z.pow_succ_r by lia; f_equal; lia).
  assert (2 ^ Z.of_nat d = 2 * 2 ^ (Z.of_nat d - 1)) as Ed
    by (rewrite <- Z.pow_succ_r by lia; f_equal; lia).
  rewrite Z.pow_add_r by lia. change (2 ^ 1) with 2.
  split; intros He2.
  - assert (2 ^ Z.of_nat n = 2 ^ e * 2 ^ Z.of_nat d) as Enn by (rewrite <- Z.pow_add_r by lia; f_equal; lia). nia.
  - assert (2 ^ Z.of_nat d = 2 ^ e * 2 ^ Z.of_nat n) as Enn by (rewrite <- Z.pow_add_r by lia; f_equal; lia). nia.
Qed.

Lemma tight_pos a : tight a -> 0 < big_value a.
Proof. intros [_ H]. pose proof (weight_pos (size_ a - 1)). lia. Qed.

#[local] Hint Resolve tight_pos : rstd.

Lemma divide_correct num den :
  big num -> big den -> tight den ->
  big_value num < big_value den * 2 ^ 63 -> 2 * big_value num < room ->
  exists rem, divide num den = Some (MkDivision (big_value num / big_value den) rem) /\
    big rem /\ big_value rem = big_value num mod big_value den.
Proof.
  intros Hnum Hden Ht Hlt Hroom. pose proof (tight_pos den Ht) as Hdp. unfold divide.
  destruct (compare_correct BIG_CAPACITY num den Hnum Hden) as (c & Ec & Hc). rewrite Ec. cbn [mbind option_bind].
  pose proof (big_value_range _ _ Hnum) as Hnr.
  destruct (Z.ltb_spec c 0) as [Hneg|Hge].
  { exists num. rewrite Z.div_small, Z.mod_small by lia. done. }
  assert (0 < big_value num) as Hnp by lia.
  destruct (bit_length_correct BIG_CAPACITY num Hnum Hnp) as (n & En & Hn0 & Hn).
  destruct (bit_length_correct BIG_CAPACITY den Hden Hdp) as (d & Ed & Hd0 & Hd).
  rewrite En. cbn [mbind option_bind]. rewrite Ed. cbn [mbind option_bind].
  assert (d <= n)%nat as Hdn.
  { assert (Z.of_nat d - 1 < Z.of_nat n); [|lia]. apply (Z.pow_lt_mono_r_iff 2); lia. }
  destruct (length_bracket _ _ n d Hnp Hdp Hn0 Hd0 Hn Hd (Z.of_nat (n - d))) as [[Hb1 Hb2] _]; [lia | lia |].
  assert (n - d < 64)%nat as Hsh.
  { assert (Z.of_nat (n - d) < 64); [|lia]. apply (Z.pow_lt_mono_r_iff 2); [lia | lia |].
    change (2 ^ 64) with (2 * 2 ^ 63). nia. }
  rewrite (proj2 (Nat.ltb_ge _ _) Hdn). destruct (Nat.leb_spec 64 (n - d)); [lia|]. cbn [orb].
  replace (Z.of_nat (n - d) + 1) with (Z.of_nat (n - d + 1)) in Hb2 by lia.
  destruct (divide_loop_correct (n - d + 1) num den 0 0 Hnum Hden Ht) as (rem & E & Hr & Hv); [lia | done | |].
  { replace (Z.of_nat (n - d + 1) - 1) with (Z.of_nat (n - d)) by lia. lia. }
  by exists rem.
Qed.

Lemma even_land q : negb (Z.land q 1 =? 0) = negb (Z.even q).
Proof.
  change 1 with (2 ^ 1 - 1). rewrite land_mask by lia. change (2 ^ 1) with 2. rewrite Zmod_even.
  by destruct (Z.even q).
Qed.

Lemma rounded_quotient_correct num den sticky :
  big num -> big den -> tight den ->
  big_value num < big_value den * 2 ^ 63 -> 2 * big_value num < room -> 2 * big_value den < room ->
  rounded_quotient num den sticky = Some (rounded (big_value num) (big_value den) sticky).
Proof.
  intros Hnum Hden Ht Hlt Hroom Hroom2. pose proof (tight_pos den Ht) as Hdp. unfold rounded_quotient.
  destruct (divide_correct num den Hnum Hden Ht Hlt Hroom) as (rem & -> & Hr & Hv). cbn [mbind option_bind remainder quotient].
  pose proof (Z.mod_pos_bound (big_value num) (big_value den) Hdp) as Hm.
  destruct (mul_small_correct BIG_CAPACITY rem 2) as (doubled & Em & Hd2 & Hv2 & _); [done | lia | lia |].
  rewrite Em. cbn [mbind option_bind].
  destruct (compare_correct BIG_CAPACITY doubled den Hd2 Hden) as (c & Ec & Hc). rewrite Ec. cbn [mbind option_bind].
  f_equal. unfold rounded. rewrite even_land. pose proof (big_value_range _ _ Hnum) as Hnr.
  assert ((big_value num / big_value den + 1) mod 2 ^ 64 = big_value num / big_value den + 1) as ->.
  { apply Z.mod_small. split; [pose proof (Z.div_pos (big_value num) (big_value den)); lia|].
    assert (big_value num / big_value den < 2 ^ 63) by (apply Z.div_lt_upper_bound; lia). lia. }
  rewrite Hv2, Hv in Hc. replace (0 <? c) with (big_value den <? 2 * (big_value num mod big_value den)) by lia.
  by replace (c =? 0) with (2 * (big_value num mod big_value den) =? big_value den) by lia.
Qed.

(** ** The binary exponent *)

(** [2 ^ e <= n / d] *)
Definition ratio_ge (n d e : Z) : Prop := if 0 <=? e then d * 2 ^ e <= n else d <= n * 2 ^ (- e).

Lemma ratio_ge_shift n d e k : 0 <= k -> 0 <= e + k -> ratio_ge n d e <-> d * 2 ^ (e + k) <= n * 2 ^ k.
Proof.
  intros Hk Hek. unfold ratio_ge. destruct (Z.leb_spec 0 e) as [He|He].
  - rewrite Z.pow_add_r, Z.mul_assoc by lia. apply Z.mul_le_mono_pos_r, Z.pow_pos_nonneg; lia.
  - replace k with (- e + (e + k)) at 2 by lia. rewrite (Z.pow_add_r 2 (- e)), Z.mul_assoc by lia.
    apply Z.mul_le_mono_pos_r, Z.pow_pos_nonneg; lia.
Qed.

Lemma ratio_ge_mono n d e e' : 0 < n -> 0 < d -> e' <= e -> ratio_ge n d e -> ratio_ge n d e'.
Proof.
  intros Hn Hd He H. set (k := Z.max 0 (- e')).
  apply (ratio_ge_shift n d e k) in H; [|lia|lia]. apply (ratio_ge_shift n d e' k); [lia | lia |].
  assert (2 ^ (e' + k) <= 2 ^ (e + k)) by (apply Z.pow_le_mono_r; lia). nia.
Qed.

Lemma compare_ratio_correct num den n d :
  big num -> tight num -> big den -> tight den -> 2 * big_value num < room -> 2 * big_value den < room ->
  (0 < n)%nat -> (0 < d)%nat ->
  2 ^ (Z.of_nat n - 1) <= big_value num < 2 ^ Z.of_nat n ->
  2 ^ (Z.of_nat d - 1) <= big_value den < 2 ^ Z.of_nat d ->
  let e := Z.of_nat n - Z.of_nat d in
  exists c, compare_ratio_to_pow2 num den e = Some c /\
    (c < 0 <-> ~ ratio_ge (big_value num) (big_value den) e) /\
    ratio_ge (big_value num) (big_value den) (e - 1) /\ ~ ratio_ge (big_value num) (big_value den) (e + 1).
Proof.
  intros Hnum Htn Hden Htd Hr1 Hr2 Hn0 Hd0 Hn Hd e.
  pose proof (tight_pos _ Htn) as Hnp. pose proof (tight_pos _ Htd) as Hdp. unfold compare_ratio_to_pow2.
  assert (ratio_ge (big_value num) (big_value den) (e - 1) /\ ~ ratio_ge (big_value num) (big_value den) (e + 1)) as Hbr.
  { destruct (Z.le_ge_cases 0 e) as [He|He].
    - destruct (length_bracket _ _ n d Hnp Hdp Hn0 Hd0 Hn Hd e He) as [[H1 H2] _]; [done|].
      rewrite (ratio_ge_shift _ _ (e - 1) 1), (ratio_ge_shift _ _ (e + 1) 0) by lia.
      replace (e - 1 + 1) with e by lia. rewrite Z.add_0_r. change (2 ^ 1) with 2. change (2 ^ 0) with 1. lia.
    - destruct (length_bracket _ _ n d Hnp Hdp Hn0 Hd0 Hn Hd (- e)) as [_ [H1 H2]]; [lia | lia |].
      rewrite (ratio_ge_shift _ _ (e - 1) (- e + 1)), (ratio_ge_shift _ _ (e + 1) (- e)) by lia.
      replace (e - 1 + (- e + 1)) with 0 by lia. replace (e + 1 + - e) with 1 by lia.
      change (2 ^ 1) with 2. change (2 ^ 0) with 1. lia. }
  destruct (Z.leb_spec 0 e) as [He|He].
  - destruct (length_bracket _ _ n d Hnp Hdp Hn0 Hd0 Hn Hd e He) as [[H1 _] _]; [done|].
    destruct (mul_pow2_correct BIG_CAPACITY den (Z.to_nat e)) as (s & E & Hs & _ & Hv); [done | done | rewrite Z2Nat.id by lia; lia |].
    rewrite E. cbn [mbind option_bind]. rewrite Z2Nat.id in Hv by lia.
    destruct (compare_correct BIG_CAPACITY num s Hnum Hs) as (c & Ec & Hc). exists c. split_and!; [done | | tauto | tauto].
    unfold ratio_ge. rewrite (proj2 (Z.leb_le 0 e)) by lia. lia.
  - destruct (length_bracket _ _ n d Hnp Hdp Hn0 Hd0 Hn Hd (- e)) as [_ [H1 _]]; [lia | lia |].
    destruct (mul_pow2_correct BIG_CAPACITY num (Z.to_nat (- e))) as (s & E & Hs & _ & Hv); [done | done | rewrite Z2Nat.id by lia; lia |].
    rewrite E. cbn [mbind option_bind]. rewrite Z2Nat.id in Hv by lia.
    destruct (compare_correct BIG_CAPACITY s den Hs Hden) as (c & Ec & Hc). exists c. split_and!; [done | | tauto | tauto].
    unfold ratio_ge. rewrite (proj2 (Z.leb_gt 0 e)) by lia. lia.
Qed.

(** ** Rounding with digits cut off

    [num / den] is what the kept digits are worth and
    [(num * t + rest) / (den * t)] the exact value.  When [den] has enough
    factors of two, no half-way point lies strictly between them. *)

Lemma sticky_room num den s p t rest :
  0 < den -> 0 <= s -> s + 1 <= p -> (2 ^ p | den) -> 0 < t -> 0 <= rest <= t ->
  let r := (num * 2 ^ s) mod den in
  r * t + rest * 2 ^ s <= den * t /\ (2 * r < den -> 0 < t - rest -> 2 * (r * t + rest * 2 ^ s) < den * t).
Proof.
  intros Hd Hs Hp [c Hc] Ht Hrest r. pose proof (Z.mod_pos_bound (num * 2 ^ s) den Hd) as Hr. fold r in Hr.
  pose proof (Z.pow_pos_nonneg 2 s) as Hps.
  assert (exists c1, den = c1 * (2 * 2 ^ s)) as [c1 Hc1].
  { exists (c * 2 ^ (p - (s + 1))). rewrite Hc, <- Z.mul_assoc. f_equal. rewrite <- Z.pow_succ_r, <- Z.pow_add_r by lia.
    f_equal. lia. }
  assert (exists r1, r = r1 * 2 ^ s) as [r1 Hr1].
  { exists (num - c1 * 2 * (num * 2 ^ s / den)). pose proof (Z.div_mod (num * 2 ^ s) den ltac:(lia)). unfold r.
    rewrite Z.mod_eq by lia. rewrite Hc1 at 1. ring. }
  split.
  - assert (r1 + 1 <= 2 * c1) by nia. assert (r + 2 ^ s <= den) by nia. nia.
  - intros H2 Hlt. assert (r1 + 1 <= c1) by nia. assert (2 * (r + 2 ^ s) <= den) by nia. nia.
Qed.

Lemma rounded_le n d m sticky : 0 < d -> 0 <= n -> n < d * m -> rounded n d sticky <= m.
Proof.
  intros Hd Hn Hlt. assert (n / d < m) by (apply Z.div_lt_upper_bound; lia). unfold rounded. case_if; lia.
Qed.

Lemma rounded_ge n d m sticky : 0 < d -> d * m <= n -> m <= rounded n d sticky.
Proof.
  intros Hd Hle. assert (m <= n / d) by (apply Z.div_le_lower_bound; lia). unfold rounded. case_if; lia.
Qed.

(** The digits that were cut off, if any: [sticky] tells. *)
Definition cut (sticky : bool) (t rest : Z) : Prop :=
  0 < t /\ (sticky = false -> rest = 0) /\ (sticky = true -> 0 < rest < t).

Lemma rounded_cut num den s p sticky t rest :
  0 < den -> 0 <= s -> cut sticky t rest -> (sticky = true -> s + 1 <= p /\ (2 ^ p | den)) ->
  closest (rounded (num * 2 ^ s) den sticky) ((num * t + rest) * 2 ^ s) (den * t).
Proof.
  intros Hd Hs (Ht & Hexact & Hcut) Hp. pose proof (Z.pow_pos_nonneg 2 s) as Hps.
  replace ((num * t + rest) * 2 ^ s) with (num * 2 ^ s * t + rest * 2 ^ s) by ring.
  apply rounded_closest; [done | done | | |].
  - destruct sticky; [specialize (Hcut eq_refl); nia | rewrite (Hexact eq_refl); lia].
  - intros ->. rewrite (Hexact eq_refl). lia.
  - intros ->. destruct (Hp eq_refl) as [Hsp Hdiv]. specialize (Hcut eq_refl).
    destruct (sticky_room num den s p t rest) as [H1 H2]; [done | done | done | done | done | lia |].
    split_and!; [nia | done | intros H; apply H2; [done | lia]].
Qed.

(** ** [make_float] *)

Definition with_sign (negative : bool) (bits : Z) : Z :=
  if negative then Z.lor bits (Z.shiftl 1 63) else bits.

(** The outcome for the exact value [n / d]. *)
Definition converted (negative : bool) (n d : Z) (x : option (result Z dec_error)) : Prop :=
  overflow_bound * d <= n /\ x = Some (Err DecOverflow) \/
  n < overflow_bound * d /\
  exists bits, x = Some (Ok (with_sign negative bits)) /\ nearest_even n d bits.

Section MakeFloat.
Context (num den : FixedBig) (sticky : bool) (t rest p : Z).
Context (Hnum : big num) (Htn : tight num) (Hden : big den) (Htd : tight den).
Context (Hnroom : 2 * big_value num < room) (Hdroom : big_value den * 2 ^ 54 < room).
Context (Hcut : cut sticky t rest).
Context (Hp : sticky = true -> (2 ^ p | big_value den) /\
  forall e, -1023 <= e -> ~ ratio_ge (big_value num) (big_value den) (e + 1) -> 53 - Z.max e (-1022) <= p).

Let N : Z := big_value num * t + rest.
Let D : Z := big_value den * t.

Lemma cut_facts : 0 < big_value num /\ 0 < big_value den /\ 0 < t /\ 0 <= rest /\ 0 < D.
Proof.
  clear Hp. pose proof (tight_pos _ Htn). pose proof (tight_pos _ Htd). destruct Hcut as (Ht & Hex & Hst).
  unfold D. split_and!; try done; [|nia]. destruct sticky; [specialize (Hst eq_refl); lia | rewrite Hex by done; lia].
Qed.

Lemma ratio_ge_exact e k :
  0 <= k -> 0 <= e + k -> ratio_ge (big_value num) (big_value den) e -> D * 2 ^ (e + k) <= N * 2 ^ k.
Proof.
  intros Hk Hek H. apply (ratio_ge_shift _ _ _ k) in H; [|done|done]. destruct cut_facts as (_ & _ & Ht & Hr & _).
  unfold D, N. pose proof (Z.pow_pos_nonneg 2 k). pose proof (Z.pow_pos_nonneg 2 (e + k)). nia.
Qed.

Lemma significand e :
  -1022 <= e -> ratio_ge (big_value num) (big_value den) e ->
  ~ ratio_ge (big_value num) (big_value den) (e + 1) ->
  exists num' den' q,
    (if 0 <=? 52 - e then
       numerator ← mul_pow2 BIG_CAPACITY num (Z.to_nat (52 - e)); Some (numerator, den)
     else
       denominator ← mul_pow2 BIG_CAPACITY den (Z.to_nat (- (52 - e))); Some (num, denominator)) = Some (num', den') /\
    rounded_quotient num' den' sticky = Some q /\
    2 ^ 52 <= q <= 2 ^ 53 /\ closest q (N * SCALE) (D * 2 ^ (e + 1022)).
Proof.
  intros He Hge Hlt. destruct cut_facts as (Hnp & Hdp & Ht & Hr & HD).
  destruct (Z.leb_spec 0 (52 - e)) as [Hs|Hs].
  - apply (ratio_ge_shift _ _ e (52 - e)) in Hge; [|lia|lia].
    rewrite (ratio_ge_shift _ _ (e + 1) (52 - e)) in Hlt by lia.
    replace (e + (52 - e)) with 52 in Hge by lia. replace (e + 1 + (52 - e)) with 53 in Hlt by lia.
    destruct (mul_pow2_correct BIG_CAPACITY num (Z.to_nat (52 - e))) as (num' & E & Hn' & _ & Hv);
      [done | done | rewrite Z2Nat.id by lia; lia |].
    rewrite Z2Nat.id in Hv by lia. rewrite E. cbn [mbind option_bind].
    eexists num', den, _. split; [done|]. split; [apply rounded_quotient_correct; [done | done | done | lia | lia | lia]|].
    rewrite Hv. split; [split; [apply rounded_ge; lia | apply rounded_le; lia]|].
    pose proof (rounded_cut (big_value num) (big_value den) (52 - e) p sticky t rest Hdp Hs Hcut) as Hcl.
    fold N D in Hcl. apply (closest_scale _ _ _ (2 ^ (e + 1022))) in Hcl; [|apply Z.pow_pos_nonneg; lia|].
    + replace (N * 2 ^ (52 - e) * 2 ^ (e + 1022)) with (N * SCALE) in Hcl; [done|].
      rewrite <- Z.mul_assoc, <- Z.pow_add_r by lia. unfold SCALE. do 2 f_equal. lia.
    + intros Hst. destruct (Hp Hst) as [Hdiv Hpe]. split; [|done]. specialize (Hpe e ltac:(lia)).
      rewrite (ratio_ge_shift _ _ (e + 1) (52 - e)) in Hpe by lia.
      replace (e + 1 + (52 - e)) with 53 in Hpe by lia. specialize (Hpe Hlt). lia.
  - rewrite (ratio_ge_shift _ _ e 0) in Hge by lia. rewrite (ratio_ge_shift _ _ (e + 1) 0) in Hlt by lia.
    rewrite Z.add_0_r in Hge, Hlt. change (2 ^ 0) with 1 in Hge, Hlt.
    set (s := - (52 - e)). assert (2 ^ e = 2 ^ s * 2 ^ 52) as Ee by (rewrite <- Z.pow_add_r by lia; f_equal; lia).
    assert (2 ^ (e + 1) = 2 ^ s * 2 ^ 53) as Ee1 by (rewrite <- Z.pow_add_r by lia; f_equal; lia).
    pose proof (Z.pow_pos_nonneg 2 s) as Hps.
    destruct (mul_pow2_correct BIG_CAPACITY den (Z.to_nat s)) as (den' & E & Hd' & Htd' & Hv);
      [done | done | rewrite Z2Nat.id by lia; nia |].
    rewrite Z2Nat.id in Hv by lia. rewrite E. cbn [mbind option_bind].
    eexists num, den', _. split; [done|].
    split; [apply rounded_quotient_correct; [done | done | done | rewrite Hv; nia | lia | rewrite Hv; nia]|].
    assert (0 < big_value den * 2 ^ s) as Hdp' by nia.
    rewrite Hv. split; [split; [apply rounded_ge; nia | apply rounded_le; nia]|].
    pose proof (rounded_cut (big_value num) (big_value den * 2 ^ s) 0 1 sticky t rest Hdp' ltac:(lia) Hcut) as Hcl.
    fold N in Hcl. rewrite !Z.mul_1_r in Hcl. apply (closest_scale _ _ _ SCALE) in Hcl; [|apply SCALE_pos|].
    + replace (big_value den * 2 ^ s * t * SCALE) with (D * 2 ^ (e + 1022)) in Hcl; [done|].
      replace (e + 1022) with (s + 1074) by lia. rewrite (Z.pow_add_r 2 s) by lia. fold SCALE. unfold D. ring.
    + intros _. split; [lia|]. exists (big_value den * 2 ^ (s - 1)). rewrite <- Z.mul_assoc, <- Z.pow_add_r by lia.
      do 2 f_equal. lia.
Qed.

(** Below the normal range the unit is [2 ^ -1074]. *)
Lemma subnormal_significand e :
  e < -1022 -> ~ ratio_ge (big_value num) (big_value den) (e + 1) ->
  exists num' q, mul_pow2 BIG_CAPACITY num 1074 = Some num' /\ rounded_quotient num' den sticky = Some q /\
    0 <= q <= 2 ^ 52 /\ N < overflow_bound * D /\ nearest_even N D q.
Proof.
  intros Hsub Hlt. destruct cut_facts as (Hnp & Hdp & Ht & Hr & HD).
  assert (~ ratio_ge (big_value num) (big_value den) (-1023 + 1)) as Hlt'.
  { intros H. apply Hlt. eapply ratio_ge_mono; [done | done | | exact H]. lia. }
  pose proof Hlt' as Hlt2. rewrite (ratio_ge_shift _ _ (-1023 + 1) 1074) in Hlt2 by lia.
  change (2 ^ (-1023 + 1 + 1074)) with (2 ^ 52) in Hlt2. fold SCALE in Hlt2.
  destruct (mul_pow2_correct BIG_CAPACITY num 1074) as (num' & E & Hn' & _ & Hv); [done | done | |].
  { change (2 ^ Z.of_nat 1074) with SCALE. lia. }
  change (2 ^ Z.of_nat 1074) with SCALE in Hv. eexists num', _. split; [done|].
  split; [apply rounded_quotient_correct; [done | done | done | lia | lia | lia]|]. rewrite Hv.
  pose proof (rounded_cut (big_value num) (big_value den) 1074 p sticky t rest Hdp ltac:(lia) Hcut) as Hcl.
  fold N D SCALE in Hcl. pose proof SCALE_pos as HS. set (q := rounded _ _ _) in *.
  assert (0 <= q <= 2 ^ 52) as Hq by (split; [apply rounded_ge; lia | apply rounded_le; lia]).
  assert (closest q (N * SCALE) D) as Hcl'.
  { apply Hcl. intros Hst. destruct (Hp Hst) as [Hdiv Hpe]. split; [|done]. specialize (Hpe (-1023) ltac:(lia) Hlt'). lia. }
  split_and!; [lia | lia | | by apply nearest_subnormal].
  destruct (closest_bounds _ _ _ HD Hcl') as [[_ Hle] _]. assert (N * SCALE <= 2 ^ 53 * D) by nia.
  assert (2 ^ 53 <= SCALE) by (apply Z.pow_le_mono_r; lia). assert (2 <= overflow_bound) by (apply Z.leb_le; vm_compute; reflexivity).
  assert (N <= D) by nia. nia.
Qed.

(** Assembling the bits of a normal float: a significand that reached
    [2 ^ 53] moves to the next binade, or out of range. *)
Lemma assemble e q :
  -1022 <= e <= 1023 -> ratio_ge (big_value num) (big_value den) e ->
  2 ^ 52 <= q <= 2 ^ 53 -> closest q (N * SCALE) (D * 2 ^ (e + 1022)) ->
  let '(m, e') := if q =? 2 ^ 53 then (2 ^ 52, e + 1) else (q, e) in
  if 1023 <? e' then overflow_bound * D <= N
  else N < overflow_bound * D /\ nearest_even N D (Z.lor (Z.shiftl (e' + 1023) 52) (m - 2 ^ 52)).
Proof.
  intros He Hge Hq Hcl. destruct cut_facts as (Hnp & Hdp & Ht & Hr & HD).
  pose proof (ratio_ge_exact e 1074 ltac:(lia) ltac:(lia) Hge) as Hexact. fold SCALE in Hexact.
  destruct (Z.eqb_spec q (2 ^ 53)) as [->|Hne].
  - destruct (Z.ltb_spec 1023 (e + 1)) as [Hov|Hfit].
    + replace (e + 1022) with 2045 in Hcl by lia. by eapply closest_overflow.
    + split; [eapply (closest_below N D e (2 ^ 53)); [done | lia | done | right; lia]|].
      destruct (scaled_encode (e + 1) (2 ^ 52)) as (Hb & Hs & Hev); [lia | lia |].
      rewrite lor_shiftl_add by lia.
      eapply nearest_normal; [done | apply He | exact Hcl | done | exact Hb | | by rewrite Hev].
      rewrite Hs. replace (e + 1 + 1022) with (Z.succ (e + 1022)) by lia. rewrite Z.pow_succ_r by lia.
      change (2 ^ 53) with (2 ^ 52 * 2). ring.
  - destruct (Z.ltb_spec 1023 e) as [|_]; [lia|].
    split; [eapply (closest_below N D e q); [done | lia | done | left; lia]|].
    destruct (scaled_encode e q) as (Hb & Hs & Hev); [lia | lia |]. rewrite lor_shiftl_add by lia.
    eapply nearest_normal; [done | apply He | exact Hcl | done | exact Hb | exact Hs | exact Hev].
Qed.

Lemma make_float_correct negative : converted negative N D (make_float num den negative sticky).
Proof.
  destruct cut_facts as (Hnp & Hdp & Ht & Hr & HD). unfold make_float.
  destruct (bit_length_correct BIG_CAPACITY num Hnum Hnp) as (n & En & Hn0 & Hn).
  destruct (bit_length_correct BIG_CAPACITY den Hden Hdp) as (d & Ed & Hd0 & Hd).
  rewrite En. cbn [mbind option_bind]. rewrite Ed. cbn [mbind option_bind].
  destruct (compare_ratio_correct num den n d) as (c & Ec & Hc & Hm1 & Hp1); try done; [lia|].
  rewrite Ec. cbn [mbind option_bind]. set (e := if c <? 0 then _ else _).
  assert (ratio_ge (big_value num) (big_value den) e /\ ~ ratio_ge (big_value num) (big_value den) (e + 1)) as [Hge Hlt].
  { unfold e. destruct (Z.ltb_spec c 0) as [Hneg|Hpos].
    - split; [done|]. replace (Z.of_nat n - Z.of_nat d - 1 + 1) with (Z.of_nat n - Z.of_nat d) by lia. tauto.
    - split; [|done]. unfold ratio_ge in *. destruct (0 <=? Z.of_nat n - Z.of_nat d); lia. }
  clearbody e. clear Hc Hm1 Hp1 Ec c.
  destruct (Z.ltb_spec 1023 e) as [Hbig|Hsmall].
  { left. split; [|done]. pose proof (ratio_ge_exact e 0 ltac:(lia) ltac:(lia) Hge) as H. rewrite Z.add_0_r in H.
    assert (2 ^ 1024 <= 2 ^ e) by (apply Z.pow_le_mono_r; lia).
    assert (overflow_bound <= 2 ^ 1024) by (apply Z.leb_le; vm_compute; reflexivity).
    change (2 ^ 0) with 1 in H. nia. }
  change (Z.shiftl 1 53) with (2 ^ 53). change (Z.shiftl 1 52) with (2 ^ 52).
  destruct (Z.ltb_spec e (-1022)) as [Hsub|Hnorm].
  - destruct (subnormal_significand e Hsub Hlt) as (num' & q & E & Eq & Hq & Hb & Hnear).
    rewrite E. cbn [mbind option_bind]. rewrite Eq. cbn [mbind option_bind]. right. split; [done|]. exists q.
    split; [|done]. unfold with_sign. do 2 f_equal.
    by replace (if 2 ^ 52 <=? q then 2 ^ 52 else q) with q by (destruct (Z.leb_spec (2 ^ 52) q); lia).
  - destruct (significand e Hnorm Hge Hlt) as (num' & den' & q & E & Eq & Hq & Hcl).
    rewrite E. cbn [mbind option_bind]. rewrite Eq. cbn [mbind option_bind].
    pose proof (assemble e q ltac:(lia) Hge Hq Hcl) as Ha. unfold converted.
    assert (q = 2 ^ 53 -> Z.shiftr q 1 = 2 ^ 52) as Hhalf by (by intros ->).
    destruct (Z.eqb_spec q (2 ^ 53)) as [Heq|_]; [rewrite (Hhalf Heq)|].
    + destruct (1023 <? e + 1); [by left|]. right. destruct Ha. split; [done|]. by eexists.
    + destruct (1023 <? e); [by left|]. right. destruct Ha. split; [done|]. by eexists.
Qed.
End MakeFloat.

(** ** Values of digit strings *)

Lemma digits_value_app acc a b : digits_value acc (a ++ b) = digits_value (digits_value acc a) b.
Proof. revert acc. induction a as [|c a IH]; intros acc; [done|]. cbn. apply IH. Qed.

Lemma digits_value_acc acc s : digits_value acc s = acc * 10 ^ Z.of_nat (length s) + digits_value 0 s.
Proof.
  revert acc. induction s as [|c s IH]; intros acc; [cbn; lia|]. cbn [digits_value length].
  rewrite IH, (IH (0 * 10 + _)), Nat2Z.inj_succ, Z.pow_succ_r by lia. ring.
Qed.

Lemma digits_value_range s : digits_ok s -> 0 <= digits_value 0 s < 10 ^ Z.of_nat (length s).
Proof.
  induction 1 as [|c s Hc Hs IH]; [cbn; lia|]. cbn [digits_value length].
  rewrite digits_value_acc, Nat2Z.inj_succ, Z.pow_succ_r by lia. unfold is_digit in Hc.
  pose proof (Z.pow_pos_nonneg 10 (Z.of_nat (length s))). nia.
Qed.

Lemma digits_value_zeros n : digits_value 0 (replicate n 48) = 0.
Proof. induction n as [|n IH]; [done|]. cbn. apply IH. Qed.

Lemma digits_value_head c s : digits_ok (c :: s) -> c <> 48 -> 10 ^ Z.of_nat (length s) <= digits_value 0 (c :: s).
Proof.
  intros H Hc. apply Forall_cons_1 in H as [Hd Hs]. cbn [digits_value]. rewrite digits_value_acc.
  pose proof (digits_value_range s Hs). unfold is_digit in Hd. pose proof (Z.pow_pos_nonneg 10 (Z.of_nat (length s))). nia.
Qed.

Lemma digits_value_last s c : digits_ok (s ++ [c]) -> c <> 48 -> 0 < digits_value 0 (s ++ [c]).
Proof.
  intros H Hc. apply Forall_app in H as [Hs Hd]. apply Forall_cons_1 in Hd as [Hd _]. unfold is_digit in Hd.
  rewrite digits_value_app. pose proof (digits_value_range s Hs). cbn. lia.
Qed.

(** ** The exact value *)

(** The decimal as a fraction: digits times a power of ten. *)
Definition decimal_fraction (d : Decimal) : Z * Z :=
  let k := dec_exponent d - Z.of_nat (length (fraction d)) in
  (digits_value 0 (integer d ++ fraction d) * 10 ^ Z.max k 0, 10 ^ Z.max (- k) 0).

Lemma digit_at_lookup d i : digit_at d i = (integer d ++ fraction d) !! i.
Proof.
  unfold digit_at. destruct (Nat.ltb_spec i (length (integer d))).
  - by rewrite lookup_app_l.
  - by rewrite lookup_app_r.
Qed.

(** ** Accumulating digits *)

(** No leading zero words, except for a single word. *)
Definition nearly_tight (a : FixedBig) : Prop :=
  (0 < size_ a)%nat /\ (size_ a = 1%nat \/ weight (size_ a - 1) <= big_value a).

Lemma nearly_tight_pos a : nearly_tight a -> 0 < big_value a -> tight a.
Proof. intros [Hs [H1|H1]] Hp; (split; [done|]); [rewrite H1; change (weight (1 - 1)) with 1; lia | done]. Qed.

Lemma numerator_loop_correct n i d num :
  digits_ok (integer d ++ fraction d) -> (i + n <= length (integer d ++ fraction d))%nat ->
  big num -> nearly_tight num ->
  digits_value (big_value num) (firstn n (skipn i (integer d ++ fraction d))) < room ->
  exists c, numerator_loop n i d num = Some c /\ big c /\ nearly_tight c /\
    big_value c = digits_value (big_value num) (firstn n (skipn i (integer d ++ fraction d))).
Proof.
  intros Hd. set (ds := integer d ++ fraction d) in *. revert i num.
  induction n as [|n IH]; intros i num Hn Hb Ht Hfit; cbn [numerator_loop].
  { by exists num. }
  destruct (lookup_lt_is_Some_2 ds i ltac:(lia)) as [c Hc].
  rewrite (drop_S ds c i Hc) in Hfit |- *. cbn [firstn digits_value] in Hfit |- *.
  assert (48 <= c <= 57) as Hcr by (eapply (Forall_lookup_1 _ ds i c) in Hd; [|done]; unfold is_digit in Hd; lia).
  pose proof (big_value_range _ _ Hb) as Hvr.
  assert (digits_ok (firstn n (skipn (S i) ds))) as Hrest by (apply Forall_take, Forall_drop, Hd).
  assert (big_value num * 10 + (c - 48) < room) as Hfit1.
  { rewrite digits_value_acc in Hfit. pose proof (digits_value_range _ Hrest).
    pose proof (Z.pow_pos_nonneg 10 (Z.of_nat (length (firstn n (skipn (S i) ds))))). nia. }
  destruct (mul_small_correct BIG_CAPACITY num 10) as (a & Ea & Hba & Hva & Hsa); [done | lia | lia |].
  rewrite Ea. cbn [mbind option_bind]. rewrite digit_at_lookup. fold ds. rewrite Hc. cbn [mbind option_bind].
  destruct (add_small_correct BIG_CAPACITY a (c - 48)) as (b & Eb & Hbb & Hvb & Hsb); [done | lia | lia |].
  rewrite Eb. cbn [mbind option_bind]. rewrite Hva in Hvb. rewrite <- Hvb in Hfit |- *.
  apply IH; [lia | done | | done]. destruct Ht as [Hs Ht]. split; [lia|].
  destruct Hsb as [Hsb|[Hsb Hwb]]; [|by right]. rewrite Hsb. destruct Hsa as [Hsa|[Hsa Hwa]].
  - rewrite Hsa. destruct Ht as [Ht|Ht]; [by left|]. right. lia.
  - right. rewrite Hsa, Nat.sub_succ, Nat.sub_0_r. lia.
Qed.

(** ** Significant digits *)

(** The first and last non-zero digits among the first [i]. *)
Definition scanned (ds : list Z) (i first last : nat) : Prop :=
  first = length ds /\ (forall j, (j < i)%nat -> ds !! j = Some 48) \/
  (first <= last < i)%nat /\ (forall j, (j < first)%nat -> ds !! j = Some 48) /\
  (exists c, ds !! first = Some c /\ c <> 48) /\ (exists c, ds !! last = Some c /\ c <> 48) /\
  (forall j, (last < j < i)%nat -> ds !! j = Some 48).

Lemma scan_digits_correct n i d first last :
  let ds := integer d ++ fraction d in
  digits_ok ds -> (i + n = length ds)%nat -> scanned ds i first last ->
  exists f l, scan_digits n i d (length ds) first last = Some (Ok (f, l)) /\ scanned ds (length ds) f l.
Proof.
  intros ds Hd. revert i first last. induction n as [|n IH]; intros i first last Hn Hs; cbn [scan_digits].
  { exists first, last. by rewrite Nat.add_0_r in Hn; subst i. }
  destruct (lookup_lt_is_Some_2 ds i ltac:(lia)) as [c Hc]. rewrite digit_at_lookup. fold ds. rewrite Hc. cbn [mbind option_bind].
  assert (48 <= c <= 57) as Hcr by (eapply (Forall_lookup_1 _ ds i c) in Hd; [|done]; unfold is_digit in Hd; lia).
  destruct (Z.ltb_spec c 48); [lia|]. destruct (Z.ltb_spec 57 c); [lia|]. cbn [orb].
  destruct (Z.eqb_spec c 48) as [->|Hne]; cbn [negb]; apply IH; try lia.
  - destruct Hs as [[-> Hz]|(Hfl & Hz & Hf & Hl & Ha)].
    + left. split; [done|]. intros j Hj. destruct (decide (j = i)) as [->|]; [done | apply Hz; lia].
    + right. split; [lia|]. split_and!; try done. intros j Hj. destruct (decide (j = i)) as [->|]; [done | apply Ha; lia].
  - destruct Hs as [[-> Hz]|(Hfl & Hz & Hf & Hl & Ha)].
    + rewrite Nat.eqb_refl. right. split; [lia|]. split_and!; [done | by exists c | by exists c | lia].
    + destruct (Nat.eqb_spec first (length ds)); [lia|]. right. split; [lia|]. split_and!; [done | done | by exists c | lia].
Qed.

(** The digits between the first and the last non-zero one carry the value. *)
Lemma significant ds f l :
  digits_ok ds -> scanned ds (length ds) f l -> f <> length ds ->
  exists sig, sig = firstn (l - f + 1) (skipn f ds) /\ length sig = (l - f + 1)%nat /\ digits_ok sig /\
    (l < length ds)%nat /\ (f <= l)%nat /\
    digits_value 0 ds = digits_value 0 sig * 10 ^ Z.of_nat (length ds - l - 1) /\
    (exists c s, sig = c :: s /\ c <> 48) /\ (exists c s, sig = s ++ [c] /\ c <> 48).
Proof.
  intros Hd [[? _]|(Hfl & Hz & (c & Hc & Hc0) & (x & Hx & Hx0) & Ha)] Hf; [done|].
  set (sig := firstn (l - f + 1) (skipn f ds)). exists sig.
  assert (length sig = (l - f + 1)%nat) as Hlen by (unfold sig; rewrite firstn_length_le; [done | rewrite length_skipn; lia]).
  assert (digits_ok sig) as Hsig by (apply Forall_take, Forall_drop, Hd).
  split_and!; try done; try lia.
  - assert (ds = replicate f 48 ++ sig ++ replicate (length ds - l - 1) 48) as E.
    { apply list_eq. intros j. destruct (decide (j < f)%nat) as [Hj|Hj].
      { rewrite lookup_app_l by (by rewrite length_replicate). rewrite Hz by done. symmetry. by apply lookup_replicate. }
      rewrite lookup_app_r by (rewrite length_replicate; lia). rewrite length_replicate.
      destruct (decide (j <= l)%nat) as [Hl|Hl].
      { rewrite lookup_app_l by lia. unfold sig. rewrite lookup_take_lt by lia. rewrite lookup_drop. f_equal. lia. }
      rewrite lookup_app_r by lia. rewrite Hlen. destruct (decide (j < length ds)%nat) as [Hlt|Hge].
      { rewrite Ha by lia. symmetry. apply lookup_replicate. split; [done | lia]. }
      rewrite !lookup_ge_None_2; [done | rewrite length_replicate; lia | lia]. }
    rewrite E at 1. rewrite !digits_value_app, digits_value_zeros, digits_value_acc, length_replicate, digits_value_zeros. lia.
  - unfold sig. rewrite (drop_S ds c f Hc). replace (l - f + 1)%nat with (S (l - f)) by lia. cbn [firstn]. by eexists _, _.
  - assert (sig !! (l - f)%nat = Some x) as Hlast.
    { unfold sig. rewrite lookup_take_lt by lia. rewrite lookup_drop. by replace (f + (l - f))%nat with l by lia. }
    exists x, (firstn (l - f) sig). split; [|done]. rewrite <- (take_S_r _ _ _ Hlast), firstn_all2; [done | lia].
Qed.

(** Keeping a prefix of the significant digits. *)
Lemma kept_digits sig kept :
  digits_ok sig -> (0 < kept <= length sig)%nat ->
  (exists c s, sig = c :: s /\ c <> 48) -> (exists c s, sig = s ++ [c] /\ c <> 48) ->
  let k := digits_value 0 (firstn kept sig) in
  let rest := digits_value 0 (skipn kept sig) in
  let t := 10 ^ Z.of_nat (length sig - kept) in
  digits_value 0 sig = k * t + rest /\ 10 ^ (Z.of_nat kept - 1) <= k < 10 ^ Z.of_nat kept /\
  cut (negb (kept =? length sig)%nat) t rest.
Proof.
  intros Hd Hk (c & s & Es & Hc) (c' & s' & Es' & Hc') k rest t.
  assert (digits_ok (firstn kept sig)) as Hd1 by (by apply Forall_take).
  assert (digits_ok (skipn kept sig)) as Hd2 by (by apply Forall_drop).
  pose proof (digits_value_range _ Hd1) as Hr1. pose proof (digits_value_range _ Hd2) as Hr2.
  rewrite firstn_length_le in Hr1 by lia. rewrite length_skipn in Hr2. fold k in Hr1. fold rest t in Hr2.
  split_and!; try lia.
  - rewrite <- (firstn_skipn kept sig) at 1. rewrite digits_value_app, digits_value_acc, length_skipn. done.
  - unfold k. destruct kept as [|kept]; [lia|]. rewrite Es in Hd1 |- *. cbn [firstn] in Hd1 |- *.
    etransitivity; [|by apply digits_value_head]. rewrite firstn_length_le.
    + apply Z.pow_le_mono_r; lia.
    + rewrite Es in Hk. cbn in Hk. lia.
  - unfold t. split; [apply Z.pow_pos_nonneg; lia|]. destruct (Nat.eqb_spec kept (length sig)) as [->|Hne]; cbn [negb].
    + split; [|done]. intros _. unfold rest. rewrite skipn_all. done.
    + split; [done|]. intros _. split; [|apply Hr2]. unfold rest. rewrite Es' in Hd2, Hk, Hne |- *.
      rewrite length_app in Hk, Hne. cbn in Hk, Hne. rewrite skipn_app in Hd2 |- *.
      replace (kept - length s')%nat with 0%nat in Hd2 |- * by lia. cbn [skipn] in Hd2 |- *. by apply digits_value_last.
Qed.

(** ** Powers of ten *)

Lemma pow10_pos k : 0 < 10 ^ Z.max k 0.
Proof. apply Z.pow_pos_nonneg; lia. Qed.

Lemma closest_zero x y : 0 <= x -> 2 * x < y -> closest 0 x y.
Proof.
  intros Hx Hy k. rewrite Z.mul_0_l, Z.sub_0_l, Z.abs_opp, (Z.abs_eq x) by done.
  destruct (Z.lt_total k 0) as [Hk|[->|Hk]]; [left; nia | right; split; [lia | by left] | left; nia].
Qed.

Lemma converted_ratio negative n d n' d' x :
  0 < d -> 0 < d' -> n * d' = n' * d -> converted negative n d x -> converted negative n' d' x.
Proof.
  intros Hd Hd' E [[Hb Hx]|(Hb & bits & Hx & Hn)].
  - left. split; [|done]. nia.
  - right. split; [nia|]. exists bits. split; [done|]. apply (nearest_even_scale n' d' d); [done|].
    destruct Hn as [Hr Hn]. split; [done|]. intros other Ho. specialize (Hn other Ho). cbn beta zeta in *.
    assert (forall y, Z.abs (scaled_value y * (d' * d) - n' * d * SCALE) =
                      Z.abs (scaled_value y * d - n * SCALE) * d') as Ey.
    { intros y. rewrite <- (Z.abs_eq d') at 2 by lia. rewrite <- Z.abs_mul. f_equal. rewrite <- E. ring. }
    rewrite !Ey. destruct Hn as [Hn|[Hn Hk]]; [left; nia | right; split; [congruence | done]].
Qed.

(** Large constant powers, kept folded. *)
Definition pow (b k : Z) : Z := b ^ k.

Lemma pow_le b j k : 0 < b -> j <= k -> b ^ j <= pow b k.
Proof. intros. apply Z.pow_le_mono_r; lia. Qed.

Lemma pow_pos b k : 0 < b -> 0 <= k -> 0 < pow b k.
Proof. intros. by apply Z.pow_pos_nonneg. Qed.

(** The capacity of 128 words covers every case. *)
Lemma room_bounds : 2 * pow 10 800 < room /\ 2 ^ 54 * pow 10 1123 < room.
Proof. split; apply Z.ltb_lt; vm_compute; reflexivity. Qed.

(** Half-way points of the floats need at most 767 digits: with 800 kept,
    the denominator has the factors of two that [make_float] relies on. *)
Lemma enough_digits k j e :
  pow 10 799 <= k -> 0 <= j -> -1023 <= e ->
  ~ ratio_ge k (10 ^ j) (e + 1) -> 53 - Z.max e (-1022) <= j.
Proof.
  intros Hk Hj He Hlt. destruct (Z.le_gt_cases (53 - Z.max e (-1022)) j) as [|Hgt]; [done|]. exfalso. apply Hlt.
  assert (j <= 1074) as Hj2 by lia. destruct (Z.eq_dec e (-1023)) as [->|Hne].
  - apply (ratio_ge_shift _ _ _ 1022); [lia | lia |]. change (2 ^ (-1023 + 1 + 1022)) with 1. rewrite Z.mul_1_r. fold (pow 2 1022).
    pose proof (pow_pos 2 1022). assert (10 ^ j <= pow 10 1074) by (apply pow_le; lia).
    assert (pow 10 1074 <= pow 10 799 * pow 2 1022) by (apply Z.leb_le; vm_compute; reflexivity). nia.
  - apply (ratio_ge_shift _ _ _ 1023); [lia | lia |].
    fold (pow 2 1023). pose proof (pow_pos 2 1023). pose proof (pow_pos 2 1076).
    (* 10^j 2^(e+1) <= 10^j 2^(53-j) = 5^j 2^53 *)
    assert (e + 1 + 1023 <= 53 - j + 1023) as Hle by lia.
    assert (2 ^ (e + 1 + 1023) <= 2 ^ (53 - j + 1023)) as Hp by (apply Z.pow_le_mono_r; lia).
    assert (10 ^ j * 2 ^ (53 - j + 1023) = 5 ^ j * pow 2 1076) as E5.
    { change 10 with (5 * 2). rewrite Z.pow_mul_l, <- Z.mul_assoc, <- Z.pow_add_r by lia. unfold pow. do 2 f_equal. lia. }
    assert (5 ^ j <= pow 5 1074) by (apply pow_le; lia).
    assert (pow 5 1074 * pow 2 1076 <= pow 10 799 * pow 2 1023) by (apply Z.leb_le; vm_compute; reflexivity).
    pose proof (Z.pow_pos_nonneg 10 j). nia.
Qed.

(** ** Scaling by the power of ten *)

Lemma mul_pow10 a e :
  big a -> tight a -> 0 <= e -> big_value a * 10 ^ e < room ->
  exists b c, mul_pow5 BIG_CAPACITY a (Z.to_nat e) = Some b /\ mul_pow2 BIG_CAPACITY b (Z.to_nat e) = Some c /\
    big c /\ tight c /\ big_value c = big_value a * 10 ^ e.
Proof.
  intros Ha Ht He Hfit. change 10 with (5 * 2) in Hfit |- *. rewrite Z.pow_mul_l in Hfit |- *.
  pose proof (tight_pos a Ht). pose proof (Z.pow_pos_nonneg 2 e). pose proof (Z.pow_pos_nonneg 5 e).
  destruct (mul_pow5_correct BIG_CAPACITY a (Z.to_nat e)) as (b & Eb & Hb & Htb & Hvb); [done | done | rewrite Z2Nat.id by lia; nia |].
  rewrite Z2Nat.id in Hvb by lia.
  destruct (mul_pow2_correct BIG_CAPACITY b (Z.to_nat e)) as (c & Ec & Hc & Htc & Hvc); [done | done | rewrite Z2Nat.id by lia; lia |].
  rewrite Z2Nat.id in Hvc by lia. exists b, c. split_and!; try done. rewrite Hvc, Hvb. ring.
Qed.

Lemma scale_correct num one kept p :
  big num -> tight num -> big one -> tight one -> big_value one = 1 ->
  (0 < kept <= 800)%nat -> 10 ^ (Z.of_nat kept - 1) <= big_value num < 10 ^ Z.of_nat kept ->
  -324 <= Z.of_nat kept - 1 + p <= 308 ->
  exists num' den',
    (if 0 <=? p then
       numerator ← mul_pow5 BIG_CAPACITY num (Z.to_nat p);
       numerator ← mul_pow2 BIG_CAPACITY numerator (Z.to_nat p);
       Some (numerator, one)
     else
       denominator ← mul_pow5 BIG_CAPACITY one (Z.to_nat (- p));
       denominator ← mul_pow2 BIG_CAPACITY denominator (Z.to_nat (- p));
       Some (num, denominator)) = Some (num', den') /\
    big num' /\ tight num' /\ big den' /\ tight den' /\
    big_value num' = big_value num * 10 ^ Z.max p 0 /\ big_value den' = 10 ^ Z.max (- p) 0 /\
    2 * big_value num' < room /\ big_value den' * 2 ^ 54 < room.
Proof.
  intros Hn Htn Ho Hto Hv1 Hk Hv Hp. destruct room_bounds as [Hroom1 Hroom2].
  pose proof (pow_pos 10 800 ltac:(lia) ltac:(lia)) as P800. pose proof (pow_pos 10 1123 ltac:(lia) ltac:(lia)) as P1123.
  destruct (Z.leb_spec 0 p) as [Hpos|Hneg].
  - assert (big_value num * 10 ^ p < pow 10 800) as Hlt.
    { assert (10 ^ Z.of_nat kept * 10 ^ p <= pow 10 800) by (rewrite <- Z.pow_add_r by lia; apply pow_le; lia).
      pose proof (Z.pow_pos_nonneg 10 p). nia. }
    destruct (mul_pow10 num p) as (b & c & Eb & Ec & Hc & Htc & Hvc); [assumption | assumption | assumption | lia |].
    rewrite Eb. cbn [mbind option_bind]. rewrite Ec. cbn [mbind option_bind]. exists c, one.
    rewrite Z.max_l, (Z.max_r (- p)) by lia.
    split; [reflexivity|].
    split; [exact Hc|]. split; [exact Htc|]. split; [exact Ho|]. split; [exact Hto|]. split; [exact Hvc|].
    split; [exact Hv1|]. rewrite Hvc, Hv1. clear - Hlt Hroom1 Hroom2 P800 P1123. lia.
  - assert (10 ^ (- p) <= pow 10 1123) as Hlt by (apply pow_le; lia).
    assert (big_value num < pow 10 800) as Hlt2 by (apply Z.lt_le_trans with (10 ^ Z.of_nat kept); [lia | apply pow_le; lia]).
    destruct (mul_pow10 one (- p)) as (b & c & Eb & Ec & Hc & Htc & Hvc); [assumption | assumption | lia | rewrite Hv1; lia |].
    rewrite Eb. cbn [mbind option_bind]. rewrite Ec. cbn [mbind option_bind]. exists num, c.
    rewrite Z.max_r, (Z.max_l (- p)) by lia. change (10 ^ 0) with 1. rewrite Z.mul_1_r. rewrite Hv1, Z.mul_1_l in Hvc.
    split; [reflexivity|].
    split; [exact Hn|]. split; [exact Htn|]. split; [exact Hc|]. split; [exact Htc|]. split; [reflexivity|].
    split; [exact Hvc|]. rewrite Hvc. clear - Hlt Hlt2 Hroom1 Hroom2 P800 P1123. lia.
Qed.

(** ** The early exits *)

Lemma pow10_split a b : 0 <= a -> 10 ^ a * 10 ^ Z.max b 0 = 10 ^ (a + Z.max b 0).
Proof. intros. by rewrite Z.pow_add_r by lia. Qed.

Lemma huge_overflows s n e :
  10 ^ (Z.of_nat n - 1) <= s -> (0 < n)%nat -> 308 < Z.of_nat n - 1 + e ->
  overflow_bound * 10 ^ Z.max (- e) 0 <= s * 10 ^ Z.max e 0.
Proof.
  intros Hs Hn Ho. pose proof (pow10_pos e). pose proof (pow10_pos (- e)).
  assert (pow 10 309 * 10 ^ Z.max (- e) 0 <= 10 ^ (Z.of_nat n - 1) * 10 ^ Z.max e 0).
  { unfold pow. rewrite !pow10_split by lia. apply Z.pow_le_mono_r; lia. }
  assert (overflow_bound <= pow 10 309) by (apply Z.leb_le; vm_compute; reflexivity). nia.
Qed.

Lemma tiny_rounds_to_zero s n e negative :
  0 <= s < 10 ^ Z.of_nat n -> Z.of_nat n - 1 + e < -324 ->
  converted negative (s * 10 ^ Z.max e 0) (10 ^ Z.max (- e) 0) (Some (Ok (signed_zero negative))).
Proof.
  intros Hs Ho. pose proof (pow10_pos e) as Hp. pose proof (pow10_pos (- e)) as Hp'.
  assert (10 ^ Z.of_nat n * 10 ^ Z.max e 0 * pow 10 324 <= 10 ^ Z.max (- e) 0) as Hle.
  { unfold pow. rewrite pow10_split, <- Z.pow_add_r by lia. apply Z.pow_le_mono_r; lia. }
  pose proof (pow_pos 10 324 ltac:(lia) ltac:(lia)) as P324. pose proof SCALE_pos as HS.
  assert (2 * SCALE <= pow 10 324) as H2 by (apply Z.leb_le; vm_compute; reflexivity).
  set (x := s * 10 ^ Z.max e 0) in *. assert (0 <= x < 10 ^ Z.of_nat n * 10 ^ Z.max e 0) as Hx by (unfold x; nia).
  assert (x * pow 10 324 < 10 ^ Z.max (- e) 0) as Hx2 by nia.
  right. split.
  - assert (1 <= overflow_bound) by (apply Z.leb_le; vm_compute; reflexivity). nia.
  - exists 0. split; [by destruct negative|]. apply nearest_subnormal; [|lia]. apply closest_zero; nia.
Qed.

(** ** The conversion *)

Lemma with_sign_zero negative : with_sign negative 0 = signed_zero negative.
Proof. by destruct negative. Qed.

(** From the significant digits on: [sig * 10 ^ e]. *)
Lemma significant_correct d f l sig e :
  let ds := integer d ++ fraction d in
  digits_ok ds -> sig = firstn (l - f + 1) (skipn f ds) -> length sig = (l - f + 1)%nat -> digits_ok sig ->
  (l < length ds)%nat -> (f <= l)%nat ->
  (exists c s, sig = c :: s /\ c <> 48) -> (exists c s, sig = s ++ [c] /\ c <> 48) ->
  -324 <= Z.of_nat (length sig) - 1 + e <= 308 ->
  let kept := if (length sig <? DECIMAL_MAX_DIGITS)%nat then length sig else DECIMAL_MAX_DIGITS in
  converted (negative d) (digits_value 0 sig * 10 ^ Z.max e 0) (10 ^ Z.max (- e) 0)
    (zero ← from_small BIG_CAPACITY 0;
     numerator ← numerator_loop kept f d zero;
     denominator ← from_small BIG_CAPACITY 1;
     '(numerator, denominator) ←
       (if 0 <=? e + Z.of_nat (length sig - kept) then
          numerator ← mul_pow5 BIG_CAPACITY numerator (Z.to_nat (e + Z.of_nat (length sig - kept)));
          numerator ← mul_pow2 BIG_CAPACITY numerator (Z.to_nat (e + Z.of_nat (length sig - kept)));
          Some (numerator, denominator)
        else
          denominator ← mul_pow5 BIG_CAPACITY denominator (Z.to_nat (- (e + Z.of_nat (length sig - kept))));
          denominator ← mul_pow2 BIG_CAPACITY denominator (Z.to_nat (- (e + Z.of_nat (length sig - kept))));
          Some (numerator, denominator));
     make_float numerator denominator (negative d) (negb (kept =? length sig)%nat)).
Proof.
  intros ds Hds Esig Hlen Hsig Hl Hfl Hhead Hlast Hord kept.
  assert (0 < kept <= length sig)%nat as Hk by (unfold kept, DECIMAL_MAX_DIGITS; destruct (Nat.ltb_spec (length sig) 800); lia).
  assert (kept <= 800)%nat as Hk8 by (unfold kept, DECIMAL_MAX_DIGITS; destruct (Nat.ltb_spec (length sig) 800); lia).
  assert (kept <> length sig -> kept = 800%nat) as Hk9 by (unfold kept, DECIMAL_MAX_DIGITS; destruct (Nat.ltb_spec (length sig) 800); lia).
  destruct (kept_digits sig kept Hsig Hk Hhead Hlast) as (Hsum & Hrange & Hcut). clearbody kept.
  set (k := digits_value 0 (firstn kept sig)) in *. set (rest := digits_value 0 (skipn kept sig)) in *.
  set (p := e + Z.of_nat (length sig - kept)).
  destruct (from_small_correct BIG_CAPACITY 0) as (zero & Ez & Hz & Hvz & Hsz); [unfold BIG_CAPACITY; lia | lia |].
  destruct (from_small_tight BIG_CAPACITY 1) as (one & E1 & H1 & Ht1 & Hv1); [unfold BIG_CAPACITY; lia | lia |].
  assert (firstn kept (skipn f ds) = firstn kept sig) as Epre.
  { rewrite Esig, firstn_firstn. f_equal. lia. }
  assert (k < room) as Hkroom.
  { assert (10 ^ Z.of_nat kept <= pow 10 800) by (apply pow_le; lia). destruct room_bounds. pose proof (pow_pos 10 800). lia. }
  destruct (numerator_loop_correct kept f d zero Hds) as (num & En & Hn & Htn & Hvn); [fold ds; lia | done | | |].
  { split; [lia | left; done]. } { fold ds. rewrite Epre, Hvz. fold k. lia. }
  fold ds in Hvn. rewrite Epre, Hvz in Hvn. fold k in Hvn.
  assert (tight num) as Htn' by (apply nearly_tight_pos; [done|]; pose proof (Z.pow_pos_nonneg 10 (Z.of_nat kept - 1)); lia).
  destruct (scale_correct num one kept p) as (num' & den' & Es & Hn' & Htn2 & Hd' & Htd' & Hvn' & Hvd' & Hr1 & Hr2);
    [assumption | assumption | assumption | assumption | assumption | lia | rewrite Hvn; assumption | lia |].
  rewrite Ez. cbn [mbind option_bind]. rewrite En. cbn [mbind option_bind]. rewrite E1. cbn [mbind option_bind].
  fold p. rewrite Es. cbn [mbind option_bind].
  pose proof (make_float_correct num' den' _ _ rest (Z.max (- p) 0) Hn' Htn2 Hd' Htd' Hr1 Hr2 Hcut) as Hmf.
  rewrite Hvn', Hvd', Hvn in Hmf.
  eapply converted_ratio; [| apply pow10_pos | | apply Hmf].
  - apply Z.mul_pos_pos; [apply pow10_pos | apply Z.pow_pos_nonneg; lia].
  - destruct (decide (kept = length sig)) as [Heq|Hne].
    + assert (p = e) as -> by (unfold p; clear - Heq; lia). rewrite Hsum, Heq, Nat.sub_diag. change (10 ^ Z.of_nat 0) with 1.
      destruct Hcut as (_ & Hex & _). rewrite Hex by (by rewrite Heq, Nat.eqb_refl). ring.
    + specialize (Hk9 Hne). rewrite (Z.max_r p), (Z.max_l (- p)), (Z.max_r e), (Z.max_l (- e)) by lia.
      rewrite Hsum. change (10 ^ 0) with 1. rewrite <- Z.pow_add_r by lia.
      replace (- p + Z.of_nat (length sig - kept)) with (- e) by lia. ring.
  - intros Hst. assert (kept <> length sig) as Hne by (intros ->; rewrite Nat.eqb_refl in Hst; done). specialize (Hk9 Hne).
    rewrite (Z.max_l (- p)), (Z.max_r p) by lia. split; [exists (5 ^ (- p)); change 10 with (5 * 2); by rewrite Z.pow_mul_l|].
    intros e0 He0 Hnr. change (10 ^ 0) with 1 in Hnr. rewrite Z.mul_1_r in Hnr.
    eapply enough_digits; [|lia|done|exact Hnr]. rewrite Hk9 in Hrange. change (Z.of_nat 800 - 1) with 799 in Hrange. fold (pow 10 799) in Hrange. lia.
Qed.

Lemma to_f64_opt_correct d :
  decimal_ok d -> converted (negative d) (fst (decimal_fraction d)) (snd (decimal_fraction d)) (to_f64_opt d).
Proof.
  intros (Hne & Hi & Hf). unfold to_f64_opt. cbn [fst snd decimal_fraction].
  set (ds := integer d ++ fraction d). assert (digits_ok ds) as Hd by (by apply Forall_app).
  assert (length (integer d) + length (fraction d) = length ds)%nat as Hlen by (unfold ds; by rewrite length_app).
  destruct (Nat.eqb_spec (length (integer d)) 0) as [H0|_]; [by apply length_zero_iff_nil in H0|]. rewrite Hlen.
  destruct (scan_digits_correct (length ds) 0 d (length ds) 0 Hd) as (f & l & E & Hs); [done | left; split; [done | lia] |].
  fold ds in E, Hs. rewrite E. cbn [mbind option_bind].
  set (k := dec_exponent d - Z.of_nat (length (fraction d))) in *.
  destruct (Nat.eqb_spec f (length ds)) as [->|Hfn].
  { destruct Hs as [[_ Hz]|(Hfl & _)]; [|lia].
    assert (digits_value 0 ds = 0) as ->.
    { assert (ds = replicate (length ds) 48) as ->; [|apply digits_value_zeros]. symmetry. apply replicate_as_elem_of.
      split; [done|]. intros x Hx. apply list_elem_of_lookup in Hx as [j Hj]. pose proof (lookup_lt_Some _ _ _ Hj).
      rewrite Hz in Hj by done. by injection Hj. }
    rewrite Z.mul_0_l. right. split; [assert (0 < overflow_bound) by (by vm_compute); pose proof (pow10_pos (- k)); nia|].
    exists 0. rewrite with_sign_zero. split; [done|]. apply nearest_even_zero, pow10_pos. }
  destruct (significant ds f l Hd Hs Hfn) as (sig & Esig & Hsl & Hsd & Hl & Hfl & Hval & Hhead & Hlast).
  set (e := k + Z.of_nat (length ds - l - 1)).
  destruct (kept_digits sig (length sig) Hsd ltac:(lia) Hhead Hlast) as (_ & Hrange & _). rewrite firstn_all in Hrange.
  assert (digits_value 0 sig * 10 ^ Z.max e 0 * 10 ^ Z.max (- k) 0 =
          digits_value 0 ds * 10 ^ Z.max k 0 * 10 ^ Z.max (- e) 0) as Hratio.
  { rewrite Hval, <- !Z.mul_assoc. f_equal. rewrite <- !Z.pow_add_r by lia. f_equal. lia. }
  eapply converted_ratio; [apply pow10_pos | apply pow10_pos | exact Hratio |].
  rewrite <- Hsl. assert (0 < length sig)%nat as Hpos by (clear - Hsl; lia).
  assert (Z.of_nat (length sig - 1) = Z.of_nat (length sig) - 1) as -> by (clear - Hpos; lia).
  destruct (Z.ltb_spec 308 (Z.of_nat (length sig) - 1 + e)) as [Hbig|Hnb].
  { left. split; [|reflexivity]. exact (huge_overflows _ _ _ (proj1 Hrange) Hpos Hbig). }
  destruct (Z.ltb_spec (Z.of_nat (length sig) - 1 + e) (-324)) as [Hsmall|Hns].
  { eapply tiny_rounds_to_zero; [|exact Hsmall]. pose proof (digits_value_range sig Hsd). lia. }
  by apply (significant_correct d f l sig e).
Qed.

Lemma with_sign_finite negative b :
  0 <= b < INFINITY -> is_finite (with_sign negative b) = true /\ 0 <= with_sign negative b < 2 ^ 64.
Proof.
  intros Hb. destruct (fields b Hb) as (He & _ & Hr). assert (INFINITY < 2 ^ 63) by (by vm_compute).
  assert (is_finite b = true) as Hfin.
  { unfold is_finite. rewrite He. apply negb_true_iff, Z.eqb_neq. lia. }
  destruct negative; cbn [with_sign]; [|split; [done | lia]].
  rewrite Z.lor_comm, lor_shiftl_add by lia. split; [|lia]. unfold is_finite, exponent_bits in *.
  rewrite Z.shiftr_div_pow2 in * by lia. change (1 * 2 ^ 63 + b) with (2 ^ 11 * 2 ^ 52 + b).
  rewrite Z.div_add_l by lia. change 0x7ff with (2 ^ 11 - 1) in *. rewrite land_mask in * by lia.
  rewrite <- Z.add_mod_idemp_l, Z.mod_same, Z.add_0_l by lia. done.
Qed.

(** Only zero is nearest to zero. *)
Lemma nearest_zero d b : 0 < d -> nearest_even 0 d b -> b = 0.
Proof.
  intros Hd [Hb Hn]. assert (0 <= 0 < INFINITY) as H0 by (unfold INFINITY; lia). specialize (Hn 0 H0). cbn beta zeta in Hn.
  change (scaled_value 0) with 0 in Hn. rewrite !Z.mul_0_l, !Z.sub_0_r in Hn.
  apply scaled_inj; [done | done |]. change (scaled_value 0) with 0. nia.
Qed.

(** What the number parsers rely on. *)
#[export] Instance dec2flt_laws : DecimalConversionLaws.
Proof.
  split.
  - intros d Hd. unfold to_f64, dec2flt. destruct (to_f64_opt_correct d Hd) as [[_ ->]|(_ & bits & -> & Hn)]; [by right|].
    left. exists (with_sign (negative d) bits). split; [done|]. apply with_sign_finite, Hn.
  - intros d Hd Hz. unfold to_f64, dec2flt. pose proof (to_f64_opt_correct d Hd) as Hc.
    assert (fst (decimal_fraction d) = 0) as E.
    { cbn [fst decimal_fraction]. assert (integer d ++ fraction d = replicate (length (integer d ++ fraction d)) 48) as ->.
      - symmetry. apply replicate_as_elem_of. split; [done|]. intros x Hx. by eapply list.Forall_forall in Hz.
      - by rewrite digits_value_zeros. }
    assert (0 < snd (decimal_fraction d)) as Hpos by apply pow10_pos. rewrite E in Hc.
    assert (0 < overflow_bound) as Hob by (by vm_compute).
    destruct Hc as [[Hc _]|(_ & bits & -> & Hn)]; [nia|]. apply nearest_zero in Hn as ->; [|done]. by rewrite with_sign_zero.
Qed.

(** ** Claims *)

Lemma to_f64_correct (d : Decimal) :
  decimal_ok d ->
  let '(n, den) := decimal_fraction d in
  if overflow_bound * den <=? n then to_f64 d = Fail DecOverflow
  else exists bits, to_f64 d = Ret (with_sign (negative d) bits) /\ nearest_even n den bits.
Proof.
  intros Hd. pose proof (to_f64_opt_correct d Hd) as Hc. destruct (decimal_fraction d) as [n den]. cbn [fst snd] in Hc.
  unfold to_f64, dec2flt.
  destruct Hc as [[Hb ->]|(Hb & bits & -> & Hn)]; destruct (Z.leb_spec (overflow_bound * den) n); try lia; [done|].
  by exists bits.
Qed.

(** C2: [to_f64] is correctly rounded.  For every well-formed decimal, of any
    length and exponent, the result is the overflow error exactly when the
    decimal lies at or above the midpoint of the largest float and [2 ^ 1024];
    otherwise it is the sign with the nearest binary64 magnitude of the exact
    decimal, ties to even.  In particular no big-integer capacity is exceeded
    and keeping 800 digits loses nothing. *)
Theorem to_f64_nearest (d : Decimal) :
  decimal_ok d ->
  let '(n, den) := decimal_fraction d in
  if overflow_bound * den <=? n then to_f64 d = Fail DecOverflow
  else exists bits, to_f64 d = Ret (with_sign (negative d) bits) /\ nearest_even n den bits.
Proof. apply to_f64_correct. Qed.

(** One tenth: the nearest float is [0x3fb999999999999a]. *)
Lemma to_f64_nearest_witness : nearest_even 1 10 0x3fb999999999999a.
Proof.
  assert (decimal_ok (MkDecimal [48] [49] 0 false)) as H by (split; [discriminate | split; repeat constructor]).
  destruct (to_f64_nearest (MkDecimal [48] [49] 0 false) H) as (bits & E & Hn).
  assert (to_f64 (MkDecimal [48] [49] 0 false) = Ret 0x3fb999999999999a) as E' by (vm_compute; reflexivity).
  assert (bits = 0x3fb999999999999a) as -> by (rewrite E' in E; injection E; auto).
  exact Hn.
Defined.
