(* ===== verification/Flt2Dec.v ===== *)
(** * From a float to its decimal digits

    Models [src/core/src/num/flt2dec.cppm]: the decoding of a float into a
    mantissa with the distances to its neighbours, the digits of the shortest
    decimal that reads back as the float, and the exact digits up to a limit,
    all on the big integers of [Bignum].  [None] is an abort of the big
    integers or an access outside a digit buffer; [Flt2DecSpec]
    shows that the shortest conversion never ends so. *)

From Stdlib Require Import ZArith Lia.
From S2P Require Import Prelude Int Bignum.
Local Open Scope Z_scope.

(** ** Decoding *)

Inductive Category := Nan | Infinite | Zero | Finite.
Inductive TieBreaking := AwayFromZero | ToEven.

Record FloatLayout := mkLayout { MANTISSA_BITS : Z; EXPONENT_BITS : Z; EXPONENT_BIAS : Z }.

Definition f32_layout : FloatLayout := mkLayout 23 8 127.
Definition f64_layout : FloatLayout := mkLayout 52 11 1023.

(** The value is [mant * 2 ^ exponent]; it is the closest float from [minus]
    below to [plus] above, in the same unit. *)
Record Decoded := mkDecoded { mant : Z; minus : Z; plus : Z; exponent : Z; inclusive : bool }.

Record FullDecoded := mkFull { category : Category; full_negative : bool; finite : Decoded }.

Definition no_decoded : Decoded := mkDecoded 0 0 0 0 false.

(** [bits] is the pattern of the float. *)
Definition decode (layout : FloatLayout) (bits : Z) : FullDecoded :=
  let m := MANTISSA_BITS layout in
  let mantissa_mask := Z.shiftl 1 m - 1 in
  let exponent_mask := Z.shiftl 1 (EXPONENT_BITS layout) - 1 in
  let negative := negb (Z.shiftr bits (m + EXPONENT_BITS layout) =? 0) in
  let raw_mant := Z.land bits mantissa_mask in
  let raw_exp := Z.land (Z.shiftr bits m) exponent_mask in
  if raw_exp =? exponent_mask then
    mkFull (if raw_mant =? 0 then Infinite else Nan) negative no_decoded
  else if (raw_exp =? 0) && (raw_mant =? 0) then mkFull Zero negative no_decoded
  else if raw_exp =? 0 then
    mkFull Finite negative
      (mkDecoded (Z.shiftl raw_mant 1) 1 1 (wrap i16 (- EXPONENT_BIAS layout - m)) true)
  else
    let mant := Z.lor (Z.shiftl 1 m) raw_mant in
    let exp := wrap i16 (wrap i16 raw_exp - EXPONENT_BIAS layout - m) in
    if raw_mant =? 0 then
      mkFull Finite negative (mkDecoded (Z.shiftl mant 2) 1 2 (wrap i16 (exp - 2)) true)
    else
      mkFull Finite negative
        (mkDecoded (Z.shiftl mant 1) 1 1 (wrap i16 (exp - 1)) (Z.land mant 1 =? 0)).

(** ** Powers of ten *)

Definition FLOAT_CAPACITY : nat := 40.

Definition POW10 : list Z :=
  [1; 10; 100; 1000; 10000; 100000; 1000000; 10000000; 100000000; 1000000000].
Definition POW5_TO_16 : list Z := [0x86f26fc1; 0x23].
Definition POW5_TO_32 : list Z := [0x85acef81; 0x2d6d415b; 0x4ee].
Definition POW5_TO_64 : list Z := [0xbf6a1f01; 0x6e38ed64; 0xdaa797ed; 0xe93ff9f4; 0x184f03].
Definition POW5_TO_128 : list Z :=
  [0x2e953e01; 0x3df9909; 0xf1538fd; 0x2374e42f; 0xd3cff5ec;
   0xc404dc08; 0xbccdb0da; 0xa6337f19; 0xe91f2603; 0x24e].
Definition POW5_TO_256 : list Z :=
  [0x982e7c01; 0xbed3875b; 0xd8d99f72; 0x12152f87; 0x6bde50c6; 0xcf4a6e70; 0xd595d80f;
   0x26b2716e; 0xadc666b0; 0x1d153624; 0x3c42d35a; 0x63ff540e; 0xcc5573c0; 0x65f9ef17;
   0x55bc28f2; 0x80dcc7f7; 0xf46eeddc; 0x5fdcefce; 0x553f7].

Definition mul_if (value : FixedBig) (exponent bit : Z) (digits : list Z) : option FixedBig :=
  if negb (Z.land exponent bit =? 0) then mul_digits FLOAT_CAPACITY value digits else Some value.

(** [POW10[index]] *)
Definition pow10_at (index : Z) : option Z := POW10 !! Z.to_nat index.

Definition mul_pow10 (value : FixedBig) (exponent : Z) : option FixedBig :=
  if exponent <? 8 then p ← pow10_at exponent; mul_small FLOAT_CAPACITY value p
  else
    value ← (if negb (Z.land exponent 7 =? 0) then
               p ← pow10_at (Z.land exponent 7);
               mul_small FLOAT_CAPACITY value (Z.shiftr p (Z.land exponent 7))
             else Some value);
    value ← (if negb (Z.land exponent 8 =? 0) then
               p ← pow10_at 8; mul_small FLOAT_CAPACITY value (Z.shiftr p 8)
             else Some value);
    value ← mul_if value exponent 16 POW5_TO_16;
    value ← mul_if value exponent 32 POW5_TO_32;
    value ← mul_if value exponent 64 POW5_TO_64;
    value ← mul_if value exponent 128 POW5_TO_128;
    value ← mul_if value exponent 256 POW5_TO_256;
    mul_pow2 FLOAT_CAPACITY value (Z.to_nat exponent).

(** [while (exponent > LARGEST) { value.div_rem_small(POW10[LARGEST]); exponent -= LARGEST; }] *)
Fixpoint div_2pow10_loop (fuel : nat) (value : FixedBig) (exponent : Z) : option (FixedBig * Z) :=
  if 9 <? exponent then
    match fuel with
    | O => None
    | S fuel =>
      p ← pow10_at 9;
      '(value, _) ← div_rem_small value p;
      div_2pow10_loop fuel value (exponent - 9)
    end
  else Some (value, exponent).

Definition div_2pow10 (value : FixedBig) (exponent : Z) : option FixedBig :=
  '(value, exponent) ← div_2pow10_loop (Z.to_nat exponent) value exponent;
  p ← pow10_at exponent;
  '(value, _) ← div_rem_small value (Z.shiftl p 1);
  Some value.

(** [64 - clzll(mant - 1)] is the length of [mant - 1], which is positive. *)
Definition estimate_scaling_factor (mant exponent : Z) : Z :=
  let nbits := Z.log2 (mant - 1) + 1 in
  wrap i16 (Z.shiftr ((nbits + exponent) * 1292913986) 32).

(** ** Digit buffers *)

(** [for (j = from; j < len; ++j) digits[j] = '0'] *)
Fixpoint fill_zeros (n from : nat) (digits : list Z) : list Z :=
  match n with
  | O => digits
  | S n => fill_zeros n (S from) (<[from := 48]> digits)
  end.

(** [for (i = len; i != 0; --i)]; when every digit is a nine the number grows
    by the digit returned. *)
Fixpoint round_up_loop (i : nat) (digits : list Z) : list Z * Z :=
  let len := length digits in
  match i with
  | O =>
    (match digits with [] => [] | _ => fill_zeros (len - 1) 1 (<[0%nat := 49]> digits) end,
     if (len =? 0)%nat then 49 else 48)
  | S i' =>
    let d := default 0 (digits !! i') in
    if negb (d =? 57) then (fill_zeros (len - i) i (<[i' := d + 1]> digits), 0)
    else round_up_loop i' digits
  end.

Definition round_up (digits : list Z) : list Z * Z := round_up_loop (length digits) digits.

(** [buffer[len++] = c] in a buffer of [capacity] bytes. *)
Definition push_digit (capacity : nat) (buffer : list Z) (c : Z) : option (list Z) :=
  if (length buffer <? capacity)%nat then Some (buffer ++ [c]) else None.

(** ** One digit *)

Record Scales := mkScales { scale1 : FixedBig; scale2 : FixedBig; scale4 : FixedBig; scale8 : FixedBig }.

Definition make_scales (scale : FixedBig) : option Scales :=
  scale2 ← mul_pow2 FLOAT_CAPACITY scale 1;
  scale4 ← mul_pow2 FLOAT_CAPACITY scale 2;
  scale8 ← mul_pow2 FLOAT_CAPACITY scale 3;
  Some (mkScales scale scale2 scale4 scale8).

Definition digit_step (value scale : FixedBig) (result weight : Z) : option (FixedBig * Z) :=
  c ← compare value scale;
  if 0 <=? c then value ← sub value scale; Some (value, result + weight)
  else Some (value, result).

Definition digit (value : FixedBig) (scales : Scales) : option (FixedBig * Z) :=
  '(value, result) ← digit_step value (scale8 scales) 0 8;
  '(value, result) ← digit_step value (scale4 scales) result 4;
  '(value, result) ← digit_step value (scale2 scales) result 2;
  digit_step value (scale1 scales) result 1.

(** ** The shortest digits *)

Definition MAX_SIG_DIGITS : nat := 17.

(** [inclusive ? a.compare(b) <= 0 : a.compare(b) < 0] *)
Definition reaches (inclusive : bool) (a b : FixedBig) : option bool :=
  c ← compare a b; Some (if inclusive then c <=? 0 else c <? 0).

(** The numerators: the value and the two distances. *)
Record Spans := mkSpans { s_mant : FixedBig; s_minus : FixedBig; s_plus : FixedBig }.

Definition map_spans (f : FixedBig -> option FixedBig) (s : Spans) : option Spans :=
  m ← f (s_mant s); d ← f (s_minus s); u ← f (s_plus s); Some (mkSpans m d u).

(** The numerators and the scale: the value is their quotient times
    [10 ^ k]. *)
Definition scaled (decoded : Decoded) (k : Z) : option (Spans * FixedBig) :=
  m ← from_u64 FLOAT_CAPACITY (mant decoded);
  d ← from_u64 FLOAT_CAPACITY (minus decoded);
  u ← from_u64 FLOAT_CAPACITY (plus decoded);
  scale ← from_small FLOAT_CAPACITY 1;
  let spans := mkSpans m d u in
  '(spans, scale) ←
    (if exponent decoded <? 0 then
       scale ← mul_pow2 FLOAT_CAPACITY scale (Z.to_nat (- exponent decoded));
       Some (spans, scale)
     else
       spans ← map_spans (fun a => mul_pow2 FLOAT_CAPACITY a (Z.to_nat (exponent decoded))) spans;
       Some (spans, scale));
  if 0 <=? k then scale ← mul_pow10 scale k; Some (spans, scale)
  else spans ← map_spans (fun a => mul_pow10 a (- k)) spans; Some (spans, scale).

Definition times_ten (s : Spans) : option Spans := map_spans (fun a => mul_small FLOAT_CAPACITY a 10) s.

(** [for (;;)]: the digits so far, then [down] and [up] of the last round. *)
Fixpoint shortest_loop (fuel : nat) (inclusive : bool) (scales : Scales) (spans : Spans) (buffer : list Z)
    : option (list Z * FixedBig * bool * bool) :=
  match fuel with
  | O => None
  | S fuel =>
    '(m, d) ← digit (s_mant spans) scales;
    buffer ← push_digit MAX_SIG_DIGITS buffer (48 + d);
    down ← reaches inclusive m (s_minus spans);
    upper ← add FLOAT_CAPACITY m (s_plus spans);
    up ← reaches inclusive (scale1 scales) upper;
    if down || up then Some (buffer, m, down, up)
    else
      spans ← times_ten (mkSpans m (s_minus spans) (s_plus spans));
      shortest_loop fuel inclusive scales spans buffer
  end.

Definition format_shortest (decoded : Decoded) (ties : TieBreaking) : option (list Z * Z) :=
  let k := estimate_scaling_factor (mant decoded + plus decoded) (exponent decoded) in
  '(spans, scale) ← scaled decoded k;
  upper ← add FLOAT_CAPACITY (s_mant spans) (s_plus spans);
  high ← reaches (inclusive decoded) scale upper;
  '(spans, k) ← (if (high : bool) then Some (spans, wrap i16 (k + 1))
                 else spans ← times_ten spans; Some (spans, k));
  scales ← make_scales scale;
  '(buffer, m, down, up) ← shortest_loop MAX_SIG_DIGITS (inclusive decoded) scales spans [];
  twice ← mul_pow2 FLOAT_CAPACITY m 1;
  comparison ← compare twice scale;
  let round_tie := match ties with
                   | AwayFromZero => true
                   | ToEven => negb (Z.land (default 0 (list.last buffer)) 1 =? 0)
                   end in
  if up && (negb down || (0 <? comparison) || ((comparison =? 0) && round_tie)) then
    let '(buffer, carry) := round_up buffer in
    if negb (carry =? 0) then
      buffer ← push_digit MAX_SIG_DIGITS buffer carry; Some (buffer, wrap i16 (k + 1))
    else Some (buffer, k)
  else Some (buffer, k).

(** ** The exact digits *)

Fixpoint exact_loop (n : nat) (scales : Scales) (capacity : nat) (m : FixedBig) (buffer : list Z)
    : option (FixedBig * list Z * bool) :=
  match n with
  | O => Some (m, buffer, false)
  | S n' =>
    z ← is_zero m;
    if (z : bool) then Some (m, buffer ++ replicate n 48, true)
    else
      '(m, d) ← digit m scales;
      buffer ← push_digit capacity buffer (48 + d);
      m ← mul_small FLOAT_CAPACITY m 10;
      exact_loop n' scales capacity m buffer
  end.

Definition DIGIT_CAPACITY : nat := 1024.

Definition format_exact (decoded : Decoded) (capacity limit : Z) : option (list Z * Z) :=
  let k := estimate_scaling_factor (mant decoded) (exponent decoded) in
  m ← from_u64 FLOAT_CAPACITY (mant decoded);
  scale ← from_small FLOAT_CAPACITY 1;
  '(m, scale) ←
    (if exponent decoded <? 0 then
       scale ← mul_pow2 FLOAT_CAPACITY scale (Z.to_nat (- exponent decoded)); Some (m, scale)
     else m ← mul_pow2 FLOAT_CAPACITY m (Z.to_nat (exponent decoded)); Some (m, scale));
  '(m, scale) ←
    (if 0 <=? k then scale ← mul_pow10 scale k; Some (m, scale)
     else m ← mul_pow10 m (- k); Some (m, scale));
  half_ulp ← div_2pow10 scale capacity;
  half_ulp ← add FLOAT_CAPACITY half_ulp m;
  c ← compare half_ulp scale;
  '(m, k) ← (if 0 <=? c then Some (m, wrap i16 (k + 1))
             else m ← mul_small FLOAT_CAPACITY m 10; Some (m, k));
  let len := if k <? limit then 0 else Z.min (k - limit) capacity in
  scales ← make_scales scale;
  '(m, buffer, done) ← exact_loop (Z.to_nat len) scales DIGIT_CAPACITY m [];
  if (done : bool) then Some (buffer, k)
  else
    five_scale ← mul_small FLOAT_CAPACITY scale 5;
    order ← compare m five_scale;
    if (0 <? order) || ((order =? 0) && negb (len =? 0) && negb (Z.land (default 0 (list.last buffer)) 1 =? 0)) then
      let '(buffer, carry) := round_up buffer in
      if negb (carry =? 0) then
        let k := wrap i16 (k + 1) in
        if (limit <? k) && (len <? capacity) then
          buffer ← push_digit DIGIT_CAPACITY buffer carry; Some (buffer, k)
        else Some (buffer, k)
      else Some (buffer, k)
    else Some (buffer, k).

Definition max_buffer_len (exponent : Z) : Z :=
  let factor := if exponent <? 0 then -12 else 5 in
  21 + factor * exponent / 16.

(** ** Entry points *)

Record DecimalDigits := mkDigits
  { d_category : Category; d_negative : bool; digits : list Z; d_exponent : Z }.

Definition with_digits (decoded : FullDecoded) (run : Decoded -> option (list Z * Z)) : option DecimalDigits :=
  match category decoded with
  | Finite =>
    '(ds, k) ← run (finite decoded);
    Some (mkDigits Finite (full_negative decoded) ds k)
  | c => Some (mkDigits c (full_negative decoded) [] 0)
  end.

Definition shortest (layout : FloatLayout) (bits : Z) (ties : TieBreaking) : option DecimalDigits :=
  with_digits (decode layout bits) (fun d => format_shortest d ties).

Definition exact_fixed (layout : FloatLayout) (bits fractional_digits : Z) : option DecimalDigits :=
  with_digits (decode layout bits) (fun d =>
    let limit := if fractional_digits <? 0x8000 then wrap i16 (- wrap i16 fractional_digits) else MIN i16 in
    format_exact d (max_buffer_len (exponent d)) limit).

Definition exact_significant (layout : FloatLayout) (bits significant_digits : Z) : option DecimalDigits :=
  with_digits (decode layout bits) (fun d =>
    format_exact d (Z.min significant_digits (max_buffer_len (exponent d))) (MIN i16)).

Example shortest_tenth : shortest f64_layout 0x3fb999999999999a AwayFromZero = Some (mkDigits Finite false [49] 0).
Proof. by vm_compute. Qed.
Example shortest_min : shortest f64_layout 1 AwayFromZero = Some (mkDigits Finite false [53] (-323)).
Proof. by vm_compute. Qed.
Example shortest_max : option_map (fun d => (length (digits d), d_exponent d)) (shortest f64_layout 0x7fefffffffffffff AwayFromZero) = Some (17%nat, 309).
Proof. by vm_compute. Qed.
Example exact_third : option_map digits (exact_fixed f64_layout 0x3fd5555555555555 5) = Some [51;51;51;51;51].
Proof. by vm_compute. Qed.
Example exact_half : option_map (fun d => (digits d, d_exponent d)) (exact_fixed f64_layout 0x3fe0000000000000 0) = Some ([], 0).
Proof. by vm_compute. Qed.
