(* ===== verification/Flt2DecSpec.v ===== *)
(** * The shortest digits

    What [format_shortest] computes: a decimal inside the rounding interval of
    the float, with no decimal of fewer digits in it and no closer one of as
    many. *)

From Stdlib Require Import ZArith Lia ZifyBool.
From S2P Require Import Prelude Int Utf8 FloatSpec Bignum Dec2FltSpec Flt2Dec.
Local Open Scope Z_scope.

(** ** The digit generation on integers

    [format_shortest] runs on big integers of forty words.  Here it is shown
    to be the same algorithm on [Z]: no product exceeds the capacity, every
    comparison and subtraction is exact, and what remains is
    [shortest_digits]. *)

Notation big := (big_ok FLOAT_CAPACITY).

(** ** Sizes *)

(** The words a number in the conversion has at most. *)
Definition WORDS : nat := 38.

Definition sized (a : FixedBig) (v : Z) : Prop :=
  big a /\ big_value a = v /\ (0 < size_ a <= WORDS)%nat.

(** As [sized], without leading zero words. *)
Definition exactly (a : FixedBig) (v : Z) : Prop := big a /\ big_value a = v /\ tight a.

Definition limit : Z := 2 ^ 1180.

Lemma limit_weight : limit * 2 ^ 36 = weight WORDS /\ weight WORDS < weight FLOAT_CAPACITY.
Proof. split; by vm_compute. Qed.

Lemma exactly_sized a v : exactly a v -> v < 2 ^ 36 * limit -> sized a v.
Proof.
  intros (Ha & Hv & Hs & Ht) Hlt. split; [done|]. split; [done|]. split; [done|].
  assert (size_ a - 1 < WORDS)%nat; [|lia]. apply weight_lt_inv. rewrite <- (proj1 limit_weight). lia.
Qed.

Lemma capacity_fits v : v < 2 ^ 36 * limit -> v < weight FLOAT_CAPACITY.
Proof. destruct limit_weight as [E ?]. lia. Qed.

Lemma mul_small_sized a v m : sized a v -> 0 <= m < 2 ^ 32 -> v * m < 2 ^ 36 * limit ->
  exists c, mul_small FLOAT_CAPACITY a m = Some c /\ sized c (v * m).
Proof.
  intros (Ha & <- & Hs) Hm Hfit.
  destruct (mul_small_correct FLOAT_CAPACITY a m) as (c & E & Hc & Hv & Hsz); [done|done|by apply capacity_fits|].
  exists c. split; [done|]. split; [done|]. split; [done|]. destruct Hsz as [->|[-> Hw]]; [done|].
  split; [lia|]. assert (size_ a < WORDS)%nat; [|lia]. apply weight_lt_inv. rewrite <- (proj1 limit_weight). lia.
Qed.

Lemma mul_small_exactly a v m : exactly a v -> 0 < m < 2 ^ 32 -> v * m < 2 ^ 36 * limit ->
  exists c, mul_small FLOAT_CAPACITY a m = Some c /\ exactly c (v * m).
Proof.
  intros (Ha & <- & Ht) Hm Hfit.
  destruct (mul_small_tight FLOAT_CAPACITY a m) as (c & E & Hc & Htc & Hv); [done..|by apply capacity_fits|].
  by exists c.
Qed.

Lemma mul_pow2_exactly a v n : exactly a v -> v * 2 ^ Z.of_nat n < 2 ^ 36 * limit ->
  exists c, mul_pow2 FLOAT_CAPACITY a n = Some c /\ exactly c (v * 2 ^ Z.of_nat n).
Proof.
  intros (Ha & <- & Ht) Hfit.
  destruct (mul_pow2_correct FLOAT_CAPACITY a n) as (c & E & Hc & Htc & Hv); [done..|by apply capacity_fits|].
  by exists c.
Qed.

(** Doubling a number that may have leading zero words. *)
Lemma double_sized a v : sized a v -> v * 2 < 2 ^ 36 * limit ->
  exists c, mul_pow2 FLOAT_CAPACITY a 1 = Some c /\ big c /\ big_value c = v * 2.
Proof.
  intros (Ha & <- & Hs) Hfit.
  destruct (mul_pow2_room FLOAT_CAPACITY a 1) as (c & E & Hc & Hv & _); [done|lia|unfold WORDS, FLOAT_CAPACITY in *; cbn; lia|
    by apply capacity_fits|]. by exists c.
Qed.

Lemma sub_sized a b v w : sized a v -> sized b w -> w <= v -> exists c, sub a b = Some c /\ sized c (v - w).
Proof.
  intros (Ha & <- & Hs) (Hb & <- & Hs') Hle.
  destruct (sub_correct FLOAT_CAPACITY a b) as (c & E & Hc & Hv); [done..|]. exists c. split; [done|].
  split; [done|]. split; [done|]. unfold sub in E. destruct (sub_loop _ _ _ _ _) as [[base borrow]|]; [|done].
  cbn [mbind option_bind] in E. destruct (negb _); [done|]. injection E as <-. cbn [size_]. lia.
Qed.

Lemma add_big a b v w : sized a v -> sized b w -> v + w < 2 ^ 36 * limit ->
  exists c, add FLOAT_CAPACITY a b = Some c /\ big c /\ big_value c = v + w.
Proof. intros (Ha & <- & _) (Hb & <- & _) Hfit. apply add_correct; [done..|by apply capacity_fits]. Qed.

Lemma compare_big a b v w : big a -> big_value a = v -> big b -> big_value b = w ->
  exists c, compare a b = Some c /\ Z.sgn c = Z.sgn (v - w).
Proof.
  intros Ha <- Hb <-. destruct (compare_correct FLOAT_CAPACITY a b Ha Hb) as (c & E & Hc). exists c. split; [done|lia].
Qed.

Definition reaches_z (inclusive : bool) (a b : Z) : bool := if inclusive then a <=? b else a <? b.

Lemma reaches_big inclusive a b v w : big a -> big_value a = v -> big b -> big_value b = w ->
  reaches inclusive a b = Some (reaches_z inclusive v w).
Proof.
  intros Ha Hv Hb Hw. destruct (compare_big a b v w Ha Hv Hb Hw) as (c & E & Hc).
  unfold reaches, reaches_z. rewrite E. cbn [mbind option_bind]. f_equal. destruct inclusive; lia.
Qed.

(** ** Powers of ten *)

Lemma table_words :
  Forall (fun l => words_ok l /\ weight (length l - 1) <= words_value l)
    [POW5_TO_16; POW5_TO_32; POW5_TO_64; POW5_TO_128; POW5_TO_256].
Proof. repeat (constructor; [split; [repeat constructor; lia|by vm_compute]|]). constructor. Qed.

Lemma table_values :
  words_value POW5_TO_16 = 5 ^ 16 /\ words_value POW5_TO_32 = 5 ^ 32 /\ words_value POW5_TO_64 = 5 ^ 64 /\
  words_value POW5_TO_128 = 5 ^ 128 /\ words_value POW5_TO_256 = 5 ^ 256.
Proof. by vm_compute. Qed.

Lemma mul_if_exactly a v e bit ds : exactly a v -> 0 < v ->
  words_ok ds -> weight (length ds - 1) <= words_value ds -> words_value ds = 5 ^ bit ->
  Z.land e bit = 0 \/ Z.land e bit = bit -> 0 < bit -> v * 5 ^ Z.land e bit < 2 ^ 36 * limit ->
  exists c, mul_if a e bit ds = Some c /\ exactly c (v * 5 ^ Z.land e bit).
Proof.
  intros (Ha & Hv & Ht) Hpos Hok Htop Hval Hbit Hb Hfit. unfold mul_if. destruct Hbit as [E|E]; rewrite E in *.
  - cbn [Z.eqb negb]. exists a. rewrite Z.pow_0_r, Z.mul_1_r in *. done.
  - replace (negb (bit =? 0)) with true by lia. rewrite <- Hval in *.
    destruct (mul_digits_correct FLOAT_CAPACITY a ds) as (c & Ec & Hc & Hvc & Htc);
      [done..|rewrite Hv; by apply capacity_fits|].
    exists c. split; [done|]. split; [done|]. rewrite Hv in Hvc. split; [done|]. apply Htc.
    rewrite Hvc. assert (0 < words_value ds) by (pose proof (weight_pos (length ds - 1)); lia). nia.
Qed.

(** The bits of an exponent below 512, and the small powers of the table. *)
Definition exponent_checked (e : Z) : bool :=
  let bit b := (Z.land e b =? 0) || (Z.land e b =? b) in
  (e =? Z.land e 7 + Z.land e 8 + Z.land e 16 + Z.land e 32 + Z.land e 64 + Z.land e 128 + Z.land e 256) &&
  bit 8 && bit 16 && bit 32 && bit 64 && bit 128 && bit 256 && (Z.land e 7 <? 8).

Lemma exponents_checked e : 0 <= e < 512 -> exponent_checked e = true.
Proof.
  intros H. assert (forallb exponent_checked (seqZ 0 512) = true) as Hall by (by vm_compute).
  rewrite forallb_forall in Hall. apply Hall, list_elem_of_In, elem_of_seqZ. lia.
Qed.

Lemma pow10_small e : 0 <= e < 10 -> pow10_at e = Some (10 ^ e) /\ 0 < 10 ^ e < 2 ^ 32.
Proof.
  intros H. assert (e = 0 \/ e = 1 \/ e = 2 \/ e = 3 \/ e = 4 \/ e = 5 \/ e = 6 \/ e = 7 \/ e = 8 \/ e = 9) as Hc by lia.
  destruct Hc as [->|[->|[->|[->|[->|[->|[->|[->|[->| ->]]]]]]]]]; by vm_compute.
Qed.

Lemma pow10_shifted e : 0 <= e < 10 -> Z.shiftr (10 ^ e) e = 5 ^ e /\ 0 < 5 ^ e < 2 ^ 32.
Proof.
  intros H. assert (e = 0 \/ e = 1 \/ e = 2 \/ e = 3 \/ e = 4 \/ e = 5 \/ e = 6 \/ e = 7 \/ e = 8 \/ e = 9) as Hc by lia.
  destruct Hc as [->|[->|[->|[->|[->|[->|[->|[->|[->| ->]]]]]]]]]; by vm_compute.
Qed.

Lemma pow5_pos e b : 0 <= e -> 0 < 5 ^ Z.land e b.
Proof. intros. apply Z.pow_pos_nonneg; [lia|]. apply Z.land_nonneg. by left. Qed.

Lemma exponent_split e : 0 <= e < 512 ->
  10 ^ e = 5 ^ Z.land e 7 * 5 ^ Z.land e 8 * 5 ^ Z.land e 16 * 5 ^ Z.land e 32 * 5 ^ Z.land e 64 *
           5 ^ Z.land e 128 * 5 ^ Z.land e 256 * 2 ^ e /\
  0 <= Z.land e 7 < 8 /\ Forall (fun b => Z.land e b = 0 \/ Z.land e b = b) [8; 16; 32; 64; 128; 256].
Proof.
  intros He. pose proof (exponents_checked e He) as Hx. unfold exponent_checked in Hx. cbn beta zeta in Hx.
  assert (0 <= Z.land e 7) by (apply Z.land_nonneg; left; lia).
  split; [|split; [lia|rewrite !list.Forall_cons; repeat split; try done; lia]].
  change 10 with (5 * 2). rewrite Z.pow_mul_l, <- !Z.pow_add_r by lia. do 2 f_equal. lia.
Qed.

Lemma grow x y : 0 < x -> 0 < y -> x <= x * y /\ 0 < x * y.
Proof. nia. Qed.

Lemma small_step a v i j : exactly a v -> 0 < v -> i = 0 \/ i = j -> 0 <= j -> j < 10 -> v * 5 ^ i < 2 ^ 36 * limit ->
  exists c, (if negb (i =? 0) then p ← pow10_at j; mul_small FLOAT_CAPACITY a (Z.shiftr p j) else Some a) = Some c /\
    exactly c (v * 5 ^ i).
Proof.
  intros Ha Hv Hi Hj Hj' Hfit. destruct (Z.eqb_spec i 0) as [->|Hne]; cbn [negb].
  { exists a. rewrite Z.pow_0_r, Z.mul_1_r. done. }
  destruct Hi as [->|<-]; [done|]. destruct (pow10_small i) as [-> _]; [done|]. cbn [mbind option_bind].
  destruct (pow10_shifted i) as [-> Hp]; [done|]. by apply mul_small_exactly.
Qed.

(** The factors one by one: each product divides the last. *)
Lemma mul_pow10_exactly a v e : exactly a v -> 0 < v -> 0 <= e < 512 -> v * 10 ^ e < 2 ^ 36 * limit ->
  exists c, mul_pow10 a e = Some c /\ exactly c (v * 10 ^ e).
Proof.
  intros Ha Hv He Hfit. assert (0 <= e) as H0 by lia. unfold mul_pow10. destruct (Z.ltb_spec e 8) as [Hlt|Hge].
  { destruct (pow10_small e) as [-> Hp]; [lia|]. cbn [mbind option_bind]. by apply mul_small_exactly. }
  destruct (exponent_split e He) as (E10 & H7 & Hbits).
  assert (Z.land e 7 < 10) as H7' by lia. rewrite E10, !Z.mul_assoc in Hfit |- *. clear E10.
  rewrite !list.Forall_cons in Hbits. destruct Hbits as (H8 & H16 & H32 & H64 & H128 & H256 & _).
  pose proof table_words as T. rewrite !list.Forall_cons in T. destruct T as ((T1 & T1') & (T2 & T2') & (T3 & T3') & (T4 & T4') & (T5 & T5') & _).
  destruct table_values as (V1 & V2 & V3 & V4 & V5).
  destruct (grow v (5 ^ Z.land e 7) Hv) as [B1 G1]; [by apply pow5_pos|].
  destruct (grow _ (5 ^ Z.land e 8) G1) as [B2 G2]; [by apply pow5_pos|].
  destruct (grow _ (5 ^ Z.land e 16) G2) as [B3 G3]; [by apply pow5_pos|].
  destruct (grow _ (5 ^ Z.land e 32) G3) as [B4 G4]; [by apply pow5_pos|].
  destruct (grow _ (5 ^ Z.land e 64) G4) as [B5 G5]; [by apply pow5_pos|].
  destruct (grow _ (5 ^ Z.land e 128) G5) as [B6 G6]; [by apply pow5_pos|].
  destruct (grow _ (5 ^ Z.land e 256) G6) as [B7 G7]; [by apply pow5_pos|].
  destruct (grow _ (2 ^ e) G7) as [B8 G8]; [by apply Z.pow_pos_nonneg|].
  set (v7 := v * 5 ^ Z.land e 7) in *. set (v8 := v7 * 5 ^ Z.land e 8) in *. set (v16 := v8 * 5 ^ Z.land e 16) in *.
  set (v32 := v16 * 5 ^ Z.land e 32) in *. set (v64 := v32 * 5 ^ Z.land e 64) in *. set (v128 := v64 * 5 ^ Z.land e 128) in *.
  set (v256 := v128 * 5 ^ Z.land e 256) in *. set (bound := v256 * 2 ^ e) in *. set (room := 2 ^ 36 * limit) in *.
  assert (v7 < room /\ v8 < room /\ v16 < room /\ v32 < room /\ v64 < room /\ v128 < room /\ v256 < room)
    as (R7 & R8 & R1 & R2 & R3 & R4 & R5) by (clearbody bound v256 v128 v64 v32 v16 v8 v7 room; lia).
  destruct (small_step a v _ (Z.land e 7) Ha Hv (or_intror eq_refl) (proj1 H7) H7' R7) as (a1 & -> & Ha1). cbn [mbind option_bind].
  destruct (small_step a1 _ _ 8 Ha1 G1 H8 (Zle_bool_imp_le 0 8 eq_refl) eq_refl R8) as (a2 & -> & Ha2). cbn [mbind option_bind].
  destruct (mul_if_exactly a2 _ e 16 _ Ha2 G2 T1 T1' V1 H16 eq_refl R1) as (a3 & -> & Ha3). cbn [mbind option_bind].
  destruct (mul_if_exactly a3 _ e 32 _ Ha3 G3 T2 T2' V2 H32 eq_refl R2) as (a4 & -> & Ha4). cbn [mbind option_bind].
  destruct (mul_if_exactly a4 _ e 64 _ Ha4 G4 T3 T3' V3 H64 eq_refl R3) as (a5 & -> & Ha5). cbn [mbind option_bind].
  destruct (mul_if_exactly a5 _ e 128 _ Ha5 G5 T4 T4' V4 H128 eq_refl R4) as (a6 & -> & Ha6). cbn [mbind option_bind].
  destruct (mul_if_exactly a6 _ e 256 _ Ha6 G6 T5 T5' V5 H256 eq_refl R5) as (a7 & -> & Ha7). cbn [mbind option_bind].
  destruct (mul_pow2_exactly a7 _ (Z.to_nat e) Ha7) as (c & E & Hc); [rewrite Z2Nat.id; [exact Hfit|exact H0]|].
  rewrite Z2Nat.id in Hc by exact H0. exists c. split; [exact E|exact Hc].
Qed.

Lemma from_u64_exactly v : 0 < v < 2 ^ 64 -> exists a, from_u64 FLOAT_CAPACITY v = Some a /\ exactly a v.
Proof.
  intros Hv. destruct (from_u64_correct FLOAT_CAPACITY v) as (a & E & Ha & Hval); [unfold FLOAT_CAPACITY; lia|lia|].
  exists a. split; [done|]. split; [done|]. split; [done|]. unfold tight. rewrite Hval.
  unfold from_u64, from_u64_loop in E. replace (v =? 0) with false in E by lia. cbn [base_ size_ big_zero] in E.
  rewrite store_Some in E by (rewrite length_replicate; unfold FLOAT_CAPACITY; lia). cbn [mbind option_bind base_ size_ big_zero] in E.
  destruct (Z.eqb_spec (Z.shiftr v 32) 0) as [H0|H0].
  - injection E as <-. cbn [size_]. split; [lia|]. change (weight (1 - 1)) with 1. lia.
  - rewrite store_Some in E by (rewrite length_insert, length_replicate; unfold FLOAT_CAPACITY; lia). cbn [mbind option_bind] in E.
    destruct (_ =? 0) in E; [|done]. injection E as <-. cbn [size_]. split; [lia|]. change (weight (2 - 1)) with (2 ^ 32).
    assert (Z.shiftr v 32 = v / 2 ^ 32) as Hd by (by apply Z.shiftr_div_pow2). destruct (Z.lt_ge_cases v (2 ^ 32)); [|done].
    exfalso. apply H0. rewrite Hd. apply Z.div_small. lia.
Qed.

Lemma one_exactly : exists a, from_small FLOAT_CAPACITY 1 = Some a /\ exactly a 1.
Proof.
  destruct (from_small_tight FLOAT_CAPACITY 1) as (a & E & ? & ? & ?); [unfold FLOAT_CAPACITY; lia|lia|]. by exists a.
Qed.

(** ** The four scales and a digit *)

Definition scales_of (ss : Scales) (s : Z) : Prop :=
  sized (scale1 ss) s /\ sized (scale2 ss) (s * 2) /\ sized (scale4 ss) (s * 4) /\ sized (scale8 ss) (s * 8).

Lemma make_scales_of a s : exactly a s -> 0 < s < limit ->
  exists ss, make_scales a = Some ss /\ scales_of ss s /\ scale1 ss = a.
Proof.
  intros Ha Hs. unfold make_scales.
  destruct (mul_pow2_exactly a s 1 Ha) as (a2 & -> & H2); [change (2 ^ Z.of_nat 1) with 2; lia|].
  destruct (mul_pow2_exactly a s 2 Ha) as (a4 & -> & H4); [change (2 ^ Z.of_nat 2) with 4; lia|].
  destruct (mul_pow2_exactly a s 3 Ha) as (a8 & -> & H8); [change (2 ^ Z.of_nat 3) with 8; lia|].
  eexists. split; [done|]. split; [|done].
  split_and!; cbn; [|apply exactly_sized in H2|apply exactly_sized in H4|apply exactly_sized in H8]; try done.
  - apply exactly_sized; [done|]. lia.
  - change (2 ^ Z.of_nat 1) with 2. lia.
  - change (2 ^ Z.of_nat 2) with 4. lia.
  - change (2 ^ Z.of_nat 3) with 8. lia.
Qed.

Lemma digit_step_correct a v b w r weight : sized a v -> sized b w -> 0 <= v < 2 * w ->
  exists a', digit_step a b r weight = Some (a', r + (if w <=? v then weight else 0)) /\
    sized a' (if w <=? v then v - w else v).
Proof.
  intros Ha Hb Hr. destruct (compare_big a b v w) as (c & E & Hc); [apply Ha|apply Ha|apply Hb|apply Hb|].
  unfold digit_step. rewrite E. cbn [mbind option_bind]. destruct (Z.leb_spec w v) as [Hle|Hlt].
  - replace (0 <=? c) with true by lia. destruct (sub_sized a b v w Ha Hb Hle) as (d & -> & Hd). by exists d.
  - replace (0 <=? c) with false by lia. exists a. by rewrite Z.add_0_r.
Qed.

(** One weight of the digit: the remainder shrinks to below the weight. *)
Lemma digit_weight a v b s q r weight : sized a r -> sized b (s * weight) -> v = s * q + r ->
  0 < s -> 0 < weight -> 0 <= r < s * (2 * weight) ->
  exists a' q' r', digit_step a b q weight = Some (a', q') /\ sized a' r' /\ v = s * q' + r' /\ 0 <= r' < s * weight.
Proof.
  intros Ha Hb Hv Hs Hw Hr. destruct (digit_step_correct a r b (s * weight) q weight Ha Hb ltac:(lia)) as (a' & -> & Ha').
  destruct (Z.leb_spec (s * weight) r); do 3 eexists; (split; [done|split; [exact Ha'|lia]]).
Qed.

(** A digit is a quotient, and leaves the remainder. *)
Lemma digit_correct a v ss s : scales_of ss s -> sized a v -> 0 < s -> 0 <= v < 16 * s ->
  exists a', digit a ss = Some (a', v / s) /\ sized a' (v mod s).
Proof.
  intros (H1 & H2 & H4 & H8) Ha Hs Hv. unfold digit. rewrite <- (Z.mul_1_r s) in H1.
  destruct (digit_weight a v _ s 0 v 8 Ha H8) as (a1 & q1 & r1 & -> & Ha1 & E1 & B1); try lia. cbn [mbind option_bind].
  destruct (digit_weight a1 v _ s q1 r1 4 Ha1 H4) as (a2 & q2 & r2 & -> & Ha2 & E2 & B2); try lia. cbn [mbind option_bind].
  destruct (digit_weight a2 v _ s q2 r2 2 Ha2 H2) as (a3 & q3 & r3 & -> & Ha3 & E3 & B3); try lia. cbn [mbind option_bind].
  destruct (digit_weight a3 v _ s q3 r3 1 Ha3 H1) as (a4 & q4 & r4 & -> & Ha4 & E4 & B4); try lia.
  exists a4. rewrite (Z.div_unique v s q4 r4), <- (Z.mod_unique v s q4 r4) by lia. done.
Qed.

(** ** The fractions the conversion starts from *)

(** One unit of the decoded mantissa is [unit_num / unit_den] in units of
    [10 ^ k]. *)
Definition unit_num (e k : Z) : Z := 2 ^ Z.max e 0 * 10 ^ Z.max (- k) 0.
Definition unit_den (e k : Z) : Z := 2 ^ Z.max (- e) 0 * 10 ^ Z.max k 0.

Lemma pow_pos_z a n : 0 < a -> 0 < a ^ n \/ n < 0.
Proof. intros. destruct (Z.lt_ge_cases n 0); [by right|left]. by apply Z.pow_pos_nonneg. Qed.

Lemma unit_num_pos e k : 0 < unit_num e k.
Proof. unfold unit_num. apply Z.mul_pos_pos; apply Z.pow_pos_nonneg; lia. Qed.

Lemma unit_den_pos e k : 0 < unit_den e k.
Proof. unfold unit_den. apply Z.mul_pos_pos; apply Z.pow_pos_nonneg; lia. Qed.

Definition spans_are (P : FixedBig -> Z -> Prop) (s : Spans) (m l h : Z) : Prop :=
  P (s_mant s) m /\ P (s_minus s) l /\ P (s_plus s) h.

Lemma map_spans_correct (P Q : FixedBig -> Z -> Prop) f s m l h c :
  (forall a v, v = m \/ v = l \/ v = h -> P a v -> exists b, f a = Some b /\ Q b (v * c)) ->
  spans_are P s m l h -> exists s', map_spans f s = Some s' /\ spans_are Q s' (m * c) (l * c) (h * c).
Proof.
  intros Hf (H1 & H2 & H3). unfold map_spans.
  destruct (Hf _ m ltac:(auto) H1) as (b1 & -> & Q1). destruct (Hf _ l ltac:(auto) H2) as (b2 & -> & Q2).
  destruct (Hf _ h ltac:(auto) H3) as (b3 & -> & Q3). cbn [mbind option_bind]. eexists. split; [done|]. by split_and!.
Qed.

(** The mantissa and its distances. *)
Definition mantissas_ok (d : Decoded) : Prop :=
  0 < minus d < mant d /\ 0 < plus d <= mant d /\ mant d <= 2 ^ 54.

Lemma scaled_correct d k :
  mantissas_ok d -> -511 < k < 511 -> mant d * unit_num (exponent d) k < limit -> unit_den (exponent d) k < limit ->
  exists spans scale, scaled d k = Some (spans, scale) /\
    spans_are exactly spans (mant d * unit_num (exponent d) k) (minus d * unit_num (exponent d) k) (plus d * unit_num (exponent d) k) /\
    exactly scale (unit_den (exponent d) k).
Proof.
  intros (Hl & Hh & Hm) Hk Hfit Hden. unfold scaled, unit_num, unit_den in *. set (e := exponent d) in *.
  destruct (from_u64_exactly (mant d)) as (m & -> & Em); [lia|]. destruct (from_u64_exactly (minus d)) as (l & -> & El); [lia|].
  destruct (from_u64_exactly (plus d)) as (h & -> & Eh); [lia|]. destruct one_exactly as (one & -> & E1). cbn [mbind option_bind].
  assert (0 < 2 ^ Z.max e 0) as P1 by (apply Z.pow_pos_nonneg; lia). assert (0 < 10 ^ Z.max (- k) 0) as P2 by (apply Z.pow_pos_nonneg; lia).
  assert (0 < 2 ^ Z.max (- e) 0) as P3 by (apply Z.pow_pos_nonneg; lia). assert (0 < 10 ^ Z.max k 0) as P4 by (apply Z.pow_pos_nonneg; lia).
  set (m2 := 2 ^ Z.max e 0) in *. set (m10 := 10 ^ Z.max (- k) 0) in *. set (d2 := 2 ^ Z.max (- e) 0) in *. set (d10 := 10 ^ Z.max k 0) in *.
  assert (exists spans scale, (if e <? 0 then
       scale ← mul_pow2 FLOAT_CAPACITY one (Z.to_nat (- e)); Some (mkSpans m l h, scale)
     else spans ← map_spans (fun a => mul_pow2 FLOAT_CAPACITY a (Z.to_nat e)) (mkSpans m l h); Some (spans, one)) = Some (spans, scale) /\
     spans_are exactly spans (mant d * m2) (minus d * m2) (plus d * m2) /\ exactly scale d2) as (spans & scale & -> & Hs & Hsc).
  { assert (d2 <= d2 * d10) by nia. assert (m2 <= m2 * m10) by nia. assert (mant d * m2 <= mant d * (m2 * m10)) by nia.
    destruct (Z.ltb_spec e 0) as [Hneg|Hpos].
    - assert (2 ^ Z.of_nat (Z.to_nat (- e)) = d2) as Ed2 by (subst d2; f_equal; lia).
      destruct (mul_pow2_exactly one 1 (Z.to_nat (- e)) E1) as (s & -> & Hs); [rewrite Ed2; lia|]. rewrite Ed2, Z.mul_1_l in Hs.
      assert (m2 = 1) as -> by (subst m2; by replace (Z.max e 0) with 0 by lia). rewrite !Z.mul_1_r.
      cbn [mbind option_bind]. do 2 eexists. split; [done|]. by split_and!.
    - assert (2 ^ Z.of_nat (Z.to_nat e) = m2) as Em2 by (subst m2; f_equal; lia).
      destruct (map_spans_correct exactly exactly (fun a => mul_pow2 FLOAT_CAPACITY a (Z.to_nat e)) (mkSpans m l h) (mant d) (minus d) (plus d) m2)
        as (s & -> & Hs); [|done|].
      + intros a v Hv Ha. rewrite <- Em2. apply mul_pow2_exactly; [done|]. rewrite Em2. nia.
      + cbn [mbind option_bind]. do 2 eexists. split; [done|]. split; [done|].
        assert (d2 = 1) as -> by (subst d2; by replace (Z.max (- e) 0) with 0 by lia). done. }
  cbn [mbind option_bind]. destruct (Z.leb_spec 0 k) as [Hpos|Hneg].
  - assert (10 ^ k = d10) as Ed10 by (subst d10; f_equal; lia).
    destruct (mul_pow10_exactly scale d2 k Hsc P3) as (s & -> & Hs'); [lia|rewrite Ed10; lia|]. rewrite Ed10 in Hs'. cbn [mbind option_bind].
    do 2 eexists. split; [done|]. split; [|done]. assert (m10 = 1) as -> by (subst m10; by replace (Z.max (- _) 0) with 0 by lia).
    by rewrite !Z.mul_1_r.
  - assert (10 ^ (- k) = m10) as Em10 by (subst m10; f_equal; lia).
    destruct (map_spans_correct exactly exactly (fun a => mul_pow10 a (- k)) spans (mant d * m2) (minus d * m2) (plus d * m2) m10)
        as (s & -> & Hs'); [|done|].
    + intros a v Hv Ha. rewrite <- Em10. apply mul_pow10_exactly; [done|nia|lia|]. rewrite Em10. nia.
    + cbn [mbind option_bind]. do 2 eexists. rewrite !Z.mul_assoc. split; [done|]. split; [done|].
      assert (d10 = 1) as -> by (subst d10; by replace (Z.max k 0) with 0 by lia). by rewrite Z.mul_1_r.
Qed.

(** ** The digit loop *)

Definition within (inclusive : bool) (lo x hi : Z) : Prop :=
  if inclusive then lo <= x <= hi else lo < x < hi.

(** What the loop delivers from the numerators [m], [l], [h] and the scale
    [s]: [j + 1] digits and the remainder [r].  One digit less, no number is
    in the interval. *)
Definition generated (incl : bool) (m l h s : Z) (ds : list Z) (r : Z) (down up : bool) (j : nat) : Prop :=
  let t := 10 ^ Z.of_nat j in
  length ds = S j /\ digits_ok ds /\ t * m = digits_value 0 ds * s + r /\ 0 <= r < s /\
  down = reaches_z incl r (t * l) /\ up = reaches_z incl s (r + t * h) /\ down || up = true /\
  ((0 < j)%nat -> forall c, ~ within incl (t * (m - l)) (c * (10 * s)) (t * (m + h))).

Lemma pow10_S j : 10 ^ Z.of_nat (S j) = 10 * 10 ^ Z.of_nat j /\ 0 < 10 ^ Z.of_nat j.
Proof. rewrite Nat2Z.inj_succ, Z.pow_succ_r by lia. split; [done|]. apply Z.pow_pos_nonneg; lia. Qed.

Lemma digit_byte d : 0 <= d < 10 -> is_digit (48 + d) = true.
Proof. intros. unfold is_digit. lia. Qed.

Lemma not_within_step incl m l h s q r : 0 < s -> m = q * s + r -> 0 <= r < s -> reaches_z incl r l = false ->
  reaches_z incl s (r + h) = false -> forall c, ~ within incl (m - l) (c * s) (m + h).
Proof.
  intros Hs Hm Hr Hd Hu c. unfold within, reaches_z in *.
  destruct (Z.le_gt_cases c q) as [Hc|Hc].
  - assert (c * s <= q * s) by nia. destruct incl; lia.
  - assert ((q + 1) * s <= c * s) by nia. destruct incl; lia.
Qed.

Lemma generated_one incl m l h s : 0 < s -> 0 <= m < 10 * s ->
  let r := m mod s in let down := reaches_z incl r l in let up := reaches_z incl s (r + h) in
  down || up = true -> generated incl m l h s [48 + m / s] r down up 0.
Proof.
  intros Hs Hm r down up Hstop. unfold generated. cbn zeta. change (10 ^ Z.of_nat 0) with 1. rewrite !Z.mul_1_l.
  pose proof (Z.div_mod m s ltac:(lia)) as E. pose proof (Z.mod_pos_bound m s Hs) as B. fold r in E, B.
  split_and!; try done; try lia.
  - repeat constructor. apply digit_byte. split; [apply Z.div_pos; lia|apply Z.div_lt_upper_bound; lia].
  - cbn [digits_value]. lia.
Qed.

Lemma generated_more incl m l h s ds r down up j : 0 < s -> 0 <= m < 10 * s ->
  reaches_z incl (m mod s) l = false -> reaches_z incl s (m mod s + h) = false ->
  generated incl (m mod s * 10) (l * 10) (h * 10) s ds r down up j ->
  generated incl m l h s ((48 + m / s) :: ds) r down up (S j).
Proof.
  intros Hs Hm Hd Hu (Hlen & Hds & Hval & Hr & Hdown & Hup & Hstop & Hmore). unfold generated. cbn zeta.
  destruct (pow10_S j) as [E10 Ht]. rewrite E10. set (t := 10 ^ Z.of_nat j) in *. cbn zeta in *.
  pose proof (Z.div_mod m s ltac:(lia)) as E. pose proof (Z.mod_pos_bound m s Hs) as B.
  set (q := m / s) in *. set (p := m mod s) in *.
  assert (0 <= q < 10) as Hq by nia.
  split; [cbn [length]; lia|]. split; [constructor; [by apply digit_byte|done]|].
  split; [cbn [digits_value]; rewrite digits_value_acc, Hlen, E10; fold t; nia|]. split; [done|].
  split; [rewrite Hdown; f_equal; ring|]. split; [rewrite Hup; do 2 f_equal; ring|]. split; [done|].
  intros _ c Hw. assert (Hm' : m = q * s + p) by lia. destruct j as [|j].
  - apply (not_within_step incl m l h s q p Hs Hm' B Hd Hu c). change t with 1 in *. unfold within in *. destruct incl; lia.
  - apply (Hmore ltac:(lia) (c - 10 ^ Z.of_nat j * 10 * q)). unfold within in *.
      destruct (pow10_S j) as [E10' _]. assert (t = 10 ^ Z.of_nat j * 10) as Et by (subst t; rewrite E10'; ring).
      rewrite <- Et. replace ((c - t * q) * (10 * s)) with (c * (10 * s) - 10 * t * (q * s)) by ring.
      replace (t * (p * 10 - l * 10)) with (10 * t * (m - l) - 10 * t * (q * s)) by (rewrite Hm'; ring).
      replace (t * (p * 10 + h * 10)) with (10 * t * (m + h) - 10 * t * (q * s)) by (rewrite Hm'; ring).
      destruct incl; lia.
Qed.

Lemma shortest_loop_correct incl ss s fuel spans m l h buffer :
  scales_of ss s -> 0 < s < limit -> spans_are sized spans m l h -> 0 <= m < 10 * s -> 0 < l <= 10 * s -> 0 < h <= 10 * s ->
  s < 10 ^ Z.of_nat fuel * (l + h) -> (length buffer + S fuel <= MAX_SIG_DIGITS)%nat ->
  exists ds a r down up j, shortest_loop (S fuel) incl ss spans buffer = Some (buffer ++ ds, a, down, up) /\ sized a r /\
    (j <= fuel)%nat /\ generated incl m l h s ds r down up j.
Proof.
  intros Hss Hs. revert spans m l h buffer. induction fuel as [|fuel IH]; intros spans m l h buffer (Sm & Sl & Sh) Hm Hl Hh Hfuel Hlen.
  all: cbn [shortest_loop].
  all: destruct (digit_correct (s_mant spans) m ss s Hss Sm ltac:(lia) ltac:(lia)) as (a & -> & Ha); cbn [mbind option_bind].
  all: unfold push_digit; replace (length buffer <? MAX_SIG_DIGITS)%nat with true by lia; cbn [mbind option_bind].
  all: rewrite (reaches_big incl a (s_minus spans) (m mod s) l) by (apply Ha || apply Sl); cbn [mbind option_bind].
  all: pose proof (Z.mod_pos_bound m s ltac:(lia)) as Hr.
  all: destruct (add_big a (s_plus spans) (m mod s) h Ha Sh ltac:(lia)) as (upper & -> & Bu & Vu); cbn [mbind option_bind].
  all: rewrite (reaches_big incl (scale1 ss) upper s (m mod s + h)) by (apply Hss || done); cbn [mbind option_bind].
  all: destruct (reaches_z incl (m mod s) l || reaches_z incl s (m mod s + h)) eqn:Estop;
    [by exists [48 + m / s], a, (m mod s), (reaches_z incl (m mod s) l), (reaches_z incl s (m mod s + h)), 0%nat;
      (split; [reflexivity|]); (split; [exact Ha|]); (split; [lia|]); apply generated_one; [lia|lia|]|].
  all: apply orb_false_iff in Estop as [Hd Hu].
  - exfalso. change (10 ^ Z.of_nat 0) with 1 in Hfuel. unfold reaches_z in *. destruct incl; lia.
  - destruct (pow10_S fuel) as [E10 Ht]. rewrite E10 in Hfuel.
    assert (l <= s /\ h <= s) as [Hl' Hh'] by (unfold reaches_z in *; destruct incl; lia).
    unfold times_ten. destruct (map_spans_correct sized sized (fun a => mul_small FLOAT_CAPACITY a 10) (mkSpans a (s_minus spans) (s_plus spans))
      (m mod s) l h 10) as (spans' & -> & Hs'); [|by split_and!|].
    { intros b v Hv Hb. apply mul_small_sized; [done|lia|lia]. }
    cbn [mbind option_bind].
    destruct (IH spans' (m mod s * 10) (l * 10) (h * 10) (buffer ++ [48 + m / s]) Hs') as (ds & b & r & down & up & j & E & Hb & Hj & Hg);
      [lia|lia|lia|nia|rewrite length_app; cbn [length]; lia|].
    exists ((48 + m / s) :: ds), b, r, down, up, (S j).
    split; [etransitivity; [exact E|]; by rewrite <- app_assoc|]. split; [done|]. split; [lia|].
    apply generated_more; [lia|lia|exact Hd|exact Hu|exact Hg].
Qed.

(** ** Rounding up *)

Lemma fill_zeros_correct n from ds : (from + n = length ds)%nat -> fill_zeros n from ds = take from ds ++ replicate n 48.
Proof.
  revert from ds. induction n as [|n IH]; intros from ds Hlen; cbn [fill_zeros replicate].
  { by rewrite app_nil_r, take_ge by lia. }
  rewrite IH by (rewrite length_insert; lia). destruct (lookup_lt_is_Some_2 ds from ltac:(lia)) as [d Hd].
  rewrite (take_S_r _ from 48) by (apply list_lookup_insert_eq; lia).
  rewrite take_insert_ge by lia. by rewrite <- app_assoc.
Qed.

Lemma digits_value_nines n : digits_value 0 (replicate n 57) + 1 = 10 ^ Z.of_nat n.
Proof.
  induction n as [|n IH]; [done|]. cbn [replicate digits_value]. rewrite digits_value_acc, length_replicate.
  destruct (pow10_S n) as [-> _]. lia.
Qed.

(** The digit at [i'] is the last that is not a nine. *)
Lemma round_up_at ds i' d m : digits_ok ds -> ds !! i' = Some d -> d <> 57 -> drop (S i') ds = replicate m 57 ->
  let ds' := take i' ds ++ (d + 1) :: replicate m 48 in
  fill_zeros (length ds - S i') (S i') (<[i' := d + 1]> ds) = ds' /\
  length ds' = length ds /\ digits_ok ds' /\ digits_value 0 ds' = digits_value 0 ds + 1.
Proof.
  intros Hok Hd Hne Hdrop ds'. pose proof (lookup_lt_Some _ _ _ Hd) as Hlt.
  assert (m = length ds - S i')%nat as Em by (apply (f_equal length) in Hdrop; rewrite length_drop, length_replicate in Hdrop; lia).
  assert (ds = take i' ds ++ d :: replicate m 57) as E by (by rewrite <- Hdrop, take_drop_middle).
  assert (length ds' = length ds) as Hlen by (unfold ds'; rewrite length_app, length_take; cbn [length]; rewrite length_replicate; lia).
  split; [|split; [done|]].
  - rewrite fill_zeros_correct by (rewrite length_insert; lia). rewrite (take_S_r _ i' (d + 1)) by (apply list_lookup_insert_eq; lia).
    rewrite take_insert_ge, <- app_assoc by lia. unfold ds'. by rewrite Em.
  - rewrite E in Hok. apply Forall_app in Hok as [H1 H2]. apply Forall_cons_1 in H2 as [H2 _]. split.
    + apply Forall_app. split; [done|]. constructor; [unfold is_digit in *; lia|]. by apply Forall_replicate.
    + rewrite E at 1. unfold ds'. rewrite !digits_value_app. set (q := digits_value 0 (take i' ds)).
      cbn [digits_value]. rewrite (digits_value_acc _ (replicate m 48)), (digits_value_acc _ (replicate m 57)), !length_replicate, digits_value_zeros.
      pose proof (digits_value_nines m). lia.
Qed.

Lemma round_up_loop_correct i ds : (i <= length ds)%nat -> digits_ok ds -> drop i ds = replicate (length ds - i) 57 ->
  digits_value 0 ds + 1 < 10 ^ Z.of_nat (length ds) ->
  exists ds', round_up_loop i ds = (ds', 0) /\ length ds' = length ds /\ digits_ok ds' /\ digits_value 0 ds' = digits_value 0 ds + 1.
Proof.
  induction i as [|i IH]; intros Hi Hok Hdrop Hlt; cbn [round_up_loop].
  { exfalso. rewrite drop_0, Nat.sub_0_r in Hdrop. rewrite Hdrop in Hlt at 1. rewrite digits_value_nines in Hlt. lia. }
  destruct (lookup_lt_is_Some_2 ds i ltac:(lia)) as [d Hd]. rewrite Hd. change (default 0 (Some d)) with d.
  destruct (Z.eqb_spec d 57) as [->|Hne]; cbn [negb].
  - apply IH; try done; [lia|]. rewrite (drop_S _ 57 i Hd), Hdrop. by replace (length ds - i)%nat with (S (length ds - S i)) by lia.
  - destruct (round_up_at ds i d _ Hok Hd Hne Hdrop) as (E & H).
    rewrite E. by eexists.
Qed.

Lemma round_up_correct ds : digits_ok ds -> digits_value 0 ds + 1 < 10 ^ Z.of_nat (length ds) ->
  exists ds', round_up ds = (ds', 0) /\ length ds' = length ds /\ digits_ok ds' /\ digits_value 0 ds' = digits_value 0 ds + 1.
Proof. intros Hok Hlt. apply round_up_loop_correct; [lia|done| |done]. by rewrite drop_all, Nat.sub_diag. Qed.

(** ** The choice between the two last digits *)

Definition rounds_up (down up tie : bool) (r s : Z) : bool :=
  up && (negb down || (s <? 2 * r) || ((2 * r =? s) && tie)).

(** The interval meets the decade of the first digit. *)
Definition decade_ok (incl : bool) (m l h s : Z) : Prop :=
  0 < l < m /\ 0 < h /\ if incl then s <= m + h < 10 * s else s < m + h <= 10 * s.

Lemma chosen_within incl m l h s ds r down up j tie : 0 < s -> 0 < l -> 0 < h -> generated incl m l h s ds r down up j ->
  let t := 10 ^ Z.of_nat j in
  let v := digits_value 0 ds + Z.b2z (rounds_up down up tie r s) in
  within incl (t * (m - l)) (v * s) (t * (m + h)) /\
  forall c, within incl (t * (m - l)) (c * s) (t * (m + h)) -> Z.abs (v * s - t * m) <= Z.abs (c * s - t * m).
Proof.
  intros Hs Hl Hh (_ & _ & E & Hr & Hd & Hu & Hstop & _). cbn zeta in *. destruct (pow10_S j) as [_ Ht].
  set (t := 10 ^ Z.of_nat j) in *. set (q := digits_value 0 ds) in *.
  assert (0 < t * l /\ 0 < t * h) as [Hl' Hh'] by nia.
  rewrite Z.mul_sub_distr_l, Z.mul_add_distr_l, E in *. set (l' := t * l) in *. set (h' := t * h) in *.
  unfold rounds_up, within, reaches_z in *.
  assert (forall c, c <= q -> c * s <= q * s) as Hle by (intros; nia).
  assert (forall c, q + 1 <= c -> q * s + s <= c * s) as Hge by (intros; nia).
  destruct (up && (negb down || (s <? 2 * r) || ((2 * r =? s) && tie))) eqn:Eup; cbn [Z.b2z].
  - rewrite Z.mul_add_distr_r, Z.mul_1_l. split; [destruct incl; lia|]. intros c Hc.
    destruct (Z.le_gt_cases c q) as [H|H]; [apply Hle in H|assert (q + 1 <= c) as H1 by lia; apply Hge in H1]; destruct incl; lia.
  - rewrite Z.add_0_r. split; [destruct incl, down; lia|]. intros c Hc.
    destruct (Z.le_gt_cases c q) as [H|H]; [apply Hle in H|assert (q + 1 <= c) as H1 by lia; apply Hge in H1]; destruct incl, down, up; lia.
Qed.

Lemma chosen_decade incl m l h s ds r down up j tie : 0 < s -> decade_ok incl m l h s -> generated incl m l h s ds r down up j ->
  let v := digits_value 0 ds + Z.b2z (rounds_up down up tie r s) in
  10 ^ Z.of_nat j <= v < 10 ^ Z.of_nat (S j).
Proof.
  intros Hs (Hl & Hh & Hdec) Hg. destruct (chosen_within incl m l h s ds r down up j tie Hs ltac:(lia) Hh Hg) as [Hw _].
  destruct Hg as (Hlen & Hok & E & Hr & Hd & Hu & Hstop & Hmore). cbn zeta in *. destruct (pow10_S j) as [-> Ht].
  pose proof (digits_value_range ds Hok) as Hq. rewrite Hlen in Hq. destruct (pow10_S j) as [E10 _]. rewrite E10 in Hq.
  set (t := 10 ^ Z.of_nat j) in *. set (q := digits_value 0 ds) in *. set (b := Z.b2z _) in *.
  assert (0 <= b <= 1) as Hb by (unfold b; destruct (rounds_up _ _ _ _ _); cbn; lia).
  split.
  - destruct (Z.le_gt_cases t q) as [|Hlt]; [lia|]. destruct j as [|j].
    + change t with 1 in *. assert (q = 0) as Eq by lia. rewrite Eq in E.
      enough (b = 1) by lia. unfold b, rounds_up. rewrite Hd, Hu. unfold reaches_z. destruct incl.
      * replace (s <=? r + 1 * h) with true by lia. replace (r <=? 1 * l) with false by lia. done.
      * replace (s <? r + 1 * h) with true by lia. replace (r <? 1 * l) with false by lia. done.
    + exfalso. assert (m < s) as Hm by nia. apply (Hmore ltac:(lia) (10 ^ Z.of_nat j)).
      destruct (pow10_S j) as [E10' _]. fold t in E10'. replace (10 ^ Z.of_nat j * (10 * s)) with (t * s) by (rewrite E10'; ring).
      unfold within. destruct incl; nia.
  - apply (Z.mul_lt_mono_pos_r s); [done|]. assert (t * (m + h) <= 10 * t * s) by (destruct incl; nia).
    destruct incl; unfold within in Hw; [|lia]. assert (t * (m + h) < 10 * t * s) by nia. lia.
Qed.

(** ** The estimated power of ten *)

(** [2 ^ e] and [10 ^ k] without negative exponents. *)
Definition two (e : Z) : Z := 2 ^ (1100 + e).
Definition ten (k : Z) : Z := 10 ^ (400 + k).

Definition estimated (l : Z) : Z := wrap i16 (Z.shiftr (l * 1292913986) 32).

Lemma two_pos e : -1100 <= e -> 0 < two e.
Proof. intros. apply Z.pow_pos_nonneg; lia. Qed.

Lemma ten_pos k : -400 <= k -> 0 < ten k.
Proof. intros. apply Z.pow_pos_nonneg; lia. Qed.

Lemma two_add n e : 0 <= n -> -1100 <= e -> two (n + e) = 2 ^ n * two e.
Proof. intros. unfold two. rewrite <- Z.pow_add_r by lia. f_equal. lia. Qed.

Lemma ten_add n k : 0 <= n -> -400 <= k -> ten (n + k) = 10 ^ n * ten k.
Proof. intros. unfold ten. rewrite <- Z.pow_add_r by lia. f_equal. lia. Qed.

(** The bounds of the estimate for [n] lengths from [l] on; [a] and [b] are
    [2 ^ l] and [10 ^ k] over a common unit. *)
Fixpoint estimates_checked (n : nat) (l k a b : Z) : bool :=
  match n with
  | O => true
  | S n =>
    (estimated l =? k) && (-330 <=? k) && (k <=? 330) && (a <? 10 * b) && (b <=? 5 * a) &&
    (if estimated (l + 1) =? k then estimates_checked n (l + 1) k (2 * a) b
     else estimates_checked n (l + 1) (k + 1) (2 * a) (10 * b))
  end.

Definition estimate_ok (l : Z) : Prop :=
  let k := estimated l in
  -330 <= k <= 330 /\ two l * 10 ^ 400 < 10 * (ten k * 2 ^ 1100) /\ ten k * 2 ^ 1100 <= 5 * (two l * 10 ^ 400).

Lemma estimates_checked_ok n l k : -1100 <= l ->
  estimates_checked n l k (two l * 10 ^ 400) (ten k * 2 ^ 1100) = true ->
  forall i, 0 <= i < Z.of_nat n -> estimate_ok (l + i).
Proof.
  revert l k. induction n as [|n IH]; intros l k Hl H i Hi; [lia|]. cbn [estimates_checked] in H.
  rewrite !andb_true_iff in H. destruct H as (((((Hk & K1) & K2) & A) & B) & H). apply Z.eqb_eq in Hk.
  apply Z.leb_le in K1, K2, B. apply Z.ltb_lt in A.
  destruct (Z.eq_dec i 0) as [->|Hne]; [rewrite Z.add_0_r; unfold estimate_ok; rewrite Hk; by split_and!|].
  replace (l + i) with ((l + 1) + (i - 1)) by lia.
  assert (2 * (two l * 10 ^ 400) = two (l + 1) * 10 ^ 400) as E2 by (rewrite (Z.add_comm l), two_add by lia; ring).
  assert (10 * (ten k * 2 ^ 1100) = ten (k + 1) * 2 ^ 1100) as E10 by (rewrite (Z.add_comm k), ten_add by lia; ring).
  rewrite E2, E10 in H. destruct (_ =? k) in H; eapply IH; (exact H || lia).
Qed.

Lemma estimates_ok l : -1090 <= l <= 1090 -> estimate_ok l.
Proof.
  intros H. replace l with (-1090 + (l + 1090)) by lia.
  apply (estimates_checked_ok 2181 (-1090) (estimated (-1090))); [lia|by vm_compute|lia].
Qed.

Lemma unit_scaled e k : -1100 <= e -> -400 <= k ->
  unit_num e k * (ten k * 2 ^ 1100) = two e * 10 ^ 400 * unit_den e k.
Proof.
  intros He Hk. unfold unit_num, unit_den, two, ten.
  transitivity (2 ^ (Z.max e 0 + 1100) * 10 ^ (Z.max (- k) 0 + (400 + k))).
  - rewrite (Z.pow_add_r 2 (Z.max e 0)), (Z.pow_add_r 10 (Z.max (- k) 0)) by lia. ring.
  - transitivity (2 ^ (1100 + e + Z.max (- e) 0) * 10 ^ (400 + Z.max k 0)); [f_equal; f_equal; lia|].
    rewrite (Z.pow_add_r 2 (1100 + e)), (Z.pow_add_r 10 400) by lia. ring.
Qed.

(** ** The conversion *)

(** What the decoding of a float gives. *)
Definition decoded_ok (d : Decoded) : Prop :=
  mantissas_ok d /\ -1076 <= exponent d <= 971 /\ mant d + plus d < 10 ^ 16 * (minus d + plus d).

(** A number of units of the decoded mantissa, and a number of units of the
    last of [n] digits before the exponent [k], over [10 ^ 400 * 2 ^ 1100]. *)
Definition units (d : Decoded) (m : Z) : Z := m * (two (exponent d) * 10 ^ 400).
Definition decimals (k : Z) (n : nat) (c : Z) : Z := c * (ten (k - Z.of_nat n) * 2 ^ 1100).

(** The decimal [c] in units of the last digit lies between the neighbours. *)
Definition between (d : Decoded) (k : Z) (n : nat) (c : Z) : Prop :=
  within (inclusive d) (units d (mant d - minus d)) (decimals k n c) (units d (mant d + plus d)).

Record shortest_digits (d : Decoded) (ds : list Z) (k : Z) : Prop := {
  sd_digits : digits_ok ds;
  sd_length : (1 <= length ds <= MAX_SIG_DIGITS)%nat;
  sd_exponent : -330 <= k <= 331;
  sd_first : 10 ^ Z.of_nat (length ds - 1) <= digits_value 0 ds;
  sd_between : between d k (length ds) (digits_value 0 ds);
  sd_shortest : (1 < length ds)%nat -> forall c, ~ between d k (length ds - 1) c;
  sd_closest : forall c, between d k (length ds) c ->
    Z.abs (decimals k (length ds) (digits_value 0 ds) - units d (mant d)) <=
    Z.abs (decimals k (length ds) c - units d (mant d))
}.

Lemma within_scale incl lo x hi c : 0 < c -> within incl (lo * c) (x * c) (hi * c) <-> within incl lo x hi.
Proof.
  intros Hc. unfold within. destruct incl; rewrite <- ?Z.mul_le_mono_pos_r, <- ?Z.mul_lt_mono_pos_r by done; done.
Qed.

(** With [k >= 0] the numerator is small, otherwise the denominator. *)
Lemma decade_fits x nu s e k : nu = unit_num e k -> s = unit_den e k -> -1076 <= e <= 971 -> 0 < x <= 2 ^ 55 ->
  s < 10 * (x * nu) -> x * nu < 10 * s -> x * nu < limit /\ s < limit.
Proof.
  intros Enu Es He Hx Hs Hx'. assert (10 * (2 ^ 55 * 2 ^ 971) < 2 ^ 1100 /\ 2 ^ 1076 < 2 ^ 1100 /\ 10 * 2 ^ 1100 < limit) as (C1 & C2 & C3) by done.
  assert (s < 2 ^ 1100) as H; [|clear C1 C2; set (c := 2 ^ 1100) in *; clearbody c; unfold limit in *; lia].
  destruct (Z.le_gt_cases 0 k).
  - assert (nu <= 2 ^ 971) as Hnu.
    { rewrite Enu. unfold unit_num. replace (Z.max (- k) 0) with 0 by lia. rewrite Z.mul_1_r. apply Z.pow_le_mono_r; lia. }
    eapply Z.lt_trans; [|exact C1]. eapply Z.lt_le_trans; [exact Hs|]. apply Z.mul_le_mono_nonneg_l; [done|].
    pose proof (unit_num_pos e k). apply Z.mul_le_mono_nonneg; lia.
  - eapply Z.le_lt_trans; [|exact C2]. rewrite Es. unfold unit_den. replace (Z.max k 0) with 0 by lia. rewrite Z.mul_1_r.
    apply Z.pow_le_mono_r; lia.
Qed.

Lemma ratio_bounds x y nu s t u : 0 < s -> 0 < t -> 0 < u -> 0 < y -> y < x <= 2 * y -> 2 * y * u < 10 * t -> t <= 5 * (2 * y * u) ->
  nu * t = u * s -> x * nu < 10 * s /\ s < 10 * (x * nu).
Proof.
  intros Hs Ht Hu Hy Hx A B E. assert (x * nu * t = x * u * s) as Ex by (rewrite <- Z.mul_assoc, E; ring).
  assert (x * u <= 2 * y * u) by (apply Z.mul_le_mono_nonneg_r; lia). assert (y * u < x * u) by (apply Z.mul_lt_mono_pos_r; lia).
  assert (x * u < 10 * t /\ t < 10 * (x * u)) as [C D] by lia.
  split; apply (Z.mul_lt_mono_pos_r t); try done.
  - rewrite Ex. replace (10 * s * t) with (10 * t * s) by ring. by apply Z.mul_lt_mono_pos_r.
  - rewrite <- Z.mul_assoc, Ex. replace (10 * (x * u * s)) with (10 * (x * u) * s) by ring. rewrite (Z.mul_comm s t). by apply Z.mul_lt_mono_pos_r.
Qed.

(** The estimate brackets the upper end of the interval. *)
Lemma estimate_bounds d : decoded_ok d ->
  let k := estimate_scaling_factor (mant d + plus d) (exponent d) in
  let p := (mant d + plus d) * unit_num (exponent d) k in
  let s := unit_den (exponent d) k in
  -330 <= k <= 330 /\ p < 10 * s /\ s < 10 * p /\ p < limit /\ s < limit.
Proof.
  intros ((Hl & Hh & Hm) & He & _). cbn zeta. unfold estimate_scaling_factor. set (x := mant d + plus d) in *.
  set (n := Z.log2 (x - 1) + 1). set (e := exponent d) in *. fold (estimated (n + e)).
  destruct (Z.log2_spec (x - 1)) as [L1 L2]; [lia|]. replace (Z.succ (Z.log2 (x - 1))) with n in L2 by lia.
  assert (1 <= n <= 60) as Hn.
  { pose proof (Z.log2_nonneg (x - 1)). assert (Z.log2 (x - 1) < 59); [|lia]. apply Z.log2_lt_pow2; lia. }
  replace (Z.log2 (x - 1)) with (n - 1) in L1 by lia.
  destruct (estimates_ok (n + e) ltac:(lia)) as (Hk & A & B). cbn zeta in *. set (k := estimated (n + e)) in *.
  rewrite two_add in A, B by lia. pose proof (unit_scaled e k ltac:(lia) ltac:(lia)) as E.
  pose proof (ten_pos k ltac:(lia)). pose proof (two_pos e ltac:(lia)).
  assert (2 ^ n = 2 * 2 ^ (n - 1)) as En by (rewrite <- Z.pow_succ_r by lia; f_equal; lia). rewrite En in *.
  pose proof (unit_num_pos e k). pose proof (unit_den_pos e k).
  assert (0 < ten k * 2 ^ 1100) as Ht by (by apply Z.mul_pos_pos). assert (0 < two e * 10 ^ 400) as Hu by (by apply Z.mul_pos_pos).
  set (t := ten k * 2 ^ 1100) in *. set (u := two e * 10 ^ 400) in *.
  set (nu := unit_num e k) in *. set (s := unit_den e k) in *. set (y := 2 ^ (n - 1)) in *.
  replace (2 * y * two e * 10 ^ 400) with (2 * y * u) in * by (unfold u; ring).
  assert (y < x <= 2 * y) as Hxy by (clear - L1 L2; lia). assert (0 < y) as Hy by (apply Z.pow_pos_nonneg; clear - Hn; lia).
  assert (0 < s) as Hs by apply unit_den_pos. assert (x * nu < 10 * s /\ s < 10 * (x * nu)) as [Hb1 Hb2]
    by exact (ratio_bounds x y nu s t u Hs Ht Hu Hy Hxy A B E).
  split; [done|]. split; [done|]. split; [done|].
  apply (decade_fits x nu s e k eq_refl eq_refl He); [clear - Hl Hh Hm; lia|exact Hb2|exact Hb1].
Qed.

(** The numerators and the exponent with which the digits are generated. *)
Definition started (d : Decoded) (k : Z) : option (Spans * FixedBig * Z) :=
  '(spans, scale) ← scaled d k;
  upper ← add FLOAT_CAPACITY (s_mant spans) (s_plus spans);
  high ← reaches (inclusive d) scale upper;
  '(spans, k) ← (if (high : bool) then Some (spans, wrap i16 (k + 1))
                 else spans ← times_ten spans; Some (spans, k));
  Some (spans, scale, k).

(** [nu / s] is the unit of the mantissa in units of the first digit. *)
Record start_ok (d : Decoded) (spans : Spans) (scale : FixedBig) (k nu s : Z) : Prop := {
  st_spans : spans_are sized spans (mant d * nu) (minus d * nu) (plus d * nu);
  st_scale : exactly scale s;
  st_range : 0 < s < limit;
  st_nu : 0 < nu;
  st_exponent : -330 <= k <= 331;
  st_decade : decade_ok (inclusive d) (mant d * nu) (minus d * nu) (plus d * nu) s;
  st_unit : nu * (ten (k - 1) * 2 ^ 1100) = two (exponent d) * 10 ^ 400 * s
}.

Lemma reaches_z_spec (incl : bool) a b : reaches_z incl a b = true <-> if incl then a <= b else a < b.
Proof. unfold reaches_z. destruct incl; lia. Qed.

Lemma spans_sized spans m l h : spans_are exactly spans m l h -> m < 2 ^ 36 * limit -> l < 2 ^ 36 * limit -> h < 2 ^ 36 * limit ->
  spans_are sized spans m l h.
Proof. intros (A & B & C) ???. split_and!; by apply exactly_sized. Qed.

Lemma decade_ok_intro (incl : bool) m l h s : 0 < l < m -> 0 < h -> (if incl then s <= m + h else s < m + h) ->
  (if incl then m + h < 10 * s else m + h <= 10 * s) -> decade_ok incl m l h s.
Proof. intros. split; [done|]. split; [done|]. destruct incl; lia. Qed.

Lemma started_correct d : decoded_ok d ->
  let k := estimate_scaling_factor (mant d + plus d) (exponent d) in
  exists spans scale k' nu s, started d k = Some (spans, scale, k') /\ start_ok d spans scale k' nu s.
Proof.
  intros Hd k. destruct (estimate_bounds d Hd) as (Hk & Hup & Hlow & Hfit & Hden). fold k in Hk, Hup, Hlow, Hfit, Hden.
  destruct Hd as (Hm & He & _). pose proof (unit_num_pos (exponent d) k) as Hnu. pose proof (unit_den_pos (exponent d) k) as Hs.
  pose proof (unit_scaled (exponent d) k ltac:(lia) ltac:(lia)) as Hunit.
  destruct (scaled_correct d k Hm ltac:(lia)) as (spans & scale & E & Hsp & Hsc); [|done|].
  { destruct Hm as (Hl & Hh & _). rewrite Z.mul_add_distr_r in Hfit. pose proof (Z.mul_pos_pos (plus d) _ (proj1 Hh) Hnu). clear - Hfit H. lia. }
  unfold started. rewrite E. cbn [mbind option_bind]. clear E.
  set (nu := unit_num (exponent d) k) in *. set (s := unit_den (exponent d) k) in *.
  destruct Hm as (Hl & Hh & _). rewrite Z.mul_add_distr_r in *.
  assert (0 < minus d * nu < mant d * nu /\ 0 < plus d * nu <= mant d * nu) as [Hl' Hh'] by nia.
  assert (mant d * nu < 2 ^ 20 * limit) as Hfit' by (clear - Hh' Hfit; unfold limit in *; lia).
  apply spans_sized in Hsp; [|clear - Hl' Hh' Hfit'; unfold limit in *; lia..].
  destruct (add_big (s_mant spans) (s_plus spans) (mant d * nu) (plus d * nu)) as (upper & -> & Bu & Vu); [apply Hsp|apply Hsp| |].
  { clear - Hh' Hfit'; unfold limit in *; lia. }
  cbn [mbind option_bind]. rewrite (reaches_big (inclusive d) scale upper s (mant d * nu + plus d * nu)) by (apply Hsc || done).
  cbn [mbind option_bind]. destruct (reaches_z _ _ _) eqn:Ehigh.
  - apply reaches_z_spec in Ehigh. exists spans, scale, (wrap i16 (k + 1)), nu, s.
    assert (wrap i16 (k + 1) = k + 1) as -> by (apply wrap_id; unfold in_range, MIN, MAX; cbn; lia).
    split; [done|]. constructor; try done; [lia| |by replace (k + 1 - 1) with k by lia].
    apply decade_ok_intro; [done|lia|done|]. clear - Hup. destruct (inclusive d); lia.
  - apply not_true_iff_false in Ehigh. rewrite reaches_z_spec in Ehigh.
    unfold times_ten. destruct (map_spans_correct sized sized (fun a => mul_small FLOAT_CAPACITY a 10) spans
      (mant d * nu) (minus d * nu) (plus d * nu) 10) as (spans' & -> & Hsp'); [|done|].
    { intros a v Hv Ha. apply mul_small_sized; [done|lia|]. clear - Hv Hl' Hh' Hfit'. unfold limit in *. lia. }
    cbn [mbind option_bind]. exists spans', scale, k, (nu * 10), s. split; [done|]. rewrite <- !Z.mul_assoc in Hsp'.
    constructor; try done; [lia|lia| |].
    + rewrite !Z.mul_assoc. apply decade_ok_intro; [lia|lia|..]; clear - Hlow Ehigh; destruct (inclusive d); lia.
    + rewrite <- Hunit. replace (ten k) with (ten (1 + (k - 1))) by (f_equal; lia). rewrite ten_add by lia. ring.
Qed.

Lemma format_shortest_started d ties k : k = estimate_scaling_factor (mant d + plus d) (exponent d) ->
  format_shortest d ties =
  '(spans, scale, k) ← started d k;
  scales ← make_scales scale;
  '(buffer, m, down, up) ← shortest_loop MAX_SIG_DIGITS (inclusive d) scales spans [];
  twice ← mul_pow2 FLOAT_CAPACITY m 1;
  comparison ← compare twice scale;
  let round_tie := match ties with
                   | AwayFromZero => true
                   | ToEven => negb (Z.land (default 0 (list.last buffer)) 1 =? 0)
                   end in
  if up && (negb down || (0 <? comparison) || ((comparison =? 0) && round_tie)) then
    let '(buffer, carry) := round_up buffer in
    if negb (carry =? 0) then
      buffer ← push_digit MAX_SIG_DIGITS buffer carry; Some (buffer, wrap i16 (k + 1))
    else Some (buffer, k)
  else Some (buffer, k).
Proof.
  intros ->. unfold format_shortest, started. destruct (scaled _ _) as [[spans scale]|]; [|done]. cbn [mbind option_bind].
  destruct (add _ _ _) as [upper|]; [|done]. cbn [mbind option_bind]. destruct (reaches _ _ _) as [high|]; [|done].
  cbn [mbind option_bind]. destruct high; [done|]. by destruct (times_ten spans).
Qed.

(** The digits that end the conversion: those of the loop, rounded. *)
Definition finished (ds : list Z) (v : Z) (ds' : list Z) : Prop :=
  length ds' = length ds /\ digits_ok ds' /\ digits_value 0 ds' = v.

Lemma format_shortest_digits d ties : decoded_ok d ->
  exists spans scale k nu s ds r down up j tie ds',
    format_shortest d ties = Some (ds', k) /\ start_ok d spans scale k nu s /\
    generated (inclusive d) (mant d * nu) (minus d * nu) (plus d * nu) s ds r down up j /\ (j < MAX_SIG_DIGITS)%nat /\
    finished ds (digits_value 0 ds + Z.b2z (rounds_up down up tie r s)) ds'.
Proof.
  intros Hd. destruct (started_correct d Hd) as (spans & scale & k & nu & s & E & Hst).
  rewrite (format_shortest_started d ties _ eq_refl), E. cbn [mbind option_bind]. clear E. pose proof Hst as Hst'.
  destruct Hst' as [Hsp Hsc Hs Hnu Hk Hdec _]. pose proof Hdec as (Hl & Hh & Hlim).
  destruct (make_scales_of scale s Hsc Hs) as (ss & -> & Hss & Hss1). cbn [mbind option_bind].
  assert (s < 10 ^ 16 * (minus d * nu + plus d * nu)) as Hfuel.
  { destruct Hd as (_ & _ & H16). rewrite <- Z.mul_add_distr_r, Z.mul_assoc.
    apply Z.le_lt_trans with ((mant d + plus d) * nu); [|by apply Z.mul_lt_mono_pos_r].
    clear - Hlim. destruct (inclusive d); lia. }
  destruct (shortest_loop_correct (inclusive d) ss s 16 spans _ _ _ [] Hss Hs Hsp) as (ds & a & r & down & up & j & E & Ha & Hj & Hg);
    [clear - Hlim Hl Hh; destruct (inclusive d); lia..|exact Hfuel|by cbn|].
  change (S 16) with MAX_SIG_DIGITS in E. rewrite E. cbn [mbind option_bind app]. clear E.
  assert (0 <= r < s) as Hr by (by destruct Hg as (_ & _ & _ & ? & _)).
  destruct (double_sized a r Ha) as (twice & -> & Bt & Vt); [clear - Hr Hs; unfold limit in *; lia|]. cbn [mbind option_bind].
  destruct (compare_big twice scale (r * 2) s Bt Vt) as (c & -> & Hc); [apply Hsc|apply Hsc|]. cbn [mbind option_bind].
  set (tie := match ties with AwayFromZero => true | ToEven => _ end).
  assert (up && (negb down || (0 <? c) || (c =? 0) && tie) = rounds_up down up tie r s) as ->.
  { unfold rounds_up. do 2 f_equal; [|f_equal]; clear - Hc; lia. }
  pose proof (chosen_decade _ _ _ _ _ ds r down up j tie (proj1 Hs) Hdec Hg) as [_ Hdecade]. cbn zeta in Hdecade.
  assert (length ds = S j /\ digits_ok ds) as [Hlen Hok] by (by destruct Hg as (? & ? & _)).
  exists spans, scale, k, nu, s, ds, r, down, up, j, tie. destruct (rounds_up down up tie r s); cbn [Z.b2z] in *.
  - destruct (round_up_correct ds Hok) as (ds' & -> & H); [by rewrite Hlen|]. exists ds'. cbn [Z.eqb negb].
    split; [done|]. split; [done|]. split; [done|]. split; [unfold MAX_SIG_DIGITS; lia|done].
  - exists ds. split; [done|]. split; [done|]. split; [done|]. split; [unfold MAX_SIG_DIGITS; lia|].
    split; [done|]. by rewrite Z.add_0_r.
Qed.

(** From the numerators back to the float. *)
Lemma between_numerators d spans scale k nu s j n c : start_ok d spans scale k nu s -> (n <= S j)%nat -> (1 <= n)%nat -> (j < MAX_SIG_DIGITS)%nat ->
  let t := 10 ^ Z.of_nat j in
  within (inclusive d) (t * (mant d * nu - minus d * nu)) (c * (10 ^ Z.of_nat (S j - n) * s)) (t * (mant d * nu + plus d * nu)) <->
  between d k n c.
Proof.
  intros [Hsp Hsc Hs Hnu Hk Hdec Hunit] Hn H1 Hj t. unfold between, units, decimals.
  set (w := 10 ^ Z.of_nat (S j - n)). set (p := ten (k - Z.of_nat n) * 2 ^ 1100).
  assert (0 < ten (k - Z.of_nat (S j)) * 2 ^ 1100) as Hq by (apply Z.mul_pos_pos; [apply ten_pos; unfold MAX_SIG_DIGITS in *; lia|done]).
  set (q := ten (k - Z.of_nat (S j)) * 2 ^ 1100) in *.
  assert (p = w * q) as Ep.
  { unfold p, q, w. rewrite Z.mul_assoc, <- ten_add by (unfold MAX_SIG_DIGITS in *; lia). do 2 f_equal. lia. }
  assert (ten (k - 1) * 2 ^ 1100 = t * q) as Et.
  { unfold q, t. rewrite Z.mul_assoc, <- ten_add by (unfold MAX_SIG_DIGITS in *; lia). do 2 f_equal. lia. }
  rewrite Et in Hunit. set (u := two (exponent d) * 10 ^ 400) in *.
  rewrite <- (within_scale _ _ _ _ q Hq), <- (within_scale _ ((mant d - minus d) * u) _ _ s (proj1 Hs)).
  replace (t * (mant d * nu - minus d * nu) * q) with ((mant d - minus d) * (nu * (t * q))) by ring.
  replace (t * (mant d * nu + plus d * nu) * q) with ((mant d + plus d) * (nu * (t * q))) by ring.
  rewrite Hunit, Ep, !Z.mul_assoc. replace (c * w * s * q) with (c * w * q * s) by ring. done.
Qed.

Lemma distance_numerators d spans scale k nu s j c : start_ok d spans scale k nu s -> (j < MAX_SIG_DIGITS)%nat ->
  Z.abs (c * s - 10 ^ Z.of_nat j * (mant d * nu)) * (ten (k - Z.of_nat (S j)) * 2 ^ 1100) =
  Z.abs (decimals k (S j) c - units d (mant d)) * s.
Proof.
  intros [Hsp Hsc Hs Hnu Hk Hdec Hunit] Hj. unfold units, decimals.
  assert (0 < ten (k - Z.of_nat (S j)) * 2 ^ 1100) as Hq by (apply Z.mul_pos_pos; [apply ten_pos; unfold MAX_SIG_DIGITS in *; lia|done]).
  assert (ten (k - 1) = 10 ^ Z.of_nat j * ten (k - Z.of_nat (S j))) as Et.
  { rewrite <- ten_add by (unfold MAX_SIG_DIGITS in *; lia). f_equal. lia. }
  rewrite Et in Hunit. set (q := ten (k - Z.of_nat (S j)) * 2 ^ 1100) in *. set (u := two (exponent d) * 10 ^ 400) in *.
  rewrite <- (Z.abs_eq q) at 1 by lia. rewrite <- (Z.abs_eq s) at 2 by lia. rewrite <- !Z.abs_mul. f_equal.
  rewrite !Z.mul_sub_distr_r. rewrite <- (Z.mul_assoc (mant d) u), <- Hunit. unfold q. ring.
Qed.

(** The digits [format_shortest] gives. *)
Lemma format_shortest_correct d ties : decoded_ok d ->
  exists ds k, format_shortest d ties = Some (ds, k) /\ shortest_digits d ds k.
Proof.
  intros Hd. destruct (format_shortest_digits d ties Hd) as (spans & scale & k & nu & s & ds & r & down & up & j & tie & ds' & E & Hst & Hg & Hj & Hlen' & Hok' & Hv).
  exists ds', k. split; [done|]. destruct Hst as [Hsp Hsc Hs Hnu Hk Hdec Hunit] eqn:Est. clear Est.
  pose proof Hdec as (Hl & Hh & _).
  destruct (chosen_within _ _ _ _ _ ds r down up j tie (proj1 Hs) (proj1 Hl) Hh Hg) as [Hw Hbest].
  destruct (chosen_decade _ _ _ _ _ ds r down up j tie (proj1 Hs) Hdec Hg) as [Hlow _].
  pose proof (proj1 Hg) as Hlen. cbn zeta in *. rewrite <- Hv in *. set (v := digits_value 0 ds') in *.
  assert (length ds' = S j) as El by lia.
  pose proof (fun n c Hn Hn' => between_numerators d spans scale k nu s j n c Hst Hn Hn' Hj) as Hb. cbn zeta in Hb.
  assert (forall c, between d k (S j) c <->
    within (inclusive d) (10 ^ Z.of_nat j * (mant d * nu - minus d * nu)) (c * s) (10 ^ Z.of_nat j * (mant d * nu + plus d * nu))) as Hb1.
  { intros c. rewrite <- (Hb (S j) c) by lia. by rewrite Nat.sub_diag, Z.pow_0_r, Z.mul_1_l. }
  constructor; rewrite ?El; try done.
  - lia.
  - by replace (S j - 1)%nat with j by lia.
  - by apply Hb1.
  - intros Hj' c Hc. destruct Hg as (_ & _ & _ & _ & _ & _ & _ & Hmore). apply (Hmore ltac:(lia) c).
    apply Hb in Hc; [|lia..]. by replace (S j - (S j - 1))%nat with 1%nat in Hc by lia.
  - intros c Hc. apply Hb1, Hbest in Hc.
    assert (0 < ten (k - Z.of_nat (S j)) * 2 ^ 1100) as Hq by (apply Z.mul_pos_pos; [apply ten_pos; unfold MAX_SIG_DIGITS in *; lia|done]).
    apply (Z.mul_le_mono_pos_r _ _ s (proj1 Hs)). rewrite <- !(distance_numerators d spans scale k nu s j) by done.
    by apply Z.mul_le_mono_pos_r.
Qed.
