(* ===== verification/Flt2DecFloat.v ===== *)
(** * The shortest digits of a double, read back

    The decoding of a [f64] against the values of Rounding.v: a decimal lies
    between the neighbours of the decoded float exactly when the float is the
    nearest to it.  With [to_f64] this gives the round trip of the shortest
    digits, and that no shorter decimal makes it. *)

From Stdlib Require Import ZArith Lia ZifyBool.
From S2P Require Import Prelude Int Utf8 FloatSpec Rounding Dec2Flt Dec2FltSpec Bignum Flt2Dec Flt2DecSpec.
Local Open Scope Z_scope.

(** ** Decoding *)

Definition decoded_f64 (b : Z) : Decoded :=
  let e := b / 2 ^ 52 in
  let f := b mod 2 ^ 52 in
  if e =? 0 then mkDecoded (f * 2) 1 1 (-1075) true
  else if f =? 0 then mkDecoded (2 ^ 54) 1 2 (e - 1077) true
  else mkDecoded ((2 ^ 52 + f) * 2) 1 1 (e - 1076) (Z.even f).

Lemma with_sign_fields neg b : 0 <= b < INFINITY ->
  Z.shiftr (with_sign neg b) 63 = Z.b2z neg /\ Z.land (with_sign neg b) (2 ^ 52 - 1) = b mod 2 ^ 52 /\
  Z.land (Z.shiftr (with_sign neg b) 52) (2 ^ 11 - 1) = b / 2 ^ 52.
Proof.
  intros Hb. assert (INFINITY < 2 ^ 63) by (by vm_compute). destruct (fields b Hb) as (_ & _ & Hr).
  assert (with_sign neg b = Z.b2z neg * 2 ^ 63 + b) as ->.
  { destruct neg; cbn [with_sign Z.b2z]; [|lia]. rewrite Z.lor_comm, lor_shiftl_add by lia. lia. }
  rewrite !land_mask, !Z.shiftr_div_pow2 by lia. split_and!.
  - rewrite Z.div_add_l, Z.div_small by lia. lia.
  - replace (Z.b2z neg * 2 ^ 63 + b) with (b + Z.b2z neg * 2 ^ 11 * 2 ^ 52) by ring. apply Z.mod_add. lia.
  - replace (Z.b2z neg * 2 ^ 63 + b) with (b + Z.b2z neg * 2 ^ 11 * 2 ^ 52) by ring.
    rewrite Z.div_add, Z.mod_add, Z.mod_small by lia. done.
Qed.

Lemma wrap_i16 z : -2 ^ 15 <= z < 2 ^ 15 -> wrap i16 z = z.
Proof. intros. apply wrap_id; unfold in_range, MIN, MAX; cbn; lia. Qed.

Lemma decode_f64 neg b : 0 < b < INFINITY ->
  decode f64_layout (with_sign neg b) = mkFull Finite neg (decoded_f64 b).
Proof.
  intros Hb. destruct (with_sign_fields neg b ltac:(lia)) as (Es & Em & Ee). destruct (fields b ltac:(lia)) as (_ & _ & Hr).
  pose proof (Z.div_mod b (2 ^ 52) ltac:(lia)) as Hd. pose proof (Z.mod_pos_bound b (2 ^ 52) ltac:(lia)) as Hf.
  unfold decode. change (MANTISSA_BITS f64_layout) with 52. change (EXPONENT_BITS f64_layout) with 11.
  change (EXPONENT_BIAS f64_layout) with 1023. rewrite !Z.shiftl_1_l. change (52 + 11) with 63. rewrite Es, Em, Ee.
  unfold decoded_f64. set (e := b / 2 ^ 52) in *. set (f := b mod 2 ^ 52) in *.
  replace (e =? 2 ^ 11 - 1) with false by lia. replace (negb (Z.b2z neg =? 0)) with neg by (by destruct neg).
  destruct (Z.eqb_spec e 0) as [He|He].
  - replace (f =? 0) with false by lia. cbn [andb]. rewrite Z.shiftl_mul_pow2 by lia. by rewrite wrap_i16.
  - cbn [andb]. assert (Z.lor (2 ^ 52) f = 2 ^ 52 + f) as ->.
    { change (2 ^ 52) with (Z.shiftl 1 52) at 1. rewrite lor_shiftl_add by lia. lia. }
    rewrite (wrap_i16 e), (wrap_i16 (e - 1023 - 52)), !wrap_i16 by lia. rewrite !Z.shiftl_mul_pow2 by lia.
    destruct (Z.eqb_spec f 0) as [->|]; [do 2 f_equal; lia|]. do 2 f_equal; [lia|].
    rewrite Z.land_comm. change 1 with (Z.ones 1). rewrite Z.land_comm, Z.land_ones by lia.
    rewrite Zmod_even, Z.even_add. change (Z.even (2 ^ 52)) with true. by destruct (Z.even f).
Qed.

Lemma decoded_f64_ok b : 0 < b < INFINITY -> decoded_ok (decoded_f64 b).
Proof.
  intros Hb. destruct (fields b ltac:(lia)) as (_ & _ & Hr). unfold decoded_f64, decoded_ok, mantissas_ok.
  pose proof (Z.div_mod b (2 ^ 52) ltac:(lia)) as Hd. pose proof (Z.mod_pos_bound b (2 ^ 52) ltac:(lia)) as Hf.
  destruct (Z.eqb_spec (b / 2 ^ 52) 0); [|destruct (Z.eqb_spec (b mod 2 ^ 52) 0)]; cbn [mant minus plus exponent]; lia.
Qed.

(** ** The neighbours of a float *)

(** From units of [2 ^ -1074] to those of [units]. *)
Definition RESCALE : Z := 2 ^ 26 * 10 ^ 400.

Lemma RESCALE_pos : 0 < RESCALE.
Proof. by apply Z.mul_pos_pos. Qed.

Lemma scaled_significand b : 0 <= b < INFINITY ->
  scaled_value b = ((if b / 2 ^ 52 =? 0 then 0 else 2 ^ 52) + b mod 2 ^ 52) * 2 ^ (Z.max (b / 2 ^ 52) 1 - 1).
Proof.
  intros Hb. destruct (fields b Hb) as (He & Hf & Hr). unfold scaled_value. rewrite He, Hf.
  destruct (Z.eqb_spec (b / 2 ^ 52) 0) as [->|]; [change (2 ^ (Z.max 0 1 - 1)) with 1; lia|]. do 2 f_equal. lia.
Qed.

Lemma scaled_successor b : 0 <= b -> b + 1 < INFINITY -> scaled_value (b + 1) = scaled_value b + 2 ^ (Z.max (b / 2 ^ 52) 1 - 1).
Proof.
  intros H0 Hb. rewrite !scaled_significand by lia. destruct (fields b ltac:(lia)) as (_ & _ & Hr).
  pose proof (Z.div_mod b (2 ^ 52) ltac:(lia)) as Hd. pose proof (Z.mod_pos_bound b (2 ^ 52) ltac:(lia)) as Hf.
  set (e := b / 2 ^ 52) in *. set (f := b mod 2 ^ 52) in *.
  destruct (Z.eq_dec (f + 1) (2 ^ 52)) as [E|E].
  - rewrite <- (Z.div_unique (b + 1) (2 ^ 52) (e + 1) 0), <- (Z.mod_unique (b + 1) (2 ^ 52) (e + 1) 0) by lia.
    replace (e + 1 =? 0) with false by lia. replace (Z.max (e + 1) 1 - 1) with e by lia.
    destruct (Z.eqb_spec e 0) as [->|]; [change (2 ^ (Z.max 0 1 - 1)) with 1; change (2 ^ 0) with 1; lia|].
    replace (2 ^ e) with (2 * 2 ^ (Z.max e 1 - 1)) by (rewrite <- Z.pow_succ_r by lia; f_equal; lia).
    replace f with (2 ^ 52 - 1) by lia. ring.
  - rewrite <- (Z.div_unique (b + 1) (2 ^ 52) e (f + 1)), <- (Z.mod_unique (b + 1) (2 ^ 52) e (f + 1)) by lia. ring.
Qed.

(** The largest distance below a float: that of [minus], but for the smallest
    normal number, whose neighbour below is as far as the one above. *)
Definition wide_minus (b : Z) : Z := if b =? 2 ^ 52 then 2 else minus (decoded_f64 b).

(** The spacing above [b], in the units of the decoded mantissa. *)
Lemma units_spacing b m : 0 < b < INFINITY ->
  2 * plus (decoded_f64 b) * units (decoded_f64 b) m = m * (2 ^ (Z.max (b / 2 ^ 52) 1 - 1) * RESCALE).
Proof.
  intros Hb. destruct (fields b ltac:(lia)) as (_ & _ & Hr). unfold units, decoded_f64, RESCALE, two.
  set (e := b / 2 ^ 52) in *. destruct (Z.eqb_spec e 0) as [->|He]; [cbn [plus exponent]; change (Z.max 0 1 - 1) with 0|].
  { change (2 ^ (1100 + -1075)) with (2 ^ 25). change (2 ^ 0) with 1. change (2 ^ 26) with (2 * 2 ^ 25). ring. }
  assert (2 ^ (Z.max e 1 - 1) * 2 ^ 26 = 2 ^ (e + 25)) as E by (rewrite <- Z.pow_add_r by lia; f_equal; lia).
  rewrite (Z.mul_assoc (2 ^ (Z.max e 1 - 1))), E. destruct (_ =? 0); cbn [plus exponent].
  - replace (2 ^ (e + 25)) with (2 * 2 * 2 ^ (1100 + (e - 1077))); [ring|]. change (2 * 2) with (2 ^ 2). rewrite <- Z.pow_add_r by lia. f_equal. lia.
  - replace (2 ^ (e + 25)) with (2 * 2 ^ (1100 + (e - 1076))); [ring|]. rewrite <- Z.pow_succ_r by lia. f_equal. lia.
Qed.

Lemma units_add d m n : units d (m + n) = units d m + units d n.
Proof. unfold units. ring. Qed.

Lemma units_mul d m n : units d (n * m) = n * units d m.
Proof. unfold units. ring. Qed.

Lemma units_value b : 0 < b < INFINITY -> units (decoded_f64 b) (mant (decoded_f64 b)) = scaled_value b * RESCALE.
Proof.
  intros Hb. pose proof (decoded_f64_ok b Hb) as ((_ & Hp & _) & _). pose proof (units_spacing b (mant (decoded_f64 b)) Hb) as E.
  apply (Z.mul_cancel_l _ _ (2 * plus (decoded_f64 b))); [lia|]. rewrite E, scaled_significand by lia. clear E Hp.
  destruct (fields b ltac:(lia)) as (_ & _ & Hr). unfold decoded_f64. set (g := 2 ^ (Z.max _ 1 - 1)).
  destruct (Z.eqb_spec (b / 2 ^ 52) 0) as [He|He]; [cbn [mant plus]; ring|].
  destruct (Z.eqb_spec (b mod 2 ^ 52) 0) as [->|Hf]; cbn [mant plus]; [|ring]. change (2 ^ 54) with (2 * 2 * 2 ^ 52). ring.
Qed.

Lemma units_next b : 0 < b -> b + 1 < INFINITY ->
  units (decoded_f64 b) (mant (decoded_f64 b) + 2 * plus (decoded_f64 b)) = scaled_value (b + 1) * RESCALE.
Proof.
  intros H0 Hb. rewrite units_add, units_value, scaled_successor, Z.mul_add_distr_r by lia. f_equal.
  pose proof (decoded_f64_ok b ltac:(lia)) as ((_ & Hp & _) & _). pose proof (units_spacing b 1 ltac:(lia)) as E.
  rewrite Z.mul_1_l in E. rewrite <- E. unfold units. ring.
Qed.

Lemma units_previous b : 0 < b < INFINITY ->
  units (decoded_f64 b) (mant (decoded_f64 b) - 2 * wide_minus b) = scaled_value (b - 1) * RESCALE.
Proof.
  intros Hb. pose proof (scaled_successor (b - 1) ltac:(lia) ltac:(lia)) as S. replace (b - 1 + 1) with b in S by lia.
  destruct (fields b ltac:(lia)) as (_ & _ & Hr).
  pose proof (Z.div_mod b (2 ^ 52) ltac:(lia)) as Hd. pose proof (Z.mod_pos_bound b (2 ^ 52) ltac:(lia)) as Hf.
  assert (units (decoded_f64 b) (2 * wide_minus b) = 2 ^ (Z.max ((b - 1) / 2 ^ 52) 1 - 1) * RESCALE) as E.
  { pose proof (decoded_f64_ok b Hb) as ((_ & Hp & _) & _). pose proof (units_spacing b (2 * wide_minus b) Hb) as E.
    apply (Z.mul_cancel_l _ _ (2 * plus (decoded_f64 b))); [lia|]. rewrite E. clear E Hp S. unfold wide_minus, decoded_f64.
    set (e := b / 2 ^ 52) in *. set (f := b mod 2 ^ 52) in *.
    destruct (Z.eqb_spec b (2 ^ 52)) as [->|Hne].
    { change e with 1. change f with 0. cbn [Z.eqb plus]. change ((2 ^ 52 - 1) / 2 ^ 52) with 0. change (Z.max 0 1) with 1. change (Z.max 1 1) with 1. ring. }
    destruct (Z.eq_dec f 0) as [Hf0|Hf0].
    - rewrite <- (Z.div_unique (b - 1) (2 ^ 52) (e - 1) (2 ^ 52 - 1)) by lia. replace (e =? 0) with false by lia.
      replace (f =? 0) with true by lia. cbn [minus plus]. replace (Z.max (e - 1) 1 - 1) with (e - 2) by lia.
      replace (Z.max e 1 - 1) with (Z.succ (e - 2)) by lia. rewrite Z.pow_succ_r by lia. ring.
    - rewrite <- (Z.div_unique (b - 1) (2 ^ 52) e (f - 1)) by lia. replace (f =? 0) with false by lia.
      destruct (e =? 0); cbn [minus plus]; ring. }
  unfold Z.sub at 1. rewrite units_add, units_value by lia. replace (- (2 * wide_minus b)) with (-1 * (2 * wide_minus b)) by lia.
  rewrite units_mul, E, S. ring.
Qed.

Lemma units_top : units (decoded_f64 (INFINITY - 1)) (mant (decoded_f64 (INFINITY - 1)) + plus (decoded_f64 (INFINITY - 1))) =
  overflow_bound * SCALE * RESCALE.
Proof. by vm_compute. Qed.

Lemma decoded_inclusive b : 0 < b < INFINITY ->
  (inclusive (decoded_f64 b) = true -> Z.even b = true \/ b < 2 ^ 52) /\ (inclusive (decoded_f64 b) = false -> Z.even b = false).
Proof.
  intros Hb. pose proof (Z.div_mod b (2 ^ 52) ltac:(lia)) as Hd. pose proof (Z.mod_pos_bound b (2 ^ 52) ltac:(lia)) as Hf.
  assert (Z.even b = Z.even (b mod 2 ^ 52)) as ->.
  { rewrite Hd at 1. rewrite Z.even_add, Z.even_mul. change (Z.even (2 ^ 52)) with true. cbn [orb]. by destruct (Z.even (b mod 2 ^ 52)). }
  unfold decoded_f64. destruct (Z.eqb_spec (b / 2 ^ 52) 0); [cbn; split; [right; lia|done]|].
  destruct (Z.eqb_spec (b mod 2 ^ 52) 0) as [->|]; cbn [inclusive]; split; auto; discriminate.
Qed.

(** ** Nearest decimals *)

(** [n / den] in the units of [units]. *)
Definition fraction_units (n : Z) : Z := n * (10 ^ 400 * 2 ^ 1100).

Lemma distance_units b n den : 0 < den ->
  Z.abs (scaled_value b * den - n * SCALE) * RESCALE = Z.abs (scaled_value b * RESCALE * den - fraction_units n).
Proof.
  intros Hd. rewrite <- (Z.abs_eq RESCALE) at 1 by (pose proof RESCALE_pos; lia). rewrite <- Z.abs_mul. f_equal.
  rewrite Z.mul_sub_distr_r. unfold fraction_units, RESCALE, SCALE. change (2 ^ 1100) with (2 ^ 1074 * 2 ^ 26). ring.
Qed.

Lemma scaled_le a b : 0 <= a -> a <= b -> b < INFINITY -> scaled_value a <= scaled_value b.
Proof. intros H0 H Hb. destruct (Z.eq_dec a b) as [->|]; [lia|]. pose proof (scaled_mono a b). lia. Qed.

(** A fraction between the neighbours is nearest to the float, if it is not
    half-way to one of an odd subnormal. *)
Lemma between_nearest b n den : 0 < b < INFINITY -> 0 < den ->
  let d := decoded_f64 b in
  within (inclusive d) (units d (mant d - minus d) * den) (fraction_units n) (units d (mant d + plus d) * den) ->
  (Z.even b = false -> inclusive d = true -> fraction_units n <> units d (mant d - minus d) * den /\ fraction_units n <> units d (mant d + plus d) * den) ->
  nearest_even n den b.
Proof.
  intros Hb Hden d Hw Hodd. split; [lia|]. intros other Ho. cbn beta zeta.
  pose proof (decoded_f64_ok b Hb) as ((Hl & Hh & _) & _). fold d in Hl, Hh.
  pose proof (units_value b Hb) as Hv. fold d in Hv. pose proof RESCALE_pos as HR.
  destruct (decoded_inclusive b Hb) as [Hi1 Hi2]. fold d in Hi1, Hi2.
  enough (Z.abs (scaled_value b * den - n * SCALE) * RESCALE < Z.abs (scaled_value other * den - n * SCALE) * RESCALE \/
    Z.abs (scaled_value b * den - n * SCALE) * RESCALE = Z.abs (scaled_value other * den - n * SCALE) * RESCALE /\
      (other = b \/ Z.even b = true)) as H.
  { destruct H as [H|[H H']]; [left; by apply Z.mul_lt_mono_pos_r in H|right; split; [by apply Z.mul_cancel_r in H; lia|done]]. }
  rewrite !distance_units by done. rewrite <- Hv. set (x := fraction_units n) in *.
  assert (exists u, 0 < u /\ forall m, units d m * den = m * u) as (u & Hu1 & Hu).
  { exists (two (exponent d) * 10 ^ 400 * den). split; [|intros; unfold units; ring].
    apply Z.mul_pos_pos; [|done]. apply Z.mul_pos_pos; [|done]. apply two_pos. apply decoded_f64_ok in Hb as (_ & ? & _). fold d in H. lia. }
  rewrite !Hu in Hw, Hodd. rewrite !Hu. assert (0 < minus d * u /\ 0 < plus d * u) as [Hl' Hh'] by nia.
  rewrite Z.mul_sub_distr_r, Z.mul_add_distr_r in Hw, Hodd.
  assert (forall y, 0 < minus d * u /\ y <= mant d * u - 2 * (minus d * u) \/ mant d * u + 2 * (plus d * u) <= y ->
    Z.abs (mant d * u - x) < Z.abs (y - x) \/ Z.abs (mant d * u - x) = Z.abs (y - x) /\ Z.even b = true) as Hcase.
  { clear - Hw Hodd Hl' Hh' Hi2. intros y Hy. unfold within in Hw. destruct (inclusive d), (Z.even b); try (specialize (Hi2 eq_refl); discriminate);
      try (destruct (Hodd eq_refl eq_refl)); lia. }
  assert (scaled_value other * RESCALE * den = scaled_value other * (RESCALE * den)) as Eo by ring.
  destruct (Z.lt_total other b) as [Hlt|[->|Hgt]].
  - destruct (Hcase (scaled_value other * RESCALE * den)) as [H|[H H']]; [|by left|right; split; [done|by right]].
    left. split; [done|]. pose proof (units_previous b Hb) as Hp. fold d in Hp.
    apply Z.le_trans with (scaled_value (b - 1) * RESCALE * den).
    + rewrite <- !Z.mul_assoc. apply Z.mul_le_mono_nonneg_r; [nia|]. apply scaled_le; lia.
    + rewrite <- Hp, Hu, Z.mul_sub_distr_r. assert (minus d * u <= wide_minus b * u); [|lia].
      apply Z.mul_le_mono_nonneg_r; [lia|]. unfold wide_minus. destruct (_ =? _) eqn:E; [|apply Z.le_refl]. apply Z.eqb_eq in E. subst b. by vm_compute.
  - right. rewrite <- Hv, Hu. split; [done|by left].
  - destruct (Hcase (scaled_value other * RESCALE * den)) as [H|[H H']]; [|by left|right; split; [done|by right]].
    right. pose proof (units_next b ltac:(lia) ltac:(lia)) as Hp. fold d in Hp.
    apply Z.le_trans with (scaled_value (b + 1) * RESCALE * den).
    + rewrite <- Hp, Hu, Z.mul_add_distr_r. lia.
    + rewrite <- !Z.mul_assoc. apply Z.mul_le_mono_nonneg_r; [nia|]. apply scaled_le; lia.
Qed.

Lemma fraction_units_scale n : fraction_units n = n * SCALE * RESCALE.
Proof. unfold fraction_units, SCALE, RESCALE. change (2 ^ 1100) with (2 ^ 1074 * 2 ^ 26). ring. Qed.

Lemma units_mono d m n : -1100 <= exponent d -> m <= n -> units d m <= units d n.
Proof.
  intros He H. unfold units. apply Z.mul_le_mono_nonneg_r; [|done]. apply Z.mul_nonneg_nonneg; [|done].
  pose proof (two_pos (exponent d) He). lia.
Qed.

(** Between the neighbours no number overflows. *)
Lemma between_finite b n den : 0 < b < INFINITY -> 0 < den ->
  (if inclusive (decoded_f64 b) then fraction_units n <= units (decoded_f64 b) (mant (decoded_f64 b) + plus (decoded_f64 b)) * den
   else fraction_units n < units (decoded_f64 b) (mant (decoded_f64 b) + plus (decoded_f64 b)) * den) ->
  n < overflow_bound * den.
Proof.
  intros Hb Hden H. pose proof RESCALE_pos. pose proof SCALE_pos. apply (Z.mul_lt_mono_pos_r (SCALE * RESCALE)); [by apply Z.mul_pos_pos|].
  rewrite (Z.mul_assoc n), <- fraction_units_scale. replace (overflow_bound * den * (SCALE * RESCALE)) with (overflow_bound * SCALE * RESCALE * den) by ring.
  destruct (Z.eq_dec b (INFINITY - 1)) as [->|Hne].
  - rewrite units_top in H. change (inclusive (decoded_f64 (INFINITY - 1))) with false in H. done.
  - apply Z.le_lt_trans with (units (decoded_f64 b) (mant (decoded_f64 b) + plus (decoded_f64 b)) * den); [destruct (inclusive _); lia|].
    apply Z.mul_lt_mono_pos_r; [done|]. pose proof (decoded_f64_ok b Hb) as ((_ & Hp & _) & He & _).
    eapply Z.le_lt_trans; [apply (units_mono _ _ (mant (decoded_f64 b) + 2 * plus (decoded_f64 b))); lia|].
    rewrite units_next by lia. apply Z.mul_lt_mono_pos_r; [done|]. apply Z.le_lt_trans with (scaled_value (INFINITY - 1)); [apply scaled_le; lia|].
    by vm_compute.
Qed.

(** What a float is nearest to lies between its neighbours. *)
Lemma nearest_between b n den : 0 < b < INFINITY -> 0 < den -> n < overflow_bound * den -> nearest_even n den b ->
  let d := decoded_f64 b in
  within (inclusive d) (units d (mant d - wide_minus b) * den) (fraction_units n) (units d (mant d + plus d) * den).
Proof.
  intros Hb Hden Hfin [_ Hn] d. cbn beta zeta in Hn. pose proof RESCALE_pos as HR.
  assert (forall other, 0 <= other < INFINITY ->
    Z.abs (scaled_value b * RESCALE * den - fraction_units n) < Z.abs (scaled_value other * RESCALE * den - fraction_units n) \/
    Z.abs (scaled_value b * RESCALE * den - fraction_units n) = Z.abs (scaled_value other * RESCALE * den - fraction_units n) /\
      (other = b \/ Z.even b = true)) as Hn'.
  { intros other Ho. rewrite <- !distance_units by done. destruct (Hn other Ho) as [H|[-> H]]; [left; by apply Z.mul_lt_mono_pos_r|by right]. }
  clear Hn. destruct (decoded_inclusive b Hb) as [_ Hi]. fold d in Hi.
  pose proof (units_value b Hb) as Hv. fold d in Hv. rewrite <- Hv in Hn'. set (x := fraction_units n) in *.
  pose proof (units_previous b Hb) as Hp. fold d in Hp. pose proof (decoded_f64_ok b Hb) as ((Hl & Hh & _) & He & _). fold d in Hl, Hh, He.
  assert (exists u, 0 < u /\ forall m, units d m * den = m * u) as (u & Hu1 & Hu).
  { exists (two (exponent d) * 10 ^ 400 * den). split; [|intros; unfold units; ring].
    apply Z.mul_pos_pos; [|done]. apply Z.mul_pos_pos; [|done]. apply two_pos. lia. }
  assert (0 < wide_minus b) as Hwide by (unfold wide_minus; destruct (_ =? _); [done|apply Hl]).
  assert (0 < wide_minus b * u /\ 0 < plus d * u) as [Hl' Hh'] by (split; apply Z.mul_pos_pos; lia).
  assert (if inclusive d then units d (mant d - wide_minus b) * den <= x else units d (mant d - wide_minus b) * den < x) as Hlow.
  { destruct (Hn' (b - 1) ltac:(lia)) as [H|[H [H'|H']]]; [rewrite <- Hp, !Hu in H|lia|rewrite <- Hp, !Hu in H];
      rewrite Hu; clear Hu Hn' Hfin Hp Hv; rewrite !Z.mul_sub_distr_r in *; destruct (inclusive d);
      try (specialize (Hi eq_refl); congruence); lia. }
  assert (if inclusive d then x <= units d (mant d + plus d) * den else x < units d (mant d + plus d) * den) as Hup.
  { destruct (Z.eq_dec b (INFINITY - 1)) as [E|E].
    - assert (inclusive d = false) as -> by (unfold d; by rewrite E). unfold d. rewrite E, units_top. unfold x. rewrite fraction_units_scale.
      pose proof SCALE_pos. replace (overflow_bound * SCALE * RESCALE * den) with (overflow_bound * den * (SCALE * RESCALE)) by ring.
      rewrite <- Z.mul_assoc. apply Z.mul_lt_mono_pos_r; [by apply Z.mul_pos_pos|done].
    - pose proof (units_next b ltac:(lia) ltac:(lia)) as Hnext. fold d in Hnext.
      destruct (Hn' (b + 1) ltac:(lia)) as [H|[H [H'|H']]]; [rewrite <- Hnext, !Hu in H|lia|rewrite <- Hnext, !Hu in H];
      rewrite Hu; clear Hu Hn' Hfin Hp Hv Hlow Hnext; rewrite !Z.mul_add_distr_r in *; destruct (inclusive d);
      try (specialize (Hi eq_refl); congruence); lia. }
  unfold within. destruct (inclusive d); lia.
Qed.

(** ** Reading the digits back *)

(** [n / den] is [v] times the power of ten of the last of the digits. *)
Definition equals_decimal (n den v p : Z) : Prop := n * 10 ^ Z.max (- p) 0 = v * 10 ^ Z.max p 0 * den.

Lemma equals_decimals n den v k len : -330 <= k -> (len <= MAX_SIG_DIGITS)%nat -> equals_decimal n den v (k - Z.of_nat len) ->
  fraction_units n = decimals k len v * den.
Proof.
  unfold equals_decimal, fraction_units, decimals, ten, MAX_SIG_DIGITS. intros Hk Hlen E. set (p := k - Z.of_nat len) in *.
  assert (0 < 10 ^ Z.max (- p) 0) as Hp by (apply Z.pow_pos_nonneg; lia).
  apply (Z.mul_cancel_r _ _ (10 ^ Z.max (- p) 0)); [lia|].
  transitivity (n * 10 ^ Z.max (- p) 0 * (10 ^ 400 * 2 ^ 1100)); [ring|]. rewrite E.
  assert (10 ^ (400 + p) * 10 ^ Z.max (- p) 0 = 10 ^ Z.max p 0 * 10 ^ 400) as E10 by (rewrite <- !Z.pow_add_r by lia; f_equal; lia).
  transitivity (v * (10 ^ Z.max p 0 * 10 ^ 400) * 2 ^ 1100 * den); [ring|]. rewrite <- E10. ring.
Qed.

(** A decimal of few digits is not half-way to an odd subnormal. *)
Lemma decimal_not_half k len v f : -330 <= k -> (len <= MAX_SIG_DIGITS)%nat -> Z.even f = false ->
  decimals k len v <> f * (two (-1075) * 10 ^ 400).
Proof.
  unfold decimals, ten, two, MAX_SIG_DIGITS. intros Hk Hlen Hf E.
  assert (v * 10 ^ (400 + (k - Z.of_nat len)) * 2 ^ 675 * 2 ^ 425 = f * 5 ^ 400 * 2 ^ 425) as E'.
  { rewrite <- !Z.mul_assoc, <- (Z.pow_add_r 2) by lia. change (675 + 425) with 1100. rewrite E. change (1100 + -1075) with 25.
    change (10 ^ 400) with (5 ^ 400 * 2 ^ 400). change (2 ^ 425) with (2 ^ 25 * 2 ^ 400). ring. }
  apply Z.mul_cancel_r in E'; [|done]. apply (f_equal Z.even) in E'. rewrite !Z.even_mul, Hf in E'.
  change (Z.even (2 ^ 675)) with true in E'. change (Z.even (5 ^ 400)) with false in E'. by rewrite orb_true_r in E'.
Qed.

Lemma shortest_digits_nearest b ds k n den : 0 < b < INFINITY -> shortest_digits (decoded_f64 b) ds k -> 0 < den ->
  equals_decimal n den (digits_value 0 ds) (k - Z.of_nat (length ds)) ->
  n < overflow_bound * den /\ nearest_even n den b.
Proof.
  intros Hb [Hok Hlen Hk _ Hw _ _] Hden E. apply equals_decimals in E; [|lia..]. unfold between in Hw.
  rewrite <- (within_scale _ _ _ _ den Hden), <- E in Hw. split.
  - apply (between_finite b n den Hb Hden). unfold within in Hw. destruct (inclusive _); lia.
  - apply between_nearest; [done|done|exact Hw|]. intros Hodd Hincl. rewrite E.
    destruct (proj1 (decoded_inclusive b Hb) Hincl) as [Heven|Hsub]; [congruence|].
    assert (decoded_f64 b = mkDecoded (b * 2) 1 1 (-1075) true) as ->.
    { unfold decoded_f64. rewrite Z.div_small, Z.mod_small by lia. done. }
    unfold units. cbn [mant minus plus exponent].
    split; intros H; apply Z.mul_cancel_r in H; try lia; revert H; apply decimal_not_half; try lia;
      by rewrite ?Z.even_sub, ?Z.even_add, Z.even_mul, orb_true_r.
Qed.

(** ** Nothing shorter *)

(** For the smallest normal number, by evaluation. *)
Lemma smallest_normal_digits ties :
  format_shortest (decoded_f64 (2 ^ 52)) ties =
  Some ([50; 50; 50; 53; 48; 55; 51; 56; 53; 56; 53; 48; 55; 50; 48; 49; 52], -307).
Proof. by destruct ties; vm_compute. Qed.

Lemma smallest_normal_shortest c :
  let d := decoded_f64 (2 ^ 52) in
  ~ within true (units d (mant d - 2)) (decimals (-307) 16 c) (units d (mant d + plus d)).
Proof.
  cbn zeta. unfold within, decimals. set (t := ten (-307 - Z.of_nat 16) * 2 ^ 1100).
  set (lo := units _ (_ - 2)). set (hi := units _ (_ + _)).
  assert (0 < t) as Ht by (by vm_compute). assert (hi / t * t < lo) as Hgap by (by vm_compute). clearbody t lo hi.
  intros [Hlo Hhi]. assert (c <= hi / t) by (apply Z.div_le_lower_bound; lia). nia.
Qed.

Lemma shortest_wide b ties ds k : 0 < b < INFINITY -> format_shortest (decoded_f64 b) ties = Some (ds, k) -> (1 < length ds)%nat ->
  forall c, let d := decoded_f64 b in
  ~ within (inclusive d) (units d (mant d - wide_minus b)) (decimals k (length ds - 1) c) (units d (mant d + plus d)).
Proof.
  intros Hb E Hlen c. cbn zeta. destruct (format_shortest_correct _ ties (decoded_f64_ok b Hb)) as (ds' & k' & E' & Hs).
  rewrite E' in E. injection E as -> ->. unfold wide_minus. destruct (Z.eqb_spec b (2 ^ 52)) as [->|_].
  - rewrite smallest_normal_digits in E'. injection E' as <- <-. apply smallest_normal_shortest.
  - apply (sd_shortest _ _ _ Hs Hlen).
Qed.

Lemma equals_decimal_coarser n den c q p : equals_decimal n den c q -> p <= q -> equals_decimal n den (c * 10 ^ (q - p)) p.
Proof.
  unfold equals_decimal. intros E Hp.
  assert (10 ^ Z.max (- p) 0 = 10 ^ Z.max (- q) 0 * 10 ^ (Z.max (- p) 0 - Z.max (- q) 0)) as -> by (rewrite <- Z.pow_add_r by lia; f_equal; lia).
  rewrite Z.mul_assoc, E.
  assert (10 ^ Z.max q 0 * 10 ^ (Z.max (- p) 0 - Z.max (- q) 0) = 10 ^ (q - p) * 10 ^ Z.max p 0) as E' by (rewrite <- !Z.pow_add_r by lia; f_equal; lia).
  transitivity (c * (10 ^ Z.max q 0 * 10 ^ (Z.max (- p) 0 - Z.max (- q) 0)) * den); [ring|]. rewrite E'. ring.
Qed.

(** Few digits far to the right stay below a power of ten. *)
Lemma equals_decimal_below n den c q k j : 0 < den -> equals_decimal n den c q -> c < 10 ^ j -> 0 <= j -> q + j <= k -> -400 <= k ->
  fraction_units n < ten k * 2 ^ 1100 * den.
Proof.
  unfold equals_decimal, fraction_units, ten. intros Hden E Hc Hj Hq Hk.
  assert (0 < 10 ^ Z.max (- q) 0) as Hp by (apply Z.pow_pos_nonneg; lia). assert (0 < 10 ^ Z.max q 0) as Hp' by (apply Z.pow_pos_nonneg; lia).
  apply (Z.mul_lt_mono_pos_r (10 ^ Z.max (- q) 0)); [done|].
  replace (n * (10 ^ 400 * 2 ^ 1100) * 10 ^ Z.max (- q) 0) with (n * 10 ^ Z.max (- q) 0 * 10 ^ 400 * 2 ^ 1100) by ring. rewrite E.
  assert (10 ^ j * 10 ^ Z.max q 0 * 10 ^ 400 <= 10 ^ (400 + k) * 10 ^ Z.max (- q) 0) as Hle.
  { rewrite <- !Z.pow_add_r by lia. apply Z.pow_le_mono_r; lia. }
  replace (10 ^ (400 + k) * 2 ^ 1100 * den * 10 ^ Z.max (- q) 0) with (10 ^ (400 + k) * 10 ^ Z.max (- q) 0 * (2 ^ 1100 * den)) by ring.
  eapply Z.lt_le_trans; [|apply Z.mul_le_mono_nonneg_r; [by apply Z.lt_le_incl, Z.mul_pos_pos|exact Hle]].
  replace (c * 10 ^ Z.max q 0 * den * 10 ^ 400 * 2 ^ 1100) with (c * (10 ^ Z.max q 0 * 10 ^ 400 * (2 ^ 1100 * den))) by ring.
  rewrite <- !Z.mul_assoc. apply Z.mul_lt_mono_pos_r; [|done]. repeat apply Z.mul_pos_pos; done.
Qed.

Lemma nothing_shorter b ties ds k n den c q : 0 < b < INFINITY -> format_shortest (decoded_f64 b) ties = Some (ds, k) -> 0 < den ->
  n < overflow_bound * den -> nearest_even n den b -> equals_decimal n den c q -> 0 < c -> 10 ^ Z.of_nat (length ds - 1) <= c.
Proof.
  intros Hb E Hden Hfin Hn Heq Hc. destruct (format_shortest_correct _ ties (decoded_f64_ok b Hb)) as (ds' & k' & E' & Hs).
  rewrite E' in E. injection E as -> ->. destruct (Z.le_gt_cases (10 ^ Z.of_nat (length ds - 1)) c) as [|Hlt]; [done|exfalso].
  destruct Hs as [Hok Hlen Hk Hfirst Hw _ _]. unfold MAX_SIG_DIGITS in *.
  assert (1 < length ds)%nat as Hlen1.
  { destruct (Nat.eq_dec (length ds) 1%nat) as [El|]; [rewrite El in Hlt; change (10 ^ Z.of_nat (1 - 1)%nat) with 1 in Hlt; lia|lia]. }
  pose proof (shortest_wide b ties ds k Hb E' Hlen1) as Hwide. cbn zeta in Hwide.
  pose proof (nearest_between b n den Hb Hden Hfin Hn) as Hbet. cbn zeta in Hbet. set (d := decoded_f64 b) in *.
  destruct (Z.le_gt_cases (k - Z.of_nat (length ds - 1)) q) as [Hq|Hq].
  - apply (Hwide (c * 10 ^ (q - (k - Z.of_nat (length ds - 1))))). rewrite <- (within_scale _ _ _ _ den Hden).
    rewrite <- (equals_decimals n den) by (unfold MAX_SIG_DIGITS; try lia; by apply equals_decimal_coarser). done.
  - assert (fraction_units n < ten (k - 1) * 2 ^ 1100 * den) as Hbelow.
    { apply (equals_decimal_below n den c q (k - 1) (Z.of_nat (length ds - 1))); try done; lia. }
    apply (Hwide (10 ^ Z.of_nat (length ds - 2))). unfold decimals at 1. rewrite Z.mul_assoc, <- ten_add by lia.
    replace (Z.of_nat (length ds - 2) + (k - Z.of_nat (length ds - 1))) with (k - 1) by lia.
    unfold between, decimals in Hw. assert (10 ^ Z.of_nat (length ds - 1) * (ten (k - Z.of_nat (length ds)) * 2 ^ 1100) = ten (k - 1) * 2 ^ 1100) as Et.
    { rewrite Z.mul_assoc, <- ten_add by lia. do 2 f_equal. lia. }
    assert (ten (k - 1) * 2 ^ 1100 <= digits_value 0 ds * (ten (k - Z.of_nat (length ds)) * 2 ^ 1100)) as Hup.
    { rewrite <- Et. apply Z.mul_le_mono_nonneg_r; [|done]. apply Z.mul_nonneg_nonneg; [|done].
      apply Z.lt_le_incl, ten_pos. lia. }
    set (t := ten (k - 1) * 2 ^ 1100) in *. assert (units d (mant d - wide_minus b) < t) as Hlow.
    { apply (Z.mul_lt_mono_pos_r den); [done|]. unfold within in Hbet. destruct (inclusive d); lia. }
    unfold within in *. destruct (inclusive d); lia.
Qed.

(** ** The round trip *)

Lemma nearest_unique n den a b : 0 < den -> nearest_even n den a -> nearest_even n den b -> a = b.
Proof.
  assert (forall a b, 0 < den -> nearest_even n den a -> nearest_even n den b -> a < b -> False) as H.
  { clear a b. intros a b Hden [Ha Hna] [Hb Hnb] Hlt. pose proof (Hna b Hb) as H1. pose proof (Hnb a Ha) as H2. cbn beta zeta in *.
    destruct H1 as [H1|[H1 [H1'|H1']]]; [lia|lia|]. destruct H2 as [H2|[H2 [H2'|H2']]]; [lia|lia|].
    assert (a + 1 < b) as Hgap.
    { destruct (Z.eq_dec (a + 1) b) as [<-|]; [|lia]. rewrite Z.even_add, H1' in H2'. done. }
    pose proof (Hna (a + 1) ltac:(lia)) as H3. cbn beta zeta in H3.
    pose proof (scaled_mono a (a + 1) ltac:(lia) ltac:(lia) ltac:(lia)) as M1.
    pose proof (scaled_mono (a + 1) b ltac:(lia) ltac:(lia) ltac:(lia)) as M2.
    apply (Z.mul_lt_mono_pos_r den) in M1, M2; [|done..]. lia. }
  intros Hden Ha Hb. destruct (Z.lt_total a b) as [L|[L|L]]; [exfalso; eauto|done|exfalso; eauto].
Qed.

Lemma with_sign_inj s t a b : 0 <= a < INFINITY -> 0 <= b < INFINITY -> with_sign s a = with_sign t b -> s = t /\ a = b.
Proof.
  intros Ha Hb E. destruct (with_sign_fields s a Ha) as (Sa & Ma & Ea). destruct (with_sign_fields t b Hb) as (Sb & Mb & Eb).
  rewrite E, Sb in Sa. rewrite E, Mb in Ma. rewrite E, Eb in Ea. split; [by destruct s, t|].
  rewrite (Z.div_mod a (2 ^ 52)), (Z.div_mod b (2 ^ 52)) by lia. congruence.
Qed.

(** A decimal has the value [v * 10 ^ p]. *)
Definition has_value (D : Decimal) (v p : Z) : Prop :=
  let '(n, den) := decimal_fraction D in equals_decimal n den v p.

Lemma decimal_fraction_pos D : 0 < snd (decimal_fraction D).
Proof. apply Z.pow_pos_nonneg; lia. Qed.

(** What [shortest] promises: few digits, none in vain, and any text with
    their value reads back as the float. *)
Definition reads_back (bits : Z) (ds : list Z) (k : Z) : Prop :=
  forall D, decimal_ok D -> negative D = negb (Z.shiftr bits 63 =? 0) ->
    has_value D (digits_value 0 ds) (k - Z.of_nat (length ds)) -> to_f64 D = Ret bits.

Definition none_shorter (bits : Z) (ds : list Z) : Prop :=
  forall D c q, decimal_ok D -> has_value D c q -> 0 < c -> to_f64 D = Ret bits -> 10 ^ Z.of_nat (length ds - 1) <= c.

Lemma shortest_f64 neg b ties : 0 < b < INFINITY ->
  exists ds k, format_shortest (decoded_f64 b) ties = Some (ds, k) /\ shortest_digits (decoded_f64 b) ds k /\
    shortest f64_layout (with_sign neg b) ties = Some (mkDigits Finite neg ds k) /\
    reads_back (with_sign neg b) ds k /\ none_shorter (with_sign neg b) ds.
Proof.
  intros Hb. destruct (format_shortest_correct _ ties (decoded_f64_ok b Hb)) as (ds & k & E & Hs).
  destruct (with_sign_fields neg b ltac:(lia)) as (Hsign & _). exists ds, k.
  split; [done|]. split; [done|]. split; [|split].
  - unfold shortest, with_digits. rewrite decode_f64 by done. cbn [category finite full_negative]. by rewrite E.
  - intros D HD Hneg Heq. pose proof (to_f64_correct D HD) as Hto. pose proof (decimal_fraction_pos D) as Hden. unfold has_value in Heq.
    destruct (decimal_fraction D) as [n den]. cbn [snd] in Hden.
    destruct (shortest_digits_nearest b ds k n den Hb Hs Hden Heq) as [Hfin Hn].
    replace (overflow_bound * den <=? n) with false in Hto by lia. destruct Hto as (bits & -> & Hbits).
    rewrite (nearest_unique n den bits b Hden Hbits Hn), Hneg, Hsign. by destruct neg.
  - intros D c q HD Heq Hc Hto'. pose proof (to_f64_correct D HD) as Hto. pose proof (decimal_fraction_pos D) as Hden. unfold has_value in Heq.
    destruct (decimal_fraction D) as [n den]. cbn [snd] in Hden.
    destruct (Z.leb_spec (overflow_bound * den) n) as [Hov|Hfin]; [congruence|]. destruct Hto as (bits & Hto & Hbits).
    rewrite Hto in Hto'. injection Hto' as Hto'. apply with_sign_inj in Hto' as [_ ->]; [|apply Hbits|lia].
    by apply (nothing_shorter b ties ds k n den c q).
Qed.

(** C3: The shortest digits of a finite double other than zero: at most 17 digits, the first not zero; every decimal text with
    their value is read back as that double; no decimal with fewer digits is; and among those with as many digits between
    the neighbours, none is closer to the double. *)
Theorem shortest_round_trips neg b ties : 0 < b < INFINITY ->
  exists ds k, shortest f64_layout (with_sign neg b) ties = Some (mkDigits Finite neg ds k) /\
    shortest_digits (decoded_f64 b) ds k /\ reads_back (with_sign neg b) ds k /\ none_shorter (with_sign neg b) ds.
Proof. intros Hb. destruct (shortest_f64 neg b ties Hb) as (ds & k & _ & Hs & E & Hr & Hn). by exists ds, k. Qed.

Lemma shortest_round_trips_witness :
  shortest f64_layout 0x3fb999999999999a AwayFromZero = Some (mkDigits Finite false [49] 0) /\ reads_back 0x3fb999999999999a [49] 0.
Proof.
  destruct (shortest_round_trips false 0x3fb999999999999a AwayFromZero (conj eq_refl eq_refl)) as (ds & k & E & _ & Hr & _).
  assert (shortest f64_layout 0x3fb999999999999a AwayFromZero = Some (mkDigits Finite false [49] 0)) as E' by (vm_compute; reflexivity).
  split; [exact E'|]. change (with_sign false 0x3fb999999999999a) with 0x3fb999999999999a in *. rewrite E' in E. injection E as <- <-. exact Hr.
Defined.
