(* ===== verification/FloatParse.v ===== *)
(** * Parsing floats

    Models [FromStr] for [f64] and [f32] of
    [src/core/src/num/floating_parse.cppm], on top of the decimal conversion
    of [Dec2Flt].  A text is its bytes, a float the pattern of its bits.  The
    theorems give the texts that are accepted and what they are read as. *)

From Stdlib Require Import ZArith Lia ZifyBool Ascii.
From stdpp Require Import strings.
From S2P Require Import Prelude Int Utf8 Fmt FloatSpec Rounding Dec2Flt Dec2FltSpec Flt2DecFloat.
Local Open Scope Z_scope.

Inductive FloatErrorKind := Empty | Invalid | PosOverflow | NegOverflow.

(** [NAN("")] *)
Definition NAN : Z := 0x7ff8000000000000.

(** [-value] *)
Definition negate (bits : Z) : Z := Z.lxor bits (Z.shiftl 1 63).

Definition special (negative : bool) (bits : Z) : Z := if negative then negate bits else bits.

(** [while (index < size && is_digit(byte_at(index))) ++index]: the digits
    passed and what is left. *)
Fixpoint pass_digits (rest : list Z) : list Z * list Z :=
  match rest with
  | c :: rest' =>
    if is_digit c then let '(ds, rest) := pass_digits rest' in (c :: ds, rest) else ([], rest)
  | [] => ([], [])
  end.

(** The loop over the digits of the exponent, which saturates. *)
Fixpoint exponent_digits (raw_exponent : Z) (rest : list Z) : Z * list Z :=
  match rest with
  | c :: rest' =>
    if is_digit c then
      exponent_digits (if raw_exponent <? 100000 then raw_exponent * 10 + (c - 48) else raw_exponent) rest'
    else (raw_exponent, rest)
  | [] => (raw_exponent, [])
  end.

(** The exponent, if any: [None] when its digits are missing. *)
Definition parse_exponent (rest : list Z) : option (Z * list Z) :=
  match rest with
  | c :: rest' =>
    if (c =? 101) || (c =? 69) then
      let '(negative, rest') :=
        match rest' with
        | c :: rest'' => if (c =? 43) || (c =? 45) then (c =? 45, rest'') else (false, rest')
        | [] => (false, rest')
        end in
      match rest' with
      | [] => None
      | c :: _ =>
        if negb (is_digit c) then None
        else
          let '(raw, rest') := exponent_digits 0 rest' in
          Some (if (negative : bool) then - raw else raw, rest')
      end
    else Some (0, rest)
  | [] => Some (0, rest)
  end.

Definition names (body : list Z) (name : string) : bool := bool_decide (body = lit name).

Section Parse.
Context `{DecimalConversion}.

Definition overflow (negative : bool) : outcome FloatErrorKind Z := Fail (if negative then NegOverflow else PosOverflow).

(** [from_str], with [finish] what [T] makes of the parsed double. *)
Definition from_str (finish : Z -> bool -> outcome FloatErrorKind Z) (infinity nan : bool -> Z) (input : list Z) : outcome FloatErrorKind Z :=
  match input with
  | [] => Fail Empty
  | c :: rest =>
    let '(negative, body) := if c =? 43 then (false, rest) else if c =? 45 then (true, rest) else (false, input) in
    if (length body =? 0)%nat then Fail Invalid
    else if names body "inf" || names body "infinity" then Ret (infinity negative)
    else if names body "NaN" then Ret (nan negative)
    else
      let '(integer, rest) := pass_digits body in
      let '(fraction, rest) :=
        match rest with
        | c :: rest' => if c =? 46 then pass_digits rest' else ([], rest)
        | [] => ([], [])
        end in
      if (length integer =? 0)%nat && (length fraction =? 0)%nat then Fail Invalid
      else
        match parse_exponent rest with
        | None => Fail Invalid
        | Some (exponent, rest) =>
          if negb (length rest =? 0)%nat then Fail Invalid
          else
            let integer := if (length integer =? 0)%nat then [48] else integer in
            match to_f64 (MkDecimal integer fraction exponent negative) with
            | Fail _ => overflow negative
            | Ret value => finish value negative
            | Panic => Panic
            | OutOfFuel => OutOfFuel
            end
        end
  end.

Definition finish_f64 (value : Z) (negative : bool) : outcome FloatErrorKind Z := Ret value.

Definition f64_from_str : list Z -> outcome FloatErrorKind Z :=
  from_str finish_f64 (fun negative => special negative INFINITY) (fun negative => special negative NAN).
(** [static_cast<float>] of a double that is not a NaN, rounded to nearest
    even: [e] is the exponent of the unit of the result, in units of
    [2 ^ -1074]; the smallest is [2 ^ -149]. *)
Definition INFINITY_F32 : Z := 0x7f800000.

Definition narrow_magnitude (b : Z) : Z :=
  if INFINITY <=? b then INFINITY_F32
  else
    let v := scaled_value b in
    let e := Z.max 925 (Z.log2 v - 23) in
    Z.min INFINITY_F32 ((e - 925) * 2 ^ 23 + rounded v (2 ^ e) false).

Definition sign_f32 (negative : bool) (bits : Z) : Z := if negative then Z.lor bits (Z.shiftl 1 31) else bits.

Definition narrow (bits : Z) : Z := sign_f32 (2 ^ 63 <=? bits) (narrow_magnitude (bits mod 2 ^ 63)).

Definition finish_f32 (value : Z) (negative : bool) : outcome FloatErrorKind Z :=
  let primitive := narrow value in
  if (primitive mod 2 ^ 31 =? INFINITY_F32) && is_finite value then overflow negative else Ret primitive.

Definition f32_from_str : list Z -> outcome FloatErrorKind Z :=
  from_str finish_f32 (fun negative => sign_f32 negative INFINITY_F32) (fun negative => sign_f32 negative 0x7fc00000).
End Parse.

(** ** The texts of floats *)

(** [[+-]? digits? [. digits?]? ([eE] [+-]? digits)?] *)
Record float_text := FloatText
  { ft_sign : option bool; ft_integer : list Z; ft_fraction : option (list Z);
    ft_exponent : option (Z * option bool * list Z) }.

Definition sign_units (s : option bool) : list Z :=
  match s with None => [] | Some true => [45] | Some false => [43] end.

Definition exponent_units (e : option (Z * option bool * list Z)) : list Z :=
  match e with None => [] | Some (mark, sign, ds) => mark :: sign_units sign ++ ds end.

Definition body_units (t : float_text) : list Z :=
  ft_integer t ++ match ft_fraction t with None => [] | Some f => 46 :: f end ++ exponent_units (ft_exponent t).

Definition float_units (t : float_text) : list Z := sign_units (ft_sign t) ++ body_units t.

Definition float_wf (t : float_text) : Prop :=
  digits_ok (ft_integer t) /\ digits_ok (default [] (ft_fraction t)) /\
  ft_integer t ++ default [] (ft_fraction t) <> [] /\
  match ft_exponent t with None => True | Some (mark, _, ds) => (mark = 101 \/ mark = 69) /\ digits_ok ds /\ ds <> [] end.

(** What the loop makes of an exponent: it stops growing at six digits. *)
Definition saturated (ds : list Z) : Z := fst (exponent_digits 0 ds).

Definition cut_exponent (t : float_text) : Z :=
  match ft_exponent t with
  | None => 0
  | Some (_, sign, ds) => match sign with Some true => - saturated ds | _ => saturated ds end
  end.

Definition ft_negative (t : float_text) : bool := match ft_sign t with Some true => true | _ => false end.

(** The decimal that the code converts. *)
Definition cut_decimal (t : float_text) : Decimal :=
  MkDecimal (match ft_integer t with [] => [48] | ds => ds end) (default [] (ft_fraction t)) (cut_exponent t) (ft_negative t).

Lemma cut_decimal_ok t : float_wf t -> decimal_ok (cut_decimal t).
Proof.
  intros (Hi & Hf & _). unfold decimal_ok, cut_decimal. cbn [integer fraction].
  destruct (ft_integer t); split_and!; try done. by repeat constructor.
Qed.

(** ** Scanning *)

(** [rest] starts with no digit. *)
Definition ends_digits (rest : list Z) : Prop := match rest with [] => True | c :: _ => is_digit c = false end.

Lemma pass_digits_spec ds rest : digits_ok ds -> ends_digits rest -> pass_digits (ds ++ rest) = (ds, rest).
Proof.
  intros Hd Hr. induction Hd as [|c ds Hc _ IH]; cbn [app pass_digits].
  - destruct rest as [|c rest]; [done|]. cbn in Hr |- *. by rewrite Hr.
  - by rewrite Hc, IH.
Qed.

Lemma pass_digits_split s ds rest : pass_digits s = (ds, rest) -> s = ds ++ rest /\ digits_ok ds /\ ends_digits rest.
Proof.
  revert ds rest. induction s as [|c s IH]; intros ds rest E; cbn in E; [injection E as <- <-; split_and!; by constructor|].
  destruct (is_digit c) eqn:Hc.
  - destruct (pass_digits s) as [ds' rest'] eqn:Es. injection E as <- <-. destruct (IH ds' rest' eq_refl) as (-> & Hd & Hr).
    split; [done|]. split; [by constructor|done].
  - injection E as <- <-. split_and!; try done. constructor.
Qed.

Lemma exponent_digits_spec ds rest raw : digits_ok ds -> ends_digits rest ->
  exponent_digits raw (ds ++ rest) = (fst (exponent_digits raw ds), rest).
Proof.
  intros Hd Hr. revert raw. induction Hd as [|c ds Hc _ IH]; intros raw; cbn [app exponent_digits].
  - destruct rest as [|c rest]; [done|]. cbn in Hr |- *. by rewrite Hr.
  - by rewrite Hc, IH.
Qed.

Lemma exponent_digits_split s raw raw' rest : exponent_digits raw s = (raw', rest) ->
  exists ds, s = ds ++ rest /\ digits_ok ds /\ ends_digits rest /\ raw' = fst (exponent_digits raw ds).
Proof.
  revert raw. induction s as [|c s IH]; intros raw E; cbn in E; [injection E as <- <-; exists []; split_and!; by constructor|].
  destruct (is_digit c) eqn:Hc.
  - destruct (IH _ E) as (ds & -> & Hd & Hr & ->). exists (c :: ds). cbn [exponent_digits]. rewrite Hc.
    split; [done|]. split; [by constructor|done].
  - injection E as <- <-. exists []. split_and!; try done. constructor.
Qed.

Lemma digits_not_sign c ds : digits_ok (c :: ds) -> (c =? 43) || (c =? 45) = false /\ is_digit c = true.
Proof. intros H. apply Forall_cons_1 in H as [Hc _]. split; [unfold is_digit in Hc; lia|done]. Qed.

Lemma parse_exponent_spec e :
  match e with None => True | Some (mark, _, ds) => (mark = 101 \/ mark = 69) /\ digits_ok ds /\ ds <> [] end ->
  parse_exponent (exponent_units e) =
  Some (match e with None => 0 | Some (_, Some true, ds) => - saturated ds | Some (_, _, ds) => saturated ds end, []).
Proof.
  destruct e as [[[mark sign] ds]|]; [|done]. intros (Hm & Hd & Hne). cbn [exponent_units parse_exponent].
  replace ((mark =? 101) || (mark =? 69)) with true by lia.
  pose proof (exponent_digits_spec ds [] 0 Hd I) as E. rewrite app_nil_r in E.
  destruct ds as [|c ds]; [done|]. destruct (digits_not_sign c ds Hd) as [Hs Hc].
  destruct sign as [[]|]; cbn [sign_units app].
  - change ((45 =? 43) || (45 =? 45)) with true. change (45 =? 45) with true. cbn iota beta. rewrite Hc. cbn [negb]. by rewrite E.
  - change ((43 =? 43) || (43 =? 45)) with true. change (43 =? 45) with false. cbn iota beta. rewrite Hc. cbn [negb]. by rewrite E.
  - rewrite Hs, Hc. cbn [negb]. by rewrite E.
Qed.

Lemma parse_exponent_split s e rest : parse_exponent s = Some (e, rest) -> rest = [] ->
  exists x, s = exponent_units x /\
    match x with None => True | Some (mark, _, ds) => (mark = 101 \/ mark = 69) /\ digits_ok ds /\ ds <> [] end.
Proof.
  intros E ->. destruct s as [|m s]; [by exists None|]. cbn [parse_exponent] in E.
  destruct ((m =? 101) || (m =? 69)) eqn:Hm; [|injection E as _ ?; by subst].
  assert (m = 101 \/ m = 69) as Hmark by lia.
  assert (forall s' (neg : bool), match s' with [] => None | c :: _ => if negb (is_digit c) then None else
            let '(raw, rest') := exponent_digits 0 s' in Some (if neg then - raw else raw, rest') end = Some (e, []) ->
          digits_ok s' /\ s' <> []) as Hds.
  { intros [|c s'] neg E'; [done|]. destruct (negb (is_digit c)); [done|].
    destruct (exponent_digits 0 (c :: s')) as [raw rest'] eqn:Er. injection E' as _ ->.
    apply exponent_digits_split in Er as (ds & Eds & Hd & _ & _). rewrite app_nil_r in Eds. split; [by rewrite Eds|done]. }
  destruct s as [|c s].
  - by destruct (Hds [] false E) as [_ ?].
  - destruct ((c =? 43) || (c =? 45)) eqn:Hc.
    + destruct (Hds s (c =? 45) E) as [Hd Hne]. exists (Some (m, Some (c =? 45), s)). split; [|done]. destruct (Z.eqb_spec c 45) as [->|Hc']; [done|].
      assert (c = 43) as -> by lia. done.
    + destruct (Hds (c :: s) false E) as [Hd Hne]. by exists (Some (m, None, c :: s)).
Qed.

(** ** What is accepted *)

(** [inf], [infinity] and [NaN], with a sign. *)
Definition named (s : list Z) : Prop :=
  exists sign, s = sign_units sign ++ lit "inf" \/ s = sign_units sign ++ lit "infinity" \/ s = sign_units sign ++ lit "NaN".

Section Spec.
Context `{DecimalConversion}.

(** The conversion of the decimal; a failure of it is an overflow. *)
Definition float_outcome (D : Decimal) : outcome FloatErrorKind Z :=
  match to_f64 D with
  | Ret v => Ret v
  | Fail _ => overflow (negative D)
  | Panic => Panic
  | OutOfFuel => OutOfFuel
  end.

(** After the sign and the names. *)
Definition parse_body (negative : bool) (body : list Z) : outcome FloatErrorKind Z :=
  let '(integer, rest) := pass_digits body in
  let '(fraction, rest) :=
    match rest with
    | c :: rest' => if c =? 46 then pass_digits rest' else ([], rest)
    | [] => ([], [])
    end in
  if (length integer =? 0)%nat && (length fraction =? 0)%nat then Fail Invalid
  else
    match parse_exponent rest with
    | None => Fail Invalid
    | Some (exponent, rest) =>
      if negb (length rest =? 0)%nat then Fail Invalid
      else float_outcome (MkDecimal (match integer with [] => [48] | _ => integer end) fraction exponent negative)
    end.

Definition split_sign (s : list Z) : option bool * list Z :=
  match s with
  | c :: rest => if c =? 43 then (Some false, rest) else if c =? 45 then (Some true, rest) else (None, s)
  | [] => (None, [])
  end.

Definition is_minus (sign : option bool) : bool := match sign with Some true => true | _ => false end.

Lemma f64_from_str_unfold s : s <> [] ->
  f64_from_str s =
  let '(sign, body) := split_sign s in
  if (length body =? 0)%nat then Fail Invalid
  else if names body "inf" || names body "infinity" then Ret (special (is_minus sign) INFINITY)
  else if names body "NaN" then Ret (special (is_minus sign) NAN)
  else parse_body (is_minus sign) body.
Proof.
  destruct s as [|c rest]; [done|]. intros _. unfold f64_from_str, from_str, split_sign.
  assert (forall neg body,
    (let '(integer, rest) := pass_digits body in
      let '(fraction, rest) := match rest with c :: rest' => if c =? 46 then pass_digits rest' else ([], rest) | [] => ([], []) end in
      if (length integer =? 0)%nat && (length fraction =? 0)%nat then Fail Invalid
      else match parse_exponent rest with
        | None => Fail Invalid
        | Some (exponent, rest) =>
          if negb (length rest =? 0)%nat then Fail Invalid
          else
            let integer := if (length integer =? 0)%nat then [48] else integer in
            match to_f64 (MkDecimal integer fraction exponent neg) with
            | Fail _ => overflow neg
            | Ret value => finish_f64 value neg
            | Panic => Panic
            | OutOfFuel => OutOfFuel
            end
        end) = parse_body neg body) as Hbody.
  { intros neg body. unfold parse_body. destruct (pass_digits body) as [i r].
    destruct (match r with [] => _ | _ :: _ => _ end) as [f r']. destruct (_ && _); [done|].
    destruct (parse_exponent r') as [[e r'']|]; [|done]. destruct (negb _); [done|]. by destruct i. }
  destruct (Z.eqb_spec c 43) as [->|]; [|destruct (Z.eqb_spec c 45) as [->|]]; cbn [is_minus];
    destruct (length _ =? 0)%nat; try done; destruct (names _ _ || names _ _); try done; destruct (names _ _); done || apply Hbody.
Qed.

Lemma split_sign_units sign body : match body with c :: _ => (c =? 43) || (c =? 45) = false | [] => False end ->
  split_sign (sign_units sign ++ body) = (sign, body).
Proof.
  intros Hb. destruct sign as [[]|]; [done..|]. destruct body as [|c body]; [done|]. apply orb_false_iff in Hb as [H1 H2].
  cbn [sign_units app split_sign]. by rewrite H1, H2.
Qed.

Lemma split_sign_inv s sign body : split_sign s = (sign, body) -> s = sign_units sign ++ body.
Proof.
  destruct s as [|c s]; cbn [split_sign]; [by intros [= <- <-]|].
  destruct (Z.eqb_spec c 43) as [->|]; [by intros [= <- <-]|]. destruct (Z.eqb_spec c 45) as [->|]; by intros [= <- <-].
Qed.

Lemma body_start t : float_wf t -> exists c rest, body_units t = c :: rest /\ (is_digit c = true \/ c = 46).
Proof.
  intros (Hi & _ & Hne & _). unfold body_units. destruct (ft_integer t) as [|c i].
  - destruct (ft_fraction t) as [f|]; [|done]. exists 46. eexists. split; [done|by right].
  - apply Forall_cons_1 in Hi as [Hc _]. exists c. eexists. split; [done|by left].
Qed.

Lemma not_named_start c rest : is_digit c = true \/ c = 46 ->
  names (c :: rest) "inf" = false /\ names (c :: rest) "infinity" = false /\ names (c :: rest) "NaN" = false.
Proof.
  intros Hc. unfold names. rewrite !bool_decide_eq_false. unfold is_digit in Hc.
  split_and!; intros E; injection E; intros; lia.
Qed.

Lemma exponent_ends e : match e with None => True | Some (mark, _, ds) => (mark = 101 \/ mark = 69) /\ digits_ok ds /\ ds <> [] end ->
  ends_digits (exponent_units e) /\ match exponent_units e with c :: _ => c =? 46 = false | [] => True end.
Proof.
  destruct e as [[[mark sign] ds]|]; [|done]. intros (Hm & _). cbn. unfold is_digit. lia.
Qed.

Lemma parse_body_spec t : float_wf t -> parse_body (ft_negative t) (body_units t) = float_outcome (cut_decimal t).
Proof.
  intros (Hi & Hf & Hne & He). unfold parse_body, body_units. destruct (exponent_ends _ He) as [Hends H46].
  assert (cut_exponent t = match ft_exponent t with None => 0 | Some (_, Some true, ds) => - saturated ds | Some (_, _, ds) => saturated ds end) as Ev
    by (unfold cut_exponent; by destruct (ft_exponent t) as [[[? [[]|]] ?]|]).
  unfold cut_decimal. rewrite Ev. destruct (ft_fraction t) as [f|] eqn:Ef; cbn [default] in *.
  - rewrite pass_digits_spec by done. cbn [app]. change (46 =? 46) with true. cbn iota.
    rewrite pass_digits_spec by done. rewrite parse_exponent_spec by done. cbn [length Nat.eqb negb].
    destruct (ft_integer t), f; done.
  - rewrite app_nil_r in Hne. rewrite app_nil_l, pass_digits_spec by done.
    assert (match exponent_units (ft_exponent t) with
      | c :: rest' => if c =? 46 then pass_digits rest' else ([], exponent_units (ft_exponent t)) | [] => ([], []) end = ([], exponent_units (ft_exponent t))) as ->.
    { destruct (exponent_units _); [done|]. by rewrite H46. }
    rewrite parse_exponent_spec by done. by destruct (ft_integer t).
Qed.

Lemma parse_body_invalid neg body : (forall t, float_wf t -> body <> body_units t) -> parse_body neg body = Fail Invalid.
Proof.
  intros Hno. unfold parse_body. destruct (pass_digits body) as [i r] eqn:Ei. apply pass_digits_split in Ei as (Eb & Hi & Hr).
  destruct (match r with c :: rest' => if c =? 46 then pass_digits rest' else ([], r) | [] => ([], []) end) as [f r'] eqn:Ef.
  assert (exists frac, r = match frac with None => [] | Some f => 46 :: f end ++ r' /\ f = default [] frac /\ digits_ok f) as (frac & Er & Edf & Hf).
  { destruct r as [|c r]; [injection Ef as <- <-; exists None; split_and!; by constructor|].
    destruct (Z.eqb_spec c 46) as [->|].
    - apply pass_digits_split in Ef as (-> & Hd & _). by exists (Some f).
    - injection Ef as <- <-. exists None. split_and!; by constructor. }
  destruct ((length i =? 0)%nat && (length f =? 0)%nat) eqn:Elen; [done|].
  destruct (parse_exponent r') as [[e r'']|] eqn:Ee; [|done]. destruct (Nat.eqb_spec (length r'') 0) as [E0|]; [|done].
  apply length_zero_iff_nil in E0. destruct (parse_exponent_split r' e r'' Ee E0) as (x & Ex & Hx).
  exfalso. apply (Hno (FloatText None i frac x)).
  - split_and!; cbn [ft_integer ft_fraction ft_exponent]; try done; [by rewrite <- Edf|].
    rewrite <- Edf. intros E%app_eq_nil. destruct E as [-> ->]. done.
  - unfold body_units. cbn [ft_integer ft_fraction ft_exponent]. by rewrite Eb, Er, Ex.
Qed.

(** The texts of the grammar are read as their decimals. *)
Lemma f64_from_str_number t : float_wf t -> f64_from_str (float_units t) = float_outcome (cut_decimal t).
Proof.
  intros Ht. destruct (body_start t Ht) as (c & rest & Eb & Hc).
  rewrite f64_from_str_unfold by (unfold float_units; rewrite Eb; by destruct (ft_sign t) as [[]|]).
  unfold float_units. rewrite split_sign_units by (rewrite Eb; unfold is_digit in Hc; lia).
  destruct (not_named_start c rest Hc) as (H1 & H2 & H3). rewrite Eb. cbn [length Nat.eqb]. rewrite H1, H2, H3. cbn [orb].
  rewrite <- Eb. apply parse_body_spec, Ht.
Qed.

(** Anything else is invalid. *)
Lemma f64_from_str_invalid s : s <> [] -> ~ named s -> (forall t, float_wf t -> s <> float_units t) -> f64_from_str s = Fail Invalid.
Proof.
  intros Hs Hnamed Hno. rewrite f64_from_str_unfold by done. destruct (split_sign s) as [sign body] eqn:E.
  apply split_sign_inv in E. subst s. destruct (length body =? 0)%nat; [done|].
  assert (forall n, names body n = true -> body = lit n) as Hn by (intros n; apply bool_decide_eq_true_1).
  destruct (names body "inf") eqn:N1; [exfalso; apply Hnamed; exists sign; left; by rewrite (Hn _ N1)|].
  destruct (names body "infinity") eqn:N2; [exfalso; apply Hnamed; exists sign; right; left; by rewrite (Hn _ N2)|].
  destruct (names body "NaN") eqn:N3; [exfalso; apply Hnamed; exists sign; right; right; by rewrite (Hn _ N3)|].
  apply parse_body_invalid. intros t Ht ->. apply (Hno (FloatText sign (ft_integer t) (ft_fraction t) (ft_exponent t)) Ht). done.
Qed.

Lemma f64_from_str_named sign :
  f64_from_str (sign_units sign ++ lit "inf") = Ret (special (is_minus sign) INFINITY) /\
  f64_from_str (sign_units sign ++ lit "infinity") = Ret (special (is_minus sign) INFINITY) /\
  f64_from_str (sign_units sign ++ lit "NaN") = Ret (special (is_minus sign) NAN).
Proof. by destruct sign as [[]|]. Qed.
End Spec.

(** ** Parsed floats

    With the conversion of [Dec2Flt]: which texts are doubles, and that a text
    is read as the double nearest to it.  Parsing [f32] goes through [f64] and
    rounds twice. *)

(** The number that a text writes. *)
Definition written_exponent (t : float_text) : Z :=
  match ft_exponent t with
  | None => 0
  | Some (_, sign, ds) => match sign with Some true => - digits_value 0 ds | _ => digits_value 0 ds end
  end.

Definition written_decimal (t : float_text) : Decimal :=
  MkDecimal (match ft_integer t with [] => [48] | ds => ds end) (default [] (ft_fraction t)) (written_exponent t) (ft_negative t).

(** Exponents below a million, or at most 99000 digits in front of them. *)
Definition moderate (t : float_text) : Prop :=
  Z.abs (written_exponent t) < 1000000 \/ Z.of_nat (length (ft_integer t) + length (default [] (ft_fraction t))) <= 99000.

Lemma exponent_digits_grows ds : digits_ok ds -> forall raw, 0 <= raw -> raw <= fst (exponent_digits raw ds).
Proof.
  induction 1 as [|c ds Hc _ IH]; intros raw Hr; cbn [exponent_digits]; [done|]. rewrite Hc. unfold is_digit in Hc.
  destruct (Z.ltb_spec raw 100000); [|by apply IH]. specialize (IH (raw * 10 + (c - 48)) ltac:(lia)). lia.
Qed.

Lemma digits_value_grows ds : digits_ok ds -> forall raw, 0 <= raw -> raw <= digits_value raw ds.
Proof.
  induction 1 as [|c ds Hc _ IH]; intros raw Hr; cbn [digits_value]; [done|]. unfold is_digit in Hc.
  specialize (IH (raw * 10 + (c - 48)) ltac:(lia)). lia.
Qed.

Lemma saturated_exact ds : digits_ok ds -> forall raw, 0 <= raw ->
  digits_value raw ds < 1000000 \/ fst (exponent_digits raw ds) < 100000 -> fst (exponent_digits raw ds) = digits_value raw ds.
Proof.
  induction 1 as [|c ds Hc Hds IH]; intros raw Hr Hlt; cbn [exponent_digits digits_value] in *; [done|]. rewrite Hc in *. unfold is_digit in Hc.
  destruct (Z.ltb_spec raw 100000) as [Hs|Hs]; [apply IH; [lia|done]|].
  pose proof (exponent_digits_grows ds Hds raw Hr). pose proof (digits_value_grows ds Hds (raw * 10 + (c - 48)) ltac:(lia)). lia.
Qed.

Lemma saturated_small ds : digits_ok ds -> digits_value 0 ds < 1000000 -> saturated ds = digits_value 0 ds.
Proof. intros Hd Hs. apply saturated_exact; [done|lia|by left]. Qed.

Lemma saturated_large ds : digits_ok ds -> 1000000 <= digits_value 0 ds -> 100000 <= saturated ds.
Proof.
  intros Hd Hl. destruct (Z.lt_ge_cases (saturated ds) 100000) as [Hlt|]; [|done].
  unfold saturated in *. rewrite saturated_exact in Hlt by (auto || lia). lia.
Qed.

(** The sign and the size of the exponents that are cut. *)
Lemma cut_large t : float_wf t -> 1000000 <= Z.abs (written_exponent t) ->
  (100000 <= cut_exponent t /\ 100000 <= written_exponent t) \/ (cut_exponent t <= -100000 /\ written_exponent t <= -100000).
Proof.
  intros (_ & _ & _ & He) Hl. unfold written_exponent, cut_exponent in *. destruct (ft_exponent t) as [[[m sign] ds]|]; [|lia].
  destruct He as (_ & Hd & _). pose proof (digits_value_grows ds Hd 0 ltac:(lia)).
  destruct sign as [[]|]; pose proof (saturated_large ds Hd); lia.
Qed.

Lemma cut_small t : float_wf t -> Z.abs (written_exponent t) < 1000000 -> cut_decimal t = written_decimal t.
Proof.
  intros (_ & _ & _ & He) Hl. unfold cut_decimal, written_decimal. f_equal. unfold written_exponent, cut_exponent in *.
  destruct (ft_exponent t) as [[[m sign] ds]|]; [|done]. destruct He as (_ & Hd & _). pose proof (digits_value_grows ds Hd 0 ltac:(lia)).
  destruct sign as [[]|]; rewrite saturated_small by (done || lia); done.
Qed.

(** What a number is read as. *)
Definition read_nearest (D : Decimal) (r : outcome FloatErrorKind Z) : Prop :=
  let '(n, den) := decimal_fraction D in
  if overflow_bound * den <=? n then r = overflow (negative D)
  else exists bits, r = Ret (with_sign (negative D) bits) /\ nearest_even n den bits.

Lemma float_outcome_nearest D : decimal_ok D -> read_nearest D (float_outcome D).
Proof.
  intros HD. unfold read_nearest, float_outcome. pose proof (to_f64_correct D HD) as Hto. destruct (decimal_fraction D) as [n den].
  destruct (_ <=? _); [by rewrite Hto|]. destruct Hto as (bits & -> & Hn). by exists bits.
Qed.

(** Decimals far outside the doubles: the exponent does not matter. *)
Lemma far_outcome i f e e' neg :
  i <> [] -> digits_ok i -> digits_ok f -> Z.of_nat (length i + length f) <= 99001 ->
  (100000 <= e /\ 100000 <= e') \/ (e <= -100000 /\ e' <= -100000) ->
  float_outcome (MkDecimal i f e neg) = float_outcome (MkDecimal i f e' neg).
Proof.
  intros Hi Hdi Hdf Hlen He. set (s := digits_value 0 (i ++ f)).
  assert (digits_ok (i ++ f)) as Hd by (by apply Forall_app). pose proof (digits_value_range _ Hd) as Hs. fold s in Hs. rewrite length_app in Hs.
  assert (forall e, e <= -100000 \/ s = 0 -> float_outcome (MkDecimal i f e neg) = Ret (with_sign neg 0)) as Hzero.
  { intros x Hx. pose proof (float_outcome_nearest (MkDecimal i f x neg) (conj Hi (conj Hdi Hdf))) as Hn.
    unfold read_nearest, decimal_fraction in Hn. cbn [integer fraction dec_exponent negative] in Hn. fold s in Hn.
    set (k := x - Z.of_nat (length f)) in *. pose proof (pow10_pos (- k)) as Hp.
    assert (0 < overflow_bound) as Hob by (by vm_compute).
    destruct (Z.eq_dec s 0) as [Es|Es].
    - rewrite Es, Z.mul_0_l in Hn. replace (_ <=? 0) with false in Hn by nia. destruct Hn as (bits & -> & Hn).
      by apply nearest_zero in Hn as ->.
    - destruct Hx as [Hx|]; [|done].
      destruct (tiny_rounds_to_zero s (length i + length f) k neg Hs ltac:(lia)) as [[? [=]]|(Hb & bits & [= Eb] & Hz)].
      assert (with_sign neg 0 = with_sign neg bits) as Eb' by (rewrite <- Eb; by destruct neg).
      replace (overflow_bound * 10 ^ Z.max (- k) 0 <=? s * 10 ^ Z.max k 0) with false in Hn by lia.
      destruct Hn as (bits' & -> & Hn). f_equal.
      rewrite (nearest_unique _ _ bits' bits Hp Hn Hz). done. }
  destruct He as [[H1 H2]|[H1 H2]]; [|by rewrite !Hzero by (by left)].
  destruct (Z.eq_dec s 0) as [Es|Es]; [by rewrite !Hzero by (by right)|].
  assert (forall x, 100000 <= x -> float_outcome (MkDecimal i f x neg) = overflow neg) as Hover; [|by rewrite !Hover].
  intros x Hx. pose proof (float_outcome_nearest (MkDecimal i f x neg) (conj Hi (conj Hdi Hdf))) as Hn.
  unfold read_nearest, decimal_fraction in Hn. cbn [integer fraction dec_exponent negative] in Hn. fold s in Hn.
  set (k := x - Z.of_nat (length f)) in *.
  pose proof (huge_overflows s 1 k ltac:(cbn; lia) ltac:(lia) ltac:(lia)) as Hle. by rewrite (proj2 (Z.leb_le _ _) Hle) in Hn.
Qed.

(** A text of the grammar is read as the number it writes. *)
Lemma f64_from_str_written t : float_wf t -> moderate t -> f64_from_str (float_units t) = float_outcome (written_decimal t).
Proof.
  intros Ht Hm. rewrite f64_from_str_number by done. destruct (Z.lt_ge_cases (Z.abs (written_exponent t)) 1000000) as [Hs|Hl].
  - by rewrite cut_small.
  - destruct Hm as [Hm|Hm]; [lia|]. destruct (cut_decimal_ok t Ht) as (Hne & Hi & Hf). apply far_outcome; [done..| |by apply cut_large].
    destruct (ft_integer t); cbn [length] in *; lia.
Qed.

(** C30: [f64::from_str] accepts exactly the texts of its grammar, with the
    names of the infinities and NaN.  A number whose exponent is below a
    million in size, or which has at most 99000 digits in front of its exponent,
    is read as the double nearest to it, ties to even; it overflows from the
    midpoint above the largest double.  Any other number (see
    [exponent_cut_misread]) is still read as some double or overflows.  Every
    other text is an error of its own kind. *)
Theorem parse_float_exact :
  (forall t, float_wf t -> moderate t -> read_nearest (written_decimal t) (f64_from_str (float_units t))) /\
  (forall t, float_wf t -> (exists bits, f64_from_str (float_units t) = Ret bits) \/
     f64_from_str (float_units t) = overflow (ft_negative t)) /\
  (forall sign name, In name ["inf"; "infinity"]%string ->
    f64_from_str (sign_units sign ++ lit name) = Ret (special (is_minus sign) INFINITY)) /\
  (forall sign, f64_from_str (sign_units sign ++ lit "NaN") = Ret (special (is_minus sign) NAN)) /\
  (forall s, s <> [] -> ~ named s -> (forall t, float_wf t -> s <> float_units t) -> f64_from_str s = Fail Invalid) /\
  f64_from_str [] = Fail Empty.
Proof.
  split; [|split; [|split; [|split; [|split]]]].
  - intros t Ht Hm. rewrite f64_from_str_written by done. apply float_outcome_nearest, (cut_decimal_ok t Ht).
  - intros t Ht. rewrite f64_from_str_number by done. pose proof (float_outcome_nearest _ (cut_decimal_ok t Ht)) as Hn.
    unfold read_nearest in Hn. destruct (decimal_fraction _) as [n den]. destruct (_ <=? _); [by right|]. left.
    destruct Hn as (bits & -> & _). by eexists.
  - intros sign name Hn. destruct (f64_from_str_named sign) as (H1 & H2 & _).
    by destruct Hn as [<-|[<-|[]]].
  - intros sign. by destruct (f64_from_str_named sign) as (_ & _ & H3).
  - apply f64_from_str_invalid.
  - done.
Qed.

Lemma parse_float_exact_witness : exists bits, f64_from_str (lit "-1.5e-3") = Ret (with_sign true bits) /\ nearest_even 15 10000 bits.
Proof.
  destruct parse_float_exact as [H _].
  specialize (H (FloatText (Some true) [49] (Some [53]) (Some (101, Some true, [51])))).
  cbv [float_wf ft_integer ft_fraction ft_exponent] in H. unfold read_nearest in H.
  apply H; [split_and!; try discriminate; try (by left); repeat constructor|by left].
Defined.

(** Exponents of seven digits are cut to six: [0.00...01e1000000] with 100000
    zeros is read as 0.1, where it is far above the largest double. *)
Lemma exponent_cut_misread n : Z.of_nat n = 100000 ->
  let t := FloatText None [48] (Some (replicate n 48 ++ [49])) (Some (101, None, [49; 48; 48; 48; 48; 48; 48])) in
  (exists bits, f64_from_str (float_units t) = Ret bits /\ nearest_even 1 10 bits) /\
  read_nearest (written_decimal t) (overflow false).
Proof.
  intros En t. assert (digits_ok (replicate n 48 ++ [49])) as Hf.
  { apply Forall_app. split; [by apply Forall_replicate|by repeat constructor]. }
  assert (float_wf t) as Ht.
  { split; [by repeat constructor|]. split; [exact Hf|]. split; [discriminate|]. split; [by left|]. split; [by repeat constructor|discriminate]. }
  assert (forall e, decimal_fraction (MkDecimal [48] (replicate n 48 ++ [49]) e false) =
    (10 ^ Z.max (e - 100001) 0, 10 ^ Z.max (- (e - 100001)) 0)) as Hfr.
  { intros e. unfold decimal_fraction. cbn [integer fraction dec_exponent app]. rewrite length_app, length_replicate.
    replace (e - Z.of_nat (n + length [49])) with (e - 100001) by (cbn [length]; lia).
    cbn [digits_value]. rewrite digits_value_app. change (0 * 10 + (48 - 48)) with 0. rewrite digits_value_zeros. cbn [digits_value]. f_equal. lia. }
  split.
  - pose proof (float_outcome_nearest _ (cut_decimal_ok t Ht)) as Hn. rewrite <- f64_from_str_number in Hn by done.
    unfold read_nearest, cut_decimal in Hn. cbn [t ft_integer ft_fraction ft_negative default] in Hn. change (cut_exponent t) with 100000 in Hn.
    rewrite Hfr in Hn. exact Hn.
  - unfold read_nearest, written_decimal. cbn [t ft_integer ft_fraction ft_negative default]. change (written_exponent t) with 1000000. rewrite Hfr.
    pose proof (huge_overflows 1 1 (1000000 - 100001) ltac:(cbn; lia) ltac:(lia) ltac:(lia)) as Hle. rewrite Z.mul_1_l in Hle.
    by rewrite (proj2 (Z.leb_le _ _) Hle).
Qed.

(** ** Single precision *)

(** The value of a finite [f32] in units of [2 ^ -149]. *)
Definition f32_value (bits : Z) : Z :=
  let e := bits / 2 ^ 23 in
  if e =? 0 then bits mod 2 ^ 23 else (2 ^ 23 + bits mod 2 ^ 23) * 2 ^ (e - 1).

(** [1.00000017881393432617187499] lies below the midpoint of two floats; as a
    double it is the midpoint itself, which then goes to the even one. *)
Lemma f32_rounds_twice :
  let n := 100000017881393432617187499 in
  let den := 10 ^ 26 in
  f32_from_str (lit "1.00000017881393432617187499") = Ret 0x3f800002 /\
  Z.abs (f32_value 0x3f800001 * den - n * 2 ^ 149) < Z.abs (f32_value 0x3f800002 * den - n * 2 ^ 149).
Proof. by vm_compute. Qed.
