(* ===== verification/FmtFloat.v ===== *)
(** * Formatting floats

    Models [src/core/src/fmt/floating.cppm]: the layout of the digits of
    [Flt2Dec] in fixed and in scientific notation, with or without a precision,
    and the [Display], [Debug], [LowerExp] and [UpperExp] implementations of
    [f32] and [f64].  A value is the pattern of its bits.  [None] is the abort
    of [append], or a write outside the buffer of the exponent. *)

From Stdlib Require Import ZArith Lia Ascii.
From stdpp Require Import strings.
From S2P Require Import Prelude Int Utf8 Fmt Flt2Dec.
Local Open Scope Z_scope.
Local Open Scope rstd_scope.

(** What the format of a type is, and [T(Primitive(1e-4))] and
    [T(Primitive(1e16))]. *)
Record FloatType := mkFloatType { layout : FloatLayout; small_limit : Z; large_limit : Z }.

Definition f32_type : FloatType := mkFloatType f32_layout 0x38d1b717 0x5a0e1bca.
Definition f64_type : FloatType := mkFloatType f64_layout 0x3f1a36e2eb1c432d 0x4341c37937e08000.

Definition BUFFER_SIZE : nat := 1536.

(** The buffer and its [len] are the bytes written. *)
Definition append (buffer source : list Z) : option (list Z) :=
  if (BUFFER_SIZE <? length buffer + length source)%nat then None else Some (buffer ++ source).

Definition append_zeros (buffer : list Z) (count : nat) : option (list Z) :=
  append buffer (replicate count 48).

(** [do { reversed[digits++] = '0' + exponent % 10; exponent /= 10; } while (exponent != 0)]
    in [uint8_t reversed[4]]: the fuel is the room left. *)
Fixpoint exponent_loop (fuel : nat) (exponent : Z) (reversed : list Z) : option (list Z) :=
  match fuel with
  | O => None
  | S fuel =>
    let reversed := reversed ++ [48 + exponent mod 10] in
    let exponent := exponent / 10 in
    if negb (exponent =? 0) then exponent_loop fuel exponent reversed else Some reversed
  end.

Definition write_exponent (exponent : Z) (upper : bool) : option (list Z) :=
  let mark := if upper then 69 else 101 in
  let sign := if exponent <? 0 then [45] else [] in
  reversed ← exponent_loop 4 (Z.abs exponent) [];
  Some (mark :: sign ++ rev reversed).

(** The text of the significand, the zeros after it and the exponent. *)
Record Rendered := mkRendered { text : list Z; zero_count : nat; exponent_text : list Z }.

(** [fractional_digits > rendered ? fractional_digits - rendered : 0] *)
Definition missing (wanted rendered : Z) : nat := if rendered <? wanted then Z.to_nat (wanted - rendered) else 0.

Definition render_fixed (decimal : DecimalDigits) (fractional_digits : Z) : option Rendered :=
  let len := Z.of_nat (length (digits decimal)) in
  if len =? 0 then
    out ← append [] [48];
    out ← (if negb (fractional_digits =? 0) then append out [46] else Some out);
    Some (mkRendered out (Z.to_nat fractional_digits) [])
  else if d_exponent decimal <=? 0 then
    out ← append [] [48; 46];
    let leading_zeros := - d_exponent decimal in
    out ← append_zeros out (Z.to_nat leading_zeros);
    out ← append out (digits decimal);
    Some (mkRendered out (missing fractional_digits (leading_zeros + len)) [])
  else
    let exponent := d_exponent decimal in
    if exponent <? len then
      out ← append [] (take (Z.to_nat exponent) (digits decimal));
      out ← append out [46];
      out ← append out (drop (Z.to_nat exponent) (digits decimal));
      Some (mkRendered out (missing fractional_digits (len - exponent)) [])
    else
      out ← append [] (digits decimal);
      out ← append_zeros out (Z.to_nat (exponent - len));
      out ← (if negb (fractional_digits =? 0) then append out [46] else Some out);
      Some (mkRendered out (Z.to_nat fractional_digits) []).

Definition render_scientific (decimal : DecimalDigits) (significant_digits : Z) (upper : bool) : option Rendered :=
  let len := Z.of_nat (length (digits decimal)) in
  out ← append [] [if len =? 0 then 48 else default 0 (head (digits decimal))];
  out ← (if (1 <? len) || (1 <? significant_digits) then
           out ← append out [46];
           if 1 <? len then append out (tail (digits decimal)) else Some out
         else Some out);
  let rendered_digits := if len =? 0 then 1 else len in
  let exponent := if len =? 0 then 0 else d_exponent decimal - 1 in
  e ← write_exponent exponent upper;
  Some (mkRendered out (missing significant_digits rendered_digits) e).

(** The magnitude of a finite value: [-value] clears the sign.  The patterns
    of non-negative numbers are ordered as the numbers are. *)
Definition magnitude (ty : FloatType) (value : Z) : Z :=
  Z.land value (Z.shiftl 1 (MANTISSA_BITS (layout ty) + EXPONENT_BITS (layout ty)) - 1).

Definition extreme (ty : FloatType) (value : Z) : bool :=
  let m := magnitude ty value in
  (negb (m =? 0) && (m <? small_limit ty)) || (large_limit ty <=? m).

Section Write.
Context {W : Type} `{Write W} (ty : FloatType).

Definition or_abort {A} (x : option A) : M (Formatter W) unit A :=
  match x with Some a => ret a | None => panic end.

Definition write_decimal (value : Z) (presentation : Presentation) (decimal : DecimalDigits) (exact : bool) : FmtM W :=
  let* o := gets options in
  match d_category decimal with
  | Nan => pad_numeric [] (lit "NaN") 0 []
  | category =>
    let sign := if d_negative decimal then [45] else if flag o SIGN_PLUS then [43] else [] in
    match category with
    | Infinite => pad_numeric sign (lit "inf") 0 []
    | _ =>
      let scientific :=
        match presentation with LowerExp | UpperExp => true | Debug => negb exact && extreme ty value | _ => false end in
      let* r := or_abort
        (if scientific then
           render_scientific decimal (if exact then precision o + 1 else 0)
             (match presentation with UpperExp => true | _ => false end)
         else
           render_fixed decimal
             (if exact then precision o else match presentation with Debug => 1 | _ => 0 end)) in
      pad_numeric sign (text r) (zero_count r) (exponent_text r)
    end
  end.

Definition write_exact_fixed (value : Z) (presentation : Presentation) : FmtM W :=
  let* o := gets options in
  let* decimal := or_abort (exact_fixed (layout ty) value (precision o)) in
  write_decimal value presentation decimal true.

Definition write_exact_scientific (value : Z) (presentation : Presentation) : FmtM W :=
  let* o := gets options in
  let* decimal := or_abort (exact_significant (layout ty) value (precision o + 1)) in
  write_decimal value presentation decimal true.

Definition write_shortest (value : Z) (presentation : Presentation) : FmtM W :=
  let* decimal := or_abort (shortest (layout ty) value AwayFromZero) in
  write_decimal value presentation decimal false.

Definition write_float (value : Z) (presentation : Presentation) : FmtM W :=
  let* o := gets options in
  if negb (flag o HAS_PREC) then write_shortest value presentation
  else
    match presentation with
    | LowerExp | UpperExp => write_exact_scientific value presentation
    | _ => write_exact_fixed value presentation
    end.

(** [Argument::make] on a float: the floats have no radix notation. *)
Definition float_argument (value : Z) : Argument W :=
  let* o := gets options in
  match opt_presentation o with
  | (Display | Debug | LowerExp | UpperExp) as p => write_float value p
  | _ => throw tt
  end.
End Write.

