(* ===== verification/FmtFloatSpec.v ===== *)
(** * The texts of floats

    Every finite double, in every presentation without a precision, is
    formatted to a text of the grammar of [FloatParse] whose decimal has the
    value of its shortest digits; so the text is read back as the same
    double. *)

From Stdlib Require Import ZArith Lia ZifyBool Ascii.
From stdpp Require Import strings.
From S2P Require Import Prelude Int Utf8 FloatSpec Rounding Dec2Flt Dec2FltSpec Fmt FmtSpec FmtSink Bignum.
From S2P Require Import Flt2Dec Flt2DecSpec Flt2DecFloat FmtFloat FloatParse.
Local Open Scope Z_scope.
Local Open Scope rstd_scope.

(** ** Values of decimals *)

Lemma has_value_intro D v p z : digits_value 0 (integer D ++ fraction D) = v * 10 ^ z -> 0 <= z ->
  dec_exponent D - Z.of_nat (length (fraction D)) = p - z -> has_value D v p.
Proof.
  intros Hv Hz Hp. unfold has_value, decimal_fraction, equals_decimal. rewrite Hp, Hv. rewrite <- !Z.mul_assoc, <- !Z.pow_add_r by lia.
  do 2 f_equal. lia.
Qed.

Lemma digits_value_pad ds n : digits_value 0 (ds ++ replicate n 48) = digits_value 0 ds * 10 ^ Z.of_nat n.
Proof. rewrite digits_value_app, digits_value_acc, length_replicate, digits_value_zeros. lia. Qed.

Lemma digits_value_lead ds n : digits_value 0 (replicate n 48 ++ ds) = digits_value 0 ds.
Proof. by rewrite digits_value_app, digits_value_zeros. Qed.

(** [t] is a text of the value [v * 10 ^ p]. *)
Definition text_of_value (t : float_text) (v p : Z) : Prop := float_wf t /\ has_value (cut_decimal t) v p.

(** ** Exponents *)

Definition exponent_text_checked (e : Z) : bool :=
  match exponent_loop 4 e [] with
  | Some reversed =>
    let ds := rev reversed in
    forallb is_digit ds && (0 <? length ds)%nat && (length ds <=? 3)%nat && (saturated ds =? e)
  | None => false
  end.

Lemma exponent_texts_checked e : 0 <= e < 400 -> exponent_text_checked e = true.
Proof.
  intros H. assert (forallb exponent_text_checked (seqZ 0 400) = true) as Hall by (by vm_compute).
  rewrite forallb_forall in Hall. apply Hall, list_elem_of_In, elem_of_seqZ. lia.
Qed.

Lemma write_exponent_spec e upper : -400 < e < 400 ->
  exists sign ds, write_exponent e upper = Some (exponent_units (Some (if upper then 69 else 101, sign, ds))) /\
    digits_ok ds /\ (1 <= length ds <= 3)%nat /\ (match sign with Some true => - saturated ds | _ => saturated ds end) = e /\
    (sign = None \/ sign = Some true).
Proof.
  intros He. pose proof (exponent_texts_checked (Z.abs e) ltac:(lia)) as Hc. unfold exponent_text_checked in Hc. unfold write_exponent.
  destruct (exponent_loop 4 (Z.abs e) []) as [r|]; [|done]. rewrite !andb_true_iff in Hc. destruct Hc as (((Hd & H1) & H3) & Hs).
  apply Z.eqb_eq in Hs. cbn [mbind option_bind].
  exists (if e <? 0 then Some true else None), (rev r). split; [by destruct (e <? 0)|].
  split; [apply List.Forall_forall; by apply forallb_forall|]. split; [lia|].
  destruct (Z.ltb_spec e 0); (split; [lia|]); [by right|by left].
Qed.

(** ** Layouts *)

Lemma append_fits buffer source : (length buffer + length source <= BUFFER_SIZE)%nat -> append buffer source = Some (buffer ++ source).
Proof. intros H. unfold append. by rewrite (proj2 (Nat.ltb_ge _ _)). Qed.

Lemma append_zeros_fits buffer n : (length buffer + n <= BUFFER_SIZE)%nat -> append_zeros buffer n = Some (buffer ++ replicate n 48).
Proof. intros H. apply append_fits. by rewrite length_replicate. Qed.

(** The digits and the exponent of [shortest]: none for zero. *)
Definition digits_for (ds : list Z) (k : Z) : Prop :=
  digits_ok ds /\ (length ds <= MAX_SIG_DIGITS)%nat /\ -330 <= k <= 331 /\ (ds = [] -> k = 0) /\ head ds <> Some 48.

Definition whole (r : Rendered) : list Z := text r ++ replicate (zero_count r) 48 ++ exponent_text r.

(** Digits without leading zeros. *)
Definition leading (i : list Z) : Prop := i = [48] \/ exists c ds, i = c :: ds /\ 49 <= c <= 57 /\ digits_ok ds.

Lemma leading_digits ds : digits_ok ds -> ds <> [] -> head ds <> Some 48 -> leading ds.
Proof.
  intros Hd Hne Hh. destruct ds as [|c ds]; [done|]. right. exists c, ds. apply Forall_cons_1 in Hd as [Hc Hd].
  split; [done|]. split; [|done]. unfold is_digit in Hc. assert (c <> 48) by (intros ->; done). lia.
Qed.

Lemma leading_nonempty i : leading i -> i <> [].
Proof. by intros [-> | (c & ds & -> & _)]. Qed.

(** Without a sign, [r] is the text of [ds * 10 ^ (k - length ds)]; as a
    fraction when [pointed]. *)
Definition renders (r : Rendered) (ds : list Z) (k : Z) (pointed : bool) (e : option (Z * option bool * list Z)) : Prop :=
  exists i f, whole r = body_units (FloatText None i f e) /\
    (forall sign, text_of_value (FloatText sign i f e) (digits_value 0 ds) (k - Z.of_nat (length ds))) /\
    (pointed = true -> f <> None) /\ (forall g, f = Some g -> g <> []) /\ leading i.

Lemma take_drop_digits n ds : digits_ok ds -> digits_ok (take n ds) /\ digits_ok (drop n ds).
Proof. intros H. split; [by apply Forall_take|by apply Forall_drop]. Qed.

Lemma render_fixed_spec c neg ds k (debug : bool) : digits_for ds k ->
  exists r, render_fixed (mkDigits c neg ds k) (if debug then 1 else 0) = Some r /\ renders r ds k debug None.
Proof.
  intros (Hok & Hlen & Hk & Hz & Hhead). unfold MAX_SIG_DIGITS in Hlen. unfold render_fixed. cbn [digits d_exponent].
  destruct (Z.eqb_spec (Z.of_nat (length ds)) 0) as [H0|H0].
  { apply Nat2Z.inj_iff with (m := 0%nat) in H0. apply length_zero_iff_nil in H0 as ->. rewrite (Hz eq_refl).
    destruct debug; cbn -[BUFFER_SIZE]; eexists; (split; [reflexivity|]).
    - exists [48], (Some [48]). split; [done|]. split; [|split_and!; [done|by intros ? [= <-]|by left]].
      intros sign. split; [split_and!; by repeat constructor|]. by apply (has_value_intro _ _ _ 1).
    - exists [48], None. split; [done|]. split; [|split_and!; [done|done|by left]].
      intros sign. split; [split_and!; by repeat constructor|]. by apply (has_value_intro _ _ _ 0). }
  destruct (Z.leb_spec k 0) as [Hk0|Hk0].
  - rewrite (append_fits [] [48; 46]) by (cbn; unfold BUFFER_SIZE; lia). cbn [mbind option_bind app].
    rewrite append_zeros_fits by (cbn [length]; unfold BUFFER_SIZE; lia). cbn [mbind option_bind].
    rewrite append_fits by (rewrite length_app, length_replicate; cbn [length]; unfold BUFFER_SIZE; lia). cbn [mbind option_bind].
    eexists. split; [done|]. exists [48], (Some (replicate (Z.to_nat (- k)) 48 ++ ds)).
    split; [|split; [|split_and!; [done| |by left]]].
    + unfold whole. cbn [text zero_count exponent_text]. assert (missing (if debug then 1 else 0) (- k + Z.of_nat (length ds)) = 0%nat) as ->
        by (unfold missing; destruct debug; replace (_ <? _) with false by lia; done).
      unfold body_units. cbn. by rewrite !app_nil_r.
    + intros sign. split.
      * split_and!; cbn [ft_integer ft_fraction ft_exponent default]; [by repeat constructor| |done|done].
        apply Forall_app. split; [by apply Forall_replicate|done].
      * apply (has_value_intro _ _ _ 0); [|lia|].
        -- cbn. rewrite digits_value_lead. lia.
        -- cbn. rewrite length_app, length_replicate. lia.
    + intros g [= <-] E. apply app_eq_nil in E as [_ ->]. done.
  - destruct (Z.ltb_spec k (Z.of_nat (length ds))) as [Hlt|Hge].
    + rewrite append_fits by (rewrite length_take; cbn [length]; unfold BUFFER_SIZE; lia). cbn [mbind option_bind app].
      rewrite append_fits by (rewrite length_take; cbn [length]; unfold BUFFER_SIZE; lia). cbn [mbind option_bind].
      rewrite append_fits by (rewrite length_app, length_take, length_drop; cbn [length]; unfold BUFFER_SIZE; lia). cbn [mbind option_bind].
      destruct (take_drop_digits (Z.to_nat k) ds Hok) as [Ht Hd].
      eexists. split; [done|]. exists (take (Z.to_nat k) ds), (Some (drop (Z.to_nat k) ds)).
      assert (length (take (Z.to_nat k) ds) = Z.to_nat k) as Elen by (rewrite length_take; lia).
      assert (take (Z.to_nat k) ds <> []) as Hne by (intros E; rewrite E in Elen; cbn in Elen; lia).
      split; [|split; [|split_and!; [done| |]]].
      * unfold whole. cbn [text zero_count exponent_text]. assert (missing (if debug then 1 else 0) (Z.of_nat (length ds) - k) = 0%nat) as ->
          by (unfold missing; destruct debug; replace (_ <? _) with false by lia; done).
        unfold body_units. cbn. by rewrite !app_nil_r, <- app_assoc.
      * intros sign. split.
        -- split_and!; cbn [ft_integer ft_fraction ft_exponent default]; try done. intros E%app_eq_nil. by destruct E.
        -- apply (has_value_intro _ _ _ 0); [|lia|].
           ++ cbn [cut_decimal ft_integer ft_fraction integer fraction default]; unfold id. destruct (take _ ds) eqn:E; [done|]. rewrite <- E, take_drop. lia.
           ++ cbn. rewrite length_drop. lia.
      * intros g [= <-] E. apply (f_equal length) in E. rewrite length_drop in E. cbn in E. lia.
      * apply leading_digits; [done|done|]. destruct ds; [done|]. destruct (Z.to_nat k) eqn:Ek; [lia|done].
    + rewrite append_fits by (cbn [length]; unfold BUFFER_SIZE; lia). cbn [mbind option_bind app].
      rewrite append_zeros_fits by (unfold BUFFER_SIZE; lia). cbn [mbind option_bind].
      set (n := Z.to_nat (k - Z.of_nat (length ds))). assert (digits_ok (ds ++ replicate n 48)) as Hds by (apply Forall_app; split; [done|by apply Forall_replicate]).
      assert (ds ++ replicate n 48 <> []) as Hne by (intros E; apply app_eq_nil in E as [-> _]; done).
      assert (leading (ds ++ replicate n 48)) as Hlead by (apply leading_digits; [done|done|]; by destruct ds).
      destruct debug; cbn [Z.eqb negb].
      * rewrite append_fits by (rewrite length_app, length_replicate; cbn [length]; unfold BUFFER_SIZE; lia). cbn [mbind option_bind].
        eexists. split; [done|]. exists (ds ++ replicate n 48), (Some [48]). split; [|split; [|split_and!; [done|by intros ? [= <-]|done]]].
        -- unfold whole, body_units. cbn. by rewrite <- app_assoc.
        -- intros sign. split.
           ++ split_and!; cbn [ft_integer ft_fraction ft_exponent default]; try done; [by repeat constructor|]. intros E%app_eq_nil. by destruct E.
           ++ apply (has_value_intro _ _ _ (Z.of_nat n + 1)); [|lia|cbn; lia].
              cbn [cut_decimal ft_integer ft_fraction integer fraction default]; unfold id. destruct (ds ++ replicate n 48) eqn:E; [done|]. rewrite <- E.
              rewrite (digits_value_pad _ 1), digits_value_pad, Z.pow_add_r by lia. change (10 ^ Z.of_nat 1) with (10 ^ 1). lia.
      * cbn [mbind option_bind]. eexists. split; [done|]. exists (ds ++ replicate n 48), None. split; [|split; [|by split_and!]].
        -- unfold whole, body_units. cbn. reflexivity.
        -- intros sign. split.
           ++ split_and!; cbn; try done; try (by constructor); try (by rewrite app_nil_r).
           ++ apply (has_value_intro _ _ _ (Z.of_nat n)); [|lia|cbn; lia].
              cbn [cut_decimal ft_integer ft_fraction integer fraction default]; unfold id. destruct (ds ++ replicate n 48) eqn:E; [done|]. rewrite <- E.
              by rewrite app_nil_r, digits_value_pad.
Qed.

Lemma render_scientific_spec c neg ds k upper : digits_for ds k ->
  exists r e, render_scientific (mkDigits c neg ds k) 0 upper = Some r /\ renders r ds k false (Some e) /\
    exponent_text r = exponent_units (Some e) /\ zero_count r = 0%nat /\
    fst (fst e) = (if upper then 69 else 101) /\ (length (whole r) <= length ds + 7)%nat /\ (snd (fst e) = None \/ snd (fst e) = Some true) /\
    (length (snd e) <= 3)%nat.
Proof.
  intros (Hok & Hlen & Hk & Hz & Hhead). unfold MAX_SIG_DIGITS in Hlen. unfold render_scientific. cbn [digits d_exponent].
  destruct ds as [|d ds].
  { exists (mkRendered [48] 0 [if upper then 69 else 101; 48]), (if upper then 69 else 101, None, [48]).
    split; [by destruct upper|]. split; [|by destruct upper; split_and!; first [done | (left; done) | (cbn; lia)]].
    exists [48], None. split; [done|]. split; [|split_and!; [done|done|by left]].
    intros sign. split; [|rewrite (Hz eq_refl); by apply (has_value_intro _ _ _ 0)].
    split_and!; cbn; try done; try (by repeat constructor). split; [by destruct upper; auto|by split; [repeat constructor|]]. }
  replace (Z.of_nat (length (d :: ds)) =? 0) with false by (cbn [length]; lia). change (default 0 (head (d :: ds))) with d.
  rewrite (append_fits [] [d]) by (cbn; unfold BUFFER_SIZE; lia). cbn [mbind option_bind app].
  destruct (write_exponent_spec (k - 1) upper ltac:(lia)) as (sign & es & Ew & Hes & Hesl & Hev & Hsign).
  change (1 <? 0) with false. rewrite orb_false_r. apply Forall_cons_1 in Hok as [Hd Hds].
  assert (Z.of_nat (length (d :: ds)) = Z.of_nat (length ds) + 1) as El by (cbn [length]; lia). rewrite El. cbn [length] in Hlen.
  assert (forall x : float_text, ft_exponent x = Some (if upper then 69 else 101, sign, es) -> cut_exponent x = k - 1) as Hexp.
  { intros x E. unfold cut_exponent. rewrite E. exact Hev. }
  assert (match Some (if upper then 69 else 101, sign, es) with
    | Some (mark, _, ds) => (mark = 101 \/ mark = 69) /\ digits_ok ds /\ ds <> [] | None => True end) as Hwe.
  { split; [by destruct upper; auto|]. split; [done|]. intros ->. cbn in Hesl. lia. }
  assert (missing 0 (Z.of_nat (length ds) + 1) = 0%nat) as Hmiss by (unfold missing; by replace (_ <? _) with false by lia).
  assert (length (exponent_units (Some ((if upper then 69 else 101)%Z, sign, es))) <= 5)%nat as Hel.
  { destruct Hsign as [-> | ->]; cbn; lia. }
  replace (Z.of_nat (length ds) + 1 =? 0) with false by lia.
  destruct (Z.ltb_spec 1 (Z.of_nat (length ds) + 1)) as [Hlong|Hshort].
  - rewrite append_fits by (cbn; unfold BUFFER_SIZE; lia). cbn [mbind option_bind tail].
    rewrite append_fits by (cbn [length app]; unfold BUFFER_SIZE; lia). cbn [mbind option_bind]. rewrite Ew. cbn [mbind option_bind].
    do 2 eexists. split; [done|]. rewrite Hmiss. split; [|split; [done|split; [done|]]].
    + exists [d], (Some ds). split; [unfold whole, body_units; cbn; done|].
      split; [|split_and!; [done|intros g [= <-] E; rewrite E in Hlong; cbn in Hlong; lia|by apply leading_digits; [repeat constructor| |]]].
      intros sgn. split; [split_and!; cbn [ft_integer ft_fraction ft_exponent default]; try done; by repeat constructor|].
      apply (has_value_intro _ _ _ 0); [cbn; lia|lia|]. cbn [cut_decimal dec_exponent fraction ft_fraction]. rewrite Hexp by done. cbn [default length]. unfold id. lia.
    + split; [done|]. split; [|split; [done|cbn; lia]]. unfold whole. cbn [text zero_count exponent_text replicate app length]. rewrite length_app. cbn [length] in *. lia.
  - assert (ds = []) as -> by (apply length_zero_iff_nil; lia). cbn [mbind option_bind]. rewrite Ew. cbn [mbind option_bind].
    do 2 eexists. split; [done|]. rewrite Hmiss. split; [|split; [done|split; [done|]]].
    + exists [d], None. split; [unfold whole, body_units; cbn; done|].
      split; [|split_and!; [done|done|by apply leading_digits; [repeat constructor| |]]].
      intros sgn. split; [split_and!; cbn [ft_integer ft_fraction ft_exponent default]; try done; by repeat constructor|].
      apply (has_value_intro _ _ _ 0); [cbn; lia|lia|]. cbn [cut_decimal dec_exponent fraction ft_fraction]. rewrite Hexp by done. cbn. lia.
    + split; [done|]. split; [|split; [done|cbn; lia]]. unfold whole. cbn [text zero_count exponent_text replicate app]. cbn [length] in *. lia.
Qed.

(** ** The patterns of finite doubles *)

Lemma finite_pattern bits : 0 <= bits < 2 ^ 64 -> is_finite bits = true ->
  exists neg b, 0 <= b < INFINITY /\ bits = with_sign neg b.
Proof.
  intros Hb Hf. exists (2 ^ 63 <=? bits), (bits mod 2 ^ 63). pose proof (Z.mod_pos_bound bits (2 ^ 63) ltac:(lia)) as Hm.
  pose proof (Z.div_mod bits (2 ^ 63) ltac:(lia)) as Hd.
  assert (bits / 2 ^ 63 = Z.b2z (2 ^ 63 <=? bits)) as Hq.
  { destruct (Z.leb_spec (2 ^ 63) bits); cbn; [symmetry; apply (Z.div_unique _ _ 1 (bits - 2 ^ 63)); lia|apply Z.div_small; lia]. }
  rewrite Hq in Hd. assert (bits mod 2 ^ 63 < INFINITY) as Hlt.
  { destruct (Z.lt_ge_cases (bits mod 2 ^ 63) INFINITY) as [|Hge]; [done|exfalso].
    unfold is_finite, exponent_bits in Hf. rewrite Z.shiftr_div_pow2 in Hf by lia. change 0x7ff with (2 ^ 11 - 1) in Hf. rewrite land_mask in Hf by lia.
    assert (bits / 2 ^ 52 = Z.b2z (2 ^ 63 <=? bits) * 2 ^ 11 + 2047) as E.
    { symmetry. apply (Z.div_unique _ _ _ (bits mod 2 ^ 63 - INFINITY)); unfold INFINITY in *; lia. }
    rewrite E, (Z.add_comm (_ * _)), Z.mod_add, Z.mod_small in Hf by lia. vm_compute in Hf. done. }
  split; [lia|]. destruct (2 ^ 63 <=? bits); cbn [with_sign Z.b2z] in *; [|lia].
  rewrite Z.lor_comm, lor_shiftl_add by lia. lia.
Qed.

Lemma shortest_finite neg b ties : 0 <= b < INFINITY ->
  exists c ds k, shortest f64_layout (with_sign neg b) ties = Some (mkDigits c neg ds k) /\ (c = Zero \/ c = Finite) /\ digits_for ds k /\
    forall D, decimal_ok D -> negative D = neg -> has_value D (digits_value 0 ds) (k - Z.of_nat (length ds)) -> to_f64 D = Ret (with_sign neg b).
Proof.
  intros Hb. destruct (Z.eq_dec b 0) as [->|Hne].
  - exists Zero, [], 0. split; [by destruct neg|]. split; [by left|]. split; [split_and!; try done; try (by constructor); cbn; lia|].
    intros D HD Hneg Hv. pose proof (to_f64_correct D HD) as Hto. pose proof (decimal_fraction_pos D) as Hden. unfold has_value, equals_decimal in Hv.
    destruct (decimal_fraction D) as [n den]. cbn [snd digits_value length] in *. change (10 ^ Z.max (- (0 - Z.of_nat 0)) 0) with 1 in Hv.
    assert (n = 0) as -> by lia. assert (0 < overflow_bound) as Hob by (by vm_compute).
    replace (overflow_bound * den <=? 0) with false in Hto by nia. destruct Hto as (bits & -> & Hn). apply nearest_zero in Hn as ->; [|done]. by rewrite Hneg.
  - destruct (shortest_f64 neg b ties ltac:(lia)) as (ds & k & _ & Hs & E & Hread & _). exists Finite, ds, k.
    split; [done|]. split; [by right|]. destruct Hs as [Hok Hlen Hk Hfirst _ _ _]. split; [split_and!; try done; try lia; [intros ->; cbn in Hlen; lia|]|].
    { intros Hh. destruct ds as [|d ds]; [done|]. injection Hh as ->. pose proof Hok as [_ Hok']%Forall_cons_1.
      pose proof (digits_value_range ds Hok') as Hr. change (digits_value 0 (48 :: ds)) with (digits_value 0 ds) in Hfirst.
      replace (length (48%Z :: ds) - 1)%nat with (length ds) in Hfirst by (cbn; lia). lia. }
    intros D HD Hneg. apply Hread; [done|]. destruct (with_sign_fields neg b Hb) as (-> & _). by destruct neg.
Qed.

(** ** Writing *)

Lemma digits_ascii ds : digits_ok ds -> Forall (fun c => 0 <= c < 128) ds.
Proof. apply List.Forall_impl. unfold is_digit. intros. lia. Qed.

Lemma units_ascii t : float_wf t -> Forall (fun c => 0 <= c < 128) (body_units t).
Proof.
  intros (Hi & Hf & _ & He). unfold body_units. repeat apply Forall_app_2; [by apply digits_ascii| |].
  - destruct (ft_fraction t); [|constructor]. constructor; [lia|by apply digits_ascii].
  - destruct (ft_exponent t) as [[[m s] ds]|]; [|constructor]. destruct He as (Hm & Hd & _). cbn.
    constructor; [lia|]. apply Forall_app_2; [destruct s as [[]|]; repeat constructor; lia|by apply digits_ascii].
Qed.

Lemma renders_text r ds k p e : renders r ds k p e -> is_text (text r) /\ is_text (exponent_text r).
Proof.
  intros (i & f & E & Hv & _). destruct (Hv None) as [Hwf _]. apply units_ascii in Hwf. rewrite <- E in Hwf. unfold whole in Hwf.
  apply Forall_app in Hwf as [H1 H2]. apply Forall_app in H2 as [_ H2]. split; by apply text_ascii.
Qed.

(** The sign of a number, as the options ask. *)
Definition sign_of (neg : bool) (o : FormattingOptions) : option bool :=
  if neg then Some true else if flag o SIGN_PLUS then Some false else None.

(** The notation [write_decimal] chooses without a precision. *)
Definition scientific (bits : Z) (p : Presentation) : bool :=
  match p with LowerExp | UpperExp => true | Debug => extreme f64_type bits | _ => false end.

(** The exponent of a scientific text, and its length; a fixed text has none. *)
Definition exponent_style (sci : bool) (p : Presentation) (r : Rendered) (ds : list Z) (e : option (Z * option bool * list Z)) : Prop :=
  if sci then exists e0, e = Some e0 /\ exponent_text r = exponent_units (Some e0) /\ zero_count r = 0%nat /\
    fst (fst e0) = (match p with UpperExp => 69 | _ => 101 end) /\ (length (whole r) <= length ds + 7)%nat /\ (snd (fst e0) = None \/ snd (fst e0) = Some true) /\
    (length (snd e0) <= 3)%nat
  else e = None.

Lemma write_float_exact {W} `{Roomy W} bits p o : 0 <= bits < 2 ^ 64 -> is_finite bits = true -> p = Display \/ p = Debug \/ p = LowerExp \/ p = UpperExp ->
  flag o HAS_PREC = false -> target_width o = 0%nat ->
  exists neg b c ds k r e, bits = with_sign neg b /\ 0 <= b < INFINITY /\
    shortest f64_layout bits AwayFromZero = Some (mkDigits c neg ds k) /\ digits_for ds k /\
    (if scientific bits p then render_scientific (mkDigits c neg ds k) 0 (match p with UpperExp => true | _ => false end)
     else render_fixed (mkDigits c neg ds k) (match p with Debug => 1 | _ => 0 end)) = Some r /\
    renders r ds k (match p with Debug => negb (scientific bits p) | _ => false end) e /\ exponent_style (scientific bits p) p r ds e /\
    delivers (write_float f64_type bits p) o (sign_units (sign_of neg o) ++ whole r) /\
    forall D, decimal_ok D -> negative D = neg -> has_value D (digits_value 0 ds) (k - Z.of_nat (length ds)) -> to_f64 D = Ret bits.
Proof.
  intros Hb Hfin Hp Hprec Hw. destruct (finite_pattern bits Hb Hfin) as (neg & b & Hbr & ->).
  destruct (shortest_finite neg b AwayFromZero Hbr) as (c & ds & k & E & Hc & Hd & Hread).
  set (bits := with_sign neg b) in *.
  assert (exists r, (if scientific bits p then render_scientific (mkDigits c neg ds k) 0 (match p with UpperExp => true | _ => false end)
     else render_fixed (mkDigits c neg ds k) (match p with Debug => 1 | _ => 0 end)) = Some r /\
     exists e, renders r ds k (match p with Debug => negb (scientific bits p) | _ => false end) e /\ exponent_style (scientific bits p) p r ds e)
     as (r & Er & e & Hr & He).
  { destruct (scientific bits p) eqn:Es.
    - destruct (render_scientific_spec c neg ds k (match p with UpperExp => true | _ => false end) Hd) as (r & e & Er & Hr & Hst).
      exists r. split; [done|]. exists (Some e). split; [by destruct p|]. exists e. clear -Hst. by destruct p.
    - destruct (render_fixed_spec c neg ds k (match p with Debug => true | _ => false end) Hd) as (r & Er & Hr).
      exists r. split; [by destruct p|]. exists None. split; [by destruct p|done]. }
  exists neg, b, c, ds, k, r, e. repeat (split; [done|]). split; [|done].
  unfold write_float. apply delivers_gets. rewrite Hprec. cbn [negb]. unfold write_shortest. change (layout f64_type) with f64_layout. rewrite E.
  intros w Hroom. unfold bind, or_abort at 1, ret at 1. revert w Hroom. fold (delivers (write_decimal f64_type bits p (mkDigits c neg ds k) false) o (sign_units (sign_of neg o) ++ whole r)).
  unfold write_decimal. apply delivers_gets. cbn [d_category d_negative].
  assert ((if neg then [45] else if flag o SIGN_PLUS then [43] else []) = sign_units (sign_of neg o)) as -> by (unfold sign_of; by destruct neg, (flag o SIGN_PLUS)).
  destruct (renders_text _ _ _ _ _ Hr) as [Ht1 Ht2].
  assert (delivers (pad_numeric (sign_units (sign_of neg o)) (text r) (zero_count r) (exponent_text r)) o (sign_units (sign_of neg o) ++ whole r)) as Hemit.
  { unfold whole. apply delivers_number; [|done..]. apply text_ascii. destruct (sign_of neg o) as [[]|]; repeat constructor; lia. }
  clear Hr E Hread. destruct Hc as [-> | ->]; destruct Hp as [->|[->|[->| ->]]]; cbn [scientific negb andb] in *; try destruct (extreme f64_type bits);
    rewrite Er; exact Hemit.
Qed.

Lemma infinite_text {W} `{Roomy W} neg p o : p = Display \/ p = Debug \/ p = LowerExp \/ p = UpperExp ->
  flag o HAS_PREC = false -> target_width o = 0%nat ->
  delivers (write_float f64_type (special neg INFINITY) p) o (sign_units (sign_of neg o) ++ lit "inf").
Proof.
  intros Hp Hprec Hw. unfold write_float. apply delivers_gets. rewrite Hprec. cbn [negb]. unfold write_shortest. change (layout f64_type) with f64_layout.
  assert (shortest f64_layout (special neg INFINITY) AwayFromZero = Some (mkDigits Infinite neg [] 0)) as -> by (by destruct neg).
  intros w Hroom. unfold bind, or_abort at 1, ret at 1. revert w Hroom.
  fold (delivers (write_decimal f64_type (special neg INFINITY) p (mkDigits Infinite neg [] 0) false) o (sign_units (sign_of neg o) ++ lit "inf")).
  unfold write_decimal. apply delivers_gets. cbn [d_category d_negative].
  assert ((if neg then [45] else if flag o SIGN_PLUS then [43] else []) = sign_units (sign_of neg o)) as -> by (unfold sign_of; by destruct neg, (flag o SIGN_PLUS)).
  rewrite <- (app_nil_r (lit "inf")). rewrite app_nil_r at 1. apply (delivers_number _ _ 0 []); [| |apply is_text_nil|done].
  - apply text_ascii. destruct (sign_of neg o) as [[]|]; repeat constructor; lia.
  - apply text_ascii. repeat constructor; lia.
Qed.

(** A pattern that is not a NaN. *)
Definition is_number (bits : Z) : Prop := 0 <= bits < 2 ^ 64 /\ (is_finite bits = true \/ exists neg, bits = special neg INFINITY).

Lemma float_text_read {W} `{Roomy W} bits p o : is_number bits -> p = Display \/ p = Debug \/ p = LowerExp \/ p = UpperExp ->
  flag o HAS_PREC = false -> target_width o = 0%nat ->
  exists t, delivers (write_float f64_type bits p) o t /\ f64_from_str t = Ret bits.
Proof.
  intros [Hb [Hfin|[neg ->]]] Hp Hprec Hw.
  - destruct (write_float_exact bits p o Hb Hfin Hp Hprec Hw) as (neg & b & c & ds & k & r & e & -> & Hbr & _ & _ & _ & Hr & _ & He & Hread).
    destruct Hr as (i & f & Eu & Hval & _). destruct (Hval (sign_of neg o)) as [Hwf Hv].
    exists (float_units (FloatText (sign_of neg o) i f e)). split.
    { unfold float_units. change (body_units (FloatText (sign_of neg o) i f e)) with (body_units (FloatText None i f e)). by rewrite <- Eu. }
    rewrite f64_from_str_number by done. unfold float_outcome. rewrite Hread; [done| | |done].
    + by apply cut_decimal_ok.
    + cbn. unfold ft_negative, sign_of. cbn. by destruct neg, (flag o SIGN_PLUS).
  - exists (sign_units (sign_of neg o) ++ lit "inf"). split; [by apply infinite_text|].
    destruct (f64_from_str_named (sign_of neg o)) as [-> _]. unfold sign_of. by destruct neg, (flag o SIGN_PLUS).
Qed.

(** The placeholders without width and precision. *)
Definition float_formats : list string := ["{}"; "{:?}"; "{:e}"; "{:E}"; "{:+}"; "{:+?}"; "{:+e}"; "{:+E}"]%string.

Lemma format_one inner a t : ~ 125 ∈ inner -> head inner <> Some 123 ->
  delivers a (parse_spec (skip_arg_id inner)) t -> format (123 :: inner ++ [125]) [a] = t.
Proof.
  intros H125 H123 Ha. unfold format. pose proof (delivers_hole inner a Fmt.default_options t H125 H123 Ha) as Hd.
  apply delivers_string in Hd. by rewrite Hd.
Qed.

Definition plain_float_options (o : FormattingOptions) : bool :=
  negb (flag o HAS_PREC) && (target_width o =? 0)%nat &&
  match opt_presentation o with Display | Debug | LowerExp | UpperExp => true | _ => false end.

Lemma float_argument_read {W} `{Roomy W} bits o : is_number bits -> plain_float_options o = true ->
  exists t, delivers (float_argument f64_type bits) o t /\ f64_from_str t = Ret bits.
Proof.
  unfold plain_float_options. rewrite !andb_true_iff, negb_true_iff, Nat.eqb_eq. intros Hb [[Hprec Hw] Hp].
  destruct (float_text_read bits (opt_presentation o) o Hb) as (t & He & Ht); [by destruct (opt_presentation o); auto|done|done|].
  exists t. split; [|done]. unfold float_argument. apply delivers_gets. by destruct (opt_presentation o).
Qed.
(** C5: Every double that is not a NaN survives its text. *)
Theorem float_text_roundtrip bits fmt : is_number bits -> In fmt float_formats ->
  f64_from_str (format (lit fmt) [float_argument f64_type bits]) = Ret bits.
Proof.
  intros Hb Hf. assert (forall inner, lit fmt = 123 :: inner ++ [125] -> forallb (fun c => (0 <=? c) && (c <? 123)) inner = true ->
    plain_float_options (parse_spec (skip_arg_id inner)) = true -> f64_from_str (format (lit fmt) [float_argument f64_type bits]) = Ret bits) as H.
  { intros inner -> Ha Ho. rewrite forallb_forall in Ha. assert (forall c, c ∈ inner -> 0 <= c < 123) as Hr.
    { intros c Hc. rewrite list_elem_of_In in Hc. specialize (Ha c Hc). lia. }
    destruct (float_argument_read bits _ Hb Ho) as (t & He & Ht). rewrite (format_one inner _ t); [done| | |done].
    - intros Hc. specialize (Hr _ Hc). lia.
    - destruct inner as [|c inner]; [done|]. intros [= ->]. specialize (Hr 123 (list_elem_of_here _ _)). lia. }
  repeat destruct Hf as [<-|Hf]; [apply (H [])|apply (H (lit ":?"))|apply (H (lit ":e"))|apply (H (lit ":E"))|
    apply (H (lit ":+"))|apply (H (lit ":+?"))|apply (H (lit ":+e"))|apply (H (lit ":+E"))|destruct Hf]; by vm_compute.
Qed.

Lemma float_text_roundtrip_witness :
  f64_from_str (format (lit "{:?}") [float_argument f64_type 0x8000000000000001]) = Ret 0x8000000000000001 /\
  f64_from_str (format (lit "{:+e}") [float_argument f64_type 0x7fefffffffffffff]) = Ret 0x7fefffffffffffff.
Proof.
  split; apply float_text_roundtrip.
  1,3: split; [lia|left; vm_compute; reflexivity].
  all: cbn; tauto.
Defined.
