(* ===== verification/Json.v ===== *)
(** * JSON data: options, errors, numbers and values

    Models [src/json/src/error.cppm], [src/json/src/number.cppm], the options
    of [src/json/src/parser.cppm] and the value type of
    [src/json/src/value.cppm].  A string is the list of its bytes; an object
    is the sorted association list of its [BTreeMap]. *)

From Stdlib Require Import ZArith Lia ZifyBool.
From S2P Require Import Prelude Int FloatSpec OrdMap.
Local Open Scope Z_scope.

Inductive ErrorCode :=
| EofWhileParsingList | EofWhileParsingObject | EofWhileParsingComment
| EofWhileParsingString | EofWhileParsingValue
| ExpectedColon | ExpectedListCommaOrEnd | ExpectedObjectCommaOrEnd
| ExpectedSomeIdent | ExpectedSomeValue | InvalidEscape | InvalidNumber
| NumberOutOfRange | InvalidUnicodeCodePoint | ControlCharacterWhileParsingString
| DuplicateObjectKey | KeyMustBeAString | LoneLeadingSurrogateInHexEscape
| TrailingComma | TrailingCharacters | UnexpectedEndOfHexEscape | RecursionLimitExceeded.

Inductive Category := Syntax | Eof.

Record Error := MkError { code_ : ErrorCode; err_line_ : nat; err_column_ : nat; offset_ : nat }.

Definition classify (e : Error) : Category :=
  match code_ e with
  | EofWhileParsingList | EofWhileParsingObject | EofWhileParsingComment
  | EofWhileParsingString | EofWhileParsingValue => Eof
  | _ => Syntax
  end.

Record ParseOptions := MkOptions
  { allow_comments : bool;
    reject_duplicate_keys : bool;
    reject_integer_overflow : bool;
    max_depth : Z }.

Definition default_options : ParseOptions := MkOptions false false false 128.

(** ** Numbers *)

Inductive Number :=
| NUnsigned (value : Z)
| NSigned (value : Z)
| NFloat (bits : Z).

Definition from_u64 (value : Z) : Number := NUnsigned value.
Definition from_i64 (value : Z) : Number := if value <? 0 then NSigned value else NUnsigned value.
Definition from_f64 (value : Z) : option Number :=
  if negb (is_finite value) then None else Some (NFloat value).

Definition is_u64 (n : Number) : bool := match n with NUnsigned _ => true | _ => false end.
Definition is_f64 (n : Number) : bool := match n with NFloat _ => true | _ => false end.
Definition is_i64 (n : Number) : bool :=
  match n with
  | NSigned _ => true
  | NUnsigned v => v <=? MAX i64
  | NFloat _ => false
  end.
Definition as_i64 (n : Number) : option Z :=
  match n with
  | NSigned v => Some v
  | NUnsigned v => if v <=? MAX i64 then Some v else None
  | NFloat _ => None
  end.
Definition as_u64 (n : Number) : option Z := match n with NUnsigned v => Some v | _ => None end.

(** What the constructors establish: unsigned in range, signed negative,
    floats finite. *)
Definition number_ok (n : Number) : Prop :=
  match n with
  | NUnsigned v => 0 <= v <= MAX u64
  | NSigned v => MIN i64 <= v < 0
  | NFloat bits => is_finite bits = true /\ 0 <= bits < 2 ^ 64
  end.

(** ** Values *)

#[warnings="-register-all"] Inductive Value :=
| VNull
| VBool (value : bool)
| VNumber (value : Number)
| VString (value : list Z)
| VArray (value : list Value)
| VObject (value : list (list Z * Value)).

(** Induction through the nested lists. *)
Section ValueInd.
Context (P : Value -> Prop).
Context (HNull : P VNull) (HBool : forall b, P (VBool b)) (HNumber : forall n, P (VNumber n))
  (HString : forall s, P (VString s)) (HArray : forall vs, Forall P vs -> P (VArray vs))
  (HObject : forall m, Forall (fun e => P (snd e)) m -> P (VObject m)).

Fixpoint Value_ind' (v : Value) : P v :=
  match v with
  | VNull => HNull
  | VBool b => HBool b
  | VNumber n => HNumber n
  | VString s => HString s
  | VArray vs =>
    HArray vs ((fix go vs : Forall P vs :=
      match vs with
      | [] => List.Forall_nil _
      | v :: vs => @List.Forall_cons _ P v vs (Value_ind' v) (go vs)
      end) vs)
  | VObject m =>
    HObject m ((fix go m : Forall (fun e => P (snd e)) m :=
      match m with
      | [] => List.Forall_nil _
      | e :: m => @List.Forall_cons _ (fun e => P (snd e)) e m (Value_ind' (snd e)) (go m)
      end) m)
  end.
End ValueInd.

(** The nesting of containers: scalars have depth 0. *)
Fixpoint value_depth (v : Value) : nat :=
  match v with
  | VArray vs => S (list_max (map value_depth vs))
  | VObject m => S (list_max (map (fun e => value_depth (snd e)) m))
  | _ => 0
  end.
