(* ===== verification/JsonReader.v ===== *)
(** * The JSON pull reader

    Models [src/json/src/reader.cpp]: the class [Reader] with every member
    function.  A reader owns two cursors, one over UTF-8 bytes and one over
    UTF-16 code units, of which [utf16_] selects one.  Member functions that
    return [Result<T, Error>] are computations of the monad [M Reader Error];
    [Panic] marks the places where the source would dereference an empty
    [Option], index out of range or overflow. *)

From Stdlib Require Import ZArith Lia ZifyBool.
From S2P Require Import Prelude Int Utf8 Str Cursor OrdMap FloatSpec Json.
Local Open Scope Z_scope.
Local Open Scope rstd_scope.

Inductive ValueKind := KNull | KBoolean | KNumber | KString | KArray | KObject.

Inductive FloatOverflow := OverflowReject | OverflowInfinity.

Record Reader := MkReader
  { cursor_ : Cursor;
    units_ : Cursor;
    utf16_ : bool;
    remaining_depth_ : Z;
    options_ : ParseOptions }.

Record NumberToken := MkToken
  { tok_integer : Span;
    tok_fraction : Span;
    tok_exponent : Z;
    tok_negative : bool;
    tok_floating : bool }.

(** The constructors over UTF-8 text and over UTF-16 code units. *)
Definition reader_utf8 (text : list Z) (options : ParseOptions) : Reader :=
  MkReader (cursor_new 0 (text_input text) false) (cursor_new 1 (MkInput [] false) false)
    false (max_depth options) options.

Definition reader_utf16 (text : list Z) (options : ParseOptions) : Reader :=
  MkReader (cursor_new 0 (text_input []) false) (cursor_new 1 (MkInput text false) false)
    true (max_depth options) options.

Definition RM := M Reader Error.

(** The cursor [utf16_] selects. *)
Definition active (r : Reader) : Cursor := if utf16_ r then units_ r else cursor_ r.

Definition with_active (r : Reader) (c : Cursor) : Reader :=
  if utf16_ r then MkReader (cursor_ r) c true (remaining_depth_ r) (options_ r)
  else MkReader c (units_ r) false (remaining_depth_ r) (options_ r).

Definition with_depth (r : Reader) (d : Z) : Reader :=
  MkReader (cursor_ r) (units_ r) (utf16_ r) d (options_ r).

Definition position (r : Reader) : nat := position_ (active r).
Definition eof (r : Reader) : bool := is_eof (active r).

(** [u16()] stands for the missing unit past the end. *)
Definition peek_at (r : Reader) (ahead : nat) : Z := default 0 (Cursor.peek (active r) ahead).
Definition peek (r : Reader) : Z := peek_at r 0.

Definition take : RM Z := fun r =>
  match take_unit (active r) with
  | (Ret (Some v), c) => (Ret v, with_active r c)
  | (_, c) => (Panic, with_active r c)
  end.

Definition unit_at (r : Reader) (offset : nat) : option Z := input (active r) !! offset.

(** [error] and [error_after_consumed], thrown. *)
Definition error {A} (code : ErrorCode) : RM A := fun r =>
  match source_position (active r) with
  | Ret location =>
    if eof r && (column location =? 0)%nat then (Panic, r)
    else
      (Fail (MkError code (line location)
               (if eof r then column location - 1 else column location)%nat (position r)), r)
  | _ => (Panic, r)
  end.

Definition error_after_consumed {A} (code : ErrorCode) : RM A := fun r =>
  match source_position (active r) with
  | Ret location =>
    if (column location =? 0)%nat || (position r =? 0)%nat then (Panic, r)
    else (Fail (MkError code (line location) (column location - 1) (position r - 1)), r)
  | _ => (Panic, r)
  end.

(** The number of units left: every loop below takes at least one unit per
    round, so one more than that is enough fuel. *)
Definition left_units (r : Reader) : nat := remaining (active r).

(** [while (! eof() && test(peek())) take();] *)
Fixpoint take_while (fuel : nat) (test : Z -> bool) : RM unit :=
  match fuel with
  | O => out_of_fuel
  | S fuel =>
    let* go := gets (fun r => negb (eof r) && test (peek r)) in
    if (go : bool) then do* take ;; take_while fuel test else ret tt
  end.

Definition skip_units (test : Z -> bool) : RM unit :=
  let* fuel := gets (fun r => S (left_units r)) in take_while fuel test.

(** The loop over the body of a block comment; answers [closed]. *)
Fixpoint block_comment (fuel : nat) : RM bool :=
  match fuel with
  | O => out_of_fuel
  | S fuel =>
    let* stop := gets eof in
    if (stop : bool) then ret false
    else
      let* close := gets (fun r => (peek r =? 0x2a) && (peek_at r 1 =? 0x2f)) in
      if (close : bool) then do* take ;; do* take ;; ret true
      else do* take ;; block_comment fuel
  end.

Definition is_whitespace (v : Z) : bool := (v =? 0x20) || (v =? 0x0a) || (v =? 0x0d) || (v =? 0x09).

Fixpoint whitespace_loop (fuel : nat) : RM unit :=
  match fuel with
  | O => out_of_fuel
  | S fuel =>
    let* stop := gets eof in
    if (stop : bool) then ret tt
    else
      let* v := gets peek in
      if is_whitespace v then do* take ;; whitespace_loop fuel
      else
        let* comments := gets (fun r => allow_comments (options_ r)) in
        if negb comments || negb (v =? 0x2f) then ret tt
        else
          let* next := gets (fun r => peek_at r 1) in
          if next =? 0x2f then
            do* take ;; do* take ;;
            do* skip_units (fun v => negb (v =? 0x0a)) ;;
            whitespace_loop fuel
          else if next =? 0x2a then
            do* take ;; do* take ;;
            let* n := gets (fun r => S (left_units r)) in
            let* closed := block_comment n in
            if negb closed then error EofWhileParsingComment else whitespace_loop fuel
          else ret tt
  end.

(** [consume_whitespace]; its callers return the failure at once. *)
Definition consume_whitespace : RM unit :=
  let* fuel := gets (fun r => S (left_units r)) in whitespace_loop fuel.

Fixpoint consume_ident (value : list Z) : RM unit :=
  match value with
  | [] => ret tt
  | v :: value =>
    let* stop := gets eof in
    if (stop : bool) then error EofWhileParsingValue
    else
      let* p := gets peek in
      if negb (p =? v) then error ExpectedSomeIdent
      else do* take ;; consume_ident value
  end.

(** [for (index < 4)]: one hexadecimal digit per round. *)
Fixpoint hex_digits (n : nat) (value : Z) : RM Z :=
  match n with
  | O => ret value
  | S n =>
    let* stop := gets eof in
    if (stop : bool) then error EofWhileParsingString
    else
      let* p := gets peek in
      match (if p <=? MAX u8 then digit_value p 16 else None) with
      | None => error InvalidEscape
      | Some digit =>
        do* take ;;
        let* shifted := of_option (op_shl true u16 value 4) in
        hex_digits n (Z.lor shifted digit)
      end
  end.

Definition parse_hex_escape : RM Z := hex_digits 4 0.

(** The two instantiations of [Output]: a [String] collects UTF-8 bytes, a
    [Vec<u16>] code units. *)
Inductive Output := OString | OUnits.

Definition push_char (o : Output) (cp : Z) : list Z :=
  match o with OString => encode_utf8 cp | OUnits => [cp mod 2 ^ 16] end.

Definition is_high_surrogate (v : Z) : bool := (0xd800 <=? v) && (v <=? 0xdbff).
Definition is_low_surrogate (v : Z) : bool := (0xdc00 <=? v) && (v <=? 0xdfff).

Definition parse_unicode_escape (o : Output) : RM (list Z) :=
  let* first := parse_hex_escape in
  match o with
  | OUnits => ret [first]
  | OString =>
    if is_low_surrogate first then error_after_consumed LoneLeadingSurrogateInHexEscape
    else if negb (is_high_surrogate first) then ret (encode_utf8 first)
    else
      let* stop := gets eof in
      if (stop : bool) then error EofWhileParsingString
      else
        let* p := gets peek in
        if negb (p =? 0x5c) then error UnexpectedEndOfHexEscape
        else
          do* take ;;
          let* stop := gets eof in
          if (stop : bool) then error EofWhileParsingString
          else
            let* p := gets peek in
            if negb (p =? 0x75) then error UnexpectedEndOfHexEscape
            else
              do* take ;;
              let* second := parse_hex_escape in
              if negb (is_low_surrogate second)
              then error_after_consumed LoneLeadingSurrogateInHexEscape
              else
                let scalar := Z.lor (Z.shiftl (first - 0xd800) 10) (second - 0xdc00) + 0x10000 in
                ret (encode_utf8 scalar)
  end.

Definition value_kind : RM ValueKind :=
  do* consume_whitespace ;;
  let* stop := gets eof in
  if (stop : bool) then error EofWhileParsingValue
  else
    let* p := gets peek in
    if p =? 0x6e then ret KNull
    else if (p =? 0x74) || (p =? 0x66) then ret KBoolean
    else if p =? 0x22 then ret KString
    else if p =? 0x5b then ret KArray
    else if p =? 0x7b then ret KObject
    else if p =? 0x2d then ret KNumber
    else if (0x30 <=? p) && (p <=? 0x39) then ret KNumber
    else error ExpectedSomeValue.

Definition kind_eqb (a b : ValueKind) : bool :=
  match a, b with
  | KNull, KNull | KBoolean, KBoolean | KNumber, KNumber
  | KString, KString | KArray, KArray | KObject, KObject => true
  | _, _ => false
  end.

Definition lit_null : list Z := [110; 117; 108; 108].
Definition lit_true : list Z := [116; 114; 117; 101].
Definition lit_false : list Z := [102; 97; 108; 115; 101].

Definition parse_null : RM unit :=
  let* kind := value_kind in
  if negb (kind_eqb kind KNull) then error ExpectedSomeValue
  else consume_ident lit_null.

Definition parse_bool : RM bool :=
  let* kind := value_kind in
  if negb (kind_eqb kind KBoolean) then error ExpectedSomeValue
  else
    let* value := gets (fun r => peek r =? 0x74) in
    do* consume_ident (if (value : bool) then lit_true else lit_false) ;;
    ret value.

(** The loop of [append_utf16] over a slice of code units. *)
Fixpoint append_utf16 (units : list Z) : RM (list Z) :=
  match units with
  | [] => ret []
  | value :: units =>
    if is_high_surrogate value then
      match units with
      | [] => error InvalidUnicodeCodePoint
      | second :: units =>
        if (second <? 0xdc00) || (0xdfff <? second) then error InvalidUnicodeCodePoint
        else
          let* rest := append_utf16 units in
          ret (encode_utf8 (0x10000 + Z.shiftl (value - 0xd800) 10 + (second - 0xdc00)) ++ rest)
      end
    else if is_low_surrogate value then error InvalidUnicodeCodePoint
    else
      let* rest := append_utf16 units in
      ret (encode_utf8 value ++ rest)
  end.

(** The UTF-16 code units of a character. *)
Definition char_units (cp : Z) : list Z :=
  if cp <=? 0xffff then [cp]
  else [0xd800 + Z.shiftr (cp - 0x10000) 10; 0xdc00 + Z.land (cp - 0x10000) 0x3ff].

(** What the raw chunk of a string literal adds to the output. *)
Definition append_raw (o : Output) (span : Span) : RM (list Z) := fun r =>
  if negb (utf16_ r) then
    match cursor_text (cursor_ r) span with
    | Ret text =>
      match o with
      | OString => (Ret text, r)
      | OUnits => (Ret (concat (map char_units (chars text))), r)
      end
    | _ => (Panic, r)
    end
  else
    match view (units_ r) span with
    | Ret units =>
      match o with
      | OString => append_utf16 units r
      | OUnits => (Ret units, r)
      end
    | _ => (Panic, r)
    end.

Definition is_plain (v : Z) : bool := negb (v =? 0x22) && negb (v =? 0x5c) && (0x20 <=? v).

(** The simple escapes of [read_string]. *)
Definition escape_char (v : Z) : option Z :=
  if v =? 0x22 then Some 0x22
  else if v =? 0x5c then Some 0x5c
  else if v =? 0x2f then Some 0x2f
  else if v =? 0x62 then Some 0x08
  else if v =? 0x66 then Some 0x0c
  else if v =? 0x6e then Some 0x0a
  else if v =? 0x72 then Some 0x0d
  else if v =? 0x74 then Some 0x09
  else None.

Fixpoint string_loop (fuel : nat) (o : Output) (output : list Z) : RM (list Z) :=
  match fuel with
  | O => out_of_fuel
  | S fuel =>
    let* stop := gets eof in
    if (stop : bool) then error EofWhileParsingString
    else
      let* chunk_start := gets position in
      do* skip_units is_plain ;;
      let* chunk_end := gets position in
      let* raw := append_raw o (MkSpan chunk_start chunk_end) in
      let output := output ++ raw in
      let* stop := gets eof in
      if (stop : bool) then error EofWhileParsingString
      else
        let* byte := gets peek in
        if byte =? 0x22 then do* take ;; ret output
        else if byte <? 0x20 then
          do* take ;; error_after_consumed ControlCharacterWhileParsingString
        else
          do* take ;;
          let* stop := gets eof in
          if (stop : bool) then error EofWhileParsingString
          else
            let* e := take in
            match escape_char e with
            | Some c => string_loop fuel o (output ++ push_char o c)
            | None =>
              if e =? 0x75 then
                let* decoded := parse_unicode_escape o in
                string_loop fuel o (output ++ decoded)
              else error_after_consumed InvalidEscape
            end
  end.

Definition read_string (o : Output) : RM (list Z) :=
  let* kind := value_kind in
  if negb (kind_eqb kind KString) then error ExpectedSomeValue
  else
    do* take ;;
    let* fuel := gets (fun r => S (left_units r)) in
    string_loop fuel o [].

Definition parse_string_units : RM (list Z) := read_string OUnits.

Definition parse_string : RM (list Z) :=
  let* wide := gets utf16_ in
  if negb wide then read_string OString
  else
    let* units := parse_string_units in
    append_utf16 units.

Definition is_dec (v : Z) : bool := (0x30 <=? v) && (v <=? 0x39).

(** The lambda [digit] of [scan_number]. *)
Definition at_digit (r : Reader) : bool := negb (eof r) && is_dec (peek r).

(** The exponent loop: saturates at [i32::MAX]. *)
Fixpoint exponent_loop (fuel : nat) (exponent : Z) : RM Z :=
  match fuel with
  | O => out_of_fuel
  | S fuel =>
    let* go := gets at_digit in
    if (go : bool) then
      let* unit := take in
      let* value := of_option (op_sub true u16 unit 0x30) in
      let* room := of_option (op_sub true i32 (MAX i32) value) in
      let* limit := of_option (op_div i32 room 10) in
      if limit <? exponent then exponent_loop fuel (MAX i32)
      else
        let* scaled := of_option (op_mul true i32 exponent 10) in
        let* next := of_option (op_add true i32 scaled value) in
        exponent_loop fuel next
    else ret exponent
  end.

Definition scan_integer : RM Span :=
  let* b := gets position in
  let* p := gets peek in
  do* (if p =? 0x30 then
         do* take ;;
         let* more := gets at_digit in
         if (more : bool) then error InvalidNumber else ret tt
       else if (0x31 <=? p) && (p <=? 0x39) then skip_units is_dec
       else error InvalidNumber) ;;
  let* e := gets position in
  ret (MkSpan b e).

(** The optional fraction: its span and whether it is there. *)
Definition scan_fraction : RM (Span * bool) :=
  let* here := gets position in
  let* dot := gets (fun r => negb (eof r) && (peek r =? 0x2e)) in
  if (dot : bool) then
    do* take ;;
    let* stop := gets eof in
    if (stop : bool) then error EofWhileParsingValue
    else
      let* b := gets position in
      do* skip_units is_dec ;;
      let* e := gets position in
      if span_is_empty (MkSpan b e) then error InvalidNumber
      else ret (MkSpan b e, true)
  else ret (MkSpan here here, false).

(** The optional exponent. *)
Definition scan_exponent : RM (Z * bool) :=
  let* mark := gets (fun r => negb (eof r) && ((peek r =? 0x65) || (peek r =? 0x45))) in
  if (mark : bool) then
    do* take ;;
    let* sign := gets (fun r => negb (eof r) && ((peek r =? 0x2b) || (peek r =? 0x2d))) in
    let* negative :=
      (if (sign : bool) then
         let* minus := gets (fun r => peek r =? 0x2d) in
         do* take ;; ret minus
       else ret false) in
    let* stop := gets eof in
    if (stop : bool) then error EofWhileParsingValue
    else
      let* digit := gets at_digit in
      if negb digit then error InvalidNumber
      else
        let* fuel := gets (fun r => S (left_units r)) in
        let* exponent := exponent_loop fuel 0 in
        if (negative : bool) then
          let* negated := of_option (op_neg true i32 exponent) in
          ret (negated, true)
        else ret (exponent, true)
  else ret (0, false).

Definition scan_number : RM NumberToken :=
  let* kind := value_kind in
  if negb (kind_eqb kind KNumber) then error InvalidNumber
  else
    let* negative := gets (fun r => peek r =? 0x2d) in
    do* (if (negative : bool) then
           do* take ;;
           let* stop := gets eof in
           if (stop : bool) then error EofWhileParsingValue else ret tt
         else ret tt) ;;
    let* integer := scan_integer in
    let* fraction := scan_fraction in
    let* exponent := scan_exponent in
    ret (MkToken integer (fst fraction) (fst exponent) negative (snd fraction || snd exponent)).

(** [for (index = token.integer.begin; index < token.integer.end; ++index)]:
    the magnitude, or [None] on overflow. *)
Fixpoint magnitude_loop (n : nat) (index : nat) (magnitude : Z) : RM (option Z) :=
  match n with
  | O => ret (Some magnitude)
  | S n =>
    let* unit := gets (fun r => unit_at r index) in
    let* unit := of_option unit in
    let* value := of_option (op_sub true u16 unit 0x30) in
    let* room := of_option (op_sub true u64 (MAX u64) value) in
    let* limit := of_option (op_div u64 room 10) in
    if limit <? magnitude then ret None
    else
      let* scaled := of_option (op_mul true u64 magnitude 10) in
      let* next := of_option (op_add true u64 scaled value) in
      magnitude_loop n (S index) next
  end.

Section Floats.
Context `{DecimalConversion}.

(** The digits of a span: a view of the bytes, or the code units cast. *)
Definition span_digits (span : Span) : RM (list Z) := fun r =>
  match view (active r) span with
  | Ret s => (Ret (if utf16_ r then map (fun u => u mod 2 ^ 8) s else s), r)
  | _ => (Panic, r)
  end.

Definition parse_float (token : NumberToken) (overflow : FloatOverflow) : RM Z :=
  let* integer := span_digits (tok_integer token) in
  let* fraction := span_digits (tok_fraction token) in
  match to_f64 (MkDecimal integer fraction (tok_exponent token) (tok_negative token)) with
  | Ret bits => ret bits
  | Fail DecOverflow =>
    match overflow with
    | OverflowInfinity => ret (if tok_negative token then NEG_INFINITY else INFINITY)
    | OverflowReject => error NumberOutOfRange
    end
  | Fail DecInvalid => error InvalidNumber
  | Panic => panic
  | OutOfFuel => out_of_fuel
  end.

Definition parse_f64 (overflow : FloatOverflow) : RM Z :=
  let* token := scan_number in parse_float token overflow.

Definition parse_floating (token : NumberToken) : RM Number :=
  let* parsed := parse_float token OverflowReject in
  of_option (from_f64 parsed).

Definition parse_number : RM Number :=
  let* token := scan_number in
  if tok_floating token then parse_floating token
  else
    let span := tok_integer token in
    let* magnitude := magnitude_loop (span_len span) (span_begin span) 0 in
    let* strict := gets (fun r => reject_integer_overflow (options_ r)) in
    match magnitude with
    | None => if (strict : bool) then error NumberOutOfRange else parse_floating token
    | Some magnitude =>
      if negb (tok_negative token) then ret (from_u64 magnitude)
      else if magnitude =? 0 then parse_floating token
      else
        let* min_magnitude := of_option (op_add true u64 (MAX i64) 1) in
        if min_magnitude <? magnitude then
          if (strict : bool) then error NumberOutOfRange else parse_floating token
        else if magnitude =? min_magnitude then ret (from_i64 (MIN i64))
        else
          let* negated := of_option (op_neg true i64 magnitude) in
          ret (from_i64 negated)
    end.
End Floats.

(** [begin_array] and [begin_object] *)
Definition begin_container (expected : ValueKind) : RM unit :=
  let* kind := value_kind in
  if negb (kind_eqb kind expected) then error ExpectedSomeValue
  else
    let* depth := gets remaining_depth_ in
    if depth <=? 1 then error RecursionLimitExceeded
    else
      do* modify (fun r => with_depth r (depth - 1)) ;;
      do* take ;;
      consume_whitespace.

Definition begin_array : RM unit := begin_container KArray.
Definition begin_object : RM unit := begin_container KObject.

Definition leave_container : RM unit :=
  do* take ;;
  modify (fun r => with_depth r (remaining_depth_ r + 1)).

(** [next_array(bool& first)]: the answer; [first] is [false] afterwards. *)
Definition next_array (first : bool) : RM bool :=
  do* consume_whitespace ;;
  let* stop := gets eof in
  if (stop : bool) then error EofWhileParsingList
  else
    let* p := gets peek in
    if p =? 0x5d then do* leave_container ;; ret false
    else
      do* (if negb first then
             if negb (p =? 0x2c) then error ExpectedListCommaOrEnd
             else
               do* take ;;
               do* consume_whitespace ;;
               let* stop := gets eof in
               if (stop : bool) then error EofWhileParsingValue
               else
                 let* p := gets peek in
                 if p =? 0x5d then error TrailingComma else ret tt
           else ret tt) ;;
      ret true.

Definition read_object_key (o : Output) (first : bool) : RM (option (list Z)) :=
  do* consume_whitespace ;;
  let* stop := gets eof in
  if (stop : bool) then error EofWhileParsingObject
  else
    let* p := gets peek in
    if p =? 0x7d then do* leave_container ;; ret None
    else
      do* (if negb first then
             if negb (p =? 0x2c) then error ExpectedObjectCommaOrEnd
             else
               do* take ;;
               do* consume_whitespace ;;
               let* stop := gets eof in
               if (stop : bool) then error EofWhileParsingValue
               else
                 let* p := gets peek in
                 if p =? 0x7d then error TrailingComma else ret tt
           else ret tt) ;;
      let* p := gets peek in
      if negb (p =? 0x22) then error KeyMustBeAString
      else
        let* key := match o with OString => parse_string | OUnits => parse_string_units end in
        do* consume_whitespace ;;
        let* stop := gets eof in
        if (stop : bool) then error EofWhileParsingObject
        else
          let* p := gets peek in
          if negb (p =? 0x3a) then error ExpectedColon
          else
            do* take ;;
            do* consume_whitespace ;;
            ret (Some key).

Definition next_object_key (first : bool) : RM (option (list Z)) := read_object_key OString first.
Definition next_object_key_units (first : bool) : RM (option (list Z)) := read_object_key OUnits first.

Definition finish : RM unit :=
  do* consume_whitespace ;;
  let* stop := gets eof in
  if negb stop then error TrailingCharacters else ret tt.

(** [skip_value] and its two container loops.  A value takes at least one
    unit and a container its bracket, so [2 * left_units + 2] calls nest at
    most. *)
Section Skip.
Context `{DecimalConversion}.

Fixpoint skip_value (fuel : nat) : RM unit :=
  match fuel with
  | O => out_of_fuel
  | S fuel =>
    let* kind := value_kind in
    match kind with
    | KNull => parse_null
    | KBoolean => do* parse_bool ;; ret tt
    | KNumber => do* parse_number ;; ret tt
    | KString => do* parse_string ;; ret tt
    | KArray => do* begin_array ;; skip_elements fuel true
    | KObject => do* begin_object ;; skip_members fuel true
    end
  end
with skip_elements (fuel : nat) (first : bool) : RM unit :=
  match fuel with
  | O => out_of_fuel
  | S fuel =>
    let* next := next_array first in
    if negb next then ret tt
    else do* skip_value fuel ;; skip_elements fuel false
  end
with skip_members (fuel : nat) (first : bool) : RM unit :=
  match fuel with
  | O => out_of_fuel
  | S fuel =>
    let* key := next_object_key first in
    match key with
    | None => ret tt
    | Some _ => do* skip_value fuel ;; skip_members fuel false
    end
  end.
End Skip.
