(* ===== verification/JsonParser.v ===== *)
(** * The JSON document parser

    Models [src/json/src/parser.cpp]: the class [Parser] that builds values
    with the pull reader, and the entry points [from_str] and [from_slice]. *)

From Stdlib Require Import ZArith Lia ZifyBool.
From S2P Require Import Prelude Int Utf8 Str Cursor OrdMap FloatSpec Json JsonReader.
Local Open Scope Z_scope.
Local Open Scope rstd_scope.

Section Parser.
Context `{DecimalConversion}.

(** [parse_value], with the loops of [parse_array] and [parse_object]. *)
Fixpoint parse_value (fuel : nat) : RM Value :=
  match fuel with
  | O => out_of_fuel
  | S fuel =>
    let* kind := value_kind in
    match kind with
    | KNull => do* parse_null ;; ret VNull
    | KBoolean => let* b := parse_bool in ret (VBool b)
    | KNumber => let* n := parse_number in ret (VNumber n)
    | KString => let* s := parse_string in ret (VString s)
    | KArray => do* begin_array ;; parse_elements fuel true []
    | KObject => do* begin_object ;; parse_members fuel true []
    end
  end
with parse_elements (fuel : nat) (first : bool) (values : list Value) : RM Value :=
  match fuel with
  | O => out_of_fuel
  | S fuel =>
    let* next := next_array first in
    if negb next then ret (VArray values)
    else
      let* value := parse_value fuel in
      parse_elements fuel false (values ++ [value])
  end
with parse_members (fuel : nat) (first : bool) (values : omap (list Z) Value) : RM Value :=
  match fuel with
  | O => out_of_fuel
  | S fuel =>
    let* key := next_object_key first in
    match key with
    | None => ret (VObject values)
    | Some key =>
      let* value := parse_value fuel in
      let '(previous, values) := map_insert key value values in
      let* reject := gets (fun r => reject_duplicate_keys (options_ r)) in
      if (reject : bool) && bool_decide (is_Some previous)
      then error DuplicateObjectKey
      else parse_members fuel false values
    end
  end.

Definition value_fuel (r : Reader) : nat := (2 * left_units r + 2)%nat.

(** [read_value] *)
Definition read_value : RM Value := let* fuel := gets value_fuel in parse_value fuel.

Definition skip : RM unit := let* fuel := gets value_fuel in skip_value fuel.

Definition parse : RM Value :=
  let* value := read_value in
  do* finish ;;
  ret value.

Definition from_str (text : list Z) (options : ParseOptions) : outcome Error Value :=
  fst (parse (reader_utf8 text options)).

Definition invalid_unicode_error (text : list Z) (offset : nat) : outcome Error Value :=
  match source_position_at (cursor_new 0 (MkInput text false) false) offset with
  | Ret location => Fail (MkError InvalidUnicodeCodePoint (line location) (column location) offset)
  | _ => Panic
  end.

Definition from_slice (bytes : list Z) (options : ParseOptions) : outcome Error Value :=
  match from_utf8 bytes with
  | Err e => invalid_unicode_error bytes (valid_up_to e)
  | Ok text => from_str text options
  end.
End Parser.
