(* ===== verification/JsonGrammar.v ===== *)
(** * The JSON grammar

    A declarative grammar (RFC 8259, with the reader's optional comments) that
    says which texts denote which values, independently of how the reader
    scans them.  The correctness theorems relate the parser to it. *)

From Stdlib Require Import ZArith Lia ZifyBool.
From stdpp Require Import base list.
From S2P Require Import Prelude Int Utf8 OrdMap FmtInteger FloatSpec Json JsonReader.
Local Open Scope Z_scope.

(** ** Whitespace and comments

    [ws comments w s]: [w] is insignificant when [s] follows.  A line comment
    extends to the next LF or to the end of the input, a block comment to the
    first closing mark. *)
Inductive ws (comments : bool) : list Z -> list Z -> Prop :=
| ws_nil s : ws comments [] s
| ws_char v w s : is_whitespace v = true -> ws comments w s -> ws comments (v :: w) s
| ws_line body w s :
    comments = true -> Forall (fun v => v <> 0x0a) body ->
    (w ++ s = [] \/ exists u, w ++ s = 0x0a :: u) ->
    ws comments w s -> ws comments (0x2f :: 0x2f :: body ++ w) s
| ws_block body w s :
    comments = true ->
    (forall a b, body ++ [0x2a] <> a ++ 0x2a :: 0x2f :: b) ->
    ws comments w s -> ws comments (0x2f :: 0x2a :: body ++ 0x2a :: 0x2f :: w) s.

(** ** Numbers *)

Record number_text := NumberText
  { nt_negative : bool;
    nt_integer : list Z;
    nt_fraction : option (list Z);
    nt_exponent : option (list Z * option bool * list Z) }.

(** [-]? int [. digits]? ([eE] [+-]? digits)?; the exponent keeps the mark,
    the optional sign and the digits. *)
Definition number_units (n : number_text) : list Z :=
  (if nt_negative n then [0x2d] else []) ++ nt_integer n ++
  match nt_fraction n with None => [] | Some f => 0x2e :: f end ++
  match nt_exponent n with
  | None => []
  | Some (mark, sign, ds) =>
    mark ++ match sign with None => [] | Some true => [0x2d] | Some false => [0x2b] end ++ ds
  end.

Definition dec_digits (s : list Z) : Prop := Forall (fun c => is_dec c = true) s.

Definition number_wf (n : number_text) : Prop :=
  (nt_integer n = [0x30] \/
   exists c ds, nt_integer n = c :: ds /\ 0x31 <= c <= 0x39 /\ dec_digits ds) /\
  (match nt_fraction n with None => True | Some f => f <> [] /\ dec_digits f end) /\
  match nt_exponent n with
  | None => True
  | Some (mark, _, ds) => (mark = [0x65] \/ mark = [0x45]) /\ ds <> [] /\ dec_digits ds
  end.

(** Exponents beyond [i32::MAX] are clamped. *)
Definition exponent_value (n : number_text) : Z :=
  match nt_exponent n with
  | None => 0
  | Some (_, sign, ds) =>
    let e := Z.min (MAX i32) (digits_value 0 ds) in
    match sign with Some true => - e | _ => e end
  end.

Definition nt_floating (n : number_text) : bool :=
  match nt_fraction n, nt_exponent n with None, None => false | _, _ => true end.

Section Grammar.
Context `{DecimalConversion} (options : ParseOptions).

Definition float_value (n : number_text) : option Number :=
  match to_f64 (MkDecimal (nt_integer n) (default [] (nt_fraction n)) (exponent_value n)
                  (nt_negative n)) with
  | Ret bits => from_f64 bits
  | _ => None
  end.

(** The value of a number: integers exactly when they fit [u64] or are
    negative and fit [i64]; minus zero, fractions, exponents and (unless
    refused) larger integers as floats. *)
Definition number_value (n : number_text) : option Number :=
  let m := digits_value 0 (nt_integer n) in
  let large := if reject_integer_overflow options then None else float_value n in
  if nt_floating n then float_value n
  else if nt_negative n then
    if m =? 0 then float_value n
    else if m <=? 2 ^ 63 then Some (NSigned (- m)) else large
  else if m <=? MAX u64 then Some (NUnsigned m) else large.

(** ** Values

    [jstring body out]: the units between the quotes denote [out].
    [gvalue d t v s]: [t] denotes [v] when [s] follows, with [d] the
    remaining nesting budget.  [gelems d first t vs s]: [t], up to and with
    the closing bracket, denotes the elements [vs]; [first] when no element
    precedes.  [gmembers] likewise for the members of an object. *)
Context (jstring : list Z -> list Z -> Prop).

Definition build_object (kvs : list (list Z * Value)) : omap (list Z) Value :=
  foldl (fun m kv => snd (map_insert (fst kv) (snd kv) m)) [] kvs.

Definition keys_ok (kvs : list (list Z * Value)) : Prop :=
  reject_duplicate_keys options = true -> NoDup (map fst kvs).

Inductive gvalue : Z -> list Z -> Value -> list Z -> Prop :=
| g_null d s : gvalue d lit_null VNull s
| g_true d s : gvalue d lit_true (VBool true) s
| g_false d s : gvalue d lit_false (VBool false) s
| g_number d n v s :
    number_wf n -> number_value n = Some v -> gvalue d (number_units n) (VNumber v) s
| g_string d body out s : jstring body out -> gvalue d (0x22 :: body ++ [0x22]) (VString out) s
| g_array d t vs s : 1 < d -> gelems (d - 1) true t vs s -> gvalue d (0x5b :: t) (VArray vs) s
| g_object d t kvs s :
    1 < d -> gmembers (d - 1) true t kvs s -> keys_ok kvs ->
    gvalue d (0x7b :: t) (VObject (build_object kvs)) s
with gelems : Z -> bool -> list Z -> list Value -> list Z -> Prop :=
| ge_end d first w s : ws (allow_comments options) w (0x5d :: s) -> gelems d first (w ++ [0x5d]) [] s
| ge_first d w t v t' vs s :
    ws (allow_comments options) w (t ++ t' ++ s) -> gvalue d t v (t' ++ s) ->
    gelems d false t' vs s -> gelems d true (w ++ t ++ t') (v :: vs) s
| ge_next d w w' t v t' vs s :
    ws (allow_comments options) w (0x2c :: w' ++ t ++ t' ++ s) ->
    ws (allow_comments options) w' (t ++ t' ++ s) -> gvalue d t v (t' ++ s) ->
    gelems d false t' vs s -> gelems d false (w ++ 0x2c :: w' ++ t ++ t') (v :: vs) s
with gmembers : Z -> bool -> list Z -> list (list Z * Value) -> list Z -> Prop :=
| gm_end d first w s : ws (allow_comments options) w (0x7d :: s) -> gmembers d first (w ++ [0x7d]) [] s
| gm_first d w t k v t' kvs s :
    ws (allow_comments options) w (t ++ t' ++ s) -> gmember d t k v (t' ++ s) ->
    gmembers d false t' kvs s -> gmembers d true (w ++ t ++ t') ((k, v) :: kvs) s
| gm_next d w w' t k v t' kvs s :
    ws (allow_comments options) w (0x2c :: w' ++ t ++ t' ++ s) ->
    ws (allow_comments options) w' (t ++ t' ++ s) -> gmember d t k v (t' ++ s) ->
    gmembers d false t' kvs s -> gmembers d false (w ++ 0x2c :: w' ++ t ++ t') ((k, v) :: kvs) s
with gmember : Z -> list Z -> list Z -> Value -> list Z -> Prop :=
| gm_member d body k w1 w2 t v s :
    jstring body k ->
    ws (allow_comments options) w1 (0x3a :: w2 ++ t ++ s) ->
    ws (allow_comments options) w2 (t ++ s) -> gvalue d t v s ->
    gmember d ((0x22 :: body ++ [0x22]) ++ w1 ++ 0x3a :: w2 ++ t) k v s.

(** A document: one value between insignificant units. *)
Inductive gdocument : list Z -> Value -> Prop :=
| g_document w t v w' :
    ws (allow_comments options) w (t ++ w') -> gvalue (max_depth options) t v w' ->
    ws (allow_comments options) w' [] -> gdocument (w ++ t ++ w') v.
End Grammar.

Scheme gvalue_mut := Minimality for gvalue Sort Prop
  with gelems_mut := Minimality for gelems Sort Prop
  with gmembers_mut := Minimality for gmembers Sort Prop
  with gmember_mut := Minimality for gmember Sort Prop.

(** ** Strings over UTF-8

    Plain bytes stand for themselves, escapes for the encoding of a
    character. *)
Definition hex_value (c : Z) : option Z := if c <=? MAX u8 then digit_value c 16 else None.

Inductive hex4 : list Z -> Z -> Prop :=
| hex4_intro a b c d x y z w :
    hex_value a = Some x -> hex_value b = Some y -> hex_value c = Some z -> hex_value d = Some w ->
    hex4 [a; b; c; d] (x * 4096 + y * 256 + z * 16 + w).

Inductive jchars : list Z -> list Z -> Prop :=
| jc_nil : jchars [] []
| jc_plain v t out : is_plain v = true -> jchars t out -> jchars (v :: t) (v :: out)
| jc_escape e c t out :
    escape_char e = Some c -> jchars t out -> jchars (0x5c :: e :: t) (encode_utf8 c ++ out)
| jc_unicode h cp t out :
    hex4 h cp -> is_high_surrogate cp = false -> is_low_surrogate cp = false ->
    jchars t out -> jchars (0x5c :: 0x75 :: h ++ t) (encode_utf8 cp ++ out)
| jc_pair h1 high h2 low t out :
    hex4 h1 high -> hex4 h2 low -> is_high_surrogate high = true -> is_low_surrogate low = true ->
    jchars t out ->
    jchars (0x5c :: 0x75 :: h1 ++ 0x5c :: 0x75 :: h2 ++ t)
      (encode_utf8 ((high - 0xd800) * 1024 + (low - 0xdc00) + 0x10000) ++ out).

(** ** JSON texts

    What the writers of JSON share: digits as the reader sees them, control
    characters, and texts that are built byte by byte. *)

Lemma decimal_digit c : is_hex_digit c = true -> 0 <= FmtInteger.hex_value c < 10 -> is_dec c = true /\ FmtInteger.hex_value c = c - 48.
Proof. unfold is_hex_digit, is_digit, FmtInteger.hex_value, is_dec. intros. repeat case_if; lia. Qed.

Lemma numeral_dec ds : is_numeral 10 ds -> dec_digits ds.
Proof. induction 1 as [|c ds [H1 H2] _ IH]; constructor; [by apply decimal_digit | done]. Qed.

Lemma numeral_digits_value ds : is_numeral 10 ds -> forall acc,
  digits_value acc ds = foldl (fun acc d => acc * 10 + FmtInteger.hex_value d) acc ds.
Proof.
  induction 1 as [|c ds [H1 H2] _ IH]; intros acc; [done|]. cbn [digits_value foldl].
  destruct (decimal_digit c H1 H2) as [_ ->]. by rewrite IH.
Qed.

Lemma control_encode c : 0 <= c < 32 -> encode_utf8 c = [c].
Proof.
  intros Hc. assert (forallb (fun c => bool_decide (encode_utf8 c = [c])) (seqZ 0 32) = true) as Hf by (by vm_compute).
  rewrite forallb_forall in Hf. specialize (Hf c). rewrite <- list_elem_of_In, elem_of_seqZ in Hf.
  apply (bool_decide_eq_true_1 _ (Hf ltac:(lia))).
Qed.

Lemma below_list_max {A} (f : A -> nat) l x : x ∈ l -> (f x <= list_max (map f l))%nat.
Proof.
  intros Hx. pose proof (list_max_le (map f l) (list_max (map f l))) as [Hl _]. specialize (Hl (le_n _)).
  rewrite Forall_map, list.Forall_forall in Hl. by apply Hl.
Qed.

(** A map of bytes to texts that leaves the bytes above ASCII alone keeps
    texts. *)
Lemma concat_map_text (f : Z -> list Z) s :
  (forall c, 0 <= c < 128 -> is_text (f c)) -> (forall c, 128 <= c -> f c = [c]) -> is_text s -> is_text (concat (map f s)).
Proof.
  intros Hlow Hhigh (cs & Hcs & ->). induction Hcs as [|c cs [Hs Hc] _ IH]; [apply is_text_nil|].
  cbn [map concat]. rewrite map_app, concat_app. apply is_text_app; [|done].
  pose proof (encode_seq c Hc Hs) as Hq. destruct (Z.lt_ge_cases c 128) as [Hl|Hl].
  - assert (encode_utf8 c = [c]) as -> by (inversion Hq; subst; (done || lia)).
    cbn. rewrite app_nil_r. apply Hlow. lia.
  - assert (concat (map f (encode_utf8 c)) = encode_utf8 c) as ->.
    { assert (Forall (fun b => 128 <= b) (encode_utf8 c)) as Hb
        by (destruct Hq; [lia|repeat (constructor; [lia|]); constructor..]).
      clear Hq. induction Hb as [|b bs Hb _ IHb]; [done|]. cbn [map concat]. by rewrite IHb, Hhigh. }
    rewrite <- (app_nil_r (encode_utf8 c)). apply (is_text_seq c); [done | apply is_text_nil].
Qed.
