(* ===== verification/JsonRun.v ===== *)
(** * Reasoning about the JSON reader

    A weakest-precondition predicate for the reader's monad that excludes
    panics and exhausted fuel and locates errors, and the specification of
    every scanning operation in terms of the units it consumes. *)

From Stdlib Require Import ZArith Lia ZifyBool.
From S2P Require Import Prelude Int Utf8 Str Cursor OrdMap FloatSpec Json JsonReader JsonGrammar.
Local Open Scope Z_scope.
Local Open Scope rstd_scope.

(** ** Reader states *)

Definition rest (r : Reader) : list Z := remaining_input (active r).

Definition step (n : nat) (r : Reader) : Reader := with_active r (adv n (active r)).

(** [goes r t d r']: from [r], consuming [t] leads to [r'], with depth [d]. *)
Definition goes (r : Reader) (t : list Z) (d : Z) (r' : Reader) : Prop :=
  rest r = t ++ rest r' /\ r' = with_depth (step (length t) r) d.

Definition reads (r : Reader) (t : list Z) (r' : Reader) : Prop := goes r t (remaining_depth_ r) r'.

Definition units_ok (s : list Z) : Prop := Forall (fun u => 0 <= u < 2 ^ 16) s.

(** The selected cursor is untracked and in bounds. *)
Definition inv0 (r : Reader) : Prop := tracking_ (active r) = None /\ in_bounds (active r).

(** The reader is between characters: in UTF-8 mode both the input and what is
    left of it are text. *)
Definition inv (r : Reader) : Prop :=
  inv0 r /\ units_ok (input (active r)) /\
  (utf16_ r = false -> validated (input_ (active r)) = true /\ is_text (input (active r)) /\ is_text (rest r)).

(** [lo] bounds the error offsets from below, [hi] is the input's length. *)
Definition ok (lo hi : nat) (r : Reader) : Prop :=
  inv r /\ (lo <= position r)%nat /\ len (active r) = hi.

Lemma active_step n r : active (step n r) = adv n (active r).
Proof. unfold step, with_active, active. by destruct (utf16_ r) eqn:E; cbn; rewrite ?E. Qed.

Lemma active_with_depth r d : active (with_depth r d) = active r.
Proof. done. Qed.

Lemma utf16_step n r : utf16_ (step n r) = utf16_ r.
Proof. unfold step, with_active. by destruct (utf16_ r) eqn:E. Qed.

Lemma options_step n r : options_ (step n r) = options_ r.
Proof. unfold step, with_active. by destruct (utf16_ r). Qed.

Lemma depth_step n r : remaining_depth_ (step n r) = remaining_depth_ r.
Proof. unfold step, with_active. by destruct (utf16_ r). Qed.

Lemma with_depth_same r : with_depth r (remaining_depth_ r) = r.
Proof. by destruct r. Qed.

Lemma with_depth_twice r d d' : with_depth (with_depth r d) d' = with_depth r d'.
Proof. done. Qed.

Lemma rest_step n r : rest (step n r) = drop n (rest r).
Proof. unfold rest. rewrite active_step. apply remaining_input_adv. Qed.

Lemma rest_with_depth r d : rest (with_depth r d) = rest r.
Proof. done. Qed.

Lemma step_with_depth n r d : step n (with_depth r d) = with_depth (step n r) d.
Proof.
  unfold step, with_active. change (active (with_depth r d)) with (active r).
  change (utf16_ (with_depth r d)) with (utf16_ r). by destruct (utf16_ r) eqn:E.
Qed.

Lemma position_step n r : position (step n r) = (position r + n)%nat.
Proof. unfold position. by rewrite active_step. Qed.

Lemma len_step n r : len (active (step n r)) = len (active r).
Proof. by rewrite active_step. Qed.

Lemma step_0 r : step 0 r = r.
Proof. unfold step. rewrite adv_0. destruct r as [c u [] d o]; done. Qed.

Lemma rest_length r : length (rest r) = left_units r.
Proof. apply remaining_length. Qed.

Lemma step_step m n r :
  (n + m <= length (rest r))%nat -> step m (step n r) = step (n + m) r.
Proof.
  intros Hn. rewrite rest_length in Hn. unfold left_units, remaining in Hn.
  destruct (decide (n + m = 0)%nat) as [E|E].
  { assert (n = 0 /\ m = 0)%nat as [-> ->] by lia. by rewrite !step_0. }
  assert (adv m (adv n (active r)) = adv (n + m) (active r)) as Ha by (apply adv_adv; lia).
  revert Ha. unfold step, with_active, active. destruct r as [c u [] d o]; cbn; congruence.
Qed.

(** *** [goes] *)

Lemma goes_nil r : goes r [] (remaining_depth_ r) r.
Proof. split; [done|]. cbn. by rewrite step_0, with_depth_same. Qed.

Lemma reads_nil r : reads r [] r.
Proof. apply goes_nil. Qed.

Lemma goes_app r t d r1 t' d' r2 :
  goes r t d r1 -> goes r1 t' d' r2 -> goes r (t ++ t') d' r2.
Proof.
  intros [E1 ->] [E2 ->]. split; [by rewrite <- app_assoc, <- E2|].
  rewrite step_with_depth, with_depth_twice, length_app, step_step; [done|].
  rewrite E1, length_app. rewrite rest_with_depth in E2. rewrite rest_with_depth, E2, length_app. lia.
Qed.

Lemma goes_depth r t d r' : goes r t d r' -> remaining_depth_ r' = d.
Proof. by intros [_ ->]. Qed.

Lemma goes_options r t d r' : goes r t d r' -> options_ r' = options_ r.
Proof. intros [_ ->]. cbn. apply options_step. Qed.

Lemma goes_utf16 r t d r' : goes r t d r' -> utf16_ r' = utf16_ r.
Proof. intros [_ ->]. cbn. apply utf16_step. Qed.

Lemma reads_app r t r1 t' d r2 : reads r t r1 -> goes r1 t' d r2 -> goes r (t ++ t') d r2.
Proof. apply goes_app. Qed.

Lemma reads_reads r t r1 t' r2 : reads r t r1 -> reads r1 t' r2 -> reads r (t ++ t') r2.
Proof.
  intros H1 H2. unfold reads in *. rewrite (goes_depth _ _ _ _ H1) in H2. by eapply goes_app.
Qed.

Lemma reads_depth r t r' : reads r t r' -> remaining_depth_ r' = remaining_depth_ r.
Proof. apply goes_depth. Qed.

Lemma goes_position r t d r' : goes r t d r' -> position r' = (position r + length t)%nat.
Proof. intros [_ ->]. apply position_step. Qed.

Lemma goes_input r t d r' : goes r t d r' -> input_ (active r') = input_ (active r).
Proof. intros [_ ->]. rewrite active_with_depth, active_step. done. Qed.

Lemma goes_left r t d r' : goes r t d r' -> (left_units r = length t + left_units r')%nat.
Proof. intros [E _]. by rewrite <- !rest_length, E, length_app. Qed.

Lemma reads_unit r v l : rest r = v :: l -> reads r [v] (step 1 r) /\ rest (step 1 r) = l.
Proof.
  intros E. assert (rest (step 1 r) = l) as El by (by rewrite rest_step, E). split; [|done].
  split; [by rewrite El | by rewrite <- (depth_step 1 r), with_depth_same].
Qed.

Lemma inv0_goes r t d r' : inv0 r -> goes r t d r' -> inv0 r'.
Proof.
  intros [Ht Hb] [E ->]. unfold inv0. rewrite active_with_depth, active_step in *.
  cbn [adv tracking_]. rewrite Ht. split; [done|]. unfold in_bounds in *. cbn [adv position_].
  apply (f_equal length) in E. rewrite length_app, !rest_length in E.
  change (len (adv (length t) (active r))) with (len (active r)).
  unfold left_units, remaining in E. rewrite active_with_depth, active_step in E.
  change (len (adv (length t) (active r))) with (len (active r)) in E. cbn [adv position_] in E. lia.
Qed.

Lemma inv_inv0 r : inv r -> inv0 r.
Proof. by intros [? _]. Qed.

Lemma ok_inv0 lo hi r : ok lo hi r -> inv0 r.
Proof. by intros [[? _] _]. Qed.

#[local] Hint Resolve inv_inv0 ok_inv0 : rstd.

Lemma inv_goes r t d r' :
  inv r -> goes r t d r' -> (utf16_ r = false -> is_text (rest r')) -> inv r'.
Proof.
  intros (H0 & Hu & H8) Hg Htext. split; [by eapply inv0_goes|].
  unfold input. rewrite (goes_input _ _ _ _ Hg), (goes_utf16 _ _ _ _ Hg). split; [done|].
  intros Hm. destruct (H8 Hm) as (? & ? & ?). split_and!; try done. by apply Htext.
Qed.

Lemma ok_goes lo hi r t d r' :
  ok lo hi r -> goes r t d r' -> (utf16_ r = false -> is_text (rest r')) -> ok lo hi r'.
Proof.
  intros (Hi & Hl & Hh) Hg Ht. split; [by eapply inv_goes|].
  rewrite (goes_position _ _ _ _ Hg). split; [lia|].
  unfold len, input in *. by rewrite (goes_input _ _ _ _ Hg).
Qed.

Lemma inv_text r : inv r -> utf16_ r = false -> is_text (rest r).
Proof. intros (_ & _ & H) Hu. by apply H. Qed.

(** Consuming text leaves text. *)
Lemma ok_goes_text lo hi r t d r' : ok lo hi r -> goes r t d r' -> is_text t -> ok lo hi r'.
Proof.
  intros Ho Hg Ht. eapply ok_goes; [done..|]. intros Hu. apply (is_text_app_inv t); [done|].
  destruct Hg as [E _]. rewrite <- E. apply inv_text; [apply Ho | done].
Qed.

(** ** Observations *)

Lemma eof_rest r : inv0 r -> eof r = true <-> rest r = [].
Proof.
  intros [_ Hb]. unfold eof, is_eof, rest. unfold in_bounds in Hb. rewrite Nat.eqb_eq.
  split.
  - intros E. apply nil_length_inv. rewrite remaining_length. unfold remaining. lia.
  - intros E. apply (f_equal length) in E. rewrite remaining_length in E. unfold remaining in E.
    cbn in E. lia.
Qed.

Lemma eof_false r v l : inv0 r -> rest r = v :: l -> eof r = false.
Proof. intros Hi E. destruct (eof r) eqn:He; [|done]. apply eof_rest in He; [congruence | done]. Qed.

Lemma eof_cases r : inv0 r -> (eof r = true /\ rest r = []) \/ (eof r = false /\ exists v l, rest r = v :: l).
Proof.
  intros Hi. destruct (rest r) as [|v l] eqn:E.
  - left. split; [by apply eof_rest | done].
  - right. split; [by eapply eof_false | by exists v, l].
Qed.

Lemma peek_at_rest r n : peek_at r n = default 0 (rest r !! n).
Proof.
  unfold peek_at, Cursor.peek, rest, remaining_input. rewrite lookup_drop.
  destruct (remaining (active r) <=? n)%nat eqn:E; [|done]. apply Nat.leb_le in E.
  unfold remaining in E. rewrite lookup_ge_None_2; [done|]. unfold len in E. lia.
Qed.

Lemma peek_rest r v l : rest r = v :: l -> peek r = v.
Proof. intros E. unfold peek. by rewrite peek_at_rest, E. Qed.

Lemma take_rest r v l : rest r = v :: l -> take r = (Ret v, step 1 r).
Proof. intros E. unfold take. destruct (take_unit_cons (active r) v l E) as [-> _]. done. Qed.

Lemma untracked_column s n : (1 <= column (untracked_position s n))%nat.
Proof.
  unfold untracked_position. assert (forall l p, (1 <= column p)%nat -> (1 <= column (foldl untracked_unit p l))%nat) as Hgen.
  { induction l as [|v l IH]; intros p Hp; cbn [foldl]; [done|]. apply IH. unfold untracked_unit.
    case_if; cbn; lia. }
  apply Hgen. cbn. lia.
Qed.

Lemma source_position_inv r :
  inv0 r -> source_position (active r) = Ret (untracked_position (input (active r)) (position r)).
Proof.
  intros [Ht Hb]. unfold source_position, source_position_at. rewrite Ht.
  unfold in_bounds in Hb. by replace (_ <? _)%nat with false by (symmetry; apply Nat.ltb_ge; lia).
Qed.

(** ** Weakest preconditions *)

Definition located (lo hi : nat) (e : Error) : Prop := (lo <= offset_ e <= hi)%nat.

Definition wp {A} (lo hi : nat) (m : RM A) (r : Reader) (Q : A -> Reader -> Prop) : Prop :=
  match m r with
  | (Ret a, r') => Q a r'
  | (Fail e, _) => located lo hi e
  | (Panic, _) => False
  | (OutOfFuel, _) => False
  end.

Section Wp.
Context (lo hi : nat).

Lemma wp_ret {A} (a : A) r Q : Q a r -> wp lo hi (ret a) r Q.
Proof. done. Qed.

Lemma wp_bind {A B} (m : RM A) (k : A -> RM B) r Q :
  wp lo hi m r (fun a r' => wp lo hi (k a) r' Q) -> wp lo hi (bind m k) r Q.
Proof. unfold wp, bind. by destruct (m r) as [[]?]. Qed.

Lemma wp_gets {A B} (f : Reader -> A) (k : A -> RM B) r Q :
  wp lo hi (k (f r)) r Q -> wp lo hi (bind (gets f) k) r Q.
Proof. done. Qed.

Lemma wp_option {A B} (o : option A) a (k : A -> RM B) r Q :
  o = Some a -> wp lo hi (k a) r Q -> wp lo hi (bind (of_option o) k) r Q.
Proof. by intros ->. Qed.

Lemma wp_conseq {A} (m : RM A) r (Q Q' : A -> Reader -> Prop) :
  (forall a r', Q a r' -> Q' a r') -> wp lo hi m r Q -> wp lo hi m r Q'.
Proof. unfold wp. destruct (m r) as [[]?]; auto. Qed.

Lemma wp_call {A B} (m : RM A) (k : A -> RM B) r (Q : A -> Reader -> Prop) Q' :
  wp lo hi m r Q -> (forall a r', Q a r' -> wp lo hi (k a) r' Q') -> wp lo hi (bind m k) r Q'.
Proof. intros Hm Hk. apply wp_bind. eapply wp_conseq; [|exact Hm]. exact Hk. Qed.

Lemma wp_error {A} code r (Q : A -> Reader -> Prop) : ok lo hi r -> wp lo hi (error code) r Q.
Proof.
  intros (Hi & Hl & Hh). unfold wp, error. rewrite source_position_inv by eauto with rstd.
  pose proof (untracked_column (input (active r)) (position r)).
  replace (_ =? 0)%nat with false by (symmetry; apply Nat.eqb_neq; lia). rewrite andb_false_r.
  unfold located. cbn. destruct Hi as [[_ Hb] _]. unfold in_bounds in Hb. unfold position in *. lia.
Qed.

Lemma wp_error_after {A} code r (Q : A -> Reader -> Prop) :
  inv0 r -> (lo < position r)%nat -> len (active r) = hi -> wp lo hi (error_after_consumed code) r Q.
Proof.
  intros Hi Hl Hh. unfold wp, error_after_consumed. rewrite source_position_inv by done.
  pose proof (untracked_column (input (active r)) (position r)).
  replace (_ =? 0)%nat with false by (symmetry; apply Nat.eqb_neq; lia).
  replace (_ =? 0)%nat with false by (symmetry; apply Nat.eqb_neq; lia).
  unfold located. cbn. destruct Hi as [_ Hb]. unfold in_bounds in Hb. unfold position in *. lia.
Qed.

Lemma wp_take {B} (k : Z -> RM B) r v l Q :
  rest r = v :: l -> wp lo hi (k v) (step 1 r) Q -> wp lo hi (bind take k) r Q.
Proof. intros E Hk. apply wp_bind. unfold wp. by rewrite (take_rest r v l E). Qed.
End Wp.

Lemma wp_weaken {A} lo lo' hi (m : RM A) r Q :
  (lo' <= lo)%nat -> wp lo hi m r Q -> wp lo' hi m r Q.
Proof. unfold wp, located. destruct (m r) as [[]?]; try done. lia. Qed.

(** ** Scanning loops *)

(** Where a run of units that pass [test] ends. *)
Definition run_ends (test : Z -> bool) (s : list Z) : Prop :=
  match s with [] => True | v :: _ => test v = false end.

Lemma take_while_spec test fuel r :
  inv0 r -> (left_units r < fuel)%nat ->
  exists t r', take_while fuel test r = (Ret tt, r') /\ reads r t r' /\
    Forall (fun v => test v = true) t /\ run_ends test (rest r').
Proof.
  revert r. induction fuel as [|fuel IH]; intros r Hi Hf; [lia|].
  cbn [take_while]. unfold bind at 1, gets.
  destruct (eof_cases r Hi) as [[-> E]|[-> (v & l & E)]]; cbn [negb andb].
  { exists [], r. split_and!; [done | apply reads_nil | constructor | by rewrite E]. }
  rewrite (peek_rest r v l E). destruct (test v) eqn:Ev.
  2:{ exists [], r. split_and!; [done | apply reads_nil | constructor | by rewrite E]. }
  unfold bind. rewrite (take_rest r v l E). destruct (reads_unit r v l E) as [Hr El].
  destruct (IH (step 1 r)) as (t & r' & Ht & Hr' & Hall & Hend).
  { by eapply inv0_goes. }
  { pose proof (goes_left _ _ _ _ Hr). cbn in *. lia. }
  exists (v :: t), r'. split_and!; [done | by apply (reads_reads _ [v] _ _ _ Hr Hr') | by constructor | done].
Qed.

Lemma skip_units_spec test r :
  inv0 r -> exists t r', skip_units test r = (Ret tt, r') /\ reads r t r' /\
    Forall (fun v => test v = true) t /\ run_ends test (rest r').
Proof. intros Hi. unfold skip_units, bind, gets. apply take_while_spec; [done | lia]. Qed.

Lemma block_comment_spec fuel r :
  inv0 r -> (left_units r < fuel)%nat ->
  exists t r' closed, block_comment fuel r = (Ret closed, r') /\ reads r t r' /\
    if (closed : bool)
    then exists body, t = body ++ [0x2a; 0x2f] /\ forall a b, body ++ [0x2a] <> a ++ 0x2a :: 0x2f :: b
    else rest r' = [] /\ forall a b, t <> a ++ 0x2a :: 0x2f :: b.
Proof.
  revert r. induction fuel as [|fuel IH]; intros r Hi Hf; [lia|].
  cbn [block_comment]. unfold bind at 1, gets.
  destruct (eof_cases r Hi) as [[-> E]|[-> (v & l & E)]].
  { exists [], r, false. split_and!; [done | apply reads_nil | done |]. by intros [|??] ?. }
  unfold bind at 1. rewrite (peek_rest r v l E), peek_at_rest, E.
  destruct (reads_unit r v l E) as [Hr El].
  destruct ((v =? 0x2a) && (default 0 ((v :: l) !! 1%nat) =? 0x2f)) eqn:Ec.
  - apply andb_true_iff in Ec as [Hv Hn]. destruct l as [|v' l]; [done|]. cbn in Hn.
    unfold bind. rewrite (take_rest r v (v' :: l) E), (take_rest (step 1 r) v' l El).
    destruct (reads_unit (step 1 r) v' l El) as [Hr' _].
    exists [v; v'], (step 1 (step 1 r)), true.
    split_and!; [done | apply (reads_reads _ [v] _ [v'] _ Hr Hr') |].
    exists []. split; [cbn; repeat f_equal; lia|]. by intros [|?[|??]] ?.
  - destruct (IH (step 1 r)) as (t & r' & closed & Ht & Hr' & Hc).
    { by eapply inv0_goes. }
    { pose proof (goes_left _ _ _ _ Hr). cbn in *. lia. }
    exists (v :: t), r', closed.
    assert (t ++ rest r' = l) as Hl by (destruct Hr' as [Er' _]; congruence).
    split_and!.
    + unfold bind. by rewrite (take_rest r v l E).
    + by apply (reads_reads _ [v] _ _ _ Hr Hr').
    + rewrite <- Hl in Ec. destruct closed.
      * destruct Hc as (body & -> & Hno). exists (v :: body). split; [done|].
        intros [|a0 a] b Hab; cbn in Hab; [|by injection Hab as _ Hab%Hno].
        injection Hab as -> Hab.
        destruct body as [|x body]; cbn in Hab; [done|]. by injection Hab as -> _.
      * destruct Hc as [? Hno]. split; [done|].
        intros [|a0 a] b Hab; cbn in Hab; [|by injection Hab as _ Hab%Hno].
        by injection Hab as -> ->.
Qed.

(** Stopping before an ASCII unit or at the end is stopping between
    characters. *)
Definition ascii_stop (s : list Z) : Prop :=
  match s with [] => True | v :: _ => 0 <= v < 128 end.

Lemma ok_goes_stop lo hi r t d r' :
  ok lo hi r -> goes r t d r' -> ascii_stop (rest r') -> ok lo hi r'.
Proof.
  intros Ho Hg Hs. eapply ok_goes; [done..|]. intros Hu.
  destruct (rest r') as [|v l] eqn:E; [apply is_text_nil|].
  apply (text_ascii_split t); [|done]. destruct Hg as [Er _]. rewrite <- E, <- Er.
  apply inv_text; [apply Ho | done].
Qed.

Lemma ok_unit lo hi r v l : ok lo hi r -> rest r = v :: l -> 0 <= v < 128 -> ok lo hi (step 1 r).
Proof.
  intros Ho E Hv. destruct (reads_unit r v l E) as [Hr _].
  eapply ok_goes_text; [done..|]. apply text_ascii_cons; [done | apply is_text_nil].
Qed.

Lemma rest_units lo hi r v l : ok lo hi r -> rest r = v :: l -> 0 <= v < 2 ^ 16.
Proof.
  intros ((_ & Hu & _) & _) E. unfold units_ok in Hu. unfold rest, remaining_input in E.
  apply (Forall_drop _ (position_ (active r))) in Hu. rewrite E in Hu. by inversion Hu.
Qed.

(** Where whitespace ends: at the end of the input or before a unit that
    starts neither whitespace nor a comment. *)
Definition ws_stops (comments : bool) (s : list Z) : Prop :=
  match s with
  | [] => True
  | v :: l => is_whitespace v = false /\
      (comments = false \/ v <> 0x2f \/
       match l with [] => True | v' :: _ => v' <> 0x2f /\ v' <> 0x2a end)
  end.

Definition comments_of (r : Reader) : bool := allow_comments (options_ r).

(** What consuming whitespace establishes. *)
Definition ws_post (lo hi : nat) (r r' : Reader) : Prop :=
  exists w, reads r w r' /\ ws (comments_of r) w (rest r') /\ ws_stops (comments_of r) (rest r') /\
    ok lo hi r'.

Lemma comments_goes r t d r' : goes r t d r' -> comments_of r' = comments_of r.
Proof. intros H. unfold comments_of. by rewrite (goes_options _ _ _ _ H). Qed.

Lemma ws_post_step lo hi r t r1 r' :
  reads r t r1 -> (forall w s, ws (comments_of r) w s -> (rest r1 = w ++ s) -> ws (comments_of r) (t ++ w) s) ->
  ws_post lo hi r1 r' -> ws_post lo hi r r'.
Proof.
  intros Hr Hw (w & Hr1 & Hws & Hs & Ho). rewrite (comments_goes _ _ _ _ Hr) in *.
  exists (t ++ w). split_and!; [by eapply reads_reads | apply Hw; [done | apply Hr1] | done..].
Qed.

Lemma wp_whitespace_loop lo hi fuel r :
  ok lo hi r -> (left_units r < fuel)%nat ->
  wp lo hi (whitespace_loop fuel) r (fun _ r' => ws_post lo hi r r').
Proof.
  revert r. induction fuel as [|fuel IH]; intros r Ho Hf; [lia|].
  assert (forall t r1, reads r t r1 -> t <> [] -> ok lo hi r1 ->
    (forall w s, ws (comments_of r) w s -> rest r1 = w ++ s -> ws (comments_of r) (t ++ w) s) ->
    wp lo hi (whitespace_loop fuel) r1 (fun _ r' => ws_post lo hi r r')) as Hcont.
  { intros t r1 Hr Hne Ho1 Hw.
    apply (wp_conseq _ _ _ _ (fun _ r' => ws_post lo hi r1 r')); [|apply IH; [done|]].
    - intros _ r'. by apply ws_post_step with t.
    - pose proof (goes_left _ _ _ _ Hr). destruct t; [done|]. cbn in *. lia. }
  assert (forall v l, rest r = v :: l -> ws_stops (comments_of r) (v :: l) -> ws_post lo hi r r) as Hstop.
  { intros v l E Hs. exists []. rewrite E. split_and!; [apply reads_nil | constructor | done | done]. }
  cbn [whitespace_loop]. apply wp_gets.
  destruct (eof_cases r) as [[-> E]|[-> (v & l & E)]]; [eauto with rstd| |].
  { apply wp_ret. exists []. rewrite E. split_and!; [apply reads_nil | constructor | done | done]. }
  apply wp_gets. rewrite (peek_rest r v l E). destruct (reads_unit r v l E) as [Hr El].
  destruct (is_whitespace v) eqn:Hv.
  { apply (wp_take _ _ _ r v l _ E). apply (Hcont [v]); [done | done | |].
    - apply (ok_unit _ _ _ v l); [done..|]. unfold is_whitespace in Hv. lia.
    - intros w s Hw _. by apply ws_char. }
  apply wp_gets. change (allow_comments (options_ r)) with (comments_of r).
  destruct (comments_of r) eqn:Hc; cbn [negb orb].
  2:{ apply wp_ret, (Hstop v l E). split; [done | by left]. }
  destruct (v =? 0x2f) eqn:Hv'; cbn [negb].
  2:{ apply wp_ret, (Hstop v l E). split; [done|]. right. left. lia. }
  assert (v = 0x2f) as -> by lia. apply wp_gets. rewrite peek_at_rest, E.
  destruct l as [|v' l].
  { apply wp_ret, (Hstop _ _ E). split; [done|]. right. by right. }
  change (default 0 ((47 :: v' :: l) !! 1%nat)) with v'.
  assert (0x2f <> v' -> 0x2a <> v' -> ws_post lo hi r r) as Hother.
  { intros. apply (Hstop _ _ E). split; [done|]. right. right. lia. }
  destruct (reads_unit (step 1 r) v' l El) as [Hr1 El1].
  pose proof (reads_reads _ [_] _ [v'] _ Hr Hr1) as Hr2. cbn [app] in Hr2.
  destruct (v' =? 0x2f) eqn:E1; [|destruct (v' =? 0x2a) eqn:E2]; [| |apply wp_ret, Hother; lia].
  - apply (wp_take _ _ _ r _ _ _ E), (wp_take _ _ _ _ _ _ _ El).
    assert (v' = 0x2f) as -> by lia.
    destruct (skip_units_spec (fun v => negb (v =? 0x0a)) (step 1 (step 1 r))) as (t & r' & Et & Hr' & Hall & Hend).
    { eapply inv0_goes; [|exact Hr2]. eauto with rstd. }
    apply wp_bind. unfold wp at 1. rewrite Et.
    pose proof (reads_reads _ _ _ _ _ Hr2 Hr') as Hr3.
    apply (Hcont _ _ Hr3); [done | |].
    + eapply ok_goes_stop; [done | exact Hr3 |]. destruct (rest r'); cbn in *; [done | lia].
    + intros w s Hw Es. cbn [app]. apply ws_line; try done.
      * eapply Forall_impl; [|exact Hall]. cbn. lia.
      * destruct (rest r') as [|x u] eqn:Er'; [left; by rewrite <- Es | right; exists u]. rewrite <- Es.
        cbn in Hend. f_equal. lia.
  - apply (wp_take _ _ _ r _ _ _ E), (wp_take _ _ _ _ _ _ _ El), wp_gets.
    assert (v' = 0x2a) as -> by lia.
    destruct (block_comment_spec (S (left_units (step 1 (step 1 r)))) (step 1 (step 1 r)))
      as (t & r' & closed & Et & Hr' & Hcl); [|lia|].
    { eapply inv0_goes; [|exact Hr2]. eauto with rstd. }
    apply wp_bind. unfold wp at 1. rewrite Et.
    pose proof (reads_reads _ _ _ _ _ Hr2 Hr') as Hr3.
    destruct closed; cbn [negb].
    + destruct Hcl as (body & -> & Hno). apply (Hcont _ _ Hr3); [done | |].
      * eapply ok_goes; [done | exact Hr3 |]. intros Hu.
        assert (is_text (rest r)) as Ht by (apply inv_text; [apply Ho | done]).
        destruct Hr3 as [E3 _]. rewrite E3 in Ht.
        replace (([47; 42] ++ body ++ [42; 47]) ++ rest r') with
          ((47 :: 42 :: body ++ [42]) ++ 47 :: rest r') in Ht
          by (cbn; by rewrite <- !app_assoc).
        apply text_ascii_split in Ht as (_ & _ & ?); [done | lia].
      * intros w s Hw Es. cbn [app]. rewrite <- app_assoc. cbn [app]. by apply ws_block.
    + apply wp_error. eapply ok_goes_stop; [done | exact Hr3 |]. destruct Hcl as [-> _]. done.
Qed.

Lemma wp_consume_whitespace lo hi r :
  ok lo hi r -> wp lo hi consume_whitespace r (fun _ r' => ws_post lo hi r r').
Proof. intros Ho. unfold consume_whitespace. apply wp_gets, wp_whitespace_loop; [done | lia]. Qed.

(** Nothing is consumed where nothing is insignificant. *)
Lemma consume_whitespace_id r v l :
  inv0 r -> rest r = v :: l -> is_whitespace v = false -> v <> 0x2f ->
  consume_whitespace r = (Ret tt, r).
Proof.
  intros Hi E Hv Hs. unfold consume_whitespace, bind, gets. cbn [whitespace_loop]. unfold bind, gets.
  rewrite (eof_false r v l Hi E), (peek_rest r v l E), Hv.
  replace (v =? 0x2f) with false by lia. by rewrite orb_true_r.
Qed.

Lemma consume_whitespace_eof r : inv0 r -> rest r = [] -> consume_whitespace r = (Ret tt, r).
Proof.
  intros Hi E. unfold consume_whitespace, bind, gets. cbn [whitespace_loop]. unfold bind, gets.
  apply eof_rest in E; [|done]. by rewrite E.
Qed.

(** ** Kinds and identifiers *)

(** The units that start a value of each kind. *)
Definition kind_char (k : ValueKind) (c : Z) : Prop :=
  match k with
  | KNull => c = 0x6e
  | KBoolean => c = 0x74 \/ c = 0x66
  | KString => c = 0x22
  | KArray => c = 0x5b
  | KObject => c = 0x7b
  | KNumber => c = 0x2d \/ 0x30 <= c <= 0x39
  end.

Lemma kind_char_plain k c : kind_char k c -> is_whitespace c = false /\ c <> 0x2f /\ 0 <= c < 128.
Proof. unfold is_whitespace. destruct k; cbn; lia. Qed.

Lemma value_kind_tail k r c l :
  inv0 r -> rest r = c :: l -> kind_char k c ->
  (let* stop := gets eof in
   if (stop : bool) then error EofWhileParsingValue
   else
     let* p := gets peek in
     if p =? 0x6e then ret KNull
     else if (p =? 0x74) || (p =? 0x66) then ret KBoolean
     else if p =? 0x22 then ret KString
     else if p =? 0x5b then ret KArray
     else if p =? 0x7b then ret KObject
     else if p =? 0x2d then ret KNumber
     else if (0x30 <=? p) && (p <=? 0x39) then ret KNumber
     else error ExpectedSomeValue) r = (Ret k, r).
Proof.
  intros Hi E Hk. unfold bind, gets. rewrite (eof_false r c l Hi E), (peek_rest r c l E).
  destruct k; cbn in Hk; repeat (case_if; try lia); done.
Qed.

Lemma value_kind_id k r c l :
  inv0 r -> rest r = c :: l -> kind_char k c -> value_kind r = (Ret k, r).
Proof.
  intros Hi E Hk. unfold value_kind. destruct (kind_char_plain k c Hk) as (? & ? & _).
  unfold bind at 1. rewrite (consume_whitespace_id r c l) by done. by eapply value_kind_tail.
Qed.

Lemma kind_eqb_refl k : kind_eqb k k = true.
Proof. by destruct k. Qed.

Definition kind_post (lo hi : nat) (r : Reader) (k : ValueKind) (r' : Reader) : Prop :=
  ws_post lo hi r r' /\ exists c l, rest r' = c :: l /\ kind_char k c.

Lemma wp_value_kind lo hi r : ok lo hi r -> wp lo hi value_kind r (kind_post lo hi r).
Proof.
  intros Ho. unfold value_kind. eapply wp_call; [by apply wp_consume_whitespace|].
  intros [] r1 Hws. assert (ok lo hi r1) as Ho1 by (by destruct Hws as (? & _ & _ & _ & ?)).
  destruct (eof_cases r1) as [[He E]|[He (v & l & E)]]; [eauto with rstd|..]; apply wp_gets; rewrite He.
  { by apply wp_error. }
  apply wp_gets. rewrite (peek_rest r1 v l E).
  repeat (case_if; [apply wp_ret; split; [done|]; exists v, l; cbn; split; [done | lia]|]).
  by apply wp_error.
Qed.

Lemma wp_consume_ident lo hi value r :
  ok lo hi r -> Forall (fun v => 0 <= v < 128) value ->
  wp lo hi (consume_ident value) r (fun _ r' => reads r value r' /\ ok lo hi r').
Proof.
  revert r. induction value as [|v value IH]; intros r Ho Hv; cbn [consume_ident].
  { apply wp_ret. split; [apply reads_nil | done]. }
  inversion Hv as [|? ? Hv1 Hv2]; subst.
  destruct (eof_cases r) as [[He E]|[He (p & l & E)]]; [eauto with rstd|..]; apply wp_gets; rewrite He.
  { by apply wp_error. }
  apply wp_gets. rewrite (peek_rest r p l E). destruct (p =? v) eqn:Ep; cbn [negb]; [|by apply wp_error].
  assert (p = v) as -> by lia. apply (wp_take _ _ _ r v l _ E).
  destruct (reads_unit r v l E) as [Hr _].
  eapply wp_conseq; [|apply IH; [by eapply ok_unit | done]].
  intros [] r' [Hr' Ho']. split; [|done]. by apply (reads_reads _ [v] _ _ _ Hr Hr').
Qed.

(** ** Escapes *)

Lemma hex_value_range c d : hex_value c = Some d -> 0 <= d < 16 /\ 0 <= c < 128.
Proof.
  unfold hex_value, digit_value, is_digit. change (MAX u8) with 255.
  repeat (case_if; try done); intros [=]; lia.
Qed.

Definition hex_fold (v : Z) (h : list Z) : Z := foldl (fun a c => a * 16 + default 0 (hex_value c)) v h.

Lemma op_shl_u16 v : 0 <= v < 4096 -> op_shl true u16 v 4 = Some (v * 16).
Proof.
  intros Hv. unfold op_shl, guarded, overflowing_shl, to_unsigned_bits, from_unsigned_bits, wrap.
  change (bit_width u16) with 16. change (is_signed u16) with false. change (4 mod 16) with 4.
  change (2 ^ 16) with 65536. cbn [andb Z.leb]. change (16 <=? 4) with false. cbn [andb].
  rewrite (Z.mod_small v) by lia. rewrite Z.shiftl_mul_pow2 by lia. change (2 ^ 4) with 16.
  rewrite (Z.mod_small (v * 16)) by lia. by rewrite (Z.mod_small (v * 16)) by lia.
Qed.

Lemma lor_digit v d : 0 <= v -> 0 <= d < 16 -> Z.lor (v * 16) d = v * 16 + d.
Proof. intros. apply (lor_add 4); lia. Qed.

Lemma wp_hex_digits lo hi n v r :
  ok lo hi r -> 0 <= v -> (v + 1) * 16 ^ Z.of_nat n <= 65536 ->
  wp lo hi (hex_digits n v) r (fun x r' => exists h, length h = n /\
    Forall (fun c => is_Some (hex_value c)) h /\ x = hex_fold v h /\ reads r h r' /\ ok lo hi r').
Proof.
  revert v r. induction n as [|n IH]; intros v r Ho Hv Hn; cbn [hex_digits].
  { apply wp_ret. exists []. split_and!; [done | constructor | done | apply reads_nil | done]. }
  destruct (eof_cases r) as [[He E]|[He (p & l & E)]]; [eauto with rstd|..]; apply wp_gets; rewrite He.
  { by apply wp_error. }
  apply wp_gets. rewrite (peek_rest r p l E). fold (hex_value p).
  destruct (hex_value p) as [d|] eqn:Ed; [|by apply wp_error].
  destruct (hex_value_range p d Ed) as [Hd Hp]. apply (wp_take _ _ _ r p l _ E).
  rewrite Nat2Z.inj_succ, Z.pow_succ_r in Hn by lia.
  assert (0 < 16 ^ Z.of_nat n) as HP by lia. set (P := 16 ^ Z.of_nat n) in *.
  assert ((v + 1) * 16 <= (v + 1) * (16 * P)) by (apply Z.mul_le_mono_nonneg_l; lia).
  apply (wp_option _ _ _ (v * 16)); [apply op_shl_u16; lia|].
  rewrite lor_digit by lia. destruct (reads_unit r p l E) as [Hr _].
  eapply wp_conseq; [|apply IH; [by eapply ok_unit | lia |]].
  2:{ fold P. assert ((v * 16 + d + 1) * P <= (v * 16 + 16) * P) by (apply Z.mul_le_mono_nonneg_r; lia). lia. }
  intros x r' (h & Hl & Hh & -> & Hr' & Ho'). exists (p :: h).
  split_and!; [by cbn; rewrite Hl | by constructor | by cbn; rewrite Ed
              | by apply (reads_reads _ [p] _ _ _ Hr Hr') | done].
Qed.

Lemma hex4_fold h : length h = 4%nat -> Forall (fun c => is_Some (hex_value c)) h -> hex4 h (hex_fold 0 h).
Proof.
  intros Hl Hh. destruct h as [|a [|b [|c [|d [|]]]]]; try done.
  apply Forall_cons_1 in Hh as [[x Hx] Hh]. apply Forall_cons_1 in Hh as [[y Hy] Hh].
  apply Forall_cons_1 in Hh as [[z Hz] Hh]. apply Forall_cons_1 in Hh as [[w Hw] _].
  assert (hex_fold 0 [a; b; c; d] = x * 4096 + y * 256 + z * 16 + w) as ->; [|by apply hex4_intro].
  unfold hex_fold. cbn [foldl]. rewrite Hx, Hy, Hz, Hw. cbn. unfold id. lia.
Qed.

Lemma hex4_range h x : hex4 h x -> 0 <= x < 65536 /\ Forall (fun v => 0 <= v < 128) h /\ length h = 4%nat.
Proof.
  destruct 1 as [? ? ? ? ? ? ? ? Ha Hb Hc Hd].
  apply hex_value_range in Ha, Hb, Hc, Hd. split; [lia|]. split; [|done].
  repeat constructor; lia.
Qed.

Lemma wp_parse_hex_escape lo hi r :
  ok lo hi r ->
  wp lo hi parse_hex_escape r (fun x r' => exists h, hex4 h x /\ reads r h r' /\ ok lo hi r').
Proof.
  intros Ho. eapply wp_conseq; [|apply wp_hex_digits; [done | lia | lia]].
  intros x r' (h & Hl & Hh & -> & Hr & Ho'). exists h. split; [by apply hex4_fold | done].
Qed.

(** What follows [\u] in a string. *)
Inductive unicode_escape : list Z -> list Z -> Prop :=
| ue_single h cp :
    hex4 h cp -> is_high_surrogate cp = false -> is_low_surrogate cp = false ->
    unicode_escape h (encode_utf8 cp)
| ue_pair h1 high h2 low :
    hex4 h1 high -> hex4 h2 low -> is_high_surrogate high = true -> is_low_surrogate low = true ->
    unicode_escape (h1 ++ 0x5c :: 0x75 :: h2)
      (encode_utf8 ((high - 0xd800) * 1024 + (low - 0xdc00) + 0x10000)).

Lemma jchars_unicode e out t out' :
  unicode_escape e out -> jchars t out' -> jchars (0x5c :: 0x75 :: e ++ t) (out ++ out').
Proof.
  intros [] Ht; [by apply jc_unicode|]. rewrite <- app_assoc. cbn [app]. by apply jc_pair.
Qed.

Lemma surrogate_scalar high low :
  is_high_surrogate high = true -> is_low_surrogate low = true ->
  Z.lor (Z.shiftl (high - 0xd800) 10) (low - 0xdc00) + 0x10000 =
  (high - 0xd800) * 1024 + (low - 0xdc00) + 0x10000.
Proof.
  unfold is_high_surrogate, is_low_surrogate. intros. rewrite lor_shiftl_add by lia.
  by change (2 ^ 10) with 1024.
Qed.

Lemma wp_unicode_escape lo hi o r :
  ok lo hi r -> (lo < position r)%nat ->
  wp lo hi (parse_unicode_escape o) r (fun out r' =>
    exists e, reads r e r' /\ ok lo hi r' /\ (o = OString -> unicode_escape e out)).
Proof.
  intros Ho Hlo. unfold parse_unicode_escape. eapply wp_call; [by apply wp_parse_hex_escape|].
  intros first r1 (h & Hh & Hr & Ho1). destruct o; [|by apply wp_ret; exists h].
  assert (lo < position r1)%nat as Hlo1 by (rewrite (goes_position _ _ _ _ Hr); lia).
  destruct (is_low_surrogate first) eqn:El.
  { apply wp_error_after; [eauto with rstd | done | apply Ho1]. }
  destruct (is_high_surrogate first) eqn:Eh; cbn [negb].
  2:{ apply wp_ret. exists h. split_and!; [done | done |]. intros _. by apply ue_single. }
  destruct (eof_cases r1) as [[He E]|[He (p & l & E)]]; [eauto with rstd|..]; apply wp_gets; rewrite He.
  { by apply wp_error. }
  apply wp_gets. rewrite (peek_rest r1 p l E). destruct (p =? 0x5c) eqn:Ep; cbn [negb]; [|by apply wp_error].
  assert (p = 0x5c) as -> by lia. apply (wp_take _ _ _ r1 _ l _ E).
  destruct (reads_unit r1 _ l E) as [Hr1 El1].
  pose proof (ok_unit _ _ _ _ _ Ho1 E ltac:(lia)) as Ho2.
  destruct (eof_cases (step 1 r1)) as [[He' E']|[He' (q & l' & E')]]; [eauto with rstd|..];
    apply wp_gets; rewrite He'.
  { by apply wp_error. }
  apply wp_gets. rewrite (peek_rest _ q l' E'). destruct (q =? 0x75) eqn:Eq; cbn [negb]; [|by apply wp_error].
  assert (q = 0x75) as -> by lia. apply (wp_take _ _ _ _ _ l' _ E').
  destruct (reads_unit _ _ l' E') as [Hr2 _].
  pose proof (ok_unit _ _ _ _ _ Ho2 E' ltac:(lia)) as Ho3.
  eapply wp_call; [by apply wp_parse_hex_escape|]. intros second r4 (h2 & Hh2 & Hr4 & Ho4).
  pose proof (reads_reads _ _ _ _ _ Hr (reads_reads _ _ _ _ _ Hr1 (reads_reads _ _ _ _ _ Hr2 Hr4))) as Hall.
  destruct (is_low_surrogate second) eqn:El2; cbn [negb].
  2:{ apply wp_error_after; [eauto with rstd | rewrite (goes_position _ _ _ _ Hall); lia | apply Ho4]. }
  apply wp_ret. exists (h ++ 0x5c :: 0x75 :: h2). split_and!; [exact Hall | done |]. intros _.
  rewrite surrogate_scalar by done. by apply ue_pair.
Qed.

(** ** Raw chunks *)

Lemma boundary_of_rest s n :
  is_text s -> (n <= length s)%nat -> is_text (drop n s) -> is_char_boundary s n = true.
Proof.
  intros Hs Hn Hd. unfold is_char_boundary. destruct (_ || _) eqn:E; [done|]. case_if; [lia|].
  apply orb_false_iff in E as [_ E]. apply Nat.eqb_neq in E.
  assert (drop n s <> []) as Hne.
  { intros Hx. apply (f_equal length) in Hx. rewrite length_drop in Hx. cbn in Hx. lia. }
  pose proof (text_head_not_continuation _ Hd Hne) as Hc.
  rewrite lookup_drop, Nat.add_0_r in Hc. by rewrite Hc.
Qed.

Lemma reads_slice r t d r' :
  goes r t d r' -> slice (input (active r')) (position r) (position r') = t.
Proof.
  intros Hg. unfold slice, input. rewrite (goes_input _ _ _ _ Hg), (goes_position _ _ _ _ Hg).
  replace (position r + length t - position r)%nat with (length t) by lia.
  destruct Hg as [E _]. unfold rest, remaining_input, input in E. unfold position. rewrite E.
  by rewrite take_app_length.
Qed.

Lemma append_raw_text lo hi o r t r' :
  ok lo hi r -> ok lo hi r' -> reads r t r' -> utf16_ r = false ->
  append_raw o (MkSpan (position r) (position r')) r' =
  (Ret match o with OString => t | OUnits => concat (map char_units (chars t)) end, r').
Proof.
  intros Ho Ho' Hr Hu. unfold append_raw. pose proof (goes_utf16 _ _ _ _ Hr) as Hu'.
  rewrite Hu', Hu. cbn [negb].
  destruct Ho as ((_ & _ & H8) & _ & Hlen). destruct (H8 Hu) as (Hv & Hs & Ht).
  destruct Ho' as (([_ Hb'] & _ & H8') & _ & Hlen'). rewrite Hu', Hu in H8'.
  destruct (H8' eq_refl) as (_ & _ & Ht').
  assert (cursor_ r' = active r') as -> by (unfold active; by rewrite Hu', Hu).
  assert (cursor_text (active r') (MkSpan (position r) (position r')) = Ret t) as ->; [|by destruct o].
  unfold cursor_text. pose proof (goes_input _ _ _ _ Hr) as Hi. pose proof (goes_position _ _ _ _ Hr) as Hp.
  assert (input_ (active r') = text_input (input (active r))) as Et.
  { rewrite Hi. unfold input. destruct (input_ (active r)) as [vs va]; cbn in *. by rewrite Hv. }
  unfold in_bounds in Hb'. fold (position r') in Hb'.
  rewrite Et. unfold rest, remaining_input in Ht, Ht'. fold (position r) in Ht. fold (position r') in Ht'.
  assert (input (active r') = input (active r)) as Ein by (unfold input; by rewrite Hi).
  rewrite Ein in Ht'. unfold len in *. rewrite Ein in Hb'.
  pose proof (input_text_spec (input (active r)) (position r) (position r') Hs ltac:(lia)) as Hspec.
  rewrite !boundary_of_rest in Hspec by (done || lia). cbn [andb] in Hspec.
  destruct Hspec as [-> _]. f_equal. rewrite <- Ein. by eapply reads_slice.
Qed.

Lemma wp_append_utf16 lo hi units r :
  ok lo hi r -> wp lo hi (append_utf16 units) r (fun _ r' => r' = r).
Proof.
  intros Ho. remember (length units) as n eqn:Hn.
  revert units Hn. induction n as [n IH] using lt_wf_ind. intros units ->.
  destruct units as [|v units]; cbn [append_utf16]; [by apply wp_ret|].
  destruct (is_high_surrogate v).
  - destruct units as [|v' units]; [by apply wp_error|].
    case_if; [by apply wp_error|]. eapply wp_call; [apply (IH (length units)); cbn; [lia | done]|].
    by intros out r' ->.
  - case_if; [by apply wp_error|]. eapply wp_call; [apply (IH (length units)); cbn; [lia | done]|].
    by intros out r' ->.
Qed.

Lemma wp_append_raw lo hi o r t r' :
  ok lo hi r -> ok lo hi r' -> reads r t r' ->
  wp lo hi (append_raw o (MkSpan (position r) (position r'))) r' (fun out r'' =>
    r'' = r' /\ (utf16_ r = false -> o = OString -> out = t)).
Proof.
  intros Ho Ho' Hr. destruct (utf16_ r) eqn:Hu.
  2:{ unfold wp. rewrite (append_raw_text lo hi o r t r') by done. split; [done|]. by intros _ ->. }
  pose proof (goes_utf16 _ _ _ _ Hr) as Hu'. unfold wp, append_raw. rewrite Hu', Hu. cbn [negb].
  assert (units_ r' = active r') as -> by (unfold active; by rewrite Hu', Hu).
  pose proof (goes_position _ _ _ _ Hr) as Hp. pose proof Ho' as (([Ht Hb'] & Hi') & Hl' & Hh').
  unfold in_bounds in Hb'. fold (position r') in Hb'. unfold view.
  replace (_ <? _)%nat with false by (symmetry; apply Nat.ltb_ge; lia).
  replace (_ <? _)%nat with false by (symmetry; apply Nat.ltb_ge; lia). cbn [orb].
  destruct (span_is_empty _); destruct o; try done.
  apply (wp_conseq lo hi _ _ (fun _ r'' => r'' = r')); [by intros ? ? ->|].
  by apply wp_append_utf16.
Qed.

(** ** Strings *)

Lemma jchars_chunk chunk t out :
  Forall (fun v => is_plain v = true) chunk -> jchars t out -> jchars (chunk ++ t) (chunk ++ out).
Proof. induction 1; intros; cbn; [done|]. apply jc_plain; auto. Qed.

Lemma escape_char_range e c : escape_char e = Some c -> 0 <= e < 128 /\ 0 <= c < 128.
Proof. unfold escape_char. repeat (case_if; [intros [= <-]; lia|]). done. Qed.

Definition string_post (lo hi : nat) (o : Output) (r : Reader) (output a : list Z) (r' : Reader) : Prop :=
  exists body out, reads r (body ++ [0x22]) r' /\ ok lo hi r' /\
    (utf16_ r = false -> o = OString -> a = output ++ out /\ jchars body out).

Lemma string_post_step lo hi o r output t piece r1 a r' :
  reads r t r1 -> string_post lo hi o r1 (output ++ piece) a r' ->
  (utf16_ r = false -> o = OString -> forall body out, jchars body out -> jchars (t ++ body) (piece ++ out)) ->
  string_post lo hi o r output a r'.
Proof.
  intros Hr (body & out & Hr' & Ho & Hj) Hp. rewrite (goes_utf16 _ _ _ _ Hr) in Hj.
  exists (t ++ body), (piece ++ out). split_and!; [|done|].
  - rewrite <- app_assoc. by eapply reads_reads.
  - intros Hu Hs. destruct (Hj Hu Hs) as [-> Hjb]. rewrite app_assoc. split; [done|]. by apply Hp.
Qed.

Lemma wp_string_loop lo hi fuel o output r :
  ok lo hi r -> (left_units r < fuel)%nat ->
  wp lo hi (string_loop fuel o output) r (string_post lo hi o r output).
Proof.
  revert output r. induction fuel as [|fuel IH]; intros output r Ho Hf; [lia|].
  cbn [string_loop].
  destruct (eof_cases r) as [[He E]|[He (p & l & E)]]; [eauto with rstd|..]; apply wp_gets; rewrite He.
  { by apply wp_error. }
  apply wp_gets. destruct (skip_units_spec is_plain r) as (t & r1 & Et & Hr & Hall & Hend); [eauto with rstd|].
  apply wp_bind. unfold wp at 1. rewrite Et.
  assert (ok lo hi r1) as Ho1.
  { eapply ok_goes_stop; [done | exact Hr |]. destruct (rest r1) as [|v s] eqn:Er1; [done|].
    assert (0 <= v < 2 ^ 16).
    { destruct Ho as ((_ & Hu & _) & _). unfold units_ok in Hu.
      apply (Forall_drop _ (position r)) in Hu. destruct Hr as [Er _].
      unfold rest at 1, remaining_input in Er. fold (position r) in Er. rewrite Er, Er1 in Hu.
      apply Forall_app in Hu as [_ Hu]. by inversion Hu. }
    unfold run_ends, is_plain in Hend. unfold ascii_stop. lia. }
  apply wp_gets. eapply wp_call; [by eapply wp_append_raw|]. intros raw r1' [-> Hraw].
  destruct (eof_cases r1) as [[He1 E1]|[He1 (q & l1 & E1)]]; [eauto with rstd|..]; apply wp_gets; rewrite He1.
  { by apply wp_error. }
  apply wp_gets. rewrite (peek_rest r1 q l1 E1). destruct (reads_unit r1 q l1 E1) as [Hr1 El1].
  pose proof (rest_units _ _ _ _ _ Ho1 E1) as Hq.
  destruct (q =? 0x22) eqn:Eq.
  { apply (wp_take _ _ _ r1 q l1 _ E1), wp_ret. assert (q = 0x22) as -> by lia.
    exists t, raw. split_and!; [by eapply reads_reads | by eapply ok_unit |].
    intros Hu Hs. rewrite (Hraw Hu Hs). split; [done|]. rewrite <- (app_nil_r t). apply jchars_chunk; [done | constructor]. }
  destruct (q <? 0x20) eqn:Eq2.
  { apply (wp_take _ _ _ r1 q l1 _ E1).
    pose proof (ok_unit _ _ _ _ _ Ho1 E1 ltac:(lia)) as Ho2.
    apply wp_error_after; [eauto with rstd | rewrite position_step; destruct Ho1; lia | apply Ho2]. }
  assert (q = 0x5c) as ->. { rewrite E1 in Hend. cbn in Hend. unfold is_plain in Hend. lia. }
  apply (wp_take _ _ _ r1 _ l1 _ E1). pose proof (ok_unit _ _ _ _ _ Ho1 E1 ltac:(lia)) as Ho2.
  destruct (eof_cases (step 1 r1)) as [[He2 E2]|[He2 (e & l2 & E2)]]; [eauto with rstd|..];
    apply wp_gets; rewrite He2.
  { by apply wp_error. }
  apply (wp_take _ _ _ _ e l2 _ E2). destruct (reads_unit _ e l2 E2) as [Hr2 El2].
  pose proof (reads_reads _ _ _ _ _ Hr (reads_reads _ _ _ _ _ Hr1 Hr2)) as Hpre. cbn [app] in Hpre.
  pose proof (goes_position _ _ _ _ Hpre) as Hpos. rewrite length_app in Hpos. cbn in Hpos.
  pose proof (goes_left _ _ _ _ Hpre) as Hleft. rewrite length_app in Hleft. cbn in Hleft.
  destruct Ho as (Hi & Hlo & Hhi).
  destruct (escape_char e) as [c|] eqn:Ee.
  - destruct (escape_char_range e c Ee) as [He' Hc'].
    pose proof (ok_unit _ _ _ _ _ Ho2 E2 He') as Ho3.
    eapply wp_conseq; [|apply IH; [done | lia]]. intros a r' Hpost.
    rewrite <- app_assoc in Hpost. eapply string_post_step; [exact Hpre | exact Hpost |].
    intros Hu -> body out Hb. rewrite (Hraw Hu eq_refl), <- !app_assoc. cbn [app push_char].
    apply jchars_chunk; [done|]. by apply jc_escape.
  - destruct (e =? 0x75) eqn:Eu.
    + assert (e = 0x75) as -> by lia. pose proof (ok_unit _ _ _ _ _ Ho2 E2 ltac:(lia)) as Ho3.
      eapply wp_call; [apply wp_unicode_escape; [done | lia]|].
      intros decoded r4 (esc & Hr4 & Ho4 & Hesc).
      pose proof (goes_left _ _ _ _ Hr4) as Hleft4.
      eapply wp_conseq; [|apply IH; [done | lia]]. intros a r' Hpost.
      rewrite <- app_assoc in Hpost.
      eapply string_post_step; [exact (reads_reads _ _ _ _ _ Hpre Hr4) | exact Hpost |].
      intros Hu -> body out Hb. rewrite (Hraw Hu eq_refl), <- !app_assoc. cbn [app].
      apply jchars_chunk; [done|]. apply jchars_unicode; [by apply Hesc | done].
    + apply wp_error_after; [eapply inv0_goes; [|exact Hpre]; eauto with rstd | lia |].
      by rewrite !len_step; destruct Ho1 as (_ & _ & ?).
Qed.

Lemma wp_read_string lo hi o r :
  ok lo hi r -> wp lo hi (read_string o) r (fun a r' =>
    exists w body, reads r (w ++ 0x22 :: body ++ [0x22]) r' /\
      ws (comments_of r) w (0x22 :: body ++ 0x22 :: rest r') /\ ok lo hi r' /\
      (utf16_ r = false -> o = OString -> jchars body a)).
Proof.
  intros Ho. unfold read_string. eapply wp_call; [by apply wp_value_kind|].
  intros kind r1 ((w & Hr & Hws & Hst & Ho1) & c & l & E & Hk).
  destruct kind; cbn [kind_eqb negb]; try by apply wp_error. cbn in Hk. subst c.
  apply (wp_take _ _ _ r1 _ l _ E), wp_gets. destruct (reads_unit r1 _ l E) as [Hr1 El].
  eapply wp_conseq; [|apply wp_string_loop; [by eapply ok_unit | lia]].
  intros a r' (body & out & Hr' & Ho' & Hj). exists w, body.
  pose proof (reads_reads _ _ _ _ _ Hr1 Hr') as Hr2. cbn [app] in Hr2.
  split_and!; [by eapply reads_reads | | done |].
  - destruct Hr2 as [E2 _]. rewrite E2 in Hws. cbn [app] in Hws. by rewrite <- app_assoc in Hws.
  - intros Hu Hs. rewrite utf16_step, (goes_utf16 _ _ _ _ Hr) in Hj. by destruct (Hj Hu Hs) as [-> ?].
Qed.

Lemma wp_parse_string lo hi r :
  ok lo hi r -> wp lo hi parse_string r (fun a r' =>
    exists w body, reads r (w ++ 0x22 :: body ++ [0x22]) r' /\
      ws (comments_of r) w (0x22 :: body ++ 0x22 :: rest r') /\ ok lo hi r' /\
      (utf16_ r = false -> jchars body a)).
Proof.
  intros Ho. unfold parse_string. apply wp_gets. destruct (utf16_ r) eqn:Hu; cbn [negb].
  - unfold parse_string_units. eapply wp_call; [by apply wp_read_string|].
    intros units r1 (w & body & Hr & Hws & Ho1 & _).
    eapply wp_conseq; [|by apply wp_append_utf16]. intros a r' ->. by exists w, body.
  - eapply wp_conseq; [|by apply wp_read_string]. intros a r' (w & body & ? & ? & ? & Hj).
    exists w, body. split_and!; try done. intros _. by apply Hj.
Qed.

(** ** Numbers *)

Lemma in_range_i32 z : - 2 ^ 31 <= z <= 2 ^ 31 - 1 -> in_range i32 z = true.
Proof. unfold in_range. change (MIN i32) with (- 2 ^ 31). change (MAX i32) with (2 ^ 31 - 1). lia. Qed.

Lemma in_range_u16 z : 0 <= z <= 65535 -> in_range u16 z = true.
Proof. unfold in_range. change (MIN u16) with 0. change (MAX u16) with 65535. lia. Qed.

Lemma in_range_u64 z : 0 <= z <= 2 ^ 64 - 1 -> in_range u64 z = true.
Proof. unfold in_range. change (MIN u64) with 0. change (MAX u64) with (2 ^ 64 - 1). lia. Qed.

Lemma digits_value_ge m acc ds :
  0 <= m <= acc -> dec_digits ds -> m <= digits_value acc ds.
Proof.
  intros Hm Hd. revert acc Hm. induction Hd as [|c ds Hc Hd IH]; intros acc Hm; cbn; [lia|].
  apply IH. unfold is_dec in Hc. lia.
Qed.

Lemma dec_ascii c : is_dec c = true -> 0 <= c < 128.
Proof. unfold is_dec. lia. Qed.

Lemma dec_digits_text ds : dec_digits ds -> is_text ds.
Proof. intros H. apply text_ascii. revert H. apply Forall_impl. apply dec_ascii. Qed.

Lemma at_digit_cases r :
  inv0 r -> (at_digit r = true /\ exists c l, rest r = c :: l /\ is_dec c = true) \/
            (at_digit r = false /\ run_ends is_dec (rest r)).
Proof.
  intros Hi. unfold at_digit. destruct (eof_cases r Hi) as [[-> E]|[-> (c & l & E)]]; cbn [negb andb].
  - right. by rewrite E.
  - rewrite (peek_rest r c l E). destruct (is_dec c) eqn:Ec; [left | right]; split; try done.
    + by exists c, l.
    + by rewrite E.
Qed.

Lemma wp_exponent_loop lo hi lo' hi' fuel e r :
  ok lo hi r -> (left_units r < fuel)%nat -> 0 <= e <= MAX i32 ->
  wp lo' hi' (exponent_loop fuel e) r (fun x r' => exists ds, reads r ds r' /\ dec_digits ds /\
    run_ends is_dec (rest r') /\ x = Z.min (MAX i32) (digits_value e ds) /\ ok lo hi r').
Proof.
  change (MAX i32) with 2147483647.
  revert e r. induction fuel as [|fuel IH]; intros e r Ho Hf He; [lia|]. cbn [exponent_loop].
  destruct (at_digit_cases r) as [[Hd (c & l & E & Hc)]|[Hd Hend]]; [eauto with rstd|..];
    apply wp_gets; rewrite Hd.
  2:{ apply wp_ret. exists []. split_and!; [apply reads_nil | constructor | done | cbn; lia | done]. }
  apply (wp_take _ _ _ r c l _ E). destruct (reads_unit r c l E) as [Hr El].
  pose proof (dec_ascii c Hc) as Hasc. unfold is_dec in Hc.
  apply (wp_option _ _ _ (c - 48)); [apply op_sub_exact; [done | apply in_range_u16; lia]|].
  apply (wp_option _ _ _ (2147483647 - (c - 48))); [apply op_sub_exact; [done | apply in_range_i32; lia]|].
  apply (wp_option _ _ _ ((2147483647 - (c - 48)) / 10)); [apply op_div_exact; lia|].
  pose proof (ok_unit _ _ _ _ _ Ho E Hasc) as Ho1. pose proof (goes_left _ _ _ _ Hr) as Hl. cbn in Hl.
  assert (forall e' x, 0 <= e' <= 2147483647 ->
    (forall ds, dec_digits ds -> Z.min 2147483647 (digits_value e' ds) =
       Z.min 2147483647 (digits_value (e * 10 + (c - 48)) ds)) ->
    x = e' -> wp lo' hi' (exponent_loop fuel x) (step 1 r) (fun x r' => exists ds, reads r ds r' /\
      dec_digits ds /\ run_ends is_dec (rest r') /\ x = Z.min 2147483647 (digits_value e ds) /\ ok lo hi r')) as Hgo.
  { intros e' x He' Heq ->. eapply wp_conseq; [|apply IH; [done | lia | done]].
    intros x r' (ds & Hr' & Hds & Hend & -> & Ho'). exists (c :: ds).
    split_and!; try done; [by apply (reads_reads _ [c] _ _ _ Hr Hr') | |by apply Heq].
    constructor; [unfold is_dec; lia | done]. }
  destruct (_ <? e) eqn:Elim.
  - apply (Hgo 2147483647); [lia | | done]. intros ds Hds.
    pose proof (digits_value_ge 2147483647 2147483647 ds ltac:(lia) Hds).
    pose proof (digits_value_ge 2147483647 (e * 10 + (c - 48)) ds ltac:(Z.div_mod_to_equations; lia) Hds). lia.
  - apply (wp_option _ _ _ (e * 10)); [apply op_mul_exact; [done | apply in_range_i32; Z.div_mod_to_equations; lia]|].
    apply (wp_option _ _ _ (e * 10 + (c - 48)));
      [apply op_add_exact; [done | apply in_range_i32; Z.div_mod_to_equations; lia]|].
    apply (Hgo (e * 10 + (c - 48))); [Z.div_mod_to_equations; lia | done | done].
Qed.

Definition integer_wf (ds : list Z) : Prop :=
  ds = [0x30] \/ exists c ds', ds = c :: ds' /\ 0x31 <= c <= 0x39 /\ dec_digits ds'.

Lemma integer_digits ds : integer_wf ds -> dec_digits ds /\ ds <> [].
Proof.
  intros [->|(c & ds' & -> & Hc & Hd)]; split; try done; repeat constructor; try done.
  unfold is_dec. lia.
Qed.

Lemma wp_scan_integer lo hi r :
  ok lo hi r -> wp lo hi scan_integer r (fun span r' => exists ds, reads r ds r' /\ integer_wf ds /\
    span = MkSpan (position r) (position r') /\ run_ends is_dec (rest r') /\ ok lo hi r').
Proof.
  intros Ho. unfold scan_integer. apply wp_gets, wp_gets.
  destruct (eof_cases r) as [[He E]|[He (c & l & E)]]; [eauto with rstd|..].
  { unfold peek. rewrite peek_at_rest, E. change (default 0 ([] !! 0%nat)) with 0.
    cbn [Z.eqb Z.leb andb]. eapply wp_bind. by apply wp_error. }
  rewrite (peek_rest r c l E). destruct (reads_unit r c l E) as [Hr El].
  destruct (c =? 0x30) eqn:Ec.
  { assert (c = 0x30) as -> by lia. apply wp_bind, (wp_take _ _ _ r _ l _ E).
    pose proof (ok_unit _ _ _ _ _ Ho E ltac:(lia)) as Ho1.
    destruct (at_digit_cases (step 1 r)) as [[Hd _]|[Hd Hend]]; [eauto with rstd|..];
      apply wp_gets; rewrite Hd; [by apply wp_error|].
    apply wp_ret, wp_gets, wp_ret. exists [0x30]. split_and!; try done. by left. }
  destruct ((0x31 <=? c) && (c <=? 0x39)) eqn:Ec2; [|eapply wp_bind; by apply wp_error].
  destruct (skip_units_spec is_dec r) as (t & r' & Et & Hr' & Hall & Hend); [eauto with rstd|].
  apply wp_bind. unfold wp at 1. rewrite Et. apply wp_gets, wp_ret. exists t.
  split_and!; try done.
  - right. destruct t as [|c' ds]; [exfalso; destruct Hr' as [E' _]; rewrite E in E'; cbn in E';
      rewrite <- E' in Hend; cbn in Hend; unfold is_dec in Hend; lia|].
    destruct Hr' as [E' _]. rewrite E in E'. injection E' as -> _. exists c', ds.
    split_and!; [done | lia | lia | by inversion Hall].
  - eapply ok_goes_text; [done | exact Hr' | by apply dec_digits_text].
Qed.

Lemma wp_scan_fraction lo hi r :
  ok lo hi r -> wp lo hi scan_fraction r (fun x r' => exists f,
    reads r (match f with None => [] | Some f => 0x2e :: f end) r' /\
    match f with None => True | Some f => f <> [] /\ dec_digits f end /\
    snd x = (match f with None => false | Some _ => true end) /\
    slice (input (active r')) (span_begin (fst x)) (span_end (fst x)) = default [] f /\
    (span_begin (fst x) <= span_end (fst x) <= len (active r'))%nat /\
    (f = None -> run_ends (fun c => c =? 0x2e) (rest r') /\ r' = r) /\
    (f <> None -> run_ends is_dec (rest r')) /\ ok lo hi r').
Proof.
  intros Ho. unfold scan_fraction. apply wp_gets.
  assert (position r <= len (active r))%nat as Hb by (destruct Ho as (([_ Hb] & _) & _); exact Hb).
  assert (forall b, b = false -> run_ends (fun c => c =? 0x2e) (rest r) -> wp lo hi
    (if b then do* take ;; ret (MkSpan 0 0, true) else ret (MkSpan (position r) (position r), false)) r
    (fun x r' => exists f,
    reads r (match f with None => [] | Some f => 0x2e :: f end) r' /\
    match f with None => True | Some f => f <> [] /\ dec_digits f end /\
    snd x = (match f with None => false | Some _ => true end) /\
    slice (input (active r')) (span_begin (fst x)) (span_end (fst x)) = default [] f /\
    (span_begin (fst x) <= span_end (fst x) <= len (active r'))%nat /\
    (f = None -> run_ends (fun c => c =? 0x2e) (rest r') /\ r' = r) /\
    (f <> None -> run_ends is_dec (rest r')) /\ ok lo hi r')) as Hnone.
  { intros b -> Hs. apply wp_ret. exists None. cbn. split_and!; try done; try lia; [apply reads_nil|].
    unfold slice. by rewrite Nat.sub_diag. }
  destruct (eof_cases r) as [[He E]|[He (c & l & E)]]; [eauto with rstd|..]; apply wp_gets; rewrite He; cbn [negb andb].
  { apply (Hnone false); [done | by rewrite E]. }
  rewrite (peek_rest r c l E). destruct (c =? 0x2e) eqn:Ec; [|apply (Hnone false); [done | rewrite E; cbn; lia]].
  clear Hnone. assert (c = 0x2e) as -> by lia. destruct (reads_unit r _ l E) as [Hr El].
  apply (wp_take _ _ _ r _ l _ E). pose proof (ok_unit _ _ _ _ _ Ho E ltac:(lia)) as Ho1.
  destruct (eof_cases (step 1 r)) as [[He1 E1]|[He1 _]]; [eauto with rstd|..]; apply wp_gets; rewrite He1;
    [by apply wp_error|]. apply wp_gets.
  destruct (skip_units_spec is_dec (step 1 r)) as (f & r' & Et & Hr' & Hall & Hend); [eauto with rstd|].
  apply wp_bind. unfold wp at 1. rewrite Et. apply wp_gets.
  pose proof (ok_goes_text _ _ _ _ _ _ Ho1 Hr' (dec_digits_text _ Hall)) as Ho'.
  pose proof (goes_position _ _ _ _ Hr') as Hp.
  destruct (span_is_empty _) eqn:Es; [by apply wp_error|].
  apply wp_ret. exists (Some f). unfold span_is_empty in Es. cbn [span_begin span_end fst snd] in *.
  apply Nat.eqb_neq in Es. split_and!; try done.
  - exact (reads_reads _ [_] _ _ _ Hr Hr').
  - intros ->. cbn in Hp. lia.
  - cbn. unfold id. by eapply reads_slice.
  - lia.
  - destruct Ho' as (([_ Hb'] & _) & _). exact Hb'.
Qed.
