(* ===== verification/JsonTokens.v ===== *)
(** * The JSON reader's tokens

    Specifications of the number scanner, the number conversion and the
    container operations of the reader against the grammar. *)

From Stdlib Require Import ZArith Lia ZifyBool.
From S2P Require Import Prelude Int Utf8 Str Cursor OrdMap FloatSpec Json JsonReader JsonGrammar JsonRun.
Local Open Scope Z_scope.
Local Open Scope rstd_scope.

#[export] Hint Resolve inv_inv0 ok_inv0 : rstd.

(** ** Numbers *)

Definition exponent_units (x : option (list Z * option bool * list Z)) : list Z :=
  match x with
  | None => []
  | Some (mark, sign, ds) =>
    mark ++ match sign with None => [] | Some true => [0x2d] | Some false => [0x2b] end ++ ds
  end.

Definition exponent_wf (x : option (list Z * option bool * list Z)) : Prop :=
  match x with
  | None => True
  | Some (mark, _, ds) => (mark = [0x65] \/ mark = [0x45]) /\ ds <> [] /\ dec_digits ds
  end.

Definition exponent_of (x : option (list Z * option bool * list Z)) : Z :=
  match x with
  | None => 0
  | Some (_, sign, ds) =>
    let e := Z.min (MAX i32) (digits_value 0 ds) in
    match sign with Some true => - e | _ => e end
  end.

Lemma digits_value_nonneg ds : dec_digits ds -> 0 <= digits_value 0 ds.
Proof. apply digits_value_ge. lia. Qed.

(** The digits of the exponent and the optional negation. *)
Lemma wp_exponent_digits lo hi (neg : bool) r :
  ok lo hi r ->
  wp lo hi
    (let* stop := gets eof in
     if (stop : bool) then error EofWhileParsingValue
     else
       let* digit := gets at_digit in
       if negb digit then error InvalidNumber
       else
         let* fuel := gets (fun r => S (left_units r)) in
         let* exponent := exponent_loop fuel 0 in
         if neg then
           let* negated := of_option (op_neg true i32 exponent) in
           ret (negated, true)
         else ret (exponent, true)) r
    (fun x r' => exists ds, reads r ds r' /\ ds <> [] /\ dec_digits ds /\
       x = ((let e := Z.min (MAX i32) (digits_value 0 ds) in if neg then - e else e), true) /\
       run_ends is_dec (rest r') /\ ok lo hi r').
Proof.
  intros Ho.
  destruct (eof_cases r) as [[He E]|[He _]]; [eauto with rstd|..]; apply wp_gets; rewrite He;
    [by apply wp_error|].
  destruct (at_digit_cases r) as [[Hd (c & l & E & Hc)]|[Hd _]]; [eauto with rstd|..];
    apply wp_gets; rewrite Hd; cbn [negb]; [|by apply wp_error].
  apply wp_gets. eapply wp_call; [apply (wp_exponent_loop lo hi); [done | lia | change (MAX i32) with 2147483647; lia]|].
  intros x r' (ds & Hr & Hds & Hend & -> & Ho').
  assert (ds <> []) as Hne.
  { intros ->. destruct Hr as [E' _]. cbn in E'. rewrite <- E', E in Hend. cbn in Hend. congruence. }
  destruct neg.
  - eapply wp_option.
    + apply op_neg_exact; [done|]. apply in_range_i32. pose proof (digits_value_nonneg ds Hds).
      change (MAX i32) with (2 ^ 31 - 1). lia.
    + apply wp_ret. by exists ds.
  - apply wp_ret. by exists ds.
Qed.

Lemma wp_scan_exponent lo hi r :
  ok lo hi r -> wp lo hi scan_exponent r (fun x r' => exists ex,
    reads r (exponent_units ex) r' /\ exponent_wf ex /\ fst x = exponent_of ex /\
    snd x = bool_decide (is_Some ex) /\ ok lo hi r').
Proof.
  intros Ho. unfold scan_exponent.
  destruct (eof_cases r) as [[He E]|[He (c & l & E)]]; [eauto with rstd|..]; apply wp_gets; rewrite He; cbn [negb andb].
  { apply wp_ret. exists None. split_and!; try done. apply reads_nil. }
  rewrite (peek_rest r c l E). destruct (_ || _) eqn:Ec.
  2:{ apply wp_ret. exists None. split_and!; try done. apply reads_nil. }
  destruct (reads_unit r c l E) as [Hr El]. apply (wp_take _ _ _ r c l _ E).
  pose proof (ok_unit _ _ _ _ _ Ho E ltac:(lia)) as Ho1.
  assert ([c] = [0x65] \/ [c] = [0x45]) as Hmark.
  { apply orb_true_iff in Ec as [?|?]; [left | right]; f_equal; lia. }
  assert (forall sign r1 (t : list Z), ok lo hi r1 ->
    t = match sign with None => [] | Some true => [0x2d] | Some false => [0x2b] end ->
    reads (step 1 r) t r1 ->
    forall x r', (exists ds, reads r1 ds r' /\ ds <> [] /\ dec_digits ds /\
       x = ((let e := Z.min (MAX i32) (digits_value 0 ds) in
             if (match sign with Some true => true | _ => false end) then - e else e), true) /\
       run_ends is_dec (rest r') /\ ok lo hi r') ->
    exists ex, reads r (exponent_units ex) r' /\ exponent_wf ex /\ fst x = exponent_of ex /\
      snd x = bool_decide (is_Some ex) /\ ok lo hi r') as Hfin.
  { intros sign r1 t Ho2 -> Hr1 x r' (ds & Hr' & Hne & Hds & -> & _ & Ho').
    exists (Some ([c], sign, ds)). split_and!; try done.
    - exact (reads_reads _ _ _ _ _ Hr (reads_reads _ _ _ _ _ Hr1 Hr')).
    - cbn. destruct sign as [[]|]; done. }
  destruct (eof_cases (step 1 r)) as [[He1 E1]|[He1 (c1 & l1 & E1)]]; [eauto with rstd|..]; apply wp_gets; rewrite He1; cbn [negb andb].
  { apply wp_bind, wp_ret. eapply wp_conseq; [|by apply (wp_exponent_digits lo hi false)].
    apply (Hfin None (step 1 r) []); [done | done | apply reads_nil]. }
  rewrite (peek_rest _ c1 l1 E1). destruct ((c1 =? 0x2b) || (c1 =? 0x2d)) eqn:Ec1.
  2:{ apply wp_bind, wp_ret. eapply wp_conseq; [|by apply (wp_exponent_digits lo hi false)].
      apply (Hfin None (step 1 r) []); [done | done | apply reads_nil]. }
  destruct (reads_unit _ c1 l1 E1) as [Hr1 _].
  pose proof (ok_unit _ _ _ _ _ Ho1 E1 ltac:(lia)) as Ho2.
  apply wp_bind, wp_gets. rewrite (peek_rest _ c1 l1 E1). apply (wp_take _ _ _ _ c1 l1 _ E1), wp_ret.
  eapply wp_conseq; [|by apply (wp_exponent_digits lo hi (c1 =? 0x2d))].
  intros x r' Hx. apply (Hfin (Some (c1 =? 0x2d)) (step 1 (step 1 r)) [c1]); [done | | done |].
  - destruct (c1 =? 0x2d) eqn:Es; f_equal; lia.
  - by destruct (c1 =? 0x2d).
Qed.

Definition span_in (s : list Z) (span : Span) (t : list Z) : Prop :=
  (span_begin span <= span_end span <= length s)%nat /\ slice s (span_begin span) (span_end span) = t.

Definition token_ok (r : Reader) (tok : NumberToken) (n : number_text) : Prop :=
  span_in (input (active r)) (tok_integer tok) (nt_integer n) /\
  span_in (input (active r)) (tok_fraction tok) (default [] (nt_fraction n)) /\
  tok_exponent tok = exponent_value n /\ tok_negative tok = nt_negative n /\
  tok_floating tok = nt_floating n.

Definition number_post (lo hi : nat) (r : Reader) (n : number_text) (r' : Reader) : Prop :=
  exists w, reads r (w ++ number_units n) r' /\ ws (comments_of r) w (number_units n ++ rest r') /\
    number_wf n /\ ok lo hi r'.

Lemma wp_scan_number lo hi r :
  ok lo hi r -> wp lo hi scan_number r (fun tok r' => exists n, number_post lo hi r n r' /\ token_ok r' tok n).
Proof.
  intros Ho. unfold scan_number. eapply wp_call; [by apply wp_value_kind|].
  intros kind r1 ((w & Hr & Hws & Hst & Ho1) & c & l & E & Hk).
  destruct (kind_eqb kind KNumber) eqn:Ek; cbn [negb]; [|by apply wp_error].
  assert (kind = KNumber) as -> by (by destruct kind). cbn in Hk. clear Ek.
  apply wp_gets. rewrite (peek_rest r1 c l E).
  apply (wp_call lo hi _ _ _ (fun _ r2 => reads r1 (if c =? 0x2d then [0x2d] else []) r2 /\ ok lo hi r2)).
  { destruct (c =? 0x2d) eqn:Ec; [|apply wp_ret; split; [apply reads_nil | done]].
    assert (c = 0x2d) as -> by lia. apply (wp_take _ _ _ r1 _ l _ E).
    pose proof (ok_unit _ _ _ _ _ Ho1 E ltac:(lia)) as Ho2.
    destruct (eof_cases (step 1 r1)) as [[He E1]|[He _]]; [eauto with rstd|..]; apply wp_gets; rewrite He;
      [by apply wp_error|]. apply wp_ret. split; [by eapply reads_unit | done]. }
  intros [] r2 [Hr2 Ho2]. eapply wp_call; [by apply wp_scan_integer|].
  intros span r3 (ds & Hr3 & Hwf & -> & Hend & Ho3). eapply wp_call; [by apply wp_scan_fraction|].
  intros [fs fb] r4 (f & Hr4 & Hf & Hfb & Hfs & Hfr & _ & _ & Ho4). cbn [fst snd] in *.
  eapply wp_call; [by apply wp_scan_exponent|].
  intros [ev eb] r5 (ex & Hr5 & Hex & Hev & Heb & Ho5). cbn [fst snd] in *. apply wp_ret.
  set (n := NumberText (c =? 0x2d) ds f ex). exists n.
  assert (number_units n = (if c =? 0x2d then [0x2d] else []) ++ ds ++
    match f with None => [] | Some f => 0x2e :: f end ++ exponent_units ex) as Eu by done.
  pose proof (reads_reads _ _ _ _ _ Hr2 (reads_reads _ _ _ _ _ Hr3 (reads_reads _ _ _ _ _ Hr4 Hr5))) as Hall.
  rewrite <- Eu in Hall.
  assert (forall rr t, reads rr t r5 -> input (active rr) = input (active r5)) as Hin
    by (intros rr t Hg; unfold input; by rewrite (goes_input _ _ _ _ Hg)).
  split.
  - exists w. split_and!; [by eapply reads_reads | | done | done].
    destruct Hall as [E5 _]. by rewrite <- E5.
  - pose proof (reads_reads _ _ _ _ _ Hr4 Hr5) as Hr45.
    unfold token_ok, span_in. cbn [tok_integer tok_fraction tok_exponent tok_negative tok_floating n
      nt_integer nt_fraction nt_negative span_begin span_end].
    rewrite <- (Hin _ _ Hr45). split_and!; try done.
    + rewrite (goes_position _ _ _ _ Hr3). lia.
    + destruct Ho3 as (([_ Hb] & _) & _). exact Hb.
    + by eapply reads_slice.
    + lia.
    + rewrite (Hin _ _ Hr45), <- (Hin _ _ Hr5). unfold len in Hfr. lia.
    + by rewrite (Hin _ _ Hr45), <- (Hin _ _ Hr5).
    + unfold nt_floating. cbn. rewrite Hfb, Heb. by destruct f, ex.
Qed.

Lemma wp_magnitude_loop lo hi n index m ds r :
  (index + n <= length (input (active r)))%nat ->
  slice (input (active r)) index (index + n) = ds -> dec_digits ds -> 0 <= m <= MAX u64 ->
  wp lo hi (magnitude_loop n index m) r (fun x r' => r' = r /\
    x = if digits_value m ds <=? MAX u64 then Some (digits_value m ds) else None).
Proof.
  change (MAX u64) with (2 ^ 64 - 1).
  revert index m ds. induction n as [|n IH]; intros index m ds Hlen Hs Hd Hm; cbn [magnitude_loop].
  { apply wp_ret. split; [done|]. unfold slice in Hs. rewrite Nat.add_0_r, Nat.sub_diag in Hs.
    subst ds. rewrite firstn_O. cbn [digits_value]. by replace (m <=? 2 ^ 64 - 1) with true by lia. }
  destruct (lookup_lt_is_Some_2 (input (active r)) index) as [c Hc]; [lia|].
  rewrite <- (slice_app_l _ index (S index)) in Hs by lia. rewrite (slice_single _ _ c Hc) in Hs.
  cbn [app] in Hs. subst ds. inversion Hd as [|? ? Hdc Hds]; subst. unfold is_dec in Hdc.
  apply wp_gets. unfold unit_at. apply (wp_option _ _ _ c); [done|].
  apply (wp_option _ _ _ (c - 48)); [apply op_sub_exact; [done | apply in_range_u16; lia]|].
  apply (wp_option _ _ _ (2 ^ 64 - 1 - (c - 48))); [apply op_sub_exact; [done | apply in_range_u64; change (MAX u64) with (2 ^ 64 - 1); lia]|].
  apply (wp_option _ _ _ ((2 ^ 64 - 1 - (c - 48)) / 10)); [apply op_div_exact; lia|].
  cbn [digits_value]. destruct (_ <? m) eqn:El.
  - apply wp_ret. split; [done|].
    assert (2 ^ 64 <= m * 10 + (c - 48)) as Hbig by (Z.div_mod_to_equations; lia).
    pose proof (digits_value_ge (2 ^ 64) (m * 10 + (c - 48)) _ ltac:(lia) Hds).
    by replace (_ <=? 2 ^ 64 - 1) with false by lia.
  - assert (m * 10 + (c - 48) <= 2 ^ 64 - 1) as Hsmall by (Z.div_mod_to_equations; lia).
    apply (wp_option _ _ _ (m * 10)); [apply op_mul_exact; [done | apply in_range_u64; lia]|].
    apply (wp_option _ _ _ (m * 10 + (c - 48))); [apply op_add_exact; [done | apply in_range_u64; lia]|].
    apply IH; [lia | | done | lia]. by rewrite Nat.add_succ_comm.
Qed.

(** ** Conversion *)

Lemma is_dec_digit c : is_dec c = is_digit c.
Proof. done. Qed.

Section Conversion.
Context `{DecimalConversionLaws}.

Lemma view_span s c span t :
  input c = s -> span_in s span t -> view c span = Ret t.
Proof.
  intros <- [[Hb He] Hs]. destruct span as [b e]. cbn [span_begin span_end] in *. unfold view, len.
  replace (e <? b)%nat with false by (symmetry; apply Nat.ltb_ge; lia).
  replace (_ <? e)%nat with false by (symmetry; apply Nat.ltb_ge; lia). cbn [orb].
  unfold span_is_empty. cbn [span_begin span_end]. destruct (b =? e)%nat eqn:E; [|by rewrite Hs].
  apply Nat.eqb_eq in E as ->. unfold slice in Hs. rewrite Nat.sub_diag in Hs. by subst.
Qed.

Lemma digits_mod ds : dec_digits ds -> map (fun u => u mod 2 ^ 8) ds = ds.
Proof.
  induction 1 as [|c ds Hc _ IH]; [done|]. cbn [map]. rewrite IH. f_equal.
  unfold is_dec in Hc. apply Z.mod_small. lia.
Qed.

Lemma wp_span_digits {B} lo hi span t (k : list Z -> RM B) r Q :
  span_in (input (active r)) span t -> dec_digits t ->
  wp lo hi (k t) r Q -> wp lo hi (bind (span_digits span) k) r Q.
Proof.
  intros Hs Hd Hk. apply wp_bind. unfold wp at 1, span_digits.
  rewrite (view_span _ (active r) span t eq_refl Hs).
  destruct (utf16_ r); [by rewrite digits_mod | done].
Qed.

Lemma number_digits n :
  number_wf n -> dec_digits (nt_integer n) /\ nt_integer n <> [] /\ dec_digits (default [] (nt_fraction n)).
Proof.
  intros (Hi & Hf & _). destruct (integer_digits (nt_integer n) Hi) as [? ?].
  split_and!; try done. destruct (nt_fraction n); [by destruct Hf | constructor].
Qed.

Definition number_decimal (n : number_text) : Decimal :=
  MkDecimal (nt_integer n) (default [] (nt_fraction n)) (exponent_value n) (nt_negative n).

Lemma number_decimal_ok n : number_wf n -> decimal_ok (number_decimal n).
Proof. intros Hn. destruct (number_digits n Hn) as (? & ? & ?). done. Qed.

(** [parse_float] converts the token's decimal; overflow is an error, or
    infinity when asked for. *)
Lemma wp_parse_float lo hi tok n overflow r :
  ok lo hi r -> token_ok r tok n -> number_wf n ->
  wp lo hi (parse_float tok overflow) r (fun bits r' => r' = r /\
    (to_f64 (number_decimal n) = Ret bits \/
     overflow = OverflowInfinity /\ bits = if nt_negative n then NEG_INFINITY else INFINITY)).
Proof.
  intros Ho (Hint & Hfrac & He & Hneg & _) Hn. destruct (number_digits n Hn) as (Hd & _ & Hf).
  unfold parse_float. apply (wp_span_digits _ _ _ _ _ _ _ Hint Hd), (wp_span_digits _ _ _ _ _ _ _ Hfrac Hf).
  rewrite He, Hneg. fold (number_decimal n).
  destruct (to_f64_total (number_decimal n) (number_decimal_ok n Hn)) as [(bits & E & _)|E]; rewrite E.
  - apply wp_ret. split; [done | by left].
  - destruct overflow; [by apply wp_error|]. apply wp_ret. split; [done | by right].
Qed.

Lemma wp_parse_floating lo hi tok n r :
  ok lo hi r -> token_ok r tok n -> number_wf n ->
  wp lo hi (parse_floating tok) r (fun v r' => r' = r /\ float_value n = Some v).
Proof.
  intros Ho Ht Hn. unfold parse_floating. eapply wp_call; [by eapply wp_parse_float|].
  intros bits r' [-> Hb]. destruct Hb as [E|[Ed _]]; [|discriminate Ed].
  destruct (to_f64_total (number_decimal n) (number_decimal_ok n Hn)) as [(b & E' & Hfin & _)|E']; [|congruence].
  rewrite E in E'. injection E' as <-.
  unfold float_value. fold (number_decimal n). rewrite E.
  unfold from_f64. rewrite Hfin. cbn [negb]. by apply wp_ret.
Qed.

Lemma wp_parse_number lo hi r :
  ok lo hi r -> wp lo hi parse_number r (fun v r' => exists n, number_post lo hi r n r' /\
    number_value (options_ r) n = Some v).
Proof.
  intros Ho. unfold parse_number. eapply wp_call; [by apply wp_scan_number|].
  intros tok r1 (n & Hpost & Htok).
  assert (ok lo hi r1 /\ number_wf n /\ options_ r1 = options_ r) as (Ho1 & Hn & Hopt).
  { destruct Hpost as (w & Hr & _ & ? & ?). split_and!; try done. by eapply goes_options. }
  assert (forall v, number_value (options_ r) n = float_value n -> float_value n = Some v ->
    exists n, number_post lo hi r n r1 /\ number_value (options_ r) n = Some v) as Hfl.
  { intros v E1 E2. exists n. split; [done | congruence]. }
  pose proof Htok as (Hint & _ & _ & Hneg & Hflo). destruct (number_digits n Hn) as (Hd & _ & _).
  pose proof (digits_value_nonneg _ Hd) as Hpos.
  rewrite Hflo. destruct (nt_floating n) eqn:Ef.
  { eapply wp_conseq; [|by eapply wp_parse_floating]. intros v r' [-> E]. apply Hfl; [|done].
    unfold number_value. by rewrite Ef. }
  destruct Hint as [Hb Hs]. eapply wp_call.
  { apply (wp_magnitude_loop _ _ _ _ 0 (nt_integer n)); [unfold span_len; lia | | done |].
    - unfold span_len. by replace (_ + _)%nat with (span_end (tok_integer tok)) by lia.
    - change (MAX u64) with (2 ^ 64 - 1). lia. }
  intros m r' [-> ->]. apply wp_gets. rewrite Hopt.
  unfold number_value in Hfl |- *. setoid_rewrite Ef in Hfl.
  set (m := digits_value 0 (nt_integer n)) in *.
  destruct (m <=? MAX u64) eqn:Em.
  - rewrite Hneg. destruct (nt_negative n) eqn:Eneg; cbn [negb].
    2:{ apply wp_ret. exists n. split; [done|]. rewrite Ef, Eneg. fold m. by rewrite Em. }
    destruct (m =? 0) eqn:Em0.
    { eapply wp_conseq; [|by eapply wp_parse_floating]. intros v r' [-> E]. exists n. split; [done|].
      by rewrite Ef, Eneg; fold m; rewrite Em0. }
    apply (wp_option _ _ _ (2 ^ 63)); [by vm_compute|].
    destruct (2 ^ 63 <? m) eqn:Em63.
    { destruct (reject_integer_overflow (options_ r)) eqn:Erej; [by apply wp_error|].
      eapply wp_conseq; [|by eapply wp_parse_floating]. intros v r' [-> E]. exists n. split; [done|].
      rewrite Ef, Eneg. fold m. rewrite Em0. replace (m <=? 2 ^ 63) with false by lia. exact E. }
    assert (m <= 2 ^ 63) as Hle by lia.
    destruct (m =? 2 ^ 63) eqn:Eq.
    { apply wp_ret. exists n. split; [done|]. rewrite Ef, Eneg. fold m. rewrite Em0.
      replace (m <=? 2 ^ 63) with true by lia. replace m with (2 ^ 63) by lia. reflexivity. }
    apply (wp_option _ _ _ (- m)).
    { apply op_neg_exact; [done|]. unfold in_range. change (MIN i64) with (- 2 ^ 63).
      change (MAX i64) with (2 ^ 63 - 1). lia. }
    apply wp_ret. exists n. split; [done|]. rewrite Ef, Eneg. fold m. rewrite Em0.
    replace (m <=? 2 ^ 63) with true by lia. unfold from_i64.
    by replace (- m <? 0) with true by lia.
  - assert (forall x, nt_floating n = false -> (if reject_integer_overflow (options_ r) then None else float_value n) = Some x ->
      number_value (options_ r) n = Some x) as Hlarge.
    { intros x _ Hx. unfold number_value. rewrite Ef. fold m. rewrite Em.
      change (MAX u64) with (2 ^ 64 - 1) in Em. replace (m =? 0) with false by lia.
      replace (m <=? 2 ^ 63) with false by lia. by destruct (nt_negative n). }
    destruct (reject_integer_overflow (options_ r)) eqn:Erej; [by apply wp_error|].
    eapply wp_conseq; [|by eapply wp_parse_floating]. intros v r' [-> E]. exists n. split; [done|].
    specialize (Hlarge v Ef E). unfold number_value in Hlarge. rewrite Erej in Hlarge. exact Hlarge.
Qed.
End Conversion.

(** ** Containers *)

Lemma ws_app c w w' s : ws c w (w' ++ s) -> ws c w' s -> ws c (w ++ w') s.
Proof.
  intros Hw Hw'. remember (w' ++ s) as s0 eqn:Es. induction Hw; subst; cbn.
  - done.
  - by apply ws_char; auto.
  - rewrite <- app_assoc. apply ws_line; auto. by rewrite <- app_assoc.
  - rewrite <- app_assoc. cbn. apply ws_block; auto.
Qed.

Definition open_char (k : ValueKind) : Z := match k with KArray => 0x5b | _ => 0x7b end.

Lemma wp_begin_container lo hi k r :
  k = KArray \/ k = KObject -> ok lo hi r ->
  wp lo hi (begin_container k) r (fun _ r' => exists w w',
    goes r (w ++ open_char k :: w') (remaining_depth_ r - 1) r' /\ 1 < remaining_depth_ r /\
    ws (comments_of r) w (open_char k :: w' ++ rest r') /\ ws (comments_of r) w' (rest r') /\
    ok lo hi r').
Proof.
  intros Hk Ho. unfold begin_container. eapply wp_call; [by apply wp_value_kind|].
  intros kind r1 ((w & Hr & Hws & Hst & Ho1) & c & l & E & Hc).
  destruct (kind_eqb kind k) eqn:Ek; cbn [negb]; [|by apply wp_error].
  assert (kind = k) as -> by (by destruct kind, k). clear Ek.
  assert (c = open_char k) as -> by (by destruct Hk as [-> | ->]).
  apply wp_gets. rewrite (reads_depth _ _ _ Hr).
  destruct (remaining_depth_ r <=? 1) eqn:Ed; [by apply wp_error|].
  apply wp_bind. unfold wp at 1, modify.
  set (r2 := with_depth r1 (remaining_depth_ r - 1)).
  assert (goes r1 [] (remaining_depth_ r - 1) r2) as Hr2 by (split; [done|]; cbn; by rewrite step_0).
  assert (rest r2 = open_char k :: l) as E2 by done.
  assert (ok lo hi r2) as Ho2 by (eapply ok_goes_text; [exact Ho1 | exact Hr2 | apply is_text_nil]).
  apply (wp_take _ _ _ r2 _ l _ E2). destruct (reads_unit r2 _ l E2) as [Hr3 El].
  assert (0 <= open_char k < 128) as Hasc by (destruct k; cbn; lia).
  pose proof (ok_unit _ _ _ _ _ Ho2 E2 Hasc) as Ho3.
  eapply wp_conseq; [|by apply wp_consume_whitespace].
  intros [] r' (w' & Hr' & Hws' & Hst' & Ho').
  pose proof (goes_app _ _ _ _ _ _ _ (goes_app _ _ _ _ _ _ _ Hr Hr2) (reads_reads _ _ _ _ _ Hr3 Hr')) as Hall.
  rewrite app_nil_r in Hall. cbn [app] in Hall.
  change (remaining_depth_ r2) with (remaining_depth_ r - 1) in Hall.
  rewrite (comments_goes _ _ _ _ Hr3), (comments_goes _ _ _ _ Hr2), (comments_goes _ _ _ _ Hr) in *.
  exists w, w'. split_and!; [done | lia | | done | done].
  destruct Hr' as [E' _]. rewrite El in E'. rewrite E in Hws. by rewrite E' in Hws.
Qed.

(** The opening of [next_array] and [read_object_key] for another item. *)
Definition separator_post (lo hi : nat) (first : bool) (r r' : Reader) : Prop :=
  ok lo hi r' /\ rest r' <> [] /\
  if first then exists w, reads r w r' /\ ws (comments_of r) w (rest r')
  else exists w w', reads r (w ++ 0x2c :: w') r' /\
    ws (comments_of r) w (0x2c :: w' ++ rest r') /\ ws (comments_of r) w' (rest r').

Lemma wp_leave_container lo hi r c l :
  ok lo hi r -> rest r = c :: l -> 0 <= c < 128 ->
  wp lo hi leave_container r (fun _ r' => goes r [c] (remaining_depth_ r + 1) r' /\ ok lo hi r').
Proof.
  intros Ho E Hc. unfold leave_container. apply (wp_take _ _ _ r c l _ E). unfold wp, modify.
  destruct (reads_unit r c l E) as [Hr El].
  assert (goes (step 1 r) [] (remaining_depth_ r + 1)
    (with_depth (step 1 r) (remaining_depth_ (step 1 r) + 1))) as Hr2.
  { split; [done|]. cbn. by rewrite step_0, depth_step. }
  pose proof (goes_app _ _ _ _ _ _ _ Hr Hr2) as Hall. cbn [app] in Hall. split; [done|].
  eapply ok_goes_text; [done | exact Hall |]. apply text_ascii_cons; [done | apply is_text_nil].
Qed.

(** The shared part: whitespace, then the closing mark or a separator. *)
Lemma wp_next_item {B} lo hi (first : bool) (close : Z) ec ecomma (k : bool -> RM B) r Q :
  ok lo hi r -> 0 <= close < 128 -> close <> 0x2c ->
  (forall r' w, goes r (w ++ [close]) (remaining_depth_ r + 1) r' ->
     ws (comments_of r) w (close :: rest r') -> ok lo hi r' -> wp lo hi (k false) r' Q) ->
  (forall r', separator_post lo hi first r r' -> wp lo hi (k true) r' Q) ->
  wp lo hi
    (do* consume_whitespace ;;
     let* stop := gets eof in
     if (stop : bool) then error ec
     else
       let* p := gets peek in
       if p =? close then do* leave_container ;; k false
       else
         do* (if negb first then
                if negb (p =? 0x2c) then error ecomma
                else
                  do* take ;;
                  do* consume_whitespace ;;
                  let* stop := gets eof in
                  if (stop : bool) then error EofWhileParsingValue
                  else
                    let* p := gets peek in
                    if p =? close then error TrailingComma else ret tt
              else ret tt) ;;
         k true) r Q.
Proof.
  intros Ho Hcl Hne Hclose Hsep. eapply wp_call; [by apply wp_consume_whitespace|].
  intros [] r1 (w & Hr & Hws & Hst & Ho1).
  destruct (eof_cases r1) as [[He E]|[He (p & l & E)]]; [eauto with rstd|..]; apply wp_gets; rewrite He;
    [by apply wp_error|].
  apply wp_gets. rewrite (peek_rest r1 p l E). destruct (reads_unit r1 p l E) as [Hr1 El].
  destruct (p =? close) eqn:Ep.
  { assert (p = close) as -> by lia. eapply wp_call; [by eapply wp_leave_container|].
    intros [] r2 [Hr2 Ho2]. rewrite (reads_depth _ _ _ Hr) in Hr2. apply (Hclose r2 w); [by eapply goes_app | | done].
    destruct Hr2 as [E2 _]. cbn in E2. by rewrite E2 in Hws. }
  destruct first; cbn [negb].
  { apply wp_bind, wp_ret, Hsep. split_and!; [done | by rewrite E |]. by exists w. }
  destruct (p =? 0x2c) eqn:Ec; cbn [negb]; [|apply wp_bind; by apply wp_error].
  assert (p = 0x2c) as -> by lia. apply wp_bind, (wp_take _ _ _ r1 _ l _ E).
  pose proof (ok_unit _ _ _ _ _ Ho1 E ltac:(lia)) as Ho2.
  eapply wp_call; [by apply wp_consume_whitespace|]. intros [] r2 (w' & Hr2 & Hws2 & Hst2 & Ho3).
  rewrite (comments_goes _ _ _ _ Hr1), (comments_goes _ _ _ _ Hr) in *.
  destruct (eof_cases r2) as [[He2 E2]|[He2 (q & l2 & E2)]]; [eauto with rstd|..]; apply wp_gets; rewrite He2;
    [by apply wp_error|].
  apply wp_gets. rewrite (peek_rest r2 q l2 E2). destruct (q =? close); [by apply wp_error|].
  apply wp_ret, Hsep. split_and!; [done | by rewrite E2 |]. exists w, w'.
  pose proof (reads_reads _ _ _ _ _ Hr (reads_reads _ _ _ _ _ Hr1 Hr2)) as Hall. split_and!; [done | | done].
  destruct Hr2 as [E3 _]. rewrite El in E3. rewrite E, E3 in Hws. done.
Qed.

Lemma wp_next_array lo hi first r :
  ok lo hi r -> wp lo hi (next_array first) r (fun more r' =>
    if (more : bool) then separator_post lo hi first r r'
    else exists w, goes r (w ++ [0x5d]) (remaining_depth_ r + 1) r' /\
      ws (comments_of r) w (0x5d :: rest r') /\ ok lo hi r').
Proof.
  intros Ho. apply (wp_next_item lo hi first 0x5d _ _ (fun b => ret b)); [done | lia | lia | |].
  - intros r' w Hg Hw Ho'. apply wp_ret. by exists w.
  - intros r' Hs. by apply wp_ret.
Qed.

(** A key with its colon. *)
Lemma wp_key_colon lo hi r :
  ok lo hi r ->
  wp lo hi
    (let* p := gets peek in
     if negb (p =? 0x22) then error KeyMustBeAString
     else
       let* key := parse_string in
       do* consume_whitespace ;;
       let* stop := gets eof in
       if (stop : bool) then error EofWhileParsingObject
       else
         let* p := gets peek in
         if negb (p =? 0x3a) then error ExpectedColon
         else
           do* take ;;
           do* consume_whitespace ;;
           ret (Some key)) r
    (fun x r' => exists key body w1 w2, x = Some key /\
      reads r ((0x22 :: body ++ [0x22]) ++ w1 ++ 0x3a :: w2) r' /\
      ws (comments_of r) w1 (0x3a :: w2 ++ rest r') /\ ws (comments_of r) w2 (rest r') /\
      (utf16_ r = false -> jchars body key) /\ ok lo hi r').
Proof.
  intros Ho. apply wp_gets.
  destruct (eof_cases r) as [[He E]|[He (q & l & E)]]; [eauto with rstd|..].
  { unfold peek. rewrite peek_at_rest, E. by apply wp_error. }
  rewrite (peek_rest r q l E). destruct (q =? 0x22) eqn:Eq; cbn [negb]; [|by apply wp_error].
  assert (q = 0x22) as -> by lia. eapply wp_call; [by apply wp_parse_string|].
  intros key r1 (w & body & Hr & Hw & Ho1 & Hj).
  assert (w = []) as ->.
  { destruct Hr as [Er _]. rewrite E in Er. destruct Hw; [done| | |]; cbn in Er; injection Er as Ev _; subst; done. }
  cbn [app] in Hr. eapply wp_call; [by apply wp_consume_whitespace|].
  intros [] r2 (w1 & Hr2 & Hws & _ & Ho2). rewrite (comments_goes _ _ _ _ Hr) in *.
  destruct (eof_cases r2) as [[He2 E2]|[He2 (q & l2 & E2)]]; [eauto with rstd|..]; apply wp_gets; rewrite He2;
    [by apply wp_error|].
  apply wp_gets. rewrite (peek_rest r2 q l2 E2). destruct (q =? 0x3a) eqn:Eq2; cbn [negb]; [|by apply wp_error].
  assert (q = 0x3a) as -> by lia. apply (wp_take _ _ _ r2 _ l2 _ E2).
  destruct (reads_unit r2 _ l2 E2) as [Hr3 El]. pose proof (ok_unit _ _ _ _ _ Ho2 E2 ltac:(lia)) as Ho3.
  eapply wp_call; [by apply wp_consume_whitespace|]. intros [] r4 (w2 & Hr4 & Hws2 & _ & Ho4).
  rewrite (comments_goes _ _ _ _ Hr3), (comments_goes _ _ _ _ Hr2), (comments_goes _ _ _ _ Hr) in Hws2.
  apply wp_ret. exists key, body, w1, w2. split_and!; try done.
  - exact (reads_reads _ _ _ _ _ Hr (reads_reads _ _ _ _ _ Hr2 (reads_reads _ _ _ _ _ Hr3 Hr4))).
  - destruct Hr4 as [E4 _]. rewrite El in E4. by rewrite E2, E4 in Hws.
Qed.

Definition key_post (lo hi : nat) (first : bool) (r : Reader) (x : option (list Z)) (r' : Reader) : Prop :=
  match x with
  | None => exists w, goes r (w ++ [0x7d]) (remaining_depth_ r + 1) r' /\
      ws (comments_of r) w (0x7d :: rest r') /\ ok lo hi r'
  | Some key => exists r1 body w1 w2, separator_post lo hi first r r1 /\
      reads r1 ((0x22 :: body ++ [0x22]) ++ w1 ++ 0x3a :: w2) r' /\
      ws (comments_of r) w1 (0x3a :: w2 ++ rest r') /\ ws (comments_of r) w2 (rest r') /\
      (utf16_ r = false -> jchars body key) /\ ok lo hi r'
  end.

Lemma separator_goes lo hi first r r' : separator_post lo hi first r r' -> exists t, reads r t r'.
Proof.
  intros (_ & _ & H). destruct first; [destruct H as (w & ? & _); by exists w|].
  destruct H as (w & w' & ? & _). by eexists.
Qed.

Lemma wp_next_object_key lo hi first r :
  ok lo hi r -> wp lo hi (next_object_key first) r (key_post lo hi first r).
Proof.
  intros Ho. unfold next_object_key, read_object_key.
  apply (wp_next_item lo hi first 0x7d _ _ (fun b => if (b : bool) then _ else ret None)); [done | lia | lia | |].
  - intros r' w Hg Hw Ho'. apply wp_ret. by exists w.
  - intros r1 Hsep. eapply wp_conseq; [|apply wp_key_colon; apply Hsep].
    intros x r' (key & body & w1 & w2 & -> & Hr & Hw1 & Hw2 & Hj & Ho').
    destruct (separator_goes _ _ _ _ _ Hsep) as [t Ht].
    rewrite (comments_goes _ _ _ _ Ht), (goes_utf16 _ _ _ _ Ht) in *.
    by exists r1, body, w1, w2.
Qed.
