(* ===== verification/JsonComplete.v ===== *)
(** * The JSON parser accepts all of the grammar

    Running the reader forward: where the grammar derives a value, the reader
    consumes exactly its units and the parser returns it. *)

From Stdlib Require Import ZArith Lia ZifyBool.
From S2P Require Import Prelude Int Utf8 Str Cursor OrdMap FloatSpec Json JsonReader JsonParser JsonGrammar.
From S2P Require Import JsonRun JsonTokens.
Local Open Scope Z_scope.
Local Open Scope rstd_scope.

(** ** The JSON parser accepts only the grammar

    By induction on the fuel: with enough of it, [parse_value] and its loops
    never panic, never run out, locate their errors inside the input, and what
    they return is denoted by the units they consumed. *)

(** Over UTF-16 the grammar says nothing about the contents of strings. *)
Definition string_rel (wide : bool) : list Z -> list Z -> Prop :=
  if wide then fun _ _ => True else jchars.

Lemma string_rel_intro wide body a : (wide = false -> jchars body a) -> string_rel wide body a.
Proof. intros H. destruct wide; [done | by apply H]. Qed.

Section Sound.
Context `{DecimalConversionLaws}.

Definition gval (r : Reader) := gvalue (options_ r) (string_rel (utf16_ r)).
Definition gels (r : Reader) := gelems (options_ r) (string_rel (utf16_ r)).
Definition gmem (r : Reader) := gmembers (options_ r) (string_rel (utf16_ r)).

Lemma gval_goes r t d r' : goes r t d r' -> gval r' = gval r.
Proof. intros Hg. unfold gval. by rewrite (goes_options _ _ _ _ Hg), (goes_utf16 _ _ _ _ Hg). Qed.

Lemma gels_goes r t d r' : goes r t d r' -> gels r' = gels r.
Proof. intros Hg. unfold gels. by rewrite (goes_options _ _ _ _ Hg), (goes_utf16 _ _ _ _ Hg). Qed.

Lemma gmem_goes r t d r' : goes r t d r' -> gmem r' = gmem r.
Proof. intros Hg. unfold gmem. by rewrite (goes_options _ _ _ _ Hg), (goes_utf16 _ _ _ _ Hg). Qed.

(** Whitespace before the first item belongs to the container. *)
Lemma gelems_ws o J d w t vs s :
  ws (allow_comments o) w (t ++ s) -> gelems o J d true t vs s -> gelems o J d true (w ++ t) vs s.
Proof.
  intros Hw Hg. inversion Hg; subst.
  - rewrite app_assoc. apply ge_end. apply ws_app; [|done]. by rewrite <- app_assoc in Hw.
  - rewrite app_assoc. eapply ge_first; [|done..]. apply ws_app; [|done].
    by rewrite <- !app_assoc in Hw.
Qed.

Lemma gmembers_ws o J d w t kvs s :
  ws (allow_comments o) w (t ++ s) -> gmembers o J d true t kvs s -> gmembers o J d true (w ++ t) kvs s.
Proof.
  intros Hw Hg. inversion Hg; subst.
  - rewrite app_assoc. apply gm_end. apply ws_app; [|done]. by rewrite <- app_assoc in Hw.
  - rewrite app_assoc. eapply gm_first; [|done..]. apply ws_app; [|done].
    by rewrite <- !app_assoc in Hw.
Qed.

(** ** What each loop establishes *)

Definition value_post (lo hi : nat) (r : Reader) (v : Value) (r' : Reader) : Prop :=
  exists w t, reads r (w ++ t) r' /\ ws (comments_of r) w (t ++ rest r') /\
    gval r (remaining_depth_ r) t v (rest r') /\ t <> [] /\ ok lo hi r'.

Definition elements_post (lo hi : nat) (first : bool) (acc : list Value) (r : Reader)
    (v : Value) (r' : Reader) : Prop :=
  exists t vs, v = VArray (acc ++ vs) /\ goes r t (remaining_depth_ r + 1) r' /\
    gels r (remaining_depth_ r) first t vs (rest r') /\ ok lo hi r'.

Definition fresh (m : omap (list Z) Value) (kvs : list (list Z * Value)) : Prop :=
  NoDup (map fst kvs) /\ Forall (fun kv => map_get (fst kv) m = None) kvs.

Definition insert_all (m : omap (list Z) Value) (kvs : list (list Z * Value)) :=
  foldl (fun m kv => snd (map_insert (fst kv) (snd kv) m)) m kvs.

Definition members_post (lo hi : nat) (first : bool) (m : omap (list Z) Value) (r : Reader)
    (v : Value) (r' : Reader) : Prop :=
  exists t kvs, v = VObject (insert_all m kvs) /\ goes r t (remaining_depth_ r + 1) r' /\
    gmem r (remaining_depth_ r) first t kvs (rest r') /\
    (reject_duplicate_keys (options_ r) = true -> fresh m kvs) /\ ok lo hi r'.

Lemma fresh_cons m k v kvs :
  sorted_keys m -> map_get k m = None -> fresh (snd (map_insert k v m)) kvs -> fresh m ((k, v) :: kvs).
Proof.
  intros Hs Hk [Hd Hf].
  assert (Forall (fun kv => fst kv <> k /\ map_get (fst kv) m = None) kvs) as Hf'.
  { eapply Forall_impl; [|exact Hf]. intros [k' v'] Hg. cbn in *.
    destruct (map_insert_get k v m k' Hs) as [_ E]. rewrite E in Hg.
    destruct (cmp k' k) eqn:Ec; [done| |]; (split; [|done]); intros ->; by rewrite cmp_refl in Ec. }
  split.
  - cbn. constructor; [|done]. intros Hin. apply list_elem_of_fmap in Hin as ([k' v'] & -> & Hin).
    rewrite list.Forall_forall in Hf'. by destruct (Hf' _ Hin) as [? _].
  - constructor; [done|]. eapply Forall_impl; [|exact Hf']. by intros ? [_ ?].
Qed.

(** An item after its separator. *)
Lemma gels_item lo hi first r r1 w t v t' vs s :
  separator_post lo hi first r r1 -> ws (comments_of r) w (t ++ t' ++ s) -> rest r1 = w ++ t ++ t' ++ s ->
  gval r (remaining_depth_ r) t v (t' ++ s) -> gels r (remaining_depth_ r) false t' vs s ->
  exists pre, reads r pre r1 /\ gels r (remaining_depth_ r) first (pre ++ w ++ t ++ t') (v :: vs) s.
Proof.
  intros (_ & _ & Hsep) Hw E Hv Hvs. destruct first.
  - destruct Hsep as (w0 & Hr & Hw0). rewrite E in Hw0. exists w0. split; [done|].
    rewrite app_assoc. eapply ge_first; [|done..]. by apply ws_app.
  - destruct Hsep as (w0 & w1 & Hr & Hw0 & Hw1). rewrite E in Hw0, Hw1.
    exists (w0 ++ 0x2c :: w1). split; [done|]. rewrite <- app_assoc. cbn [app].
    rewrite (app_assoc w1). eapply ge_next; [|by apply ws_app|done..]. by rewrite <- app_assoc.
Qed.

Lemma gmem_item lo hi first r r1 t k v t' kvs s :
  separator_post lo hi first r r1 -> rest r1 = t ++ t' ++ s ->
  gmember (options_ r) (string_rel (utf16_ r)) (remaining_depth_ r) t k v (t' ++ s) ->
  gmem r (remaining_depth_ r) false t' kvs s ->
  exists pre, reads r pre r1 /\ gmem r (remaining_depth_ r) first (pre ++ t ++ t') ((k, v) :: kvs) s.
Proof.
  intros (_ & _ & Hsep) E Hv Hvs. destruct first.
  - destruct Hsep as (w0 & Hr & Hw0). rewrite E in Hw0. exists w0. split; [done|]. by eapply gm_first.
  - destruct Hsep as (w0 & w1 & Hr & Hw0 & Hw1). rewrite E in Hw0, Hw1.
    exists (w0 ++ 0x2c :: w1). split; [done|]. rewrite <- app_assoc. cbn [app]. by eapply gm_next.
Qed.

Lemma wp_parse_elements_step lo hi fuel first acc r :
  (forall r, ok lo hi r -> (2 * left_units r + 1 <= fuel)%nat -> wp lo hi (parse_value fuel) r (value_post lo hi r)) ->
  (forall acc r, ok lo hi r -> (2 * left_units r + 2 <= fuel)%nat ->
     wp lo hi (parse_elements fuel false acc) r (elements_post lo hi false acc r)) ->
  ok lo hi r -> (2 * left_units r + 2 <= S fuel)%nat ->
  wp lo hi (parse_elements (S fuel) first acc) r (elements_post lo hi first acc r).
Proof.
  intros IHv IHe Ho Hf. cbn [parse_elements]. eapply wp_call; [by apply wp_next_array|].
  intros more r1 Hm. destruct more; cbn [negb].
  2:{ destruct Hm as (w & Hg & Hw & Ho1). apply wp_ret. exists (w ++ [0x5d]), [].
      split_and!; [by rewrite app_nil_r | done | by apply ge_end | done]. }
  destruct (separator_goes _ _ _ _ _ Hm) as [t0 Ht0].
  pose proof (goes_left _ _ _ _ Ht0) as Hl0. pose proof (reads_depth _ _ _ Ht0) as Hd0.
  eapply wp_call; [apply IHv; [apply Hm | lia]|].
  intros v r2 (w & t & Hr & Hw & Hv & Hne & Ho2).
  pose proof (goes_left _ _ _ _ Hr) as Hl1. rewrite length_app in Hl1.
  pose proof (reads_depth _ _ _ Hr) as Hd1.
  eapply wp_conseq; [|apply IHe; [done | destruct t; [done | cbn in *; lia]]].
  intros v' r3 (t' & vs & -> & Hg & Hvs & Ho3). pose proof Hg as [E3 _]. pose proof Hr as [E2 _].
  rewrite (comments_goes _ _ _ _ Ht0) in Hw. rewrite (gval_goes _ _ _ _ Ht0), Hd0, E3 in Hv.
  rewrite (gels_goes _ _ _ _ Hr), (gels_goes _ _ _ _ Ht0), Hd1, Hd0 in Hvs. rewrite E3 in Hw.
  destruct (gels_item lo hi first r r1 w t v t' vs (rest r3)) as (pre & Hpre & Hgels); try done.
  { by rewrite E2, E3, <- app_assoc. }
  exists (pre ++ w ++ t ++ t'), (v :: vs).
  split_and!; [by rewrite <- app_assoc | | done | done].
  rewrite Hd1, Hd0 in Hg. rewrite (app_assoc w t). by eapply goes_app; [|eapply goes_app].
Qed.

Lemma wp_parse_members_step lo hi fuel first m r :
  (forall r, ok lo hi r -> (2 * left_units r + 1 <= fuel)%nat -> wp lo hi (parse_value fuel) r (value_post lo hi r)) ->
  (forall m r, sorted_keys m -> ok lo hi r -> (2 * left_units r + 2 <= fuel)%nat ->
     wp lo hi (parse_members fuel false m) r (members_post lo hi false m r)) ->
  sorted_keys m -> ok lo hi r -> (2 * left_units r + 2 <= S fuel)%nat ->
  wp lo hi (parse_members (S fuel) first m) r (members_post lo hi first m r).
Proof.
  intros IHv IHm Hs Ho Hf. cbn [parse_members]. eapply wp_call; [by apply wp_next_object_key|].
  intros [key|] r1 Hk; cbn in Hk.
  2:{ destruct Hk as (w & Hg & Hw & Ho1). apply wp_ret. exists (w ++ [0x7d]), [].
      split_and!; [done | done | by apply gm_end | | done]. intros _. split; constructor. }
  destruct Hk as (r0 & body & w1 & w2 & Hsep & Hr01 & Hw1 & Hw2 & Hj & Ho1).
  destruct (separator_goes _ _ _ _ _ Hsep) as [t0 Ht0].
  pose proof (goes_left _ _ _ _ Ht0) as Hl0. pose proof (reads_depth _ _ _ Ht0) as Hd0.
  pose proof (goes_left _ _ _ _ Hr01) as Hl01. pose proof (reads_depth _ _ _ Hr01) as Hd01.
  cbn [app length] in Hl01.
  eapply wp_call; [apply IHv; [done | lia]|]. intros v r2 (w & t & Hr & Hw & Hv & Hne & Ho2).
  pose proof (goes_left _ _ _ _ Hr) as Hl1. pose proof (reads_depth _ _ _ Hr) as Hd1.
  pose proof (map_insert_get key v m key Hs) as [Hprev _].
  pose proof (map_insert_sorted key v m Hs) as Hs'.
  destruct (map_insert key v m) as [previous m'] eqn:Ei. cbn [fst snd] in *. apply wp_gets.
  assert (options_ r2 = options_ r) as Hopt.
  { by rewrite (goes_options _ _ _ _ Hr), (goes_options _ _ _ _ Hr01), (goes_options _ _ _ _ Ht0). }
  rewrite Hopt. destruct (reject_duplicate_keys (options_ r) && bool_decide (is_Some previous)) eqn:Edup;
    [by apply wp_error|].
  eapply wp_conseq; [|apply IHm; [done | done | lia]].
  intros v' r3 (t' & kvs & -> & Hg & Hkvs & Hfresh & Ho3). pose proof Hg as [E3 _]. pose proof Hr as [E2 _].
  pose proof Hr01 as [E1 _]. rewrite Hopt in Hfresh.
  rewrite (comments_goes _ _ _ _ Hr01), (comments_goes _ _ _ _ Ht0) in Hw.
  rewrite (gval_goes _ _ _ _ Hr01), (gval_goes _ _ _ _ Ht0), Hd01, Hd0, E3 in Hv.
  rewrite (gmem_goes _ _ _ _ Hr), (gmem_goes _ _ _ _ Hr01), (gmem_goes _ _ _ _ Ht0), Hd1, Hd01, Hd0 in Hkvs.
  rewrite E2, E3, <- app_assoc in Hw1, Hw2. rewrite E3 in Hw.
  destruct (gmem_item lo hi first r r0 ((0x22 :: body ++ [0x22]) ++ w1 ++ 0x3a :: (w2 ++ w) ++ t)
    key v t' kvs (rest r3)) as (pre & Hpre & Hgm); try done.
  { rewrite E1, E2, E3. cbn [app]. by repeat (rewrite <- !app_assoc; cbn [app]). }
  { constructor; [by apply string_rel_intro | by rewrite <- app_assoc | by apply ws_app | done]. }
  eexists _, ((key, v) :: kvs). split_and!; [| | exact Hgm | | done].
  - cbn. by rewrite Ei.
  - rewrite Hd1, Hd01, Hd0 in Hg. eapply goes_app; [exact Hpre|].
    assert (reads r0 (((0x22 :: body ++ [0x22]) ++ w1 ++ 0x3a :: w2) ++ w ++ t) r2) as Hr02
      by (by eapply reads_reads).
    replace ((0x22 :: body ++ [0x22]) ++ w1 ++ 0x3a :: (w2 ++ w) ++ t) with
      (((0x22 :: body ++ [0x22]) ++ w1 ++ 0x3a :: w2) ++ w ++ t)
      by (cbn [app]; repeat (rewrite <- !app_assoc; cbn [app]); done).
    by eapply goes_app.
  - intros Hrej. rewrite Hrej in Edup. apply fresh_cons; [done | |by rewrite Ei; apply Hfresh].
    rewrite <- Hprev. by destruct previous.
Qed.

Lemma wp_scalar {A} lo hi k r r1 w c l (m : RM A) (f : A -> Value) Q :
  reads r w r1 -> ws (comments_of r) w (rest r1) -> ok lo hi r1 ->
  rest r1 = c :: l -> kind_char k c ->
  wp lo hi m r1 Q ->
  (forall a r', Q a r' -> exists w' t, reads r1 (w' ++ t) r' /\ ws (comments_of r1) w' (t ++ rest r') /\
     gval r (remaining_depth_ r) t (f a) (rest r') /\ t <> [] /\ ok lo hi r') ->
  wp lo hi (bind m (fun a => ret (f a))) r1 (value_post lo hi r).
Proof.
  intros Hr Hw Ho E Hk Hm Hq. eapply wp_call; [exact Hm|]. intros a r' Ha. apply wp_ret.
  destruct (Hq a r' Ha) as (w' & t & Hr' & Hw' & Hv & Hne & Ho').
  rewrite (comments_goes _ _ _ _ Hr) in Hw'. exists (w ++ w'), t. pose proof Hr' as [E' _].
  split_and!; try done.
  - rewrite <- app_assoc. by eapply reads_reads.
  - apply ws_app; [|done]. rewrite E' in Hw. by rewrite <- app_assoc in Hw.
Qed.

Lemma wp_literal lo hi k lit r c l :
  ok lo hi r -> rest r = c :: l -> kind_char k c -> Forall (fun v => 0 <= v < 128) lit ->
  wp lo hi (let* kind := value_kind in
            if negb (kind_eqb kind k) then error ExpectedSomeValue else consume_ident lit) r
    (fun _ r' => reads r lit r' /\ ok lo hi r').
Proof.
  intros Ho E Hk Hl. apply wp_bind. unfold wp at 1. rewrite (value_kind_id k r c l) by eauto with rstd.
  rewrite kind_eqb_refl. by apply wp_consume_ident.
Qed.

Lemma wp_parse_bool lo hi r c l :
  ok lo hi r -> rest r = c :: l -> kind_char KBoolean c ->
  wp lo hi parse_bool r (fun b r' => reads r (if (b : bool) then lit_true else lit_false) r' /\ ok lo hi r').
Proof.
  intros Ho E Hk. unfold parse_bool. apply wp_bind. unfold wp at 1.
  rewrite (value_kind_id KBoolean r c l) by eauto with rstd. cbn [kind_eqb negb].
  apply wp_gets. rewrite (peek_rest r c l E). eapply wp_call.
  - apply wp_consume_ident; [done|]. by case_if; repeat constructor.
  - intros [] r' Hr. by apply wp_ret.
Qed.

Lemma number_units_nonempty n : number_wf n -> number_units n <> [].
Proof.
  intros (Hi & _). destruct (integer_digits _ Hi) as [_ Hne]. unfold number_units.
  destruct (nt_negative n); [done|]. destruct (nt_integer n); done.
Qed.

Lemma value_post_container lo hi k r r1 r2 w w1 w' t v :
  k = KArray \/ k = KObject ->
  reads r w r1 -> ws (comments_of r) w (rest r1) ->
  goes r1 (w1 ++ open_char k :: w') (remaining_depth_ r1 - 1) r2 ->
  ws (comments_of r1) w1 (open_char k :: w' ++ rest r2) ->
  forall r', goes r2 t (remaining_depth_ r2 + 1) r' -> ok lo hi r' ->
  gval r (remaining_depth_ r) (open_char k :: w' ++ t) v (rest r') ->
  value_post lo hi r v r'.
Proof.
  intros Hk Hr Hw Hr1 Hw1 r' Hr' Ho' Hv.
  rewrite (comments_goes _ _ _ _ Hr) in Hw1. pose proof Hr1 as [E1 _]. pose proof Hr' as [E' _].
  exists (w ++ w1), (open_char k :: w' ++ t). split_and!; try done.
  - rewrite (goes_depth _ _ _ _ Hr1), (reads_depth _ _ _ Hr) in Hr'.
    replace (remaining_depth_ r - 1 + 1) with (remaining_depth_ r) in Hr' by lia.
    pose proof (goes_app _ _ _ _ _ _ _ Hr (goes_app _ _ _ _ _ _ _ Hr1 Hr')) as Hall.
    unfold reads. rewrite <- !app_assoc in Hall |- *. cbn [app] in Hall. exact Hall.
  - rewrite E' in Hw1. rewrite E1, E', <- app_assoc in Hw.
    apply ws_app; cbn [app]; by rewrite <- app_assoc.
Qed.

(** With enough fuel, parsing meets its postconditions. *)
Lemma wp_parse_all lo hi fuel :
  (forall r, ok lo hi r -> (2 * left_units r + 1 <= fuel)%nat ->
     wp lo hi (parse_value fuel) r (value_post lo hi r)) /\
  (forall first acc r, ok lo hi r -> (2 * left_units r + 2 <= fuel)%nat ->
     wp lo hi (parse_elements fuel first acc) r (elements_post lo hi first acc r)) /\
  (forall first m r, sorted_keys m -> ok lo hi r -> (2 * left_units r + 2 <= fuel)%nat ->
     wp lo hi (parse_members fuel first m) r (members_post lo hi first m r)).
Proof.
  induction fuel as [|fuel (IHv & IHe & IHm)]; [split_and!; intros; lia|].
  split_and!; [|intros; apply wp_parse_elements_step; auto..|intros; apply wp_parse_members_step; auto].
  intros r Ho Hf. cbn [parse_value]. eapply wp_call; [by apply wp_value_kind|].
  intros kind r1 ((w & Hr & Hw & _ & Ho1) & c & l & E & Hk).
  pose proof (goes_left _ _ _ _ Hr) as Hl.
  assert (gval r1 = gval r) as Hgv by (by eapply gval_goes).
  destruct kind.
  - eapply (wp_scalar _ _ KNull _ _ _ _ _ _ (fun _ => VNull)); [done..| |].
    { apply (wp_literal lo hi KNull lit_null r1 c l); [done..|]. unfold lit_null. repeat constructor; lia. }
    intros [] r' [Hr' Ho']. exists [], lit_null. split_and!; try done; [constructor | apply g_null].
  - eapply (wp_scalar _ _ KBoolean _ _ _ _ _ _ VBool); [done..| by eapply wp_parse_bool |].
    intros b r' [Hr' Ho']. exists [], (if b then lit_true else lit_false).
    split_and!; try done; [constructor | destruct b; [apply g_true | apply g_false] | by destruct b].
  - eapply (wp_scalar _ _ KNumber _ _ _ _ _ _ VNumber); [done..| by apply wp_parse_number |].
    intros v r' (n & (w' & Hr' & Hw' & Hn & Ho') & Hv). exists w', (number_units n).
    split_and!; try done; [|by apply number_units_nonempty].
    apply g_number; [done|]. by rewrite <- (goes_options _ _ _ _ Hr).
  - eapply (wp_scalar _ _ KString _ _ _ _ _ _ VString); [done..| by apply wp_parse_string |].
    intros a r' (w' & body & Hr' & Hw' & Ho' & Hj). exists w', (0x22 :: body ++ [0x22]).
    split_and!; try done.
    + cbn [app]. by rewrite <- app_assoc.
    + apply g_string, string_rel_intro. by rewrite <- (goes_utf16 _ _ _ _ Hr).
  - eapply wp_call; [apply (wp_begin_container _ _ KArray); [by left | done]|].
    intros [] r2 (w1 & w' & Hr2 & Hdep & Hw1 & Hw' & Ho2). pose proof (goes_left _ _ _ _ Hr2) as Hl2.
    rewrite length_app in Hl2. cbn in Hl2.
    eapply wp_conseq; [|apply IHe; [done | lia]].
    intros v r' (t & vs & -> & Hr' & Hg & Ho'). pose proof Hr' as [E' _].
    eapply (value_post_container _ _ KArray); [by left | done..|].
    rewrite (gels_goes _ _ _ _ Hr2), (gels_goes _ _ _ _ Hr), (goes_depth _ _ _ _ Hr2),
      (reads_depth _ _ _ Hr) in Hg. rewrite (reads_depth _ _ _ Hr) in Hdep.
    apply g_array; [done|]. apply gelems_ws; [|done].
    rewrite (comments_goes _ _ _ _ Hr) in Hw'. by rewrite E' in Hw'.
  - eapply wp_call; [apply (wp_begin_container _ _ KObject); [by right | done]|].
    intros [] r2 (w1 & w' & Hr2 & Hdep & Hw1 & Hw' & Ho2). pose proof (goes_left _ _ _ _ Hr2) as Hl2.
    rewrite length_app in Hl2. cbn in Hl2.
    eapply wp_conseq; [|apply IHm; [constructor | done | lia]].
    intros v r' (t & kvs & -> & Hr' & Hg & Hfr & Ho'). pose proof Hr' as [E' _].
    eapply (value_post_container _ _ KObject); [by right | done..|].
    rewrite (gmem_goes _ _ _ _ Hr2), (gmem_goes _ _ _ _ Hr), (goes_depth _ _ _ _ Hr2),
      (reads_depth _ _ _ Hr) in Hg. rewrite (reads_depth _ _ _ Hr) in Hdep.
    rewrite (goes_options _ _ _ _ Hr2), (goes_options _ _ _ _ Hr) in Hfr.
    apply g_object; [done | | by intros Hrej; apply Hfr].
    apply gmembers_ws; [|done].
    rewrite (comments_goes _ _ _ _ Hr) in Hw'. by rewrite E' in Hw'.
Qed.

Lemma wp_read_value lo hi r :
  ok lo hi r -> wp lo hi read_value r (value_post lo hi r).
Proof.
  intros Ho. unfold read_value. apply wp_gets, wp_parse_all; [done|]. unfold value_fuel. lia.
Qed.

Lemma wp_finish lo hi r :
  ok lo hi r -> wp lo hi finish r (fun _ r' => rest r' = [] /\ ws_post lo hi r r').
Proof.
  intros Ho. unfold finish. eapply wp_call; [by apply wp_consume_whitespace|].
  intros [] r1 Hw. assert (ok lo hi r1) as Ho1 by (by destruct Hw as (? & _ & _ & _ & ?)).
  destruct (eof_cases r1) as [[He E]|[He _]]; [eauto with rstd|..]; apply wp_gets; rewrite He;
    cbn [negb]; [by apply wp_ret | by apply wp_error].
Qed.

Lemma wp_parse lo hi r :
  ok lo hi r -> wp lo hi parse r (fun v r' => exists w t w', rest r = w ++ t ++ w' /\ rest r' = [] /\
    ws (comments_of r) w (t ++ w') /\ gval r (remaining_depth_ r) t v w' /\ ws (comments_of r) w' [] /\
    remaining_depth_ r' = remaining_depth_ r).
Proof.
  intros Ho. unfold parse. eapply wp_call; [by apply wp_read_value|].
  intros v r1 (w & t & Hr & Hw & Hv & _ & Ho1). eapply wp_call; [by apply wp_finish|].
  intros [] r2 (E2 & w' & Hr2 & Hw2 & _ & _). apply wp_ret. exists w, t, w'.
  pose proof Hr as [E _]. pose proof Hr2 as [E1 _]. rewrite E2, app_nil_r in E1.
  rewrite (comments_goes _ _ _ _ Hr), E2 in Hw2. rewrite E1 in Hw, Hv.
  split_and!; try done; [by rewrite E, E1, <- app_assoc|].
  by rewrite (reads_depth _ _ _ Hr2), (reads_depth _ _ _ Hr).
Qed.
End Sound.

(** Arithmetic on the lengths of concatenations. *)
Ltac len_lia := repeat progress (rewrite ?length_app; cbn [length app]); lia.

(** ** Running forward *)

Definition runs {A} (m : RM A) (r : Reader) (a : A) (r' : Reader) : Prop := m r = (Ret a, r').

Lemma runs_bind {A B} (m : RM A) (k : A -> RM B) r a r1 b r2 :
  runs m r a r1 -> runs (k a) r1 b r2 -> runs (bind m k) r b r2.
Proof. unfold runs, bind. by intros ->. Qed.

Lemma runs_gets {A B} (f : Reader -> A) (k : A -> RM B) r b r' :
  runs (k (f r)) r b r' -> runs (bind (gets f) k) r b r'.
Proof. done. Qed.

Lemma runs_ret {A} (a : A) r : runs (ret a) r a r.
Proof. done. Qed.

Lemma runs_option {A B} (o : option A) a (k : A -> RM B) r b r' :
  o = Some a -> runs (k a) r b r' -> runs (bind (of_option o) k) r b r'.
Proof. by intros ->. Qed.

Lemma runs_take {B} (k : Z -> RM B) r v l b r' :
  rest r = v :: l -> runs (k v) (step 1 r) b r' -> runs (bind take k) r b r'.
Proof. intros E. unfold runs, bind. by rewrite (take_rest r v l E). Qed.

(** A total specification without errors is a run. *)
Lemma runs_wp {A} (m : RM A) r Q : wp 1 0 m r Q -> exists a r', runs m r a r' /\ Q a r'.
Proof.
  unfold wp, runs, located. destruct (m r) as [[a|e| |] r']; [by exists a, r' | lia | done | done].
Qed.

(** The state after consuming the front of the input. *)
Lemma reads_step r t s : rest r = t ++ s -> reads r t (step (length t) r) /\ rest (step (length t) r) = s.
Proof.
  intros E. assert (rest (step (length t) r) = s) as Es by (by rewrite rest_step, E, drop_app_length).
  split; [|done]. split; [by rewrite Es|]. by rewrite <- (depth_step (length t) r), with_depth_same.
Qed.

Lemma reads_is_step r t r' : reads r t r' -> r' = step (length t) r.
Proof. intros [_ ->]. by rewrite <- (depth_step (length t) r), with_depth_same. Qed.

Lemma step_app r t t' s :
  rest r = t ++ t' ++ s -> step (length t') (step (length t) r) = step (length (t ++ t')) r.
Proof. intros E. rewrite length_app. apply step_step. rewrite E, !length_app. lia. Qed.

Lemma ok_step_stop lo hi r t s :
  ok lo hi r -> rest r = t ++ s -> ascii_stop s -> ok lo hi (step (length t) r).
Proof.
  intros Ho E Hs. destruct (reads_step r t s E) as [Hr Es]. eapply ok_goes_stop; [done | exact Hr |].
  by rewrite Es.
Qed.

(** ** Runs of units and whitespace *)

Lemma run_unique test t s t' s' :
  t ++ s = t' ++ s' -> Forall (fun v => test v = true) t -> Forall (fun v => test v = true) t' ->
  run_ends test s -> run_ends test s' -> t = t' /\ s = s'.
Proof.
  revert t'. induction t as [|v t IH]; intros [|v' t'] E Ht Ht' Hs Hs'; cbn in *.
  - done.
  - subst s. cbn in Hs. inversion Ht'. congruence.
  - subst s'. cbn in Hs'. inversion Ht. congruence.
  - injection E as -> E. inversion Ht; inversion Ht'; subst. destruct (IH t') as [-> ->]; try done.
Qed.

Lemma runs_skip_units test r t s :
  inv0 r -> rest r = t ++ s -> Forall (fun v => test v = true) t -> run_ends test s ->
  runs (skip_units test) r tt (step (length t) r).
Proof.
  intros Hi E Ht Hs. destruct (skip_units_spec test r Hi) as (t' & r' & Er & Hr & Ht' & Hs').
  destruct Hr as [E' Er']. assert (reads r t' r') as Hr by done. rewrite E' in E.
  destruct (run_unique test t' (rest r') t s) as [-> _]; try done.
  unfold runs. rewrite Er. f_equal. by apply reads_is_step.
Qed.

Lemma first_close body s body' s' :
  body ++ 0x2a :: 0x2f :: s = body' ++ 0x2a :: 0x2f :: s' ->
  (forall a b, body ++ [0x2a] <> a ++ 0x2a :: 0x2f :: b) ->
  (forall a b, body' ++ [0x2a] <> a ++ 0x2a :: 0x2f :: b) -> body = body' /\ s = s'.
Proof.
  assert (forall x y s s', x ++ 0x2a :: 0x2f :: s = y ++ 0x2a :: 0x2f :: s' ->
    (length x < length y)%nat -> exists b, y ++ [0x2a] = x ++ 0x2a :: 0x2f :: b) as Hlt.
  { intros x. induction x as [|v x IH]; intros y s0 s0' E Hl.
    - destruct y as [|v y]; cbn in *; [lia|]. injection E as <- E.
      destruct y as [|v' y]; cbn in *; [done|]. injection E as <- E. by exists (y ++ [0x2a]).
    - destruct y as [|v' y]; cbn in *; [lia|]. injection E as -> E.
      destruct (IH y _ _ E) as [b Hb]; [lia|]. exists b. by rewrite Hb. }
  intros E H1 H2. destruct (lt_eq_lt_dec (length body) (length body')) as [[Hl|Hl]|Hl].
  - destruct (Hlt _ _ _ _ E Hl) as [b Hb]. by destruct (H2 body b).
  - apply app_inj_1 in E as [-> E]; [|done]. by injection E as ->.
  - destruct (Hlt _ _ _ _ (eq_sym E) Hl) as [b Hb]. by destruct (H1 body' b).
Qed.

Lemma runs_block_comment r body s fuel :
  inv0 r -> (left_units r < fuel)%nat -> rest r = body ++ 0x2a :: 0x2f :: s ->
  (forall a b, body ++ [0x2a] <> a ++ 0x2a :: 0x2f :: b) ->
  runs (block_comment fuel) r true (step (length (body ++ [0x2a; 0x2f])) r).
Proof.
  intros Hi Hf E Hno. destruct (block_comment_spec fuel r Hi Hf) as (t & r' & closed & Er & Hr & Hc).
  unfold runs. rewrite Er. pose proof Hr as [E' _]. rewrite E in E'. destruct closed.
  - destruct Hc as (body' & -> & Hno'). rewrite <- app_assoc in E'. cbn [app] in E'.
    destruct (first_close _ _ _ _ E' Hno Hno') as [-> _]. f_equal. by apply reads_is_step.
  - destruct Hc as [Hn Hno']. rewrite Hn, app_nil_r in E'. by destruct (Hno' body s).
Qed.

Lemma runs_whitespace_loop fuel r w s :
  inv0 r -> (left_units r < fuel)%nat -> rest r = w ++ s ->
  ws (comments_of r) w s -> ws_stops (comments_of r) s ->
  runs (whitespace_loop fuel) r tt (step (length w) r).
Proof.
  intros Hi Hf E Hw Hs. remember (comments_of r) as c eqn:Hc. revert r fuel Hi Hf E Hc.
  induction Hw as [s|v w s Hv Hw IH|body w s Hcm Hbody Hnl Hw IH|body w s Hcm Hbody Hw IH];
    intros r fuel Hi Hf E Hc; (destruct fuel as [|fuel]; [lia|]); cbn [whitespace_loop]; apply runs_gets.
  - cbn in E. rewrite step_0. destruct s as [|v l].
    { apply eof_rest in E; [|done]. rewrite E. apply runs_ret. }
    rewrite (eof_false r v l Hi E). apply runs_gets. rewrite (peek_rest r v l E).
    destruct Hs as [-> Hs]. apply runs_gets. fold (comments_of r). rewrite <- Hc.
    destruct c; cbn [negb orb]; [|apply runs_ret].
    destruct (v =? 0x2f) eqn:Ev; cbn [negb]; [|apply runs_ret]. apply runs_gets.
    rewrite peek_at_rest, E. destruct Hs as [?|[?|Hs]]; [done | lia |].
    destruct l as [|v' l]; [apply runs_ret|]. change (default 0 ((v :: v' :: l) !! 1%nat)) with v'.
    replace (v' =? 0x2f) with false by lia. replace (v' =? 0x2a) with false by lia. apply runs_ret.
  - cbn in E. rewrite (eof_false r v (w ++ s) Hi E). apply runs_gets. rewrite (peek_rest r v _ E), Hv.
    destruct (reads_unit r v _ E) as [Hr El]. eapply runs_take; [exact E|].
    pose proof (goes_left _ _ _ _ Hr) as Hl. cbn in Hl.
    change (length (v :: w)) with (1 + length w)%nat. rewrite <- step_step by (rewrite E; cbn; rewrite length_app; lia).
    apply IH; [done | by eapply inv0_goes | lia | done | by rewrite (comments_goes _ _ _ _ Hr)].
  - cbn in E. rewrite (eof_false r _ _ Hi E). apply runs_gets. rewrite (peek_rest r _ _ E).
    change (is_whitespace 0x2f) with false. cbn iota. apply runs_gets. fold (comments_of r).
    rewrite <- Hc, Hcm. cbn [negb orb Z.eqb]. apply runs_gets. rewrite peek_at_rest, E.
    destruct (reads_unit r _ _ E) as [Hr1 El1]. destruct (reads_unit (step 1 r) _ _ El1) as [Hr2 El2].
    pose proof (reads_reads _ _ _ _ _ Hr1 Hr2) as Hr. cbn [app] in Hr.
    eapply runs_take; [exact E|]. eapply runs_take; [exact El1|].
    rewrite <- app_assoc in El2. eapply runs_bind.
    { apply (runs_skip_units _ _ body (w ++ s)); [by eapply inv0_goes | done | |].
      - eapply Forall_impl; [|exact Hbody]. cbn. lia.
      - destruct Hnl as [->|[u ->]]; done. }
    destruct (reads_step _ body (w ++ s) El2) as [Hr3 El3].
    pose proof (reads_reads _ _ _ _ _ Hr Hr3) as Hr4.
    replace (step (length (47 :: 47 :: body ++ w)) r) with (step (length w) (step (length body) (step 1 (step 1 r)))).
    2:{ rewrite (reads_is_step _ _ _ Hr4), step_step.
        - f_equal. cbn. rewrite !length_app. cbn. lia.
        - cbn. rewrite E. cbn. rewrite !length_app. lia. }
    pose proof (goes_left _ _ _ _ Hr4) as Hl. rewrite length_app in Hl. cbn in Hl.
    apply IH; [done | by eapply inv0_goes | lia | done | by rewrite (comments_goes _ _ _ _ Hr4)].
  - cbn in E. rewrite (eof_false r _ _ Hi E). apply runs_gets. rewrite (peek_rest r _ _ E).
    change (is_whitespace 0x2f) with false. cbn iota. apply runs_gets. fold (comments_of r).
    rewrite <- Hc, Hcm. cbn [negb orb Z.eqb]. apply runs_gets. rewrite peek_at_rest, E.
    destruct (reads_unit r _ _ E) as [Hr1 El1]. destruct (reads_unit (step 1 r) _ _ El1) as [Hr2 El2].
    pose proof (reads_reads _ _ _ _ _ Hr1 Hr2) as Hr. cbn [app] in Hr.
    eapply runs_take; [exact E|]. eapply runs_take; [exact El1|]. apply runs_gets.
    rewrite <- app_assoc in El2. cbn [app] in El2. eapply runs_bind.
    { apply (runs_block_comment _ body (w ++ s)); [by eapply inv0_goes | lia | done | done]. }
    cbn [negb]. replace (body ++ 42 :: 47 :: w ++ s) with ((body ++ [42; 47]) ++ w ++ s) in El2
      by (by rewrite <- app_assoc).
    destruct (reads_step _ _ _ El2) as [Hr3 El3].
    pose proof (reads_reads _ _ _ _ _ Hr Hr3) as Hr4.
    replace (step (length (47 :: 42 :: body ++ 42 :: 47 :: w)) r) with
      (step (length w) (step (length (body ++ [42; 47])) (step 1 (step 1 r)))).
    2:{ rewrite (reads_is_step _ _ _ Hr4), step_step.
        - f_equal. cbn. rewrite !length_app. cbn. lia.
        - cbn. rewrite E. cbn. rewrite ?length_app. cbn. rewrite ?length_app. cbn. lia. }
    pose proof (goes_left _ _ _ _ Hr4) as Hl. rewrite length_app in Hl. cbn in Hl.
    apply IH; [done | by eapply inv0_goes | lia | done | by rewrite (comments_goes _ _ _ _ Hr4)].
Qed.

Lemma runs_consume_whitespace r w s :
  inv0 r -> rest r = w ++ s -> ws (comments_of r) w s -> ws_stops (comments_of r) s ->
  runs consume_whitespace r tt (step (length w) r).
Proof. intros. apply runs_gets. eapply runs_whitespace_loop; [done | lia | done..]. Qed.

(** ** Kinds, literals and strings *)

Lemma ws_stops_kind c k x l : kind_char k x -> ws_stops c (x :: l).
Proof. intros Hk. destruct (kind_char_plain k x Hk) as (? & ? & _). split; [done|]. by right; left. Qed.

Lemma runs_value_kind k r w x l :
  inv0 r -> rest r = w ++ x :: l -> ws (comments_of r) w (x :: l) -> kind_char k x ->
  runs value_kind r k (step (length w) r).
Proof.
  intros Hi E Hw Hk. eapply runs_bind; [by eapply runs_consume_whitespace, ws_stops_kind|].
  destruct (reads_step r w (x :: l) E) as [Hr El].
  apply (value_kind_tail k _ x l); [by eapply inv0_goes | done | done].
Qed.

Lemma runs_consume_ident value r s :
  inv0 r -> rest r = value ++ s -> runs (consume_ident value) r tt (step (length value) r).
Proof.
  revert r. induction value as [|v value IH]; intros r Hi E; cbn [consume_ident length].
  { rewrite step_0. apply runs_ret. }
  cbn in E. apply runs_gets. rewrite (eof_false r _ _ Hi E). apply runs_gets.
  rewrite (peek_rest r _ _ E), Z.eqb_refl. cbn [negb]. destruct (reads_unit r _ _ E) as [Hr El].
  eapply runs_take; [exact E|].
  change (S (length value)) with (1 + length value)%nat.
  rewrite <- step_step by (rewrite E; cbn; rewrite length_app; lia).
  apply IH; [by eapply inv0_goes | done].
Qed.

Lemma runs_hex_digits n v h r s :
  inv0 r -> rest r = h ++ s -> length h = n -> Forall (fun c => is_Some (hex_value c)) h ->
  0 <= v -> (v + 1) * 16 ^ Z.of_nat n <= 65536 ->
  runs (hex_digits n v) r (hex_fold v h) (step n r).
Proof.
  revert v h r. induction n as [|n IH]; intros v h r Hi E Hl Hh Hv Hn; cbn [hex_digits].
  { destruct h; [|done]. rewrite step_0. apply runs_ret. }
  destruct h as [|c h]; [done|]. cbn in E, Hl. injection Hl as Hl.
  apply Forall_cons_1 in Hh as [[d Hd] Hh]. destruct (hex_value_range c d Hd) as [Hdr _].
  apply runs_gets. rewrite (eof_false r _ _ Hi E). apply runs_gets. rewrite (peek_rest r _ _ E).
  fold (hex_value c). rewrite Hd. eapply runs_take; [exact E|].
  rewrite Nat2Z.inj_succ, Z.pow_succ_r in Hn by lia.
  assert (0 < 16 ^ Z.of_nat n) as HP by lia. set (P := 16 ^ Z.of_nat n) in *.
  assert ((v + 1) * 16 <= (v + 1) * (16 * P)) by (apply Z.mul_le_mono_nonneg_l; lia).
  apply (runs_option _ (v * 16)); [apply op_shl_u16; lia|]. rewrite lor_digit by lia.
  destruct (reads_unit r _ _ E) as [Hr El].
  replace (hex_fold v (c :: h)) with (hex_fold (v * 16 + d) h) by (by unfold hex_fold; cbn; rewrite Hd).
  change (S n) with (1 + n)%nat. rewrite <- step_step by (rewrite E; cbn; rewrite length_app; lia).
  apply IH; [by eapply inv0_goes | done..| lia |]. fold P.
  assert ((v * 16 + d + 1) * P <= (v * 16 + 16) * P) by (apply Z.mul_le_mono_nonneg_r; lia). lia.
Qed.

Lemma hex4_is_fold h x : hex4 h x -> Forall (fun c => is_Some (hex_value c)) h /\ x = hex_fold 0 h.
Proof.
  destruct 1 as [a b c d x y z w Ha Hb Hc Hd]. split; [by repeat constructor; eexists|].
  unfold hex_fold. cbn [foldl]. rewrite Ha, Hb, Hc, Hd. cbn. unfold id. lia.
Qed.

Lemma runs_parse_hex_escape r h x s :
  inv0 r -> rest r = h ++ s -> hex4 h x -> runs parse_hex_escape r x (step (length h) r).
Proof.
  intros Hi E Hh. destruct (hex4_is_fold h x Hh) as [Hd ->]. destruct (hex4_range _ _ Hh) as (_ & _ & Hl).
  rewrite Hl. eapply runs_hex_digits; [done | exact E | done | done | lia | lia].
Qed.

Lemma runs_unicode_escape r e out s :
  inv0 r -> rest r = e ++ s -> unicode_escape e out ->
  runs (parse_unicode_escape OString) r out (step (length e) r).
Proof.
  intros Hi E He. unfold parse_unicode_escape. destruct He as [h cp Hh Hhi Hlo|h1 high h2 low Hh1 Hh2 Hhi Hlo].
  - eapply runs_bind; [by eapply runs_parse_hex_escape|]. rewrite Hlo, Hhi. apply runs_ret.
  - rewrite <- app_assoc in E. cbn [app] in E.
    eapply runs_bind; [by eapply runs_parse_hex_escape|].
    assert (is_low_surrogate high = false) as ->
      by (unfold is_low_surrogate; unfold is_high_surrogate in Hhi; lia).
    rewrite Hhi. cbn [negb]. destruct (reads_step r _ _ E) as [Hr1 E1].
    pose proof (inv0_goes _ _ _ _ Hi Hr1) as Hi1. set (r1 := step (length h1) r) in *.
    apply runs_gets. rewrite (eof_false r1 _ _ Hi1 E1). apply runs_gets. rewrite (peek_rest r1 _ _ E1).
    destruct (reads_unit r1 _ _ E1) as [Hr2 E2]. eapply runs_take; [exact E1|].
    pose proof (inv0_goes _ _ _ _ Hi1 Hr2) as Hi2.
    apply runs_gets. rewrite (eof_false _ _ _ Hi2 E2). apply runs_gets. rewrite (peek_rest _ _ _ E2).
    destruct (reads_unit _ _ _ E2) as [Hr3 E3]. eapply runs_take; [exact E2|].
    pose proof (inv0_goes _ _ _ _ Hi2 Hr3) as Hi3.
    eapply runs_bind; [by eapply runs_parse_hex_escape|]. rewrite Hlo. cbn [negb].
    rewrite surrogate_scalar by done.
    destruct (reads_step _ _ _ E3) as [Hr4 _].
    pose proof (reads_reads _ _ _ _ _ Hr1 (reads_reads _ _ _ _ _ Hr2 (reads_reads _ _ _ _ _ Hr3 Hr4))) as Hall.
    cbn [app] in Hall. rewrite <- (reads_is_step _ _ _ Hall). apply runs_ret.
Qed.

(** The first maximal plain chunk of a string. *)
Lemma jchars_split body out :
  jchars body out -> exists chunk body' out', body = chunk ++ body' /\ out = chunk ++ out' /\
    Forall (fun v => is_plain v = true) chunk /\ jchars body' out' /\
    (body' = [] \/ exists l, body' = 0x5c :: l).
Proof.
  induction 1 as [|v t out Hv _ IH| | |].
  - exists [], [], []. split_and!; try done; [constructor | by left].
  - destruct IH as (chunk & body' & out' & -> & -> & Hc & Hj & Hb). exists (v :: chunk), body', out'.
    split_and!; try done. by constructor.
  - exists [], (0x5c :: e :: t), (encode_utf8 c ++ out). split_and!; try done; [by constructor | right; by eexists].
  - exists [], (0x5c :: 0x75 :: h ++ t), (encode_utf8 cp ++ out).
    split_and!; try done; [by constructor | right; by eexists].
  - eexists [], (0x5c :: 0x75 :: h1 ++ 0x5c :: 0x75 :: h2 ++ t), _.
    split_and!; try done; [by constructor | right; by eexists].
Qed.

Lemma jchars_escape l out :
  jchars (0x5c :: l) out ->
  (exists e c t out', l = e :: t /\ escape_char e = Some c /\ out = encode_utf8 c ++ out' /\ jchars t out') \/
  (exists e t piece out', l = 0x75 :: e ++ t /\ unicode_escape e piece /\ out = piece ++ out' /\ jchars t out').
Proof.
  intros Hj. inversion Hj; subst; [done| | |].
  - left. by eexists _, _, _, _.
  - right. eexists _, _, _, _. split_and!; [done | by apply ue_single | done | done].
  - right. eexists (h1 ++ 0x5c :: 0x75 :: h2), _, _, _.
    split_and!; [by rewrite <- app_assoc | by apply ue_pair | done | done].
Qed.

Lemma runs_string_loop lo hi n fuel acc r body out s :
  length body = n -> ok lo hi r -> utf16_ r = false -> (left_units r < fuel)%nat ->
  rest r = body ++ 0x22 :: s -> jchars body out ->
  runs (string_loop fuel OString acc) r (acc ++ out) (step (length (body ++ [0x22])) r).
Proof.
  revert fuel acc r body out. induction n as [n IH] using lt_wf_ind.
  intros fuel acc r body out Hn Ho Hu Hf E Hj. destruct fuel as [|fuel]; [lia|]. cbn [string_loop].
  apply runs_gets. assert (inv0 r) as Hi by eauto with rstd.
  assert (eof r = false) as -> by (destruct body as [|b l]; cbn in E; by eapply eof_false).
  apply runs_gets. destruct (jchars_split body out Hj) as (chunk & body' & out' & -> & -> & Hc & Hj' & Hb).
  rewrite <- app_assoc in E. eapply runs_bind.
  { eapply runs_skip_units; [done | exact E | done |]. destruct Hb as [->|[l ->]]; done. }
  destruct (reads_step r chunk _ E) as [Hr1 E1]. set (r1 := step (length chunk) r) in *.
  assert (ok lo hi r1) as Ho1.
  { eapply ok_goes_stop; [done | exact Hr1 |]. rewrite E1. destruct Hb as [->|[l ->]]; cbn; lia. }
  apply runs_gets. eapply runs_bind.
  { unfold runs. by apply (append_raw_text lo hi OString r chunk r1). }
  apply runs_gets. assert (inv0 r1) as Hi1 by eauto with rstd.
  destruct Hb as [->|[l ->]].
  { inversion Hj'; subst. cbn in E1. rewrite (eof_false r1 _ _ Hi1 E1).
    apply runs_gets. rewrite (peek_rest r1 _ _ E1). cbn [Z.eqb]. rewrite !app_nil_r.
    destruct (reads_unit r1 _ _ E1) as [Hr2 _]. eapply runs_take; [exact E1|].
    pose proof (reads_reads _ _ _ _ _ Hr1 Hr2) as Hall. rewrite <- (reads_is_step _ _ _ Hall). apply runs_ret. }
  cbn in E1. rewrite (eof_false r1 _ _ Hi1 E1). apply runs_gets. rewrite (peek_rest r1 _ _ E1). cbn [Z.eqb Z.ltb].
  change (92 =? 34) with false. change (92 <? 32) with false. cbn iota.
  destruct (reads_unit r1 _ _ E1) as [Hr2 E2]. eapply runs_take; [exact E1|].
  pose proof (ok_unit _ _ _ _ _ Ho1 E1 ltac:(lia)) as Ho2. set (r2 := step 1 r1) in *.
  apply runs_gets. assert (inv0 r2) as Hi2 by eauto with rstd.
  pose proof (reads_reads _ _ _ _ _ Hr1 Hr2) as Hr12.
  pose proof (goes_left _ _ _ _ Hr12) as Hl12. rewrite length_app in Hl12. cbn in Hl12.
  destruct (jchars_escape _ _ Hj') as [(e & c & t & o & -> & He & -> & Ht)|(e & t & piece & o & -> & He & -> & Ht)];
    cbn [app] in E2; rewrite (eof_false r2 _ _ Hi2 E2);
    destruct (reads_unit r2 _ _ E2) as [Hr3 E3]; (eapply runs_take; [exact E2|]);
    pose proof (reads_reads _ _ _ _ _ Hr12 Hr3) as Hr13;
    pose proof (goes_left _ _ _ _ Hr13) as Hl13; rewrite length_app in Hl13; cbn in Hl13.
  - rewrite He. destruct (escape_char_range e c He) as [Her _].
    pose proof (ok_unit _ _ _ _ _ Ho2 E2 Her) as Ho3.
    replace (acc ++ chunk ++ encode_utf8 c ++ o) with (((acc ++ chunk) ++ push_char OString c) ++ o)
      by (by rewrite <- !app_assoc).
    replace (step (length _) r) with (step (length (t ++ [34])) (step 1 r2)).
    2:{ rewrite (reads_is_step _ _ _ Hr13), step_step.
        - f_equal. len_lia.
        - rewrite E. len_lia. }
    apply (IH (length t)); [|done|done| |lia|done|done].
    + rewrite <- Hn. len_lia.
    + by rewrite (goes_utf16 _ _ _ _ Hr13).
  - change (escape_char 0x75) with (@None Z). cbn iota. change (0x75 =? 0x75) with true. cbn iota.
    pose proof (ok_unit _ _ _ _ _ Ho2 E2 ltac:(lia)) as Ho3. rewrite <- app_assoc in E3.
    eapply runs_bind; [eapply runs_unicode_escape; [eauto with rstd | exact E3 | done]|].
    destruct (reads_step _ _ _ E3) as [Hr4 E4].
    pose proof (reads_reads _ _ _ _ _ Hr13 Hr4) as Hr14.
    pose proof (goes_left _ _ _ _ Hr14) as Hl14. rewrite !length_app in Hl14. cbn in Hl14.
    replace (acc ++ chunk ++ piece ++ o) with (((acc ++ chunk) ++ piece) ++ o)
      by (by rewrite <- !app_assoc).
    replace (step (length ((chunk ++ _) ++ [34])) r) with (step (length (t ++ [34])) (step (length e) (step 1 r2))).
    2:{ rewrite (reads_is_step _ _ _ Hr14), step_step.
        - f_equal. len_lia.
        - rewrite E. len_lia. }
    assert (ok lo hi (step (length e) (step 1 r2))) as Ho4.
    { eapply ok_goes_text; [exact Ho3 | exact Hr4 |]. apply text_ascii.
      destruct He as [h cp Hh|h1 ? h2 ? Hh1 Hh2]; [by apply hex4_range in Hh as (_ & ? & _)|].
      apply hex4_range in Hh1 as (_ & ? & _), Hh2 as (_ & ? & _).
      apply Forall_app. split; [done|]. constructor; [lia|]. constructor; [lia | done]. }
    apply (IH (length t)); [|done|done| |lia|done|done].
    + rewrite <- Hn. len_lia.
    + by rewrite (goes_utf16 _ _ _ _ Hr14).
Qed.

Lemma runs_parse_string lo hi r body out s :
  ok lo hi r -> utf16_ r = false -> rest r = 0x22 :: body ++ 0x22 :: s -> jchars body out ->
  runs parse_string r out (step (length (0x22 :: body ++ [0x22])) r).
Proof.
  intros Ho Hu E Hj. unfold parse_string. apply runs_gets. rewrite Hu. cbn [negb]. unfold read_string.
  eapply runs_bind; [eapply (value_kind_id KString); [eauto with rstd | exact E | done]|].
  cbn [kind_eqb negb]. destruct (reads_unit r _ _ E) as [Hr E1]. eapply runs_take; [exact E|].
  apply runs_gets. pose proof (ok_unit _ _ _ _ _ Ho E ltac:(lia)) as Ho1.
  change (length (0x22 :: body ++ [0x22])) with (1 + length (body ++ [0x22%Z]))%nat.
  rewrite <- step_step by (rewrite E; cbn; rewrite !length_app; cbn; lia).
  apply (runs_string_loop lo hi (length body) _ [] _ body out s); try done; [by rewrite utf16_step | lia].
Qed.

(** ** Numbers *)

(** What may follow a value: nothing, or an ASCII unit that does not continue
    a number. *)
Definition follow (s : list Z) : Prop :=
  match s with
  | [] => True
  | c :: _ => 0 <= c < 128 /\ is_dec c = false /\ c <> 0x2e /\ c <> 0x65 /\ c <> 0x45
  end.

Lemma follow_stop s : follow s -> ascii_stop s.
Proof. destruct s; cbn; [done | lia]. Qed.

Definition fraction_units (f : option (list Z)) : list Z :=
  match f with None => [] | Some f => 0x2e :: f end.

Lemma runs_scan_integer r ds s :
  inv0 r -> rest r = ds ++ s -> integer_wf ds -> run_ends is_dec s ->
  runs scan_integer r (MkSpan (position r) (position r + length ds)) (step (length ds) r).
Proof.
  intros Hi E Hwf Hs. unfold scan_integer. apply runs_gets, runs_gets.
  apply (runs_bind _ _ _ tt (step (length ds) r)); [|apply runs_gets; rewrite position_step; apply runs_ret].
  destruct Hwf as [->|(c & ds' & -> & Hc & Hd)]; cbn in E.
  - rewrite (peek_rest r _ _ E). cbn [Z.eqb]. destruct (reads_unit r _ _ E) as [Hr E1].
    eapply runs_take; [exact E|]. apply runs_gets.
    destruct (at_digit_cases (step 1 r)) as [[_ (c & l & Ec & Hc)]|[-> _]];
      [by eapply inv0_goes | | apply runs_ret]. rewrite <- E1, Ec in Hs. unfold run_ends in Hs. congruence.
  - rewrite (peek_rest r _ _ E). replace (c =? 0x30) with false by lia.
    replace ((0x31 <=? c) && (c <=? 0x39)) with true by lia.
    apply (runs_skip_units _ _ (c :: ds') s); [done | done | | done].
    constructor; [unfold is_dec; lia | done].
Qed.

Lemma runs_scan_fraction r f s :
  inv0 r -> rest r = fraction_units f ++ s ->
  match f with None => True | Some f => f <> [] /\ dec_digits f end ->
  match f with None => run_ends (fun c => c =? 0x2e) s | Some _ => run_ends is_dec s end ->
  exists span, runs scan_fraction r (span, bool_decide (is_Some f)) (step (length (fraction_units f)) r) /\
    span_in (input (active r)) span (default [] f).
Proof.
  intros Hi E Hf Hs. unfold scan_fraction. pose proof Hi as [_ Hb]. unfold in_bounds in Hb.
  fold (position r) in Hb. destruct f as [f|]; cbn [fraction_units] in E.
  - destruct Hf as [Hne Hd]. cbn [app] in E. exists (MkSpan (position r + 1) (position r + 1 + length f)).
    destruct (reads_unit r _ _ E) as [Hr E1]. pose proof (inv0_goes _ _ _ _ Hi Hr) as Hi1.
    destruct (reads_step _ _ _ E1) as [Hr2 E2]. pose proof (reads_reads _ _ _ _ _ Hr Hr2) as Hr12.
    split.
    + apply runs_gets, runs_gets. rewrite (eof_false r _ _ Hi E), (peek_rest r _ _ E). cbn [negb andb].
      change (0x2e =? 0x2e) with true. cbn iota. eapply runs_take; [exact E|]. apply runs_gets.
      assert (eof (step 1 r) = false) as ->.
      { destruct f as [|c f]; [done|]. cbn in E1. by eapply eof_false. }
      apply runs_gets. rewrite position_step.
      apply (runs_bind _ _ _ tt (step (length f) (step 1 r))); [by eapply runs_skip_units|].
      apply runs_gets. rewrite !position_step.
      assert (span_is_empty (MkSpan (position r + 1) (position r + 1 + length f)) = false) as ->.
      { unfold span_is_empty. cbn. apply Nat.eqb_neq. destruct f; [done | cbn; lia]. }
      cbn [fraction_units]. change (46 :: f) with ([46] ++ f).
      rewrite <- (reads_is_step _ _ _ Hr12). apply runs_ret.
    + pose proof (inv0_goes _ _ _ _ Hi Hr12) as [_ Hb2]. unfold in_bounds in Hb2.
      pose proof (reads_slice _ _ _ _ Hr2) as Hsl. unfold input in Hsl |- *.
      rewrite (goes_input _ _ _ _ Hr12) in Hsl. unfold len, input in Hb2. rewrite (goes_input _ _ _ _ Hr12) in Hb2.
      fold (position (step (length f) (step 1 r))) in Hb2. rewrite !position_step in *.
      split; cbn [span_begin span_end]; [lia | exact Hsl].
  - exists (MkSpan (position r) (position r)). cbn [app length] in E. split.
    + cbn [length]. rewrite step_0. apply runs_gets, runs_gets. cbn [length fraction_units]. 
      destruct (eof_cases r Hi) as [[-> _]|[-> (c & l & Ec)]]; cbn [negb andb]; [apply runs_ret|].
      rewrite (peek_rest r _ _ Ec). rewrite <- E, Ec in Hs. unfold run_ends in Hs. rewrite Hs. apply runs_ret.
    + unfold len in Hb. split; cbn [span_begin span_end]; [lia|]. unfold slice. by rewrite Nat.sub_diag.
Qed.

Lemma runs_exponent_digits (neg : bool) lo hi r ds s :
  ok lo hi r -> rest r = ds ++ s -> ds <> [] -> dec_digits ds -> run_ends is_dec s ->
  runs
    (let* stop := gets eof in
     if (stop : bool) then error EofWhileParsingValue
     else
       let* digit := gets at_digit in
       if negb digit then error InvalidNumber
       else
         let* fuel := gets (fun r => S (left_units r)) in
         let* exponent := exponent_loop fuel 0 in
         if neg then
           let* negated := of_option (op_neg true i32 exponent) in
           ret (negated, true)
         else ret (exponent, true)) r
    ((let e := Z.min (MAX i32) (digits_value 0 ds) in if neg then - e else e), true) (step (length ds) r).
Proof.
  intros Ho E Hne Hd Hs. assert (inv0 r) as Hi by eauto with rstd.
  destruct ds as [|c ds0] eqn:Eds; [done|]. cbn in E. rewrite <- Eds in *.
  apply runs_gets. rewrite (eof_false r _ _ Hi E). apply runs_gets.
  unfold at_digit. rewrite (eof_false r _ _ Hi E), (peek_rest r _ _ E).
  assert (is_dec c = true) as -> by (subst ds; by inversion Hd). cbn [negb andb]. apply runs_gets.
  destruct (runs_wp (exponent_loop (S (left_units r)) 0) r _
    (wp_exponent_loop lo hi 1 0 (S (left_units r)) 0 r Ho ltac:(lia) ltac:(change (MAX i32) with 2147483647; lia)))
    as (x & r' & Hrun & ds' & Hr & Hd' & Hs' & -> & _).
  destruct Hr as [E' Er'] eqn:Hr'. assert (reads r ds' r') as Hrr by done. clear Hr'.
  rewrite E in E'. change (c :: ds0 ++ s) with ((c :: ds0) ++ s) in E'. rewrite <- Eds in E'.
  destruct (run_unique is_dec ds s ds' (rest r')) as [<- _]; try done.
  eapply runs_bind; [exact Hrun|]. rewrite <- (reads_is_step _ _ _ Hrr).
  destruct neg; [|apply runs_ret].
  eapply runs_option; [|apply runs_ret]. apply op_neg_exact; [done|]. apply in_range_i32.
  pose proof (digits_value_nonneg ds Hd). change (MAX i32) with (2 ^ 31 - 1). lia.
Qed.

Lemma runs_scan_exponent lo hi r ex s :
  ok lo hi r -> rest r = exponent_units ex ++ s -> exponent_wf ex -> follow s ->
  runs scan_exponent r (exponent_of ex, bool_decide (is_Some ex)) (step (length (exponent_units ex)) r).
Proof.
  intros Ho E Hex Hs. unfold scan_exponent. assert (inv0 r) as Hi by eauto with rstd.
  assert (run_ends is_dec s) as Hend by (destruct s; cbn in *; [done | by destruct Hs as (_ & ? & _)]).
  destruct ex as [[[mark sign] ds]|].
  2:{ cbn in E |- *. rewrite step_0. apply runs_gets.
      destruct (eof_cases r Hi) as [[-> _]|[-> (c & l & Ec)]]; cbn [negb andb]; [apply runs_ret|].
      rewrite (peek_rest r _ _ Ec). rewrite <- E, Ec in Hs. cbn in Hs.
      replace ((c =? 0x65) || (c =? 0x45)) with false by lia. apply runs_ret. }
  destruct Hex as (Hmark & Hne & Hd).
  assert (exists c, mark = [c] /\ ((c =? 0x65) || (c =? 0x45)) = true) as (c & -> & Hc)
    by (destruct Hmark as [-> | ->]; by eexists).
  cbn [exponent_units app] in E. rewrite <- app_assoc in E. apply runs_gets.
  rewrite (eof_false r _ _ Hi E), (peek_rest r _ _ E), Hc. cbn [negb andb].
  destruct (reads_unit r _ _ E) as [Hr E1]. eapply runs_take; [exact E|].
  pose proof (ok_unit _ _ _ _ _ Ho E ltac:(lia)) as Ho1. assert (inv0 (step 1 r)) as Hi1 by eauto with rstd.
  destruct ds as [|d ds0] eqn:Eds; [done|]. rewrite <- Eds in *.
  assert (is_dec d = true) as Hdd by (subst ds; by inversion Hd). unfold is_dec in Hdd.
  apply runs_gets. destruct sign as [b|].
  - assert (rest (step 1 r) = (if b then 0x2d else 0x2b) :: ds ++ s) as E1' by (by destruct b).
    rewrite (eof_false _ _ _ Hi1 E1'), (peek_rest _ _ _ E1'). cbn [negb andb].
    replace (_ || _) with true by (by destruct b).
    destruct (reads_unit _ _ _ E1') as [Hr2 E2].
    apply (runs_bind _ _ _ b (step 1 (step 1 r))).
    { apply runs_gets. rewrite (peek_rest _ _ _ E1'). eapply runs_take; [exact E1'|].
      replace (_ =? 0x2d) with b by (by destruct b). apply runs_ret. }
    assert (0 <= (if b then 0x2d else 0x2b) < 128) as Hasc by (destruct b; lia).
    pose proof (ok_unit _ _ _ _ _ Ho1 E1' Hasc) as Ho2.
    destruct (reads_step _ _ _ E2) as [Hr3 _].
    pose proof (reads_reads _ _ _ _ _ Hr (reads_reads _ _ _ _ _ Hr2 Hr3)) as Hall.
    replace (length (exponent_units (Some ([c], Some b, ds)))) with
      (length ([c] ++ [if b then 45 else 43] ++ ds)) by (by destruct b).
    rewrite <- (reads_is_step _ _ _ Hall).
    replace (exponent_of (Some ([c], Some b, ds))) with
      (let e := Z.min (MAX i32) (digits_value 0 ds) in if b then - e else e) by (by destruct b).
    by apply (runs_exponent_digits b lo hi _ ds s).
  - cbn [app] in E1. assert (rest (step 1 r) = d :: ds0 ++ s) as E1' by (by rewrite E1, Eds).
    rewrite (eof_false _ _ _ Hi1 E1'), (peek_rest _ _ _ E1'). cbn [negb andb].
    replace ((d =? 43) || (d =? 45)) with false by lia.
    apply (runs_bind _ _ _ false (step 1 r)); [apply runs_ret|].
    destruct (reads_step _ _ _ E1) as [Hr3 _].
    pose proof (reads_reads _ _ _ _ _ Hr Hr3) as Hall.
    change (length (exponent_units (Some ([c], None, ds)))) with (length ([c] ++ ds)).
    rewrite <- (reads_is_step _ _ _ Hall).
    by apply (runs_exponent_digits false lo hi _ ds s).
Qed.

Lemma number_units_eq n :
  number_units n = (if nt_negative n then [0x2d] else []) ++ nt_integer n ++
    fraction_units (nt_fraction n) ++ exponent_units (nt_exponent n).
Proof. destruct n as [neg i f [[[? ?] ?]|]]; done. Qed.

Lemma number_head n s :
  number_wf n -> exists c l, number_units n ++ s = c :: l /\ kind_char KNumber c /\ (c =? 0x2d) = nt_negative n.
Proof.
  intros (Hi & _). rewrite number_units_eq. destruct (nt_negative n) eqn:Eneg; cbn [app].
  - eexists _, _. split_and!; [done | by left | done].
  - destruct Hi as [->|(c & ds & -> & Hc & _)]; eexists _, _; (split_and!; [done | right; lia | lia]).
Qed.

Lemma fraction_exponent_ends f ex s :
  exponent_wf ex -> follow s ->
  run_ends is_dec (fraction_units f ++ exponent_units ex ++ s) /\
  run_ends is_dec (exponent_units ex ++ s) /\ run_ends (fun c => c =? 0x2e) (exponent_units ex ++ s).
Proof.
  intros Hex Hs.
  assert (run_ends is_dec s /\ run_ends (fun c => c =? 0x2e) s) as [H1 H2].
  { destruct s as [|c s]; [done|]. destruct Hs as (_ & ? & ? & _). cbn. split; [done | lia]. }
  assert (run_ends is_dec (exponent_units ex ++ s) /\ run_ends (fun c => c =? 0x2e) (exponent_units ex ++ s)) as [H3 H4].
  { destruct ex as [[[mark sign] ds]|]; [|done]. destruct Hex as ([-> | ->] & _); done. }
  split_and!; try done. by destruct f.
Qed.

Lemma runs_scan_number lo hi r n s :
  ok lo hi r -> rest r = number_units n ++ s -> number_wf n -> follow s ->
  exists tok, runs scan_number r tok (step (length (number_units n)) r) /\
    token_ok (step (length (number_units n)) r) tok n.
Proof.
  intros Ho E Hn Hs. assert (inv0 r) as Hi by eauto with rstd.
  destruct (number_head n s Hn) as (c & l & Ec & Hk & Hneg). pose proof Hn as (Hint & Hfr & Hex).
  destruct (fraction_exponent_ends (nt_fraction n) (nt_exponent n) s Hex Hs) as (Hend1 & Hend2 & Hend3).
  set (sign := if nt_negative n then [0x2d] else []).
  assert (rest r = sign ++ nt_integer n ++ fraction_units (nt_fraction n) ++ exponent_units (nt_exponent n) ++ s) as E0.
  { rewrite E, number_units_eq. by rewrite <- !app_assoc. }
  destruct (reads_step r _ _ E0) as [Hr1 E1]. set (r1 := step (length sign) r) in *.
  assert (ok lo hi r1) as Ho1.
  { eapply ok_goes_text; [done | exact Hr1 |]. apply text_ascii. unfold sign. destruct (nt_negative n); repeat constructor; lia. }
  destruct (reads_step r1 _ _ E1) as [Hr2 E2]. set (r2 := step (length (nt_integer n)) r1) in *.
  destruct (number_digits n Hn) as (Hd & Hne & Hfd).
  assert (ok lo hi r2) as Ho2 by (eapply ok_goes_text; [done | exact Hr2 | by apply dec_digits_text]).
  destruct (runs_scan_fraction r2 (nt_fraction n) _ ltac:(eauto with rstd) E2 Hfr) as (fspan & Hrunf & Hspanf).
  { by destruct (nt_fraction n). }
  destruct (reads_step r2 _ _ E2) as [Hr3 E3]. set (r3 := step (length (fraction_units (nt_fraction n))) r2) in *.
  assert (ok lo hi r3) as Ho3.
  { eapply ok_goes_text; [done | exact Hr3 |]. destruct (nt_fraction n); cbn; [|apply is_text_nil].
    apply text_ascii_cons; [lia|]. by apply dec_digits_text. }
  destruct (reads_step r3 _ _ E3) as [Hr4 E4].
  pose proof (reads_reads _ _ _ _ _ Hr1 (reads_reads _ _ _ _ _ Hr2 (reads_reads _ _ _ _ _ Hr3 Hr4))) as Hall.
  unfold sign in Hall. rewrite <- number_units_eq in Hall.
  assert (forall rr t, reads r t rr -> input (active rr) = input (active r)) as Hin
    by (intros rr t Hg; unfold input; by rewrite (goes_input _ _ _ _ Hg)).
  eexists. split.
  - unfold scan_number. eapply runs_bind; [eapply (value_kind_id KNumber); [done | by rewrite E, Ec | done]|].
    cbn [kind_eqb negb]. apply runs_gets. rewrite (peek_rest r c l) by (by rewrite E, Ec). rewrite Hneg.
    apply (runs_bind _ _ _ tt r1).
    { unfold r1, sign in *. destruct (nt_negative n); cbn [app length] in *; [|rewrite step_0; apply runs_ret].
      eapply runs_take; [exact E0|]. apply runs_gets.
      assert (eof (step 1 r) = false) as ->; [|apply runs_ret].
      destruct (nt_integer n) as [|d ds]; [done|]. cbn in E1. eapply eof_false; [eauto with rstd | exact E1]. }
    eapply runs_bind; [by eapply runs_scan_integer; [eauto with rstd | exact E1 | ..]|].
    eapply runs_bind; [exact Hrunf|]. eapply runs_bind; [by eapply runs_scan_exponent|].
    rewrite <- (reads_is_step _ _ _ Hall). apply runs_ret.
  - assert (reads r (sign ++ nt_integer n) r2) as Hr12 by (by eapply reads_reads).
    assert (input (active (step (length (number_units n)) r)) = input (active r)) as Hin0.
    { rewrite <- (reads_is_step _ _ _ Hall). by eapply Hin. }
    unfold token_ok, span_in. cbn [tok_integer tok_fraction tok_exponent tok_negative tok_floating fst snd span_begin span_end].
    rewrite Hin0. split_and!; try done.
    + lia.
    + destruct Ho2 as (([_ Hb] & _) & _). unfold in_bounds, len in Hb. rewrite (Hin _ _ Hr12) in Hb.
      fold (position r2) in Hb. rewrite (goes_position _ _ _ _ Hr2) in Hb. lia.
    + pose proof (reads_slice _ _ _ _ Hr2) as Hsl. rewrite (Hin _ _ Hr12), (goes_position _ _ _ _ Hr2) in Hsl. done.
    + rewrite (Hin _ _ Hr12) in Hspanf. apply Hspanf.
    + rewrite (Hin _ _ Hr12) in Hspanf. apply Hspanf.
    + rewrite (Hin _ _ Hr12) in Hspanf. apply Hspanf.
    + unfold nt_floating. destruct (nt_fraction n), (nt_exponent n); done.
Qed.

Section Complete.
Context `{DecimalConversionLaws}.

Lemma runs_span_digits {B} span t (k : list Z -> RM B) r b r' :
  span_in (input (active r)) span t -> dec_digits t ->
  runs (k t) r b r' -> runs (bind (span_digits span) k) r b r'.
Proof.
  intros Hs Hd Hk. eapply runs_bind; [|exact Hk]. unfold runs, span_digits.
  rewrite (view_span _ (active r) span t eq_refl Hs).
  destruct (utf16_ r); [by rewrite digits_mod | done].
Qed.

Lemma runs_parse_floating tok n v r :
  token_ok r tok n -> number_wf n -> float_value n = Some v -> runs (parse_floating tok) r v r.
Proof.
  intros (Hint & Hfrac & He & Hneg & _) Hn Hv. destruct (number_digits n Hn) as (Hd & _ & Hf).
  unfold float_value in Hv. unfold parse_floating, parse_float.
  destruct (to_f64 _) as [bits|e| |] eqn:Et; try done.
  apply (runs_bind _ _ _ bits r); [|by unfold runs; rewrite Hv].
  apply (runs_span_digits _ _ _ _ _ _ Hint Hd), (runs_span_digits _ _ _ _ _ _ Hfrac Hf).
  rewrite He, Hneg, Et. apply runs_ret.
Qed.

Lemma runs_parse_number lo hi r n v s :
  ok lo hi r -> rest r = number_units n ++ s -> number_wf n -> follow s ->
  number_value (options_ r) n = Some v ->
  runs parse_number r v (step (length (number_units n)) r).
Proof.
  intros Ho E Hn Hs Hv. destruct (runs_scan_number lo hi r n s Ho E Hn Hs) as (tok & Hrun & Htok).
  set (r' := step (length (number_units n)) r) in *. unfold parse_number. eapply runs_bind; [exact Hrun|].
  pose proof Htok as (Hint & _ & _ & Hneg & Hflo). rewrite Hflo.
  assert (options_ r' = options_ r) as Hopt by apply options_step.
  pose proof (runs_parse_floating tok n v r' Htok Hn) as Hfl. unfold number_value in Hv.
  destruct (nt_floating n); [by apply Hfl|].
  destruct (number_digits n Hn) as (Hd & _ & _). pose proof (digits_value_nonneg _ Hd) as Hpos.
  destruct Hint as [Hb Hsl].
  destruct (runs_wp (magnitude_loop (span_len (tok_integer tok)) (span_begin (tok_integer tok)) 0) r' _
    (wp_magnitude_loop 1 0 (span_len (tok_integer tok)) (span_begin (tok_integer tok)) 0 (nt_integer n) r' ltac:(unfold span_len; lia)
      ltac:(unfold span_len; by replace (_ + _)%nat with (span_end (tok_integer tok)) by lia) Hd
      ltac:(change (MAX u64) with (2 ^ 64 - 1); lia))) as (m & r1 & Hm & -> & ->).
  eapply runs_bind; [exact Hm|]. apply runs_gets. rewrite Hopt.
  set (m := digits_value 0 (nt_integer n)) in *. change (MAX u64) with (2 ^ 64 - 1) in *.
  destruct (m <=? 2 ^ 64 - 1) eqn:Em.
  - rewrite Hneg. destruct (nt_negative n); cbn [negb]; [|injection Hv as <-; apply runs_ret].
    destruct (m =? 0) eqn:Em0; [by apply Hfl|].
    apply (runs_option _ (2 ^ 63)); [by vm_compute|].
    destruct (m <=? 2 ^ 63) eqn:Em63.
    + replace (2 ^ 63 <? m) with false by lia. injection Hv as <-.
      destruct (m =? 2 ^ 63) eqn:Eq.
      { replace m with (2 ^ 63) by lia. apply runs_ret. }
      apply (runs_option _ (- m)).
      { apply op_neg_exact; [done|]. unfold in_range. change (MIN i64) with (- 2 ^ 63).
        change (MAX i64) with (2 ^ 63 - 1). lia. }
      unfold from_i64. replace (- m <? 0) with true by lia. apply runs_ret.
    + replace (2 ^ 63 <? m) with true by lia.
      destruct (reject_integer_overflow (options_ r)); [done | by apply Hfl].
  - replace (m <=? 2 ^ 63) with false in Hv by lia. replace (m =? 0) with false in Hv by lia.
    destruct (reject_integer_overflow (options_ r)); [by destruct (nt_negative n)|].
    apply Hfl. by destruct (nt_negative n).
Qed.
End Complete.
