(* ===== verification/JsonCorrect.v ===== *)
(** * Correctness of the JSON parser

    Totality, equivalence with the grammar, well-formedness of the parsed
    values, and agreement of [skip_value] with [parse_value]. *)

From Stdlib Require Import ZArith Lia ZifyBool.
From S2P Require Import Prelude Int Utf8 Str Cursor OrdMap FloatSpec Json JsonReader JsonParser JsonGrammar.
From S2P Require Import JsonRun JsonTokens JsonComplete.
Local Open Scope Z_scope.
Local Open Scope rstd_scope.

(** ** Forward runs of the container loops

    Induction on the grammar's derivations: the parser follows each of them. *)

(** ** First units *)

Lemma ws_follow c w s : ws c w s -> follow s -> follow (w ++ s).
Proof. intros Hw Hs. destruct Hw as [|v w s Hv| |]; cbn; try (unfold is_dec; lia); [done|].
  unfold is_whitespace in Hv. unfold is_dec. lia.
Qed.

Lemma ws_ascii c w s : ws c w s -> ascii_stop s -> ascii_stop (w ++ s).
Proof. intros Hw Hs. destruct Hw as [|v w s Hv| |]; cbn; try lia; [done|]. unfold is_whitespace in Hv. lia. Qed.

Lemma kind_char_follow_free k c : kind_char k c -> c <> 0x5d /\ c <> 0x7d /\ c <> 0x2c.
Proof. destruct k; cbn; lia. Qed.

Section Heads.
Context `{DecimalConversion} (o : ParseOptions) (J : list Z -> list Z -> Prop).

Lemma gvalue_head d t v s : gvalue o J d t v s -> exists k c l, t = c :: l /\ kind_char k c.
Proof.
  intros Hg. destruct Hg.
  - by exists KNull; eexists _, _.
  - exists KBoolean; eexists _, _. split; [done | by left].
  - exists KBoolean; eexists _, _. split; [done | by right].
  - destruct (number_head n [] ltac:(done)) as (c & l & E & Hk & _). rewrite app_nil_r in E.
    by exists KNumber, c, l.
  - by exists KString; eexists _, _.
  - by exists KArray; eexists _, _.
  - by exists KObject; eexists _, _.
Qed.

Lemma gmember_head d t k v s : gmember o J d t k v s -> exists l, t = 0x22 :: l.
Proof. intros []. by eexists. Qed.

Lemma gelems_follow d t vs s : gelems o J d false t vs s -> follow (t ++ s).
Proof.
  intros Hg. inversion Hg; subst; rewrite <- app_assoc; cbn [app]; rewrite <- ?app_assoc;
    (eapply ws_follow; [done|]); cbn; unfold is_dec; lia.
Qed.

Lemma gmembers_follow d t kvs s : gmembers o J d false t kvs s -> follow (t ++ s).
Proof.
  intros Hg. inversion Hg; subst; rewrite <- app_assoc; cbn [app]; rewrite <- ?app_assoc;
    (eapply ws_follow; [done|]); cbn; unfold is_dec; lia.
Qed.

(** The whitespace that leads the items of a container. *)
Lemma gelems_lead d t vs s : gelems o J d true t vs s ->
  exists w y, t ++ s = w ++ y /\ ws (allow_comments o) w y /\ ws_stops (allow_comments o) y /\ ascii_stop y.
Proof.
  intros Hg. inversion Hg; subst.
  - exists w, (0x5d :: s). rewrite <- app_assoc. split_and!; try done. split; [done|]. by right; left.
  - destruct (gvalue_head _ _ _ _ ltac:(done)) as (k & c & l & -> & Hk).
    exists w, ((c :: l) ++ t' ++ s). rewrite <- !app_assoc.
    split_and!; [done | done | by eapply ws_stops_kind | by apply kind_char_plain in Hk as (_ & _ & ?)].
Qed.

Lemma gmembers_lead d t kvs s : gmembers o J d true t kvs s ->
  exists w y, t ++ s = w ++ y /\ ws (allow_comments o) w y /\ ws_stops (allow_comments o) y /\ ascii_stop y.
Proof.
  intros Hg. inversion Hg; subst.
  - exists w, (0x7d :: s). rewrite <- app_assoc. split_and!; try done. split; [done|]. by right; left.
  - destruct (gmember_head _ _ _ _ _ ltac:(done)) as (l & ->).
    exists w, ((0x22 :: l) ++ t' ++ s). rewrite <- !app_assoc.
    split_and!; [done | done | by apply (ws_stops_kind _ KString) | cbn; lia].
Qed.
End Heads.

(** ** Items *)

Section Items.
Context (lo hi : nat) (o : ParseOptions).

(** A UTF-8 reader between characters, with the given depth. *)
Definition ready (d : Z) (r : Reader) : Prop :=
  ok lo hi r /\ utf16_ r = false /\ options_ r = o /\ remaining_depth_ r = d.

Lemma ready_ok d r : ready d r -> ok lo hi r.
Proof. by intros [? _]. Qed.

Lemma ready_inv0 d r : ready d r -> inv0 r.
Proof. intros [? _]. eauto with rstd. Qed.

Lemma ready_goes d d' r t r' :
  ready d r -> goes r t d' r' -> ascii_stop (rest r') -> ready d' r'.
Proof.
  intros (Ho & Hu & Hopt & _) Hg Hs. split_and!; [by eapply ok_goes_stop | | |].
  - by rewrite (goes_utf16 _ _ _ _ Hg).
  - by rewrite (goes_options _ _ _ _ Hg).
  - by apply goes_depth in Hg.
Qed.

Lemma ready_step d r t s :
  ready d r -> rest r = t ++ s -> ascii_stop s -> ready d (step (length t) r) /\ rest (step (length t) r) = s.
Proof.
  intros Hr E Hs. destruct (reads_step r t s E) as [Hrd Es]. split; [|done].
  assert (remaining_depth_ r = d) as Hd by apply Hr. unfold reads in Hrd. rewrite Hd in Hrd.
  eapply ready_goes; [done | exact Hrd |]. by rewrite Es.
Qed.

Lemma comments_ready d r : ready d r -> comments_of r = allow_comments o.
Proof. intros (_ & _ & Hopt & _). unfold comments_of. by rewrite Hopt. Qed.

Lemma runs_ws d r w s :
  ready d r -> rest r = w ++ s -> ws (allow_comments o) w s -> ws_stops (allow_comments o) s ->
  runs consume_whitespace r tt (step (length w) r).
Proof.
  intros Hr E Hw Hs. eapply runs_consume_whitespace; [by eapply ready_inv0 | exact E | |];
    by rewrite (comments_ready d).
Qed.

Lemma runs_leave r c l :
  rest r = c :: l -> runs leave_container r tt (with_depth (step 1 r) (remaining_depth_ r + 1)).
Proof.
  intros E. unfold leave_container. eapply runs_take; [exact E|].
  unfold runs, modify. by rewrite depth_step.
Qed.

Definition next_item {B} (first : bool) (close : Z) ec ecomma (k : bool -> RM B) : RM B :=
  do* consume_whitespace ;;
  let* stop := gets eof in
  if (stop : bool) then error ec
  else
    let* p := gets peek in
    if p =? close then do* leave_container ;; k false
    else
      do* (if negb first then
             if negb (p =? 0x2c) then error ecomma
             else
               do* take ;;
               do* consume_whitespace ;;
               let* stop := gets eof in
               if (stop : bool) then error EofWhileParsingValue
               else
                 let* p := gets peek in
                 if p =? close then error TrailingComma else ret tt
           else ret tt) ;;
      k true.

Context {B : Type} (first : bool) (close : Z) (ec ecomma : ErrorCode) (k : bool -> RM B).

Lemma runs_item_close d r w s b r' :
  is_whitespace close = false -> close <> 0x2f ->
  ready d r -> rest r = w ++ close :: s -> ws (allow_comments o) w (close :: s) ->
  runs (k false) (with_depth (step (length (w ++ [close])) r) (d + 1)) b r' ->
  runs (next_item first close ec ecomma k) r b r'.
Proof.
  intros Hcl Hsl Hr E Hw Hk. eapply runs_bind.
  { eapply runs_ws; [done | exact E | done |]. split; [done|]. by right; left. }
  destruct (reads_step r w _ E) as [Hr1 E1].
  pose proof (inv0_goes _ _ _ _ (ready_inv0 _ _ Hr) Hr1) as Hi1.
  apply runs_gets. rewrite (eof_false _ _ _ Hi1 E1). apply runs_gets. rewrite (peek_rest _ _ _ E1), Z.eqb_refl.
  eapply runs_bind; [by eapply runs_leave|]. rewrite (reads_depth _ _ _ Hr1).
  destruct Hr as (_ & _ & _ & ->).
  rewrite step_step; [|rewrite E; len_lia]. by rewrite length_app in Hk.
Qed.

Lemma runs_item_first d r w x l b r' :
  first = true -> ws_stops (allow_comments o) (x :: l) -> x <> close ->
  ready d r -> rest r = w ++ x :: l -> ws (allow_comments o) w (x :: l) ->
  runs (k true) (step (length w) r) b r' ->
  runs (next_item first close ec ecomma k) r b r'.
Proof.
  intros -> Hst Hx Hr E Hw Hk. eapply runs_bind; [by eapply runs_ws|].
  destruct (reads_step r w _ E) as [Hr1 E1].
  pose proof (inv0_goes _ _ _ _ (ready_inv0 _ _ Hr) Hr1) as Hi1.
  apply runs_gets. rewrite (eof_false _ _ _ Hi1 E1). apply runs_gets. rewrite (peek_rest _ _ _ E1).
  replace (x =? close) with false by lia. eapply runs_bind; [apply runs_ret | exact Hk].
Qed.

Lemma runs_item_next d r w w' x l b r' :
  first = false -> close <> 0x2c -> ws_stops (allow_comments o) (x :: l) -> x <> close -> 0 <= x < 128 ->
  ready d r -> rest r = w ++ 0x2c :: w' ++ x :: l ->
  ws (allow_comments o) w (0x2c :: w' ++ x :: l) -> ws (allow_comments o) w' (x :: l) ->
  runs (k true) (step (length (w ++ 0x2c :: w')) r) b r' ->
  runs (next_item first close ec ecomma k) r b r'.
Proof.
  intros -> Hc Hst Hx Hxa Hr E Hw Hw' Hk. eapply runs_bind.
  { eapply runs_ws; [done | exact E | done |]. split; [done|]. by right; left. }
  destruct (ready_step d r w _ Hr E ltac:(cbn; lia)) as [Hr1 E1].
  apply runs_gets. rewrite (eof_false _ _ _ (ready_inv0 _ _ Hr1) E1).
  apply runs_gets. rewrite (peek_rest _ _ _ E1). replace (0x2c =? close) with false by lia. cbn [negb].
  change (0x2c =? 0x2c) with true. cbn [negb].
  assert (ready d (step 1 (step (length w) r)) /\ rest (step 1 (step (length w) r)) = w' ++ x :: l) as [Hr2 E2].
  { apply (ready_step d _ [0x2c]); [done | done | by eapply ws_ascii]. }
  eapply runs_bind.
  - eapply runs_take; [exact E1|]. eapply runs_bind; [by eapply runs_ws|].
    destruct (ready_step d _ w' _ Hr2 E2 ltac:(cbn; lia)) as [Hr3 E3].
    apply runs_gets. rewrite (eof_false _ _ _ (ready_inv0 _ _ Hr3) E3).
    apply runs_gets. rewrite (peek_rest _ _ _ E3). replace (x =? close) with false by lia. apply runs_ret.
  - rewrite !step_step; [|rewrite E; len_lia|].
    + by rewrite length_app in Hk.
    + rewrite rest_step, E, drop_app_length. len_lia.
Qed.
End Items.

(** ** Derivations are followed *)

Section Accept.
Context `{DecimalConversionLaws} (lo hi : nat) (o : ParseOptions).

Notation ready := (ready lo hi o).
Notation fuel_ok fuel n := (n <= fuel)%nat.

Definition accepts_value (d : Z) (t : list Z) (v : Value) (s : list Z) : Prop :=
  forall r fuel, ready d r -> rest r = t ++ s -> follow s -> fuel_ok fuel (2 * left_units r + 1)%nat ->
  runs (parse_value fuel) r v (step (length t) r).

Definition accepts_elems (d : Z) (first : bool) (t : list Z) (vs : list Value) (s : list Z) : Prop :=
  forall r fuel acc, ready d r -> rest r = t ++ s -> fuel_ok fuel (2 * left_units r + 2)%nat ->
  runs (parse_elements fuel first acc) r (VArray (acc ++ vs)) (with_depth (step (length t) r) (d + 1)).

Definition accepts_members (d : Z) (first : bool) (t : list Z) (kvs : list (list Z * Value)) (s : list Z) : Prop :=
  forall r fuel m, ready d r -> rest r = t ++ s -> fuel_ok fuel (2 * left_units r + 2)%nat ->
  sorted_keys m -> (reject_duplicate_keys o = true -> fresh m kvs) ->
  runs (parse_members fuel first m) r (VObject (insert_all m kvs)) (with_depth (step (length t) r) (d + 1)).

Definition key_colon : RM (option (list Z)) :=
  let* p := gets peek in
  if negb (p =? 0x22) then error KeyMustBeAString
  else
    let* key := parse_string in
    do* consume_whitespace ;;
    let* stop := gets eof in
    if (stop : bool) then error EofWhileParsingObject
    else
      let* p := gets peek in
      if negb (p =? 0x3a) then error ExpectedColon
      else
        do* take ;;
        do* consume_whitespace ;;
        ret (Some key).

Definition accepts_member (d : Z) (t k : list Z) (v : Value) (s : list Z) : Prop :=
  forall r, ready d r -> rest r = t ++ s -> follow s ->
  exists t1 t2, t = t1 ++ t2 /\ t1 <> [] /\ runs key_colon r (Some k) (step (length t1) r) /\
    ready d (step (length t1) r) /\ rest (step (length t1) r) = t2 ++ s /\
    accepts_value d t2 v s.

Lemma runs_parse_null d r s :
  ready d r -> rest r = lit_null ++ s -> runs parse_null r tt (step (length lit_null) r).
Proof.
  intros Hr E. pose proof (ready_inv0 _ _ _ _ _ Hr) as Hi. unfold parse_null.
  eapply runs_bind; [eapply (value_kind_id KNull); [done | exact E | done]|].
  cbn [kind_eqb negb]. by eapply runs_consume_ident.
Qed.

Lemma runs_parse_bool d r (b : bool) s :
  ready d r -> rest r = (if b then lit_true else lit_false) ++ s ->
  runs parse_bool r b (step (length (if b then lit_true else lit_false)) r).
Proof.
  intros Hr E. pose proof (ready_inv0 _ _ _ _ _ Hr) as Hi. unfold parse_bool.
  assert (exists c l, rest r = c :: l /\ kind_char KBoolean c /\ (c =? 0x74) = b) as (c & l & Ec & Hk & Hb).
  { destruct b; eexists _, _; (split_and!; [exact E | cbn; lia | done]). }
  eapply runs_bind; [by eapply (value_kind_id KBoolean)|]. cbn [kind_eqb negb].
  apply runs_gets. rewrite (peek_rest r c l Ec), Hb.
  eapply runs_bind; [by eapply runs_consume_ident | apply runs_ret].
Qed.

Lemma runs_begin k d r t y w s :
  (k = KArray \/ k = KObject) -> ready d r -> 1 < d -> rest r = open_char k :: t ++ s ->
  t ++ s = w ++ y -> ws (allow_comments o) w y -> ws_stops (allow_comments o) y -> ascii_stop y ->
  let r1 := with_depth (step 1 r) (d - 1) in
  runs (begin_container k) r tt (step (length w) r1) /\
  runs consume_whitespace r1 tt (step (length w) r1) /\
  runs consume_whitespace (step (length w) r1) tt (step (length w) r1) /\
  ready (d - 1) r1 /\ rest r1 = t ++ s.
Proof.
  intros Hk Hr Hd E Ey Hw Hst Hasc r1. pose proof (ready_inv0 _ _ _ _ _ Hr) as Hi.
  destruct (reads_unit r _ _ E) as [Hr1 E1].
  assert (goes (step 1 r) [] (d - 1) r1) as Hg1 by (split; [done|]; cbn; by rewrite step_0).
  pose proof (goes_app _ _ _ _ _ _ _ Hr1 Hg1) as Hg. cbn [app] in Hg.
  assert (rest r1 = t ++ s) as Er1 by done.
  assert (ready (d - 1) r1) as Hrd1.
  { eapply ready_goes; [exact Hr | exact Hg |]. rewrite Er1, Ey. by eapply ws_ascii. }
  assert (runs consume_whitespace r1 tt (step (length w) r1)) as Hrw.
  { eapply runs_ws; [exact Hrd1 | by rewrite Er1 | done | done]. }
  split_and!; try done.
  - unfold begin_container.
    eapply runs_bind; [eapply (value_kind_id k); [done | exact E | destruct Hk as [-> | ->]; done]|].
    rewrite kind_eqb_refl. cbn [negb]. apply runs_gets. assert (remaining_depth_ r = d) as -> by apply Hr.
    replace (d <=? 1) with false by lia. eapply runs_bind; [done|].
    eapply runs_take; [exact E|].
    rewrite step_with_depth. exact Hrw.
  - destruct (reads_step r1 w y ltac:(by rewrite Er1)) as [Hr2 E2].
    rewrite <- (step_0 (step (length w) r1)) at 2. eapply (runs_consume_whitespace _ [] y).
    + by eapply inv0_goes; [eapply ready_inv0|].
    + done.
    + constructor.
    + rewrite (comments_goes _ _ _ _ Hr2). erewrite comments_ready by exact Hrd1. done.
Qed.

(** Leading whitespace may be consumed beforehand. *)
Lemma consume_first {B} (k : RM B) r r1 b r' :
  runs consume_whitespace r tt r1 -> runs consume_whitespace r1 tt r1 ->
  runs (do* consume_whitespace ;; k) r b r' -> runs (do* consume_whitespace ;; k) r1 b r'.
Proof. unfold runs, bind. intros -> ->. done. Qed.

Lemma accepts_value_kind (k : ValueKind) d c l v s :
  kind_char k c ->
  (forall r fuel, ready d r -> rest r = c :: l ++ s -> follow s -> fuel_ok fuel (2 * left_units r)%nat ->
     runs match k with
          | KNull => do* parse_null ;; ret VNull
          | KBoolean => let* b := parse_bool in ret (VBool b)
          | KNumber => let* n := parse_number in ret (VNumber n)
          | KString => let* s := parse_string in ret (VString s)
          | KArray => do* begin_array ;; parse_elements fuel true []
          | KObject => do* begin_object ;; parse_members fuel true []
          end r v (step (length (c :: l)) r)) ->
  accepts_value d (c :: l) v s.
Proof.
  intros Hk Hrun r fuel Hr E Hs Hf. destruct fuel as [|fuel]; [lia|]. cbn [parse_value].
  eapply runs_bind; [eapply (value_kind_id k); [by eapply ready_inv0 | exact E | done]|].
  apply Hrun; [done | done | done | lia].
Qed.

Lemma accepts_null d s : accepts_value d lit_null VNull s.
Proof.
  apply (accepts_value_kind KNull); [done|]. intros r fuel Hr E _ _.
  eapply runs_bind; [eapply runs_parse_null; [done | exact E] | apply runs_ret].
Qed.

Lemma accepts_bool d (b : bool) s : accepts_value d (if b then lit_true else lit_false) (VBool b) s.
Proof.
  assert (forall r, ready d r -> rest r = (if b then lit_true else lit_false) ++ s ->
    runs (let* b := parse_bool in ret (VBool b)) r (VBool b)
      (step (length (if b then lit_true else lit_false)) r)) as Hrun.
  { intros r Hr E. eapply runs_bind; [by eapply runs_parse_bool | apply runs_ret]. }
  destruct b; (apply (accepts_value_kind KBoolean); [cbn; lia|]); intros r fuel Hr E _ _; by apply Hrun.
Qed.

Lemma accepts_number d n v s :
  number_wf n -> number_value o n = Some v -> accepts_value d (number_units n) (VNumber v) s.
Proof.
  intros Hn Hv. destruct (number_head n [] Hn) as (c & l & Ec & Hk & _). rewrite app_nil_r in Ec. rewrite Ec.
  apply (accepts_value_kind KNumber); [done|]. intros r fuel Hr E Hs _.
  change (c :: l ++ s) with ((c :: l) ++ s) in E. rewrite <- Ec in E |- *.
  eapply runs_bind; [|apply runs_ret]. eapply runs_parse_number; [apply Hr | done..|].
  by destruct Hr as (_ & _ & -> & _).
Qed.

Lemma accepts_string d body out s :
  jchars body out -> accepts_value d (0x22 :: body ++ [0x22]) (VString out) s.
Proof.
  intros Hj. apply (accepts_value_kind KString); [done|]. intros r fuel Hr E Hs _.
  rewrite <- app_assoc in E. eapply runs_bind; [|apply runs_ret].
  eapply runs_parse_string; [apply Hr | by destruct Hr as (_ & ? & _) | exact E | done].
Qed.

Lemma accepts_array d t vs s :
  1 < d -> gelems o jchars (d - 1) true t vs s -> accepts_elems (d - 1) true t vs s ->
  accepts_value d (0x5b :: t) (VArray vs) s.
Proof.
  intros Hd Hg IH. apply (accepts_value_kind KArray); [done|]. intros r fuel Hr E Hs Hf.
  destruct (gelems_lead _ _ _ _ _ _ Hg) as (w & y & Ey & Hw & Hst & Hasc).
  destruct (runs_begin KArray d r t y w s) as (Hb & Hw1 & Hw2 & Hr1 & E1); try done; [by left|].
  set (r1 := with_depth (step 1 r) (d - 1)) in *.
  eapply runs_bind; [exact Hb|].
  assert (left_units r = 1 + left_units r1)%nat as Hl.
  { rewrite <- !rest_length, E, E1. done. }
  specialize (IH r1 fuel [] Hr1 E1 ltac:(lia)). destruct fuel as [|fuel]; [lia|].
  cbn [app] in IH. replace (d - 1 + 1) with d in IH by lia.
  replace (step (length (0x5b :: t)) r) with (with_depth (step (length t) r1) d).
  2:{ unfold r1. rewrite step_with_depth, with_depth_twice, step_step by (rewrite E; len_lia).
      assert (remaining_depth_ (step (1 + length t) r) = d) as <- by (rewrite depth_step; apply Hr).
      apply with_depth_same. }
  cbn [parse_elements] in IH |- *. unfold next_array in IH |- *.
  unfold runs, bind in Hw1, Hw2, IH |- *. rewrite Hw2. by rewrite Hw1 in IH.
Qed.

Lemma accepts_object d t kvs s :
  1 < d -> gmembers o jchars (d - 1) true t kvs s -> keys_ok o kvs -> accepts_members (d - 1) true t kvs s ->
  accepts_value d (0x7b :: t) (VObject (build_object kvs)) s.
Proof.
  intros Hd Hg Hkeys IH. apply (accepts_value_kind KObject); [done|]. intros r fuel Hr E Hs Hf.
  destruct (gmembers_lead _ _ _ _ _ _ Hg) as (w & y & Ey & Hw & Hst & Hasc).
  destruct (runs_begin KObject d r t y w s) as (Hb & Hw1 & Hw2 & Hr1 & E1); try done; [by right|].
  set (r1 := with_depth (step 1 r) (d - 1)) in *.
  eapply runs_bind; [exact Hb|].
  assert (left_units r = 1 + left_units r1)%nat as Hl.
  { rewrite <- !rest_length, E, E1. done. }
  assert (reject_duplicate_keys o = true -> fresh [] kvs) as Hfresh.
  { intros Hrej. split; [by apply Hkeys|]. by apply Forall_true. }
  specialize (IH r1 fuel [] Hr1 E1 ltac:(lia) ltac:(constructor) Hfresh). destruct fuel as [|fuel]; [lia|].
  replace (d - 1 + 1) with d in IH by lia.
  replace (step (length (0x7b :: t)) r) with (with_depth (step (length t) r1) d).
  2:{ unfold r1. rewrite step_with_depth, with_depth_twice, step_step by (rewrite E; len_lia).
      assert (remaining_depth_ (step (1 + length t) r) = d) as <- by (rewrite depth_step; apply Hr).
      apply with_depth_same. }
  cbn [parse_members] in IH |- *. unfold next_object_key, read_object_key in IH |- *.
  unfold runs, bind in Hw1, Hw2, IH |- *. rewrite Hw2. by rewrite Hw1 in IH.
Qed.

(** One element, then the rest of the array. *)
Lemma accepts_elems_cons d first t v t' vs s fuel acc r r0 (pre : list Z) :
  accepts_value d t v (t' ++ s) -> accepts_elems d false t' vs s -> follow (t' ++ s) -> t <> [] ->
  r0 = step (length pre) r -> rest r = pre ++ t ++ t' ++ s -> ready d r0 -> ready d r ->
  fuel_ok (S fuel) (2 * left_units r + 2)%nat ->
  runs (next_array first) r true r0 ->
  runs (parse_elements (S fuel) first acc) r (VArray (acc ++ v :: vs))
    (with_depth (step (length (pre ++ t ++ t')) r) (d + 1)).
Proof.
  intros IHv IHe Hfol Hne -> E Hr0 Hr Hf Hnext. cbn [parse_elements].
  destruct (reads_step r _ _ E) as [Hpre E0]. pose proof (goes_left _ _ _ _ Hpre) as Hl0.
  eapply runs_bind; [exact Hnext|]. cbn [negb].
  eapply runs_bind; [apply IHv; [done | done | done | lia]|].
  destruct (ready_step _ _ _ _ _ _ _ Hr0 E0 (follow_stop _ Hfol)) as [Hr1 E1].
  assert (left_units (step (length pre) r) = length t + left_units (step (length t) (step (length pre) r)))%nat as Hl1.
  { rewrite <- !rest_length, E0, E1. by rewrite length_app. }
  replace (acc ++ v :: vs) with ((acc ++ [v]) ++ vs) by (by rewrite <- app_assoc).
  replace (step (length (pre ++ t ++ t')) r) with
    (step (length t') (step (length t) (step (length pre) r))).
  2:{ rewrite (step_step (length t)), step_step by (rewrite E; len_lia). f_equal. len_lia. }
  apply IHe; [done | done |]. assert (0 < length t)%nat by (destruct t; [done | cbn; lia]). lia.
Qed.

Lemma accepts_elems_first d w t v t' vs s :
  ws (allow_comments o) w (t ++ t' ++ s) -> gvalue o jchars d t v (t' ++ s) -> accepts_value d t v (t' ++ s) ->
  gelems o jchars d false t' vs s -> accepts_elems d false t' vs s ->
  accepts_elems d true (w ++ t ++ t') (v :: vs) s.
Proof.
  intros Hw Hg IHv Hgs IHe r fuel acc Hr E Hf. destruct fuel as [|fuel]; [lia|].
  rewrite <- !app_assoc in E. destruct (gvalue_head _ _ _ _ _ _ Hg) as (k & c & l & -> & Hk).
  destruct (kind_char_plain k c Hk) as (_ & _ & Hasc). destruct (kind_char_follow_free k c Hk) as (Hn1 & _ & _).
  destruct (ready_step _ _ _ _ _ _ _ Hr E Hasc) as [Hr0 _].
  apply (accepts_elems_cons _ _ _ _ _ _ s _ _ _ (step (length w) r)); try done.
  { by eapply gelems_follow. }
  eapply (runs_item_first lo hi o true 0x5d _ _ (fun b => ret b)); [done | | done | done | exact E | done | done].
  by eapply ws_stops_kind.
Qed.

Lemma accepts_elems_next d w w' t v t' vs s :
  ws (allow_comments o) w (0x2c :: w' ++ t ++ t' ++ s) -> ws (allow_comments o) w' (t ++ t' ++ s) ->
  gvalue o jchars d t v (t' ++ s) -> accepts_value d t v (t' ++ s) ->
  gelems o jchars d false t' vs s -> accepts_elems d false t' vs s ->
  accepts_elems d false (w ++ 0x2c :: w' ++ t ++ t') (v :: vs) s.
Proof.
  intros Hw Hw' Hg IHv Hgs IHe r fuel acc Hr E Hf. destruct fuel as [|fuel]; [lia|].
  replace (w ++ 0x2c :: w' ++ t ++ t') with ((w ++ 0x2c :: w') ++ t ++ t') in E |- *
    by (by rewrite <- app_assoc).
  rewrite <- !app_assoc in E. cbn [app] in E.
  destruct (gvalue_head _ _ _ _ _ _ Hg) as (k & c & l & -> & Hk).
  destruct (kind_char_plain k c Hk) as (_ & _ & Hasc). destruct (kind_char_follow_free k c Hk) as (Hn1 & _ & _).
  assert (rest r = (w ++ 0x2c :: w') ++ (c :: l) ++ t' ++ s) as E' by (by rewrite <- app_assoc).
  destruct (ready_step _ _ _ _ _ _ _ Hr E' Hasc) as [Hr0 _].
  apply (accepts_elems_cons _ _ _ _ _ _ s _ _ _ (step (length (w ++ 0x2c :: w')) r)); try done.
  { by eapply gelems_follow. }
  eapply (runs_item_next lo hi o false 0x5d _ _ (fun b => ret b)); try done. by eapply ws_stops_kind.
Qed.

Lemma accepts_elems_end d first w s :
  ws (allow_comments o) w (0x5d :: s) -> accepts_elems d first (w ++ [0x5d]) [] s.
Proof.
  intros Hw r fuel acc Hr E Hf. destruct fuel as [|fuel]; [lia|]. rewrite <- app_assoc in E.
  cbn [parse_elements]. eapply runs_bind.
  - eapply (runs_item_close lo hi o first 0x5d _ _ (fun b => ret b)); [done | lia | exact Hr | exact E | done | done].
  - cbn [negb]. rewrite app_nil_r. apply runs_ret.
Qed.

Lemma accepts_member_intro d body k w1 w2 t v s :
  jchars body k -> ws (allow_comments o) w1 (0x3a :: w2 ++ t ++ s) -> ws (allow_comments o) w2 (t ++ s) ->
  gvalue o jchars d t v s -> accepts_value d t v s ->
  accepts_member d ((0x22 :: body ++ [0x22]) ++ w1 ++ 0x3a :: w2 ++ t) k v s.
Proof.
  intros Hj Hw1 Hw2 Hg IH r Hr E Hs.
  destruct (gvalue_head _ _ _ _ _ _ Hg) as (kd & c & l & Et & Hk).
  destruct (kind_char_plain kd c Hk) as (_ & _ & Hasc).
  set (q := 0x22 :: body ++ [0x22]).
  assert (rest r = q ++ w1 ++ 0x3a :: w2 ++ t ++ s) as E0.
  { rewrite E. unfold q. cbn [app]. repeat (rewrite <- !app_assoc; cbn [app]). done. }
  exists (q ++ w1 ++ 0x3a :: w2), t.
  split; [by rewrite <- app_assoc; cbn [app]; rewrite <- app_assoc|]. split; [done|].
  assert (ascii_stop (w1 ++ 0x3a :: w2 ++ t ++ s)) as Hst1 by (eapply ws_ascii; [done | cbn; lia]).
  assert (ascii_stop (t ++ s)) as Hst3 by (by rewrite Et).
  assert (ascii_stop (w2 ++ t ++ s)) as Hst2 by (by eapply ws_ascii).
  destruct (ready_step _ _ _ _ _ _ _ Hr E0 Hst1) as [Hr1 E1].
  destruct (ready_step _ _ _ _ _ _ _ Hr1 E1 ltac:(cbn; lia)) as [Hr2 E2].
  destruct (ready_step _ _ _ _ _ [0x3a] _ Hr2 E2 Hst2) as [Hr3 E3].
  destruct (ready_step _ _ _ _ _ _ _ Hr3 E3 Hst3) as [Hr4 E4].
  assert (step (length w2) (step 1 (step (length w1) (step (length q) r))) =
    step (length (q ++ w1 ++ 0x3a :: w2)) r) as Eall.
  { rewrite (step_step (length w1)), (step_step 1), step_step by (rewrite E0; len_lia). f_equal. len_lia. }
  change (length [0x3a]) with 1%nat in *. rewrite Eall in Hr4, E4. split_and!; try done.
  unfold key_colon. apply runs_gets.
  assert (exists l, rest r = 0x22 :: l) as [l0 E0'] by (rewrite E0; by eexists).
  rewrite (peek_rest r _ _ E0'). cbn [negb Z.eqb]. change (0x22 =? 0x22) with true. cbn [negb].
  eapply runs_bind.
  { eapply runs_parse_string; [apply Hr | by destruct Hr as (_ & ? & _) | | exact Hj].
    rewrite E0. unfold q. cbn [app]. by rewrite <- app_assoc. }
  fold q. eapply runs_bind.
  { eapply runs_ws; [exact Hr1 | exact E1 | done |]. split; [done|]. by right; left. }
  apply runs_gets. rewrite (eof_false _ _ _ (ready_inv0 _ _ _ _ _ Hr2) E2).
  apply runs_gets. rewrite (peek_rest _ _ _ E2). change (0x3a =? 0x3a) with true. cbn [negb].
  eapply runs_take; [exact E2|]. eapply runs_bind; [|rewrite <- Eall; apply runs_ret].
  eapply runs_ws; [exact Hr3 | exact E3 | done |]. rewrite Et. by eapply ws_stops_kind.
Qed.

Lemma accepts_members_cons d first t k v t' kvs s fuel m r r0 (pre : list Z) :
  accepts_member d t k v (t' ++ s) -> accepts_members d false t' kvs s -> follow (t' ++ s) ->
  r0 = step (length pre) r -> rest r = pre ++ t ++ t' ++ s -> ready d r0 -> ready d r ->
  fuel_ok (S fuel) (2 * left_units r + 2)%nat ->
  sorted_keys m -> (reject_duplicate_keys o = true -> fresh m ((k, v) :: kvs)) ->
  (forall x r', runs key_colon r0 x r' -> runs (next_object_key first) r x r') ->
  runs (parse_members (S fuel) first m) r (VObject (insert_all m ((k, v) :: kvs)))
    (with_depth (step (length (pre ++ t ++ t')) r) (d + 1)).
Proof.
  intros IHm IHms Hfol -> E Hr0 Hr Hf Hs Hfr Hnext. cbn [parse_members].
  destruct (reads_step r _ _ E) as [Hpre E0]. pose proof (goes_left _ _ _ _ Hpre) as Hl0.
  destruct (IHm _ Hr0 E0 Hfol) as (t1 & t2 & -> & Hne & Hkc & Hr1 & E1 & IHv).
  set (r1 := step (length t1) (step (length pre) r)) in *.
  eapply runs_bind; [by apply Hnext|].
  rewrite <- app_assoc in E0. destruct (reads_step _ t1 _ E0) as [Hk1 _].
  pose proof (goes_left _ _ _ _ Hk1) as Hl1. fold r1 in Hl1.
  assert (0 < length t1)%nat by (destruct t1; [done | cbn; lia]).
  eapply runs_bind; [apply IHv; [done | done | done | lia]|].
  destruct (ready_step _ _ _ _ _ _ _ Hr1 E1 (follow_stop _ Hfol)) as [Hr2 E2].
  destruct (reads_step _ t2 _ E1) as [Hk2 _]. pose proof (goes_left _ _ _ _ Hk2) as Hl2.
  pose proof (map_insert_get k v m k Hs) as [Hprev _]. pose proof (map_insert_sorted k v m Hs) as Hs'.
  change (insert_all m ((k, v) :: kvs)) with (insert_all (snd (map_insert k v m)) kvs).
  assert (reject_duplicate_keys o = true -> map_get k m = None /\ fresh (snd (map_insert k v m)) kvs) as Hfr'.
  { intros Hrej. destruct (Hfr Hrej) as [Hnd Hall]. inversion Hnd as [|? ? Hni Hnd']; subst.
    inversion Hall as [|? ? Hk Hall']; subst. cbn in *. split; [done|]. split; [done|].
    rewrite list.Forall_forall in Hall' |- *. intros [k' v'] Hin. specialize (Hall' _ Hin). cbn in *.
    destruct (map_insert_get k v m k' Hs) as [_ ->]. destruct (cmp k' k) eqn:Ec; try done.
    apply cmp_eq in Ec as ->. exfalso. apply Hni. apply list_elem_of_fmap. by exists (k, v'). }
  destruct (map_insert k v m) as [previous m'] eqn:Ei. cbn [fst snd] in *.
  apply runs_gets. assert (options_ (step (length t2) r1) = o) as -> by apply Hr2.
  assert (reject_duplicate_keys o && bool_decide (is_Some previous) = false) as ->.
  { destruct (reject_duplicate_keys o) eqn:Erej; [|done]. destruct (Hfr' eq_refl) as [Hn _].
    rewrite Hprev, Hn. done. }
  replace (step (length (pre ++ (t1 ++ t2) ++ t')) r) with (step (length t') (step (length t2) r1)).
  2:{ unfold r1. rewrite (step_step (length t1)), (step_step (length t2)), step_step by (rewrite E; len_lia).
      f_equal. len_lia. }
  apply IHms; [done | done | lia | done |]. intros Hrej. by apply Hfr'.
Qed.

Lemma accepts_members_first d w t k v t' kvs s :
  ws (allow_comments o) w (t ++ t' ++ s) -> gmember o jchars d t k v (t' ++ s) ->
  accepts_member d t k v (t' ++ s) ->
  gmembers o jchars d false t' kvs s -> accepts_members d false t' kvs s ->
  accepts_members d true (w ++ t ++ t') ((k, v) :: kvs) s.
Proof.
  intros Hw Hg IHm Hgs IHms r fuel m Hr E Hf Hs Hfr. destruct fuel as [|fuel]; [lia|].
  rewrite <- !app_assoc in E. destruct (gmember_head _ _ _ _ _ _ _ Hg) as (l & ->).
  destruct (ready_step _ _ _ _ _ _ _ Hr E ltac:(cbn; lia)) as [Hr0 _].
  eapply (accepts_members_cons _ _ _ _ _ _ _ s _ _ _ (step (length w) r)); try done.
  { by eapply gmembers_follow. }
  intros x r' Hrun.
  eapply (runs_item_first lo hi o true 0x7d _ _ (fun b => if (b : bool) then key_colon else ret None));
    [done | | | exact Hr | exact E | exact Hw | exact Hrun]; [by apply (ws_stops_kind _ KString) | done].
Qed.

Lemma accepts_members_next d w w' t k v t' kvs s :
  ws (allow_comments o) w (0x2c :: w' ++ t ++ t' ++ s) -> ws (allow_comments o) w' (t ++ t' ++ s) ->
  gmember o jchars d t k v (t' ++ s) -> accepts_member d t k v (t' ++ s) ->
  gmembers o jchars d false t' kvs s -> accepts_members d false t' kvs s ->
  accepts_members d false (w ++ 0x2c :: w' ++ t ++ t') ((k, v) :: kvs) s.
Proof.
  intros Hw Hw' Hg IHm Hgs IHms r fuel m Hr E Hf Hs Hfr. destruct fuel as [|fuel]; [lia|].
  replace (w ++ 0x2c :: w' ++ t ++ t') with ((w ++ 0x2c :: w') ++ t ++ t') in E |- *
    by (by rewrite <- app_assoc).
  rewrite <- !app_assoc in E. cbn [app] in E.
  destruct (gmember_head _ _ _ _ _ _ _ Hg) as (l & ->).
  assert (rest r = (w ++ 0x2c :: w') ++ (0x22 :: l) ++ t' ++ s) as E' by (by rewrite <- app_assoc).
  destruct (ready_step _ _ _ _ _ _ _ Hr E' ltac:(cbn; lia)) as [Hr0 _].
  eapply (accepts_members_cons _ _ _ _ _ _ _ s _ _ _ (step (length (w ++ 0x2c :: w')) r)); try done.
  { by eapply gmembers_follow. }
  intros x r' Hrun.
  eapply (runs_item_next lo hi o false 0x7d _ _ (fun b => if (b : bool) then key_colon else ret None));
    [done | done | | | | exact Hr | exact E | exact Hw | exact Hw' | exact Hrun];
    [by apply (ws_stops_kind _ KString) | done | lia].
Qed.

Lemma accepts_members_end d first w s :
  ws (allow_comments o) w (0x7d :: s) -> accepts_members d first (w ++ [0x7d]) [] s.
Proof.
  intros Hw r fuel m Hr E Hf Hs Hfr. destruct fuel as [|fuel]; [lia|]. rewrite <- app_assoc in E.
  cbn [parse_members]. eapply runs_bind.
  - eapply (runs_item_close lo hi o first 0x7d _ _ (fun b => if (b : bool) then key_colon else ret None));
      [done | lia | exact Hr | exact E | done | done].
  - apply runs_ret.
Qed.

(** Every derivation is followed. *)
Lemma gvalue_accepts d t v s : gvalue o jchars d t v s -> accepts_value d t v s.
Proof.
  revert d t v s.
  enough (forall d t v s, gvalue o jchars d t v s -> accepts_value d t v s /\ gvalue o jchars d t v s) as Hen
    by (intros; by apply Hen).
  apply (gvalue_mut _ o jchars (fun d t v s => accepts_value d t v s /\ gvalue o jchars d t v s)
    (fun d first t vs s => accepts_elems d first t vs s /\ gelems o jchars d first t vs s)
    (fun d first t kvs s => accepts_members d first t kvs s /\ gmembers o jchars d first t kvs s)
    (fun d t k v s => accepts_member d t k v s /\ gmember o jchars d t k v s));
    intros; repeat match goal with H : _ /\ _ |- _ => destruct H end; split; try (by econstructor; eauto).
  - apply accepts_null.
  - apply (accepts_bool _ true).
  - apply (accepts_bool _ false).
  - by apply accepts_number.
  - by apply accepts_string.
  - by apply accepts_array.
  - by apply accepts_object.
  - by apply accepts_elems_end.
  - by apply accepts_elems_first.
  - by apply accepts_elems_next.
  - by apply accepts_members_end.
  - by apply accepts_members_first.
  - by apply accepts_members_next.
  - by apply accepts_member_intro.
Qed.
End Accept.

Lemma bytes_units s : bytes_ok s -> units_ok s.
Proof. apply Forall_impl. unfold is_byte. lia. Qed.

Lemma ok_reader_utf8 text o : is_text text -> ok 0 (length text) (reader_utf8 text o).
Proof.
  intros Ht. unfold ok, inv, inv0, in_bounds. cbn -[len]. unfold len. cbn.
  split_and!; try done; try lia. apply bytes_units, is_text_bytes_ok, Ht.
Qed.

Lemma ok_reader_utf16 units o : units_ok units -> ok 0 (length units) (reader_utf16 units o).
Proof.
  intros Ht. unfold ok, inv, inv0, in_bounds. cbn -[len]. unfold len. cbn. split_and!; try done; lia.
Qed.

(** ** Well-formed values *)

#[warnings="-register-all"] Inductive value_wf : Value -> Prop :=
| wf_null : value_wf VNull
| wf_bool b : value_wf (VBool b)
| wf_number n : number_ok n -> value_wf (VNumber n)
| wf_string s : is_text s -> value_wf (VString s)
| wf_array vs : Forall value_wf vs -> value_wf (VArray vs)
| wf_object m :
    sorted_keys m -> Forall (fun e => is_text (fst e)) m -> Forall (fun e => value_wf (snd e)) m ->
    value_wf (VObject m).

Lemma jchars_text n body out :
  length body = n -> jchars body out -> is_text body -> is_text out.
Proof.
  revert body out. induction n as [n IH] using lt_wf_ind. intros body out Hn Hj Ht.
  destruct (jchars_split body out Hj) as (chunk & body' & out' & -> & -> & _ & Hj' & Hb).
  destruct Hb as [->|[l ->]].
  { inversion Hj'; subst. by rewrite app_nil_r in Ht |- *. }
  apply text_ascii_split in Ht as (Hc & _ & Hl); [|lia]. apply is_text_app; [done|].
  rewrite length_app in Hn. cbn in Hn.
  destruct (jchars_escape _ _ Hj') as [(e & c & t & o & -> & He & -> & Ht)|(e & t & piece & o & -> & He & -> & Ht)].
  - destruct (escape_char_range e c He) as [Her Hcr].
    apply is_text_app; [exists [c]; cbn; rewrite app_nil_r; split; [|done]; constructor; [|constructor]|].
    { unfold is_scalar. lia. }
    eapply (IH (length t)); [cbn in Hn; lia | done | done |]. by apply (text_ascii_split [] e t Hl).
  - assert (is_text piece /\ is_text e /\ Forall (fun v => 0 <= v < 128) e) as (Hp & He1 & He2).
    { assert (forall cp, 0 <= cp -> is_scalar cp = true -> is_text (encode_utf8 cp)) as Henc.
      { intros cp H0 H1. exists [cp]. cbn. rewrite app_nil_r. split; [|done]. by constructor; [|constructor]. }
      destruct He as [h cp Hh Hhi Hlo|h1 high h2 low Hh1 Hh2 Hhi Hlo].
      - destruct (hex4_range _ _ Hh) as (Hr & Ha & _). split_and!; [|by apply text_ascii|done].
        apply Henc; [lia|]. unfold is_scalar. unfold is_high_surrogate, is_low_surrogate in *. lia.
      - destruct (hex4_range _ _ Hh1) as (_ & Ha1 & _). destruct (hex4_range _ _ Hh2) as (_ & Ha2 & _).
        assert (Forall (fun v => 0 <= v < 128) (h1 ++ 0x5c :: 0x75 :: h2)) as Hall.
        { apply Forall_app. split; [done|]. constructor; [lia|]. constructor; [lia | done]. }
        split_and!; [|by apply text_ascii|done]. unfold is_high_surrogate, is_low_surrogate in *.
        apply Henc; [lia|]. unfold is_scalar. lia. }
    apply is_text_app; [done|]. cbn [length] in Hn. rewrite length_app in Hn.
    eapply (IH (length t)); [lia | done | done |].
    apply (is_text_app_inv e); [done|]. by apply (text_ascii_split [] 0x75 _ Hl).
Qed.

Lemma is_text_after t s : ascii_stop s -> is_text (t ++ s) -> is_text s.
Proof.
  intros Hs Ht. destruct s as [|x l]; [apply is_text_nil|].
  by apply text_ascii_split in Ht as (_ & ? & _).
Qed.

Section Wf.
Context `{DecimalConversionLaws} (o : ParseOptions).

Lemma number_value_ok n v : number_wf n -> number_value o n = Some v -> number_ok v.
Proof.
  intros Hn Hv. assert (forall v, float_value n = Some v -> number_ok v) as Hfl.
  { intros x Hx. unfold float_value in Hx. fold (number_decimal n) in Hx.
    destruct (to_f64_total _ (number_decimal_ok n Hn)) as [(bits & E & Hfin & Hr)|E]; rewrite E in Hx; [|done].
    unfold from_f64 in Hx. rewrite Hfin in Hx. injection Hx as <-. done. }
  destruct (number_digits n Hn) as (Hd & _). pose proof (digits_value_nonneg _ Hd) as Hpos.
  unfold number_value in Hv. set (m := digits_value 0 (nt_integer n)) in *.
  repeat case_if; try (by apply Hfl); try done; injection Hv as <-; cbn;
    change (MAX u64) with (2 ^ 64 - 1) in *; try change (MIN i64) with (- 2 ^ 63); lia.
Qed.

Lemma insert_sorted_all m kvs : sorted_keys m -> sorted_keys (insert_all m kvs).
Proof. revert m. induction kvs as [|[k v] kvs IH]; intros m Hs; [done|]. cbn. by apply IH, map_insert_sorted. Qed.

Lemma insert_all_Forall (P : list Z * Value -> Prop) m kvs :
  Forall P m -> Forall P kvs -> (forall k v v', P (k, v) -> P (k, v') -> P (k, v')) ->
  sorted_keys m -> Forall P (insert_all m kvs).
Proof.
  intros Hm Hk _. revert m Hm. induction Hk as [|[k v] kvs Hkv Hkvs IH]; intros m Hm Hs; [done|].
  cbn. apply IH; [|by apply map_insert_sorted]. clear IH. induction Hm as [|[k' v'] m Hp Hm IHm]; cbn.
  { by constructor. }
  apply sorted_cons in Hs as [_ Hs]. destruct (cmp k k') eqn:Ec.
  - apply cmp_eq in Ec as ->. by constructor.
  - constructor; [done|]. by constructor.
  - destruct (map_insert k v m) as [old m'] eqn:Ei. cbn in *. constructor; [done | by apply IHm].
Qed.

Lemma gvalue_wf d t v s : gvalue o jchars d t v s -> is_text (t ++ s) -> value_wf v.
Proof.
  revert d t v s.
  apply (gvalue_mut _ o jchars (fun d t v s => is_text (t ++ s) -> value_wf v)
    (fun d first t vs s => is_text (t ++ s) -> Forall value_wf vs)
    (fun d first t kvs s => is_text (t ++ s) ->
       Forall (fun e => is_text (fst e)) kvs /\ Forall (fun e => value_wf (snd e)) kvs)
    (fun d t k v s => is_text (t ++ s) -> is_text k /\ value_wf v)).
  - intros; constructor.
  - intros; constructor.
  - intros; constructor.
  - intros. constructor. by eapply number_value_ok.
  - intros d body out s Hj Ht. constructor. cbn in Ht. rewrite <- app_assoc in Ht.
    apply (text_ascii_split [] 0x22) in Ht as (_ & _ & Ht); [|lia].
    apply text_ascii_split in Ht as (Ht & _ & _); [|lia]. by eapply jchars_text.
  - intros d t vs s _ _ IH Ht. constructor. apply IH. by apply (text_ascii_split [] 0x5b) in Ht as (_ & _ & ?); [|lia].
  - intros d t kvs s _ _ IH _ Ht. apply (text_ascii_split [] 0x7b) in Ht as (_ & _ & Ht); [|lia].
    destruct (IH Ht) as [Hk Hv]. constructor.
    + apply (insert_sorted_all []). constructor.
    + by apply (insert_all_Forall _ []); [constructor | | | constructor].
    + by apply (insert_all_Forall _ []); [constructor | | | constructor].
  - intros; constructor.
  - intros d w t v t' vs s Hw Hg IHv Hgs IHe Ht. rewrite <- !app_assoc in Ht.
    destruct (gvalue_head _ _ _ _ _ _ Hg) as (k & c & l & -> & Hk).
    destruct (kind_char_plain k c Hk) as (_ & _ & Hasc).
    apply is_text_after in Ht; [|exact Hasc]. constructor; [by apply IHv|].
    apply IHe. apply is_text_after in Ht; [done|]. eapply follow_stop, gelems_follow, Hgs.
  - intros d w w' t v t' vs s Hw Hw' Hg IHv Hgs IHe Ht.
    replace ((w ++ 0x2c :: w' ++ t ++ t') ++ s) with ((w ++ 0x2c :: w') ++ t ++ t' ++ s) in Ht
      by (by rewrite <- !app_assoc; cbn [app]; rewrite <- !app_assoc).
    destruct (gvalue_head _ _ _ _ _ _ Hg) as (k & c & l & -> & Hk).
    destruct (kind_char_plain k c Hk) as (_ & _ & Hasc).
    apply is_text_after in Ht; [|exact Hasc]. constructor; [by apply IHv|].
    apply IHe. apply is_text_after in Ht; [done|]. eapply follow_stop, gelems_follow, Hgs.
  - intros; split; constructor.
  - intros d w t k v t' kvs s Hw Hg IHm Hgs IHe Ht. rewrite <- !app_assoc in Ht.
    destruct (gmember_head _ _ _ _ _ _ _ Hg) as (l & ->).
    apply is_text_after in Ht; [|cbn; lia]. destruct (IHm Ht) as [Hk Hv].
    apply is_text_after in Ht; [|eapply follow_stop, gmembers_follow, Hgs].
    destruct (IHe Ht). split; by constructor.
  - intros d w w' t k v t' kvs s Hw Hw' Hg IHm Hgs IHe Ht.
    replace ((w ++ 0x2c :: w' ++ t ++ t') ++ s) with ((w ++ 0x2c :: w') ++ t ++ t' ++ s) in Ht
      by (by rewrite <- !app_assoc; cbn [app]; rewrite <- !app_assoc).
    destruct (gmember_head _ _ _ _ _ _ _ Hg) as (l & ->).
    apply is_text_after in Ht; [|cbn; lia]. destruct (IHm Ht) as [Hk Hv].
    apply is_text_after in Ht; [|eapply follow_stop, gmembers_follow, Hgs].
    destruct (IHe Ht). split; by constructor.
  - intros d body k w1 w2 t v s Hj Hw1 Hw2 Hg IHv Ht.
    destruct (gvalue_head _ _ _ _ _ _ Hg) as (kd & c & l & Et & Hk).
    destruct (kind_char_plain kd c Hk) as (_ & _ & Hasc).
    replace (((0x22 :: body ++ [0x22]) ++ w1 ++ 0x3a :: w2 ++ t) ++ s) with
      ([0x22] ++ body ++ 0x22 :: (w1 ++ 0x3a :: w2) ++ t ++ s) in Ht
      by (cbn [app]; repeat (rewrite <- !app_assoc; cbn [app]); done).
    apply (text_ascii_split [] 0x22) in Ht as (_ & _ & Ht); [|lia].
    apply text_ascii_split in Ht as (Hb & _ & Ht); [|lia]. split; [by eapply jchars_text|].
    apply IHv. apply is_text_after in Ht; [done|]. by rewrite Et.
Qed.

(** Nesting stays within the budget. *)
Lemma gvalue_depth d t v s : gvalue o jchars d t v s -> Z.of_nat (value_depth v) <= Z.max 0 (d - 1).
Proof.
  assert (forall (A : Type) (f : A -> nat) l b, Forall (fun x => Z.of_nat (f x) <= b) l -> 0 <= b ->
    Z.of_nat (list_max (map f l)) <= b) as Hmax.
  { intros A f l b Hl Hb. induction Hl as [|x l Hx Hl IH]; [cbn; lia|].
    change (list_max (map f (x :: l))) with (Nat.max (f x) (list_max (map f l))). lia. }
  revert d t v s.
  apply (gvalue_mut _ o jchars (fun d t v s => Z.of_nat (value_depth v) <= Z.max 0 (d - 1))
    (fun d first t vs s => Forall (fun v => Z.of_nat (value_depth v) <= Z.max 0 (d - 1)) vs)
    (fun d first t kvs s => Forall (fun e => Z.of_nat (value_depth (snd e)) <= Z.max 0 (d - 1)) kvs)
    (fun d t k v s => Z.of_nat (value_depth v) <= Z.max 0 (d - 1))); intros; cbn; try lia;
    try (by constructor); try done.
  - enough (Z.of_nat (list_max (map value_depth vs)) <= d - 2) by lia.
    apply Hmax; [|lia]. eapply Forall_impl; [|done]. cbn. lia.
  - enough (Z.of_nat (list_max (map (fun e => value_depth (snd e)) (build_object kvs))) <= d - 2) by lia.
    apply Hmax; [|lia]. apply (insert_all_Forall _ []); [constructor | | done | constructor].
    eapply Forall_impl; [|done]. cbn. lia.
Qed.
End Wf.

(** ** The parser and the grammar *)

Section Correct.
Context `{DecimalConversionLaws}.

(** Parsing ends with a value or with an error located in the input. *)
Definition settled {A} (n : nat) (x : outcome Error A) : Prop :=
  match x with
  | Ret _ => True
  | Fail e => (offset_ e <= n)%nat
  | Panic | OutOfFuel => False
  end.

Lemma wp_settled {A} lo hi (m : RM A) r Q : wp lo hi m r Q -> settled hi (fst (m r)).
Proof. unfold wp, settled, located. destruct (m r) as [[]?]; cbn; lia || done. Qed.

Lemma from_str_settled text o : is_text text -> settled (length text) (from_str text o).
Proof. intros Ht. eapply wp_settled. apply wp_parse, ok_reader_utf8, Ht. Qed.

Lemma from_slice_settled bytes o : bytes_ok bytes -> settled (length bytes) (from_slice bytes o).
Proof.
  intros Hb. unfold from_slice, from_utf8. pose proof (validate_utf8_correct bytes Hb) as Hv.
  pose proof (validate_ok_text bytes Hb) as Hok.
  destruct (validate_utf8 bytes) as [[]|e] eqn:Ev.
  - apply from_str_settled. by apply Hok.
  - unfold invalid_unicode_error, source_position_at, len. cbn [cursor_new input input_ values_ tracking_].
    assert (valid_up_to e <= length bytes)%nat as Hle.
    { destruct Hv as (Hle & _). lia. }
    replace (_ <? _)%nat with false by (symmetry; apply Nat.ltb_ge; done). done.
Qed.

Lemma read_value_utf16_settled units o :
  units_ok units -> settled (length units) (fst (read_value (reader_utf16 units o))).
Proof. intros Hu. eapply wp_settled. apply wp_read_value, ok_reader_utf16, Hu. Qed.

Lemma from_str_sound text o v :
  is_text text -> from_str text o = Ret v -> gdocument o jchars text v.
Proof.
  intros Ht Hv. pose proof (wp_parse 0 (length text) _ (ok_reader_utf8 text o Ht)) as Hwp.
  unfold from_str in Hv. unfold wp in Hwp. destruct (parse (reader_utf8 text o)) as [x r'].
  cbn in Hv. subst x. destruct Hwp as (w & t & w' & E & _ & Hw & Hg & Hw' & _).
  assert (rest (reader_utf8 text o) = text) as Er by done. rewrite Er in E. rewrite E.
  by eapply g_document.
Qed.

Lemma runs_finish d r w' lo hi o :
  ready lo hi o d r -> rest r = w' -> ws (allow_comments o) w' [] -> exists r', runs finish r tt r'.
Proof.
  intros Hr E Hw. exists (step (length w') r). unfold finish. eapply runs_bind.
  { eapply (runs_ws lo hi o d _ w' []); [done | by rewrite app_nil_r | done | done]. }
  destruct (reads_step r w' [] ltac:(by rewrite app_nil_r)) as [Hr1 E1].
  apply runs_gets. assert (inv0 (step (length w') r)) as Hi by (eapply inv0_goes; [eapply ready_inv0; exact Hr | exact Hr1]).
  rewrite (proj2 (eof_rest _ Hi) E1). apply runs_ret.
Qed.

Lemma from_str_complete text o v :
  is_text text -> gdocument o jchars text v -> from_str text o = Ret v.
Proof.
  intros Ht Hg. destruct Hg as [w t v w' Hw Hg Hw'].
  set (text := w ++ t ++ w') in *. set (r := reader_utf8 text o).
  assert (ready 0 (length text) o (max_depth o) r) as Hr.
  { split_and!; try done. by apply ok_reader_utf8. }
  assert (rest r = w ++ t ++ w') as E by done.
  destruct (gvalue_head _ _ _ _ _ _ Hg) as (k & c & l & Et & Hk).
  destruct (kind_char_plain k c Hk) as (_ & _ & Hasc).
  assert (ascii_stop (t ++ w')) as Hst by (by rewrite Et).
  destruct (ready_step _ _ _ _ _ _ _ Hr E Hst) as [Hr1 E1].
  assert (follow w') as Hfol.
  { rewrite <- (app_nil_r w'). by eapply ws_follow. }
  assert (left_units r = length w + left_units (step (length w) r))%nat as Hl.
  { rewrite <- !rest_length, E1, E. by rewrite length_app. }
  pose proof (gvalue_accepts 0 (length text) o _ _ _ _ Hg _ (value_fuel r) Hr1 E1 Hfol
    ltac:(unfold value_fuel; lia)) as Hrun.
  assert (runs (parse_value (value_fuel r)) r v (step (length t) (step (length w) r))) as Hrun'.
  { assert (value_kind r = (Ret k, step (length w) r)) as Hk1.
    { eapply (runs_value_kind k r w c (l ++ w')); [eapply ready_inv0; exact Hr | | | done].
      - by rewrite E, Et.
      - rewrite (comments_ready _ _ _ _ _ Hr). by rewrite Et in Hw. }
    assert (value_kind (step (length w) r) = (Ret k, step (length w) r)) as Hk2.
    { eapply value_kind_id; [eapply ready_inv0; exact Hr1 | by rewrite E1, Et | done]. }
    unfold value_fuel in Hrun |- *. rewrite Nat.add_comm in Hrun |- *. cbn [Nat.add parse_value] in Hrun |- *.
    unfold runs, bind in Hrun |- *. rewrite Hk1. by rewrite Hk2 in Hrun. }
  destruct (ready_step _ _ _ _ _ _ _ Hr1 E1 (follow_stop _ Hfol)) as [Hr2 E2].
  destruct (runs_finish _ _ _ _ _ _ Hr2 E2 Hw') as [r' Hfin].
  unfold from_str, parse. fold r.
  assert (runs (let* value := read_value in do* finish ;; ret value) r v r') as ->; [|done].
  eapply runs_bind; [apply runs_gets; exact Hrun'|]. eapply runs_bind; [exact Hfin | apply runs_ret].
Qed.

(** ** Skipping *)

Definition erase {A S} (x : outcome Error A * S) : outcome Error unit * S :=
  let '(a, s) := x in
  (match a with Ret _ => Ret tt | Fail e => Fail e | Panic => Panic | OutOfFuel => OutOfFuel end, s).

Lemma bind_unfold {A B} (m : RM A) (k : A -> RM B) r :
  bind m k r = match m r with
               | (Ret a, r') => k a r'
               | (Fail e, r') => (Fail e, r')
               | (Panic, r') => (Panic, r')
               | (OutOfFuel, r') => (OutOfFuel, r')
               end.
Proof. done. Qed.

Lemma erase_scalar {A B} (m : RM A) (f : A -> B) r :
  erase (bind m (fun a => ret (f a)) r) = bind m (fun _ => ret tt) r.
Proof. unfold bind, ret. by destruct (m r) as [[]?]. Qed.

Lemma skip_erases lo hi fuel :
  (forall r, ok lo hi r -> reject_duplicate_keys (options_ r) = false -> (2 * left_units r + 1 <= fuel)%nat ->
     skip_value fuel r = erase (parse_value fuel r)) /\
  (forall first acc r, ok lo hi r -> reject_duplicate_keys (options_ r) = false -> (2 * left_units r + 2 <= fuel)%nat ->
     skip_elements fuel first r = erase (parse_elements fuel first acc r)) /\
  (forall first m r, ok lo hi r -> reject_duplicate_keys (options_ r) = false -> (2 * left_units r + 2 <= fuel)%nat ->
     skip_members fuel first r = erase (parse_members fuel first m r)).
Proof.
  induction fuel as [|fuel (IHv & IHe & IHm)]; [split_and!; intros; lia|]. split_and!.
  - intros r Ho Hrej Hf. cbn [skip_value parse_value].
    pose proof (wp_value_kind lo hi r Ho) as Hk. rewrite !(bind_unfold value_kind). unfold wp in Hk.
    destruct (value_kind r) as [[k| | |] r1]; try done.
    destruct Hk as ((w & Hr & _ & _ & Ho1) & _). pose proof (goes_left _ _ _ _ Hr) as Hl.
    assert (reject_duplicate_keys (options_ r1) = false) as Hrej1 by (by rewrite (goes_options _ _ _ _ Hr)).
    destruct k; rewrite ?erase_scalar; try done.
    + unfold bind, ret, erase. by destruct (parse_null r1) as [[[]| | |] ?].
    + pose proof (wp_begin_container lo hi KArray r1 ltac:(by left) Ho1) as Hb.
      unfold bind. unfold wp in Hb. fold begin_array in Hb. destruct (begin_array r1) as [[[]| | |] r2]; try done.
      destruct Hb as (w1 & w2 & Hr2 & _ & _ & _ & Ho2). pose proof (goes_left _ _ _ _ Hr2) as Hl2.
      rewrite length_app in Hl2. cbn in Hl2. apply IHe; [done | by rewrite (goes_options _ _ _ _ Hr2) | lia].
    + pose proof (wp_begin_container lo hi KObject r1 ltac:(by right) Ho1) as Hb.
      unfold bind. unfold wp in Hb. fold begin_object in Hb. destruct (begin_object r1) as [[[]| | |] r2]; try done.
      destruct Hb as (w1 & w2 & Hr2 & _ & _ & _ & Ho2). pose proof (goes_left _ _ _ _ Hr2) as Hl2.
      rewrite length_app in Hl2. cbn in Hl2. apply IHm; [done | by rewrite (goes_options _ _ _ _ Hr2) | lia].
  - intros first acc r Ho Hrej Hf. cbn [skip_elements parse_elements].
    pose proof (wp_next_array lo hi first r Ho) as Hn. rewrite !(bind_unfold (next_array first)). unfold wp in Hn.
    destruct (next_array first r) as [[[|]| | |] r1]; try done. cbn [negb].
    destruct (separator_goes _ _ _ _ _ Hn) as [t Ht]. pose proof (goes_left _ _ _ _ Ht) as Hl.
    destruct Hn as (Ho1 & _).
    assert (reject_duplicate_keys (options_ r1) = false) as Hrej1 by (by rewrite (goes_options _ _ _ _ Ht)).
    unfold bind. rewrite IHv by (done || lia).
    pose proof (proj1 (wp_parse_all lo hi fuel) r1 Ho1 ltac:(lia)) as Hv. unfold wp in Hv.
    destruct (parse_value fuel r1) as [[v| | |] r2]; try done. cbn [erase].
    destruct Hv as (w & t2 & Hr2 & _ & _ & Hne & Ho2). pose proof (goes_left _ _ _ _ Hr2) as Hl2.
    rewrite length_app in Hl2. assert (0 < length t2)%nat by (destruct t2; [done | cbn; lia]).
    apply IHe; [done | by rewrite (goes_options _ _ _ _ Hr2) | lia].
  - intros first m r Ho Hrej Hf. cbn [skip_members parse_members].
    pose proof (wp_next_object_key lo hi first r Ho) as Hn. rewrite !(bind_unfold (next_object_key first)). unfold wp in Hn.
    destruct (next_object_key first r) as [[[key|]| | |] r1]; try done.
    destruct Hn as (r0 & body & w1 & w2 & Hsep & Hr01 & _ & _ & _ & Ho1).
    destruct (separator_goes _ _ _ _ _ Hsep) as [t Ht]. pose proof (goes_left _ _ _ _ Ht) as Hl.
    pose proof (goes_left _ _ _ _ Hr01) as Hl1. cbn [app length] in Hl1.
    assert (reject_duplicate_keys (options_ r1) = false) as Hrej1
      by (by rewrite (goes_options _ _ _ _ Hr01), (goes_options _ _ _ _ Ht)).
    unfold bind. rewrite IHv by (done || lia).
    pose proof (proj1 (wp_parse_all lo hi fuel) r1 Ho1 ltac:(lia)) as Hv. unfold wp in Hv.
    destruct (parse_value fuel r1) as [[v| | |] r2]; try done. cbn [erase].
    destruct Hv as (w & t2 & Hr2 & _ & _ & Hne & Ho2). pose proof (goes_left _ _ _ _ Hr2) as Hl2.
    destruct (map_insert key v m) as [previous m']. unfold gets.
    rewrite (goes_options _ _ _ _ Hr2), Hrej1. cbn [andb].
    apply IHm; [done | by rewrite (goes_options _ _ _ _ Hr2) | lia].
Qed.

Lemma skip_agrees lo hi r :
  ok lo hi r -> reject_duplicate_keys (options_ r) = false -> skip r = erase (read_value r).
Proof.
  intros Ho Hrej. unfold skip, read_value, bind, gets.
  apply (skip_erases lo hi); [done | done |]. unfold value_fuel. lia.
Qed.
End Correct.
