(* ===== verification/JsonSpec.v ===== *)
(** * What the JSON parser promises

    The parser with the real decimal conversion: the claims about
    [from_str], [from_slice] and the skipping of values. *)

From Stdlib Require Import ZArith Lia ZifyBool.
From S2P Require Import Prelude Int Utf8 Str Cursor OrdMap FloatSpec Rounding Bignum Dec2Flt Dec2FltSpec.
From S2P Require Import Json JsonReader JsonParser JsonGrammar JsonRun JsonTokens JsonComplete JsonCorrect.
Local Open Scope Z_scope.

(** ** A sample document

    [{"a":[1,-2.5,null],"b":"x"}] *)
Definition sample : list Z :=
  [123; 34; 97; 34; 58; 91; 49; 44; 45; 50; 46; 53; 44; 110; 117; 108; 108; 93; 44; 34; 98; 34; 58; 34; 120; 34; 125].

Definition sample_value : Value :=
  VObject [([97], VArray [VNumber (NUnsigned 1); VNumber (NFloat 0xc004000000000000); VNull]); ([98], VString [120])].

Lemma sample_text : is_text sample.
Proof. apply validate_ok_text; [|vm_compute; reflexivity]. repeat constructor; unfold is_byte; lia. Qed.

Lemma sample_parses : from_str sample default_options = Ret sample_value.
Proof. vm_compute. reflexivity. Qed.

(** ** Claims *)

(** C1: The parser accepts exactly the documents of the JSON grammar (with the
    comments, the nesting limit, the duplicate-key and the integer-overflow
    policies of its options), and returns the value the grammar assigns. *)
Theorem from_str_iff_grammar text o v :
  is_text text -> from_str text o = Ret v <-> gdocument o jchars text v.
Proof. intros Ht. split; [by apply from_str_sound | by apply from_str_complete]. Qed.

Lemma from_str_iff_grammar_witness : gdocument default_options jchars sample sample_value.
Proof. exact (proj1 (from_str_iff_grammar sample default_options sample_value sample_text) sample_parses). Defined.

(** Parsing always ends, in a value or in an error whose offset lies within
    the input: on any UTF-8 text, on any bytes (validated first), and for any
    sequence of UTF-16 code units, surrogates paired or not.  Neither a panic
    nor an arithmetic overflow of the reader can be reached. *)
Theorem parsing_settles :
  (forall text o, is_text text -> settled (length text) (from_str text o)) /\
  (forall bytes o, bytes_ok bytes -> settled (length bytes) (from_slice bytes o)) /\
  (forall units o, units_ok units -> settled (length units) (fst (read_value (reader_utf16 units o)))).
Proof.
  split_and!; intros.
  - by apply from_str_settled.
  - by apply from_slice_settled.
  - by apply read_value_utf16_settled.
Qed.

Lemma parsing_settles_witness :
  settled 27 (from_str sample default_options) /\
  settled 3 (fst (read_value (reader_utf16 [0x22; 0xd800; 0x22] default_options))).
Proof.
  split; [exact (proj1 parsing_settles sample default_options sample_text)|].
  exact (proj2 (proj2 parsing_settles) [0x22; 0xd800; 0x22] default_options ltac:(repeat constructor; lia)).
Defined.

(** [from_slice] parses a byte string exactly when it is well-formed UTF-8
    denoting a JSON document.  Malformed UTF-8 is reported as such, at an
    offset before which the bytes are text and at which no character
    starts. *)
Theorem from_slice_spec bytes o :
  bytes_ok bytes ->
  (forall v, from_slice bytes o = Ret v <-> is_text bytes /\ gdocument o jchars bytes v) /\
  (is_text bytes \/
   exists e, from_slice bytes o = Fail e /\ code_ e = InvalidUnicodeCodePoint /\
     is_text (firstn (offset_ e) bytes) /\
     forall c rest, 0 <= c -> is_scalar c = true -> skipn (offset_ e) bytes <> encode_utf8 c ++ rest).
Proof.
  intros Hb. pose proof (validate_ok_text bytes Hb) as Hok. pose proof (validate_utf8_correct bytes Hb) as Hv.
  unfold from_slice, from_utf8. destruct (validate_utf8 bytes) as [[]|e] eqn:Ev.
  - assert (is_text bytes) as Ht by (by apply Hok). split; [|by left]. intros v. split.
    + intros E. split; [done | by apply from_str_sound].
    + intros [_ Hg]. by apply from_str_complete.
  - destruct Hv as (Hlen & Hpre & Hno & _). assert (~ is_text bytes) as Hnt by (intros Ht; by apply Hok in Ht).
    unfold invalid_unicode_error, source_position_at, len. cbn [cursor_new input input_ values_ tracking_].
    replace (_ <? _)%nat with false by (symmetry; apply Nat.ltb_ge; lia). split.
    + intros v. split; [done | by intros [? _]].
    + right. eexists. split; [done|]. done.
Qed.

Lemma from_slice_spec_witness : gdocument default_options jchars sample sample_value.
Proof.
  exact (proj2 (proj1 (proj1 (from_slice_spec sample default_options (is_text_bytes_ok _ sample_text)) sample_value) sample_parses)).
Defined.

(** Every parsed value is well formed: numbers in the range of their
    representation and finite, strings and keys valid UTF-8, object keys
    strictly increasing; and its nesting stays within the configured depth. *)
Theorem parsed_values_well_formed text o v :
  is_text text -> from_str text o = Ret v ->
  value_wf v /\ Z.of_nat (value_depth v) <= Z.max 0 (max_depth o - 1).
Proof.
  intros Ht Hv. apply from_str_sound in Hv; [|done]. destruct Hv as [w t v w' Hw Hg Hw']. split.
  - eapply gvalue_wf; [exact Hg|]. apply is_text_after in Ht; [done|].
    destruct (gvalue_head _ _ _ _ _ _ Hg) as (k & c & l & -> & Hk). by destruct (kind_char_plain k c Hk) as (_ & _ & ?).
  - eapply gvalue_depth, Hg.
Qed.

Lemma parsed_values_well_formed_witness : value_wf sample_value.
Proof. exact (proj1 (parsed_values_well_formed sample default_options sample_value sample_text sample_parses)). Defined.

(** [skip] consumes exactly what [read_value] consumes and fails exactly
    where it fails, with the same error and the reader in the same state (when
    duplicate keys are allowed, since skipping keeps no keys). *)
Theorem skip_matches_read_value text o :
  is_text text -> reject_duplicate_keys o = false ->
  skip (reader_utf8 text o) = erase (read_value (reader_utf8 text o)).
Proof. intros Ht Hd. by eapply skip_agrees; [apply ok_reader_utf8|]. Qed.

Lemma skip_matches_read_value_witness :
  skip (reader_utf8 sample default_options) = erase (read_value (reader_utf8 sample default_options)).
Proof. exact (skip_matches_read_value sample default_options sample_text eq_refl). Defined.

(** Errors are not always located at a one-based column: at the end of an
    input that ends a line, and on empty input, the column is 0. *)
Theorem error_column_zero :
  from_str [] default_options = Fail (MkError EofWhileParsingValue 1 0 0) /\
  from_str [0x0a] default_options = Fail (MkError EofWhileParsingValue 2 0 1).
Proof. split; vm_compute; reflexivity. Qed.
