(* ===== verification/JsonEmit.v ===== *)
(** * Writing JSON

    Models [src/json/src/serialize.cppm] and [src/json/src/string.cppm]: the
    quoting of strings, the [Emitter] of values, compact and pretty, the
    serializers that write while they are driven, and [to_string].  The
    formatter is that of [Fmt]; [check] is whether integer arithmetic checks
    for overflow. *)

From Stdlib Require Import ZArith Lia Ascii.
From stdpp Require Import strings.
From S2P Require Import Prelude Int Utf8 OrdMap Fmt FmtInteger Flt2Dec FmtFloat Json.
Local Open Scope Z_scope.
Local Open Scope rstd_scope.

Record FormatOptions := mkFormatOptions { pretty : bool; indent : Z }.

Definition default_format : FormatOptions := mkFormatOptions false 2.

(** ** Quoting *)

Definition escape_of (value : Z) : Z :=
  if value =? 34 then 34 else if value =? 92 then 92 else if value =? 8 then 98 else if value =? 12 then 102
  else if value =? 10 then 110 else if value =? 13 then 114 else if value =? 9 then 116 else 0.

Definition hex_at (i : Z) : Z := default 0 (lit "0123456789abcdef" !! Z.to_nat i).

Definition unicode_escape (cp : Z) : list Z :=
  [92; 117; hex_at (Z.land (Z.shiftr cp 12) 15); hex_at (Z.land (Z.shiftr cp 8) 15);
   hex_at (Z.land (Z.shiftr cp 4) 15); hex_at (Z.land cp 15)].

(** The loop of [quote_units]; [wide] when the units are [u16]. *)
Fixpoint quote_loop (wide : bool) (input output : list Z) : list Z :=
  match input with
  | [] => output
  | value :: rest =>
    let escape := escape_of value in
    if negb (escape =? 0) then quote_loop wide rest (output ++ [92; escape])
    else
      let plain :=
        let surrogate := wide && (0xd800 <=? value) && (value <=? 0xdfff) in
        if (value <? 32) || surrogate then output ++ unicode_escape value else output ++ [value] in
      match rest with
      | low :: rest' =>
        if wide && (0xd800 <=? value) && (value <=? 0xdbff) && (0xdc00 <=? low) && (low <=? 0xdfff)
        then quote_loop wide rest' (output ++ [value; low])
        else quote_loop wide rest plain
      | [] => plain
      end
  end.

Definition quote_units (wide : bool) (input : list Z) : list Z := quote_loop wide input [34] ++ [34].

Definition quote_string (input : list Z) : list Z := quote_units false input.

(** ** The emitter *)

(** The 64 bytes [write_float] formats into. *)
Record Buffer := mkBuffer { bytes : list Z }.

#[export] Instance buffer_write : Write Buffer := fun w data =>
  if (64 <? length (bytes w) + length data)%nat then (w, false) else (mkBuffer (bytes w ++ data), true).

(** The index of the first [e], or the length. *)
Fixpoint exponent_index (s : list Z) : nat :=
  match s with
  | [] => 0
  | c :: s => if c =? 101 then 0 else S (exponent_index s)
  end.

Section Emitter.
Context {W : Type} `{Write W} (check : bool) (options_ : FormatOptions).

Definition write (value : list Z) : FmtM W := write_str value.
Definition write_byte (value : Z) : FmtM W := write_raw [value].

Fixpoint write_spaces (n : nat) : FmtM W :=
  match n with
  | O => ret tt
  | S n => do* write_byte 32;; write_spaces n
  end.

Definition write_indent (depth : Z) : FmtM W :=
  let* count := or_abort (op_mul check usize depth (indent options_)) in
  write_spaces (Z.to_nat count).

(** [options_.pretty && ...] *)
Definition when_pretty (m : FmtM W) : FmtM W := if pretty options_ then m else ret tt.

Definition deeper (depth : Z) : M (Formatter W) unit Z := or_abort (op_add check usize depth 1).

Definition write_string (value : list Z) : FmtM W := write (quote_string value).

Definition write_integer (t : int_type) (value : Z) : FmtM W := write_fmt (lit "{}") [integer_argument t value].

(** The exponent gets a sign, if it has none. *)
Definition write_float_bytes (buffer : list Z) : FmtM W :=
  let exponent := exponent_index buffer in
  if (exponent =? length buffer)%nat then write_raw buffer
  else
    do* write_raw (take (S exponent) buffer);;
    do* match buffer !! S exponent with
        | Some c => if negb (c =? 45) then write_byte 43 else ret tt
        | None => panic
        end;;
    write_raw (drop (S exponent) buffer).

Definition write_float (value : Z) : FmtM W :=
  match write_fmt (lit "{:?}") [float_argument f64_type value] (mkFormatter (mkBuffer []) Fmt.default_options) with
  | (Ret _, local) => write_float_bytes (bytes (writer local))
  | (Fail _, _) => throw tt
  | (Panic, _) => panic
  | (OutOfFuel, _) => out_of_fuel
  end.

Definition write_number (number : Number) : FmtM W :=
  if is_u64 number then let* v := or_abort (as_u64 number) in write_integer u64 v
  else if is_i64 number then let* v := or_abort (as_i64 number) in write_integer i64 v
  else match number with NFloat bits => write_float bits | _ => panic end.

(** [key->as_str()], the colon and the value of an entry. *)
Definition write_colon : FmtM W := write (if pretty options_ then [58; 32] else [58]).

Fixpoint write_value (value : Value) (depth : Z) {struct value} : FmtM W :=
  match value with
  | VNull => write (lit "null")
  | VBool b => write (if b then lit "true" else lit "false")
  | VNumber number => write_number number
  | VString s => write_string s
  | VArray array =>
    do* write_byte 91;;
    if (length array =? 0)%nat then write_byte 93
    else
      do* when_pretty (write_byte 10);;
      do* (fix elements (index : nat) (rest : list Value) : FmtM W :=
             match rest with
             | [] => ret tt
             | v :: rest =>
               do* when_pretty (let* d := deeper depth in write_indent d);;
               let* d := deeper depth in
               do* write_value v d;;
               do* (if negb (S index =? length array)%nat then write_byte 44 else ret tt);;
               do* when_pretty (write_byte 10);;
               elements (S index) rest
             end) 0%nat array;;
      do* when_pretty (write_indent depth);;
      write_byte 93
  | VObject object =>
    do* write_byte 123;;
    if (length object =? 0)%nat then write_byte 125
    else
      do* when_pretty (write_byte 10);;
      do* (fix entries (index : nat) (rest : list (list Z * Value)) : FmtM W :=
             match rest with
             | [] => ret tt
             | (key, v) :: rest =>
               do* when_pretty (let* d := deeper depth in write_indent d);;
               do* write_string key;;
               do* write_colon;;
               let* d := deeper depth in
               do* write_value v d;;
               do* (if negb (S index =? length object)%nat then write_byte 44 else ret tt);;
               do* when_pretty (write_byte 10);;
               entries (S index) rest
             end) 0%nat object;;
      do* when_pretty (write_indent depth);;
      write_byte 125
  end.

(** The loops of [write_array] and [write_object], from an index on. *)
Definition array_loop (depth : Z) (total : nat) : nat -> list Value -> FmtM W :=
  fix elements (index : nat) (rest : list Value) : FmtM W :=
    match rest with
    | [] => ret tt
    | v :: rest =>
      do* when_pretty (let* d := deeper depth in write_indent d);;
      let* d := deeper depth in
      do* write_value v d;;
      do* (if negb (S index =? total)%nat then write_byte 44 else ret tt);;
      do* when_pretty (write_byte 10);;
      elements (S index) rest
    end.

Definition object_loop (depth : Z) (total : nat) : nat -> list (list Z * Value) -> FmtM W :=
  fix entries (index : nat) (rest : list (list Z * Value)) : FmtM W :=
    match rest with
    | [] => ret tt
    | (key, v) :: rest =>
      do* when_pretty (let* d := deeper depth in write_indent d);;
      do* write_string key;;
      do* write_colon;;
      let* d := deeper depth in
      do* write_value v d;;
      do* (if negb (S index =? total)%nat then write_byte 44 else ret tt);;
      do* when_pretty (write_byte 10);;
      entries (S index) rest
    end.

Lemma write_value_array array depth :
  write_value (VArray array) depth =
  (do* write_byte 91;;
   if (length array =? 0)%nat then write_byte 93
   else
     do* when_pretty (write_byte 10);;
     do* array_loop depth (length array) 0 array;;
     do* when_pretty (write_indent depth);;
     write_byte 93).
Proof. reflexivity. Qed.

Lemma write_value_object object depth :
  write_value (VObject object) depth =
  (do* write_byte 123;;
   if (length object =? 0)%nat then write_byte 125
   else
     do* when_pretty (write_byte 10);;
     do* object_loop depth (length object) 0 object;;
     do* when_pretty (write_indent depth);;
     write_byte 125).
Proof. reflexivity. Qed.
End Emitter.

(** [None] is the panic of a failed emitter. *)
Definition to_string (check : bool) (value : Value) (options : FormatOptions) : option (list Z) :=
  match write_value check options value 0 (mkFormatter ([] : String) Fmt.default_options) with
  | (Ret _, formatter) => Some (writer formatter)
  | _ => None
  end.

