(* ===== verification/JsonRoundtrip.v ===== *)
(** * Printing JSON and reading it back

    The text [to_string] writes for a value is a text of the grammar of
    [JsonGrammar] for that value, however it is laid out; so the parser gives
    the value back. *)

From Stdlib Require Import ZArith Lia ZifyBool Ascii.
From stdpp Require Import strings.
From S2P Require Import Prelude Int Utf8 OrdMap Fmt FmtInteger FmtSpec FmtSink FloatSpec Rounding Bignum Dec2Flt.
From S2P Require Import Dec2FltSpec Flt2Dec Flt2DecSpec Flt2DecFloat FloatParse FmtFloat FmtFloatSpec Json.
From S2P Require Import JsonReader JsonParser JsonGrammar JsonCorrect JsonSpec JsonEmit.
Local Open Scope Z_scope.
Local Open Scope rstd_scope.

(** ** The numbers that are written

    [write_number] writes the display of an integer, and the [Debug] text of a
    float with a sign put before the digits of its exponent.  The text of a
    float fits the 64 bytes it is formatted into: between the limits of
    [Debug], the point stays near the first digit.  Whatever is written is a
    number of the JSON grammar with the value that was written. *)

(** ** Where the point is *)

Lemma units_lt d m n : -1100 <= exponent d -> m < n -> units d m < units d n.
Proof.
  intros He H. unfold units. apply Z.mul_lt_mono_pos_r; [|done]. apply Z.mul_pos_pos; [|done]. unfold two. apply Z.pow_pos_nonneg; lia.
Qed.

(** The digits of [ds] against powers of ten. *)
Lemma decimals_power k ds : digits_ok ds -> (1 <= length ds <= MAX_SIG_DIGITS)%nat -> -330 <= k ->
  10 ^ Z.of_nat (length ds - 1) <= digits_value 0 ds ->
  10 ^ (399 + k) * 2 ^ 1100 <= decimals k (length ds) (digits_value 0 ds) < 10 ^ (400 + k) * 2 ^ 1100.
Proof.
  intros Hok Hlen Hk Hfirst. unfold MAX_SIG_DIGITS in Hlen. pose proof (digits_value_range ds Hok) as [_ Hr]. unfold decimals, ten.
  rewrite Z.mul_assoc. assert (0 < 2 ^ 1100) as H2 by done.
  assert (0 < 10 ^ (400 + (k - Z.of_nat (length ds)))) as H10 by (apply Z.pow_pos_nonneg; lia).
  replace (10 ^ (399 + k)) with (10 ^ Z.of_nat (length ds - 1) * 10 ^ (400 + (k - Z.of_nat (length ds)))) by (rewrite <- Z.pow_add_r by lia; f_equal; lia).
  replace (10 ^ (400 + k)) with (10 ^ Z.of_nat (length ds) * 10 ^ (400 + (k - Z.of_nat (length ds)))) by (rewrite <- Z.pow_add_r by lia; f_equal; lia).
  split; [apply Z.mul_le_mono_pos_r|apply Z.mul_lt_mono_pos_r]; try exact H2; [apply Z.mul_le_mono_pos_r|apply Z.mul_lt_mono_pos_r]; assumption.
Qed.

Lemma within_le incl lo x hi : within incl lo x hi -> lo <= x <= hi.
Proof. unfold within. destruct incl; lia. Qed.

Lemma small_limit_exponent ties : exists ds, format_shortest (decoded_f64 (small_limit f64_type)) ties = Some (ds, -3).
Proof. destruct ties; eexists; vm_compute; reflexivity. Qed.

Lemma limits_checked :
  scaled_value (large_limit f64_type) * RESCALE = 10 ^ 416 * 2 ^ 1100 /\
  10 ^ 396 * 2 ^ 1100 <= scaled_value (small_limit f64_type) * RESCALE /\ large_limit f64_type < INFINITY.
Proof. split_and!; by vm_compute. Qed.

(** Between the limits of [Debug], the point is at most sixteen digits after
    the first digit, or four before. *)
Lemma moderate b ties ds k : small_limit f64_type <= b < large_limit f64_type ->
  format_shortest (decoded_f64 b) ties = Some (ds, k) -> -3 <= k <= 16.
Proof.
  intros Hb E. assert (0 < small_limit f64_type) as Hs0 by done. destruct limits_checked as (Hlarge & Hsmall & Hinf).
  destruct (format_shortest_correct _ ties (decoded_f64_ok b ltac:(lia))) as (ds' & k' & E' & [Hok Hlen Hk Hfirst Hin _ _]).
  rewrite E in E'. injection E' as <- <-. destruct (decimals_power k ds Hok Hlen ltac:(lia) Hfirst) as [Hlo Hhi].
  apply within_le in Hin as [Hin1 Hin2]. pose proof (decoded_f64_ok b ltac:(lia)) as Hd.
  assert (-1100 <= exponent (decoded_f64 b) /\ 0 < plus (decoded_f64 b) /\ minus (decoded_f64 b) <= 2 * wide_minus b) as (He & Hp & Hm).
  { destruct Hd as ((? & ? & ?) & He & _). split; [lia|]. split; [lia|]. unfold wide_minus. destruct (Z.eqb_spec b (2 ^ 52)) as [->|]; [by vm_compute|lia]. }
  split.
  - destruct (Z.eq_dec b (small_limit f64_type)) as [->|Hne].
    { destruct (small_limit_exponent ties) as (x & Ex). rewrite Ex in E. injection E as _ <-. lia. }
    destruct (Z.le_gt_cases (-3) k) as [|Hk4]; [done|exfalso].
    pose proof (Z.pow_le_mono_r 10 (400 + k) 396 ltac:(lia) ltac:(lia)) as Hpow.
    pose proof (scaled_le (small_limit f64_type) (b - 1) ltac:(lia) ltac:(lia) ltac:(lia)) as Hsc.
    pose proof (units_mono (decoded_f64 b) (mant (decoded_f64 b) - 2 * wide_minus b) (mant (decoded_f64 b) - minus (decoded_f64 b)) He ltac:(lia)) as Hu.
    rewrite units_previous in Hu by lia.
    apply (Z.mul_le_mono_nonneg_r _ _ (2 ^ 1100)) in Hpow; [|by apply Z.lt_le_incl].
    apply (Z.mul_le_mono_nonneg_r _ _ RESCALE) in Hsc; [|apply Z.lt_le_incl, RESCALE_pos].
    apply (Z.lt_irrefl (10 ^ 396 * 2 ^ 1100)).
    eapply Z.le_lt_trans; [exact Hsmall|]. eapply Z.le_lt_trans; [exact Hsc|]. eapply Z.le_lt_trans; [exact Hu|].
    eapply Z.le_lt_trans; [exact Hin1|]. eapply Z.lt_le_trans; [exact Hhi|exact Hpow].
  - destruct (Z.le_gt_cases k 16) as [|Hk17]; [done|exfalso].
    pose proof (Z.pow_le_mono_r 10 416 (399 + k) ltac:(lia) ltac:(lia)) as Hpow.
    pose proof (scaled_le (b + 1) (large_limit f64_type) ltac:(lia) ltac:(lia) Hinf) as Hsc.
    pose proof (units_lt (decoded_f64 b) (mant (decoded_f64 b) + plus (decoded_f64 b)) (mant (decoded_f64 b) + 2 * plus (decoded_f64 b)) He ltac:(lia)) as Hu.
    rewrite units_next in Hu by lia.
    apply (Z.mul_le_mono_nonneg_r _ _ (2 ^ 1100)) in Hpow; [|by apply Z.lt_le_incl].
    apply (Z.mul_le_mono_nonneg_r _ _ RESCALE) in Hsc; [|apply Z.lt_le_incl, RESCALE_pos]. rewrite Hlarge in Hsc.
    apply (Z.lt_irrefl (10 ^ 416 * 2 ^ 1100)).
    eapply Z.le_lt_trans; [exact Hpow|]. eapply Z.le_lt_trans; [exact Hlo|]. eapply Z.le_lt_trans; [exact Hin2|].
    eapply Z.lt_le_trans; [exact Hu|exact Hsc].
Qed.

(** ** The length of a text *)

Lemma append_spec a b c : append a b = Some c -> c = a ++ b.
Proof. unfold append. case_if; [done|by intros [= <-]]. Qed.

Lemma render_fixed_length d z r : render_fixed d z = Some r -> 0 <= z <= 1 ->
  (length (whole r) <= length (digits d) + Z.to_nat (Z.abs (d_exponent d)) + 4)%nat.
Proof.
  unfold render_fixed. intros E Hz. unfold append_zeros in E.
  repeat match type of E with
  | context [append ?a ?b] => destruct (append a b) eqn:?; cbn [mbind option_bind] in E; [|discriminate]
  | context [if ?b then _ else _] => destruct b eqn:?
  end; injection E as <-;
  repeat match goal with H : append _ _ = Some _ |- _ => apply append_spec in H; subst end;
  unfold whole, missing; cbn [text zero_count exponent_text];
  repeat match goal with |- context [if ?b then _ else _] => destruct b eqn:? end;
  rewrite ?length_app, ?length_replicate, ?length_take, ?length_drop; cbn [length]; lia.
Qed.

Lemma debug_text_fits neg b c ds k r : 0 <= b < INFINITY ->
  shortest f64_layout (with_sign neg b) AwayFromZero = Some (mkDigits c neg ds k) -> digits_for ds k ->
  scientific (with_sign neg b) Debug = false -> render_fixed (mkDigits c neg ds k) 1 = Some r -> (length (whole r) <= 60)%nat.
Proof.
  intros Hb E (_ & Hlen & _) Hs Hr. apply render_fixed_length in Hr; [|lia]. cbn [digits d_exponent] in Hr. unfold MAX_SIG_DIGITS in Hlen.
  enough (Z.abs k <= 16) by lia.
  assert (magnitude f64_type (with_sign neg b) = b) as Hm.
  { unfold magnitude. change (Z.shiftl 1 _ - 1) with (2 ^ 63 - 1). rewrite land_mask by lia. unfold INFINITY in Hb.
    destruct neg; cbn [with_sign]; [|apply Z.mod_small; lia]. rewrite Z.lor_comm, lor_shiftl_add by lia.
    rewrite Z.add_comm. change (1 * 2 ^ 63) with (1 * 2 ^ 63). rewrite Z.mod_add, Z.mod_small; lia. }
  unfold scientific, extreme in Hs. rewrite Hm in Hs. destruct (Z.eq_dec b 0) as [->|Hne].
  { assert (shortest f64_layout (with_sign neg 0) AwayFromZero = Some (mkDigits Zero neg [] 0)) as E0 by (by destruct neg).
    rewrite E0 in E. injection E as _ _ <-. lia. }
  destruct (shortest_f64 neg b AwayFromZero ltac:(lia)) as (ds' & k' & Ef & _ & E' & _). rewrite E in E'. injection E' as _ <- <-.
  apply moderate in Ef; [lia|]. lia.
Qed.

(** ** Floats *)

#[export] Instance buffer_roomy : Roomy Buffer.
Proof.
  refine {| after := fun w s => mkBuffer (bytes w ++ s); room := fun w n => (length (bytes w) + n <= 64)%nat |}.
  - intros [b]. cbn. by rewrite app_nil_r.
  - intros [b] x y. cbn. by rewrite app_assoc.
  - intros [b] s Hs. unfold write_sink, buffer_write. cbn [bytes] in *. by rewrite (proj2 (Nat.ltb_ge 64 _) Hs).
  - intros [b] s n Hs. cbn in *. rewrite length_app. lia.
Defined.

Lemma exponent_index_none s : Forall (fun c => c <> 101) s -> exponent_index s = length s.
Proof. induction 1 as [|c s Hc _ IH]; [done|]. cbn. replace (c =? 101) with false by lia. by rewrite IH. Qed.

Lemma exponent_index_some s x : Forall (fun c => c <> 101) s -> exponent_index (s ++ 101 :: x) = length s.
Proof. induction 1 as [|c s Hc _ IH]; [done|]. cbn. replace (c =? 101) with false by lia. by rewrite IH. Qed.

(** The JSON exponent always has a sign. *)
Definition json_exponent (e : option (Z * option bool * list Z)) : option (list Z * option bool * list Z) :=
  match e with None => None | Some (m, s, ds) => Some ([m], Some (match s with Some true => true | _ => false end), ds) end.

(** The part of a text before its exponent. *)
Definition before_exponent (neg : bool) (i : list Z) (f : option (list Z)) : list Z :=
  sign_units (if neg then Some true else None) ++ i ++ match f with None => [] | Some f => 46 :: f end.

Lemma before_exponent_ok neg i f : digits_ok i -> digits_ok (default [] f) ->
  Forall (fun c => 0 <= c < 128 /\ c <> 101) (before_exponent neg i f).
Proof.
  intros Hi Hf. assert (forall ds, digits_ok ds -> Forall (fun c => 0 <= c < 128 /\ c <> 101) ds) as Hd.
  { intros ds. apply List.Forall_impl. unfold is_digit. intros. lia. }
  unfold before_exponent. repeat apply Forall_app_2; [destruct neg; repeat constructor; lia|by apply Hd|].
  destruct f as [f|]; [|constructor]. constructor; [lia|by apply Hd].
Qed.

Lemma before_exponent_text neg i f : digits_ok i -> digits_ok (default [] f) -> is_text (before_exponent neg i f).
Proof. intros Hi Hf. apply text_ascii. eapply List.Forall_impl; [|by apply (before_exponent_ok neg i f)]. cbn. tauto. Qed.

Lemma float_units_before (neg : bool) i f e :
  float_units (FloatText (if neg then Some true else None) i f e) = before_exponent neg i f ++ exponent_units e.
Proof. unfold float_units, body_units, before_exponent. cbn. by rewrite <- !app_assoc. Qed.

Lemma number_units_before neg i f e :
  number_units (NumberText neg i f (json_exponent e)) = before_exponent neg i f ++
    match e with None => [] | Some (m, s, ds) => m :: (match s with Some true => 45 | _ => 43 end) :: ds end.
Proof.
  unfold number_units, before_exponent, json_exponent. cbn. destruct neg, e as [[[m [[]|]] ds]|]; cbn; by rewrite <- ?app_assoc.
Qed.

Lemma write_float_bytes_writes (neg : bool) i f e o : digits_ok i -> digits_ok (default [] f) ->
  match e with None => True | Some (m, s, ds) => m = 101 /\ digits_ok ds /\ ds <> [] /\ (s = None \/ s = Some true) end ->
  emits (write_float_bytes (float_units (FloatText (if neg then Some true else None) i f e))) o
    (number_units (NumberText neg i f (json_exponent e))).
Proof.
  intros Hi Hf He. rewrite float_units_before, number_units_before. pose proof (before_exponent_ok neg i f Hi Hf) as Hok.
  pose proof (before_exponent_text neg i f Hi Hf) as Htext. set (p := before_exponent neg i f) in *. clearbody p. clear Hi Hf.
  assert (Forall (fun c => c <> 101) p) as Hp by (eapply List.Forall_impl; [|exact Hok]; cbn; tauto).
  unfold write_float_bytes. destruct e as [[[m s] ds]|].
  - destruct He as (-> & Hd & Hne & Hs). assert (is_text ds) as Hdt by (by apply text_ascii, digits_ascii).
    cbn [exponent_units]. rewrite exponent_index_some by done. rewrite length_app. cbn [length].
    destruct (Nat.eqb_spec (length p) (length p + S (length (sign_units s ++ ds)))) as [|_]; [lia|].
    assert (firstn (S (length p)) (p ++ 101 :: sign_units s ++ ds) = p ++ [101]) as ->.
    { rewrite (cons_middle 101%Z), app_assoc. apply take_app_length'. rewrite length_app. cbn. lia. }
    assert (skipn (S (length p)) (p ++ 101 :: sign_units s ++ ds) = sign_units s ++ ds) as ->.
    { rewrite (cons_middle 101%Z), app_assoc. apply drop_app_length'. rewrite length_app. cbn. lia. }
    assert ((p ++ 101 :: sign_units s ++ ds) !! S (length p) = head (sign_units s ++ ds)) as ->.
    { rewrite lookup_app_r by lia. replace (S (length p) - length p)%nat with 1%nat by lia. cbn. by destruct (sign_units s ++ ds). }
    match goal with |- emits _ _ (p ++ 101 :: ?x) => rewrite (cons_middle 101%Z p x), (app_assoc p [101]) end. apply emits_seq.
    { apply emits_raw, is_text_app; [done|]. apply text_ascii. repeat constructor; lia. }
    destruct Hs as [-> | ->]; cbn [sign_units app].
    + destruct ds as [|d ds]; [done|]. cbn [head]. apply Forall_cons_1 in Hd as [Hd _]. unfold is_digit in Hd.
      replace (d =? 45) with false by lia. cbn [negb]. apply (emits_seq _ _ _ [43]); [|by apply emits_raw].
      apply emits_raw, text_ascii. repeat constructor; lia.
    + cbn [head]. apply (emits_seq _ _ _ []); [apply emits_ret|]. apply emits_raw. by apply text_ascii_cons; [lia|].
  - cbn [exponent_units]. rewrite app_nil_r, exponent_index_none by done. rewrite Nat.eqb_refl. by apply emits_raw.
Qed.

Lemma short_saturated ds : digits_ok ds -> (length ds <= 3)%nat -> saturated ds = digits_value 0 ds.
Proof.
  intros Hd Hl. destruct ds as [|a [|b [|c [|]]]]; cbn in Hl; try lia; repeat (apply Forall_cons_1 in Hd as [? Hd]);
    unfold saturated; cbn; unfold is_digit in *; repeat (case_if; try lia); cbn; lia.
Qed.

Lemma write_debug_float bits t : delivers (W := Buffer) (float_argument f64_type bits) (parse_spec (lit "?")) t -> (length t <= 64)%nat ->
  forall (W : Type) `{Write W}, JsonEmit.write_float (W := W) bits = write_float_bytes t.
Proof.
  intros Hd Hl W HW. assert (delivers (W := Buffer) (write_fmt (lit "{:?}") [float_argument f64_type bits]) Fmt.default_options t) as E.
  { apply (delivers_hole (lit ":?")); [|by vm_compute|exact Hd]. intros Hc. repeat (apply elem_of_cons in Hc as [Hc|Hc]; [done|]). by apply elem_of_nil in Hc. }
  unfold JsonEmit.write_float. rewrite (E (mkBuffer [])); [done|]. cbn. lia.
Qed.

(** ** Integers *)

Lemma emits_signed t v : wf_type t = true -> in_range t v = true ->
  exists ds, denotes 10 (Z.abs v) ds /\ emits (integer_argument t v) Fmt.default_options ((if v <? 0 then [45] else []) ++ ds).
Proof.
  intros Hw Hr. destruct (format_unsigned_cases t Hw) as (Hu & _). destruct (magnitude_exact t v Hw Hr) as (Hn & Hm & Ha). rewrite Ha in Hm.
  assert (Forall (fun c => 0 <= c < 128) (if v <? 0 then [45] else [])) as Hp by (destruct (v <? 0); repeat constructor; lia).
  destruct (emits_notation (integer_argument t v) Fmt.default_options 10 (Z.abs v) _ (if v <? 0 then [45] else []) _ default_fill Hp
    (decimal_digits_denotes _ _ Hu Hm) (le_n _)) as (ds & l & z & r & Hds & _ & Hpad & He).
  { intros w. unfold integer_argument, integer_display, write_integer_decimal, bind, gets. cbn [options].
    change (opt_presentation Fmt.default_options) with Display. cbn zeta. rewrite Ha, Hn. by destruct (v <? 0). }
  exists ds. split; [done|]. by apply (emits_unpadded _ _ ds l z r).
Qed.

Lemma emits_write_integer t v fo : wf_type t = true -> in_range t v = true ->
  exists ds, denotes 10 (Z.abs v) ds /\ emits (write_integer t v) fo ((if v <? 0 then [45] else []) ++ ds).
Proof.
  intros Hw Hr. destruct (emits_signed t v Hw Hr) as (ds & Hd & He). exists ds. split; [done|].
  apply delivers_string, (delivers_hole []); [intros Hc; by apply elem_of_nil in Hc|done|by apply delivers_string].
Qed.

Lemma denotes_number v ds : denotes 10 v ds -> leading ds /\ dec_digits ds /\ digits_value 0 ds = v.
Proof.
  intros (Hn & Hv & Hl). split_and!; [|by apply numeral_dec|by rewrite numeral_digits_value].
  destruct Hl as [->|(d & rest & -> & Hd)]; [by left|right]. apply Forall_cons_1 in Hn as [[H1 H2] Hn].
  destruct (decimal_digit d H1 H2) as [H3 _]. unfold is_dec in H3. exists d, rest. split; [done|]. split; [lia|by apply numeral_dec].
Qed.

Section Numbers.
Context (o : ParseOptions).

(** The text of a number denotes it. *)
Definition number_reads (n : Number) (t : list Z) : Prop :=
  exists nt, number_wf nt /\ number_units nt = t /\ number_value o nt = Some n.

Lemma write_float_json bits fo : 0 <= bits < 2 ^ 64 -> is_finite bits = true ->
  exists t, emits (JsonEmit.write_float bits) fo t /\ number_reads (NFloat bits) t.
Proof.
  intros Hb Hfin.
  destruct (write_float_exact (W := Buffer) bits Debug (parse_spec (lit "?")) Hb Hfin) as
    (neg & b & c & ds & k & r & e & -> & Hbr & E & Hds & Er & Hr & Hst & Hdel & Hread); [auto|done|done|].
  set (bits := with_sign neg b) in *. change (sign_of neg (parse_spec (lit "?"))) with (if neg then Some true else None) in Hdel.
  assert (length (sign_units (if neg then Some true else None) ++ whole r) <= 64)%nat as Hfit.
  { rewrite length_app. assert (length (sign_units (if neg then Some true else None)) <= 1)%nat by (by destruct neg; cbn; lia).
    enough (length (whole r) <= 60)%nat by lia. unfold exponent_style in Hst. destruct (scientific bits Debug) eqn:Es.
    - destruct Hst as (? & _ & _ & _ & _ & Hl & _). destruct Hds as (_ & Hds & _). unfold MAX_SIG_DIGITS in Hds. lia.
    - by apply (debug_text_fits neg b c ds k). }
  destruct Hr as (i & f & Ew & Hval & Hpointed & Hf & Hlead). destruct (Hval (if neg then Some true else None)) as [Hwf Hv].
  exists (number_units (NumberText neg i f (json_exponent e))). split.
  - rewrite (write_debug_float bits _ Hdel Hfit). rewrite Ew.
    change (body_units (FloatText None i f e)) with (body_units (FloatText (if neg then Some true else None) i f e)).
    apply (write_float_bytes_writes neg i f e fo); [apply Hwf|apply Hwf|].
    destruct e as [[[m s] es]|]; [|done]. destruct Hwf as (_ & _ & _ & _ & He1 & He2). unfold exponent_style in Hst.
    destruct (scientific bits Debug); [|done]. destruct Hst as (e0 & [= <-] & _ & _ & Hm & _ & Hs & _). by split_and!.
  - eexists. split; [|split; [done|]].
    + split_and!; cbn [nt_integer nt_fraction nt_exponent].
      * destruct Hlead as [->|(d & rest & -> & Hd & Hrest)]; [by left|right]. by exists d, rest.
      * destruct f as [f|]; [|done]. split; [by apply Hf|apply Hwf].
      * destruct e as [[[m s] es]|]; [|done]. cbn. destruct Hwf as (_ & _ & _ & _ & He1 & He2). unfold exponent_style in Hst.
        destruct (scientific bits Debug); [|done]. destruct Hst as (e0 & [= <-] & _ & _ & Hm & _). cbn in Hm. subst m. by split; [left|].
    + assert (cut_decimal (FloatText (if neg then Some true else None) i f e) =
        MkDecimal i (default [] f) (exponent_value (NumberText neg i f (json_exponent e))) neg) as Ed.
      { unfold cut_decimal. cbn [ft_integer ft_fraction]. f_equal; [| |by destruct neg].
        - by destruct Hlead as [->|(d & rest & -> & _)].
        - unfold cut_exponent, exponent_value. cbn [ft_exponent nt_exponent]. destruct e as [[[m s] es]|]; [|done]. cbn [json_exponent].
          unfold exponent_style in Hst. destruct (scientific bits Debug); [|done]. destruct Hst as (e0 & [= <-] & _ & _ & _ & _ & Hs & Hl).
          destruct Hwf as (_ & _ & _ & _ & He1 & _). cbn in Hs, Hl. rewrite short_saturated by done.
          pose proof (digits_value_range es He1) as Hrange. pose proof (Z.pow_le_mono_r 10 (Z.of_nat (length es)) 3 ltac:(lia) ltac:(lia)).
          change (MAX i32) with 2147483647. rewrite Z.min_r by lia. by destruct Hs as [-> | ->]. }
      assert (number_value o (NumberText neg i f (json_exponent e)) = float_value (NumberText neg i f (json_exponent e))) as ->.
      { unfold number_value, nt_floating. cbn [nt_fraction nt_exponent]. destruct f; [done|]. destruct e as [[[m s] es]|]; [done|].
        unfold exponent_style in Hst. destruct (scientific bits Debug) eqn:Es; [by destruct Hst as (? & ? & _)|].
        by destruct (Hpointed eq_refl). }
      unfold float_value. cbn [nt_integer nt_fraction nt_negative]. rewrite <- Ed, Hread; [| | |done].
      * unfold from_f64. by rewrite Hfin.
      * by apply cut_decimal_ok.
      * cbn. by destruct neg.
Qed.

Lemma integer_reads (neg : bool) v ds n : denotes 10 v ds -> number_value o (NumberText neg ds None None) = Some n ->
  number_reads n ((if neg then [45] else []) ++ ds).
Proof.
  intros Hd Hv. destruct (denotes_number v ds Hd) as (Hl & _). exists (NumberText neg ds None None). split; [|split; [|done]].
  - split_and!; [|done|done]. cbn [nt_integer]. destruct Hl as [->|(d & rest & -> & Hr & Hrest)]; [by left|right]. by exists d, rest.
  - unfold number_units. cbn. by rewrite app_nil_r.
Qed.

Lemma write_number_json n fo : number_ok n -> exists t, emits (write_number n) fo t /\ number_reads n t.
Proof.
  intros Hn. destruct n as [v|v|bits]; cbn [number_ok] in Hn.
  - destruct (emits_write_integer u64 v fo eq_refl) as (ds & Hd & He); [unfold in_range; change (MIN u64) with 0; lia|].
    replace (v <? 0) with false in He by lia. rewrite Z.abs_eq in Hd by lia. exists ds. split.
    + unfold write_number. cbn [is_u64 as_u64 or_abort]. exact He.
    + apply (integer_reads false v ds); [done|]. destruct (denotes_number v ds Hd) as (_ & _ & Hv).
      unfold number_value, nt_floating. cbn [nt_fraction nt_exponent nt_negative nt_integer]. rewrite Hv. by replace (v <=? MAX u64) with true by lia.
  - destruct (emits_write_integer i64 v fo eq_refl) as (ds & Hd & He); [unfold in_range; change (MAX i64) with 9223372036854775807; lia|].
    replace (v <? 0) with true in He by lia. exists (45 :: ds). split.
    + unfold write_number. cbn [is_u64 is_i64 as_i64 or_abort]. exact He.
    + apply (integer_reads true (Z.abs v) ds); [done|]. destruct (denotes_number _ ds Hd) as (_ & _ & Hv). change (MIN i64) with (- 2 ^ 63) in Hn.
      unfold number_value, nt_floating. cbn [nt_fraction nt_exponent nt_negative nt_integer]. rewrite Hv.
      replace (Z.abs v =? 0) with false by lia. replace (Z.abs v <=? 2 ^ 63) with true by lia. do 2 f_equal. lia.
  - destruct Hn as [Hfin Hb]. exact (write_float_json bits fo Hb Hfin).
Qed.
End Numbers.

(** ** Strings *)

Definition quoted_byte (c : Z) : list Z :=
  if negb (escape_of c =? 0) then [92; escape_of c] else if c <? 32 then unicode_escape c else [c].

Lemma quote_loop_bytes s out : quote_loop false s out = out ++ concat (map quoted_byte s).
Proof.
  revert out. induction s as [|c s IH]; intros out; cbn [quote_loop map concat]; [by rewrite app_nil_r|].
  unfold quoted_byte at 1. destruct (negb (escape_of c =? 0)); [by rewrite IH, <- app_assoc|].
  cbn [andb]. rewrite orb_false_r. destruct s as [|l s].
  - destruct (c <? 32); by rewrite app_nil_r.
  - destruct (c <? 32); rewrite IH, <- app_assoc; done.
Qed.

Lemma quote_string_bytes s : quote_string s = 34 :: concat (map quoted_byte s) ++ [34].
Proof. unfold quote_string, quote_units. by rewrite quote_loop_bytes. Qed.

(** The escapes of the control characters, by evaluation. *)
Definition control_checked (c : Z) : bool :=
  if negb (escape_of c =? 0) then bool_decide (escape_char (escape_of c) = Some c)
  else
    bool_decide (hex_value (hex_at (Z.land (Z.shiftr c 12) 15)) = Some 0) &&
    bool_decide (hex_value (hex_at (Z.land (Z.shiftr c 8) 15)) = Some 0) &&
    bool_decide (hex_value (hex_at (Z.land (Z.shiftr c 4) 15)) = Some (c / 16)) &&
    bool_decide (hex_value (hex_at (Z.land c 15)) = Some (c mod 16)) &&
    forallb (fun x => (0 <=? x) && (x <? 128)) (unicode_escape c).

Lemma controls_checked c : 0 <= c < 32 -> control_checked c = true.
Proof.
  intros H. assert (forallb control_checked (seqZ 0 32) = true) as Hall by (by vm_compute).
  rewrite forallb_forall in Hall. apply Hall, list_elem_of_In, elem_of_seqZ. lia.
Qed.

Lemma escape_of_plain c : 32 <= c -> c <> 34 -> c <> 92 -> escape_of c = 0.
Proof. intros. unfold escape_of. repeat (case_if; [lia|]). done. Qed.

Lemma quoted_byte_reads c t out : 0 <= c -> jchars t out -> jchars (quoted_byte c ++ t) (c :: out).
Proof.
  intros Hc Ht. unfold quoted_byte. destruct (Z.lt_ge_cases c 32) as [Hl|Hl].
  - pose proof (controls_checked c ltac:(lia)) as Hx. unfold control_checked in Hx.
    change (c :: out) with ([c] ++ out). rewrite <- (control_encode c) by lia.
    destruct (negb (escape_of c =? 0)).
    + apply bool_decide_eq_true in Hx. by apply (jc_escape _ c).
    + replace (c <? 32) with true by lia. rewrite !andb_true_iff in Hx. destruct Hx as ((((H1 & H2) & H3) & H4) & _).
      apply bool_decide_eq_true in H1, H2, H3, H4.
      apply (jc_unicode [_; _; _; _] c); [| | |done].
      * replace c with (0 * 4096 + 0 * 256 + c / 16 * 16 + c mod 16) at 5 by (pose proof (Z.div_mod c 16); lia). by constructor.
      * unfold is_high_surrogate. lia.
      * unfold is_low_surrogate. lia.
  - destruct (Z.eq_dec c 34) as [->|H34]; [change (34 :: out) with (encode_utf8 34 ++ out); by apply (jc_escape 34)|].
    destruct (Z.eq_dec c 92) as [->|H92]; [change (92 :: out) with (encode_utf8 92 ++ out); by apply (jc_escape 92)|].
    rewrite escape_of_plain by done. cbn [Z.eqb negb]. replace (c <? 32) with false by lia.
    apply jc_plain; [unfold is_plain; lia|done].
Qed.

Lemma quoted_reads s : bytes_ok s -> jchars (concat (map quoted_byte s)) s.
Proof. induction 1 as [|c s Hc _ IH]; [constructor|]. cbn [map concat]. apply quoted_byte_reads; [lia|done]. Qed.

Lemma quoted_text s : is_text s -> is_text (concat (map quoted_byte s)).
Proof.
  apply concat_map_text.
  - intros c Hc. apply text_ascii. unfold quoted_byte. destruct (Z.lt_ge_cases c 32) as [Hl|Hl].
    + assert (0 <= escape_of c < 128) as He by (unfold escape_of; repeat case_if; lia).
      pose proof (controls_checked c ltac:(lia)) as Hx. unfold control_checked in Hx.
      destruct (negb (escape_of c =? 0)); [repeat constructor; lia|]. replace (c <? 32) with true by lia.
      apply andb_true_iff in Hx as [_ Hx]. rewrite forallb_forall in Hx. apply List.Forall_forall. intros x Hi. specialize (Hx x Hi). lia.
    + assert (0 <= escape_of c < 128) as He by (unfold escape_of; repeat case_if; lia).
      replace (c <? 32) with false by lia. destruct (negb _); repeat constructor; lia.
  - intros c Hc. unfold quoted_byte. rewrite escape_of_plain by lia. cbn [Z.eqb negb]. by replace (c <? 32) with false by lia.
Qed.

(** Quoted text reads back as the text. *)
Lemma quote_string_reads o d s t : is_text s -> gvalue o jchars d (quote_string s) (VString s) t /\ is_text (quote_string s).
Proof.
  intros Hs. rewrite quote_string_bytes. split; [apply g_string, quoted_reads, is_text_bytes_ok, Hs|].
  apply text_ascii_cons; [lia|]. apply is_text_app; [by apply quoted_text|apply text_ascii; repeat constructor; lia].
Qed.

(** ** Layout *)

Definition blank (w : list Z) : Prop := Forall (fun c => c = 32 \/ c = 10) w.

Lemma blank_ws w : blank w -> forall c s, ws c w s.
Proof.
  induction 1 as [|x w Hx _ IH]; intros c s; [constructor|]. apply ws_char; [|apply IH]. unfold is_whitespace. lia.
Qed.

Lemma blank_text w : blank w -> is_text w.
Proof. intros Hw. apply text_ascii. eapply List.Forall_impl; [|exact Hw]. cbn. lia. Qed.

Lemma blank_app a b : blank a -> blank b -> blank (a ++ b).
Proof. apply Forall_app_2. Qed.

Lemma op_add_ok check a b : in_range usize (a + b) = true -> op_add check usize a b = Some (a + b).
Proof.
  intros H. destruct check; [by apply op_add_exact|]. unfold op_add, guarded, overflowing_add, add_with_overflow. rewrite H. cbn [negb andb].
  f_equal. apply wrap_id; [done|done].
Qed.

Lemma op_mul_ok check a b : in_range usize (a * b) = true -> op_mul check usize a b = Some (a * b).
Proof.
  intros H. destruct check; [by apply op_mul_exact|]. unfold op_mul, guarded, overflowing_mul, mul_with_overflow. rewrite H. cbn [negb andb].
  f_equal. apply wrap_id; [done|done].
Qed.

(** ** What the emitter writes *)

Section Values.
Context (check : bool) (format : FormatOptions) (o : ParseOptions).
Context (Hindent : 0 <= indent format).

Definition newline : list Z := if pretty format then [10] else [].
Definition indentation (depth : Z) : list Z := if pretty format then replicate (Z.to_nat (depth * indent format)) 32 else [].

(** The depths at which the indentation is a number of machine size. *)
Definition fits (depth : Z) : Prop := 0 <= depth /\ depth + 1 <= MAX usize /\ (depth + 1) * indent format <= MAX usize.

Lemma newline_blank : blank newline.
Proof. unfold newline. destruct (pretty format); [apply Forall_singleton; auto|constructor]. Qed.

Lemma indentation_blank depth : blank (indentation depth).
Proof. unfold indentation. destruct (pretty format); [|constructor]. apply Forall_replicate; auto. Qed.

Lemma emits_byte c fo : 0 <= c < 128 -> emits (write_byte c) fo [c].
Proof. intros Hc. apply emits_raw, text_ascii. repeat constructor; lia. Qed.

Lemma emits_spaces n fo : emits (write_spaces n) fo (replicate n 32).
Proof. induction n as [|n IH]; [apply emits_ret|]. cbn [write_spaces replicate]. apply (emits_seq _ _ _ [32]); [by apply emits_byte|done]. Qed.

Lemma emits_newline fo : emits (when_pretty format (write_byte 10)) fo newline.
Proof. unfold when_pretty, newline. destruct (pretty format); [by apply emits_byte|apply emits_ret]. Qed.

Lemma deeper_spec depth : fits depth -> deeper (W := String) check depth = ret (depth + 1).
Proof.
  intros (H0 & H1 & _). unfold deeper. rewrite op_add_ok; [done|]. unfold in_range. change (MIN usize) with 0. lia.
Qed.

Lemma emits_indent depth fo : 0 <= depth -> depth * indent format <= MAX usize ->
  emits (when_pretty format (write_indent check format depth)) fo (indentation depth).
Proof.
  intros H0 H1. unfold when_pretty, indentation. destruct (pretty format); [|apply emits_ret]. unfold write_indent.
  rewrite op_mul_ok by (unfold in_range; change (MIN usize) with 0; nia). exact (emits_spaces _ fo).
Qed.

(** The items of a container, one after the other. *)
Fixpoint block (lead : list Z) (ts : list (list Z)) : list Z :=
  match ts with
  | [] => []
  | t :: ts => lead ++ t ++ match ts with [] => [] | _ => [44] end ++ newline ++ block lead ts
  end.

Definition container (lb rb depth : Z) (ts : list (list Z)) : list Z :=
  lb :: match ts with [] => [rb] | _ => newline ++ block (indentation (depth + 1)) ts ++ indentation depth ++ [rb] end.

Lemma block_text lead ts : is_text lead -> Forall is_text ts -> is_text (block lead ts).
Proof.
  intros Hl. induction 1 as [|t ts Ht _ IH]; [apply is_text_nil|]. cbn [block]. repeat apply is_text_app; try done.
  - destruct ts; [apply is_text_nil|apply text_ascii; repeat constructor; lia].
  - apply blank_text, newline_blank.
Qed.

Lemma container_text lb rb depth ts : 0 <= lb < 128 -> 0 <= rb < 128 -> Forall is_text ts -> is_text (container lb rb depth ts).
Proof.
  intros Hl Hr Ht. apply text_ascii_cons; [done|]. assert (is_text [rb]) as Hrb by (apply text_ascii; repeat constructor; lia).
  destruct ts; [done|]. apply is_text_app; [apply blank_text, newline_blank|].
  apply is_text_app; [apply block_text; [apply blank_text, indentation_blank|done]|].
  apply is_text_app; [apply blank_text, indentation_blank|done].
Qed.

(** One item of the loops of [write_value]. *)
Lemma emits_item (item rest : FmtM String) fo depth t out (last : bool) : fits depth -> emits item fo t -> emits rest fo out ->
  emits (do* when_pretty format (let* d := deeper check depth in write_indent check format d);;
         do* item;; do* (if negb last then write_byte 44 else ret tt);; do* when_pretty format (write_byte 10);; rest) fo
    (indentation (depth + 1) ++ t ++ (if last then [] else [44]) ++ newline ++ out).
Proof.
  intros Hf Hi Hr. apply emits_seq.
  { rewrite deeper_spec by done. destruct Hf as (? & ? & ?). apply (emits_indent (depth + 1)); [lia|done]. }
  apply emits_seq; [done|]. apply emits_seq; [destruct last; [apply emits_ret|by apply emits_byte]|].
  apply emits_seq; [apply emits_newline|done].
Qed.

Definition colon : list Z := if pretty format then [58; 32] else [58].

Definition member (key t : list Z) : list Z := quote_string key ++ colon ++ t.

Lemma emits_member fo depth key v t : fits depth -> emits (write_value check format v (depth + 1)) fo t ->
  emits (do* write_string key;; do* write_colon format;; let* d := deeper check depth in write_value check format v d) fo (member key t).
Proof.
  intros Hf Hv. apply emits_seq; [apply emits_str|]. apply emits_seq; [apply emits_str|]. by rewrite deeper_spec.
Qed.

Lemma last_comma (total index : nat) {A} (rest : list A) : (S index + length rest = total)%nat ->
  (S index =? total)%nat = match rest with [] => true | _ => false end.
Proof. intros E. destruct rest; cbn in E; [apply Nat.eqb_eq; lia|apply Nat.eqb_neq; lia]. Qed.

Lemma emits_elements fo depth total vs ts : fits depth ->
  Forall2 (fun v t => emits (write_value check format v (depth + 1)) fo t) vs ts -> forall index, (index + length vs = total)%nat ->
  emits (array_loop check format depth total index vs) fo (block (indentation (depth + 1)) ts).
Proof.
  intros Hf. induction 1 as [|v t vs ts Hv Hvs IH]; intros index Hi; [apply emits_ret|]. cbn [array_loop block length] in *.
  assert (match ts with [] => [] | _ => [44] end = if match vs with [] => true | _ => false end then [] else [44]) as -> by (by destruct Hvs).
  rewrite <- (last_comma total index vs) by lia. intros w.
  rewrite <- (emits_item (write_value check format v (depth + 1)) (array_loop check format depth total (S index) vs) fo depth t _ _ Hf Hv (IH (S index) ltac:(lia)) w).
  by rewrite deeper_spec.
Qed.

Lemma emits_entries fo depth total m ts : fits depth ->
  Forall2 (fun e t => emits (write_value check format (snd e) (depth + 1)) fo t) m ts -> forall index, (index + length m = total)%nat ->
  emits (object_loop check format depth total index m) fo (block (indentation (depth + 1)) (zip_with member (map fst m) ts)).
Proof.
  intros Hf. induction 1 as [|[key v] t m ts Hv Hm IH]; intros index Hi; [apply emits_ret|]. cbn [object_loop map zip_with fst snd block length] in *.
  assert (match zip_with member (map fst m) ts with [] => [] | _ => [44] end = if match m with [] => true | _ => false end then [] else [44]) as ->
    by (by destruct Hm).
  rewrite <- (last_comma total index m) by lia. intros w.
  rewrite <- (emits_item (do* write_string key;; do* write_colon format;; let* d := deeper check depth in write_value check format v d)
    (object_loop check format depth total (S index) m) fo depth _ _ _ Hf (emits_member fo depth key v t Hf Hv) (IH (S index) ltac:(lia)) w).
  unfold bind. repeat (case_match; simplify_eq; try done).
Qed.

Lemma emits_closing fo depth c : fits depth -> 0 <= c < 128 ->
  emits (do* when_pretty format (write_indent check format depth);; write_byte c) fo (indentation depth ++ [c]).
Proof. intros (H0 & H1 & H2) Hc. apply emits_seq; [apply emits_indent; nia|by apply emits_byte]. Qed.

Lemma emits_array fo depth vs ts : fits depth ->
  Forall2 (fun v t => emits (write_value check format v (depth + 1)) fo t) vs ts ->
  emits (write_value check format (VArray vs) depth) fo (container 91 93 depth ts).
Proof.
  intros Hf Hvs. rewrite write_value_array. unfold container. apply (emits_seq _ _ _ [91]); [by apply emits_byte|].
  destruct Hvs as [|v t vs ts Hv Hvs]; [by apply emits_byte|]. cbn [length Nat.eqb].
  apply emits_seq; [apply emits_newline|]. apply emits_seq; [|by apply emits_closing].
  apply emits_elements; [done|by constructor|done].
Qed.

Lemma emits_object fo depth m ts : fits depth ->
  Forall2 (fun e t => emits (write_value check format (snd e) (depth + 1)) fo t) m ts ->
  emits (write_value check format (VObject m) depth) fo (container 123 125 depth (zip_with member (map fst m) ts)).
Proof.
  intros Hf Hm. rewrite write_value_object. unfold container. apply (emits_seq _ _ _ [123]); [by apply emits_byte|].
  destruct Hm as [|e t m ts He Hm]; [by apply emits_byte|]. cbn [length Nat.eqb map zip_with].
  apply emits_seq; [apply emits_newline|]. apply emits_seq; [|by apply emits_closing].
  apply (emits_entries fo depth _ (e :: m) (t :: ts)); [done|by constructor|done].
Qed.

(** ** The text denotes the value *)

Definition reads (d : Z) (v : Value) (t : list Z) : Prop := is_text t /\ forall s, gvalue o jchars d t v s.

Lemma block_elements d lead close vs ts s : blank lead -> blank close -> Forall2 (reads d) vs ts -> vs <> [] -> forall w, blank w ->
  gelems o jchars d true (w ++ block lead ts ++ close ++ [93]) vs s /\
  gelems o jchars d false (44 :: w ++ block lead ts ++ close ++ [93]) vs s.
Proof.
  intros Hl Hc. induction 1 as [|v t vs ts [_ Hv] Hvs IH]; intros Hne w Hw; [done|]. cbn [block]. clear Hne.
  assert (gelems o jchars d false (match ts with [] => [] | _ => [44] end ++ newline ++ block lead ts ++ close ++ [93]) vs s) as Ht.
  { destruct Hvs as [|v' t' vs ts Hv' Hvs].
    - cbn [block app]. rewrite app_assoc. apply ge_end, blank_ws, blank_app; [apply newline_blank|done].
    - apply (IH ltac:(done) newline newline_blank). }
  set (tail := match ts with [] => [] | _ => [44] end ++ newline ++ block lead ts ++ close ++ [93]) in *.
  assert (w ++ (lead ++ t ++ match ts with [] => [] | _ => [44] end ++ newline ++ block lead ts) ++ close ++ [93] = (w ++ lead) ++ t ++ tail) as ->
    by (unfold tail; by rewrite <- !app_assoc).
  pose proof (blank_ws _ (blank_app _ _ Hw Hl) (allow_comments o)) as Hws. split; [by apply ge_first|].
  apply (ge_next _ _ _ [] (w ++ lead)); [constructor|apply Hws|apply Hv|done].
Qed.

Lemma member_reads d k v t s : is_text k -> reads d v t -> gmember o jchars d (member k t) k v s.
Proof.
  intros Hk [_ Hv]. unfold member, colon. rewrite quote_string_bytes. pose proof (quoted_reads k (is_text_bytes_ok _ Hk)) as Hq.
  destruct (pretty format).
  - apply (gm_member _ _ _ _ _ [] [32]); [done|constructor|by apply ws_char; [|constructor]|apply Hv].
  - apply (gm_member _ _ _ _ _ [] []); [done|constructor..|apply Hv].
Qed.

Definition entry_reads (d : Z) (e : list Z * Value) (t : list Z) : Prop := is_text (fst e) /\ reads d (snd e) t.

Lemma member_text d e t : entry_reads d e t -> is_text (member (fst e) t).
Proof.
  intros [Hk [Ht _]]. apply is_text_app; [by apply (quote_string_reads o d _ [] Hk)|]. apply is_text_app; [|done].
  unfold colon. apply text_ascii. destruct (pretty format); repeat constructor; lia.
Qed.

Lemma block_members d lead close m ts s : blank lead -> blank close -> Forall2 (entry_reads d) m ts -> m <> [] -> forall w, blank w ->
  gmembers o jchars d true (w ++ block lead (zip_with member (map fst m) ts) ++ close ++ [125]) m s /\
  gmembers o jchars d false (44 :: w ++ block lead (zip_with member (map fst m) ts) ++ close ++ [125]) m s.
Proof.
  intros Hl Hc. induction 1 as [|[k v] t m ts [Hk Hv] Hm IH]; intros Hne w Hw; [done|]. cbn [fst snd map zip_with block] in *. clear Hne.
  set (rest := zip_with member (map fst m) ts) in *.
  assert (gmembers o jchars d false (match rest with [] => [] | _ => [44] end ++ newline ++ block lead rest ++ close ++ [125]) m s) as Ht.
  { destruct Hm as [|e' t' m ts He' Hm].
    - cbn [rest block app map zip_with]. rewrite app_assoc. apply gm_end, blank_ws, blank_app; [apply newline_blank|done].
    - apply (IH ltac:(done) newline newline_blank). }
  set (tail := match rest with [] => [] | _ => [44] end ++ newline ++ block lead rest ++ close ++ [125]) in *.
  assert (w ++ (lead ++ member k t ++ match rest with [] => [] | _ => [44] end ++ newline ++ block lead rest) ++ close ++ [125] =
    (w ++ lead) ++ member k t ++ tail) as -> by (unfold tail; by rewrite <- !app_assoc).
  pose proof (blank_ws _ (blank_app _ _ Hw Hl) (allow_comments o)) as Hws. split.
  - apply gm_first; [done|by apply member_reads|done].
  - apply (gm_next _ _ _ [] (w ++ lead)); [constructor|apply Hws|by apply member_reads|done].
Qed.

Lemma array_reads d depth vs ts : 1 < d -> Forall2 (reads (d - 1)) vs ts -> reads d (VArray vs) (container 91 93 depth ts).
Proof.
  intros Hd Hvs. split.
  - apply container_text; [lia..|]. clear Hd. induction Hvs as [|v t vs ts [Ht _] _ IH]; by constructor.
  - intros s. apply g_array; [done|]. destruct Hvs as [|v t vs ts Hv Hvs]; [apply (ge_end _ _ _ _ []); constructor|].
    apply (block_elements (d - 1) _ _ (v :: vs) (t :: ts)); [apply indentation_blank..|by constructor|done|apply newline_blank].
Qed.

(** A sorted list of entries is the object built from it. *)
Lemma build_sorted m : sorted_keys m -> build_object m = m.
Proof.
  unfold build_object. enough (forall kvs acc, sorted_keys (acc ++ kvs) ->
    foldl (fun m kv => snd (map_insert (fst kv) (snd kv) m)) acc kvs = acc ++ kvs) as H by (intros Hs; by apply (H m [])).
  induction kvs as [|[k v] kvs IH]; intros acc Hs; cbn [foldl fst snd]; [by rewrite app_nil_r|].
  rewrite map_insert_last by (by eapply sorted_before). cbn [snd]. rewrite (IH (acc ++ [(k, v)])); by rewrite <- app_assoc.
Qed.

Lemma sorted_distinct (m : list (list Z * Value)) : sorted_keys m -> NoDup (map fst m).
Proof.
  induction m as [|[k v] m IH]; [constructor|]. intros [Hb Hs]%sorted_cons. cbn [map fst]. constructor; [|by apply IH].
  intros Hin. apply list_elem_of_In, in_map_iff in Hin as ([k' v'] & E & Hin). cbn in E. subst k'.
  unfold below in Hb. rewrite list.Forall_forall in Hb. apply list_elem_of_In in Hin. specialize (Hb _ Hin). cbn in Hb. unfold key_lt in Hb. rewrite cmp_refl in Hb. done.
Qed.

Lemma object_reads d depth m ts : 1 < d -> NoDup (map fst m) -> Forall2 (entry_reads (d - 1)) m ts ->
  reads d (VObject (build_object m)) (container 123 125 depth (zip_with member (map fst m) ts)).
Proof.
  intros Hd Hs Hm. split.
  - apply container_text; [lia..|]. clear Hd Hs. induction Hm as [|e t m ts He _ IH]; [constructor|]. cbn. constructor; [|done]. by eapply member_text.
  - intros s. apply g_object; [done| |by intros _].
    destruct Hm as [|e t m ts He Hm]; [apply (gm_end _ _ _ _ []); constructor|].
    apply (block_members (d - 1) _ _ (e :: m) (t :: ts)); [apply indentation_blank..|by constructor|done|apply newline_blank].
Qed.
End Values.

(** ** The round trip *)

Lemma number_text_ascii nt : number_wf nt -> is_text (number_units nt).
Proof.
  intros (Hi & Hf & He). apply text_ascii. assert (forall ds, dec_digits ds -> Forall (fun c => 0 <= c < 128) ds) as Hd.
  { intros ds. apply List.Forall_impl. unfold is_dec. intros. lia. }
  unfold number_units. repeat apply Forall_app_2.
  - destruct (nt_negative nt); repeat constructor; lia.
  - destruct Hi as [->|(c & ds & -> & Hc & Hds)]; [repeat constructor; lia|]. constructor; [lia|by apply Hd].
  - destruct (nt_fraction nt) as [f|]; [|constructor]. constructor; [lia|]. by apply Hd, Hf.
  - destruct (nt_exponent nt) as [[[m s] ds]|]; [|constructor]. destruct He as (Hm & _ & Hds).
    apply Forall_app_2; [destruct Hm as [-> | ->]; repeat constructor; lia|].
    apply Forall_app_2; [destruct s as [[]|]; repeat constructor; lia|by apply Hd].
Qed.

Lemma Forall2_choice {A B} (P : A -> B -> Prop) l : Forall (fun a => exists b, P a b) l -> exists bs, Forall2 P l bs.
Proof.
  induction 1 as [|a l [b Hb] _ (bs & IH)]; [exists []; constructor|]. exists (b :: bs). by constructor.
Qed.

Lemma Forall2_both {A B} (P Q : A -> B -> Prop) l k : Forall2 (fun a b => P a b /\ Q a b) l k -> Forall2 P l k /\ Forall2 Q l k.
Proof. induction 1 as [|a b l k [H1 H2] _ [IH1 IH2]]; split; by constructor. Qed.

(** *** Values whose entries are in any order *)

(** A well-formed value but for the order of its entries: their keys differ. *)
#[warnings="-register-all"] Inductive loose : Value -> Prop :=
| loose_null : loose VNull
| loose_bool b : loose (VBool b)
| loose_number n : number_ok n -> loose (VNumber n)
| loose_string s : is_text s -> loose (VString s)
| loose_array vs : Forall loose vs -> loose (VArray vs)
| loose_object m :
    NoDup (map fst m) -> Forall (fun e => is_text (fst e)) m -> Forall (fun e => loose (snd e)) m -> loose (VObject m).

(** The value with its entries in order. *)
Fixpoint settled (v : Value) : Value :=
  match v with
  | VArray vs => VArray (map settled vs)
  | VObject m => VObject (build_object (map (fun e => (fst e, settled (snd e))) m))
  | v => v
  end.

Lemma wf_loose v : value_wf v -> loose v /\ settled v = v.
Proof.
  induction v as [|b|n|s|vs IH|m IH] using Value_ind'; intros Hwf; inversion Hwf as [| |? Hn|? Hs|? Hvs|? Hs Hk Hvs]; subst; cbn [settled];
    try (by split; [constructor|]).
  - pose proof (List.Forall_and IH Hvs) as Hall. split.
    + constructor. eapply List.Forall_impl; [|exact Hall]. by intros v [Hv ?]; apply Hv.
    + f_equal. clear -Hall. induction Hall as [|v vs [Hv Hw] _ IH]; [done|]. cbn [map]. rewrite IH. f_equal. by apply Hv.
  - pose proof (List.Forall_and IH Hvs) as Hall. split.
    + constructor; [by apply sorted_distinct|done|]. eapply List.Forall_impl; [|exact Hall]. by intros e [He ?]; apply He.
    + f_equal. rewrite <- (build_sorted m Hs) at 2. f_equal. clear -Hall.
      induction Hall as [|[k v] m [Hv Hw] _ IH]; [done|]. cbn [map fst snd] in *. rewrite IH. f_equal. f_equal. by apply Hv.
Qed.

(** Building an object only moves its entries. *)
Lemma map_insert_moves (k : list Z) (v : Value) m : k ∉ map fst m -> snd (map_insert k v m) ≡ₚ (k, v) :: m.
Proof.
  induction m as [|[k' w] m IH]; intros Hk; [done|]. cbn [map fst] in Hk. apply not_elem_of_cons in Hk as [Hne Hk]. cbn [map_insert].
  destruct (cmp k k') eqn:E; [by apply cmp_eq in E|done|]. destruct (map_insert k v m) as [old m']. cbn [snd] in *.
  rewrite (IH Hk). apply perm_swap.
Qed.

Lemma build_object_moves kvs : NoDup (map fst kvs) -> build_object kvs ≡ₚ kvs.
Proof.
  unfold build_object. enough (forall acc, NoDup (map fst (acc ++ kvs)) ->
    foldl (fun m kv => snd (map_insert (fst kv) (snd kv) m)) acc kvs ≡ₚ acc ++ kvs) as H by apply (H []).
  induction kvs as [|[k v] kvs IH]; intros acc Hn; cbn [foldl fst snd]; [by rewrite app_nil_r|].
  assert (snd (map_insert k v acc) ≡ₚ (k, v) :: acc) as Hi.
  { apply map_insert_moves. rewrite map_app in Hn. cbn [map fst] in Hn. apply list.NoDup_app in Hn as (_ & Hn & _).
    intros Hin. apply (Hn k Hin). by left. }
  rewrite IH; rewrite Hi; [by apply Permutation_middle|]. by rewrite <- Permutation_middle in Hn.
Qed.

Lemma build_object_sorted kvs : sorted_keys (build_object kvs).
Proof.
  unfold build_object. enough (forall acc : omap (list Z) Value, sorted_keys acc ->
    sorted_keys (foldl (fun m kv => snd (map_insert (fst kv) (snd kv) m)) acc kvs)) as H by (apply H; constructor).
  induction kvs as [|kv kvs IH]; intros acc Ha; [done|]. apply IH. by apply map_insert_sorted.
Qed.

Lemma list_max_moves l k : l ≡ₚ k -> list_max l = list_max k.
Proof. unfold list_max. induction 1; cbn [fold_right]; lia. Qed.

Lemma settled_wf v : loose v -> value_wf (settled v) /\ value_depth (settled v) = value_depth v.
Proof.
  induction v as [|b|n|s|vs IH|m IH] using Value_ind'; intros Hl; inversion Hl as [| |? Hn|? Hs|? Hvs|? Hn Hk Hvs]; subst; cbn [settled value_depth];
    try (by split; [constructor|]).
  - pose proof (List.Forall_and IH Hvs) as Hall. split.
    + constructor. rewrite Forall_map. eapply List.Forall_impl; [|exact Hall]. by intros v [Hv ?]; apply Hv.
    + do 2 f_equal. clear -Hall. induction Hall as [|v vs [Hv Hw] _ IH]; [done|]. cbn [map]. rewrite IH. f_equal. by apply Hv.
  - pose proof (List.Forall_and IH Hvs) as Hall. set (m' := map (fun e => (fst e, settled (snd e))) m).
    assert (map fst m' = map fst m) as Ek by (unfold m'; by rewrite map_map).
    assert (build_object m' ≡ₚ m') as Hp by (apply build_object_moves; by rewrite Ek). split.
    + constructor.
      * apply build_object_sorted.
      * rewrite Hp. unfold m'. rewrite Forall_map. exact Hk.
      * rewrite Hp. unfold m'. rewrite Forall_map. eapply List.Forall_impl; [|exact Hall]. by intros e [He ?]; apply He.
    + f_equal. rewrite (list_max_moves _ _ (Permutation_map _ Hp)). f_equal. unfold m'. rewrite map_map. cbn [snd]. clear -Hall.
      induction Hall as [|e m [He Hw] _ IH]; [done|]. cbn [map snd]. rewrite IH. f_equal. by apply He.
Qed.

Section Printing.
Context (check : bool) (format : FormatOptions) (o : ParseOptions).

(** Every depth of the value has an indentation of machine size. *)
Definition layout_fits (depth : Z) (v : Value) : Prop :=
  0 <= depth /\ 0 <= indent format /\ depth + Z.of_nat (value_depth v) <= MAX usize /\
  (depth + Z.of_nat (value_depth v)) * indent format <= MAX usize.

Lemma layout_fits_child depth v w : layout_fits depth v -> (S (value_depth w) <= value_depth v)%nat ->
  fits format depth /\ layout_fits (depth + 1) w.
Proof. intros (H0 & Hi & H1 & H2) Hw. unfold fits, layout_fits. split; split_and!; nia. Qed.

Lemma scalar_emits v text fo depth d : (forall depth, write_value (W := String) check format v depth = write text) ->
  is_text text -> (forall s, gvalue o jchars d text v s) -> exists t, emits (write_value check format v depth) fo t /\ reads o d v t.
Proof. intros E Ht Hg. exists text. split; [rewrite E; apply emits_str|by split]. Qed.

Lemma loose_value_reads v : forall depth d fo, loose v -> Z.of_nat (value_depth v) < d -> layout_fits depth v ->
  exists t, emits (write_value check format v depth) fo t /\ reads o d (settled v) t.
Proof.
  induction v as [|b|n|s|vs IH|m IH] using Value_ind'; intros depth d fo Hwf Hd Hfit.
  - apply (scalar_emits _ (lit "null")); [done|apply text_ascii; repeat constructor; lia|constructor].
  - apply (scalar_emits _ (if b then lit "true" else lit "false")); [done| |by destruct b; constructor].
    apply text_ascii. destruct b; repeat constructor; lia.
  - inversion Hwf as [| |? Hn| | |]; subst. destruct (write_number_json o n fo Hn) as (t & He & nt & Hnt & <- & Hv).
    exists (number_units nt). split; [exact He|]. split; [by apply number_text_ascii|]. intros s. by apply g_number.
  - inversion Hwf as [| | |? Hs| |]; subst. destruct (quote_string_reads o d s [] Hs) as [_ Ht].
    exists (quote_string s). split; [apply emits_str|]. split; [done|]. intros x. by apply (quote_string_reads o d s x Hs).
  - inversion Hwf as [| | | |? Hvs|]; subst. cbn [value_depth] in Hd.
    assert (fits format depth) as Hf by (destruct Hfit as (? & ? & ? & ?); unfold fits; cbn [value_depth] in *; nia).
    destruct (Forall2_choice (fun v t => emits (write_value check format v (depth + 1)) fo t /\ reads o (d - 1) (settled v) t) vs) as [ts Hts].
    { rewrite list.Forall_forall in *. intros v Hin. pose proof (below_list_max value_depth _ _ Hin) as Hmax.
      apply IH; [done|by apply Hvs|lia|]. apply (layout_fits_child depth (VArray vs)); [done|cbn; lia]. }
    exists (container format 91 93 depth ts). apply Forall2_both in Hts as [He Hr]. destruct Hfit as (_ & Hi & _).
    split; [by apply emits_array|]. apply array_reads; [lia|]. by apply Forall2_fmap_l.
  - inversion Hwf as [| | | | |? Hs Hk Hvs]; subst. cbn [value_depth] in Hd.
    assert (fits format depth) as Hf by (destruct Hfit as (? & ? & ? & ?); unfold fits; cbn [value_depth] in *; nia).
    destruct (Forall2_choice (fun e t => emits (write_value check format (snd e) (depth + 1)) fo t /\
      entry_reads o (d - 1) (fst e, settled (snd e)) t) m) as [ts Hts].
    { rewrite list.Forall_forall in *. intros e Hin. pose proof (below_list_max (fun e => value_depth (snd e)) _ _ Hin) as Hmax. cbn in Hmax.
      destruct (IH e Hin (depth + 1) (d - 1) fo) as (t & He & Hr); [by apply Hvs|lia| |].
      - apply (layout_fits_child depth (VObject m)); [done|cbn; lia].
      - exists t. split; [done|]. split; [exact (Hk e Hin)|exact Hr]. }
    exists (container format 123 125 depth (zip_with (member format) (map fst m) ts)). apply Forall2_both in Hts as [He Hr].
    destruct Hfit as (_ & Hi & _). split; [by apply emits_object|]. cbn [settled].
    assert (map fst m = map fst (map (fun e => (fst e, settled (snd e))) m)) as E by (by rewrite map_map).
    rewrite E. apply object_reads; [lia|by rewrite <- E|]. by apply Forall2_fmap_l.
Qed.

Lemma write_value_reads v depth d fo : value_wf v -> Z.of_nat (value_depth v) < d -> layout_fits depth v ->
  exists t, emits (write_value check format v depth) fo t /\ reads o d v t.
Proof.
  intros Hwf Hd Hfit. apply wf_loose in Hwf as [Hl E].
  destruct (loose_value_reads v depth d fo Hl Hd Hfit) as (t & He & Hr). exists t. by rewrite E in Hr.
Qed.
End Printing.

(** A document with every kind of value, nested. *)
Definition printed_sample : Value :=
  VObject [([97], VArray [VNumber (NUnsigned 18446744073709551615); VNumber (NSigned (-3)); VNumber (NFloat 0xbff8000000000000);
                          VNumber (NFloat 0x7fefffffffffffff); VNull; VBool true; VArray []]);
           ([98; 10], VObject [([], VString [34; 92; 0; 195; 169])])].

Lemma printed_sample_wf : value_wf printed_sample.
Proof.
  assert (forall s, forallb (fun b => (0 <=? b) && (b <? 256)) s = true -> validate_utf8 s = Ok tt -> is_text s) as Ht.
  { intros s Hb Hv. apply validate_ok_text; [|done]. apply List.Forall_forall. rewrite forallb_forall in Hb. intros b Hin.
    specialize (Hb b Hin). unfold is_byte. lia. }
  assert (forall k v m, sorted_keys ((k, v) :: m) -> is_text k -> value_wf v -> value_wf (VObject m) -> value_wf (VObject ((k, v) :: m))) as Hcons.
  { intros k v m Hs Hk Hv Hm. inversion Hm; subst. constructor; [done|by constructor..]. }
  assert (value_wf (VObject [])) as Hnil by (by repeat constructor).
  unfold printed_sample. apply Hcons; [|by apply Ht; vm_compute| |].
  - repeat constructor.
  - apply wf_array. repeat (apply List.Forall_cons || apply List.Forall_nil).
    1-4: apply wf_number; cbn; try (by vm_compute); split; by vm_compute.
    all: repeat constructor.
  - apply Hcons; [repeat constructor|by apply Ht; vm_compute| |done].
    apply Hcons; [repeat constructor|by apply Ht; vm_compute| |done]. apply wf_string. by apply Ht; vm_compute.
Qed.

(** C4: What [to_string] writes for a well-formed value, compact or pretty, [from_str] reads back as that value. *)
Theorem json_print_parse check format o v :
  value_wf v -> Z.of_nat (value_depth v) < max_depth o -> layout_fits format 0 v ->
  exists text, to_string check v format = Some text /\ from_str text o = Ret v.
Proof.
  intros Hwf Hd Hfit. destruct (write_value_reads check format o v 0 (max_depth o) Fmt.default_options Hwf Hd Hfit) as (t & He & Ht & Hg).
  exists t. split; [unfold to_string; by rewrite He|]. apply from_str_complete; [done|].
  rewrite <- (app_nil_r t). apply (g_document _ _ [] t v []); [constructor|apply Hg|constructor].
Qed.

Lemma json_print_parse_witness :
  exists text, to_string true printed_sample (mkFormatOptions true 2) = Some text /\ from_str text default_options = Ret printed_sample.
Proof.
  apply (json_print_parse true (mkFormatOptions true 2) default_options printed_sample printed_sample_wf).
  - vm_compute. reflexivity.
  - unfold layout_fits. cbn. lia.
Defined.
