(* ===== verification/Toml.v ===== *)
(** * TOML data: values, dates, errors and limits

    Models [src/toml/src/value.cppm], [src/toml/src/datetime.cppm],
    [src/toml/src/error.cppm] and the options of [src/toml/src/parser.cppm].
    Strings are the lists of their bytes, floats their bit patterns and tables
    the sorted association lists of their [BTreeMap]s. *)

From Stdlib Require Import ZArith Lia ZifyBool.
From S2P Require Import Prelude Int Utf8 OrdMap FloatSpec.
Local Open Scope Z_scope.

(** ** Dates and times *)

Record LocalDate := MkDate { year : Z; month : Z; day : Z }.
Record LocalTime := MkTime { hour : Z; minute : Z; second : Z; nanosecond : Z }.
Record LocalDateTime := MkDateTime { date : LocalDate; time : LocalTime }.
Record OffsetDateTime := MkOffset { local : LocalDateTime; offset_minutes : Z }.

(** [uint16_t] and [uint8_t] arithmetic that cannot leave the types. *)
Definition is_leap_year (year : Z) : bool :=
  (year mod 4 =? 0) && (negb (year mod 100 =? 0) || (year mod 400 =? 0)).

Definition DAYS : list Z := [31; 28; 31; 30; 31; 30; 31; 31; 30; 31; 30; 31].

Definition days_in_month (year month : Z) : Z :=
  if (month <? 1) || (12 <? month) then 0
  else if (month =? 2) && is_leap_year year then 29
  else DAYS !!! Z.to_nat (month - 1).

(** ** Values *)

#[warnings="-register-all"] Inductive TValue :=
| TInteger (value : Z)
| TFloat (value : Z)
| TBoolean (value : bool)
| TString (value : list Z)
| TOffsetDateTime (value : OffsetDateTime)
| TLocalDateTime (value : LocalDateTime)
| TLocalDate (value : LocalDate)
| TLocalTime (value : LocalTime)
| TArray (value : list TValue)
| TTable (value : list (list Z * TValue)).

Definition Table := list (list Z * TValue).
Definition KeyPath := list (list Z).

Definition is_Table (v : TValue) : bool := match v with TTable _ => true | _ => false end.
Definition is_Array (v : TValue) : bool := match v with TArray _ => true | _ => false end.

(** Induction through the nested lists. *)
Section ValueInd.
Context (P : TValue -> Prop).
Context (HScalar : forall v, is_Table v = false -> is_Array v = false -> P v)
  (HArray : forall vs, Forall P vs -> P (TArray vs))
  (HTable : forall m, Forall (fun e => P (snd e)) m -> P (TTable m)).

Fixpoint TValue_ind' (v : TValue) : P v :=
  match v with
  | TArray vs =>
    HArray vs ((fix go vs : Forall P vs :=
      match vs with
      | [] => List.Forall_nil _
      | v :: vs => @List.Forall_cons _ P v vs (TValue_ind' v) (go vs)
      end) vs)
  | TTable m =>
    HTable m ((fix go m : Forall (fun e => P (snd e)) m :=
      match m with
      | [] => List.Forall_nil _
      | e :: m => @List.Forall_cons _ (fun e => P (snd e)) e m (TValue_ind' (snd e)) (go m)
      end) m)
  | v => HScalar v eq_refl eq_refl
  end.
End ValueInd.

(** ** Errors *)

Inductive TomlErrorCode :=
| UnexpectedEnd | UnexpectedCharacter | ExpectedKey | ExpectedEquals | ExpectedValue
| ExpectedCommaOrEnd | ExpectedLineEnd | InvalidUtf8 | InvalidEscape | InvalidUnicode
| InvalidString | TomlInvalidNumber | TomlNumberOutOfRange | InvalidDateTime | DuplicateKey
| DuplicateTable | TableRedefinition | TomlRecursionLimitExceeded | ResourceLimitExceeded.

Inductive ErrorCategory := CatSyntax | CatEof | CatLimit.

Record TomlError := MkTomlError
  { tcode_ : TomlErrorCode; tline_ : nat; tcolumn_ : nat; toffset_ : nat }.

Definition toml_classify (e : TomlError) : ErrorCategory :=
  match tcode_ e with
  | UnexpectedEnd => CatEof
  | TomlRecursionLimitExceeded | ResourceLimitExceeded => CatLimit
  | _ => CatSyntax
  end.

(** ** Limits *)

Record TomlOptions := MkTomlOptions
  { toml_max_depth : Z; max_input_bytes : Z; max_values : Z }.

Definition toml_default_options : TomlOptions := MkTomlOptions 128 (16 * 1024 * 1024) (1024 * 1024).

(** ** The book of definitions

    Which keys were introduced how: TOML forbids, for instance, extending an
    inline table or repeating a header. *)

Inductive DefinitionKind :=
| ImplicitTable | ExplicitTable | DottedTable | InlineTable | ArrayOfTables | ValueKind.

#[export] Instance definition_kind_eq : EqDecision DefinitionKind.
Proof. solve_decision. Defined.

#[warnings="-register-all"] Inductive DefinitionNode :=
| MkNode (kind : DefinitionKind) (children : list (list Z * DefinitionNode)) (array_items : list DefinitionNode).

Definition node_kind (n : DefinitionNode) : DefinitionKind := let '(MkNode k _ _) := n in k.
Definition children (n : DefinitionNode) : list (list Z * DefinitionNode) := let '(MkNode _ c _) := n in c.
Definition array_items (n : DefinitionNode) : list DefinitionNode := let '(MkNode _ _ a) := n in a.

(** [DefinitionNode(kind)] *)
Definition new_node (kind : DefinitionKind) : DefinitionNode := MkNode kind [] [].

Section NodeInd.
Context (P : DefinitionNode -> Prop).
Context (HNode : forall k c a, Forall (fun e => P (snd e)) c -> Forall P a -> P (MkNode k c a)).

Fixpoint Node_ind' (n : DefinitionNode) : P n :=
  match n with
  | MkNode k c a =>
    HNode k c a
      ((fix go c : Forall (fun e => P (snd e)) c :=
        match c with
        | [] => List.Forall_nil _
        | e :: c => @List.Forall_cons _ (fun e => P (snd e)) e c (Node_ind' (snd e)) (go c)
        end) c)
      ((fix go a : Forall P a :=
        match a with
        | [] => List.Forall_nil _
        | n :: a => @List.Forall_cons _ P n a (Node_ind' n) (go a)
        end) a)
  end.
End NodeInd.
