(* ===== verification/TomlScalar.v ===== *)
(** * TOML scalars: integers, floats, dates and times

    The token parsers of [src/toml/src/parser.cpp] ([parse_integer],
    [parse_float], [parse_date], [parse_time], [parse_datetime],
    [valid_underscores]).  They work on a token alone, so they are pure; the
    caller attaches the position to the error code.  [Panic] stands for an
    index out of range. *)

From Stdlib Require Import ZArith Lia ZifyBool.
From S2P Require Import Prelude Int Utf8 OrdMap FloatSpec Toml.
Local Open Scope Z_scope.
Local Open Scope rstd_scope.

Definition digit_for_base (byte base : Z) : option Z := digit_value byte base.

(** The token without its underscores. *)
Definition normalize (token : list Z) : list Z := filter (fun b => b <> 0x5f) token.

(** The base of a token that starts at [index] with a prefix. *)
Definition base_prefix (text : list Z) (index : nat) : Z :=
  if (index + 2 <=? length text)%nat && bool_decide (text !! index = Some 0x30) then
    match text !! (index + 1)%nat with
    | Some prefix =>
      if prefix =? 0x78 then 16 else if prefix =? 0x6f then 8 else if prefix =? 0x62 then 2 else 10
    | None => 10
    end
  else 10.

(** The digit loop; [value] is a [uint64_t] that never exceeds [limit]. *)
Fixpoint integer_loop (digits : list Z) (base limit value : Z) : outcome TomlErrorCode Z :=
  match digits with
  | [] => Ret value
  | d :: digits =>
    match digit_for_base d base with
    | None => Fail TomlInvalidNumber
    | Some raw =>
      if (limit - raw) / base <? value then Fail TomlNumberOutOfRange
      else integer_loop digits base limit (value * base + raw)
    end
  end.

Definition parse_integer (token : list Z) : outcome TomlErrorCode TValue :=
  let text := normalize token in
  let! first := index text 0 in
  let signed_value := (first =? 0x2b) || (first =? 0x2d) in
  let negative := first =? 0x2d in
  let i := if signed_value then 1%nat else 0%nat in
  if signed_value && (i =? length text)%nat then Fail TomlInvalidNumber
  else
    let base := base_prefix text i in
    let i := if base =? 10 then i else (i + 2)%nat in
    if (i =? length text)%nat then Fail TomlInvalidNumber
    else if negb (base =? 10) && signed_value then Fail TomlInvalidNumber
    else
      let! lead := index text i in
      if (base =? 10) && (lead =? 0x30) && (i + 1 <? length text)%nat then Fail TomlInvalidNumber
      else
        let limit := if negative then 0x8000000000000000 else 0x7fffffffffffffff in
        let! value := integer_loop (drop i text) base limit 0 in
        Ret (TInteger (if negative
                       then if value =? 0x8000000000000000 then MIN i64 else - value
                       else value)).

(** ** Floats *)

Definition NAN : Z := 0x7ff8000000000000.
Definition NEG_NAN : Z := 0xfff8000000000000.

Definition str_inf : list Z := [0x69; 0x6e; 0x66].
Definition str_nan : list Z := [0x6e; 0x61; 0x6e].

(** The digits at the front, and the rest. *)
Fixpoint span_digits (s : list Z) : list Z * list Z :=
  match s with
  | c :: t => if is_digit c then let '(a, b) := span_digits t in (c :: a, b) else ([], s)
  | [] => ([], [])
  end.

(** The exponent saturates once it has passed 100000. *)
Fixpoint raw_exponent (digits : list Z) (raw : Z) : Z :=
  match digits with
  | [] => raw
  | d :: digits => raw_exponent digits (if raw <? 100000 then raw * 10 + (d - 0x30) else raw)
  end.

(** After the fraction: the exponent, whether it was there, and what is left. *)
Definition float_exponent (s : list Z) : outcome TomlErrorCode (Z * bool * list Z) :=
  match s with
  | c :: t =>
    if (c =? 0x65) || (c =? 0x45) then
      let '(negative, t) :=
        match t with
        | sign :: t' => if (sign =? 0x2b) || (sign =? 0x2d) then (sign =? 0x2d, t') else (false, t)
        | [] => (false, t)
        end in
      let '(digits, rest) := span_digits t in
      match digits with
      | [] => Fail TomlInvalidNumber
      | _ =>
        let raw := raw_exponent digits 0 in
        Ret (if negative then - raw else raw, true, rest)
      end
    else Ret (0, false, s)
  | [] => Ret (0, false, [])
  end.

Section Float.
Context `{DecimalConversion}.

Definition parse_float (token : list Z) : outcome TomlErrorCode TValue :=
  if bool_decide (token = str_inf) || bool_decide (token = 0x2b :: str_inf) then Ret (TFloat INFINITY)
  else if bool_decide (token = 0x2d :: str_inf) then Ret (TFloat NEG_INFINITY)
  else if bool_decide (token = str_nan) || bool_decide (token = 0x2b :: str_nan) then Ret (TFloat NAN)
  else if bool_decide (token = 0x2d :: str_nan) then Ret (TFloat NEG_NAN)
  else
    let text := normalize token in
    let! first := index text 0 in
    let negative := first =? 0x2d in
    let s := if (first =? 0x2b) || (first =? 0x2d) then drop 1 text else text in
    let '(integer, s) := span_digits s in
    if bool_decide (integer = []) ||
       ((1 <? length integer)%nat && bool_decide (head integer = Some 0x30))
    then Fail TomlInvalidNumber
    else
      let! split :=
        match s with
        | c :: t =>
          if c =? 0x2e then
            let '(fraction, rest) := span_digits t in
            if bool_decide (fraction = []) then Fail TomlInvalidNumber else Ret (fraction, rest)
          else Ret ([], s)
        | [] => Ret ([], s)
        end in
      let '(fraction, s) := split in
      let! exp := float_exponent s in
      let '(exponent, exponent_present, s) := exp in
      if negb (bool_decide (s = [])) || (bool_decide (fraction = []) && negb exponent_present)
      then Fail TomlInvalidNumber
      else
        match to_f64 (MkDecimal integer fraction exponent negative) with
        | Ret bits => Ret (TFloat bits)
        | Fail DecOverflow => Fail TomlNumberOutOfRange
        | Fail DecInvalid => Fail TomlInvalidNumber
        | Panic => Panic
        | OutOfFuel => OutOfFuel
        end.
End Float.

(** ** Dates and times *)

Definition parse_two (token : list Z) (offset : nat) : option Z :=
  match token !! offset, token !! (offset + 1)%nat with
  | Some a, Some b =>
    if is_digit a && is_digit b then Some ((a - 0x30) * 10 + (b - 0x30)) else None
  | _, _ => None
  end.

Fixpoint four_loop (n : nat) (token : list Z) (offset : nat) (value : Z) : option Z :=
  match n with
  | O => Some value
  | S n =>
    match token !! offset with
    | Some d =>
      if negb (is_digit d) then None
      else four_loop n token (S offset) ((value * 10 + (d - 0x30)) mod 2 ^ 16)
    | None => None
    end
  end.

Definition parse_four (token : list Z) (offset : nat) : option Z :=
  if (length token <? offset + 4)%nat then None else four_loop 4 token offset 0.

Definition parse_date (token : list Z) (offset : nat) : outcome TomlErrorCode LocalDate :=
  match parse_four token offset, parse_two token (offset + 5), parse_two token (offset + 8) with
  | Some year, Some month, Some day =>
    let! sep1 := index token (offset + 4) in
    let! sep2 := index token (offset + 7) in
    if negb (sep1 =? 0x2d) || negb (sep2 =? 0x2d) || (month <? 1) || (12 <? month) ||
       (day <? 1) || (days_in_month year month <? day)
    then Fail InvalidDateTime
    else Ret (MkDate year month day)
  | _, _, _ => Fail InvalidDateTime
  end.

(** Nine digits make nanoseconds; further ones are dropped. *)
Fixpoint fraction_loop (digits : list Z) (count : nat) (nanosecond : Z) : nat * Z :=
  match digits with
  | [] => (count, nanosecond)
  | d :: digits =>
    fraction_loop digits (S count)
      (if (count <? 9)%nat then (nanosecond * 10 + (d - 0x30)) mod 2 ^ 32 else nanosecond)
  end.

Fixpoint pad_nanos (n : nat) (nanosecond : Z) : Z :=
  match n with O => nanosecond | S n => pad_nanos n ((nanosecond * 10) mod 2 ^ 32) end.

(** The time and the offset after it. *)
Definition parse_time (token : list Z) (offset : nat) : outcome TomlErrorCode (LocalTime * nat) :=
  match parse_two token offset, parse_two token (offset + 3) with
  | Some hour, Some minute =>
    let! sep := index token (offset + 2) in
    if negb (sep =? 0x3a) || (23 <? hour) || (59 <? minute) then Fail InvalidDateTime
    else
      let stop := (offset + 5)%nat in
      let! seconds :=
        (if bool_decide (token !! stop = Some 0x3a) then
           match parse_two token (stop + 1) with
           | Some second => if 59 <? second then Fail InvalidDateTime else Ret (second, true, (stop + 3)%nat)
           | None => Fail InvalidDateTime
           end
         else Ret (0, false, stop)) in
      let '(second, has_seconds, stop) := seconds in
      if bool_decide (token !! stop = Some 0x2e) then
        if negb has_seconds then Fail InvalidDateTime
        else
          let '(digits, _) := span_digits (drop (stop + 1) token) in
          let '(count, nanosecond) := fraction_loop digits 0 0 in
          if (count =? 0)%nat then Fail InvalidDateTime
          else Ret (MkTime hour minute second (pad_nanos (9 - count) nanosecond), (stop + 1 + count)%nat)
      else Ret (MkTime hour minute second 0, stop)
  | _, _ => Fail InvalidDateTime
  end.

(** [Z], [z] or a signed offset after a date and time. *)
Definition parse_offset (token : list Z) (stop : nat) (local : LocalDateTime) : outcome TomlErrorCode TValue :=
  let! mark := index token stop in
  if (mark =? 0x5a) || (mark =? 0x7a) then
    if negb (stop + 1 =? length token)%nat then Fail InvalidDateTime
    else Ret (TOffsetDateTime (MkOffset local 0))
  else if negb (mark =? 0x2b) && negb (mark =? 0x2d) then Fail InvalidDateTime
  else
    match parse_two token (stop + 1), parse_two token (stop + 4) with
    | Some hour, Some minute =>
      if negb (stop + 6 =? length token)%nat then Fail InvalidDateTime
      else
        let! sep := index token (stop + 3) in
        if negb (sep =? 0x3a) || (23 <? hour) || (59 <? minute) then Fail InvalidDateTime
        else
          let minutes := hour * 60 + minute in
          Ret (TOffsetDateTime (MkOffset local (if mark =? 0x2d then - minutes else minutes)))
    | _, _ => Fail InvalidDateTime
    end.

Definition parse_datetime (token : list Z) : outcome TomlErrorCode TValue :=
  if (10 <=? length token)%nat && bool_decide (token !! 4%nat = Some 0x2d) && bool_decide (token !! 7%nat = Some 0x2d)
  then
    let! date := parse_date token 0 in
    if (length token =? 10)%nat then Ret (TLocalDate date)
    else
      let! mark := index token 10 in
      if (length token <? 16)%nat || (negb (mark =? 0x54) && negb (mark =? 0x74) && negb (mark =? 0x20))
      then Fail InvalidDateTime
      else
        let! parsed := parse_time token 11 in
        let '(time, stop) := parsed in
        let local := MkDateTime date time in
        if (stop =? length token)%nat then Ret (TLocalDateTime local) else parse_offset token stop local
  else if (5 <=? length token)%nat && bool_decide (token !! 2%nat = Some 0x3a) then
    match parse_time token 0 with
    | Ret (time, stop) => if negb (stop =? length token)%nat then Fail InvalidDateTime else Ret (TLocalTime time)
    | Fail _ => Fail InvalidDateTime
    | Panic => Panic
    | OutOfFuel => OutOfFuel
    end
  else Fail InvalidDateTime.

(** ** Underscores *)

Definition digit_at (token : list Z) (i : nat) (base : Z) : bool :=
  match token !! i with
  | Some b => bool_decide (is_Some (digit_for_base b base))
  | None => false
  end.

Fixpoint underscores_loop (n i : nat) (token : list Z) (base : Z) : bool :=
  match n with
  | O => true
  | S n =>
    if bool_decide (token !! i = Some 0x5f) then
      if (i =? 0)%nat || (i + 1 =? length token)%nat ||
         negb (digit_at token (i - 1) base) || negb (digit_at token (i + 1) base)
      then false
      else underscores_loop n (S i) token base
    else underscores_loop n (S i) token base
  end.

Definition valid_underscores (token : list Z) : bool :=
  let start :=
    match token with c :: _ => if (c =? 0x2b) || (c =? 0x2d) then 1%nat else 0%nat | [] => 0%nat end in
  underscores_loop (length token) 0 token (base_prefix token start).

(** ** What the TOML scalar parsers compute

    Integers against a grammar and their positional value; the ranges of
    every date and time; and that no token makes a parser index out of its
    range. *)

(** ** Well-formed values *)

Definition date_ok (d : LocalDate) : Prop :=
  0 <= year d <= 9999 /\ 1 <= month d <= 12 /\ 1 <= day d <= days_in_month (year d) (month d).

Definition time_ok (t : LocalTime) : Prop :=
  0 <= hour t <= 23 /\ 0 <= minute t <= 59 /\ 0 <= second t <= 59 /\ 0 <= nanosecond t <= 999999999.

Definition datetime_ok (d : LocalDateTime) : Prop := date_ok (date d) /\ time_ok (time d).

Definition offset_ok (o : OffsetDateTime) : Prop :=
  datetime_ok (local o) /\ -1439 <= offset_minutes o <= 1439.

(** What a parsed value promises: 64-bit integers and floats, strings and
    keys that are UTF-8 text, dates of the calendar and sorted tables. *)
#[warnings="-register-all"] Inductive value_ok : TValue -> Prop :=
| ok_integer n : in_range i64 n = true -> value_ok (TInteger n)
| ok_float bits : 0 <= bits < 2 ^ 64 -> value_ok (TFloat bits)
| ok_boolean b : value_ok (TBoolean b)
| ok_string s : is_text s -> value_ok (TString s)
| ok_offset o : offset_ok o -> value_ok (TOffsetDateTime o)
| ok_datetime d : datetime_ok d -> value_ok (TLocalDateTime d)
| ok_date d : date_ok d -> value_ok (TLocalDate d)
| ok_time t : time_ok t -> value_ok (TLocalTime t)
| ok_array vs : Forall value_ok vs -> value_ok (TArray vs)
| ok_table m : sorted_keys m -> Forall (fun e => is_text (fst e) /\ value_ok (snd e)) m -> value_ok (TTable m).

Create HintDb toml_values discriminated.
#[export] Hint Constructors value_ok : toml_values.

(** A value that is neither a table nor an array. *)
Definition scalar_ok (v : TValue) : Prop := value_ok v /\ is_Table v = false /\ is_Array v = false.

Lemma scalar_intro v : value_ok v -> is_Table v || is_Array v = false -> scalar_ok v.
Proof. intros Hv [? ?]%orb_false_iff. by split_and!. Qed.

(** ** Integers *)

Definition digits_of (base : Z) (s : list Z) : option (list Z) := mapM (fun b => digit_for_base b base) s.

(** The positional value of digits, after [acc]. *)
Definition positional (base acc : Z) (ds : list Z) : Z := foldl (fun acc d => acc * base + d) acc ds.

Definition decimal_digits (s ds : list Z) : Prop :=
  s <> [] /\ digits_of 10 s = Some ds /\ (head s = Some 0x30 -> length s = 1%nat).

(** The integers of TOML without their underscores: whether it is negative,
    the base and the digits. *)
Inductive integer_syntax : list Z -> bool -> Z -> list Z -> Prop :=
| int_decimal s ds : decimal_digits s ds -> integer_syntax s false 10 ds
| int_plus s ds : decimal_digits s ds -> integer_syntax (0x2b :: s) false 10 ds
| int_minus s ds : decimal_digits s ds -> integer_syntax (0x2d :: s) true 10 ds
| int_radix prefix base s ds :
    (prefix, base) ∈ [(0x78, 16); (0x6f, 8); (0x62, 2)] -> s <> [] -> digits_of base s = Some ds ->
    integer_syntax (0x30 :: prefix :: s) false base ds.

Definition signed (negative : bool) (v : Z) : Z := if negative then - v else v.

Lemma digit_for_base_range b base d : digit_for_base b base = Some d -> 0 <= d < base.
Proof.
  unfold digit_for_base, digit_value, is_digit. cbn zeta. intros H. repeat (case_if; simplify_eq/=); lia.
Qed.

Lemma positional_mono base acc ds :
  1 <= base -> 0 <= acc -> Forall (fun d => 0 <= d) ds -> acc <= positional base acc ds.
Proof.
  intros Hb Ha Hds. revert acc Ha. induction Hds as [|d ds Hd _ IH]; intros acc Ha; cbn; [lia|].
  etrans; [|apply IH]; nia.
Qed.

Lemma digits_of_cons base c s :
  digits_of base (c :: s) = d ← digit_for_base c base; ds ← digits_of base s; Some (d :: ds).
Proof. done. Qed.

Lemma digits_of_range base s ds : digits_of base s = Some ds -> Forall (fun d => 0 <= d < base) ds.
Proof.
  revert ds. induction s as [|c s IH]; intros ds; [by intros [= <-]; constructor|].
  rewrite digits_of_cons. destruct (digit_for_base c base) as [d|] eqn:Ed; [|done].
  destruct (digits_of base s) as [ds'|]; [|done]. intros [= <-]. constructor; [by eapply digit_for_base_range | auto].
Qed.

(** The loop computes the positional value, or refuses what exceeds the
    limit. *)
Lemma integer_loop_spec s base limit value :
  2 <= base -> base <= limit -> 0 <= value <= limit ->
  match digits_of base s with
  | Some ds =>
    integer_loop s base limit value =
      if positional base value ds <=? limit then Ret (positional base value ds) else Fail TomlNumberOutOfRange
  | None => exists e, integer_loop s base limit value = Fail e
  end.
Proof.
  intros Hb Hl. revert value. induction s as [|c s IH]; intros value Hv.
  { cbn. by replace (value <=? limit) with true by lia. }
  rewrite digits_of_cons. cbn [integer_loop]. destruct (digit_for_base c base) as [d|] eqn:Ed; [|by eexists].
  pose proof (digit_for_base_range _ _ _ Ed) as Hd. cbn [mbind option_bind].
  destruct ((limit - d) / base <? value) eqn:Eq.
  - assert (limit < value * base + d) as Hover by (apply Z.ltb_lt in Eq; Z.div_mod_to_equations; nia).
    destruct (digits_of base s) as [ds|] eqn:Eds; [|by eexists]. cbn [mbind option_bind].
    change (positional base value (d :: ds)) with (positional base (value * base + d) ds).
    replace (_ <=? limit) with false; [done|]. symmetry. apply Z.leb_gt.
    eapply Z.lt_le_trans; [exact Hover|]. apply positional_mono; [lia | nia |].
    generalize (digits_of_range _ _ _ Eds). apply Forall_impl. lia.
  - assert (value * base + d <= limit) as Hin by (apply Z.ltb_ge in Eq; Z.div_mod_to_equations; nia).
    specialize (IH (value * base + d) ltac:(nia)). by destruct (digits_of base s).
Qed.

Lemma in_range_i64_signed negative v :
  0 <= v ->
  in_range i64 (signed negative v) =
    (v <=? if negative then 0x8000000000000000 else 0x7fffffffffffffff).
Proof. intros Hv. unfold in_range, signed. cbn -[Z.leb Z.opp]. destruct negative; lia. Qed.

Lemma digit_decimal c : digit_for_base c 10 = if is_digit c then Some (c - 48) else None.
Proof.
  unfold digit_for_base, digit_value. cbn -[Z.leb Z.sub Z.add is_digit]. unfold is_digit.
  repeat case_if; try done; lia.
Qed.

(** The digits of a decimal integer neither start with a sign nor with the
    prefix of another base. *)
Lemma decimal_first s ds :
  decimal_digits s ds -> exists c t, s = c :: t /\ is_digit c = true /\ (c = 0x30 -> t = []).
Proof.
  intros (Hne & Hd & Hz). destruct s as [|c t]; [done|]. exists c, t. split; [done|].
  rewrite digits_of_cons, digit_decimal in Hd. destruct (is_digit c); [|done]. split; [done|].
  intros ->. specialize (Hz eq_refl). by destruct t.
Qed.

(** The part of the parser after the sign of a decimal. *)
Lemma parse_integer_digits base i text limit ds (f : Z -> TValue) :
  digits_of base (drop i text) = Some ds -> 2 <= base <= limit ->
  (let! value := integer_loop (drop i text) base limit 0 in Ret (f value)) =
  if positional base 0 ds <=? limit then Ret (f (positional base 0 ds)) else Fail TomlNumberOutOfRange.
Proof.
  intros Hd Hb. pose proof (integer_loop_spec (drop i text) base limit 0) as H. rewrite Hd in H.
  rewrite H by lia. by destruct (_ <=? limit).
Qed.

Lemma base_prefix_decimal text i c t :
  drop i text = c :: t -> (c = 0x30 -> t = []) -> base_prefix text i = 10.
Proof.
  intros E Hz. unfold base_prefix. destruct (i + 2 <=? length text)%nat eqn:El; [|done]. apply Nat.leb_le in El.
  case_bool_decide as Hc; [|done]. exfalso.
  rewrite <- (Nat.add_0_r i), <- lookup_drop, E in Hc. injection Hc as ->. specialize (Hz eq_refl). subst.
  apply (f_equal length) in E. rewrite length_drop in E. cbn in E. lia.
Qed.

(** A decimal behind an optional sign. *)
Lemma parse_integer_decimal token s ds (sign : option Z) :
  decimal_digits s ds -> normalize token = option_list sign ++ s ->
  (forall c, sign = Some c -> c = 0x2b \/ c = 0x2d) ->
  let negative := bool_decide (sign = Some 0x2d) in
  parse_integer token =
    if in_range i64 (signed negative (positional 10 0 ds)) then Ret (TInteger (signed negative (positional 10 0 ds)))
    else Fail TomlNumberOutOfRange.
Proof.
  intros Hd En Hsign. destruct (decimal_first s ds Hd) as (c & t & -> & Hc & Hz).
  destruct Hd as (_ & Hd & _). cbn zeta. pose proof (digits_of_range _ _ _ Hd) as Hr.
  assert (0 <= positional 10 0 ds) as Hpos.
  { apply (positional_mono 10 0 ds); [lia | lia |]. revert Hr. apply Forall_impl. lia. }
  rewrite in_range_i64_signed by done. unfold parse_integer. rewrite En.
  assert (forall i text, text = option_list sign ++ c :: t -> drop i text = c :: t -> (i <= length text)%nat ->
    base_prefix text i = 10 /\ (i =? length text)%nat = false /\ text !! i = Some c /\
    ((c =? 0x30) && (i + 1 <? length text)%nat) = false) as Hgen.
  { intros i text _ Ed Hi. pose proof (f_equal length Ed) as El. rewrite length_drop in El. cbn in El. split_and!.
    - by eapply base_prefix_decimal.
    - apply Nat.eqb_neq. lia.
    - by rewrite <- (Nat.add_0_r i), <- lookup_drop, Ed.
    - destruct (c =? 0x30) eqn:E0; [|done]. rewrite (Hz ltac:(lia)) in El. cbn in El. apply Nat.ltb_ge. lia. }
  unfold is_digit in Hc. destruct sign as [g|].
  - change (option_list (Some g) ++ c :: t) with (g :: c :: t) in *.
    destruct (Hgen 1%nat (g :: c :: t)) as (Hb & Hl & Hi & Hlead); [done | done | cbn; lia |].
    unfold index. cbn [lookup list_lookup obind].
    destruct (Hsign g eq_refl) as [-> | ->]; cbn [Z.eqb Pos.eqb orb andb];
      rewrite Hl, Hb; cbn [Z.eqb Pos.eqb negb andb orb]; rewrite Hl, Hi; cbn [obind]; rewrite Hlead.
    + rewrite bool_decide_eq_false_2 by done. by rewrite (parse_integer_digits 10 1 _ _ ds) by (done || lia).
    + rewrite bool_decide_eq_true_2 by done. rewrite (parse_integer_digits 10 1 _ _ ds) by (done || lia).
      case_if; [|done]. do 2 f_equal. case_if; [|done]. unfold signed. cbn. lia.
  - change (option_list None ++ c :: t) with (c :: t) in *.
    destruct (Hgen 0%nat (c :: t)) as (Hb & Hl & Hi & Hlead); [done | done | cbn; lia |].
    unfold index. cbn [lookup list_lookup obind].
    replace ((c =? 0x2b) || (c =? 0x2d)) with false by lia. replace (c =? 0x2d) with false by lia.
    cbn [andb]. rewrite Hb. cbn [Z.eqb Pos.eqb negb andb orb]. rewrite Hl, Hi. cbn [obind]. rewrite Hlead.
    rewrite bool_decide_eq_false_2 by done. by rewrite (parse_integer_digits 10 0 _ _ ds) by (done || lia).
Qed.

Lemma base_prefix_radix prefix base s :
  (prefix, base) ∈ [(0x78, 16); (0x6f, 8); (0x62, 2)] -> base_prefix (0x30 :: prefix :: s) 0 = base.
Proof. rewrite !elem_of_cons, elem_of_nil. intros [[= -> ->]|[[= -> ->]|[[= -> ->]|[]]]]; done. Qed.

Lemma radix_base prefix base :
  (prefix, base) ∈ [(0x78, 16); (0x6f, 8); (0x62, 2)] -> base = 16 \/ base = 8 \/ base = 2.
Proof. rewrite !elem_of_cons, elem_of_nil. intros [[= -> ->]|[[= -> ->]|[[= -> ->]|[]]]]; auto. Qed.

Lemma base_prefix_inv text i :
  base_prefix text i <> 10 ->
  exists prefix s, drop i text = 0x30 :: prefix :: s /\
    (prefix, base_prefix text i) ∈ [(0x78, 16); (0x6f, 8); (0x62, 2)].
Proof.
  unfold base_prefix. destruct (i + 2 <=? length text)%nat eqn:El; [|done]. apply Nat.leb_le in El.
  case_bool_decide as Hc; [|done]. cbn [andb].
  destruct (lookup_lt_is_Some_2 text (i + 1)) as [prefix Hp]; [lia|]. rewrite Hp. intros Hb.
  exists prefix, (drop (S (S i)) text). split.
  - rewrite (drop_S _ 0x30) by done. by rewrite (drop_S _ prefix) by (by rewrite <- Nat.add_1_r).
  - rewrite !elem_of_cons. repeat case_if; try done.
    + left. f_equal. lia.
    + right. left. f_equal. lia.
    + right. right. left. f_equal. lia.
Qed.

Lemma parse_integer_radix token prefix base s ds :
  normalize token = 0x30 :: prefix :: s ->
  (prefix, base) ∈ [(0x78, 16); (0x6f, 8); (0x62, 2)] -> s <> [] -> digits_of base s = Some ds ->
  parse_integer token =
    if in_range i64 (positional base 0 ds) then Ret (TInteger (positional base 0 ds)) else Fail TomlNumberOutOfRange.
Proof.
  intros En Hp Hne Hd. pose proof (radix_base _ _ Hp) as Hb. pose proof (digits_of_range _ _ _ Hd) as Hr.
  assert (0 <= positional base 0 ds) as Hpos.
  { apply (positional_mono base 0 ds); [lia | lia |]. revert Hr. apply Forall_impl. lia. }
  change (in_range i64 (positional base 0 ds)) with (in_range i64 (signed false (positional base 0 ds))).
  rewrite in_range_i64_signed by done. unfold parse_integer. rewrite En. unfold index.
  cbn [lookup list_lookup obind Z.eqb Pos.eqb orb andb]. rewrite (base_prefix_radix _ _ _ Hp).
  replace (base =? 10) with false by lia. cbn [negb andb Nat.add Nat.eqb length].
  destruct s as [|c s]; [done|]. cbn [length Nat.eqb lookup list_lookup obind].
  rewrite (parse_integer_digits base 2 (0x30 :: prefix :: c :: s) _ ds); [done | done | lia].
Qed.

(** What is not an integer is refused. *)
Lemma parse_integer_inv token :
  normalize token <> [] ->
  (exists negative base ds, integer_syntax (normalize token) negative base ds) \/
  exists e, parse_integer token = Fail e.
Proof.
  intros Hne. unfold parse_integer. destruct (normalize token) as [|first t] eqn:En; [done|].
  unfold index at 1. cbn [lookup list_lookup obind]. set (text := first :: t) in *.
  set (sv := (first =? 0x2b) || (first =? 0x2d)). set (i := if sv then 1%nat else 0%nat).
  destruct (sv && (i =? length text)%nat); [by right; eexists|].
  destruct (base_prefix text i =? 10) eqn:Eb.
  - apply Z.eqb_eq in Eb. destruct (i =? length text)%nat eqn:El; [by right; eexists|]. apply Nat.eqb_neq in El.
    rewrite Eb. cbn [Z.eqb Pos.eqb negb andb].
    assert (exists lead u, drop i text = lead :: u) as (lead & u & Ed).
    { destruct sv; subst i text; cbn in *; [|by eexists _, _]. destruct t; [cbn in El; lia | by eexists _, _]. }
    assert (text !! i = Some lead) as Ei by (by rewrite <- (Nat.add_0_r i), <- lookup_drop, Ed).
    unfold index. rewrite Ei. cbn [obind].
    destruct ((lead =? 0x30) && (i + 1 <? length text)%nat) eqn:Elead; [by right; eexists|].
    set (limit := if first =? 0x2d then _ else _).
    assert (16 <= limit) as Hlim by (subst limit; destruct (first =? 0x2d); lia). clearbody limit.
    pose proof (integer_loop_spec (drop i text) 10 limit 0) as Hloop.
    destruct (digits_of 10 (drop i text)) as [ds|] eqn:Eds.
    2:{ right. destruct Hloop as [e ->]; [lia | lia | lia | by eexists]. }
    left. assert (decimal_digits (drop i text) ds) as Hd.
    { split_and!; [by rewrite Ed | done |]. rewrite Ed. intros [= ->]. rewrite Z.eqb_refl in Elead.
      apply Nat.ltb_ge in Elead. apply (f_equal length) in Ed. rewrite length_drop in Ed. clearbody i text. cbn [length] in *. lia. }
    subst i text sv. destruct (first =? 0x2b) eqn:E1; [|destruct (first =? 0x2d) eqn:E2]; cbn [orb drop] in Hd.
    + apply Z.eqb_eq in E1. subst. exists false, 10, ds. by constructor.
    + apply Z.eqb_eq in E2. subst. exists true, 10, ds. by constructor.
    + exists false, 10, ds. by constructor.
  - apply Z.eqb_neq in Eb. destruct (base_prefix_inv _ _ Eb) as (prefix & s & Ed & Hp).
    destruct (i + 2 =? length text)%nat eqn:El; [by right; eexists|]. cbn [negb andb].
    destruct sv eqn:Esv; [by right; eexists|]. subst i. cbn [Nat.add] in *. rewrite drop_0 in Ed.
    rewrite Ed in *. set (base := base_prefix _ 0) in *. destruct s as [|c s]; [done|].
    unfold index. cbn [lookup list_lookup obind]. set (limit := if first =? 0x2d then _ else _).
    assert (16 <= limit) as Hlim by (subst limit; destruct (first =? 0x2d); lia). clearbody limit.
    pose proof (radix_base _ _ Hp) as Hb. pose proof (integer_loop_spec (c :: s) base limit 0) as Hloop.
    destruct (digits_of base (c :: s)) as [ds|] eqn:Eds.
    + left. exists false, base, ds. by econstructor.
    + right. cbn [drop]. destruct Hloop as [e ->]; [lia | lia | lia | by eexists].
Qed.

Lemma parse_integer_syntax token negative base ds :
  integer_syntax (normalize token) negative base ds ->
  let n := signed negative (positional base 0 ds) in
  parse_integer token = if in_range i64 n then Ret (TInteger n) else Fail TomlNumberOutOfRange.
Proof.
  intros H. remember (normalize token) as text eqn:En. symmetry in En. destruct H as [s ds Hd|s ds Hd|s ds Hd|prefix base s ds Hp Hne Hd].
  - by apply (parse_integer_decimal token s ds None).
  - apply (parse_integer_decimal token s ds (Some 0x2b)); [done | done |]. intros ? [= <-]. by left.
  - apply (parse_integer_decimal token s ds (Some 0x2d)); [done | done |]. intros ? [= <-]. by right.
  - by eapply parse_integer_radix.
Qed.

Lemma parse_integer_ends token : normalize token <> [] -> ends (parse_integer token) scalar_ok (fun _ => True).
Proof.
  intros Hne. destruct (parse_integer_inv token Hne) as [(neg & base & ds & Hs)|[e ->]]; [|done].
  rewrite (parse_integer_syntax _ _ _ _ Hs). case_if; [|done]. apply scalar_intro; [by constructor | done].
Qed.

(** ** Floats *)

Lemma span_digits_spec s : digits_ok (fst (span_digits s)) /\ s = fst (span_digits s) ++ snd (span_digits s).
Proof.
  induction s as [|c t [IH1 IH2]]; [by split; [constructor|]|]. cbn. destruct (is_digit c) eqn:Ec; [|by split; [constructor|]].
  destruct (span_digits t) as [a b]. cbn in *. split; [by constructor | by f_equal].
Qed.

Lemma float_exponent_ends s : ends (float_exponent s) (fun _ => True) (fun _ => True).
Proof.
  unfold float_exponent. destruct s as [|c t]; [done|]. case_if; [|done].
  destruct (match t with [] => _ | _ => _ end) as [neg t']. destruct (span_digits t') as [[|d ds] r]; done.
Qed.

Lemma parse_float_ends `{DecimalConversionLaws} token :
  normalize token <> [] -> ends (parse_float token) scalar_ok (fun _ => True).
Proof.
  intros Hne. unfold parse_float. repeat (case_if; [apply scalar_intro; [by constructor | done]|]).
  apply ends_bind, ends_index; [by destruct (normalize token); [|cbn; lia]|]. intros first _.
  set (s := if (first =? 0x2b) || (first =? 0x2d) then _ else _). pose proof (span_digits_spec s) as [Hi _]. destruct (span_digits s) as [int s1].
  cbn in Hi. case_if; [done|]. apply orb_false_iff in Heqb3 as [Hint _]. apply bool_decide_eq_false in Hint.
  apply ends_bind. eapply (ends_mono _ (fun sp : list Z * list Z => digits_ok (fst sp)) _ (fun _ => True)); [| |done].
  { destruct s1 as [|c t]; [by constructor|]. case_if; [|by constructor].
    pose proof (span_digits_spec t) as [Hf _]. destruct (span_digits t) as [fr r]. case_if; done. }
  intros [fr s2] Hf. cbn in Hf. apply ends_bind. eapply ends_mono; [apply float_exponent_ends | |done].
  intros [[e pr] s3] _. case_if; [done|].
  destruct (to_f64_total (MkDecimal int fr e (first =? 0x2d))) as [(bits & -> & _ & Hb)| ->]; [done | | done].
  apply scalar_intro; [by constructor | done].
Qed.

(** ** Dates and times *)

Lemma parse_two_spec token offset v :
  parse_two token offset = Some v -> 0 <= v <= 99 /\ (offset + 1 < length token)%nat.
Proof.
  unfold parse_two. destruct (token !! offset) as [a|]; [|done].
  destruct (token !! (offset + 1)%nat) as [b|] eqn:Eb; [|done]. unfold is_digit. case_if; [|done]. intros [= <-].
  split; [lia|]. by eapply lookup_lt_Some.
Qed.

Lemma parse_four_spec token offset v : parse_four token offset = Some v -> 0 <= v <= 9999.
Proof.
  unfold parse_four. case_if; [done|]. cbn [four_loop].
  do 4 (destruct (token !! _) as [?d|]; [|done]; unfold is_digit at 1; case_if; [done|]).
  intros [= <-]. rewrite !negb_false_iff in *. rewrite !andb_true_iff, !Z.leb_le in *.
  repeat match goal with
         | |- context [?a mod 2 ^ 16] =>
           lazymatch a with context [_ mod _] => fail | _ => rewrite (Z.mod_small a (2 ^ 16)) by lia end
         end.
  lia.
Qed.

Lemma parse_date_ends token offset :
  ends (parse_date token offset) date_ok (fun _ => True).
Proof.
  unfold parse_date. destruct (parse_four token offset) as [y|] eqn:Ey; [|done].
  destruct (parse_two token (offset + 5)) as [mo|] eqn:Em; [|done].
  destruct (parse_two token (offset + 8)) as [d|] eqn:Ed; [|done].
  apply parse_four_spec in Ey. apply parse_two_spec in Em as [Hm _]. apply parse_two_spec in Ed as [Hd Hl].
  apply ends_bind, ends_index; [lia|]. intros s1 _. apply ends_bind, ends_index; [lia|]. intros s2 _.
  case_if; [done|]. unfold date_ok. cbn. lia.
Qed.

Lemma fraction_loop_spec ds count nanos :
  digits_ok ds -> (count <= 9)%nat -> 0 <= nanos < 10 ^ Z.of_nat count ->
  let '(c, n) := fraction_loop ds count nanos in
  c = (count + length ds)%nat /\ 0 <= n < 10 ^ Z.of_nat (Nat.min c 9).
Proof.
  intros Hds. revert count nanos.
  assert (forall ds count nanos, (9 <= count)%nat -> fraction_loop ds count nanos = ((count + length ds)%nat, nanos)) as Hover.
  { clear. induction ds as [|d ds IH]; intros count nanos Hc; cbn; [f_equal; lia|].
    replace (_ <=? _)%nat with false by (symmetry; apply Nat.leb_gt; lia). rewrite IH by lia. f_equal. lia. }
  induction Hds as [|d ds Hd _ IH]; intros count nanos Hc Hn; cbn [fraction_loop length].
  { split; [lia|]. by replace (Nat.min count 9) with count by lia. }
  destruct (count <? 9)%nat eqn:E.
  - apply Nat.ltb_lt in E. unfold is_digit in Hd.
    assert (10 ^ Z.of_nat (S count) = 10 * 10 ^ Z.of_nat count) as Hp by (rewrite Nat2Z.inj_succ, Z.pow_succ_r by lia; done).
    assert (10 ^ Z.of_nat (S count) <= 10 ^ 9) by (apply Z.pow_le_mono_r; lia).
    rewrite Z.mod_small by lia.
    specialize (IH (S count) (nanos * 10 + (d - 48)) ltac:(lia) ltac:(lia)).
    destruct (fraction_loop _ _ _) as [c n]. destruct IH as [-> ?]. split; [lia | done].
  - apply Nat.ltb_ge in E. rewrite Hover by lia. split; [lia|].
    replace (Nat.min _ 9) with 9%nat by lia. by replace count with 9%nat in Hn by lia.
Qed.

Lemma pad_nanos_spec n c nanos :
  (c + n <= 9)%nat -> 0 <= nanos < 10 ^ Z.of_nat c -> 0 <= pad_nanos n nanos < 10 ^ Z.of_nat (c + n).
Proof.
  revert c nanos. induction n as [|n IH]; intros c nanos Hc Hn; cbn [pad_nanos]; [by rewrite Nat.add_0_r|].
  assert (10 ^ Z.of_nat (S c) = 10 * 10 ^ Z.of_nat c) as Hp by (rewrite Nat2Z.inj_succ, Z.pow_succ_r by lia; done).
  assert (10 ^ Z.of_nat (S c) <= 10 ^ 9) by (apply Z.pow_le_mono_r; lia).
  rewrite <- Nat.add_succ_comm. apply IH; [lia|]. rewrite Z.mod_small by lia. lia.
Qed.

Lemma parse_time_ends token offset :
  ends (parse_time token offset) (fun r => time_ok (fst r) /\ (snd r <= length token)%nat) (fun _ => True).
Proof.
  unfold parse_time. destruct (parse_two token offset) as [h|] eqn:Eh; [|done].
  destruct (parse_two token (offset + 3)) as [mi|] eqn:Em; [|done].
  apply parse_two_spec in Eh as [Hh _]. apply parse_two_spec in Em as [Hm Hl].
  apply ends_bind, ends_index; [lia|]. intros sep _. case_if; [done|].
  apply ends_bind. eapply (ends_mono _ (fun r : Z * bool * nat => 0 <= fst (fst r) <= 59 /\ (snd r <= length token)%nat) _ (fun _ => True)); [| |done].
  { case_if; [|cbn; lia]. destruct (parse_two token (offset + 5 + 1)) as [sec|] eqn:Es; [|done].
    apply parse_two_spec in Es as [Hs Hl']. case_if; [done|]. cbn. lia. }
  intros [[sec has] stop] [Hs Hstop]. cbn in Hs, Hstop. case_if.
  2:{ cbn. unfold time_ok. cbn. lia. }
  case_if; [done|]. apply bool_decide_eq_true in Heqb0. apply lookup_lt_Some in Heqb0.
  pose proof (span_digits_spec (drop (stop + 1) token)) as [Hd Hr]. destruct (span_digits _) as [ds r]. cbn in Hd, Hr.
  pose proof (fraction_loop_spec ds 0 0 Hd ltac:(lia) ltac:(cbn; lia)) as Hf.
  destruct (fraction_loop ds 0 0) as [c n]. destruct Hf as [-> Hn]. case_if; [done|].
  apply (f_equal length) in Hr. rewrite length_drop, length_app in Hr.
  split; cbn [fst snd]; [|lia]. unfold time_ok. cbn [hour minute second nanosecond].
  assert (0 <= pad_nanos (9 - (0 + length ds)) n < 10 ^ 9); [|lia].
  assert (10 ^ Z.of_nat (Nat.min (0 + length ds) 9 + (9 - (0 + length ds))) = 10 ^ 9) as Hp by (f_equal; lia).
  rewrite <- Hp. apply pad_nanos_spec; [lia | done].
Qed.

Lemma parse_offset_ends token stop local :
  (stop < length token)%nat -> datetime_ok local -> ends (parse_offset token stop local) scalar_ok (fun _ => True).
Proof.
  intros Hs Hl. unfold parse_offset. apply ends_bind, ends_index; [done|]. intros mark _. case_if.
  { case_if; [done|]. apply scalar_intro; [constructor; split; [done | cbn; lia] | done]. }
  case_if; [done|]. destruct (parse_two token (stop + 1)) as [h|] eqn:Eh; [|done].
  destruct (parse_two token (stop + 4)) as [mi|] eqn:Em; [|done].
  apply parse_two_spec in Eh as [Hh _]. apply parse_two_spec in Em as [Hm Hlen].
  case_if; [done|]. apply ends_bind, ends_index; [lia|]. intros sep _. case_if; [done|].
  apply scalar_intro; [|done]. constructor. split; [done|]. cbn [offset_minutes]. case_if; lia.
Qed.

Lemma parse_datetime_ends token : ends (parse_datetime token) scalar_ok (fun _ => True).
Proof.
  unfold parse_datetime. case_if.
  - apply ends_bind. eapply ends_mono; [apply parse_date_ends| |done]. intros date Hd.
    case_if; [apply scalar_intro; [by constructor | done]|]. apply ends_bind, ends_index; [lia|]. intros mark _. case_if; [done|].
    apply ends_bind. eapply ends_mono; [apply parse_time_ends| |done]. intros [time stop] [Ht Hs]. cbn in Ht, Hs.
    case_if; [apply scalar_intro; [by constructor | done]|]. apply parse_offset_ends; [lia | done].
  - case_if; [|done]. pose proof (parse_time_ends token 0) as Ht.
    destruct (parse_time token 0) as [[time stop]| | |]; try done. case_if; [done|]. apply scalar_intro; [constructor; apply Ht | done].
Qed.

(** C13: TOML integers are read exactly.  A token without its underscores gives
    the integer [n] when, and only when, it is a decimal integer with an
    optional sign and no leading zero, or a prefixed hexadecimal, octal or
    binary one, its positional value is [n] and [n] fits 64 bits; one that
    does not fit is reported as out of range, and no token makes the parser
    overflow or index out of range. *)
Theorem parse_integer_exact token :
  normalize token <> [] ->
  (forall n, parse_integer token = Ret (TInteger n) <->
     exists negative base ds, integer_syntax (normalize token) negative base ds /\
       n = signed negative (positional base 0 ds) /\ in_range i64 n = true) /\
  (forall negative base ds, integer_syntax (normalize token) negative base ds ->
     in_range i64 (signed negative (positional base 0 ds)) = false ->
     parse_integer token = Fail TomlNumberOutOfRange) /\
  ends (parse_integer token) scalar_ok (fun _ => True).
Proof.
  intros Hne. split_and!; [|intros neg base ds Hs Hr; by rewrite (parse_integer_syntax _ _ _ _ Hs), Hr |
    by apply parse_integer_ends].
  intros n. split.
  - intros E. destruct (parse_integer_inv token Hne) as [(neg & base & ds & Hs)|[e He]]; [|congruence].
    exists neg, base, ds. rewrite (parse_integer_syntax _ _ _ _ Hs) in E. case_if; [|done]. by injection E as <-.
  - intros (neg & base & ds & Hs & -> & Hr). by rewrite (parse_integer_syntax _ _ _ _ Hs), Hr.
Qed.

(** [-9_223_372_036_854_775_808] and its neighbour below. *)
Lemma parse_integer_exact_witness :
  let token := 0x2d :: 0x39 :: 0x5f :: map (fun d => 0x30 + d) [2; 2; 3; 3; 7; 2; 0; 3; 6; 8; 5; 4; 7; 7; 5; 8; 0; 8] in
  let below := 0x2d :: map (fun d => 0x30 + d) [9; 2; 2; 3; 3; 7; 2; 0; 3; 6; 8; 5; 4; 7; 7; 5; 8; 0; 9] in
  parse_integer token = Ret (TInteger (MIN i64)) /\ parse_integer below = Fail TomlNumberOutOfRange.
Proof.
  intros token below. split.
  - apply (proj1 (parse_integer_exact token ltac:(vm_compute; discriminate))).
    exists true, 10, [9; 2; 2; 3; 3; 7; 2; 0; 3; 6; 8; 5; 4; 7; 7; 5; 8; 0; 8].
    split_and!; [|reflexivity|reflexivity]. apply int_minus.
    split_and!; [discriminate | reflexivity | intros H; discriminate H].
  - apply (proj1 (proj2 (parse_integer_exact below ltac:(vm_compute; discriminate))) true 10
      [9; 2; 2; 3; 3; 7; 2; 0; 3; 6; 8; 5; 4; 7; 7; 5; 8; 0; 9]); [|reflexivity]. apply int_minus.
    split_and!; [discriminate | reflexivity | intros H; discriminate H].
Defined.
