(* ===== verification/TomlParser.v ===== *)
(** * The TOML parser

    Models [class TomlParser] of [src/toml/src/parser.cpp] and its entry
    points.  The parser owns a cursor over the text, the remaining limits, the
    document built so far and the book of definitions; its member functions
    are computations over that state.  A pointer to a table inside the
    document is the list of keys that leads there: each key names a table, or
    an array whose last element is one.  Loops carry fuel: every round but the
    last consumes input. *)

From Stdlib Require Import ZArith Lia ZifyBool.
From S2P Require Import Prelude Int Utf8 Str Cursor OrdMap FloatSpec Toml TomlScalar.
Local Open Scope Z_scope.
Local Open Scope rstd_scope.

Record TomlParser := MkParser
  { cursor_ : Cursor;
    remaining_depth_ : Z;
    max_input_bytes_ : Z;
    remaining_values_ : Z;
    root_ : Table;
    definitions_ : DefinitionNode;
    current_path_ : KeyPath }.

Definition parser_new (text : list Z) (options : TomlOptions) : TomlParser :=
  MkParser (cursor_new 0 (text_input text) false) (toml_max_depth options) (max_input_bytes options)
    (max_values options) [] (new_node ExplicitTable) [].

Definition with_cursor (c : Cursor) (p : TomlParser) : TomlParser :=
  MkParser c (remaining_depth_ p) (max_input_bytes_ p) (remaining_values_ p) (root_ p) (definitions_ p) (current_path_ p).
Definition with_depth (d : Z) (p : TomlParser) : TomlParser :=
  MkParser (cursor_ p) d (max_input_bytes_ p) (remaining_values_ p) (root_ p) (definitions_ p) (current_path_ p).
Definition with_values (v : Z) (p : TomlParser) : TomlParser :=
  MkParser (cursor_ p) (remaining_depth_ p) (max_input_bytes_ p) v (root_ p) (definitions_ p) (current_path_ p).
Definition with_document (root : Table) (definitions : DefinitionNode) (p : TomlParser) : TomlParser :=
  MkParser (cursor_ p) (remaining_depth_ p) (max_input_bytes_ p) (remaining_values_ p) root definitions (current_path_ p).
Definition with_path (path : KeyPath) (p : TomlParser) : TomlParser :=
  MkParser (cursor_ p) (remaining_depth_ p) (max_input_bytes_ p) (remaining_values_ p) (root_ p) (definitions_ p) path.

Definition TM := M TomlParser TomlError.

(** ** Reading *)

Definition eof (p : TomlParser) : bool := is_eof (cursor_ p).

(** 0 past the end. *)
Definition peek_at (ahead : nat) (p : TomlParser) : Z := default 0 (peek (cursor_ p) ahead).
Definition peek0 : TomlParser -> Z := peek_at 0.

(** A cursor operation; its failures are unwrapped by the source. *)
Definition on_cursor {A} (m : M Cursor unit A) : TM A := fun p =>
  match m (cursor_ p) with
  | (Ret a, c) => (Ret a, with_cursor c p)
  | (Fail _, c) => (Panic, with_cursor c p)
  | (Panic, c) => (Panic, with_cursor c p)
  | (OutOfFuel, c) => (OutOfFuel, with_cursor c p)
  end.

Definition take : TM Z := let* v := on_cursor take_unit in of_option v.

(** [return Err(error(code))] *)
Definition fail {A} (code : TomlErrorCode) : TM A := fun p =>
  match source_position (cursor_ p) with
  | Ret location => (Fail (MkTomlError code (line location) (column location) (position_ (cursor_ p))), p)
  | _ => (Panic, p)
  end.

(** A token parser's outcome, its error code located. *)
Definition located {A} (m : outcome TomlErrorCode A) : TM A :=
  match m with
  | Ret a => ret a
  | Fail code => fail code
  | Panic => panic
  | OutOfFuel => out_of_fuel
  end.

Definition left_bytes (p : TomlParser) : nat := remaining (cursor_ p).

Definition is_horizontal (b : Z) : bool := (b =? 0x20) || (b =? 0x09).
Definition is_bare_key (b : Z) : bool := is_alnum b || (b =? 0x5f) || (b =? 0x2d).

(** A control character that TOML does not allow in text. *)
Definition is_control (b : Z) : bool := ((b <? 0x20) && negb (b =? 0x09)) || (b =? 0x7f).

Definition at_crlf (p : TomlParser) : bool := (peek0 p =? 0x0d) && (peek_at 1 p =? 0x0a).

Definition consume_horizontal : TM unit := do* on_cursor (skip_while is_horizontal) ;; ret tt.

(** ** Comments and line ends *)

Fixpoint comment_loop (fuel : nat) : TM unit :=
  match fuel with
  | O => out_of_fuel
  | S fuel =>
    let* stop := gets (fun p => eof p || (peek0 p =? 0x0a) || at_crlf p) in
    if stop : bool then ret tt
    else
      let* b := gets peek0 in
      if is_control b then fail UnexpectedCharacter
      else do* take ;; comment_loop fuel
  end.

Definition consume_comment : TM unit :=
  let* none := gets (fun p => eof p || negb (peek0 p =? 0x23)) in
  if none : bool then ret tt
  else let* fuel := gets (fun p => S (left_bytes p)) in comment_loop fuel.

Fixpoint trivia_loop (fuel : nat) : TM unit :=
  match fuel with
  | O => out_of_fuel
  | S fuel =>
    do* consume_horizontal ;;
    do* consume_comment ;;
    let* done := gets eof in
    if done : bool then ret tt
    else
      let* lf := gets (fun p => peek0 p =? 0x0a) in
      if lf : bool then do* take ;; trivia_loop fuel
      else
        let* crlf := gets at_crlf in
        if crlf : bool then do* take ;; do* take ;; trivia_loop fuel
        else ret tt
  end.

Definition consume_trivia : TM unit :=
  let* fuel := gets (fun p => S (left_bytes p)) in trivia_loop fuel.

Definition finish_line : TM unit :=
  do* consume_horizontal ;;
  do* consume_comment ;;
  let* done := gets eof in
  if done : bool then ret tt
  else
    let* lf := gets (fun p => peek0 p =? 0x0a) in
    if lf : bool then do* take ;; ret tt
    else
      let* crlf := gets at_crlf in
      if crlf : bool then do* take ;; do* take ;; ret tt
      else fail ExpectedLineEnd.

(** ** Strings *)

(** [push_scalar]: no scalar has an empty encoding. *)
Definition push_scalar (output : list Z) (value : Z) : TM (list Z) :=
  match encode_utf8 value with
  | [] => panic
  | bytes => ret (output ++ bytes)
  end.

(** [value] is a [uint32_t]; at most eight digits. *)
Fixpoint escape_digits (digits : nat) (value : Z) : TM Z :=
  match digits with
  | O => ret value
  | S digits =>
    let* done := gets eof in
    if done : bool then fail UnexpectedEnd
    else
      let* b := gets peek0 in
      match digit_value b 16 with
      | None => fail InvalidUnicode
      | Some digit => do* take ;; escape_digits digits ((value * 16 + digit) mod 2 ^ 32)
      end
  end.

Definition parse_unicode_escape (digits : nat) : TM Z :=
  let* value := escape_digits digits 0 in
  if (0x10ffff <? value) || ((0xd800 <=? value) && (value <=? 0xdfff)) then fail InvalidUnicode
  else ret value.

(** The number of bytes from [n] ahead that satisfy the predicate. *)
Fixpoint count_ahead (fuel : nat) (predicate : Z -> bool) (n : nat) (p : TomlParser) : nat :=
  match fuel with
  | O => n
  | S fuel => if predicate (peek_at n p) then count_ahead fuel predicate (S n) p else n
  end.

Definition run_ahead (predicate : Z -> bool) (p : TomlParser) : nat :=
  count_ahead (left_bytes p) predicate 0 p.

Fixpoint take_n (n : nat) : TM unit :=
  match n with O => ret tt | S n => do* take ;; take_n n end.

(** Opening quotes; in multi-line strings also the first line end. *)
Definition open_string (quote : Z) (allow_multiline : bool) : TM bool :=
  let* multiline := gets (fun p => allow_multiline && (peek_at 1 p =? quote) && (peek_at 2 p =? quote)) in
  do* take ;;
  if multiline : bool then
    do* take ;;
    do* take ;;
    let* lf := gets (fun p => negb (eof p) && (peek0 p =? 0x0a)) in
    if lf : bool then do* take ;; ret true
    else
      let* crlf := gets (fun p => negb (eof p) && at_crlf p) in
      if crlf : bool then do* take ;; do* take ;; ret true else ret true
  else ret false.

(** At a quote: [Some output] ends the string.  [None] leaves the quote to
    the caller. *)
Definition close_string (quote : Z) (multiline : bool) (output : list Z) : TM (option (list Z)) :=
  if negb multiline then do* take ;; ret (Some output)
  else
    let* quotes := gets (run_ahead (fun b => b =? quote)) in
    if (5 <? quotes)%nat then fail InvalidString
    else if (3 <=? quotes)%nat then
      do* take_n quotes ;;
      ret (Some (output ++ replicate (quotes - 3) quote))
    else ret None.

(** The white space after a line-ending backslash. *)
Fixpoint skip_lines (fuel : nat) : TM unit :=
  match fuel with
  | O => out_of_fuel
  | S fuel =>
    do* consume_horizontal ;;
    let* lf := gets (fun p => negb (eof p) && (peek0 p =? 0x0a)) in
    if lf : bool then do* take ;; skip_lines fuel
    else
      let* crlf := gets (fun p => negb (eof p) && at_crlf p) in
      if crlf : bool then do* take ;; do* take ;; skip_lines fuel else ret tt
  end.

(** A backslash at the end of a line, with white space before the line end. *)
Definition at_continuation (p : TomlParser) : bool :=
  let n := run_ahead is_horizontal p in
  (peek_at n p =? 0x0a) || ((peek_at n p =? 0x0d) && (peek_at (n + 1) p =? 0x0a)).

Definition continuation : TM unit :=
  do* consume_horizontal ;;
  let* cr := gets (fun p => peek0 p =? 0x0d) in
  do* (if cr : bool then
         do* take ;;
         let* bad := gets (fun p => eof p || negb (peek0 p =? 0x0a)) in
         if bad : bool then fail InvalidString else ret tt
       else ret tt) ;;
  do* take ;;
  let* fuel := gets (fun p => S (left_bytes p)) in
  skip_lines fuel.

Definition simple_escape (escaped : Z) : option Z :=
  if escaped =? 0x62 then Some 0x08
  else if escaped =? 0x74 then Some 0x09
  else if escaped =? 0x6e then Some 0x0a
  else if escaped =? 0x66 then Some 0x0c
  else if escaped =? 0x72 then Some 0x0d
  else if escaped =? 0x65 then Some 0x1b
  else if escaped =? 0x22 then Some 0x22
  else if escaped =? 0x5c then Some 0x5c
  else None.

Definition parse_escape (output : list Z) : TM (list Z) :=
  let* escaped := take in
  match simple_escape escaped with
  | Some b => ret (output ++ [b])
  | None =>
    if escaped =? 0x78 then let* c := parse_unicode_escape 2 in push_scalar output c
    else if escaped =? 0x75 then let* c := parse_unicode_escape 4 in push_scalar output c
    else if escaped =? 0x55 then let* c := parse_unicode_escape 8 in push_scalar output c
    else fail InvalidEscape
  end.

(** The characters basic and literal strings treat alike. *)
Definition plain_char (multiline : bool) (output : list Z) : TM (list Z) :=
  let* b := gets peek0 in
  if negb multiline && ((b =? 0x0a) || (b =? 0x0d)) then fail InvalidString
  else if multiline && (b =? 0x0a) then let* v := take in ret (output ++ [v])
  else
    let* crlf := gets at_crlf in
    if multiline && crlf then do* take ;; do* take ;; ret (output ++ [0x0a])
    else if is_control b then fail InvalidString
    else let* v := take in ret (output ++ [v]).

Fixpoint basic_loop (fuel : nat) (multiline : bool) (output : list Z) : TM (list Z) :=
  match fuel with
  | O => out_of_fuel
  | S fuel =>
    let* done := gets eof in
    if done : bool then fail UnexpectedEnd
    else
      let* b := gets peek0 in
      if b =? 0x22 then
        let* closed := close_string 0x22 multiline output in
        match closed with
        | Some result => ret result
        | None => let* v := take in basic_loop fuel multiline (output ++ [v])
        end
      else if b =? 0x5c then
        do* take ;;
        let* ended := gets eof in
        if ended : bool then fail UnexpectedEnd
        else
          let* line := gets at_continuation in
          if multiline && line then do* continuation ;; basic_loop fuel multiline output
          else let* output := parse_escape output in basic_loop fuel multiline output
      else let* output := plain_char multiline output in basic_loop fuel multiline output
  end.

Definition parse_basic_string (allow_multiline : bool) : TM (list Z) :=
  let* multiline := open_string 0x22 allow_multiline in
  let* fuel := gets (fun p => S (left_bytes p)) in
  basic_loop fuel multiline [].

Fixpoint literal_loop (fuel : nat) (multiline : bool) (output : list Z) : TM (list Z) :=
  match fuel with
  | O => out_of_fuel
  | S fuel =>
    let* done := gets eof in
    if done : bool then fail UnexpectedEnd
    else
      let* b := gets peek0 in
      let* closed := (if b =? 0x27 then close_string 0x27 multiline output else ret None) in
      match closed with
      | Some result => ret result
      | None => let* output := plain_char multiline output in literal_loop fuel multiline output
      end
  end.

Definition parse_literal_string (allow_multiline : bool) : TM (list Z) :=
  let* multiline := open_string 0x27 allow_multiline in
  let* fuel := gets (fun p => S (left_bytes p)) in
  literal_loop fuel multiline [].

(** ** Keys *)

(** [cursor_.text(span).unwrap()] *)
Definition text_of (span : Span) : TM (list Z) := fun p =>
  match cursor_text (cursor_ p) span with
  | Ret s => (Ret s, p)
  | _ => (Panic, p)
  end.

Definition parse_key_part : TM (list Z) :=
  let* done := gets eof in
  if done : bool then fail ExpectedKey
  else
    let* b := gets peek0 in
    if b =? 0x22 then parse_basic_string false
    else if b =? 0x27 then parse_literal_string false
    else if negb (is_bare_key b) then fail ExpectedKey
    else
      let* start := gets (fun p => checkpoint (cursor_ p)) in
      do* on_cursor (consume_while is_bare_key) ;;
      let* span := on_cursor (span_from start) in
      text_of span.

Fixpoint key_path_loop (fuel : nat) (path : KeyPath) : TM KeyPath :=
  match fuel with
  | O => out_of_fuel
  | S fuel =>
    do* consume_horizontal ;;
    let* key := parse_key_part in
    let path := path ++ [key] in
    do* consume_horizontal ;;
    let* last := gets (fun p => eof p || negb (peek0 p =? 0x2e)) in
    if last : bool then ret path
    else do* take ;; key_path_loop fuel path
  end.

Definition parse_key_path : TM KeyPath :=
  let* fuel := gets (fun p => S (left_bytes p)) in key_path_loop fuel [].

(** ** Pointers into the document *)

(** The table a value leads to: itself, or the last element of an array. *)
Definition pointee (item : TValue) : option Table :=
  match item with
  | TTable t => Some t
  | TArray vs => match list.last vs with Some (TTable t) => Some t | _ => None end
  | _ => None
  end.

(** Writing to that table. *)
Definition redirect (item : TValue) (t : Table) : TValue :=
  match item with
  | TArray vs => TArray (removelast vs ++ [TTable t])
  | _ => TTable t
  end.

(** [resolve_table]: makes the missing tables of the path; [None] is
    [TableRedefinition]. *)
Fixpoint resolve_table (start : Table) (path : KeyPath) : option Table :=
  match path with
  | [] => Some start
  | key :: path =>
    let table :=
      match map_get key start with
      | Some _ => start
      | None => snd (map_insert key (TTable []) start)
      end in
    item ← map_get key table;
    t ← pointee item;
    t ← resolve_table t path;
    Some (snd (map_insert key (redirect item t) table))
  end.

(** The table a resolved path points to. *)
Fixpoint table_at (start : Table) (path : KeyPath) : option Table :=
  match path with
  | [] => Some start
  | key :: path => item ← map_get key start; t ← pointee item; table_at t path
  end.

(** Writing through the pointer. *)
Fixpoint set_table (start : Table) (path : KeyPath) (new : Table) : Table :=
  match path with
  | [] => new
  | key :: path =>
    match map_get key start with
    | Some item =>
      match pointee item with
      | Some t => snd (map_insert key (redirect item (set_table t path new)) start)
      | None => start
      end
    | None => start
    end
  end.

Definition with_children (c : list (list Z * DefinitionNode)) (n : DefinitionNode) : DefinitionNode :=
  MkNode (node_kind n) c (array_items n).
Definition with_items (a : list DefinitionNode) (n : DefinitionNode) : DefinitionNode :=
  MkNode (node_kind n) (children n) a.

Definition is_table_kind (k : DefinitionKind) : bool :=
  match k with ImplicitTable | ExplicitTable | DottedTable => true | _ => false end.

(** The node that holds the keys below a node. *)
Definition pointee_node (node : DefinitionNode) : option DefinitionNode :=
  if bool_decide (node_kind node = ArrayOfTables) then list.last (array_items node)
  else if is_table_kind (node_kind node) then Some node
  else None.

Definition redirect_node (node table : DefinitionNode) : DefinitionNode :=
  if bool_decide (node_kind node = ArrayOfTables)
  then with_items (removelast (array_items node) ++ [table]) node
  else table.

(** [resolve_definition]: [None] is [TableRedefinition]. *)
Fixpoint resolve_definition (start : DefinitionNode) (path : KeyPath) (missing_kind : DefinitionKind)
    (create_missing : bool) : option DefinitionNode :=
  match path with
  | [] => Some start
  | key :: path =>
    node ← match map_get key (children start) with
           | Some node => Some node
           | None => if create_missing then Some (new_node missing_kind) else None
           end;
    if bool_decide (missing_kind = DottedTable) && negb (bool_decide (node_kind node = DottedTable)) then None
    else
      table ← pointee_node node;
      table ← resolve_definition table path missing_kind create_missing;
      Some (with_children (snd (map_insert key (redirect_node node table) (children start))) start)
  end.

Fixpoint node_at (start : DefinitionNode) (path : KeyPath) : option DefinitionNode :=
  match path with
  | [] => Some start
  | key :: path => node ← map_get key (children start); table ← pointee_node node; node_at table path
  end.

Fixpoint set_node (start : DefinitionNode) (path : KeyPath) (new : DefinitionNode) : DefinitionNode :=
  match path with
  | [] => new
  | key :: path =>
    match map_get key (children start) with
    | Some node =>
      match pointee_node node with
      | Some table =>
        with_children (snd (map_insert key (redirect_node node (set_node table path new)) (children start))) start
      | None => start
      end
    | None => start
    end
  end.

(** [insert_path] on the table and the definitions a pointer pair names:
    both are updated, or an error code is returned. *)
Definition insert_path (table : Table) (definition : DefinitionNode) (path : KeyPath) (value : TValue)
    : outcome TomlErrorCode (Table * DefinitionNode) :=
  match list.last path with
  | None => Panic
  | Some key =>
    let parents := removelast path in
    match resolve_definition definition parents DottedTable true with
    | None => Fail TableRedefinition
    | Some definition =>
      match resolve_table table parents with
      | None => Fail TableRedefinition
      | Some table =>
        match node_at definition parents, table_at table parents with
        | Some definition_parent, Some parent =>
          if bool_decide (is_Some (map_get key (children definition_parent))) ||
             bool_decide (is_Some (map_get key parent))
          then Fail DuplicateKey
          else
            let kind := if is_Table value then InlineTable else ValueKind in
            Ret (set_table table parents (snd (map_insert key value parent)),
                 set_node definition parents
                   (with_children (snd (map_insert key (new_node kind) (children definition_parent)))
                      definition_parent))
        | _, _ => Panic
        end
      end
    end
  end.

(** ** Values *)

(** A span without its trailing white space. *)
Fixpoint trim_span (fuel : nat) (s : list Z) (b e : nat) : nat :=
  match fuel with
  | O => e
  | S fuel =>
    if (b =? e)%nat then e
    else match s !! (e - 1)%nat with
         | Some c => if is_horizontal c then trim_span fuel s b (e - 1) else e
         | None => e
         end
  end.

Definition ends_scalar (b : Z) : bool :=
  (b =? 0x2c) || (b =? 0x5d) || (b =? 0x7d) || (b =? 0x23) || (b =? 0x0a) || (b =? 0x0d).

Definition str_true : list Z := [0x74; 0x72; 0x75; 0x65].
Definition str_false : list Z := [0x66; 0x61; 0x6c; 0x73; 0x65].

Section Values.
Context `{DecimalConversion}.

(** Which parser a token goes to. *)
Definition scalar_token (token : list Z) : outcome TomlErrorCode TValue :=
  if bool_decide (token = str_true) then Ret (TBoolean true)
  else if bool_decide (token = str_false) then Ret (TBoolean false)
  else if ((5 <=? length token)%nat && bool_decide (token !! 2%nat = Some 0x3a)) ||
          ((10 <=? length token)%nat && bool_decide (token !! 4%nat = Some 0x2d))
  then parse_datetime token
  else if negb (valid_underscores token) then Fail TomlInvalidNumber
  else
    let! first := index token 0 in
    let start := if (first =? 0x2b) || (first =? 0x2d) then 1%nat else 0%nat in
    if negb (base_prefix token start =? 10) then parse_integer token
    else if existsb (fun b => (b =? 0x2e) || (b =? 0x65) || (b =? 0x45)) token ||
            existsb (fun s => bool_decide (token = s))
              [str_inf; 0x2b :: str_inf; 0x2d :: str_inf; str_nan; 0x2b :: str_nan; 0x2d :: str_nan]
    then parse_float token
    else parse_integer token.

(** The scan stops at a character, or at the end. *)
Definition parse_scalar : TM TValue :=
  let* start := gets (fun p => checkpoint (cursor_ p)) in
  do* on_cursor (consume_while (fun b => negb (ends_scalar b))) ;;
  let* span := on_cursor (span_from start) in
  let* all := gets (fun p => input (cursor_ p)) in
  let stop := trim_span (length all) all (span_begin span) (span_end span) in
  if (span_begin span =? stop)%nat then fail ExpectedValue
  else
    let* token := text_of (MkSpan (span_begin span) stop) in
    located (scalar_token token).

(** [--remaining_depth_] and [++remaining_depth_] on a [u8]. *)
Definition enter : TM unit :=
  let* depth := gets remaining_depth_ in
  if depth =? 1 then fail TomlRecursionLimitExceeded
  else
    let* depth := of_option (op_sub true u8 depth 1) in
    modify (with_depth depth).

Definition leave : TM unit :=
  let* depth := gets remaining_depth_ in
  let* depth := of_option (op_add true u8 depth 1) in
  modify (with_depth depth).

(** At the closing bracket. *)
Definition closes (bracket : Z) (p : TomlParser) : bool := negb (eof p) && (peek0 p =? bracket).

Fixpoint parse_value (fuel : nat) : TM TValue :=
  match fuel with
  | O => out_of_fuel
  | S fuel =>
    let* done := gets eof in
    if done : bool then fail ExpectedValue
    else
      let* values := gets remaining_values_ in
      if values =? 0 then fail ResourceLimitExceeded
      else
        let* values := of_option (op_sub true usize values 1) in
        do* modify (with_values values) ;;
        let* b := gets peek0 in
        if b =? 0x22 then let* s := parse_basic_string true in ret (TString s)
        else if b =? 0x27 then let* s := parse_literal_string true in ret (TString s)
        else if b =? 0x5b then
          do* enter ;;
          do* take ;;
          do* consume_trivia ;;
          let* empty := gets (closes 0x5d) in
          if empty : bool then do* take ;; do* leave ;; ret (TArray [])
          else parse_array fuel []
        else if b =? 0x7b then
          do* enter ;;
          do* take ;;
          do* consume_trivia ;;
          let* empty := gets (closes 0x7d) in
          if empty : bool then do* take ;; do* leave ;; ret (TTable [])
          else parse_inline_table fuel [] (new_node InlineTable)
        else parse_scalar
  end
with parse_array (fuel : nat) (values : list TValue) : TM TValue :=
  match fuel with
  | O => out_of_fuel
  | S fuel =>
    let* value := parse_value fuel in
    let values := values ++ [value] in
    do* consume_trivia ;;
    let* done := gets eof in
    if done : bool then fail UnexpectedEnd
    else
      let* b := gets peek0 in
      if b =? 0x5d then do* take ;; do* leave ;; ret (TArray values)
      else if negb (b =? 0x2c) then fail ExpectedCommaOrEnd
      else
        do* take ;;
        do* consume_trivia ;;
        let* closed := gets (closes 0x5d) in
        if closed : bool then do* take ;; do* leave ;; ret (TArray values)
        else parse_array fuel values
  end
with parse_inline_table (fuel : nat) (table : Table) (definition : DefinitionNode) : TM TValue :=
  match fuel with
  | O => out_of_fuel
  | S fuel =>
    let* path := parse_key_path in
    do* consume_trivia ;;
    let* missing := gets (fun p => eof p || negb (peek0 p =? 0x3d)) in
    if missing : bool then fail ExpectedEquals
    else
      do* take ;;
      do* consume_trivia ;;
      let* value := parse_value fuel in
      let* inserted := located (insert_path table definition path value) in
      let '(table, definition) := inserted in
      do* consume_trivia ;;
      let* done := gets eof in
      if done : bool then fail UnexpectedEnd
      else
        let* b := gets peek0 in
        if b =? 0x7d then do* take ;; do* leave ;; ret (TTable table)
        else if negb (b =? 0x2c) then fail ExpectedCommaOrEnd
        else
          do* take ;;
          do* consume_trivia ;;
          let* closed := gets (closes 0x7d) in
          if closed : bool then do* take ;; do* leave ;; ret (TTable table)
          else parse_inline_table fuel table definition
  end.

Definition value_fuel (p : TomlParser) : nat := (2 * left_bytes p + 2)%nat.

Definition value : TM TValue := let* fuel := gets value_fuel in parse_value fuel.
End Values.

(** ** Statements *)

Section Statements.
Context `{DecimalConversion}.

Definition parse_assignment : TM unit :=
  let* path := parse_key_path in
  do* consume_horizontal ;;
  let* missing := gets (fun p => eof p || negb (peek0 p =? 0x3d)) in
  if missing : bool then fail ExpectedEquals
  else
    do* take ;;
    do* consume_horizontal ;;
    let* v := value in
    let* p := gets (fun p => p) in
    let current_path := current_path_ p in
    match resolve_table (root_ p) current_path with
    | None => fail TableRedefinition
    | Some root =>
      match resolve_definition (definitions_ p) current_path ImplicitTable false with
      | None => fail TableRedefinition
      | Some definitions =>
        match table_at root current_path, node_at definitions current_path with
        | Some current, Some current_definition =>
          let* inserted := located (insert_path current current_definition path v) in
          let '(table, definition) := inserted in
          do* modify (with_document (set_table root current_path table)
                        (set_node definitions current_path definition)) ;;
          finish_line
        | _, _ => panic
        end
      end
    end.

(** What a header does to the two parents it names. *)
Definition apply_header (array : bool) (key : list Z) (parent : Table) (definition_parent : DefinitionNode)
    : outcome TomlErrorCode (Table * DefinitionNode) :=
  let existing := map_get key parent in
  let put n := with_children (snd (map_insert key n (children definition_parent))) definition_parent in
  match map_get key (children definition_parent) with
  | None =>
    if array then
      Ret (snd (map_insert key (TArray [TTable []]) parent),
           put (MkNode ArrayOfTables [] [new_node ExplicitTable]))
    else Ret (snd (map_insert key (TTable []) parent), put (new_node ExplicitTable))
  | Some node =>
    if array then
      match node_kind node, existing with
      | ArrayOfTables, Some (TArray vs) =>
        Ret (snd (map_insert key (TArray (vs ++ [TTable []])) parent),
             put (with_items (array_items node ++ [new_node ExplicitTable]) node))
      | _, _ => Fail TableRedefinition
      end
    else
      match node_kind node, existing with
      | ImplicitTable, Some (TTable _) =>
        Ret (parent, put (MkNode ExplicitTable (children node) (array_items node)))
      | ExplicitTable, _ => Fail DuplicateTable
      | _, _ => Fail TableRedefinition
      end
  end.

Definition parse_header : TM unit :=
  do* take ;;
  let* array := gets (closes 0x5b) in
  do* (if array : bool then do* take ;; ret tt else ret tt) ;;
  do* consume_horizontal ;;
  let* path := parse_key_path in
  do* consume_horizontal ;;
  let* closed := gets (closes 0x5d) in
  if negb closed then fail UnexpectedCharacter
  else
    do* take ;;
    let* closed := (if array then gets (closes 0x5d) else ret true) in
    if negb closed then fail UnexpectedCharacter
    else
      do* (if array then do* take ;; ret tt else ret tt) ;;
      let* p := gets (fun p => p) in
      match list.last path with
      | None => panic
      | Some key =>
        let parents := removelast path in
        match resolve_definition (definitions_ p) parents ImplicitTable true with
        | None => fail TableRedefinition
        | Some definitions =>
          match resolve_table (root_ p) parents with
          | None => fail TableRedefinition
          | Some root =>
            match table_at root parents, node_at definitions parents with
            | Some parent, Some definition_parent =>
              let* applied := located (apply_header array key parent definition_parent) in
              let '(parent, definition_parent) := applied in
              do* modify (with_document (set_table root parents parent)
                            (set_node definitions parents definition_parent)) ;;
              do* modify (with_path path) ;;
              finish_line
            | _, _ => panic
            end
          end
        end
      end.

(** ** Entry points *)

(** One round of the loop in [parse]. *)
Definition statement : TM unit :=
  let* b := gets peek0 in
  do* (if b =? 0x5b then parse_header else parse_assignment) ;;
  consume_trivia.

(** Every statement consumes at least its first byte. *)
Fixpoint document_loop (fuel : nat) : TM unit :=
  match fuel with
  | O => out_of_fuel
  | S fuel =>
    let* done := gets eof in
    if done : bool then ret tt
    else do* statement ;; document_loop fuel
  end.

Definition check_input : TM unit :=
  let* too_long := gets (fun p => max_input_bytes_ p <? Z.of_nat (len (cursor_ p))) in
  if too_long : bool then fail ResourceLimitExceeded else ret tt.

Definition check_depth : TM unit :=
  let* depth := gets remaining_depth_ in
  if depth =? 0 then fail TomlRecursionLimitExceeded else ret tt.

Definition parse : TM TValue :=
  do* check_depth ;;
  do* check_input ;;
  do* consume_trivia ;;
  let* fuel := gets (fun p => S (left_bytes p)) in
  do* document_loop fuel ;;
  let* root := gets root_ in
  ret (TTable root).

(** The input must end here. *)
Definition at_end : TM unit :=
  let* done := gets eof in
  if negb done then fail ExpectedLineEnd else ret tt.

Definition parse_standalone_key : TM KeyPath :=
  do* check_input ;;
  do* consume_horizontal ;;
  let* key := parse_key_path in
  do* consume_horizontal ;;
  do* at_end ;;
  ret key.

Definition parse_standalone_value : TM TValue :=
  do* check_depth ;;
  do* check_input ;;
  do* consume_horizontal ;;
  let* v := value in
  do* consume_horizontal ;;
  do* at_end ;;
  ret v.

(** The key and the equals sign of an assignment. *)
Definition assignment_key : TM KeyPath :=
  do* consume_horizontal ;;
  let* key := parse_key_path in
  do* consume_horizontal ;;
  let* missing := gets (fun p => eof p || negb (peek0 p =? 0x3d)) in
  if missing : bool then fail ExpectedEquals
  else do* take ;; do* consume_horizontal ;; ret key.

Definition parse_standalone_assignment : TM (KeyPath * TValue) :=
  do* check_depth ;;
  do* check_input ;;
  let* key := assignment_key in
  let* v := value in
  do* consume_horizontal ;;
  do* at_end ;;
  ret (key, v).

Definition parse_standalone_assignment_text : TM (KeyPath * list Z) :=
  do* check_input ;;
  let* key := assignment_key in
  let* b := gets (fun p => position_ (cursor_ p)) in
  let* all := gets (fun p => input (cursor_ p)) in
  let e := trim_span (length all) all b (length all) in
  if (b =? e)%nat then fail ExpectedValue
  else let* text := text_of (MkSpan b e) in ret (key, text).

Definition run {A} (m : TM A) (text : list Z) (options : TomlOptions) : outcome TomlError A :=
  fst (m (parser_new text options)).

Definition toml_from_str (text : list Z) (options : TomlOptions) : outcome TomlError TValue :=
  run parse text options.

Definition invalid_utf8_error : TomlError := MkTomlError InvalidUtf8 1 1 0.

Definition toml_from_slice (bytes : list Z) (options : TomlOptions) : outcome TomlError TValue :=
  match from_utf8 bytes with
  | Err _ => Fail invalid_utf8_error
  | Ok text => toml_from_str text options
  end.

Definition toml_parse_key_path (text : list Z) : outcome TomlError KeyPath :=
  run parse_standalone_key text toml_default_options.
Definition toml_parse_value (text : list Z) : outcome TomlError TValue :=
  run parse_standalone_value text toml_default_options.
Definition toml_parse_assignment (text : list Z) : outcome TomlError (KeyPath * TValue) :=
  run parse_standalone_assignment text toml_default_options.
Definition toml_parse_assignment_text (text : list Z) : outcome TomlError (KeyPath * list Z) :=
  run parse_standalone_assignment_text text toml_default_options.
End Statements.
