(* ===== verification/TomlTokens.v ===== *)
(** * The TOML parser's strings and keys

    Every string a parser builds byte by byte is text, although the loop that
    builds it stops between the bytes of a character: this is what the source
    relies on in [String::from_utf8_unchecked]. *)

From Stdlib Require Import ZArith Lia ZifyBool.
From S2P Require Import Prelude Int Utf8 Str Cursor OrdMap FloatSpec Toml TomlScalar TomlParser.
Local Open Scope Z_scope.
Local Open Scope rstd_scope.

(** ** Reasoning about the TOML parser

    A weakest-precondition predicate for the parser's monad that excludes
    panics and exhausted fuel and fixes where an error points, and the
    specification of every scanning operation of [TomlParser]. *)

Definition rest (p : TomlParser) : list Z := remaining_input (cursor_ p).
Definition depth (p : TomlParser) : Z := remaining_depth_ p.

(** The parser [n] bytes further on, with [u] values fewer and depth [d]. *)
Definition after (n : nat) (u d : Z) (p : TomlParser) : TomlParser :=
  MkParser (adv n (cursor_ p)) d (max_input_bytes_ p) (remaining_values_ p - u) (root_ p) (definitions_ p)
    (current_path_ p).

Definition goes (n : nat) (u d : Z) (p p' : TomlParser) : Prop :=
  (n <= left_bytes p)%nat /\ p' = after n u d p.

(** Reading [n] bytes. *)
Definition moves (n : nat) (p p' : TomlParser) : Prop := goes n 0 (depth p) p p'.

Lemma toml_rest_length p : length (rest p) = left_bytes p.
Proof. apply remaining_length. Qed.

Lemma moves_0 p : moves 0 p p.
Proof.
  split; [lia|]. unfold after, depth. rewrite adv_0, Z.sub_0_r. by destruct p.
Qed.

Lemma left_after n u d p : left_bytes (after n u d p) = (left_bytes p - n)%nat.
Proof. unfold left_bytes, remaining. cbn. unfold len, input. cbn. lia. Qed.

Lemma toml_goes_left n u d p p' : goes n u d p p' -> (left_bytes p = n + left_bytes p')%nat.
Proof. intros [Hn ->]. rewrite left_after. lia. Qed.

Lemma goes_trans n u d m w e p p1 p2 :
  goes n u d p p1 -> goes m w e p1 p2 -> goes (n + m) (u + w) e p p2.
Proof.
  intros H1 [Hm E2]. pose proof (toml_goes_left _ _ _ _ _ H1) as Hl. destruct H1 as [Hn E1].
  split; [lia|]. subst. unfold after. cbn -[Z.sub]. f_equal; [|lia].
  unfold left_bytes, remaining in *. destruct (decide (n + m = 0)%nat) as [E|E].
  - assert (n = 0 /\ m = 0)%nat as [-> ->] by lia. cbn [Nat.add]. by rewrite !adv_0.
  - apply adv_adv. lia.
Qed.

Lemma toml_goes_depth n u d p p' : goes n u d p p' -> depth p' = d.
Proof. by intros [_ ->]. Qed.

Lemma moves_depth n p p' : moves n p p' -> depth p' = depth p.
Proof. apply toml_goes_depth. Qed.

Lemma moves_goes n m u d p p1 p2 : moves n p p1 -> goes m u d p1 p2 -> goes (n + m) u d p p2.
Proof. intros H1 H2. exact (goes_trans _ _ _ _ _ _ _ _ _ H1 H2). Qed.

Lemma moves_trans n m p p1 p2 : moves n p p1 -> moves m p1 p2 -> moves (n + m) p p2.
Proof.
  intros H1 H2. unfold moves in *. rewrite (toml_goes_depth _ _ _ _ _ H1) in H2. by eapply moves_goes.
Qed.

Lemma goes_moves n m u d p p1 p2 : goes n u d p p1 -> moves m p1 p2 -> goes (n + m) u d p p2.
Proof.
  intros H1 H2. unfold moves in H2. rewrite (toml_goes_depth _ _ _ _ _ H1) in H2.
  replace u with (u + 0) by lia. by eapply goes_trans.
Qed.

Lemma goes_values n u d p p' : goes n u d p p' -> remaining_values_ p' = remaining_values_ p - u.
Proof. by intros [_ ->]. Qed.

Lemma rest_goes n u d p p' : goes n u d p p' -> rest p' = drop n (rest p).
Proof. intros [_ ->]. unfold rest, after. cbn. apply remaining_input_adv. Qed.

Create HintDb toml discriminated.

(** The text the parser was made with. *)
Class Text (text : list Z) : Prop := text_is_text : is_text text.

Section Run.
Context {text : list Z} {Htext : Text text}.

(** ** States *)

(** The cursor stands somewhere in the text. *)
Definition ok0 (p : TomlParser) : Prop :=
  input_ (cursor_ p) = text_input text /\ tracking_ (cursor_ p) = None /\ in_bounds (cursor_ p).

(** It stands between characters. *)
Definition ok (p : TomlParser) : Prop := ok0 p /\ is_text (rest p).

Lemma ok_ok0 p : ok p -> ok0 p.
Proof. by intros [? _]. Qed.

Lemma ok0_goes n u d p p' : ok0 p -> goes n u d p p' -> ok0 p'.
Proof.
  intros (Hi & Ht & Hb) [Hn ->]. unfold ok0, after. cbn. rewrite Ht. split_and!; try done.
  unfold in_bounds, left_bytes, remaining in *. cbn. unfold len, input in *. cbn. lia.
Qed.

Lemma ok0_moves n p p' : ok0 p -> moves n p p' -> ok0 p'.
Proof. apply ok0_goes. Qed.

Lemma ok0_with_values v p : ok0 p -> ok0 (with_values v p).
Proof. done. Qed.

Lemma ok0_rest p : ok0 p -> text = list.take (position_ (cursor_ p)) text ++ rest p.
Proof.
  intros (Hi & _). unfold rest, remaining_input, input. rewrite Hi. cbn. by rewrite take_drop.
Qed.

(** In front of an ASCII character, and at the end, the cursor is between
    characters. *)
Lemma ok_ascii p v l : ok0 p -> rest p = v :: l -> 0 <= v < 128 -> ok p /\ is_text l.
Proof.
  intros Hp E Hv. pose proof (ok0_rest p Hp) as Et. rewrite E in Et. pose proof Htext as H. unfold Text in H. rewrite Et in H.
  apply text_ascii_split in H as (_ & ? & ?); [|done]. split; [|done]. split; [done|]. by rewrite E.
Qed.

Lemma ok_end p : ok0 p -> rest p = [] -> ok p.
Proof. intros Hp E. split; [done|]. rewrite E. apply is_text_nil. Qed.

Lemma text_byte p n v : ok0 p -> rest p !! n = Some v -> 0 <= v < 256.
Proof.
  intros Hp E. pose proof (is_text_bytes_ok _ Htext) as Hb. rewrite (ok0_rest p Hp) in Hb.
  apply bytes_ok_app in Hb as [_ Hb]. exact (Forall_lookup_1 _ _ _ _ Hb E).
Qed.

(** ** Observations *)

Lemma toml_eof_cases p : ok0 p -> (eof p = true /\ rest p = []) \/ (eof p = false /\ exists v l, rest p = v :: l).
Proof.
  intros (_ & _ & Hb). pose proof (toml_rest_length p) as Hl. unfold eof, is_eof, in_bounds in *.
  unfold left_bytes, remaining in Hl. destruct (rest p) as [|v l]; cbn in Hl.
  - left. split; [apply Nat.eqb_eq; lia | done].
  - right. split; [apply Nat.eqb_neq; lia | eauto].
Qed.

Lemma toml_eof_false p v l : rest p = v :: l -> eof p = false.
Proof.
  intros E. pose proof (toml_rest_length p) as Hl. rewrite E in Hl. unfold left_bytes, remaining in Hl. cbn in Hl.
  unfold eof, is_eof. apply Nat.eqb_neq. lia.
Qed.

Lemma toml_peek_at_rest n p : peek_at n p = default 0 (rest p !! n).
Proof.
  unfold peek_at, peek, rest, remaining_input. rewrite lookup_drop.
  destruct (remaining (cursor_ p) <=? n)%nat eqn:E; [|done]. apply Nat.leb_le in E.
  unfold remaining in E. rewrite lookup_ge_None_2; [done|]. unfold len in E. lia.
Qed.

Lemma toml_peek_rest p v l : rest p = v :: l -> peek0 p = v.
Proof. intros E. unfold peek0. by rewrite toml_peek_at_rest, E. Qed.

Lemma peek_cons p v : peek0 p = v -> v <> 0 -> exists l, rest p = v :: l.
Proof.
  unfold peek0. rewrite toml_peek_at_rest. destruct (rest p) as [|w l]; cbn; [congruence|].
  intros -> _. eauto.
Qed.

Lemma at_crlf_rest p : at_crlf p = true -> exists l, rest p = 0x0d :: 0x0a :: l.
Proof.
  unfold at_crlf, peek0. rewrite !toml_peek_at_rest. intros [H1 H2]%andb_true_iff.
  destruct (rest p) as [|a [|b l]]; cbn in *; try lia. exists l. repeat f_equal; lia.
Qed.

(** ** Weakest preconditions *)

(** The error points into the text. *)
Definition error_ok (e : TomlError) : Prop :=
  (toffset_ e <= length text)%nat /\
  MkPosition (tline_ e) (tcolumn_ e) = untracked_position text (toffset_ e).

Definition wp {A} (m : TM A) (p : TomlParser) (Q : A -> TomlParser -> Prop) : Prop :=
  match m p with
  | (Ret a, p') => Q a p'
  | (Fail e, _) => error_ok e
  | (Panic, _) => False
  | (OutOfFuel, _) => False
  end.

Lemma toml_wp_bind {A B} (m : TM A) (k : A -> TM B) p Q :
  wp m p (fun a p' => wp (k a) p' Q) -> wp (bind m k) p Q.
Proof. unfold wp, bind. by destruct (m p) as [[]?]. Qed.

Lemma toml_wp_ret {A} (a : A) p (Q : A -> TomlParser -> Prop) : Q a p -> wp (ret a) p Q.
Proof. done. Qed.

Lemma toml_wp_gets {A B} (f : TomlParser -> A) (k : A -> TM B) p Q :
  wp (k (f p)) p Q -> wp (bind (gets f) k) p Q.
Proof. done. Qed.

Lemma toml_wp_option {A B} (o : option A) a (k : A -> TM B) p Q :
  o = Some a -> wp (k a) p Q -> wp (bind (of_option o) k) p Q.
Proof. by intros ->. Qed.

Lemma toml_wp_conseq {A} (m : TM A) p (Q Q' : A -> TomlParser -> Prop) :
  wp m p Q -> (forall a p', Q a p' -> Q' a p') -> wp m p Q'.
Proof. unfold wp. destruct (m p) as [[]?]; auto. Qed.

Lemma toml_wp_call {A B} (m : TM A) (k : A -> TM B) p (Q : A -> TomlParser -> Prop) Q' :
  wp m p Q -> (forall a p', Q a p' -> wp (k a) p' Q') -> wp (bind m k) p Q'.
Proof. intros Hm Hk. apply toml_wp_bind. by eapply toml_wp_conseq. Qed.

Lemma wp_fail {A} code p (Q : A -> TomlParser -> Prop) : ok0 p -> wp (fail code) p Q.
Proof.
  intros (Hi & Ht & Hb). unfold wp, fail, source_position, source_position_at. rewrite Ht.
  unfold in_bounds in Hb. replace (_ <? _)%nat with false by (symmetry; apply Nat.ltb_ge; lia).
  unfold len, input in *. rewrite Hi in *. cbn in *. split; cbn; [done|].
  fold (untracked_position text (position_ (cursor_ p))). by destruct (untracked_position text (position_ (cursor_ p))).
Qed.

Lemma wp_located {A} (m : outcome TomlErrorCode A) p Q :
  ok0 p -> ends m (fun a => Q a p) (fun _ => True) -> wp (located m) p Q.
Proof. intros Hp. destruct m; cbn; try done. intros _. by apply wp_fail. Qed.

Lemma take_moves p v l : rest p = v :: l -> take p = (Ret v, after 1 0 (depth p) p) /\ moves 1 p (after 1 0 (depth p) p).
Proof.
  intros E. pose proof (toml_rest_length p) as Hl. rewrite E in Hl. cbn in Hl. split; [|split; [lia | done]].
  unfold take, bind, on_cursor. destruct (take_unit_cons (cursor_ p) v l E) as (-> & _ & _).
  cbn. unfold ret, after, with_cursor, depth. do 2 f_equal. lia.
Qed.

Lemma toml_wp_take {B} (k : Z -> TM B) p v l Q :
  rest p = v :: l -> (forall p', moves 1 p p' -> rest p' = l -> wp (k v) p' Q) -> wp (bind take k) p Q.
Proof.
  intros E Hk. apply toml_wp_bind. unfold wp at 1. destruct (take_moves p v l E) as [-> Hm].
  apply Hk; [done|]. by rewrite (rest_goes _ _ _ _ _ Hm), E.
Qed.

(** A run of the bytes that satisfy a predicate. *)
Definition run_ends (test : Z -> bool) (s : list Z) : Prop :=
  match s with [] => True | v :: _ => test v = false end.

Lemma wp_skip {B} test (k : nat -> TM B) p Q :
  (forall n p', moves n p p' -> Forall (fun v => test v = true) (list.take n (rest p)) ->
     run_ends test (rest p') -> wp (k n) p' Q) ->
  wp (bind (on_cursor (skip_while test)) k) p Q.
Proof.
  intros Hk. destruct (consume_while_adv test (cursor_ p)) as (n & Hn & Hall & Hstop & _ & E).
  apply toml_wp_bind. unfold wp at 1, on_cursor. rewrite E.
  assert (moves n p (with_cursor (adv n (cursor_ p)) p)) as Hm.
  { split; [done|]. unfold after, with_cursor, depth. f_equal. lia. }
  apply Hk; [done | done |]. rewrite (rest_goes _ _ _ _ _ Hm). unfold run_ends.
  destruct (drop n (rest p)) as [|v l] eqn:Ed; [done|]. apply Hstop.
  unfold rest in Ed. by rewrite Ed.
Qed.

Lemma wp_consume {B} test (k : Span -> TM B) p Q :
  (forall n p', moves n p p' -> Forall (fun v => test v = true) (list.take n (rest p)) ->
     run_ends test (rest p') -> wp (k (MkSpan (position_ (cursor_ p)) (position_ (cursor_ p) + n))) p' Q) ->
  wp (bind (on_cursor (consume_while test)) k) p Q.
Proof.
  intros Hk. destruct (consume_while_adv test (cursor_ p)) as (n & Hn & Hall & Hstop & E & _).
  apply toml_wp_bind. unfold wp at 1, on_cursor. rewrite E.
  assert (moves n p (with_cursor (adv n (cursor_ p)) p)) as Hm.
  { split; [done|]. unfold after, with_cursor, depth. f_equal. lia. }
  apply Hk; [done | done |]. rewrite (rest_goes _ _ _ _ _ Hm). unfold run_ends.
  destruct (drop n (rest p)) as [|v l] eqn:Ed; [done|]. apply Hstop.
  unfold rest in Ed. by rewrite Ed.
Qed.

Lemma wp_span_from {B} (k : Span -> TM B) p p' n Q :
  moves n p p' -> wp (k (MkSpan (position_ (cursor_ p)) (position_ (cursor_ p) + n))) p' Q ->
  wp (bind (on_cursor (span_from (checkpoint (cursor_ p)))) k) p' Q.
Proof.
  intros [_ ->] Hk. apply toml_wp_bind. unfold wp at 1, on_cursor, after at 1. cbn [cursor_].
  rewrite span_from_adv. by unfold after, with_cursor in *.
Qed.

#[local] Hint Resolve ok_ok0 ok0_goes ok0_moves : toml.

Lemma ok_text n u d p p' : ok p -> goes n u d p p' -> is_text (list.take n (rest p)) -> ok p'.
Proof.
  intros [Hp Ht] Hm Hn. split; [eauto with toml|]. rewrite (rest_goes _ _ _ _ _ Hm).
  apply (is_text_app_inv (list.take n (rest p))); [done|]. by rewrite take_drop.
Qed.

Lemma ok_step p p' v l : ok0 p -> rest p = v :: l -> 0 <= v < 128 -> moves 1 p p' -> ok p'.
Proof.
  intros Hp E Hv Hm. destruct (ok_ascii p v l Hp E Hv) as [_ Hl]. split; [eauto with toml|].
  by rewrite (rest_goes _ _ _ _ _ Hm), E.
Qed.

Lemma ok_run test n p p' :
  (forall v, test v = true -> 0 <= v < 128) -> ok p -> moves n p p' ->
  Forall (fun v => test v = true) (list.take n (rest p)) -> ok p'.
Proof.
  intros Ha Hp Hm Hall. eapply ok_text; [done..|]. apply text_ascii. revert Hall. apply Forall_impl. auto.
Qed.

(** ** Comments and line ends *)

(** Only the cursor has moved, and stands between characters. *)
Definition skipped (k : nat) (p p' : TomlParser) : Prop :=
  exists n, (k <= n)%nat /\ moves n p p' /\ ok p'.

Lemma skipped_0 p : ok p -> skipped 0 p p.
Proof. intros Hp. exists 0%nat. split_and!; [done | apply moves_0 | done]. Qed.

Lemma skipped_ok k p p' : skipped k p p' -> ok p'.
Proof. by intros (? & _ & _ & ?). Qed.

Lemma skipped_trans k m p p1 p2 : skipped k p p1 -> skipped m p1 p2 -> skipped (k + m) p p2.
Proof.
  intros (n1 & ? & H1 & _) (n2 & ? & H2 & ?). exists (n1 + n2)%nat. split_and!; [lia | by eapply moves_trans | done].
Qed.

Lemma skipped_weaken k m p p' : (m <= k)%nat -> skipped k p p' -> skipped m p p'.
Proof. intros ? (n & ? & ? & ?). exists n. split_and!; [lia | done..]. Qed.

Lemma skipped_left k p p' : skipped k p p' -> (k + left_bytes p' <= left_bytes p)%nat.
Proof. intros (n & ? & H & _). pose proof (toml_goes_left _ _ _ _ _ H). lia. Qed.

Lemma skipped_step p p' v l : ok0 p -> rest p = v :: l -> 0 <= v < 128 -> moves 1 p p' -> skipped 1 p p'.
Proof. intros. exists 1%nat. split_and!; [done | done |]. by eapply ok_step. Qed.

#[local] Hint Resolve skipped_0 skipped_ok : toml.

Lemma is_horizontal_ascii v : is_horizontal v = true -> 0 <= v < 128.
Proof. unfold is_horizontal. lia. Qed.

Lemma consume_horizontal_wp p :
  ok p -> wp consume_horizontal p (fun _ p' => skipped 0 p p' /\ run_ends is_horizontal (rest p')).
Proof.
  intros Hp. apply wp_skip. intros n p' Hm Hall Hend. apply toml_wp_ret. split; [|done].
  exists n. split_and!; [lia | done |]. eapply ok_run; [apply is_horizontal_ascii | done..].
Qed.

Lemma comment_loop_wp fuel p :
  ok0 p -> (left_bytes p < fuel)%nat -> wp (comment_loop fuel) p (fun _ p' => skipped 0 p p').
Proof.
  revert p. induction fuel as [|fuel IH]; intros p Hp Hf; [lia|]. cbn [comment_loop]. apply toml_wp_gets.
  destruct (toml_eof_cases p Hp) as [[-> E]|[-> (v & l & E)]]; cbn [orb].
  { apply toml_wp_ret, skipped_0, ok_end; done. }
  rewrite (toml_peek_rest _ _ _ E). destruct (v =? 0x0a) eqn:Ev; cbn [orb].
  { apply toml_wp_ret, skipped_0, (ok_ascii p v l); [done | done | lia]. }
  destruct (at_crlf p) eqn:Ec.
  { apply at_crlf_rest in Ec as [l' E']. apply toml_wp_ret, skipped_0, (ok_ascii p _ _ Hp E'). lia. }
  apply toml_wp_gets. rewrite (toml_peek_rest _ _ _ E). case_if; [by apply wp_fail|].
  eapply toml_wp_take; [exact E|]. intros p1 H1 E1. pose proof (toml_goes_left _ _ _ _ _ H1).
  eapply toml_wp_conseq; [apply IH; [eauto with toml | lia]|].
  intros _ p2 (n & _ & H2 & Hok). exists (1 + n)%nat. split_and!; [lia | by eapply moves_trans | done].
Qed.

Lemma consume_comment_wp p : ok p -> wp consume_comment p (fun _ p' => skipped 0 p p').
Proof.
  intros Hp. unfold consume_comment. apply toml_wp_gets. case_if; [by apply toml_wp_ret; auto with toml|].
  apply toml_wp_gets. apply comment_loop_wp; [auto with toml | lia].
Qed.

(** A line end is consumed with what precedes it. *)
Lemma wp_lf {B} (k : Z -> TM B) p0 p Q :
  skipped 0 p0 p -> peek0 p = 0x0a -> (forall p', skipped 1 p0 p' -> wp (k 0x0a) p' Q) -> wp (bind take k) p Q.
Proof.
  intros Hs E Hk. apply peek_cons in E as [l E]; [|done]. eapply toml_wp_take; [exact E|]. intros p' Hm _.
  apply Hk. apply (skipped_trans 0 1 p0 p); [done|]. eapply skipped_step; [eauto with toml | done | lia | done].
Qed.

Lemma wp_crlf {B} (k : Z -> TM B) p0 p Q :
  skipped 0 p0 p -> at_crlf p = true -> (forall p', skipped 1 p0 p' -> wp (k 0x0a) p' Q) ->
  wp (bind take (fun _ => bind take k)) p Q.
Proof.
  intros Hs E Hk. apply at_crlf_rest in E as [l E].
  eapply toml_wp_take; [exact E|]. intros p1 Hm1 E1. eapply toml_wp_take; [exact E1|]. intros p' Hm _.
  apply Hk. assert (skipped 1 p p1) as H1 by (eapply skipped_step; [eauto with toml | done | lia | done]).
  assert (skipped 1 p1 p') as H2 by (eapply skipped_step; [eauto with toml | done | lia | done]).
  apply (skipped_weaken 2); [lia|]. apply (skipped_trans 0 2 p0 p); [done|]. by apply (skipped_trans 1 1 p p1).
Qed.

Lemma trivia_loop_wp fuel p :
  ok p -> (left_bytes p < fuel)%nat -> wp (trivia_loop fuel) p (fun _ p' => skipped 0 p p').
Proof.
  revert p. induction fuel as [|fuel IH]; intros p Hp Hf; [lia|]. cbn [trivia_loop].
  eapply toml_wp_call; [by apply consume_horizontal_wp|]. cbn beta. intros _ p1 [H1 _].
  eapply toml_wp_call; [apply consume_comment_wp; eauto with toml|]. cbn beta. intros _ p2 H2.
  pose proof (skipped_trans 0 0 _ _ _ H1 H2) as H. cbn in H. clear H1 H2 p1.
  assert (forall p', skipped 1 p p' -> wp (trivia_loop fuel) p' (fun _ p'' => skipped 0 p p'')) as Hloop.
  { intros p' H'. pose proof (skipped_left _ _ _ H'). eapply toml_wp_conseq; [apply IH; [eauto with toml | lia]|].
    cbn beta. intros _ p'' H''. apply (skipped_weaken 1); [lia|]. by apply (skipped_trans 1 0 p p'). }
  apply toml_wp_gets. case_if; [by apply toml_wp_ret|]. apply toml_wp_gets. case_if.
  { eapply wp_lf; [exact H | lia | done]. }
  apply toml_wp_gets. case_if; [|by apply toml_wp_ret]. by eapply wp_crlf.
Qed.

Lemma consume_trivia_wp p : ok p -> wp consume_trivia p (fun _ p' => skipped 0 p p').
Proof. intros Hp. apply toml_wp_gets. apply trivia_loop_wp; [done | lia]. Qed.

Lemma finish_line_wp p : ok p -> wp finish_line p (fun _ p' => skipped 0 p p').
Proof.
  intros Hp. unfold finish_line.
  eapply toml_wp_call; [by apply consume_horizontal_wp|]. cbn beta. intros _ p1 [H1 _].
  eapply toml_wp_call; [apply consume_comment_wp; eauto with toml|]. cbn beta. intros _ p2 H2.
  pose proof (skipped_trans 0 0 _ _ _ H1 H2) as H. cbn in H. clear H1 H2 p1.
  apply toml_wp_gets. case_if; [by apply toml_wp_ret|]. apply toml_wp_gets. case_if.
  { eapply wp_lf; [exact H | lia |]. intros p' H'. apply toml_wp_ret. by eapply skipped_weaken; [|exact H']; lia. }
  apply toml_wp_gets. case_if; [|apply wp_fail; eauto with toml].
  eapply wp_crlf; [exact H | done |]. intros p' H'. apply toml_wp_ret. by eapply skipped_weaken; [|exact H']; lia.
Qed.
End Run.

Arguments ok0 : clear implicits.
Arguments ok : clear implicits.
Arguments error_ok : clear implicits.
Arguments skipped : clear implicits.
Arguments wp text {A} m p Q.

#[export] Hint Resolve ok_ok0 ok0_goes ok0_moves skipped_0 skipped_ok : toml.

(** What follows a position is text exactly when the position is a boundary. *)
Lemma text_rest_boundary s n :
  is_text s -> (n <= length s)%nat -> is_text (drop n s) -> is_char_boundary s n = true.
Proof.
  intros Hs Hn Hr. unfold is_char_boundary.
  destruct (n =? 0)%nat; [done|]. destruct (n =? length s)%nat eqn:E2; [done|]. apply Nat.eqb_neq in E2.
  cbn [orb]. replace (length s <? n)%nat with false by (symmetry; apply Nat.ltb_ge; lia).
  assert (drop n s <> []) as Hne.
  { intros E. apply (f_equal length) in E. rewrite length_drop in E. cbn in E. lia. }
  pose proof (text_head_not_continuation _ Hr Hne) as Hc. rewrite lookup_drop, Nat.add_0_r in Hc. by rewrite Hc.
Qed.

Section Tokens.
Context {text : list Z} {Htext : Text text}.
Abbreviation wp := (wp text).
Abbreviation ok0 := (ok0 text).
Abbreviation ok := (ok text).
Abbreviation skipped := (skipped text).

(** ** Output under construction

    Text that is complete, followed by the bytes read since [start]. *)
Definition pending (output : list Z) (p : TomlParser) : Prop :=
  exists done start n, is_text done /\ ok start /\ moves n start p /\
    output = done ++ list.take n (rest start).

Lemma pending_nil p : ok p -> pending [] p.
Proof. intros Hp. exists [], p, 0%nat. split_and!; [apply is_text_nil | done | apply moves_0 | done]. Qed.

(** In front of an ASCII character, or at the end, the output is text. *)
Lemma pending_text output p : ok p -> pending output p -> is_text output.
Proof.
  intros [Hp Hr] (done & start & n & Hd & [Hs Hst] & Hm & ->). apply is_text_app; [done|].
  rewrite (rest_goes _ _ _ _ _ Hm) in Hr. destruct Hm as [Hn _]. rewrite <- toml_rest_length in Hn.
  pose proof (text_rest_boundary _ _ Hst Hn Hr) as Hb. by apply char_boundary_text in Hb as (_ & ? & _).
Qed.

Lemma pending_done output p : is_text output -> ok p -> pending output p.
Proof.
  intros Ho Hp. exists output, p, 0%nat. split_and!; [done | done | apply moves_0 |]. cbn. by rewrite app_nil_r.
Qed.

Lemma pending_step output p p' v l :
  pending output p -> rest p = v :: l -> moves 1 p p' -> pending (output ++ [v]) p'.
Proof.
  intros (done & start & n & Hd & Hs & Hm & ->) E Hm'. exists done, start, (n + 1)%nat.
  split_and!; [done | done | by eapply moves_trans |]. rewrite <- app_assoc. f_equal.
  rewrite (rest_goes _ _ _ _ _ Hm) in E.
  rewrite Nat.add_1_r. symmetry. apply take_S_r.
  by rewrite <- (Nat.add_0_r n), <- lookup_drop, E.
Qed.

(** What a string parser promises: text, at least [k] bytes later. *)
Definition string_post (k : nat) (p : TomlParser) (s : list Z) (p' : TomlParser) : Prop :=
  is_text s /\ skipped k p p'.

(** What one round of a string loop leaves. *)
Definition round_post (p : TomlParser) (output : list Z) (p' : TomlParser) : Prop :=
  pending output p' /\ ok0 p' /\ exists n, (1 <= n)%nat /\ moves n p p'.

Lemma round_of_text output p p' : is_text output -> skipped 1 p p' -> round_post p output p'.
Proof.
  intros Ho (n & Hn & Hm & Hok). split_and!; [by apply pending_done | eauto with toml | by exists n].
Qed.

(** ** Look-ahead *)

Lemma count_ahead_spec test fuel n p :
  (n + fuel = length (rest p))%nat -> Forall (fun v => test v = true) (list.take n (rest p)) ->
  let m := count_ahead fuel test n p in
  (m <= length (rest p))%nat /\ Forall (fun v => test v = true) (list.take m (rest p)).
Proof.
  revert n. induction fuel as [|fuel IH]; intros n Hn Hall; cbn [count_ahead].
  { split; [lia | done]. }
  destruct (test (peek_at n p)) eqn:E; [|split; [lia | done]].
  apply IH; [lia|]. rewrite toml_peek_at_rest in E.
  destruct (lookup_lt_is_Some_2 (rest p) n) as [v Hv]; [lia|]. rewrite Hv in E. cbn in E.
  rewrite (take_S_r _ _ _ Hv). apply Forall_app. split; [done|]. by constructor.
Qed.

Lemma run_ahead_spec test p :
  let m := run_ahead test p in
  (m <= length (rest p))%nat /\ Forall (fun v => test v = true) (list.take m (rest p)).
Proof. apply count_ahead_spec; [by rewrite toml_rest_length | constructor]. Qed.

Lemma take_n_wp n p : (n <= left_bytes p)%nat -> wp (take_n n) p (fun _ p' => moves n p p').
Proof.
  revert p. induction n as [|n IH]; intros p Hn; cbn [take_n]; [apply toml_wp_ret, moves_0|].
  rewrite <- toml_rest_length in Hn. destruct (rest p) as [|v l] eqn:E; [cbn in Hn; lia|].
  eapply toml_wp_take; [exact E|]. intros p1 H1 E1.
  eapply toml_wp_conseq; [apply IH; rewrite <- toml_rest_length, E1; cbn in Hn; lia|].
  cbn beta. intros _ p2 H2. exact (moves_trans _ _ _ _ _ H1 H2).
Qed.

(** A run of white space is determined by what follows it. *)
Lemma toml_run_unique test ws v l n r :
  r = ws ++ v :: l -> Forall (fun b => test b = true) ws -> test v = false ->
  Forall (fun b => test b = true) (list.take n r) -> run_ends test (drop n r) -> drop n r = v :: l.
Proof.
  intros -> Hws Hv. revert n. induction Hws as [|w ws Hw _ IH]; intros [|n]; cbn; intros Hall Hend; try done.
  - apply Forall_cons_1 in Hall as [? _]. congruence.
  - congruence.
  - apply Forall_cons_1 in Hall as [_ ?]. by apply IH.
Qed.

Lemma at_continuation_spec p :
  at_continuation p = true ->
  exists ws v l, rest p = ws ++ v :: l /\ Forall (fun b => is_horizontal b = true) ws /\
    (v = 0x0a \/ v = 0x0d /\ exists l', l = 0x0a :: l').
Proof.
  unfold at_continuation. destruct (run_ahead_spec is_horizontal p) as [Hn Hall].
  set (n := run_ahead is_horizontal p) in *. rewrite !toml_peek_at_rest. intros Hc.
  exists (list.take n (rest p)).
  destruct (rest p !! n) as [v|] eqn:Ev; cbn in Hc; [|destruct (rest p !! (n + 1)%nat); cbn in Hc; lia].
  exists v, (drop (S n) (rest p)). rewrite take_drop_middle by done. split_and!; [done | done |].
  destruct (v =? 0x0a) eqn:E1; [left; lia|]. cbn in Hc. apply andb_true_iff in Hc as [Hc1 Hc2]. right.
  split; [lia|]. rewrite Nat.add_1_r in Hc2.
  destruct (rest p !! S n) as [w|] eqn:Ew; cbn in Hc2; [|lia].
  exists (drop (S (S n)) (rest p)). rewrite (drop_S _ w) by done. f_equal. lia.
Qed.

(** ** Strings *)

Lemma open_string_wp quote allow p l :
  ok p -> rest p = quote :: l -> 0 < quote < 128 ->
  wp (open_string quote allow) p (fun _ p' => skipped 1 p p').
Proof.
  intros Hp E Hq. unfold open_string. apply toml_wp_gets. rewrite !toml_peek_at_rest, E.
  eapply toml_wp_take; [exact E|]. intros p1 H1 E1.
  assert (skipped 1 p p1) as S1 by (eapply skipped_step; [auto with toml | done | lia | done]).
  case_if; [|by apply toml_wp_ret]. apply andb_true_iff in Heqb as [[_ Ha]%andb_true_iff Hb].
  destruct l as [|a [|b l]]; cbn -[Z.eqb] in Ha, Hb; try lia.
  eapply toml_wp_take; [exact E1|]. intros p2 H2 E2. eapply toml_wp_take; [exact E2|]. intros p3 H3 E3.
  assert (skipped 1 p1 p2) as S2 by (eapply skipped_step; [eauto with toml | done | lia | done]).
  assert (skipped 1 p2 p3) as S3 by (eapply skipped_step; [eauto with toml | done | lia | done]).
  pose proof (skipped_trans _ _ _ _ _ S1 (skipped_trans _ _ _ _ _ S2 S3)) as S. cbn in S.
  assert (forall p', skipped 1 p3 p' -> skipped 1 p p') as Hmore.
  { intros p' S'. apply (skipped_weaken 4); [lia|]. exact (skipped_trans 3 1 _ _ _ S S'). }
  apply toml_wp_gets. case_if.
  { eapply wp_lf; [apply skipped_0; eauto with toml | lia |]. intros p' S'. apply toml_wp_ret. auto. }
  apply toml_wp_gets. case_if.
  - apply andb_true_iff in Heqb1 as [_ Hc].
    eapply wp_crlf; [apply skipped_0; eauto with toml | done |]. intros p' S'. apply toml_wp_ret. auto.
  - apply toml_wp_ret. by eapply skipped_weaken; [|exact S]; lia.
Qed.

Lemma close_string_wp quote multiline output p l :
  ok p -> rest p = quote :: l -> 0 < quote < 128 -> is_text output ->
  wp (close_string quote multiline output) p
    (fun r p' => match r with Some s => is_text s /\ skipped 1 p p' | None => p' = p end).
Proof.
  intros Hp E Hq Ho. unfold close_string. case_if.
  { eapply toml_wp_take; [exact E|]. intros p' H1 _. apply toml_wp_ret. split; [done|].
    eapply skipped_step; [auto with toml | done | lia | done]. }
  apply toml_wp_gets. destruct (run_ahead_spec (fun b => b =? quote) p) as [Hn Hall].
  set (n := run_ahead (fun b => b =? quote) p) in *. case_if; [apply wp_fail; auto with toml|].
  case_if; [|by apply toml_wp_ret]. apply Nat.leb_le in Heqb1.
  eapply toml_wp_call; [apply take_n_wp; by rewrite <- toml_rest_length|]. cbn beta. intros _ p' Hm. apply toml_wp_ret. split.
  - apply is_text_app; [done|]. apply text_ascii, Forall_replicate. lia.
  - exists n. split_and!; [lia | done |]. apply (ok_run (fun b => b =? quote) n p p'); [lia | done | done | exact Hall].
Qed.

Lemma skip_lines_wp fuel p :
  ok p -> (left_bytes p < fuel)%nat -> wp (skip_lines fuel) p (fun _ p' => skipped 0 p p').
Proof.
  revert p. induction fuel as [|fuel IH]; intros p Hp Hf; [lia|]. cbn [skip_lines].
  eapply toml_wp_call; [by apply consume_horizontal_wp|]. cbn beta. intros _ p1 [H1 _].
  assert (forall p', skipped 1 p p' -> wp (skip_lines fuel) p' (fun _ p'' => skipped 0 p p'')) as Hloop.
  { intros p' H'. pose proof (skipped_left _ _ _ H'). eapply toml_wp_conseq; [apply IH; [eauto with toml | lia]|].
    cbn beta. intros _ p'' H''. apply (skipped_weaken 1); [lia|]. by apply (skipped_trans 1 0 p p'). }
  apply toml_wp_gets. case_if; [eapply wp_lf; [exact H1 | lia | done]|].
  apply toml_wp_gets. case_if; [|by apply toml_wp_ret]. apply andb_true_iff in Heqb0 as [_ Hc]. by eapply wp_crlf.
Qed.

Lemma continuation_wp p :
  ok p -> at_continuation p = true -> wp continuation p (fun _ p' => skipped 1 p p').
Proof.
  intros Hp Hc. apply at_continuation_spec in Hc as (ws & v & l & E & Hws & Hv). unfold continuation, consume_horizontal.
  apply toml_wp_bind, wp_skip. intros n p1 H1 Hall Hend. apply toml_wp_ret.
  assert (rest p1 = v :: l) as E1.
  { rewrite (rest_goes _ _ _ _ _ H1) in *. eapply (toml_run_unique is_horizontal ws); [done | done | | done | done].
    unfold is_horizontal. lia. }
  assert (skipped 0 p p1) as S1.
  { exists n. split_and!; [lia | done |]. eapply ok_run; [apply is_horizontal_ascii | done..]. }
  assert (forall p', skipped 1 p p' ->
    wp (bind (gets (fun p => S (left_bytes p))) skip_lines) p' (fun _ p'' => skipped 1 p p'')) as Hrest.
  { intros p' S'. apply toml_wp_gets. eapply toml_wp_conseq; [apply skip_lines_wp; [eauto with toml | lia]|].
    cbn beta. intros _ p'' S''. exact (skipped_trans 1 0 _ _ _ S' S''). }
  apply toml_wp_gets. rewrite (toml_peek_rest _ _ _ E1). destruct Hv as [-> | [-> [l' ->]]]; cbn [Z.eqb].
  - apply toml_wp_bind, toml_wp_ret. eapply wp_lf; [exact S1 | by eapply toml_peek_rest | done].
  - apply toml_wp_bind. eapply toml_wp_take; [exact E1|]. intros p2 H2 E2.
    assert (skipped 1 p1 p2) as S2 by (eapply skipped_step; [eauto with toml | done | lia | done]).
    apply toml_wp_gets. rewrite (toml_peek_rest _ _ _ E2), (toml_eof_false _ _ _ E2). cbn [orb negb Z.eqb Pos.eqb]. apply toml_wp_ret.
    pose proof (skipped_trans 0 1 _ _ _ S1 S2) as S. eapply wp_lf; [|by eapply toml_peek_rest | done].
    by eapply skipped_weaken; [|exact S]; lia.
Qed.

Lemma push_scalar_wp output c p (Q : list Z -> TomlParser -> Prop) :
  0 <= c -> is_scalar c = true -> Q (output ++ encode_utf8 c) p -> wp (push_scalar output c) p Q.
Proof.
  intros Hc Hs HQ. unfold push_scalar. pose proof (seq_nonempty _ _ (encode_seq c Hc Hs)).
  destruct (encode_utf8 c) eqn:E; [cbn in *; lia | by apply toml_wp_ret].
Qed.

Lemma digit_value_ascii v r d : digit_value v r = Some d -> 0 <= v < 128 /\ 0 <= d < r.
Proof.
  unfold digit_value, is_digit. cbn zeta. intros H.
  repeat (case_if; simplify_eq/=); lia.
Qed.

Lemma escape_digits_wp digits value p :
  ok p -> 0 <= value < 2 ^ 32 ->
  wp (escape_digits digits value) p (fun v p' => 0 <= v < 2 ^ 32 /\ skipped digits p p').
Proof.
  revert value p. induction digits as [|digits IH]; intros value p Hp Hv; cbn [escape_digits].
  { apply toml_wp_ret. split; [done | by apply skipped_0]. }
  apply toml_wp_gets. destruct (toml_eof_cases p (ok_ok0 _ Hp)) as [[-> E]|[-> (v & l & E)]]; [apply wp_fail; auto with toml|].
  apply toml_wp_gets. rewrite (toml_peek_rest _ _ _ E). destruct (digit_value v 16) as [d|] eqn:Ed; [|apply wp_fail; auto with toml].
  apply digit_value_ascii in Ed as [Ha _]. eapply toml_wp_take; [exact E|]. intros p1 H1 E1.
  assert (skipped 1 p p1) as S1 by (eapply skipped_step; [auto with toml | done..]).
  eapply toml_wp_conseq; [apply IH; [eauto with toml | by apply Z.mod_pos_bound]|].
  cbn beta. intros v' p' [Hv' S']. split; [done|]. exact (skipped_trans 1 digits _ _ _ S1 S').
Qed.

Lemma parse_unicode_escape_wp digits p :
  ok p -> wp (parse_unicode_escape digits) p (fun c p' => 0 <= c /\ is_scalar c = true /\ skipped digits p p').
Proof.
  intros Hp. unfold parse_unicode_escape. eapply toml_wp_call; [by apply escape_digits_wp|].
  cbn beta. intros c p' [Hc S]. case_if; [apply wp_fail; eauto with toml|]. apply toml_wp_ret.
  split_and!; [lia | unfold is_scalar; lia | done].
Qed.

Lemma simple_escape_ascii v b : simple_escape v = Some b -> 0 <= v < 128 /\ 0 <= b < 128.
Proof. unfold simple_escape. intros H. repeat (case_if; [injection H as <-; lia|]). done. Qed.

Lemma parse_escape_wp output p v l :
  ok p -> rest p = v :: l -> is_text output ->
  wp (parse_escape output) p (fun o p' => is_text o /\ skipped 1 p p').
Proof.
  intros Hp E Ho. unfold parse_escape. eapply toml_wp_take; [exact E|]. intros p1 H1 E1.
  assert (0 <= v < 128 -> skipped 1 p p1) as S1 by (intros; eapply skipped_step; [auto with toml | done..]).
  assert (forall n, 0 <= v < 128 ->
    wp (let* c := parse_unicode_escape n in push_scalar output c) p1 (fun o p' => is_text o /\ skipped 1 p p')) as Hu.
  { intros n Hv. specialize (S1 Hv). eapply toml_wp_call; [apply parse_unicode_escape_wp; eauto with toml|].
    cbn beta. intros c p2 (Hc & Hs & S2). apply push_scalar_wp; [done | done |]. split.
    - apply is_text_app; [done|]. rewrite <- (app_nil_r (encode_utf8 c)).
      by apply (is_text_seq c); [apply encode_seq | apply is_text_nil].
    - apply (skipped_weaken (1 + n)); [lia|]. exact (skipped_trans _ _ _ _ _ S1 S2). }
  destruct (simple_escape v) as [b|] eqn:Es.
  { apply simple_escape_ascii in Es as [Hv Hb]. apply toml_wp_ret. split; [|auto].
    apply is_text_app; [done|]. apply text_ascii, Forall_singleton. lia. }
  repeat (case_if; [apply Hu; lia|]). apply wp_fail. eauto with toml.
Qed.

Lemma plain_char_wp multiline output p v l :
  ok0 p -> rest p = v :: l -> pending output p -> wp (plain_char multiline output) p (round_post p).
Proof.
  intros Hp E Ho. unfold plain_char. apply toml_wp_gets. rewrite (toml_peek_rest _ _ _ E).
  case_if; [by apply wp_fail|].
  assert (wp (let* v := take in ret (output ++ [v])) p (round_post p)) as Hpush.
  { eapply toml_wp_take; [exact E|]. intros p' Hm _. apply toml_wp_ret. split_and!.
    - by eapply pending_step.
    - eauto with toml.
    - by exists 1%nat. }
  case_if; [done|]. apply toml_wp_gets. case_if.
  { apply andb_true_iff in Heqb1 as [_ Hc]. pose proof Hc as Hc'. apply at_crlf_rest in Hc' as [l' E'].
    destruct (ok_ascii p _ _ Hp E' ltac:(lia)) as [Hok _].
    eapply wp_crlf; [by apply skipped_0 | done |]. intros p' S'. apply toml_wp_ret. apply round_of_text; [|done].
    apply is_text_app; [by eapply pending_text|]. apply text_ascii, Forall_singleton. lia. }
  case_if; [by apply wp_fail | done].
Qed.

(** The rounds of a loop add up. *)
Lemma string_post_round p o p1 s p2 :
  round_post p o p1 -> string_post 0 p1 s p2 -> string_post 1 p s p2.
Proof.
  intros (_ & _ & n & Hn & Hm) [Hs (n' & _ & Hm' & Hok)]. split; [done|]. exists (n + n')%nat.
  split_and!; [lia | by eapply moves_trans | done].
Qed.

Lemma string_post_weaken k p s p' : string_post k p s p' -> string_post 0 p s p'.
Proof. intros [? S]. split; [done|]. by eapply skipped_weaken; [|exact S]; lia. Qed.

Lemma wp_round (loop : list Z -> TM (list Z)) m fuel p :
  (forall o p', ok0 p' -> pending o p' -> (left_bytes p' < fuel)%nat -> wp (loop o) p' (string_post 0 p')) ->
  (left_bytes p < S fuel)%nat -> wp m p (round_post p) -> wp (bind m loop) p (string_post 0 p).
Proof.
  intros IH Hf Hm. eapply toml_wp_call; [exact Hm|]. cbn beta. intros o p1 Hr.
  pose proof Hr as (Hpend & Hok & n & Hn & Hmv). pose proof (toml_goes_left _ _ _ _ _ Hmv).
  eapply toml_wp_conseq; [apply IH; [done | done | lia]|]. cbn beta. intros s p2 H2.
  by eapply string_post_weaken, string_post_round.
Qed.

Lemma basic_loop_wp fuel multiline output p :
  ok0 p -> pending output p -> (left_bytes p < fuel)%nat ->
  wp (basic_loop fuel multiline output) p (string_post 0 p).
Proof.
  revert output p. induction fuel as [|fuel IH]; intros output p Hp Ho Hf; [lia|]. cbn [basic_loop].
  apply toml_wp_gets. destruct (toml_eof_cases p Hp) as [[-> E]|[-> (v & l & E)]]; [by apply wp_fail|].
  apply toml_wp_gets. rewrite (toml_peek_rest _ _ _ E). case_if.
  { assert (v = 0x22) as -> by lia. destruct (ok_ascii p _ _ Hp E ltac:(lia)) as [Hok _].
    eapply toml_wp_call; [eapply close_string_wp; [done | done | lia | by eapply pending_text]|].
    cbn beta. intros [s|] p' H'.
    - apply toml_wp_ret. destruct H' as [Hs S']. apply (string_post_weaken 1). by split.
    - subst. eapply (wp_round (basic_loop fuel multiline) (let* v := take in ret (output ++ [v]))) in IH; [|exact Hf|].
      2:{ eapply toml_wp_take; [exact E|]. intros p' Hm _. apply toml_wp_ret.
          split_and!; [by eapply pending_step | eauto with toml | by exists 1%nat]. }
      unfold TomlTokens.wp, bind in *. destruct (take p) as [[]?]; done. }
  case_if.
  { assert (v = 0x5c) as -> by lia. destruct (ok_ascii p _ _ Hp E ltac:(lia)) as [Hok _].
    pose proof (pending_text _ _ Hok Ho) as Hot.
    eapply toml_wp_take; [exact E|]. intros p1 H1 E1.
    assert (skipped 1 p p1) as S1 by (eapply skipped_step; [done | done | lia | done]).
    assert (forall o p', is_text o -> skipped 1 p1 p' -> wp (basic_loop fuel multiline o) p' (string_post 0 p)) as Hnext.
    { intros o p' Hot' S'. pose proof (skipped_trans _ _ _ _ _ S1 S') as S.
      pose proof (skipped_left _ _ _ S). eapply toml_wp_conseq.
      - apply IH; [eauto with toml | apply pending_done; eauto with toml | lia].
      - cbn beta. intros s p2 H2. eapply string_post_weaken, string_post_round; [|exact H2].
        apply round_of_text; [done|]. by eapply skipped_weaken; [|exact S]; lia. }
    apply toml_wp_gets. destruct (toml_eof_cases (text:=text) p1) as [[-> _]|[-> (w & l' & E')]];
      [eauto with toml | apply wp_fail; eauto with toml |].
    apply toml_wp_gets. case_if.
    - apply andb_true_iff in Heqb1 as [_ Hc]. eapply toml_wp_call; [apply continuation_wp; [eauto with toml | done]|].
      cbn beta. intros _ p2 S2. by apply Hnext.
    - eapply toml_wp_call; [eapply parse_escape_wp; [eauto with toml | done | done]|].
      cbn beta. intros o p2 [Hot' S2]. by apply Hnext. }
  eapply (wp_round (basic_loop fuel multiline)); [exact (IH) | done | by eapply plain_char_wp].
Qed.

Lemma parse_basic_string_wp allow p l :
  ok p -> rest p = 0x22 :: l -> wp (parse_basic_string allow) p (string_post 1 p).
Proof.
  intros Hp E. unfold parse_basic_string. eapply toml_wp_call; [eapply open_string_wp; [done | done | lia]|].
  cbn beta. intros multiline p1 S1. apply toml_wp_gets. eapply toml_wp_conseq.
  - apply basic_loop_wp; [eauto with toml | apply pending_nil; eauto with toml | lia].
  - cbn beta. intros s p2 [Hs S2]. split; [done|]. exact (skipped_trans 1 0 _ _ _ S1 S2).
Qed.

Lemma literal_loop_wp fuel multiline output p :
  ok0 p -> pending output p -> (left_bytes p < fuel)%nat ->
  wp (literal_loop fuel multiline output) p (string_post 0 p).
Proof.
  revert output p. induction fuel as [|fuel IH]; intros output p Hp Ho Hf; [lia|]. cbn [literal_loop].
  apply toml_wp_gets. destruct (toml_eof_cases p Hp) as [[-> E]|[-> (v & l & E)]]; [by apply wp_fail|].
  apply toml_wp_gets. rewrite (toml_peek_rest _ _ _ E).
  assert (wp (let* output := plain_char multiline output in literal_loop fuel multiline output) p (string_post 0 p)) as Hnext.
  { eapply (wp_round (literal_loop fuel multiline)); [exact IH | done | by eapply plain_char_wp]. }
  case_if; [|by apply toml_wp_bind, toml_wp_ret].
  assert (v = 0x27) as -> by lia. destruct (ok_ascii p _ _ Hp E ltac:(lia)) as [Hok _].
  eapply toml_wp_call; [eapply close_string_wp; [done | done | lia | by eapply pending_text]|].
  cbn beta. intros [s|] p' H'; [|by subst].
  apply toml_wp_ret. destruct H' as [Hs S']. apply (string_post_weaken 1). by split.
Qed.

Lemma parse_literal_string_wp allow p l :
  ok p -> rest p = 0x27 :: l -> wp (parse_literal_string allow) p (string_post 1 p).
Proof.
  intros Hp E. unfold parse_literal_string. eapply toml_wp_call; [eapply open_string_wp; [done | done | lia]|].
  cbn beta. intros multiline p1 S1. apply toml_wp_gets. eapply toml_wp_conseq.
  - apply literal_loop_wp; [eauto with toml | apply pending_nil; eauto with toml | lia].
  - cbn beta. intros s p2 [Hs S2]. split; [done|]. exact (skipped_trans 1 0 _ _ _ S1 S2).
Qed.

(** ** Spans and keys *)

Lemma ok_boundary p : ok p -> is_char_boundary text (position_ (cursor_ p)) = true.
Proof.
  intros [(Hi & _ & Hb) Hr]. apply text_rest_boundary; [exact Htext | |].
  - unfold in_bounds, len, input in Hb. by rewrite Hi in Hb.
  - unfold rest, remaining_input, input in Hr. by rewrite Hi in Hr.
Qed.

(** The text between two places that are between characters. *)
Lemma text_of_spec p n p' q :
  ok p -> moves n p p' -> ok p' -> input_ (cursor_ q) = text_input text ->
  text_of (MkSpan (position_ (cursor_ p)) (position_ (cursor_ p) + n)) q = (Ret (list.take n (rest p)), q) /\
  is_text (list.take n (rest p)).
Proof.
  intros Hp Hm Hp' Hq. pose proof (ok_boundary p Hp) as B1. pose proof (ok_boundary p' Hp') as B2.
  destruct Hm as [Hn ->]. cbn [after cursor_ adv position_] in B2.
  pose proof (input_text_spec text (position_ (cursor_ p)) (position_ (cursor_ p) + n) Htext) as H.
  rewrite B1, B2 in H. cbn [andb] in H. unfold text_of, cursor_text. rewrite Hq.
  destruct Hp as [(Hi & _ & Hb) _]. unfold left_bytes, remaining, in_bounds, len, input in *. rewrite Hi in *. cbn in Hn, Hb.
  destruct H as [E Ht]; [lia|].
  assert (slice text (position_ (cursor_ p)) (position_ (cursor_ p) + n) = list.take n (rest p)) as Es.
  { unfold slice, rest, remaining_input, input. rewrite Hi. cbn. f_equal. lia. }
  rewrite E. by rewrite <- Es.
Qed.

Lemma is_bare_key_ascii v : is_bare_key v = true -> 0 <= v < 128.
Proof. unfold is_bare_key, is_alnum, is_alpha, is_digit. lia. Qed.

Lemma parse_key_part_wp p : ok p -> wp parse_key_part p (string_post 1 p).
Proof.
  intros Hp. unfold parse_key_part. apply toml_wp_gets.
  destruct (toml_eof_cases p (ok_ok0 _ Hp)) as [[-> E]|[-> (v & l & E)]]; [apply wp_fail; auto with toml|].
  apply toml_wp_gets. rewrite (toml_peek_rest _ _ _ E).
  case_if; [eapply parse_basic_string_wp; [done|]; rewrite E; f_equal; lia|].
  case_if; [eapply parse_literal_string_wp; [done|]; rewrite E; f_equal; lia|].
  case_if; [apply wp_fail; auto with toml|]. apply negb_false_iff in Heqb1.
  apply toml_wp_gets. apply wp_consume. intros n p' Hm Hall Hend. eapply wp_span_from; [exact Hm|].
  assert (ok p') as Hok by (eapply ok_run; [apply is_bare_key_ascii | done..]).
  destruct (text_of_spec p n p' p' Hp Hm Hok) as [Ht Hs]; [by destruct Hok as [(? & _) _]|].
  unfold TomlTokens.wp. rewrite Ht. split; [done|]. exists n. split_and!; [|done | done].
  destruct n; [|lia]. rewrite (rest_goes _ _ _ _ _ Hm), drop_0, E in Hend. cbn in Hend. congruence.
Qed.

Definition keys_ok (path : KeyPath) : Prop := path <> [] /\ Forall is_text path.

Lemma key_path_loop_wp fuel path p :
  ok p -> Forall is_text path -> (left_bytes p < fuel)%nat ->
  wp (key_path_loop fuel path) p (fun ks p' => keys_ok ks /\ skipped 1 p p').
Proof.
  revert path p. induction fuel as [|fuel IH]; intros path p Hp Hpath Hf; [lia|]. cbn [key_path_loop].
  eapply toml_wp_call; [by apply consume_horizontal_wp|]. cbn beta. intros _ p1 [S1 _].
  eapply toml_wp_call; [apply parse_key_part_wp; eauto with toml|]. cbn beta. intros key p2 [Hk S2].
  eapply toml_wp_call; [apply consume_horizontal_wp; eauto with toml|]. cbn beta. intros _ p3 [S3 _].
  pose proof (skipped_trans _ _ _ _ _ (skipped_trans _ _ _ _ _ S1 S2) S3) as S. cbn in S.
  assert (Forall is_text (path ++ [key])) as Hpath' by (apply Forall_app; split; [done | by apply Forall_singleton]).
  apply toml_wp_gets. case_if.
  { apply toml_wp_ret. split; [|done]. split; [by destruct path | done]. }
  apply orb_false_iff in Heqb as [_ Hdot]. apply negb_false_iff in Hdot.
  destruct (peek_cons p3 0x2e) as [l E]; [lia | lia |]. eapply toml_wp_take; [exact E|]. intros p4 H4 _.
  assert (skipped 1 p3 p4) as S4 by (eapply skipped_step; [eauto with toml | done | lia | done]).
  pose proof (skipped_trans _ _ _ _ _ S S4) as S5. pose proof (skipped_left _ _ _ S5).
  eapply toml_wp_conseq; [apply IH; [eauto with toml | done | lia]|]. cbn beta. intros ks p' [Hks S6]. split; [done|].
  apply (skipped_weaken 3); [lia|]. exact (skipped_trans _ _ _ _ _ S5 S6).
Qed.

Lemma parse_key_path_wp p : ok p -> wp parse_key_path p (fun ks p' => keys_ok ks /\ skipped 1 p p').
Proof. intros Hp. apply toml_wp_gets, key_path_loop_wp; [done | constructor | lia]. Qed.
End Tokens.
