(* ===== verification/TomlCorrect.v ===== *)
(** * The TOML parser: values, statements and documents

    Every member function of [TomlParser] ends, with a value that is well
    formed or an error that points into the text; limits are respected, and
    the document and its definitions keep corresponding. *)

From Stdlib Require Import ZArith Lia ZifyBool.
From S2P Require Import Prelude Int Utf8 Str Cursor OrdMap FloatSpec Toml TomlScalar TomlParser TomlTokens.
Local Open Scope Z_scope.
Local Open Scope rstd_scope.

(** ** The TOML document and its book of definitions

    The parser keeps two trees: the document, and for each of its keys how it
    came to be.  [mirrors] says how they correspond; resolving a path,
    inserting a value and opening a header preserve it, keep the document
    well formed, and only ever add to it. *)

(** ** The two trees *)

#[warnings="-register-all"] Inductive mirrors : DefinitionNode -> TValue -> Prop :=
| mirror_value v : is_Table v = false -> mirrors (MkNode ValueKind [] []) v
| mirror_inline m : mirrors (MkNode InlineTable [] []) (TTable m)
| mirror_table k c m : is_table_kind k = true -> related mirrors c m -> mirrors (MkNode k c []) (TTable m)
| mirror_array items vs :
    items <> [] -> Forall2 mirrors items vs -> Forall (fun n => is_table_kind (node_kind n) = true) items ->
    mirrors (MkNode ArrayOfTables [] items) (TArray vs).

(** A definition node whose children are the keys of a table. *)
Definition mirrored (d : DefinitionNode) (t : Table) : Prop := related mirrors (children d) t.

(** The part of a node that writing to its children keeps. *)
Definition same_node (d d' : DefinitionNode) : Prop :=
  node_kind d = node_kind d' /\ array_items d = array_items d'.

Lemma mirrors_table d t :
  is_table_kind (node_kind d) = true -> array_items d = [] -> mirrored d t -> mirrors d (TTable t).
Proof. destruct d as [k c a]. cbn. intros Hk -> Hm. by constructor. Qed.

Lemma mirrors_table_inv d v :
  mirrors d v -> is_table_kind (node_kind d) = true ->
  exists t, v = TTable t /\ array_items d = [] /\ mirrored d t.
Proof. intros H Hk. destruct H; cbn in *; try done. eauto. Qed.

(** Descending through a node and its value. *)
Lemma mirrors_descend n v dn :
  mirrors n v -> pointee_node n = Some dn ->
  exists t, pointee v = Some t /\ mirrored dn t /\
    forall dn' t', same_node dn dn' -> mirrored dn' t' -> mirrors (redirect_node n dn') (redirect v t').
Proof.
  intros H. unfold pointee_node, redirect_node.
  destruct H as [v Hv|m|k c m Hk Hm|items vs Hne H2 Hall]; cbn [node_kind array_items]; try done.
  - rewrite bool_decide_eq_false_2 by (by destruct k). rewrite Hk. intros [= <-]. exists m. split_and!; [done | done |].
    intros dn' t' [E1 E2] Hm'. cbn in *. apply mirrors_table; [by rewrite <- E1 | by rewrite <- E2 | done].
  - rewrite bool_decide_eq_true_2 by done. intros Hl.
    apply last_Some in Hl as [items' ->]. apply Forall2_app_inv_l in H2 as (vs1 & vs2 & H1 & H2 & ->).
    apply Forall2_cons_inv_l in H2 as (v & l & Hv & Hl & ->). apply Forall2_nil_inv_l in Hl as ->.
    apply Forall_app in Hall as [Hall Hitem]. apply Forall_cons_1 in Hitem as [Hitem _].
    destruct (mirrors_table_inv _ _ Hv Hitem) as (t & -> & Ha & Hm).
    exists t. cbn [pointee redirect]. rewrite !last_snoc, !removelast_last. split_and!; [done | done |].
    intros dn' t' [E1 E2] Hm'. unfold with_items. cbn. constructor.
    + by destruct items'.
    + apply Forall2_app; [done|]. constructor; [|constructor].
      apply mirrors_table; [by rewrite <- E1 | by rewrite <- E2 | done].
    + apply Forall_app. split; [done|]. constructor; [by rewrite <- E1 | constructor].
Qed.

Lemma pointee_redirect v t t' : pointee v = Some t -> pointee (redirect v t') = Some t'.
Proof. destruct v; try done. cbn. intros _. by rewrite last_snoc. Qed.

Lemma pointee_node_redirect n dn dn' :
  pointee_node n = Some dn -> same_node dn dn' -> pointee_node (redirect_node n dn') = Some dn'.
Proof.
  unfold pointee_node, redirect_node. intros Hp [E _]. case_bool_decide as Hk.
  - cbn. rewrite bool_decide_eq_true_2 by done. apply last_snoc.
  - destruct (is_table_kind (node_kind n)) eqn:Et; [|done]. injection Hp as ->. rewrite <- E, Et.
    by rewrite bool_decide_eq_false_2.
Qed.

Lemma mirrored_with_children d t key n v :
  mirrored d t -> mirrors n v ->
  mirrored (with_children (snd (map_insert key n (children d))) d) (snd (map_insert key v t)).
Proof. intros Hm Hn. unfold mirrored. cbn. by apply related_insert. Qed.

(** ** Resolving a path *)

(** What a resolved pair of pointers promises. *)
Definition resolved (d' : DefinitionNode) (t' : Table) (path : KeyPath) : Prop :=
  mirrored d' t' /\
  exists dp tp, node_at d' path = Some dp /\ table_at t' path = Some tp /\ mirrored dp tp /\
    forall dp' tp', same_node dp dp' -> mirrored dp' tp' ->
      same_node d' (set_node d' path dp') /\ mirrored (set_node d' path dp') (set_table t' path tp').

Lemma resolve_mirrors path : forall d t kind create d',
  mirrored d t -> is_table_kind kind = true -> resolve_definition d path kind create = Some d' ->
  same_node d d' /\ exists t', resolve_table t path = Some t' /\ resolved d' t' path.
Proof.
  induction path as [|key path IH]; intros d t kind create d' Hm Hkind; cbn [resolve_definition resolve_table].
  { intros [= <-]. split; [done|]. exists t. split; [done|]. split; [done|]. exists d, t. by split_and!. }
  pose proof (related_get mirrors key _ _ Hm) as Hget. set (t0 := match map_get key t with Some _ => t | None => _ end).
  set (on := match map_get key (children d) with Some n => Some n | None => _ end). intros E.
  assert (exists n v, on = Some n /\ map_get key t0 = Some v /\ mirrors n v) as (n & v & -> & Ev & Hnv).
  { subst on t0. destruct (map_get key (children d)) as [n|], (map_get key t) as [v|] eqn:Et; try done.
    - exists n, v. by rewrite Et.
    - destruct create; [|done]. exists (new_node kind), (TTable []). split_and!; [done | apply map_get_insert_eq |].
      constructor; [done | constructor]. }
  cbn [mbind option_bind] in E. case_if; [done|].
  destruct (pointee_node n) as [dn|] eqn:Edn; [|done]. cbn [mbind option_bind] in E.
  destruct (resolve_definition dn path kind create) as [dn'|] eqn:Er; [|done]. injection E as <-.
  destruct (mirrors_descend n v dn Hnv Edn) as (tv & Etv & Hmv & Hback).
  destruct (IH _ _ _ _ _ Hmv Hkind Er) as (Hsame & tv' & Ert & Hm' & dp & tp & Edp & Etp & Hmp & Hset).
  assert (forall n' v', mirrors n' v' ->
    mirrored (with_children (snd (map_insert key n' (children d))) d) (snd (map_insert key v' t0))) as Hins.
  { intros n' v' Hnv'. unfold mirrored. subst t0. destruct (map_get key t); [by apply related_insert|].
    rewrite map_insert_twice. by apply related_insert. }
  pose proof (Hback _ _ Hsame Hm') as Hn1. split; [done|].
  exists (snd (map_insert key (redirect v tv') t0)). rewrite Ev. cbn [mbind option_bind]. rewrite Etv. cbn [mbind option_bind].
  rewrite Ert. split; [done|]. split; [by apply Hins|]. exists dp, tp.
  pose proof (pointee_node_redirect _ _ _ Edn Hsame) as Edn1.
  pose proof (pointee_redirect v tv tv' Etv) as Etv1.
  cbn [node_at table_at set_node set_table children with_children]. rewrite !map_get_insert_eq.
  cbn [mbind option_bind]. rewrite Edn1, Etv1. cbn [mbind option_bind]. split_and!; [done..|].
  intros dp' tp' Hs' Hmp'. split; [done|]. destruct (Hset dp' tp' Hs' Hmp') as [Hs2 Hm2].
  destruct (mirrors_descend _ _ _ Hn1 Edn1) as (tv1 & Etv2 & _ & Hback1).
  unfold mirrored. cbn [children with_children]. rewrite !map_insert_twice. apply Hins. by apply Hback1.
Qed.

(** ** What the document may become *)

(** Nothing that was in the first value is changed or lost in the second:
    tables gain keys and arrays elements at their ends. *)
#[warnings="-register-all"] Inductive extends : TValue -> TValue -> Prop :=
| extends_refl v : extends v v
| extends_table m m' :
    (forall k v, map_get k m = Some v -> exists v', map_get k m' = Some v' /\ extends v v') ->
    extends (TTable m) (TTable m')
| extends_array vs vs' ws : Forall2 extends vs vs' -> extends (TArray vs) (TArray (vs' ++ ws)).

Lemma Forall2_extends_refl vs : Forall2 extends vs vs.
Proof. induction vs; constructor; [apply extends_refl | done]. Qed.

Lemma extends_trans a : forall b c, extends a b -> extends b c -> extends a c.
Proof.
  induction a as [v Hv1 Hv2|vs IH|m IH] using TValue_ind'; intros b c H1 H2.
  - inversion H1; subst; done.
  - inversion H1 as [|?|? vs' ws Hvs]; subst; [done|].
    assert (forall vs2, Forall2 extends vs' vs2 -> Forall2 extends vs vs2) as Htrans.
    { clear -IH Hvs. induction Hvs as [|x y xs ys Hxy _ IHl]; intros vs2 H2.
      - by apply Forall2_nil_inv_l in H2 as ->.
      - apply Forall2_cons_inv_l in H2 as (z & zs & Hyz & Hzs & ->). apply Forall_cons_1 in IH as [IHx IH].
        constructor; [by eapply IHx | auto]. }
    inversion H2 as [|?|? vs2 ws2 Hvs2]; subst; [by constructor|].
    apply Forall2_app_inv_l in Hvs2 as (a1 & a2 & Ha1 & Ha2 & ->). rewrite <- app_assoc. constructor. by apply Htrans.
  - inversion H1 as [|? m1 Hm1|]; subst; [done|]. inversion H2 as [|? m2 Hm2|]; subst; [done|].
    constructor. intros k v Hg. destruct (Hm1 k v Hg) as (v1 & Hg1 & E1). destruct (Hm2 k v1 Hg1) as (v2 & Hg2 & E2).
    exists v2. split; [done|]. apply map_get_elem, list_elem_of_In in Hg. rewrite Forall_forall in IH. by eapply (IH _ Hg).
Qed.

(** How many values it holds that are neither tables nor arrays. *)
Fixpoint scalars (v : TValue) : nat :=
  match v with
  | TArray vs => sum_list_with scalars vs
  | TTable m => sum_list_with (fun e => let '(_, v) := e in scalars v) m
  | _ => 1
  end.

Lemma scalars_array vs : scalars (TArray vs) = sum_list_with scalars vs.
Proof. done. Qed.

Definition table_ok (t : Table) : Prop := value_ok (TTable t).

Lemma table_ok_nil : table_ok [].
Proof. constructor; [constructor | done]. Qed.

Lemma table_ok_get t k v : table_ok t -> map_get k t = Some v -> is_text k /\ value_ok v.
Proof.
  intros Ht Hg. inversion Ht as [| | | | | | | | |? _ Hall]; subst. apply map_get_elem, list_elem_of_In in Hg.
  rewrite Forall_forall in Hall. exact (Hall _ Hg).
Qed.

Lemma table_ok_insert t k v : table_ok t -> is_text k -> value_ok v -> table_ok (snd (map_insert k v t)).
Proof.
  intros Ht Hk Hv. inversion Ht as [| | | | | | | | |? Hs Hall]; subst.
  constructor; [by apply map_insert_sorted | by apply map_insert_Forall].
Qed.

Lemma extends_insert t k v :
  table_ok t -> (forall old, map_get k t = Some old -> extends old v) ->
  extends (TTable t) (TTable (snd (map_insert k v t))).
Proof.
  intros Ht Hold. inversion Ht as [| | | | | | | | |? Hs _]; subst. constructor. intros k0 v0 Hg.
  destruct (map_insert_get k v t k0 Hs) as [_ E]. rewrite E. destruct (cmp k0 k) eqn:Ec.
  - apply cmp_eq in Ec as ->. exists v. auto.
  - exists v0. split; [done | apply extends_refl].
  - exists v0. split; [done | apply extends_refl].
Qed.

Lemma scalars_insert t k v :
  (scalars (TTable (snd (map_insert k v t))) + match map_get k t with Some old => scalars old | None => 0 end =
   scalars (TTable t) + scalars v)%nat.
Proof.
  induction t as [|[k' v'] t IH]; [cbn; lia|]. cbn [map_insert map_get]. destruct (cmp k k').
  - cbn. lia.
  - cbn. lia.
  - destruct (map_insert k v t) as [old t']. cbn in IH |- *. lia.
Qed.

(** ** Writing below a path *)

Lemma pointee_ok v t :
  pointee v = Some t -> value_ok v ->
  table_ok t /\
  forall t', table_ok t' -> extends (TTable t) (TTable t') ->
    value_ok (redirect v t') /\ extends v (redirect v t') /\
    (scalars (redirect v t') + scalars (TTable t) = scalars v + scalars (TTable t'))%nat.
Proof.
  intros Hp Hv. destruct v as [| | | | | | | |vs|m]; try done; cbn [pointee redirect] in *.
  - destruct (list.last vs) as [w|] eqn:El; [|done]. apply last_Some in El as [init ->].
    destruct w; try done. injection Hp as ->. inversion Hv as [| | | | | | | |? Hall|]; subst.
    apply Forall_app in Hall as [Hinit Ht]. apply Forall_cons_1 in Ht as [Ht _]. split; [done|].
    intros t' Ht' He. rewrite removelast_last. split_and!.
    + constructor. apply Forall_app. split; [done|]. by constructor.
    + rewrite <- (app_nil_r (init ++ [TTable t'])). constructor. apply Forall2_app; [apply Forall2_extends_refl|].
      by constructor.
    + rewrite !scalars_array, !sum_list_with_app. cbn [sum_list_with]. lia.
  - injection Hp as ->. split; [done|]. intros t' Ht' He. split_and!; [done | done | apply Nat.add_comm].
Qed.

(** Writing one level down. *)
Lemma write_below t key v tv :
  table_ok t -> is_text key -> map_get key t = Some v -> pointee v = Some tv ->
  table_ok tv /\ forall w, table_ok w -> extends (TTable tv) (TTable w) ->
    let t1 := snd (map_insert key (redirect v w) t) in
    table_ok t1 /\ extends (TTable t) (TTable t1) /\
    (scalars (TTable t1) + scalars (TTable tv) = scalars (TTable t) + scalars (TTable w))%nat.
Proof.
  intros Ht Hkey Ev Etv. destruct (table_ok_get _ _ _ Ht Ev) as [_ Hv].
  destruct (pointee_ok v tv Etv Hv) as [Htv Hback]. split; [done|]. intros w Hw He.
  destruct (Hback w Hw He) as (H1 & H2 & H3). cbn zeta. split_and!.
  - by apply table_ok_insert.
  - apply extends_insert; [done|]. intros old Hold. rewrite Ev in Hold. by injection Hold as <-.
  - pose proof (scalars_insert t key (redirect v w)) as H. rewrite Ev in H. lia.
Qed.

(** What a resolved pointer into the document promises to a writer. *)
Definition writable (t' : Table) (path : KeyPath) : Prop :=
  exists tp, table_at t' path = Some tp /\ table_ok tp /\
    forall tp', table_ok tp' -> extends (TTable tp) (TTable tp') ->
      let t'' := set_table t' path tp' in
      table_ok t'' /\ extends (TTable t') (TTable t'') /\
      (scalars (TTable t'') + scalars (TTable tp) = scalars (TTable t') + scalars (TTable tp'))%nat.

Lemma resolve_table_ok path : forall t t',
  table_ok t -> Forall is_text path -> resolve_table t path = Some t' ->
  table_ok t' /\ extends (TTable t) (TTable t') /\ scalars (TTable t') = scalars (TTable t) /\ writable t' path.
Proof.
  induction path as [|key path IH]; intros t t' Ht Hpath; cbn [resolve_table].
  { intros [= <-]. split_and!; [done | apply extends_refl | done |].
    exists t. split_and!; [done | done |]. intros tp' Ht' He. cbn zeta. split_and!; [done | done | apply Nat.add_comm]. }
  apply Forall_cons_1 in Hpath as [Hkey Hpath]. set (t0 := match map_get key t with Some _ => t | None => _ end).
  intros E. destruct (map_get key t0) as [v|] eqn:Ev; [|done]. cbn [mbind option_bind] in E.
  destruct (pointee v) as [tv|] eqn:Etv; [|done]. cbn [mbind option_bind] in E.
  destruct (resolve_table tv path) as [tv'|] eqn:Er; [|done]. injection E as <-.
  assert (table_ok t0 /\ extends (TTable t) (TTable t0) /\ scalars (TTable t0) = scalars (TTable t)) as (Ht0 & He0 & Hs0).
  { subst t0. destruct (map_get key t) eqn:Eg; [split_and!; [done | apply extends_refl | done]|]. split_and!.
    - apply table_ok_insert; [done | done | apply table_ok_nil].
    - apply extends_insert; [done|]. intros old Hold. congruence.
    - pose proof (scalars_insert t key (TTable [])) as H. rewrite Eg in H. cbn [scalars sum_list_with] in *. lia. }
  destruct (write_below t0 key v tv Ht0 Hkey Ev Etv) as [Htv Hwrite].
  destruct (IH _ _ Htv Hpath Er) as (Htv' & Hev & Hsv & tp & Etp & Htp & Hset).
  destruct (Hwrite tv' Htv' Hev) as (H1 & H2 & H3). split_and!; [done | by eapply extends_trans | lia |].
  exists tp. cbn [table_at set_table]. rewrite map_get_insert_eq. cbn [mbind option_bind].
  rewrite (pointee_redirect v tv tv' Etv). cbn [mbind option_bind]. split_and!; [done | done |].
  intros tp' Htp' Hetp. destruct (Hset tp' Htp' Hetp) as (G1 & G2 & G3).
  destruct (write_below (snd (map_insert key (redirect v tv') t0)) key (redirect v tv') tv') as [_ Hwrite'];
    [done | done | apply map_get_insert_eq | by eapply pointee_redirect |].
  destruct (Hwrite' _ G1 G2) as (K1 & K2 & K3). cbn zeta. split_and!; [done | done | lia].
Qed.

(** ** Inserting and opening tables *)

(** What a step on a table and its definitions promises: they still
    correspond, the table is well formed, and it grew by [n] scalars. *)
Definition grows (t : Table) (d : DefinitionNode) (n : nat) (t' : Table) (d' : DefinitionNode) : Prop :=
  same_node d d' /\ mirrored d' t' /\ table_ok t' /\ extends (TTable t) (TTable t') /\
  scalars (TTable t') = (scalars (TTable t) + n)%nat.

(** Resolving a path and writing at its end. *)
Lemma grows_at table d path kind create d1 :
  mirrored d table -> table_ok table -> Forall is_text path -> is_table_kind kind = true ->
  resolve_definition d path kind create = Some d1 ->
  exists t1 dp tp, resolve_table table path = Some t1 /\ node_at d1 path = Some dp /\ table_at t1 path = Some tp /\
    mirrored dp tp /\ table_ok tp /\
    forall n tp' dp', grows tp dp n tp' dp' -> grows table d n (set_table t1 path tp') (set_node d1 path dp').
Proof.
  intros Hm Ht Hpath Hk Ed. destruct (resolve_mirrors _ _ _ _ _ _ Hm Hk Ed) as (Hs & t1 & Et & Hm1 & dp & tp & Edp & Etp & Hmp & Hset).
  destruct (resolve_table_ok _ _ _ Ht Hpath Et) as (Ht1 & He1 & Hs1 & tp2 & Etp2 & Htp & Hwrite).
  rewrite Etp in Etp2. injection Etp2 as <-. exists t1, dp, tp. split_and!; [done..|].
  intros n tp' dp' (G1 & G2 & G3 & G4 & G5). destruct (Hset dp' tp' G1 G2) as [K1 K2].
  destruct (Hwrite tp' G3 G4) as (W1 & W2 & W3). unfold grows. split_and!; [|done | done | by eapply extends_trans | lia].
  destruct Hs, K1. split; congruence.
Qed.

Lemma grows_insert t d key v n :
  mirrored d t -> table_ok t -> is_text key -> value_ok v -> mirrors n v -> map_get key t = None ->
  grows t d (scalars v) (snd (map_insert key v t)) (with_children (snd (map_insert key n (children d))) d).
Proof.
  intros Hm Ht Hk Hv Hn Hg. split_and!; [done | by apply mirrored_with_children | by apply table_ok_insert | |].
  - apply extends_insert; [done|]. intros old Hold. congruence.
  - pose proof (scalars_insert t key v) as H. rewrite Hg in H. lia.
Qed.

Lemma insert_path_ends table d path v :
  mirrored d table -> table_ok table -> path <> [] -> Forall is_text path -> value_ok v ->
  ends (insert_path table d path v) (fun r => grows table d (scalars v) (fst r) (snd r)) (fun _ => True).
Proof.
  intros Hm Ht Hne Hpath Hv. destruct path as [|key path _] using rev_ind; [done|].
  apply Forall_app in Hpath as [Hpath Hkey]. apply Forall_cons_1 in Hkey as [Hkey _].
  unfold insert_path. rewrite last_snoc, removelast_last.
  destruct (resolve_definition d path DottedTable true) as [d1|] eqn:Ed; [|done].
  destruct (grows_at _ _ _ DottedTable true _ Hm Ht Hpath eq_refl Ed) as (t1 & dp & tp & -> & -> & -> & Hmp & Htp & Hgrow).
  case_if; [done|]. apply orb_false_iff in Heqb as [_ Hg]. apply bool_decide_eq_false in Hg.
  apply Hgrow. apply grows_insert; try done.
  - destruct v; constructor; done.
  - destruct (map_get key tp) eqn:E; [|done]. destruct Hg. by eexists.
Qed.

Lemma apply_header_ends array key t d :
  mirrored d t -> table_ok t -> is_text key ->
  ends (apply_header array key t d) (fun r => grows t d 0 (fst r) (snd r)) (fun _ => True).
Proof.
  intros Hm Ht Hkey. unfold apply_header. pose proof (related_get mirrors key _ _ Hm) as Hget.
  destruct (map_get key (children d)) as [node|] eqn:En.
  2:{ destruct (map_get key t) eqn:Eg; [done|]. destruct array.
      - apply (grows_insert t d key (TArray [TTable []])); [done | done | done | | | done].
        + constructor. constructor; [apply table_ok_nil | constructor].
        + constructor; [done | constructor; [constructor; [done | constructor] | constructor] | by constructor].
      - apply (grows_insert t d key (TTable [])); [done | done | done | apply table_ok_nil | | done].
        constructor; [done | constructor]. }
  destruct (map_get key t) as [v|] eqn:Eg; [|done]. destruct (table_ok_get _ _ _ Ht Eg) as [_ Hv]. destruct array.
  - destruct Hget as [v Hnt|m|k c m Hk Hr|items vs Hne H2 Hall]; cbn [node_kind]; try done.
    { by destruct k. }
    inversion Hv as [| | | | | | | |? Hvs|]; subst. cbn [fst snd ends]. split_and!.
    + done.
    + apply mirrored_with_children; [done|]. constructor.
      * by destruct items.
      * apply Forall2_app; [done|]. constructor; [constructor; [done | constructor] | constructor].
      * apply Forall_app. split; [done | by constructor].
    + apply table_ok_insert; [done | done |]. constructor. apply Forall_app. split; [done|].
      constructor; [apply table_ok_nil | constructor].
    + apply extends_insert; [done|]. intros old Hold. rewrite Eg in Hold. injection Hold as <-.
      constructor. apply Forall2_extends_refl.
    + pose proof (scalars_insert t key (TArray (vs ++ [TTable []]))) as H. rewrite Eg in H.
      rewrite !scalars_array, sum_list_with_app in H. cbn [sum_list_with] in H. change (scalars (TTable [])) with 0%nat in H. lia.
  - destruct Hget as [v Hnt|m|k c m Hk Hr|items vs Hne H2 Hall]; cbn [node_kind]; try done.
    destruct k; cbn in Hk; try done. cbn [fst snd ends]. split_and!.
    + done.
    + rewrite <- (map_insert_same key (TTable m) t Eg). apply mirrored_with_children; [done|]. by constructor.
    + done.
    + apply extends_refl.
    + lia.
Qed.

(** ** Scalars *)

Lemma normalize_nonempty token : token <> [] -> valid_underscores token = true -> normalize token <> [].
Proof.
  destruct token as [|c t]; [done|]. intros _ Hv. unfold normalize. rewrite filter_cons_True; [done|].
  intros ->. unfold valid_underscores in Hv. cbn [length underscores_loop] in Hv.
  by rewrite bool_decide_eq_true_2 in Hv.
Qed.

Lemma scalar_token_ends `{DecimalConversionLaws} token :
  token <> [] -> ends (scalar_token token) scalar_ok (fun _ => True).
Proof.
  intros Hne. unfold scalar_token. case_if; [apply scalar_intro; [constructor | done]|].
  case_if; [apply scalar_intro; [constructor | done]|]. case_if; [apply parse_datetime_ends|].
  case_if; [done|]. apply negb_false_iff in Heqb2. pose proof (normalize_nonempty _ Hne Heqb2) as Hn.
  apply ends_bind, ends_index; [destruct token; [done | cbn; lia]|]. intros first _.
  case_if; [by apply parse_integer_ends|]. case_if; [by apply parse_float_ends | by apply parse_integer_ends].
Qed.

Lemma trim_span_spec fuel s b e :
  (b <= e)%nat -> (e <= length s)%nat ->
  let k := trim_span fuel s b e in
  (b <= k <= e)%nat /\ Forall (fun v => is_horizontal v = true) (slice s k e).
Proof.
  revert e. induction fuel as [|fuel IH]; intros e Hb He; cbn [trim_span].
  { split; [lia|]. unfold slice. rewrite Nat.sub_diag. constructor. }
  assert (Forall (fun v => is_horizontal v = true) (slice s e e)) as Hnil.
  { unfold slice. rewrite Nat.sub_diag. constructor. }
  destruct (b =? e)%nat eqn:Ebe; [split; [lia | done]|]. apply Nat.eqb_neq in Ebe.
  destruct (lookup_lt_is_Some_2 s (e - 1)) as [c Hc]; [lia|]. rewrite Hc.
  destruct (is_horizontal c) eqn:Ec; [|split; [lia | done]].
  destruct (IH (e - 1)%nat ltac:(lia) ltac:(lia)) as [H1 H2]. split; [lia|].
  set (k := trim_span fuel s b (e - 1)) in *.
  rewrite <- (slice_app_l s k (e - 1) e) by lia. apply Forall_app. split; [done|].
  unfold slice. rewrite (drop_S _ c) by done. replace (e - (e - 1))%nat with 1%nat by lia. cbn. by constructor.
Qed.

Section Correct.
Context {text : list Z} {Htext : Text text}.
Abbreviation wp := (wp text).
Abbreviation ok0 := (ok0 text).
Abbreviation ok := (ok text).
Abbreviation skipped := (skipped text).

(** The text of a span without its trailing white space. *)
Lemma trimmed_text p n p' q :
  ok p -> moves n p p' -> ok p' -> input_ (cursor_ q) = text_input text ->
  let b := position_ (cursor_ p) in
  let k := trim_span (length text) text b (b + n) in
  (b <= k)%nat /\
  text_of (MkSpan b k) q = (Ret (list.take (k - b) (rest p)), q) /\ is_text (list.take (k - b) (rest p)) /\
  (k - b <= length (rest p))%nat.
Proof.
  intros Hp Hm Hp' Hq. pose proof (ok_ok0 _ Hp) as (Hi & _ & Hb). pose proof (toml_goes_left _ _ _ _ _ Hm) as Hl.
  unfold in_bounds, len, input in Hb. rewrite Hi in Hb. cbn in Hb. cbn zeta.
  set (b := position_ (cursor_ p)) in *.
  assert (b + n <= length text)%nat as Hbn.
  { unfold left_bytes, remaining, len, input in Hl. rewrite Hi in Hl. cbn in Hl. fold b in Hl. lia. }
  destruct (trim_span_spec (length text) text b (b + n)) as [Hk Hall]; [lia | lia |].
  set (k := trim_span (length text) text b (b + n)) in *.
  assert (rest p = drop b text) as Er by (unfold rest, remaining_input, input; by rewrite Hi).
  assert (moves (k - b) p (after (k - b) 0 (depth p) p)) as Hmk.
  { split; [|done]. rewrite <- toml_rest_length, Er, length_drop. lia. }
  assert (ok (after (k - b) 0 (depth p) p)) as Hok.
  { split; [eauto with toml|]. rewrite (rest_goes _ _ _ _ _ Hmk), Er, drop_drop.
    replace (b + (k - b))%nat with k by lia. rewrite (slice_rest text k (b + n)) by lia. apply is_text_app.
    - apply text_ascii. revert Hall. apply Forall_impl. apply is_horizontal_ascii.
    - destruct Hp' as [_ Ht]. rewrite (rest_goes _ _ _ _ _ Hm), Er, drop_drop in Ht. done. }
  destruct (text_of_spec p (k - b) _ q Hp Hmk Hok Hq) as [E1 E2]. fold b in E1.
  replace (b + (k - b))%nat with k in E1 by lia. split_and!; [lia | done | done |].
  rewrite Er, length_drop. lia.
Qed.

Lemma parse_scalar_wp `{DecimalConversionLaws} p :
  ok p -> wp parse_scalar p (fun v p' => scalar_ok v /\ skipped 1 p p').
Proof.
  intros Hp. unfold parse_scalar. apply toml_wp_gets, wp_consume. intros n p' Hm Hall Hend.
  assert (ok p') as Hok.
  { destruct (rest p') as [|v l] eqn:E; [by apply ok_end; [eauto with toml|]|].
    eapply (ok_ascii p' v l); [eauto with toml | done |]. cbn in Hend. unfold ends_scalar in Hend. lia. }
  eapply wp_span_from; [exact Hm|]. apply toml_wp_gets. cbn [span_begin span_end].
  assert (input (cursor_ p') = text) as -> by (destruct Hok as [(Hi & _) _]; unfold input; by rewrite Hi).
  destruct (trimmed_text p n p' p' Hp Hm Hok) as (Hb & Et & _ & Hlen); [by destruct Hok as [(? & _) _]|].
  set (b := position_ (cursor_ p)) in *. set (k := trim_span (length text) text b (b + n)) in *.
  case_if; [apply wp_fail; auto with toml|]. apply Nat.eqb_neq in Heqb0.
  apply toml_wp_bind. unfold TomlTokens.wp at 1. rewrite Et. apply wp_located; [auto with toml|].
  eapply ends_mono; [apply scalar_token_ends | | done].
  - intros E. apply (f_equal length) in E. rewrite length_take in E. cbn in E. lia.
  - intros v Hv. split; [done|]. exists n. split_and!; [|done | done].
    destruct n; [|lia]. subst k. destruct (trim_span_spec (length text) text b (b + 0)) as [Hk _]; [lia | | lia].
    destruct Hp as [(Hi & _ & Hbb) _]. unfold in_bounds, len, input in Hbb. rewrite Hi in Hbb. cbn in Hbb. lia.
Qed.

(** ** Values *)

(** The limits stay within their types. *)
Definition limits_ok (p : TomlParser) : Prop :=
  1 <= depth p <= 255 /\ 0 <= remaining_values_ p <= MAX usize.

Lemma limits_goes n u p p' :
  limits_ok p -> goes n u (depth p) p p' -> 0 <= u <= remaining_values_ p -> limits_ok p'.
Proof.
  intros [Hd Hv] Hg Hu. unfold limits_ok. rewrite (toml_goes_depth _ _ _ _ _ Hg), (goes_values _ _ _ _ _ Hg). lia.
Qed.

Lemma ok_goes_moves n u d p p1 p' k : goes n u d p p1 -> skipped k p1 p' -> exists m, (n + k <= m)%nat /\ goes m u d p p' /\ ok p'.
Proof.
  intros Hg (m & Hm & Hmv & Hok). exists (n + m)%nat. split_and!; [lia | by eapply goes_moves | done].
Qed.

(** What parsing a value from [p] promises: it consumes input, and the value
    limit pays for its scalars. *)
Definition value_post (p : TomlParser) (v : TValue) (p' : TomlParser) : Prop :=
  value_ok v /\ ok p' /\
  exists n u, (1 <= n)%nat /\ goes n u (depth p) p p' /\ Z.of_nat (scalars v) <= u <= remaining_values_ p.

(** The rest of a bracketed value whose parts so far hold [s] scalars. *)
Definition closing_post (p : TomlParser) (s : nat) (v : TValue) (p' : TomlParser) : Prop :=
  value_ok v /\ ok p' /\
  exists n u, (1 <= n)%nat /\ goes n u (depth p + 1) p p' /\
    Z.of_nat (scalars v) <= Z.of_nat s + u /\ 0 <= u <= remaining_values_ p.

Lemma in_range_u8 z : 0 <= z <= 255 -> in_range u8 z = true.
Proof. unfold in_range. change (MIN u8) with 0. change (MAX u8) with 255. lia. Qed.

Lemma in_range_usize z : 0 <= z <= MAX usize -> in_range usize z = true.
Proof. unfold in_range. change (MIN usize) with 0. lia. Qed.

Lemma enter_wp {B} (k : unit -> TM B) p Q :
  ok0 p -> limits_ok p ->
  (forall p', goes 0 0 (depth p - 1) p p' -> 1 <= depth p' -> wp (k tt) p' Q) -> wp (bind enter k) p Q.
Proof.
  intros Hp [Hd _] Hk. apply toml_wp_bind. unfold enter. apply toml_wp_gets. fold (depth p).
  case_if; [by apply wp_fail|]. eapply toml_wp_option; [apply op_sub_exact; [done | apply in_range_u8; lia]|].
  unfold TomlTokens.wp, modify.
  assert (goes 0 0 (depth p - 1) p (with_depth (depth p - 1) p)) as Hg.
  { split; [lia|]. unfold after, with_depth. rewrite adv_0, Z.sub_0_r. done. }
  apply Hk; [done|]. rewrite (toml_goes_depth _ _ _ _ _ Hg). lia.
Qed.

(** The closing bracket. *)
Lemma wp_close p b l (v : TValue) s :
  ok p -> rest p = b :: l -> 0 <= b < 128 -> 1 <= depth p <= 254 -> 0 <= remaining_values_ p ->
  value_ok v -> (scalars v <= s)%nat ->
  wp (do* take ;; do* leave ;; ret v) p (closing_post p s).
Proof.
  intros Hp E Hb Hd Hv Hok Hs. eapply toml_wp_take; [exact E|]. intros p1 H1 _.
  assert (ok p1) as Hp1 by (eapply (ok_step p); [auto with toml | done..]).
  pose proof (moves_depth _ _ _ H1) as Ed. apply toml_wp_bind. unfold leave. apply toml_wp_gets. fold (depth p1). rewrite Ed.
  eapply toml_wp_option; [apply op_add_exact; [done | apply in_range_u8; lia]|].
  unfold TomlTokens.wp at 1, modify. apply toml_wp_ret.
  assert (goes 0 0 (depth p + 1) p1 (with_depth (depth p + 1) p1)) as Hg.
  { split; [lia|]. unfold after, with_depth. rewrite adv_0, Z.sub_0_r. done. }
  split_and!; [done | split; [eauto with toml | by destruct Hp1] |].
  exists 1%nat, 0. split_and!; [lia | exact (goes_trans _ _ _ _ _ _ _ _ _ H1 Hg) | lia | lia | done].
Qed.

(** What precedes the rest of a bracketed value. *)
Lemma closing_after p s n u p1 s1 v p' :
  goes n u (depth p) p p1 -> 0 <= u <= remaining_values_ p -> Z.of_nat s1 <= Z.of_nat s + u ->
  closing_post p1 s1 v p' -> closing_post p s v p'.
Proof.
  intros Hg Hu Hs (Hv & Hok & m & w & Hm & Hg' & Hsc & Hw). split_and!; [done | done |].
  rewrite (toml_goes_depth _ _ _ _ _ Hg) in Hg'. rewrite (goes_values _ _ _ _ _ Hg) in Hw.
  exists (n + m)%nat, (u + w). split_and!; [lia | by eapply goes_trans | lia | lia | lia].
Qed.

Lemma closes_cons b p : closes b p = true -> b <> 0 -> exists l, rest p = b :: l.
Proof. unfold closes. intros [_ Hb]%andb_true_iff Hn. apply peek_cons; lia. Qed.

(** After a part: the closing bracket, or a comma and either the bracket or
    the next part. *)
Lemma wp_separator p bracket (v : TValue) s (next : TM TValue) :
  ok p -> 0 < bracket < 128 -> 1 <= depth p <= 254 -> 0 <= remaining_values_ p -> value_ok v -> (scalars v <= s)%nat ->
  (forall p', ok p' -> (exists n, (1 <= n)%nat /\ moves n p p') -> wp next p' (closing_post p' s)) ->
  wp (do* consume_trivia ;;
      let* done := gets eof in
      if done : bool then fail UnexpectedEnd
      else
        let* b := gets peek0 in
        if b =? bracket then do* take ;; do* leave ;; ret v
        else if negb (b =? 0x2c) then fail ExpectedCommaOrEnd
        else
          do* take ;;
          do* consume_trivia ;;
          let* closed := gets (closes bracket) in
          if closed : bool then do* take ;; do* leave ;; ret v else next) p (closing_post p s).
Proof.
  intros Hp Hb Hd Hv Hok Hs Hnext. eapply toml_wp_call; [by apply consume_trivia_wp|]. cbn beta. intros _ p1 (n1 & _ & M1 & O1).
  assert (depth p1 = depth p) as D1 by (by eapply moves_depth).
  assert (remaining_values_ p1 = remaining_values_ p) as V1 by (rewrite (goes_values _ _ _ _ _ M1); lia).
  apply toml_wp_gets. destruct (toml_eof_cases p1 (ok_ok0 _ O1)) as [[-> E]|[-> (b & l & E)]]; [apply wp_fail; auto with toml|].
  apply toml_wp_gets. rewrite (toml_peek_rest _ _ _ E). case_if.
  { eapply toml_wp_conseq; [eapply wp_close; [done | done | lia | lia | lia | done | exact Hs]|].
    cbn beta. intros r p' H'. eapply closing_after; [exact M1 | lia | | exact H']. lia. }
  case_if; [apply wp_fail; auto with toml|]. assert (b = 0x2c) as -> by lia.
  eapply toml_wp_take; [exact E|]. intros p2 M2 _. assert (ok p2) as O2 by (eapply (ok_step p1); [auto with toml | done | lia | done]).
  eapply toml_wp_call; [by apply consume_trivia_wp|]. cbn beta. intros _ p3 (n3 & _ & M3 & O3).
  pose proof (moves_trans _ _ _ _ _ M1 (moves_trans _ _ _ _ _ M2 M3)) as M.
  assert (depth p3 = depth p) as D3 by (by eapply moves_depth).
  assert (remaining_values_ p3 = remaining_values_ p) as V3 by (rewrite (goes_values _ _ _ _ _ M); lia).
  apply toml_wp_gets. destruct (closes bracket p3) eqn:Hc.
  - apply closes_cons in Hc as [l3 E3]; [|lia].
    eapply toml_wp_conseq; [eapply wp_close; [done | done | lia | lia | lia | done | exact Hs]|].
    cbn beta. intros r p' H'. eapply closing_after; [exact M | lia | | exact H']. lia.
  - eapply toml_wp_conseq; [apply Hnext; [done|]; eexists; split; [|exact M]; lia|].
    cbn beta. intros r p' H'. eapply closing_after; [exact M | lia | | exact H']. lia.
Qed.

(** What a value promises once its own slot is paid for. *)
Definition body_post (p : TomlParser) (v : TValue) (p' : TomlParser) : Prop :=
  value_ok v /\ ok p' /\
  exists n u, (1 <= n)%nat /\ goes n u (depth p) p p' /\
    Z.of_nat (scalars v) <= u + 1 /\ 0 <= u <= remaining_values_ p.

Lemma scalar_scalars v : scalar_ok v -> scalars v = 1%nat.
Proof. intros (_ & Ht & Ha). by destruct v. Qed.

Lemma body_scalar p v p' : limits_ok p -> scalar_ok v -> skipped 1 p p' -> body_post p v p'.
Proof.
  intros [_ Hl] Hv (n & Hn & Hm & Hok). split_and!; [apply Hv | done |].
  exists n, 0. rewrite (scalar_scalars v Hv). split_and!; [done | done | lia | lia | lia].
Qed.

Lemma wp_bracket p open bracket l (empty : TValue) (parts : TM TValue) :
  ok p -> limits_ok p -> rest p = open :: l -> 0 <= open < 128 -> 0 < bracket < 128 ->
  value_ok empty -> scalars empty = 0%nat ->
  (forall p', ok p' -> limits_ok p' -> depth p' <= 254 -> (left_bytes p' < left_bytes p)%nat ->
     wp parts p' (closing_post p' 0)) ->
  wp (do* enter ;;
      do* take ;;
      do* consume_trivia ;;
      let* e := gets (closes bracket) in
      if e : bool then do* take ;; do* leave ;; ret empty else parts) p (body_post p).
Proof.
  intros Hp Hl E Ho Hb Hv Hs Hparts. apply enter_wp; [auto with toml | done |]. intros p1 G1 D1.
  assert (rest p1 = open :: l) as E1 by (by rewrite (rest_goes _ _ _ _ _ G1)).
  eapply toml_wp_take; [exact E1|]. intros p2 M2 _.
  assert (ok p2) as O2 by (eapply (ok_step p1); [eauto with toml | done | lia | done]).
  eapply toml_wp_call; [by apply consume_trivia_wp|]. cbn beta. intros _ p3 (n3 & _ & M3 & O3).
  pose proof (goes_moves _ _ _ _ _ _ _ G1 (moves_trans _ _ _ _ _ M2 M3)) as G.
  pose proof (toml_goes_depth _ _ _ _ _ G) as D. pose proof (toml_goes_left _ _ _ _ _ G) as L.
  pose proof (goes_values _ _ _ _ _ G) as V. rewrite (toml_goes_depth _ _ _ _ _ G1) in D1. destruct Hl as [Hd Hval].
  assert (forall v p', closing_post p3 0 v p' -> body_post p v p') as Hdone.
  { intros v p' (Hv' & Hok & n & u & Hn & Hg & Hsc & Hu). split_and!; [done | done |].
    exists (0 + (1 + n3) + n)%nat, (0 + u). split_and!; [lia | | lia | lia | lia].
    rewrite D in Hg. replace (depth p - 1 + 1) with (depth p) in Hg by lia. by eapply goes_trans. }
  apply toml_wp_gets. destruct (closes bracket p3) eqn:Hc.
  - apply closes_cons in Hc as [l3 E3]; [|lia]. eapply toml_wp_conseq; [|exact Hdone].
    eapply wp_close; [done | done | lia | lia | lia | done | lia].
  - eapply toml_wp_conseq; [|exact Hdone]. apply Hparts; [done | split; lia | lia | lia].
Qed.

Section Steps.
Context `{DecimalConversionLaws} (fuel : nat).

(** The three loops, with the fuel their input needs. *)
Definition value_spec : Prop := forall p,
  ok p -> limits_ok p -> (2 * left_bytes p + 2 <= fuel)%nat -> wp (parse_value fuel) p (value_post p).
Definition array_spec : Prop := forall p vs,
  ok p -> limits_ok p -> depth p <= 254 -> Forall value_ok vs -> (2 * left_bytes p + 3 <= fuel)%nat ->
  wp (parse_array fuel vs) p (closing_post p (scalars (TArray vs))).
Definition inline_spec : Prop := forall p t d,
  ok p -> limits_ok p -> depth p <= 254 -> mirrored d t -> table_ok t -> (2 * left_bytes p + 3 <= fuel)%nat ->
  wp (parse_inline_table fuel t d) p (closing_post p (scalars (TTable t))).
End Steps.

Lemma parse_value_step `{DecimalConversionLaws} fuel : array_spec fuel -> inline_spec fuel -> value_spec (S fuel).
Proof.
  intros HA HI p Hp Hl Hf. cbn [parse_value]. apply toml_wp_gets.
  destruct (toml_eof_cases p (ok_ok0 _ Hp)) as [[-> E]|[-> (b & l & E)]]; [apply wp_fail; auto with toml|].
  apply toml_wp_gets. destruct (remaining_values_ p =? 0) eqn:Ez; [apply wp_fail; auto with toml|].
  pose proof Hl as [Hd Hv]. eapply toml_wp_option; [apply op_sub_exact; [done | apply in_range_usize; lia]|].
  apply toml_wp_bind. unfold TomlTokens.wp at 1, modify. set (p1 := with_values (remaining_values_ p - 1) p).
  assert (goes 0 1 (depth p) p p1) as G.
  { split; [lia|]. unfold after, p1, with_values, depth. by rewrite adv_0. }
  assert (limits_ok p1) as Hl1 by (split; [done | change (0 <= remaining_values_ p - 1 <= MAX usize); lia]). change (ok p1) in Hp.
  change (rest p1 = b :: l) in E. apply toml_wp_gets. rewrite (toml_peek_rest _ _ _ E).
  eapply (toml_wp_conseq _ _ (body_post p1)).
  2:{ intros v p' (Hok & Hp' & n & u & Hn & Hg & Hsc & Hu). split_and!; [done | done |].
      exists (0 + n)%nat, (1 + u). change (depth p1) with (depth p) in Hg. cbn in Hu.
      split_and!; [lia | by eapply goes_trans | lia | lia]. }
  case_if.
  { eapply toml_wp_call; [eapply parse_basic_string_wp; [done|]; rewrite E; f_equal; lia|]. cbn beta. intros s p' [Hs S].
    apply toml_wp_ret, body_scalar; [done | apply scalar_intro; [by constructor | done] | done]. }
  case_if.
  { eapply toml_wp_call; [eapply parse_literal_string_wp; [done|]; rewrite E; f_equal; lia|]. cbn beta. intros s p' [Hs S].
    apply toml_wp_ret, body_scalar; [done | apply scalar_intro; [by constructor | done] | done]. }
  case_if.
  { eapply wp_bracket; [done | done | exact E | lia | lia | by constructor | done |].
    intros p' Hp' Hl' Hd' Hlt. apply (HA p' []); [done | done | done | constructor |].
    change (left_bytes p1) with (left_bytes p) in Hlt. lia. }
  case_if.
  { eapply wp_bracket; [done | done | exact E | lia | lia | apply table_ok_nil | done |].
    intros p' Hp' Hl' Hd' Hlt. apply (HI p' []); [done | done | done | constructor | apply table_ok_nil |].
    change (left_bytes p1) with (left_bytes p) in Hlt. lia. }
  eapply toml_wp_conseq; [by apply parse_scalar_wp|]. cbn beta. intros v p' [Hv' S]. by apply body_scalar.
Qed.

Lemma parse_array_step `{DecimalConversionLaws} fuel : value_spec fuel -> array_spec fuel -> array_spec (S fuel).
Proof.
  intros HV HA p vs Hp Hl Hd Hvs Hf. cbn [parse_array].
  eapply toml_wp_call; [apply HV; [done | done | lia]|]. cbn beta. intros v p1 (Hv & O1 & n & u & Hn & Hg & Hu).
  pose proof (toml_goes_depth _ _ _ _ _ Hg) as D1. pose proof (goes_values _ _ _ _ _ Hg) as V1.
  pose proof (toml_goes_left _ _ _ _ _ Hg) as L1. pose proof Hl as [Hd' Hval].
  assert (Forall value_ok (vs ++ [v])) as Hvs' by (apply Forall_app; split; [done | by constructor]).
  eapply toml_wp_conseq.
  - apply (wp_separator p1 0x5d (TArray (vs ++ [v])) (scalars (TArray (vs ++ [v]))));
      [done | lia | lia | lia | by constructor | lia |].
    intros p2 O2 (m & Hm & M2). pose proof (toml_goes_left _ _ _ _ _ M2). pose proof (goes_values _ _ _ _ _ M2).
    apply HA; [done | | rewrite (moves_depth _ _ _ M2); lia | done | lia].
    split; [rewrite (moves_depth _ _ _ M2); lia | lia].
  - cbn beta. intros r p2 Hr. eapply closing_after; [exact Hg | lia | | exact Hr].
    rewrite !scalars_array, sum_list_with_app. cbn [sum_list_with]. lia.
Qed.

Lemma parse_inline_step `{DecimalConversionLaws} fuel : value_spec fuel -> inline_spec fuel -> inline_spec (S fuel).
Proof.
  intros HV HI p t d Hp Hl Hd Hmir Htab Hf. cbn [parse_inline_table].
  eapply toml_wp_call; [by apply parse_key_path_wp|]. cbn beta. intros path p1 [[Hne Hkeys] (n1 & Hn1 & M1 & O1)].
  eapply toml_wp_call; [by apply consume_trivia_wp|]. cbn beta. intros _ p2 (n2 & _ & M2 & O2).
  apply toml_wp_gets. case_if; [apply wp_fail; auto with toml|]. apply orb_false_iff in Heqb as [_ Heq].
  destruct (peek_cons p2 0x3d) as [l E]; [lia | lia |]. eapply toml_wp_take; [exact E|]. intros p3 M3 _.
  assert (ok p3) as O3 by (eapply (ok_step p2); [auto with toml | done | lia | done]).
  eapply toml_wp_call; [by apply consume_trivia_wp|]. cbn beta. intros _ p4 (n4 & _ & M4 & O4).
  pose proof (moves_trans _ _ _ _ _ M1 (moves_trans _ _ _ _ _ M2 (moves_trans _ _ _ _ _ M3 M4))) as M.
  pose proof (moves_depth _ _ _ M) as D. pose proof (goes_values _ _ _ _ _ M) as V. pose proof (toml_goes_left _ _ _ _ _ M) as L.
  pose proof Hl as [Hd' Hval].
  eapply toml_wp_call; [apply HV; [done | split; lia | lia]|]. cbn beta. intros v p5 (Hv & O5 & n5 & u & Hn5 & G5 & Hu).
  pose proof (moves_goes _ _ _ _ _ _ _ M G5) as G. rewrite D in G.
  pose proof (toml_goes_depth _ _ _ _ _ G) as D5. pose proof (goes_values _ _ _ _ _ G) as V5.
  pose proof (toml_goes_left _ _ _ _ _ G) as L5.
  apply toml_wp_bind, wp_located; [auto with toml|].
  eapply ends_mono; [by apply insert_path_ends | | done]. intros [t' d'] (_ & Hmir' & Htab' & _ & Hsc). cbn [fst snd] in *.
  eapply toml_wp_conseq.
  - apply (wp_separator p5 0x7d (TTable t') (scalars (TTable t'))); [done | lia | lia | lia | done | lia |].
    intros p6 O6 (m & Hm & M6). pose proof (toml_goes_left _ _ _ _ _ M6). pose proof (goes_values _ _ _ _ _ M6).
    apply HI; [done | | rewrite (moves_depth _ _ _ M6); lia | done | done | lia].
    split; [rewrite (moves_depth _ _ _ M6); lia | lia].
  - cbn beta. intros r p6 Hr. eapply closing_after; [exact G | lia | | exact Hr]. lia.
Qed.

Lemma parse_value_all `{DecimalConversionLaws} fuel : value_spec fuel /\ array_spec fuel /\ inline_spec fuel.
Proof.
  induction fuel as [|fuel (HV & HA & HI)].
  - split_and!; [intros p _ _ ?; lia | intros p vs _ _ _ _ ?; lia | intros p t d _ _ _ _ _ ?; lia].
  - split_and!; [by apply parse_value_step | by apply parse_array_step | by apply parse_inline_step].
Qed.

Lemma value_wp `{DecimalConversionLaws} p : ok p -> limits_ok p -> wp value p (value_post p).
Proof. intros Hp Hl. apply toml_wp_gets. apply (parse_value_all _); [done | done | unfold value_fuel; lia]. Qed.

(** ** Statements *)

(** The document corresponds to its definitions and is well formed. *)
Definition doc_ok (p : TomlParser) : Prop :=
  mirrored (definitions_ p) (root_ p) /\ table_ok (root_ p) /\ Forall is_text (current_path_ p).

(** Every scalar of the document was paid for out of [limit] values. *)
Definition paid (limit : Z) (p : TomlParser) : Prop :=
  Z.of_nat (scalars (TTable (root_ p))) + remaining_values_ p <= limit.

Definition state_ok (limit : Z) (p : TomlParser) : Prop := ok p /\ limits_ok p /\ doc_ok p /\ paid limit p.

(** A statement consumes input and only adds to the document. *)
Definition statement_post (limit : Z) (p p' : TomlParser) : Prop :=
  state_ok limit p' /\ (left_bytes p' < left_bytes p)%nat /\ extends (TTable (root_ p)) (TTable (root_ p')).

Lemma doc_goes n u d p p' :
  goes n u d p p' ->
  root_ p' = root_ p /\ definitions_ p' = definitions_ p /\ current_path_ p' = current_path_ p.
Proof. by intros [_ ->]. Qed.

(** Writing a grown document back. *)
Lemma state_written limit p n u p1 root defs path k :
  state_ok limit p -> ok p1 -> goes n u (depth p) p p1 -> (1 <= n)%nat -> Z.of_nat k <= u <= remaining_values_ p ->
  grows (root_ p) (definitions_ p) k root defs -> Forall is_text path ->
  statement_post limit p (with_path path (with_document root defs p1)).
Proof.
  intros (Hp & Hl & (Hm & Ht & Hcp) & Hpaid) O1 G Hn Hu (_ & Gm & Gt & Ge & Gs) Hpath.
  pose proof (toml_goes_left _ _ _ _ _ G) as L. pose proof (goes_values _ _ _ _ _ G) as V.
  pose proof (limits_goes _ _ _ _ Hl G ltac:(lia)) as Hl1. split_and!; [split_and!|..].
  - exact O1.
  - exact Hl1.
  - done.
  - unfold paid in *. cbn [root_ with_path with_document remaining_values_]. rewrite Gs. lia.
  - change (left_bytes p1 < left_bytes p)%nat. lia.
  - exact Ge.
Qed.

Lemma statement_skipped limit p p1 p2 :
  statement_post limit p p1 -> skipped 0 p1 p2 -> statement_post limit p p2.
Proof.
  intros ((_ & Hl & (? & ? & ?) & Hpaid) & Hleft & He) (n & _ & M & O2).
  destruct (doc_goes _ _ _ _ _ M) as (E1 & E2 & E3). pose proof (toml_goes_left _ _ _ _ _ M).
  pose proof (goes_values _ _ _ _ _ M) as V. unfold statement_post, state_ok, doc_ok, paid, limits_ok in *.
  rewrite E1, E2, E3, V, (moves_depth _ _ _ M). split_and!; try done; lia.
Qed.

Lemma with_path_same p : with_path (current_path_ p) p = p.
Proof. by destruct p. Qed.

Lemma parse_assignment_wp `{DecimalConversionLaws} limit p :
  state_ok limit p -> wp parse_assignment p (fun _ p' => statement_post limit p p').
Proof.
  intros Hst. pose proof Hst as (Hp & Hl & (Hm & Ht & Hcp) & Hpaid). unfold parse_assignment.
  eapply toml_wp_call; [by apply parse_key_path_wp|]. cbn beta. intros path p1 [[Hne Hkeys] S1].
  eapply toml_wp_call; [apply consume_horizontal_wp; eauto with toml|]. cbn beta. intros _ p2 [S2 _].
  pose proof (skipped_trans _ _ _ _ _ S1 S2) as S12.
  apply toml_wp_gets. case_if; [apply wp_fail; eauto with toml|]. apply orb_false_iff in Heqb as [_ Heq].
  destruct (peek_cons p2 0x3d) as [l E]; [lia | lia |]. eapply toml_wp_take; [exact E|]. intros p3 M3 _.
  assert (skipped 1 p2 p3) as S3 by (eapply skipped_step; [eauto with toml | done | lia | done]).
  eapply toml_wp_call; [apply consume_horizontal_wp; eauto with toml|]. cbn beta. intros _ p4 [S4 _].
  destruct (skipped_trans _ _ _ _ _ S12 (skipped_trans _ _ _ _ _ S3 S4)) as (n & Hn & M & O4).
  assert (limits_ok p4) as Hl4 by (destruct Hl as [? ?]; eapply limits_goes; [by split | exact M | lia]).
  eapply toml_wp_call; [by apply value_wp|]. cbn beta. intros v p5 (Hv & O5 & n5 & u & Hn5 & G5 & Hu).
  pose proof (moves_goes _ _ _ _ _ _ _ M G5) as G. rewrite (moves_depth _ _ _ M) in G.
  destruct (doc_goes _ _ _ _ _ G) as (E1 & E2 & E3). rewrite (goes_values _ _ _ _ _ M) in Hu.
  apply toml_wp_gets. rewrite E1, E2, E3. destruct (resolve_table (root_ p) (current_path_ p)) as [root|] eqn:Er;
    [|apply wp_fail; auto with toml].
  destruct (resolve_definition (definitions_ p) (current_path_ p) ImplicitTable false) as [defs|] eqn:Ed;
    [|apply wp_fail; auto with toml].
  destruct (grows_at _ _ _ ImplicitTable false _ Hm Ht Hcp eq_refl Ed) as (t1 & dp & tp & Er' & -> & Etp & Hmp & Htp & Hgrow).
  rewrite Er in Er'. injection Er' as <-. rewrite Etp.
  apply toml_wp_bind, wp_located; [auto with toml|].
  eapply ends_mono; [by apply insert_path_ends | | done]. intros [t' d'] Hg. cbn [fst snd] in Hg.
  apply toml_wp_bind. unfold TomlTokens.wp at 1, modify.
  assert (Z.of_nat (scalars v) <= u <= remaining_values_ p) as Hu' by lia.
  pose proof (state_written limit p _ u p5 _ _ (current_path_ p) _ Hst O5 G ltac:(lia) Hu' (Hgrow _ _ _ Hg) Hcp) as Hw.
  rewrite <- E3 in Hw. change (current_path_ p5) with
    (current_path_ (with_document (set_table root (current_path_ p5) t') (set_node defs (current_path_ p5) d') p5)) in Hw at 1.
  rewrite with_path_same, E3 in Hw. eapply toml_wp_conseq; [apply finish_line_wp; apply Hw|].
  cbn beta. intros _ p6 S6. by eapply statement_skipped.
Qed.

(** The bracket, or the two, that close a header. *)
Lemma header_close_wp {B} array (k : unit -> TM B) p0 p Q :
  skipped 1 p0 p -> (forall p', skipped 1 p0 p' -> wp (k tt) p' Q) ->
  wp (let* closed := gets (closes 0x5d) in
      if negb closed then fail UnexpectedCharacter
      else
        do* take ;;
        let* closed := (if array : bool then gets (closes 0x5d) else ret true) in
        if negb closed then fail UnexpectedCharacter
        else do* (if array then do* take ;; ret tt else ret tt) ;; k tt) p Q.
Proof.
  intros S Hk. apply toml_wp_gets. destruct (closes 0x5d p) eqn:Hc; [|apply wp_fail; eauto with toml].
  apply closes_cons in Hc as [l E]; [|lia]. eapply toml_wp_take; [exact E|]. intros p1 M1 _.
  assert (skipped 1 p p1) as S1 by (eapply skipped_step; [eauto with toml | done | lia | done]).
  assert (skipped 1 p0 p1) as S01 by (eapply skipped_weaken; [|exact (skipped_trans _ _ _ _ _ S S1)]; lia).
  destruct array; [|by apply toml_wp_bind, toml_wp_ret, toml_wp_bind, toml_wp_ret, Hk].
  apply toml_wp_gets. destruct (closes 0x5d p1) eqn:Hc1; [|apply wp_fail; eauto with toml].
  apply closes_cons in Hc1 as [l1 E1]; [|lia]. apply toml_wp_bind. eapply toml_wp_take; [exact E1|]. intros p2 M2 _. apply toml_wp_ret, Hk.
  assert (skipped 1 p1 p2) as S2 by (eapply skipped_step; [eauto with toml | done | lia | done]).
  eapply skipped_weaken; [|exact (skipped_trans _ _ _ _ _ S01 S2)]. lia.
Qed.

Lemma parse_header_wp limit p l :
  state_ok limit p -> rest p = 0x5b :: l -> wp parse_header p (fun _ p' => statement_post limit p p').
Proof.
  intros Hst E. pose proof Hst as (Hp & Hl & (Hm & Ht & Hcp) & Hpaid). unfold parse_header.
  eapply toml_wp_take; [exact E|]. intros p1 M1 _.
  assert (skipped 1 p p1) as S1 by (eapply skipped_step; [auto with toml | done | lia | done]).
  apply toml_wp_gets. set (array := closes 0x5b p1).
  eapply (toml_wp_call _ _ _ (fun _ p' => skipped 1 p p')).
  { destruct array eqn:Ha; [|by apply toml_wp_ret]. subst array. apply closes_cons in Ha as [l1 E1]; [|lia].
    eapply toml_wp_take; [exact E1|]. intros p2 M2 _. apply toml_wp_ret.
    assert (skipped 1 p1 p2) as S2 by (eapply skipped_step; [eauto with toml | done | lia | done]).
    eapply skipped_weaken; [|exact (skipped_trans _ _ _ _ _ S1 S2)]. lia. }
  intros _ p2 S2. eapply toml_wp_call; [apply consume_horizontal_wp; eauto with toml|]. cbn beta. intros _ p3 [S3 _].
  eapply toml_wp_call; [apply parse_key_path_wp; eauto with toml|]. cbn beta. intros path p4 [[Hne Hkeys] S4].
  eapply toml_wp_call; [apply consume_horizontal_wp; eauto with toml|]. cbn beta. intros _ p5 [S5 _].
  pose proof (skipped_trans _ _ _ _ _ S2 (skipped_trans _ _ _ _ _ S3 (skipped_trans _ _ _ _ _ S4 S5))) as S.
  eapply (header_close_wp array (fun _ => _)); [eapply skipped_weaken; [|exact S]; lia|].
  intros p6 (n & Hn & M & O6). destruct (doc_goes _ _ _ _ _ M) as (E1 & E2 & E3).
  apply toml_wp_gets. rewrite E1, E2. destruct path as [|key path _] using rev_ind; [done|]. rewrite last_snoc, removelast_last.
  pose proof Hkeys as Hkeys'. apply Forall_app in Hkeys' as [Hpath Hkey]. apply Forall_cons_1 in Hkey as [Hkey _].
  destruct (resolve_definition (definitions_ p) path ImplicitTable true) as [defs|] eqn:Ed; [|apply wp_fail; auto with toml].
  destruct (grows_at _ _ _ ImplicitTable true _ Hm Ht Hpath eq_refl Ed) as (root & dp & tp & -> & -> & -> & Hmp & Htp & Hgrow).
  apply toml_wp_bind, wp_located; [auto with toml|].
  eapply ends_mono; [by apply apply_header_ends | | done]. intros [t' d'] Hg. cbn [fst snd] in Hg.
  apply toml_wp_bind. unfold TomlTokens.wp at 1, modify. apply toml_wp_bind. unfold TomlTokens.wp at 1, modify.
  destruct Hl as [Hd Hval].
  assert (Z.of_nat 0 <= 0 <= remaining_values_ p) as Hu by lia.
  pose proof (state_written limit p n 0 p6 _ _ (path ++ [key]) 0 Hst O6 M Hn Hu (Hgrow _ _ _ Hg) Hkeys) as Hw.
  eapply toml_wp_conseq; [apply finish_line_wp; apply Hw|]. cbn beta. intros _ p7 S7. by eapply statement_skipped.
Qed.
End Correct.

Arguments state_ok text limit p : clear implicits.
Arguments statement_post text limit p p' : clear implicits.
