(* ===== verification/TomlSpec.v ===== *)
(** * TOML: what the entry points promise

    [from_str], [from_slice], [parse_key_path], [parse_value],
    [parse_assignment] and [parse_assignment_text] of
    [src/toml/src/parser.cpp]. *)

From Stdlib Require Import ZArith Lia ZifyBool.
From stdpp Require Import relations.
From S2P Require Import Prelude Int Utf8 Str Cursor OrdMap FloatSpec Dec2Flt Dec2FltSpec Toml TomlScalar.
From S2P Require Import TomlScalar TomlParser TomlCorrect TomlTokens.
Local Open Scope Z_scope.
Local Open Scope rstd_scope.

(** Limits of the types of [ParseOptions]. *)
Definition options_ok (o : TomlOptions) : Prop :=
  0 <= toml_max_depth o <= 255 /\ 0 <= max_values o <= MAX usize.

Lemma default_options_ok : options_ok toml_default_options.
Proof. unfold options_ok. cbn. lia. Qed.

Section Entry.
Context {text : list Z} {Htext : Text text} (options : TomlOptions) (Hopt : options_ok options).
Abbreviation wp := (wp text).
Abbreviation ok := (ok text).
Abbreviation state_ok := (state_ok text).
Abbreviation statement_post := (statement_post text).

Lemma parser_new_ok : ok (parser_new text options).
Proof.
  split.
  - split_and!; [done | done |]. unfold in_bounds. cbn. lia.
  - exact Htext.
Qed.

Lemma parser_new_doc : doc_ok (parser_new text options) /\ paid (max_values options) (parser_new text options).
Proof. split; [split_and!; [constructor | apply table_ok_nil | constructor] | unfold paid; cbn; lia]. Qed.

Lemma parser_new_limits : toml_max_depth options <> 0 -> limits_ok (parser_new text options).
Proof. intros Hd. destruct Hopt as [? ?]. unfold limits_ok, depth. cbn -[MAX]. lia. Qed.

Lemma statement_wp `{DecimalConversionLaws} limit p b l :
  state_ok limit p -> rest p = b :: l -> wp statement p (fun _ p' => statement_post limit p p').
Proof.
  intros Hst E. unfold statement. apply toml_wp_gets. rewrite (toml_peek_rest _ _ _ E).
  eapply (toml_wp_call _ _ _ (fun _ p' => statement_post limit p p')).
  { case_if; [eapply parse_header_wp; [done|]; rewrite E; f_equal; lia | by apply parse_assignment_wp]. }
  cbn beta. intros _ p1 H1. pose proof H1 as ((O1 & _) & _).
  eapply toml_wp_conseq; [by apply consume_trivia_wp|]. cbn beta. intros _ p2 S2. by eapply statement_skipped.
Qed.

Lemma document_loop_wp `{DecimalConversionLaws} limit fuel p :
  state_ok limit p -> (left_bytes p < fuel)%nat ->
  wp (document_loop fuel) p (fun _ p' => state_ok limit p' /\ extends (TTable (root_ p)) (TTable (root_ p'))).
Proof.
  revert p. induction fuel as [|fuel IH]; intros p Hst Hf; [lia|]. cbn [document_loop]. apply toml_wp_gets.
  pose proof Hst as (Hp & _).
  destruct (toml_eof_cases p (ok_ok0 _ Hp)) as [[-> E]|[-> (b & l & E)]].
  { apply toml_wp_ret. split; [done | apply extends_refl]. }
  eapply toml_wp_call; [by eapply statement_wp|]. cbn beta. intros _ p2 (Hst2 & Hl2 & He2).
  eapply toml_wp_conseq; [apply IH; [done | lia]|]. cbn beta. intros _ p3 [Hst3 He3]. split; [done|].
  by eapply extends_trans.
Qed.

Lemma check_input_wp {B} (k : unit -> TM B) Q :
  (Z.of_nat (length text) <= max_input_bytes options -> wp (k tt) (parser_new text options) Q) ->
  wp (bind check_input k) (parser_new text options) Q.
Proof.
  intros Hk. apply toml_wp_bind. unfold check_input. apply toml_wp_gets. case_if; [apply wp_fail, parser_new_ok|].
  apply toml_wp_ret, Hk. apply Z.ltb_ge in Heqb. exact Heqb.
Qed.

Lemma check_depth_wp {B} (k : unit -> TM B) Q :
  (toml_max_depth options <> 0 -> wp (k tt) (parser_new text options) Q) ->
  wp (bind check_depth k) (parser_new text options) Q.
Proof.
  intros Hk. apply toml_wp_bind. unfold check_depth. apply toml_wp_gets. case_if; [apply wp_fail, parser_new_ok|].
  apply toml_wp_ret, Hk. by apply Z.eqb_neq in Heqb.
Qed.

(** What a parsed document promises. *)
Definition document_ok (v : TValue) : Prop :=
  toml_max_depth options <> 0 /\ Z.of_nat (length text) <= max_input_bytes options /\
  value_ok v /\ is_Table v = true /\ Z.of_nat (scalars v) <= max_values options.

(** The white space and the comments before the first statement. *)
Lemma opening_wp : toml_max_depth options <> 0 ->
  wp consume_trivia (parser_new text options) (fun _ p => state_ok (max_values options) p).
Proof.
  intros Hd. eapply toml_wp_conseq; [apply consume_trivia_wp, parser_new_ok|]. cbn beta. intros _ p1 (n & _ & M & O1).
  destruct (doc_goes _ _ _ _ _ M) as (E1 & E2 & E3). pose proof (goes_values _ _ _ _ _ M) as V.
  destruct parser_new_doc as [Hdoc Hpaid]. pose proof (parser_new_limits Hd) as Hl.
  unfold state_ok, doc_ok, paid in *. rewrite E1, E2, E3, V, Z.sub_0_r. split_and!; [done | | apply Hdoc..| done].
  eapply limits_goes; [exact Hl | exact M|]. destruct Hl. lia.
Qed.

Lemma parse_wp `{DecimalConversionLaws} : wp parse (parser_new text options) (fun v _ => document_ok v).
Proof.
  apply check_depth_wp. intros Hd. apply check_input_wp. intros Hi.
  eapply toml_wp_call; [by apply opening_wp|]. cbn beta. intros _ p1 Hst.
  apply toml_wp_gets. eapply toml_wp_call; [apply document_loop_wp; [exact Hst | lia]|]. cbn beta. intros _ p2 [Hst2 _].
  apply toml_wp_gets, toml_wp_ret. destruct Hst2 as (_ & [_ Hv] & (_ & Ht & _) & Hpaid). unfold paid in Hpaid.
  split_and!; [done | done | done | done | lia].
Qed.

Lemma ends_run {A} (m : TM A) Q :
  wp m (parser_new text options) (fun a _ => Q a) -> ends (run m text options) Q (error_ok text).
Proof. unfold TomlTokens.wp, run. by destruct (m _) as [[]?]. Qed.

Lemma at_end_wp p (Q : unit -> TomlParser -> Prop) : ok p -> Q tt p -> wp at_end p Q.
Proof. intros Hp HQ. unfold at_end. apply toml_wp_gets. case_if; [apply wp_fail; auto with toml | by apply toml_wp_ret]. Qed.

Lemma parse_standalone_key_wp : wp parse_standalone_key (parser_new text options) (fun ks _ => keys_ok ks).
Proof.
  apply check_input_wp. intros _. eapply toml_wp_call; [apply consume_horizontal_wp, parser_new_ok|].
  cbn beta. intros _ p1 [S1 _]. eapply toml_wp_call; [apply parse_key_path_wp; eauto with toml|].
  cbn beta. intros ks p2 [Hks S2]. eapply toml_wp_call; [apply consume_horizontal_wp; eauto with toml|].
  cbn beta. intros _ p3 [S3 _]. apply toml_wp_bind, at_end_wp; [eauto with toml|]. by apply toml_wp_ret.
Qed.

Lemma assignment_key_wp p :
  ok p -> wp assignment_key p (fun ks p' => keys_ok ks /\ skipped text 1 p p').
Proof.
  intros Hp. unfold assignment_key. eapply toml_wp_call; [by apply consume_horizontal_wp|]. cbn beta. intros _ p1 [S1 _].
  eapply toml_wp_call; [apply parse_key_path_wp; eauto with toml|]. cbn beta. intros ks p2 [Hks S2].
  eapply toml_wp_call; [apply consume_horizontal_wp; eauto with toml|]. cbn beta. intros _ p3 [S3 _].
  apply toml_wp_gets. case_if; [apply wp_fail; eauto with toml|]. apply orb_false_iff in Heqb as [_ Heq].
  destruct (peek_cons p3 0x3d) as [l E]; [lia | lia |]. eapply toml_wp_take; [exact E|]. intros p4 M4 _.
  assert (skipped text 1 p3 p4) as S4 by (eapply skipped_step; [eauto with toml | done | lia | done]).
  eapply toml_wp_call; [apply consume_horizontal_wp; eauto with toml|]. cbn beta. intros _ p5 [S5 _].
  apply toml_wp_ret. split; [done|]. pose proof (skipped_trans _ _ _ _ _ S1 (skipped_trans _ _ _ _ _ S2
    (skipped_trans _ _ _ _ _ S3 (skipped_trans _ _ _ _ _ S4 S5)))) as S. eapply skipped_weaken; [|exact S]. lia.
Qed.

(** A value after which only white space is left. *)
Lemma last_value_wp `{DecimalConversionLaws} {B} (f : TValue -> B) (Q : B -> Prop) p :
  ok p -> limits_ok p -> (forall v, value_ok v -> Z.of_nat (scalars v) <= remaining_values_ p -> Q (f v)) ->
  wp (let* v := value in do* consume_horizontal ;; do* at_end ;; ret (f v)) p (fun b _ => Q b).
Proof.
  intros Hp Hl HQ. eapply toml_wp_call; [by apply value_wp|]. cbn beta. intros v p1 (Hv & O1 & n & u & _ & _ & Hu).
  eapply toml_wp_call; [by apply consume_horizontal_wp|]. cbn beta. intros _ p2 [S2 _].
  apply toml_wp_bind, at_end_wp; [eauto with toml|]. apply toml_wp_ret, HQ; [done | lia].
Qed.

Lemma limits_skipped k p p' : limits_ok p -> skipped text k p p' -> limits_ok p' /\ remaining_values_ p' = remaining_values_ p.
Proof.
  intros Hl (n & _ & M & _). pose proof (goes_values _ _ _ _ _ M) as V. split; [|lia].
  eapply limits_goes; [exact Hl | exact M|]. destruct Hl. lia.
Qed.

Lemma parse_standalone_value_wp `{DecimalConversionLaws} :
  wp parse_standalone_value (parser_new text options)
    (fun v _ => value_ok v /\ Z.of_nat (scalars v) <= max_values options).
Proof.
  apply check_depth_wp. intros Hd. apply check_input_wp. intros _.
  eapply toml_wp_call; [apply consume_horizontal_wp, parser_new_ok|]. cbn beta. intros _ p1 [S1 _].
  destruct (limits_skipped _ _ _ (parser_new_limits Hd) S1) as [L1 V1].
  apply (last_value_wp (fun v => v) (fun v => value_ok v /\ Z.of_nat (scalars v) <= max_values options)); [eauto with toml | done |].
  intros v Hv Hs. split; [done|]. rewrite V1 in Hs. exact Hs.
Qed.

Lemma parse_standalone_assignment_wp `{DecimalConversionLaws} :
  wp parse_standalone_assignment (parser_new text options)
    (fun r _ => keys_ok (fst r) /\ value_ok (snd r) /\ Z.of_nat (scalars (snd r)) <= max_values options).
Proof.
  apply check_depth_wp. intros Hd. apply check_input_wp. intros _.
  eapply toml_wp_call; [apply assignment_key_wp, parser_new_ok|]. cbn beta. intros key p1 [Hk S1].
  destruct (limits_skipped _ _ _ (parser_new_limits Hd) S1) as [L1 V1].
  apply (last_value_wp (fun v => (key, v))
    (fun r => keys_ok (fst r) /\ value_ok (snd r) /\ Z.of_nat (scalars (snd r)) <= max_values options)); [eauto with toml | done |].
  intros v Hv Hs. split_and!; [done..|]. rewrite V1 in Hs. exact Hs.
Qed.

Lemma parse_standalone_assignment_text_wp :
  wp parse_standalone_assignment_text (parser_new text options)
    (fun r _ => keys_ok (fst r) /\ is_text (snd r) /\ snd r <> []).
Proof.
  apply check_input_wp. intros _.
  eapply toml_wp_call; [apply assignment_key_wp, parser_new_ok|]. cbn beta. intros key p1 [Hk S1].
  pose proof (skipped_ok _ _ _ S1) as O1. pose proof (ok_ok0 _ O1) as (Hi & _ & Hb).
  apply toml_wp_gets, toml_wp_gets. assert (input (cursor_ p1) = text) as -> by (unfold input; by rewrite Hi).
  unfold in_bounds, len, input in Hb. rewrite Hi in Hb. cbn in Hb.
  set (pe := after (left_bytes p1) 0 (depth p1) p1).
  assert (moves (left_bytes p1) p1 pe) as Me by (split; [lia | done]).
  assert (ok pe) as Oe.
  { apply ok_end; [eauto with toml|]. rewrite (rest_goes _ _ _ _ _ Me), <- toml_rest_length. apply drop_all. }
  destruct (trimmed_text p1 _ pe p1 O1 Me Oe Hi) as (Hle & Et & Htx & Hlen).
  assert (position_ (cursor_ p1) + left_bytes p1 = length text)%nat as En.
  { unfold left_bytes, remaining, len, input. rewrite Hi. cbn. lia. }
  rewrite En in *. cbn zeta. set (k := trim_span _ _ _ _) in *. case_if; [apply wp_fail; auto with toml|].
  apply Nat.eqb_neq in Heqb. apply toml_wp_bind. unfold TomlTokens.wp at 1. rewrite Et. apply toml_wp_ret. cbn [fst snd].
  split_and!; [done | done |]. intros E. apply (f_equal length) in E. rewrite length_take in E. cbn in E. lia.
Qed.
End Entry.

(** ** Documents *)

(** C10: Parsing a TOML document always ends, without a panic: [from_str] and
    [from_slice] return a document or an error, and an error carries an offset
    inside the text together with the line and column of that offset.  This
    is the specification of the whole parser: every loop ends, no index is out
    of range, no counter overflows and no [unwrap] fails, whatever the text
    and the limits. *)
Theorem toml_parsing_settles text options :
  is_text text -> options_ok options ->
  ends (toml_from_str text options) (fun v => is_Table v = true) (error_ok text) /\
  toml_from_slice text options = toml_from_str text options.
Proof.
  intros Ht Ho. split.
  - eapply ends_mono; [apply (ends_run (text := text) options), (parse_wp (Htext := Ht) options Ho) | | done].
    by intros v (_ & _ & _ & ? & _).
  - unfold toml_from_slice. by rewrite from_utf8_text.
Qed.

(** [a = 1] has a value and [a =] stops at its third byte. *)
Lemma toml_parsing_settles_witness :
  toml_from_str [97; 61; 49] toml_default_options = Ret (TTable [([97], TInteger 1)]) /\
  toml_from_str [97; 61] toml_default_options = Fail (MkTomlError ExpectedValue 1 3 2) /\
  toml_from_slice [97; 61; 49] toml_default_options = toml_from_str [97; 61; 49] toml_default_options.
Proof.
  split; [reflexivity|]. split; [reflexivity|].
  refine (proj2 (toml_parsing_settles [97; 61; 49] toml_default_options _ default_options_ok)).
  apply text_ascii. repeat constructor; lia.
Defined.

(** C11: A parsed document is well typed: every string and every key is UTF-8
    text (which [finish_string] takes for granted when it skips validation),
    integers fit 64 bits, floats are 64-bit patterns, dates exist in the
    calendar and times in the day, offsets are within a day, and the keys of
    every table are sorted and distinct. *)
Theorem toml_documents_well_typed text options v :
  is_text text -> options_ok options -> toml_from_str text options = Ret v -> value_ok v.
Proof.
  intros Ht Ho E. pose proof (ends_run (text := text) options _ _ (parse_wp (Htext := Ht) options Ho)) as H.
  unfold toml_from_str in E. rewrite E in H. apply H.
Qed.

Lemma toml_documents_well_typed_witness :
  value_ok (TTable [([97], TLocalDate (MkDate 2024 2 29))]).
Proof.
  apply (toml_documents_well_typed [97; 61; 50; 48; 50; 52; 45; 48; 50; 45; 50; 57] toml_default_options).
  - apply text_ascii. repeat constructor; lia.
  - apply default_options_ok.
  - reflexivity.
Defined.

(** The limits bound what a document can hold: a parse that succeeds had
    a positive [max_depth] and an input within [max_input_bytes], and its
    document has at most [max_values] values that are neither tables nor
    arrays, however they are nested. *)
Theorem toml_limits_respected text options v :
  is_text text -> options_ok options -> toml_from_str text options = Ret v ->
  0 < toml_max_depth options /\ Z.of_nat (length text) <= max_input_bytes options /\
  Z.of_nat (scalars v) <= max_values options.
Proof.
  intros Ht Ho E. pose proof (ends_run (text := text) options _ _ (parse_wp (Htext := Ht) options Ho)) as H.
  unfold toml_from_str in E. rewrite E in H. destruct H as (Hd & Hi & _ & _ & Hs).
  destruct Ho as [? _]. split_and!; [lia | done | done].
Qed.

(** [a = [1, 2]] takes three values. *)
Lemma toml_limits_respected_witness :
  let text := [97; 61; 91; 49; 44; 50; 93] in
  toml_from_str text (MkTomlOptions 2 7 2) = Fail (MkTomlError ResourceLimitExceeded 1 6 5) /\
  Z.of_nat (scalars (TTable [([97], TArray [TInteger 1; TInteger 2])])) <= 3.
Proof.
  intros text. split; [reflexivity|].
  refine (proj2 (proj2 (toml_limits_respected text (MkTomlOptions 2 7 3) _ _ _ _))).
  - apply text_ascii. repeat constructor; lia.
  - unfold options_ok. cbn. lia.
  - reflexivity.
Defined.

(** ** Statements *)

(** A successful statement. *)
Definition statement_step `{DecimalConversion} (p p' : TomlParser) : Prop :=
  eof p = false /\ statement p = (Ret tt, p').

Lemma document_loop_step `{DecimalConversion} fuel p p' :
  statement_step p p' -> document_loop (S fuel) p = document_loop fuel p'.
Proof. intros [He Hs]. cbn [document_loop]. unfold bind, gets. by rewrite He, Hs. Qed.

Lemma statement_step_post `{DecimalConversionLaws} {text : list Z} {Htext : Text text} limit p p' :
  state_ok text limit p -> statement_step p p' -> statement_post text limit p p'.
Proof.
  intros Hst [He Hs]. pose proof Hst as (Hp & _).
  destruct (toml_eof_cases p (ok_ok0 _ Hp)) as [[E _]|[_ (b & l & E)]]; [congruence|].
  pose proof (statement_wp limit p b l Hst E) as Hwp.
  unfold TomlTokens.wp in Hwp. by rewrite Hs in Hwp.
Qed.

Lemma statement_steps_ok `{DecimalConversionLaws} {text : list Z} {Htext : Text text} limit p p' :
  rtc statement_step p p' -> state_ok text limit p ->
  state_ok text limit p' /\ extends (TTable (root_ p)) (TTable (root_ p')).
Proof.
  induction 1 as [p|p p1 p2 Hs _ IH]; intros Hst; [split; [done | apply extends_refl]|].
  destruct (statement_step_post limit p p1 Hst Hs) as (Hst1 & _ & He). destruct (IH Hst1) as [Hst2 He2].
  split; [done|]. by eapply extends_trans.
Qed.

(** The loop is a run of statements, and there is only one. *)
Lemma document_loop_steps `{DecimalConversion} fuel p p' : document_loop fuel p = (Ret tt, p') -> rtc statement_step p p'.
Proof.
  revert p. induction fuel as [|fuel IH]; intros p E; [done|]. cbn [document_loop] in E. unfold bind at 1, gets in E.
  destruct (eof p) eqn:He; [by injection E as <-; apply rtc_refl|]. unfold bind in E.
  destruct (statement p) as [[[]|e| |] p1] eqn:Es; try done. eapply rtc_l; [by split|]. by apply IH.
Qed.

Lemma document_loop_passes `{DecimalConversion} p p1 : rtc statement_step p p1 -> forall fuel p',
  document_loop fuel p = (Ret tt, p') -> exists fuel', document_loop fuel' p1 = (Ret tt, p').
Proof.
  induction 1 as [p|p p1 p2 Hs _ IH]; intros fuel p' E; [by exists fuel|]. destruct fuel as [|fuel]; [done|].
  rewrite (document_loop_step _ _ _ Hs) in E. by eapply IH.
Qed.

Lemma bind_returns {S E A B} (m : M S E A) (k : A -> M S E B) s b s' : bind m k s = (Ret b, s') ->
  exists a s1, m s = (Ret a, s1) /\ k a s1 = (Ret b, s').
Proof. unfold bind. destruct (m s) as [[a|e| |] s1]; try done. by exists a, s1. Qed.

Lemma parse_runs `{DecimalConversion} text options p0 v :
  consume_trivia (parser_new text options) = (Ret tt, p0) -> toml_from_str text options = Ret v ->
  exists fuel p, document_loop fuel p0 = (Ret tt, p) /\ v = TTable (root_ p).
Proof.
  intros H0 E. unfold toml_from_str, run in E. destruct (parse (parser_new text options)) as [r pe] eqn:Ep. cbn in E. subst r.
  unfold parse in Ep.
  apply bind_returns in Ep as ([] & p1 & E1 & Ep). assert (p1 = parser_new text options) as ->.
  { unfold check_depth, bind, gets in E1. destruct (_ =? 0) in E1; by inversion E1. }
  apply bind_returns in Ep as ([] & p2 & E2 & Ep). assert (p2 = parser_new text options) as ->.
  { unfold check_input, bind, gets in E2. destruct (_ <? _) in E2; by inversion E2. }
  apply bind_returns in Ep as ([] & p3 & E3 & Ep). rewrite H0 in E3. injection E3 as <-.
  apply bind_returns in Ep as (fuel & p4 & [= <- <-] & Ep). apply bind_returns in Ep as ([] & p5 & El & Ep).
  injection Ep as <- <-. by exists (S (left_bytes p0)), p5.
Qed.


(** C12: The book of definitions mirrors the document, and statements only add
    to it.  A run begins where [parse] begins its loop, after the white space
    and comments that open the text.  In every state that it reaches between
    statements, the tree of definitions has exactly the keys of the document,
    tables where it has tables and arrays of tables where it has those; and
    whatever statements follow, no value is overwritten or lost, tables only
    gain keys and arrays of tables only elements.  When the whole text parses,
    its document extends that of every such state. *)
Theorem toml_statements_only_add text options p0 p p' :
  is_text text -> options_ok options -> toml_max_depth options <> 0 ->
  consume_trivia (parser_new text options) = (Ret tt, p0) ->
  rtc statement_step p0 p -> rtc statement_step p p' ->
  mirrored (definitions_ p) (root_ p) /\ table_ok (root_ p) /\
  extends (TTable (root_ p)) (TTable (root_ p')) /\
  (forall v, toml_from_str text options = Ret v -> extends (TTable (root_ p)) v).
Proof.
  intros Ht Ho Hd H0 H1 H2. assert (Text text) as Htext by done.
  pose proof (opening_wp (text := text) options Ho Hd) as Hst. unfold TomlTokens.wp in Hst. rewrite H0 in Hst.
  destruct (statement_steps_ok _ _ _ H1 Hst) as [Hst1 _].
  destruct (statement_steps_ok _ _ _ H2 Hst1) as [_ He]. split; [apply Hst1|]. split; [apply Hst1|]. split; [done|].
  intros v E. destruct (parse_runs _ _ _ _ H0 E) as (fuel & pe & Hloop & ->).
  destruct (document_loop_passes _ _ H1 _ _ Hloop) as (fuel' & Hloop').
  by destruct (statement_steps_ok _ _ _ (document_loop_steps _ _ _ Hloop') Hst1).
Qed.

(** A comment, then [[[a]]] twice: the second header extends the array of the
    first. *)
Lemma toml_statements_only_add_witness :
  let text := [35; 10; 91; 91; 97; 93; 93; 10; 91; 91; 97; 93; 93] in
  let p0 := snd (consume_trivia (parser_new text toml_default_options)) in
  let p1 := snd (statement p0) in
  let p2 := snd (statement p1) in
  root_ p1 = [([97], TArray [TTable []])] /\ root_ p2 = [([97], TArray [TTable []; TTable []])] /\
  extends (TTable (root_ p1)) (TTable (root_ p2)).
Proof.
  intros text p0 p1 p2.
  assert (statement_step p0 p1) as H1 by (split; vm_compute; reflexivity).
  assert (statement_step p1 p2) as H2 by (split; vm_compute; reflexivity).
  split; [vm_compute; reflexivity|]. split; [vm_compute; reflexivity|].
  refine (proj1 (proj2 (proj2 (toml_statements_only_add text toml_default_options p0 p1 p2 _ default_options_ok _ _ _ _)))).
  - apply text_ascii. repeat constructor; lia.
  - discriminate.
  - vm_compute. reflexivity.
  - apply rtc_once, H1.
  - apply rtc_once, H2.
Defined.

(** ** The standalone entry points *)

(** The standalone parsers always end without a panic, in a value with the
    promised shape or an error that points into the text: a key path is a
    non-empty list of texts, a value is well typed, an assignment is both, and
    [parse_assignment_text] returns the non-empty text of the value. *)
Theorem toml_standalone_settle text :
  is_text text ->
  ends (toml_parse_key_path text) keys_ok (error_ok text) /\
  ends (toml_parse_value text) value_ok (error_ok text) /\
  ends (toml_parse_assignment text) (fun r => keys_ok (fst r) /\ value_ok (snd r)) (error_ok text) /\
  ends (toml_parse_assignment_text text) (fun r => keys_ok (fst r) /\ is_text (snd r) /\ snd r <> []) (error_ok text).
Proof.
  intros Ht. assert (Text text) as Htext by done. pose proof default_options_ok as Ho. split_and!.
  - by apply ends_run, parse_standalone_key_wp.
  - eapply ends_mono; [by apply ends_run, (parse_standalone_value_wp _ Ho) | | done]. by intros v [? _].
  - eapply ends_mono; [by apply ends_run, (parse_standalone_assignment_wp _ Ho) | | done]. by intros v (? & ? & _).
  - by apply ends_run, parse_standalone_assignment_text_wp.
Qed.

Lemma toml_standalone_settle_witness :
  let text := [97; 46; 98; 32; 61; 32; 120] in
  toml_parse_assignment_text text = Ret ([[97]; [98]], [120]) /\
  ends (toml_parse_value text) value_ok (error_ok text).
Proof.
  intros text. split; [reflexivity|]. refine (proj1 (proj2 (toml_standalone_settle text _))).
  apply text_ascii. repeat constructor; lia.
Defined.

(** ** Key paths *)

(** Bare keys joined by dots. *)
Fixpoint join_keys (keys : KeyPath) : list Z :=
  match keys with
  | [] => []
  | [key] => key
  | key :: keys => key ++ 0x2e :: join_keys keys
  end.

Definition bare (key : list Z) : Prop := key <> [] /\ Forall (fun b => is_bare_key b = true) key.

Lemma run_length test a r n :
  Forall (fun b => test b = true) a -> run_ends test r ->
  Forall (fun b => test b = true) (list.take n (a ++ r)) ->
  (forall v, head (drop n (a ++ r)) = Some v -> test v = false) -> (n <= length (a ++ r))%nat -> n = length a.
Proof.
  intros Ha Hr. revert n. induction Ha as [|v a Hv _ IH]; intros [|n] Hn Hd Hle; cbn in *.
  - done.
  - destruct r as [|w r]; [cbn in *; lia|]. cbn in Hn, Hr. apply Forall_cons_1 in Hn as [? _]. congruence.
  - specialize (Hd v eq_refl). congruence.
  - f_equal. apply Forall_cons_1 in Hn as [_ Hn]. apply IH; [done | done | lia].
Qed.

Section Keys.
Context {text : list Z} {Htext : Text text}.

Lemma consume_horizontal_none p : run_ends is_horizontal (rest p) -> consume_horizontal p = (Ret tt, p).
Proof.
  intros Hr. destruct (consume_while_adv is_horizontal (cursor_ p)) as (n & Hn & Hall & Hstop & _ & E).
  assert (n = 0)%nat as ->.
  { apply (run_length is_horizontal [] (rest p) n); [constructor | done | done | done |].
    cbn [app]. rewrite toml_rest_length. exact Hn. }
  rewrite adv_0 in E. unfold consume_horizontal, bind, on_cursor. rewrite E. unfold with_cursor. by destruct p.
Qed.

Lemma parse_key_part_bare p key r :
  ok text p -> rest p = key ++ r -> bare key -> run_ends is_bare_key r ->
  exists p', parse_key_part p = (Ret key, p') /\ ok text p' /\ rest p' = r.
Proof.
  intros Hp E [Hne Hkey] Hr. destruct key as [|b key]; [done|]. apply Forall_cons_1 in Hkey as Hb. destruct Hb as [Hb _].
  destruct (consume_while_adv is_bare_key (cursor_ p)) as (n & Hn & Hall & Hstop & Ec & _).
  assert (n = length (b :: key)) as ->.
  { apply (run_length is_bare_key (b :: key) r n); [done | done | | |]; rewrite <- E; [done | done |].
    rewrite toml_rest_length. exact Hn. }
  set (n := length (b :: key)) in *. set (p' := with_cursor (adv n (cursor_ p)) p).
  assert (moves n p p') as Hm by (split; [done|]; unfold after, p', with_cursor, depth; f_equal; lia).
  assert (ok text p') as Hok by (eapply ok_run; [apply is_bare_key_ascii | done..]).
  destruct (text_of_spec p n p' p' Hp Hm Hok) as [Ht _]; [by destruct Hok as [(? & _) _]|].
  exists p'. rewrite (rest_goes _ _ _ _ _ Hm), E. split_and!; [|done | unfold n; apply drop_app_length].
  rewrite E in Ht. unfold n in Ht at 2. rewrite take_app_length in Ht. unfold is_bare_key, is_alnum, is_alpha, is_digit in Hb.
  unfold parse_key_part, bind, gets. rewrite (toml_eof_false _ _ _ E), (toml_peek_rest _ _ _ E).
  replace (b =? 0x22) with false by lia. replace (b =? 0x27) with false by lia.
  replace (is_bare_key b) with true by (unfold is_bare_key, is_alnum, is_alpha, is_digit; lia). cbn [negb].
  unfold on_cursor at 1. rewrite Ec. fold p'. unfold on_cursor, p' at 1. cbn [cursor_ with_cursor].
  rewrite span_from_adv. exact Ht.
Qed.

Lemma bare_head key r : bare key -> run_ends is_horizontal (key ++ r).
Proof.
  intros [Hne Hk]. destruct key as [|b key]; [done|]. apply Forall_cons_1 in Hk as [Hb _]. cbn.
  unfold is_bare_key, is_alnum, is_alpha, is_digit, is_horizontal in *. lia.
Qed.

Lemma key_path_loop_bare keys : forall fuel path p,
  ok text p -> rest p = join_keys keys -> keys <> [] -> Forall bare keys -> (length keys <= fuel)%nat ->
  exists p', key_path_loop fuel path p = (Ret (path ++ keys), p') /\ ok text p' /\ rest p' = [].
Proof.
  induction keys as [|key keys IH]; intros fuel path p Hp E Hne Hall Hf; [done|].
  apply Forall_cons_1 in Hall as [Hk Hall]. destruct fuel as [|fuel]; [cbn in Hf; lia|].
  assert (exists r, rest p = key ++ r /\ (keys = [] /\ r = [] \/ keys <> [] /\ r = 0x2e :: join_keys keys)) as (r & Er & Hr).
  { destruct keys as [|k keys]; [exists []; rewrite app_nil_r; auto|]. exists (0x2e :: join_keys (k :: keys)).
    split; [done | by right]. }
  assert (run_ends is_horizontal r /\ run_ends is_bare_key r) as [Hrh Hrb] by (destruct Hr as [[_ ->]|[_ ->]]; by split).
  destruct (parse_key_part_bare p key r Hp Er Hk Hrb) as (p1 & E1 & O1 & R1).
  cbn [key_path_loop]. unfold bind at 1. rewrite (consume_horizontal_none p) by (rewrite Er; by apply bare_head).
  unfold bind at 1. rewrite E1. unfold bind at 1. rewrite (consume_horizontal_none p1) by (by rewrite R1).
  unfold bind at 1, gets. destruct Hr as [[-> ->]|[Hne' ->]].
  - destruct (toml_eof_cases p1 (ok_ok0 _ O1)) as [[-> _]|[_ (? & ? & ?)]]; [|congruence]. cbn [orb]. by exists p1.
  - rewrite (toml_eof_false _ _ _ R1), (toml_peek_rest _ _ _ R1). cbn [orb negb Z.eqb Pos.eqb].
    destruct (take_moves p1 _ _ R1) as [Et M]. unfold bind at 1. rewrite Et.
    destruct (IH fuel (path ++ [key]) (after 1 0 (depth p1) p1)) as (p2 & E2 & O2 & R2).
    + eapply (ok_step p1); [auto with toml | exact R1 | lia | done].
    + by rewrite (rest_goes _ _ _ _ _ M), R1.
    + done.
    + done.
    + cbn in Hf. lia.
    + exists p2. by rewrite E2, <- app_assoc.
Qed.
End Keys.

Lemma join_keys_text keys : Forall bare keys -> is_text (join_keys keys).
Proof.
  intros H. apply text_ascii. induction H as [|key keys [_ Hk] Hkeys IH]; [constructor|].
  assert (Forall (fun b => 0 <= b < 128) key) as Hka by (revert Hk; apply Forall_impl; apply is_bare_key_ascii).
  destruct keys as [|k keys]; [done|]. cbn [join_keys] in *. apply Forall_app. split; [done|]. constructor; [lia | done].
Qed.

Lemma join_keys_length keys : Forall bare keys -> (length keys <= length (join_keys keys))%nat.
Proof.
  induction 1 as [|key keys [Hne _] Hkeys IH]; [done|]. destruct key as [|b key]; [done|].
  destruct keys as [|k keys]; [cbn; lia|]. cbn [join_keys length app] in *. rewrite length_app. cbn [length] in *. lia.
Qed.

(** Printing and parsing key paths round-trips: bare keys joined by dots
    parse back to themselves. *)
Theorem toml_key_path_roundtrip keys :
  keys <> [] -> Forall bare keys -> Z.of_nat (length (join_keys keys)) <= 16 * 1024 * 1024 ->
  toml_parse_key_path (join_keys keys) = Ret keys.
Proof.
  intros Hne Hall Hlen. set (text := join_keys keys) in *. assert (Text text) as Htext by (by apply join_keys_text).
  set (p := parser_new text toml_default_options). assert (ok text p) as Hp by apply parser_new_ok.
  destruct (key_path_loop_bare (text := text) keys (S (left_bytes p)) [] p) as (p' & E & O & R); [done | done | done | done | |].
  { change (left_bytes p) with (length text - 0)%nat. pose proof (join_keys_length keys Hall). fold text in H. lia. }
  unfold toml_parse_key_path, run, parse_standalone_key. fold p. unfold bind at 1. unfold check_input, bind at 1, gets.
  replace (max_input_bytes_ p <? Z.of_nat (len (cursor_ p))) with false.
  2:{ symmetry. apply Z.ltb_ge. exact Hlen. }
  unfold ret at 1. unfold bind at 1.
  assert (run_ends is_horizontal (rest p)) as Hh.
  { change (rest p) with text. subst text. destruct keys as [|key keys]; [done|].
    apply Forall_cons_1 in Hall as [Hk _]. destruct keys as [|k keys]; [|by apply bare_head].
    cbn. rewrite <- (app_nil_r key). by apply bare_head. }
  rewrite (consume_horizontal_none p Hh). unfold bind at 1, parse_key_path, bind at 1, gets. rewrite E.
  unfold bind at 1. rewrite (consume_horizontal_none p') by (by rewrite R).
  unfold at_end, bind, gets. destruct (toml_eof_cases p' (ok_ok0 _ O)) as [[-> _]|[_ (? & ? & ?)]]; [done | congruence].
Qed.

(** [a-1._.X] *)
Lemma toml_key_path_roundtrip_witness :
  toml_parse_key_path [97; 45; 49; 46; 95; 46; 88] = Ret [[97; 45; 49]; [95]; [88]].
Proof.
  apply (toml_key_path_roundtrip [[97; 45; 49]; [95]; [88]]); [discriminate | | vm_compute; discriminate].
  repeat constructor; discriminate.
Defined.

(** A float whose fifth character is a minus sign is taken for a date when
    it has ten characters or more: [1.5e-00003], which [parse_float] reads,
    is refused as a date. *)
Theorem toml_float_taken_for_date :
  let token := [0x31; 0x2e; 0x35; 0x65; 0x2d; 0x30; 0x30; 0x30; 0x30; 0x33] in
  (exists bits, parse_float token = Ret (TFloat bits)) /\
  toml_parse_value token = Fail (MkTomlError InvalidDateTime 1 11 10).
Proof. intros token. split; [eexists|]; vm_compute; reflexivity. Qed.
