(* ===== verification/Serde.v ===== *)
(** * serde: errors and the token format

    Models [src/serde/src/error.cpp] (paths and errors) and
    [src/serde/src/token.cpp] (tokens, [TokenSerializer], [TokenSequence],
    [TokenMap], [TokenDeserializer] and its access objects).  Objects that hold
    a reference to the same token vector, counter or position share one state
    of the monad; what an object owns itself is its record, which a member
    function takes and returns. *)

From Stdlib Require Import ZArith Lia ZifyBool.
From stdpp Require Import strings.
From S2P Require Import Prelude Int Utf8 OrdMap.
Local Open Scope Z_scope.
Local Open Scope rstd_scope.

(** The bytes of a literal. *)
Definition str (s : string) : list Z := map (fun c => Z.of_N (Ascii.N_of_ascii c)) (String.list_ascii_of_string s).

(** ** Paths and errors *)

Inductive ValueKind :=
| VNull | VUnit | VBoolean | VSignedInteger | VUnsignedInteger | VFloat | VString | VBytes | VSequence | VMap
| VEnum | VExtension.

Inductive PathSegmentKind := SegField | SegIndex | SegMapKey | SegVariant.

Record PathSegment := MkSegment
  { segment_kind : PathSegmentKind; segment_name : option (list Z); segment_index : nat }.

Definition segment_field (name : list Z) : PathSegment := MkSegment SegField (Some name) 0.
Definition segment_at (value : nat) : PathSegment := MkSegment SegIndex None value.
Definition segment_map_key (name : list Z) : PathSegment := MkSegment SegMapKey (Some name) 0.
Definition segment_variant (name : list Z) : PathSegment := MkSegment SegVariant (Some name) 0.

(** [PathSegment::clone] *)
Definition segment_clone (s : PathSegment) : PathSegment :=
  MkSegment (segment_kind s) (match segment_name s with Some n => Some n | None => None end) (segment_index s).

Definition DataPath := list PathSegment.

(** The copying loop of [DataPath::clone]. *)
Fixpoint path_clone (segments : DataPath) : DataPath :=
  match segments with
  | [] => []
  | segment :: segments => segment_clone segment :: path_clone segments
  end.

Definition with_field (path : DataPath) (name : list Z) : DataPath := path_clone path ++ [segment_field name].
Definition with_index (path : DataPath) (index : nat) : DataPath := path_clone path ++ [segment_at index].
Definition with_map_key (path : DataPath) (name : list Z) : DataPath := path_clone path ++ [segment_map_key name].
Definition with_variant (path : DataPath) (name : list Z) : DataPath := path_clone path ++ [segment_variant name].

Inductive SerdeErrorKind :=
| TypeMismatch | MissingField | UnknownField | UnknownVariant | DuplicateField | InvalidValue | Invariant | Unsupported
| SerdeUnexpectedEnd.

(** The error's source is a boxed trait object; no constructor of this file
    sets it. *)
Record SerdeError := MkSerdeError
  { error_kind : SerdeErrorKind;
    error_path : DataPath;
    error_expected : option ValueKind;
    error_actual : option ValueKind;
    error_message : option (list Z) }.

Definition type_mismatch (path : DataPath) (expected actual : ValueKind) : SerdeError :=
  MkSerdeError TypeMismatch path (Some expected) (Some actual) None.
Definition missing_field (path : DataPath) (field : list Z) : SerdeError :=
  MkSerdeError MissingField (with_field path field) None None (Some field).
Definition unknown_field (path : DataPath) (field : list Z) : SerdeError :=
  MkSerdeError UnknownField (with_field path field) None None (Some field).
Definition unknown_variant (path : DataPath) (variant : list Z) : SerdeError :=
  MkSerdeError UnknownVariant (with_variant path variant) None None (Some variant).
Definition duplicate_field (path : DataPath) (field : list Z) : SerdeError :=
  MkSerdeError DuplicateField (with_field path field) None None (Some field).
Definition invalid_value (path : DataPath) (message : list Z) : SerdeError :=
  MkSerdeError InvalidValue path None None (Some message).
Definition invariant_error (path : DataPath) (message : list Z) : SerdeError :=
  MkSerdeError Invariant path None None (Some message).
Definition unsupported (path : DataPath) (message : list Z) : SerdeError :=
  MkSerdeError Unsupported path None None (Some message).
Definition unexpected_end (path : DataPath) : SerdeError :=
  MkSerdeError SerdeUnexpectedEnd path None None None.

(** ** Tokens *)

Inductive TokenKind :=
| KNull | KUnit | KBool | KI64 | KU64 | KF64 | KString | KBytes | KSomeStart | KSomeEnd | KSequenceStart
| KSequenceEnd | KMapStart | KMapEnd | KEnumStart | KEnumEnd.

#[export] Instance token_kind_eq : EqDecision TokenKind.
Proof. solve_decision. Defined.

(** Every token has all the fields; its kind says which is meant. *)
Record Token := MkToken
  { kind_ : TokenKind;
    bool_value_ : bool;
    i64_value_ : Z;
    u64_value_ : Z;
    f64_value_ : Z;
    len_ : nat;
    string_value_ : list Z;
    bytes_value_ : list Z }.

(** [Token(kind)] *)
Definition token_new (kind : TokenKind) : Token := MkToken kind false 0 0 0 0 [] [].
Definition token_null : Token := token_new KNull.
Definition token_boolean (value : bool) : Token := MkToken KBool value 0 0 0 0 [] [].
Definition token_signed (value : Z) : Token := MkToken KI64 false value 0 0 0 [] [].
Definition token_unsigned (value : Z) : Token := MkToken KU64 false 0 value 0 0 [] [].
Definition token_floating (value : Z) : Token := MkToken KF64 false 0 0 value 0 [] [].
Definition token_string (value : list Z) : Token := MkToken KString false 0 0 0 0 value [].
Definition token_bytes (value : list Z) : Token := MkToken KBytes false 0 0 0 0 [] value.
Definition token_marker (kind : TokenKind) : Token := token_new kind.
Definition token_container (kind : TokenKind) (len : nat) : Token := MkToken kind false 0 0 0 len [] [].

Definition actual_kind (kind : TokenKind) : ValueKind :=
  match kind with
  | KNull => VNull
  | KUnit => VUnit
  | KBool => VBoolean
  | KI64 => VSignedInteger
  | KU64 => VUnsignedInteger
  | KF64 => VFloat
  | KString => VString
  | KBytes => VBytes
  | KSomeStart | KSomeEnd => VEnum
  | KSequenceStart | KSequenceEnd => VSequence
  | KMapStart | KMapEnd => VMap
  | KEnumStart | KEnumEnd => VEnum
  end.

(** ** Serializing *)

(** What the serializers of one output share. *)
Record Sink := MkSink { tokens : list Token; open_compounds : nat }.

Definition SM := M Sink SerdeError.

Definition push_token (t : Token) : SM unit := modify (fun s => MkSink (tokens s ++ [t]) (open_compounds s)).
Definition open_compound : SM unit := modify (fun s => MkSink (tokens s) (S (open_compounds s))).

(** [--*open_compounds_] *)
Definition close_compound : SM unit := fun s =>
  match open_compounds s with
  | O => (Panic, s)
  | S n => (Ret tt, MkSink (tokens s) n)
  end.

Definition is_complete (s : Sink) : bool := (open_compounds s =? 0)%nat.

Definition serialize_none : SM unit := push_token token_null.
Definition serialize_unit : SM unit := push_token (token_marker KUnit).
Definition serialize_bool (value : bool) : SM unit := push_token (token_boolean value).
Definition serialize_i64 (value : Z) : SM unit := push_token (token_signed value).
Definition serialize_u64 (value : Z) : SM unit := push_token (token_unsigned value).
Definition serialize_f64 (value : Z) : SM unit := push_token (token_floating value).
Definition serialize_string (value : list Z) : SM unit := push_token (token_string value).
Definition serialize_bytes (value : list Z) : SM unit := push_token (token_bytes value).

Definition serialize_unit_variant (variant : list Z) : SM unit :=
  do* push_token (token_marker KEnumStart) ;;
  do* push_token (token_string variant) ;;
  do* push_token (token_marker KUnit) ;;
  push_token (token_marker KEnumEnd).

(** The error constructors of [TokenSerializer]: its path and a message. *)
Definition serializer_report (path : DataPath) (make : DataPath -> list Z -> SerdeError) (text : list Z) : SerdeError :=
  make (path_clone path) text.

(** [TokenSequence] *)
Record TokenSequence := MkSequence { seq_path : DataPath; seq_index : nat; seq_ended : bool }.

(** [TokenMap] *)
Record TokenMap := MkMap
  { map_path : DataPath; map_value_path : DataPath; map_pending : bool; map_ended : bool }.

Definition sequence_new (path : DataPath) : TokenSequence := MkSequence path 0 false.
Definition map_new (path : DataPath) : TokenMap := MkMap (path_clone path) path false false.

Definition begin_sequence (path : DataPath) (len : nat) : SM TokenSequence :=
  do* push_token (token_container KSequenceStart len) ;;
  do* open_compound ;;
  ret (sequence_new (path_clone path)).

Definition begin_map (path : DataPath) (len : nat) : SM TokenMap :=
  do* push_token (token_container KMapStart len) ;;
  do* open_compound ;;
  ret (map_new (path_clone path)).

Definition sequence_end (q : TokenSequence) : SM TokenSequence :=
  if seq_ended q then throw (invariant_error (path_clone (seq_path q)) (str "sequence already ended"))
  else
    do* close_compound ;;
    do* push_token (token_marker KSequenceEnd) ;;
    ret (MkSequence (seq_path q) (seq_index q) true).

Definition map_end (q : TokenMap) : SM TokenMap :=
  if map_ended q then throw (invariant_error (path_clone (map_path q)) (str "map already ended"))
  else if map_pending q then throw (invariant_error (path_clone (map_path q)) (str "map value is missing"))
  else
    do* close_compound ;;
    do* push_token (token_marker KMapEnd) ;;
    ret (MkMap (map_path q) (map_value_path q) (map_pending q) true).

(** ** Deserializing *)

Section Deserializer.
Context (input : list Token).

(** The deserializers of one input share its position. *)
Definition DM := M nat SerdeError.

Definition peek_token (position : nat) : option Token :=
  if (length input <=? position)%nat then None else input !! position.

Definition advance_token : DM unit := modify S.

Definition take_token (path : DataPath) (expected : TokenKind) (expected_kind : ValueKind) : DM Token :=
  let* token := gets peek_token in
  match token with
  | None => throw (unexpected_end (path_clone path))
  | Some token =>
    if negb (bool_decide (kind_ token = expected))
    then throw (type_mismatch (path_clone path) expected_kind (actual_kind (kind_ token)))
    else do* advance_token ;; ret token
  end.

(** The error constructors of [TokenDeserializer]. *)
Definition deserializer_report (path : DataPath) (make : DataPath -> list Z -> SerdeError) (text : list Z) : SerdeError :=
  make (path_clone path) text.

Definition deserialize_bool (path : DataPath) : DM bool :=
  let* token := take_token path KBool VBoolean in ret (bool_value_ token).
Definition deserialize_unit (path : DataPath) : DM unit :=
  let* token := take_token path KUnit VUnit in ret tt.
Definition deserialize_i64 (path : DataPath) : DM Z :=
  let* token := take_token path KI64 VSignedInteger in ret (i64_value_ token).
Definition deserialize_u64 (path : DataPath) : DM Z :=
  let* token := take_token path KU64 VUnsignedInteger in ret (u64_value_ token).
Definition deserialize_f64 (path : DataPath) : DM Z :=
  let* token := take_token path KF64 VFloat in ret (f64_value_ token).
Definition deserialize_string (path : DataPath) : DM (list Z) :=
  let* token := take_token path KString VString in ret (string_value_ token).
Definition deserialize_bytes (path : DataPath) : DM (list Z) :=
  let* token := take_token path KBytes VBytes in ret (bytes_value_ token).

(** [ignore_value] and its two [while] loops.  Every call but the one that
    stops a loop consumes a token, so fuel of twice the tokens left is
    enough. *)
Fixpoint ignore_value (fuel : nat) (path : DataPath) : DM unit :=
  match fuel with
  | O => out_of_fuel
  | S fuel =>
    let* token := gets peek_token in
    match token with
    | None => throw (unexpected_end (path_clone path))
    | Some token =>
      match kind_ token with
      | KNull | KUnit | KBool | KI64 | KU64 | KF64 | KString | KBytes => advance_token
      | KSomeStart =>
        do* advance_token ;;
        do* ignore_value fuel path ;;
        do* take_token path KSomeEnd VEnum ;;
        ret tt
      | KSequenceStart =>
        do* advance_token ;;
        do* ignore_elements fuel path ;;
        do* take_token path KSequenceEnd VSequence ;;
        ret tt
      | KMapStart =>
        do* advance_token ;;
        do* ignore_entries fuel path ;;
        do* take_token path KMapEnd VMap ;;
        ret tt
      | KEnumStart =>
        do* advance_token ;;
        do* take_token path KString VString ;;
        do* ignore_value fuel path ;;
        do* take_token path KEnumEnd VEnum ;;
        ret tt
      | KSomeEnd | KSequenceEnd | KMapEnd | KEnumEnd =>
        throw (invariant_error (path_clone path) (str "unexpected compound end token"))
      end
    end
  end
with ignore_elements (fuel : nat) (path : DataPath) : DM unit :=
  match fuel with
  | O => out_of_fuel
  | S fuel =>
    let* token := gets peek_token in
    match token with
    | None => ret tt
    | Some token =>
      if bool_decide (kind_ token = KSequenceEnd) then ret tt
      else do* ignore_value fuel path ;; ignore_elements fuel path
    end
  end
with ignore_entries (fuel : nat) (path : DataPath) : DM unit :=
  match fuel with
  | O => out_of_fuel
  | S fuel =>
    let* token := gets peek_token in
    match token with
    | None => ret tt
    | Some token =>
      if bool_decide (kind_ token = KMapEnd) then ret tt
      else do* ignore_value fuel path ;; do* ignore_value fuel path ;; ignore_entries fuel path
    end
  end.

Definition tokens_left (position : nat) : nat := (length input - position)%nat.

Definition ignore_fuel (position : nat) : nat := (2 * tokens_left position + 2)%nat.

Definition ignore (path : DataPath) : DM unit :=
  let* fuel := gets ignore_fuel in ignore_value fuel path.

(** [TokenSequenceAccess] *)
Record SequenceAccess := MkSequenceAccess { sa_path : DataPath; sa_index : nat; sa_ended : bool }.

(** [TokenMapAccess] *)
Record MapAccess := MkMapAccess
  { ma_path : DataPath; ma_value_path : DataPath; ma_pending : bool; ma_ended : bool }.

(** [TokenEnumAccess] *)
Record EnumAccess := MkEnumAccess { ea_path : DataPath; ea_variant : list Z; ea_consumed : bool }.

Definition sequence_access_end (a : SequenceAccess) : DM SequenceAccess :=
  if sa_ended a then throw (invariant_error (path_clone (sa_path a)) (str "sequence already ended"))
  else
    let* token := gets peek_token in
    match token with
    | None => throw (unexpected_end (path_clone (sa_path a)))
    | Some token =>
      if negb (bool_decide (kind_ token = KSequenceEnd))
      then throw (invariant_error (path_clone (sa_path a)) (str "sequence has unread elements"))
      else do* advance_token ;; ret (MkSequenceAccess (sa_path a) (sa_index a) true)
    end.

Definition map_access_ignore_value (a : MapAccess) : DM MapAccess :=
  if ma_ended a then throw (invariant_error (path_clone (ma_path a)) (str "map already ended"))
  else if negb (ma_pending a) then throw (invariant_error (path_clone (ma_path a)) (str "map key is missing"))
  else
    do* ignore (path_clone (ma_value_path a)) ;;
    ret (MkMapAccess (ma_path a) (ma_value_path a) false (ma_ended a)).

Definition map_access_end (a : MapAccess) : DM MapAccess :=
  if ma_ended a then throw (invariant_error (path_clone (ma_path a)) (str "map already ended"))
  else if ma_pending a then throw (invariant_error (path_clone (ma_path a)) (str "map value is missing"))
  else
    let* token := gets peek_token in
    match token with
    | None => throw (unexpected_end (path_clone (ma_path a)))
    | Some token =>
      if negb (bool_decide (kind_ token = KMapEnd))
      then throw (invariant_error (path_clone (ma_path a)) (str "map has unread entries"))
      else do* advance_token ;; ret (MkMapAccess (ma_path a) (ma_value_path a) (ma_pending a) true)
    end.

(** The path below the variant. *)
Definition enum_child (a : EnumAccess) : DataPath := with_variant (ea_path a) (ea_variant a).

Definition enum_finish (a : EnumAccess) : DM EnumAccess :=
  do* take_token (enum_child a) KEnumEnd VEnum ;;
  ret (MkEnumAccess (ea_path a) (ea_variant a) true).

Definition enum_unit (a : EnumAccess) : DM EnumAccess :=
  if ea_consumed a then throw (invariant_error (path_clone (ea_path a)) (str "enum already consumed"))
  else
    do* deserialize_unit (enum_child a) ;;
    enum_finish a.

Definition begin_sequence_access (path : DataPath) : DM SequenceAccess :=
  do* take_token path KSequenceStart VSequence ;;
  ret (MkSequenceAccess (path_clone path) 0 false).

Definition begin_map_access (path : DataPath) : DM MapAccess :=
  do* take_token path KMapStart VMap ;;
  ret (MkMapAccess (path_clone (path_clone path)) (path_clone path) false false).

Definition begin_enum (path : DataPath) : DM EnumAccess :=
  do* take_token path KEnumStart VEnum ;;
  let* variant := take_token path KString VString in
  ret (MkEnumAccess (path_clone path) (string_value_ variant) false).
End Deserializer.
