(* ===== verification/SerdeTraits.v ===== *)
(** * serde: the [Serialize] and [Deserialize] traits

    The traits are type classes, their [Impl]s instances: [src/serde/src/primitives.cppm],
    [src/serde/src/containers.cppm] and the templates of
    [src/serde/src/token.cppm].  The contract of a type is
    [SerdeRoundtrip.TokenRoundtrip]. *)

From Stdlib Require Import ZArith Lia ZifyBool.
From stdpp Require Import strings.
From S2P Require Import Prelude Int Utf8 OrdMap Serde.
Local Open Scope Z_scope.
Local Open Scope rstd_scope.

(** [key_name] is the [if constexpr] on strings in [TokenMap::key]. *)
Class Serialize (A : Type) := {
  serialize : DataPath -> A -> SM unit;
  key_name : A -> option (list Z);
}.

Class Deserialize (A : Type) := deserialize : list Token -> DataPath -> DM A.

(** ** Templates of the serializer *)

Section SerializerTemplates.
Context {A : Type} `{Serialize A}.

Definition serialize_some (path : DataPath) (value : A) : SM unit :=
  do* push_token (token_marker KSomeStart) ;;
  do* serialize (path_clone path) value ;;
  push_token (token_marker KSomeEnd).

Definition serialize_newtype_variant (path : DataPath) (variant : list Z) (value : A) : SM unit :=
  do* push_token (token_marker KEnumStart) ;;
  do* push_token (token_string variant) ;;
  do* serialize (with_variant path variant) value ;;
  push_token (token_marker KEnumEnd).

Definition sequence_element (q : TokenSequence) (value : A) : SM TokenSequence :=
  if seq_ended q then throw (invariant_error (path_clone (seq_path q)) (str "sequence already ended"))
  else
    do* serialize (with_index (seq_path q) (seq_index q)) value ;;
    ret (MkSequence (seq_path q) (S (seq_index q)) (seq_ended q)).

Definition child_path (path : DataPath) (value : A) : DataPath :=
  match key_name value with
  | Some name => with_map_key path name
  | None => path_clone path
  end.

Definition map_key (q : TokenMap) (value : A) : SM TokenMap :=
  if map_ended q then throw (invariant_error (path_clone (map_path q)) (str "map already ended"))
  else if map_pending q then throw (invariant_error (path_clone (map_path q)) (str "map value is missing"))
  else
    do* serialize (path_clone (map_path q)) value ;;
    ret (MkMap (map_path q) (child_path (map_path q) value) true (map_ended q)).

Definition map_value (q : TokenMap) (value : A) : SM TokenMap :=
  if map_ended q then throw (invariant_error (path_clone (map_path q)) (str "map already ended"))
  else if negb (map_pending q) then throw (invariant_error (path_clone (map_path q)) (str "map key is missing"))
  else
    do* serialize (path_clone (map_value_path q)) value ;;
    ret (MkMap (map_path q) (map_value_path q) false (map_ended q)).
End SerializerTemplates.

(** ** Templates of the deserializer *)

Section DeserializerTemplates.
Context {A : Type} `{Serialize A, Deserialize A} (input : list Token).

Definition deserialize_option (path : DataPath) : DM (option A) :=
  let* token := gets (peek_token input) in
  match token with
  | None => throw (unexpected_end (path_clone path))
  | Some token =>
    if bool_decide (kind_ token = KNull) then do* advance_token ;; ret None
    else if negb (bool_decide (kind_ token = KSomeStart))
    then throw (type_mismatch (path_clone path) VEnum (actual_kind (kind_ token)))
    else
      do* advance_token ;;
      let* value := deserialize input (path_clone path) in
      do* take_token input path KSomeEnd VEnum ;;
      ret (Some value)
  end.

Definition sequence_next (a : SequenceAccess) : DM (option A * SequenceAccess) :=
  if sa_ended a then throw (invariant_error (path_clone (sa_path a)) (str "sequence already ended"))
  else
    let* token := gets (peek_token input) in
    match token with
    | None => throw (unexpected_end (path_clone (sa_path a)))
    | Some token =>
      if bool_decide (kind_ token = KSequenceEnd) then ret (None, a)
      else
        let* value := deserialize input (with_index (sa_path a) (sa_index a)) in
        ret (Some value, MkSequenceAccess (sa_path a) (S (sa_index a)) (sa_ended a))
    end.

Definition map_next_key (a : MapAccess) : DM (option A * MapAccess) :=
  if ma_ended a then throw (invariant_error (path_clone (ma_path a)) (str "map already ended"))
  else if ma_pending a then throw (invariant_error (path_clone (ma_path a)) (str "map value is missing"))
  else
    let* token := gets (peek_token input) in
    match token with
    | None => throw (unexpected_end (path_clone (ma_path a)))
    | Some token =>
      if bool_decide (kind_ token = KMapEnd) then ret (None, a)
      else
        let* key := deserialize input (path_clone (ma_path a)) in
        ret (Some key, MkMapAccess (ma_path a) (child_path (ma_path a) key) true (ma_ended a))
    end.

Definition map_next_value (a : MapAccess) : DM (A * MapAccess) :=
  if ma_ended a then throw (invariant_error (path_clone (ma_path a)) (str "map already ended"))
  else if negb (ma_pending a) then throw (invariant_error (path_clone (ma_path a)) (str "map key is missing"))
  else
    let* value := deserialize input (path_clone (ma_value_path a)) in
    ret (value, MkMapAccess (ma_path a) (ma_value_path a) false (ma_ended a)).

Definition enum_value (a : EnumAccess) : DM A :=
  if ea_consumed a then throw (invariant_error (path_clone (ea_path a)) (str "enum already consumed"))
  else
    let* result := deserialize input (enum_child a) in
    do* enum_finish input a ;;
    ret result.
End DeserializerTemplates.

(** ** Primitive types *)

#[export] Instance unit_serialize : Serialize unit := {
  serialize _ _ := serialize_unit; key_name _ := None }.
#[export] Instance unit_deserialize : Deserialize unit := deserialize_unit.

#[export] Instance bool_serialize : Serialize bool := {
  serialize _ value := serialize_bool value; key_name _ := None }.
#[export] Instance bool_deserialize : Deserialize bool := deserialize_bool.

(** The signed and the unsigned integers of a width, floats, strings. *)
Record Signed (t : int_type) := MkSigned { signed_value : Z }.
Record Unsigned (t : int_type) := MkUnsigned { unsigned_value : Z }.
Record Float64 := MkFloat { float_bits : Z }.
Record Text8 := MkText { text_bytes : list Z }.

Arguments MkSigned {t} signed_value.
Arguments MkUnsigned {t} unsigned_value.
Arguments signed_value {t} s.
Arguments unsigned_value {t} u.

Section Integers.
Context {t : int_type}.

#[export] Instance signed_serialize : Serialize (Signed t) := {
  serialize _ value := serialize_i64 (signed_value value); key_name _ := None }.

(** [rstd::try_from] keeps what is in range. *)
#[export] Instance signed_deserialize : Deserialize (Signed t) := fun input path =>
  let* value := deserialize_i64 input path in
  if in_range t value then ret (MkSigned value)
  else throw (deserializer_report path invalid_value (str "integer out of range")).

#[export] Instance unsigned_serialize : Serialize (Unsigned t) := {
  serialize _ value := serialize_u64 (unsigned_value value); key_name _ := None }.

#[export] Instance unsigned_deserialize : Deserialize (Unsigned t) := fun input path =>
  let* value := deserialize_u64 input path in
  if in_range t value then ret (MkUnsigned value)
  else throw (deserializer_report path invalid_value (str "integer out of range")).
End Integers.

#[export] Instance float_serialize : Serialize Float64 := {
  serialize _ value := serialize_f64 (float_bits value); key_name _ := None }.
#[export] Instance float_deserialize : Deserialize Float64 := fun input path =>
  let* value := deserialize_f64 input path in ret (MkFloat value).

#[export] Instance text_serialize : Serialize Text8 := {
  serialize _ value := serialize_string (text_bytes value); key_name value := Some (text_bytes value) }.
#[export] Instance text_deserialize : Deserialize Text8 := fun input path =>
  let* value := deserialize_string input path in ret (MkText value).

(** Strings are ordered by their bytes. *)
#[export] Instance text_ordering : Ordering Text8 := fun a b => cmp (text_bytes a) (text_bytes b).

#[export] Instance text_ordering_laws : OrderingLaws Text8.
Proof.
  split.
  - intros [a] [b]. change (cmp a b = Eq <-> MkText a = MkText b). rewrite cmp_eq. split; [by intros -> | by intros [=]].
  - intros [a] [b]. exact (cmp_antisym a b).
  - intros [a] [b] [c]. exact (cmp_trans a b c).
Qed.

(** ** Containers *)

Section Containers.
Context {A : Type} `{Serialize A, Deserialize A}.

#[export] Instance option_serialize : Serialize (option A) := {
  serialize path value :=
    match value with None => serialize_none | Some value => serialize_some path value end;
  key_name _ := None }.
#[export] Instance option_deserialize : Deserialize (option A) := fun input path => deserialize_option input path.

Fixpoint serialize_elements (q : TokenSequence) (values : list A) : SM TokenSequence :=
  match values with
  | [] => ret q
  | value :: values => let* q := sequence_element q value in serialize_elements q values
  end.

Definition serialize_vec (path : DataPath) (values : list A) : SM unit :=
  let* q := begin_sequence path (length values) in
  let* q := serialize_elements q values in
  do* sequence_end q ;;
  ret tt.

#[export] Instance vec_serialize : Serialize (list A) := {
  serialize := serialize_vec; key_name _ := None }.

(** Every round but the last reads an element. *)
Fixpoint deserialize_elements (fuel : nat) (input : list Token) (a : SequenceAccess) (values : list A)
    : DM (SequenceAccess * list A) :=
  match fuel with
  | O => out_of_fuel
  | S fuel =>
    let* next := sequence_next input a in
    match next with
    | (None, a) => ret (a, values)
    | (Some value, a) => deserialize_elements fuel input a (values ++ [value])
    end
  end.

#[export] Instance vec_deserialize : Deserialize (list A) := fun input path =>
  let* a := begin_sequence_access input path in
  let* fuel := gets (fun position => S (tokens_left input position)) in
  let* r := deserialize_elements fuel input a [] in
  do* sequence_access_end input (fst r) ;;
  ret (snd r).
End Containers.

(** [BTreeMap<K, V>] *)
Record BTree (K V : Type) := MkBTree { entries : list (K * V) }.
Arguments MkBTree {K V} entries.
Arguments entries {K V} b.

Section Maps.
Context {K V : Type} `{Ordering K, Serialize K, Deserialize K, Serialize V, Deserialize V}.

Fixpoint serialize_entries (q : TokenMap) (values : list (K * V)) : SM TokenMap :=
  match values with
  | [] => ret q
  | (key, value) :: values =>
    let* q := map_key q key in
    let* q := map_value q value in
    serialize_entries q values
  end.

Definition serialize_btree (path : DataPath) (m : BTree K V) : SM unit :=
  let* q := begin_map path (length (entries m)) in
  let* q := serialize_entries q (entries m) in
  do* map_end q ;;
  ret tt.

#[export] Instance btree_serialize : Serialize (BTree K V) := {
  serialize := serialize_btree; key_name _ := None }.

Fixpoint deserialize_entries (fuel : nat) (input : list Token) (path : DataPath) (a : MapAccess) (values : list (K * V))
    : DM (MapAccess * list (K * V)) :=
  match fuel with
  | O => out_of_fuel
  | S fuel =>
    let* next := map_next_key input a in
    match next with
    | (None, a) => ret (a, values)
    | (Some key, a) =>
      let* value := map_next_value input a in
      match map_insert key (fst value) values with
      | (Some _, _) => throw (deserializer_report path invalid_value (str "map contains a duplicate key"))
      | (None, values) => deserialize_entries fuel input path (snd value) values
      end
    end
  end.

#[export] Instance btree_deserialize : Deserialize (BTree K V) := fun input path =>
  let* a := begin_map_access input path in
  let* fuel := gets (fun position => S (tokens_left input position)) in
  let* r := deserialize_entries fuel input path a [] in
  do* map_access_end input (fst r) ;;
  ret (MkBTree (snd r)).
End Maps.

(** [Result<T, E>] *)
Section Results.
Context {A B : Type} `{Serialize A, Deserialize A, Serialize B, Deserialize B}.

#[export] Instance result_serialize : Serialize (result A B) := {
  serialize path value :=
    match value with
    | Ok a => serialize_newtype_variant path (str "Ok") a
    | Err e => serialize_newtype_variant path (str "Err") e
    end;
  key_name _ := None }.

#[export] Instance result_deserialize : Deserialize (result A B) := fun input path =>
  let* a := begin_enum input path in
  if bool_decide (ea_variant a = str "Ok") then let* value := enum_value input a in ret (Ok value)
  else if bool_decide (ea_variant a = str "Err") then let* value := enum_value input a in ret (Err value)
  else throw (deserializer_report path unknown_variant (ea_variant a)).
End Results.

(** [TaggedOption<T>] *)
Record TaggedOption (A : Type) := MkTagged { tagged : option A }.
Arguments MkTagged {A} tagged.
Arguments tagged {A} t.

Section Tagged.
Context {A : Type} `{Serialize A, Deserialize A}.

#[export] Instance tagged_serialize : Serialize (TaggedOption A) := {
  serialize path value :=
    match tagged value with
    | None => serialize_unit_variant (str "None")
    | Some a => serialize_newtype_variant path (str "Some") a
    end;
  key_name _ := None }.

#[export] Instance tagged_deserialize : Deserialize (TaggedOption A) := fun input path =>
  let* a := begin_enum input path in
  if bool_decide (ea_variant a = str "None") then do* enum_unit input a ;; ret (MkTagged None)
  else if bool_decide (ea_variant a = str "Some") then let* value := enum_value input a in ret (MkTagged (Some value))
  else throw (deserializer_report path unknown_variant (ea_variant a)).
End Tagged.

(** ** Entry points *)

Definition to_tokens {A} `{Serialize A} (value : A) : outcome SerdeError (list Token) :=
  match serialize [] value (MkSink [] 0) with
  | (Ret _, s) =>
    if negb (is_complete s) then Fail (invariant_error [] (str "serde compound was not ended")) else Ret (tokens s)
  | (Fail e, _) => Fail e
  | (Panic, _) => Panic
  | (OutOfFuel, _) => OutOfFuel
  end.

Definition from_tokens {A} `{Deserialize A} (input : list Token) : outcome SerdeError A :=
  match deserialize input [] 0%nat with
  | (Ret value, position) =>
    if negb (position =? length input)%nat then Fail (invariant_error [] (str "trailing serde tokens")) else Ret value
  | (Fail e, _) => Fail e
  | (Panic, _) => Panic
  | (OutOfFuel, _) => OutOfFuel
  end.
