(* ===== verification/SerdeRoundtrip.v ===== *)
(** * serde tokens: every type reads back what it writes

    [TokenRoundtrip] is proved once per [Impl], so that it holds of every
    composition of the types. *)

From Stdlib Require Import ZArith Lia ZifyBool Sorting.Sorted.
From stdpp Require Import strings.
From S2P Require Import Prelude Int Utf8 OrdMap Serde SerdeTraits.
Local Open Scope Z_scope.
Local Open Scope rstd_scope.

(** ** serde tokens: grammar, skipping and round trips *)

(** ** The grammar of the format *)

Definition is_atom (k : TokenKind) : bool :=
  match k with KNull | KUnit | KBool | KI64 | KU64 | KF64 | KString | KBytes => true | _ => false end.

Definition is_end (k : TokenKind) : bool :=
  match k with KSomeEnd | KSequenceEnd | KMapEnd | KEnumEnd => true | _ => false end.

(** The tokens of one value, of the elements of a sequence and of the entries
    of a map. *)
Inductive value_tokens : list Token -> Prop :=
| vt_atom t : is_atom (kind_ t) = true -> value_tokens [t]
| vt_some s v e : kind_ s = KSomeStart -> value_tokens v -> kind_ e = KSomeEnd -> value_tokens (s :: v ++ [e])
| vt_sequence s vs e :
    kind_ s = KSequenceStart -> elements_tokens vs -> kind_ e = KSequenceEnd -> value_tokens (s :: vs ++ [e])
| vt_map s es e : kind_ s = KMapStart -> entries_tokens es -> kind_ e = KMapEnd -> value_tokens (s :: es ++ [e])
| vt_enum s n v e :
    kind_ s = KEnumStart -> kind_ n = KString -> value_tokens v -> kind_ e = KEnumEnd ->
    value_tokens (s :: n :: v ++ [e])
with elements_tokens : list Token -> Prop :=
| et_nil : elements_tokens []
| et_cons v vs : value_tokens v -> elements_tokens vs -> elements_tokens (v ++ vs)
with entries_tokens : list Token -> Prop :=
| nt_nil : entries_tokens []
| nt_cons k v es : value_tokens k -> value_tokens v -> entries_tokens es -> entries_tokens (k ++ v ++ es).

Scheme value_tokens_mut := Induction for value_tokens Sort Prop
with elements_tokens_mut := Induction for elements_tokens Sort Prop
with entries_tokens_mut := Induction for entries_tokens Sort Prop.

(** A value starts with a token that ends nothing. *)
Lemma value_tokens_head v : value_tokens v -> exists t l, v = t :: l /\ is_end (kind_ t) = false.
Proof.
  destruct 1 as [t Ha|s v e Hs|s vs e Hs|s es e Hs|s n v e Hs]; eexists _, _; (split; [done|]); [|by rewrite Hs..].
  by destruct (kind_ t).
Qed.

Lemma value_tokens_length v : value_tokens v -> (1 <= length v)%nat.
Proof. intros (t & l & -> & _)%value_tokens_head. cbn. lia. Qed.

(** ** Running the deserializer *)

Definition dwp {A} (m : DM A) (position : nat) (Q : A -> nat -> Prop) : Prop :=
  match m position with
  | (Ret a, position') => Q a position'
  | (Fail _, _) => True
  | (Panic, _) => False
  | (OutOfFuel, _) => False
  end.

Lemma dwp_bind {A B} (m : DM A) (k : A -> DM B) n Q :
  dwp m n (fun a n' => dwp (k a) n' Q) -> dwp (bind m k) n Q.
Proof. unfold dwp, bind. by destruct (m n) as [[]?]. Qed.

Lemma dwp_conseq {A} (m : DM A) n (Q Q' : A -> nat -> Prop) :
  dwp m n Q -> (forall a n', Q a n' -> Q' a n') -> dwp m n Q'.
Proof. unfold dwp. destruct (m n) as [[]?]; auto. Qed.

Lemma dwp_call {A B} (m : DM A) (k : A -> DM B) n (Q : A -> nat -> Prop) Q' :
  dwp m n Q -> (forall a n', Q a n' -> dwp (k a) n' Q') -> dwp (bind m k) n Q'.
Proof. intros Hm Hk. apply dwp_bind. by eapply dwp_conseq. Qed.

Lemma dwp_gets {A B} (f : nat -> A) (k : A -> DM B) n Q : dwp (k (f n)) n Q -> dwp (bind (gets f) k) n Q.
Proof. done. Qed.

Lemma dwp_advance {B} (k : unit -> DM B) n Q : dwp (k tt) (S n) Q -> dwp (bind advance_token k) n Q.
Proof. done. Qed.

Section Ignore.
Context (input : list Token).

Lemma peek_token_lookup n : peek_token input n = input !! n.
Proof.
  unfold peek_token. destruct (length input <=? n)%nat eqn:E; [|done]. apply Nat.leb_le in E.
  by rewrite lookup_ge_None_2.
Qed.

Lemma dwp_take path k vk n :
  dwp (take_token input path k vk) n (fun t n' => n' = S n /\ input !! n = Some t /\ kind_ t = k).
Proof.
  unfold take_token. apply dwp_gets. rewrite peek_token_lookup. destruct (input !! n) as [t|] eqn:E; [|done].
  case_bool_decide as Hk; cbn [negb]; [|done]. by apply dwp_advance.
Qed.

(** The tokens between two positions. *)
Definition between (n m : nat) : list Token := take (m - n) (drop n input).

Lemma between_nil n : between n n = [].
Proof. unfold between. by rewrite Nat.sub_diag. Qed.

Lemma between_app n m k : (n <= m <= k)%nat -> between n k = between n m ++ between m k.
Proof.
  intros H. unfold between. replace (k - n)%nat with ((m - n) + (k - m))%nat by lia.
  rewrite <- take_take_drop, drop_drop. do 3 f_equal. lia.
Qed.

Lemma between_one n t : input !! n = Some t -> between n (S n) = [t].
Proof.
  intros H. unfold between. replace (S n - n)%nat with 1%nat by lia. rewrite (drop_S _ t) by done. done.
Qed.

Lemma between_cons n k t : (n < k)%nat -> input !! n = Some t -> between n k = t :: between (S n) k.
Proof. intros Hk H. rewrite (between_app n (S n)) by lia. by rewrite (between_one n t). Qed.

Lemma between_snoc n k t : (n <= k)%nat -> input !! k = Some t -> between n (S k) = between n k ++ [t].
Proof. intros Hk H. rewrite (between_app n k) by lia. by rewrite (between_one k t). Qed.

Abbreviation len := (length input).

(** Skipping ends, and what it skips is a value. *)
Definition skips (P : list Token -> Prop) (k n : nat) (_ : unit) (n' : nat) : Prop :=
  (n + k <= n' <= len)%nat /\ P (between n n').

Lemma ignore_sound fuel path :
  (forall n, (n <= len)%nat -> (2 * tokens_left input n + 1 <= fuel)%nat ->
     dwp (ignore_value input fuel path) n (skips value_tokens 1 n)) /\
  (forall n, (n <= len)%nat -> (2 * tokens_left input n + 2 <= fuel)%nat ->
     dwp (ignore_elements input fuel path) n (skips elements_tokens 0 n)) /\
  (forall n, (n <= len)%nat -> (2 * tokens_left input n + 2 <= fuel)%nat ->
     dwp (ignore_entries input fuel path) n (skips entries_tokens 0 n)).
Proof.
  unfold tokens_left. induction fuel as [|fuel (HV & HE & HN)]; [split_and!; intros; lia|]. split_and!; intros n Hn Hf.
  - cbn [ignore_value]. apply dwp_gets. rewrite peek_token_lookup. destruct (input !! n) as [t|] eqn:Et; [|done].
    pose proof (lookup_lt_Some _ _ _ Et) as Hlt.
    assert (is_atom (kind_ t) = true -> dwp advance_token n (skips value_tokens 1 n)) as Hatom.
    { intros Ha. split; [lia|]. rewrite (between_one _ _ Et). by constructor. }
    assert (forall P ke n1, (S n <= n1)%nat -> P (between (S n) n1) -> (forall v e, P v -> kind_ e = ke -> value_tokens (t :: v ++ [e])) ->
      forall vk, dwp (bind (take_token input path ke vk) (fun _ => ret tt)) n1 (skips value_tokens 1 n)) as Hclose.
    { intros P ke n1 Hn1 HP Hmk vk. eapply dwp_call; [apply dwp_take|]. cbn beta. intros e n2 (-> & He & Hke).
      pose proof (lookup_lt_Some _ _ _ He). split; [lia|].
      rewrite (between_cons n (S n1) t), between_snoc with (t := e) by (done || lia). by apply Hmk. }
    destruct (kind_ t) eqn:Ek; try (by apply Hatom); try done; apply dwp_advance.
    + eapply dwp_call; [apply HV; lia|]. cbn beta. intros _ n1 [H1 P1].
      apply (Hclose value_tokens); [lia | done |]. intros. by apply vt_some.
    + eapply dwp_call; [apply HE; lia|]. cbn beta. intros _ n1 [H1 P1].
      apply (Hclose elements_tokens); [lia | done |]. intros. by apply vt_sequence.
    + eapply dwp_call; [apply HN; lia|]. cbn beta. intros _ n1 [H1 P1].
      apply (Hclose entries_tokens); [lia | done |]. intros. by apply vt_map.
    + eapply dwp_call; [apply dwp_take|]. cbn beta. intros m n1 (-> & Em & Hm). pose proof (lookup_lt_Some _ _ _ Em).
      eapply dwp_call; [apply HV; lia|]. cbn beta. intros _ n1 [H1 P1].
      apply (Hclose (fun l => exists v, l = m :: v /\ value_tokens v)); [lia | |].
      * exists (between (S (S n)) n1). split; [|done]. apply between_cons; [lia | done].
      * intros v e (v' & -> & Hv') He. by apply vt_enum.
  - cbn [ignore_elements]. apply dwp_gets. rewrite peek_token_lookup.
    assert (skips elements_tokens 0 n tt n) as Hstop by (split; [lia|]; rewrite between_nil; constructor).
    destruct (input !! n) as [t|] eqn:Et; [|done]. pose proof (lookup_lt_Some _ _ _ Et). case_if; [done|].
    eapply dwp_call; [apply HV; lia|]. cbn beta. intros _ n1 [H1 P1].
    eapply dwp_conseq; [apply HE; lia|]. intros [] n2 [H2 P2]. split; [lia|].
    rewrite (between_app n n1 n2) by lia. by constructor.
  - cbn [ignore_entries]. apply dwp_gets. rewrite peek_token_lookup.
    assert (skips entries_tokens 0 n tt n) as Hstop by (split; [lia|]; rewrite between_nil; constructor).
    destruct (input !! n) as [t|] eqn:Et; [|done]. pose proof (lookup_lt_Some _ _ _ Et). case_if; [done|].
    eapply dwp_call; [apply HV; lia|]. cbn beta. intros _ n1 [H1 P1].
    eapply dwp_call; [apply HV; lia|]. cbn beta. intros _ n2 [H2 P2].
    eapply dwp_conseq; [apply HN; lia|]. intros [] n3 [H3 P3]. split; [lia|].
    rewrite (between_app n n1 n3), (between_app n1 n2 n3) by lia. by constructor.
Qed.

(** *** Completeness *)

Lemma drop_cons_inv n t l : drop n input = t :: l -> input !! n = Some t /\ drop (S n) input = l.
Proof.
  intros E. assert (input !! n = Some t) as Ht by (by rewrite <- (Nat.add_0_r n), <- lookup_drop, E). split; [done|].
  rewrite (drop_S _ t) in E by done. by injection E.
Qed.

Lemma drop_app_inv n v l : drop n input = v ++ l -> drop (n + length v) input = l.
Proof. intros E. by rewrite <- drop_drop, E, drop_app_length. Qed.

(** The token in front of the deserializer. *)
Lemma peek_at n t l : drop n input = t :: l -> peek_token input n = Some t /\ drop (S n) input = l.
Proof. intros [E ?]%drop_cons_inv. by rewrite peek_token_lookup. Qed.

Lemma take_at n t l path k vk : drop n input = t :: l -> kind_ t = k -> take_token input path k vk n = (Ret t, S n).
Proof.
  intros E Hk. unfold take_token, bind, gets. destruct (peek_at n t l E) as [-> _].
  by rewrite bool_decide_eq_true_2.
Qed.

Lemma close_at {A} n t l path k vk (x : A) :
  drop n input = t :: l -> kind_ t = k -> bind (take_token input path k vk) (fun _ => ret x) n = (Ret x, S n).
Proof. intros E Hk. unfold bind. by rewrite (take_at n t l path k vk E Hk). Qed.

Definition ignores (v : list Token) : Prop := forall fuel path n post,
  drop n input = v ++ post -> (2 * length v <= fuel)%nat -> ignore_value input fuel path n = (Ret tt, n + length v)%nat.
Definition ignores_elements (vs : list Token) : Prop := forall fuel path n e post,
  drop n input = vs ++ e :: post -> kind_ e = KSequenceEnd -> (2 * length vs + 1 <= fuel)%nat ->
  ignore_elements input fuel path n = (Ret tt, n + length vs)%nat.
Definition ignores_entries (es : list Token) : Prop := forall fuel path n e post,
  drop n input = es ++ e :: post -> kind_ e = KMapEnd -> (2 * length es + 1 <= fuel)%nat ->
  ignore_entries input fuel path n = (Ret tt, n + length es)%nat.

Ltac token_lengths Hf := cbn [length] in Hf; rewrite ?length_app in Hf; cbn [length] in Hf.

(** The opening token of a compound and what comes before its end. *)
Lemma ignore_compound s v e post path n (body : DM unit) k vk :
  drop n input = s :: v ++ e :: post -> kind_ e = k ->
  (drop (S n) input = v ++ e :: post -> body (S n) = (Ret tt, S n + length v)%nat) ->
  bind advance_token (fun _ => bind body (fun _ => bind (take_token input path k vk) (fun _ => ret tt))) n =
  (Ret tt, n + length (s :: v ++ [e]))%nat.
Proof.
  intros E Hk Hbody. destruct (drop_cons_inv _ _ _ E) as [_ E1]. unfold bind at 1, advance_token, modify.
  unfold bind at 1. rewrite Hbody by done. apply drop_app_inv in E1. rewrite (close_at _ _ _ _ _ _ _ E1 Hk).
  f_equal. cbn [length]. rewrite length_app. cbn. lia.
Qed.

Lemma ignore_complete v : value_tokens v -> ignores v.
Proof.
  apply (value_tokens_mut (fun v _ => ignores v) (fun vs _ => ignores_elements vs) (fun es _ => ignores_entries es)).
  - intros t Ha fuel path n post E Hf. destruct fuel as [|fuel]; [cbn in Hf; lia|].
    cbn [ignore_value]. unfold bind at 1, gets. destruct (peek_at _ _ _ E) as [-> _].
    cbn [length]. rewrite Nat.add_1_r. by destruct (kind_ t).
  - intros s v0 e Hs _ IH He fuel path n post E Hf. token_lengths Hf. destruct fuel as [|fuel]; [lia|].
    cbn [app] in E. rewrite <- app_assoc in E. cbn [app] in E.
    cbn [ignore_value]. unfold bind at 1, gets. destruct (peek_at _ _ _ E) as [-> _]. rewrite Hs.
    apply (ignore_compound s v0 e post path n _ _ _ E He). intros E1. eapply IH; [exact E1 | lia].
  - intros s vs e Hs _ IH He fuel path n post E Hf. token_lengths Hf. destruct fuel as [|fuel]; [lia|].
    cbn [app] in E. rewrite <- app_assoc in E. cbn [app] in E.
    cbn [ignore_value]. unfold bind at 1, gets. destruct (peek_at _ _ _ E) as [-> _]. rewrite Hs.
    apply (ignore_compound s vs e post path n _ _ _ E He). intros E1. eapply IH; [exact E1 | done | lia].
  - intros s es e Hs _ IH He fuel path n post E Hf. token_lengths Hf. destruct fuel as [|fuel]; [lia|].
    cbn [app] in E. rewrite <- app_assoc in E. cbn [app] in E.
    cbn [ignore_value]. unfold bind at 1, gets. destruct (peek_at _ _ _ E) as [-> _]. rewrite Hs.
    apply (ignore_compound s es e post path n _ _ _ E He). intros E1. eapply IH; [exact E1 | done | lia].
  - intros s m v0 e Hs Hm _ IH He fuel path n post E Hf. token_lengths Hf. destruct fuel as [|fuel]; [lia|].
    cbn [app] in E. rewrite <- app_assoc in E. cbn [app] in E.
    cbn [ignore_value]. unfold bind at 1, gets. destruct (peek_at _ _ _ E) as [-> E1]. rewrite Hs.
    unfold bind at 1, advance_token, modify. unfold bind at 1. rewrite (take_at _ _ _ _ _ _ E1 Hm).
    apply drop_cons_inv in E1 as [_ E2]. unfold bind at 1. rewrite (IH fuel path (S (S n)) (e :: post) E2) by lia.
    apply drop_app_inv in E2. rewrite (close_at _ _ _ _ _ _ _ E2 He). f_equal. cbn [length]. rewrite length_app. cbn. lia.
  - intros fuel path n e post E He Hf. destruct fuel as [|fuel]; [cbn in Hf; lia|].
    cbn [ignore_elements]. unfold bind, gets. destruct (peek_at _ _ _ E) as [-> _].
    rewrite bool_decide_eq_true_2 by done. by rewrite Nat.add_0_r.
  - intros v0 vs Hv IHv _ IHvs fuel path n e post E He Hf. token_lengths Hf. destruct fuel as [|fuel]; [lia|].
    rewrite <- app_assoc in E. pose proof (value_tokens_length _ Hv).
    destruct (value_tokens_head v0 Hv) as (t & l & Et & Hend).
    cbn [ignore_elements]. unfold bind at 1, gets. pose proof E as Ep. rewrite Et in Ep. cbn [app] in Ep.
    destruct (peek_at _ _ _ Ep) as [-> _]. rewrite bool_decide_eq_false_2 by (intros Hk; by rewrite Hk in Hend).
    unfold bind. rewrite (IHv fuel path n _ E) by lia. apply drop_app_inv in E.
    rewrite (IHvs fuel path _ e post E He) by lia. f_equal. rewrite length_app. lia.
  - intros fuel path n e post E He Hf. destruct fuel as [|fuel]; [cbn in Hf; lia|].
    cbn [ignore_entries]. unfold bind, gets. destruct (peek_at _ _ _ E) as [-> _].
    rewrite bool_decide_eq_true_2 by done. by rewrite Nat.add_0_r.
  - intros k v0 es Hk IHk Hv IHv _ IHes fuel path n e post E He Hf. token_lengths Hf. destruct fuel as [|fuel]; [lia|].
    rewrite <- !app_assoc in E. pose proof (value_tokens_length _ Hk).
    destruct (value_tokens_head k Hk) as (t & l & Et & Hend).
    cbn [ignore_entries]. unfold bind at 1, gets. pose proof E as Ep. rewrite Et in Ep. cbn [app] in Ep.
    destruct (peek_at _ _ _ Ep) as [-> _]. rewrite bool_decide_eq_false_2 by (intros Hk'; by rewrite Hk' in Hend).
    unfold bind at 1. rewrite (IHk fuel path n _ E) by lia. apply drop_app_inv in E.
    unfold bind. rewrite (IHv fuel path _ _ E) by lia. apply drop_app_inv in E.
    rewrite (IHes fuel path _ e post E He) by lia. f_equal. rewrite !length_app. lia.
Qed.
End Ignore.

(** [ignore_value] skips exactly the values of the token format.  On any
    tokens and from any position it ends without a panic; it succeeds, at the
    position [n'], when and only when the tokens up to [n'] are one value in
    the grammar: an atom, a balanced option, sequence or variant, or a map of
    whole entries. *)
Theorem ignore_value_exact input path n :
  (n <= length input)%nat ->
  (forall n', ignore input path n = (Ret tt, n') <->
     (n <= n' <= length input)%nat /\ value_tokens (between input n n')) /\
  ((exists n', ignore input path n = (Ret tt, n')) \/ exists e n', ignore input path n = (Fail e, n')).
Proof.
  intros Hn. destruct (ignore_sound input (ignore_fuel input n) path) as [HV _].
  specialize (HV n Hn ltac:(unfold ignore_fuel; lia)). unfold ignore, bind, gets. unfold dwp in HV. split.
  - intros n'. split.
    + intros E. rewrite E in HV. destruct HV as [? ?]. split; [lia | done].
    + intros [Hn' Hv]. rewrite (ignore_complete input _ Hv (ignore_fuel input n) path n (drop n' input)).
      * f_equal. unfold between. rewrite length_take, length_drop. lia.
      * unfold between. rewrite <- (take_drop (n' - n) (drop n input)) at 1. f_equal. rewrite drop_drop. f_equal. lia.
      * unfold between, ignore_fuel, tokens_left. rewrite length_take, length_drop. lia.
  - destruct (ignore_value input (ignore_fuel input n) path n) as [[[]|e| |] n']; [by left; exists n' | | done..].
    right. by exists e, n'.
Qed.

(** A sequence of two values in front of a third; and a map with a key that
    lacks its value. *)
Lemma ignore_value_exact_witness :
  let s := token_container KSequenceStart 2 in
  let e := token_marker KSequenceEnd in
  let input := [s; token_null; token_boolean true; e; token_null] in
  let bad := [token_container KMapStart 1; token_null; token_marker KMapEnd] in
  ignore input [] 0%nat = (Ret tt, 4%nat) /\ value_tokens [s; token_null; token_boolean true; e] /\
  ~ value_tokens bad.
Proof.
  intros s e input bad. assert (ignore input [] 0%nat = (Ret tt, 4%nat)) as E by reflexivity.
  split; [exact E|]. split.
  - exact (proj2 (proj1 (proj1 (ignore_value_exact input [] 0%nat ltac:(cbn; lia)) 4%nat) E)).
  - intros H. assert (ignore bad [] 0%nat = (Ret tt, 3%nat)) as E'.
    { apply (proj1 (ignore_value_exact bad [] 0%nat ltac:(cbn; lia))). split; [cbn; lia | exact H]. }
    discriminate E'.
Defined.

Class TokenRoundtrip (A : Type) `{Serialize A, Deserialize A} := {
  valid : A -> Prop;
  encode : A -> list Token;
  encode_value a : valid a -> value_tokens (encode a);
  serialize_encode a path s :
    valid a -> serialize path a s = (Ret tt, MkSink (tokens s ++ encode a) (open_compounds s));
  deserialize_encode a input path n post :
    valid a -> drop n input = encode a ++ post -> deserialize input path n = (Ret a, n + length (encode a))%nat;
  deserialize_settles input path n :
    (n <= length input)%nat -> dwp (deserialize input path) n (fun _ n' => (n < n' <= length input)%nat);
}.

(** ** Atoms *)

(** Reading one token of a kind. *)
Lemma atom_settles {A} (input : list Token) path k vk n (m : Token -> DM A) :
  (n <= length input)%nat -> (forall t n', dwp (m t) n' (fun _ n'' => n'' = n')) ->
  dwp (bind (take_token input path k vk) m) n (fun _ n' => (n < n' <= length input)%nat).
Proof.
  intros Hn Hm. eapply dwp_call; [apply dwp_take|]. cbn beta. intros t n' (-> & Ht & _).
  apply lookup_lt_Some in Ht. eapply dwp_conseq; [apply Hm|]. cbn. intros _ n' ->. lia.
Qed.

Lemma atom_read {A} (input : list Token) path k vk n t post (m : Token -> DM A) :
  drop n input = [t] ++ post -> kind_ t = k ->
  bind (take_token input path k vk) m n = m t (n + length [t])%nat.
Proof.
  intros E Hk. unfold bind. rewrite (take_at input n t post path k vk E Hk). by rewrite Nat.add_1_r.
Qed.

#[export] Instance unit_roundtrip : TokenRoundtrip unit.
Proof.
  refine {| valid _ := True; encode _ := [token_marker KUnit] |}.
  - by constructor.
  - done.
  - intros [] input path n post _ E. unfold deserialize, unit_deserialize, deserialize_unit. by rewrite (atom_read _ _ _ _ _ _ _ _ E).
  - intros. by apply atom_settles.
Defined.

#[export] Instance bool_roundtrip : TokenRoundtrip bool.
Proof.
  refine {| valid _ := True; encode b := [token_boolean b] |}.
  - by constructor.
  - done.
  - intros b input path n post _ E. unfold deserialize, bool_deserialize, deserialize_bool. by rewrite (atom_read _ _ _ _ _ _ _ _ E).
  - intros. by apply atom_settles.
Defined.

#[export] Instance signed_roundtrip t : TokenRoundtrip (Signed t).
Proof.
  refine {| valid v := in_range t (signed_value v) = true; encode v := [token_signed (signed_value v)] |}.
  - by constructor.
  - done.
  - intros [v] input path n post Hv E. unfold deserialize, signed_deserialize, deserialize_i64.
    unfold bind at 1. rewrite (atom_read _ _ _ _ _ _ _ _ E) by done. cbn in Hv |- *. by rewrite Hv.
  - intros input path n Hn. unfold deserialize, signed_deserialize. eapply dwp_call; [by apply atom_settles|].
    cbn beta. intros v n' ?. by case_if.
Defined.

#[export] Instance unsigned_roundtrip t : TokenRoundtrip (Unsigned t).
Proof.
  refine {| valid v := in_range t (unsigned_value v) = true; encode v := [token_unsigned (unsigned_value v)] |}.
  - by constructor.
  - done.
  - intros [v] input path n post Hv E. unfold deserialize, unsigned_deserialize, deserialize_u64.
    unfold bind at 1. rewrite (atom_read _ _ _ _ _ _ _ _ E) by done. cbn in Hv |- *. by rewrite Hv.
  - intros input path n Hn. unfold deserialize, unsigned_deserialize. eapply dwp_call; [by apply atom_settles|].
    cbn beta. intros v n' ?. by case_if.
Defined.

#[export] Instance float_roundtrip : TokenRoundtrip Float64.
Proof.
  refine {| valid _ := True; encode v := [token_floating (float_bits v)] |}.
  - by constructor.
  - done.
  - intros [v] input path n post _ E. unfold deserialize, float_deserialize, deserialize_f64.
    unfold bind at 1. by rewrite (atom_read _ _ _ _ _ _ _ _ E).
  - intros input path n Hn. unfold deserialize, float_deserialize. eapply dwp_call; [by apply atom_settles|]. done.
Defined.

#[export] Instance text_roundtrip : TokenRoundtrip Text8.
Proof.
  refine {| valid _ := True; encode v := [token_string (text_bytes v)] |}.
  - by constructor.
  - done.
  - intros [v] input path n post _ E. unfold deserialize, text_deserialize, deserialize_string.
    unfold bind at 1. by rewrite (atom_read _ _ _ _ _ _ _ _ E).
  - intros input path n Hn. unfold deserialize, text_deserialize. eapply dwp_call; [by apply atom_settles|]. done.
Defined.

(** ** Compounds *)

Lemma push_token_eq t s : push_token t s = (Ret tt, MkSink (tokens s ++ [t]) (open_compounds s)).
Proof. done. Qed.

Section Compound.
Context {A : Type} `{TokenRoundtrip A}.

Lemma serialize_then (a : A) path s B (k : unit -> SM B) :
  valid a -> bind (serialize path a) k s = k tt (MkSink (tokens s ++ encode a) (open_compounds s)).
Proof. intros Ha. unfold bind. by rewrite serialize_encode. Qed.

Lemma deserialize_then (a : A) input path n post B (k : A -> DM B) :
  valid a -> drop n input = encode a ++ post ->
  bind (deserialize input path) k n = k a (n + length (encode a))%nat /\ drop (n + length (encode a)) input = post.
Proof.
  intros Ha E. unfold bind. rewrite (deserialize_encode a input path n post Ha E). split; [done|].
  by eapply drop_app_inv.
Qed.

Definition encode_variant (name : list Z) (body : list Token) : list Token :=
  token_marker KEnumStart :: token_string name :: body ++ [token_marker KEnumEnd].

Lemma newtype_variant_encode path name (a : A) s :
  valid a ->
  serialize_newtype_variant path name a s = (Ret tt, MkSink (tokens s ++ encode_variant name (encode a)) (open_compounds s)).
Proof.
  intros Ha. unfold serialize_newtype_variant. unfold bind at 1. rewrite push_token_eq.
  unfold bind at 1. rewrite push_token_eq, serialize_then by done. rewrite push_token_eq. cbn [tokens open_compounds].
  unfold encode_variant. by rewrite <- !app_assoc.
Qed.

Lemma enum_start input path n name body post B (k : EnumAccess -> DM B) :
  drop n input = encode_variant name body ++ post ->
  bind (begin_enum input path) k n = k (MkEnumAccess (path_clone path) name false) (S (S n)) /\
  drop (S (S n)) input = body ++ token_marker KEnumEnd :: post.
Proof.
  unfold encode_variant. cbn [app]. rewrite <- app_assoc. cbn [app]. intros E.
  destruct (drop_cons_inv _ _ _ _ E) as [_ E1]. destruct (drop_cons_inv _ _ _ _ E1) as [_ E2]. split; [|done].
  unfold bind at 1, begin_enum. unfold bind at 1. rewrite (take_at _ _ _ _ _ _ _ E) by done.
  unfold bind at 1. by rewrite (take_at _ _ _ _ _ _ _ E1).
Qed.

Lemma enum_value_encode input path variant (x : A) n post :
  valid x -> drop n input = encode x ++ token_marker KEnumEnd :: post ->
  enum_value input (MkEnumAccess path variant false) n = (Ret x, n + length (encode x) + 1)%nat.
Proof.
  intros Hx E. unfold enum_value. cbn [ea_consumed]. set (a := MkEnumAccess path variant false).
  destruct (deserialize_then x input (enum_child a) n _ _ (fun r => bind (enum_finish input a) (fun _ => ret r)) Hx E) as [-> E1].
  unfold enum_finish, bind. rewrite (take_at _ _ _ _ _ _ _ E1) by done. unfold ret. f_equal. lia.
Qed.

Lemma begin_enum_settles input path n :
  dwp (begin_enum input path) n (fun a n' => n' = S (S n) /\ (n' <= length input)%nat /\ ea_consumed a = false).
Proof.
  unfold begin_enum. eapply dwp_call; [apply dwp_take|]. cbn beta. intros _ n1 (-> & _ & _).
  eapply dwp_call; [apply dwp_take|]. cbn beta. intros t n2 (-> & Ht & _). apply lookup_lt_Some in Ht.
  split_and!; [done | lia | done].
Qed.

Lemma enum_value_settles input a n :
  (n <= length input)%nat -> dwp (enum_value (A := A) input a) n (fun _ n' => (n < n' <= length input)%nat).
Proof.
  intros Hn. unfold enum_value. case_if; [done|]. eapply dwp_call; [by apply deserialize_settles|]. cbn beta. intros x n1 Hn1.
  apply dwp_bind. unfold enum_finish. eapply dwp_call; [apply dwp_take|]. cbn beta. intros t n2 (-> & Ht & _).
  apply lookup_lt_Some in Ht. unfold dwp, ret. lia.
Qed.

(** *** [Option] *)

Definition encode_option (o : option A) : list Token :=
  match o with
  | None => [token_null]
  | Some a => token_marker KSomeStart :: encode a ++ [token_marker KSomeEnd]
  end.

#[export] Instance option_roundtrip : TokenRoundtrip (option A).
Proof.
  refine {| valid o := match o with Some a => valid a | None => True end; encode := encode_option |}.
  - intros [a|] Ha; [|by constructor]. apply vt_some; [done | by apply encode_value | done].
  - intros [a|] path s Ha; [|done]. cbn [serialize option_serialize]. unfold serialize_some. unfold bind at 1.
    rewrite push_token_eq, serialize_then by done. rewrite push_token_eq. cbn [tokens open_compounds encode_option].
    by rewrite <- !app_assoc.
  - intros [a|] input path n post Ha E; unfold deserialize, option_deserialize, deserialize_option, bind at 1, gets.
    + cbn [encode_option app] in E. rewrite <- app_assoc in E. cbn [app] in E.
      destruct (peek_at _ _ _ _ E) as [-> E1]. rewrite bool_decide_eq_false_2 by done.
      rewrite bool_decide_eq_true_2 by done. cbn [negb]. unfold bind at 1, advance_token, modify.
      edestruct (deserialize_then a input (path_clone path) (S n)) as [-> E2]; [done | exact E1 |].
      rewrite (close_at _ _ _ _ _ _ _ _ E2) by done. f_equal. cbn [encode_option length]. rewrite length_app. cbn. lia.
    + destruct (peek_at _ _ _ _ E) as [-> E1]. rewrite bool_decide_eq_true_2 by done. unfold bind, advance_token, modify, ret.
      f_equal. cbn. lia.
  - intros input path n Hn. unfold deserialize, option_deserialize, deserialize_option. apply dwp_gets.
    rewrite peek_token_lookup. destruct (input !! n) as [t|] eqn:Et; [|done]. pose proof (lookup_lt_Some _ _ _ Et).
    case_if; [unfold dwp; cbn; lia|]. case_if; [done|]. apply dwp_advance.
    eapply dwp_call; [apply deserialize_settles; lia|]. cbn beta. intros a n1 Hn1.
    eapply dwp_call; [apply dwp_take|]. cbn beta. intros e n2 (-> & He & _). apply lookup_lt_Some in He.
    unfold dwp, ret. lia.
Defined.

(** *** [Vec] *)

Definition encode_vec (values : list A) : list Token :=
  token_container KSequenceStart (length values) :: concat (map encode values) ++ [token_marker KSequenceEnd].

Lemma serialize_elements_encode values : forall q s,
  Forall valid values -> seq_ended q = false ->
  exists q', serialize_elements q values s =
    (Ret q', MkSink (tokens s ++ concat (map encode values)) (open_compounds s)) /\ seq_ended q' = false.
Proof.
  induction values as [|a values IH]; intros q s Hall Hq; cbn [serialize_elements map concat].
  { exists q. rewrite app_nil_r. split; [|done]. unfold ret. by destruct s. }
  apply Forall_cons_1 in Hall as [Ha Hall]. unfold bind at 1, sequence_element. rewrite Hq, serialize_then by done.
  unfold ret at 1. destruct (IH (MkSequence (seq_path q) (S (seq_index q)) false)
    (MkSink (tokens s ++ encode a) (open_compounds s)) Hall eq_refl) as (q' & E & Hq').
  exists q'. rewrite E. cbn [tokens open_compounds]. by rewrite <- app_assoc.
Qed.

Lemma deserialize_elements_encode values : forall fuel input a n post acc,
  Forall valid values -> sa_ended a = false ->
  drop n input = concat (map encode values) ++ token_marker KSequenceEnd :: post -> (length values < fuel)%nat ->
  exists a', deserialize_elements fuel input a acc n =
    (Ret (a', acc ++ values), n + length (concat (map encode values)))%nat /\ sa_ended a' = false.
Proof.
  induction values as [|x values IH]; intros fuel input a n post acc Hall Ha E Hf; (destruct fuel as [|fuel]; [cbn in Hf; lia|]);
    cbn [deserialize_elements map concat] in *.
  - unfold bind, sequence_next. rewrite Ha. unfold bind, gets. cbn [app] in E. destruct (peek_at _ _ _ _ E) as [-> _].
    rewrite bool_decide_eq_true_2 by done. exists a. rewrite app_nil_r. split; [|done]. unfold ret. cbn. by rewrite Nat.add_0_r.
  - apply Forall_cons_1 in Hall as [Hx Hall]. rewrite <- app_assoc in E.
    destruct (value_tokens_head _ (encode_value x Hx)) as (t & l & Et & Hend).
    unfold bind at 1, sequence_next. rewrite Ha. unfold bind at 1, gets. pose proof E as Ep. rewrite Et in Ep. cbn [app] in Ep.
    destruct (peek_at _ _ _ _ Ep) as [-> _]. rewrite bool_decide_eq_false_2 by (intros Hk; by rewrite Hk in Hend).
    edestruct (deserialize_then x input (with_index (sa_path a) (sa_index a)) n) as [-> E1]; [done | exact E |].
    unfold ret at 1. edestruct (IH fuel input (MkSequenceAccess (sa_path a) (S (sa_index a)) false)) as (a' & E2 & Ha');
      [done | done | exact E1 | cbn in Hf; lia |].
    exists a'. rewrite E2. split; [|done]. rewrite <- app_assoc. cbn [app]. f_equal. rewrite length_app. lia.
Qed.

Lemma concat_values values : Forall valid values -> elements_tokens (concat (map encode values)).
Proof. induction 1; cbn; constructor; [by apply encode_value | done]. Qed.

Lemma concat_length values : Forall valid values -> (length values <= length (concat (map encode values)))%nat.
Proof.
  induction 1 as [|a values Ha _ IH]; cbn; [lia|]. rewrite length_app.
  pose proof (value_tokens_length _ (encode_value a Ha)). lia.
Qed.

Lemma deserialize_elements_settles fuel : forall input a n acc,
  (n <= length input)%nat -> (length input - n < fuel)%nat ->
  dwp (deserialize_elements fuel input a acc) n (fun _ n' => (n <= n' <= length input)%nat).
Proof.
  induction fuel as [|fuel IH]; intros input a n acc Hn Hf; [lia|]. cbn [deserialize_elements].
  eapply (dwp_call _ _ _ (fun r n' => match fst r with Some _ => n < n' <= length input | None => n' = n end)%nat).
  { unfold sequence_next. case_if; [done|]. apply dwp_gets. destruct (peek_token input n); [|done].
    case_if; [done|]. eapply dwp_call; [by apply deserialize_settles|]. done. }
  intros [[x|] a'] n' Hn'; cbn [fst] in Hn'.
  - eapply dwp_conseq; [apply IH; lia|]. cbn. lia.
  - subst. unfold dwp, ret. lia.
Qed.

#[export] Instance vec_roundtrip : TokenRoundtrip (list A).
Proof.
  refine {| valid := Forall valid; encode := encode_vec |}.
  - intros values Hall. apply vt_sequence; [done | by apply concat_values | done].
  - intros values path s Hall. cbn [serialize vec_serialize]. unfold serialize_vec, begin_sequence.
    unfold bind at 1, bind at 1. rewrite push_token_eq. unfold bind at 1, open_compound, modify, ret at 1. cbn [tokens open_compounds].
    destruct (serialize_elements_encode values (sequence_new (path_clone path))
      (MkSink (tokens s ++ [token_container KSequenceStart (length values)]) (S (open_compounds s))) Hall eq_refl) as (q & E & Hq).
    unfold bind at 1. rewrite E. unfold sequence_end. rewrite Hq. unfold bind, close_compound. cbn [open_compounds tokens].
    rewrite push_token_eq. cbn [tokens open_compounds]. unfold ret. do 2 f_equal. unfold encode_vec. by rewrite <- !app_assoc.
  - intros values input path n post Hall E. unfold encode_vec in E. cbn [app] in E. rewrite <- app_assoc in E. cbn [app] in E.
    unfold deserialize, vec_deserialize, begin_sequence_access. unfold bind at 1, bind at 1.
    rewrite (take_at _ _ _ _ _ _ _ E) by done. destruct (drop_cons_inv _ _ _ _ E) as [_ E1]. unfold ret at 1. unfold bind at 1, gets.
    destruct (deserialize_elements_encode values (S (tokens_left input (S n))) input (MkSequenceAccess (path_clone path) 0 false)
      (S n) post [] Hall eq_refl E1) as (a & E2 & Ha).
    { apply (f_equal length) in E1. rewrite length_drop, length_app in E1. pose proof (concat_length values Hall).
      unfold tokens_left. cbn [length] in E1. lia. }
    unfold bind at 1. rewrite E2. apply drop_app_inv in E1. unfold sequence_access_end. cbn [fst snd]. rewrite Ha.
    unfold bind, gets. destruct (peek_at _ _ _ _ E1) as [-> _]. rewrite bool_decide_eq_true_2 by done. cbn [negb].
    unfold advance_token, modify, ret. cbn [app]. f_equal. unfold encode_vec. cbn [length]. rewrite length_app. cbn. lia.
  - intros input path n Hn. unfold deserialize, vec_deserialize.
    eapply (dwp_call _ _ _ (fun _ n' => (n < n' <= length input)%nat)); [by apply atom_settles|].
    intros a n1 Hn1. apply dwp_gets. eapply dwp_call; [apply deserialize_elements_settles; unfold tokens_left; lia|].
    cbn beta. intros [a' acc] n2 Hn2. apply dwp_bind. unfold sequence_access_end. case_if; [done|]. apply dwp_gets.
    rewrite peek_token_lookup. destruct (input !! n2) as [t|] eqn:Et; [|done]. apply lookup_lt_Some in Et.
    case_if; [done|]. unfold dwp; cbn. lia.
Defined.

(** *** [TaggedOption] *)

Definition encode_tagged (o : TaggedOption A) : list Token :=
  match tagged o with
  | None => encode_variant (str "None") [token_marker KUnit]
  | Some a => encode_variant (str "Some") (encode a)
  end.

#[export] Instance tagged_roundtrip : TokenRoundtrip (TaggedOption A).
Proof.
  refine {| valid o := match tagged o with Some a => valid a | None => True end; encode := encode_tagged |}.
  - intros [[a|]] Ha; apply vt_enum; try done; [by apply encode_value | by constructor].
  - intros [[a|]] path s Ha; cbn [serialize tagged_serialize tagged]; [by apply newtype_variant_encode|].
    unfold serialize_unit_variant, bind. rewrite !push_token_eq. cbn [tokens open_compounds]. by rewrite <- !app_assoc.
  - intros [[a|]] input path n post Ha E; unfold deserialize, tagged_deserialize.
    + edestruct (enum_start input path n (str "Some")) as [-> E1]; [exact E|]. cbn [ea_variant].
      rewrite bool_decide_eq_false_2 by done. rewrite bool_decide_eq_true_2 by done.
      unfold bind. rewrite (enum_value_encode _ _ _ a _ post Ha E1). unfold ret. f_equal.
      unfold encode_tagged, encode_variant. cbn [tagged length]. rewrite length_app. cbn. lia.
    + edestruct (enum_start input path n (str "None")) as [-> E1]; [exact E|]. cbn [ea_variant].
      rewrite bool_decide_eq_true_2 by done. unfold enum_unit. cbn [ea_consumed]. unfold bind at 1.
      unfold bind at 1, deserialize_unit, bind at 1. cbn [app] in E1. rewrite (take_at _ _ _ _ _ _ _ E1) by done.
      apply drop_cons_inv in E1 as [_ E2]. unfold ret at 1, enum_finish, bind. rewrite (take_at _ _ _ _ _ _ _ E2) by done.
      unfold ret. f_equal. cbn. lia.
  - intros input path n Hn. unfold deserialize, tagged_deserialize. eapply dwp_call; [apply begin_enum_settles|].
    cbn beta. intros a n1 (-> & Hn1 & Hc). case_if.
    + apply dwp_bind. unfold enum_unit. rewrite Hc. eapply dwp_call; [unfold deserialize_unit; by apply atom_settles|]. cbn beta. intros _ n2 Hn2.
      eapply dwp_conseq; [unfold enum_finish; apply atom_settles; [lia | done]|]. cbn beta. intros _ n3 Hn3. unfold dwp, ret. lia.
    + case_if; [|done]. eapply dwp_call; [by apply enum_value_settles|]. cbn beta. intros x n2 Hn2. unfold dwp, ret. lia.
Defined.
End Compound.

(** *** [Result] *)

Section Result.
Context {A B : Type} `{TokenRoundtrip A} `{TokenRoundtrip B}.

Definition encode_result (r : result A B) : list Token :=
  match r with
  | Ok a => encode_variant (str "Ok") (encode a)
  | Err e => encode_variant (str "Err") (encode e)
  end.

#[export] Instance result_roundtrip : TokenRoundtrip (result A B).
Proof.
  refine {| valid r := match r with Ok a => valid a | Err e => valid e end; encode := encode_result |}.
  - intros [a|e] Ha; apply vt_enum; try done; by apply encode_value.
  - intros [a|e] path s Ha; by apply newtype_variant_encode.
  - intros [a|e] input path n post Ha E; unfold deserialize, result_deserialize.
    + edestruct (enum_start input path n (str "Ok")) as [-> E1]; [exact E|]. cbn [ea_variant].
      rewrite bool_decide_eq_true_2 by done. unfold bind. rewrite (enum_value_encode _ _ _ a _ post Ha E1).
      unfold ret. f_equal. unfold encode_result, encode_variant. cbn [length]. rewrite length_app. cbn. lia.
    + edestruct (enum_start input path n (str "Err")) as [-> E1]; [exact E|]. cbn [ea_variant].
      rewrite bool_decide_eq_false_2 by done. rewrite bool_decide_eq_true_2 by done.
      unfold bind. rewrite (enum_value_encode _ _ _ e _ post Ha E1).
      unfold ret. f_equal. unfold encode_result, encode_variant. cbn [length]. rewrite length_app. cbn. lia.
  - intros input path n Hn. unfold deserialize, result_deserialize. eapply dwp_call; [apply begin_enum_settles|].
    cbn beta. intros a n1 (-> & Hn1 & _). case_if; [|case_if; [|done]];
      (eapply dwp_call; [by apply enum_value_settles|]; cbn beta; intros x n2 Hn2; unfold dwp, ret; lia).
Defined.
End Result.

(** *** [BTreeMap] *)

Section Map.
Context {K V : Type} `{OrderingLaws K} `{TokenRoundtrip K} `{TokenRoundtrip V}.

Definition encode_entry (e : K * V) : list Token := encode (fst e) ++ encode (snd e).

Definition encode_btree (m : BTree K V) : list Token :=
  token_container KMapStart (length (entries m)) :: concat (map encode_entry (entries m)) ++ [token_marker KMapEnd].

Definition entry_valid (e : K * V) : Prop := valid (fst e) /\ valid (snd e).

Lemma serialize_entries_encode es : forall q s,
  Forall entry_valid es -> map_ended q = false -> map_pending q = false ->
  exists q', serialize_entries q es s =
    (Ret q', MkSink (tokens s ++ concat (map encode_entry es)) (open_compounds s)) /\
    map_ended q' = false /\ map_pending q' = false.
Proof.
  induction es as [|[k v] es IH]; intros q s Hall He Hp; cbn [serialize_entries map concat].
  { exists q. rewrite app_nil_r. split; [|done]. unfold ret. by destruct s. }
  apply Forall_cons_1 in Hall as [[Hk Hv] Hall]. cbn in Hk, Hv.
  unfold bind at 1, map_key. rewrite He, Hp, serialize_then by done. unfold ret at 1.
  unfold bind at 1, map_value. cbn [map_ended map_pending negb]. rewrite serialize_then by done. unfold ret at 1.
  edestruct IH as (q' & E & Hq'); [done | | |exists q'; rewrite E]; [done | done |].
  cbn [tokens open_compounds]. unfold encode_entry. cbn [fst snd]. by rewrite <- !app_assoc.
Qed.

Lemma deserialize_entries_encode es : forall fuel input path a n post acc,
  Forall entry_valid es -> sorted_keys (acc ++ es) -> ma_ended a = false -> ma_pending a = false ->
  drop n input = concat (map encode_entry es) ++ token_marker KMapEnd :: post -> (length es < fuel)%nat ->
  exists a', deserialize_entries fuel input path a acc n =
    (Ret (a', acc ++ es), n + length (concat (map encode_entry es)))%nat /\
    ma_ended a' = false /\ ma_pending a' = false.
Proof.
  induction es as [|[k v] es IH]; intros fuel input path a n post acc Hall Hsort He Hp E Hf;
    (destruct fuel as [|fuel]; [cbn in Hf; lia|]); cbn [deserialize_entries map concat] in *.
  - unfold bind, map_next_key. rewrite He, Hp. unfold bind, gets. cbn [app] in E. destruct (peek_at _ _ _ _ E) as [-> _].
    rewrite bool_decide_eq_true_2 by done. exists a. rewrite app_nil_r. split; [|done]. unfold ret. cbn. by rewrite Nat.add_0_r.
  - apply Forall_cons_1 in Hall as [[Hk Hv] Hall]. cbn in Hk, Hv. unfold encode_entry in E. cbn [fst snd] in E.
    rewrite <- !app_assoc in E. destruct (value_tokens_head _ (encode_value k Hk)) as (t & l & Et & Hend).
    unfold bind at 1, map_next_key. rewrite He, Hp. unfold bind at 1, gets. pose proof E as Ep. rewrite Et in Ep. cbn [app] in Ep.
    destruct (peek_at _ _ _ _ Ep) as [-> _]. rewrite bool_decide_eq_false_2 by (intros Hk'; by rewrite Hk' in Hend).
    edestruct (deserialize_then k input (path_clone (ma_path a)) n) as [-> E1]; [done | exact E |]. unfold ret at 1.
    unfold bind at 1, map_next_value. cbn [ma_ended ma_pending negb ma_value_path].
    edestruct (deserialize_then v input (path_clone (child_path (ma_path a) k))) as [-> E2]; [done | exact E1 |].
    unfold ret at 1. cbn [fst snd]. rewrite map_insert_last.
    2:{ by eapply sorted_before. }
    edestruct (IH fuel input path) as (a' & E3 & Ha'); [done | | | | exact E2 | cbn in Hf; lia | exists a'; rewrite E3];
      [by rewrite <- app_assoc | done | done |].
    split; [|done]. rewrite <- app_assoc. cbn [app]. f_equal. unfold encode_entry at 2. cbn [fst snd]. rewrite !length_app. lia.
Qed.

Lemma entries_values es : Forall entry_valid es -> entries_tokens (concat (map encode_entry es)).
Proof.
  induction 1 as [|[k v] es [Hk Hv] _ IH]; cbn; [constructor|]. unfold encode_entry. cbn [fst snd]. rewrite <- app_assoc.
  constructor; [by apply encode_value | by apply encode_value | done].
Qed.

Lemma entries_length es : Forall entry_valid es -> (length es <= length (concat (map encode_entry es)))%nat.
Proof.
  induction 1 as [|[k v] es [Hk _] _ IH]; cbn; [lia|]. unfold encode_entry at 1. rewrite !length_app. cbn [fst].
  pose proof (value_tokens_length _ (encode_value k Hk)). lia.
Qed.

Lemma deserialize_entries_settles fuel : forall input path a n acc,
  (n <= length input)%nat -> (length input - n < fuel)%nat ->
  dwp (deserialize_entries fuel input path a acc) n (fun _ n' => (n <= n' <= length input)%nat).
Proof.
  induction fuel as [|fuel IH]; intros input path a n acc Hn Hf; [lia|]. cbn [deserialize_entries].
  eapply (dwp_call _ _ _ (fun r n' => match fst r with Some _ => n < n' <= length input | None => n' = n end)%nat).
  { unfold map_next_key. do 2 (case_if; [done|]). apply dwp_gets. destruct (peek_token input n); [|done].
    case_if; [done|]. eapply dwp_call; [by apply deserialize_settles|]. done. }
  intros [[x|] a'] n' Hn'; cbn [fst] in Hn'; [|subst; unfold dwp, ret; lia].
  eapply (dwp_call _ _ _ (fun _ n'' => (n' < n'' <= length input)%nat)).
  { unfold map_next_value. do 2 (case_if; [done|]). eapply dwp_call; [apply deserialize_settles; lia|]. done. }
  intros [v a2] n'' Hn''. destruct (map_insert x (fst (v, a2)) acc) as [[old|] acc']; [done|].
  eapply dwp_conseq; [apply IH; lia|]. cbn. lia.
Qed.

#[export] Instance btree_roundtrip : TokenRoundtrip (BTree K V).
Proof.
  refine {| valid m := sorted_keys (entries m) /\ Forall entry_valid (entries m); encode := encode_btree |}.
  - intros m [_ Hall]. apply vt_map; [done | by apply entries_values | done].
  - intros m path s [_ Hall]. cbn [serialize btree_serialize]. unfold serialize_btree, begin_map.
    unfold bind at 1, bind at 1. rewrite push_token_eq. unfold bind at 1, open_compound, modify, ret at 1. cbn [tokens open_compounds].
    destruct (serialize_entries_encode (entries m) (map_new (path_clone path))
      (MkSink (tokens s ++ [token_container KMapStart (length (entries m))]) (S (open_compounds s))) Hall eq_refl eq_refl)
      as (q & E & Hq & Hp).
    unfold bind at 1. rewrite E. unfold map_end. rewrite Hq, Hp. unfold bind, close_compound. cbn [open_compounds tokens].
    rewrite push_token_eq. cbn [tokens open_compounds]. unfold ret. do 2 f_equal. unfold encode_btree. by rewrite <- !app_assoc.
  - intros m input path n post [Hsort Hall] E. unfold encode_btree in E. cbn [app] in E. rewrite <- app_assoc in E. cbn [app] in E.
    unfold deserialize, btree_deserialize, begin_map_access. unfold bind at 1, bind at 1.
    rewrite (take_at _ _ _ _ _ _ _ E) by done. destruct (drop_cons_inv _ _ _ _ E) as [_ E1]. unfold ret at 1. unfold bind at 1, gets.
    destruct (deserialize_entries_encode (entries m) (S (tokens_left input (S n))) input path
      (MkMapAccess (path_clone (path_clone path)) (path_clone path) false false) (S n) post [] Hall Hsort eq_refl eq_refl E1)
      as (a & E2 & Ha & Hp).
    { apply (f_equal length) in E1. rewrite length_drop, length_app in E1. pose proof (entries_length (entries m) Hall).
      unfold tokens_left. cbn [length] in E1. lia. }
    unfold bind at 1. rewrite E2. apply drop_app_inv in E1. unfold map_access_end. cbn [fst snd]. rewrite Ha, Hp.
    unfold bind, gets. destruct (peek_at _ _ _ _ E1) as [-> _]. rewrite bool_decide_eq_true_2 by done. cbn [negb].
    unfold advance_token, modify, ret. cbn [app]. destruct m as [es]. f_equal. unfold encode_btree. cbn [entries length].
    rewrite length_app. cbn. lia.
  - intros input path n Hn. unfold deserialize, btree_deserialize.
    eapply (dwp_call _ _ _ (fun _ n' => (n < n' <= length input)%nat)); [by apply atom_settles|].
    intros a n1 Hn1. apply dwp_gets. eapply dwp_call; [apply deserialize_entries_settles; unfold tokens_left; lia|].
    cbn beta. intros [a' acc] n2 Hn2. apply dwp_bind. unfold map_access_end. do 2 (case_if; [done|]). apply dwp_gets.
    rewrite peek_token_lookup. destruct (input !! n2) as [t|] eqn:Et; [|done]. apply lookup_lt_Some in Et.
    case_if; [done|]. unfold dwp; cbn. lia.
Defined.
End Map.

(** ** The supported types *)

(** Keys of maps are compared by their value. *)
#[export] Instance signed_ordering t : Ordering (Signed t) := fun a b => Z.compare (signed_value a) (signed_value b).
#[export] Instance unsigned_ordering t : Ordering (Unsigned t) := fun a b => Z.compare (unsigned_value a) (unsigned_value b).

Lemma Z_lt_trans a b c : Z.compare a b = Lt -> Z.compare b c = Lt -> Z.compare a c = Lt.
Proof. rewrite !Z.compare_lt_iff. lia. Qed.

#[export] Instance signed_ordering_laws t : OrderingLaws (Signed t).
Proof.
  split.
  - intros [a] [b]. unfold cmp, signed_ordering. cbn. rewrite Z.compare_eq_iff. split; [by intros ->|by intros [=]].
  - intros [a] [b]. apply Z.compare_antisym.
  - intros [a] [b] [c]. apply Z_lt_trans.
Qed.

#[export] Instance unsigned_ordering_laws t : OrderingLaws (Unsigned t).
Proof.
  split.
  - intros [a] [b]. unfold cmp, unsigned_ordering. cbn. rewrite Z.compare_eq_iff. split; [by intros ->|by intros [=]].
  - intros [a] [b]. apply Z.compare_antisym.
  - intros [a] [b] [c]. apply Z_lt_trans.
Qed.

(** The types that the [Impl]s of the traits build, closed under composition. *)
Inductive key_shape := KeyText | KeySigned (t : int_type) | KeyUnsigned (t : int_type).

Inductive shape :=
| SUnit | SBool | SSigned (t : int_type) | SUnsigned (t : int_type) | SFloat | SText
| SOption (s : shape) | SVec (s : shape) | STagged (s : shape) | SResult (s e : shape) | SMap (k : key_shape) (s : shape).

Definition key_of (k : key_shape) : Type :=
  match k with KeyText => Text8 | KeySigned t => Signed t | KeyUnsigned t => Unsigned t end.

Fixpoint type_of (s : shape) : Type :=
  match s with
  | SUnit => unit
  | SBool => bool
  | SSigned t => Signed t
  | SUnsigned t => Unsigned t
  | SFloat => Float64
  | SText => Text8
  | SOption s => option (type_of s)
  | SVec s => list (type_of s)
  | STagged s => TaggedOption (type_of s)
  | SResult s e => result (type_of s) (type_of e)
  | SMap k s => BTree (key_of k) (type_of s)
  end.

#[export] Instance key_ordering k : Ordering (key_of k) :=
  match k with KeyText => text_ordering | KeySigned t => signed_ordering t | KeyUnsigned t => unsigned_ordering t end.

#[export] Instance key_ordering_laws k : OrderingLaws (key_of k).
Proof. destruct k; cbn; apply _. Qed.

#[export] Instance key_serialize k : Serialize (key_of k) :=
  match k with KeyText => text_serialize | KeySigned t => signed_serialize | KeyUnsigned t => unsigned_serialize end.

#[export] Instance key_deserialize k : Deserialize (key_of k) :=
  match k with KeyText => text_deserialize | KeySigned t => signed_deserialize | KeyUnsigned t => unsigned_deserialize end.

#[export] Instance key_roundtrip k : TokenRoundtrip (key_of k) :=
  match k with KeyText => text_roundtrip | KeySigned t => signed_roundtrip t | KeyUnsigned t => unsigned_roundtrip t end.

(** The instance that the compiler selects for a type. *)
#[export] Instance shape_serialize : forall s, Serialize (type_of s) :=
  fix shape_serialize s :=
    match s with
    | SUnit => unit_serialize
    | SBool => bool_serialize
    | SSigned t => signed_serialize
    | SUnsigned t => unsigned_serialize
    | SFloat => float_serialize
    | SText => text_serialize
    | SOption s => let _ := shape_serialize s in option_serialize
    | SVec s => let _ := shape_serialize s in vec_serialize
    | STagged s => let _ := shape_serialize s in tagged_serialize
    | SResult s e => let _ := shape_serialize s in let _ := shape_serialize e in result_serialize
    | SMap k s => let _ := shape_serialize s in btree_serialize
    end.

#[export] Instance shape_deserialize : forall s, Deserialize (type_of s) :=
  fix shape_deserialize s :=
    match s with
    | SUnit => unit_deserialize
    | SBool => bool_deserialize
    | SSigned t => signed_deserialize
    | SUnsigned t => unsigned_deserialize
    | SFloat => float_deserialize
    | SText => text_deserialize
    | SOption s => let _ := shape_deserialize s in option_deserialize
    | SVec s => let _ := shape_deserialize s in vec_deserialize
    | STagged s => let _ := shape_deserialize s in tagged_deserialize
    | SResult s e => let _ := shape_deserialize s in let _ := shape_deserialize e in result_deserialize
    | SMap k s => let _ := shape_deserialize s in btree_deserialize
    end.

#[export] Instance shape_roundtrip : forall s, TokenRoundtrip (type_of s) :=
  fix shape_roundtrip s :=
    match s with
    | SUnit => unit_roundtrip
    | SBool => bool_roundtrip
    | SSigned t => signed_roundtrip t
    | SUnsigned t => unsigned_roundtrip t
    | SFloat => float_roundtrip
    | SText => text_roundtrip
    | SOption s => let _ := shape_roundtrip s in option_roundtrip
    | SVec s => let _ := shape_roundtrip s in vec_roundtrip
    | STagged s => let _ := shape_roundtrip s in tagged_roundtrip
    | SResult s e => let _ := shape_roundtrip s in let _ := shape_roundtrip e in result_roundtrip
    | SMap k s => let _ := shape_roundtrip s in btree_roundtrip
    end.

(** What the C++ types hold: integers in the range of their type, maps in the
    order of their keys. *)
Definition key_typed (k : key_shape) : key_of k -> Prop :=
  match k with
  | KeyText => fun _ => True
  | KeySigned t => fun v => in_range t (signed_value v) = true
  | KeyUnsigned t => fun v => in_range t (unsigned_value v) = true
  end.

Fixpoint well_typed (s : shape) : type_of s -> Prop :=
  match s with
  | SUnit | SBool | SFloat | SText => fun _ => True
  | SSigned t => fun v => in_range t (signed_value v) = true
  | SUnsigned t => fun v => in_range t (unsigned_value v) = true
  | SOption s => fun o => match o with Some a => well_typed s a | None => True end
  | SVec s => Forall (well_typed s)
  | STagged s => fun o => match tagged o with Some a => well_typed s a | None => True end
  | SResult s e => fun r => match r with Ok a => well_typed s a | Err b => well_typed e b end
  | SMap k s => fun m => sorted_keys (entries m) /\ Forall (fun kv => key_typed k (fst kv) /\ well_typed s (snd kv)) (entries m)
  end.

Lemma well_typed_valid s (a : type_of s) : well_typed s a -> valid a.
Proof.
  induction s as [| | | | | |s IH|s IH|s IH|s IHs e IHe|k s IH]; cbn; try done.
  - destruct a; [apply IH|done].
  - apply Forall_impl. apply IH.
  - destruct (tagged a); [apply IH|done].
  - destruct a; [apply IHs|apply IHe].
  - intros [Hs Ha]. split; [done|]. revert Ha. apply Forall_impl. intros [x y] [Hx Hy]. split; [|by apply IH].
    by destruct k.
Qed.

(** ** Round trips *)

(** C15: Every type of the token format round-trips.  For any type built from
    unit, booleans, signed and unsigned integers of any width, doubles,
    strings, options, vectors, tagged options, results, and maps with strings
    or integers as keys, [to_tokens] succeeds on every value of the type with
    the tokens of one value of the format, all compounds closed, and
    [from_tokens] reads the same value back, consuming every token; and
    [from_tokens] of any tokens at all ends in a value or an error. *)
Theorem tokens_roundtrip s (a : type_of s) :
  well_typed s a ->
  (exists ts, to_tokens a = Ret ts /\ value_tokens ts /\ from_tokens ts = Ret a) /\
  (forall input, ends (from_tokens (A := type_of s) input) (fun _ => True) (fun _ => True)).
Proof.
  intros Ha%well_typed_valid. split.
  - exists (encode a). split_and!.
    + unfold to_tokens. by rewrite (serialize_encode a [] _ Ha).
    + by apply encode_value.
    + unfold from_tokens. rewrite (deserialize_encode a (encode a) [] 0%nat []) by (rewrite ?app_nil_r; done).
      cbn [Nat.add]. by rewrite Nat.eqb_refl.
  - intros input. pose proof (deserialize_settles (A := type_of s) input [] 0 ltac:(lia)) as Hd. unfold dwp in Hd. unfold from_tokens.
    destruct (deserialize input [] 0%nat) as [[]?]; try done. by case_if.
Qed.

(** A map from strings to vectors of results of optional bytes. *)
Lemma tokens_roundtrip_witness :
  let s := SMap KeyText (SVec (SResult (SOption (SUnsigned u8)) SText)) in
  let m : type_of s := MkBTree [(MkText (str "a"), [Ok (Some (MkUnsigned 7)); Err (MkText (str "Ok"))]); (MkText (str "b"), [])] in
  exists ts, to_tokens m = Ret ts /\ value_tokens ts /\ from_tokens ts = Ret m.
Proof.
  intros s m. refine (proj1 (tokens_roundtrip s m _)). split.
  - repeat constructor.
  - repeat constructor.
Defined.
