(* ===== verification/JsonTyped.v ===== *)
(** * serde over JSON: building a value

    Models the serializer of [src/json/src/typed.cppm]: [ValueSerializer] with
    its sequence and map objects, and the entry points [to_value] and
    [encode].

    [Data] lists the calls a [Serialize] implementation makes: one constructor
    per member of the serializer concept.  The containers of
    [src/serde/src/containers.cppm] make the calls of a [DSequence] or a
    [DMap]. *)

From Stdlib Require Import ZArith Lia ZifyBool Ascii.
From stdpp Require Import strings.
From S2P Require Import Prelude Int Utf8 OrdMap Serde Fmt FmtInteger FmtFloat Json JsonEmit.
Local Open Scope Z_scope.
Local Open Scope rstd_scope.

(** ** Data *)

(** The key of a map: of type [String] or [ref<str>], or of another type that
    serializes as a string or as something else. *)
Inductive Key :=
| TextKey (s : list Z)
| OtherKey (s : option (list Z)).

(** The lengths are those announced to [begin_sequence] and [begin_map]. *)
#[warnings="-register-all"] Inductive Data :=
| DNone
| DUnit
| DBool (b : bool)
| DI64 (v : Z)
| DU64 (v : Z)
| DF64 (bits : Z)
| DString (s : list Z)
| DBytes (bs : list Z)
| DSome (d : Data)
| DNewtype (d : Data)
| DUnitVariant (variant : list Z)
| DNewtypeVariant (variant : list Z) (d : Data)
| DSequence (len : nat) (ds : list Data)
| DMap (len : nat) (es : list (Key * Data))
| DExtension.

(** Induction through the nested lists. *)
Section DataInd.
Context (P : Data -> Prop).
Context (HNone : P DNone) (HUnit : P DUnit) (HBool : forall b, P (DBool b)) (HI64 : forall v, P (DI64 v)) (HU64 : forall v, P (DU64 v))
  (HF64 : forall bits, P (DF64 bits)) (HString : forall s, P (DString s)) (HBytes : forall bs, P (DBytes bs))
  (HSome : forall d, P d -> P (DSome d)) (HNewtype : forall d, P d -> P (DNewtype d)) (HUnitVariant : forall s, P (DUnitVariant s))
  (HNewtypeVariant : forall s d, P d -> P (DNewtypeVariant s d)) (HSequence : forall n ds, Forall P ds -> P (DSequence n ds))
  (HMap : forall n es, Forall (fun e => P (snd e)) es -> P (DMap n es)) (HExtension : P DExtension).

Fixpoint Data_ind' (d : Data) : P d :=
  match d with
  | DNone => HNone
  | DUnit => HUnit
  | DBool b => HBool b
  | DI64 v => HI64 v
  | DU64 v => HU64 v
  | DF64 bits => HF64 bits
  | DString s => HString s
  | DBytes bs => HBytes bs
  | DSome d => HSome d (Data_ind' d)
  | DNewtype d => HNewtype d (Data_ind' d)
  | DUnitVariant s => HUnitVariant s
  | DNewtypeVariant s d => HNewtypeVariant s d (Data_ind' d)
  | DSequence n ds =>
    HSequence n ds ((fix go ds : Forall P ds :=
      match ds with
      | [] => List.Forall_nil _
      | d :: ds => @List.Forall_cons _ P d ds (Data_ind' d) (go ds)
      end) ds)
  | DMap n es =>
    HMap n es ((fix go es : Forall (fun e => P (snd e)) es :=
      match es with
      | [] => List.Forall_nil _
      | e :: es => @List.Forall_cons _ (fun e => P (snd e)) e es (Data_ind' (snd e)) (go es)
      end) es)
  | DExtension => HExtension
  end.
End DataInd.

(** The calls of [Impl<serde::Serialize, json::Value>]. *)
Definition of_number (n : Number) : Data :=
  match n with NUnsigned v => DU64 v | NFloat bits => DF64 bits | NSigned v => DI64 v end.

Fixpoint of_value (v : Value) : Data :=
  match v with
  | VNull => DUnit
  | VBool b => DBool b
  | VString s => DString s
  | VNumber n => of_number n
  | VArray vs => DSequence (length vs) (map of_value vs)
  | VObject m => DMap (length m) (map (fun e => (TextKey (fst e), of_value (snd e))) m)
  end.

(** ** Building a value *)

Definition result := outcome SerdeError Value.

Definition serialize_none : result := Ret VNull.
Definition serialize_unit : result := Ret VNull.
Definition serialize_bool (value : bool) : result := Ret (VBool value).
Definition serialize_i64 (value : Z) : result := Ret (VNumber (from_i64 value)).
Definition serialize_u64 (value : Z) : result := Ret (VNumber (from_u64 value)).
Definition serialize_f64 (path : DataPath) (value : Z) : result :=
  match from_f64 value with
  | None => Fail (invalid_value (path_clone path) (str "JSON numbers must be finite"))
  | Some number => Ret (VNumber number)
  end.
Definition serialize_string (value : list Z) : result := Ret (VString value).
Definition serialize_bytes (value : list Z) : result := Ret (VArray (map (fun byte => VNumber (from_u64 byte)) value)).
Definition serialize_unit_variant (variant : list Z) : result := Ret (VString variant).

Definition serialize_newtype_variant (path : DataPath) (variant : list Z) (value : DataPath -> result) : result :=
  let! encoded := value (with_variant path variant) in
  Ret (VObject (snd (map_insert variant encoded []))).

Definition serialize_extension (path : DataPath) : result :=
  Fail (unsupported (path_clone path) (str "JSON does not support this extension")).

(** *** Sequences *)

Record Sequence := MkSequence { values_ : list Value; path_ : DataPath; ended_ : bool }.

Definition QM := M Sequence SerdeError.

Definition lift {S A} (m : outcome SerdeError A) : M S SerdeError A := fun s => (m, s).

Definition begin_sequence (path : DataPath) : Sequence := MkSequence [] (path_clone path) false.

Definition element (value : DataPath -> result) : QM unit :=
  let* q := gets (fun q => q) in
  if ended_ q then throw (invariant_error (path_clone (path_ q)) (str "sequence already ended"))
  else
    let* encoded := lift (value (with_index (path_ q) (length (values_ q)))) in
    modify (fun q => MkSequence (values_ q ++ [encoded]) (path_ q) (ended_ q)).

Definition sequence_end : QM Value :=
  let* q := gets (fun q => q) in
  if ended_ q then throw (invariant_error (path_clone (path_ q)) (str "sequence already ended"))
  else
    do* modify (fun q => MkSequence [] (path_ q) true) ;;
    ret (VArray (values_ q)).

(** *** Maps *)

Record MapObject := MkMapObject
  { entries_ : omap (list Z) Value; map_path_ : DataPath; value_path_ : DataPath;
    pending_key_ : option (list Z); map_ended_ : bool }.

Definition OM := M MapObject SerdeError.

Definition begin_map (path : DataPath) : MapObject := MkMapObject [] (path_clone (path_clone path)) (path_clone path) None false.

(** What [ValueKeySerializer] makes of a key. *)
Definition key_text (path : DataPath) (k : Key) : outcome SerdeError (list Z) :=
  match k with
  | TextKey s | OtherKey (Some s) => Ret s
  | OtherKey None => Fail (unsupported (path_clone path) (str "JSON object keys must serialize as strings"))
  end.

Definition key (k : Key) : OM unit :=
  let* q := gets (fun q => q) in
  if map_ended_ q then throw (invariant_error (path_clone (map_path_ q)) (str "map already ended"))
  else if match pending_key_ q with Some _ => true | None => false end
  then throw (invariant_error (path_clone (map_path_ q)) (str "map value is missing"))
  else
    let* key_value := lift (key_text (path_clone (map_path_ q)) k) in
    modify (fun q => MkMapObject (entries_ q) (map_path_ q) (with_map_key (map_path_ q) key_value) (Some key_value) (map_ended_ q)).

Definition value (v : DataPath -> result) : OM unit :=
  let* q := gets (fun q => q) in
  if map_ended_ q then throw (invariant_error (path_clone (map_path_ q)) (str "map already ended"))
  else
    match pending_key_ q with
    | None => throw (invariant_error (path_clone (map_path_ q)) (str "map key is missing"))
    | Some key =>
      let* encoded := lift (v (path_clone (value_path_ q))) in
      let '(old, entries) := map_insert key encoded (entries_ q) in
      do* modify (fun q => MkMapObject entries (map_path_ q) (value_path_ q) None (map_ended_ q)) ;;
      match old with
      | Some _ => throw (duplicate_field (path_clone (map_path_ q)) key)
      | None => ret tt
      end
    end.

Definition map_end : OM Value :=
  let* q := gets (fun q => q) in
  if map_ended_ q then throw (invariant_error (path_clone (map_path_ q)) (str "map already ended"))
  else
    match pending_key_ q with
    | Some _ => throw (invariant_error (path_clone (map_path_ q)) (str "map value is missing"))
    | None =>
      do* modify (fun q => MkMapObject [] (map_path_ q) (value_path_ q) None true) ;;
      ret (VObject (entries_ q))
    end.

(** A local object is dropped when the call that made it returns. *)
Definition run {S A} (s : S) (m : M S SerdeError A) : outcome SerdeError A := fst (m s).

Fixpoint elements (values : list (DataPath -> result)) : QM unit :=
  match values with
  | [] => ret tt
  | v :: values => do* element v ;; elements values
  end.

Fixpoint entries (es : list (Key * (DataPath -> result))) : OM unit :=
  match es with
  | [] => ret tt
  | (k, v) :: es => do* key k ;; do* value v ;; entries es
  end.

Fixpoint serialize (d : Data) (path : DataPath) {struct d} : result :=
  match d with
  | DNone => serialize_none
  | DUnit => serialize_unit
  | DBool b => serialize_bool b
  | DI64 v => serialize_i64 v
  | DU64 v => serialize_u64 v
  | DF64 bits => serialize_f64 path bits
  | DString s => serialize_string s
  | DBytes bs => serialize_bytes bs
  | DSome d => serialize d path
  | DNewtype d => serialize d path
  | DUnitVariant variant => serialize_unit_variant variant
  | DNewtypeVariant variant d => serialize_newtype_variant path variant (serialize d)
  | DSequence _ ds => run (begin_sequence path) (do* elements (map serialize ds) ;; sequence_end)
  | DMap _ es => run (begin_map path) (do* entries (map (fun e => (fst e, serialize (snd e))) es) ;; map_end)
  | DExtension => serialize_extension path
  end.

Definition to_value (d : Data) : outcome SerdeError Value := serialize d [].

(** [encode]: the value is built first; the panic is that of [to_string]. *)
Definition encode (check : bool) (d : Data) (options : FormatOptions) : outcome SerdeError (list Z) :=
  let! encoded := to_value d in
  match to_string check encoded options with Some text => Ret text | None => Panic end.
