(* ===== verification/JsonDirect.v ===== *)
(** * serde over JSON: writing while driven

    Models the serializers of [src/json/src/serialize.cppm]: [DirectSerializer]
    with its sequence and map objects, which write through the emitter while
    they are driven, and [encode_direct]. *)

From Stdlib Require Import ZArith Lia ZifyBool Ascii.
From stdpp Require Import strings.
From S2P Require Import Prelude Int Utf8 OrdMap Serde Fmt FmtInteger FmtFloat Json JsonEmit JsonTyped.
Local Open Scope Z_scope.
Local Open Scope rstd_scope.

Section Direct.
Context {W : Type} `{Write W} (check : bool) (options_ : FormatOptions).

Definition DM := M (Formatter W) SerdeError.

Definition output_error : SerdeError := invariant_error [] (str "failed to write JSON output").

(** [written(success)], and the [Err] of a failed write. *)
Definition written (m : FmtM W) : DM unit := fun f =>
  match m f with
  | (Ret _, f) => (Ret tt, f)
  | (Fail _, f) => (Fail output_error, f)
  | (Panic, f) => (Panic, f)
  | (OutOfFuel, f) => (OutOfFuel, f)
  end.

(** [depth_ + usize(1)] *)
Definition child_depth (depth : Z) : DM Z := of_option (op_add check usize depth 1).

(** A line feed and the indentation of [depth]. *)
Definition write_line (depth : Z) : FmtM W :=
  when_pretty options_ (do* write_byte 10 ;; write_indent check options_ depth).

(** The same one level deeper. *)
Definition write_inner_line (feed : bool) (depth : Z) : FmtM W :=
  when_pretty options_
    (do* (if feed then write_byte 10 else ret tt) ;;
     let* d := deeper check depth in write_indent check options_ d).

Definition serialize_none : DM unit := written (write (lit "null")).
Definition serialize_unit : DM unit := serialize_none.
Definition serialize_bool (value : bool) : DM unit := written (write (if value then lit "true" else lit "false")).
Definition serialize_i64 (value : Z) : DM unit := written (write_integer i64 value).
Definition serialize_u64 (value : Z) : DM unit := written (write_integer u64 value).
Definition serialize_f64 (value : Z) : DM unit := written (write_float value).
Definition serialize_string (value : list Z) : DM unit := written (write_string value).
Definition serialize_unit_variant (variant : list Z) : DM unit := serialize_string variant.

Definition serialize_newtype_variant (variant : list Z) (value : Z -> DM unit) (depth : Z) : DM unit :=
  do* written
        (do* write_byte 123 ;;
         do* write_inner_line true depth ;;
         do* write_string variant ;;
         write_colon options_) ;;
  let* child := child_depth depth in
  do* value child ;;
  do* written (write_line depth) ;;
  written (write_byte 125).

Definition serialize_extension : DM unit := throw (unsupported [] (str "JSON does not support this extension")).

(** *** Sequences *)

Record Sequence := MkSequence { depth_ : Z; expected_ : nat; written_ : nat; ended_ : bool }.

(** What an object does with its own fields and the formatter. *)
Definition OM (Q : Type) := M (Q * Formatter W) SerdeError.

Definition on_formatter {Q A} (m : DM A) : OM Q A := fun '(q, f) => let '(r, f) := m f in (r, (q, f)).
Definition set_object {Q} (q : Q) : OM Q unit := modify (fun s => (q, snd s)).
Definition with_object {Q A} (q : Q) (m : OM Q A) : DM A := fun f => let '(r, (_, f)) := m (q, f) in (r, f).

(** [!options_.pretty || len == 0 || write_byte('\n')] *)
Definition begin_sequence (len : nat) (depth : Z) : DM Sequence :=
  do* written (do* write_byte 91 ;; when_pretty options_ (if (len =? 0)%nat then ret tt else write_byte 10)) ;;
  ret (MkSequence depth len 0 false).

Definition element (value : Z -> DM unit) : OM Sequence unit :=
  let* q := gets fst in
  if ended_ q then throw (invariant_error [] (str "sequence already ended"))
  else
    let later := negb (written_ q =? 0)%nat in
    do* on_formatter (written (if later then write_byte 44 else ret tt)) ;;
    do* on_formatter (written (write_inner_line later (depth_ q))) ;;
    let* d := on_formatter (child_depth (depth_ q)) in
    do* on_formatter (value d) ;;
    set_object (MkSequence (depth_ q) (expected_ q) (S (written_ q)) (ended_ q)).

Definition sequence_end : OM Sequence unit :=
  let* q := gets fst in
  if ended_ q then throw (invariant_error [] (str "sequence already ended"))
  else if negb (written_ q =? expected_ q)%nat then throw (invariant_error [] (str "sequence length does not match"))
  else
    do* set_object (MkSequence (depth_ q) (expected_ q) (written_ q) true) ;;
    do* on_formatter (written (if negb (written_ q =? 0)%nat then write_line (depth_ q) else ret tt)) ;;
    on_formatter (written (write_byte 93)).

(** *** Maps *)

Record MapObject := MkMapObject { map_depth_ : Z; map_expected_ : nat; map_written_ : nat; pending_ : bool; map_ended_ : bool }.

Definition begin_map (len : nat) (depth : Z) : DM MapObject :=
  do* written (do* write_byte 123 ;; when_pretty options_ (if (len =? 0)%nat then ret tt else write_byte 10)) ;;
  ret (MkMapObject depth len 0 false false).

Definition key (k : Key) : OM MapObject unit :=
  let* q := gets fst in
  if map_ended_ q then throw (invariant_error [] (str "map already ended"))
  else if pending_ q then throw (invariant_error [] (str "map value is missing"))
  else
    let later := negb (map_written_ q =? 0)%nat in
    do* on_formatter (written (if later then write_byte 44 else ret tt)) ;;
    do* on_formatter (written (write_inner_line later (map_depth_ q))) ;;
    match k with
    | TextKey s =>
      do* on_formatter (written (do* write_string s ;; write_colon options_)) ;;
      set_object (MkMapObject (map_depth_ q) (map_expected_ q) (map_written_ q) true (map_ended_ q))
    | OtherKey _ => throw (unsupported [] (str "JSON object key must be a string"))
    end.

Definition value (v : Z -> DM unit) : OM MapObject unit :=
  let* q := gets fst in
  if map_ended_ q then throw (invariant_error [] (str "map already ended"))
  else if negb (pending_ q) then throw (invariant_error [] (str "map key is missing"))
  else
    let* d := on_formatter (child_depth (map_depth_ q)) in
    do* on_formatter (v d) ;;
    set_object (MkMapObject (map_depth_ q) (map_expected_ q) (S (map_written_ q)) false (map_ended_ q)).

Definition map_end : OM MapObject unit :=
  let* q := gets fst in
  if map_ended_ q then throw (invariant_error [] (str "map already ended"))
  else if pending_ q then throw (invariant_error [] (str "map value is missing"))
  else if negb (map_written_ q =? map_expected_ q)%nat then throw (invariant_error [] (str "map length does not match"))
  else
    do* set_object (MkMapObject (map_depth_ q) (map_expected_ q) (map_written_ q) (pending_ q) true) ;;
    do* on_formatter (written (if negb (map_written_ q =? 0)%nat then write_line (map_depth_ q) else ret tt)) ;;
    on_formatter (written (write_byte 125)).

Fixpoint elements (values : list (Z -> DM unit)) : OM Sequence unit :=
  match values with
  | [] => ret tt
  | v :: values => do* element v ;; elements values
  end.

Fixpoint entries (es : list (Key * (Z -> DM unit))) : OM MapObject unit :=
  match es with
  | [] => ret tt
  | (k, v) :: es => do* key k ;; do* value v ;; entries es
  end.

Definition serialize_bytes (bytes : list Z) (depth : Z) : DM unit :=
  let* q := begin_sequence (length bytes) depth in
  with_object q (do* elements (map (fun byte _ => serialize_u64 byte) bytes) ;; sequence_end).

Fixpoint serialize (d : Data) (depth : Z) {struct d} : DM unit :=
  match d with
  | DNone => serialize_none
  | DUnit => serialize_unit
  | DBool b => serialize_bool b
  | DI64 v => serialize_i64 v
  | DU64 v => serialize_u64 v
  | DF64 bits => serialize_f64 bits
  | DString s => serialize_string s
  | DBytes bs => serialize_bytes bs depth
  | DSome d => serialize d depth
  | DNewtype d => serialize d depth
  | DUnitVariant variant => serialize_unit_variant variant
  | DNewtypeVariant variant d => serialize_newtype_variant variant (serialize d) depth
  | DSequence len ds =>
    let* q := begin_sequence len depth in
    with_object q (do* elements (map serialize ds) ;; sequence_end)
  | DMap len es =>
    let* q := begin_map len depth in
    with_object q (do* entries (map (fun e => (fst e, serialize (snd e))) es) ;; map_end)
  | DExtension => serialize_extension
  end.
End Direct.

(** [encode_into] a new string. *)
Definition encode_direct (check : bool) (d : Data) (options : FormatOptions) : outcome SerdeError (list Z) :=
  match serialize check options d 0 (mkFormatter ([] : String) Fmt.default_options) with
  | (Ret _, formatter) => Ret (writer formatter)
  | (Fail e, _) => Fail e
  | (Panic, _) => Panic
  | (OutOfFuel, _) => OutOfFuel
  end.
