(* ===== verification/JsonTypedSpec.v ===== *)
(** * What serde over JSON promises

    Writing directly writes, on every sink, what the emitter writes for the
    value of the calls, its entries in the order of the calls; its text and
    that of the value the calls build read back as one value; and building the
    value of a JSON value gives it back.  Computations are compared up to the equality of their results on
    every state. *)

From Stdlib Require Import ZArith Lia ZifyBool Ascii Morphisms Setoid Sorting.Sorted.
From stdpp Require Import strings.
From S2P Require Import Prelude Int Utf8 OrdMap FloatSpec Serde Dec2Flt Fmt FmtInteger FmtSpec FmtFloat Json.
From S2P Require Import JsonReader JsonParser JsonGrammar JsonCorrect JsonEmit JsonRoundtrip JsonTyped.
From S2P Require Import JsonDirect.
Local Open Scope Z_scope.
Local Open Scope rstd_scope.

(** ** Equal computations *)

Definition meq {S E A} (m k : M S E A) : Prop := forall s, m s = k s.

Infix "≈" := meq (at level 70, no associativity) : rstd_scope.

#[export] Instance meq_equivalence S E A : Equivalence (@meq S E A).
Proof. split; [by intros m s|by intros m k H s|by intros a b c H1 H2 s; rewrite H1]. Qed.

#[export] Instance bind_proper S E A B : Proper (meq ==> pointwise_relation A meq ==> meq) (@bind S E A B).
Proof. intros m m' Hm k k' Hk s. unfold bind. rewrite Hm. destruct (m' s) as [[] ?]; try done. apply Hk. Qed.

Lemma bind_assoc {S E A B C} (m : M S E A) (k : A -> M S E B) (l : B -> M S E C) :
  bind (bind m k) l ≈ bind m (fun x => bind (k x) l).
Proof. intros s. unfold bind. by destruct (m s) as [[] ?]. Qed.

Lemma bind_ret {S E A B} (a : A) (k : A -> M S E B) : bind (ret a) k ≈ k a.
Proof. done. Qed.

Section Direct.
Context {W : Type} `{Write W} (check : bool) (format : FormatOptions).

#[local] Instance written_proper : Proper (meq ==> meq) (written (W := W)).
Proof. intros m m' Hm f. unfold written. by rewrite Hm. Qed.

Lemma written_seq (m k : FmtM W) : written (do* m;; k) ≈ (do* written m;; written k).
Proof. intros f. unfold written, bind. by destruct (m f) as [[[]| | |] ?]. Qed.

Lemma written_ret : written (ret tt) ≈ (ret tt : DM (W := W) unit).
Proof. done. Qed.

Lemma written_deeper depth (k : Z -> FmtM W) :
  written (let* d := deeper check depth in k d) ≈ (let* d := child_depth check depth in written (k d)).
Proof. intros f. unfold deeper, child_depth. by destruct (op_add check usize depth 1). Qed.

Lemma written_if (b : bool) (m k : FmtM W) : written (if b then m else k) = if b then written m else written k.
Proof. by destruct b. Qed.

(** Goes under the first step of two equal sequences. *)
Ltac under := apply bind_proper; [reflexivity|intros ?].

(** ** The objects *)

Lemma object_formatter {Q A} (q : Q) (m : DM (W := W) A) (k : A -> OM (W := W) Q unit) :
  with_object q (bind (on_formatter m) k) ≈ (let* x := m in with_object (W := W) q (k x)).
Proof. intros f. unfold with_object, bind, on_formatter. by destruct (m f) as [[] ?]. Qed.

Lemma object_last {Q} (q : Q) (m : DM (W := W) unit) : with_object q (on_formatter m) ≈ m.
Proof. intros f. unfold with_object, on_formatter. by destruct (m f). Qed.

Lemma object_set {Q} (q q' : Q) (k : OM (W := W) Q unit) : with_object q (do* set_object q';; k) ≈ with_object q' k.
Proof. done. Qed.

#[local] Instance with_object_proper Q A : Proper (eq ==> meq ==> meq) (@with_object W Q A).
Proof. intros q q' <- m m' Hm f. unfold with_object. by rewrite Hm. Qed.

Lemma element_step q v (k : OM (W := W) Sequence unit) : ended_ q = false ->
  with_object q (do* element check format v;; k) ≈
  (do* written (if negb (written_ q =? 0)%nat then write_byte 44 else ret tt);;
   do* written (write_inner_line check format (negb (written_ q =? 0)%nat) (depth_ q));;
   let* d := child_depth check (depth_ q) in
   do* v d;;
   with_object (MkSequence (depth_ q) (expected_ q) (S (written_ q)) false) k).
Proof.
  intros He. transitivity (with_object q (bind (do* on_formatter (written (if negb (written_ q =? 0)%nat then write_byte 44 else ret tt)) ;;
    do* on_formatter (written (write_inner_line check format (negb (written_ q =? 0)%nat) (depth_ q))) ;;
    let* d := on_formatter (child_depth check (depth_ q)) in
    do* on_formatter (v d) ;;
    set_object (MkSequence (depth_ q) (expected_ q) (S (written_ q)) false)) (fun _ => k))).
  { intros f. unfold element, with_object, bind at 1 2, gets. cbn [fst]. rewrite He. done. }
  rewrite bind_assoc, object_formatter. under.
  rewrite bind_assoc, object_formatter. under.
  rewrite bind_assoc, object_formatter. under.
  rewrite bind_assoc, object_formatter. under.
  apply object_set.
Qed.

Lemma sequence_end_step q : ended_ q = false -> written_ q = expected_ q ->
  with_object q (sequence_end check format) ≈
  (do* written (if negb (written_ q =? 0)%nat then write_line check format (depth_ q) else ret tt);; written (write_byte 93)).
Proof.
  intros He Hn. transitivity (with_object q (do* set_object (MkSequence (depth_ q) (expected_ q) (written_ q) true) ;;
    do* on_formatter (written (if negb (written_ q =? 0)%nat then write_line check format (depth_ q) else ret tt)) ;;
    on_formatter (written (write_byte 93)))).
  { intros f. unfold sequence_end, with_object, bind at 1, gets. cbn [fst]. rewrite He, Hn, Nat.eqb_refl. done. }
  rewrite object_set, object_formatter. under. apply object_last.
Qed.

Definition after_key (q : MapObject) : MapObject := MkMapObject (map_depth_ q) (map_expected_ q) (map_written_ q) true false.
Definition after_value (q : MapObject) : MapObject := MkMapObject (map_depth_ q) (map_expected_ q) (S (map_written_ q)) false false.

Lemma key_step q s (k : OM (W := W) MapObject unit) : map_ended_ q = false -> pending_ q = false ->
  with_object q (do* key check format (TextKey s);; k) ≈
  (do* written (if negb (map_written_ q =? 0)%nat then write_byte 44 else ret tt);;
   do* written (write_inner_line check format (negb (map_written_ q =? 0)%nat) (map_depth_ q));;
   do* written (do* write_string s ;; write_colon format);;
   with_object (after_key q) k).
Proof.
  intros He Hp. transitivity (with_object q (bind (do* on_formatter (written (if negb (map_written_ q =? 0)%nat then write_byte 44 else ret tt)) ;;
    do* on_formatter (written (write_inner_line check format (negb (map_written_ q =? 0)%nat) (map_depth_ q))) ;;
    do* on_formatter (written (do* write_string s ;; write_colon format)) ;;
    set_object (after_key q)) (fun _ => k))).
  { intros f. unfold key, with_object, bind at 1 2, gets, after_key. cbn [fst]. rewrite He, Hp. done. }
  rewrite bind_assoc, object_formatter. under.
  rewrite bind_assoc, object_formatter. under.
  rewrite bind_assoc, object_formatter. under.
  apply object_set.
Qed.

Lemma value_step q v (k : OM (W := W) MapObject unit) : map_ended_ q = false -> pending_ q = true ->
  with_object q (do* value check v;; k) ≈
  (let* d := child_depth check (map_depth_ q) in do* v d;; with_object (after_value q) k).
Proof.
  intros He Hp. transitivity (with_object q (bind (let* d := on_formatter (child_depth check (map_depth_ q)) in
    do* on_formatter (v d) ;; set_object (after_value q)) (fun _ => k))).
  { intros f. unfold value, with_object, bind at 1 2, gets, after_value. cbn [fst]. rewrite He, Hp. done. }
  rewrite bind_assoc, object_formatter. under.
  rewrite bind_assoc, object_formatter. under.
  apply object_set.
Qed.

Lemma map_end_step q : map_ended_ q = false -> pending_ q = false -> map_written_ q = map_expected_ q ->
  with_object q (map_end check format) ≈
  (do* written (if negb (map_written_ q =? 0)%nat then write_line check format (map_depth_ q) else ret tt);; written (write_byte 125)).
Proof.
  intros He Hp Hn. transitivity (with_object q (do* set_object (MkMapObject (map_depth_ q) (map_expected_ q) (map_written_ q) (pending_ q) true) ;;
    do* on_formatter (written (if negb (map_written_ q =? 0)%nat then write_line check format (map_depth_ q) else ret tt)) ;;
    on_formatter (written (write_byte 125)))).
  { intros f. unfold map_end, with_object, bind at 1, gets. cbn [fst]. rewrite He, Hp, Hn, Nat.eqb_refl. done. }
  rewrite object_set, object_formatter. under. apply object_last.
Qed.

(** ** Layouts *)

(** [v] writes what the emitter writes for [w]. *)
Definition writes (v : Z -> DM (W := W) unit) (w : Value) : Prop :=
  forall depth, v depth ≈ written (write_value check format w depth).

(** What follows an item in the emitter's loops: a comma unless it was the
    last, a line feed, the other items and the closing bracket. *)
Definition rest_of (loop : FmtM W) (depth : Z) (last : bool) (close : Z) : FmtM W :=
  do* (if negb last then write_byte 44 else ret tt);;
  do* when_pretty format (write_byte 10);;
  do* loop;;
  do* when_pretty format (write_indent check format depth);;
  write_byte close.

Lemma inner_line_first depth :
  write_inner_line (W := W) check format false depth ≈ when_pretty format (let* d := deeper check depth in write_indent check format d).
Proof. unfold write_inner_line, when_pretty. by destruct (pretty format). Qed.

Lemma inner_line_later depth :
  write_inner_line (W := W) check format true depth ≈
  (do* when_pretty format (write_byte 10);; when_pretty format (let* d := deeper check depth in write_indent check format d)).
Proof. unfold write_inner_line, when_pretty. by destruct (pretty format). Qed.

Lemma write_line_split depth :
  write_line (W := W) check format depth ≈ (do* when_pretty format (write_byte 10);; when_pretty format (write_indent check format depth)).
Proof. unfold write_line, when_pretty. by destruct (pretty format). Qed.

Lemma rest_of_end depth close :
  (do* written (write_line check format depth);; written (write_byte close)) ≈ written (rest_of (ret tt) depth true close).
Proof.
  change (rest_of (ret tt) depth true close) with
    (do* when_pretty format (write_byte 10);; do* when_pretty format (write_indent check format depth);; write_byte (W := W) close).
  rewrite write_line_split, !written_seq, bind_assoc. under. by rewrite written_seq.
Qed.

Lemma rest_of_more depth close (first loop : FmtM W) :
  written (rest_of (do* first;; loop) depth false close) ≈
  (do* written (write_byte 44);; do* written (when_pretty format (write_byte 10));; do* written first;;
   written (do* loop;; do* when_pretty format (write_indent check format depth);; write_byte close)).
Proof.
  unfold rest_of. cbn [negb]. rewrite written_seq. under. rewrite written_seq. under. rewrite <- written_seq.
  intros f. unfold written. by rewrite bind_assoc.
Qed.

Lemma elements_loop values ws depth total : Forall2 writes values ws -> forall i, (S i + length ws = total)%nat ->
  with_object (MkSequence depth total (S i) false) (do* elements check format values;; sequence_end check format) ≈
  written (rest_of (array_loop check format depth total (S i) ws) depth (S i =? total)%nat 93).
Proof.
  induction 1 as [|v w values ws Hv Hvs IH]; intros i Hi; cbn [length] in Hi.
  - replace (S i =? total)%nat with true by (symmetry; apply Nat.eqb_eq; lia). cbn [elements array_loop].
    rewrite bind_ret, sequence_end_step by (cbn; (done || lia)). cbn [written_ depth_ Nat.eqb negb]. apply rest_of_end.
  - replace (S i =? total)%nat with false by (symmetry; apply Nat.eqb_neq; lia). cbn [elements array_loop].
    rewrite bind_assoc, element_step by done. cbn [written_ depth_ expected_]. change (S i =? 0)%nat with false. cbn [negb].
    rewrite rest_of_more. under. rewrite inner_line_later, written_seq, bind_assoc. under. under.
    specialize (IH (S i) ltac:(lia)). rewrite bind_assoc.
    rewrite written_deeper. under. rewrite (Hv _), bind_assoc, written_seq. under. rewrite IH.
    apply written_proper. unfold rest_of. rewrite !bind_assoc. under. by rewrite bind_assoc.
Qed.

(** The key and the colon, on both sides. *)
Ltac key_text s :=
  rewrite (written_seq (write_string s)), (bind_assoc (written (write_string s))), (bind_assoc (write_string s)), (written_seq (write_string s));
  under; rewrite (bind_assoc (write_colon _)), (written_seq (write_colon _)); under.

Lemma entries_loop es m depth total : Forall2 (fun e x => fst e = TextKey (fst x) /\ writes (snd e) (snd x)) es m ->
  forall i, (S i + length m = total)%nat ->
  with_object (MkMapObject depth total (S i) false false) (do* entries check format es;; map_end check format) ≈
  written (rest_of (object_loop check format depth total (S i) m) depth (S i =? total)%nat 125).
Proof.
  induction 1 as [|[k v] [s w] es m [Hk Hv] Hes IH]; intros i Hi; cbn [length fst snd] in *.
  - replace (S i =? total)%nat with true by (symmetry; apply Nat.eqb_eq; lia). cbn [entries object_loop].
    rewrite bind_ret, map_end_step by (cbn; (done || lia)). cbn [map_written_ map_depth_]. apply rest_of_end.
  - subst k. replace (S i =? total)%nat with false by (symmetry; apply Nat.eqb_neq; lia). cbn [entries object_loop].
    rewrite bind_assoc, key_step by done. cbn [map_written_ map_depth_ map_expected_]. change (S i =? 0)%nat with false. cbn [negb].
    rewrite rest_of_more. under. rewrite inner_line_later, written_seq, bind_assoc. under. under.
    key_text s.
    rewrite bind_assoc, value_step by done. unfold after_value, after_key. cbn [map_depth_ map_expected_ map_written_].
    specialize (IH (S i) ltac:(lia)). rewrite bind_assoc.
    rewrite written_deeper. under. rewrite (Hv _), bind_assoc, written_seq. under. rewrite IH.
    apply written_proper. unfold rest_of. rewrite !bind_assoc. under. by rewrite bind_assoc.
Qed.

(** ** The containers *)

Lemma written_written_seq (m k : FmtM W) (l : DM unit) : (do* written (do* m;; k);; l) ≈ (do* written m;; do* written k;; l).
Proof. by rewrite written_seq, bind_assoc. Qed.

Lemma sequence_writes values ws depth : Forall2 writes values ws ->
  (let* q := begin_sequence format (length ws) depth in
   with_object q (do* elements check format values;; sequence_end check format)) ≈
  written (write_value check format (VArray ws) depth).
Proof.
  intros Hvs. unfold begin_sequence. rewrite bind_assoc, written_written_seq, write_value_array, written_seq. under.
  destruct Hvs as [|v w values ws Hv Hvs]; cbn [length Nat.eqb].
  - transitivity (with_object (MkSequence depth 0 0 false) (sequence_end check format)); [|by rewrite sequence_end_step].
    intros f. unfold when_pretty. by destruct (pretty format).
  - rewrite written_seq. under. rewrite bind_ret. cbn [elements array_loop].
    rewrite bind_assoc, element_step by done. cbn [written_ depth_ expected_]. change (0 =? 0)%nat with true. cbn [negb].
    rewrite written_ret, bind_ret. rewrite inner_line_first, bind_assoc, written_seq. under.
    rewrite bind_assoc, written_deeper. under. rewrite (Hv _), bind_assoc, written_seq. under.
    rewrite (elements_loop values ws depth (S (length ws)) Hvs 0) by done.
    apply written_proper. unfold rest_of. rewrite !bind_assoc. under. by rewrite bind_assoc.
Qed.

Lemma map_writes es m depth : Forall2 (fun e x => fst e = TextKey (fst x) /\ writes (snd e) (snd x)) es m ->
  (let* q := begin_map format (length m) depth in
   with_object q (do* entries check format es;; map_end check format)) ≈
  written (write_value check format (VObject m) depth).
Proof.
  intros Hes. unfold begin_map. rewrite bind_assoc, written_written_seq, write_value_object, written_seq. under.
  destruct Hes as [|[k v] [s w] es m [Hk Hv] Hes]; cbn [length fst snd] in *.
  - transitivity (with_object (MkMapObject depth 0 0 false false) (map_end check format)); [|by rewrite map_end_step].
    intros f. unfold when_pretty. by destruct (pretty format).
  - subst k. change (S (length m) =? 0)%nat with false. rewrite written_seq. under. rewrite bind_ret. cbn [entries object_loop].
    rewrite bind_assoc, key_step by done. cbn [map_written_ map_depth_ map_expected_]. change (0 =? 0)%nat with true. cbn [negb].
    rewrite written_ret, bind_ret. rewrite inner_line_first, (bind_assoc (when_pretty format _)), (written_seq (when_pretty format _)). under.
    key_text s.
    rewrite bind_assoc, value_step by done. unfold after_value, after_key. cbn [map_depth_ map_expected_ map_written_].
    rewrite bind_assoc, written_deeper. under. rewrite (Hv _), bind_assoc, written_seq. under.
    rewrite (entries_loop es m depth (S (length m)) Hes 0) by done.
    apply written_proper. unfold rest_of. rewrite !bind_assoc. under. by rewrite bind_assoc.
Qed.

Lemma newtype_variant_writes s v w depth : writes v w ->
  serialize_newtype_variant check format s v depth ≈ written (write_value check format (VObject [(s, w)]) depth).
Proof.
  intros Hv. unfold serialize_newtype_variant. rewrite write_value_object. cbn [length object_loop].
  change (1 =? 0)%nat with false. change (1 =? 1)%nat with true. cbn [negb].
  rewrite written_written_seq, (written_seq (write_byte 123)). under.
  rewrite written_written_seq, inner_line_later, (written_written_seq (when_pretty format _)), (written_seq (when_pretty format _)). under.
  rewrite (bind_assoc (when_pretty format _)), (written_seq (when_pretty format _)). under.
  rewrite written_written_seq, (bind_assoc (write_string s)), (written_seq (write_string s)). under.
  rewrite (bind_assoc (write_colon _)), (written_seq (write_colon _)). under.
  rewrite bind_assoc, written_deeper. under. rewrite (Hv _), bind_assoc, written_seq. under.
  rewrite rest_of_end. apply written_proper. unfold rest_of. cbn [negb]. rewrite bind_assoc. under. by rewrite bind_assoc.
Qed.

(** ** Numbers *)

Lemma write_display (a b : Argument W) : (forall w, a (mkFormatter w Fmt.default_options) = b (mkFormatter w Fmt.default_options)) ->
  write_fmt (lit "{}") [a] ≈ write_fmt (lit "{}") [b].
Proof.
  intros E f. change (write_fmt (lit "{}") [a] f) with ((do* with_options Fmt.default_options a;; ret tt) f).
  change (write_fmt (lit "{}") [b] f) with ((do* with_options Fmt.default_options b;; ret tt) f).
  unfold bind, with_options. by rewrite E.
Qed.

(** A signed integer that is not negative is written as the unsigned one. *)
Lemma write_unsigned v : 0 <= v <= MAX i64 -> write_integer (W := W) i64 v ≈ write_integer u64 v.
Proof.
  intros Hv. change (MAX i64) with 9223372036854775807 in Hv. apply write_display. intros w.
  assert (in_range i64 v = true) as H1 by (unfold in_range; change (MIN i64) with (-9223372036854775808); change (MAX i64) with 9223372036854775807; lia).
  assert (in_range u64 v = true) as H2 by (unfold in_range; change (MIN u64) with 0; change (MAX u64) with 18446744073709551615; lia).
  destruct (magnitude_exact i64 v eq_refl H1) as (Hn1 & _ & Ha1). destruct (magnitude_exact u64 v eq_refl H2) as (Hn2 & _ & Ha2).
  unfold integer_argument, integer_display, bind, gets. cbn [options]. change (opt_presentation Fmt.default_options) with Display. cbn zeta.
  by rewrite Ha1, Ha2, Hn1, Hn2.
Qed.

Lemma i64_writes v : MIN i64 <= v <= MAX i64 -> writes (fun _ => serialize_i64 v) (VNumber (from_i64 v)).
Proof.
  intros Hv depth. unfold serialize_i64, from_i64. cbn [write_value]. apply written_proper. unfold write_number.
  destruct (Z.ltb_spec v 0) as [Hneg|Hpos]; cbn [is_u64 is_i64 as_u64 as_i64 or_abort]; [done|]. rewrite bind_ret. apply write_unsigned. lia.
Qed.

Lemma u64_writes v : writes (fun _ => serialize_u64 v) (VNumber (from_u64 v)).
Proof. intros depth. done. Qed.
End Direct.

(** ** What the calls build *)

(** The announced lengths are true, the integers fit, and strings, names and
    keys are text; the keys come in any order. *)
#[warnings="-register-all"] Inductive regular : Data -> Prop :=
| reg_none : regular DNone
| reg_unit : regular DUnit
| reg_bool b : regular (DBool b)
| reg_i64 v : MIN i64 <= v <= MAX i64 -> regular (DI64 v)
| reg_u64 v : 0 <= v <= MAX u64 -> regular (DU64 v)
| reg_f64 bits : 0 <= bits < 2 ^ 64 -> regular (DF64 bits)
| reg_string s : is_text s -> regular (DString s)
| reg_bytes bs : bytes_ok bs -> regular (DBytes bs)
| reg_some d : regular d -> regular (DSome d)
| reg_newtype d : regular d -> regular (DNewtype d)
| reg_unit_variant s : is_text s -> regular (DUnitVariant s)
| reg_newtype_variant s d : is_text s -> regular d -> regular (DNewtypeVariant s d)
| reg_sequence ds : Forall regular ds -> regular (DSequence (length ds) ds)
| reg_map (es : list (list Z * Data)) :
    Forall (fun e => is_text (fst e)) es -> Forall (fun e => regular (snd e)) es ->
    regular (DMap (length es) (map (fun e => (TextKey (fst e), snd e)) es)).

Definition key_name (k : Key) : list Z := match k with TextKey s | OtherKey (Some s) => s | OtherKey None => [] end.

(** The value of the calls with its entries in the order of the calls, equal
    keys and infinities included. *)
Fixpoint drawn (d : Data) : Value :=
  match d with
  | DNone | DUnit | DExtension => VNull
  | DBool b => VBool b
  | DI64 v => VNumber (from_i64 v)
  | DU64 v => VNumber (from_u64 v)
  | DF64 bits => VNumber (NFloat bits)
  | DString s | DUnitVariant s => VString s
  | DBytes bs => VArray (map (fun byte => VNumber (from_u64 byte)) bs)
  | DSome d | DNewtype d => drawn d
  | DNewtypeVariant s d => VObject [(s, drawn d)]
  | DSequence _ ds => VArray (map drawn ds)
  | DMap _ es => VObject (map (fun e => (key_name (fst e), drawn (snd e))) es)
  end.

Fixpoint increasing (ks : list (list Z)) : bool :=
  match ks with
  | k :: ((k' :: _) as ks) => match bytes_cmp k k' with Lt => increasing ks | _ => false end
  | _ => true
  end.

(** The keys of every map come in increasing order. *)
Fixpoint keys_in_order (d : Data) : bool :=
  match d with
  | DSome d | DNewtype d | DNewtypeVariant _ d => keys_in_order d
  | DSequence _ ds => forallb keys_in_order ds
  | DMap _ es => increasing (map (fun e => key_name (fst e)) es) && forallb (fun e => keys_in_order (snd e)) es
  | _ => true
  end.

Lemma increasing_sorted (m : list (list Z * Value)) : increasing (map fst m) = true -> sorted_keys m.
Proof.
  intros Hi. apply Sorted_StronglySorted; [intros a b c; apply key_lt_trans|].
  induction m as [|[k v] m IH]; [constructor|]. destruct m as [|[k' v'] m]; [by repeat constructor|].
  cbn [map fst increasing] in Hi, IH |- *. destruct (bytes_cmp k k') eqn:E; [done| |done]. constructor; [by apply IH|by constructor].
Qed.

(** In that order the value is drawn as it is. *)
Lemma settled_drawn d : keys_in_order d = true -> settled (drawn d) = drawn d.
Proof.
  induction d as [| |b|v|v|bits|s|bs|d IH|d IH|s|s d IH|n ds IH|n es IH|] using Data_ind'; cbn [keys_in_order drawn settled]; try done.
  - intros _. f_equal. rewrite map_map. by apply map_ext.
  - intros Hd. cbn. by rewrite IH.
  - intros Hd. f_equal. rewrite map_map. apply map_ext_in. intros d Hin. rewrite forallb_forall in Hd.
    rewrite list.Forall_forall in IH. apply IH; [by apply list_elem_of_In|by apply Hd].
  - intros [Hk Hd]%andb_true_iff. f_equal. rewrite map_map. cbn [fst snd].
    assert (map (fun e => (key_name (fst e), settled (drawn (snd e)))) es = map (fun e => (key_name (fst e), drawn (snd e))) es) as ->.
    { apply map_ext_in. intros e Hin. rewrite forallb_forall in Hd. rewrite list.Forall_forall in IH.
      rewrite IH; [done|by apply list_elem_of_In|by apply Hd]. }
    apply build_sorted, increasing_sorted. by rewrite map_map.
Qed.

(** [f] has built [w]. *)
Definition built (f : DataPath -> JsonTyped.result) (w : Value) : Prop := exists path, f path = Ret w.

Lemma elements_built fs : forall q v, JsonTyped.ended_ q = false ->
  JsonTyped.run q (do* JsonTyped.elements fs;; JsonTyped.sequence_end) = Ret v ->
  exists ws, v = VArray (JsonTyped.values_ q ++ ws) /\ Forall2 built fs ws.
Proof.
  induction fs as [|f fs IH]; intros [values path ended] v He E; cbn in He; subst ended.
  - injection E as <-. exists []. by rewrite app_nil_r.
  - unfold JsonTyped.run in E. cbn -[with_index] in E. unfold bind, JsonTyped.element, JsonTyped.lift, gets, modify in E. cbn -[with_index] in E.
    destruct (f (with_index path (length values))) as [w| | |] eqn:Ef; [|done..].
    destruct (IH (JsonTyped.MkSequence (values ++ [w]) path false) v eq_refl E) as (ws & -> & Hws). exists (w :: ws).
    cbn. rewrite <- app_assoc. split; [done|]. constructor; [by eexists|done].
Qed.

Definition with_text_keys {A} (es : list (list Z * A)) : list (Key * A) := map (fun e => (TextKey (fst e), snd e)) es.

(** A key that is there already is an error. *)
Lemma entries_built (es : list (list Z * (DataPath -> JsonTyped.result))) : forall q v,
  JsonTyped.map_ended_ q = false -> JsonTyped.pending_key_ q = None -> sorted_keys (JsonTyped.entries_ q) ->
  JsonTyped.run q (do* JsonTyped.entries (with_text_keys es);; JsonTyped.map_end) = Ret v ->
  exists m, v = VObject (foldl (fun m kv => snd (map_insert (fst kv) (snd kv) m)) (JsonTyped.entries_ q) m) /\
    Forall2 (fun e x => fst e = fst x /\ built (snd e) (snd x)) es m /\
    NoDup (map fst m) /\ Forall (fun x => map_get (fst x) (JsonTyped.entries_ q) = None) m.
Proof.
  induction es as [|[k f] es IH]; intros [entries path vpath pending ended] v He Hp Hs E; cbn in He, Hp; subst ended pending.
  - injection E as <-. exists []. by repeat constructor.
  - cbn [JsonTyped.entries_] in Hs |- *. unfold JsonTyped.run in E. cbn -[with_map_key path_clone map_insert] in E.
    unfold bind, JsonTyped.key, JsonTyped.value, JsonTyped.lift, gets, modify in E. cbn -[with_map_key path_clone map_insert] in E.
    destruct (f _) as [w| | |] eqn:Ef in E; [|done..].
    pose proof (proj1 (map_insert_get k w entries k Hs)) as Hold. pose proof (map_insert_sorted k w entries Hs) as Hs'.
    assert (forall k0, map_get k0 (snd (map_insert k w entries)) = None -> k0 <> k /\ map_get k0 entries = None) as Hnone.
    { intros k0. rewrite (proj2 (map_insert_get k w entries k0 Hs)). destruct (cmp k0 k) eqn:Ec; [done| |];
        (intros H; split; [intros ->; by rewrite cmp_refl in Ec|done]). }
    destruct (map_insert k w entries) as [[old|] m'] eqn:Ei; cbn -[with_map_key path_clone map_insert] in E, Hold, Hs', Hnone; [done|].
    destruct (IH (JsonTyped.MkMapObject m' path (with_map_key path k) None false) v eq_refl eq_refl Hs' E) as (m & -> & Hm & Hn & Hfresh).
    cbn [JsonTyped.entries_] in *. exists ((k, w) :: m). cbn [foldl fst snd map]. rewrite Ei. cbn [snd]. split; [done|].
    split; [constructor; [split; [done|by eexists]|done]|].
    assert (Forall (fun x => fst x <> k /\ map_get (fst x) entries = None) m) as Hx by (eapply List.Forall_impl; [|exact Hfresh]; intros x; apply Hnone).
    split; [|constructor; [done|]; eapply List.Forall_impl; [|exact Hx]; by intros x [_ ?]].
    constructor; [|done]. intros Hin. apply list_elem_of_fmap in Hin as (x & -> & Hin). rewrite list.Forall_forall in Hx. by destruct (Hx x Hin).
Qed.

Lemma Forall2_with {A B} (P : A -> Prop) (Q R : A -> B -> Prop) l k :
  (forall a b, P a -> Q a b -> R a b) -> Forall P l -> Forall2 Q l k -> Forall2 R l k.
Proof. intros H Hl. induction 1 as [|a b l k Hq _ IH]; [constructor|]. apply Forall_cons_1 in Hl as [Hp Hl]. constructor; auto. Qed.

Lemma Forall2_map_left {A A' B} (f : A -> A') (R : A' -> B -> Prop) l k : Forall2 R (map f l) k <-> Forall2 (fun a => R (f a)) l k.
Proof. exact (Forall2_fmap_l f R l k). Qed.

Section Agreement.
Context {W : Type} `{Write W} (check : bool) (format : FormatOptions).

(** Writing directly writes the value as the calls draw it. *)
Lemma serialize_writes d : regular d -> writes (W := W) check format (serialize check format d) (drawn d).
Proof.
  induction d as [| |b|v|v|bits|s|bs|d IH|d IH|s|s d IH|n ds IH|n es IH|] using Data_ind'; intros Hr; inversion Hr; subst; cbn [drawn].
  1-3, 6-7, 11: by intros depth.
  - by apply i64_writes.
  - apply u64_writes.
  - intros depth. cbn [serialize]. unfold serialize_bytes.
    rewrite <- (length_map (fun byte => VNumber (from_u64 byte)) bs). apply sequence_writes.
    clear. induction bs as [|b bs IH]; constructor; [apply u64_writes|done].
  - by apply IH.
  - by apply IH.
  - intros depth. apply newtype_variant_writes. by apply IH.
  - intros depth. cbn [serialize]. rewrite <- (length_map drawn ds). apply sequence_writes.
    rewrite Forall2_map_left. apply Forall2_fmap_r, Forall_Forall2_diag. eapply List.Forall_impl; [|exact (List.Forall_and IH H1)].
    by intros d [Hd ?]; apply Hd.
  - intros depth. cbn [serialize]. rewrite !map_map. cbn [fst snd key_name]. rewrite Forall_map in IH. cbn [snd] in IH.
    rewrite <- (length_map (fun e => (fst e, drawn (snd e))) es0). apply map_writes.
    rewrite Forall2_map_left. apply Forall2_fmap_r, Forall_Forall2_diag. eapply List.Forall_impl; [|exact (List.Forall_and IH H3)].
    intros e [He Hreg]. by split; [|apply He].
Qed.
End Agreement.

(** What the calls build, when they build something: the value as it is drawn,
    with its entries in order; the keys of a map differ then, and the floats
    are finite. *)
Lemma built_drawn d : forall path v, regular d -> JsonTyped.serialize d path = Ret v -> loose (drawn d) /\ v = settled (drawn d).
Proof.
  induction d as [| |b|v|v|bits|s|bs|d IH|d IH|s|s d IH|n ds IH|n es IH|] using Data_ind'; intros path w Hr E; inversion Hr; subst;
    cbn [JsonTyped.serialize drawn settled] in *.
  1-3, 7, 11: by injection E as <-; split; [constructor|].
  - injection E as <-. split; [|done]. constructor. unfold from_i64. change (MAX i64) with (2 ^ 63 - 1) in *.
    destruct (Z.ltb_spec v 0); cbn [number_ok]; [lia|]. change (MAX u64) with (2 ^ 64 - 1). lia.
  - injection E as <-. by split; [constructor|].
  - unfold JsonTyped.serialize_f64, from_f64 in E. destruct (is_finite bits) eqn:Ef; [|done]. injection E as <-. by split; [constructor|].
  - injection E as <-. split.
    + constructor. rewrite Forall_map. eapply List.Forall_impl; [|exact H0]. intros b Hb. constructor. unfold is_byte in Hb. cbn. change (MAX u64) with (2 ^ 64 - 1). lia.
    + rewrite map_map. cbn [settled]. unfold JsonTyped.serialize_bytes. done.
  - by apply (IH path).
  - by apply (IH path).
  - unfold JsonTyped.serialize_newtype_variant in E. destruct (JsonTyped.serialize d _) as [w'| | |] eqn:Ed; [|done..].
    injection E as <-. apply IH in Ed as [Hl ->]; [|done]. split; [|done].
    constructor; [repeat constructor; by intros ?%elem_of_nil|by constructor|by constructor].
  - apply elements_built in E as (ws & -> & Hws); [|done]. cbn [JsonTyped.begin_sequence JsonTyped.values_ app]. rewrite Forall2_map_left in Hws.
    pose proof (Forall2_with _ _ (fun d w => loose (drawn d) /\ w = settled (drawn d)) ds ws
      (fun d w Hd Hp => match Hp with ex_intro _ p E => proj1 Hd p w (proj2 Hd) E end) (List.Forall_and IH H0) Hws) as Hall.
    clear -Hall. enough (Forall loose (map drawn ds) /\ ws = map settled (map drawn ds)) as [? ->] by (by split; [constructor|]).
    induction Hall as [|d w ds ws [Hd ->] _ [IH1 ->]]; [by split; [constructor|]|]. by split; [constructor|].
  - rewrite map_map in E. cbn [fst snd] in E.
    assert (map (fun x => (TextKey (fst x), JsonTyped.serialize (snd x))) es0 = with_text_keys (map (fun x => (fst x, JsonTyped.serialize (snd x))) es0)) as Ek
      by (unfold with_text_keys; by rewrite map_map).
    rewrite Ek in E. apply entries_built in E as (m & -> & Hm & Hn & _); [|done|done|constructor].
    rewrite Forall2_map_left in Hm. cbn [fst snd] in Hm. rewrite Forall_map in IH. cbn [JsonTyped.begin_map JsonTyped.entries_ snd] in *.
    assert (Forall2 (fun e x => loose (drawn (snd e)) /\ x = (fst e, settled (drawn (snd e)))) es0 m) as Hall.
    { eapply Forall2_with; [|exact (List.Forall_and IH H2)|exact Hm]. intros e [k w] [He Hreg] [Hk [p Hp]]. cbn in *.
      destruct (He p w Hreg Hp) as [? ->]. by subst k. }
    assert (Forall (fun e => loose (drawn (snd e))) es0) as Hl by (clear -Hall; induction Hall as [|e x es m [Hx _] _ IH]; by constructor).
    assert (m = map (fun e => (fst e, settled (drawn (snd e)))) es0) as -> by (clear -Hall; induction Hall as [|e x es m [_ ->] _ ->]; done).
    rewrite !map_map in *. cbn [fst snd key_name] in *. split; [|done]. constructor.
    + by rewrite map_map.
    + by rewrite Forall_map.
    + by rewrite Forall_map.
Qed.

(** ** Values and their calls *)

Lemma elements_build fs ws : Forall2 (fun f w => forall path, f path = Ret w) fs ws -> forall q, JsonTyped.ended_ q = false ->
  JsonTyped.run q (do* JsonTyped.elements fs;; JsonTyped.sequence_end) = Ret (VArray (JsonTyped.values_ q ++ ws)).
Proof.
  induction 1 as [|f w fs ws Hf _ IH]; intros [values path ended] He; cbn in He; subst ended; [by cbn; rewrite app_nil_r|].
  unfold JsonTyped.run. cbn -[with_index]. unfold bind, JsonTyped.element, JsonTyped.lift, gets, modify. cbn -[with_index].
  rewrite Hf. change (w :: ws) with ([w] ++ ws). rewrite (app_assoc values). exact (IH (JsonTyped.MkSequence (values ++ [w]) path false) eq_refl).
Qed.

Lemma entries_build es m : Forall2 (fun e x => fst e = TextKey (fst x) /\ forall path, snd e path = Ret (snd x)) es m -> forall q,
  JsonTyped.map_ended_ q = false -> JsonTyped.pending_key_ q = None -> sorted_keys (JsonTyped.entries_ q) ->
  NoDup (map fst m) -> Forall (fun x => map_get (fst x) (JsonTyped.entries_ q) = None) m ->
  JsonTyped.run q (do* JsonTyped.entries es;; JsonTyped.map_end) =
  Ret (VObject (foldl (fun m kv => snd (map_insert (fst kv) (snd kv) m)) (JsonTyped.entries_ q) m)).
Proof.
  induction 1 as [|[k f] [s w] es m [Hk Hf] _ IH]; intros [entries path vpath pending ended] He Hp Hs Hn Hfresh; cbn in He, Hp; subst ended pending;
    [done|]. cbn [JsonTyped.entries_ fst snd map foldl] in *. subst k. apply Forall_cons_1 in Hfresh as [Hnew Hfresh].
  apply list.NoDup_cons in Hn as [Hout Hn].
  unfold JsonTyped.run. cbn -[with_map_key path_clone map_insert].
  unfold bind, JsonTyped.key, JsonTyped.value, JsonTyped.lift, gets, modify. cbn -[with_map_key path_clone map_insert].
  rewrite Hf. pose proof (proj1 (map_insert_get s w entries s Hs)) as Hold. pose proof (map_insert_sorted s w entries Hs) as Hs'.
  assert (Forall (fun x => map_get (fst x) (snd (map_insert s w entries)) = None) m) as Hfresh'.
  { rewrite list.Forall_forall in *. intros x Hin. rewrite (proj2 (map_insert_get s w entries (fst x) Hs)).
    destruct (cmp (fst x) s) eqn:Ec; [|by apply Hfresh..]. apply cmp_eq in Ec. destruct Hout. rewrite <- Ec. by apply list_elem_of_fmap_2. }
  cbn [fst] in Hnew. rewrite Hnew in Hold. destruct (map_insert s w entries) as [old m']. cbn [fst snd] in *. subst old.
  exact (IH (JsonTyped.MkMapObject m' path (with_map_key path s) None false) eq_refl eq_refl Hs' Hn Hfresh').
Qed.

(** Data whose floats are finite and whose keys differ is built. *)
Lemma drawn_built d : regular d -> loose (drawn d) -> forall path, JsonTyped.serialize d path = Ret (settled (drawn d)).
Proof.
  induction d as [| |b|v|v|bits|s|bs|d IH|d IH|s|s d IH|n ds IH|n es IH|] using Data_ind'; intros Hr Hl path; inversion Hr; subst;
    cbn [JsonTyped.serialize drawn settled] in *; try done.
  - inversion Hl as [| |? Hn| | |]; subst. unfold JsonTyped.serialize_f64, from_f64. by destruct Hn as [-> _].
  - rewrite map_map. by unfold JsonTyped.serialize_bytes.
  - by apply IH.
  - by apply IH.
  - inversion Hl as [| | | | |? _ _ Hls]; subst. apply Forall_cons_1 in Hls as [Hld _]. unfold JsonTyped.serialize_newtype_variant. by rewrite IH.
  - inversion Hl as [| | | |? Hls|]; subst. apply (elements_build _ (map settled (map drawn ds))); [|done].
    rewrite map_map, Forall2_map_left. apply Forall2_fmap_r, Forall_Forall2_diag. rewrite Forall_map in Hls.
    rewrite list.Forall_forall in *. intros d Hin path'. by apply IH; [|apply H0|apply Hls].
  - inversion Hl as [| | | | |? Hn _ Hls]; subst. rewrite !map_map in *. cbn [fst snd key_name] in *. rewrite !Forall_map in *. cbn [snd] in *.
    apply (entries_build _ (map (fun e => (fst e, settled (drawn (snd e)))) es0)); [|done|done|constructor|by rewrite map_map|].
    + rewrite Forall2_map_left. apply Forall2_fmap_r, Forall_Forall2_diag. rewrite list.Forall_forall in *. intros e Hin. cbn [fst snd].
      split; [done|]. intros path'. by apply IH; [|apply H2|apply Hls].
    + apply list.Forall_forall. intros x _. done.
Qed.

Lemma of_value_regular v : value_wf v -> regular (of_value v).
Proof.
  induction v as [|b|n|s|vs IH|m IH] using Value_ind'; intros Hwf; inversion Hwf as [| |? Hn| |? Hvs|? Hs Hk Hvs]; subst; cbn [of_value]; try (by constructor).
  - destruct n as [v|v|bits]; cbn [number_ok of_number] in *; constructor; [done| |tauto]. change (MAX i64) with (2 ^ 63 - 1). lia.
  - rewrite <- (length_map of_value vs). constructor. rewrite Forall_map. rewrite list.Forall_forall in *. intros v Hv. by apply IH, Hvs.
  - pose proof (reg_map (map (fun e => (fst e, of_value (snd e))) m)) as Hr. rewrite length_map, map_map in Hr. apply Hr.
    + by rewrite Forall_map.
    + rewrite Forall_map. rewrite list.Forall_forall in *. intros e He. by apply IH, Hvs.
Qed.

Lemma drawn_of_value v : value_wf v -> drawn (of_value v) = v.
Proof.
  induction v as [|b|n|s|vs IH|m IH] using Value_ind'; intros Hwf; inversion Hwf as [| |? Hn| |? Hvs|? Hs Hk Hvs]; subst; cbn [of_value drawn]; try done.
  - destruct n as [v|v|bits]; cbn in *; [done| |done]. unfold from_i64. by replace (v <? 0) with true by lia.
  - f_equal. rewrite map_map. rewrite <- (map_id vs) at 2. apply map_ext_in. intros v Hin%list_elem_of_In.
    rewrite list.Forall_forall in *. by apply IH, Hvs.
  - f_equal. rewrite map_map. rewrite <- (map_id m) at 2. apply map_ext_in. intros [k v] Hin%list_elem_of_In. cbn [fst snd key_name].
    rewrite list.Forall_forall in *. f_equal. apply (IH (k, v)); [done|]. by apply (Hvs (k, v)).
Qed.

(** ** Claims *)

(** The text of a value whose entries are in any order, read back. *)
Lemma writes_text check format v : loose v -> layout_fits format 0 v ->
  exists text, write_value check format v 0 (mkFormatter ([] : String) Fmt.default_options) = (Ret tt, mkFormatter text Fmt.default_options) /\
    forall o, Z.of_nat (value_depth v) < max_depth o -> from_str text o = Ret (settled v).
Proof.
  intros Hl Hfit.
  assert (forall o d, Z.of_nat (value_depth v) < d -> exists text,
    emits (write_value check format v 0) Fmt.default_options text /\ reads o d (settled v) text) as Hreads
    by (intros o d Hd; by apply loose_value_reads).
  destruct (Hreads default_options (Z.of_nat (value_depth v) + 1) ltac:(lia)) as (text & He & _). exists text. split; [apply He|].
  intros o Hd. destruct (Hreads o (max_depth o) Hd) as (text' & He' & Ht & Hg). specialize (He []). specialize (He' []). rewrite He in He'.
  injection He' as <-. apply from_str_complete; [done|]. rewrite <- (app_nil_r text).
  apply (g_document _ _ [] text (settled v) []); [constructor|apply Hg|constructor].
Qed.

Lemma of_value_builds v : value_wf v -> forall path, JsonTyped.serialize (of_value v) path = Ret v.
Proof.
  intros Hwf path. destruct (wf_loose v Hwf) as [Hl E]. rewrite drawn_built; [by rewrite drawn_of_value, E|by apply of_value_regular|by rewrite drawn_of_value].
Qed.

(** C31: What is written while a serializer is driven is what the calls build.
    Let the calls announce true lengths, keep integers to their widths and give
    text for strings, names and keys, in any order.  On every sink and at every
    depth the bytes are those the emitter writes for the value of the calls
    with its entries in the order of the calls: in the same pieces, with the
    same failure and the same panic.  The value is built when the floats are
    finite and the keys of each map differ; when it is, and its indentation is
    of machine size, the texts of [encode_direct] and of [encode] both read
    back as that value.  They are the same text when the keys of every map come
    in increasing order; [encode] sorts them, [encode_direct] does not. *)
Theorem direct_writes_the_value check format d : regular d ->
  (forall (W : Type) `{Write W} depth (f : Formatter W),
     JsonDirect.serialize check format d depth f = written (write_value check format (drawn d) depth) f) /\
  (loose (drawn d) -> exists v, to_value d = Ret v) /\
  (forall v, to_value d = Ret v -> layout_fits format 0 (drawn d) ->
   exists direct text, encode_direct check d format = Ret direct /\ encode check d format = Ret text /\
     (forall o, Z.of_nat (value_depth v) < max_depth o -> from_str direct o = Ret v /\ from_str text o = Ret v) /\
     (keys_in_order d = true -> direct = text)).
Proof.
  intros Hr. split; [intros W HW depth f; by apply serialize_writes|]. split; [intros Hl; eexists; by apply drawn_built|]. intros v E Hfit.
  destruct (built_drawn d [] v Hr E) as [Hl Ev]. destruct (settled_wf _ Hl) as [Hwf Hdepth]. rewrite <- Ev in Hwf, Hdepth.
  destruct (writes_text check format (drawn d) Hl Hfit) as (direct & Hdirect & Hread).
  destruct (wf_loose v Hwf) as [Hlv Esettled].
  destruct (writes_text check format v Hlv) as (text & Htext & Hread').
  { unfold layout_fits in *. by rewrite Hdepth. }
  exists direct, text. split_and!.
  - unfold encode_direct. rewrite (serialize_writes check format d Hr 0). unfold written. by rewrite Hdirect.
  - unfold encode. rewrite E. cbn. unfold to_string. by rewrite Htext.
  - intros o Ho. rewrite Ev at 1. rewrite Hread by (by rewrite <- Hdepth). split; [done|]. by rewrite Hread', Esettled.
  - intros Hk. rewrite settled_drawn in Ev by done. rewrite Ev, Hdirect in Htext. by injection Htext.
Qed.

(** A structure with a renamed field, an optional and an enumeration. *)
Definition sample_data : Data :=
  DMap 3 [(TextKey [98], DSome (DI64 (-7))); (TextKey [97], DNewtypeVariant [79; 107] (DBytes [0; 255]));
          (TextKey [99], DSequence 3 [DNone; DF64 0x3ff0000000000000; DUnitVariant [120]])].

Definition sample_built : Value :=
  VObject [([97], VObject [([79; 107], VArray [VNumber (NUnsigned 0); VNumber (NUnsigned 255)])]); ([98], VNumber (NSigned (-7)));
           ([99], VArray [VNull; VNumber (NFloat 0x3ff0000000000000); VString [120]])].

Lemma ascii_word a l : forallb (fun c => (0 <=? c) && (c <? 128)) (a :: l) = true -> is_text (a :: l).
Proof. intros H. apply text_ascii, List.Forall_forall. rewrite forallb_forall in H. intros x Hx. specialize (H x Hx). lia. Qed.

Lemma sample_regular : regular sample_data.
Proof.
  apply (reg_map [([98], DSome (DI64 (-7))); ([97], DNewtypeVariant [79; 107] (DBytes [0; 255]));
          ([99], DSequence 3 [DNone; DF64 0x3ff0000000000000; DUnitVariant [120]])]).
  - repeat constructor; by apply ascii_word.
  - constructor; [|constructor; [|constructor; [|constructor]]]; cbn [snd].
    + constructor. constructor. by vm_compute.
    + constructor; [by apply ascii_word|]. constructor. repeat constructor; unfold is_byte; lia.
    + apply (reg_sequence [DNone; DF64 0x3ff0000000000000; DUnitVariant [120]]).
      repeat constructor; try lia. by apply ascii_word.
Qed.

(** The keys of the sample are not in order: both texts are read as one value. *)
Lemma direct_writes_the_value_witness :
  exists direct text, encode_direct true sample_data (mkFormatOptions true 2) = Ret direct /\
    encode true sample_data (mkFormatOptions true 2) = Ret text /\
    from_str direct default_options = Ret sample_built /\ from_str text default_options = Ret sample_built.
Proof.
  destruct (proj2 (proj2 (direct_writes_the_value true (mkFormatOptions true 2) sample_data sample_regular)) sample_built ltac:(vm_compute; reflexivity))
    as (direct & text & Hdirect & Htext & Hread & _).
  { unfold layout_fits. cbn. lia. }
  exists direct, text. split; [exact Hdirect|]. split; [exact Htext|]. apply Hread. vm_compute. reflexivity.
Defined.

(** Two entries, the second key before the first. *)
Example order_of_calls :
  let d := DMap 2 [(TextKey [98], DUnit); (TextKey [97], DUnit)] in
  encode_direct true d default_format = Ret ([123; 34; 98; 34; 58] ++ str "null" ++ [44; 34; 97; 34; 58] ++ str "null" ++ [125]) /\
  encode true d default_format = Ret ([123; 34; 97; 34; 58] ++ str "null" ++ [44; 34; 98; 34; 58] ++ str "null" ++ [125]).
Proof. split; vm_compute; reflexivity. Qed.

(** A well-formed JSON value survives its own serialization: the calls its [Serialize] implementation makes build the
    same value, and written directly they give the text of [to_string], which reads back as the value. *)
Theorem value_survives_serde check format o v :
  value_wf v -> Z.of_nat (value_depth v) < max_depth o -> layout_fits format 0 v ->
  to_value (of_value v) = Ret v /\
  exists text, encode_direct check (of_value v) format = Ret text /\ to_string check v format = Some text /\ from_str text o = Ret v.
Proof.
  intros Hwf Hd Hfit. pose proof (of_value_builds v Hwf []) as E. split; [exact E|].
  destruct (write_value_reads check format o v 0 (max_depth o) Fmt.default_options Hwf Hd Hfit) as (text & He & Ht & Hg).
  specialize (He []). exists text. split_and!.
  - unfold encode_direct. rewrite (serialize_writes check format _ (of_value_regular v Hwf) 0), drawn_of_value by done. unfold written. by rewrite He.
  - unfold to_string. by rewrite He.
  - apply from_str_complete; [done|]. rewrite <- (app_nil_r text). apply (g_document _ _ [] text v []); [constructor|apply Hg|constructor].
Qed.

Lemma value_survives_serde_witness :
  to_value (of_value printed_sample) = Ret printed_sample /\
  exists text, encode_direct true (of_value printed_sample) default_format = Ret text /\ to_string true printed_sample default_format = Some text /\
    from_str text default_options = Ret printed_sample.
Proof.
  apply (value_survives_serde true default_format default_options printed_sample printed_sample_wf).
  - vm_compute. reflexivity.
  - unfold layout_fits. cbn. lia.
Defined.

(** The serializer that writes does not check that floats are finite, and
    writes a key as often as it comes: what it gives for an infinity is not
    JSON, where [to_value] reports an error. *)
Theorem direct_unchecked :
  (encode_direct true (DF64 0x7ff0000000000000) default_format = Ret (str "inf") /\
   to_value (DF64 0x7ff0000000000000) = Fail (invalid_value [] (str "JSON numbers must be finite")) /\
   from_str (str "inf") default_options = Fail (MkError ExpectedSomeValue 1 1 0)) /\
  encode_direct true (DMap 2 [(TextKey [97], DNone); (TextKey [97], DUnit)]) default_format =
    Ret ([123; 34; 97; 34; 58] ++ str "null" ++ [44; 34; 97; 34; 58] ++ str "null" ++ [125]) /\
  to_value (DMap 2 [(TextKey [97], DNone); (TextKey [97], DUnit)]) = Fail (duplicate_field [] [97]).
Proof. split_and!; vm_compute; reflexivity. Qed.
