(* ===== verification/DebugProtocol.v ===== *)
(** The wire protocol of the diagnostics ([std/src/async/debug/protocol.cpp])
    and the framing of its server's connections ([client] of
    [std/src/async/debug/server.cpp]).

    A request is one line of at most five words; a response is one line of
    JSON, assembled in a buffer that refuses what does not fit.  A session
    answers requests from the store of [DebugCollector]; it keeps a snapshot
    and hands it out page by page. *)

From Stdlib Require Import ZArith Lia Ascii.
From stdpp Require Import base list strings.
From S2P Require Import Prelude.
From S2P Require Import Int.
From S2P Require Import Utf8.
From S2P Require Import Str.
From S2P Require Import Fmt.
From S2P Require Import FmtInteger.
From S2P Require Import DebugStore.
From S2P Require Import DebugCollector.

Local Open Scope Z_scope.
Local Open Scope rstd_scope.

Definition VERSION : Z := 2.

(** ** Requests *)

Inductive Command := Hello | SnapshotRequest | SnapshotPage | TaskRequest | EventsRequest.

#[export] Instance Command_eq_dec : EqDecision Command.
Proof. solve_decision. Defined.

Record Request := mkRequest { request_id : Z; command : Command; argument : Z; limit_of : option Z }.

Record RequestError := mkRequestError { message : list Z; error_request_id : option Z }.

Fixpoint number_loop (token : list Z) (value : Z) : option Z :=
  match token with
  | [] => Some value
  | digit :: rest =>
    if (digit <? 48) || (57 <? digit) || ((MAX u64 - (digit - 48)) / 10 <? value) then None
    else number_loop rest (value * 10 + digit - 48)
  end.

Definition number (token : list Z) : option Z :=
  match token with [] => None | _ => number_loop token 0 end.

Definition parse_error {A} (message : list Z) (id : option Z) : outcome RequestError A :=
  Fail (mkRequestError message id).

(** The scan of the line, at most five words: [n] offsets are left, the end of
    the line included. *)
Fixpoint split_loop (n offset begin : nat) (line : list Z) (tokens : list (list Z)) (id : option Z)
    : outcome RequestError (list (list Z) * option Z) :=
  match n with
  | O => Ret (tokens, id)
  | S n =>
    let in_word := match line !! offset with Some character => negb (character =? 32) | None => false end in
    if in_word then
      let character := default 0 (line !! offset) in
      if (character <? 0x21) || (0x7e <? character) then parse_error (lit "invalid_request") id
      else split_loop n (offset + 1) begin line tokens id
    else if (offset =? begin)%nat || (length tokens =? 5)%nat then parse_error (lit "invalid_request") id
    else
      let token := slice line begin offset in
      let tokens := tokens ++ [token] in
      if (length tokens =? 2)%nat then
        match number token with
        | None => parse_error (lit "invalid_request") None
        | Some v =>
          if v =? 0 then parse_error (lit "invalid_request") None
          else split_loop n (offset + 1) (offset + 1) line tokens (Some v)
        end
      else split_loop n (offset + 1) (offset + 1) line tokens id
  end.

Definition command_is (command : list Z) (name : string) : bool := str_eq command (lit name).

(** The checks of [parse_request] on the words. *)
Definition parse_words (tokens : list (list Z)) (id : option Z) : outcome RequestError Request :=
  let count := length tokens in
  if (count <? 3)%nat then parse_error (lit "invalid_request") id
  else
    let! t0 := index tokens 0 in
    match number t0 with
    | None => parse_error (lit "invalid_request") id
    | Some version =>
      if negb (version =? VERSION) then parse_error (lit "unsupported_version") id
      else
        let! request_id := (match id with Some v => Ret v | None => Panic end) in
        let! t2 := index tokens 2 in
        let! command := (match from_utf8 t2 with Ok c => Ret c | Err _ => Panic end) in
        if command_is command "hello" || command_is command "snapshot" then
          if negb (count =? 3)%nat then parse_error (lit "invalid_request") id
          else Ret (mkRequest request_id (if command_is command "hello" then Hello else SnapshotRequest) 0 None)
        else if command_is command "snapshot_page" || command_is command "task" || command_is command "events" then
          if (count <? 4)%nat || (negb (command_is command "events") && negb (count =? 4)%nat)
          then parse_error (lit "invalid_request") id
          else
            let! t3 := index tokens 3 in
            match number t3 with
            | None => parse_error (if command_is command "events" then lit "invalid_cursor"
                                   else lit "invalid_request") id
            | Some argument =>
              let c := if command_is command "snapshot_page" then SnapshotPage
                       else if command_is command "task" then TaskRequest else EventsRequest in
              if (count =? 5)%nat then
                let! t4 := index tokens 4 in
                match number t4 with
                | None => parse_error (lit "invalid_request") id
                | Some limit =>
                  if limit =? 0 then parse_error (lit "invalid_request") id
                  else Ret (mkRequest request_id c argument (Some limit))
                end
              else Ret (mkRequest request_id c argument None)
            end
        else parse_error (lit "invalid_request") id
    end.

Definition parse_request (line : list Z) : outcome RequestError Request :=
  match line with
  | [] => parse_error (lit "invalid_request") None
  | _ =>
    let! words := split_loop (length line + 1) 0 0 line [] None in
    parse_words (fst words) (snd words)
  end.

(** ** Responses *)

Record Response := mkResponse { text_ : list Z; limit_ : Z; failed_ : bool }.

Definition response_make (limit : Z) : Response := mkResponse [] limit false.

Definition response_size (r : Response) : Z := Z.of_nat (length (text_ r)).

Definition fits (r : Response) (bytes reserved : Z) : bool :=
  negb (failed_ r) && (bytes <=? wrapping_sub usize (limit_ r) (response_size r))
  && (reserved <=? wrapping_sub usize (wrapping_sub usize (limit_ r) (response_size r)) bytes).

Definition raw (text : list Z) (r : Response) : Response :=
  if negb (fits r (Z.of_nat (length text)) 0) then mkResponse (text_ r) (limit_ r) true
  else mkResponse (text_ r ++ text) (limit_ r) (failed_ r).

Definition ascii (character : Z) (r : Response) : Response :=
  if negb (fits r 1 0) then mkResponse (text_ r) (limit_ r) true
  else mkResponse (text_ r ++ [character]) (limit_ r) (failed_ r).

Definition hex_digit (i : Z) : Z := default 0 (lit "0123456789abcdef" !! Z.to_nat i).

Definition plain_byte (character : Z) : bool :=
  (0x20 <=? character) && negb (character =? 34) && negb (character =? 92).

(** The escape of a byte that is not written as it is. *)
Definition escape (character : Z) (r : Response) : Response :=
  if character =? 34 then raw [92; 34] r
  else if character =? 92 then raw [92; 92] r
  else ascii (hex_digit (Z.land character 15)) (ascii (hex_digit (Z.shiftr character 4)) (raw (lit "\u00") r)).

(** The loop of [quoted]: [begin] is the start of the run not yet written. *)
Fixpoint quoted_loop (bytes : list Z) (offset begin : nat) (value : list Z) (r : Response) : nat * Response :=
  match bytes with
  | [] => (begin, r)
  | character :: bytes =>
    if plain_byte character then quoted_loop bytes (offset + 1) begin value r
    else quoted_loop bytes (offset + 1) (offset + 1) value (escape character (raw (slice value begin offset) r))
  end.

Definition quoted (value : list Z) (r : Response) : Response :=
  let '(begin, r) := quoted_loop value 0 0 value (raw [34] r) in
  raw [34] (raw (slice value begin (length value)) r).

Definition response_key (key : list Z) (r : Response) : Response := raw [58] (quoted key (raw [44] r)).
Definition response_text (key value : list Z) (r : Response) : Response := quoted value (response_key key r).
Definition response_integer (value : Z) (r : Response) : Response :=
  raw (format (lit "{}") [integer_argument u64 value]) r.
Definition response_number (key : list Z) (value : Z) (r : Response) : Response :=
  response_integer value (response_key key r).
Definition response_id (key : list Z) (value : Z) (r : Response) : Response :=
  raw [34] (response_integer value (raw [34] (response_key key r))).
Definition response_flag (key : list Z) (value : bool) (r : Response) : Response :=
  raw (if value then lit "true" else lit "false") (response_key key r).

Definition response_finish (r : Response) : option (list Z) := if failed_ r then None else Some (text_ r).

Definition QUOTE : list Z := [34].

Definition envelope (id : option Z) (bytes : Z) : Response :=
  let r := response_make (if bytes =? 0 then 0 else bytes - 1) in
  let r := raw ([123] ++ QUOTE ++ lit "version" ++ QUOTE ++ lit ":") r in
  let r := response_integer VERSION r in
  let r := raw (lit "," ++ QUOTE ++ lit "request_id" ++ QUOTE ++ lit ":" ++ QUOTE) r in
  let r := match id with Some id => response_integer id r | None => r end in
  raw QUOTE r.

(** An empty text means that no response fits. *)
Definition error_response (error : RequestError) (max_message_bytes : Z) : list Z :=
  let r := envelope (error_request_id error) max_message_bytes in
  let r := response_text (lit "error") (message error) r in
  let r := if str_eq (message error) (lit "history_gap") then response_flag (lit "resync_required") true r else r in
  default [] (response_finish (raw [125] r)).

Definition response_status (s : Status) (r : Response) : Response :=
  let r := response_id (lit "session") (st_session s) r in
  let r := response_flag (lit "closed") (st_closed s) r in
  let r := response_flag (lit "exhausted") (st_exhausted s) r in
  let r := response_flag (lit "incomplete") (st_incomplete s) r in
  let r := response_id (lit "omitted") (st_omitted s) r in
  response_id (lit "dropped_events") (st_dropped_events s) r.

(** The names of the enumerations. *)
Definition kind_str (k : Kind) : list Z :=
  match k with
  | Runtime => lit "runtime" | Task => lit "task" | BlockingJob => lit "blocking_job"
  | Worker => lit "worker" | Operation => lit "operation" | Resource => lit "resource" | Wait => lit "wait"
  end.

Definition state_str (s : State) : list Z :=
  match s with
  | Created => lit "created" | Queued => lit "queued" | Running => lit "running" | Waiting => lit "waiting"
  | FacilityQueued => lit "facility_queued" | FacilityRunning => lit "facility_running"
  | Terminal => lit "terminal" | Cleaned => lit "cleaned" | Published => lit "published"
  | Submitted => lit "submitted" | Ready => lit "ready" | Consumed => lit "consumed"
  | ReleaseRequested => lit "release_requested" | Released => lit "released"
  | Cancelled => lit "cancelled" | Removed => lit "removed" | Parked => lit "parked"
  | Stopping => lit "stopping" | Closed => lit "closed"
  end.

Definition outcome_str (o : Outcome) : list Z :=
  match o with
  | OUnknown => lit "unknown" | OSuccess => lit "success" | OAborted => lit "aborted" | OError => lit "error"
  end.

Definition error_str (e : Error) : list Z :=
  match e with
  | EBusy => lit "busy" | ENotFound => lit "not_found" | EEvicted => lit "evicted"
  | EHistoryGap => lit "history_gap" | ECapacity => lit "snapshot_too_large"
  | EInvalidCursor => lit "invalid_cursor" | EClosed => lit "runtime_closed"
  end.

Definition coverage : list Z :=
  lit "tasks,blocking_jobs,workers,timers,join,owned_io,source_release; unknown:mutex,notify,oneshot,readiness,third_party; await target=0 means unknown; no native stacks".

(** A literal that opens an object with a first key. *)
Definition open_key (key : list Z) : list Z := [123] ++ QUOTE ++ key ++ QUOTE ++ [58].
Definition next_key (key : list Z) : list Z := [44] ++ QUOTE ++ key ++ QUOTE ++ [58].

Definition encode_record (record : DRecord) (maximum : Z) : option (list Z) :=
  let r := response_make maximum in
  let r := raw (open_key (lit "id") ++ QUOTE) r in
  let r := response_integer (r_id record) r in
  let r := raw QUOTE r in
  let r := response_id (lit "parent") (r_parent record) r in
  let r := response_id (lit "target") (r_target record) r in
  let r := response_text (lit "kind") (kind_str (r_kind record)) r in
  let r := response_text (lit "state") (state_str (r_state record)) r in
  let r := response_id (lit "version") (r_version record) r in
  let r := response_id (lit "changed_ns") (r_changed_ns record) r in
  let r := response_text (lit "name") (r_name record) r in
  let r := response_text (lit "file") (r_file record) r in
  let r := response_number (lit "line") (r_line record) r in
  let r := response_number (lit "worker") (r_worker record) r in
  let r := response_flag (lit "external") (r_external record) r in
  let r := response_flag (lit "cancel_requested") (r_cancel_requested record) r in
  let r := response_flag (lit "cancel_rejected") (r_cancel_rejected record) r in
  let r := response_flag (lit "scheduler_terminal") (r_scheduler_terminal record) r in
  let r := response_flag (lit "frame_cleaned") (r_frame_cleaned record) r in
  let r := response_flag (lit "result_published") (r_result_published record) r in
  let r := response_flag (lit "backend_terminal") (r_backend_terminal record) r in
  let r := response_text (lit "outcome") (outcome_str (r_outcome record)) r in
  let r := response_flag (lit "terminal") (r_terminal record) r in
  let r := response_flag (lit "truncated") (r_truncated record) r in
  response_finish (raw [125] r).

(** ** Sessions *)

Record SessionOptions := mkSessionOptions
  { max_message_bytes : Z; max_snapshot_bytes : Z; page_records : Z; snapshot_lifetime : Z }.

(** Instants are nanoseconds of the clock. *)
Record Session := mkSession
  { s_options : SessionOptions; snapshot_ : option Snapshot; captured_ : Z; snapshot_id_ : Z;
    page_ : nat; hello_ : bool }.

Definition session_make (o : SessionOptions) (now : Z) : Session := mkSession o None now 0 0 false.

Definition session_error (o : SessionOptions) (id : Z) (error : list Z) : list Z :=
  error_response (mkRequestError error (Some id)) (max_message_bytes o).

(** The loop of [page] and of the events of [respond]: the entries that fit,
    each encoded on its own.  [reserved] is what the end of the message needs;
    [None] is an entry that does not fit by itself. *)
Fixpoint entries_loop {A} (encode : A -> option (list Z)) (reserved limit : Z) (entries : list A)
    (count : nat) (r : Response) : option (nat * Response) :=
  match entries with
  | [] => Some (count, r)
  | entry :: rest =>
    if limit <=? Z.of_nat count then Some (count, r)
    else
      let separator := if (count =? 0)%nat then 0 else 1 in
      match encode entry with
      | Some text =>
        if fits r (Z.of_nat (length text) + separator) reserved
        then entries_loop encode reserved limit rest (S count)
               (raw text (if (count =? 0)%nat then r else raw [44] r))
        else if (count =? 0)%nat then None else Some (count, r)
      | None => if (count =? 0)%nat then None else Some (count, r)
      end
  end.

(** [Session::page]: the records from [page_] on; [None] is the unwrapped
    snapshot that is not there. *)
Definition page (id : Z) (s : Session) : option (list Z * Session) :=
  match snapshot_ s with
  | None => None
  | Some snapshot =>
    let o := s_options s in
    let r := envelope (Some id) (max_message_bytes o) in
    let r := response_status (sn_status snapshot) r in
    let r := response_id (lit "snapshot_id") (snapshot_id_ s) r in
    let r := response_id (lit "cursor") (st_cursor (sn_status snapshot)) r in
    let r := response_id (lit "observed_ns") (observed_ns snapshot) r in
    let r := raw (next_key (lit "records") ++ [91]) r in
    match entries_loop (fun record => encode_record record (max_message_bytes o)) 15 (page_records o)
            (drop (page_ s) (sn_records snapshot)) 0 r with
    | None => Some (session_error o id (lit "record_too_large"), s)
    | Some (count, r) =>
      let s := mkSession o (snapshot_ s) (captured_ s) (snapshot_id_ s) (page_ s + count) (hello_ s) in
      let r := raw [93] r in
      let r := response_flag (lit "more") (page_ s <? length (sn_records snapshot))%nat r in
      let r := raw [125] r in
      Some (default (session_error o id (lit "record_too_large")) (response_finish r), s)
    end
  end.

(** The text of one event. *)
Definition encode_event (maximum : Z) (event : Event) : option (list Z) :=
  match encode_record (event_record event) maximum with
  | None => None
  | Some record =>
    let r := response_make maximum in
    let r := raw (open_key (lit "sequence") ++ QUOTE) r in
    let r := response_integer (sequence event) r in
    let r := raw (QUOTE ++ next_key (lit "record")) r in
    response_finish (raw [125] (raw record r))
  end.

Definition hello_response (o : SessionOptions) (id : Z) (value : Status) : option (list Z) :=
  let r := envelope (Some id) (max_message_bytes o) in
  let r := response_status value r in
  let r := response_number (lit "max_message_bytes") (max_message_bytes o) r in
  let r := response_number (lit "max_snapshot_bytes") (max_snapshot_bytes o) r in
  let r := response_number (lit "page_records") (page_records o) r in
  let r := raw (next_key (lit "runtime") ++ open_key (lit "multi_thread")) r in
  let r := raw (if multi_thread (st_runtime value) then lit "true" else lit "false") r in
  let r := response_number (lit "workers") (workers (st_runtime value)) r in
  let r := response_number (lit "max_blocking_threads") (max_blocking_threads (st_runtime value)) r in
  let r := response_flag (lit "io_enabled") (io_enabled (st_runtime value)) r in
  let r := response_flag (lit "time_enabled") (time_enabled (st_runtime value)) r in
  let r := raw [125] r in
  let r := response_text (lit "coverage") coverage r in
  response_finish (raw [125] r).

(** The number of the last event that was written. *)
Definition written_cursor (start : Z) (events : list Event) (count : nat) : Z :=
  match list.last (take count events) with Some e => sequence e | None => start end.

Definition events_response (o : SessionOptions) (id start : Z) (events : Events) : list Z :=
  let r := envelope (Some id) (max_message_bytes o) in
  let r := response_status (evs_status events) r in
  let r := raw (next_key (lit "events") ++ [91]) r in
  match entries_loop (encode_event (max_message_bytes o)) 39 (Z.of_nat (length (evs_events events)))
          (evs_events events) 0 r with
  | None => session_error o id (lit "record_too_large")
  | Some (count, r) =>
    let r := raw [93] r in
    let r := response_id (lit "next_cursor") (written_cursor start (evs_events events) count) r in
    default (session_error o id (lit "record_too_large")) (response_finish (raw [125] r))
  end.

(** A session and the store its handle reads. *)
Record Connection := mkConnection { session_of : Session; store_of : Store }.

Definition ConnectionM := M Connection Error.

(** A query: its error is a value, as [Result] is. *)
Definition ask {A} (m : StoreM A) : ConnectionM (result A Error) := fun c =>
  match m (store_of c) with
  | (Ret v, st) => (Ret (Ok v), mkConnection (session_of c) st)
  | (Fail e, st) => (Ret (Err e), mkConnection (session_of c) st)
  | (Panic, st) => (Panic, mkConnection (session_of c) st)
  | (OutOfFuel, st) => (OutOfFuel, mkConnection (session_of c) st)
  end.

Definition set_session (s : Session) : ConnectionM unit := modify (fun c => mkConnection s (store_of c)).
Definition get_session : ConnectionM Session := gets session_of.

Definition run_page (id : Z) : ConnectionM (list Z) :=
  let* s := get_session in
  let* answer := of_option (page id s) in
  do* set_session (snd answer);; ret (fst answer).

Section respond.
Context `{Sizes}.

(** [Session::respond] with the clock's readings at the call and at the
    capture of a snapshot. *)
Definition respond (now observed captured : Z) (request : Request) : ConnectionM (list Z) :=
  let id := request_id request in
  let* s := get_session in
  let o := s_options s in
  let fail error := session_error o id error in
  let expired := match snapshot_ s with Some _ => snapshot_lifetime o <=? Z.max 0 (now - captured_ s) | None => false end in
  do* (if expired
       then set_session (mkSession o None (captured_ s) (snapshot_id_ s) (page_ s) (hello_ s)) else ret tt);;
  let* s := get_session in
  match command request with
  | Hello =>
    let* value := ask handle_status in
    match value with
    | Err e => ret (fail (error_str e))
    | Ok value =>
      match hello_response o id value with
      | None => ret (fail (lit "record_too_large"))
      | Some text =>
        do* set_session (mkSession o (snapshot_ s) (captured_ s) (snapshot_id_ s) (page_ s) true);; ret text
      end
    end
  | SnapshotRequest | TaskRequest =>
    if negb (hello_ s) then ret (fail (lit "hello_required"))
    else
      let s := mkSession o None (captured_ s) (snapshot_id_ s) (page_ s) (hello_ s) in
      do* set_session s;;
      let* view := ask (match command request with
                        | TaskRequest => handle_task_snapshot observed (argument request) (max_snapshot_bytes o)
                        | _ => handle_snapshot observed (max_snapshot_bytes o)
                        end) in
      match view with
      | Err e => ret (fail (error_str e))
      | Ok view =>
        if snapshot_id_ s =? MAX u64 then ret (fail (lit "snapshot_expired"))
        else
          do* set_session (mkSession o (Some view) captured (snapshot_id_ s + 1) 0 (hello_ s));;
          run_page id
      end
  | SnapshotPage =>
    if negb (hello_ s) then ret (fail (lit "hello_required"))
    else if (match snapshot_ s with Some _ => false | None => true end) || negb (argument request =? snapshot_id_ s)
    then ret (fail (lit "snapshot_expired"))
    else run_page id
  | EventsRequest =>
    if negb (hello_ s) then ret (fail (lit "hello_required"))
    else
      let limit := match limit_of request with Some l => l | None => page_records o end in
      if (limit =? 0) || (page_records o <? limit) then ret (fail (lit "invalid_request"))
      else
        let* events := ask (handle_events (argument request) limit) in
        match events with
        | Err e => ret (fail (error_str e))
        | Ok events => ret (events_response o id (argument request) events)
        end
  end.
End respond.
