(* ===== verification/DebugRequest.v ===== *)
(** Which lines are requests: the scanner and the checks of [parse_request]
    against a grammar of words. *)

From Stdlib Require Import ZArith Lia ZifyBool.
From stdpp Require Import base list strings.
From S2P Require Import Prelude.
From S2P Require Import Int.
From S2P Require Import Utf8.
From S2P Require Import Str.
From S2P Require Import Fmt.
From S2P Require Import FloatSpec.
From S2P Require Import Cursor.
From S2P Require Import DebugStore.
From S2P Require Import DebugProtocol.

Local Open Scope Z_scope.
Local Open Scope rstd_scope.

(** ** Numbers *)

Definition decimal_digit (c : Z) : Prop := 48 <= c <= 57.

(** Digits, leading zeros allowed, of a number that 64 bits hold. *)
Definition number_word (t : list Z) (v : Z) : Prop :=
  t <> [] /\ Forall decimal_digit t /\ digits_value 0 t = v /\ v <= MAX u64.

Lemma digits_value_le t : Forall decimal_digit t -> forall acc, 0 <= acc -> acc <= digits_value acc t.
Proof.
  induction 1 as [|c t Hc _ IH]; intros acc Ha; [done|]. cbn [digits_value].
  unfold decimal_digit in Hc. specialize (IH (acc * 10 + (c - 48)) ltac:(lia)). lia.
Qed.

Lemma number_loop_exact t v : forall acc, 0 <= acc <= MAX u64 ->
  number_loop t acc = Some v <-> Forall decimal_digit t /\ digits_value acc t = v /\ v <= MAX u64.
Proof.
  induction t as [|c t IH]; intros acc Ha; cbn [number_loop digits_value].
  { split; [intros [= <-]; split; [constructor|]; split; [done|lia] | by intros (_ & -> & _)]. }
  unfold decimal_digit in *. destruct ((c <? 48) || (57 <? c)) eqn:Hc; cbn [orb].
  { split; [done|]. intros (Hf & _). apply Forall_cons_1 in Hf as [? _]. lia. }
  assert (48 <= c <= 57) as Hd by lia.
  destruct ((MAX u64 - (c - 48)) / 10 <? acc) eqn:Hm.
  - split; [done|]. intros (Hf & <- & Hv). apply Forall_cons_1 in Hf as [_ Hf]. exfalso.
    pose proof (digits_value_le t Hf (acc * 10 + (c - 48)) ltac:(lia)).
    apply Z.ltb_lt in Hm. pose proof (Z.div_lt_upper_bound (MAX u64 - (c - 48)) 10 (acc + 0) ltac:(lia)).
    pose proof (Z.mul_succ_div_gt (MAX u64 - (c - 48)) 10 ltac:(lia)). nia.
  - apply Z.ltb_ge in Hm. assert (acc * 10 + (c - 48) <= MAX u64) as Hle.
    { pose proof (Z.mul_div_le (MAX u64 - (c - 48)) 10 ltac:(lia)). lia. }
    replace (acc * 10 + c - 48) with (acc * 10 + (c - 48)) by lia. rewrite IH by lia.
    assert (Forall (fun c => 48 <= c <= 57) (c :: t) <-> Forall (fun c => 48 <= c <= 57) t) as ->; [|done].
    split; [by intros [_ ?]%Forall_cons_1 | by constructor].
Qed.

Lemma number_exact t v : number t = Some v <-> number_word t v.
Proof.
  unfold number, number_word. destruct t as [|c t].
  - split; [done|]. by intros [? _].
  - rewrite number_loop_exact by (by vm_compute). split; [intros (? & ? & ?); split; [done|]; by split | tauto].
Qed.

(** ** Words *)

Definition word_byte (c : Z) : bool := (0x21 <=? c) && (c <=? 0x7e).

Definition word (w : list Z) : Prop := w <> [] /\ Forall (fun c => word_byte c = true) w.

(** The words of a line, with one space between them. *)
Fixpoint spaced (ws : list (list Z)) : list Z :=
  match ws with
  | [] => []
  | [w] => w
  | w :: ws => w ++ 32 :: spaced ws
  end.

Fixpoint words_of (line : list Z) : list (list Z) :=
  match line with
  | [] => [[]]
  | c :: line =>
    if c =? 32 then [] :: words_of line
    else match words_of line with w :: ws => (c :: w) :: ws | [] => [[c]] end
  end.

Lemma words_of_cons line : exists w ws, words_of line = w :: ws.
Proof.
  destruct line as [|c line]; cbn; [by eexists _, _|]. destruct (c =? 32); [by eexists _, _|].
  destruct (words_of line); by eexists _, _.
Qed.

Lemma spaced_cons w ws : ws <> [] -> spaced (w :: ws) = w ++ 32 :: spaced ws.
Proof. by destruct ws. Qed.

Lemma spaced_words line : spaced (words_of line) = line.
Proof.
  induction line as [|c line IH]; [done|]. cbn [words_of]. destruct (words_of_cons line) as (w & ws & E).
  rewrite E in *. destruct (Z.eqb_spec c 32) as [->|Hc].
  - rewrite spaced_cons by done. cbn. by f_equal.
  - destruct ws as [|w' ws]; [cbn in *; by f_equal|]. rewrite spaced_cons in * by done. cbn. by f_equal.
Qed.

Lemma words_app w line : Forall (fun c => word_byte c = true) w ->
  words_of (w ++ line) = match words_of line with w' :: ws => (w ++ w') :: ws | [] => [w] end.
Proof.
  destruct (words_of_cons line) as (w' & ws & E). rewrite E.
  induction 1 as [|c w Hc _ IH]; [done|]. cbn [app words_of]. rewrite IH.
  destruct (Z.eqb_spec c 32); [subst; discriminate | done].
Qed.

Lemma words_spaced ws : ws <> [] -> Forall word ws -> words_of (spaced ws) = ws.
Proof.
  intros Hne Hws. induction Hws as [|w ws [_ Hw] Hws IH]; [done|]. destruct ws as [|w' ws].
  - cbn [spaced]. rewrite <- (app_nil_r w) at 1. rewrite words_app by done. cbn. by rewrite app_nil_r.
  - rewrite spaced_cons, words_app by done. cbn [words_of Z.eqb Pos.eqb]. rewrite IH by done. by rewrite app_nil_r.
Qed.

(** ** The scanner *)

Fixpoint scan (ws : list (list Z)) (tokens : list (list Z)) (id : option Z)
    : outcome RequestError (list (list Z) * option Z) :=
  match ws with
  | [] => Ret (tokens, id)
  | w :: ws =>
    if negb (forallb word_byte w) || (length w =? 0)%nat || (length tokens =? 5)%nat
    then parse_error (lit "invalid_request") id
    else
      let tokens := tokens ++ [w] in
      if (length tokens =? 2)%nat then
        match number w with
        | None => parse_error (lit "invalid_request") None
        | Some v => if v =? 0 then parse_error (lit "invalid_request") None else scan ws tokens (Some v)
        end
      else scan ws tokens id
  end.

Lemma split_loop_scan line : forall s offset begin p tokens id,
  drop offset line = s -> (begin <= offset <= length line)%nat -> slice line begin offset = p ->
  forallb word_byte p = true ->
  split_loop (length s + 1) offset begin line tokens id =
  match words_of s with w :: ws => scan ((p ++ w) :: ws) tokens id | [] => Ret (tokens, id) end.
Proof.
  induction s as [|c s IH]; intros offset begin p tokens id Hd Hb Hp Hg; cbn [length Nat.add split_loop].
  - assert (offset = length line) as -> by (apply (f_equal length) in Hd; rewrite length_drop in Hd; cbn in Hd; lia).
    rewrite lookup_ge_None_2 by lia. cbn [words_of scan]. rewrite app_nil_r, Hg. cbn [negb orb].
    assert (length p = length line - begin)%nat as Hlp.
    { rewrite <- Hp. unfold slice. rewrite length_take, length_drop. lia. }
    replace (length line =? begin)%nat with (length p =? 0)%nat by lia.
    rewrite Hp. by destruct ((length p =? 0)%nat || (length tokens =? 5)%nat).
  - assert (line !! offset = Some c) as Hc by (by rewrite <- (Nat.add_0_r offset), <- lookup_drop, Hd).
    assert (drop (offset + 1) line = s) as Hd' by (by rewrite <- drop_drop, Hd).
    pose proof (lookup_lt_Some _ _ _ Hc) as Hlt. rewrite Hc. change (default 0 (Some c)) with c. cbn [words_of].
    destruct (words_of_cons s) as (w & ws & E). destruct (Z.eqb_spec c 32) as [->|Hc32]; cbn [negb].
    + assert (length p = offset - begin)%nat as Hlp.
      { rewrite <- Hp. unfold slice. rewrite length_take, length_drop. lia. }
      cbn [scan]. rewrite app_nil_r, Hg. cbn [negb orb]. replace (offset =? begin)%nat with (length p =? 0)%nat by lia.
      destruct ((length p =? 0)%nat || (length tokens =? 5)%nat); [done|]. rewrite Hp.
      assert (forall tokens id, split_loop (length s + 1) (offset + 1) (offset + 1) line tokens id = scan (words_of s) tokens id) as Hnext.
      { intros tk i. rewrite (IH (offset + 1)%nat (offset + 1)%nat []); [by rewrite E|done|lia| |done].
        unfold slice. by rewrite Nat.sub_diag. }
      rewrite !Nat.add_1_r in Hnext. rewrite ?Nat.add_1_r. 
      destruct (length (tokens ++ [p]) =? 2)%nat; [|apply Hnext].
      destruct (number p) as [v|]; [|done]. destruct (v =? 0); [done|apply Hnext].
    + rewrite E. destruct ((c <? 33) || (126 <? c)) eqn:Hbad.
      * cbn [scan]. rewrite forallb_app. cbn [forallb]. replace (word_byte c) with false by (unfold word_byte; lia).
        cbn [andb]. rewrite andb_false_r. done.
      * rewrite ?Nat.add_1_r in *. rewrite (IH (S offset) begin (p ++ [c])); [rewrite E; by rewrite <- app_assoc|done|lia| |].
        -- unfold slice in *. replace (S offset - begin)%nat with (S (offset - begin)) by lia. rewrite <- Hp.
           apply take_S_r. rewrite lookup_drop. by replace (begin + (offset - begin))%nat with offset by lia.
        -- rewrite forallb_app, Hg. cbn. unfold word_byte. lia.
Qed.

Definition wordb (w : list Z) : bool := forallb word_byte w && negb (length w =? 0)%nat.

Lemma wordb_spec w : wordb w = true <-> word w.
Proof.
  unfold wordb, word. rewrite andb_true_iff, negb_true_iff, Nat.eqb_neq, forallb_forall, list.Forall_forall.
  split; intros [H1 H2]; split.
  - by intros ->.
  - intros c Hc. by apply H1, list_elem_of_In.
  - intros c Hc. by apply H2, list_elem_of_In.
  - destruct w; [done | cbn; lia].
Qed.

Lemma words_ok ws : forallb wordb ws = true <-> Forall word ws.
Proof.
  rewrite forallb_forall, list.Forall_forall. split; intros H w Hw; apply wordb_spec, H, list_elem_of_In; [done|].
  by apply list_elem_of_In, list_elem_of_In.
Qed.

Lemma scan_rest ws : forall tokens id, (2 <= length tokens <= 5)%nat ->
  scan ws tokens id =
  if forallb wordb ws && (length tokens + length ws <=? 5)%nat
  then Ret (tokens ++ ws, id) else parse_error (lit "invalid_request") id.
Proof.
  induction ws as [|w ws IH]; intros tokens id Hl; cbn [scan forallb length].
  { rewrite app_nil_r, Nat.add_0_r. by replace (length tokens <=? 5)%nat with true by lia. }
  unfold wordb at 1. destruct (forallb word_byte w && negb (length w =? 0)%nat) eqn:Hw.
  - apply andb_true_iff in Hw as [-> Hw]. apply negb_true_iff in Hw as ->. cbn [negb orb andb].
    destruct (Nat.eqb_spec (length tokens) 5) as [H5|H5].
    + rewrite H5. by destruct (forallb wordb ws).
    + rewrite length_app. cbn [length]. replace (length tokens + 1 =? 2)%nat with false by lia.
      rewrite IH by (rewrite length_app; cbn; lia). rewrite length_app, <- app_assoc. cbn [length app].
      by replace (length tokens + 1 + length ws)%nat with (length tokens + S (length ws))%nat by lia.
  - replace (negb (forallb word_byte w) || (length w =? 0)%nat) with true; [done|].
    destruct (forallb word_byte w), (length w =? 0)%nat; done.
Qed.

(** ** Requests *)

Inductive request_words : list (list Z) -> Request -> Prop :=
| rw_hello v i id : number_word v VERSION -> number_word i id -> id <> 0 ->
    request_words [v; i; lit "hello"] (mkRequest id Hello 0 None)
| rw_snapshot v i id : number_word v VERSION -> number_word i id -> id <> 0 ->
    request_words [v; i; lit "snapshot"] (mkRequest id SnapshotRequest 0 None)
| rw_page v i id a n : number_word v VERSION -> number_word i id -> id <> 0 -> number_word a n ->
    request_words [v; i; lit "snapshot_page"; a] (mkRequest id SnapshotPage n None)
| rw_task v i id a n : number_word v VERSION -> number_word i id -> id <> 0 -> number_word a n ->
    request_words [v; i; lit "task"; a] (mkRequest id TaskRequest n None)
| rw_events v i id a n : number_word v VERSION -> number_word i id -> id <> 0 -> number_word a n ->
    request_words [v; i; lit "events"; a] (mkRequest id EventsRequest n None)
| rw_events_limit v i id a n l limit : number_word v VERSION -> number_word i id -> id <> 0 -> number_word a n ->
    number_word l limit -> limit <> 0 ->
    request_words [v; i; lit "events"; a; l] (mkRequest id EventsRequest n (Some limit)).

Lemma parse_scan line : line <> [] ->
  parse_request line = obind (scan (words_of line) [] None) (fun words => parse_words (fst words) (snd words)).
Proof.
  intros Hl. unfold parse_request. destruct line as [|c line]; [done|]. f_equal.
  rewrite (split_loop_scan (c :: line) (c :: line) 0 0 []) by (done || (cbn; lia)).
  by destruct (words_of (c :: line)).
Qed.

(** The scan of a whole line. *)
Lemma scan_words ws : ws <> [] ->
  scan ws [] None =
  match ws with
  | v :: i :: rest =>
    if negb (wordb v) || negb (wordb i) then parse_error (lit "invalid_request") None
    else match number i with
         | Some id =>
           if id =? 0 then parse_error (lit "invalid_request") None
           else if forallb wordb rest && (length rest <=? 3)%nat then Ret (ws, Some id)
                else parse_error (lit "invalid_request") (Some id)
         | None => parse_error (lit "invalid_request") None
         end
  | _ => if forallb wordb ws then Ret (ws, None) else parse_error (lit "invalid_request") None
  end.
Proof.
  assert (forall w, negb (forallb word_byte w) || (length w =? 0)%nat = negb (wordb w)) as Hneg
    by (intros w; unfold wordb; by destruct (forallb word_byte w), (length w =? 0)%nat).
  destruct ws as [|v [|i rest]]; intros Hne; [done| |]; cbn [scan length app].
  - rewrite Hneg. cbn. rewrite orb_false_r. by destruct (wordb v).
  - rewrite !Hneg. cbn [Nat.eqb]. rewrite !orb_false_r. destruct (wordb v); cbn [negb orb]; [|done].
    cbn [length app Nat.eqb]. rewrite ?orb_false_r. destruct (wordb i); cbn [negb orb]; [|done].
    destruct (number i) as [id|]; [|done]. destruct (id =? 0); [done|].
    rewrite scan_rest by (cbn; lia). done.
Qed.

Lemma word_text w : word w -> from_utf8 w = Ok w.
Proof.
  intros [_ Hw]. apply from_utf8_text, text_ascii. eapply List.Forall_impl; [|exact Hw].
  unfold word_byte. intros c Hc. cbn in Hc. lia.
Qed.

Lemma command_is_spec w name : command_is w name = true <-> w = lit name.
Proof. apply str_eq_spec. Qed.

Lemma command_is_same name : command_is (lit name) name = true.
Proof. by apply command_is_spec. Qed.

(** What the checks accept. *)
Lemma parse_words_sound ws id r :
  Forall word ws -> (3 <= length ws <= 5)%nat -> id <> 0 -> (forall i, ws !! 1%nat = Some i -> number_word i id) ->
  parse_words ws (Some id) = Ret r -> request_words ws r.
Proof.
  intros Hw Hl H0 Hid. unfold parse_words.
  destruct ws as [|v [|i [|c rest]]]; cbn [length] in Hl; [lia..|]. specialize (Hid i eq_refl).
  cbn [length Nat.ltb Nat.leb]. unfold index. cbn [lookup list_lookup obind].
  destruct (number v) as [version|] eqn:Hv; [|done]. apply number_exact in Hv.
  destruct (Z.eqb_spec version VERSION) as [->|]; [|done]. cbn [negb obind].
  rewrite word_text by (by apply Forall_cons_1 in Hw as [_ [_ [? _]%Forall_cons_1]%Forall_cons_1]). cbn [obind].
  destruct (command_is c "hello") eqn:C1; cbn [orb].
  { apply command_is_spec in C1 as ->. destruct rest; [|done]. intros [= <-]. by apply (rw_hello v i). }
  destruct (command_is c "snapshot") eqn:C2; cbn [orb].
  { apply command_is_spec in C2 as ->. destruct rest; [|done]. intros [= <-]. by apply (rw_snapshot v i). }
  destruct rest as [|a rest].
  { cbn [length Nat.ltb Nat.leb orb]. destruct (_ || _); done. }
  cbn [length Nat.ltb Nat.leb orb lookup list_lookup obind].
  assert (rest = [] \/ exists l, rest = [l]) as Hrest
    by (destruct rest as [|l [|? ?]]; [by left | right; by exists l | cbn in Hl; lia]).
  destruct (command_is c "snapshot_page") eqn:C3; [|destruct (command_is c "task") eqn:C4; [|destruct (command_is c "events") eqn:C5]];
    cbn [orb].
  4: by intros.
  1: apply command_is_spec in C3 as ->. 2: apply command_is_spec in C4 as ->. 3: apply command_is_spec in C5 as ->.
  1,2: destruct Hrest as [->|[l ->]]; [|done]; cbn; destruct (number a) as [n|] eqn:Ha; [|done];
    apply number_exact in Ha; intros [= <-].
  1: by apply (rw_page v i). 1: by apply (rw_task v i).
  destruct (number a) as [n|] eqn:Ha; [apply number_exact in Ha|by destruct Hrest as [->|[l ->]]].
  destruct Hrest as [->|[l ->]]; [intros [= <-]; by apply (rw_events v i)|]. cbn.
  destruct (number l) as [limit|] eqn:Hlim; [|done]. apply number_exact in Hlim.
  destruct (Z.eqb_spec limit 0); [done|]. intros [= <-]. by apply (rw_events_limit v i).
Qed.

Lemma parse_words_complete ws r : request_words ws r -> parse_words ws (Some (request_id r)) = Ret r.
Proof.
  intros Hr. destruct Hr as [v i id Hv Hi H0|v i id Hv Hi H0|v i id a n Hv Hi H0 Ha|v i id a n Hv Hi H0 Ha|
    v i id a n Hv Hi H0 Ha|v i id a n l limit Hv Hi H0 Ha Hl Hne]; apply number_exact in Hv.
  all: unfold parse_words; cbn [length Nat.ltb Nat.leb index lookup list_lookup obind request_id]; rewrite Hv;
    cbn [negb Z.eqb Pos.eqb VERSION obind].
  all: (rewrite word_text by (by apply wordb_spec)); cbn [obind]; try apply number_exact in Ha; try rewrite Ha; try done.
  apply number_exact in Hl. cbn. rewrite Hl. by destruct (Z.eqb_spec limit 0).
Qed.

(** The errors of the parser. *)
Definition parse_errors : list (list Z) := [lit "invalid_request"; lit "unsupported_version"; lit "invalid_cursor"].

Lemma refused {A} e id : bool_decide (e ∈ parse_errors) = true ->
  match parse_error (A := A) e id with Ret _ => True | Fail x => error_request_id x = id /\ message x ∈ parse_errors | _ => False end.
Proof. intros He. split; [done|]. by apply bool_decide_eq_true_1 in He. Qed.

Lemma refused_id e : bool_decide (e ∈ parse_errors) = true -> e ∈ parse_errors.
Proof. apply bool_decide_eq_true_1. Qed.

Lemma parse_words_settles ws id : Forall word ws -> (id = None -> (length ws < 3)%nat) ->
  match parse_words ws id with Ret _ => True | Fail e => error_request_id e = id /\ message e ∈ parse_errors | _ => False end.
Proof.
  intros Hw Hid. unfold parse_words, index. destruct (Nat.ltb_spec (length ws) 3) as [|Hl]; [by apply refused|].
  destruct id as [id|]; [|specialize (Hid eq_refl); lia].
  destruct ws as [|v [|i [|c rest]]]; cbn [length] in Hl; [lia..|].
  cbn [lookup list_lookup obind]. destruct (number v) as [version|]; [|by apply refused].
  destruct (version =? VERSION); [|by apply refused].
  cbn [negb obind]. rewrite word_text by (by apply Forall_cons_1 in Hw as [_ [_ [? _]%Forall_cons_1]%Forall_cons_1]).
  cbn [obind length]. destruct (_ || _); [destruct (_ =? 3)%nat; [done|by apply refused]|]. destruct (_ || _); [|by apply refused].
  destruct rest as [|a rest]; [by apply refused|]. destruct (_ || _); [by apply refused|]. cbn [lookup list_lookup obind].
  destruct (number a); [|by destruct (command_is c "events"); apply refused]. destruct (_ =? 5)%nat eqn:H5; [|done].
  destruct rest as [|l rest]; [done|]. cbn [lookup list_lookup obind]. destruct (number l) as [limit|]; [|by apply refused].
  destruct (limit =? 0); [by apply refused|done].
Qed.

Lemma request_words_scan ws r : request_words ws r -> Forall word ws ->
  scan ws [] None = Ret (ws, Some (request_id r)).
Proof.
  intros Hr Hw. rewrite scan_words by (by destruct Hr). apply words_ok in Hw.
  assert (exists v i rest, ws = v :: i :: rest /\ number_word i (request_id r) /\ request_id r <> 0 /\ (length rest <= 3)%nat)
    as (v & i & rest & -> & Hi & H0 & Hl) by (destruct Hr; eexists _, _, _; (split; [reflexivity|split; [done|split; [done|cbn; lia]]])).
  cbn [forallb] in Hw. apply andb_true_iff in Hw as [-> [-> ->]%andb_true_iff]. cbn [negb orb andb].
  apply number_exact in Hi as ->. destruct (Z.eqb_spec (request_id r) 0); [done|].
  by replace (length rest <=? 3)%nat with true by lia.
Qed.

Lemma parse_request_settles line :
  match parse_request line with
  | Ret _ => True
  | Fail e => message e ∈ parse_errors /\ forall id, error_request_id e = Some id ->
      exists v i rest, words_of line = v :: i :: rest /\ number_word i id /\ id <> 0
  | _ => False
  end.
Proof.
  assert (forall id, id = None -> forall id', id = Some id' -> exists v i rest, words_of line = v :: i :: rest /\ number_word i id' /\ id' <> 0)
    as Hnone by (by intros ? ->).
  assert (lit "invalid_request" ∈ parse_errors) as Hin by (by apply refused_id; vm_compute).
  destruct line as [|c line]; [done|]. rewrite parse_scan by done. set (ws := words_of (c :: line)) in *.
  rewrite scan_words by (by destruct (words_of_cons (c :: line)) as (? & ? & E); subst ws; rewrite E).
  destruct ws as [|v [|i rest]] eqn:Ews; [done|by cbn; destruct (wordb v)|].
  destruct (wordb v) eqn:Wv; cbn [negb orb]; [|done]. destruct (wordb i) eqn:Wi; cbn [negb]; [|done].
  destruct (number i) as [id|] eqn:Hi; [|done]. apply number_exact in Hi.
  destruct (Z.eqb_spec id 0) as [|H0]; [done|].
  assert (forall id', Some id = Some id' -> exists v' i' rest', v :: i :: rest = v' :: i' :: rest' /\ number_word i' id' /\ id' <> 0) as Hid
    by (intros ? [= <-]; by exists v, i, rest).
  destruct (forallb wordb rest) eqn:Wr; cbn [andb]; [|done]. destruct (length rest <=? 3)%nat eqn:Hl; [|done].
  cbn [obind fst snd].
  assert (Forall word (v :: i :: rest)) as Hw by (apply words_ok; cbn; by rewrite Wv, Wi).
  pose proof (parse_words_settles (v :: i :: rest) (Some id) Hw ltac:(done)) as Hp.
  destruct (parse_words _ _) as [r|e| |]; [done| |done|done]. destruct Hp as [-> Hm]. by split.
Qed.

(** C22: a line is a request exactly when it consists of the protocol's words:
    printable words with one space between them, the version, an id that is
    not zero, a command and its arguments, each number one that 64 bits hold.
    Every other line is refused with an error; the error carries an id only
    if the line's second word is that id.  No line makes the parser panic. *)
Theorem debug_parse_request_exact line :
  (forall r, parse_request line = Ret r <->
     exists ws, line = spaced ws /\ Forall word ws /\ request_words ws r) /\
  match parse_request line with
  | Ret _ => True
  | Fail e => message e ∈ parse_errors /\ forall id, error_request_id e = Some id ->
      exists v i rest, words_of line = v :: i :: rest /\ number_word i id /\ id <> 0
  | _ => False
  end.
Proof.
  split.
  - intros r. split.
    + destruct line as [|c line]; [done|]. rewrite parse_scan by done.
      set (ws := words_of (c :: line)). assert (spaced ws = c :: line) as Hs by apply spaced_words.
      rewrite scan_words by (by destruct (words_of_cons (c :: line)) as (? & ? & E); subst ws; rewrite E).
      destruct ws as [|v [|i rest]] eqn:Ews; [done|by cbn; destruct (wordb v)|].
      destruct (wordb v) eqn:Wv; cbn [negb orb]; [|done]. destruct (wordb i) eqn:Wi; cbn [negb]; [|done].
      destruct (number i) as [id|] eqn:Hi; [|done]. apply number_exact in Hi.
      destruct (Z.eqb_spec id 0) as [|H0]; [done|].
      destruct (forallb wordb rest) eqn:Wr; cbn [andb]; [|done]. destruct (length rest <=? 3)%nat eqn:Hl; [|done]. cbn [obind fst snd].
      intros Hp. exists (v :: i :: rest). split; [done|].
      assert (Forall word (v :: i :: rest)) as Hw by (apply words_ok; cbn; by rewrite Wv, Wi).
      split; [done|]. destruct rest as [|c2 rest]; [done|].
      apply (parse_words_sound _ id); [done|cbn in *; lia|done|by intros ? [= <-]|done].
    + intros (ws & -> & Hw & Hr). assert (ws <> []) as Hne by (by destruct Hr).
      rewrite parse_scan.
      * rewrite words_spaced by done. rewrite (request_words_scan ws r) by done. cbn. by apply parse_words_complete.
      * intros E. pose proof (words_spaced ws Hne Hw) as Hws. rewrite E in Hws. cbn in Hws. subst ws. inversion Hr.
  - apply parse_request_settles.
Qed.

Lemma debug_parse_request_exact_witness :
  exists r, parse_request (lit "2 7 events 0012 3") = Ret r /\
  exists ws, lit "2 7 events 0012 3" = spaced ws /\ Forall word ws /\ request_words ws r.
Proof.
  exists (mkRequest 7 EventsRequest 12 (Some 3)). split; [by vm_compute|].
  apply debug_parse_request_exact. by vm_compute.
Defined.
