(* ===== verification/DebugMessages.v ===== *)
(** The texts the diagnostics send, as JSON values: what a value is printed
    as, that the printed text is a one-line document of the JSON grammar which
    the repository's own reader reads back, and that the bounded buffer of
    [DebugProtocol] writes either the whole text or nothing. *)

From Stdlib Require Import ZArith Lia ZifyBool Ascii.
From stdpp Require Import base list strings.
From S2P Require Import Prelude.
From S2P Require Import Int.
From S2P Require Import Utf8.
From S2P Require Import OrdMap.
From S2P Require Import FloatSpec.
From S2P Require Import Dec2Flt.
From S2P Require Import Dec2FltSpec.
From S2P Require Import Dec2FltSpec.
From S2P Require Import Str.
From S2P Require Import Fmt.
From S2P Require Import FmtInteger.
From S2P Require Import FmtSpec.
From S2P Require Import Json.
From S2P Require Import JsonReader.
From S2P Require Import JsonParser.
From S2P Require Import JsonGrammar.
From S2P Require Import JsonRun.
From S2P Require Import JsonGrammar.
From S2P Require Import JsonSpec.
From S2P Require Import DebugStore.
From S2P Require Import DebugCollector.
From S2P Require Import DebugProtocol.

Local Open Scope Z_scope.

(** ** Values and their texts *)

(** Ids are numbers in quotes: a 64-bit number does not survive every reader
    of JSON. *)
#[warnings="-register-all"] Inductive Shown :=
| ShNumber (v : Z)
| ShId (v : Z)
| ShText (s : list Z)
| ShFlag (b : bool)
| ShArray (vs : list Shown)
| ShObject (ms : list (list Z * Shown)).

Section ShownInd.
Context (P : Shown -> Prop).
Context (HNumber : forall v, P (ShNumber v)) (HId : forall v, P (ShId v)) (HText : forall s, P (ShText s))
  (HFlag : forall b, P (ShFlag b)) (HArray : forall vs, Forall P vs -> P (ShArray vs))
  (HObject : forall ms, Forall (fun m => P (snd m)) ms -> P (ShObject ms)).

Fixpoint Shown_ind' (j : Shown) : P j :=
  match j with
  | ShNumber v => HNumber v
  | ShId v => HId v
  | ShText s => HText s
  | ShFlag b => HFlag b
  | ShArray vs =>
    HArray vs ((fix go vs : Forall P vs :=
      match vs with
      | [] => List.Forall_nil _
      | v :: vs => @List.Forall_cons _ P v vs (Shown_ind' v) (go vs)
      end) vs)
  | ShObject ms =>
    HObject ms ((fix go ms : Forall (fun m => P (snd m)) ms :=
      match ms with
      | [] => List.Forall_nil _
      | m :: ms => @List.Forall_cons _ (fun m => P (snd m)) m ms (Shown_ind' (snd m)) (go ms)
      end) ms)
  end.
End ShownInd.

Definition decimal (v : Z) : list Z := format (lit "{}") [integer_argument u64 v].

Definition quote_byte (c : Z) : list Z :=
  if plain_byte c then [c]
  else if c =? 34 then [92; 34]
  else if c =? 92 then [92; 92]
  else [92; 117; 48; 48; hex_digit (Z.shiftr c 4); hex_digit (Z.land c 15)].

Definition quote_body (s : list Z) : list Z := concat (map quote_byte s).
Definition quote (s : list Z) : list Z := 34 :: quote_body s ++ [34].

Definition then_comma (ts : list (list Z)) : list Z := concat (map (cons 44) ts).
Definition commas (ts : list (list Z)) : list Z :=
  match ts with [] => [] | t :: ts => t ++ then_comma ts end.

Definition member_text (key text : list Z) : list Z := quote key ++ 58 :: text.

Fixpoint print (j : Shown) : list Z :=
  match j with
  | ShNumber v => decimal v
  | ShId v => 34 :: decimal v ++ [34]
  | ShText s => quote s
  | ShFlag b => if b then lit "true" else lit "false"
  | ShArray vs => 91 :: commas (map print vs) ++ [93]
  | ShObject ms => 123 :: commas (map (fun m => member_text (fst m) (print (snd m))) ms) ++ [125]
  end.

(** What a reader makes of it. *)
Fixpoint denote (j : Shown) : Value :=
  match j with
  | ShNumber v => VNumber (NUnsigned (wrap u64 v))
  | ShId v => VString (decimal v)
  | ShText s => VString s
  | ShFlag b => VBool b
  | ShArray vs => VArray (map denote vs)
  | ShObject ms => VObject (build_object (map (fun m => (fst m, denote (snd m))) ms))
  end.

(** Texts are bytes and the keys of an object are distinct. *)
Fixpoint tidy (j : Shown) : Prop :=
  match j with
  | ShText s => is_text s
  | ShArray vs => Forall id (map tidy vs)
  | ShObject ms => NoDup (map fst ms) /\ Forall is_text (map fst ms) /\ Forall id (map (fun m => tidy (snd m)) ms)
  | _ => True
  end.

Fixpoint height (j : Shown) : nat :=
  match j with
  | ShArray vs => S (list_max (map height vs))
  | ShObject ms => S (list_max (map (fun m => height (snd m)) ms))
  | _ => 0
  end.

(** ** Digits *)

Lemma decimal_denotes v : denotes 10 (wrap u64 v) (decimal v).
Proof.
  assert (in_range u64 (wrap u64 v) = true) as Hr by (by apply wrap_range).
  assert (0 <= wrap u64 v) as H0 by (unfold in_range in Hr; change (MIN u64) with 0 in Hr; lia).
  destruct (format_display u64 (wrap u64 v) eq_refl Hr H0) as (ds & Hd & He).
  enough (decimal v = ds) as -> by done. rewrite <- He. unfold decimal. do 2 f_equal.
  unfold integer_argument, integer_display. cbn [format_unsigned]. unfold integer_bits.
  assert (wrap u64 (wrap u64 v) = wrap u64 v) as Hw by (by apply wrap_id).
  change (format_unsigned u64) with u64. by rewrite Hw.
Qed.

Lemma decimal_number v : number_wf (NumberText false (decimal v) None None) /\
  number_units (NumberText false (decimal v) None None) = decimal v /\
  digits_value 0 (decimal v) = wrap u64 v.
Proof.
  destruct (decimal_denotes v) as (Hn & Hv & Hz). split; [|split].
  - split; [|done]. cbn [nt_integer]. destruct Hz as [->|(d & ds & E & Hd)]; [by left|right].
    rewrite E in *. apply Forall_cons_1 in Hn as [[H1 H2] Hn]. exists d, ds.
    destruct (decimal_digit d H1 H2) as [H3 _]. unfold is_dec in H3. split; [done|].
    split; [lia | by apply numeral_dec].
  - unfold number_units. cbn. by rewrite app_nil_r.
  - rewrite numeral_digits_value by done. done.
Qed.

Lemma decimal_dec v : dec_digits (decimal v).
Proof. apply numeral_dec, decimal_denotes. Qed.

Lemma decimal_length v : (1 <= length (decimal v) <= 20)%nat.
Proof.
  pose proof (decimal_denotes v) as Hd. split.
  - destruct Hd as (_ & _ & [->|(d & ds & -> & _)]); cbn; lia.
  - apply (denotes_length 10 (wrap u64 v)); [lia | done | | lia].
    assert (in_range u64 (wrap u64 v) = true) as Hr by (by apply wrap_range).
    unfold in_range in Hr. change (MAX u64) with 18446744073709551615 in Hr. change (10 ^ Z.of_nat 20) with 100000000000000000000. lia.
Qed.

(** ** The text is in the grammar *)

Section grammar.
Context (o : ParseOptions).

Definition says (d : Z) (t : list Z) (v : Value) : Prop := forall s, gvalue o jchars d t v s.

Lemma says_number d v : says d (decimal v) (VNumber (NUnsigned (wrap u64 v))).
Proof.
  intros s. destruct (decimal_number v) as (Hwf & Hu & Hv). rewrite <- Hu at 1. apply g_number; [done|].
  assert (in_range u64 (wrap u64 v) = true) as Hr by (by apply wrap_range).
  unfold number_value, nt_floating. cbn -[MAX wrap]. rewrite Hv.
  unfold in_range in Hr. apply andb_true_iff in Hr as [_ Hr]. by rewrite Hr.
Qed.

Lemma dec_plain c : is_dec c = true -> is_plain c = true.
Proof. unfold is_dec, is_plain. lia. Qed.

Lemma says_id d v : says d (34 :: decimal v ++ [34]) (VString (decimal v)).
Proof.
  intros s. apply g_string. rewrite <- (app_nil_r (decimal v)) at 1. rewrite <- (app_nil_r (decimal v)) at 2.
  apply jchars_chunk; [|constructor]. apply (List.Forall_impl _ dec_plain), decimal_dec.
Qed.

Lemma control_hex4 c : 0 <= c < 32 ->
  hex4 [48; 48; hex_digit (Z.shiftr c 4); hex_digit (Z.land c 15)] c.
Proof.
  intros Hc. assert (forallb (fun c =>
    bool_decide (hex_value (hex_digit (Z.shiftr c 4)) = Some (c / 16)) &&
    bool_decide (hex_value (hex_digit (Z.land c 15)) = Some (c mod 16))) (seqZ 0 32) = true) as Hf by (by vm_compute).
  rewrite forallb_forall in Hf. specialize (Hf c). rewrite <- list_elem_of_In, elem_of_seqZ in Hf.
  specialize (Hf ltac:(lia)). apply andb_true_iff in Hf as [H1%bool_decide_eq_true H2%bool_decide_eq_true].
  assert (c = 0 * 4096 + 0 * 256 + c / 16 * 16 + c mod 16) as Hsum by (pose proof (Z.div_mod c 16); lia).
  rewrite Hsum at 3. by apply hex4_intro.
Qed.

Lemma quote_says s : bytes_ok s -> jchars (quote_body s) s.
Proof.
  induction 1 as [|c s Hc _ IH]; [constructor|]. unfold is_byte in Hc.
  unfold quote_body. cbn [map concat]. fold (quote_body s). unfold quote_byte, plain_byte.
  destruct ((32 <=? c) && negb (c =? 34) && negb (c =? 92)) eqn:Hp.
  { apply jc_plain; [unfold is_plain; lia | done]. }
  destruct (c =? 34) eqn:E1; [apply Z.eqb_eq in E1 as ->; change (34 :: s) with (encode_utf8 34 ++ s); by apply (jc_escape 34)|].
  destruct (c =? 92) eqn:E2; [apply Z.eqb_eq in E2 as ->; change (92 :: s) with (encode_utf8 92 ++ s); by apply (jc_escape 92)|].
  assert (0 <= c < 32) as Hr by lia. pose proof (control_encode c Hr) as He.
  change (c :: s) with ([c] ++ s). rewrite <- He.
  apply (jc_unicode [48; 48; hex_digit (Z.shiftr c 4); hex_digit (Z.land c 15)]); [apply control_hex4; lia| | |done].
  - unfold is_high_surrogate. lia.
  - unfold is_low_surrogate. lia.
Qed.

Lemma says_text d s : bytes_ok s -> says d (quote s) (VString s).
Proof. intros Hs t. by apply g_string, quote_says. Qed.

Lemma says_elements d (es : list (list Z * Value)) s :
  Forall (fun e => says d (fst e) (snd e)) es ->
  gelems o jchars d false (then_comma (map fst es) ++ [93]) (map snd es) s.
Proof.
  induction 1 as [|[t v] es He _ IH] in s |- *; [apply (ge_end _ _ _ _ []); constructor|].
  cbn [map fst snd]. unfold then_comma. cbn [map concat]. fold (then_comma (map fst es)).
  rewrite <- app_assoc. apply (ge_next _ _ _ [] []); [constructor..|apply He|apply IH].
Qed.

Lemma says_array d (es : list (list Z * Value)) :
  1 < d -> Forall (fun e => says (d - 1) (fst e) (snd e)) es ->
  says d (91 :: commas (map fst es) ++ [93]) (VArray (map snd es)).
Proof.
  intros Hd He s. apply g_array; [done|]. destruct He as [|[t v] es He Hes]; [apply (ge_end _ _ _ _ []); constructor|].
  cbn. rewrite <- app_assoc. apply (ge_first _ _ _ []); [constructor|apply He|]. by apply says_elements.
Qed.

Definition says_member (d : Z) (m : list Z * list Z * Value) : Prop :=
  bytes_ok m.1.1 /\ says d m.1.2 m.2.

Lemma says_gmember d m s : says_member d m -> gmember o jchars d (member_text m.1.1 m.1.2) m.1.1 m.2 s.
Proof.
  intros [Hk Hv]. apply (gm_member _ _ _ _ _ [] []); [by apply quote_says|constructor..|apply Hv].
Qed.

Lemma says_members d ms s :
  Forall (says_member d) ms ->
  gmembers o jchars d false (then_comma (map (fun m => member_text m.1.1 m.1.2) ms) ++ [125])
    (map (fun m => (m.1.1, m.2)) ms) s.
Proof.
  induction 1 as [|m ms Hm _ IH] in s |- *; [apply (gm_end _ _ _ _ []); constructor|].
  cbn [map]. unfold then_comma. cbn [map concat]. fold (then_comma (map (fun m => member_text m.1.1 m.1.2) ms)).
  rewrite <- app_assoc. apply (gm_next _ _ _ [] []); [constructor..|by apply says_gmember|apply IH].
Qed.

Lemma says_object d ms :
  1 < d -> NoDup (map (fun m => m.1.1) ms) -> Forall (says_member (d - 1)) ms ->
  says d (123 :: commas (map (fun m => member_text m.1.1 m.1.2) ms) ++ [125])
    (VObject (build_object (map (fun m => (m.1.1, m.2)) ms))).
Proof.
  intros Hd Hk Hm s. apply g_object; [done| |].
  - destruct Hm as [|m ms Hm Hms]; [apply (gm_end _ _ _ _ []); constructor|].
    cbn [map commas]. rewrite <- app_assoc. apply (gm_first _ _ _ []); [constructor|by apply says_gmember|].
    by apply says_members.
  - intros _. by rewrite map_map.
Qed.

Lemma print_says j : forall d, tidy j -> Z.of_nat (height j) < d -> says d (print j) (denote j).
Proof.
  induction j as [v|v|s|b|vs IH|ms IH] using Shown_ind'; intros d Ht Hh; cbn [print denote height tidy] in *.
  - apply says_number.
  - apply says_id.
  - apply says_text, is_text_bytes_ok, Ht.
  - destruct b; intros s; constructor.
  - pose proof (says_array d (map (fun v => (print v, denote v)) vs)) as HA.
    rewrite !map_map in HA. apply HA; [lia|]. rewrite Forall_map in *. rewrite list.Forall_forall in *.
    intros v Hv. apply IH; [done|by apply Ht|]. pose proof (below_list_max height _ _ Hv). lia.
  - destruct Ht as (Hk & Hb & Ht).
    pose proof (says_object d (map (fun m => ((fst m, print (snd m)), denote (snd m))) ms)) as HA.
    rewrite !map_map in HA. apply HA; [lia|done|]. rewrite Forall_map in Hb, Ht |- *.
    rewrite list.Forall_forall in *. intros m Hm. split; [by apply is_text_bytes_ok, Hb|].
    apply IH; [done|by apply Ht|]. pose proof (below_list_max (fun m => height (snd m)) _ _ Hm). cbn in *. lia.
Qed.
End grammar.

(** ** One line of text *)

Definition one_line (s : list Z) : Prop := Forall (fun c => 0x20 <= c) s.

Lemma hex_digit_range i : i < 16 -> 48 <= hex_digit i < 103.
Proof.
  intros Hi. assert (Forall (fun c => 48 <= c < 103) (lit "0123456789abcdef")) as Hd
    by (repeat (constructor; [cbn; lia|]); constructor).
  unfold hex_digit. destruct (lit "0123456789abcdef" !! Z.to_nat i) eqn:E; cbn.
  - by apply (Forall_lookup_1 _ _ _ _ Hd E).
  - apply lookup_ge_None in E. change (length (lit "0123456789abcdef")) with 16%nat in E. lia.
Qed.

Lemma control_digits c : plain_byte c = false -> c <> 34 -> c <> 92 ->
  48 <= hex_digit (Z.shiftr c 4) < 103 /\ 48 <= hex_digit (Z.land c 15) < 103.
Proof.
  unfold plain_byte. intros Hp H1 H2. pose proof (Z.mod_pos_bound c 16 ltac:(lia)).
  split; apply hex_digit_range.
  - rewrite Z.shiftr_div_pow2 by lia. change (2 ^ 4) with 16. apply Z.div_lt_upper_bound; lia.
  - change 15 with (2 ^ 4 - 1). rewrite land_mask by lia. change (2 ^ 4) with 16. lia.
Qed.

Lemma one_line_app a b : one_line a -> one_line b -> one_line (a ++ b).
Proof. intros. by apply Forall_app. Qed.

Lemma one_line_cons c s : 0x20 <= c -> one_line s -> one_line (c :: s).
Proof. by constructor. Qed.

Lemma one_line_nil : one_line [].
Proof. constructor. Qed.

Lemma one_line_concat l : Forall one_line l -> one_line (concat l).
Proof. induction 1; [constructor|by apply one_line_app]. Qed.

Lemma quote_byte_line c : one_line (quote_byte c).
Proof.
  unfold quote_byte. destruct (plain_byte c) eqn:Hp; [unfold plain_byte in Hp; apply one_line_cons; [lia | constructor]|].
  destruct (Z.eqb_spec c 34); [repeat constructor; lia|]. destruct (Z.eqb_spec c 92); [repeat constructor; lia|].
  destruct (control_digits c); [done..|]. repeat (apply one_line_cons; [lia|]). constructor.
Qed.

Lemma quote_line s : one_line (quote s).
Proof.
  apply one_line_cons; [lia|]. apply one_line_app; [|apply one_line_cons; [lia | apply one_line_nil]].
  apply one_line_concat, Forall_map, list.Forall_forall. intros c _. apply quote_byte_line.
Qed.

Lemma decimal_line v : one_line (decimal v).
Proof. eapply List.Forall_impl; [|apply decimal_dec]. unfold is_dec. intros c Hc. cbn in Hc. lia. Qed.

Lemma then_comma_line ts : Forall one_line ts -> one_line (then_comma ts).
Proof.
  intros Ht. apply one_line_concat, Forall_map. eapply List.Forall_impl; [|exact Ht].
  intros t Hl. by apply one_line_cons.
Qed.

Lemma commas_line ts : Forall one_line ts -> one_line (commas ts).
Proof. destruct 1; [constructor|]. apply one_line_app; [done | by apply then_comma_line]. Qed.

Lemma member_line k t : one_line t -> one_line (member_text k t).
Proof. intros. apply one_line_app; [apply quote_line | by apply one_line_cons]. Qed.

Lemma print_line j : one_line (print j).
Proof.
  induction j as [v|v|s|b|vs IH|ms IH] using Shown_ind'; cbn [print].
  - apply decimal_line.
  - apply one_line_cons; [lia|]. apply one_line_app; [apply decimal_line | by repeat constructor].
  - apply quote_line.
  - destruct b; repeat (apply one_line_cons; [cbn; lia|]); apply one_line_nil.
  - apply one_line_cons; [lia|]. apply one_line_app; [|by repeat constructor].
    by apply commas_line, Forall_map.
  - apply one_line_cons; [lia|]. apply one_line_app; [|by repeat constructor].
    apply commas_line, Forall_map. eapply List.Forall_impl; [|exact IH].
    intros m. apply member_line.
Qed.

(** ** UTF-8 *)

Lemma quote_byte_text c : 0 <= c < 128 -> is_text (quote_byte c).
Proof.
  intros Hc. apply text_ascii. unfold quote_byte. destruct (plain_byte c) eqn:Hp; [repeat constructor; lia|].
  destruct (Z.eqb_spec c 34); [repeat constructor; lia|]. destruct (Z.eqb_spec c 92); [repeat constructor; lia|].
  destruct (control_digits c); [done..|]. repeat (constructor; [lia|]). constructor.
Qed.

Lemma quote_byte_high c : 128 <= c -> quote_byte c = [c].
Proof. intros Hc. unfold quote_byte, plain_byte. by replace ((32 <=? c) && negb (c =? 34) && negb (c =? 92)) with true by lia. Qed.

Lemma quote_body_app a b : quote_body (a ++ b) = quote_body a ++ quote_body b.
Proof. unfold quote_body. by rewrite map_app, concat_app. Qed.

Lemma quote_body_text s : is_text s -> is_text (quote_body s).
Proof. apply concat_map_text; [apply quote_byte_text|apply quote_byte_high]. Qed.

Lemma quote_text s : is_text s -> is_text (quote s).
Proof.
  intros. apply text_ascii_cons; [lia|]. apply is_text_app; [by apply quote_body_text|].
  apply text_ascii_cons; [lia | apply is_text_nil].
Qed.

Lemma decimal_text v : is_text (decimal v).
Proof. eapply denotes_text, decimal_denotes. Qed.

Lemma commas_text ts : Forall is_text ts -> is_text (commas ts).
Proof.
  destruct 1 as [|t ts Ht Hts]; [apply is_text_nil|]. apply is_text_app; [done|].
  induction Hts as [|u ts Hu _ IH]; [apply is_text_nil|]. unfold then_comma in *. cbn [map concat].
  apply is_text_app; [|done]. by apply text_ascii_cons.
Qed.

Lemma print_text j : tidy j -> is_text (print j).
Proof.
  induction j as [v|v|s|b|vs IH|ms IH] using Shown_ind'; cbn [print tidy]; intros Ht.
  - apply decimal_text.
  - apply text_ascii_cons; [lia|]. apply is_text_app; [apply decimal_text|]. apply text_ascii; repeat constructor; lia.
  - by apply quote_text.
  - destruct b; apply text_ascii; repeat (constructor; [cbn; lia|]); constructor.
  - apply text_ascii_cons; [lia|]. apply is_text_app; [|apply text_ascii; repeat constructor; lia].
    apply commas_text. rewrite Forall_map in *. rewrite list.Forall_forall in *. intros v Hv. apply IH; [done|by apply Ht].
  - destruct Ht as (_ & Hk & Ht). apply text_ascii_cons; [lia|].
    apply is_text_app; [|apply text_ascii; repeat constructor; lia]. apply commas_text.
    rewrite Forall_map in *. rewrite list.Forall_forall in *. intros m Hm.
    apply is_text_app; [by apply quote_text, Hk|]. apply text_ascii_cons; [lia|]. apply IH; [done|by apply Ht].
Qed.

(** The repository's reader reads the text back. *)
Lemma print_read o j : tidy j -> Z.of_nat (height j) < max_depth o -> from_str (print j) o = Ret (denote j).
Proof.
  intros Ht Hh. apply from_str_iff_grammar; [by apply print_text|].
  rewrite <- (app_nil_r (print j)). apply (g_document _ _ [] (print j) (denote j) []); [constructor| |constructor].
  by apply print_says.
Qed.
