(* ===== verification/DebugEncode.v ===== *)
(** What the encoders of [DebugProtocol] write: each message is the text of
    one value of [DebugMessages] when that text fits the buffer, and nothing
    when it does not. *)

From Stdlib Require Import ZArith Lia ZifyBool.
From stdpp Require Import base list strings.
From S2P Require Import Prelude.
From S2P Require Import Int.
From S2P Require Import Utf8.
From S2P Require Import Str.
From S2P Require Import Fmt.
From S2P Require Import FmtInteger.
From S2P Require Import DebugStore.
From S2P Require Import DebugCollector.
From S2P Require Import DebugProtocol.
From S2P Require Import DebugMessages.

Local Open Scope Z_scope.

(** Concatenations, nested to the right. *)
Ltac flatten := repeat (progress (cbn [app]; rewrite <- ?app_assoc)).

Definition size (s : list Z) : Z := Z.of_nat (length s).

Lemma size_app a b : size (a ++ b) = size a + size b.
Proof. unfold size. rewrite length_app. lia. Qed.

Lemma size_nonneg s : 0 <= size s.
Proof. unfold size. lia. Qed.

Definition member (m : list Z * Shown) : list Z := member_text (fst m) (print (snd m)).
Definition members (ms : list (list Z * Shown)) : list Z := then_comma (map member ms).

Lemma then_comma_app a b : then_comma (a ++ b) = then_comma a ++ then_comma b.
Proof. unfold then_comma. by rewrite map_app, concat_app. Qed.

Lemma members_app a b : members (a ++ b) = members a ++ members b.
Proof. unfold members. by rewrite map_app, then_comma_app. Qed.

Lemma print_object m ms : print (ShObject (m :: ms)) = (123 :: member m) ++ members ms ++ [125].
Proof. cbn [print map commas]. by rewrite <- app_assoc. Qed.

(** ** The buffer *)

Section buffer.
Context (L : Z) (HL : 0 <= L <= MAX usize).

(** The buffer was asked to hold [out]. *)
Definition holds (out : list Z) (r : Response) : Prop :=
  limit_ r = L /\ if size out <=? L then r = mkResponse out L false else failed_ r = true.

Lemma sub_small a b : 0 <= a - b <= MAX usize -> wrapping_sub usize a b = a - b.
Proof. intros. apply wrap_id; [done|]. unfold in_range. change (MIN usize) with 0. lia. Qed.

Lemma fits_exact out r bytes reserved :
  holds out r -> 0 <= bytes -> 0 <= reserved -> fits r bytes reserved = (size out + bytes + reserved <=? L).
Proof.
  intros [Hl Hr] Hb Hs. unfold fits, response_size. rewrite Hl. pose proof (size_nonneg out).
  destruct (size out <=? L) eqn:Ho; [subst r|rewrite Hr; cbn; lia].
  cbn [text_ failed_ negb andb]. fold (size out). rewrite (sub_small L) by lia.
  destruct (bytes <=? L - size out) eqn:Hf; cbn [andb]; [|lia]. rewrite sub_small by lia. lia.
Qed.

Lemma holds_make : holds [] (response_make L).
Proof. split; [done|]. by replace (size [] <=? L) with true by (unfold size; cbn; lia). Qed.

Lemma holds_raw out t r : holds out r -> holds (out ++ t) (raw t r).
Proof.
  intros Hh. unfold raw. rewrite (fits_exact out) by (done || lia). fold (size t). rewrite Z.add_0_r.
  destruct Hh as [Hl Hr]. rewrite <- size_app. destruct (size (out ++ t) <=? L) eqn:E; cbn [negb].
  - split; [done|]. rewrite E. rewrite size_app in E. pose proof (size_nonneg t).
    replace (size out <=? L) with true in Hr by lia. by subst r.
  - split; [done|]. by rewrite E.
Qed.

Lemma holds_eq out out' r : holds out r -> out = out' -> holds out' r.
Proof. by intros ? <-. Qed.

Lemma holds_finish out r : holds out r -> response_finish r = if size out <=? L then Some out else None.
Proof. intros [_ Hr]. unfold response_finish. destruct (size out <=? L); [by subst r | by rewrite Hr]. Qed.

Lemma holds_escape out c r : plain_byte c = false -> holds out r -> holds (out ++ quote_byte c) (escape c r).
Proof.
  intros Hp Hh. unfold escape, quote_byte. rewrite Hp. destruct (c =? 34); [by apply holds_raw|].
  destruct (c =? 92); [by apply holds_raw|].
  change (holds (out ++ [92; 117; 48; 48; hex_digit (Z.shiftr c 4); hex_digit (Z.land c 15)])
    (raw [hex_digit (Z.land c 15)] (raw [hex_digit (Z.shiftr c 4)] (raw (lit "\u00") r)))).
  eapply holds_eq; [apply holds_raw, holds_raw, holds_raw, Hh|].
  by rewrite <- !app_assoc.
Qed.

Lemma quote_body_plain s : Forall (fun c => plain_byte c = true) s -> quote_body s = s.
Proof.
  induction 1 as [|c s Hc _ IH]; [done|]. unfold quote_body in *. cbn [map concat]. unfold quote_byte at 1.
  by rewrite Hc, IH.
Qed.

Lemma quoted_loop_holds value out : forall bytes offset begin r,
  drop offset value = bytes -> (begin <= offset <= length value)%nat ->
  Forall (fun c => plain_byte c = true) (slice value begin offset) ->
  holds (out ++ quote_body (take begin value)) r ->
  let '(begin, r) := quoted_loop bytes offset begin value r in
  (begin <= length value)%nat /\ Forall (fun c => plain_byte c = true) (slice value begin (length value)) /\
  holds (out ++ quote_body (take begin value)) r.
Proof.
  assert (forall b o c, (b <= o)%nat -> value !! o = Some c -> slice value b (o + 1) = slice value b o ++ [c]) as Hsnoc.
  { intros b o c Hbo Hc. unfold slice. replace (o + 1 - b)%nat with (S (o - b)) by lia.
    apply take_S_r. rewrite lookup_drop. by replace (b + (o - b))%nat with o by lia. }
  assert (forall b o, (b <= o)%nat -> take o value = take b value ++ slice value b o) as Htake.
  { intros b o Hbo. unfold slice. rewrite <- (take_drop b value) at 1.
    rewrite take_app, take_take, length_take. replace (o `min` b)%nat with b by lia. f_equal.
    destruct (Nat.le_ge_cases b (length value)); [by replace (b `min` length value)%nat with b by lia|].
    rewrite !drop_ge by lia. by rewrite !take_nil. }
  induction bytes as [|c bytes IH]; intros offset begin r Hd Hb Hp Hh; cbn [quoted_loop].
  - assert (offset = length value) as ->; [|split; [lia | by split]].
    apply (f_equal length) in Hd. rewrite length_drop in Hd. cbn in Hd. lia.
  - assert (value !! offset = Some c) as Hc by (rewrite <- (Nat.add_0_r offset), <- lookup_drop, Hd; done).
    assert (drop (offset + 1) value = bytes) as Hd' by (by rewrite <- drop_drop, Hd).
    pose proof (lookup_lt_Some _ _ _ Hc). destruct (plain_byte c) eqn:Hpl.
    + apply IH; [done|lia| |done]. rewrite (Hsnoc _ _ c) by (done || lia). apply Forall_app. by split; [|constructor].
    + apply IH; [done|lia| |].
      * unfold slice. by rewrite Nat.sub_diag.
      * eapply holds_eq; [by apply holds_escape, holds_raw|]. rewrite (Htake begin (offset + 1)%nat) by lia.
        rewrite (Hsnoc _ _ c) by (done || lia). rewrite !quote_body_app, (quote_body_plain (slice value begin offset)) by done.
        unfold quote_body at 3. cbn [map concat]. by rewrite app_nil_r, <- !app_assoc.
Qed.

Lemma holds_quoted out value r : holds out r -> holds (out ++ quote value) (quoted value r).
Proof.
  intros Hh. unfold quoted.
  pose proof (quoted_loop_holds value (out ++ [34]) value 0 0 (raw [34] r) eq_refl ltac:(lia)) as HQ.
  destruct (quoted_loop value 0 0 value (raw [34] r)) as [begin r']. destruct HQ as (Hb & Hp & Hq).
  - constructor.
  - rewrite app_nil_r. by apply holds_raw.
  - eapply holds_eq; [apply holds_raw, holds_raw, Hq|]. unfold quote.
    assert (value = take begin value ++ slice value begin (length value)) as Hv.
    { unfold slice. rewrite (take_ge (drop begin value)) by (rewrite length_drop; lia). by rewrite take_drop. }
    rewrite Hv at 4. rewrite quote_body_app, (quote_body_plain (slice _ _ _)) by done. by rewrite <- !app_assoc.
Qed.

(** ** Objects being written *)

(** The buffer was asked to hold the text [head] and the members [ms] after
    it. *)
Definition fields (head : list Z) (ms : list (list Z * Shown)) (r : Response) : Prop :=
  holds (head ++ members ms) r.

Lemma fields_start head r : holds head r -> fields head [] r.
Proof. intros. unfold fields. cbn. by rewrite app_nil_r. Qed.

Lemma fields_holds head ms r : fields head ms r -> holds (head ++ members ms) r.
Proof. done. Qed.

Lemma fields_eq head ms ms' r : fields head ms r -> ms = ms' -> fields head ms' r.
Proof. by intros ? <-. Qed.

Lemma fields_member head ms k j t r f :
  (forall r out, holds out r -> holds (out ++ t) (f r)) -> print j = t ->
  fields head ms r -> fields head (ms ++ [(k, j)]) (f (response_key k r)).
Proof.
  intros Hf <- Hh. unfold fields, response_key. rewrite members_app.
  eapply holds_eq; [apply Hf, holds_raw, holds_quoted, holds_raw, Hh|].
  unfold members at 3. cbn. unfold then_comma. cbn [map concat]. rewrite app_nil_r. unfold member, member_text, quote.
  cbn [fst snd app]. rewrite <- !app_assoc. cbn [app]. by rewrite <- !app_assoc.
Qed.

Lemma fields_text head ms k v r : fields head ms r -> fields head (ms ++ [(k, ShText v)]) (response_text k v r).
Proof. apply (fields_member _ _ _ _ (quote v)); [|done]. intros. by apply holds_quoted. Qed.

Lemma holds_integer out v r : holds out r -> holds (out ++ decimal v) (response_integer v r).
Proof. apply holds_raw. Qed.

Lemma fields_number head ms k v r : fields head ms r -> fields head (ms ++ [(k, ShNumber v)]) (response_number k v r).
Proof. apply (fields_member _ _ _ _ (decimal v)); [|done]. intros. by apply holds_integer. Qed.

Lemma fields_id head ms k v r : fields head ms r -> fields head (ms ++ [(k, ShId v)]) (response_id k v r).
Proof.
  apply (fields_member _ _ _ (ShId v) (print (ShId v)) _ (fun r => raw [34] (response_integer v (raw [34] r)))); [|done].
  intros r' out Hh. eapply holds_eq; [apply holds_raw, holds_integer, holds_raw, Hh|]. by rewrite <- !app_assoc.
Qed.

Lemma fields_flag head ms k v r : fields head ms r -> fields head (ms ++ [(k, ShFlag v)]) (response_flag k v r).
Proof. apply (fields_member _ _ _ _ (print (ShFlag v)) _ (raw _)); [|done]. intros. by apply holds_raw. Qed.

Definition status_members (s : Status) : list (list Z * Shown) :=
  [(lit "session", ShId (st_session s)); (lit "closed", ShFlag (st_closed s)); (lit "exhausted", ShFlag (st_exhausted s));
   (lit "incomplete", ShFlag (st_incomplete s)); (lit "omitted", ShId (st_omitted s));
   (lit "dropped_events", ShId (st_dropped_events s))].

Lemma fields_status head ms s r : fields head ms r -> fields head (ms ++ status_members s) (response_status s r).
Proof.
  intros Hh. unfold response_status, status_members.
  pose proof (fields_id _ _ (lit "dropped_events") (st_dropped_events s) _
    (fields_id _ _ (lit "omitted") (st_omitted s) _ (fields_flag _ _ (lit "incomplete") (st_incomplete s) _
    (fields_flag _ _ (lit "exhausted") (st_exhausted s) _ (fields_flag _ _ (lit "closed") (st_closed s) _
    (fields_id _ _ (lit "session") (st_session s) _ Hh)))))) as Hs.
  by rewrite <- !app_assoc in Hs.
Qed.

Lemma fields_close m ms r : fields (123 :: member m) ms r -> holds (print (ShObject (m :: ms))) (raw [125] r).
Proof.
  intros Hh. eapply holds_eq; [apply holds_raw, Hh|]. rewrite print_object. by rewrite <- app_assoc.
Qed.
End buffer.

(** Collects the members a chain of calls has written. *)
Ltac collect_fields :=
  repeat match goal with
    | |- fields _ _ _ (response_text _ _ _) => apply fields_text
    | |- fields _ _ _ (response_number _ _ _) => apply fields_number
    | |- fields _ _ _ (response_id _ _ _) => apply fields_id
    | |- fields _ _ _ (response_flag _ _ _) => apply fields_flag
    | |- fields _ _ _ (response_status _ _) => apply fields_status
    end; try eassumption.

(** ** Records *)

Definition record_shown (r : DRecord) : Shown :=
  ShObject
    [(lit "id", ShId (r_id r)); (lit "parent", ShId (r_parent r)); (lit "target", ShId (r_target r));
     (lit "kind", ShText (kind_str (r_kind r))); (lit "state", ShText (state_str (r_state r)));
     (lit "version", ShId (r_version r)); (lit "changed_ns", ShId (r_changed_ns r));
     (lit "name", ShText (r_name r)); (lit "file", ShText (r_file r)); (lit "line", ShNumber (r_line r));
     (lit "worker", ShNumber (r_worker r)); (lit "external", ShFlag (r_external r));
     (lit "cancel_requested", ShFlag (r_cancel_requested r)); (lit "cancel_rejected", ShFlag (r_cancel_rejected r));
     (lit "scheduler_terminal", ShFlag (r_scheduler_terminal r)); (lit "frame_cleaned", ShFlag (r_frame_cleaned r));
     (lit "result_published", ShFlag (r_result_published r)); (lit "backend_terminal", ShFlag (r_backend_terminal r));
     (lit "outcome", ShText (outcome_str (r_outcome r))); (lit "terminal", ShFlag (r_terminal r));
     (lit "truncated", ShFlag (r_truncated r))].

Lemma quote_plain k : forallb plain_byte k = true -> quote k = [34] ++ k ++ [34].
Proof.
  intros Hk. unfold quote. rewrite quote_body_plain; [done|]. apply list.Forall_forall. intros c Hc.
  rewrite forallb_forall in Hk. by apply Hk, list_elem_of_In.
Qed.

Section encoders.
Context (L : Z) (HL : 0 <= L <= MAX usize).

(** A first member that is an id. *)
Lemma holds_open out k v r : forallb plain_byte k = true -> holds L out r ->
  holds L (out ++ 123 :: member (k, ShId v)) (raw QUOTE (response_integer v (raw (open_key k ++ QUOTE) r))).
Proof.
  intros Hk Hh. eapply holds_eq; [apply holds_raw, holds_integer, holds_raw, Hh; done|].
  unfold member, member_text, open_key, QUOTE. cbn [fst snd print]. rewrite quote_plain by done.
  by flatten.
Qed.

Lemma encode_record_exact r :
  encode_record r L = if size (print (record_shown r)) <=? L then Some (print (record_shown r)) else None.
Proof.
  unfold encode_record. cbn zeta. apply (holds_finish L). unfold record_shown. apply fields_close; [done|].
  pose proof (holds_open [] (lit "id") (r_id r) (response_make L) eq_refl (holds_make L HL)) as Hh.
  cbn [app] in Hh. apply (fields_start L) in Hh.
  eapply fields_eq; [collect_fields|]. done.
Qed.

(** ** Arrays being written *)

Lemma commas_snoc ts u : commas (ts ++ [u]) = commas ts ++ (if (length ts =? 0)%nat then [] else [44]) ++ u.
Proof.
  destruct ts as [|t ts]; [cbn; by rewrite app_nil_r|]. cbn [commas app length Nat.eqb].
  rewrite then_comma_app. unfold then_comma at 2. cbn [map concat]. by rewrite app_nil_r, <- app_assoc.
Qed.

Lemma fields_array head ms k vs r :
  forallb plain_byte k = true ->
  holds L ((head ++ members ms ++ next_key k ++ [91]) ++ commas (map print vs)) r ->
  fields L head (ms ++ [(k, ShArray vs)]) (raw [93] r).
Proof.
  intros Hk Hh. unfold fields. rewrite members_app. eapply holds_eq; [apply holds_raw, Hh; done|].
  unfold members at 3, then_comma. cbn [map concat]. rewrite app_nil_r. unfold member, member_text, next_key, QUOTE.
  cbn [fst snd print]. rewrite quote_plain by done. by flatten.
Qed.

Lemma fields_nested head ms k m nms r :
  forallb plain_byte k = true ->
  fields L (head ++ members ms ++ next_key k ++ 123 :: member m) nms r ->
  fields L head (ms ++ [(k, ShObject (m :: nms))]) (raw [125] r).
Proof.
  intros Hk Hh. unfold fields. rewrite members_app. eapply holds_eq; [apply holds_raw, Hh; done|].
  unfold members at 4, then_comma. cbn [map concat]. rewrite app_nil_r. unfold member at 2, member_text, next_key, QUOTE.
  cbn [fst snd]. rewrite print_object, quote_plain by done. by flatten.
Qed.

Section entries.
Context {A : Type} (show : A -> Shown) (encode : A -> option (list Z)) (M reserved limit : Z).
Context (HM : L <= M) (Hreserved : 0 <= reserved).
Context (Hencode : forall e, encode e = if size (print (show e)) <=? M then Some (print (show e)) else None).

(** [out] with the entries [es] after it. *)
Definition listed (out : list Z) (es : list A) : list Z := out ++ commas (map print (map show es)).

Definition entries_fit (out : list Z) (es : list A) : Prop := size (listed out es) + reserved <= L.

Lemma listed_snoc out es e :
  listed out (es ++ [e]) = listed out es ++ (if (length es =? 0)%nat then [] else [44]) ++ print (show e).
Proof.
  unfold listed. rewrite !map_app. cbn [map]. rewrite commas_snoc, !length_map. by rewrite <- app_assoc.
Qed.

Lemma encode_fits out es e r : holds L (listed out es) r ->
  match encode e with
  | Some text => fits r (size text + if (length es =? 0)%nat then 0 else 1) reserved = true
  | None => False
  end <-> entries_fit out (es ++ [e]).
Proof.
  intros Hh. rewrite Hencode. unfold entries_fit. rewrite listed_snoc, !size_app.
  pose proof (size_nonneg (print (show e))). pose proof (size_nonneg (listed out es)).
  assert (size (if (length es =? 0)%nat then [] else [44]) = if (length es =? 0)%nat then 0 else 1) as ->
    by (by case_if).
  destruct (size (print (show e)) <=? M) eqn:E.
  - rewrite (fits_exact L HL _ _ _ _ Hh) by (done || case_if; lia). lia.
  - split; [done|]. case_if; lia.
Qed.

(** The longest run of entries that fits, at most [limit] of them; [None] is
    a first entry that does not fit. *)
Lemma entries_loop_exact out : forall entries es r, holds L (listed out es) r ->
  match entries_loop encode reserved limit entries (length es) r with
  | None => es = [] /\ 0 < limit /\ exists e rest, entries = e :: rest /\ ~ entries_fit out [e]
  | Some (n, r') => exists k, n = (length es + k)%nat /\ (k <= length entries)%nat /\
      holds L (listed out (es ++ take k entries)) r' /\
      ((0 < k)%nat -> entries_fit out (es ++ take k entries) /\ Z.of_nat n <= limit) /\
      (k = length entries \/ limit <= Z.of_nat n \/
       ((0 < n)%nat /\ ~ entries_fit out (es ++ take (S k) entries)))
  end.
Proof.
  induction entries as [|e entries IH]; intros es r Hh; cbn [entries_loop].
  { exists 0%nat. rewrite app_nil_r. split; [lia|]. split; [done|]. split; [done|]. split; [lia|by left]. }
  destruct (limit <=? Z.of_nat (length es)) eqn:Hlim.
  { exists 0%nat. rewrite app_nil_r. split; [lia|]. split; [lia|]. split; [done|]. split; [lia|right; left; lia]. }
  pose proof (encode_fits out es e r Hh) as Hfit.
  assert (~ entries_fit out (es ++ [e]) ->
    match (if (length es =? 0)%nat then None else Some (length es, r)) with
    | None => es = [] /\ 0 < limit /\ exists e' rest, e :: entries = e' :: rest /\ ~ entries_fit out [e']
    | Some (n, r') => exists k, n = (length es + k)%nat /\ (k <= length (e :: entries))%nat /\
        holds L (listed out (es ++ take k (e :: entries))) r' /\
        ((0 < k)%nat -> entries_fit out (es ++ take k (e :: entries)) /\ Z.of_nat n <= limit) /\
        (k = length (e :: entries) \/ limit <= Z.of_nat n \/
         ((0 < n)%nat /\ ~ entries_fit out (es ++ take (S k) (e :: entries))))
    end) as Hstop.
  { intros Hno. destruct (Nat.eqb_spec (length es) 0) as [H0|H0].
    - apply nil_length_inv in H0 as ->. split; [done|]. split; [lia|]. by exists e, entries.
    - exists 0%nat. rewrite app_nil_r. split; [lia|]. split; [lia|]. split; [done|]. split; [lia|].
      right; right. split; [lia|done]. }
  destruct (encode e) as [text|] eqn:He; [|apply Hstop; cbn in Hfit; tauto].
  fold (size text). destruct (fits r (size text + _) reserved) eqn:Hf; [|apply Hstop; intros Hx; by apply Hfit in Hx].
  assert (text = print (show e)) as -> by (rewrite Hencode in He; destruct (size (print (show e)) <=? M); by simplify_eq).
  assert (holds L (listed out (es ++ [e])) (raw (print (show e)) (if (length es =? 0)%nat then r else raw [44] r))) as Hh'.
  { rewrite listed_snoc. destruct (length es =? 0)%nat; [by apply holds_raw|]. rewrite app_assoc.
    by apply holds_raw, holds_raw. }
  specialize (IH _ _ Hh'). rewrite length_app in IH. cbn [length] in IH. rewrite Nat.add_1_r in IH.
  destruct (entries_loop _ _ _ entries (S (length es)) _) as [[n r']|].
  - destruct IH as (k & -> & Hk & Hr & Hpos & Hmax). exists (S k). cbn [length].
    assert (forall j, es ++ take (S j) (e :: entries) = (es ++ [e]) ++ take j entries) as E by (intros; by rewrite <- app_assoc).
    rewrite !E. split; [lia|]. split; [lia|]. split; [done|]. split.
    + intros _. destruct k as [|k]; [|by apply Hpos; lia]. cbn [take]. rewrite app_nil_r. split; [by apply Hfit|lia].
    + destruct Hmax as [->|[?|[? Hno]]]; [by left|right; left; lia|right; right]. by split; [lia|].
  - destruct IH as (Hnil & _). by destruct es.
Qed.
End entries.
End encoders.
