(* ===== verification/DebugProtocolSpec.v ===== *)
(** What the wire protocol promises: which lines are requests, what a
    response says, what pages hand out of a snapshot, and that a session
    always answers. *)

From Stdlib Require Import ZArith Lia ZifyBool.
From stdpp Require Import base list strings.
From S2P Require Import Prelude.
From S2P Require Import Int.
From S2P Require Import Utf8.
From S2P Require Import OrdMap.
From S2P Require Import FloatSpec.
From S2P Require Import Dec2Flt.
From S2P Require Import Dec2FltSpec.
From S2P Require Import Str.
From S2P Require Import Fmt.
From S2P Require Import FmtInteger.
From S2P Require Import Json.
From S2P Require Import JsonParser.
From S2P Require Import JsonGrammar.
From S2P Require Import DebugStore.
From S2P Require Import DebugCollector.
From S2P Require Import DebugProtocol.
From S2P Require Import DebugMessages.
From S2P Require Import DebugEncode.
From S2P Require Import DebugInvariant.
From S2P Require Import DebugSpec.

Local Open Scope Z_scope.

(** ** The messages *)

Definition response_limit (bytes : Z) : Z := if bytes =? 0 then 0 else bytes - 1.

Definition version_member : list Z * Shown := (lit "version", ShNumber VERSION).

Definition id_shown (id : option Z) : Shown := match id with Some id => ShId id | None => ShText [] end.

(** A response: the version, the id of the request and what else it says. *)
Definition message_shown (id : option Z) (ms : list (list Z * Shown)) : Shown :=
  ShObject (version_member :: (lit "request_id", id_shown id) :: ms).

Definition error_members (message : list Z) : list (list Z * Shown) :=
  (lit "error", ShText message) :: (if str_eq message (lit "history_gap") then [(lit "resync_required", ShFlag true)] else []).

Definition event_shown (e : Event) : Shown :=
  ShObject [(lit "sequence", ShId (sequence e)); (lit "record", record_shown (event_record e))].

Definition hello_members (o : SessionOptions) (s : Status) : list (list Z * Shown) :=
  status_members s ++
  [(lit "max_message_bytes", ShNumber (max_message_bytes o)); (lit "max_snapshot_bytes", ShNumber (max_snapshot_bytes o));
   (lit "page_records", ShNumber (page_records o));
   (lit "runtime", ShObject [(lit "multi_thread", ShFlag (multi_thread (st_runtime s)));
     (lit "workers", ShNumber (workers (st_runtime s)));
     (lit "max_blocking_threads", ShNumber (max_blocking_threads (st_runtime s)));
     (lit "io_enabled", ShFlag (io_enabled (st_runtime s))); (lit "time_enabled", ShFlag (time_enabled (st_runtime s)))]);
   (lit "coverage", ShText coverage)].

(** A page with the [records]; [more]: there are others after them. *)
Definition page_members (snapshot_id : Z) (sn : Snapshot) (records : list DRecord) (more : bool) : list (list Z * Shown) :=
  status_members (sn_status sn) ++
  [(lit "snapshot_id", ShId snapshot_id); (lit "cursor", ShId (st_cursor (sn_status sn)));
   (lit "observed_ns", ShId (observed_ns sn)); (lit "records", ShArray (map record_shown records));
   (lit "more", ShFlag more)].

Definition events_members (s : Status) (events : list Event) (cursor : Z) : list (list Z * Shown) :=
  status_members s ++ [(lit "events", ShArray (map event_shown events)); (lit "next_cursor", ShId cursor)].

Section messages.
Context (o : SessionOptions) (Ho : 0 <= max_message_bytes o <= MAX usize).

Notation L := (response_limit (max_message_bytes o)).

Lemma limit_range : 0 <= L <= MAX usize.
Proof. unfold response_limit. case_if; lia. Qed.

Lemma limit_below : L <= max_message_bytes o.
Proof. unfold response_limit. case_if; lia. Qed.

(** A message as it is sent: its text when it fits. *)
Definition sent (id : option Z) (ms : list (list Z * Shown)) : option (list Z) :=
  let text := print (message_shown id ms) in if size text <=? L then Some text else None.

Lemma envelope_fields id :
  fields L (123 :: member version_member) [(lit "request_id", id_shown id)] (envelope id (max_message_bytes o)).
Proof.
  pose proof limit_range as HL. unfold envelope. fold (response_limit (max_message_bytes o)). cbn zeta. unfold fields.
  destruct id as [id|].
  - eapply holds_eq; [apply holds_raw, holds_integer, holds_raw, holds_integer, holds_raw, holds_make; done|]. 
    unfold members, then_comma. cbn [map concat]. rewrite app_nil_r. by flatten.
  - eapply holds_eq; [apply holds_raw, holds_raw, holds_integer, holds_raw, holds_make; done|].
    unfold members, then_comma. cbn [map concat]. rewrite app_nil_r. by flatten.
Qed.

Lemma sent_exact id ms r :
  fields L (123 :: member version_member) ((lit "request_id", id_shown id) :: ms) r ->
  response_finish (raw [125] r) = sent id ms.
Proof. intros Hf. apply (holds_finish L), fields_close; [apply limit_range|done]. Qed.

Lemma error_response_exact e :
  error_response e (max_message_bytes o) = default [] (sent (error_request_id e) (error_members (message e))).
Proof.
  unfold error_response. cbn zeta. f_equal. apply sent_exact. unfold error_members.
  pose proof (envelope_fields (error_request_id e)) as He. pose proof limit_range.
  destruct (str_eq _ _); (eapply fields_eq; [collect_fields; done|]); done.
Qed.

Lemma hello_response_exact id s : hello_response o id s = sent (Some id) (hello_members o s).
Proof.
  unfold hello_response. cbn zeta. apply sent_exact. unfold hello_members. pose proof limit_range as HL.
  pose proof (envelope_fields (Some id)) as He. set (st := st_runtime s).
  eapply fields_eq.
  { apply fields_text; [done|]. eapply (fields_nested L HL _ _ (lit "runtime")); [done|].
    collect_fields. apply fields_start. eapply holds_eq; [apply holds_raw, holds_raw, fields_holds; [done..|collect_fields]|].
    -     instantiate (1 := (lit "multi_thread", ShFlag (multi_thread st))).
    unfold member, member_text, open_key, QUOTE. cbn [fst snd print]. rewrite quote_plain by done.
    by flatten. }
  done.
Qed.

Lemma encode_event_exact e :
  encode_event (max_message_bytes o) e =
  if size (print (event_shown e)) <=? max_message_bytes o then Some (print (event_shown e)) else None.
Proof.
  unfold encode_event. cbn zeta. rewrite encode_record_exact by done.
  destruct (size (print (record_shown (event_record e))) <=? max_message_bytes o) eqn:Hr.
  - apply holds_finish. eapply holds_eq; [apply holds_raw, holds_raw, holds_raw, holds_integer, holds_raw, holds_make; done|].
    unfold event_shown. rewrite print_object. unfold members, then_comma. cbn [map concat]. rewrite app_nil_r.
    unfold member, member_text, QUOTE. cbn [fst snd print]. by flatten.
  - replace (size (print (event_shown e)) <=? max_message_bytes o) with false; [done|].
    unfold event_shown. rewrite print_object. rewrite !size_app. unfold members, then_comma. cbn [map concat].
    rewrite app_nil_r. unfold member at 2, member_text. cbn [fst snd].
    change (44 :: quote (lit "record") ++ 58 :: print (record_shown (event_record e)))
      with ((44 :: quote (lit "record")) ++ [58] ++ print (record_shown (event_record e))).
    rewrite !size_app. pose proof (size_nonneg (123 :: member (lit "sequence", ShId (sequence e)))).
    pose proof (size_nonneg (44 :: quote (lit "record"))). pose proof (size_nonneg [58]). pose proof (size_nonneg [125]). lia.
Qed.

(** ** Pages *)

Definition page_text (id snapshot_id : Z) (sn : Snapshot) (records : list DRecord) (more : bool) : list Z :=
  print (message_shown (Some id) (page_members snapshot_id sn records more)).

(** The records fit a page, whichever way the page ends. *)
Definition page_fits (id snapshot_id : Z) (sn : Snapshot) (records : list DRecord) : Prop :=
  size (page_text id snapshot_id sn records false) <= L.

Definition page_before (id snapshot_id : Z) (sn : Snapshot) : list (list Z * Shown) :=
  ((lit "request_id", id_shown (Some id)) :: status_members (sn_status sn)) ++
  [(lit "snapshot_id", ShId snapshot_id); (lit "cursor", ShId (st_cursor (sn_status sn))); (lit "observed_ns", ShId (observed_ns sn))].

Definition array_head (before : list (list Z * Shown)) (key : list Z) : list Z :=
  (123 :: member version_member) ++ members before ++ next_key key ++ [91].

Lemma array_holds before key r : fields L (123 :: member version_member) before r ->
  holds L (listed record_shown (array_head before key) []) (raw (next_key key ++ [91]) r) /\
  holds L (listed event_shown (array_head before key) []) (raw (next_key key ++ [91]) r).
Proof.
  intros Hf. unfold listed. cbn [map commas]. rewrite app_nil_r. pose proof limit_range.
  split; (eapply holds_eq; [apply holds_raw, Hf; done|]; unfold array_head; by rewrite <- !app_assoc).
Qed.

Lemma print_array before key vs after ms :
  forallb plain_byte key = true -> ms = before ++ (key, ShArray vs) :: after ->
  print (ShObject (version_member :: ms)) =
  array_head before key ++ commas (map print vs) ++ [93] ++ members after ++ [125].
Proof.
  intros Hk ->. rewrite print_object, members_app. change (_ :: after) with ([(key, ShArray vs)] ++ after).
  rewrite members_app. unfold members at 2, then_comma. cbn [map concat]. rewrite app_nil_r.
  unfold member at 2, member_text, array_head, next_key, QUOTE. cbn [fst snd print]. rewrite quote_plain by done.
  by flatten.
Qed.

Lemma page_text_listed id snapshot_id sn records more :
  page_text id snapshot_id sn records more =
  listed record_shown (array_head (page_before id snapshot_id sn) (lit "records")) records ++
  [93] ++ members [(lit "more", ShFlag more)] ++ [125].
Proof.
  unfold page_text, message_shown, listed.
  rewrite (print_array (page_before id snapshot_id sn) (lit "records") (map record_shown records) [(lit "more", ShFlag more)])
    by done.
  by rewrite <- app_assoc.
Qed.

Lemma more_size more : size ([93] ++ members [(lit "more", ShFlag more)] ++ [125]) = if more then 14 else 15.
Proof. by destruct more; vm_compute. Qed.

Lemma page_text_sum id snapshot_id sn records more :
  size (page_text id snapshot_id sn records more) =
  size (listed record_shown (array_head (page_before id snapshot_id sn) (lit "records")) records) + if more then 14 else 15.
Proof. rewrite page_text_listed, <- more_size. apply size_app. Qed.

Lemma page_fits_exact id snapshot_id sn records :
  page_fits id snapshot_id sn records <->
  entries_fit L record_shown 15 (array_head (page_before id snapshot_id sn) (lit "records")) records.
Proof. unfold page_fits, entries_fit. by rewrite page_text_sum. Qed.

Definition advance (k : nat) (s : Session) : Session :=
  mkSession (s_options s) (snapshot_ s) (captured_ s) (snapshot_id_ s) (page_ s + k) (hello_ s).

Definition too_large (id : Z) : list Z := session_error o id (lit "record_too_large").

Definition more_after (s : Session) (sn : Snapshot) (k : nat) : bool := (page_ s + k <? length (sn_records sn))%nat.

Lemma page_exact id s sn : snapshot_ s = Some sn -> s_options s = o -> 0 < page_records o ->
  let left := drop (page_ s) (sn_records sn) in
  (exists k, page id s = Some (page_text id (snapshot_id_ s) sn (take k left) (more_after s sn k), advance k s) /\
     page_fits id (snapshot_id_ s) sn (take k left) /\
     (k <= length left)%nat /\ Z.of_nat k <= page_records o /\
     (k = length left \/ Z.of_nat k = page_records o \/
      ((0 < k)%nat /\ ~ page_fits id (snapshot_id_ s) sn (take (S k) left)))) \/
  (page id s = Some (too_large id, s) /\ ~ page_fits id (snapshot_id_ s) sn (take 1 left)).
Proof.
  intros Hs Hopt Hpr left. pose proof limit_range as HL. unfold page. rewrite Hs, Hopt. cbn zeta.
  pose proof (envelope_fields (Some id)) as He.
  set (base := raw (next_key (lit "records") ++ [91]) _).
  assert (holds L (listed record_shown (array_head (page_before id (snapshot_id_ s) sn) (lit "records")) []) base) as Hb.
  { subst base. apply array_holds. eapply fields_eq; [collect_fields|]. done. }
  pose proof (entries_loop_exact L HL record_shown (fun r => encode_record r (max_message_bytes o)) (max_message_bytes o) 15
    (page_records o) limit_below ltac:(lia) (fun r => encode_record_exact _ Ho r) _ left [] base Hb) as HE.
  fold left. change (length (@nil DRecord)) with 0%nat in HE.
  destruct (entries_loop _ 15 _ left 0 base) as [[n r]|].
  2: { right. destruct HE as (_ & _ & e & rest & El & Hno). unfold too_large. split; [reflexivity|]. rewrite El. intros Hf. apply Hno. by apply page_fits_exact in Hf. }
  destruct HE as (k & -> & Hk & Hr & Hpos & Hmax). cbn [app Nat.add] in *.
  set (s1 := mkSession _ _ _ _ _ _).
  assert (s1 = advance k s) as Es1 by (subst s1; unfold advance; by rewrite Hs, Hopt).
  assert (response_finish (raw [125] (response_flag (lit "more") (page_ s1 <? length (sn_records sn))%nat (raw [93] r))) =
    let text := page_text id (snapshot_id_ s) sn (take k left) (more_after s sn k) in
    if size text <=? L then Some text else None) as Hfin.
  { cbn zeta. apply holds_finish. apply fields_close; [done|]. eapply fields_eq.
    - apply fields_flag; [done|]. apply (fields_array L HL _ (page_before id (snapshot_id_ s) sn) (lit "records") (map record_shown (take k left))); [done|].
      exact Hr.
    - rewrite Es1. done. }
  rewrite Hfin. cbn zeta. rewrite Es1. clear Hfin Hr Hb.
  assert (size (page_text id (snapshot_id_ s) sn (take k left) (more_after s sn k)) <=
    size (page_text id (snapshot_id_ s) sn (take k left) false)) as Hle
    by (rewrite !page_text_sum; destruct (more_after s sn k); lia).
  destruct (Nat.eq_dec k 0%nat) as [->|Hk0].
  - assert (left = []) as Hleft by (destruct Hmax as [?|[?|[? _]]]; [by apply nil_length_inv|lia|lia]).
    assert (more_after s sn 0 = false) as Hmore.
    { unfold more_after. apply Nat.ltb_ge. rewrite Nat.add_0_r. apply (f_equal length) in Hleft.
      subst left. rewrite length_drop in Hleft. cbn in Hleft. lia. }
    rewrite Hmore in *. destruct (size _ <=? L) eqn:Hfit.
    + left. exists 0%nat. split; [by rewrite Hmore|]. split; [by apply Z.leb_le|]. split; [lia|]. split; [lia|]. left. by rewrite Hleft.
    + right. split; [|unfold page_fits; rewrite Hleft in *; cbn [take] in *; lia].
      unfold advance, too_large. rewrite Nat.add_0_r. cbn [default]. by destruct s.
  - destruct Hpos as [Hfit Hle2]; [lia|]. apply page_fits_exact in Hfit. unfold page_fits in Hfit.
    replace (size (page_text id (snapshot_id_ s) sn (take k left) (more_after s sn k)) <=? L) with true by lia.
    left. exists k. split; [done|]. split; [done|]. split; [lia|]. split; [lia|].
    destruct Hmax as [?|[?|[? Hno]]]; [by left|right; left; lia|right; right]. split; [lia|].
    intros Hf. by apply Hno, page_fits_exact.
Qed.

(** ** Events *)

Definition events_text (id : Z) (st : Status) (events : list Event) (cursor : Z) : list Z :=
  print (message_shown (Some id) (events_members st events cursor)).

(** The events fit a message, however long the cursor after them is. *)
Definition events_fit (id : Z) (st : Status) (events : list Event) : Prop :=
  size (events_text id st events (MAX u64)) <= L.

Definition events_before (id : Z) (st : Status) : list (list Z * Shown) :=
  (lit "request_id", id_shown (Some id)) :: status_members st.

Lemma events_text_listed id st events cursor :
  events_text id st events cursor =
  listed event_shown (array_head (events_before id st) (lit "events")) events ++
  [93] ++ members [(lit "next_cursor", ShId cursor)] ++ [125].
Proof.
  unfold events_text, message_shown, listed.
  rewrite (print_array (events_before id st) (lit "events") (map event_shown events) [(lit "next_cursor", ShId cursor)])
    by done.
  by rewrite <- app_assoc.
Qed.

Lemma cursor_size cursor :
  size ([93] ++ members [(lit "next_cursor", ShId cursor)] ++ [125]) = 19 + size (decimal cursor).
Proof.
  unfold members, then_comma. cbn [map concat]. rewrite app_nil_r. unfold member, member_text. cbn [fst snd print].
  change ([93] ++ (44 :: quote (lit "next_cursor") ++ 58 :: 34 :: decimal cursor ++ [34]) ++ [125])
    with (([93; 44] ++ (quote (lit "next_cursor") ++ 58 :: 34 :: decimal cursor ++ [34])) ++ [125]).
  change (58 :: 34 :: decimal cursor ++ [34]) with ([58; 34] ++ decimal cursor ++ [34]).
  rewrite !size_app. change (size (quote (lit "next_cursor"))) with 13. unfold size. cbn [length]. lia.
Qed.

Lemma events_text_sum id st events cursor :
  size (events_text id st events cursor) =
  size (listed event_shown (array_head (events_before id st) (lit "events")) events) + 19 + size (decimal cursor).
Proof. rewrite events_text_listed, size_app, cursor_size. lia. Qed.

Lemma decimal_size v : 1 <= size (decimal v) <= 20.
Proof. unfold size. pose proof (decimal_length v). lia. Qed.

Lemma events_fit_exact id st events :
  events_fit id st events <-> entries_fit L event_shown 39 (array_head (events_before id st) (lit "events")) events.
Proof.
  unfold events_fit, entries_fit. rewrite events_text_sum.
  assert (size (decimal (MAX u64)) = 20) as -> by (by vm_compute). lia.
Qed.

Lemma events_exact id start events :
  let es := evs_events events in let st := evs_status events in
  (exists k, let text := events_text id st (take k es) (written_cursor start es k) in
     events_response o id start events = text /\ size text <= L /\ (k <= length es)%nat /\
     (k = length es \/ ((0 < k)%nat /\ ~ events_fit id st (take (S k) es)))) \/
  (events_response o id start events = too_large id /\ ~ events_fit id st (take 1 es)).
Proof.
  intros es st. pose proof limit_range as HL. unfold events_response. cbn zeta. fold es st.
  pose proof (envelope_fields (Some id)) as He. set (base := raw (next_key (lit "events") ++ [91]) _).
  assert (holds L (listed event_shown (array_head (events_before id st) (lit "events")) []) base) as Hb.
  { subst base. apply array_holds. eapply fields_eq; [collect_fields|]. done. }
  pose proof (entries_loop_exact L HL event_shown (encode_event (max_message_bytes o)) (max_message_bytes o) 39
    (Z.of_nat (length es)) limit_below ltac:(lia) encode_event_exact _ es [] base Hb) as HE.
  change (length (@nil Event)) with 0%nat in HE.
  destruct (entries_loop _ 39 _ es 0 base) as [[n r]|].
  2: { right. destruct HE as (_ & _ & e & rest & El & Hno). unfold too_large. split; [reflexivity|]. rewrite El.
       intros Hf. apply Hno. by apply events_fit_exact in Hf. }
  destruct HE as (k & -> & Hk & Hr & Hpos & Hmax). cbn [app Nat.add] in *.
  assert (response_finish (raw [125] (response_id (lit "next_cursor") (written_cursor start es k) (raw [93] r))) =
    let text := events_text id st (take k es) (written_cursor start es k) in if size text <=? L then Some text else None) as Hfin.
  { cbn zeta. apply holds_finish. apply fields_close; [done|]. eapply fields_eq.
    - apply fields_id; [done|]. apply (fields_array L HL _ (events_before id st) (lit "events") (map event_shown (take k es))); [done|].
      exact Hr.
    - done. }
  rewrite Hfin. cbn zeta. clear Hfin Hr Hb.
  pose proof (decimal_size (written_cursor start es k)).
  assert (size (events_text id st (take k es) (written_cursor start es k)) <= size (events_text id st (take k es) (MAX u64)))
    by (rewrite !events_text_sum; assert (size (decimal (MAX u64)) = 20) as -> by (by vm_compute); lia).
  destruct (size (events_text id st (take k es) (written_cursor start es k)) <=? L) eqn:Hfit.
  - left. exists k. split; [done|]. split; [lia|]. split; [lia|].
    destruct Hmax as [?|[?|[? Hno]]]; [by left|left; lia|right]. split; [lia|]. intros Hf. by apply Hno, events_fit_exact.
  - right. unfold too_large. split; [reflexivity|]. destruct (Nat.eq_dec k 0%nat) as [->|Hk0].
    + assert (es = []) as Ees by (destruct Hmax as [?|[?|[? _]]]; [by apply nil_length_inv|apply nil_length_inv; lia|lia]).
      unfold events_fit. rewrite Ees in *. cbn [take] in *. lia.
    + destruct Hpos as [Hf _]; [lia|]. apply events_fit_exact in Hf. unfold events_fit in Hf. lia.
Qed.

End messages.

(** ** Room

    An upper bound of the length of a text, whatever the numbers are. *)
Fixpoint room (j : Shown) : Z :=
  match j with
  | ShNumber _ => 20
  | ShId _ => 22
  | ShText s => size (quote s)
  | ShFlag _ => 5
  | ShArray vs => 2 + total (fun v => 1 + v) (map room vs)
  | ShObject ms => 2 + total (fun m => 2 + fst m + snd m) (map (fun m => (size (quote (fst m)), room (snd m))) ms)
  end.

Lemma then_comma_size ts : size (then_comma ts) = total (fun t => 1 + size t) ts.
Proof.
  induction ts as [|t ts IH]; [done|]. unfold then_comma in *. cbn [map concat total]. rewrite size_app, IH.
  unfold size. cbn [length]. lia.
Qed.

Lemma commas_size ts : size (commas ts) <= total (fun t => 1 + size t) ts.
Proof.
  destruct ts as [|t ts]; [by vm_compute|]. cbn [commas total]. rewrite size_app, then_comma_size. lia.
Qed.

Lemma size_cons c s : size (c :: s) = 1 + size s.
Proof. unfold size. cbn [length]. lia. Qed.

Lemma print_room j : size (print j) <= room j.
Proof.
  induction j as [v|v|s|b|vs IH|ms IH] using Shown_ind'; cbn [print room].
  - pose proof (decimal_size v). lia.
  - rewrite size_cons, size_app. pose proof (decimal_size v). change (size [34]) with 1. lia.
  - done.
  - by destruct b; vm_compute.
  - rewrite size_cons, size_app. change (size [93]) with 1. pose proof (commas_size (map print vs)).
    enough (total (fun t => 1 + size t) (map print vs) <= total (fun v => 1 + v) (map room vs)) by lia.
    clear -IH. induction IH; cbn [map total]; lia.
  - rewrite size_cons, size_app. change (size [125]) with 1.
    pose proof (commas_size (map (fun m => member_text (fst m) (print (snd m))) ms)).
    enough (total (fun t => 1 + size t) (map (fun m => member_text (fst m) (print (snd m))) ms) <=
      total (fun m => 2 + fst m + snd m) (map (fun m => (size (quote (fst m)), room (snd m))) ms)) by lia.
    clear -IH. induction IH; cbn [map total fst snd]; [lia|]. unfold member_text at 1. rewrite size_app, size_cons. lia.
Qed.

(** ** Reading a response back *)

Definition record_texts (r : DRecord) : Prop := is_text (r_name r) /\ is_text (r_file r).

Lemma literal_text s : forallb (fun c => (0 <=? c) && (c <? 128)) s = true -> is_text s.
Proof.
  intros Hs. apply text_ascii. apply list.Forall_forall. intros c Hc. rewrite forallb_forall in Hs.
  specialize (Hs c). rewrite <- list_elem_of_In in Hs. specialize (Hs Hc). lia.
Qed.

Lemma tidy_object ms :
  bool_decide (NoDup (map fst ms)) = true -> forallb (forallb (fun c => (0 <=? c) && (c <? 128))) (map fst ms) = true ->
  Forall (fun m => tidy (snd m)) ms -> tidy (ShObject ms).
Proof.
  intros Hk Ht Hm. split; [by apply bool_decide_eq_true in Hk|]. split; [|by apply Forall_map].
  apply list.Forall_forall. intros k Hin. rewrite forallb_forall in Ht. by apply literal_text, Ht, list_elem_of_In.
Qed.

(** The members are tidy one by one. *)
Ltac tidy_members := repeat (apply List.Forall_cons; [try exact I|]); try apply List.Forall_nil.

Lemma tidy_record r : record_texts r -> tidy (record_shown r).
Proof.
  intros [Hn Hf]. apply tidy_object; [by vm_compute..|]. tidy_members; cbn [snd tidy]; try done; apply literal_text.
  - by destruct (r_kind r).
  - by destruct (r_state r).
  - by destruct (r_outcome r).
Qed.

Lemma tidy_page id snapshot_id sn records more : Forall record_texts records ->
  tidy (message_shown (Some id) (page_members snapshot_id sn records more)).
Proof.
  intros Hr. apply tidy_object; [by vm_compute..|]. tidy_members. cbn [snd tidy]. rewrite map_map.
  apply Forall_map. eapply List.Forall_impl; [|exact Hr]. apply tidy_record.
Qed.

Definition field (key : list Z) (v : Value) : option Value :=
  match v with VObject m => map_get key m | _ => None end.

(** A client that asks for pages until there are no more, or an error comes:
    the records it holds then, and the error. *)
Fixpoint read_pages (fuel : nat) (id : Z) (s : Session) : option (list Value * option Value) :=
  match fuel with
  | O => None
  | S fuel =>
    match page id s with
    | None => None
    | Some (text, s) =>
      match from_str text default_options with
      | Ret v =>
        match field (lit "error") v, field (lit "records") v, field (lit "more") v with
        | Some error, _, _ => Some ([], Some error)
        | None, Some (VArray records), Some (VBool more) =>
          if more then match read_pages fuel id s with Some (rest, error) => Some (records ++ rest, error) | None => None end
          else Some (records, None)
        | _, _, _ => None
        end
      | _ => None
      end
    end
  end.

Lemma page_height id snapshot_id sn records more :
  (height (message_shown (Some id) (page_members snapshot_id sn records more)) <= 3)%nat.
Proof.
  assert (list_max (map height (map record_shown records)) <= 1)%nat as Hr.
  { apply list_max_le, Forall_map, Forall_map. apply list.Forall_forall. intros r _. by vm_compute. }
  unfold message_shown, page_members. cbn -[Nat.max list_max lit].
  apply le_n_S, list_max_le. repeat (apply List.Forall_cons; [lia|]). apply List.Forall_nil.
Qed.

Lemma page_fields id snapshot_id sn records more :
  let v := denote (message_shown (Some id) (page_members snapshot_id sn records more)) in
  field (lit "error") v = None /\
  field (lit "records") v = Some (VArray (map (fun r => denote (record_shown r)) records)) /\
  field (lit "more") v = Some (VBool more).
Proof.
  unfold message_shown, page_members. cbn [denote map app status_members fst snd version_member].
  rewrite map_map. generalize (map (fun r => denote (record_shown r)) records) as rs.
  generalize (wrap u64 VERSION). intros w rs.
  repeat split; vm_compute; reflexivity.
Qed.

Lemma page_read id snapshot_id sn records more : Forall record_texts records ->
  from_str (page_text id snapshot_id sn records more) default_options =
  Ret (denote (message_shown (Some id) (page_members snapshot_id sn records more))).
Proof.
  intros Hr. apply print_read; [by apply tidy_page|].
  pose proof (page_height id snapshot_id sn records more). cbn [max_depth default_options]. lia.
Qed.

Section pages.
Context (o : SessionOptions) (Ho : 2048 <= max_message_bytes o <= MAX usize) (Hpr : 0 < page_records o).

Lemma pages_range : 0 <= max_message_bytes o <= MAX usize.
Proof. lia. Qed.

Lemma pages_limit : 2047 <= response_limit (max_message_bytes o).
Proof. unfold response_limit. case_if; lia. Qed.

(** A page without records fits, whatever its numbers are. *)
Lemma page_fits_empty id snapshot_id sn : page_fits o id snapshot_id sn [].
Proof.
  unfold page_fits, page_text. pose proof pages_limit.
  pose proof (print_room (message_shown (Some id) (page_members snapshot_id sn [] false))) as Hr.
  change (room (message_shown (Some id) (page_members snapshot_id sn [] false))) with
    (room (message_shown (Some 0) (page_members 0 (mkSnapshot (mkStatus 0 0 false false false 0 0 (mkRuntimeInfo true false true 2 4) (mkOptions 2 1 4 16 16384 4 100)) 0 []) [] false))) in Hr.
  assert (room (message_shown (Some 0) (page_members 0 (mkSnapshot (mkStatus 0 0 false false false 0 0 (mkRuntimeInfo true false true 2 4) (mkOptions 2 1 4 16 16384 4 100)) 0 []) [] false)) <= 2047) by (by vm_compute).
  lia.
Qed.

Lemma too_large_read id : exists v, from_str (too_large o id) default_options = Ret v /\
  field (lit "error") v = Some (VString (lit "record_too_large")).
Proof.
  assert (too_large o id = print (message_shown (Some id) (error_members (lit "record_too_large")))) as ->.
  { unfold too_large, session_error. rewrite (error_response_exact o pages_range). cbn [error_request_id message]. unfold sent.
    pose proof (print_room (message_shown (Some id) (error_members (lit "record_too_large")))) as Hr. pose proof pages_limit.
    change (room (message_shown (Some id) (error_members (lit "record_too_large")))) with 
      (room (message_shown (Some 0) (error_members (lit "record_too_large")))) in Hr.
    assert (room (message_shown (Some 0) (error_members (lit "record_too_large"))) <= 2047) by (by vm_compute).
    by replace (_ <=? _) with true by lia. }
  eexists. split; [apply print_read; [|by vm_compute]|by vm_compute].
  apply tidy_object; [by vm_compute..|]. tidy_members; by apply literal_text.
Qed.

(** A record that a page can carry alone. *)
Definition carried (id snapshot_id : Z) (sn : Snapshot) (r : DRecord) : bool :=
  size (page_text id snapshot_id sn [r] false) <=? response_limit (max_message_bytes o).

Lemma carried_fits id snapshot_id sn r : carried id snapshot_id sn r = true <-> page_fits o id snapshot_id sn [r].
Proof. apply Z.leb_le. Qed.

(** The records before the first that no page can carry. *)
Fixpoint deliverable (id snapshot_id : Z) (sn : Snapshot) (records : list DRecord) : list DRecord :=
  match records with
  | [] => []
  | r :: records => if carried id snapshot_id sn r then r :: deliverable id snapshot_id sn records else []
  end.

(** Records that fit a page together fit one alone. *)
Lemma commas_one t ts : t ∈ ts -> size (commas [t]) <= size (commas ts).
Proof.
  intros Hin. assert (Forall (fun t => 0 <= 1 + size t) ts) as Hpos by (apply list.Forall_forall; intros u _; pose proof (size_nonneg u); lia).
  destruct ts as [|u ts]; [by apply elem_of_nil in Hin|]. cbn [commas]. rewrite !size_app, !then_comma_size. cbn [total].
  apply Forall_cons_1 in Hpos as [_ Hpos]. pose proof (size_nonneg u).
  apply elem_of_cons in Hin as [->|Hin]; [pose proof (total_nonneg _ _ Hpos); lia|].
  apply list_elem_of_lookup in Hin as [i Hi]. pose proof (total_lookup _ _ _ _ Hpos Hi) as Ht. cbn beta in Ht. lia.
Qed.

Lemma page_fits_one id snapshot_id sn r records :
  page_fits o id snapshot_id sn records -> r ∈ records -> page_fits o id snapshot_id sn [r].
Proof.
  rewrite !page_fits_exact. unfold entries_fit, listed. rewrite !size_app. cbn [map]. intros Hf Hin.
  enough (size (commas [print (record_shown r)]) <= size (commas (map print (map record_shown records)))) by lia.
  by apply commas_one; do 2 apply list_elem_of_fmap_2.
Qed.

Lemma deliverable_app id snapshot_id sn front records : Forall (fun r => page_fits o id snapshot_id sn [r]) front ->
  deliverable id snapshot_id sn (front ++ records) = front ++ deliverable id snapshot_id sn records.
Proof.
  induction 1 as [|r front Hr _ IH]; [done|]. cbn [app deliverable]. apply carried_fits in Hr as ->. by rewrite IH.
Qed.

Lemma read_pages_deliver id sn : Forall record_texts (sn_records sn) ->
  forall fuel s, snapshot_ s = Some sn -> s_options s = o ->
  let left := drop (page_ s) (sn_records sn) in
  let got := deliverable id (snapshot_id_ s) sn left in
  (length left < fuel)%nat ->
  read_pages fuel id s = Some (map (fun r => denote (record_shown r)) got,
    if (length got <? length left)%nat then Some (VString (lit "record_too_large")) else None).
Proof.
  intros Htext. induction fuel as [|fuel IH]; intros s Hs Hopt left got Hfuel; [lia|]. cbn [read_pages].
  destruct (page_exact o pages_range id s sn Hs Hopt Hpr) as [(k & Hp & Hfit & Hk & _ & Hmax)|(Hp & Hno)]; fold left in Hp, Hk, Hmax || fold left in Hp, Hno.
  2: { rewrite Hp. destruct (too_large_read id) as (v & -> & ->). subst got. destruct left as [|r rest] eqn:El.
       - destruct Hno. apply page_fits_empty.
       - cbn [take] in Hno. cbn [deliverable]. destruct (carried _ _ _ r) eqn:Hr; [by apply carried_fits in Hr|done]. }
  rewrite Hp, page_read by (by apply Forall_take, Forall_drop).
  destruct (page_fields id (snapshot_id_ s) sn (take k left) (more_after s sn k)) as (-> & -> & ->). clear Hp.
  assert (got = take k left ++ deliverable id (snapshot_id_ s) sn (drop k left)) as Egot.
  { subst got. rewrite <- (take_drop k left) at 1. apply deliverable_app. apply list.Forall_forall. intros r Hin. by eapply page_fits_one. }
  assert (length left = length (sn_records sn) - page_ s)%nat as Hlen by apply length_drop.
  unfold more_after. destruct (Nat.ltb_spec (page_ s + k) (length (sn_records sn))) as [Hl|Hl].
  - assert (0 < k)%nat by (destruct Hmax as [?|[?|[? _]]]; lia).
    rewrite (IH (advance k s)); [|done|done|cbn [page_ advance]; rewrite <- drop_drop; fold left; rewrite length_drop; lia].
    cbn [page_ advance snapshot_id_]. rewrite <- drop_drop. fold left. rewrite Egot, map_app, length_app, length_take, length_drop.
    f_equal. f_equal. repeat case_if; (done || lia).
  - rewrite Egot, drop_ge, take_ge by lia. cbn [deliverable]. rewrite app_nil_r. by rewrite Nat.ltb_irrefl.
Qed.

(** C19: the pages of a snapshot hand it out.  A client that asks for pages
    until [more] is false or an error comes, under one request id, and reads
    each with the JSON reader, holds after at most one page more than there are records, exactly
    once and in order, the records before the first that no page can carry
    alone; that record, when there is one, is answered with
    [record_too_large], again and again, and those behind it are not handed
    out.  When every record fits a page alone, the
    client holds all of them.  Every page is the longest run of records that
    its size and its count allow, and says whether there are more. *)
Theorem debug_pages_deliver id s sn :
  s_options s = o -> snapshot_ s = Some sn -> Forall record_texts (sn_records sn) ->
  let left := drop (page_ s) (sn_records sn) in
  let got := deliverable id (snapshot_id_ s) sn left in
  read_pages (S (length left)) id s = Some (map (fun r => denote (record_shown r)) got,
    if (length got <? length left)%nat then Some (VString (lit "record_too_large")) else None) /\
  (Forall (fun r => carried id (snapshot_id_ s) sn r = true) left -> got = left) /\
  ((exists k, page id s = Some (page_text id (snapshot_id_ s) sn (take k left) (more_after s sn k), advance k s) /\
      page_fits o id (snapshot_id_ s) sn (take k left) /\ Z.of_nat k <= page_records o /\
      (k = length left \/ Z.of_nat k = page_records o \/ (0 < k)%nat /\ ~ page_fits o id (snapshot_id_ s) sn (take (S k) left))) \/
   page id s = Some (too_large o id, s) /\ exists r, head left = Some r /\ carried id (snapshot_id_ s) sn r = false).
Proof.
  intros Hopt Hs Htext left got. split; [apply (read_pages_deliver id sn Htext); [done|done|fold left; lia]|]. split.
  - intros Hall. subst got. rewrite <- (app_nil_r left) at 1. rewrite deliverable_app; [by cbn; rewrite app_nil_r|].
    eapply List.Forall_impl; [|exact Hall]. intros r. by rewrite carried_fits.
  - destruct (page_exact o pages_range id s sn Hs Hopt Hpr) as [(k & Hp & Hf & Hk & Hle & Hmax)|(Hp & Hno)]; [left|right].
    + by exists k.
    + split; [done|]. fold left in Hno. destruct left as [|r rest]; [destruct Hno; apply page_fits_empty|].
      exists r. split; [done|]. apply not_true_iff_false. by rewrite carried_fits.
Qed.
End pages.

(** ** Events, read back *)

Lemma numbered_lookup from es i e : numbered from es -> es !! i = Some e -> sequence e = from + Z.of_nat i + 1.
Proof.
  intros Hn Hi. assert (map sequence es !! i = Some (sequence e)) as Hs by (by rewrite list_lookup_fmap, Hi).
  pose proof (lookup_lt_Some _ _ _ Hi). rewrite Hn, lookup_seqZ_lt in Hs by lia. injection Hs. lia.
Qed.

Lemma numbered_cursor start es k : numbered start es -> (k <= length es)%nat ->
  written_cursor start es k = start + Z.of_nat k.
Proof.
  intros Hn Hk. unfold written_cursor. destruct k as [|k]; [by rewrite Z.add_0_r|].
  destruct (lookup_lt_is_Some_2 es k) as [e He]; [lia|]. rewrite (take_S_r _ _ _ He), last_snoc.
  rewrite (numbered_lookup _ _ _ _ Hn He). lia.
Qed.

Lemma numbered_drop start es k : numbered start es -> (k <= length es)%nat -> numbered (start + Z.of_nat k) (drop k es).
Proof.
  intros Hn Hk. unfold numbered. apply list_eq. intros i. rewrite list_lookup_fmap, lookup_drop, length_drop.
  destruct (es !! (k + i)%nat) as [e|] eqn:He; cbn.
  - pose proof (lookup_lt_Some _ _ _ He). rewrite (numbered_lookup _ _ _ _ Hn He), lookup_seqZ_lt by lia. apply (f_equal Some). lia.
  - apply lookup_ge_None in He. symmetry. apply lookup_seqZ_ge. lia.
Qed.

Lemma tidy_events id st es cursor : Forall (fun e => record_texts (event_record e)) es ->
  tidy (message_shown (Some id) (events_members st es cursor)).
Proof.
  intros He. apply tidy_object; [by vm_compute..|]. tidy_members. cbn [snd tidy]. rewrite map_map.
  apply Forall_map. eapply List.Forall_impl; [|exact He]. intros e Hr. apply tidy_object; [by vm_compute..|].
  tidy_members. by apply tidy_record.
Qed.

Lemma events_height id st es cursor : (height (message_shown (Some id) (events_members st es cursor)) <= 4)%nat.
Proof.
  assert (list_max (map height (map event_shown es)) <= 2)%nat as Hr.
  { apply list_max_le, Forall_map, Forall_map. apply list.Forall_forall. intros r _. by vm_compute. }
  unfold message_shown, events_members. cbn -[Nat.max list_max lit].
  apply le_n_S, list_max_le. repeat (apply List.Forall_cons; [lia|]). apply List.Forall_nil.
Qed.

Lemma events_read id st es cursor : Forall (fun e => record_texts (event_record e)) es ->
  exists v, from_str (events_text id st es cursor) default_options = Ret v /\
    field (lit "events") v = Some (VArray (map (fun e => denote (event_shown e)) es)) /\
    field (lit "next_cursor") v = Some (VString (decimal cursor)).
Proof.
  intros He. eexists. split.
  { apply print_read; [by apply tidy_events|]. pose proof (events_height id st es cursor). cbn [max_depth default_options]. lia. }
  unfold message_shown, events_members. cbn [denote map app status_members fst snd version_member].
  rewrite map_map. generalize (map (fun e => denote (event_shown e)) es) as rs. generalize (decimal cursor) as d.
  generalize (wrap u64 VERSION). intros w d rs. split; vm_compute; reflexivity.
Qed.

(** A reader of events loses none.  From consecutively numbered events the
    response carries the longest run from the front that fits, at least one,
    and names as [next_cursor] the number of the last one it carries: the
    events it left out are exactly those that follow that cursor.  The JSON
    reader reads back the events and the cursor. *)
Theorem debug_events_carried o id start events :
  0 <= max_message_bytes o <= MAX usize ->
  numbered start (evs_events events) -> Forall (fun e => record_texts (event_record e)) (evs_events events) ->
  events_fit o id (evs_status events) [] ->
  Forall (fun e => events_fit o id (evs_status events) [e]) (evs_events events) ->
  exists k, let es := evs_events events in let cursor := start + Z.of_nat k in
    size (events_response o id start events) <= response_limit (max_message_bytes o) /\
    (exists v, from_str (events_response o id start events) default_options = Ret v /\
       field (lit "events") v = Some (VArray (map (fun e => denote (event_shown e)) (take k es))) /\
       field (lit "next_cursor") v = Some (VString (decimal cursor))) /\
    numbered cursor (drop k es) /\ (es <> [] -> (0 < k)%nat) /\
    (k = length es \/ ~ events_fit o id (evs_status events) (take (S k) es)).
Proof.
  intros Ho Hn Ht Hempty Hfit.
  destruct (events_exact o Ho id start events) as [(k & Hr & Hsize & Hk & Hmax)|(_ & Hno)].
  - exists k. cbn zeta in *. rewrite Hr, (numbered_cursor start) by done. rewrite (numbered_cursor start) in Hsize by done.
    split; [done|]. split; [by apply events_read, Forall_take|]. split; [by apply numbered_drop|].
    split; [|tauto]. intros Hne. destruct Hmax as [->|[? _]]; [|done].
    destruct (evs_events events); [done|cbn; lia].
  - exfalso. destruct (evs_events events) as [|e es] eqn:Ee; [done|]. apply Hno. cbn [take].
    by apply Forall_cons_1 in Hfit as [? _].
Qed.

(** ** A snapshot of four records, one of which no page can carry *)

Module PageExample.
Definition task : DRecord :=
  mkRecord 2 1 0 Task Queued 3 40 0 true false false false false false false false false OUnknown
    (lit "job 1") (lit "main.cpp") 12.
Definition status : Status :=
  mkStatus 1 2 false false false 0 0 (mkRuntimeInfo true false true 2 4) (mkOptions 2 1 4 16 16384 4 100).
(** A record with a name of 2000 bytes. *)
Definition large : DRecord :=
  mkRecord 3 1 0 Task Queued 3 40 0 true false false false false false false false false OUnknown
    (replicate 2000%nat 65) (lit "main.cpp") 12.
Definition snapshot : Snapshot := mkSnapshot status 50 [task; task; large; task].
Definition options : SessionOptions := mkSessionOptions 2048 65536 1 1000.
Definition session : Session := mkSession options (Some snapshot) 0 1 0 true.
Definition events : Events := mkEvents status 5 [mkEvent 4 task; mkEvent 5 task].

Lemma texts : Forall record_texts (sn_records snapshot).
Proof. repeat constructor; apply literal_text; by vm_compute. Qed.
End PageExample.

(** The two records before the large one, in a page each. *)
Lemma debug_pages_deliver_witness :
  read_pages 5 7 PageExample.session =
  Some (map (fun r => denote (record_shown r)) [PageExample.task; PageExample.task], Some (VString (lit "record_too_large"))).
Proof.
  destruct (debug_pages_deliver PageExample.options ltac:(by vm_compute) eq_refl 7 PageExample.session PageExample.snapshot
    eq_refl eq_refl PageExample.texts) as [Hread _].
  assert (deliverable PageExample.options 7 (snapshot_id_ PageExample.session) PageExample.snapshot
    (drop (page_ PageExample.session) (sn_records PageExample.snapshot)) = [PageExample.task; PageExample.task]) as E
    by (by vm_compute).
  rewrite E in Hread. exact Hread.
Defined.

Lemma debug_events_carried_witness : exists k, (0 < k)%nat /\
  numbered (3 + Z.of_nat k) (drop k (evs_events PageExample.events)).
Proof.
  destruct (debug_events_carried PageExample.options 7 3 PageExample.events) as (k & _ & _ & Hn & Hk & _).
  - done.
  - by vm_compute.
  - repeat constructor; apply (Forall_inv PageExample.texts).
  - by vm_compute.
  - repeat constructor; by vm_compute.
  - exists k. split; [by apply Hk | exact Hn].
Defined.
