(* ===== verification/DebugSession.v ===== *)
(** Sessions: every request is answered with one line of JSON that fits the
    agreed size, and nothing but a greeting is served before the greeting. *)

From Stdlib Require Import ZArith Lia ZifyBool.
From stdpp Require Import base list strings.
From S2P Require Import Prelude.
From S2P Require Import Int.
From S2P Require Import Utf8.
From S2P Require Import Str.
From S2P Require Import Fmt.
From S2P Require Import DebugStore.
From S2P Require Import DebugCollector.
From S2P Require Import DebugInvariant.
From S2P Require Import DebugRefresh.
From S2P Require Import DebugSpec.
From S2P Require Import DebugProtocol.
From S2P Require Import DebugMessages.
From S2P Require Import DebugEncode.
From S2P Require Import DebugProtocolSpec.

Local Open Scope Z_scope.
Local Open Scope rstd_scope.

(** ** Queries settle *)

Section sessions.
Context {Sz : Sizes} (fixed : Z).

(** A query that answers or refuses, and keeps the store well formed. *)
Definition settles {A} (m : StoreM A) : Prop :=
  forall s, Inv fixed s -> match m s with (Ret _, s') | (Fail _, s') => Inv fixed s' | _ => False end.

Lemma settles_bind {A B} (m : StoreM A) (k : A -> StoreM B) : settles m -> (forall a, settles (k a)) -> settles (bind m k).
Proof.
  intros Hm Hk s HI. specialize (Hm s HI). unfold bind. destruct (m s) as [[a|e| |] s1]; try done. by apply Hk.
Qed.

Lemma settles_ret {A} (a : A) : settles (ret a).
Proof. by intros s HI. Qed.

Lemma settles_throw {A} (e : Error) : settles (throw e : StoreM A).
Proof. by intros s HI. Qed.

(** What is read from a well-formed store. *)
Lemma settles_read {A} (k : Store -> StoreM A) : 
  (forall s, Inv fixed s -> match k s s with (Ret _, s') | (Fail _, s') => Inv fixed s' | _ => False end) ->
  settles (let* s := get_store in k s).
Proof. intros Hk s HI. by apply Hk. Qed.

Lemma query_lock_settles : settles query_lock.
Proof.
  intros s HI. destruct (query_lock_spec fixed s HI) as [(s' & -> & HI' & _)|(s' & -> & HI' & _)]; exact HI'.
Qed.

Lemma status_settles : settles handle_status.
Proof. apply settles_bind; [apply query_lock_settles|]. intros _. by apply settles_read. Qed.

Lemma make_snapshot_settles now max_bytes matches : settles (make_snapshot now max_bytes matches).
Proof.
  apply settles_read. intros s HI. destruct (indexed_records_spec fixed s HI) as (rs & Hrs & _). rewrite Hrs. cbn.
  by destruct (snapshot_budget _ _ _).
Qed.

Lemma snapshot_settles now max_bytes : settles (handle_snapshot now max_bytes).
Proof. apply settles_bind; [apply query_lock_settles|]. intros _. apply make_snapshot_settles. Qed.

Lemma find_task_settles id : settles (find_task id).
Proof.
  apply settles_read. intros s HI. unfold bind, get_task.
  destruct (q_index (query s) !! find_index (query s) id) as [e|] eqn:He; [|done].
  destruct (ix_id e =? id); [|done]. cbn [negb].
  destruct (inv_copy fixed s e HI (list_elem_of_lookup_2 _ _ _ He)) as (v & t & Hv & _). rewrite Hv. cbn.
  by destruct (task_kind (r_kind v)).
Qed.

Lemma task_snapshot_settles now id max_bytes : settles (handle_task_snapshot now id max_bytes).
Proof.
  apply settles_bind; [apply query_lock_settles|]. intros _.
  apply settles_bind; [apply find_task_settles|]. intros _. apply make_snapshot_settles.
Qed.

Lemma events_settles after limit : settles (handle_events after limit).
Proof.
  apply settles_bind; [apply query_lock_settles|]. intros _. apply settles_read. intros s HI.
  destruct ((q_cursor (query s) <? after) || (limit =? 0)); [done|].
  pose proof (inv_history _ _ HI) as [[Hring _ _ _] _].
  rewrite (events_loop_collect _ _ _ _ _ _ _ _ _ _ Hring) by lia. cbn.
  destruct (collect _ _ _ _ _) as [[out next]|e]; cbn; [|done]. by destruct (_ && _).
Qed.

(** ** Responses *)

Context (o : SessionOptions).

(** What [Server::start] accepts. *)
Record accepted : Prop := {
  ac_message : 2048 <= max_message_bytes o <= 1024 * 1024;
  ac_page : 0 < page_records o <= 1024 }.

Context (Ho : accepted).

Lemma accepted_range : 0 <= max_message_bytes o <= MAX usize.
Proof. pose proof (ac_message Ho). change (MAX usize) with 18446744073709551615. lia. Qed.

Lemma accepted_limit : 2047 <= response_limit (max_message_bytes o).
Proof. pose proof (ac_message Ho). unfold response_limit. case_if; lia. Qed.

(** The text of a response to the request [id] that fits. *)
Definition answer_to (id : Z) (text : list Z) : Prop :=
  exists ms, text = print (message_shown (Some id) ms) /\ size text <= max_message_bytes o - 1.

Lemma sent_room id ms : room (message_shown id ms) <= 2047 ->
  sent o id ms = Some (print (message_shown id ms)).
Proof.
  intros Hr. unfold sent. pose proof (print_room (message_shown id ms)). pose proof accepted_limit.
  by replace (size _ <=? _) with true by lia.
Qed.

Lemma limit_exact : response_limit (max_message_bytes o) = max_message_bytes o - 1.
Proof. pose proof (ac_message Ho). unfold response_limit. case_if; lia. Qed.

Lemma sent_answers id ms text : sent o (Some id) ms = Some text -> answer_to id text.
Proof.
  unfold sent. cbn zeta. destruct (size _ <=? _) eqn:E; [|done]. intros [= <-]. exists ms. split; [done|].
  apply Z.leb_le in E. pose proof limit_exact as Hl. rewrite Hl in E. exact E.
Qed.

(** The errors a session answers with. *)
Definition session_errors : list (list Z) :=
  map error_str [EBusy; ENotFound; EEvicted; EHistoryGap; ECapacity; EInvalidCursor; EClosed] ++
  [lit "record_too_large"; lit "hello_required"; lit "snapshot_expired"; lit "invalid_request"].

Lemma error_room id e : e ∈ session_errors -> room (message_shown (Some id) (error_members e)) <= 2047.
Proof.
  intros He. assert (forallb (fun e => room (message_shown (Some 0) (error_members e)) <=? 2047) session_errors = true) as Hf
    by (by vm_compute).
  rewrite forallb_forall in Hf. specialize (Hf e). rewrite <- list_elem_of_In in Hf. specialize (Hf He).
  change (room (message_shown (Some id) (error_members e))) with (room (message_shown (Some 0) (error_members e))). lia.
Qed.

Lemma session_error_text id e : e ∈ session_errors ->
  session_error o id e = print (message_shown (Some id) (error_members e)).
Proof.
  intros He. unfold session_error. rewrite (error_response_exact o accepted_range). cbn [error_request_id message].
  by rewrite (sent_room (Some id)) by (by apply error_room).
Qed.

Lemma session_error_answers id e : e ∈ session_errors -> answer_to id (session_error o id e).
Proof.
  intros He. rewrite session_error_text by done. eapply sent_answers, sent_room. by apply error_room.
Qed.

Lemma error_str_listed e : error_str e ∈ session_errors.
Proof. unfold session_errors. apply elem_of_app. left. destruct e; apply list_elem_of_In; cbn; tauto. Qed.

Lemma hello_room s : room (message_shown (Some 0) (hello_members o s)) <= 2047.
Proof. by vm_compute. Qed.

Lemma hello_answers id s : exists text, hello_response o id s = Some text /\ answer_to id text.
Proof.
  rewrite (hello_response_exact o accepted_range). pose proof (hello_room s).
  rewrite sent_room by done. eexists. split; [done|]. by eapply sent_answers, sent_room.
Qed.

Lemma listed_error (e : list Z) : bool_decide (e ∈ session_errors) = true -> e ∈ session_errors.
Proof. apply bool_decide_eq_true_1. Qed.

Lemma page_answers id s sn : snapshot_ s = Some sn -> s_options s = o ->
  exists text s', page id s = Some (text, s') /\ answer_to id text /\ s_options s' = o /\ hello_ s' = hello_ s.
Proof.
  intros Hs Hopt. destruct (page_exact o accepted_range id s sn Hs Hopt (proj1 (ac_page Ho))) as
    [(k & Hp & Hf & _)|(Hp & _)]; rewrite Hp; eexists _, _; (split; [done|]); (split; [|done]).
  - eexists. split; [done|]. unfold page_fits in Hf. rewrite !page_text_sum in *. pose proof limit_exact as HL. rewrite HL in Hf.
    destruct (more_after s sn k); lia.
  - apply session_error_answers, listed_error. by vm_compute.
Qed.

Lemma events_answers id start events : answer_to id (events_response o id start events).
Proof.
  destruct (events_exact o accepted_range id start events) as [(k & -> & Hs & _)|(-> & _)].
  - eexists. split; [done|]. pose proof limit_exact as HL. rewrite HL in Hs. exact Hs.
  - apply session_error_answers, listed_error. by vm_compute.
Qed.

(** What [respond] ends in: a text with [Q], in a state with [Q]. *)
Definition responds {A} (m : ConnectionM A) (Q : A -> Connection -> Prop) (c : Connection) : Prop :=
  exists a c', m c = (Ret a, c') /\ Q a c'.

Lemma responds_ret {A} (a : A) (Q : A -> Connection -> Prop) c : Q a c -> responds (ret a) Q c.
Proof. intros HQ. by exists a, c. Qed.

Lemma responds_bind {A B} (m : ConnectionM A) (k : A -> ConnectionM B) Q c :
  responds m (fun a c => responds (k a) Q c) c -> responds (bind m k) Q c.
Proof. intros (a & c1 & Hm & b & c2 & Hk & HQ). exists b, c2. unfold bind. by rewrite Hm. Qed.

Lemma responds_set s (Q : unit -> Connection -> Prop) c : Q tt (mkConnection s (store_of c)) -> responds (set_session s) Q c.
Proof. intros HQ. by exists tt, (mkConnection s (store_of c)). Qed.

Lemma responds_get (Q : Session -> Connection -> Prop) c : Q (session_of c) c -> responds get_session Q c.
Proof. intros HQ. by exists (session_of c), c. Qed.

Lemma responds_ask {A} (m : StoreM A) (Q : result A Error -> Connection -> Prop) c :
  settles m -> Inv fixed (store_of c) ->
  (forall v st, Inv fixed st -> Q v (mkConnection (session_of c) st)) -> responds (ask m) Q c.
Proof.
  intros Hm HI HQ. specialize (Hm _ HI). unfold responds, ask.
  destruct (m (store_of c)) as [[a|e| |] st]; [|..|done|done]; eexists _, _; (split; [done|]); by apply HQ.
Qed.

(** A connection whose store is well formed, under the accepted options. *)
Definition serving (c : Connection) : Prop := Inv fixed (store_of c) /\ s_options (session_of c) = o.

Definition answered (id : Z) (text : list Z) (c : Connection) : Prop := answer_to id text /\ serving c.

Lemma answered_error id e c : e ∈ session_errors -> serving c -> answered id (session_error o id e) c.
Proof. intros. split; [by apply session_error_answers | done]. Qed.

Lemma responds_page id c sn : serving c -> snapshot_ (session_of c) = Some sn -> responds (run_page id) (answered id) c.
Proof.
  intros [HI Hopt] Hs. apply responds_bind, responds_get. destruct (page_answers id _ sn Hs Hopt) as (text & s' & Hp & Ha & Hopt' & _).
  rewrite Hp. apply responds_bind. exists (text, s'), c. split; [done|].
  apply responds_bind, responds_set, responds_ret. by split.
Qed.

Lemma listed_literals :
  lit "record_too_large" ∈ session_errors /\ lit "hello_required" ∈ session_errors /\
  lit "snapshot_expired" ∈ session_errors /\ lit "invalid_request" ∈ session_errors.
Proof. repeat split; apply listed_error; by vm_compute. Qed.

Lemma respond_answers now observed captured r c : serving c ->
  responds (respond now observed captured r) (answered (request_id r)) c.
Proof.
  intros Hc. destruct listed_literals as (E1 & E2 & E3 & E4). unfold respond.
  apply responds_bind, responds_get. destruct Hc as [HI Hopt]. rewrite Hopt. cbn zeta.
  apply responds_bind.
  assert (responds (if (match snapshot_ (session_of c) with Some _ => snapshot_lifetime o <=? Z.max 0 (now - captured_ (session_of c)) | None => false end)
    then set_session (mkSession o None (captured_ (session_of c)) (snapshot_id_ (session_of c)) (page_ (session_of c)) (hello_ (session_of c))) else ret tt)
    (fun _ c => serving c) c) as (u & c1 & Hrun & Hc1).
  { case_if; [by apply responds_set | by apply responds_ret]. }
  exists u, c1. split; [done|]. clear Hrun HI Hopt c. destruct Hc1 as [HI Hopt].
  apply responds_bind, responds_get. set (s := session_of c1) in *.
  assert (forall e, e ∈ session_errors -> responds (ret (session_error o (request_id r) e)) (answered (request_id r)) c1) as Herr
    by (intros e He; by apply responds_ret, answered_error).
  assert (forall (k : ConnectionM (list Z)), responds k (answered (request_id r)) c1 ->
    responds (if negb (hello_ s) then ret (session_error o (request_id r) (lit "hello_required")) else k) (answered (request_id r)) c1) as Hgate
    by (intros k Hk; destruct (hello_ s); [done | by apply Herr]).
  assert (forall view : StoreM Snapshot, settles view -> responds
    (do* set_session (mkSession o None (captured_ s) (snapshot_id_ s) (page_ s) (hello_ s));;
     let* view := ask view in
     match view with
     | Err e => ret (session_error o (request_id r) (error_str e))
     | Ok view =>
       if snapshot_id_ s =? MAX u64 then ret (session_error o (request_id r) (lit "snapshot_expired"))
       else do* set_session (mkSession o (Some view) captured (snapshot_id_ s + 1) 0 (hello_ s));; run_page (request_id r)
     end) (answered (request_id r)) c1) as Hview.
  { intros view Hset. apply responds_bind, responds_set, responds_bind, responds_ask; [done|done|].
    intros [v|e] st HI'; [|by apply responds_ret, answered_error; [apply error_str_listed|]].
    case_if; [by apply responds_ret, answered_error|]. apply responds_bind, responds_set. by apply (responds_page _ _ v). }
  destruct (command r).
  - apply responds_bind, responds_ask; [apply status_settles|done|].
    intros [v|e] st HI'; [|by apply responds_ret, answered_error; [apply error_str_listed|]].
    destruct (hello_answers (request_id r) v) as (text & -> & Ha).
    apply responds_bind, responds_set, responds_ret. by split.
  - apply Hgate, Hview, snapshot_settles.
  - apply Hgate. destruct (snapshot_ s) as [sn|] eqn:Hs; cbn [orb]; [|by apply Herr].
    case_if; [by apply Herr|]. by apply (responds_page _ _ sn).
  - apply Hgate, Hview, task_snapshot_settles.
  - apply Hgate. case_if; [by apply Herr|]. apply responds_bind, responds_ask; [apply events_settles|done|].
    intros [v|e] st HI'; [|by apply responds_ret, answered_error; [apply error_str_listed|]].
    apply responds_ret. split; [apply events_answers | by split].
Qed.

(** C17: a session answers every request.  Under the options the server
    accepts, and whatever state recorders and collector have brought the store
    to, [respond] neither fails nor panics: its answer is one JSON object that
    starts with the version and the request's id, stands on one line, and with
    its line break is no longer than [max_message_bytes]; the store stays well
    formed.  Before the greeting every other request is refused with
    [hello_required] and does not reach the store. *)
Theorem debug_respond_answers now observed captured r c :
  Inv fixed (store_of c) -> s_options (session_of c) = o ->
  exists text c' ms, respond now observed captured r c = (Ret text, c') /\
    text = print (message_shown (Some (request_id r)) ms) /\ size text + 1 <= max_message_bytes o /\
    one_line text /\ Inv fixed (store_of c') /\ s_options (session_of c') = o /\
    (hello_ (session_of c) = false -> command r <> Hello ->
     ms = error_members (lit "hello_required") /\ store_of c' = store_of c).
Proof.
  intros HI Hopt. destruct (respond_answers now observed captured r c (conj HI Hopt)) as (text & c' & Hrun & (ms & -> & Hs) & HI' & Hopt').
  destruct (decide (hello_ (session_of c) = false /\ command r <> Hello)) as [[Hh Hcmd]|Hno].
  - exists (session_error o (request_id r) (lit "hello_required")), c', (error_members (lit "hello_required")).
    assert (exists c2, respond now observed captured r c = (Ret (session_error o (request_id r) (lit "hello_required")), c2) /\
      store_of c2 = store_of c) as (c2 & Hrun2 & Hst).
    { unfold respond, bind, get_session, gets, set_session, modify, ret. rewrite Hopt.
      case_if; cbn [session_of store_of hello_]; rewrite Hh; cbn [negb]; destruct (command r); try done; by eexists. }
    rewrite Hrun in Hrun2.
    assert (print (message_shown (Some (request_id r)) ms) = session_error o (request_id r) (lit "hello_required") /\ c' = c2)
      as [E ->] by (split; congruence).
    rewrite <- E. split; [done|]. split; [by rewrite E, session_error_text by apply listed_literals|]. split; [lia|].
    split; [apply print_line|]. by split; [|split].
  - exists (print (message_shown (Some (request_id r)) ms)), c', ms.
    split; [done|]. split; [done|]. split; [lia|]. split; [apply print_line|]. split; [done|]. split; [done|]. tauto.
Qed.
End sessions.

Module SessionExample.
Definition options : SessionOptions := mkSessionOptions 2048 65536 32 1000.

Lemma accepts : accepted options.
Proof. by split; vm_compute. Qed.

Definition connect (s : Store) : Connection := mkConnection (session_make options 0) s.

Lemma connected s : Inv Example.fixed s -> Inv Example.fixed (store_of (connect s)).
Proof. done. Qed.

Lemma drained_inv : Inv Example.fixed (store_of (connect Example.drained)).
Proof.
  apply connected.
  apply (promised_inv Example.some_options Example.info 1 Example.fixed Example.start Example.drained
    Example.options_typed Example.options_accepted Example.fixed_exact Example.start_initial Example.drained_reachable).
Qed.

Lemma fresh s : s_options (session_of (connect s)) = options /\ hello_ (session_of (connect s)) = false.
Proof. done. Qed.
End SessionExample.

Lemma debug_respond_answers_witness :
  exists text c', respond 5 6 7 (mkRequest 9 SnapshotRequest 0 None) (SessionExample.connect Example.drained) = (Ret text, c') /\
    store_of c' = store_of (SessionExample.connect Example.drained).
Proof.
  destruct (SessionExample.fresh Example.drained) as [Hopt Hh].
  destruct (debug_respond_answers Example.fixed SessionExample.options SessionExample.accepts 5 6 7
    (mkRequest 9 SnapshotRequest 0 None) (SessionExample.connect Example.drained)
    SessionExample.drained_inv Hopt) as (text & c' & ms & Hrun & _ & _ & _ & _ & _ & Hgate).
  exists text, c'. split; [exact Hrun|]. destruct (Hgate Hh ltac:(discriminate)) as [_ Hst]. exact Hst.
Defined.
