(* ===== verification/DebugServer.v ===== *)
(** The connections of the diagnostics server ([std/src/async/debug/server.cpp]):
    the options [Server::start] accepts and the loop of [client] that turns
    the bytes it receives into request lines and sends one answer line for
    each.  Reads, deliveries and clocks are the environment's; the accept loop,
    its threads and its wakers are not modelled. *)

From Stdlib Require Import ZArith Lia ZifyBool.
From stdpp Require Import base list strings.
From S2P Require Import Prelude.
From S2P Require Import Int.
From S2P Require Import SocketAddr.
From S2P Require Import Utf8.
From S2P Require Import Str.
From S2P Require Import Fmt.
From S2P Require Import DebugStore.
From S2P Require Import DebugCollector.
From S2P Require Import DebugInvariant.
From S2P Require Import DebugSpec.
From S2P Require Import DebugProtocol.
From S2P Require Import DebugMessages.
From S2P Require Import DebugEncode.
From S2P Require Import DebugProtocolSpec.
From S2P Require Import DebugRequest.
From S2P Require Import DebugSession.

Local Open Scope Z_scope.
Local Open Scope rstd_scope.

(** ** Options *)

(** [SocketAddr::is_loopback] *)
Definition is_loopback (address : SocketAddr) : bool :=
  match SocketAddr.kind address with
  | V4 => default 0 (octets address !! 0%nat) =? 127
  | V6 => forallb (fun i => default 0 (octets address !! i) =? 0) (seq 0 15) && (default 0 (octets address !! 15%nat) =? 1)
  end.

(** Durations are nanoseconds. *)
Record ServerOptions := mkServerOptions
  { address : SocketAddr; max_connections : Z; sv_max_message_bytes : Z; sv_max_snapshot_bytes : Z;
    sv_page_records : Z; idle_timeout : Z; sv_snapshot_lifetime : Z }.

(** The test of [Server::start]. *)
Definition options_refused (v : ServerOptions) : bool :=
  negb (is_loopback (address v)) || (max_connections v =? 0) || (1024 <? max_connections v) ||
  (sv_max_message_bytes v <? 2048) || (1024 * 1024 <? sv_max_message_bytes v) || (sv_max_snapshot_bytes v =? 0) ||
  (sv_page_records v =? 0) || (1024 <? sv_page_records v) || (idle_timeout v =? 0) || (sv_snapshot_lifetime v =? 0).

Definition session_options (v : ServerOptions) : SessionOptions :=
  mkSessionOptions (sv_max_message_bytes v) (sv_max_snapshot_bytes v) (sv_page_records v) (sv_snapshot_lifetime v).

(** ** A connection *)

(** What the environment does for the [n]-th request line of a connection: the
    clock at the request, at the observation and at the capture, and whether
    the answer is delivered before the timeout or a stop. *)
Record Turn := mkTurn { now_ : Z; observed_ : Z; captured_at : Z; delivered : bool }.

Record Client := mkClient
  { pending : list Z; finish : bool; sent_lines : list (list Z); turns : nat; connection : Connection }.

Definition ClientM := M Client Error.

(** A read: bytes, or a timeout, a stop, an error or the end of the stream. *)
Inductive Read := Received (bytes : list Z) | ReadEnded.

Section client.
Context `{Sizes} (environment : nat -> Turn) (max : Z).

(** The answer to a line. *)
Definition answer (turn : Turn) (line : list Z) : ConnectionM (list Z) :=
  match parse_request line with
  | Ret request => respond (now_ turn) (observed_ turn) (captured_at turn) request
  | Fail error => ret (error_response error max)
  | Panic => panic
  | OutOfFuel => out_of_fuel
  end.

Definition on_connection {A} (m : ConnectionM A) : ClientM A := fun c =>
  let '(r, k) := m (connection c) in
  (r, mkClient (pending c) (finish c) (sent_lines c) (turns c) k).

(** The body of the loop over the bytes of a read. *)
Definition client_byte (c : Z) : ClientM unit :=
  let* client := gets id in
  if c =? 10 then
    let turn := environment (turns client) in
    let* response := on_connection (answer turn (pending client)) in
    do* modify (fun k => mkClient [] (finish k) (sent_lines k) (S (turns k)) (connection k));;
    if (length response =? 0)%nat
    then modify (fun k => mkClient (pending k) true (sent_lines k) (turns k) (connection k))
    else
      let response := response ++ [10] in
      if max <? Z.of_nat (length response)
      then modify (fun k => mkClient (pending k) true (sent_lines k) (turns k) (connection k))
      else if negb (delivered turn)
      then modify (fun k => mkClient (pending k) true (sent_lines k) (turns k) (connection k))
      else modify (fun k => mkClient (pending k) (finish k) (sent_lines k ++ [response]) (turns k) (connection k))
  else if max <=? Z.of_nat (length (pending client)) + 1
  then modify (fun k => mkClient (pending k) true (sent_lines k) (turns k) (connection k))
  else modify (fun k => mkClient (pending k ++ [c]) (finish k) (sent_lines k) (turns k) (connection k)).

(** [for (auto c : bytes)], left when the connection is finished. *)
Fixpoint client_bytes (bytes : list Z) : ClientM unit :=
  match bytes with
  | [] => ret tt
  | c :: bytes =>
    do* client_byte c;;
    let* client := gets id in
    if finish client then ret tt else client_bytes bytes
  end.

(** [while (! finish)] *)
Fixpoint client (reads : list Read) : ClientM unit :=
  match reads with
  | [] => ret tt
  | read :: reads =>
    let* client_ := gets id in
    if finish client_ then ret tt
    else match read with
         | ReadEnded => ret tt
         | Received bytes =>
           if (length bytes =? 0)%nat then ret tt else do* client_bytes bytes;; client reads
         end
  end.
End client.

Definition client_start (k : Connection) : Client := mkClient [] false [] 0 k.

(** ** What a connection promises *)

Section promises.
Context {Sz : Sizes} (fixed : Z) (v : ServerOptions) (environment : nat -> Turn).
Context (Hv : options_refused v = false) (Htyped : 0 <= sv_page_records v).

Notation o := (session_options v).
Notation max := (sv_max_message_bytes v).

Lemma server_accepts : accepted o.
Proof.
  unfold options_refused in Hv. repeat (apply orb_false_iff in Hv as [Hv ?]).
  split; cbn [session_options max_message_bytes page_records]; lia.
Qed.

(** The text of an answer, without the line break; to a request it carries the
    request's id, and to a malformed line it is the error. *)
Definition answers_line (line text : list Z) : Prop :=
  exists id ms, text = print (message_shown id ms) /\ one_line text /\ size text + 1 <= max /\
    (forall r, parse_request line = Ret r -> id = Some (request_id r)) /\
    (forall e, parse_request line = Fail e -> id = error_request_id e /\ ms = error_members (message e)).

Lemma parse_error_room id e : e ∈ parse_errors -> room (message_shown id (error_members e)) <= 2047.
Proof.
  intros He. assert (forallb (fun e => (room (message_shown (Some 0) (error_members e)) <=? 2047) &&
    (room (message_shown None (error_members e)) <=? 2047)) parse_errors = true) as Hf by (by vm_compute).
  rewrite forallb_forall in Hf. specialize (Hf e). rewrite <- list_elem_of_In in Hf. specialize (Hf He).
  destruct id as [id|]; [|lia].
  change (room (message_shown (Some id) (error_members e))) with (room (message_shown (Some 0) (error_members e))). lia.
Qed.

Lemma error_answers e : message e ∈ parse_errors ->
  error_response e max = print (message_shown (error_request_id e) (error_members (message e))) /\ size (error_response e max) + 1 <= max.
Proof.
  intros He. pose proof server_accepts as Ha.
  change max with (max_message_bytes o). rewrite (error_response_exact o (accepted_range o Ha)).
  pose proof (parse_error_room (error_request_id e) (message e) He) as Hr. rewrite (sent_room o Ha) by done. split; [done|].
  pose proof (print_room (message_shown (error_request_id e) (error_members (message e)))). pose proof (ac_message _ Ha).
  change (size (print (message_shown (error_request_id e) (error_members (message e)))) + 1 <= max_message_bytes o). lia.
Qed.

Lemma answer_exact turn line k : serving fixed o k ->
  exists text k', answer max turn line k = (Ret text, k') /\ serving fixed o k' /\ answers_line line text.
Proof.
  intros Hk. pose proof server_accepts as Ha. unfold answer, answers_line. pose proof (parse_request_settles line) as Hp.
  destruct (parse_request line) as [r|e| |]; [| |done|done].
  - destruct (respond_answers fixed o Ha (now_ turn) (observed_ turn) (captured_at turn) r k Hk)
      as (text & k' & Hrun & (ms & -> & Hs) & Hk').
    exists (print (message_shown (Some (request_id r)) ms)), k'. split; [done|]. split; [done|]. exists (Some (request_id r)), ms.
    split; [done|]. split; [apply print_line|]. split; [cbn [session_options max_message_bytes] in Hs; lia|]. split; [by intros ? [= <-] | done].
  - destruct Hp as [Hm _]. destruct (error_answers e Hm) as (Ht & Hs).
    exists (error_response e max), k. split; [done|]. split; [done|]. exists (error_request_id e), (error_members (message e)).
    split; [done|]. split; [rewrite Ht; apply print_line|]. split; [done|]. split; [done|]. by intros ? [= <-].
Qed.

Lemma answers_nonempty line text : answers_line line text -> (length text =? 0)%nat = false.
Proof. intros (id & ms & -> & _). unfold message_shown. by rewrite print_object. Qed.

(** *** Every byte *)

(** A connection at work: what it buffers is less than a message, and what it
    has sent are whole answer lines. *)
Record bounded (k : Client) : Prop := {
  bd_pending : size (pending k) < max;
  bd_sent : Forall (fun t => exists line text, t = text ++ [10] /\ answers_line line text) (sent_lines k);
  bd_serving : serving fixed o (connection k) }.

Lemma client_byte_bounded c k : bounded k -> yields (client_byte environment max c) (fun _ k' => bounded k') k.
Proof.
  intros [Hp Hs Hk]. unfold client_byte. apply yields_bind. unfold yields at 1. cbn [gets id].
  pose proof server_accepts as Ha. pose proof (ac_message _ Ha) as Hmax. cbn [session_options max_message_bytes] in Hmax.
  destruct (c =? 10).
  - destruct (answer_exact (environment (turns k)) (pending k) (connection k) Hk) as (text & k' & Hrun & Hk' & Hans).
    apply yields_bind. unfold yields at 1, on_connection. rewrite Hrun. apply yields_bind. unfold yields at 1. cbn [modify].
    assert (size [] < max) as H0 by (change (size []) with 0; lia).
    rewrite (answers_nonempty _ _ Hans). case_if; [by split|]. case_if; [by split|]. split; [done| |done].
    apply Forall_app. split; [done|]. apply Forall_singleton. by exists (pending k), text.
  - case_if; [by split|]. split; [|done..]. cbn [modify pending]. rewrite size_app. unfold size in *. cbn [length]. lia.
Qed.

Lemma client_bytes_bounded bytes : forall k, bounded k -> yields (client_bytes environment max bytes) (fun _ k' => bounded k') k.
Proof.
  induction bytes as [|c bytes IH]; intros k Hk; [done|]. cbn [client_bytes]. apply yields_bind.
  eapply yields_mono; [by apply client_byte_bounded|]. intros u k' Hk'. cbn beta in *. apply yields_bind.
  unfold yields at 1. cbn [gets id]. case_if; [done|by apply IH].
Qed.

Lemma client_bounded reads : forall k, bounded k -> yields (client environment max reads) (fun _ k' => bounded k') k.
Proof.
  induction reads as [|read reads IH]; intros k Hk; [done|]. cbn [client]. apply yields_bind. unfold yields at 1. cbn [gets id].
  case_if; [done|]. destruct read as [bytes|]; [|done]. case_if; [done|]. apply yields_bind.
  eapply yields_mono; [by apply client_bytes_bounded|]. intros u k' Hk'. by apply IH.
Qed.

(** *** Chunks *)

Lemma client_bytes_app a b : forall k, finish k = false ->
  client_bytes environment max (a ++ b) k =
  (do* client_bytes environment max a;; let* k := gets id in if finish k then ret tt else client_bytes environment max b) k.
Proof.
  induction a as [|c a IH]; intros k Hk; cbn [app client_bytes].
  - unfold bind, gets, ret. cbn [id]. by rewrite Hk.
  - unfold bind, gets, ret in *. cbn [id] in *.
    destruct (client_byte environment max c k) as [[u|e| |] k1]; try done.
    destruct (finish k1) eqn:Hf; [by rewrite Hf | by apply IH].
Qed.

(** The bytes the loop is given: those of the reads up to one that fails, times
    out, is stopped or is empty. *)
Fixpoint bytes_read (reads : list Read) : list Z :=
  match reads with
  | Received (c :: bytes) :: reads => (c :: bytes) ++ bytes_read reads
  | _ => []
  end.

(** The reads do not matter, only the bytes. *)
Lemma client_chunks reads : forall k, finish k = false ->
  client environment max reads k = client_bytes environment max (bytes_read reads) k.
Proof.
  induction reads as [|read reads IH]; intros k Hk; [done|]. cbn [client bytes_read].
  unfold bind at 1, gets at 1. cbn [id]. rewrite Hk. destruct read as [[|c bytes]|]; [done| |done].
  cbn [length Nat.eqb]. rewrite client_bytes_app by done. unfold bind, gets, ret in *. cbn [id] in *.
  destruct (client_bytes environment max (c :: bytes) k) as [[u|e| |] k1]; try done.
  destruct (finish k1) eqn:Hf; [|by apply IH]. destruct reads as [|read reads]; [done|]. cbn [client].
  unfold bind, gets. cbn [id]. by rewrite Hf.
Qed.

(** *** Lines *)

Definition with_pending (p : list Z) (k : Client) : Client := mkClient p (finish k) (sent_lines k) (turns k) (connection k).

Lemma client_bytes_word w : forall k rest, finish k = false -> Forall (fun c => c <> 10) w -> size (pending k ++ w) < max ->
  client_bytes environment max (w ++ rest) k = client_bytes environment max rest (with_pending (pending k ++ w) k).
Proof.
  induction w as [|c w IH]; intros k rest Hk Hw Hs; [rewrite app_nil_r; by destruct k|].
  apply Forall_cons_1 in Hw as [Hc Hw]. cbn [app client_bytes]. rewrite size_app, size_cons in Hs. pose proof (size_nonneg w).
  assert (client_byte environment max c k = (Ret tt, with_pending (pending k ++ [c]) k)) as E.
  { unfold client_byte, bind, gets. cbn [id]. destruct (Z.eqb_spec c 10); [done|]. fold (size (pending k)).
    by replace (max <=? size (pending k) + 1) with false by lia. }
  unfold bind at 1. rewrite E. unfold bind, gets. cbn [id with_pending finish]. rewrite Hk.
  rewrite IH; [|done|done|]; unfold with_pending; cbn [pending finish sent_lines turns connection]; rewrite <- app_assoc; [done|].
  cbn [app]. rewrite size_app, size_cons. lia.
Qed.

Definition unbroken (line : list Z) : Prop := Forall (fun c => c <> 10) line.

Definition with_break (line : list Z) : list Z := line ++ [10].

(** Every text is lines and an unfinished rest. *)
Lemma lines_exist bytes : exists lines rest,
  bytes = concat (map with_break lines) ++ rest /\ Forall unbroken lines /\ unbroken rest.
Proof.
  induction bytes as [|c bytes (lines & rest & -> & Hl & Hr)]; [by exists [], []; repeat constructor|].
  destruct (decide (c = 10)) as [->|Hc]; [exists ([] :: lines), rest; by repeat constructor|].
  destruct lines as [|line lines]; [exists [], (c :: rest); by repeat constructor|].
  apply Forall_cons_1 in Hl as [Hl Hls]. exists ((c :: line) :: lines), rest. by repeat constructor.
Qed.

(** What is sent to a client that has written [lines] and an unfinished [rest],
    from the [n]-th turn on, whether the connection is finished then, after how
    many turns and in which state.  It is finished by a line that is too long,
    finished or not, and by an answer that is not delivered. *)
Inductive served (rest : list Z) : nat -> Connection -> list (list Z) -> list (list Z) -> bool -> nat -> Connection -> Prop :=
| served_open n c : size rest < max -> served rest n c [] [] false n c
| served_too_long n c lines line :
    head (lines ++ [rest]) = Some line -> max <= size line -> served rest n c lines [] true n c
| served_undelivered n c line lines text c1 :
    size line < max -> answer max (environment n) line c = (Ret text, c1) -> answers_line line text ->
    delivered (environment n) = false -> served rest n c (line :: lines) [] true (S n) c1
| served_line n c line lines text texts fin m c1 c2 :
    size line < max -> answer max (environment n) line c = (Ret text, c1) -> answers_line line text ->
    delivered (environment n) = true -> served rest (S n) c1 lines texts fin m c2 ->
    served rest n c (line :: lines) (text :: texts) fin m c2.

(** A unit too many ends the connection. *)
Lemma client_bytes_too_long w : forall k rest, finish k = false -> unbroken w -> size (pending k) < max <= size (pending k ++ w) ->
  exists p, client_bytes environment max (w ++ rest) k = (Ret tt, mkClient p true (sent_lines k) (turns k) (connection k)) /\ size p < max.
Proof.
  induction w as [|c w IH]; intros k rest Hk Hw Hs; [rewrite app_nil_r in Hs; lia|].
  apply Forall_cons_1 in Hw as [Hc Hw]. cbn [app client_bytes]. unfold bind at 1, client_byte. unfold bind at 1, gets at 1. cbn [id].
  destruct (Z.eqb_spec c 10); [done|]. fold (size (pending k)). case_if.
  - unfold modify, bind, gets. cbn [id finish]. exists (pending k). by destruct Hs.
  - unfold modify, bind, gets. cbn [id finish]. rewrite Hk.
    destruct (IH (mkClient (pending k ++ [c]) false (sent_lines k) (turns k) (connection k)) rest) as (p & Hrun & Hp); [done|done| |].
    + cbn [pending]. rewrite <- app_assoc. split; [|by destruct Hs]. rewrite size_app. change (size [c]) with 1. lia.
    + by exists p.
Qed.

(** One line, with the answer it gets. *)
Lemma client_line line rest n c sent : serving fixed o c -> unbroken line -> size line < max -> exists text c1,
  answer max (environment n) line c = (Ret text, c1) /\ answers_line line text /\ serving fixed o c1 /\
  client_bytes environment max (with_break line ++ rest) (mkClient [] false sent n c) =
  if delivered (environment n)
  then client_bytes environment max rest (mkClient [] false (sent ++ [with_break text]) (S n) c1)
  else (Ret tt, mkClient [] true sent (S n) c1).
Proof.
  intros Hc Hl Hs. destruct (answer_exact (environment n) line c Hc) as (text & c1 & Hrun & Hc1 & Hans).
  exists text, c1. split; [done|]. split; [done|]. split; [done|]. unfold with_break at 1. rewrite <- app_assoc.
  rewrite client_bytes_word by done. cbn [app client_bytes]. unfold with_pending. cbn [pending finish sent_lines turns connection app].
  unfold bind at 1, client_byte. unfold bind at 1, gets at 1. cbn [id Z.eqb Pos.eqb turns pending].
  unfold bind at 1, on_connection at 1. cbn [connection]. rewrite Hrun. unfold bind, modify, gets.
  cbn [pending finish sent_lines turns connection id]. rewrite (answers_nonempty _ _ Hans).
  destruct Hans as (_ & _ & _ & _ & Hlen & _). fold (size (text ++ [10])). rewrite size_app. change (size [10]) with 1.
  replace (max <? size text + 1) with false by lia. by destruct (delivered (environment n)).
Qed.

Lemma client_lines rest lines : Forall unbroken lines -> unbroken rest -> 
  forall n c sent, serving fixed o c -> exists texts fin m c' p,
  served rest n c lines texts fin m c' /\ size p < max /\ (fin = false -> p = rest) /\
  client_bytes environment max (concat (map with_break lines) ++ rest) (mkClient [] false sent n c) =
  (Ret tt, mkClient p fin (sent ++ map with_break texts) m c').
Proof.
  pose proof (ac_message _ server_accepts) as Hm. cbn [session_options max_message_bytes] in Hm.
  assert (size [] < max) as H0 by (change (size []) with 0; lia).
  intros Hl Hr. induction Hl as [|line lines Hline Hls IH]; intros n c sent Hc; cbn [map concat app].
  - destruct (Z.lt_ge_cases (size rest) max) as [Hs|Hs].
    + exists [], false, n, c, rest. rewrite app_nil_r. split; [by constructor|]. split; [done|]. split; [done|].
      rewrite <- (app_nil_r rest) at 1. by rewrite client_bytes_word.
    + destruct (client_bytes_too_long rest (mkClient [] false sent n c) []) as (p & Hrun & Hp); [done..|].
      rewrite app_nil_r in Hrun. exists [], true, n, c, p. rewrite app_nil_r. split; [by eapply served_too_long|]. by split.
  - destruct (Z.lt_ge_cases (size line) max) as [Hs|Hs].
    + rewrite <- app_assoc. destruct (client_line line (concat (map with_break lines) ++ rest) n c sent) as (text & c1 & Ha & Hans & Hc1 & ->); [done..|].
      destruct (delivered (environment n)) eqn:Hd.
      * destruct (IH (S n) c1 (sent ++ [with_break text]) Hc1) as (texts & fin & m & c' & p & Hserved & Hp & Hrest & ->).
        exists (text :: texts), fin, m, c', p. split; [by eapply served_line|]. split; [done|]. split; [done|]. cbn [map]. by rewrite <- app_assoc.
      * exists [], true, (S n), c1, []. rewrite app_nil_r. split; [by eapply served_undelivered|]. by split.
    + destruct (client_bytes_too_long line (mkClient [] false sent n c) ([10] ++ concat (map with_break lines) ++ rest)) as (p & Hrun & Hp); [done..|].
      exists [], true, n, c, p. rewrite app_nil_r. split; [by eapply served_too_long|]. split; [done|]. split; [done|].
      unfold with_break at 1. by rewrite <- !app_assoc.
Qed.

(** Each answer that is sent is that to the line in its place. *)
Lemma served_answers rest n c lines texts fin m c' : served rest n c lines texts fin m c' ->
  Forall2 answers_line (take (length texts) lines) texts.
Proof. induction 1; cbn; by constructor. Qed.

(** Nothing but those two finishes a connection. *)
Lemma served_all rest n c lines texts fin m c' : served rest n c lines texts fin m c' ->
  Forall (fun line => size line < max) (lines ++ [rest]) -> (forall n, delivered (environment n) = true) ->
  fin = false /\ length texts = length lines.
Proof.
  induction 1 as [| n c lines line Hhead Hs| |n c line lines text texts fin m c1 c2 Hs Ha Hans Hd Hserved IH]; intros Hall Hdel; [done| | |].
  - destruct lines as [|l lines]; cbn in *; injection Hhead as ->; apply Forall_cons_1 in Hall as [Hh _]; lia.
  - by rewrite Hdel in *.
  - cbn [app] in Hall. apply Forall_cons_1 in Hall as [_ Hall]. destruct (IH Hall Hdel) as [-> E]. cbn. by rewrite E.
Qed.

Lemma start_serving now st : Inv fixed st -> serving fixed o (mkConnection (session_make o now) st).
Proof. by split. Qed.

Lemma start_bounded now st : Inv fixed st -> bounded (client_start (mkConnection (session_make o now) st)).
Proof.
  intros HI. pose proof (ac_message _ server_accepts) as Hm. cbn [session_options max_message_bytes] in Hm.
  split; [|constructor|by apply start_serving]. cbn [client_start pending]. change (size []) with 0. lia.
Qed.

(** C18: a connection answers line by line.  Whatever a client sends, however
    its bytes are cut into reads and whichever answers are delivered, the bytes
    read are lines and an unfinished rest, and from the first line on each gets
    exactly one answer, in order, as the session gives it in that turn: a
    one-line JSON object that fits the agreed size with its line break and, for
    a request, carries the request's id; a malformed line gets the parser's
    error, and the connection stays open.  Only a line, or a rest, of [max_message_bytes] or
    more and an answer that is not delivered end this: the connection is
    finished there and nothing behind it is answered.  Without them every line
    is answered, and the rest waits for its end. *)
Theorem debug_server_answers now st reads :
  Inv fixed st ->
  let c := mkConnection (session_make o now) st in
  exists lines rest texts fin m c' p,
    bytes_read reads = concat (map with_break lines) ++ rest /\ Forall unbroken lines /\ unbroken rest /\
    client environment max reads (client_start c) = (Ret tt, mkClient p fin (map with_break texts) m c') /\
    served rest 0 c lines texts fin m c' /\
    Forall2 answers_line (take (length texts) lines) texts /\
    (fin = false -> p = rest) /\
    (Forall (fun line => size line < max) (lines ++ [rest]) -> (forall n, delivered (environment n) = true) ->
     fin = false /\ length texts = length lines).
Proof.
  intros HI c. destruct (lines_exist (bytes_read reads)) as (lines & rest & E & Hl & Hr).
  destruct (client_lines rest lines Hl Hr 0 c [] (start_serving now st HI)) as (texts & fin & m & c' & p & Hserved & _ & Hp & Hrun).
  exists lines, rest, texts, fin, m, c', p. split; [done|]. split; [done|]. split; [done|].
  split; [by rewrite client_chunks, E|]. split; [done|]. split; [by eapply served_answers|]. split; [done|]. by eapply served_all.
Qed.

(** Whatever a client sends, and however the connection ends, serving it
    neither fails nor panics: the bytes it buffers stay below
    [max_message_bytes], everything it sends is whole lines of at most that
    size, each an answer, and the store stays well formed. *)
Theorem debug_server_bounded now st reads : Inv fixed st ->
  exists k, client environment max reads (client_start (mkConnection (session_make o now) st)) = (Ret tt, k) /\
    size (pending k) < max /\ Inv fixed (store_of (connection k)) /\
    Forall (fun t => exists body id ms, t = body ++ [10] /\ one_line body /\ size t <= max /\
      body = print (message_shown id ms)) (sent_lines k).
Proof.
  intros HI. pose proof (client_bounded reads _ (start_bounded now st HI)) as Hy. unfold yields in Hy.
  destruct (client _ _ _ _) as [[[]|e| |] k]; [|done..]. destruct Hy as [Hp Hs [HI' _]]. exists k.
  split; [done|]. split; [done|]. split; [done|]. eapply List.Forall_impl; [|exact Hs].
  intros t (line & text & -> & id & ms & Ht & Hline & Hsize & _). exists text, id, ms.
  split; [done|]. split; [done|]. split; [rewrite size_app; change (size [10]) with 1; lia | done].
Qed.
End promises.

(** ** A client that greets and then talks nonsense *)

Module ServerExample.
Definition options : ServerOptions :=
  mkServerOptions (mkSocketAddr V4 [127; 0; 0; 1] 9000 0 0) 8 2048 65536 32 30000000000 30000000000.
Definition environment (n : nat) : Turn := mkTurn (Z.of_nat n) (Z.of_nat n) (Z.of_nat n) true.
Definition reads : list Read :=
  [Received (lit "2 7 "); Received (lit "hello" ++ [10] ++ lit "2"); Received (lit " hi" ++ [10]);
   Received (lit "2 8 status"); ReadEnded].

Lemma served_inv : Inv Example.fixed Example.drained.
Proof.
  apply (promised_inv Example.some_options Example.info 1 Example.fixed Example.start Example.drained
    Example.options_typed Example.options_accepted Example.fixed_exact Example.start_initial Example.drained_reachable).
Qed.

End ServerExample.

Lemma debug_server_answers_witness : exists lines rest texts fin m c' p,
  bytes_read ServerExample.reads = concat (map with_break lines) ++ rest /\
  client ServerExample.environment 2048 ServerExample.reads
    (client_start (mkConnection (session_make (session_options ServerExample.options) 0) Example.drained)) =
  (Ret tt, mkClient p fin (map with_break texts) m c').
Proof.
  destruct (debug_server_answers Example.fixed ServerExample.options ServerExample.environment eq_refl ltac:(by vm_compute)
    0 Example.drained ServerExample.reads ServerExample.served_inv)
    as (lines & rest & texts & fin & m & c' & p & E & _ & _ & Hrun & _).
  exists lines, rest, texts, fin, m, c', p. split; [exact E | exact Hrun].
Defined.

Lemma debug_server_bounded_witness : exists k,
  client ServerExample.environment 2048 [Received (replicate 3000 65)]
    (client_start (mkConnection (session_make (session_options ServerExample.options) 0) Example.drained)) = (Ret tt, k) /\
  size (pending k) < 2048.
Proof.
  destruct (debug_server_bounded Example.fixed ServerExample.options ServerExample.environment eq_refl ltac:(by vm_compute)
    0 Example.drained [Received (replicate 3000 65)] ServerExample.served_inv) as (k & Hrun & Hp & _).
  exists k. split; [exact Hrun | exact Hp].
Defined.
