(* ===== verification/Time.v ===== *)
(** * Arithmetic of durations

    Models [Duration] of [src/core/src/time.cppm], its constructors, queries,
    comparison and checked and saturating arithmetic, over the integer
    operators of [Int], which panic on overflow in a checking build and wrap
    in any other; the theorems hold for both.  A duration is the number of its
    nanoseconds, and every operation is the operation on that number. *)

From Stdlib Require Import ZArith Lia ZifyBool.
From S2P Require Import Prelude Int Duration.
Local Open Scope Z_scope.
Local Open Scope rstd_scope.

(** ** Operators that cannot return an error *)

Notation total_result := (outcome Empty_set).

Definition or_panic {E A} (o : option A) : outcome E A :=
  match o with Some a => Ret a | None => Panic end.

(** [rstd::try_from] between integer types keeps what is in range. *)
Definition try_from (t : int_type) (value : Z) : option Z :=
  if in_range t value then Some value else None.

Section Operators.
Context (check : bool) {E : Type}.

Definition add (t : int_type) (a b : Z) : outcome E Z := or_panic (op_add check t a b).
Definition sub (t : int_type) (a b : Z) : outcome E Z := or_panic (op_sub check t a b).
Definition mul (t : int_type) (a b : Z) : outcome E Z := or_panic (op_mul check t a b).
Definition div (t : int_type) (a b : Z) : outcome E Z := or_panic (op_div t a b).
Definition rem (t : int_type) (a b : Z) : outcome E Z := or_panic (op_rem t a b).

(** In range, an operator is the operation of the integers. *)
Lemma guarded_fits t z :
  wf_type t = true -> in_range t z = true -> guarded check (wrap t z, negb (in_range t z)) = Some z.
Proof.
  intros Ht H. unfold guarded. rewrite H. cbn [negb andb]. f_equal.
  apply wrap_id; [apply wf_type_width in Ht; lia|done].
Qed.

Lemma add_fits t a b : wf_type t = true -> in_range t (a + b) = true -> add t a b = Ret (a + b).
Proof. intros. unfold add, op_add, overflowing_add, add_with_overflow. by rewrite guarded_fits. Qed.

Lemma sub_fits t a b : wf_type t = true -> in_range t (a - b) = true -> sub t a b = Ret (a - b).
Proof. intros. unfold sub, op_sub, overflowing_sub, sub_with_overflow. by rewrite guarded_fits. Qed.

Lemma mul_fits t a b : wf_type t = true -> in_range t (a * b) = true -> mul t a b = Ret (a * b).
Proof. intros. unfold mul, op_mul, overflowing_mul, mul_with_overflow. by rewrite guarded_fits. Qed.

Lemma div_fits t a b : 0 <= a -> 0 < b -> div t a b = Ret (a / b).
Proof. intros. unfold div. by rewrite op_div_exact. Qed.

Lemma rem_fits t a b : 0 <= a -> 0 < b -> rem t a b = Ret (a mod b).
Proof.
  intros. unfold rem, op_rem, overflowing_rem. replace (b =? 0) with false by lia.
  replace (b =? -1) with false by lia. rewrite andb_false_r. cbn. by rewrite Z.rem_mod_nonneg by lia.
Qed.
End Operators.

Lemma checked_exact t z :
  wf_type t = true -> checked (wrap t z, negb (in_range t z)) = try_from t z.
Proof.
  intros Ht. unfold checked, try_from. destruct (in_range t z) eqn:H; [|done]. cbn.
  f_equal. apply wrap_id; [apply wf_type_width in Ht; lia|done].
Qed.

Lemma checked_add_try t a b : wf_type t = true -> checked_add t a b = try_from t (a + b).
Proof. intros. unfold checked_add, overflowing_add, add_with_overflow. by apply checked_exact. Qed.

Lemma checked_sub_try t a b : wf_type t = true -> checked_sub t a b = try_from t (a - b).
Proof. intros. unfold checked_sub, overflowing_sub, sub_with_overflow. by apply checked_exact. Qed.

Lemma checked_mul_try t a b : wf_type t = true -> checked_mul t a b = try_from t (a * b).
Proof. intros. unfold checked_mul, overflowing_mul, mul_with_overflow. by apply checked_exact. Qed.

Lemma try_from_some t z : in_range t z = true -> try_from t z = Some z.
Proof. unfold try_from. by intros ->. Qed.

Lemma try_from_none t z : in_range t z = false -> try_from t z = None.
Proof. unfold try_from. by intros ->. Qed.

(** The bounds of the types the clocks use. *)
Lemma range_u8 z : in_range u8 z = (0 <=? z) && (z <=? 255).
Proof. reflexivity. Qed.
Lemma range_u16 z : in_range u16 z = (0 <=? z) && (z <=? 65535).
Proof. reflexivity. Qed.
Lemma range_u32 z : in_range u32 z = (0 <=? z) && (z <=? 4294967295).
Proof. reflexivity. Qed.
Lemma range_u64 z : in_range u64 z = (0 <=? z) && (z <=? 18446744073709551615).
Proof. reflexivity. Qed.
Lemma range_u128 z :
  in_range u128 z = (0 <=? z) && (z <=? 340282366920938463463374607431768211455).
Proof. reflexivity. Qed.
Lemma range_i32 z : in_range i32 z = (-2147483648 <=? z) && (z <=? 2147483647).
Proof. reflexivity. Qed.
Lemma range_i64 z :
  in_range i64 z = (-9223372036854775808 <=? z) && (z <=? 9223372036854775807).
Proof. reflexivity. Qed.
Lemma range_i128 z :
  in_range i128 z = (-170141183460469231731687303715884105728 <=? z) &&
                    (z <=? 170141183460469231731687303715884105727).
Proof. reflexivity. Qed.

Ltac ranges :=
  rewrite ?range_u8, ?range_u16, ?range_u32, ?range_u64, ?range_u128,
    ?range_i32, ?range_i64, ?range_i128 in *.

Ltac div_lia := unfold NANOS_PER_SEC, NANOS_PER_MILLI, NANOS_PER_MICRO in *; ranges;
  Z.to_euclidean_division_equations; lia.

(** Runs operators whose results are in range. *)
Ltac fits := repeat (
  (rewrite add_fits || rewrite sub_fits || rewrite mul_fits || rewrite div_fits || rewrite rem_fits);
  [|first [reflexivity|div_lia]..]; cbn [obind]); cbn [obind].

(** ** Durations *)

Definition MILLIS_PER_SEC : Z := 1000.
Definition MICROS_PER_SEC : Z := 1000000.

Definition Duration_ZERO : Duration := mkDuration 0 0.
Definition Duration_MAX : Duration := mkDuration (MAX u64) (NANOS_PER_SEC - 1).

Section Durations.
Context (check : bool).

Definition new_ (secs nanos : Z) : total_result Duration :=
  let! carry := div u32 nanos NANOS_PER_SEC in
  let! secs := add check u64 secs carry in
  let! nanos := rem u32 nanos NANOS_PER_SEC in
  Ret (mkDuration secs nanos).

Definition from_secs (secs : Z) : Duration := mkDuration secs 0.

Definition from_millis (millis : Z) : total_result Duration :=
  let! remainder := rem u64 millis MILLIS_PER_SEC in
  let! secs := div u64 millis MILLIS_PER_SEC in
  let! nanos := mul check u32 (wrap u32 remainder) NANOS_PER_MILLI in
  Ret (mkDuration secs nanos).

Definition from_micros (micros : Z) : total_result Duration :=
  let! remainder := rem u64 micros MICROS_PER_SEC in
  let! secs := div u64 micros MICROS_PER_SEC in
  let! nanos := mul check u32 (wrap u32 remainder) NANOS_PER_MICRO in
  Ret (mkDuration secs nanos).

Definition from_nanos (nanos : Z) : total_result Duration :=
  let! secs := div u64 nanos NANOS_PER_SEC in
  let! rest := rem u64 nanos NANOS_PER_SEC in
  Ret (mkDuration secs (wrap u32 rest)).

Definition is_zero (self : Duration) : bool := (as_secs self =? 0) && (subsec_nanos self =? 0).

Definition subsec_millis (self : Duration) : total_result Z := div u32 (subsec_nanos self) NANOS_PER_MILLI.
Definition subsec_micros (self : Duration) : total_result Z := div u32 (subsec_nanos self) NANOS_PER_MICRO.

Definition as_millis (self : Duration) : total_result Z :=
  let! whole := mul check u64 (as_secs self) MILLIS_PER_SEC in
  let! millis := subsec_millis self in
  add check u64 whole millis.

Definition as_micros (self : Duration) : total_result Z :=
  let! whole := mul check u64 (as_secs self) MICROS_PER_SEC in
  let! micros := subsec_micros self in
  add check u64 whole micros.

Definition as_nanos (self : Duration) : total_result Z :=
  let! whole := mul check u128 (as_secs self) NANOS_PER_SEC in
  add check u128 whole (subsec_nanos self).

(** [operator<=>] *)
Definition duration_cmp (a b : Duration) : comparison :=
  match as_secs a ?= as_secs b with
  | Eq => subsec_nanos a ?= subsec_nanos b
  | c => c
  end.

(** [_nanos + rhs._nanos] and its carry come first, then the checked sum of
    the seconds and the checked carry. *)
Definition duration_checked_add (self rhs : Duration) : total_result (option Duration) :=
  let! nanos := add check u32 (subsec_nanos self) (subsec_nanos rhs) in
  let carry := NANOS_PER_SEC <=? nanos in
  let! nanos := (if carry then sub check u32 nanos NANOS_PER_SEC else Ret nanos) in
  match checked_add u64 (as_secs self) (as_secs rhs) with
  | None => Ret None
  | Some value =>
    if carry then
      match checked_add u64 value 1 with
      | None => Ret None
      | Some value => Ret (Some (mkDuration value nanos))
      end
    else Ret (Some (mkDuration value nanos))
  end.

Definition duration_checked_sub (self rhs : Duration) : total_result (option Duration) :=
  if (as_secs self <? as_secs rhs)
     || ((as_secs self =? as_secs rhs) && (subsec_nanos self <? subsec_nanos rhs)) then Ret None
  else
    let! secs := sub check u64 (as_secs self) (as_secs rhs) in
    if subsec_nanos rhs <=? subsec_nanos self then
      let! nanos := sub check u32 (subsec_nanos self) (subsec_nanos rhs) in
      Ret (Some (mkDuration secs nanos))
    else
      let! lifted := add check u32 (subsec_nanos self) NANOS_PER_SEC in
      let! nanos := sub check u32 lifted (subsec_nanos rhs) in
      let! secs := sub check u64 secs 1 in
      Ret (Some (mkDuration secs nanos)).

Definition duration_checked_mul (self : Duration) (rhs : Z) : total_result (option Duration) :=
  let! whole := mul check u128 (as_secs self) NANOS_PER_SEC in
  let! all := add check u128 whole (subsec_nanos self) in
  match checked_mul u128 all rhs with
  | None => Ret None
  | Some value =>
    let! secs := div u128 value NANOS_PER_SEC in
    if MAX u64 <? secs then Ret None
    else
      let! rest := rem u128 value NANOS_PER_SEC in
      Ret (Some (mkDuration (wrap u64 secs) (wrap u32 rest)))
  end.

Definition duration_checked_div (self : Duration) (rhs : Z) : total_result (option Duration) :=
  if rhs =? 0 then Ret None
  else
    let! whole := mul check u128 (as_secs self) NANOS_PER_SEC in
    let! all := add check u128 whole (subsec_nanos self) in
    let! value := div u128 all rhs in
    let! secs := div u128 value NANOS_PER_SEC in
    let! rest := rem u128 value NANOS_PER_SEC in
    Ret (Some (mkDuration (wrap u64 secs) (wrap u32 rest))).

Definition duration_saturating_add (self rhs : Duration) : total_result Duration :=
  let! r := duration_checked_add self rhs in Ret (default Duration_MAX r).

Definition duration_saturating_sub (self rhs : Duration) : total_result Duration :=
  let! r := duration_checked_sub self rhs in Ret (default Duration_ZERO r).

Definition duration_saturating_mul (self : Duration) (rhs : Z) : total_result Duration :=
  let! r := duration_checked_mul self rhs in Ret (default Duration_MAX r).

(** [operator+], [operator-], [operator*] and [operator/]: [unwrap] panics
    on [None]. *)
Definition unwrap {A} (r : total_result (option A)) : total_result A :=
  let! o := r in or_panic o.

Definition duration_add (a b : Duration) : total_result Duration := unwrap (duration_checked_add a b).
Definition duration_sub (a b : Duration) : total_result Duration := unwrap (duration_checked_sub a b).
Definition duration_mul (a : Duration) (b : Z) : total_result Duration := unwrap (duration_checked_mul a b).
Definition duration_div (a : Duration) (b : Z) : total_result Duration := unwrap (duration_checked_div a b).
End Durations.

(** ** A duration is the number of its nanoseconds *)

Definition nanoseconds (d : Duration) : Z := as_secs d * NANOS_PER_SEC + subsec_nanos d.

(** The duration of a number of nanoseconds. *)
Definition of_nanoseconds (n : Z) : Duration := mkDuration (n / NANOS_PER_SEC) (n mod NANOS_PER_SEC).

Definition MAX_NANOSECONDS : Z := nanoseconds Duration_MAX.

Lemma max_nanoseconds : MAX_NANOSECONDS = 18446744073709551615999999999.
Proof. reflexivity. Qed.

Lemma duration_eq a b : as_secs a = as_secs b -> subsec_nanos a = subsec_nanos b -> a = b.
Proof. destruct a, b; cbn. by intros -> ->. Qed.

Ltac durations :=
  unfold duration_ok, nanoseconds, of_nanoseconds, NANOS_PER_SEC, NANOS_PER_MILLI, NANOS_PER_MICRO,
    MILLIS_PER_SEC, MICROS_PER_SEC in *;
  rewrite ?max_nanoseconds in *; ranges; cbn [as_secs subsec_nanos] in *.

(** Arithmetic over [/] and [mod] by constants and the fields of durations. *)
Ltac duration_lia := durations; Z.to_euclidean_division_equations; lia.

Lemma nanoseconds_range d : duration_ok d -> 0 <= nanoseconds d <= MAX_NANOSECONDS.
Proof. intros. duration_lia. Qed.

Lemma of_nanoseconds_ok n : 0 <= n <= MAX_NANOSECONDS -> duration_ok (of_nanoseconds n).
Proof. intros. duration_lia. Qed.

Lemma nanoseconds_of n : nanoseconds (of_nanoseconds n) = n.
Proof. duration_lia. Qed.

Lemma of_nanoseconds_parts secs nanos :
  0 <= nanos < NANOS_PER_SEC -> mkDuration secs nanos = of_nanoseconds (secs * NANOS_PER_SEC + nanos).
Proof. intros. apply duration_eq; duration_lia. Qed.

Lemma of_nanoseconds_nanoseconds d : duration_ok d -> of_nanoseconds (nanoseconds d) = d.
Proof. intros []. destruct d. symmetry. by apply of_nanoseconds_parts. Qed.

Lemma nanoseconds_inj a b : duration_ok a -> duration_ok b -> nanoseconds a = nanoseconds b -> a = b.
Proof. intros Ha Hb E. by rewrite <- (of_nanoseconds_nanoseconds a), E, of_nanoseconds_nanoseconds. Qed.

(** A pair of fields is the duration of [n] nanoseconds. *)
Ltac by_nanos := first
  [ rewrite of_nanoseconds_parts by duration_lia; do 2 f_equal; duration_lia
  | rewrite of_nanoseconds_parts by duration_lia; f_equal; duration_lia ].

(** [Some] of the duration of [n] nanoseconds, when it is one. *)
Definition fitting (n : Z) : option Duration :=
  if (0 <=? n) && (n <=? MAX_NANOSECONDS) then Some (of_nanoseconds n) else None.

Lemma duration_cmp_exact a b :
  duration_ok a -> duration_ok b -> duration_cmp a b = (nanoseconds a ?= nanoseconds b).
Proof.
  intros Ha Hb. unfold duration_cmp. destruct (Z.compare_spec (as_secs a) (as_secs b)) as [E|L|L]; symmetry.
  - unfold nanoseconds. rewrite E. apply Z.add_compare_mono_l.
  - rewrite Z.compare_lt_iff. duration_lia.
  - rewrite Z.compare_gt_iff. duration_lia.
Qed.

Section Exact.
Context (check : bool).

Lemma new_exact secs nanos :
  in_range u64 secs = true -> in_range u32 nanos = true ->
  secs * NANOS_PER_SEC + nanos <= MAX_NANOSECONDS ->
  new_ check secs nanos = Ret (of_nanoseconds (secs * NANOS_PER_SEC + nanos)).
Proof.
  intros Hs Hn Hm. rewrite max_nanoseconds in Hm. unfold new_. fits. f_equal.
  apply duration_eq; duration_lia.
Qed.

(** A checked sum of seconds and its carry agree with the checked total. *)
Lemma duration_checked_add_exact a b :
  duration_ok a -> duration_ok b ->
  duration_checked_add check a b = Ret (fitting (nanoseconds a + nanoseconds b)).
Proof.
  intros Ha Hb. unfold duration_checked_add, fitting. rewrite max_nanoseconds. durations.
  rewrite checked_add_try by done. unfold try_from. ranges. fits.
  destruct (1000000000 <=? subsec_nanos a + subsec_nanos b) eqn:Hc; fits.
  - destruct ((0 <=? as_secs a + as_secs b) && _) eqn:Hs.
    + rewrite checked_add_try by done. unfold try_from. ranges. repeat case_if; try lia; [|done].
      f_equal. f_equal. apply duration_eq; duration_lia.
    + case_if; [lia|done].
  - repeat case_if; try lia; [|done]. f_equal. f_equal. apply duration_eq; duration_lia.
Qed.

Lemma duration_checked_sub_exact a b :
  duration_ok a -> duration_ok b ->
  duration_checked_sub check a b = Ret (fitting (nanoseconds a - nanoseconds b)).
Proof.
  intros Ha Hb. unfold duration_checked_sub, fitting. rewrite max_nanoseconds. durations.
  destruct (_ || _) eqn:Hlt; [case_if; [lia|done]|]. fits.
  destruct (subsec_nanos b <=? subsec_nanos a) eqn:Hc; fits; (case_if; [|lia]);
    f_equal; f_equal; apply duration_eq; duration_lia.
Qed.

(** [u128(_secs) * per_second + u128(_nanos)] *)
Lemma whole_exact {A} d (k : Z -> total_result A) : duration_ok d ->
  (let! whole := mul check u128 (as_secs d) NANOS_PER_SEC in
   let! all := add check u128 whole (subsec_nanos d) in k all) = k (nanoseconds d).
Proof. intros. durations. by fits. Qed.

Lemma split_exact n : 0 <= n <= MAX_NANOSECONDS ->
  mkDuration (wrap u64 (n / NANOS_PER_SEC)) (wrap u32 (n mod NANOS_PER_SEC)) = of_nanoseconds n.
Proof.
  intros. rewrite max_nanoseconds in *. unfold of_nanoseconds. by rewrite !wrap_id by (first [reflexivity|div_lia]).
Qed.

Lemma duration_checked_mul_exact a rhs :
  duration_ok a -> in_range u32 rhs = true ->
  duration_checked_mul check a rhs = Ret (fitting (nanoseconds a * rhs)).
Proof.
  intros Ha Hr. pose proof (nanoseconds_range a Ha) as Hn. rewrite max_nanoseconds in Hn.
  unfold duration_checked_mul, fitting. rewrite whole_exact by done.
  rewrite checked_mul_try by done. ranges. assert (0 <= nanoseconds a * rhs) by nia.
  rewrite try_from_some by (ranges; nia). rewrite div_fits by done. cbn [obind].
  change (MAX u64) with 18446744073709551615. case_if.
  - case_if; [|done]. rewrite max_nanoseconds in *. div_lia.
  - rewrite rem_fits by done. cbn [obind].
    case_if; [by rewrite split_exact by lia|]. rewrite max_nanoseconds in *. div_lia.
Qed.

Lemma duration_checked_div_exact a rhs :
  duration_ok a -> in_range u32 rhs = true ->
  duration_checked_div check a rhs = Ret (if rhs =? 0 then None else fitting (nanoseconds a / rhs)).
Proof.
  intros Ha Hr. pose proof (nanoseconds_range a Ha) as Hn.
  unfold duration_checked_div, fitting. rewrite whole_exact by done. case_if; [done|]. ranges.
  assert (0 <= nanoseconds a / rhs <= nanoseconds a).
  { split; [apply Z.div_pos; lia|]. apply Z.div_le_upper_bound; [lia|]. nia. }
  rewrite div_fits by lia. cbn [obind]. rewrite div_fits by (done || lia). cbn [obind].
  rewrite rem_fits by (done || lia). cbn [obind]. rewrite split_exact by lia.
  case_if; [done|lia].
Qed.

(** The duration nearest to [n] nanoseconds. *)
Definition saturated (n : Z) : Duration := of_nanoseconds (Z.max 0 (Z.min MAX_NANOSECONDS n)).

Lemma saturated_add n : 0 <= n -> default Duration_MAX (fitting n) = saturated n.
Proof.
  intros. unfold fitting, saturated. rewrite max_nanoseconds in *. case_if; cbn [default from_option id].
  - f_equal. lia.
  - replace (Z.max _ _) with MAX_NANOSECONDS by (rewrite max_nanoseconds; lia). by vm_compute.
Qed.

Lemma saturated_sub n : n <= MAX_NANOSECONDS -> default Duration_ZERO (fitting n) = saturated n.
Proof.
  intros. unfold fitting, saturated. rewrite max_nanoseconds in *. case_if; cbn [default from_option id].
  - f_equal. lia.
  - by replace (Z.max _ _) with 0 by lia.
Qed.
End Exact.

(** C34: Duration arithmetic is arithmetic on nanoseconds.  Addition,
    subtraction, multiplication by and division by a [u32] return the exact
    result when it is a duration (division rounds down) and [None] otherwise,
    that is when it is negative, above [Duration_MAX] or the divisor is zero;
    the operators panic exactly then, the saturating forms return the nearest
    duration, comparison compares nanoseconds, and no intermediate [u32], [u64]
    or [u128] operation overflows, in a checking build or not. *)
Theorem duration_arithmetic_exact check a b rhs :
  duration_ok a -> duration_ok b -> in_range u32 rhs = true ->
  let x := nanoseconds a in let y := nanoseconds b in
  (duration_checked_add check a b = Ret (fitting (x + y)) /\
   duration_checked_sub check a b = Ret (fitting (x - y)) /\
   duration_checked_mul check a rhs = Ret (fitting (x * rhs)) /\
   duration_checked_div check a rhs = Ret (if rhs =? 0 then None else fitting (x / rhs))) /\
  (duration_saturating_add check a b = Ret (saturated (x + y)) /\
   duration_saturating_sub check a b = Ret (saturated (x - y)) /\
   duration_saturating_mul check a rhs = Ret (saturated (x * rhs))) /\
  (duration_add check a b = or_panic (fitting (x + y)) /\
   duration_sub check a b = or_panic (fitting (x - y)) /\
   duration_mul check a rhs = or_panic (fitting (x * rhs)) /\
   duration_div check a rhs = or_panic (if rhs =? 0 then None else fitting (x / rhs))) /\
  duration_cmp a b = (x ?= y).
Proof.
  intros Ha Hb Hr x y. pose proof (nanoseconds_range a Ha). pose proof (nanoseconds_range b Hb).
  assert (0 <= x * rhs) by (ranges; nia).
  unfold duration_saturating_add, duration_saturating_sub, duration_saturating_mul,
    duration_add, duration_sub, duration_mul, duration_div, unwrap.
  rewrite duration_checked_add_exact, duration_checked_sub_exact, duration_checked_mul_exact,
    duration_checked_div_exact by done. cbn [obind].
  rewrite !saturated_add, saturated_sub by lia. auto 20 using duration_cmp_exact.
Qed.

Lemma duration_arithmetic_exact_witness :
  duration_sub true (mkDuration 1 0) (mkDuration 0 1) = Ret (mkDuration 0 999999999) /\
  duration_saturating_mul false Duration_MAX 2 = Ret Duration_MAX.
Proof.
  pose proof (duration_arithmetic_exact true (mkDuration 1 0) (mkDuration 0 1) 2 ltac:(by vm_compute)
    ltac:(by vm_compute) eq_refl) as (_ & _ & (_ & H & _) & _).
  pose proof (duration_arithmetic_exact false Duration_MAX Duration_ZERO 2 ltac:(by vm_compute)
    ltac:(by vm_compute) eq_refl) as (_ & (_ & _ & K) & _).
  split; [exact H|exact K].
Defined.

(** ** Units *)

(** What an operator of type [t] makes of the exact result [z]: [z] in range,
    otherwise a panic in a checking build and the wrapped value in any other. *)
Definition in_width (check : bool) (t : int_type) (z : Z) : total_result Z :=
  or_panic (guarded check (wrap t z, negb (in_range t z))).

Lemma in_width_fits check t z : wf_type t = true -> in_range t z = true -> in_width check t z = Ret z.
Proof. intros. unfold in_width. by rewrite guarded_fits. Qed.

(** A product and a sum that wraps back: overflow of the first is overflow of
    the whole, when both terms are unsigned. *)
Lemma mul_add_width check t a b c :
  wf_type t = true -> is_signed t = false -> 0 <= a -> 0 <= b -> in_range t c = true ->
  (let! whole := mul check t a b in add check t whole c) = in_width check t (a * b + c).
Proof.
  intros Ht Hs Ha Hb Hc. pose proof (wf_type_width t Ht) as Hw.
  assert (forall z, in_range t z = (0 <=? z) && (z <=? 2 ^ bit_width t - 1)) as HR
    by (intros; unfold in_range, MIN, MAX; by rewrite Hs).
  assert (forall z, wrap t z = z mod 2 ^ bit_width t) as HW by (intros; unfold wrap; by rewrite Hs).
  unfold mul, add, in_width, op_mul, op_add, overflowing_mul, overflowing_add, mul_with_overflow, add_with_overflow.
  destruct (in_range t (a * b)) eqn:Hab.
  - unfold guarded at 1. cbn [negb andb or_panic obind]. rewrite (wrap_id t ltac:(lia) (a * b)) by done. done.
  - rewrite HR in *. assert (0 <= a * b) by nia. unfold guarded. cbn [negb andb].
    replace ((0 <=? a * b + c) && (a * b + c <=? 2 ^ bit_width t - 1)) with false by lia. cbn [negb andb].
    destruct check; [done|]. cbn [or_panic obind]. rewrite andb_false_r. cbn [or_panic].
    rewrite !HW. by rewrite Z.add_mod_idemp_l by lia.
Qed.

Lemma as_unit_exact check d per n : duration_ok d -> 0 < per -> 0 < n -> NANOS_PER_SEC = per * n ->
  (let! whole := mul check u64 (as_secs d) per in
   let! part := (div u32 (subsec_nanos d) n : total_result Z) in add check u64 whole part)
  = in_width check u64 (nanoseconds d / n).
Proof.
  intros [Hs Hn] Hp Hpos E. replace (nanoseconds d / n) with (as_secs d * per + subsec_nanos d / n).
  - rewrite <- mul_add_width; try done; [|ranges; lia..|].
    + destruct (mul check u64 (as_secs d) per); [|done..]. cbn [obind]. by rewrite div_fits by lia.
    + ranges. assert (0 <= subsec_nanos d / n <= subsec_nanos d); [|unfold NANOS_PER_SEC in *; lia].
      split; [apply Z.div_pos; lia|]. apply Z.div_le_upper_bound; [lia|]. nia.
  - unfold nanoseconds. rewrite E, Z.mul_assoc, Z.div_add_l by lia. done.
Qed.

(** Constructors and queries convert between units exactly.  A duration
    built from seconds, milliseconds, microseconds or nanoseconds has that
    many nanoseconds; [new_] carries whole seconds out of its nanoseconds;
    [as_millis] and [as_micros] round down; where a count of the unit is
    beyond its type the operators panic in a checking build and wrap in any
    other; [as_nanos] never overflows, and building from it gives the
    duration back. *)
Theorem duration_units_exact check n nanos d :
  in_range u64 n = true -> in_range u32 nanos = true -> duration_ok d ->
  from_secs n = of_nanoseconds (n * NANOS_PER_SEC) /\
  from_millis check n = Ret (of_nanoseconds (n * NANOS_PER_MILLI)) /\
  from_micros check n = Ret (of_nanoseconds (n * NANOS_PER_MICRO)) /\
  from_nanos n = Ret (of_nanoseconds n) /\
  new_ check n nanos = obind (in_width check u64 ((n * NANOS_PER_SEC + nanos) / NANOS_PER_SEC))
    (fun secs => Ret (mkDuration secs (nanos mod NANOS_PER_SEC))) /\
  as_millis check d = in_width check u64 (nanoseconds d / NANOS_PER_MILLI) /\
  as_micros check d = in_width check u64 (nanoseconds d / NANOS_PER_MICRO) /\
  as_nanos check d = Ret (nanoseconds d) /\
  (in_range u64 (nanoseconds d) = true -> obind (as_nanos check d) from_nanos = Ret d) /\
  is_zero d = (nanoseconds d =? 0).
Proof.
  intros Hn Hnanos Hd. pose proof (nanoseconds_range d Hd) as Hr. rewrite max_nanoseconds in Hr.
  assert (forall n, in_range u64 n = true -> from_nanos n = Ret (of_nanoseconds n)) as Hfrom.
  { intros m Hm. unfold from_nanos, of_nanoseconds. ranges. fits. do 2 f_equal.
    by apply wrap_id; [|div_lia]. }
  assert (as_nanos check d = Ret (nanoseconds d)) as Has.
  { unfold as_nanos. rewrite <- (whole_exact check d Ret) by done.
    destruct (mul check u128 (as_secs d) NANOS_PER_SEC); [|done..]. cbn [obind].
    by destruct (add check u128 a (subsec_nanos d)). }
  split_and_all.
  - unfold from_secs. apply duration_eq; duration_lia.
  - unfold from_millis, MILLIS_PER_SEC. ranges. fits. rewrite wrap_id by (done || div_lia). fits. f_equal. apply duration_eq; duration_lia.
  - unfold from_micros, MICROS_PER_SEC. ranges. fits. rewrite wrap_id by (done || div_lia). fits. f_equal. apply duration_eq; duration_lia.
  - by apply Hfrom.
  - unfold new_. ranges. rewrite div_fits by (done || div_lia). cbn [obind]. rewrite Z.div_add_l by (done || div_lia).
    unfold in_width, add, op_add, overflowing_add, add_with_overflow.
    destruct (guarded _ _); [|done]. cbn [or_panic obind]. by rewrite rem_fits by (done || div_lia).
  - by apply as_unit_exact.
  - by apply as_unit_exact.
  - exact Has.
  - intros Hf. rewrite Has. cbn [obind]. rewrite Hfrom by done. by rewrite of_nanoseconds_nanoseconds.
  - clear - Hd. unfold is_zero. durations. destruct (as_secs d =? 0) eqn:?, (subsec_nanos d =? 0) eqn:?; cbn [andb]; lia.
Qed.

Lemma duration_units_exact_witness :
  from_millis true 1500 = Ret (mkDuration 1 500000000) /\ as_millis true Duration_MAX = Panic.
Proof.
  pose proof (duration_units_exact true 1500 0 Duration_MAX eq_refl eq_refl ltac:(by vm_compute))
    as (_ & H & _ & _ & _ & K & _).
  split; [exact H|exact K].
Defined.
