(* ===== verification/Clock.v ===== *)
(** * Clocks: what the platforms promise to [rstd::time]

    [src/std/src/time/mod.cppm] builds [Instant] and [SystemTime] over the
    clock of the platform.  The classes here are the operations it calls and
    the laws it counts on: a point of time is a position on the clock's axis,
    a duration is cut to a length on that axis, and the checked operations
    move by that length or report that the axis ends.  [UnixClock] and
    [WindowsClock] implement the classes; the theorems of this file are proved
    against them.  A clock is read outside the sources, so a reading is an
    argument. *)

From Stdlib Require Import ZArith Lia ZifyBool.
From S2P Require Import Prelude Int Duration Time.
Local Open Scope Z_scope.
Local Open Scope rstd_scope.

(** ** The operations *)

Class TimePoint (T : Type) := {
  point_cmp : T -> T -> comparison;
  checked_add_duration : T -> Duration -> total_result (option T);
  checked_sub_duration : T -> Duration -> total_result (option T) }.

Class Monotonic (T : Type) := { duration_since : T -> T -> total_result Duration }.

Record UnixTime := mkUnixTime { unix_seconds : Z; unix_nanoseconds : Z }.

Class SystemClock (T : Type) := {
  unix_epoch : T;
  sub_time : T -> T -> total_result (result Duration Duration);
  from_unix_time : Z -> Z -> total_result (option T);
  as_unix_time : T -> total_result UnixTime }.

(** ** The laws *)

Class TimePointLaws (T : Type) `{TimePoint T} := {
  point_ok : T -> Prop;
  position : T -> Z;
  lowest : Z;
  highest : Z;
  length_of : Duration -> Z;
  duration_of : Z -> Duration;
  position_range t : point_ok t -> lowest <= position t <= highest;
  position_inj a b : point_ok a -> point_ok b -> position a = position b -> a = b;
  cmp_position a b : point_ok a -> point_ok b -> point_cmp a b = (position a ?= position b);
  length_nonneg d : duration_ok d -> 0 <= length_of d;
  duration_of_length d : duration_ok d -> nanoseconds (duration_of (length_of d)) <= nanoseconds d;
  duration_of_zero : duration_of 0 = Duration_ZERO;
  add_position t d : point_ok t -> duration_ok d ->
    match checked_add_duration t d with
    | Ret (Some t') => point_ok t' /\ position t' = position t + length_of d
    | Ret None => highest < position t + length_of d
    | _ => False
    end;
  sub_position t d : point_ok t -> duration_ok d ->
    match checked_sub_duration t d with
    | Ret (Some t') => point_ok t' /\ position t' = position t - length_of d
    | Ret None => position t - length_of d < lowest
    | _ => False
    end }.

Class MonotonicLaws (T : Type) `{TimePointLaws T, Monotonic T} :=
  since_position (a b : T) : point_ok a -> point_ok b ->
    duration_since a b = Ret (duration_of (Z.max 0 (position a - position b))).

(** [grain] is what the clock cuts the nanoseconds of a Unix time to. *)
Class SystemClockLaws (T : Type) `{TimePointLaws T, SystemClock T} := {
  grain : Z;
  unix_position : Z -> Z -> Z;
  grain_positive : 0 < grain;
  epoch_position : point_ok unix_epoch /\ position unix_epoch = unix_position 0 0;
  sub_time_position a b : point_ok a -> point_ok b ->
    sub_time a b = Ret (if position b <=? position a then Ok (duration_of (position a - position b))
                        else Err (duration_of (position b - position a)));
  from_unix_position s n : in_range i64 s = true -> in_range u32 n = true ->
    match from_unix_time s n with
    | Ret (Some t) => point_ok t /\ n < NANOS_PER_SEC /\ position t = unix_position s n
    | Ret None => NANOS_PER_SEC <= n \/ ~ lowest <= unix_position s n <= highest
    | _ => False
    end;
  as_unix_position t : point_ok t -> exists s n, as_unix_time t = Ret (mkUnixTime s n) /\
    in_range i64 s = true /\ 0 <= n < NANOS_PER_SEC /\ (grain | n) /\ unix_position s n = position t;
  unix_position_cut s n s' n' : 0 <= n < NANOS_PER_SEC -> 0 <= n' < NANOS_PER_SEC -> (grain | n') ->
    unix_position s n = unix_position s' n' -> s' = s /\ n' = n - n mod grain }.

(** ** [Instant] and [SystemTime] of [rstd::time] *)

Section Points.
Context {T : Type} `{TimePoint T}.

(** [operator+(T, Duration)] and [operator-(T, Duration)] *)
Definition point_add (a : T) (b : Duration) : total_result T := unwrap (checked_add_duration a b).
Definition point_sub (a : T) (b : Duration) : total_result T := unwrap (checked_sub_duration a b).

(** [elapsed]: [now] is the reading of the clock. *)
Definition instant_elapsed `{Monotonic T} (now self : T) : total_result Duration := duration_since now self.

(** [duration_since_epoch]: [origin] is the default-initialised instant. *)
Definition duration_since_epoch `{Monotonic T} (origin self : T) : total_result Duration :=
  duration_since self origin.

Definition system_elapsed `{SystemClock T} (now self : T) : total_result (result Duration Duration) :=
  sub_time now self.
End Points.

(** ** Moving along the axis *)

Section Laws.
Context {T : Type} `{TimePointLaws T}.

Lemma added_position a b d :
  point_ok a -> duration_ok d ->
  checked_add_duration a d = Ret (Some b) <-> point_ok b /\ position b = position a + length_of d.
Proof.
  intros Ha Hd. pose proof (add_position a d Ha Hd) as Hadd. split.
  - intros E. by rewrite E in Hadd.
  - intros [Hb E]. destruct (checked_add_duration a d) as [[b'|]| | |]; try done.
    + destruct Hadd as [Hb' E']. do 2 f_equal. apply position_inj; [done..|congruence].
    + pose proof (position_range b Hb). lia.
Qed.

Lemma subbed_position a b d :
  point_ok a -> duration_ok d ->
  checked_sub_duration a d = Ret (Some b) <-> point_ok b /\ position b = position a - length_of d.
Proof.
  intros Ha Hd. pose proof (sub_position a d Ha Hd) as Hsub. split.
  - intros E. by rewrite E in Hsub.
  - intros [Hb E]. destruct (checked_sub_duration a d) as [[b'|]| | |]; try done.
    + destruct Hsub as [Hb' E']. do 2 f_equal. apply position_inj; [done..|congruence].
    + pose proof (position_range b Hb). lia.
Qed.

Lemma position_eq a b : point_ok a -> point_ok b -> position a = position b <-> a = b.
Proof. intros. split; [by apply position_inj|by intros ->]. Qed.
End Laws.

(** Adding and subtracting a duration undo each other.  On any clock that
    keeps the laws, moving from [a] by [d] reaches [b] exactly when moving
    back from [b] by [d] reaches [a]; then [b] is not before [a], the time
    from [a] to [b] is [d] cut to the clock's resolution, never more than
    [d], and the time from [b] to [a] is zero.  The operators panic exactly
    when the result is beyond the axis of the clock. *)
Theorem instant_moves_inverse `{MonotonicLaws T} (a b : T) d :
  point_ok a -> point_ok b -> duration_ok d ->
  (checked_add_duration a d = Ret (Some b) <-> checked_sub_duration b d = Ret (Some a)) /\
  (checked_add_duration a d = Ret (Some b) ->
    point_cmp a b <> Gt /\
    duration_since b a = Ret (duration_of (length_of d)) /\
    nanoseconds (duration_of (length_of d)) <= nanoseconds d /\
    duration_since a b = Ret Duration_ZERO) /\
  (point_add a d = Panic <-> highest < position a + length_of d) /\
  (point_sub a d = Panic <-> position a - length_of d < lowest) /\
  (forall r, point_add a d = Ret r <-> checked_add_duration a d = Ret (Some r)).
Proof.
  intros Ha Hb Hd. pose proof (length_nonneg d Hd) as Hl. split_and_all.
  - rewrite added_position, subbed_position by done. split; intros [_ E]; (split; [done|lia]).
  - intros [_ E]%added_position; [|done..]. rewrite cmp_position, !since_position by done. rewrite E.
    split_and_all; [by intros ?%Z.compare_gt_iff; lia| |by apply duration_of_length|].
    + do 2 f_equal. lia.
    + rewrite <- duration_of_zero. do 2 f_equal. lia.
  - unfold point_add, unwrap. pose proof (add_position a d Ha Hd) as Hadd.
    destruct (checked_add_duration a d) as [[b'|]| | |]; cbn; try done.
    destruct Hadd as [Hb' E]. pose proof (position_range b' Hb'). split; [done|lia].
  - unfold point_sub, unwrap. pose proof (sub_position a d Ha Hd) as Hsub.
    destruct (checked_sub_duration a d) as [[b'|]| | |]; cbn; try done.
    destruct Hsub as [Hb' E]. pose proof (position_range b' Hb'). split; [done|lia].
  - intros r. unfold point_add, unwrap. destruct (checked_add_duration a d) as [[b'|]| | |]; cbn; [|done..].
    split; [by intros [= ->]|by intros [= ->]].
Qed.

(** A system time and its Unix time determine each other.  Converting a
    Unix time to a system time and back cuts its nanoseconds to the clock's
    grain and changes nothing else; converting a system time and back is the
    identity; the conversion fails exactly when the nanoseconds are not below
    a second or the time is beyond the clock; and the time between two system
    times is a result when the first is not before the second and an error
    with the time the other way round otherwise. *)
Theorem unix_time_roundtrip `{SystemClockLaws T} (t u : T) s n :
  point_ok t -> point_ok u -> in_range i64 s = true -> in_range u32 n = true ->
  (exists x, as_unix_time t = Ret x /\ from_unix_time (unix_seconds x) (unix_nanoseconds x) = Ret (Some t)) /\
  (forall v, from_unix_time s n = Ret (Some v) ->
    point_ok v /\ n < NANOS_PER_SEC /\ as_unix_time v = Ret (mkUnixTime s (n - n mod grain))) /\
  (from_unix_time s n = Ret None <->
    NANOS_PER_SEC <= n \/ ~ lowest <= unix_position s n <= highest) /\
  (sub_time t u = match point_cmp t u with
                  | Lt => Ret (Err (duration_of (position u - position t)))
                  | _ => Ret (Ok (duration_of (position t - position u)))
                  end).
Proof.
  intros Ht Hu Hs Hn. split_and_all.
  - destruct (as_unix_position t Ht) as (s' & n' & E & Hs' & Hn' & _ & Hp).
    exists (mkUnixTime s' n'). split; [done|]. cbn.
    assert (in_range u32 n' = true) as Hn'' by (unfold NANOS_PER_SEC in *; ranges; lia).
    pose proof (from_unix_position s' n' Hs' Hn'') as Hf. pose proof (position_range t Ht).
    destruct (from_unix_time s' n') as [[v|]| | |]; try done; [|lia].
    destruct Hf as (Hv & _ & Hpv). do 2 f_equal. apply position_inj; [done..|congruence].
  - intros v E. pose proof (from_unix_position s n Hs Hn) as Hf. rewrite E in Hf.
    destruct Hf as (Hv & Hlt & Hp). split_and_all; [done..|].
    destruct (as_unix_position v Hv) as (s' & n' & -> & _ & Hn' & Hg & Hp').
    destruct (unix_position_cut s n s' n') as [-> ->]; [ranges; lia|done..|congruence|done].
  - pose proof (from_unix_position s n Hs Hn) as Hf.
    destruct (from_unix_time s n) as [[v|]| | |]; try done.
    destruct Hf as (Hv & Hlt & Hp). pose proof (position_range v Hv). split; [done|lia].
  - rewrite sub_time_position, cmp_position by done.
    destruct (Z.compare_spec (position t) (position u)); case_if; (lia || done).
Qed.
