(* ===== verification/UnixClock.v ===== *)
(** * The clock of Unix

    Models [Timespec], [Instant] and [SystemTime] of
    [src/std/src/sys/pal/unix/time.cpp]: a number of seconds in an [i64] and
    of nanoseconds in a [u32], with the borrow and carry between them written
    out.  A [Timespec] is a count of nanoseconds, and [Instant] and
    [SystemTime] keep the laws of [Clock] with no loss of resolution. *)

From Stdlib Require Import ZArith Lia ZifyBool.
From S2P Require Import Prelude Int Duration Time Clock.
Local Open Scope Z_scope.
Local Open Scope rstd_scope.

Record Timespec := mkTimespec { tv_sec : Z; tv_nsec : Z }.

(** ** [Timespec] *)

(** [a <=> b], [a >= b] and [a == b] *)
Definition timespec_cmp (a b : Timespec) : comparison :=
  match tv_sec a ?= tv_sec b with Eq => tv_nsec a ?= tv_nsec b | c => c end.

Definition timespec_ge (a b : Timespec) : bool :=
  if tv_sec b <? tv_sec a then true
  else if tv_sec a <? tv_sec b then false
  else tv_nsec b <=? tv_nsec a.

Definition timespec_eq (a b : Timespec) : bool := (tv_sec a =? tv_sec b) && (tv_nsec a =? tv_nsec b).

Definition checked_seconds (value : Z) : option Z :=
  if (value <? MIN i64) || (MAX i64 <? value) then None else Some value.

Section Timespec.
Context (check : bool).

(** The difference is computed in 128 bits and cut to a [u64]. *)
Definition sub_timespec (self other : Timespec) : total_result Duration :=
  match timespec_cmp self other with
  | Lt => Ret (from_secs 0)
  | _ =>
    let difference := wrap u128 (wrap i128 (tv_sec self - tv_sec other)) in
    let secs := wrap u64 difference in
    if tv_nsec other <=? tv_nsec self then
      let! nanos := sub check u32 (tv_nsec self) (tv_nsec other) in
      new_ check secs nanos
    else
      let! lifted := add check u32 (tv_nsec self) NANOS_PER_SEC in
      let! nanos := sub check u32 lifted (tv_nsec other) in
      let! secs := sub check u64 secs 1 in
      new_ check secs nanos
  end.

Definition timespec_checked_add (self : Timespec) (dur : Duration) : total_result (option Timespec) :=
  match checked_seconds (wrap i128 (tv_sec self + as_secs dur)) with
  | None => Ret None
  | Some secs =>
    let! nanos := add check u32 (tv_nsec self) (subsec_nanos dur) in
    if NANOS_PER_SEC <=? nanos then
      let! nanos := sub check u32 nanos NANOS_PER_SEC in
      match checked_add i64 secs 1 with
      | None => Ret None
      | Some secs => Ret (Some (mkTimespec secs nanos))
      end
    else Ret (Some (mkTimespec secs nanos))
  end.

Definition timespec_checked_sub (self : Timespec) (dur : Duration) : total_result (option Timespec) :=
  match checked_seconds (wrap i128 (tv_sec self - as_secs dur)) with
  | None => Ret None
  | Some secs =>
    if subsec_nanos dur <=? tv_nsec self then
      let! nanos := sub check u32 (tv_nsec self) (subsec_nanos dur) in
      Ret (Some (mkTimespec secs nanos))
    else
      let! lifted := add check u32 (tv_nsec self) NANOS_PER_SEC in
      let! nanos := sub check u32 lifted (subsec_nanos dur) in
      match checked_sub i64 secs 1 with
      | None => Ret None
      | Some secs => Ret (Some (mkTimespec secs nanos))
      end
  end.
End Timespec.

(** ** [Instant] and [SystemTime] *)

Record UnixInstant := mkUnixInstant { instant_t : Timespec }.
Record UnixSystemTime := mkUnixSystemTime { system_t : Timespec }.

(** [Option::map] *)
Definition map_option {A B} (f : A -> B) (r : total_result (option A)) : total_result (option B) :=
  let! o := r in Ret (option_map f o).

Section Points.
Context (check : bool).

#[export] Instance unix_instant : TimePoint UnixInstant := {
  point_cmp a b := timespec_cmp (instant_t a) (instant_t b);
  checked_add_duration self dur := map_option mkUnixInstant (timespec_checked_add check (instant_t self) dur);
  checked_sub_duration self dur := map_option mkUnixInstant (timespec_checked_sub check (instant_t self) dur) }.

#[export] Instance unix_instant_since : Monotonic UnixInstant := {
  duration_since self other := sub_timespec check (instant_t self) (instant_t other) }.

#[export] Instance unix_system : TimePoint UnixSystemTime := {
  point_cmp a b := timespec_cmp (system_t a) (system_t b);
  checked_add_duration self dur := map_option mkUnixSystemTime (timespec_checked_add check (system_t self) dur);
  checked_sub_duration self dur := map_option mkUnixSystemTime (timespec_checked_sub check (system_t self) dur) }.

Definition unix_sub_time (self other : UnixSystemTime) : total_result (result Duration Duration) :=
  if timespec_ge (system_t self) (system_t other) then
    let! d := sub_timespec check (system_t self) (system_t other) in Ret (Ok d)
  else
    let! d := sub_timespec check (system_t other) (system_t self) in Ret (Err d).

Definition unix_from_unix_time (secs nanos : Z) : total_result (option UnixSystemTime) :=
  if NANOS_PER_SEC <=? nanos then Ret None
  else Ret (Some (mkUnixSystemTime (mkTimespec secs nanos))).

Definition unix_as_unix_time (self : UnixSystemTime) : total_result UnixTime :=
  Ret (mkUnixTime (tv_sec (system_t self)) (tv_nsec (system_t self))).

#[export] Instance unix_system_clock : SystemClock UnixSystemTime := {
  unix_epoch := mkUnixSystemTime (mkTimespec 0 0);
  sub_time := unix_sub_time;
  from_unix_time := unix_from_unix_time;
  as_unix_time := unix_as_unix_time }.
End Points.

(** ** A [Timespec] is a count of nanoseconds *)

Definition timespec_ok (t : Timespec) : Prop :=
  in_range i64 (tv_sec t) = true /\ 0 <= tv_nsec t < NANOS_PER_SEC.

Definition unix_nanos (t : Timespec) : Z := tv_sec t * NANOS_PER_SEC + tv_nsec t.

Definition of_unix_nanos (n : Z) : Timespec := mkTimespec (n / NANOS_PER_SEC) (n mod NANOS_PER_SEC).

Definition UNIX_MIN : Z := MIN i64 * NANOS_PER_SEC.
Definition UNIX_MAX : Z := MAX i64 * NANOS_PER_SEC + (NANOS_PER_SEC - 1).

Lemma unix_bounds : UNIX_MIN = -9223372036854775808000000000 /\ UNIX_MAX = 9223372036854775807999999999.
Proof. by vm_compute. Qed.

(** The [Timespec] of a count, where there is one. *)
Definition timespec_fitting (n : Z) : option Timespec :=
  if (UNIX_MIN <=? n) && (n <=? UNIX_MAX) then Some (of_unix_nanos n) else None.

Ltac timespecs := unfold timespec_ok, unix_nanos, of_unix_nanos in *;
  rewrite ?(proj1 unix_bounds), ?(proj2 unix_bounds) in *; durations; cbn [tv_sec tv_nsec] in *.
Ltac timespec_lia := timespecs; Z.to_euclidean_division_equations; lia.

Lemma timespec_eta a b : tv_sec a = tv_sec b -> tv_nsec a = tv_nsec b -> a = b.
Proof. destruct a, b; cbn. by intros -> ->. Qed.

Lemma unix_nanos_range t : timespec_ok t -> UNIX_MIN <= unix_nanos t <= UNIX_MAX.
Proof. intros. timespec_lia. Qed.

Lemma of_unix_nanos_ok n : UNIX_MIN <= n <= UNIX_MAX -> timespec_ok (of_unix_nanos n).
Proof. intros. timespec_lia. Qed.

Lemma unix_nanos_of n : unix_nanos (of_unix_nanos n) = n.
Proof. timespec_lia. Qed.

Lemma unix_nanos_inj a b : timespec_ok a -> timespec_ok b -> unix_nanos a = unix_nanos b -> a = b.
Proof. intros. apply timespec_eta; timespec_lia. Qed.

Lemma timespec_cmp_exact a b : timespec_ok a -> timespec_ok b -> timespec_cmp a b = (unix_nanos a ?= unix_nanos b).
Proof.
  intros Ha Hb. unfold timespec_cmp. destruct (Z.compare_spec (tv_sec a) (tv_sec b)) as [E|L|L]; symmetry.
  - unfold unix_nanos. rewrite E. apply Z.add_compare_mono_l.
  - rewrite Z.compare_lt_iff. timespec_lia.
  - rewrite Z.compare_gt_iff. timespec_lia.
Qed.

Lemma timespec_ge_exact a b : timespec_ok a -> timespec_ok b -> timespec_ge a b = (unix_nanos b <=? unix_nanos a).
Proof. intros. unfold timespec_ge. repeat case_if; timespec_lia. Qed.

Lemma checked_seconds_exact z : in_range i128 z = true -> checked_seconds (wrap i128 z) = try_from i64 z.
Proof.
  intros Hz. rewrite wrap_id by done. unfold checked_seconds, try_from, in_range.
  repeat case_if; try done; lia.
Qed.

Section Exact.
Context (check : bool).

Lemma sub_timespec_exact a b : timespec_ok a -> timespec_ok b ->
  sub_timespec check a b = Ret (of_nanoseconds (Z.max 0 (unix_nanos a - unix_nanos b))).
Proof.
  intros Ha Hb. unfold sub_timespec. rewrite timespec_cmp_exact by done.
  assert (unix_nanos b <= unix_nanos a ->
    (if tv_nsec b <=? tv_nsec a then
       let! nanos := sub check u32 (tv_nsec a) (tv_nsec b) in
       new_ check (wrap u64 (wrap u128 (wrap i128 (tv_sec a - tv_sec b)))) nanos
     else
       let! lifted := add check u32 (tv_nsec a) NANOS_PER_SEC in
       let! nanos := sub check u32 lifted (tv_nsec b) in
       let! secs := sub check u64 (wrap u64 (wrap u128 (wrap i128 (tv_sec a - tv_sec b)))) 1 in
       new_ check secs nanos) = Ret (of_nanoseconds (unix_nanos a - unix_nanos b))) as Hge.
  { intros Hle. timespecs.
    rewrite (wrap_id i128), (wrap_id u128), (wrap_id u64) by (done || (ranges; lia)).
    case_if; fits; (rewrite new_exact; [f_equal; apply duration_eq; timespec_lia|..];
      rewrite ?max_nanoseconds; timespec_lia). }
  destruct (Z.compare_spec (unix_nanos a) (unix_nanos b)) as [E|L|G].
  - rewrite Hge by lia. do 2 f_equal. lia.
  - replace (Z.max _ _) with 0 by lia. done.
  - rewrite Hge by lia. do 2 f_equal. lia.
Qed.

Lemma timespec_checked_add_exact t d : timespec_ok t -> duration_ok d ->
  timespec_checked_add check t d = Ret (timespec_fitting (unix_nanos t + nanoseconds d)).
Proof.
  intros Ht Hd. unfold timespec_checked_add, timespec_fitting. timespecs.
  rewrite checked_seconds_exact by (ranges; lia). unfold try_from. ranges.
  case_if; [|case_if; [lia|done]]. fits. case_if; fits.
  - rewrite checked_add_try by done. unfold try_from. ranges. repeat case_if; try lia; [|done].
    do 2 f_equal. apply timespec_eta; timespec_lia.
  - case_if; [|lia]. do 2 f_equal. apply timespec_eta; timespec_lia.
Qed.

Lemma timespec_checked_sub_exact t d : timespec_ok t -> duration_ok d ->
  timespec_checked_sub check t d = Ret (timespec_fitting (unix_nanos t - nanoseconds d)).
Proof.
  intros Ht Hd. unfold timespec_checked_sub, timespec_fitting. timespecs.
  rewrite checked_seconds_exact by (ranges; lia). unfold try_from. ranges.
  case_if; [|case_if; [lia|done]]. case_if; fits.
  - case_if; [|lia]. do 2 f_equal. apply timespec_eta; timespec_lia.
  - rewrite checked_sub_try by done. unfold try_from. ranges. repeat case_if; try lia; [|done].
    do 2 f_equal. apply timespec_eta; timespec_lia.
Qed.
End Exact.

(** ** The laws *)

Section Laws.
Context (check : bool).

Definition unix_unix_position (s n : Z) : Z := s * NANOS_PER_SEC + n.

Lemma fitting_moves (n : Z) :
  match timespec_fitting n with
  | Some t' => timespec_ok t' /\ unix_nanos t' = n
  | None => n < UNIX_MIN \/ UNIX_MAX < n
  end.
Proof.
  unfold timespec_fitting. case_if; [|lia]. split; [apply of_unix_nanos_ok; lia|apply unix_nanos_of].
Qed.

(** [Instant] and [SystemTime] move as the [Timespec] they hold. *)
Section Wrapped.
Context {A : Type} (wrapped : Timespec -> A) (inner : A -> Timespec).
Context (inner_wrapped : forall t, inner (wrapped t) = t).

Lemma wrapped_add t d : timespec_ok t -> duration_ok d ->
  match map_option wrapped (timespec_checked_add check t d) with
  | Ret (Some p) => timespec_ok (inner p) /\ unix_nanos (inner p) = unix_nanos t + nanoseconds d
  | Ret None => UNIX_MAX < unix_nanos t + nanoseconds d
  | _ => False
  end.
Proof.
  intros Ht Hd. rewrite timespec_checked_add_exact by done. cbn.
  pose proof (fitting_moves (unix_nanos t + nanoseconds d)) as Hf.
  pose proof (unix_nanos_range t Ht). pose proof (nanoseconds_range d Hd).
  destruct (timespec_fitting _); cbn; [by rewrite inner_wrapped|lia].
Qed.

Lemma wrapped_sub t d : timespec_ok t -> duration_ok d ->
  match map_option wrapped (timespec_checked_sub check t d) with
  | Ret (Some p) => timespec_ok (inner p) /\ unix_nanos (inner p) = unix_nanos t - nanoseconds d
  | Ret None => unix_nanos t - nanoseconds d < UNIX_MIN
  | _ => False
  end.
Proof.
  intros Ht Hd. rewrite timespec_checked_sub_exact by done. cbn.
  pose proof (fitting_moves (unix_nanos t - nanoseconds d)) as Hf.
  pose proof (unix_nanos_range t Ht). pose proof (nanoseconds_range d Hd).
  destruct (timespec_fitting _); cbn; [by rewrite inner_wrapped|lia].
Qed.
End Wrapped.

Lemma cut_nothing d : duration_ok d -> nanoseconds (of_nanoseconds (nanoseconds d)) <= nanoseconds d.
Proof. intros _. by rewrite nanoseconds_of. Qed.

#[export] Instance unix_instant_laws : @TimePointLaws UnixInstant (unix_instant check).
Proof.
  refine {|
    point_ok p := timespec_ok (instant_t p);
    position p := unix_nanos (instant_t p);
    lowest := UNIX_MIN;
    highest := UNIX_MAX;
    length_of := nanoseconds;
    duration_of := of_nanoseconds;
    position_range p := unix_nanos_range (instant_t p);
    length_nonneg d Hd := proj1 (nanoseconds_range d Hd);
    duration_of_length := cut_nothing |}.
  - intros [a] [b] Ha Hb E. cbn in *. f_equal. by apply unix_nanos_inj.
  - intros [a] [b]. apply timespec_cmp_exact.
  - done.
  - intros [t] d. by apply wrapped_add.
  - intros [t] d. by apply wrapped_sub.
Defined.

#[export] Instance unix_monotonic_laws :
  @MonotonicLaws UnixInstant _ unix_instant_laws (unix_instant_since check).
Proof. intros [a] [b] Ha Hb. by apply sub_timespec_exact. Qed.

#[export] Instance unix_system_laws : @TimePointLaws UnixSystemTime (unix_system check).
Proof.
  refine {|
    point_ok p := timespec_ok (system_t p);
    position p := unix_nanos (system_t p);
    lowest := UNIX_MIN;
    highest := UNIX_MAX;
    length_of := nanoseconds;
    duration_of := of_nanoseconds;
    position_range p := unix_nanos_range (system_t p);
    length_nonneg d Hd := proj1 (nanoseconds_range d Hd);
    duration_of_length := cut_nothing |}.
  - intros [a] [b] Ha Hb E. cbn in *. f_equal. by apply unix_nanos_inj.
  - intros [a] [b]. apply timespec_cmp_exact.
  - done.
  - intros [t] d. by apply wrapped_add.
  - intros [t] d. by apply wrapped_sub.
Defined.

#[export] Instance unix_clock_laws :
  @SystemClockLaws UnixSystemTime _ unix_system_laws (unix_system_clock check).
Proof.
  refine {| grain := 1; unix_position s n := s * NANOS_PER_SEC + n |}.
  - done.
  - by vm_compute.
  - intros [a] [b] Ha Hb. cbn in *. unfold unix_sub_time. cbn.
    rewrite timespec_ge_exact, !sub_timespec_exact by done. case_if; cbn; do 3 f_equal; lia.
  - intros s n Hs Hn. cbn. unfold unix_from_unix_time. case_if; [left; lia|]. cbn.
    split_and_all; [|lia|done]. split; [done|]. ranges. cbn. lia.
  - intros [t] Ht. exists (tv_sec t), (tv_nsec t). destruct Ht as [Hs Hn].
    cbn in *. split_and_all; first [done|lia|apply Z.divide_1_l].
  - intros s n s' n' Hn Hn' _ E. rewrite Z.mod_1_r. timespec_lia.
Defined.
End Laws.
