(* ===== verification/WindowsClock.v ===== *)
(** * The clock of Windows

    Models [Instant] and [SystemTime] of
    [src/std/src/sys/pal/windows/time.cpp].  An instant is a count of ticks of
    the performance counter, whose frequency the system fixes at start-up; a
    system time is a count of 100 ns intervals since 1601.  Both keep the laws
    of [Clock]: a duration is cut to whole ticks, and whole intervals. *)

From Stdlib Require Import ZArith Lia ZifyBool.
From S2P Require Import Prelude Int Duration Time Clock.
Local Open Scope Z_scope.
Local Open Scope rstd_scope.

Definition QPC_NANOS_PER_SEC : Z := NANOS_PER_SEC.
Definition FILETIME_INTERVALS_PER_SEC : Z := 10000000.
Definition FILETIME_NANOS_PER_INTERVAL : Z := 100.

(** Narrowing a 128-bit count to a point of the axis. *)
Definition narrowed {T} (point : Z -> T) (result : option Z) : total_result (option T) :=
  Ret (option_map point (match result with Some v => try_from u64 v | None => None end)).

(** ** The performance counter *)

Record QpcInstant := mkQpcInstant { ticks : Z }.

Section Qpc.
Context (check : bool) (frequency : Z).

Definition duration_to_qpc_ticks (duration : Duration) : option Z :=
  match checked_mul u128 (as_secs duration) frequency with
  | None => None
  | Some whole =>
    match checked_mul u128 (subsec_nanos duration) frequency with
    | None => None
    | Some fractional =>
      match checked_div u128 fractional QPC_NANOS_PER_SEC with
      | None => None
      | Some fractional => checked_add u128 whole fractional
      end
    end
  end.

Definition qpc_duration_since (self other : QpcInstant) : total_result Duration :=
  let! diff := (if ticks other <=? ticks self then sub check u64 (ticks self) (ticks other) else Ret 0) in
  let! secs := div u64 diff frequency in
  let! rest := rem u64 diff frequency in
  let! scaled := mul check u128 rest QPC_NANOS_PER_SEC in
  let! quotient := div u128 scaled frequency in
  let! nanos := or_panic (try_from u32 quotient) in
  new_ check secs nanos.

Definition qpc_checked_add (self : QpcInstant) (dur : Duration) : total_result (option QpcInstant) :=
  match duration_to_qpc_ticks dur with
  | None => Ret None
  | Some add_ticks => narrowed mkQpcInstant (checked_add u128 (ticks self) add_ticks)
  end.

(** The difference of a [u64] and a natural number is a [u64] when it is not
    negative; the source [unwrap]s the conversion. *)
Definition qpc_checked_sub (self : QpcInstant) (dur : Duration) : total_result (option QpcInstant) :=
  match duration_to_qpc_ticks dur with
  | None => Ret None
  | Some sub_ticks =>
    match checked_sub u128 (ticks self) sub_ticks with
    | None => Ret None
    | Some result => let! v := or_panic (try_from u64 result) in Ret (Some (mkQpcInstant v))
    end
  end.

#[export] Instance qpc_instant : TimePoint QpcInstant := {
  point_cmp a b := ticks a ?= ticks b;
  checked_add_duration := qpc_checked_add;
  checked_sub_duration := qpc_checked_sub }.

#[export] Instance qpc_since : Monotonic QpcInstant := { duration_since := qpc_duration_since }.
End Qpc.

(** ** File times *)

Record FileTime := mkFileTime { intervals : Z }.

Definition FILETIME_EPOCH : Z := 116444736000000000.

(** [(u64(high) << 32) | u64(low)] and back: the two halves of a [FILETIME]. *)
Definition filetime_value (high low : Z) : Z := Z.lor (wrap u64 (Z.shiftl high 32)) low.
Definition make_filetime (value : Z) : Z * Z := (wrap u32 (Z.shiftr value 32), wrap u32 value).

Section FileTime.
Context (check : bool).

Definition duration_to_filetime_intervals (duration : Duration) : total_result (option Z) :=
  match checked_mul u128 (as_secs duration) FILETIME_INTERVALS_PER_SEC with
  | None => Ret None
  | Some whole =>
    let! fractional := div u128 (subsec_nanos duration) FILETIME_NANOS_PER_INTERVAL in
    Ret (checked_add u128 whole fractional)
  end.

Definition filetime_checked_add (self : FileTime) (dur : Duration) : total_result (option FileTime) :=
  let! add := duration_to_filetime_intervals dur in
  match add with
  | None => Ret None
  | Some add => narrowed mkFileTime (checked_add u128 (intervals self) add)
  end.

Definition filetime_checked_sub (self : FileTime) (dur : Duration) : total_result (option FileTime) :=
  let! sub := duration_to_filetime_intervals dur in
  match sub with
  | None => Ret None
  | Some sub =>
    match checked_sub u128 (intervals self) sub with
    | None => Ret None
    | Some result => let! v := or_panic (try_from u64 result) in Ret (Some (mkFileTime v))
    end
  end.

(** The time between two file times, the later first. *)
Definition interval_duration (later earlier : FileTime) : total_result Duration :=
  let! diff := sub check u64 (intervals later) (intervals earlier) in
  let! whole := div u128 diff FILETIME_INTERVALS_PER_SEC in
  let! secs := or_panic (try_from u64 whole) in
  let! rest := rem u128 diff FILETIME_INTERVALS_PER_SEC in
  let! rest := or_panic (try_from u32 rest) in
  let! nanos := mul check u32 rest FILETIME_NANOS_PER_INTERVAL in
  new_ check secs nanos.

Definition filetime_sub_time (self other : FileTime) : total_result (result Duration Duration) :=
  if intervals other <=? intervals self then
    let! d := interval_duration self other in Ret (Ok d)
  else
    let! d := interval_duration other self in Ret (Err d).

Definition filetime_from_unix_time (secs nanos : Z) : total_result (option FileTime) :=
  if NANOS_PER_SEC <=? nanos then Ret None
  else
    match checked_mul i128 secs 10000000 with
    | None => Ret None
    | Some seconds_as_intervals =>
      match checked_add i128 FILETIME_EPOCH seconds_as_intervals with
      | None => Ret None
      | Some value =>
        let! fraction := div u32 nanos FILETIME_NANOS_PER_INTERVAL in
        narrowed mkFileTime (checked_add i128 value fraction)
      end
    end.

(** Division rounds towards zero, so a negative remainder borrows a second. *)
Definition filetime_as_unix_time (self : FileTime) : total_result UnixTime :=
  let! value := or_panic (checked_sub i128 (intervals self) FILETIME_EPOCH) in
  let! secs := or_panic (checked_div i128 value 10000000) in
  let! remainder := or_panic (checked_rem i128 value 10000000) in
  let! secs := (if remainder <? 0 then sub check i128 secs 1 else Ret secs) in
  let! remainder := (if remainder <? 0 then add check i128 remainder 10000000 else Ret remainder) in
  let! secs := or_panic (try_from i64 secs) in
  let! scaled := mul check i128 remainder 100 in
  let! nanos := or_panic (try_from u32 scaled) in
  Ret (mkUnixTime secs nanos).

#[export] Instance filetime_system : TimePoint FileTime := {
  point_cmp a b := intervals a ?= intervals b;
  checked_add_duration := filetime_checked_add;
  checked_sub_duration := filetime_checked_sub }.

#[export] Instance filetime_clock : SystemClock FileTime := {
  unix_epoch := mkFileTime FILETIME_EPOCH;
  sub_time := filetime_sub_time;
  from_unix_time := filetime_from_unix_time;
  as_unix_time := filetime_as_unix_time }.
End FileTime.

(** ** The axis of a [u64] *)

Section Counts.
Context {T : Type} (point : Z -> T).

Lemma narrowed_exact z : narrowed point (try_from u128 z) =
  Ret (if in_range u64 z then Some (point z) else None).
Proof.
  unfold narrowed, try_from. ranges. repeat (case_if; cbn [option_map]); (done || (ranges; lia)).
Qed.

Lemma counted_sub z : z <= MAX u64 ->
  match try_from u128 z with
  | None => Ret None
  | Some r => let! v := or_panic (try_from u64 r) in Ret (Some (point v))
  end = (Ret (if in_range u64 z then Some (point z) else None) : total_result (option T)).
Proof.
  change (MAX u64) with 18446744073709551615. intros. unfold try_from at 1. ranges.
  case_if; [rewrite try_from_some by (ranges; lia)|]; cbn; case_if; (done || lia).
Qed.
End Counts.

Lemma point_of_range {T} (point : Z -> T) (value : T -> Z) z :
  (forall z, value (point z) = z) ->
  match (Ret (if in_range u64 z then Some (point z) else None) : total_result (option T)) with
  | Ret (Some p) => in_range u64 (value p) = true /\ value p = z
  | Ret None => z < 0 \/ MAX u64 < z
  | _ => False
  end.
Proof.
  intros E. change (MAX u64) with 18446744073709551615. case_if; [by rewrite E|]. ranges. lia.
Qed.

(** ** Instants *)

Section QpcExact.
Context (check : bool) (frequency : Z).

(** What the system documents: a positive 63-bit frequency. *)
Context (Hfrequency : 0 < frequency <= MAX i64).

Definition qpc_length (d : Duration) : Z := nanoseconds d * frequency / NANOS_PER_SEC.
Definition qpc_duration (n : Z) : Duration := of_nanoseconds (n * NANOS_PER_SEC / frequency).

Lemma frequency_range : 0 < frequency <= 9223372036854775807.
Proof. exact Hfrequency. Qed.

Lemma qpc_ticks_exact d : duration_ok d -> duration_to_qpc_ticks frequency d = Some (qpc_length d).
Proof.
  intros [Hs Hn]. pose proof frequency_range as Hf. unfold duration_to_qpc_ticks, QPC_NANOS_PER_SEC, qpc_length.
  unfold NANOS_PER_SEC in *. ranges.
  rewrite checked_mul_try, try_from_some by (done || (ranges; nia)).
  rewrite checked_mul_try, try_from_some by (done || (ranges; nia)).
  unfold checked_div. cbn [is_signed u128 Z.eqb andb]. rewrite Z.quot_div_nonneg by nia.
  assert (0 <= subsec_nanos d * frequency / 1000000000 <= frequency).
  { split; [apply Z.div_pos; nia|]. apply Z.div_le_upper_bound; nia. }
  rewrite checked_add_try, try_from_some by (done || (ranges; nia)). f_equal.
  unfold nanoseconds, NANOS_PER_SEC.
  replace ((as_secs d * 1000000000 + subsec_nanos d) * frequency)
    with (as_secs d * frequency * 1000000000 + subsec_nanos d * frequency) by ring.
  by rewrite Z.div_add_l.
Qed.

Lemma qpc_since_exact a b :
  in_range u64 (ticks a) = true -> in_range u64 (ticks b) = true ->
  qpc_duration_since check frequency a b = Ret (qpc_duration (Z.max 0 (ticks a - ticks b))).
Proof.
  intros Ha Hb. pose proof frequency_range as Hf. unfold qpc_duration_since, QPC_NANOS_PER_SEC, qpc_duration.
  set (n := Z.max 0 (ticks a - ticks b)).
  assert (0 <= n <= 18446744073709551615) as Hn by (ranges; lia).
  replace (if ticks b <=? ticks a then _ else _) with (Ret n : total_result Z).
  2: { subst n. ranges. case_if; [rewrite sub_fits by (done || (ranges; lia))|]; f_equal; lia. }
  cbn [obind]. rewrite div_fits by lia. cbn [obind]. rewrite rem_fits by lia. cbn [obind].
  pose proof (Z.mod_pos_bound n frequency ltac:(lia)) as Hr. unfold NANOS_PER_SEC in *.
  rewrite mul_fits by (done || (ranges; lia)). cbn [obind]. rewrite div_fits by lia. cbn [obind].
  assert (0 <= n mod frequency * 1000000000 / frequency < 1000000000) as Hq.
  { split; [apply Z.div_pos; lia|]. apply Z.div_lt_upper_bound; lia. }
  rewrite try_from_some by (ranges; lia). cbn [obind or_panic].
  assert (0 <= n / frequency <= n) as Hs.
  { split; [apply Z.div_pos; lia|]. apply Z.div_le_upper_bound; nia. }
  rewrite new_exact; rewrite ?max_nanoseconds; unfold NANOS_PER_SEC; [|ranges; lia..].
  do 2 f_equal. rewrite (Z.div_mod n frequency) at 3 by lia.
  replace ((frequency * (n / frequency) + n mod frequency) * 1000000000)
    with (n / frequency * 1000000000 * frequency + n mod frequency * 1000000000) by ring.
  by rewrite Z.div_add_l by lia.
Qed.

(** A duration is cut down to whole ticks, by less than one tick and a
    nanosecond. *)
Lemma qpc_cut d : duration_ok d ->
  nanoseconds (qpc_duration (qpc_length d)) <= nanoseconds d /\
  (nanoseconds d - nanoseconds (qpc_duration (qpc_length d))) * frequency < NANOS_PER_SEC + frequency.
Proof.
  intros Hd. pose proof frequency_range. pose proof (nanoseconds_range d Hd).
  unfold qpc_duration. rewrite nanoseconds_of. unfold qpc_length.
  set (x := nanoseconds d) in *. unfold NANOS_PER_SEC.
  pose proof (Z.div_mod (x * frequency) 1000000000 ltac:(lia)) as E.
  pose proof (Z.mod_pos_bound (x * frequency) 1000000000 ltac:(lia)).
  set (q := x * frequency / 1000000000) in *.
  pose proof (Z.div_mod (q * 1000000000) frequency ltac:(lia)) as F.
  pose proof (Z.mod_pos_bound (q * 1000000000) frequency ltac:(lia)).
  set (y := q * 1000000000 / frequency) in *. split; nia.
Qed.

#[export] Instance qpc_laws : @TimePointLaws QpcInstant (qpc_instant frequency).
Proof.
  refine {|
    point_ok p := in_range u64 (ticks p) = true;
    position := ticks;
    lowest := 0;
    highest := MAX u64;
    length_of := qpc_length;
    duration_of := qpc_duration;
    duration_of_length d Hd := proj1 (qpc_cut d Hd) |}.
  - intros t Ht. unfold in_range in Ht. cbn in *. lia.
  - intros [a] [b] _ _ E. cbn in E. by f_equal.
  - done.
  - intros d Hd. pose proof frequency_range. apply Z.div_pos; [|done]. pose proof (nanoseconds_range d Hd). nia.
  - unfold qpc_duration. by rewrite Z.mul_0_l, Z.div_0_l by (pose proof frequency_range; lia).
  - intros [t] d Ht Hd. cbn [checked_add_duration qpc_instant ticks] in *. unfold qpc_checked_add.
    rewrite qpc_ticks_exact, checked_add_try, narrowed_exact by done. cbn [ticks].
    pose proof (point_of_range mkQpcInstant ticks (t + qpc_length d) ltac:(done)) as Hp.
    case_if; cbn in *; [done|]. pose proof (nanoseconds_range d Hd). pose proof frequency_range.
    assert (0 <= qpc_length d) by (apply Z.div_pos; [nia|done]). ranges. lia.
  - intros [t] d Ht Hd. cbn [checked_sub_duration qpc_instant ticks] in *. unfold qpc_checked_sub.
    pose proof (nanoseconds_range d Hd). pose proof frequency_range.
    assert (0 <= qpc_length d) by (apply Z.div_pos; [nia|done]).
    rewrite qpc_ticks_exact, checked_sub_try, counted_sub; [|cbn in *; ranges; lia|done..]. cbn [ticks].
    pose proof (point_of_range mkQpcInstant ticks (t - qpc_length d) ltac:(done)) as Hp.
    case_if; cbn in *; [done|]. ranges. lia.
Defined.

#[export] Instance qpc_monotonic_laws : @MonotonicLaws QpcInstant _ qpc_laws (qpc_since check frequency).
Proof. intros a b Ha Hb. by apply qpc_since_exact. Qed.
End QpcExact.

(** ** File times *)

Section FileTimeExact.
Context (check : bool).

Definition filetime_length (d : Duration) : Z := nanoseconds d / FILETIME_NANOS_PER_INTERVAL.
Definition filetime_duration (n : Z) : Duration := of_nanoseconds (n * FILETIME_NANOS_PER_INTERVAL).

Definition filetime_unix_position (s n : Z) : Z :=
  FILETIME_EPOCH + s * FILETIME_INTERVALS_PER_SEC + n / FILETIME_NANOS_PER_INTERVAL.

Ltac filetimes :=
  unfold filetime_length, filetime_duration, filetime_unix_position, FILETIME_EPOCH,
    FILETIME_INTERVALS_PER_SEC, FILETIME_NANOS_PER_INTERVAL in *; durations.
Ltac filetime_lia := filetimes; Z.to_euclidean_division_equations; lia.

Lemma filetime_length_range d : duration_ok d -> 0 <= filetime_length d <= 184467440737095516159999999.
Proof. intros Hd. filetime_lia. Qed.

Lemma filetime_intervals_exact d : duration_ok d ->
  duration_to_filetime_intervals d = Ret (Some (filetime_length d)).
Proof.
  intros Hd. unfold duration_to_filetime_intervals.
  rewrite checked_mul_try, try_from_some by (done || filetime_lia).
  rewrite div_fits by (done || filetime_lia). cbn [obind].
  rewrite checked_add_try, try_from_some by (done || filetime_lia).
  do 2 f_equal. filetime_lia.
Qed.

Lemma interval_duration_exact a b :
  in_range u64 (intervals a) = true -> in_range u64 (intervals b) = true -> intervals b <= intervals a ->
  interval_duration check a b = Ret (filetime_duration (intervals a - intervals b)).
Proof.
  intros Ha Hb Hle. unfold interval_duration. rewrite sub_fits by (done || filetime_lia). cbn [obind].
  set (n := intervals a - intervals b). assert (0 <= n <= 18446744073709551615) as Hn by (ranges; lia).
  clearbody n. clear Ha Hb Hle. filetimes.
  rewrite div_fits by lia. cbn [obind]. rewrite try_from_some by div_lia. cbn [obind or_panic].
  rewrite rem_fits by lia. cbn [obind]. rewrite try_from_some by div_lia. cbn [obind or_panic].
  rewrite mul_fits by (done || div_lia). cbn [obind].
  rewrite new_exact; rewrite ?max_nanoseconds; try div_lia. f_equal. apply duration_eq; duration_lia.
Qed.

Lemma filetime_from_exact s n : in_range i64 s = true -> in_range u32 n = true ->
  filetime_from_unix_time s n = Ret (
    if NANOS_PER_SEC <=? n then None
    else if in_range u64 (filetime_unix_position s n) then Some (mkFileTime (filetime_unix_position s n))
    else None).
Proof.
  intros Hs Hn. unfold filetime_from_unix_time. case_if; [done|]. filetimes.
  rewrite checked_mul_try, try_from_some by (done || (ranges; lia)).
  rewrite checked_add_try, try_from_some by (done || (ranges; lia)).
  rewrite div_fits by lia. cbn [obind]. rewrite checked_add_try, try_from_some by (done || div_lia).
  unfold narrowed, try_from. ranges. by case_if.
Qed.

Lemma filetime_as_exact t : in_range u64 (intervals t) = true ->
  exists s n, filetime_as_unix_time check t = Ret (mkUnixTime s n) /\
    in_range i64 s = true /\ 0 <= n < NANOS_PER_SEC /\ (FILETIME_NANOS_PER_INTERVAL | n) /\
    filetime_unix_position s n = intervals t.
Proof.
  intros Ht. set (v := intervals t - FILETIME_EPOCH). exists (v / 10000000), (v mod 10000000 * 100).
  assert (-116444736000000000 <= v <= 18330299337709551615) as Hv by (subst v; filetime_lia).
  split_and_all; [|subst v; filetime_lia..|by exists (v mod 10000000)|subst v; filetime_lia].
  unfold filetime_as_unix_time. rewrite checked_sub_try by done.
  change (intervals t - FILETIME_EPOCH) with v. clearbody v.
  rewrite try_from_some by (ranges; lia). cbn [obind or_panic].
  unfold checked_div, checked_rem. cbn [Z.eqb andb]. rewrite !andb_false_r. cbn [obind or_panic].
  set (q := Z.quot v 10000000). set (r := Z.rem v 10000000).
  assert (v = 10000000 * q + r /\ -10000000 < r < 10000000 /\ (0 <= v -> 0 <= r) /\ (v < 0 -> r <= 0)) as (E & Hr & Hp & Hm)
    by (subst q r; Z.to_euclidean_division_equations; lia).
  clearbody q r. ranges.
  destruct (r <? 0) eqn:Hneg.
  - rewrite sub_fits by (done || (ranges; lia)). cbn [obind]. rewrite add_fits by (done || (ranges; lia)).
    cbn [obind]. rewrite try_from_some by (ranges; lia). cbn [obind or_panic].
    rewrite mul_fits by (done || (ranges; lia)). cbn [obind]. rewrite try_from_some by (ranges; lia). cbn.
    do 2 f_equal; Z.to_euclidean_division_equations; lia.
  - cbn [obind]. rewrite try_from_some by (ranges; lia). cbn [obind or_panic].
    rewrite mul_fits by (done || (ranges; lia)). cbn [obind]. rewrite try_from_some by (ranges; lia). cbn.
    do 2 f_equal; Z.to_euclidean_division_equations; lia.
Qed.

#[export] Instance filetime_laws : @TimePointLaws FileTime filetime_system.
Proof.
  refine {|
    point_ok p := in_range u64 (intervals p) = true;
    position := intervals;
    lowest := 0;
    highest := MAX u64;
    length_of := filetime_length;
    duration_of := filetime_duration;
    length_nonneg d Hd := proj1 (filetime_length_range d Hd) |}.
  - intros t Ht. unfold in_range in Ht. cbn in *. lia.
  - intros [a] [b] _ _ E. cbn in E. by f_equal.
  - done.
  - intros d Hd. unfold filetime_duration. rewrite nanoseconds_of. filetime_lia.
  - done.
  - intros [t] d Ht Hd. cbn [checked_add_duration filetime_system intervals] in *. unfold filetime_checked_add.
    pose proof (filetime_length_range d Hd).
    rewrite filetime_intervals_exact by done. cbn [obind]. rewrite checked_add_try, narrowed_exact by done. cbn [intervals].
    pose proof (point_of_range mkFileTime intervals (t + filetime_length d) ltac:(done)) as Hp.
    case_if; cbn in *; [done|]. ranges. lia.
  - intros [t] d Ht Hd. cbn [checked_sub_duration filetime_system intervals] in *. unfold filetime_checked_sub.
    pose proof (filetime_length_range d Hd).
    rewrite filetime_intervals_exact by done. cbn [obind].
    rewrite checked_sub_try, counted_sub; [|cbn in *; ranges; lia|done..]. cbn [intervals].
    pose proof (point_of_range mkFileTime intervals (t - filetime_length d) ltac:(done)) as Hp.
    case_if; cbn in *; [done|]. ranges. lia.
Defined.

#[export] Instance filetime_clock_laws : @SystemClockLaws FileTime _ filetime_laws (filetime_clock check).
Proof.
  refine {| grain := FILETIME_NANOS_PER_INTERVAL; unix_position := filetime_unix_position |}.
  - done.
  - by vm_compute.
  - intros [a] [b] Ha Hb. cbn in *. unfold filetime_sub_time. cbn [intervals].
    case_if; (rewrite interval_duration_exact; [done|done|done|cbn [intervals]; lia]).
  - intros s n Hs Hn. cbn [from_unix_time filetime_clock]. rewrite filetime_from_exact by done.
    case_if; [left; lia|]. case_if; cbn; [split_and_all; [done|lia|done]|]. right. ranges.
    change (MAX u64) with 18446744073709551615. lia.
  - intros t Ht. by apply filetime_as_exact.
  - intros s n s' n' Hn Hn' [k Hk] E. split; filetime_lia.
Defined.
End FileTimeExact.

(** The two halves of a [FILETIME] hold its value. *)
Lemma filetime_halves v : in_range u64 v = true ->
  filetime_value (fst (make_filetime v)) (snd (make_filetime v)) = v.
Proof.
  intros Hv. unfold filetime_value, make_filetime. cbn [fst snd]. ranges.
  rewrite Z.shiftr_div_pow2 by lia. change (2 ^ 32) with 4294967296.
  rewrite (wrap_id u32) by (done || div_lia). rewrite Z.shiftl_mul_pow2 by lia. change (2 ^ 32) with 4294967296.
  rewrite (wrap_id u64) by (done || div_lia).
  replace (wrap u32 v) with (v mod 4294967296) by (unfold wrap; done).
  change 4294967296 with (2 ^ 32). rewrite lor_add; [|lia|apply Z.mod_pos_bound; lia]. change (2 ^ 32) with 4294967296.
  div_lia.
Qed.
