(* ===== verification/ClockSpec.v ===== *)
(** * The platform clocks, exactly

    What [UnixClock] and [WindowsClock] compute, operation by operation, and
    the theorems of [Clock] at both of them. *)

From Stdlib Require Import ZArith Lia ZifyBool.
From S2P Require Import Prelude Int Duration Time Clock UnixClock WindowsClock.
Local Open Scope Z_scope.
Local Open Scope rstd_scope.

(** C35: the Unix clock counts nanoseconds.  Moving a [Timespec] by a duration
    gives the [Timespec] of the exact sum or difference of nanoseconds, and
    [None] exactly when its seconds would not fit an [i64]; the time between
    two of them is the exact difference, and zero for an earlier one;
    [SystemTime] reports an earlier one as an error with the time the other
    way round; and comparison compares the counts.  No 128-bit, [u64] or [u32]
    step on the way overflows. *)
Theorem unix_clock_exact check t u d :
  timespec_ok t -> timespec_ok u -> duration_ok d ->
  timespec_checked_add check t d = Ret (timespec_fitting (unix_nanos t + nanoseconds d)) /\
  timespec_checked_sub check t d = Ret (timespec_fitting (unix_nanos t - nanoseconds d)) /\
  sub_timespec check t u = Ret (of_nanoseconds (Z.max 0 (unix_nanos t - unix_nanos u))) /\
  unix_sub_time check (mkUnixSystemTime t) (mkUnixSystemTime u) = Ret (
    if unix_nanos u <=? unix_nanos t then Ok (of_nanoseconds (unix_nanos t - unix_nanos u))
    else Err (of_nanoseconds (unix_nanos u - unix_nanos t))) /\
  timespec_cmp t u = (unix_nanos t ?= unix_nanos u) /\
  timespec_ge t u = (unix_nanos u <=? unix_nanos t) /\
  timespec_eq t u = (unix_nanos t =? unix_nanos u).
Proof.
  intros Ht Hu Hd. split_and_all.
  - by apply timespec_checked_add_exact.
  - by apply timespec_checked_sub_exact.
  - by apply sub_timespec_exact.
  - by apply (sub_time_position (SystemClockLaws := unix_clock_laws check) (mkUnixSystemTime t) (mkUnixSystemTime u)).
  - by apply timespec_cmp_exact.
  - by apply timespec_ge_exact.
  - apply Bool.eq_iff_eq_true. unfold timespec_eq. rewrite andb_true_iff, !Z.eqb_eq. split.
    + intros [E F]. unfold unix_nanos. by rewrite E, F.
    + intros E. by rewrite (unix_nanos_inj t u).
Qed.

Lemma unix_clock_exact_witness :
  timespec_checked_add true (mkTimespec (-1) 999999999) (mkDuration 0 1) = Ret (Some (mkTimespec 0 0)) /\
  timespec_checked_sub true (mkTimespec (MIN i64) 0) (mkDuration 0 1) = Ret None.
Proof.
  pose proof (unix_clock_exact true (mkTimespec (-1) 999999999) (mkTimespec 0 0) (mkDuration 0 1)
    ltac:(by vm_compute) ltac:(by vm_compute) ltac:(by vm_compute)) as (H & _).
  pose proof (unix_clock_exact true (mkTimespec (MIN i64) 0) (mkTimespec 0 0) (mkDuration 0 1)
    ltac:(by vm_compute) ltac:(by vm_compute) ltac:(by vm_compute)) as (_ & K & _).
  split; [exact H|exact K].
Defined.

(** C36: the Windows clocks count ticks and intervals.  Moving an instant or a
    file time by a duration moves it by the duration cut to whole ticks or
    100 ns intervals, and gives [None] exactly when the result is not a
    [u64]; the time between two instants is their ticks at the counter's
    frequency in whole nanoseconds, zero for an earlier one; a duration
    measured in ticks loses less than one tick and one nanosecond. *)
Theorem windows_clock_exact check frequency a b x y d :
  0 < frequency <= MAX i64 ->
  in_range u64 a = true -> in_range u64 b = true -> in_range u64 x = true -> in_range u64 y = true ->
  duration_ok d ->
  let cut := nanoseconds d * frequency / NANOS_PER_SEC in
  let whole := nanoseconds d / FILETIME_NANOS_PER_INTERVAL in
  (qpc_checked_add frequency (mkQpcInstant a) d = Ret (option_map mkQpcInstant (try_from u64 (a + cut))) /\
   qpc_checked_sub frequency (mkQpcInstant a) d = Ret (option_map mkQpcInstant (try_from u64 (a - cut))) /\
   qpc_duration_since check frequency (mkQpcInstant a) (mkQpcInstant b) =
     Ret (of_nanoseconds (Z.max 0 (a - b) * NANOS_PER_SEC / frequency)) /\
   0 <= (nanoseconds d - cut * NANOS_PER_SEC / frequency) * frequency < NANOS_PER_SEC + frequency) /\
  (filetime_checked_add (mkFileTime x) d = Ret (option_map mkFileTime (try_from u64 (x + whole))) /\
   filetime_checked_sub (mkFileTime x) d = Ret (option_map mkFileTime (try_from u64 (x - whole))) /\
   filetime_sub_time check (mkFileTime x) (mkFileTime y) = Ret (
     if y <=? x then Ok (of_nanoseconds ((x - y) * FILETIME_NANOS_PER_INTERVAL))
     else Err (of_nanoseconds ((y - x) * FILETIME_NANOS_PER_INTERVAL)))).
Proof.
  intros Hf Ha Hb Hx Hy Hd cut whole. pose proof (qpc_cut frequency Hf d Hd) as Hcut.
  unfold qpc_duration, qpc_length in Hcut. rewrite nanoseconds_of in Hcut. fold cut in Hcut.
  pose proof (length_nonneg (TimePointLaws := qpc_laws frequency Hf) d Hd) as Hl.
  change (0 <= cut) in Hl. pose proof (filetime_length_range d Hd) as Hw. change (0 <= whole <= 184467440737095516159999999) in Hw.
  assert (forall T (point : Z -> T) z, (if in_range u64 z then Some (point z) else None) = option_map point (try_from u64 z))
    as Hnarrow by (intros; unfold try_from; by case_if).
  split; split_and_all.
  - unfold qpc_checked_add. rewrite (qpc_ticks_exact _ Hf), checked_add_try, narrowed_exact by done. by rewrite Hnarrow.
  - unfold qpc_checked_sub. rewrite (qpc_ticks_exact _ Hf), checked_sub_try by done. fold cut.
    rewrite counted_sub by (cbn in *; ranges; change (qpc_length frequency d) with cut; change (MAX u64) with 18446744073709551615; lia).
    by rewrite Hnarrow.
  - by apply qpc_since_exact.
  - nia.
  - nia.
  - unfold filetime_checked_add. rewrite filetime_intervals_exact by done. cbn [obind].
    rewrite checked_add_try, narrowed_exact by done. by rewrite Hnarrow.
  - unfold filetime_checked_sub. rewrite filetime_intervals_exact by done. cbn [obind]. rewrite checked_sub_try by done.
    rewrite counted_sub by (cbn in *; ranges; change (filetime_length d) with whole; change (MAX u64) with 18446744073709551615; lia).
    by rewrite Hnarrow.
  - by apply (sub_time_position (SystemClockLaws := filetime_clock_laws check) (mkFileTime x) (mkFileTime y)).
Qed.

Lemma windows_clock_exact_witness :
  qpc_checked_add 10000000 (mkQpcInstant 5) (mkDuration 1 199) = Ret (Some (mkQpcInstant 10000006)) /\
  filetime_checked_sub (mkFileTime 0) (mkDuration 0 100) = Ret None.
Proof.
  pose proof (windows_clock_exact true 10000000 5 0 0 0 (mkDuration 1 199) ltac:(by vm_compute) eq_refl eq_refl
    eq_refl eq_refl ltac:(by vm_compute)) as [[H _] _].
  pose proof (windows_clock_exact true 10000000 5 0 0 0 (mkDuration 0 100) ltac:(by vm_compute) eq_refl eq_refl
    eq_refl eq_refl ltac:(by vm_compute)) as (_ & _ & K & _).
  split; [exact H|exact K].
Defined.

(** ** The theorems of the interface at both platforms *)

Lemma instant_moves_inverse_witness :
  @checked_sub_duration _ (unix_instant true) (mkUnixInstant (mkTimespec 2 0)) (mkDuration 0 1) =
    Ret (Some (mkUnixInstant (mkTimespec 1 999999999))) /\
  @point_add _ (qpc_instant 1000) (mkQpcInstant (MAX u64)) (mkDuration 1 0) = Panic.
Proof.
  pose proof (proj1 (@instant_moves_inverse UnixInstant (unix_instant true) (unix_instant_laws true) (unix_instant_since true)
    (unix_monotonic_laws true) (mkUnixInstant (mkTimespec 1 999999999)) (mkUnixInstant (mkTimespec 2 0)) (mkDuration 0 1)
    ltac:(by vm_compute) ltac:(by vm_compute) ltac:(by vm_compute))) as H.
  pose proof (@instant_moves_inverse QpcInstant (qpc_instant 1000) (qpc_laws 1000 ltac:(by vm_compute)) (qpc_since true 1000)
    (qpc_monotonic_laws true 1000 ltac:(by vm_compute)) (mkQpcInstant (MAX u64)) (mkQpcInstant 0) (mkDuration 1 0)
    eq_refl eq_refl ltac:(by vm_compute)) as (_ & _ & K & _).
  split; [by apply H|by apply K].
Defined.

Lemma unix_time_roundtrip_witness :
  (exists x, @as_unix_time _ (filetime_clock true) (mkFileTime 7) = Ret x /\
    @from_unix_time _ (filetime_clock true) (unix_seconds x) (unix_nanoseconds x) = Ret (Some (mkFileTime 7))) /\
  @from_unix_time _ (unix_system_clock true) 0 1000000000 = Ret None.
Proof.
  pose proof (@unix_time_roundtrip FileTime filetime_system filetime_laws (filetime_clock true) (filetime_clock_laws true)
    (mkFileTime 7) (mkFileTime 0) 0 0 eq_refl eq_refl eq_refl eq_refl) as [H _].
  pose proof (@unix_time_roundtrip UnixSystemTime (unix_system true) (unix_system_laws true) (unix_system_clock true) (unix_clock_laws true)
    (mkUnixSystemTime (mkTimespec 0 0)) (mkUnixSystemTime (mkTimespec 0 0)) 0 1000000000
    ltac:(by vm_compute) ltac:(by vm_compute) eq_refl eq_refl) as (_ & _ & K & _).
  split; [exact H|]. apply K. left. by vm_compute.
Defined.
