(* ===== verification/Calendar.v ===== *)
(** * The civil calendar

    Models [calendar_detail], [ComponentRange], [Month], [Date] and [Time] of
    [src/std/src/time/calendar.cppm].  The calendar is the proleptic Gregorian
    one; its reference here is the day after: [tomorrow].  The code's closed
    formula for the number of a day counts the days of that reference, and its
    inverse finds the date of a number.

    The raw [int64_t] arithmetic of [calendar_detail] is arithmetic of [Z]:
    every argument comes from an [i32] year or from seconds of an [i64]
    divided by 86400, so its values stay far inside 64 bits
    ([civil_no_overflow]). *)

From Stdlib Require Import ZArith Lia ZifyBool String.
From S2P Require Import Prelude Int Duration Time.
Local Open Scope Z_scope.
Local Open Scope rstd_scope.

(** ** [calendar_detail]: [/] and [%] round towards zero *)

Definition floor_div (value divisor : Z) : Z :=
  let quotient := Z.quot value divisor in
  let remainder := Z.rem value divisor in
  if remainder <? 0 then quotient - 1 else quotient.

Definition rem_euclid (value divisor : Z) : Z :=
  let remainder := Z.rem value divisor in
  if remainder <? 0 then remainder + divisor else remainder.

Definition days_from_civil (year month day : Z) : Z :=
  let year := year - (if month <=? 2 then 1 else 0) in
  let era := floor_div year 400 in
  let year_of_era := year - era * 400 in
  let adjusted_month := month + (if 2 <? month then -3 else 9) in
  let day_of_year := Z.quot (153 * adjusted_month + 2) 5 + day - 1 in
  let day_of_era := year_of_era * 365 + Z.quot year_of_era 4 - Z.quot year_of_era 100 + day_of_year in
  era * 146097 + day_of_era - 719468.

Record CivilDate := mkCivilDate { civil_year : Z; civil_month : Z; civil_day : Z }.

Definition civil_from_days (days : Z) : CivilDate :=
  let shifted := days + 719468 in
  let era := if 0 <=? shifted then Z.quot shifted 146097 else Z.quot (shifted - 146096) 146097 in
  let day_of_era := shifted - era * 146097 in
  let year_of_era :=
    Z.quot (day_of_era - Z.quot day_of_era 1460 + Z.quot day_of_era 36524 - Z.quot day_of_era 146096) 365 in
  let year := year_of_era + era * 400 in
  let day_of_year := day_of_era - (365 * year_of_era + Z.quot year_of_era 4 - Z.quot year_of_era 100) in
  let month_prime := Z.quot (5 * day_of_year + 2) 153 in
  let day := day_of_year - Z.quot (153 * month_prime + 2) 5 + 1 in
  let month := month_prime + (if month_prime <? 10 then 3 else -9) in
  let year := year + (if month <=? 2 then 1 else 0) in
  mkCivilDate year (wrap u8 month) (wrap u8 day).

(** ** Errors and months *)

Record ComponentRange := mkComponentRange { range_name : string; range_conditional : bool }.

Definition unconditional (name : string) : ComponentRange := mkComponentRange name false.
Definition conditional (name : string) : ComponentRange := mkComponentRange name true.

Notation dated := (outcome ComponentRange).

(** The enumeration has [u8] values, January is 1 and December 12. *)
Record Month := mkMonth { number : Z }.

Definition January : Month := mkMonth 1.
Definition December : Month := mkMonth 12.

Definition month_from_number (raw : Z) : dated Month :=
  if (raw <? number January) || (number December <? raw) then Fail (unconditional "month")
  else Ret (mkMonth raw).

(** [*result] of a failed result panics. *)
Definition deref {E A} (r : outcome ComponentRange A) : outcome E A :=
  match r with Ret a => Ret a | Fail _ => Panic | Panic => Panic | OutOfFuel => OutOfFuel end.

(** ** [Date] *)

Record Date := mkDate { date_year : Z; date_ordinal : Z }.

Definition MIN_YEAR : Z := -9999.
Definition MAX_YEAR : Z := 9999.

(** [raw % 4 == 0 && (raw % 25 != 0 || raw % 16 == 0)] *)
Definition is_leap_year (raw : Z) : bool :=
  (Z.rem raw 4 =? 0) && (negb (Z.rem raw 25 =? 0) || (Z.rem raw 16 =? 0)).

Definition days_in_month (year : Z) (month : Month) : Z :=
  let n := number month in
  if n =? 2 then (if is_leap_year year then 29 else 28)
  else if (n =? 4) || (n =? 6) || (n =? 9) || (n =? 11) then 30
  else 31.

Section Date.
Context (check : bool) {E : Type}.

(** [for (u8 number(1); number <= 12; ++number)]; past December the code is
    unreachable. *)
Fixpoint month_day_loop (fuel : nat) (year n remaining : Z) : outcome E (Month * Z) :=
  match fuel with
  | O => OutOfFuel
  | S fuel =>
    if n <=? 12 then
      let! month := deref (month_from_number n) in
      let count := days_in_month year month in
      if remaining <=? count then Ret (month, wrap u8 remaining)
      else
        let! remaining := sub check u16 remaining count in
        let! n := add check u8 n 1 in
        month_day_loop fuel year n remaining
    else Panic
  end.

Definition month_day (self : Date) : outcome E (Month * Z) :=
  month_day_loop 13 (date_year self) 1 (date_ordinal self).

Definition days_since_unix_epoch (self : Date) : outcome E Z :=
  let! parts := month_day self in
  Ret (days_from_civil (date_year self) (number (fst parts)) (snd parts)).

(** [for (u8 number(1); number < month.number(); ++number)
       ordinal += days_in_month(year, number)] *)
Fixpoint ordinal_loop (fuel : nat) (year month n ordinal : Z) : outcome E Z :=
  match fuel with
  | O => OutOfFuel
  | S fuel =>
    if n <? month then
      let! previous := deref (month_from_number n) in
      let! ordinal := add check u16 ordinal (days_in_month year previous) in
      let! n := add check u8 n 1 in
      ordinal_loop fuel year month n ordinal
    else Ret ordinal
  end.
End Date.

Definition from_calendar_date (check : bool) (year : Z) (month : Month) (day : Z) : dated Date :=
  if (year <? MIN_YEAR) || (MAX_YEAR <? year) then Fail (unconditional "year")
  else if (number month <? 1) || (12 <? number month) then Fail (unconditional "month")
  else
    let month_days := days_in_month year month in
    if (day =? 0) || (month_days <? day) then Fail (conditional "day")
    else
      let! ordinal := ordinal_loop check 12 year (number month) 1 day in
      Ret (mkDate year ordinal).

Definition from_ordinal_date (year ordinal : Z) : dated Date :=
  if (year <? MIN_YEAR) || (MAX_YEAR <? year) then Fail (unconditional "year")
  else
    let maximum := if is_leap_year year then 366 else 365 in
    if (ordinal =? 0) || (maximum <? ordinal) then Fail (conditional "ordinal")
    else Ret (mkDate year ordinal).

Definition from_days_since_unix_epoch (check : bool) (days : Z) : dated Date :=
  let civil := civil_from_days days in
  if (civil_year civil <? MIN_YEAR) || (MAX_YEAR <? civil_year civil) then Fail (unconditional "timestamp")
  else
    match month_from_number (civil_month civil) with
    | Ret month => from_calendar_date check (wrap i32 (civil_year civil)) month (civil_day civil)
    | Fail _ => Fail (unconditional "timestamp")
    | Panic => Panic
    | OutOfFuel => OutOfFuel
    end.

(** [month()] and [day()] *)
Definition date_month (check : bool) (self : Date) : total_result Month :=
  let! parts := month_day check self in Ret (fst parts).
Definition date_day (check : bool) (self : Date) : total_result Z :=
  let! parts := month_day check self in Ret (snd parts).

(** [operator<=>], which compares the members in their order. *)
Definition date_cmp (a b : Date) : comparison :=
  match date_year a ?= date_year b with Eq => date_ordinal a ?= date_ordinal b | c => c end.

(** ** [Time] *)

Record Time := mkTime { hour : Z; minute : Z; second : Z; nanosecond : Z }.

Definition from_hms_nano (hour minute second nanosecond : Z) : dated Time :=
  if 24 <=? hour then Fail (unconditional "hour")
  else if 60 <=? minute then Fail (unconditional "minute")
  else if 60 <=? second then Fail (unconditional "second")
  else if NANOS_PER_SEC <=? nanosecond then Fail (unconditional "nanosecond")
  else Ret (mkTime hour minute second nanosecond).

Definition time_cmp (a b : Time) : comparison :=
  match hour a ?= hour b with
  | Eq =>
    match minute a ?= minute b with
    | Eq => match second a ?= second b with Eq => nanosecond a ?= nanosecond b | c => c end
    | c => c
    end
  | c => c
  end.

(** ** The reference calendar *)

Definition leap (y : Z) : bool :=
  (y mod 4 =? 0) && (negb (y mod 100 =? 0) || (y mod 400 =? 0)).

Definition month_length (y m : Z) : Z :=
  if m =? 2 then (if leap y then 29 else 28)
  else if (m =? 4) || (m =? 6) || (m =? 9) || (m =? 11) then 30 else 31.

Definition civil_ok (c : CivilDate) : Prop :=
  1 <= civil_month c <= 12 /\ 1 <= civil_day c <= month_length (civil_year c) (civil_month c).

(** The day after. *)
Definition tomorrow (c : CivilDate) : CivilDate :=
  let '(mkCivilDate y m d) := c in
  if d <? month_length y m then mkCivilDate y m (d + 1)
  else if m <? 12 then mkCivilDate y (m + 1) 1
  else mkCivilDate (y + 1) 1 1.

Definition civil_days (c : CivilDate) : Z := days_from_civil (civil_year c) (civil_month c) (civil_day c).

(** Days before the first of January of a year, of year 0 being 0. *)
Definition year_start (y : Z) : Z := 365 * y + (y + 3) / 4 - (y + 99) / 100 + (y + 399) / 400.

(** Days of a year before its month [m]. *)
Definition month_start (l : bool) (m : Z) : Z :=
  (367 * m - 362) / 12 - (if m <=? 2 then 0 else if l then 1 else 2).

Definition year_length (y : Z) : Z := if leap y then 366 else 365.

(** ** Rounding *)

Lemma rem_small v d : 0 < d -> - d < Z.rem v d < d.
Proof. intros Hd. pose proof (Z.rem_bound_abs v d ltac:(lia)). lia. Qed.

Lemma floor_div_floor v d : 0 < d -> floor_div v d = v / d.
Proof.
  intros Hd. unfold floor_div. pose proof (Z.quot_rem' v d). pose proof (rem_small v d Hd).
  case_if; [apply (Z.div_unique_pos v d _ (Z.rem v d + d))|apply (Z.div_unique_pos v d _ (Z.rem v d))]; lia.
Qed.

Lemma rem_euclid_mod v d : 0 < d -> rem_euclid v d = v mod d.
Proof.
  intros Hd. unfold rem_euclid. pose proof (Z.quot_rem' v d). pose proof (rem_small v d Hd).
  case_if; [apply (Z.mod_unique_pos v d (Z.quot v d - 1))|apply (Z.mod_unique_pos v d (Z.quot v d))]; lia.
Qed.

Lemma is_leap_year_leap y : is_leap_year y = leap y.
Proof. unfold is_leap_year, leap. Z.to_euclidean_division_equations. lia. Qed.

Lemma days_in_month_length y m : days_in_month y (mkMonth m) = month_length y m.
Proof. unfold days_in_month, month_length. cbn [number]. by rewrite is_leap_year_leap. Qed.

(** ** The number of a day *)

Ltac by_month m :=
  let H := fresh in
  assert (m = 1 \/ m = 2 \/ m = 3 \/ m = 4 \/ m = 5 \/ m = 6 \/ m = 7 \/ m = 8 \/ m = 9 \/ m = 10 \/
          m = 11 \/ m = 12) as H by lia;
  destruct H as [->|[->|[->|[->|[->|[->|[->|[->|[->|[->|[->| ->]]]]]]]]]]].

Lemma leap_cases y : leap y = true <-> y / 4 * 4 = y /\ (y / 100 * 100 <> y \/ y / 400 * 400 = y).
Proof. unfold leap. Z.to_euclidean_division_equations. lia. Qed.

Lemma year_start_step y : year_start (y + 1) = year_start y + year_length y.
Proof.
  unfold year_start, year_length. destruct (leap y) eqn:L.
  - apply leap_cases in L. Z.to_euclidean_division_equations. lia.
  - assert (~ (y / 4 * 4 = y /\ (y / 100 * 100 <> y \/ y / 400 * 400 = y))) as N by (rewrite <- leap_cases, L; done).
    clear L. Z.to_euclidean_division_equations. lia.
Qed.

(** The years of the code's eras begin in March. *)
Lemma march_start y : 365 * y + y / 4 - y / 100 + y / 400 = year_start y + month_start (leap y) 3 - 60.
Proof.
  unfold year_start, month_start. cbn [Z.leb Z.compare Pos.compare Pos.compare_cont Z.mul Pos.mul Z.sub Z.add].
  destruct (leap y) eqn:L.
  - apply leap_cases in L. Z.to_euclidean_division_equations. lia.
  - assert (~ (y / 4 * 4 = y /\ (y / 100 * 100 <> y \/ y / 400 * 400 = y))) as N by (rewrite <- leap_cases, L; done).
    clear L. Z.to_euclidean_division_equations. lia.
Qed.

(** The code's formula, without its eras. *)
Lemma days_from_civil_closed y m d : 1 <= m <= 12 ->
  days_from_civil y m d =
    (let y := y - (if m <=? 2 then 1 else 0) in 365 * y + y / 4 - y / 100 + y / 400) +
    (153 * (m + (if 2 <? m then -3 else 9)) + 2) / 5 + d - 719469.
Proof.
  intros Hm. unfold days_from_civil. rewrite floor_div_floor by lia. cbn zeta.
  set (y' := y - (if m <=? 2 then 1 else 0)). clearbody y'.
  rewrite (Z.quot_div_nonneg (153 * _ + 2)) by (try case_if; lia).
  pose proof (Z.div_mod y' 400 ltac:(lia)). pose proof (Z.mod_pos_bound y' 400 ltac:(lia)).
  rewrite !Z.quot_div_nonneg by lia. set (q := (153 * _ + 2) / 5). clearbody q.
  Z.to_euclidean_division_equations. lia.
Qed.

Lemma days_from_civil_start y m d : 1 <= m <= 12 ->
  days_from_civil y m d = year_start y + month_start (leap y) m + d - 719529.
Proof.
  intros Hm. rewrite days_from_civil_closed by done. cbn zeta.
  pose proof (march_start y) as H. pose proof (march_start (y - 1)) as H'.
  pose proof (year_start_step (y - 1)) as S. replace (y - 1 + 1) with y in S by lia. unfold year_length in S.
  unfold month_start in *. destruct (leap y), (leap (y - 1)); by_month m;
    cbn -[year_start Z.div] in *;
    change (153 * 10 + 2) with 1532 in *; Z.to_euclidean_division_equations; lia.
Qed.

(** ** The day after *)

Lemma month_start_step y m : 1 <= m <= 11 ->
  month_start (leap y) (m + 1) = month_start (leap y) m + month_length y m.
Proof. intros Hm. unfold month_start, month_length. destruct (leap y); by_month m; reflexivity || lia. Qed.

Lemma month_start_last y : month_start (leap y) 12 + month_length y 12 = year_length y.
Proof. unfold month_start, month_length, year_length. by destruct (leap y). Qed.

Lemma month_start_first l : month_start l 1 = 0.
Proof. by destruct l. Qed.

Lemma month_length_range y m : 28 <= month_length y m <= 31.
Proof. unfold month_length. repeat case_if; lia. Qed.

Lemma tomorrow_ok c : civil_ok c -> civil_ok (tomorrow c).
Proof.
  destruct c as [y m d]. unfold civil_ok. cbn [civil_year civil_month civil_day tomorrow]. intros [Hm Hd].
  pose proof (month_length_range y (m + 1)). pose proof (month_length_range (y + 1) 1).
  case_if; [|case_if]; cbn [civil_year civil_month civil_day]; lia.
Qed.

Lemma civil_days_tomorrow c : civil_ok c -> civil_days (tomorrow c) = civil_days c + 1.
Proof.
  destruct c as [y m d]. unfold civil_ok, civil_days. cbn [civil_year civil_month civil_day tomorrow]. intros [Hm Hd].
  case_if; [|case_if]; cbn [civil_year civil_month civil_day]; rewrite !days_from_civil_start by lia.
  - lia.
  - rewrite month_start_step by lia. lia.
  - assert (m = 12) as -> by lia. rewrite year_start_step, month_start_first.
    pose proof (month_start_last y). lia.
Qed.

(** ** The date of a number *)

Lemma year_of_era_spec doe : 0 <= doe < 146097 ->
  let yoe := (doe - doe / 1460 + doe / 36524 - doe / 146096) / 365 in
  let doy := doe - (365 * yoe + yoe / 4 - yoe / 100) in
  0 <= yoe < 400 /\ 0 <= doy <= 365 /\
  (doy = 365 -> (yoe + 1) / 4 * 4 = yoe + 1 /\ ((yoe + 1) / 100 * 100 <> yoe + 1 \/ yoe = 399)).
Proof. intros H yoe doy. subst doy yoe. Z.to_euclidean_division_equations. lia. Qed.

(** What the code makes of a day of the March year, checked for each of its
    366 days. *)
Definition day_checked (doy : Z) : bool :=
  let mp := (5 * doy + 2) / 153 in
  let d := doy - (153 * mp + 2) / 5 + 1 in
  let m := mp + (if mp <? 10 then 3 else -9) in
  (0 <=? mp) && (1 <=? m) && (m <=? 12) && (1 <=? d) &&
  (d <=? (if m =? 2 then (if doy =? 365 then 29 else 28) else month_length 1 m)) &&
  ((153 * (m + (if 2 <? m then -3 else 9)) + 2) / 5 + d - 1 =? doy) &&
  (Z.quot (153 * mp + 2) 5 =? (153 * mp + 2) / 5).

Lemma days_checked doy : 0 <= doy <= 365 -> day_checked doy = true.
Proof.
  intros H. assert (forallb day_checked (seqZ 0 366) = true) as Hall by (by vm_compute).
  rewrite forallb_forall in Hall. apply Hall, list_elem_of_In, elem_of_seqZ. lia.
Qed.

Lemma day_checked_spec doy : 0 <= doy <= 365 ->
  let mp := (5 * doy + 2) / 153 in
  let d := doy - (153 * mp + 2) / 5 + 1 in
  let m := mp + (if mp <? 10 then 3 else -9) in
  0 <= mp /\ 1 <= m <= 12 /\ 1 <= d <= (if m =? 2 then (if doy =? 365 then 29 else 28) else month_length 1 m) /\
  (153 * (m + (if 2 <? m then -3 else 9)) + 2) / 5 + d - 1 = doy.
Proof. intros H. pose proof (days_checked doy H) as Hc. unfold day_checked in Hc. cbn zeta. lia. Qed.

Lemma month_length_other y m : m <> 2 -> month_length y m = month_length 1 m.
Proof. unfold month_length. intros. by replace (m =? 2) with false by lia. Qed.

(** The code's era is the floor of its quotient. *)
Lemma era_floor s : (if 0 <=? s then Z.quot s 146097 else Z.quot (s - 146096) 146097) = s / 146097.
Proof. case_if; Z.to_euclidean_division_equations; lia. Qed.

Lemma leap_era yoe era : 0 <= yoe < 400 -> (yoe + 1) / 4 * 4 = yoe + 1 ->
  (yoe + 1) / 100 * 100 <> yoe + 1 \/ yoe = 399 -> leap (yoe + era * 400 + 1) = true.
Proof. intros. apply leap_cases. Z.to_euclidean_division_equations. lia. Qed.

Lemma civil_from_days_spec n : civil_ok (civil_from_days n) /\ civil_days (civil_from_days n) = n.
Proof.
  unfold civil_from_days. cbn zeta. rewrite era_floor. set (s := n + 719468). set (era := s / 146097).
  assert (0 <= s - era * 146097 < 146097) as Hdoe by (subst era; Z.to_euclidean_division_equations; lia).
  set (doe := s - era * 146097) in *.
  rewrite (Z.quot_div_nonneg doe 1460), (Z.quot_div_nonneg doe 36524), (Z.quot_div_nonneg doe 146096) by lia.
  pose proof (year_of_era_spec doe Hdoe) as Hy. cbn zeta in Hy.
  rewrite (Z.quot_div_nonneg (doe - _ + _ - _)) by (try lia; Z.to_euclidean_division_equations; lia).
  set (yoe := (doe - doe / 1460 + doe / 36524 - doe / 146096) / 365) in *. clearbody yoe.
  rewrite (Z.quot_div_nonneg yoe 4), (Z.quot_div_nonneg yoe 100) by lia.
  set (doy := doe - (365 * yoe + yoe / 4 - yoe / 100)) in *. destruct Hy as (Hy & Hdoy & Hleap).
  rewrite (Z.quot_div_nonneg (5 * doy + 2)) by lia.
  pose proof (day_checked_spec doy Hdoy) as (Hmp & Hm & Hd & Hback). cbn zeta in Hmp, Hm, Hd, Hback.
  set (mp := (5 * doy + 2) / 153) in *. clearbody mp.
  rewrite (Z.quot_div_nonneg (153 * mp + 2)) by lia.
  set (m := mp + (if mp <? 10 then 3 else -9)) in *. set (d := doy - (153 * mp + 2) / 5 + 1) in *. clearbody m d.
  assert (d <= 31) as Hd31 by (revert Hd; pose proof (month_length_range 1 m); repeat case_if; lia).
  rewrite !(wrap_id u8) by (done || (ranges; lia)).
  unfold civil_ok, civil_days. cbn [civil_year civil_month civil_day]. split.
  - split; [lia|]. destruct (m =? 2) eqn:E2.
    + assert (m = 2) as -> by lia. unfold month_length. cbn [Z.eqb Z.leb Z.compare Pos.compare Pos.compare_cont Pos.eqb].
      destruct (doy =? 365) eqn:E365; [|split; [lia|]; case_if; lia].
      destruct (Hleap ltac:(lia)) as [L1 L2]. by rewrite leap_era.
    + rewrite month_length_other by lia. lia.
  - rewrite days_from_civil_closed by lia. cbn zeta.
    replace (yoe + era * 400 + (if m <=? 2 then 1 else 0) - (if m <=? 2 then 1 else 0)) with (yoe + era * 400) by lia.
    set (x := (153 * (m + _) + 2) / 5) in *. clearbody x.
    assert (n = era * 146097 + doe - 719468) as E by (subst doe s; lia). rewrite E.
    revert Hback Hy. subst doy. clear. clearbody doe. clearbody era. intros.
    Z.to_euclidean_division_equations. lia.
Qed.

(** The numbers of days order the dates. *)
Definition civil_before (a b : CivilDate) : Prop :=
  civil_year a < civil_year b \/
  (civil_year a = civil_year b /\ (civil_month a < civil_month b \/
    (civil_month a = civil_month b /\ civil_day a < civil_day b))).

Lemma month_start_mono l m m' : 1 <= m < m' -> m' <= 12 -> month_start l m + (if m =? 2 then (if l then 29 else 28)
  else if (m =? 4) || (m =? 6) || (m =? 9) || (m =? 11) then 30 else 31) <= month_start l m'.
Proof. intros. destruct l; assert (1 <= m <= 12) as Hm by lia; by_month m; by_month m'; first [lia|by vm_compute]. Qed.

Lemma month_start_range y m d : 1 <= m <= 12 -> 1 <= d <= month_length y m ->
  1 <= month_start (leap y) m + d <= year_length y.
Proof. unfold month_length, year_length. intros Hm Hd. destruct (leap y); by_month m; unfold month_start; cbn -[Z.div Z.mul] in *; Z.to_euclidean_division_equations; lia. Qed.

Lemma year_start_mono a b : a < b -> year_start a + year_length a <= year_start b.
Proof.
  intros H. rewrite <- year_start_step. assert (a + 1 <= b) as H' by lia. clear H.
  unfold year_start. Z.to_euclidean_division_equations. lia.
Qed.

Lemma year_start_le a b : a <= b -> year_start a <= year_start b.
Proof. intros H. unfold year_start. Z.to_euclidean_division_equations. lia. Qed.

Lemma civil_days_mono a b : civil_ok a -> civil_ok b -> civil_before a b -> civil_days a < civil_days b.
Proof.
  destruct a as [y m d], b as [y' m' d']. unfold civil_ok, civil_before, civil_days.
  cbn [civil_year civil_month civil_day]. intros [Hm Hd] [Hm' Hd'] H. rewrite !days_from_civil_start by done.
  pose proof (month_start_range y m d Hm Hd). pose proof (month_start_range y' m' d' Hm' Hd').
  destruct H as [Hy|[-> [Hlt|[-> Hlt]]]].
  - pose proof (year_start_mono y y' Hy). lia.
  - pose proof (month_start_mono (leap y') m m' ltac:(lia) ltac:(lia)) as Hs.
    unfold month_length in Hd. lia.
  - lia.
Qed.

Lemma civil_days_inj a b : civil_ok a -> civil_ok b -> civil_days a = civil_days b -> a = b.
Proof.
  intros Ha Hb E. destruct a as [y m d] eqn:Ea, b as [y' m' d'] eqn:Eb. rewrite <- Ea, <- Eb in *.
  assert (civil_before a b \/ civil_before b a \/ (y = y' /\ m = m' /\ d = d')) as [H|[H|(-> & -> & ->)]].
  { subst a b. unfold civil_before. cbn [civil_year civil_month civil_day]. lia. }
  - pose proof (civil_days_mono a b Ha Hb H). lia.
  - pose proof (civil_days_mono b a Hb Ha H). lia.
  - congruence.
Qed.

Lemma civil_days_order a b : civil_ok a -> civil_ok b -> civil_before a b <-> civil_days a < civil_days b.
Proof.
  intros Ha Hb. split; [by apply civil_days_mono|]. intros H.
  destruct a as [y m d] eqn:Ea, b as [y' m' d'] eqn:Eb. rewrite <- Ea, <- Eb in *.
  assert (civil_before a b \/ civil_before b a \/ (y = y' /\ m = m' /\ d = d')) as [K|[K|(-> & -> & ->)]].
  { subst a b. unfold civil_before. cbn [civil_year civil_month civil_day]. lia. }
  - done.
  - pose proof (civil_days_mono b a Hb Ha K). lia.
  - exfalso. assert (a = b) by congruence. subst. lia.
Qed.

(** ** Dates hold a day of a year *)

Definition date_ok (d : Date) : Prop :=
  MIN_YEAR <= date_year d <= MAX_YEAR /\ 1 <= date_ordinal d <= year_length (date_year d).

(** The date of a civil day. *)
Definition date_of (c : CivilDate) : Date :=
  mkDate (civil_year c) (month_start (leap (civil_year c)) (civil_month c) + civil_day c).

Lemma month_from_ok n : 1 <= n <= 12 -> month_from_number n = Ret (mkMonth n).
Proof. intros. unfold month_from_number. cbn [number January December]. by case_if; [lia|]. Qed.

Lemma date_of_ok c : civil_ok c -> MIN_YEAR <= civil_year c <= MAX_YEAR -> date_ok (date_of c).
Proof. intros [Hm Hd] Hy. split; [done|]. by apply month_start_range. Qed.

Section Loops.
Context (check : bool) {E : Type} (y : Z).

Lemma month_start_nonneg m : 1 <= m <= 12 -> 0 <= month_start (leap y) m <= 335.
Proof. intros Hm. by_month m; destruct (leap y); by vm_compute. Qed.

Lemma month_day_loop_spec fuel n r :
  Z.of_nat fuel + n = 14 -> 1 <= n <= 12 -> 1 <= r -> month_start (leap y) n + r <= year_length y ->
  exists m d, month_day_loop check fuel y n r = (Ret (mkMonth m, d) : outcome E _) /\
    civil_ok (mkCivilDate y m d) /\ month_start (leap y) m + d = month_start (leap y) n + r.
Proof.
  revert n r. induction fuel as [|fuel IH]; intros n r Hf Hn Hr Hy; [lia|]. cbn [month_day_loop].
  replace (n <=? 12) with true by lia. rewrite month_from_ok by done. cbn [deref obind].
  rewrite days_in_month_length. pose proof (month_length_range y n). pose proof (month_start_nonneg n Hn).
  assert (year_length y <= 366) by (unfold year_length; case_if; lia).
  destruct (r <=? month_length y n) eqn:Hle.
  - exists n, r. rewrite wrap_id by (done || (ranges; lia)). split; [done|]. split; [|done].
    unfold civil_ok. cbn. lia.
  - rewrite sub_fits by (done || (ranges; lia)). cbn [obind]. rewrite add_fits by (done || (ranges; lia)). cbn [obind].
    assert (n <> 12) by (intros ->; pose proof (month_start_last y); lia).
    pose proof (month_start_step y n ltac:(lia)) as Hs.
    destruct (IH (n + 1) (r - month_length y n)) as (m & d & Hrun & Hok & Ho); [lia..|].
    exists m, d. split; [done|]. split; [done|]. lia.
Qed.

Lemma ordinal_loop_spec fuel m n o :
  m - n < Z.of_nat fuel -> 1 <= n <= m -> m <= 12 -> 0 <= o <= 31 + month_start (leap y) n ->
  ordinal_loop check fuel y m n o = (Ret (o + month_start (leap y) m - month_start (leap y) n) : outcome E Z).
Proof.
  revert n o. induction fuel as [|fuel IH]; intros n o Hf Hn Hm Ho; [lia|]. cbn [ordinal_loop].
  pose proof (month_start_nonneg n ltac:(lia)). pose proof (month_length_range y n).
  destruct (n <? m) eqn:Hlt; [|assert (n = m) as -> by lia; f_equal; lia].
  rewrite month_from_ok by lia. cbn [deref obind]. rewrite days_in_month_length.
  pose proof (month_start_step y n ltac:(lia)) as Hs.
  rewrite add_fits by (done || (ranges; lia)). cbn [obind]. rewrite add_fits by (done || (ranges; lia)). cbn [obind].
  rewrite IH by lia. f_equal. lia.
Qed.
End Loops.

Lemma month_day_exact check {E} d : date_ok d -> exists c, civil_ok c /\ d = date_of c /\
  month_day check d = (Ret (mkMonth (civil_month c), civil_day c) : outcome E _).
Proof.
  intros [_ Ho]. destruct d as [y o]. cbn [date_year date_ordinal] in *. unfold month_day.
  cbn [date_year date_ordinal].
  destruct (month_day_loop_spec check (E := E) y 13 1 o) as (m & dd & Hrun & Hok & E');
    [lia..|rewrite month_start_first; lia|].
  exists (mkCivilDate y m dd). rewrite month_start_first in E'. split; [done|]. split; [|done].
  unfold date_of. cbn. f_equal. lia.
Qed.

Lemma date_of_inj a b : civil_ok a -> civil_ok b -> date_of a = date_of b -> a = b.
Proof.
  intros Ha Hb E. apply civil_days_inj; [done..|]. destruct Ha as [Hm _], Hb as [Hm' _].
  unfold civil_days. rewrite !days_from_civil_start by done. unfold date_of in E. injection E as Ey Eo.
  rewrite Ey in *. lia.
Qed.

Lemma days_since_exact check {E} c : civil_ok c -> MIN_YEAR <= civil_year c <= MAX_YEAR ->
  days_since_unix_epoch check (date_of c) = (Ret (civil_days c) : outcome E Z).
Proof.
  intros Hc Hy. unfold days_since_unix_epoch.
  destruct (month_day_exact check (E := E) (date_of c)) as (c' & Hc' & Hd & ->); [by apply date_of_ok|].
  apply date_of_inj in Hd as <-; done.
Qed.

(** Days from the epoch to the first and from the epoch to the last day of
    the supported years. *)
Definition MIN_DAY : Z := -4371587.
Definition MAX_DAY : Z := 2932896.

Lemma year_supported n :
  MIN_YEAR <= civil_year (civil_from_days n) <= MAX_YEAR <-> MIN_DAY <= n <= MAX_DAY.
Proof.
  destruct (civil_from_days_spec n) as [Hok Hn]. set (c := civil_from_days n) in *.
  destruct c as [y m d]. unfold civil_days in Hn. cbn [civil_year civil_month civil_day] in *.
  destruct Hok as [Hm Hd]. cbn [civil_year civil_month civil_day] in *.
  rewrite days_from_civil_start in Hn by done. pose proof (month_start_range y m d Hm Hd) as Hr.
  assert (year_start MIN_YEAR = -3652059 /\ year_start MAX_YEAR + year_length MAX_YEAR = 3652425) as [Hmin Hmax]
    by (by vm_compute).
  unfold MIN_DAY, MAX_DAY. split; intros.
  - pose proof (year_start_le MIN_YEAR y ltac:(lia)). pose proof (year_start_le (y + 1) (MAX_YEAR + 1) ltac:(lia)).
    rewrite !year_start_step in *. lia.
  - split.
    + destruct (Z.lt_ge_cases y MIN_YEAR) as [L|]; [|done]. pose proof (year_start_mono y MIN_YEAR L). lia.
    + destruct (Z.lt_ge_cases MAX_YEAR y) as [L|]; [|done]. pose proof (year_start_mono MAX_YEAR y L). lia.
Qed.

Lemma civil_from_civil_days c : civil_ok c -> civil_from_days (civil_days c) = c.
Proof.
  intros Hc. destruct (civil_from_days_spec (civil_days c)) as [Hok E]. by apply civil_days_inj.
Qed.

(** Seconds of an [i64] are days far inside 64 bits, and so are the values the
    formulas pass through. *)
Lemma civil_no_overflow s :
  in_range i64 s = true ->
  let n := floor_div s 86400 in
  in_range i64 (n + 719468) = true /\ in_range i64 (n + 719468 - 146096) = true /\
  in_range i64 (civil_year (civil_from_days n)) = true.
Proof.
  intros Hs n. assert (-200000000000000 <= n <= 200000000000000) as Hn
    by (subst n; rewrite floor_div_floor by lia; ranges; Z.to_euclidean_division_equations; lia).
  split_and_all; [ranges; lia..|]. destruct (civil_from_days_spec n) as [[Hm Hd] E]. clearbody n.
  destruct (civil_from_days n) as [y m d]. unfold civil_days in E. cbn [civil_year civil_month civil_day] in *.
  rewrite days_from_civil_start in E by done. pose proof (month_start_range y m d Hm Hd).
  assert (year_length y <= 366) by (unfold year_length; case_if; lia). unfold year_start in E. ranges.
  Z.to_euclidean_division_equations. lia.
Qed.

(** C33: the calendar formulas count days.  Day 0 is the first of January 1970,
    the date of the next number is the day after, in either direction for all
    time; number and date determine each other; and an earlier date has the
    smaller number.  [tomorrow] and its leap years are the Gregorian rules. *)
Theorem civil_calendar_exact n c : civil_ok c ->
  civil_from_days 0 = mkCivilDate 1970 1 1 /\
  civil_ok (civil_from_days n) /\
  civil_from_days (n + 1) = tomorrow (civil_from_days n) /\
  civil_days (civil_from_days n) = n /\
  civil_from_days (civil_days c) = c /\
  civil_days (tomorrow c) = civil_days c + 1 /\
  (forall c', civil_ok c' -> civil_before c c' <-> civil_days c < civil_days c').
Proof.
  intros Hc. destruct (civil_from_days_spec n) as [Hok Hn]. split_and_all; try done.
  - rewrite <- (civil_from_civil_days (tomorrow _)) by (by apply tomorrow_ok).
    f_equal. by rewrite civil_days_tomorrow, Hn.
  - by apply civil_from_civil_days.
  - by apply civil_days_tomorrow.
  - intros c' Hc'. by apply civil_days_order.
Qed.

Lemma civil_calendar_exact_witness :
  civil_from_days (civil_days (mkCivilDate 2000 2 29)) = mkCivilDate 2000 2 29 /\
  civil_days (tomorrow (mkCivilDate 1900 2 28)) = civil_days (mkCivilDate 1900 3 1).
Proof.
  pose proof (civil_calendar_exact 0 (mkCivilDate 2000 2 29) ltac:(by vm_compute)) as (_ & _ & _ & _ & H & _).
  pose proof (civil_calendar_exact 0 (mkCivilDate 1900 2 28) ltac:(by vm_compute)) as (_ & _ & _ & _ & _ & K & _).
  split; [exact H|exact K].
Defined.

Lemma from_calendar_exact check c : civil_ok c -> MIN_YEAR <= civil_year c <= MAX_YEAR ->
  from_calendar_date check (civil_year c) (mkMonth (civil_month c)) (civil_day c) = Ret (date_of c).
Proof.
  destruct c as [y m d]. unfold civil_ok, date_of. cbn [civil_year civil_month civil_day]. intros [Hm Hd] Hy.
  unfold from_calendar_date. cbn [number]. rewrite days_in_month_length.
  replace ((y <? MIN_YEAR) || (MAX_YEAR <? y)) with false by lia.
  replace ((m <? 1) || (12 <? m)) with false by lia.
  replace ((d =? 0) || (month_length y m <? d)) with false by lia.
  pose proof (month_length_range y m). rewrite ordinal_loop_spec by (rewrite ?month_start_first; lia). cbn [obind].
  rewrite month_start_first. do 2 f_equal. lia.
Qed.

Lemma from_calendar_refused check y m d : 0 <= m -> 0 <= d ->
  match from_calendar_date check y (mkMonth m) d with
  | Ret _ => MIN_YEAR <= y <= MAX_YEAR /\ civil_ok (mkCivilDate y m d)
  | Fail e => e = unconditional "year" /\ ~ MIN_YEAR <= y <= MAX_YEAR \/
      e = unconditional "month" /\ ~ 1 <= m <= 12 \/
      e = conditional "day" /\ 1 <= m <= 12 /\ ~ 1 <= d <= month_length y m
  | _ => False
  end.
Proof.
  intros Hm Hd.
  destruct ((y <? MIN_YEAR) || (MAX_YEAR <? y)) eqn:Ey; [unfold from_calendar_date; rewrite Ey; left; split; [done|lia]|].
  destruct ((m <? 1) || (12 <? m)) eqn:Em.
  { unfold from_calendar_date. rewrite Ey. cbn [number]. rewrite Em. right. left. split; [done|lia]. }
  destruct ((d =? 0) || (month_length y m <? d)) eqn:Ed.
  { unfold from_calendar_date. rewrite Ey. cbn [number]. rewrite Em, days_in_month_length, Ed.
    right. right. split; [done|]. split; lia. }
  assert (civil_ok (mkCivilDate y m d)) as Hok by (unfold civil_ok; cbn; lia).
  pose proof (from_calendar_exact check _ Hok) as H. cbn [civil_year civil_month civil_day] in H.
  rewrite H by lia. split; [lia|done].
Qed.

Lemma from_days_exact check n : from_days_since_unix_epoch check n =
  if (MIN_DAY <=? n) && (n <=? MAX_DAY) then Ret (date_of (civil_from_days n)) else Fail (unconditional "timestamp").
Proof.
  unfold from_days_since_unix_epoch. pose proof (year_supported n) as Hy.
  destruct (civil_from_days_spec n) as [Hok _]. set (c := civil_from_days n) in *. clearbody c.
  destruct ((civil_year c <? MIN_YEAR) || (MAX_YEAR <? civil_year c)) eqn:E.
  - replace ((MIN_DAY <=? n) && (n <=? MAX_DAY)) with false by lia. done.
  - replace ((MIN_DAY <=? n) && (n <=? MAX_DAY)) with true by lia.
    rewrite month_from_ok by apply Hok. rewrite wrap_id; [apply from_calendar_exact; [done|lia]|done|].
    unfold MIN_YEAR, MAX_YEAR in *. ranges. lia.
Qed.

Lemma date_ordered c c' : civil_ok c -> civil_ok c' -> date_cmp (date_of c) (date_of c') = (civil_days c ?= civil_days c').
Proof.
  destruct c as [y m d], c' as [y' m' d']. unfold civil_ok, civil_days, date_of, date_cmp.
  cbn [civil_year civil_month civil_day date_year date_ordinal]. intros [Hm Hd] [Hm' Hd'].
  rewrite !days_from_civil_start by done.
  pose proof (month_start_range y m d Hm Hd). pose proof (month_start_range y' m' d' Hm' Hd').
  destruct (Z.compare_spec y y') as [->|L|L]; symmetry.
  - destruct (Z.compare_spec (month_start (leap y') m + d) (month_start (leap y') m' + d')) as [E|E|E].
    + rewrite Z.compare_eq_iff. lia.
    + rewrite Z.compare_lt_iff. lia.
    + rewrite Z.compare_gt_iff. lia.
  - rewrite Z.compare_lt_iff. pose proof (year_start_mono _ _ L). lia.
  - rewrite Z.compare_gt_iff. pose proof (year_start_mono _ _ L). lia.
Qed.

(** Dates are the days of the years -9999 to 9999.  [from_calendar_date]
    accepts exactly the days of the calendar in those years, and otherwise
    names the component at fault: the year, then the month, then the day; the
    date reads back as the year, month and day it was made of.
    [from_ordinal_date] accepts exactly the ordinals of the year.  A date and
    its number of days since the epoch determine each other, in the order of
    [operator<=>]; a number outside the supported years is an error.  No
    step overflows, and the loops end within the twelve months. *)
Theorem date_components_exact check year month day n ordinal d d' :
  0 <= month <= 255 -> 0 <= day <= 255 -> 0 <= ordinal <= 65535 -> date_ok d -> date_ok d' ->
  match from_calendar_date check year (mkMonth month) day with
  | Ret r => MIN_YEAR <= year <= MAX_YEAR /\ civil_ok (mkCivilDate year month day) /\ date_ok r /\
      date_year r = year /\ date_month check r = Ret (mkMonth month) /\ date_day check r = Ret day /\
      days_since_unix_epoch check r = (Ret (days_from_civil year month day) : total_result Z)
  | Fail e => e = unconditional "year" /\ ~ MIN_YEAR <= year <= MAX_YEAR \/
      e = unconditional "month" /\ ~ 1 <= month <= 12 \/
      e = conditional "day" /\ 1 <= month <= 12 /\ ~ 1 <= day <= month_length year month
  | _ => False
  end /\
  match from_ordinal_date year ordinal with
  | Ret r => r = mkDate year ordinal /\ date_ok r
  | Fail e => ~ date_ok (mkDate year ordinal)
  | _ => False
  end /\
  match from_days_since_unix_epoch check n with
  | Ret r => MIN_DAY <= n <= MAX_DAY /\ date_ok r /\ days_since_unix_epoch check r = (Ret n : total_result Z)
  | Fail e => e = unconditional "timestamp" /\ ~ MIN_DAY <= n <= MAX_DAY
  | _ => False
  end /\
  exists m, days_since_unix_epoch check d = (Ret m : total_result Z) /\ from_days_since_unix_epoch check m = Ret d /\
    exists m', days_since_unix_epoch check d' = (Ret m' : total_result Z) /\ date_cmp d d' = (m ?= m').
Proof.
  intros Hm Hday Hord Hd Hd'. split_and_all.
  - pose proof (from_calendar_refused check year month day ltac:(lia) ltac:(lia)) as H.
    destruct (from_calendar_date check year (mkMonth month) day) as [r|e| |] eqn:E; try done.
    destruct H as [Hy Hc]. pose proof (from_calendar_exact check _ Hc Hy) as H. cbn [civil_year civil_month civil_day] in H.
    assert (r = date_of (mkCivilDate year month day)) as -> by congruence.
    pose proof (date_of_ok _ Hc Hy) as Hok. split_and_all; try done; try lia.
    + unfold date_month. destruct (month_day_exact check (E := Empty_set) _ Hok) as (c & Hc' & Hdc & ->).
      by apply date_of_inj in Hdc as <-.
    + unfold date_day. destruct (month_day_exact check (E := Empty_set) _ Hok) as (c & Hc' & Hdc & ->).
      by apply date_of_inj in Hdc as <-.
    + by apply (days_since_exact check (mkCivilDate year month day)).
  - unfold from_ordinal_date, date_ok. cbn [date_year date_ordinal]. rewrite is_leap_year_leap.
    change (if leap year then 366 else 365) with (year_length year). case_if; [lia|]. case_if; [lia|].
    split; [done|]. cbn. lia.
  - rewrite from_days_exact. case_if; [|split; [done|lia]]. destruct (civil_from_days_spec n) as [Hok E].
    assert (MIN_DAY <= n <= MAX_DAY) as Hn by lia. pose proof (proj2 (year_supported n) Hn) as Hy.
    split; [lia|]. split; [by apply date_of_ok|]. rewrite days_since_exact by done. by rewrite E.
  - destruct (month_day_exact check (E := Empty_set) d Hd) as (c & Hc & -> & _).
    destruct (month_day_exact check (E := Empty_set) d' Hd') as (c' & Hc' & -> & _).
    exists (civil_days c). rewrite days_since_exact by (done || apply Hd). split; [done|]. split.
    + rewrite from_days_exact. pose proof (year_supported (civil_days c)) as Hy.
      rewrite civil_from_civil_days in * by done. destruct Hd as [Hd _]. apply Hy in Hd. by case_if; [|lia].
    + exists (civil_days c'). rewrite days_since_exact by (done || apply Hd'). split; [done|]. by apply date_ordered.
Qed.

Lemma date_components_exact_witness :
  date_day true (mkDate 2024 60) = Ret 29 /\ from_calendar_date true 2023 (mkMonth 2) 29 = Fail (conditional "day").
Proof.
  pose proof (date_components_exact true 2024 2 29 0 60 (mkDate 2024 60) (mkDate 2024 60) ltac:(lia) ltac:(lia) ltac:(lia)
    ltac:(by vm_compute) ltac:(by vm_compute)) as [H _].
  pose proof (date_components_exact true 2023 2 29 0 60 (mkDate 2024 60) (mkDate 2024 60) ltac:(lia) ltac:(lia) ltac:(lia)
    ltac:(by vm_compute) ltac:(by vm_compute)) as [K _].
  split.
  - destruct (from_calendar_date true 2024 (mkMonth 2) 29) as [r|e| |] eqn:E; [|by vm_compute in E..].
    vm_compute in E. injection E as <-. apply H.
  - destruct (from_calendar_date true 2023 (mkMonth 2) 29) as [r|e| |] eqn:E; [by vm_compute in E| |by vm_compute in E..].
    destruct K as [[_ K]|[[_ K]|[-> _]]]; [|lia|done]. exfalso. apply K. by vm_compute.
Defined.
