(* ===== verification/DateTime.v ===== *)
(** * Dates and times with an offset

    Models [PlainDateTime], [UtcOffset] and [OffsetDateTime] of
    [src/std/src/time/calendar.cppm] and the conversion of a [SystemTime] in
    [src/std/src/time/mod.cppm], over [Calendar] and the clock interface of
    [Clock].  A value is the instant it denotes, a count of seconds and
    nanoseconds since the epoch, together with the offset it is written in;
    the conversions change one and keep the other.  What the system answers
    about its own offset is an argument. *)

From Stdlib Require Import ZArith Lia ZifyBool String.
From S2P Require Import Prelude Int Duration Time Clock Calendar.
Local Open Scope Z_scope.
Local Open Scope rstd_scope.

Record PlainDateTime := mkPlainDateTime { plain_date : Date; plain_time : Time }.
Record UtcOffset := mkUtcOffset { whole_seconds : Z }.
Record OffsetDateTime := mkOffsetDateTime { local_ : PlainDateTime; offset_ : UtcOffset }.

Definition UTC : UtcOffset := mkUtcOffset 0.

Definition from_whole_seconds (seconds : Z) : dated UtcOffset :=
  if (seconds <? -86399) || (86399 <? seconds) then Fail (unconditional "offset")
  else Ret (mkUtcOffset seconds).

Definition is_utc (self : UtcOffset) : bool := whole_seconds self =? 0.

Definition assume_utc (self : PlainDateTime) : OffsetDateTime := mkOffsetDateTime self UTC.
Definition assume_offset (self : PlainDateTime) (offset : UtcOffset) : OffsetDateTime :=
  mkOffsetDateTime self offset.

Section OffsetDateTime.
Context (check : bool).

(** [u8(hour)]: the quotients of the seconds within a day are narrowed. *)
Definition from_local_seconds (seconds nanoseconds : Z) (offset : UtcOffset) : dated OffsetDateTime :=
  if NANOS_PER_SEC <=? nanoseconds then Fail (unconditional "nanosecond")
  else
    let days := floor_div seconds 86400 in
    let within_day := rem_euclid seconds 86400 in
    match from_days_since_unix_epoch check days with
    | Fail _ => Fail (unconditional "timestamp")
    | Panic => Panic
    | OutOfFuel => OutOfFuel
    | Ret date =>
      let hour := Z.quot within_day 3600 in
      let minute := Z.quot (Z.rem within_day 3600) 60 in
      let second := Z.rem within_day 60 in
      match from_hms_nano (wrap u8 hour) (wrap u8 minute) (wrap u8 second) nanoseconds with
      | Fail _ => Fail (unconditional "timestamp")
      | Panic => Panic
      | OutOfFuel => OutOfFuel
      | Ret time => Ret (mkOffsetDateTime (mkPlainDateTime date time) offset)
      end
    end.

Definition date_time_from_unix (seconds nanoseconds : Z) : dated OffsetDateTime :=
  from_local_seconds seconds nanoseconds UTC.

Definition unix_time (self : OffsetDateTime) : total_result UnixTime :=
  let time := plain_time (local_ self) in
  let! days := days_since_unix_epoch check (plain_date (local_ self)) in
  let! date_seconds := mul check i64 days 86400 in
  let! hours := mul check i64 (hour time) 3600 in
  let! minutes := mul check i64 (minute time) 60 in
  let! sum := add check i64 hours minutes in
  let! time_seconds := add check i64 sum (second time) in
  let! all := add check i64 date_seconds time_seconds in
  let! seconds := sub check i64 all (whole_seconds (offset_ self)) in
  Ret (mkUnixTime seconds (nanosecond time)).

Definition checked_to_offset (self : OffsetDateTime) (offset : UtcOffset) : total_result (option OffsetDateTime) :=
  let! timestamp := unix_time self in
  match checked_add i64 (unix_seconds timestamp) (whole_seconds offset) with
  | None => Ret None
  | Some local_seconds =>
    match from_local_seconds local_seconds (unix_nanoseconds timestamp) offset with
    | Ret converted => Ret (Some converted)
    | Fail _ => Ret None
    | Panic => Panic
    | OutOfFuel => OutOfFuel
    end
  end.

(** [operator==] and [operator<=>] *)
Definition date_time_eq (left right : OffsetDateTime) : total_result bool :=
  let! l := unix_time left in
  let! r := unix_time right in
  Ret ((unix_seconds l =? unix_seconds r) && (unix_nanoseconds l =? unix_nanoseconds r)).

Definition date_time_cmp (left right : OffsetDateTime) : total_result comparison :=
  let! l := unix_time left in
  let! r := unix_time right in
  Ret (match unix_seconds l ?= unix_seconds r with
       | Eq => unix_nanoseconds l ?= unix_nanoseconds r
       | c => c
       end).

(** [TryFrom<SystemTime>] *)
Definition date_time_from_system {T} `{SystemClock T} (value : T) : dated OffsetDateTime :=
  match as_unix_time value with
  | Ret timestamp => date_time_from_unix (unix_seconds timestamp) (unix_nanoseconds timestamp)
  | Fail e => match e with end
  | Panic => Panic
  | OutOfFuel => OutOfFuel
  end.

(** [now_utc]: [now] is the reading of the system clock. *)
Definition now_utc {T} `{SystemClock T} (now : T) : total_result OffsetDateTime :=
  deref (date_time_from_system now).

(** [local_offset_at] and [now_local]: [local_offset] is what the system
    answers for an instant, and [None] stands for [IndeterminateOffset]. *)
Definition local_offset_at (local_offset : Z -> option Z) (datetime : OffsetDateTime)
    : total_result (option UtcOffset) :=
  let! timestamp := unix_time datetime in
  match local_offset (unix_seconds timestamp) with
  | None => Ret None
  | Some seconds =>
    match from_whole_seconds seconds with
    | Ret offset => Ret (Some offset)
    | Fail _ => Ret None
    | Panic => Panic
    | OutOfFuel => OutOfFuel
    end
  end.

Definition now_local {T} `{SystemClock T} (local_offset : Z -> option Z) (now : T)
    : total_result (option OffsetDateTime) :=
  let! utc := now_utc now in
  let! offset := local_offset_at local_offset utc in
  match offset with
  | None => Ret None
  | Some offset => checked_to_offset utc offset
  end.
End OffsetDateTime.

(** ** Instants *)

Definition time_ok (t : Time) : Prop :=
  0 <= hour t < 24 /\ 0 <= minute t < 60 /\ 0 <= second t < 60 /\ 0 <= nanosecond t < NANOS_PER_SEC.

Definition offset_ok (o : UtcOffset) : Prop := -86399 <= whole_seconds o <= 86399.

Definition date_time_ok (dt : OffsetDateTime) : Prop :=
  date_ok (plain_date (local_ dt)) /\ time_ok (plain_time (local_ dt)) /\ offset_ok (offset_ dt).

(** The seconds since midnight. *)
Definition time_seconds (t : Time) : Z := hour t * 3600 + minute t * 60 + second t.

(** The date and time of a count of local seconds. *)
Definition local_of (s n : Z) : PlainDateTime :=
  mkPlainDateTime (date_of (civil_from_days (s / 86400)))
    (mkTime (s mod 86400 / 3600) (s mod 3600 / 60) (s mod 60) n).

(** The first and the last second of the supported years. *)
Definition MIN_SECOND : Z := MIN_DAY * 86400.
Definition MAX_SECOND : Z := MAX_DAY * 86400 + 86399.

(** The local seconds of a value: its day and time of day, from the epoch. *)
Definition local_seconds_of (p : PlainDateTime) (s : Z) : Prop :=
  exists c, civil_ok c /\ plain_date p = date_of c /\ s = civil_days c * 86400 + time_seconds (plain_time p).

Section Exact.
Context (check : bool).

Lemma from_hms_exact h m s n : 0 <= h < 24 -> 0 <= m < 60 -> 0 <= s < 60 -> 0 <= n < NANOS_PER_SEC ->
  from_hms_nano h m s n = Ret (mkTime h m s n).
Proof. intros. unfold from_hms_nano. repeat (case_if; [lia|]). done. Qed.

Lemma from_local_exact s n o : in_range u32 n = true ->
  from_local_seconds check s n o =
    if NANOS_PER_SEC <=? n then Fail (unconditional "nanosecond")
    else if (MIN_SECOND <=? s) && (s <=? MAX_SECOND) then Ret (mkOffsetDateTime (local_of s n) o)
    else Fail (unconditional "timestamp").
Proof.
  intros Hn. unfold from_local_seconds. case_if; [done|].
  rewrite floor_div_floor, rem_euclid_mod, from_days_exact by lia. unfold MIN_SECOND, MAX_SECOND, MIN_DAY, MAX_DAY.
  destruct ((-4371587 <=? s / 86400) && (s / 86400 <=? 2932896)) eqn:E.
  - replace ((-4371587 * 86400 <=? s) && (s <=? 2932896 * 86400 + 86399)) with true
      by (Z.to_euclidean_division_equations; lia).
    assert (0 <= s mod 86400 < 86400) as Hs by (apply Z.mod_pos_bound; lia).
    rewrite Z.quot_div_nonneg, !Z.rem_mod_nonneg, Z.quot_div_nonneg by (lia || (Z.to_euclidean_division_equations; lia)).
    replace (s mod 86400 mod 3600) with (s mod 3600) by (Z.to_euclidean_division_equations; lia).
    replace (s mod 86400 mod 60) with (s mod 60) by (Z.to_euclidean_division_equations; lia).
    rewrite !(wrap_id u8) by (done || (ranges; Z.to_euclidean_division_equations; lia)).
    rewrite from_hms_exact; [done|..]; ranges; Z.to_euclidean_division_equations; lia.
  - replace ((-4371587 * 86400 <=? s) && (s <=? 2932896 * 86400 + 86399)) with false
      by (Z.to_euclidean_division_equations; lia). done.
Qed.

Lemma local_seconds_bounds p s : date_ok (plain_date p) -> time_ok (plain_time p) -> local_seconds_of p s ->
  MIN_SECOND <= s <= MAX_SECOND.
Proof.
  intros [Hy _] Ht (c & Hc & E & ->). rewrite E in Hy. cbn in Hy.
  rewrite <- (civil_from_civil_days c Hc) in Hy. apply year_supported in Hy.
  unfold time_ok, time_seconds, MIN_SECOND, MAX_SECOND in *. lia.
Qed.

Lemma local_seconds_unique p s s' : local_seconds_of p s -> local_seconds_of p s' -> s = s'.
Proof.
  intros (c & Hc & E & ->) (c' & Hc' & E' & ->). rewrite E in E'. by apply date_of_inj in E' as ->.
Qed.

Lemma local_seconds_exists p : date_ok (plain_date p) -> exists s, local_seconds_of p s.
Proof.
  intros Hd. destruct (month_day_exact check (E := Empty_set) _ Hd) as (c & Hc & E & _).
  exists (civil_days c * 86400 + time_seconds (plain_time p)). by exists c.
Qed.

(** Local seconds and fields determine each other. *)
Lemma local_of_seconds s n : 0 <= n < NANOS_PER_SEC -> MIN_SECOND <= s <= MAX_SECOND ->
  date_ok (plain_date (local_of s n)) /\ time_ok (plain_time (local_of s n)) /\ local_seconds_of (local_of s n) s.
Proof.
  intros Hn Hs. destruct (civil_from_days_spec (s / 86400)) as [Hc E]. unfold local_of. cbn [plain_date plain_time].
  split; [|split].
  - apply date_of_ok; [done|]. apply year_supported.
    unfold MIN_SECOND, MAX_SECOND, MIN_DAY, MAX_DAY in *. Z.to_euclidean_division_equations; lia.
  - unfold time_ok. cbn [hour minute second nanosecond]. Z.to_euclidean_division_equations. lia.
  - exists (civil_from_days (s / 86400)). split; [done|]. split; [done|]. rewrite E. unfold time_seconds.
    cbn [plain_time hour minute second]. Z.to_euclidean_division_equations. lia.
Qed.

Lemma seconds_local_of p s : time_ok (plain_time p) -> local_seconds_of p s ->
  local_of s (nanosecond (plain_time p)) = p.
Proof.
  destruct p as [d [h m sc n]]. unfold time_ok, local_seconds_of, local_of, time_seconds.
  cbn [plain_date plain_time hour minute second nanosecond]. intros Ht (c & Hc & -> & ->).
  replace ((civil_days c * 86400 + (h * 3600 + m * 60 + sc)) / 86400) with (civil_days c)
    by (Z.to_euclidean_division_equations; lia).
  rewrite civil_from_civil_days by done. f_equal. f_equal; Z.to_euclidean_division_equations; lia.
Qed.

Lemma unix_time_exact dt s : date_time_ok dt -> local_seconds_of (local_ dt) s ->
  unix_time check dt = Ret (mkUnixTime (s - whole_seconds (offset_ dt)) (nanosecond (plain_time (local_ dt)))).
Proof.
  intros (Hd & Ht & Ho) Hs. pose proof (local_seconds_bounds _ _ Hd Ht Hs) as Hb.
  destruct Hs as (c & Hc & E & ->). unfold unix_time. rewrite E.
  rewrite days_since_exact; [|done|]. 2: { rewrite E in Hd. apply Hd. }
  unfold time_ok, offset_ok, time_seconds, MIN_SECOND, MAX_SECOND, MIN_DAY, MAX_DAY in *. cbn [obind].
  do 7 ((rewrite mul_fits by (done || (ranges; lia))) || (rewrite add_fits by (done || (ranges; lia))) ||
        (rewrite sub_fits by (done || (ranges; lia))); cbn [obind]).
  do 2 f_equal; lia.
Qed.
End Exact.

(** The instant of a value, as a Unix time. *)
Definition denotes_time (dt : OffsetDateTime) (s n : Z) : Prop :=
  local_seconds_of (local_ dt) (s + whole_seconds (offset_ dt)) /\ nanosecond (plain_time (local_ dt)) = n.

Section Instants.
Context (check : bool).

Lemma denotes_exists dt : date_time_ok dt -> exists s n, denotes_time dt s n /\
  unix_time check dt = Ret (mkUnixTime s n) /\ in_range i64 s = true /\ in_range u32 n = true /\ n < NANOS_PER_SEC /\
  MIN_SECOND <= s + whole_seconds (offset_ dt) <= MAX_SECOND.
Proof.
  intros Hok. pose proof Hok as (Hd & Ht & Ho). destruct (local_seconds_exists check _ Hd) as [l Hl].
  pose proof (local_seconds_bounds _ _ Hd Ht Hl) as Hb.
  exists (l - whole_seconds (offset_ dt)), (nanosecond (plain_time (local_ dt))). unfold denotes_time.
  replace (l - whole_seconds (offset_ dt) + whole_seconds (offset_ dt)) with l by lia.
  split_and_all; try done; [by apply unix_time_exact|..]; unfold time_ok, NANOS_PER_SEC, offset_ok, MIN_SECOND, MAX_SECOND, MIN_DAY, MAX_DAY in *;
    ranges; lia.
Qed.

Lemma denotes_unix dt s n : date_time_ok dt -> denotes_time dt s n -> unix_time check dt = Ret (mkUnixTime s n).
Proof.
  intros Hok [Hs <-]. rewrite (unix_time_exact check dt (s + whole_seconds (offset_ dt))) by done. do 2 f_equal. lia.
Qed.

(** A count of seconds and the nanoseconds make a value that denotes them. *)
Lemma local_denotes s n o : 0 <= n < NANOS_PER_SEC -> offset_ok o -> MIN_SECOND <= s <= MAX_SECOND ->
  let dt := mkOffsetDateTime (local_of s n) o in
  date_time_ok dt /\ denotes_time dt (s - whole_seconds o) n.
Proof.
  intros Hn Ho Hs. destruct (local_of_seconds s n Hn Hs) as (Hd & Ht & Hl). cbn zeta. split; [done|].
  unfold denotes_time. cbn [local_ offset_]. by replace (s - whole_seconds o + whole_seconds o) with s by lia.
Qed.

(** Two values with the same offset that denote the same instant are equal. *)
Lemma denotes_inj a b s n : date_time_ok a -> date_time_ok b -> offset_ a = offset_ b ->
  denotes_time a s n -> denotes_time b s n -> a = b.
Proof.
  intros (_ & Ha & _) (_ & Hb & _) E [Sa Na] [Sb Nb]. destruct a as [pa oa], b as [pb ob].
  cbn [local_ offset_] in *. subst ob. f_equal.
  rewrite <- (seconds_local_of pa _ Ha Sa), <- (seconds_local_of pb _ Hb Sb). congruence.
Qed.
End Instants.

Lemma utc_ok : offset_ok UTC.
Proof. by vm_compute. Qed.

(** C32: dates and times in UTC are Unix times.  [from_unix_time] accepts
    exactly the seconds of the years -9999 to 9999 and nanoseconds below a
    second, and says which was at fault; what it makes denotes that instant,
    and its calendar fields are those of its day and its time of day; every
    value has a Unix time, computed without overflow, and a value in UTC is
    the one made of its Unix time. *)
Theorem date_time_unix_roundtrip check s n dt :
  in_range u32 n = true -> date_time_ok dt ->
  match date_time_from_unix check s n with
  | Ret r => MIN_SECOND <= s <= MAX_SECOND /\ date_time_ok r /\ offset_ r = UTC /\
      unix_time check r = Ret (mkUnixTime s n) /\
      plain_date (local_ r) = date_of (civil_from_days (s / 86400)) /\
      time_seconds (plain_time (local_ r)) = s mod 86400 /\ nanosecond (plain_time (local_ r)) = n
  | Fail e => e = unconditional "nanosecond" /\ NANOS_PER_SEC <= n \/
      e = unconditional "timestamp" /\ ~ MIN_SECOND <= s <= MAX_SECOND
  | _ => False
  end /\
  exists x, unix_time check dt = Ret x /\
    (offset_ dt = UTC -> date_time_from_unix check (unix_seconds x) (unix_nanoseconds x) = Ret dt).
Proof.
  intros Hn Hdt. unfold date_time_from_unix. split.
  - rewrite from_local_exact by done. case_if; [left; split; [done|lia]|]. case_if; [|right; split; [done|lia]].
    destruct (local_denotes s n UTC) as [Hok Hden]; [ranges; lia|apply utc_ok|lia|].
    rewrite (denotes_unix check _ _ _ Hok Hden). cbn [whole_seconds UTC].
    split_and_all; try done; [lia..|by rewrite Z.sub_0_r|].
    unfold time_seconds. cbn [local_ local_of plain_time hour minute second]. Z.to_euclidean_division_equations. lia.
  - destruct (denotes_exists check dt Hdt) as (s' & n' & Hden & Hu & _ & Hn' & Hlt & Hb). exists (mkUnixTime s' n').
    split; [done|]. intros Hutc. cbn [unix_seconds unix_nanoseconds]. rewrite from_local_exact by done.
    rewrite Hutc in Hb. cbn [whole_seconds UTC] in Hb. case_if; [lia|]. case_if; [|lia]. f_equal.
    destruct (local_denotes s' n' UTC) as [Hok Hd2]; [ranges; lia|apply utc_ok|lia|].
    cbn [whole_seconds UTC] in Hd2. rewrite Z.sub_0_r in Hd2. by apply (denotes_inj _ _ s' n').
Qed.

Lemma date_time_unix_roundtrip_witness :
  exists r, date_time_from_unix true 951782400 5 = Ret r /\
    plain_date (local_ r) = date_of (mkCivilDate 2000 2 29) /\ unix_time true r = Ret (mkUnixTime 951782400 5).
Proof.
  pose proof (date_time_unix_roundtrip true 951782400 5
    (mkOffsetDateTime (mkPlainDateTime (mkDate 1970 1) (mkTime 0 0 0 0)) UTC) eq_refl
    ltac:(by vm_compute)) as [H _].
  destruct (date_time_from_unix true 951782400 5) as [r|e| |] eqn:E; [|by vm_compute in E..].
  exists r. destruct H as (_ & _ & _ & H & K & _). split; [done|]. split; [|done].
  rewrite K. by vm_compute.
Defined.

(** Changing the offset keeps the instant.  [checked_to_offset] returns
    the value at the wanted offset that denotes the same instant, and equals
    it under [operator==]; it fails exactly when the local date would be
    beyond the supported years; going to the offset a value has changes
    nothing.  [operator==] and [operator<=>] compare instants, whatever the
    offsets. *)
Theorem to_offset_keeps_instant check dt dt' o :
  date_time_ok dt -> date_time_ok dt' -> offset_ok o ->
  exists s n s' n', unix_time check dt = Ret (mkUnixTime s n) /\ unix_time check dt' = Ret (mkUnixTime s' n') /\
  date_time_eq check dt dt' = Ret ((s =? s') && (n =? n')) /\
  date_time_cmp check dt dt' = Ret (s * NANOS_PER_SEC + n ?= s' * NANOS_PER_SEC + n') /\
  match checked_to_offset check dt o with
  | Ret (Some r) => date_time_ok r /\ offset_ r = o /\ unix_time check r = Ret (mkUnixTime s n) /\
      date_time_eq check dt r = Ret true /\ (o = offset_ dt -> r = dt)
  | Ret None => ~ MIN_SECOND <= s + whole_seconds o <= MAX_SECOND
  | _ => False
  end.
Proof.
  intros Hdt Hdt' Ho. destruct (denotes_exists check dt Hdt) as (s & n & Hden & Hu & Hs & Hn & Hlt & Hb).
  destruct (denotes_exists check dt' Hdt') as (s' & n' & _ & Hu' & _ & Hn' & Hlt' & _).
  exists s, n, s', n'. split; [done|]. split; [done|].
  unfold date_time_eq, date_time_cmp, checked_to_offset. rewrite Hu, Hu'. cbn [obind unix_seconds unix_nanoseconds].
  split; [done|]. split.
  { f_equal. destruct (Z.compare_spec s s') as [->|L|L]; symmetry.
    - apply Z.add_compare_mono_l.
    - rewrite Z.compare_lt_iff. unfold NANOS_PER_SEC in *. ranges. lia.
    - rewrite Z.compare_gt_iff. unfold NANOS_PER_SEC in *. ranges. lia. }
  destruct Hdt as (Hd & Ht & Hoff). unfold offset_ok, MIN_SECOND, MAX_SECOND, MIN_DAY, MAX_DAY in *.
  rewrite checked_add_try, try_from_some by (done || (ranges; lia)). rewrite from_local_exact by done.
  case_if; [lia|]. unfold MIN_SECOND, MAX_SECOND, MIN_DAY, MAX_DAY. case_if; [|lia].
  destruct (local_denotes (s + whole_seconds o) n o) as [Hok Hden']; [ranges; lia|done|
    unfold MIN_SECOND, MAX_SECOND, MIN_DAY, MAX_DAY; lia|].
  replace (s + whole_seconds o - whole_seconds o) with s in Hden' by lia.
  rewrite (denotes_unix check _ _ _ Hok Hden'). cbn [obind unix_seconds unix_nanoseconds]. rewrite !Z.eqb_refl.
  split_and_all; try done. intros E. by apply (denotes_inj _ _ s n).
Qed.

Lemma to_offset_keeps_instant_witness :
  exists r, checked_to_offset true (assume_utc (mkPlainDateTime (mkDate 1999 365) (mkTime 23 30 0 0))) (mkUtcOffset 3600)
      = Ret (Some r) /\
    offset_ r = mkUtcOffset 3600 /\ plain_date (local_ r) = mkDate 2000 1.
Proof.
  destruct (to_offset_keeps_instant true (assume_utc (mkPlainDateTime (mkDate 1999 365) (mkTime 23 30 0 0)))
    (assume_utc (mkPlainDateTime (mkDate 1999 365) (mkTime 23 30 0 0))) (mkUtcOffset 3600)
    ltac:(by vm_compute) ltac:(by vm_compute) ltac:(by vm_compute)) as (s & n & s' & n' & _ & _ & _ & _ & H).
  destruct (checked_to_offset _ _ _) as [[r|]|e| |] eqn:E; [|by vm_compute in E..].
  exists r. split; [done|]. split; [apply H|]. vm_compute in E. by injection E as <-.
Defined.

(** A system time converts to the value in UTC that denotes it, or is beyond
    the supported years; the clock cuts nothing more. *)
Lemma system_time_converts {T} `{SystemClockLaws T} check (t : T) : point_ok t ->
  exists x, as_unix_time t = Ret x /\ from_unix_time (unix_seconds x) (unix_nanoseconds x) = Ret (Some t) /\
  match date_time_from_system check t with
  | Ret r => date_time_ok r /\ offset_ r = UTC /\ unix_time check r = Ret x
  | Fail e => e = unconditional "timestamp" /\ ~ MIN_SECOND <= unix_seconds x <= MAX_SECOND
  | _ => False
  end.
Proof.
  intros Ht. destruct (as_unix_position t Ht) as (s & n & E & Hs & Hn & Hg & Hp).
  exists (mkUnixTime s n). assert (in_range u32 n = true) as Hn32 by (unfold NANOS_PER_SEC in *; ranges; lia).
  split; [done|]. cbn [unix_seconds unix_nanoseconds]. split.
  - pose proof (from_unix_position s n Hs Hn32) as Hf. pose proof (position_range t Ht).
    destruct (from_unix_time s n) as [[v|]| | |]; try done; [|lia].
    destruct Hf as (Hv & _ & Hpv). do 2 f_equal. apply position_inj; [done..|congruence].
  - unfold date_time_from_system. rewrite E. cbn [unix_seconds unix_nanoseconds].
    unfold date_time_from_unix. rewrite from_local_exact by done. case_if; [lia|]. case_if; [|split; [done|lia]].
    destruct (local_denotes s n UTC) as [Hok Hden]; [lia|apply utc_ok|lia|].
    rewrite (denotes_unix check _ _ _ Hok Hden). cbn [whole_seconds UTC]. by rewrite Z.sub_0_r.
Qed.
